(* ===== verification/_CoqProject ===== *)
-Q . S2P
Prelude.v
DoublyLinkedList.v
CachePolicy.v
LinkedMap.v
Lru.v
Filo.v
LiquidPolicy.v
SecondChance.v
Sieve.v
Clock.v
PolicySpecs.v
S3Fifo.v
Bytes.v
Arrow.v
BitPack.v
CivilDate.v
SqueezedDate32.v
Expressions.v
Budget.v
DataTypes.v
Ipc.v
LiquidPrimitive.v
Floats.v
CompactOffsets.v
Fsst.v
ByteCache.v
VariantSchema.v
Formats.v
ByteDict.v
ByteView.v
ByteCompare.v
ByteViewSpec.v
ByteViewReads.v
ByteViewAnswers.v
ByteArray.v
ByteArraySpec.v
FixedLenByteArray.v
FixedLenSpec.v
LinearArray.v
LinearSpec.v
HybridArray.v
HybridSpec.v
FloatArray.v
FloatSpec.v
FloatOrder.v
FloatSqueezeSpec.v
LiquidArrays.v
SampleFormats.v
IntegerFormats.v
Observer.v
CacheEntry.v
Transcode.v
VariantArray.v
Squeeze.v
Hydration.v
Core.v
CoreInv.v
CoreOps.v
CoreReads.v
Builders.v
CacheSpec.v
ParquetIds.v
RowSelection.v
BooleanBuffers.v
AndThen.v
BooleanSelection.v
ColumnCache.v
Reader.v
ReaderSpec.v
RowFilter.v
Stream.v
StreamRows.v
StreamSpec.v
StreamSound.v
Lineage.v
LineageSpec.v
LineageSound.v
LineageAnnotations.v
FieldMetadata.v
RowGroupPruning.v
