(* ===== verification/Prelude.v ===== *)
(** * LiquidCache: a verification library

    LiquidCache is a cache of Arrow columns between a query engine and object
    storage.  Entries (a batch of one column) are held in memory as Arrow arrays,
    as liquid arrays (bit-packed or FSST-compressed) or as squeezed liquid arrays
    (only part of the information, the rest on disk), or on disk.  When the memory
    budget is exhausted the cache asks a cache policy for victims and a squeeze
    policy what replaces them; reads may promote an entry again (hydration).  All
    paths below are relative to [src/src/].

    ** Structure

    The bottom layer.
    - [Prelude] (this file): outcomes of Rust calls, machine integers, sums over a
      map, the development's tactics and hints.
    - [Bytes], [Arrow]: little-endian bytes, validity bitmaps, primitive arrays and
      the FastLanes codec.  The arrow and fastlanes crates are not part of the
      repository: they are classes ([NullBuffers], [Fastlanes]) whose laws state
      the documented behaviour, each with an instance on which the laws are proved.

    Cache policies ([storage/src/cache/policies/cache/]).
    - [DoublyLinkedList]: the intrusive list over an explicit heap, with the
      representation predicate [rep] (segments in the style of separation logic).
    - [LinkedMap]: hash map and list together, shared by the policies.
    - [CachePolicy]: the trait, as a class [CachePolicy] with the laws
      [PolicyLaws] that the cache relies on; [Lru], [Filo], [LiquidPolicy],
      [Sieve], [Clock] implement it and [S3Fifo] does not (see the theorem).
    - [SecondChance], [PolicySpecs]: the abstract machines and the refinements.

    Encodings ([storage/src/liquid_array/], [storage/src/utils/]).
    - [BitPack]: the packed arrays everything below is stored in; [Ipc]: the header
      of serialised arrays; [LiquidPrimitive]: frame-of-reference and delta arrays.
    - [HybridArray]: primitive arrays squeezed to half of their bits, clamped or
      quantized, with the comparisons they answer from memory; [HybridSpec]: that
      the answers are those of the whole column.
    - [CivilDate], [SqueezedDate32]: squeezed date components.
    - [Floats]: the operations on [f64] that the encodings use, on the Standard
      Library's binary floating-point numbers, then [f32] and [f64] as bit patterns
      with their conversions and comparisons; [CompactOffsets]: offsets as a fitted
      line and residuals; [Fsst]: buffers of FSST-compressed strings over the class
      [FsstLib], symbol tables, prefix keys.
    - [LinearArray], [LinearSpec]: integers as the residuals of a
      fitted line; [FloatArray]: the ALP encoding of floats (exponents chosen on a
      sample, patches) and its squeeze to buckets, [FloatSpec] the round trip,
      [FloatOrder] that decoding keeps the order, [FloatSqueezeSpec] the answers
      of the squeezed array.
    - [ByteDict], [ByteView], [ByteCompare]: dictionaries of byte strings with
      their predicates and fingerprints, the byte view arrays in memory and on
      disk, their comparisons; [ByteViewSpec], [ByteViewReads], [ByteViewAnswers]: what
      decides without the strings, the byte format and reads, answers; [ByteArray], [ByteArraySpec]: the byte arrays without prefix keys;
      [FixedLenByteArray], [FixedLenSpec]: decimals over the same parts.
    - [LiquidArrays]: all formats together, [read_from_bytes] and the format that
      each column is transcoded to.
    - [DataTypes], [VariantSchema], [VariantArray]: type tags, variant columns (with
      std's [BTreeMap] as sorted association lists).
    - [ByteCache] ([storage/src/utils/byte_cache.rs]): ranges of objects in chunks.
    - [Formats]: what the cache relies on from the array formats, as the classes
      [ArrowLib] (third-party) and [LiquidFormats] (the trait [LiquidArray] and
      [LiquidSqueezedArray]) with the laws [FormatLaws]; [IntegerFormats] builds the
      instance of the integer, date and timestamp columns from [LiquidPrimitive],
      [SqueezedDate32] and [HybridArray] and proves every law of it; [SampleFormats]
      is a small instance in which every entry kind and variant columns occur.

    The cache ([storage/src/cache/]).
    - [Expressions], [Budget], [Observer], [CacheEntry], [Transcode], [Squeeze],
      [Hydration]: one file per Rust module.
    - [Core]: [LiquidCache] with its operations as they are composed in [core.rs];
      [Builders]: the requests a caller makes.
    - [CoreInv], [CoreOps], [CoreReads]: the invariant [cache_inv] and that each
      operation keeps it; [CacheSpec]: the specification (a map from entries to
      values) and the refinement, what it says of the integer columns of the source,
      the insertion that never returns, the statistics.

    The reader ([parquet/src/]).
    - [ParquetIds], [RowSelection], [BooleanSelection]: entry identifiers, row
      selections and the combination of selections; [BooleanBuffers], [AndThen]:
      bit buffers and [boolean_buffer_and_then], with and without BMI2.
    - [ColumnCache]: files, row groups and columns over the cache, predicates over
      several columns, shredded variants; [Reader]: the stream of the batches of a
      row group; [ReaderSpec]: that it yields the selected rows.
    - [RowFilter]: the columns of a projection mask ([reader/runtime/utils.rs]), the
      row filter that is built from an expression
      ([reader/plantime/row_filter.rs]);
      [Stream]: the stream of a file ([reader/runtime/liquid_stream.rs]), which
      plans a row group, fills the cache from the parquet decoder and reads back
      through the reader; [StreamRows], [StreamSpec]: the rows and batches of a
      plan, the cache after a fill, runs of the stream; [StreamSound]: what a stream
      returns, with a decoder that satisfies the hypotheses.
    - [RowGroupPruning]: the row groups that a scan leaves out
      ([reader/plantime/row_group_filter.rs]), by range, statistics, bloom filters.
    - [FieldMetadata]: annotations in the metadata of fields, from the table to the
      cache ([optimizers/mod.rs], [reader/plantime/opener.rs]).
    - [Lineage]: the logical optimizer of [optimizers/lineage_opt.rs], the lineage
      of expressions and plans and the annotations of scans; [LineageSpec]: what
      expressions and plans evaluate to; [LineageSound], [LineageAnnotations]: what
      the annotations promise, how they reach the scans, and the uses that the
      analysis does not see.

    ** Modelling choices

    A Rust call returns an [outcome]: a value, [Panic], or [Undefined] (a freed
    pointer).  [NoFuel] only marks an exhausted fuel; the theorems prove that it
    does not occur, with the fuel given explicitly (the squeeze of a victim has
    four rounds, an operation of the cache seven units, an eviction scan of CLOCK
    or SIEVE twice the queue's length).  Integers are [Z] with the wrap-around of
    their width written out ([usize], [wrapu], [wraps]).  A [Mutex] protects one
    state; what is done under it is one step.  The memory budget, which is
    updated without a lock, is modelled as interleaved threads ([Budget]).  Hash
    maps are finite maps; where the iteration order of a [HashMap] matters (the
    destructors of the policies) the theorems quantify over it.

    ** What the theorems show

    [cache_refines_map] is the main one: with a cache policy that gives out memory
    entries only, formats that satisfy [FormatLaws] and operations without variant
    hints, any sequence of cache operations on a cache that starts empty
    terminates, does not panic and answers every read from the map of the values
    inserted last.  [integer_insert_get] is its consequence for the integer, date
    and timestamp formats of the source, of which no law is assumed.
    [cache_invariant_step], [squeeze_victim_terminates],
    [squeeze_chain_reaches_disk], [flush_empties_memory],
    [budget_interleaving_safe] and [stats_consistent] are
    the invariants behind it.  [reader_returns_selected_rows] composes the cache
    with the reader: a row group that is cached gives exactly the selected rows on
    which every predicate is true, batch by batch.
    [stream_returns_selected_rows] adds the stream: whatever part of a file is
    cached, reading it to its end fills the cache with what is missing and
    returns, over all row groups, the rows that the selection, the offset, the
    limit and the predicates keep; [plan_continues_window] is the step from one
    row group to the next, [row_filter_exact] says that the row filter built from
    an expression, whatever the order of its predicates, keeps the rows on which
    the expression is true, and [row_group_pruning_safe] that a row group which is
    left out has no such row or is outside of the range.  The refinements of
    [PolicySpecs] say which victims each policy gives and that its raw pointers
    are used safely.  The round trips of [BitPack], [LiquidPrimitive],
    [SqueezedDate32], [CivilDate] and [DataTypes] concern the encodings,
    [VariantSchema] and [VariantArray] the shredded variants ([insert_path_shreds]).  [clamped_exact] and
    [quantized_exact] say that a squeezed column answers reads, filters and
    comparisons as the column itself; [byte_view_roundtrip],
    [byte_view_predicates_exact], [byte_view_like] and [byte_view_on_disk] the same
    of columns of strings, on [compact_offsets_exact] and [fsst_roundtrip],
    [byte_array_roundtrip] and [byte_array_predicates_exact] of byte arrays.  [linear_exact],
    [float_roundtrip] and [decimal_roundtrip] are the round trips of the other
    formats, [ipc_roundtrip] that of any column through transcoding, bytes and the
    dispatch on the header; [float_squeezed_exact] says when a squeezed float
    column answers comparisons as the column itself.  [lineage_sound] says that a
    query that computes its output and whose plan the analysis follows cannot tell
    apart databases that agree on the annotated components of a column, so that they
    are all the cache has to keep;
    [annotations_served] and [rewrite_annotates] relate annotations to recorded
    uses and to the rewritten scans, [column_hint_serves] follows them through
    the metadata of fields to the expression the cache is given.
    [byte_cache_exact] says that the byte cache gives the bytes of the object.
    A few theorems state what the code gets wrong:
    [s3_fifo_duplicate_victim], [oversized_insert_never_returns],
    [transcode_dictionary_panics], [insert_path_inner_leaf_ignored],
    [and_then_short_right_undefined], [delta_signed_exact_unsigned_not],
    [byte_cache_paths_collide], [shared_prefix_answer_out_of_bounds],
    [null_column_undefined], [like_pattern_panics], [linear_wide_types_lossy],
    [float_squeezed_wrong], [limit_cuts_before_filter],
    [nested_predicate_reads_leaf], [narrow_decimal_pruned], [lineage_gaps],
    [date_metadata_parsed], the [NOT LIKE] of [byte_view_like], the last part of
    [day_of_week_cycle].

    ** Not modelled

    The FSST codec and the FastLanes codec (classes with laws), memory sizes of
    arrays, file I/O and io_uring, the decoder of parquet files and the operations
    of its row selections and projection masks, pruning predicates and bloom
    filters (classes with laws), DataFusion glue (the physical optimizer, the opening
    of files, page pruning), the server and the client.  The cache operations run
    one at a time: interleavings of whole operations on one cache are not modelled.
    The laws [FormatLaws] are proved of the integer formats ([IntegerFormats]).  The
    string, float and decimal formats have their own theorems and no instance: strings
    and floats break the laws in the cases of the theorems listed above. *)

From stdpp Require Import base list gmap.
From Stdlib Require Import ZArith Lia.

(** ** Outcomes *)

(** A Rust call returns, panics, or has undefined behaviour (an access through
    a pointer whose box was freed, an unchecked out-of-bounds read).  [NoFuel]
    is not a behaviour of the code: it marks a loop whose fuel ran out. *)
Inductive outcome (A : Type) : Type :=
| Ret (a : A)
| Panic
| Undefined
| NoFuel.
Arguments Ret {A} a.
Arguments Panic {A}.
Arguments Undefined {A}.
Arguments NoFuel {A}.

Definition outcome_bind {A B} (f : A → outcome B) (m : outcome A) : outcome B :=
  match m with
  | Ret a => f a
  | Panic => Panic
  | Undefined => Undefined
  | NoFuel => NoFuel
  end.

#[export] Instance outcome_mret : MRet outcome := @Ret.
#[export] Instance outcome_mbind : MBind outcome := @outcome_bind.

(** One step of a computation whose head is known. *)
Ltac run_step := cbn [mbind outcome_mbind outcome_bind].

(** [Option::expect] / [Option::unwrap]. *)
Definition expect {A} (o : option A) : outcome A :=
  match o with Some a => Ret a | None => Panic end.

(** Dereference of a raw pointer: undefined when nothing is live there. *)
Definition deref {A} (o : option A) : outcome A :=
  match o with Some a => Ret a | None => Undefined end.

(** [Option::or]. *)
Definition option_or {A} (o d : option A) : option A :=
  match o with Some a => Some a | None => d end.

(** ** Machine integers *)

Local Open Scope Z_scope.

(** The value of a [w]-bit unsigned (signed) integer after wrapping. *)
Definition wrapu (w : Z) (z : Z) : Z := z mod 2 ^ w.
Definition wraps (w : Z) (z : Z) : Z := (z + 2 ^ (w - 1)) mod 2 ^ w - 2 ^ (w - 1).

(** A [usize] after wrapping arithmetic. *)
Definition usize (z : Z) : Z := z mod 2 ^ 64.
#[global] Arguments wrapu : simpl never.
#[global] Arguments wraps : simpl never.
#[global] Arguments usize : simpl never.

Definition in_range (lo hi z : Z) : bool := (lo <=? z)%Z && (z <=? hi)%Z.

Lemma wrapu_id w z : 0 <= z < 2 ^ w → wrapu w z = z.
Proof. intros H. unfold wrapu. by apply Z.mod_small. Qed.

Lemma wraps_id w z : 0 < w → - 2 ^ (w - 1) <= z < 2 ^ (w - 1) → wraps w z = z.
Proof.
  intros Hw H. unfold wraps. rewrite Z.mod_small; [lia|].
  assert (2 ^ w = 2 * 2 ^ (w - 1)) by (rewrite <- Z.pow_succ_r by lia; f_equal; lia). lia.
Qed.

Lemma usize_id z : 0 <= z < 2 ^ 64 → usize z = z.
Proof. intros H. unfold usize. by apply Z.mod_small. Qed.

Lemma wraps_range w z : 0 < w -> - 2 ^ (w - 1) <= wraps w z < 2 ^ (w - 1).
Proof.
  intros Hw. unfold wraps.
  assert (2 ^ w = 2 * 2 ^ (w - 1)) as E by (rewrite <- Z.pow_succ_r by lia; f_equal; lia).
  assert (0 < 2 ^ (w - 1)) by (apply Z.pow_pos_nonneg; lia).
  pose proof (Z.mod_pos_bound (z + 2 ^ (w - 1)) (2 ^ w) ltac:(lia)). lia.
Qed.

Lemma wraps_mod w z : 0 < w -> wraps w z mod 2 ^ w = z mod 2 ^ w.
Proof.
  intros Hw. unfold wraps. rewrite Zminus_mod, Zmod_mod, <- Zminus_mod. f_equal. lia.
Qed.

Lemma wraps_cong w a b : 0 < w -> a mod 2 ^ w = b mod 2 ^ w -> wraps w a = wraps w b.
Proof.
  intros Hw E. unfold wraps. rewrite Z.add_mod, E, <- Z.add_mod by (apply Z.pow_nonzero; lia). done.
Qed.

Lemma wraps_wraps w z : 0 < w -> wraps w (wraps w z) = wraps w z.
Proof. intros Hw. apply wraps_cong; [done|]. by apply wraps_mod. Qed.

(** What proofs about machine integers use: a wrapped value in range is itself. *)
Create Rewrite HintDb machine.
#[export] Hint Rewrite wrapu_id wraps_id usize_id using lia : machine.
Ltac machine := autorewrite with machine.

Local Close Scope Z_scope.

(** [Result]: an error, or a value. *)
Inductive result (A : Type) : Type := Ok (a : A) | Err.
Arguments Ok {A}.
Arguments Err {A}.

(** ** Lists *)

Lemma fmap_id_on {A} (f : A → A) (l : list A) : (∀ x, x ∈ l → f x = x) → f <$> l = l.
Proof.
  induction l as [|x l IH]; intros H; [done|]. simpl. rewrite H by set_solver.
  f_equal. apply IH. set_solver.
Qed.

(** What a filter keeps: the elements where the mask is set. *)
Fixpoint keep {A} (l : list A) (m : list bool) : list A :=
  match l, m with
  | x :: l, b :: m => if b then x :: keep l m else keep l m
  | _, _ => []
  end.

Lemma keep_true {A} (l : list A) : keep l (repeat true (List.length l)) = l.
Proof. induction l as [|x l IH]; simpl; [done|by rewrite IH]. Qed.

Lemma keep_fmap {A B} (f : A → B) (l : list A) m : f <$> keep l m = keep (f <$> l) m.
Proof.
  revert m. induction l as [|x l IH]; intros [|b m]; simpl; [done..|].
  destruct b; simpl; by rewrite IH.
Qed.

(** A map built by inserting the elements of a list one after the other. *)
Lemma foldl_insert_other `{Countable K} {A B} (key : A -> K) (val : A -> B) (l : list A) (m : gmap K B) k :
  k ∉ key <$> l -> foldl (λ m a, <[key a := val a]> m) m l !! k = m !! k.
Proof.
  revert m. induction l as [|a l IH]; intros m Hk; [done|]. cbn. rewrite IH by set_solver. apply lookup_insert_ne. set_solver.
Qed.

Lemma foldl_insert_at `{Countable K} {A B} (key : A -> K) (val : A -> B) (l : list A) (m : gmap K B) i x :
  NoDup (key <$> l) -> l !! i = Some x -> foldl (λ m a, <[key a := val a]> m) m l !! key x = Some (val x).
Proof.
  revert m i. induction l as [|a l IH]; intros m i Hnd Hx; [done|]. apply NoDup_cons in Hnd as [Ha Hnd].
  destruct i as [|i]; [|by eapply IH]. injection Hx as ->. cbn. rewrite foldl_insert_other by done. apply lookup_insert_eq.
Qed.

Lemma foldl_insert_inv `{Countable K} {A B} (key : A -> K) (val : A -> B) (l : list A) (m : gmap K B) k b :
  foldl (λ m a, <[key a := val a]> m) m l !! k = Some b -> (∃ a, a ∈ l /\ key a = k /\ val a = b) \/ m !! k = Some b.
Proof.
  revert m. induction l as [|a l IH]; intros m E; [by right|]. cbn in E. apply IH in E as [(x & Hx & E)|E].
  - left. exists x. split; [by right|done].
  - destruct (decide (key a = k)) as [<-|Hk].
    + rewrite lookup_insert_eq in E. injection E as <-. left. exists a. split; [by left|done].
    + rewrite lookup_insert_ne in E by done. by right.
Qed.

(** Picking every index of a list. *)
Lemma omap_seq {A} (l : list A) : omap (λ i, l !! i) (seq 0 (length l)) = l.
Proof.
  assert (∀ n k, (k + n)%nat = length l -> omap (λ i, l !! i) (seq k n) = drop k l) as Hk; [|exact (Hk (length l) 0%nat eq_refl)].
  induction n as [|n IH]; intros k En; cbn.
  - symmetry. apply drop_ge. lia.
  - destruct (lookup_lt_is_Some_2 l k ltac:(lia)) as [x Hx]. rewrite Hx, IH by lia. symmetry. by apply drop_S.
Qed.

(** ** Sums over a map *)

Section sums.
Context `{Countable K} {V : Type} (f : V → Z).

Definition msum (m : gmap K V) : Z := map_fold (λ _ e n, f e + n)%Z 0%Z m.

Definition fopt (o : option V) : Z := match o with Some e => f e | None => 0%Z end.

Lemma msum_insert_None k e m : m !! k = None → msum (<[k := e]> m) = (f e + msum m)%Z.
Proof. intros Hk. unfold msum. rewrite map_fold_insert_L; [done| |done]. intros. lia. Qed.

Lemma msum_delete k m : msum m = (fopt (m !! k) + msum (delete k m))%Z.
Proof.
  destruct (m !! k) as [e|] eqn:E; cbn.
  - rewrite <- (insert_delete_id m k e) at 1 by done. apply msum_insert_None, lookup_delete_eq.
  - by rewrite delete_id.
Qed.

Lemma msum_insert k e m : msum (<[k := e]> m) = (msum m - fopt (m !! k) + f e)%Z.
Proof.
  rewrite (msum_delete k m). rewrite <- insert_delete_eq, msum_insert_None by apply lookup_delete_eq.
  lia.
Qed.

Lemma msum_nonneg m : (∀ e, 0 <= f e)%Z → (0 <= msum m)%Z.
Proof.
  intros Hf. induction m as [|k e m Hk IH] using map_ind; [done|].
  rewrite msum_insert_None by done. specialize (Hf e). lia.
Qed.

Lemma msum_lookup k e m : (∀ e, 0 <= f e)%Z → m !! k = Some e → (f e <= msum m)%Z.
Proof.
  intros Hf E. rewrite (msum_delete k m), E. cbn. pose proof (msum_nonneg (delete k m) Hf). lia.
Qed.
End sums.
