(* ===== verification/DoublyLinkedList.v ===== *)
(** * Intrusive doubly linked list

    Model of [src/src/storage/src/cache/policies/cache/doubly_linked_list.rs].
    The raw pointers of the source ([NonNull<DoublyLinkedNode<T>>]) are
    locations of an explicit heap [gmap loc (node T)]; an access through a
    pointer whose node is not allocated is [Undefined].  [rep h L xs] relates
    the pointer structure to the sequence [xs] of (location, payload) pairs it
    stands for, front first; every operation is proved to implement the
    corresponding operation on that sequence and to leave the rest of the heap
    alone. *)

From S2P Require Import Prelude.
From stdpp Require Import base list gmap fin_sets.

Abbreviation loc := positive (only parsing).

(** ** The data structure *)

Record node (T : Type) : Type := Node {
  data : T;
  prev : option loc;
  next : option loc
}.
Arguments Node {T} data prev next.
Arguments data {T} n.
Arguments prev {T} n.
Arguments next {T} n.

Record dll : Type := Dll {
  dl_head : option loc;
  dl_tail : option loc
}.

Abbreviation heap T := (gmap loc (node T)).

Definition dll_new : dll := Dll None None.

Section operations.
Context {T : Type}.
Implicit Types (h : heap T) (L : dll) (p : loc).

(** [Box::leak(DoublyLinkedNode::new(data))]: a fresh allocation. *)
Definition alloc_node (d : T) h : heap T * loc :=
  let p := fresh (dom h) in (<[p := Node d None None]> h, p).

Definition drop_boxed_node p h : outcome (heap T) :=
  _ ← deref (h !! p); Ret (delete p h).

Definition set_prev (q : loc) (v : option loc) h : outcome (heap T) :=
  m ← deref (h !! q); Ret (<[q := Node (data m) v (next m)]> h).

Definition set_next (q : loc) (v : option loc) h : outcome (heap T) :=
  m ← deref (h !! q); Ret (<[q := Node (data m) (prev m) v]> h).

Definition push_front p h L : outcome (heap T * dll) :=
  n ← deref (h !! p);
  let h := <[p := Node (data n) None (dl_head L)]> h in
  match dl_head L with
  | Some hd => h ← set_prev hd (Some p) h; Ret (h, Dll (Some p) (dl_tail L))
  | None => Ret (h, Dll (Some p) (Some p))
  end.

Definition push_back p h L : outcome (heap T * dll) :=
  n ← deref (h !! p);
  let h := <[p := Node (data n) (dl_tail L) None]> h in
  match dl_tail L with
  | Some tl => h ← set_next tl (Some p) h; Ret (h, Dll (dl_head L) (Some p))
  | None => Ret (h, Dll (Some p) (Some p))
  end.

Definition unlink p h L : outcome (heap T * dll) :=
  n ← deref (h !! p);
  '(h, L) ← match prev n with
            | Some q => h ← set_next q (next n) h; Ret (h, L)
            | None => Ret (h, Dll (next n) (dl_tail L))
            end;
  n ← deref (h !! p);
  '(h, L) ← match next n with
            | Some q => h ← set_prev q (prev n) h; Ret (h, L)
            | None => Ret (h, Dll (dl_head L) (prev n))
            end;
  n ← deref (h !! p);
  Ret (<[p := Node (data n) None None]> h, L).

Definition move_to_front p h L : outcome (heap T * dll) :=
  '(h, L) ← unlink p h L; push_front p h L.

(** The [while let Some(node_ptr) = current] loop of [drop_all].  Every
    iteration frees a live node, so [size h] iterations suffice: with no fuel
    left the heap is empty and following a pointer is [Undefined] anyway. *)
Fixpoint drop_nodes (fuel : nat) (current : option loc) h : outcome (heap T) :=
  match current with
  | None => Ret h
  | Some p =>
      match fuel with
      | O => Undefined
      | S fuel =>
          n ← deref (h !! p);
          h ← drop_boxed_node p h;
          drop_nodes fuel (next n) h
      end
  end.

Definition drop_all h L : outcome (heap T * dll) :=
  h ← drop_nodes (size h) (dl_head L) h; Ret (h, dll_new).

(** ** The sequence a list stands for *)

Definition first_loc (xs : list (loc * T)) : option loc := fst <$> head xs.
Definition last_loc (xs : list (loc * T)) : option loc := fst <$> last xs.

Fixpoint seg h (pp : option loc) (xs : list (loc * T)) (nn : option loc) : Prop :=
  match xs with
  | [] => True
  | (p, d) :: r =>
      h !! p = Some (Node d pp (option_or (first_loc r) nn)) ∧ seg h (Some p) r nn
  end.

Definition rep h L (xs : list (loc * T)) : Prop :=
  dl_head L = first_loc xs ∧ dl_tail L = last_loc xs
  ∧ NoDup xs.*1 ∧ seg h None xs None.

(** Two heaps that agree outside [ls] and have the same live locations. *)
Definition frame (ls : list loc) h h' : Prop :=
  dom h' = dom h ∧ ∀ q, q ∉ ls → h' !! q = h !! q.

End operations.

(** ** Segments *)

Section segments.
Context {T : Type}.
Implicit Types (h : heap T) (xs a b : list (loc * T)) (p q : loc) (d : T).

Lemma first_loc_app a b : first_loc (a ++ b) = option_or (first_loc a) (first_loc b).
Proof. by destruct a. Qed.

Lemma last_loc_app a b : last_loc (a ++ b) = option_or (last_loc b) (last_loc a).
Proof.
  unfold last_loc. rewrite last_app. by destruct (last b).
Qed.

Lemma last_loc_snoc a p d : last_loc (a ++ [(p, d)]) = Some p.
Proof. by rewrite last_loc_app. Qed.

Lemma option_or_assoc {A} (x y z : option A) :
  option_or (option_or x y) z = option_or x (option_or y z).
Proof. by destruct x. Qed.

Lemma seg_frame h h' xs pp nn :
  (∀ p, p ∈ xs.*1 → h' !! p = h !! p) → seg h pp xs nn → seg h' pp xs nn.
Proof.
  revert pp; induction xs as [|[p d] r IH]; simpl; intros pp Hf; [done|].
  intros [Hp Hr]; split.
  - rewrite Hf; [done | set_solver].
  - apply IH; [set_solver | done].
Qed.

Lemma seg_app h pp a b nn :
  seg h pp (a ++ b) nn ↔
  seg h pp a (option_or (first_loc b) nn) ∧ seg h (option_or (last_loc a) pp) b nn.
Proof.
  revert pp; induction a as [|[p d] r IH]; intros pp; simpl; [tauto|].
  rewrite IH, first_loc_app, option_or_assoc.
  assert (option_or (last_loc r) (Some p) = option_or (last_loc ((p, d) :: r)) pp) as ->.
  { unfold last_loc; destruct r as [|x r]; [done|]. simpl.
    destruct (last (x :: r)) eqn:E; [done|]. by apply last_None in E. }
  tauto.
Qed.

Lemma frame_refl ls h : frame ls h h.
Proof. by split. Qed.

Lemma frame_trans ls h1 h2 h3 : frame ls h1 h2 → frame ls h2 h3 → frame ls h1 h3.
Proof. intros [D1 F1] [D2 F2]; split; [congruence|]. intros q Hq. by rewrite F2, F1. Qed.

Lemma frame_weaken ls ls' h h' : frame ls h h' → (∀ q, q ∈ ls → q ∈ ls') → frame ls' h h'.
Proof. intros [D F] Hs; split; [done|]. intros q Hq. apply F. set_solver. Qed.

Lemma frame_insert q n n0 h : h !! q = Some n0 → frame [q] h (<[q := n]> h).
Proof.
  intros Hq; split.
  - rewrite dom_insert_L. apply elem_of_dom_2 in Hq. set_solver.
  - intros q' Hq'. rewrite lookup_insert_ne; set_solver.
Qed.

Lemma seg_frame_out ls h h' xs pp nn :
  frame ls h h' → (∀ p, p ∈ xs.*1 → p ∉ ls) → seg h pp xs nn → seg h' pp xs nn.
Proof. intros [_ F] Hd. apply seg_frame. intros p Hp. by apply F, Hd. Qed.

(** Relinking the last node of a segment. *)
Lemma seg_frame_del h pp xs nn p : seg h pp xs nn → p ∉ xs.*1 → seg (delete p h) pp xs nn.
Proof.
  revert pp. induction xs as [|[q e] r IH]; intros pp; simpl; [done|].
  intros [Hq Hs] Hn. split; [|apply IH; [done|set_solver]].
  rewrite lookup_delete_ne; [done|set_solver].
Qed.

Lemma seg_insert_fresh h pp xs nn p n : seg h pp xs nn → p ∉ xs.*1 → seg (<[p := n]> h) pp xs nn.
Proof.
  revert pp. induction xs as [|[q e] r IH]; intros pp; simpl; [done|].
  intros [Hq Hs] Hn. split; [|apply IH; [done|set_solver]].
  rewrite lookup_insert_ne; [done|set_solver].
Qed.

Lemma seg_relink_last h pp a nn v :
  NoDup a.*1 → seg h pp a nn →
  ∃ h', match last_loc a with
        | Some q => set_next q v h
        | None => Ret h
        end = Ret h'
        ∧ seg h' pp a v ∧ frame a.*1 h h'.
Proof.
  destruct a as [|[q d] r _] using rev_ind; intros ND Hs.
  { exists h; repeat split; done. }
  rewrite last_loc_snoc. rewrite fmap_app in ND |- *. simpl in *.
  apply seg_app in Hs as [Hs [Hq _]].
  exists (<[q := Node d (option_or (last_loc r) pp) v]> h).
  unfold set_next. rewrite Hq. simpl.
  assert (q ∉ r.*1) by (apply NoDup_app in ND; set_solver).
  assert (frame [q] h (<[q := Node d (option_or (last_loc r) pp) v]> h)) as HF
    by (by eapply frame_insert).
  split; [done|]. split.
  - apply seg_app; split.
    + simpl in *. eapply seg_frame_out; [exact HF | set_solver | exact Hs].
    + simpl. by rewrite lookup_insert_eq.
  - eapply frame_weaken; [exact HF | set_solver].
Qed.

(** Relinking the first node of a segment. *)
Lemma seg_relink_first h pp b nn v :
  NoDup b.*1 → seg h pp b nn →
  ∃ h', match first_loc b with
        | Some q => set_prev q v h
        | None => Ret h
        end = Ret h'
        ∧ seg h' v b nn ∧ frame b.*1 h h'.
Proof.
  destruct b as [|[q d] r]; simpl; intros ND Hs.
  { exists h; repeat split; done. }
  destruct Hs as [Hq Hs]. apply NoDup_cons in ND as [Hnq ND].
  exists (<[q := Node d v (option_or (first_loc r) nn)]> h).
  unfold set_prev. rewrite Hq. simpl. split; [done|]. split; [split|].
  - by rewrite lookup_insert_eq.
  - eapply seg_frame_out; [by eapply frame_insert | set_solver | done].
  - eapply frame_weaken; [by eapply frame_insert | set_solver].
Qed.
End segments.

(** ** The operations implement the sequence operations *)

Section specs.
Context {T : Type}.
Implicit Types (h : heap T) (L : dll) (xs a b : list (loc * T)) (p q : loc) (d : T).

Lemma rep_new h : rep h dll_new [].
Proof. repeat split. constructor. Qed.

Lemma rep_frame ls h h' L xs :
  frame ls h h' → (∀ p, p ∈ xs.*1 → p ∉ ls) → rep h L xs → rep h' L xs.
Proof.
  intros F Hd (Hh & Ht & ND & Hs). repeat split; try done. by eapply seg_frame_out.
Qed.

Lemma rep_lookup h L xs p d : rep h L xs → (p, d) ∈ xs → data <$> h !! p = Some d.
Proof.
  intros (_ & _ & _ & Hs) Hin. apply list_elem_of_split in Hin as (a & b & ->).
  apply seg_app in Hs as [_ [-> _]]. done.
Qed.

Lemma alloc_fresh h d : h !! (alloc_node d h).2 = None.
Proof. apply not_elem_of_dom. apply is_fresh. Qed.

Lemma seg_lookup_middle h pp a p d b nn :
  seg h pp (a ++ (p, d) :: b) nn →
  h !! p = Some (Node d (option_or (last_loc a) pp) (option_or (first_loc b) nn)).
Proof. intros [_ [Hp _]]%seg_app. done. Qed.

Lemma push_front_spec p d x y h L xs :
  rep h L xs → h !! p = Some (Node d x y) → p ∉ xs.*1 →
  ∃ h' L', push_front p h L = Ret (h', L') ∧ rep h' L' ((p, d) :: xs)
           ∧ frame (p :: xs.*1) h h'.
Proof.
  intros (Hh & Ht & ND & Hs) Hp Hnp.
  pose (h1 := <[p := Node d None (dl_head L)]> h).
  assert (frame [p] h h1) as F1 by (by eapply frame_insert).
  assert (seg h1 None xs None) as Hs1 by (eapply seg_frame_out; set_solver).
  destruct (seg_relink_first h1 None xs None (Some p) ND Hs1) as (h2 & E & Hs2 & F2).
  assert (seg h2 None ((p, d) :: xs) None) as Hs3.
  { split; [|done]. rewrite (proj2 F2) by done.
    unfold h1. rewrite lookup_insert_eq, Hh. by destruct (first_loc xs). }
  assert (frame (p :: xs.*1) h h2) as F3.
  { eapply frame_trans; eapply frame_weaken; [exact F1 | set_solver | exact F2 | set_solver]. }
  exists h2, (Dll (Some p) (option_or (last_loc xs) (Some p))).
  split; [|split; [split; [|split; [|split]]|done]].
  - unfold push_front. rewrite Hp. simpl. fold h1. rewrite Hh.
    destruct xs as [|[q e] r]; simpl in *; [by injection E as ->|].
    rewrite E. simpl. rewrite Ht. unfold last_loc. simpl.
    destruct (last ((q, e) :: r)) eqn:El; [done | by apply last_None in El].
  - done.
  - simpl. unfold last_loc. destruct xs as [|x0 xs]; [done|]. simpl.
    destruct (last (x0 :: xs)) eqn:El; [done|by apply last_None in El].
  - simpl. by constructor.
  - done.
Qed.

Lemma push_back_spec p d x y h L xs :
  rep h L xs → h !! p = Some (Node d x y) → p ∉ xs.*1 →
  ∃ h' L', push_back p h L = Ret (h', L') ∧ rep h' L' (xs ++ [(p, d)])
           ∧ frame (p :: xs.*1) h h'.
Proof.
  intros (Hh & Ht & ND & Hs) Hp Hnp.
  pose (h1 := <[p := Node d (dl_tail L) None]> h).
  assert (frame [p] h h1) as F1 by (by eapply frame_insert).
  assert (seg h1 None xs None) as Hs1 by (eapply seg_frame_out; set_solver).
  destruct (seg_relink_last h1 None xs None (Some p) ND Hs1) as (h2 & E & Hs2 & F2).
  assert (seg h2 None (xs ++ [(p, d)]) None) as Hs3.
  { apply seg_app; split; [done|]. split; [|done]. rewrite (proj2 F2) by done.
    unfold h1. rewrite lookup_insert_eq, Ht. by destruct (last_loc xs). }
  assert (frame (p :: xs.*1) h h2) as F3.
  { eapply frame_trans; eapply frame_weaken; [exact F1 | set_solver | exact F2 | set_solver]. }
  exists h2, (Dll (option_or (first_loc xs) (Some p)) (Some p)).
  split; [|split; [split; [|split; [|split]]|done]].
  - unfold push_back. rewrite Hp. simpl. fold h1. rewrite Ht.
    destruct xs as [|[q e] r _] using rev_ind; [by injection E as ->|].
    rewrite last_loc_snoc in *. rewrite E. simpl. rewrite Hh. by destruct r.
  - by rewrite first_loc_app.
  - by rewrite last_loc_snoc.
  - rewrite fmap_app. apply NoDup_app. repeat split; [done|set_solver|apply NoDup_singleton].
  - done.
Qed.

Lemma unlink_spec h L a p d b :
  rep h L (a ++ (p, d) :: b) →
  ∃ h' L', unlink p h L = Ret (h', L') ∧ rep h' L' (a ++ b)
           ∧ h' !! p = Some (Node d None None) ∧ frame (a ++ (p, d) :: b).*1 h h'.
Proof.
  intros (Hh & Ht & ND & Hs).
  pose proof (seg_lookup_middle _ _ _ _ _ _ _ Hs) as Hp.
  apply seg_app in Hs as [Ha Hb]. simpl in Hb. destruct Hb as [_ Hb].
  rewrite fmap_app, fmap_cons in ND |- *. simpl in ND |- *.
  apply NoDup_app in ND as (NDa & Dab & NDb). apply NoDup_cons in NDb as [Hpb NDb].
  assert (p ∉ a.*1) as Hpa by set_solver.
  set (vp := last_loc a). set (vn := first_loc b).
  assert (option_or (last_loc a) None = vp) as Evp by (unfold vp; by destruct (last_loc a)).
  assert (option_or (first_loc b) None = vn) as Evn by (unfold vn; by destruct (first_loc b)).
  rewrite Evp, Evn in Hp.
  destruct (seg_relink_last h None a (Some p) vn NDa Ha) as (h1 & E1 & Ha1 & F1).
  assert (seg h1 (Some p) b None) as Hb1 by (eapply seg_frame_out; set_solver).
  assert (h1 !! p = Some (Node d vp vn)) as Hp1 by (by rewrite (proj2 F1)).
  destruct (seg_relink_first h1 (Some p) b None vp NDb Hb1) as (h2 & E2 & Hb2 & F2).
  assert (h2 !! p = Some (Node d vp vn)) as Hp2 by (by rewrite (proj2 F2)).
  assert (seg h2 None a vn) as Ha2 by (eapply seg_frame_out; set_solver).
  pose (h3 := <[p := Node d None None]> h2).
  assert (frame [p] h2 h3) as F3 by (by eapply frame_insert).
  exists h3, (Dll (option_or (first_loc a) vn) (option_or (last_loc b) vp)).
  split; [|split; [split; [|split; [|split]]|split]].
  - unfold unlink. rewrite Hp. simpl. fold vp in E1. fold vn in E2.
    rewrite first_loc_app in Hh. rewrite last_loc_app in Ht.
    assert (vp = None → a = []) as Ea.
    { intros Ev. destruct a as [|[q e] r _] using rev_ind; [done|].
      unfold vp in Ev. by rewrite last_loc_snoc in Ev. }
    assert (vn = None → b = []) as Eb by (intros Ev; by destruct b as [|[]]).
    assert ((match vp with
             | Some q => h ← set_next q vn h; Ret (h, L)
             | None => Ret (h, Dll vn (dl_tail L)) end) =
            Ret (h1, Dll (option_or (first_loc a) vn) (dl_tail L))) as ->.
    { destruct vp eqn:Ev.
      - rewrite E1. simpl. destruct L; simpl in *. rewrite Hh. by destruct a as [|[]].
      - rewrite (Ea eq_refl). by injection E1 as ->. }
    simpl. rewrite Hp1. simpl.
    assert ((match vn with
             | Some q => h ← set_prev q vp h1;
                 Ret (h, Dll (option_or (first_loc a) vn) (dl_tail L))
             | None => Ret (h1, Dll (option_or (first_loc a) vn) vp) end) =
            Ret (h2, Dll (option_or (first_loc a) vn) (option_or (last_loc b) vp))) as ->.
    { destruct vn eqn:Ev.
      - rewrite E2. simpl. rewrite Ht.
        destruct b as [|[q e] r _] using rev_ind; [done|].
        assert (last_loc ((p, d) :: r ++ [(q, e)]) = last_loc (r ++ [(q, e)])) as ->.
        { change ((p, d) :: r ++ [(q, e)]) with (((p, d) :: r) ++ [(q, e)]).
          by rewrite !last_loc_snoc. }
        by rewrite last_loc_snoc.
      - rewrite (Eb eq_refl). by injection E2 as ->. }
    simpl. rewrite Hp2. done.
  - simpl. rewrite first_loc_app. done.
  - simpl. rewrite last_loc_app. done.
  - rewrite fmap_app. apply NoDup_app. set_solver.
  - apply seg_app. split.
    + rewrite Evn. eapply seg_frame_out; set_solver.
    + rewrite Evp. eapply seg_frame_out; set_solver.
  - apply lookup_insert_eq.
  - eapply frame_trans; [eapply frame_trans|]; eapply frame_weaken;
      [exact F1|set_solver|exact F2|set_solver|exact F3|set_solver].
Qed.

Lemma move_to_front_spec h L a p d b :
  rep h L (a ++ (p, d) :: b) →
  ∃ h' L', move_to_front p h L = Ret (h', L') ∧ rep h' L' ((p, d) :: a ++ b)
           ∧ frame (a ++ (p, d) :: b).*1 h h'.
Proof.
  intros HR. assert (p ∉ (a ++ b).*1) as Hp.
  { destruct HR as (_ & _ & ND & _). rewrite !fmap_app, fmap_cons in *.
    apply NoDup_app in ND as (? & ? & [? ?]%NoDup_cons). set_solver. }
  destruct (unlink_spec _ _ _ _ _ _ HR) as (h1 & L1 & E1 & HR1 & Hp1 & F1).
  destruct (push_front_spec _ _ _ _ _ _ _ HR1 Hp1 Hp) as (h2 & L2 & E2 & HR2 & F2).
  exists h2, L2. split; [|split; [done|]].
  - unfold move_to_front. rewrite E1. done.
  - eapply frame_trans; [exact F1|]. eapply frame_weaken; [exact F2|].
    rewrite !fmap_app, fmap_cons. set_solver.
Qed.

(** [drop_nodes] frees exactly the nodes of the segment. *)
Lemma drop_nodes_spec xs h pp fuel :
  NoDup xs.*1 → seg h pp xs None → length xs ≤ fuel →
  ∃ h', drop_nodes fuel (first_loc xs) h = Ret h'
        ∧ (∀ q, h' !! q = if decide (q ∈ xs.*1) then None else h !! q).
Proof.
  revert h pp fuel; induction xs as [|[p d] r IH]; simpl; intros h pp fuel ND Hs Hf.
  { exists h. split; [by destruct fuel|]. done. }
  destruct Hs as [Hp Hs]. apply NoDup_cons in ND as [Hnp ND].
  destruct fuel as [|fuel]; [lia|].
  assert (seg (delete p h) (Some p) r None) as Hs'.
  { eapply seg_frame; [|exact Hs]. intros q Hq. rewrite lookup_delete_ne; set_solver. }
  destruct (IH _ _ fuel ND Hs' ltac:(lia)) as (h' & E & Hh').
  exists h'. split.
  - simpl. rewrite Hp. simpl. unfold drop_boxed_node. rewrite Hp. simpl.
    by destruct (first_loc r).
  - intros q. rewrite Hh', lookup_delete.
    repeat case_decide; simplify_eq; set_solver.
Qed.

Lemma rep_size h L xs : rep h L xs → length xs ≤ size h.
Proof.
  intros (_ & _ & ND & Hs). rewrite <- size_dom.
  assert (list_to_set xs.*1 ⊆ dom h) as Hsub.
  { intros p Hp. apply elem_of_list_to_set in Hp. apply list_elem_of_fmap in Hp as ([q d] & -> & Hin).
    apply list_elem_of_split in Hin as (a & b & ->). apply seg_app in Hs as [_ [Hq _]].
    by apply elem_of_dom_2 in Hq. }
  apply subseteq_size in Hsub. rewrite size_list_to_set, length_fmap in Hsub by done. done.
Qed.

Lemma drop_all_spec h L xs :
  rep h L xs →
  ∃ h', drop_all h L = Ret (h', dll_new)
        ∧ (∀ q, h' !! q = if decide (q ∈ xs.*1) then None else h !! q).
Proof.
  intros HR. pose proof (rep_size _ _ _ HR) as Hsz. destruct HR as (Hh & _ & ND & Hs).
  destruct (drop_nodes_spec _ _ _ _ ND Hs Hsz) as (h' & E & Hh').
  exists h'. split; [|done]. unfold drop_all. by rewrite Hh, E.
Qed.

Lemma drop_all_empty (h : heap T) L : dl_head L = None → drop_all h L = Ret (h, dll_new).
Proof. intros E. unfold drop_all. rewrite E. by destruct (size h). Qed.
End specs.
