(* ===== verification/CachePolicy.v ===== *)
(** * The cache policy interface

    Model of the trait [CachePolicy] of
    [src/src/storage/src/cache/policies/cache/mod.rs] and of the entry kinds it is
    notified with ([CachedBatchType] of [cached_batch.rs]).  Every policy of
    the source keeps its state behind one mutex, so an operation is a function
    from state to state.  [PolicyLaws] states what the cache core relies on;
    the policies discharge it in their own files. *)

From S2P Require Import Prelude.
From stdpp Require Import base list gmap.
From Stdlib Require Import ZArith.

(** [EntryID { val: usize }]. *)
Abbreviation EntryID := Z (only parsing).

Inductive CachedBatchType : Type :=
| TMemoryArrow
| TMemoryLiquid
| TMemorySqueezedLiquid
| TDiskLiquid
| TDiskArrow.

#[export] Instance CachedBatchType_eq_dec : EqDecision CachedBatchType.
Proof. solve_decision. Defined.

(** The kinds that occupy memory. *)
Definition in_memory (ty : CachedBatchType) : bool :=
  match ty with
  | TMemoryArrow | TMemoryLiquid | TMemorySqueezedLiquid => true
  | TDiskLiquid | TDiskArrow => false
  end.

Class CachePolicy (S : Type) : Type := {
  policy_new : S;
  find_victim : nat → S → outcome (list EntryID * S);
  notify_insert : EntryID → CachedBatchType → S → outcome S;
  notify_access : EntryID → CachedBatchType → S → outcome S
}.

(** The promise of a policy: no operation panics or touches freed memory;
    [tracked s] lists the entries it can still give out; a victim is one of
    them, is given once and is no longer tracked; the insertion of a memory entry
    tracks it (a policy may track disk entries or not), and touches no other
    entry; an access keeps the tracked entries. *)
Class PolicyLaws (S : Type) `{CachePolicy S} : Type := {
  policy_inv : S → Prop;
  tracked : S → list EntryID;
  tracked_NoDup s : policy_inv s → NoDup (tracked s);
  policy_new_ok : policy_inv policy_new ∧ tracked policy_new = [];
  find_victim_ok cnt s :
    policy_inv s →
    ∃ vs s', find_victim cnt s = Ret (vs, s') ∧ policy_inv s'
             ∧ tracked s ≡ₚ vs ++ tracked s'
             ∧ length vs = Nat.min cnt (length (tracked s));
  notify_insert_ok id ty s :
    policy_inv s →
    ∃ s', notify_insert id ty s = Ret s' ∧ policy_inv s'
          ∧ (∀ i, i ≠ id → i ∈ tracked s' ↔ i ∈ tracked s)
          ∧ (in_memory ty = true → id ∈ tracked s');
  notify_access_ok id ty s :
    policy_inv s →
    ∃ s', notify_access id ty s = Ret s' ∧ policy_inv s'
          ∧ (∀ i, i ∈ tracked s' ↔ i ∈ tracked s)
}.

(** A policy that gives out memory entries only: an entry that went to disk is
    no longer tracked. *)
Class MemoryOnlyPolicy (P : Type) `{PL : PolicyLaws P} : Prop :=
  notify_insert_disk id ty (p p' : P) :
    policy_inv p → in_memory ty = false → notify_insert id ty p = Ret p' → ¬ id ∈ tracked p'.

(** A policy that also gives out disk entries: whatever is inserted is tracked. *)
Class TracksEveryKind (P : Type) `{PL : PolicyLaws P} : Prop :=
  notify_insert_tracked id ty (p p' : P) :
    policy_inv p → notify_insert id ty p = Ret p' → id ∈ tracked p'.

(** ** Sequences of entries *)

(** The entries of [s] other than [id]. *)
Definition others (id : EntryID) (s : list EntryID) : list EntryID := filter (λ j, j ≠ id) s.

Lemma elem_of_others i id s : i ∈ others id s ↔ i ≠ id ∧ i ∈ s.
Proof. unfold others. by rewrite list_elem_of_filter. Qed.

Lemma others_notin id s : id ∉ s → others id s = s.
Proof.
  unfold others. induction s as [|j s IH]; [done|]. intros Hn.
  rewrite filter_cons_True by set_solver. by rewrite IH by set_solver.
Qed.

Lemma others_middle id a b : NoDup (a ++ id :: b) → others id (a ++ id :: b) = a ++ b.
Proof.
  intros ND. apply NoDup_app in ND as (_ & D & [Hb _]%NoDup_cons).
  unfold others. rewrite filter_app, filter_cons_False by (intros H; by apply H).
  fold (others id a) (others id b). rewrite !others_notin; set_solver.
Qed.

Lemma others_NoDup id s : NoDup s → NoDup (others id s).
Proof. apply NoDup_filter. Qed.

Lemma elem_of_touch i id s : i ∈ id :: others id s ↔ i = id ∨ i ∈ s.
Proof.
  rewrite elem_of_cons, elem_of_others. destruct (decide (i = id)); [tauto|tauto].
Qed.

Lemma elem_of_touch_in i id s : id ∈ s → i ∈ id :: others id s ↔ i ∈ s.
Proof. intros Hin. rewrite elem_of_touch. split; [by intros [->|]|auto]. Qed.

Lemma take_reverse_perm (cnt : nat) (s : list EntryID) :
  s ≡ₚ take cnt (reverse s) ++ take (length s - cnt) s.
Proof.
  rewrite <- (take_drop (length s - cnt) s) at 1.
  rewrite Permutation_app_comm. f_equiv.
  rewrite take_reverse. by rewrite reverse_Permutation.
Qed.

Lemma touch_insert_law (t t' : list EntryID) id ty :
  (∀ i, i ∈ t' ↔ i = id ∨ i ∈ t) →
  (∀ i, i ≠ id → i ∈ t' ↔ i ∈ t) ∧ (in_memory ty = true → id ∈ t').
Proof. intros H. split; [intros i Hi|intros _]; rewrite H; naive_solver. Qed.
