(* ===== verification/LinkedMap.v ===== *)
(** * A hash map into an intrusive list

    The state shared by the queue-shaped policies: a [HashMap<EntryID, NodePtr>]
    and a [DoublyLinkedList] whose nodes live in one heap ([HashList] of
    [lru.rs], [QueueState] of [filo.rs] and the map/list parts of [sieve.rs]
    and [clock.rs]).  [lm_inv M xs] says that the map, the list and the heap
    describe the sequence [xs]: every node is on the list, reachable from the
    map under its own key, and nothing else is allocated. *)

From stdpp Require Import base list gmap fin_sets.
From Stdlib Require Import ZArith.
From S2P Require Import Prelude DoublyLinkedList CachePolicy.

Record linked_map (T : Type) : Type := LinkedMap {
  lm_map : gmap EntryID loc;
  lm_list : dll;
  lm_heap : heap T
}.
Arguments LinkedMap {T} lm_map lm_list lm_heap.
Arguments lm_map {T} l.
Arguments lm_list {T} l.
Arguments lm_heap {T} l.

Section linked_map.
Context {T : Type} (idof : T → EntryID).
Implicit Types (M : linked_map T) (xs a b : list (loc * T)) (p : loc) (d : T) (id : EntryID).

Definition lm_new : linked_map T := LinkedMap ∅ dll_new ∅.

(** Unlink a node and free its box. *)
Definition lm_remove_and_release p M : outcome (linked_map T) :=
  '(h, L) ← unlink p (lm_heap M) (lm_list M);
  h ← drop_boxed_node p h;
  Ret (LinkedMap (lm_map M) L h).

Definition lm_move_to_front p M : outcome (linked_map T) :=
  '(h, L) ← move_to_front p (lm_heap M) (lm_list M);
  Ret (LinkedMap (lm_map M) L h).

Definition lm_move_to_back p M : outcome (linked_map T) :=
  '(h, L) ← unlink p (lm_heap M) (lm_list M);
  '(h, L) ← push_back p h L;
  Ret (LinkedMap (lm_map M) L h).

(** Box a new node, enter it in the map and push it on the list. *)
Definition lm_insert_front id d M : outcome (linked_map T * loc) :=
  let '(h, p) := alloc_node d (lm_heap M) in
  let m := <[id := p]> (lm_map M) in
  '(h, L) ← push_front p h (lm_list M);
  Ret (LinkedMap m L h, p).

Definition lm_insert_back id d M : outcome (linked_map T * loc) :=
  let '(h, p) := alloc_node d (lm_heap M) in
  let m := <[id := p]> (lm_map M) in
  '(h, L) ← push_back p h (lm_list M);
  Ret (LinkedMap m L h, p).

(** [node_ptr.as_mut().data = f(..)]. *)
Definition lm_update p (f : T → T) M : outcome (linked_map T) :=
  n ← deref (lm_heap M !! p);
  Ret (LinkedMap (lm_map M) (lm_list M)
         (<[p := Node (f (data n)) (prev n) (next n)]> (lm_heap M))).

(** [Drop]: drain the map in some order (the iteration order of a [HashMap] is
    unspecified), unlink and free every node, then [drop_all]. *)
Fixpoint lm_drain (order : list loc) M : outcome (linked_map T) :=
  match order with
  | [] => Ret M
  | p :: order => M' ← lm_remove_and_release p M; lm_drain order M'
  end.

Definition lm_drop (order : list loc) M : outcome (linked_map T) :=
  M' ← lm_drain order (LinkedMap ∅ (lm_list M) (lm_heap M));
  '(h, L) ← drop_all (lm_heap M') (lm_list M');
  Ret (LinkedMap (lm_map M') L h).

Definition hashed (m : gmap EntryID loc) xs : Prop :=
  ∀ id p, m !! id = Some p ↔ ∃ d, (p, d) ∈ xs ∧ idof d = id.

Definition lm_inv M xs : Prop :=
  rep (lm_heap M) (lm_list M) xs
  ∧ hashed (lm_map M) xs
  ∧ (∀ p, p ∈ dom (lm_heap M) ↔ p ∈ xs.*1).

Definition ids xs : list EntryID := idof <$> xs.*2.

(** The sequence of entries seen from outside: the nodes' identity is hidden. *)
Definition lm_model M (s : list EntryID) : Prop := ∃ xs, lm_inv M xs ∧ ids xs = s.

(** Reading the list from its head: the executable form of the sequence. *)
Fixpoint lm_walk (fuel : nat) (p : option loc) (h : heap T) : list EntryID :=
  match fuel, p with
  | S fuel, Some p =>
      match h !! p with
      | Some n => idof (data n) :: lm_walk fuel (next n) h
      | None => []
      end
  | _, _ => []
  end.

Definition lm_order M : list EntryID :=
  lm_walk (size (lm_heap M)) (dl_head (lm_list M)) (lm_heap M).

(** ** Lemmas *)

Lemma lm_inv_new : lm_inv lm_new [].
Proof.
  split; [apply rep_new|]. split.
  - intros id p. simpl. rewrite lookup_empty. set_solver.
  - intros p. simpl. rewrite dom_empty. set_solver.
Qed.

Lemma NoDup_fst_eq xs p d d' : NoDup xs.*1 → (p, d) ∈ xs → (p, d') ∈ xs → d = d'.
Proof.
  induction xs as [|[q e] r IH]; simpl; [set_solver|].
  intros [Hn ND]%NoDup_cons H1 H2.
  assert (∀ x, (q, x) ∈ r → False) as Hq.
  { intros x Hx. apply Hn. apply list_elem_of_fmap. by exists (q, x). }
  apply elem_of_cons in H1 as [H1|H1], H2 as [H2|H2]; simplify_eq; eauto; by exfalso; eauto.
Qed.

Lemma hashed_fun m xs p q d e :
  hashed m xs → (p, d) ∈ xs → (q, e) ∈ xs → idof d = idof e → p = q.
Proof.
  intros H Hp Hq E.
  assert (m !! idof d = Some p) by (apply H; eauto).
  assert (m !! idof d = Some q) by (apply H; eauto). congruence.
Qed.

Lemma hashed_NoDup m xs : NoDup xs.*1 → hashed m xs → NoDup (ids xs).
Proof.
  intros ND H. unfold ids. rewrite <- list_fmap_compose.
  apply NoDup_fmap_2_strong.
  - intros [p d] [q e] Hp Hq E. simpl in E.
    assert (p = q) as -> by (by eapply hashed_fun). f_equal. by eapply NoDup_fst_eq.
  - by apply NoDup_fmap_1 in ND.
Qed.

Lemma hashed_elem m xs id : hashed m xs → id ∈ ids xs ↔ is_Some (m !! id).
Proof.
  intros H. unfold ids. rewrite list_elem_of_fmap. split.
  - intros (d & -> & ([p ?] & -> & Hin)%list_elem_of_fmap). exists p. apply H. eauto.
  - intros [p (d & Hin & <-)%H]. exists d. split; [done|].
    apply list_elem_of_fmap. by exists (p, d).
Qed.

Lemma hashed_split m xs id p :
  hashed m xs → m !! id = Some p → ∃ a d b, xs = a ++ (p, d) :: b ∧ idof d = id.
Proof.
  intros H (d & Hin & E)%H. apply list_elem_of_split in Hin as (a & b & ->). by exists a, d, b.
Qed.

(** Removing the key of one element. *)
Lemma hashed_delete m a p d b :
  NoDup (a ++ (p, d) :: b).*1 → hashed m (a ++ (p, d) :: b) →
  hashed (delete (idof d) m) (a ++ b).
Proof.
  intros ND H id q. rewrite lookup_delete_Some, (H id q).
  assert (p ∉ (a ++ b).*1) as Hp.
  { rewrite !fmap_app, fmap_cons in *.
    apply NoDup_app in ND as (? & ? & [? ?]%NoDup_cons). set_solver. }
  split.
  - intros (Hne & e & Hin & E). exists e. split; [|done].
    rewrite elem_of_app, elem_of_cons in *. destruct Hin as [|[Heq|]]; eauto.
    injection Heq as -> ->. congruence.
  - intros (e & Hin & E). split.
    + intros Heq. assert (q = p) as ->.
      { eapply (hashed_fun m (a ++ (p, d) :: b) q p e d); [done|set_solver|set_solver|congruence]. }
      apply Hp, list_elem_of_fmap. by exists (p, e).
    + exists e. split; [set_solver|done].
Qed.

Lemma hashed_insert m xs ys p d :
  hashed m xs → m !! idof d = None → ys ≡ₚ (p, d) :: xs →
  hashed (<[idof d := p]> m) ys.
Proof.
  intros H Hnone HP id q. rewrite lookup_insert_Some, (H id q). setoid_rewrite HP.
  setoid_rewrite elem_of_cons. split.
  - intros [[<- <-]|(Hne & e & Hin & E)]; eauto.
  - intros (e & [Heq|Hin] & E); [injection Heq as -> ->; eauto|].
    right. split; [|eauto]. intros Heq.
    assert (m !! idof d = Some q) by (apply H; exists e; split; [done|congruence]). congruence.
Qed.

Lemma hashed_perm m xs ys : xs ≡ₚ ys → hashed m xs → hashed m ys.
Proof. intros HP H id p. rewrite (H id p). by setoid_rewrite HP. Qed.
Lemma lm_lookup_None M xs id : lm_inv M xs → lm_map M !! id = None ↔ id ∉ ids xs.
Proof.
  intros (_ & H & _). rewrite (hashed_elem _ _ id H), <- eq_None_not_Some. done.
Qed.

Lemma lm_lookup_Some M xs id p :
  lm_inv M xs → lm_map M !! id = Some p → ∃ a d b, xs = a ++ (p, d) :: b ∧ idof d = id.
Proof. intros (_ & H & _). by apply hashed_split. Qed.

Lemma lm_NoDup M xs : lm_inv M xs → NoDup (ids xs).
Proof. intros ((_ & _ & ND & _) & H & _). by eapply hashed_NoDup. Qed.

Lemma lm_data M xs p d : lm_inv M xs → (p, d) ∈ xs → ∃ x y, lm_heap M !! p = Some (Node d x y).
Proof.
  intros (R & _) Hin. pose proof (rep_lookup _ _ _ _ _ R Hin) as E.
  destruct (lm_heap M !! p) as [[e x y]|]; simplify_eq/=. eauto.
Qed.

Lemma lm_head M xs : lm_inv M xs → dl_head (lm_list M) = first_loc xs.
Proof. by intros ((H & _) & _). Qed.

Lemma lm_tail M xs : lm_inv M xs → dl_tail (lm_list M) = last_loc xs.
Proof. by intros ((_ & H & _) & _). Qed.

Lemma lm_node M a p d b :
  lm_inv M (a ++ (p, d) :: b) →
  lm_heap M !! p = Some (Node d (last_loc a) (first_loc b)) ∧ lm_map M !! idof d = Some p.
Proof.
  intros ((_ & _ & _ & Hs) & H & _). rewrite (seg_lookup_middle _ _ _ _ _ _ _ Hs). split.
  - by destruct (last_loc a), (first_loc b).
  - apply H. exists d. set_solver.
Qed.

Lemma lm_size M xs : lm_inv M xs → length xs ≤ size (lm_heap M).
Proof. intros (R & _). by eapply rep_size. Qed.

Lemma ids_app a b : ids (a ++ b) = ids a ++ ids b.
Proof. unfold ids. by rewrite !fmap_app. Qed.

Lemma ids_perm xs ys : xs ≡ₚ ys → ids xs ≡ₚ ids ys.
Proof. unfold ids. by intros ->. Qed.

Lemma frame_dom ls (h h' : heap T) q : frame ls h h' → q ∈ dom h' ↔ q ∈ dom h.
Proof. intros [-> _]. done. Qed.

Lemma lm_move_to_front_ok M a p d b :
  lm_inv M (a ++ (p, d) :: b) →
  ∃ M', lm_move_to_front p M = Ret M' ∧ lm_inv M' ((p, d) :: a ++ b) ∧ lm_map M' = lm_map M.
Proof.
  intros (R & H & D). destruct (move_to_front_spec _ _ _ _ _ _ R) as (h & L & E & R' & F).
  exists (LinkedMap (lm_map M) L h). split; [unfold lm_move_to_front; by rewrite E|].
  split; [|done]. split; [done|]. split.
  - eapply hashed_perm; [|done]. by rewrite Permutation_middle.
  - intros q. simpl. rewrite (frame_dom _ _ _ q F), D.
    rewrite <- Permutation_middle. done.
Qed.

Lemma lm_move_to_back_ok M a p d b :
  lm_inv M (a ++ (p, d) :: b) →
  ∃ M', lm_move_to_back p M = Ret M' ∧ lm_inv M' ((a ++ b) ++ [(p, d)]) ∧ lm_map M' = lm_map M.
Proof.
  intros (R & H & D). destruct (unlink_spec _ _ _ _ _ _ R) as (h & L & E & R' & Hp & F).
  assert (p ∉ (a ++ b).*1) as Hn.
  { destruct R as (_ & _ & ND & _). rewrite <- Permutation_middle in ND.
    by apply NoDup_cons in ND as [? _]. }
  destruct (push_back_spec _ _ _ _ _ _ _ R' Hp Hn) as (h2 & L2 & E2 & R2 & F2).
  exists (LinkedMap (lm_map M) L2 h2). split.
  { unfold lm_move_to_back. rewrite E. simpl. by rewrite E2. }
  assert ((a ++ b) ++ [(p, d)] ≡ₚ a ++ (p, d) :: b) as HP.
  { rewrite <- Permutation_cons_append. by rewrite Permutation_middle. }
  split; [|done]. split; [done|]. split.
  - eapply hashed_perm; [|done]. by rewrite HP.
  - intros q. simpl. rewrite (frame_dom _ _ _ q F2), (frame_dom _ _ _ q F), D. by rewrite HP.
Qed.

Lemma lm_remove_ok M a p d b :
  lm_inv M (a ++ (p, d) :: b) →
  ∃ M', lm_remove_and_release p (LinkedMap (delete (idof d) (lm_map M)) (lm_list M) (lm_heap M))
        = Ret M' ∧ lm_inv M' (a ++ b) ∧ lm_map M' = delete (idof d) (lm_map M).
Proof.
  intros (R & H & D). destruct (unlink_spec _ _ _ _ _ _ R) as (h & L & E & R' & Hp & F).
  assert (NoDup (a ++ (p, d) :: b).*1) as ND by (destruct R as (_ & _ & ND & _); done).
  assert (p ∉ (a ++ b).*1) as Hn.
  { rewrite <- Permutation_middle in ND. by apply NoDup_cons in ND as [? _]. }
  exists (LinkedMap (delete (idof d) (lm_map M)) L (delete p h)). split.
  { unfold lm_remove_and_release, drop_boxed_node. simpl. rewrite E. simpl. by rewrite Hp. }
  split; [|done]. split; [|split].
  - simpl. destruct R' as (? & ? & ? & Hs). repeat (split; [done|]).
    by apply seg_frame_del.
  - simpl. eapply hashed_delete; done.
  - intros q. simpl. rewrite dom_delete, elem_of_difference, (frame_dom _ _ _ q F), D.
    rewrite elem_of_singleton, <- Permutation_middle. simpl. rewrite elem_of_cons.
    destruct (decide (q = p)); set_solver.
Qed.

Lemma lm_insert_front_ok M xs id d :
  lm_inv M xs → lm_map M !! id = None → idof d = id →
  ∃ M' p, lm_insert_front id d M = Ret (M', p) ∧ lm_inv M' ((p, d) :: xs)
          ∧ lm_map M' = <[id := p]> (lm_map M).
Proof.
  intros (R & H & D) Hno <-. pose proof (alloc_fresh (lm_heap M) d) as Hf.
  unfold lm_insert_front, alloc_node in *. simpl in Hf.
  set (p := fresh (dom (lm_heap M))) in *.
  set (h := <[p:=Node d None None]> (lm_heap M)).
  assert (p ∉ xs.*1) as Hn by (rewrite <- D; by apply not_elem_of_dom).
  assert (rep h (lm_list M) xs) as R0.
  { destruct R as (? & ? & ? & Hs). repeat (split; [done|]).
    by apply seg_insert_fresh. }
  destruct (push_front_spec p d None None h (lm_list M) xs R0) as (h2 & L2 & E2 & R2 & F2);
    [apply lookup_insert_eq|done|].
  eexists _, p. split; [simpl; rewrite E2; done|]. simpl. split; [|done]. split; [done|]. split.
  - simpl. by eapply hashed_insert.
  - intros q. simpl. rewrite (frame_dom _ _ _ q F2). unfold h.
    rewrite dom_insert, elem_of_union, D. set_solver.
Qed.

Lemma lm_insert_back_ok M xs id d :
  lm_inv M xs → lm_map M !! id = None → idof d = id →
  ∃ M' p, lm_insert_back id d M = Ret (M', p) ∧ lm_inv M' (xs ++ [(p, d)])
          ∧ lm_map M' = <[id := p]> (lm_map M).
Proof.
  intros (R & H & D) Hno <-. pose proof (alloc_fresh (lm_heap M) d) as Hf.
  unfold lm_insert_back, alloc_node in *. simpl in Hf.
  set (p := fresh (dom (lm_heap M))) in *.
  set (h := <[p:=Node d None None]> (lm_heap M)).
  assert (p ∉ xs.*1) as Hn by (rewrite <- D; by apply not_elem_of_dom).
  assert (rep h (lm_list M) xs) as R0.
  { destruct R as (? & ? & ? & Hs). repeat (split; [done|]).
    by apply seg_insert_fresh. }
  destruct (push_back_spec p d None None h (lm_list M) xs R0) as (h2 & L2 & E2 & R2 & F2);
    [apply lookup_insert_eq|done|].
  eexists _, p. split; [simpl; rewrite E2; done|]. simpl. split; [|done]. split; [done|]. split.
  - simpl. eapply hashed_insert; [done..|]. by rewrite Permutation_app_comm.
  - intros q. simpl. rewrite (frame_dom _ _ _ q F2). unfold h.
    rewrite dom_insert, elem_of_union, D, fmap_app. set_solver.
Qed.
Lemma lm_update_ok M a p d b f :
  lm_inv M (a ++ (p, d) :: b) → idof (f d) = idof d →
  ∃ M', lm_update p f M = Ret M' ∧ lm_inv M' (a ++ (p, f d) :: b) ∧ lm_map M' = lm_map M.
Proof.
  intros (R & H & D) Hid. destruct R as (Hh & Ht & ND & Hs).
  pose proof (seg_lookup_middle _ _ _ _ _ _ _ Hs) as Hp.
  assert ((a ++ (p, f d) :: b).*1 = (a ++ (p, d) :: b).*1) as Efst by (by rewrite !fmap_app).
  eexists. split; [unfold lm_update; rewrite Hp; done|]. split; [|done]. split; [|split].
  - simpl. split; [by rewrite Hh, !first_loc_app|]. split.
    { rewrite Ht, !last_loc_app. by destruct b. }
    split; [by rewrite Efst|].
    apply seg_app in Hs as [Ha [_ Hb]]. apply seg_app.
    rewrite fmap_app in ND. simpl in ND.
    apply NoDup_app in ND as (_ & Dab & [Hpb _]%NoDup_cons).
    assert (p ∉ a.*1) by set_solver.
    split; [by apply seg_insert_fresh|]. split; [apply lookup_insert_eq|by apply seg_insert_fresh].
  - intros id q. simpl. rewrite (H id q). split; intros (e & Hin & <-);
      apply elem_of_app in Hin as [Hin|[Hin|Hin]%elem_of_cons]; simplify_eq.
    1, 3, 4, 6: exists e; set_solver.
    + exists (f d). set_solver.
    + exists d. set_solver.
  - intros q. simpl. rewrite dom_insert, elem_of_union, elem_of_singleton, D, Efst.
    rewrite fmap_app. set_solver.
Qed.

Lemma lm_drain_ok order M xs :
  rep (lm_heap M) (lm_list M) xs → (∀ p, p ∈ dom (lm_heap M) ↔ p ∈ xs.*1) →
  order ≡ₚ xs.*1 →
  ∃ L, lm_drain order M = Ret (LinkedMap (lm_map M) L ∅) ∧ rep (∅ : heap T) L [].
Proof.
  revert M xs. induction order as [|p order IH]; intros M xs R D HP; simpl.
  - apply Permutation_nil_l in HP. symmetry in HP. apply fmap_nil_inv in HP as ->.
    assert (lm_heap M = ∅) as E.
    { apply dom_empty_inv_L. apply elem_of_equiv_empty_L. intros q Hq%D. set_solver. }
    exists (lm_list M). rewrite <- E. split; [by destruct M|done].
  - assert (p ∈ xs.*1) as ([l d] & -> & Hin)%list_elem_of_fmap by (rewrite <- HP; set_solver).
    simpl in *. apply list_elem_of_split in Hin as (a & b & ->).
    destruct (unlink_spec _ _ _ _ _ _ R) as (h & L & E & R' & Hp & F).
    assert (NoDup (a ++ (l, d) :: b).*1) as ND by (destruct R as (_ & _ & ND & _); done).
    rewrite <- Permutation_middle in ND. apply NoDup_cons in ND as [Hn _].
    unfold lm_remove_and_release, drop_boxed_node. rewrite E. simpl. rewrite Hp. simpl.
    destruct R' as (? & ? & ? & Hs).
    apply (IH (LinkedMap (lm_map M) L (delete l h)) (a ++ b)).
    + simpl. repeat (split; [done|]). by apply seg_frame_del.
    + intros q. simpl. rewrite dom_delete, elem_of_difference, (frame_dom _ _ _ q F), D.
      rewrite elem_of_singleton, <- Permutation_middle. simpl. rewrite elem_of_cons.
      destruct (decide (q = l)); set_solver.
    + rewrite <- Permutation_middle in HP. by apply Permutation_cons_inv in HP.
Qed.

(** The pointers in the map are the nodes of the list. *)
Lemma hashed_values m xs : NoDup xs.*1 → hashed m xs → (map_to_list m).*2 ≡ₚ xs.*1.
Proof.
  intros ND H. apply NoDup_Permutation; [|done|].
  - apply NoDup_fmap_2_strong; [|apply NoDup_map_to_list].
    intros [i p] [j q] Hi%elem_of_map_to_list Hj%elem_of_map_to_list E. simpl in *. subst q.
    apply H in Hi as (d & Hd & <-), Hj as (e & He & <-).
    by rewrite (NoDup_fst_eq _ _ _ _ ND Hd He).
  - intros p. split.
    + intros ([i l] & -> & Hi%elem_of_map_to_list)%list_elem_of_fmap.
      apply H in Hi as (d & Hd & _). apply list_elem_of_fmap. by exists (l, d).
    + intros ([l d] & -> & Hd)%list_elem_of_fmap.
      apply list_elem_of_fmap. exists (idof d, l). split; [done|].
      apply elem_of_map_to_list, H. eauto.
Qed.

(** Dropping the map, in whatever order it is drained, frees every node once
    and leaks none. *)
Lemma lm_drop_ok order M xs :
  lm_inv M xs → order ≡ₚ (map_to_list (lm_map M)).*2 →
  lm_drop order M = Ret (LinkedMap ∅ dll_new ∅).
Proof.
  intros (R & H & D) HP.
  assert (order ≡ₚ xs.*1) as HP'.
  { rewrite HP. apply hashed_values; [|done]. by destruct R as (_ & _ & ND & _). }
  destruct (lm_drain_ok order (LinkedMap ∅ (lm_list M) (lm_heap M)) xs R D HP')
    as (L & E & R').
  unfold lm_drop. rewrite E. simpl. destruct R' as (Hh & _). unfold drop_all.
  rewrite Hh. simpl. done.
Qed.

(** Updating exactly the node of one key. *)
Lemma fmap_middle_on (f : loc * T → loc * T) a x y b :
  NoDup (ids (a ++ x :: b)) → f x = y →
  (∀ z, idof z.2 ≠ idof x.2 → f z = z) →
  f <$> (a ++ x :: b) = a ++ y :: b.
Proof.
  intros ND Hx Hf. rewrite fmap_app. simpl. rewrite Hx.
  rewrite ids_app in ND. unfold ids in ND. simpl in ND.
  apply NoDup_app in ND as (_ & D & [Hb _]%NoDup_cons).
  f_equal; [|f_equal]; apply fmap_id_on; intros [q e] Hq; apply Hf; intros He.
  - apply (D (idof e)); [|simpl in He; rewrite He; set_solver].
    apply list_elem_of_fmap_2, list_elem_of_fmap. by exists (q, e).
  - apply Hb. rewrite <- He. apply list_elem_of_fmap_2.
    apply list_elem_of_fmap. by exists (q, e).
Qed.

(** ** The operations on the sequence of entries *)

Lemma lm_model_new : lm_model lm_new [].
Proof. exists []. split; [apply lm_inv_new|done]. Qed.

Lemma lm_model_NoDup M s : lm_model M s → NoDup s.
Proof. intros (xs & I & <-). by eapply lm_NoDup. Qed.

Lemma lm_model_None M s id : lm_model M s → lm_map M !! id = None ↔ id ∉ s.
Proof. intros (xs & I & <-). by apply lm_lookup_None. Qed.

Lemma lm_model_touch_front M s id p :
  lm_model M s → lm_map M !! id = Some p →
  ∃ M', lm_move_to_front p M = Ret M' ∧ lm_model M' (id :: others id s).
Proof.
  intros (xs & I & <-) Hp. pose proof (lm_NoDup _ _ I) as ND.
  destruct (lm_lookup_Some _ _ _ _ I Hp) as (a & d & b & -> & <-).
  destruct (lm_move_to_front_ok _ _ _ _ _ I) as (M' & E & I' & _).
  exists M'. split; [done|]. eexists. split; [done|].
  rewrite ids_app in ND |- *. unfold ids in *. simpl in *.
  by rewrite fmap_app, fmap_app, others_middle.
Qed.

Lemma lm_model_touch_back M s id p :
  lm_model M s → lm_map M !! id = Some p →
  ∃ M', lm_move_to_back p M = Ret M' ∧ lm_model M' (others id s ++ [id]).
Proof.
  intros (xs & I & <-) Hp. pose proof (lm_NoDup _ _ I) as ND.
  destruct (lm_lookup_Some _ _ _ _ I Hp) as (a & d & b & -> & <-).
  destruct (lm_move_to_back_ok _ _ _ _ _ I) as (M' & E & I' & _).
  exists M'. split; [done|]. eexists. split; [done|].
  rewrite ids_app in ND. rewrite !ids_app. unfold ids in *. simpl in *.
  by rewrite others_middle.
Qed.

Lemma lm_model_insert_front M s d :
  lm_model M s → idof d ∉ s →
  ∃ M' p, lm_insert_front (idof d) d M = Ret (M', p) ∧ lm_model M' (idof d :: s).
Proof.
  intros Ms Hn. pose proof (proj2 (lm_model_None _ _ _ Ms) Hn) as E.
  destruct Ms as (xs & I & <-). destruct (lm_insert_front_ok _ _ _ _ I E eq_refl)
    as (M' & p & -> & I' & _).
  exists M', p. split; [done|]. by eexists.
Qed.

Lemma lm_model_insert_back M s d :
  lm_model M s → idof d ∉ s →
  ∃ M' p, lm_insert_back (idof d) d M = Ret (M', p) ∧ lm_model M' (s ++ [idof d]).
Proof.
  intros Ms Hn. pose proof (proj2 (lm_model_None _ _ _ Ms) Hn) as E.
  destruct Ms as (xs & I & <-). destruct (lm_insert_back_ok _ _ _ _ I E eq_refl)
    as (M' & p & -> & I' & _).
  exists M', p. split; [done|]. eexists. split; [done|]. by rewrite ids_app.
Qed.

(** The node at the head of the list is the first entry of the sequence, and
    removing it from map, list and heap leaves the rest. *)
Lemma lm_model_head M s :
  lm_model M s →
  match s with
  | [] => dl_head (lm_list M) = None
  | id :: r =>
      ∃ p d x y, dl_head (lm_list M) = Some p ∧ lm_heap M !! p = Some (Node d x y)
        ∧ idof d = id ∧ lm_map M !! id = Some p
        ∧ ∃ M', lm_remove_and_release p (LinkedMap (delete id (lm_map M)) (lm_list M) (lm_heap M))
                = Ret M' ∧ lm_model M' r
  end.
Proof.
  intros (xs & I & <-). destruct xs as [|[p d] r]; simpl; [by rewrite (lm_head _ _ I)|].
  destruct (lm_data _ _ p d I) as (x & y & E); [set_solver|].
  destruct (lm_remove_ok M [] p d r I) as (M' & E' & I' & _).
  exists p, d, x, y. rewrite (lm_head _ _ I). split_and!; try done.
  - destruct I as (_ & H & _). apply H. exists d. set_solver.
  - exists M'. split; [done|]. by eexists.
Qed.

Lemma lm_model_tail M s :
  lm_model M s →
  (s = [] ∧ dl_tail (lm_list M) = None)
  ∨ ∃ r id p d x y, s = r ++ [id] ∧ dl_tail (lm_list M) = Some p
      ∧ lm_heap M !! p = Some (Node d x y) ∧ idof d = id ∧ lm_map M !! id = Some p
      ∧ ∃ M', lm_remove_and_release p (LinkedMap (delete id (lm_map M)) (lm_list M) (lm_heap M))
              = Ret M' ∧ lm_model M' r.
Proof.
  intros (xs & I & <-). destruct xs as [|[p d] r _] using rev_ind.
  { left. by rewrite (lm_tail _ _ I). }
  right. destruct (lm_data _ _ p d I) as (x & y & E); [set_solver|].
  destruct (lm_remove_ok M r p d [] I) as (M' & E' & I' & _).
  exists (ids r), (idof d), p, d, x, y.
  rewrite (lm_tail _ _ I), last_loc_snoc, ids_app. split_and!; try done.
  - destruct I as (_ & H & _). apply H. exists d. set_solver.
  - exists M'. split; [done|]. exists r. by rewrite <- (app_nil_r r).
Qed.

Lemma walk_rep h L xs :
  rep h L xs → lm_walk (size h) (dl_head L) h = ids xs.
Proof.
  intros R. pose proof (rep_size _ _ _ R) as Hsz. destruct R as (-> & _ & _ & Hs).
  revert Hsz Hs. generalize (size h). generalize (@None loc) at 1.
  induction xs as [|[p d] xs IH]; intros pp n Hsz Hs; [by destruct n|].
  destruct n as [|n]; simpl in Hsz; [lia|]. simpl in *. destruct Hs as [Hp Hs]. rewrite Hp. simpl.
  unfold ids in *. simpl. f_equal.
  etrans; [|apply (IH (Some p) n); [lia|done]]. by destruct xs.
Qed.

Lemma lm_order_ok M s : lm_model M s → lm_order M = s.
Proof. intros (xs & (R & _) & <-). by apply walk_rep. Qed.

Lemma lm_model_order M : (∃ s, lm_model M s) → lm_model M (lm_order M).
Proof. intros [s Ms]. by rewrite (lm_order_ok _ _ Ms). Qed.

Lemma lm_model_drop order M s :
  lm_model M s → order ≡ₚ (map_to_list (lm_map M)).*2 →
  lm_drop order M = Ret (LinkedMap ∅ dll_new ∅).
Proof. intros (xs & I & _). by eapply lm_drop_ok. Qed.
End linked_map.

(** ** A hand into the list

    SIEVE and CLOCK cut the list in two at their hand. *)

Lemma last_loc_reverse {T} (u : list (loc * T)) : last_loc (reverse u) = first_loc u.
Proof. unfold last_loc, first_loc. by rewrite last_reverse. Qed.

Lemma first_loc_reverse {T} (u : list (loc * T)) : first_loc (reverse u) = last_loc u.
Proof. unfold last_loc, first_loc. by rewrite head_reverse. Qed.

(** Where the hand goes: the next entry ahead, or around. *)
Definition wrap_nodes {T} (u v : list (loc * T)) : list (loc * T) * list (loc * T) :=
  match u with [] => (v, []) | _ => (u, v) end.

Lemma wrap_nodes_rev {T} (u v : list (loc * T)) :
  reverse (wrap_nodes u v).1 ++ reverse (wrap_nodes u v).2 = reverse u ++ reverse v.
Proof. destruct u; simpl; [by rewrite app_nil_r|done]. Qed.

Lemma wrap_nodes_some {T} (u v : list (loc * T)) :
  (wrap_nodes u v).1 = [] → (wrap_nodes u v).2 = [].
Proof. by destruct u. Qed.

Lemma wrap_nodes_hand {T} (u v : list (loc * T)) :
  first_loc (wrap_nodes u v).1 = option_or (first_loc u) (first_loc v).
Proof. by destruct u as [|[]]. Qed.

Lemma wrap_nodes_length {T} (u v : list (loc * T)) :
  length ((wrap_nodes u v).1 ++ (wrap_nodes u v).2) = length (u ++ v).
Proof. destruct u; simpl; by rewrite ?app_nil_r. Qed.

Lemma wrap_nodes_list {T} (u v : list (loc * T)) :
  (wrap_nodes u v).2 ++ (wrap_nodes u v).1 = v ++ u.
Proof. destruct u; simpl; [by rewrite app_nil_r|done]. Qed.
