(* ===== verification/Lru.v ===== *)
(** * The LRU policy

    Model of [src/src/storage/src/cache/policies/cache/lru.rs].  [HashList] is the
    [linked_map] of [LinkedMap.v]; the policy's three operations and its [Drop]
    are translated below.  The theorems say that the pointer structure
    implements a sequence of entries, most recently used first. *)

From stdpp Require Import base list gmap.
From Stdlib Require Import ZArith.
From S2P Require Import Prelude DoublyLinkedList CachePolicy LinkedMap.

Record LruNode : Type := { lru_entry_id : EntryID }.

Abbreviation HashList := (linked_map LruNode).

Definition lru_new : HashList := lm_new.

Definition lru_tail (M : HashList) : option loc := dl_tail (lm_list M).

(** One iteration of the loop of [find_victim]: [None] is the [break]. *)
Definition lru_evict_tail (M : HashList) : outcome (option (EntryID * HashList)) :=
  match lru_tail M with
  | None => Ret None
  | Some tail_ptr =>
      n ← deref (lm_heap M !! tail_ptr);
      let tail_entry_id := lru_entry_id (data n) in
      node_ptr ← expect (lm_map M !! tail_entry_id);
      let M := LinkedMap (delete tail_entry_id (lm_map M)) (lm_list M) (lm_heap M) in
      M ← lm_remove_and_release node_ptr M;
      Ret (Some (tail_entry_id, M))
  end.

Fixpoint lru_evict_loop (cnt : nat) (M : HashList) : outcome (list EntryID * HashList) :=
  match cnt with
  | O => Ret ([], M)
  | S cnt =>
      r ← lru_evict_tail M;
      match r with
      | None => Ret ([], M)
      | Some (id, M) =>
          '(advices, M) ← lru_evict_loop cnt M;
          Ret (id :: advices, M)
      end
  end.

Definition lru_find_victim (cnt : nat) (M : HashList) : outcome (list EntryID * HashList) :=
  if decide (cnt = 0) then Ret ([], M) else lru_evict_loop cnt M.

Definition lru_notify_access (entry_id : EntryID) (_ : CachedBatchType) (M : HashList)
    : outcome HashList :=
  match lm_map M !! entry_id with
  | Some node_ptr => lm_move_to_front node_ptr M
  | None => Ret M
  end.

Definition lru_notify_insert (entry_id : EntryID) (_ : CachedBatchType) (M : HashList)
    : outcome HashList :=
  match lm_map M !! entry_id with
  | Some existing_node_ptr => lm_move_to_front existing_node_ptr M
  | None =>
      '(M, _) ← lm_insert_front entry_id {| lru_entry_id := entry_id |} M;
      Ret M
  end.

Definition lru_drop (order : list loc) (M : HashList) : outcome HashList := lm_drop order M.

#[export] Instance LruPolicy : CachePolicy HashList := {
  policy_new := lru_new;
  find_victim := lru_find_victim;
  notify_insert := lru_notify_insert;
  notify_access := lru_notify_access
}.

(** The recency sequence of a state, most recently used entry first. *)
Definition lru_model (M : HashList) (s : list EntryID) : Prop := lm_model lru_entry_id M s.

Definition lru_order (M : HashList) : list EntryID := lm_order lru_entry_id M.

(** ** The operations on the sequence *)

Lemma lru_evict_tail_ok M s :
  lru_model M s →
  (s = [] ∧ lru_evict_tail M = Ret None)
  ∨ ∃ r id M', s = r ++ [id] ∧ lru_evict_tail M = Ret (Some (id, M')) ∧ lru_model M' r.
Proof.
  intros Ms. destruct (lm_model_tail _ _ _ Ms)
    as [[-> E]|(r & id & p & d & x & y & -> & Et & Eh & Ed & Em & M' & Er & Mr)].
  - left. unfold lru_evict_tail, lru_tail. by rewrite E.
  - right. exists r, id, M'. split; [done|]. split; [|done].
    unfold lru_evict_tail, lru_tail. rewrite Et, Eh. simpl. rewrite Ed, Em. simpl. by rewrite Er.
Qed.

Lemma lru_evict_loop_ok cnt M s :
  lru_model M s →
  ∃ M', lru_evict_loop cnt M = Ret (take cnt (reverse s), M')
        ∧ lru_model M' (take (length s - cnt) s).
Proof.
  revert M s. induction cnt as [|cnt IH]; intros M s Ms; simpl.
  - exists M. rewrite Nat.sub_0_r, (take_ge s) by lia. done.
  - destruct (lru_evict_tail_ok M s Ms) as [[-> E]|(r & id & M' & -> & E & Mr)]; rewrite E; simpl.
    + exists M. done.
    + destruct (IH M' r Mr) as (M2 & E2 & Mr2). rewrite E2. simpl.
      exists M2. rewrite reverse_app, length_app. simpl. split; [done|].
      replace (length r + 1 - S cnt) with (length r - cnt) by lia.
      by rewrite take_app_le by lia.
Qed.

Lemma lru_find_victim_ok cnt M s :
  lru_model M s →
  ∃ M', lru_find_victim cnt M = Ret (take cnt (reverse s), M')
        ∧ lru_model M' (take (length s - cnt) s).
Proof.
  intros Ms. unfold lru_find_victim. case_decide as E; [subst cnt|by apply lru_evict_loop_ok].
  exists M. rewrite Nat.sub_0_r, (take_ge s) by lia. done.
Qed.

Lemma lru_notify_access_ok id ty M s :
  lru_model M s →
  ∃ M', lru_notify_access id ty M = Ret M'
        ∧ lru_model M' (if decide (id ∈ s) then id :: others id s else s).
Proof.
  intros Ms. unfold lru_notify_access. pose proof (lm_model_None _ _ _ id Ms) as HN.
  destruct (lm_map M !! id) as [p|] eqn:E.
  - rewrite decide_True by (apply dec_stable; intros Hn%HN; done).
    by eapply lm_model_touch_front.
  - rewrite decide_False by (by apply HN). eauto.
Qed.

Lemma lru_notify_insert_ok id ty M s :
  lru_model M s →
  ∃ M', lru_notify_insert id ty M = Ret M' ∧ lru_model M' (id :: others id s).
Proof.
  intros Ms. unfold lru_notify_insert. pose proof (lm_model_None _ _ _ id Ms) as HN.
  destruct (lm_map M !! id) as [p|] eqn:E; [by eapply lm_model_touch_front|].
  assert (id ∉ s) as Hn by (by apply HN). rewrite others_notin by done.
  destruct (lm_model_insert_front _ M s {| lru_entry_id := id |} Ms Hn) as (M' & p & E' & Ms').
  simpl in E'. rewrite E'. simpl. by exists M'.
Qed.

#[export] Program Instance LruLaws : PolicyLaws HashList := {
  policy_inv M := ∃ s, lru_model M s;
  tracked := lru_order
}.
Next Obligation. intros M H%lm_model_order. by eapply lm_model_NoDup. Qed.
Next Obligation. split; [exists []; apply lm_model_new|done]. Qed.
Next Obligation.
  intros cnt M H%lm_model_order.
  destruct (lru_find_victim_ok cnt M _ H) as (M' & E & Ms').
  exists (take cnt (reverse (lru_order M))), M'. split; [done|]. split; [by eexists|].
  assert (lru_order M' = take (length (lru_order M) - cnt) (lru_order M)) as ->.
  { by apply lm_order_ok. }
  split; [|by rewrite length_take, length_reverse].
  apply take_reverse_perm.
Qed.
Next Obligation.
  intros id ty M H%lm_model_order.
  destruct (lru_notify_insert_ok id ty M _ H) as (M' & E & Ms').
  exists M'. split; [done|]. split; [by eexists|]. apply touch_insert_law; intros i.
  assert (lru_order M' = id :: others id (lru_order M)) as ->.
  { by apply lm_order_ok. }
  apply elem_of_touch.
Qed.
Next Obligation.
  intros id ty M H%lm_model_order.
  destruct (lru_notify_access_ok id ty M _ H) as (M' & E & Ms').
  exists M'. split; [done|]. split; [by eexists|]. intros i.
  assert (lru_order M' = if decide (id ∈ lru_order M)
                         then id :: others id (lru_order M) else lru_order M) as ->.
  { by apply lm_order_ok. }
  clear Ms'. case_decide; [by apply elem_of_touch_in|done].
Qed.

#[export] Instance LruTracksEveryKind : TracksEveryKind HashList.
Proof.
  intros id ty M M' H%lm_model_order E.
  destruct (lru_notify_insert_ok id ty M _ H) as (M1 & E1 & Ms1).
  assert (M1 = M') as -> by (cbn in E; congruence). cbn.
  assert (lru_order M' = id :: others id (lru_order M)) as -> by (by apply lm_order_ok). left.
Qed.
