(* ===== verification/Filo.v ===== *)
(** * The FILO and FIFO policies

    Model of [src/src/storage/src/cache/policies/cache/filo.rs].  [QueueState] is
    the [linked_map] of [LinkedMap.v].  Both policies evict from the head of
    the list; FILO inserts at the head, FIFO at the tail.  Neither overrides
    the trait's [notify_access], which does nothing. *)

From stdpp Require Import base list gmap.
From Stdlib Require Import ZArith.
From S2P Require Import Prelude DoublyLinkedList CachePolicy LinkedMap.

Record QueueNode : Type := { queue_entry_id : EntryID }.

Abbreviation QueueState := (linked_map QueueNode).

Definition queue_is_empty (M : QueueState) : bool :=
  match dl_head (lm_list M) with None => true | Some _ => false end.

Definition insert_front (entry_id : EntryID) (M : QueueState) : outcome QueueState :=
  match lm_map M !! entry_id with
  | Some ptr =>
      '(h, L) ← unlink ptr (lm_heap M) (lm_list M);
      '(h, L) ← push_front ptr h L;
      Ret (LinkedMap (lm_map M) L h)
  | None =>
      '(M, _) ← lm_insert_front entry_id {| queue_entry_id := entry_id |} M;
      Ret M
  end.

Definition insert_back (entry_id : EntryID) (M : QueueState) : outcome QueueState :=
  match lm_map M !! entry_id with
  | Some ptr =>
      '(h, L) ← unlink ptr (lm_heap M) (lm_list M);
      '(h, L) ← push_back ptr h L;
      Ret (LinkedMap (lm_map M) L h)
  | None =>
      '(M, _) ← lm_insert_back entry_id {| queue_entry_id := entry_id |} M;
      Ret M
  end.

Definition pop_front (M : QueueState) : outcome (option (EntryID * QueueState)) :=
  match dl_head (lm_list M) with
  | None => Ret None
  | Some head_ptr =>
      n ← deref (lm_heap M !! head_ptr);
      let entry_id := queue_entry_id (data n) in
      node_ptr ← expect (lm_map M !! entry_id);
      let M := LinkedMap (delete entry_id (lm_map M)) (lm_list M) (lm_heap M) in
      M ← lm_remove_and_release node_ptr M;
      Ret (Some (entry_id, M))
  end.

Fixpoint pop_loop (cnt : nat) (M : QueueState) : outcome (list EntryID * QueueState) :=
  match cnt with
  | O => Ret ([], M)
  | S cnt =>
      r ← pop_front M;
      match r with
      | None => Ret ([], M)
      | Some (id, M) =>
          '(victims, M) ← pop_loop cnt M;
          Ret (id :: victims, M)
      end
  end.

(** The body of [find_victim], the same for [FiloPolicy] and [FifoPolicy]. *)
Definition queue_find_victim (cnt : nat) (M : QueueState) : outcome (list EntryID * QueueState) :=
  if decide (cnt = 0) then Ret ([], M)
  else if queue_is_empty M then Ret ([], M)
  else pop_loop cnt M.

Definition queue_drop (order : list loc) (M : QueueState) : outcome QueueState := lm_drop order M.

(** The states of the two policies are kept apart: the source has two types
    wrapping a [Mutex<QueueState>]. *)
Record FiloPolicy : Type := Filo { filo_state : QueueState }.
Record FifoPolicy : Type := Fifo { fifo_state : QueueState }.

#[export] Instance filo_policy : CachePolicy FiloPolicy := {
  policy_new := Filo lm_new;
  find_victim cnt P := '(vs, M) ← queue_find_victim cnt (filo_state P); Ret (vs, Filo M);
  notify_insert id _ P := M ← insert_front id (filo_state P); Ret (Filo M);
  notify_access _ _ P := Ret P
}.

#[export] Instance fifo_policy : CachePolicy FifoPolicy := {
  policy_new := Fifo lm_new;
  find_victim cnt P := '(vs, M) ← queue_find_victim cnt (fifo_state P); Ret (vs, Fifo M);
  notify_insert id _ P := M ← insert_back id (fifo_state P); Ret (Fifo M);
  notify_access _ _ P := Ret P
}.

(** The queue, head first. *)
Definition queue_model (M : QueueState) (s : list EntryID) : Prop := lm_model queue_entry_id M s.
Definition queue_order (M : QueueState) : list EntryID := lm_order queue_entry_id M.

(** ** The operations on the queue *)

Lemma pop_front_ok M s :
  queue_model M s →
  match s with
  | [] => pop_front M = Ret None
  | id :: r => ∃ M', pop_front M = Ret (Some (id, M')) ∧ queue_model M' r
  end.
Proof.
  intros Ms. pose proof (lm_model_head _ _ _ Ms) as H. destruct s as [|id r]; unfold pop_front.
  - by rewrite H.
  - destruct H as (p & d & x & y & Et & Eh & Ed & Em & M' & Er & Mr).
    exists M'. split; [|done]. rewrite Et, Eh. simpl. rewrite Ed, Em. simpl. by rewrite Er.
Qed.

Lemma pop_loop_ok cnt M s :
  queue_model M s →
  ∃ M', pop_loop cnt M = Ret (take cnt s, M') ∧ queue_model M' (drop cnt s).
Proof.
  revert M s. induction cnt as [|cnt IH]; intros M s Ms; simpl; [by exists M|].
  pose proof (pop_front_ok M s Ms) as H. destruct s as [|id r].
  - rewrite H. simpl. by exists M.
  - destruct H as (M' & -> & Mr). simpl.
    destruct (IH M' r Mr) as (M2 & -> & Mr2). by exists M2.
Qed.

Lemma queue_find_victim_ok cnt M s :
  queue_model M s →
  ∃ M', queue_find_victim cnt M = Ret (take cnt s, M') ∧ queue_model M' (drop cnt s).
Proof.
  intros Ms. unfold queue_find_victim. case_decide as E; [subst cnt; by exists M|].
  unfold queue_is_empty. pose proof (lm_model_head _ _ _ Ms) as H. destruct s as [|id r].
  - rewrite H. exists M. by rewrite take_nil, drop_nil.
  - destruct H as (p & _ & _ & _ & -> & _). by apply pop_loop_ok.
Qed.

Lemma insert_front_ok id M s :
  queue_model M s → ∃ M', insert_front id M = Ret M' ∧ queue_model M' (id :: others id s).
Proof.
  intros Ms. unfold insert_front. pose proof (lm_model_None _ _ _ id Ms) as HN.
  destruct (lm_map M !! id) as [p|] eqn:E.
  - destruct (lm_model_touch_front _ _ _ _ _ Ms E) as (M' & E' & Ms').
    exists M'. split; [|done]. rewrite <- E'. unfold lm_move_to_front, move_to_front.
    by destruct (unlink p _ _) as [[]| | |].
  - assert (id ∉ s) as Hn by (by apply HN). rewrite others_notin by done.
    destruct (lm_model_insert_front _ M s {| queue_entry_id := id |} Ms Hn) as (M' & p & E' & Ms').
    simpl in E'. rewrite E'. simpl. by exists M'.
Qed.

Lemma insert_back_ok id M s :
  queue_model M s → ∃ M', insert_back id M = Ret M' ∧ queue_model M' (others id s ++ [id]).
Proof.
  intros Ms. unfold insert_back. pose proof (lm_model_None _ _ _ id Ms) as HN.
  destruct (lm_map M !! id) as [p|] eqn:E.
  - by apply (lm_model_touch_back _ _ _ _ _ Ms E).
  - assert (id ∉ s) as Hn by (by apply HN). rewrite others_notin by done.
    destruct (lm_model_insert_back _ M s {| queue_entry_id := id |} Ms Hn) as (M' & p & E' & Ms').
    simpl in E'. rewrite E'. simpl. by exists M'.
Qed.

#[export] Program Instance filo_laws : PolicyLaws FiloPolicy := {
  policy_inv P := ∃ s, queue_model (filo_state P) s;
  tracked P := queue_order (filo_state P)
}.
Next Obligation. intros P H%lm_model_order. by eapply lm_model_NoDup. Qed.
Next Obligation. split; [exists []; apply lm_model_new|done]. Qed.
Next Obligation.
  intros cnt [M] H%lm_model_order. simpl in *.
  destruct (queue_find_victim_ok cnt M _ H) as (M' & E & Ms'). rewrite E. simpl.
  eexists _, (Filo M'). split; [done|]. split; [by eexists|]. simpl.
  unfold queue_order at 2. rewrite (lm_order_ok _ _ _ Ms').
  split; [by rewrite take_drop|by rewrite length_take].
Qed.
Next Obligation.
  intros id ty [M] H%lm_model_order. simpl in *.
  destruct (insert_front_ok id M _ H) as (M' & E & Ms'). rewrite E. simpl.
  exists (Filo M'). split; [done|]. split; [by eexists|]. apply touch_insert_law; intros i. simpl.
  unfold queue_order at 1. rewrite (lm_order_ok _ _ _ Ms'). apply elem_of_touch.
Qed.
Next Obligation. intros id ty P H. by exists P. Qed.

#[export] Program Instance fifo_laws : PolicyLaws FifoPolicy := {
  policy_inv P := ∃ s, queue_model (fifo_state P) s;
  tracked P := queue_order (fifo_state P)
}.
Next Obligation. intros P H%lm_model_order. by eapply lm_model_NoDup. Qed.
Next Obligation. split; [exists []; apply lm_model_new|done]. Qed.
Next Obligation.
  intros cnt [M] H%lm_model_order. simpl in *.
  destruct (queue_find_victim_ok cnt M _ H) as (M' & E & Ms'). rewrite E. simpl.
  eexists _, (Fifo M'). split; [done|]. split; [by eexists|]. simpl.
  unfold queue_order at 2. rewrite (lm_order_ok _ _ _ Ms').
  split; [by rewrite take_drop|by rewrite length_take].
Qed.
Next Obligation.
  intros id ty [M] H%lm_model_order. simpl in *.
  destruct (insert_back_ok id M _ H) as (M' & E & Ms'). rewrite E. simpl.
  exists (Fifo M'). split; [done|]. split; [by eexists|]. apply touch_insert_law; intros i. simpl.
  unfold queue_order at 1. rewrite (lm_order_ok _ _ _ Ms').
  rewrite <- Permutation_cons_append. apply elem_of_touch.
Qed.
Next Obligation. intros id ty P H. by exists P. Qed.
