(* ===== verification/LiquidPolicy.v ===== *)
(** * The LiquidCache policy: one FIFO queue per kind of entry

    Model of [src/src/storage/src/cache/policies/cache/three_queue.rs], the default
    policy.  Four intrusive lists share one heap and one map; a node records
    the queue it is on.  [lq_inv] describes the four sequences at once. *)

From stdpp Require Import base list gmap fin_sets.
From Stdlib Require Import ZArith.
From S2P Require Import Prelude DoublyLinkedList CachePolicy LinkedMap.

Inductive QueueKind : Type := QArrow | QLiquid | QSqueezed | QDisk.

#[export] Instance QueueKind_eq_dec : EqDecision QueueKind.
Proof. solve_decision. Defined.

Record LQNode : Type := { lq_entry_id : EntryID; lq_queue : QueueKind }.

Record LiquidQueueInternalState : Type := LQ {
  lq_map : gmap EntryID loc;
  lq_arrow : dll;
  lq_liquid : dll;
  lq_squeezed : dll;
  lq_disk : dll;
  lq_heap : heap LQNode
}.

Definition lq_new : LiquidQueueInternalState := LQ ∅ dll_new dll_new dll_new dll_new ∅.

(** [list_mut]: the queue's list is read with [list_of] and written back,
    together with the heap, with [set_list]. *)
Definition list_of (queue : QueueKind) (Q : LiquidQueueInternalState) : dll :=
  match queue with
  | QArrow => lq_arrow Q
  | QLiquid => lq_liquid Q
  | QSqueezed => lq_squeezed Q
  | QDisk => lq_disk Q
  end.

Definition set_list (queue : QueueKind) (L : dll) (h : heap LQNode)
    (Q : LiquidQueueInternalState) : LiquidQueueInternalState :=
  match queue with
  | QArrow => LQ (lq_map Q) L (lq_liquid Q) (lq_squeezed Q) (lq_disk Q) h
  | QLiquid => LQ (lq_map Q) (lq_arrow Q) L (lq_squeezed Q) (lq_disk Q) h
  | QSqueezed => LQ (lq_map Q) (lq_arrow Q) (lq_liquid Q) L (lq_disk Q) h
  | QDisk => LQ (lq_map Q) (lq_arrow Q) (lq_liquid Q) (lq_squeezed Q) L h
  end.

Definition set_map (m : gmap EntryID loc) (Q : LiquidQueueInternalState) : LiquidQueueInternalState :=
  LQ m (lq_arrow Q) (lq_liquid Q) (lq_squeezed Q) (lq_disk Q) (lq_heap Q).

Definition set_heap (h : heap LQNode) (Q : LiquidQueueInternalState) : LiquidQueueInternalState :=
  LQ (lq_map Q) (lq_arrow Q) (lq_liquid Q) (lq_squeezed Q) (lq_disk Q) h.

Definition lq_push_back (queue : QueueKind) (node_ptr : loc) (Q : LiquidQueueInternalState)
    : outcome LiquidQueueInternalState :=
  n ← deref (lq_heap Q !! node_ptr);
  let d := {| lq_entry_id := lq_entry_id (data n); lq_queue := queue |} in
  let h := <[node_ptr := Node d (prev n) (next n)]> (lq_heap Q) in
  '(h, L) ← push_back node_ptr h (list_of queue Q);
  Ret (set_list queue L h Q).

Definition lq_detach (node_ptr : loc) (Q : LiquidQueueInternalState)
    : outcome LiquidQueueInternalState :=
  n ← deref (lq_heap Q !! node_ptr);
  let queue := lq_queue (data n) in
  '(h, L) ← unlink node_ptr (lq_heap Q) (list_of queue Q);
  Ret (set_list queue L h Q).

Definition upsert_into_queue (entry_id : EntryID) (target : QueueKind)
    (Q : LiquidQueueInternalState) : outcome LiquidQueueInternalState :=
  match lq_map Q !! entry_id with
  | Some node_ptr =>
      Q' ← lq_detach node_ptr Q;
      lq_push_back target node_ptr Q'
  | None =>
      let '(h, node_ptr) :=
        alloc_node {| lq_entry_id := entry_id; lq_queue := target |} (lq_heap Q) in
      let Q := set_map (<[entry_id := node_ptr]> (lq_map Q)) (set_heap h Q) in
      lq_push_back target node_ptr Q
  end.

Definition lq_pop_front (queue : QueueKind) (Q : LiquidQueueInternalState)
    : outcome (option (EntryID * LiquidQueueInternalState)) :=
  match dl_head (list_of queue Q) with
  | None => Ret None
  | Some head_ptr =>
      n ← deref (lq_heap Q !! head_ptr);
      let entry_id := lq_entry_id (data n) in
      node_ptr ← expect (lq_map Q !! entry_id);
      let Q := set_map (delete entry_id (lq_map Q)) Q in
      '(h, L) ← unlink node_ptr (lq_heap Q) (list_of queue Q);
      h ← drop_boxed_node node_ptr h;
      Ret (Some (entry_id, set_list queue L h Q))
  end.

Definition queue_of (batch_type : CachedBatchType) : QueueKind :=
  match batch_type with
  | TMemoryArrow => QArrow
  | TMemoryLiquid => QLiquid
  | TMemorySqueezedLiquid => QSqueezed
  | TDiskLiquid | TDiskArrow => QDisk
  end.

Definition lq_notify_insert (entry_id : EntryID) (batch_type : CachedBatchType)
    (Q : LiquidQueueInternalState) : outcome LiquidQueueInternalState :=
  upsert_into_queue entry_id (queue_of batch_type) Q.

(** The body of the [while] loop of [find_victim]: the three queues in turn. *)
Definition lq_next_victim (Q : LiquidQueueInternalState)
    : outcome (option (EntryID * LiquidQueueInternalState)) :=
  r ← lq_pop_front QArrow Q;
  match r with
  | Some v => Ret (Some v)
  | None =>
      r ← lq_pop_front QLiquid Q;
      match r with
      | Some v => Ret (Some v)
      | None => lq_pop_front QSqueezed Q
      end
  end.

(** [while victims.len() < cnt]: [cnt] here is what is missing. *)
Fixpoint lq_victim_loop (cnt : nat) (Q : LiquidQueueInternalState)
    : outcome (list EntryID * LiquidQueueInternalState) :=
  match cnt with
  | O => Ret ([], Q)
  | S cnt =>
      r ← lq_next_victim Q;
      match r with
      | None => Ret ([], Q)
      | Some (id, Q) =>
          '(victims, Q) ← lq_victim_loop cnt Q;
          Ret (id :: victims, Q)
      end
  end.

Definition lq_find_victim (cnt : nat) (Q : LiquidQueueInternalState)
    : outcome (list EntryID * LiquidQueueInternalState) :=
  if decide (cnt = 0) then Ret ([], Q) else lq_victim_loop cnt Q.

(** [Drop]: the map is drained in an unspecified order; each node is unlinked
    from the queue it records and freed. *)
Fixpoint lq_drain (order : list loc) (Q : LiquidQueueInternalState)
    : outcome LiquidQueueInternalState :=
  match order with
  | [] => Ret Q
  | p :: order =>
      Q' ← lq_detach p Q;
      h ← drop_boxed_node p (lq_heap Q');
      lq_drain order (set_heap h Q')
  end.

Definition lq_drop_list (queue : QueueKind) (Q : LiquidQueueInternalState)
    : outcome LiquidQueueInternalState :=
  '(h, L) ← drop_all (lq_heap Q) (list_of queue Q);
  Ret (set_list queue L h Q).

Definition lq_drop (order : list loc) (Q : LiquidQueueInternalState)
    : outcome LiquidQueueInternalState :=
  Q ← lq_drain order (set_map ∅ Q);
  Q ← lq_drop_list QArrow Q;
  Q ← lq_drop_list QLiquid Q;
  Q ← lq_drop_list QSqueezed Q;
  lq_drop_list QDisk Q.

#[export] Instance LiquidPolicy : CachePolicy LiquidQueueInternalState := {
  policy_new := lq_new;
  find_victim := lq_find_victim;
  notify_insert := lq_notify_insert;
  notify_access _ _ Q := Ret Q
}.

(** ** The four sequences *)

Abbreviation nodes := (list (loc * LQNode)).
Abbreviation lq_ids := (ids lq_entry_id).

Definition lq_all (xs : QueueKind → nodes) : nodes :=
  xs QArrow ++ xs QLiquid ++ xs QSqueezed ++ xs QDisk.

Definition lq_rest (q : QueueKind) (xs : QueueKind → nodes) : nodes :=
  match q with
  | QArrow => xs QLiquid ++ xs QSqueezed ++ xs QDisk
  | QLiquid => xs QArrow ++ xs QSqueezed ++ xs QDisk
  | QSqueezed => xs QArrow ++ xs QLiquid ++ xs QDisk
  | QDisk => xs QArrow ++ xs QLiquid ++ xs QSqueezed
  end.

Definition upd (q : QueueKind) (l : nodes) (xs : QueueKind → nodes) : QueueKind → nodes :=
  λ q', if decide (q' = q) then l else xs q'.

Record lq_inv (Q : LiquidQueueInternalState) (xs : QueueKind → nodes) : Prop := {
  lq_reps q : rep (lq_heap Q) (list_of q Q) (xs q);
  lq_tags q p d : (p, d) ∈ xs q → lq_queue d = q;
  lq_nodup : NoDup (lq_all xs).*1;
  lq_hashed : hashed lq_entry_id (lq_map Q) (lq_all xs);
  lq_dom p : p ∈ dom (lq_heap Q) ↔ p ∈ (lq_all xs).*1
}.

(** The state between a [detach] and a [push_back]: node [p] is live and in the
    map, but on no list. *)
Record lq_loose (Q : LiquidQueueInternalState) (xs : QueueKind → nodes) (p : loc) (d : LQNode)
    : Prop := {
  lo_reps q : rep (lq_heap Q) (list_of q Q) (xs q);
  lo_tags q p d : (p, d) ∈ xs q → lq_queue d = q;
  lo_nodup : NoDup (p :: (lq_all xs).*1);
  lo_hashed : hashed lq_entry_id (lq_map Q) ((p, d) :: lq_all xs);
  lo_dom q : q ∈ dom (lq_heap Q) ↔ q ∈ p :: (lq_all xs).*1;
  lo_node : ∃ x y, lq_heap Q !! p = Some (Node d x y)
}.

(** The queues seen from outside. *)
Definition lq_model (Q : LiquidQueueInternalState) (s : QueueKind → list EntryID) : Prop :=
  ∃ xs, lq_inv Q xs ∧ ∀ q, lq_ids (xs q) = s q.

Definition lq_order (Q : LiquidQueueInternalState) (q : QueueKind) : list EntryID :=
  lm_walk lq_entry_id (size (lq_heap Q)) (dl_head (list_of q Q)) (lq_heap Q).

(** What [find_victim] takes its victims from, in this order. *)
Definition lq_evictable (s : QueueKind → list EntryID) : list EntryID :=
  s QArrow ++ s QLiquid ++ s QSqueezed.

Lemma lq_all_rest q xs : lq_all xs ≡ₚ xs q ++ lq_rest q xs.
Proof. destruct q; unfold lq_all, lq_rest; solve_Permutation. Qed.

Lemma lq_rest_upd q l xs : lq_rest q (upd q l xs) = lq_rest q xs.
Proof. by destruct q. Qed.

Lemma lq_all_upd q l xs : lq_all (upd q l xs) ≡ₚ l ++ lq_rest q xs.
Proof. rewrite (lq_all_rest q), lq_rest_upd. unfold upd. by rewrite decide_True. Qed.

Lemma elem_of_lq_all x xs : x ∈ lq_all xs ↔ ∃ q, x ∈ xs q.
Proof.
  unfold lq_all. rewrite !elem_of_app. split.
  - intros [|[|[|]]]; eauto.
  - intros [[] ?]; tauto.
Qed.

Lemma elem_of_lq_rest x q q' xs : q' ≠ q → x ∈ xs q' → x ∈ lq_rest q xs.
Proof. intros Hne. destruct q, q'; simpl; try done; set_solver. Qed.

Lemma list_of_set_list q q' L h Q :
  list_of q' (set_list q L h Q) = if decide (q' = q) then L else list_of q' Q.
Proof. by destruct q, q'. Qed.

Lemma lq_heap_set_list q L h Q : lq_heap (set_list q L h Q) = h.
Proof. by destruct q. Qed.

Lemma lq_map_set_list q L h Q : lq_map (set_list q L h Q) = lq_map Q.
Proof. by destruct q. Qed.

(** Changing list [q] within its own nodes (and a node on no list) keeps the
    other three. *)
Lemma lq_reps_upd Q xs q l L h ls :
  (∀ q, rep (lq_heap Q) (list_of q Q) (xs q)) →
  rep h L l → frame ls (lq_heap Q) h →
  (∀ p, p ∈ ls → p ∉ (lq_rest q xs).*1) →
  ∀ q', rep (lq_heap (set_list q L h Q)) (list_of q' (set_list q L h Q)) (upd q l xs q').
Proof.
  intros R R' F D q'. rewrite lq_heap_set_list, list_of_set_list. unfold upd.
  case_decide as E; [done|]. eapply rep_frame; [exact F| |apply R].
  intros p Hq Hp. apply (D p Hp). apply list_elem_of_fmap in Hq as (x & -> & Hx).
  apply list_elem_of_fmap. exists x. split; [done|]. by eapply elem_of_lq_rest.
Qed.

Lemma lq_inv_new : lq_inv lq_new (λ _, []).
Proof.
  split.
  - intros []; apply rep_new.
  - intros q p d Hin. set_solver.
  - constructor.
  - intros id p. simpl. rewrite lookup_empty. set_solver.
  - intros p. simpl. rewrite dom_empty. set_solver.
Qed.

Lemma lq_in_all Q xs q p d :
  lq_inv Q xs → (p, d) ∈ xs q → lq_map Q !! lq_entry_id d = Some p
  ∧ ∃ x y, lq_heap Q !! p = Some (Node d x y).
Proof.
  intros I Hin. split.
  - apply (lq_hashed _ _ I). exists d. split; [|done]. apply elem_of_lq_all. eauto.
  - pose proof (rep_lookup _ _ _ _ _ (lq_reps _ _ I q) Hin) as E.
    destruct (lq_heap Q !! p) as [[e x y]|]; simplify_eq/=. eauto.
Qed.

Lemma lq_none_elem Q xs id : lq_inv Q xs → lq_map Q !! id = None ↔ ∀ q, id ∉ lq_ids (xs q).
Proof.
  intros I. rewrite eq_None_not_Some, <- (hashed_elem _ _ _ id (lq_hashed _ _ I)).
  unfold ids. split.
  - intros Hn q Hq. apply Hn. apply list_elem_of_fmap in Hq as (d & -> & Hd).
    apply list_elem_of_fmap in Hd as ([p l] & -> & Hin). apply list_elem_of_fmap_2.
    apply list_elem_of_fmap. exists (p, l). split; [done|]. apply elem_of_lq_all. eauto.
  - intros Hn Hq. apply list_elem_of_fmap in Hq as (d & -> & Hd).
    apply list_elem_of_fmap in Hd as ([p l] & -> & [q Hin]%elem_of_lq_all).
    apply (Hn q). apply list_elem_of_fmap_2. apply list_elem_of_fmap. by exists (p, l).
Qed.

Lemma lq_detach_ok Q xs q a p d b :
  lq_inv Q xs → xs q = a ++ (p, d) :: b →
  ∃ Q', lq_detach p Q = Ret Q' ∧ lq_loose Q' (upd q (a ++ b) xs) p d ∧ lq_map Q' = lq_map Q.
Proof.
  intros I Exs. assert ((p, d) ∈ xs q) as Hin by (rewrite Exs; set_solver).
  pose proof (lq_reps _ _ I q) as R. rewrite Exs in R.
  destruct (unlink_spec _ _ _ _ _ _ R) as (h & L & E & R' & Hp & F).
  destruct (lq_in_all _ _ _ _ _ I Hin) as (_ & x & y & Hx).
  pose proof (lq_tags _ _ I q p d Hin) as Hq.
  exists (set_list q L h Q). split.
  { unfold lq_detach. rewrite Hx. simpl. by rewrite Hq, E. }
  split; [|apply lq_map_set_list].
  assert (lq_all xs ≡ₚ (p, d) :: lq_all (upd q (a ++ b) xs)) as HP.
  { rewrite (lq_all_rest q), lq_all_upd, Exs. simpl. by rewrite <- Permutation_middle. }
  pose proof (lq_nodup _ _ I) as ND. split.
  - eapply lq_reps_upd; [apply I|done|exact F|]. intros r Hr.
    rewrite <- Exs in Hr. rewrite (lq_all_rest q), fmap_app in ND.
    apply NoDup_app in ND as (_ & D & _). by apply D.
  - intros q' r e. unfold upd. case_decide as Eq; [|by apply I]. subst q'.
    intros Hr. apply (lq_tags _ _ I q r). rewrite Exs. set_solver.
  - by rewrite HP in ND.
  - rewrite lq_map_set_list. eapply hashed_perm; [exact HP|apply I].
  - intros r. rewrite lq_heap_set_list, (frame_dom _ _ _ r F), (lq_dom _ _ I r). by rewrite HP.
  - rewrite lq_heap_set_list, Hp. eauto.
Qed.

Lemma lq_push_back_ok Q xs q p d :
  lq_loose Q xs p d →
  ∃ Q', lq_push_back q p Q = Ret Q'
        ∧ lq_inv Q' (upd q (xs q ++ [(p, {| lq_entry_id := lq_entry_id d; lq_queue := q |})]) xs).
Proof.
  intros I. destruct (lo_node _ _ _ _ I) as (x & y & Hx).
  set (d' := {| lq_entry_id := lq_entry_id d; lq_queue := q |}).
  pose proof (lo_nodup _ _ _ _ I) as [Hn ND]%NoDup_cons.
  set (h0 := <[p := Node d' x y]> (lq_heap Q)).
  assert (∀ q', p ∉ (xs q').*1) as Hnq.
  { intros q' Hq. apply Hn. apply list_elem_of_fmap in Hq as (z & -> & Hz).
    apply list_elem_of_fmap_2. apply elem_of_lq_all. eauto. }
  assert (frame [p] (lq_heap Q) h0) as F0 by (by eapply frame_insert).
  assert (rep h0 (list_of q Q) (xs q)) as R0.
  { eapply rep_frame; [exact F0| |apply I]. set_solver. }
  destruct (push_back_spec p d' x y h0 (list_of q Q) (xs q) R0)
    as (h & L & E & R & F); [apply lookup_insert_eq|done|].
  exists (set_list q L h Q). split.
  { unfold lq_push_back. rewrite Hx. simpl. unfold h0, d' in E. by rewrite E. }
  assert (lq_all (upd q (xs q ++ [(p, d')]) xs) ≡ₚ (p, d') :: lq_all xs) as HP.
  { rewrite lq_all_upd, (lq_all_rest q xs). solve_Permutation. }
  assert (frame (p :: (xs q).*1) (lq_heap Q) h) as F'.
  { eapply frame_trans; [eapply frame_weaken; [exact F0|set_solver]|exact F]. }
  split.
  - eapply lq_reps_upd; [apply I|done|exact F'|].
    intros r [->|Hr]%elem_of_cons.
    + intros (z & -> & Hz)%list_elem_of_fmap. apply Hn. apply list_elem_of_fmap_2.
      rewrite (lq_all_rest q). set_solver.
    + rewrite (lq_all_rest q), fmap_app in ND. apply NoDup_app in ND as (_ & D & _). by apply D.
  - intros q' r e. unfold upd. case_decide as Eq; [subst q'|by apply I].
    intros [Hr|Hr%list_elem_of_singleton]%elem_of_app; [by eapply (lo_tags _ _ _ _ I)|].
    by injection Hr as -> ->.
  - rewrite HP. by apply NoDup_cons.
  - rewrite lq_map_set_list. eapply hashed_perm; [symmetry; exact HP|].
    intros id r. rewrite (lo_hashed _ _ _ _ I id r). split; intros (e & [He|He]%elem_of_cons & <-).
    1, 3: injection He as -> ->; eexists; split; [by apply elem_of_cons; left|done].
    all: exists e; split; [set_solver|done].
  - intros r. rewrite lq_heap_set_list, (frame_dom _ _ _ r F'), (lo_dom _ _ _ _ I r). by rewrite HP.
Qed.

Lemma lq_alloc_ok Q xs d :
  lq_inv Q xs → lq_map Q !! lq_entry_id d = None →
  let '(h, p) := alloc_node d (lq_heap Q) in
  lq_loose (set_map (<[lq_entry_id d := p]> (lq_map Q)) (set_heap h Q)) xs p d.
Proof.
  intros I Hno. pose proof (alloc_fresh (lq_heap Q) d) as Hf. unfold alloc_node in *. simpl in Hf.
  set (p := fresh (dom (lq_heap Q))) in *.
  assert (p ∉ (lq_all xs).*1) as Hn by (rewrite <- (lq_dom _ _ I p); by apply not_elem_of_dom).
  split.
  - intros q. assert (p ∉ (xs q).*1) as Hnq.
    { intros (z & E & Hz)%list_elem_of_fmap. apply Hn. rewrite E. apply list_elem_of_fmap_2.
      apply elem_of_lq_all. eauto. }
    destruct (lq_reps _ _ I q) as (? & ? & ? & Hs).
    split; [by destruct q|]. split; [by destruct q|]. split; [done|].
    simpl. by apply seg_insert_fresh.
  - apply I.
  - apply NoDup_cons. split; [done|apply I].
  - simpl. eapply hashed_insert; [apply I|done|done].
  - intros q. simpl. rewrite dom_insert, elem_of_union, elem_of_singleton, elem_of_cons.
    by rewrite (lq_dom _ _ I q).
  - simpl. rewrite lookup_insert_eq. eauto.
Qed.

Lemma lq_ids_NoDup Q xs : lq_inv Q xs → NoDup (lq_ids (lq_all xs)).
Proof. intros I. eapply hashed_NoDup; apply I. Qed.

Lemma lq_all_ids xs :
  lq_ids (lq_all xs) = lq_ids (xs QArrow) ++ lq_ids (xs QLiquid)
                       ++ lq_ids (xs QSqueezed) ++ lq_ids (xs QDisk).
Proof. unfold lq_all. by rewrite !ids_app. Qed.

Lemma lq_ids_q Q xs q : lq_inv Q xs → NoDup (lq_ids (xs q)).
Proof.
  intros I%lq_ids_NoDup. rewrite (ids_perm _ _ _ (lq_all_rest q xs)), ids_app in I.
  by apply NoDup_app in I as [? _].
Qed.

Lemma lq_ids_disjoint Q xs q q' id :
  lq_inv Q xs → id ∈ lq_ids (xs q) → q' ≠ q → id ∉ lq_ids (xs q').
Proof.
  intros I%lq_ids_NoDup Hin Hne Hin'.
  rewrite (ids_perm _ _ _ (lq_all_rest q xs)), ids_app in I.
  apply NoDup_app in I as (_ & D & _). apply (D id Hin).
  unfold ids in *. apply list_elem_of_fmap in Hin' as (d & -> & Hd). apply list_elem_of_fmap_2.
  apply list_elem_of_fmap in Hd as (z & -> & Hz). apply list_elem_of_fmap_2.
  by eapply elem_of_lq_rest.
Qed.

(** Where an entry goes: out of whatever queue it is on, to the back of
    [target]. *)
Definition lq_upsert (id : EntryID) (target : QueueKind) (s : QueueKind → list EntryID)
    : QueueKind → list EntryID :=
  λ q, if decide (q = target) then others id (s q) ++ [id] else others id (s q).

Lemma upsert_ok id target Q s :
  lq_model Q s →
  ∃ Q', upsert_into_queue id target Q = Ret Q' ∧ lq_model Q' (lq_upsert id target s).
Proof.
  intros (xs & I & Hs). unfold upsert_into_queue, lq_upsert.
  destruct (lq_map Q !! id) as [p|] eqn:E.
  - pose proof E as E0. apply (lq_hashed _ _ I) in E as (d & [q Hin]%elem_of_lq_all & Hd).
    assert (id ∈ lq_ids (xs q)) as Hid.
    { rewrite <- Hd. unfold ids. apply list_elem_of_fmap_2, list_elem_of_fmap. by exists (p, d). }
    apply list_elem_of_split in Hin as (a & b & Exs).
    destruct (lq_detach_ok _ _ _ _ _ _ _ I Exs) as (Q1 & E1 & I1 & _). rewrite E1. simpl.
    destruct (lq_push_back_ok _ _ target _ _ I1) as (Q2 & E2 & I2).
    exists Q2. split; [done|]. eexists. split; [exact I2|]. intros q'.
    assert (lq_ids (a ++ b) = others id (s q)) as Eab.
    { rewrite <- Hs, Exs. pose proof (lq_ids_q _ _ q I) as ND. rewrite Exs in ND.
      rewrite !ids_app in *. unfold ids in *. simpl in *. rewrite <- Hd in *.
      by rewrite others_middle. }
    assert (∀ q1, lq_ids (upd q (a ++ b) xs q1) = others id (s q1)) as Hall.
    { intros q1. unfold upd. case_decide as Eq; [by subst|].
      rewrite others_notin; [done|]. rewrite <- Hs. by eapply lq_ids_disjoint. }
    unfold upd at 1. case_decide as Eq; [subst q'|by apply Hall].
    rewrite ids_app, Hall. unfold ids. simpl. by rewrite Hd.
  - pose proof (lq_alloc_ok Q xs {| lq_entry_id := id; lq_queue := target |} I E) as I1.
    destruct (alloc_node _ _) as [h p]. simpl in I1.
    destruct (lq_push_back_ok _ _ target _ _ I1) as (Q2 & E2 & I2).
    exists Q2. split; [done|]. eexists. split; [exact I2|]. intros q'.
    pose proof (proj1 (lq_none_elem _ _ _ I) E) as Hn.
    rewrite others_notin by (rewrite <- Hs; apply Hn).
    unfold upd. case_decide as Eq; [subst q'|done]. by rewrite ids_app, Hs.
Qed.

Lemma lq_head_ok Q xs q : lq_inv Q xs → dl_head (list_of q Q) = first_loc (xs q).
Proof. intros I. apply (lq_reps _ _ I q). Qed.

(** Popping a queue: its first entry leaves the cache policy altogether. *)
Definition lq_pop (q : QueueKind) (s : QueueKind → list EntryID) : QueueKind → list EntryID :=
  λ q', if decide (q' = q) then tail (s q) else s q'.

Lemma lq_pop_front_ok q Q s :
  lq_model Q s →
  match s q with
  | [] => lq_pop_front q Q = Ret None
  | id :: _ => ∃ Q', lq_pop_front q Q = Ret (Some (id, Q')) ∧ lq_model Q' (lq_pop q s)
  end.
Proof.
  intros (xs & I & Hs). pose proof (Hs q) as Hq. unfold lq_pop_front.
  rewrite (lq_head_ok _ _ q I). destruct (xs q) as [|[p d] b] eqn:Exs; rewrite <- Hq; [done|].
  simpl. assert ((p, d) ∈ xs q) as Hin by (rewrite Exs; set_solver).
  destruct (lq_in_all _ _ _ _ _ I Hin) as (Em & x & y & Hx).
  destruct (lq_detach_ok Q xs q [] p d b I Exs) as (Q1 & E1 & I1 & Em1).
  unfold lq_detach in E1. rewrite Hx in E1 |- *. simpl in E1 |- *. rewrite Em. simpl.
  rewrite (lq_tags _ _ I q p d Hin) in E1.
  assert (list_of q (set_map (delete (lq_entry_id d) (lq_map Q)) Q) = list_of q Q) as ->
    by (by destruct q).
  destruct (unlink p _ _) as [[h L]| | |] eqn:Eu; [|done|done|done]. simpl in E1 |- *.
  injection E1 as <-. destruct (lo_node _ _ _ _ I1) as (u & v & Hp).
  rewrite lq_heap_set_list in Hp. unfold drop_boxed_node. rewrite Hp. simpl.
  eexists. split; [done|]. exists (upd q b xs). pose proof (lo_nodup _ _ _ _ I1) as ND.
  simpl in *. apply NoDup_cons in ND as [Hn ND].
  assert (∀ q', p ∉ (upd q b xs q').*1) as Hnq.
  { intros q' (z & Ez & Hz)%list_elem_of_fmap. apply Hn. rewrite Ez.
    apply list_elem_of_fmap_2, elem_of_lq_all. eauto. }
  split.
  - split.
    + intros q'. destruct (lo_reps _ _ _ _ I1 q') as (H1 & H2 & H3 & H4).
      rewrite lq_heap_set_list, list_of_set_list in *.
      assert (list_of q' (set_map (delete (lq_entry_id d) (lq_map Q)) Q) = list_of q' Q) as ->
        by (by destruct q').
      split; [done|]. split; [done|]. split; [done|]. by apply seg_frame_del.
    + apply I1.
    + done.
    + rewrite lq_map_set_list. simpl. pose proof (lo_hashed _ _ _ _ I1) as H.
      rewrite lq_map_set_list in H.
      eapply (hashed_delete _ _ [] p d); [|done]. simpl. by apply NoDup_cons.
    + intros r. rewrite lq_heap_set_list, dom_delete, elem_of_difference, elem_of_singleton.
      pose proof (lo_dom _ _ _ _ I1 r) as H. rewrite lq_heap_set_list in H. rewrite H, elem_of_cons.
      split; [by intros [[->|?] ?]|]. intros Hr. split; [by right|]. by intros ->.
  - intros q'. unfold upd, lq_pop. case_decide; [by rewrite <- Hq|apply Hs].
Qed.

(** One turn of the loop takes the first evictable entry. *)
Definition lq_next (s : QueueKind → list EntryID) : QueueKind → list EntryID :=
  match s QArrow, s QLiquid with
  | _ :: _, _ => lq_pop QArrow s
  | [], _ :: _ => lq_pop QLiquid s
  | [], [] => lq_pop QSqueezed s
  end.

Lemma lq_next_victim_ok Q s :
  lq_model Q s →
  match lq_evictable s with
  | [] => lq_next_victim Q = Ret None
  | id :: _ => ∃ Q', lq_next_victim Q = Ret (Some (id, Q')) ∧ lq_model Q' (lq_next s)
  end.
Proof.
  intros M. unfold lq_next_victim, lq_evictable, lq_next.
  pose proof (lq_pop_front_ok QArrow Q s M) as HA.
  pose proof (lq_pop_front_ok QLiquid Q s M) as HL.
  pose proof (lq_pop_front_ok QSqueezed Q s M) as HS.
  destruct (s QArrow) as [|i sa]; simpl.
  2: { destruct HA as (Q' & -> & M'). by exists Q'. }
  rewrite HA. simpl. destruct (s QLiquid) as [|i sl]; simpl.
  2: { destruct HL as (Q' & -> & M'). by exists Q'. }
  rewrite HL. simpl. by destruct (s QSqueezed) as [|i sq].
Qed.

Lemma lq_evictable_next s : lq_evictable (lq_next s) = tail (lq_evictable s).
Proof.
  unfold lq_next, lq_evictable.
  destruct (s QArrow) as [|i sa] eqn:EA, (s QLiquid) as [|j sl] eqn:EL;
    unfold lq_pop; simpl; rewrite ?EA, ?EL; simpl; done.
Qed.

Lemma lq_next_disk s : lq_next s QDisk = s QDisk.
Proof. unfold lq_next. by destruct (s QArrow), (s QLiquid). Qed.

Lemma lq_victim_loop_ok cnt Q s :
  lq_model Q s →
  ∃ Q' s', lq_victim_loop cnt Q = Ret (take cnt (lq_evictable s), Q') ∧ lq_model Q' s'
           ∧ lq_evictable s' = drop cnt (lq_evictable s) ∧ s' QDisk = s QDisk.
Proof.
  revert Q s. induction cnt as [|cnt IH]; intros Q s M; simpl; [by exists Q, s|].
  pose proof (lq_next_victim_ok Q s M) as H. pose proof (lq_evictable_next s) as Hn.
  destruct (lq_evictable s) as [|id r] eqn:Es.
  - rewrite H. simpl. exists Q, s. by rewrite Es.
  - destruct H as (Q' & -> & M'). simpl.
    destruct (IH Q' _ M') as (Q2 & s2 & -> & M2 & E2 & D2). simpl.
    exists Q2, s2. rewrite Hn in *. simpl in *. split; [done|]. split; [done|]. split; [done|].
    by rewrite D2, lq_next_disk.
Qed.

Lemma lq_find_victim_ok cnt Q s :
  lq_model Q s →
  ∃ Q' s', lq_find_victim cnt Q = Ret (take cnt (lq_evictable s), Q') ∧ lq_model Q' s'
           ∧ lq_evictable s' = drop cnt (lq_evictable s) ∧ s' QDisk = s QDisk.
Proof.
  intros M. unfold lq_find_victim. case_decide as E; [|by apply lq_victim_loop_ok].
  subst cnt. by exists Q, s.
Qed.

Lemma lq_model_new : lq_model lq_new (λ _, []).
Proof. exists (λ _, []). split; [apply lq_inv_new|done]. Qed.

Lemma lq_order_ok Q s q : lq_model Q s → lq_order Q q = s q.
Proof.
  intros (xs & I & Hs). rewrite <- Hs.
  unfold lq_order. apply walk_rep, I.
Qed.

Lemma lq_model_order Q : (∃ s, lq_model Q s) → lq_model Q (lq_order Q).
Proof.
  intros [s M]. pose proof (λ q, lq_order_ok Q s q M) as E.
  destruct M as (xs & I & Hs). exists xs. split; [done|]. intros q. by rewrite Hs, E.
Qed.

Lemma lq_model_NoDup Q s : lq_model Q s → NoDup (lq_evictable s ++ s QDisk).
Proof.
  intros (xs & I & Hs). apply lq_ids_NoDup in I. rewrite lq_all_ids, !Hs in I.
  unfold lq_evictable. by rewrite <- !app_assoc.
Qed.

Lemma elem_of_upsert i id target s q :
  i ≠ id → i ∈ lq_upsert id target s q ↔ i ∈ s q.
Proof.
  intros Hne. unfold lq_upsert. case_decide; rewrite ?elem_of_app, elem_of_others; set_solver.
Qed.

#[export] Program Instance LiquidLaws : PolicyLaws LiquidQueueInternalState := {
  policy_inv Q := ∃ s, lq_model Q s;
  tracked Q := lq_evictable (lq_order Q)
}.
Next Obligation. intros Q M%lq_model_order%lq_model_NoDup. by apply NoDup_app in M as [? _]. Qed.
Next Obligation. split; [eexists; apply lq_model_new|done]. Qed.
Next Obligation.
  intros cnt Q M%lq_model_order. simpl.
  destruct (lq_find_victim_ok cnt Q _ M) as (Q' & s' & E & M' & E' & _).
  eexists _, Q'. split; [done|]. split; [by eexists|].
  assert (lq_evictable (lq_order Q') = lq_evictable s') as ->.
  { unfold lq_evictable. by rewrite !(lq_order_ok _ _ _ M'). }
  rewrite E'. split; [by rewrite take_drop|by rewrite length_take].
Qed.
Next Obligation.
  intros id ty Q M%lq_model_order. simpl.
  destruct (upsert_ok id (queue_of ty) Q _ M) as (Q' & E & M').
  exists Q'. split; [done|]. split; [by eexists|].
  assert (lq_evictable (lq_order Q') = lq_evictable (lq_upsert id (queue_of ty) (lq_order Q))) as ->.
  { unfold lq_evictable. by rewrite !(lq_order_ok _ _ _ M'). }
  split.
  - intros i Hi. unfold lq_evictable. rewrite !elem_of_app, !elem_of_upsert by done. done.
  - unfold lq_evictable, lq_upsert. destruct ty; simpl; try done; intros _; set_solver.
Qed.
Next Obligation. intros id ty Q H. by exists Q. Qed.

#[export] Instance LiquidMemoryOnly : MemoryOnlyPolicy LiquidQueueInternalState.
Proof.
  intros id ty Q Q' M%lq_model_order Hm E. cbn in E. unfold lq_notify_insert in E.
  destruct (upsert_ok id (queue_of ty) Q _ M) as (Q1 & E1 & M1).
  assert (Q1 = Q') as -> by congruence. cbn. unfold lq_evictable.
  rewrite !(lq_order_ok _ _ _ M1). unfold lq_upsert.
  destruct ty; try discriminate; cbn [queue_of]; rewrite !decide_False by done;
    rewrite !elem_of_app, !elem_of_others; tauto.
Qed.

(** Dropping the policy: whatever the order in which the map is drained, every
    node is unlinked from the list it is on and freed exactly once. *)
Lemma lq_drain_ok order Q xs :
  (∀ q, rep (lq_heap Q) (list_of q Q) (xs q)) →
  (∀ q p d, (p, d) ∈ xs q → lq_queue d = q) →
  NoDup (lq_all xs).*1 →
  (∀ p, p ∈ dom (lq_heap Q) ↔ p ∈ (lq_all xs).*1) →
  order ≡ₚ (lq_all xs).*1 →
  ∃ Q', lq_drain order Q = Ret Q' ∧ lq_heap Q' = ∅ ∧ lq_map Q' = lq_map Q
        ∧ ∀ q, dl_head (list_of q Q') = None.
Proof.
  revert Q xs. induction order as [|p order IH]; intros Q xs R T ND D HP; simpl.
  - apply Permutation_nil_l in HP. symmetry in HP. apply fmap_nil_inv in HP.
    exists Q. split; [done|]. split; [|split; [done|]].
    + apply dom_empty_inv_L. apply elem_of_equiv_empty_L. intros q Hq%D. rewrite HP in Hq. set_solver.
    + intros q. destruct (R q) as (-> & _). destruct (xs q) as [|x l] eqn:E; [done|].
      assert (x ∈ lq_all xs) as Hx.
      { apply elem_of_lq_all. exists q. rewrite E. apply elem_of_cons. by left. }
      rewrite HP in Hx. by apply not_elem_of_nil in Hx.
  - assert (p ∈ (lq_all xs).*1) as ([l d] & -> & [q Hin]%elem_of_lq_all)%list_elem_of_fmap
      by (rewrite <- HP; set_solver). simpl in *.
    pose proof (rep_lookup _ _ _ _ _ (R q) Hin) as El.
    destruct (lq_heap Q !! l) as [[e x y]|] eqn:Ex; simplify_eq/=.
    pose proof (T q l d Hin) as Hq. apply list_elem_of_split in Hin as (a & b & Exs).
    pose proof (R q) as Rq. rewrite Exs in Rq.
    destruct (unlink_spec _ _ _ _ _ _ Rq) as (h & L & E & R' & Hp & F).
    unfold lq_detach. rewrite Ex. simpl. rewrite Hq, E. simpl.
    unfold drop_boxed_node. rewrite lq_heap_set_list, Hp. simpl.
    assert (lq_all xs ≡ₚ (l, d) :: lq_all (upd q (a ++ b) xs)) as HP'.
    { rewrite (lq_all_rest q), lq_all_upd, Exs. simpl. by rewrite <- Permutation_middle. }
    assert (∀ q', rep (lq_heap (set_list q L h Q)) (list_of q' (set_list q L h Q))
                      (upd q (a ++ b) xs q')) as Rs.
    { eapply lq_reps_upd; [done|done|exact F|]. intros r Hr. rewrite <- Exs in Hr.
      rewrite (lq_all_rest q), fmap_app in ND. apply NoDup_app in ND as (_ & Dj & _). by apply Dj. }
    rewrite HP' in ND. simpl in ND. apply NoDup_cons in ND as [Hn ND].
    destruct (IH (set_heap (delete l h) (set_list q L h Q)) (upd q (a ++ b) xs))
      as (Q' & E' & Hh & Hm & Hl).
    + intros q'. destruct (Rs q') as (H1 & H2 & H3 & H4). rewrite lq_heap_set_list in H4.
      split; [by destruct q'|]. split; [by destruct q'|]. split; [done|]. simpl.
      apply seg_frame_del; [done|]. intros (z & Ez & Hz)%list_elem_of_fmap.
      apply Hn. rewrite Ez. apply list_elem_of_fmap_2, elem_of_lq_all. eauto.
    + intros q' r e. unfold upd. case_decide as Eq; [|by apply T]. subst q'.
      intros Hr. apply (T q r). rewrite Exs. set_solver.
    + done.
    + intros r. simpl. rewrite dom_delete, elem_of_difference, elem_of_singleton.
      rewrite (frame_dom _ _ _ r F), D, HP'. simpl. rewrite elem_of_cons.
      split; [by intros [[->|?] ?]|]. intros Hr. split; [by right|]. by intros ->.
    + rewrite HP' in HP. by apply Permutation_cons_inv in HP.
    + exists Q'. split; [done|]. split; [done|]. split; [|done].
      rewrite Hm. simpl. apply lq_map_set_list.
Qed.

Lemma lq_drop_ok order Q s :
  lq_model Q s → order ≡ₚ (map_to_list (lq_map Q)).*2 → lq_drop order Q = Ret lq_new.
Proof.
  intros (xs & I & _) HP. rewrite (hashed_values _ _ _ (lq_nodup _ _ I) (lq_hashed _ _ I)) in HP.
  destruct (lq_drain_ok order (set_map ∅ Q) xs) as (Q' & E & Hh & Hm & Hl).
  - intros q. pose proof (lq_reps _ _ I q) as R. by destruct q.
  - apply I.
  - apply I.
  - apply I.
  - done.
  - unfold lq_drop. rewrite E. simpl. unfold lq_drop_list.
    pose proof (Hl QArrow) as H1. pose proof (Hl QLiquid) as H2.
    pose proof (Hl QSqueezed) as H3. pose proof (Hl QDisk) as H4.
    destruct Q' as [m a b c e h]. simpl in *. subst h m.
    by do 4 (rewrite drop_all_empty by done; simpl).
Qed.
