(* ===== verification/SecondChance.v ===== *)
(** * The second-chance machine

    The abstract machine that [sieve.rs] and [clock.rs] implement with a hand
    into a linked list.  A state is a pair [(u, v)]: [u] is what the hand still
    has to pass before it wraps around, [v] what it has passed.  An entry
    carries its mark ([visited] in SIEVE, [referenced] in CLOCK). *)

From stdpp Require Import base list.
From Stdlib Require Import ZArith Lia.
From S2P Require Import Prelude CachePolicy.

Abbreviation marks := (list (EntryID * bool)).

Record sc : Type := Sc { ahead : marks; behind : marks }.

(** The entries in the order in which the hand meets them. *)
Definition sc_walk (c : sc) : marks := ahead c ++ behind c.

(** The hand wraps around when nothing is ahead. *)
Definition sc_wrap (u v : marks) : sc :=
  match u with [] => Sc v [] | _ :: _ => Sc u v end.

Definition clear_mark (x : EntryID * bool) : EntryID * bool := (x.1, false).

(** The hand looks for a victim, clearing the marks it passes. *)
Fixpoint sc_evict (fuel : nat) (c : sc) : option (EntryID * sc) :=
  match fuel, ahead c with
  | S fuel, (id, true) :: u => sc_evict fuel (sc_wrap u (behind c ++ [(id, false)]))
  | S _, (id, false) :: u => Some (id, sc_wrap u (behind c))
  | _, _ => None
  end.

Fixpoint sc_victims (cnt : nat) (c : sc) : list EntryID * sc :=
  match cnt with
  | O => ([], c)
  | S cnt =>
      match sc_evict (S (length (sc_walk c))) c with
      | None => ([], c)
      | Some (id, c) => let '(vs, c) := sc_victims cnt c in (id :: vs, c)
      end
  end.

Definition set_mark (id : EntryID) (l : marks) : marks :=
  (λ x, if decide (x.1 = id) then (x.1, true) else x) <$> l.

Definition sc_touch (id : EntryID) (c : sc) : sc :=
  Sc (set_mark id (ahead c)) (set_mark id (behind c)).

Definition sc_push (id : EntryID) (mark : bool) (c : sc) : sc :=
  Sc (ahead c ++ [(id, mark)]) (behind c).

(** Nothing ahead only when there is nothing at all. *)
Definition sc_wf (c : sc) : Prop := ahead c = [] → behind c = [].

Definition marked (l : marks) : nat := length (filter (λ x, x.2 = true) l).

(** ** Lemmas *)

Lemma sc_wrap_wf u v : sc_wf (sc_wrap u v).
Proof. destruct u as [|x u]; [intros E; done|done]. Qed.

Lemma sc_walk_wrap u v : sc_walk (sc_wrap u v) = u ++ v.
Proof. destruct u; unfold sc_walk; simpl; [by rewrite app_nil_r|done]. Qed.

Lemma clear_ids l : (clear_mark <$> l).*1 = l.*1.
Proof. rewrite <- list_fmap_compose. by apply list_fmap_ext. Qed.

Lemma marked_app a b : marked (a ++ b) = marked a + marked b.
Proof. unfold marked. by rewrite filter_app, length_app. Qed.

Lemma marked_length l : marked l ≤ length l.
Proof. unfold marked. apply length_filter. Qed.

(** The hand passes marked entries, clearing them, ... *)
Lemma sc_evict_skip c skip rest fuel :
  sc_wf c → sc_walk c = skip ++ rest → Forall (λ x, x.2 = true) skip → 
  ∃ c', sc_wf c' ∧ sc_walk c' = rest ++ (clear_mark <$> skip)
        ∧ sc_evict (length skip + fuel) c = sc_evict fuel c'.
Proof.
  revert c rest. induction skip as [|[id m] skip IH]; intros c rest W Ew F.
  - exists c. rewrite app_nil_r. done.
  - apply Forall_cons in F as [Hm F]. simpl in Hm. subst m.
    destruct c as [[|x u] v]; simpl in Ew; unfold sc_walk in Ew; simpl in Ew.
    { pose proof (W eq_refl) as Hv. simpl in Hv. by subst v. }
    injection Ew as -> Ew. simpl.
    destruct (IH (sc_wrap u (v ++ [(id, false)])) (rest ++ [(id, false)]))
      as (c' & W' & Ew' & E').
    + apply sc_wrap_wf.
    + rewrite sc_walk_wrap, app_assoc, Ew. by rewrite app_assoc.
    + done.
    + exists c'. split; [done|]. split; [|done]. rewrite Ew'. by rewrite <- app_assoc.
Qed.

(** ... and evicts the first one without a mark. *)
Lemma sc_evict_found c skip id rest fuel :
  sc_wf c → sc_walk c = skip ++ (id, false) :: rest → Forall (λ x, x.2 = true) skip →
  length skip < fuel →
  ∃ c', sc_evict fuel c = Some (id, c') ∧ sc_wf c'
        ∧ sc_walk c' = rest ++ (clear_mark <$> skip).
Proof.
  intros W Ew F Hf.
  destruct (sc_evict_skip c skip ((id, false) :: rest) (fuel - length skip) W Ew F)
    as ([u v] & W' & Ew' & E').
  replace (length skip + (fuel - length skip)) with fuel in E' by lia. rewrite E'.
  destruct (fuel - length skip) as [|n] eqn:En; [lia|].
  destruct u as [|x u]; unfold sc_walk in Ew'; simpl in Ew'.
  { pose proof (W' eq_refl) as Hv. simpl in Hv. by subst v. }
  injection Ew' as -> Ew'. simpl. eexists. split; [done|]. split; [apply sc_wrap_wf|].
  by rewrite sc_walk_wrap, Ew'.
Qed.

Lemma split_unmarked (l : marks) :
  Forall (λ x, x.2 = true) l
  ∨ ∃ skip id rest, l = skip ++ (id, false) :: rest ∧ Forall (λ x, x.2 = true) skip.
Proof.
  induction l as [|[id [|]] l IH]; [by left| |].
  - destruct IH as [F|(skip & i & rest & -> & F)]; [left; by constructor|].
    right. exists ((id, true) :: skip), i, rest. split; [done|by constructor].
  - right. exists [], id, l. done.
Qed.

(** The entry the hand evicts: the first unmarked one, or, when all are marked,
    the one it started from. *)
Definition sc_pick (l : marks) : option EntryID :=
  match filter (λ x, x.2 = false) l with
  | x :: _ => Some x.1
  | [] => fst <$> head l
  end.

Lemma filter_unmarked_skip skip :
  Forall (λ x : EntryID * bool, x.2 = true) skip → filter (λ x, x.2 = false) skip = [].
Proof.
  induction 1 as [|[i m] l Hm _ IH]; [done|]. simpl in Hm. subst m.
  rewrite filter_cons_False; [done|]. by intros [=].
Qed.

(** With [S (length (sc_walk c))] steps the hand always finds its victim. *)
Lemma sc_evict_pick c fuel :
  sc_wf c → length (sc_walk c) < fuel →
  match sc_pick (sc_walk c) with
  | None => sc_walk c = [] ∧ sc_evict fuel c = None
  | Some id =>
      ∃ c', sc_evict fuel c = Some (id, c') ∧ sc_wf c'
            ∧ (sc_walk c).*1 ≡ₚ id :: (sc_walk c').*1
  end.
Proof.
  intros W Hf. unfold sc_pick.
  destruct (split_unmarked (sc_walk c)) as [F|(skip & id & rest & Ew & F)].
  - rewrite filter_unmarked_skip by done. destruct (sc_walk c) as [|[id m] l] eqn:Ew; simpl.
    + split; [done|]. destruct c as [[|x u] v]; [|done].
      simpl. by destruct fuel.
    + pose proof F as [Hm _]%Forall_cons. simpl in Hm. subst m.
      rewrite <- (app_nil_r (_ :: _)) in Ew.
      destruct (sc_evict_skip c ((id, true) :: l) [] (fuel - S (length l)) W Ew F)
        as (c1 & W1 & Ew1 & E1).
      simpl in Hf. replace (length ((id, true) :: l) + (fuel - S (length l))) with fuel in E1
        by (simpl; lia).
      rewrite E1. simpl in Ew1.
      destruct (sc_evict_found c1 [] id (clear_mark <$> l) (fuel - S (length l)) W1)
        as (c' & E' & W' & Ew'); [done|done|simpl; lia|].
      exists c'. split; [done|]. split; [done|]. rewrite Ew', app_nil_r.
      simpl. by rewrite clear_ids.
  - rewrite Ew, filter_app, filter_unmarked_skip, app_nil_l, filter_cons_True by done.
    cbn [fst].
    destruct (sc_evict_found c skip id rest fuel W Ew F) as (c' & E' & W' & Ew').
    { rewrite Ew, length_app in Hf. simpl in Hf. lia. }
    exists c'. split; [done|]. split; [done|]. rewrite Ew', !fmap_app. simpl.
    rewrite clear_ids, <- Permutation_middle. by rewrite Permutation_app_comm.
Qed.

(** More fuel changes nothing. *)
Lemma sc_evict_more c fuel r : sc_evict fuel c = Some r → sc_evict (S fuel) c = Some r.
Proof.
  revert c. induction fuel as [|fuel IH]; intros c; [done|].
  cbn [sc_evict]. destruct (ahead c) as [|[id [|]] u]; [done|apply IH|done].
Qed.

Lemma sc_evict_plus c fuel k r : sc_evict fuel c = Some r → sc_evict (k + fuel) c = Some r.
Proof. intros E. induction k as [|k IH]; [done|]. by apply sc_evict_more. Qed.

Lemma sc_evict_fuel c n m :
  sc_wf c → length (sc_walk c) < n → length (sc_walk c) < m → sc_evict n c = sc_evict m c.
Proof.
  intros W Hn Hm.
  pose proof (sc_evict_pick c n W Hn) as P. pose proof (sc_evict_pick c m W Hm) as P'.
  destruct (sc_pick _) as [id|]; [|by destruct P as [_ ->], P' as [_ ->]].
  destruct P as (c1 & E1 & _), P' as (c2 & E2 & _).
  pose proof (sc_evict_plus _ _ m _ E1) as F1. pose proof (sc_evict_plus _ _ n _ E2) as F2.
  rewrite Nat.add_comm, F2 in F1. congruence.
Qed.

Lemma sc_victims_ok cnt c vs c' :
  sc_wf c → sc_victims cnt c = (vs, c') →
  sc_wf c' ∧ (sc_walk c).*1 ≡ₚ vs ++ (sc_walk c').*1
  ∧ length vs = Nat.min cnt (length (sc_walk c)).
Proof.
  revert c vs. induction cnt as [|cnt IH]; intros c vs W E; cbn [sc_victims] in E.
  { by simplify_eq. }
  pose proof (sc_evict_pick c (S (length (sc_walk c))) W) as H.
  destruct (sc_pick (sc_walk c)) as [id|].
  - destruct H as (c1 & E1 & W1 & HP); [lia|]. rewrite E1 in E.
    destruct (sc_victims cnt c1) as [vs1 c2] eqn:E2. simplify_eq.
    destruct (IH _ _ W1 E2) as (W2 & HP2 & Hlen). split; [done|].
    split; [by rewrite HP, HP2|]. apply Permutation_length in HP.
    rewrite length_cons, !length_fmap in HP. cbn [length]. lia.
  - destruct H as [Hw E1]; [lia|]. rewrite E1 in E. simplify_eq. rewrite Hw.
    split; [done|]. split; [done|]. simpl. lia.
Qed.

Lemma set_mark_ids id l : (set_mark id l).*1 = l.*1.
Proof.
  unfold set_mark. rewrite <- list_fmap_compose. apply list_fmap_ext.
  intros _ [i m] _. simpl. by case_decide.
Qed.

Lemma sc_touch_wf id c : sc_wf c → sc_wf (sc_touch id c).
Proof.
  intros W. unfold sc_wf, sc_touch, set_mark. simpl. intros E%fmap_nil_inv.
  by rewrite (W E).
Qed.

Lemma sc_touch_walk id c : sc_walk (sc_touch id c) = set_mark id (sc_walk c).
Proof. unfold sc_walk, sc_touch, set_mark. simpl. by rewrite fmap_app. Qed.

Lemma sc_push_wf id m c : sc_wf (sc_push id m c).
Proof. unfold sc_wf, sc_push. simpl. by intros [_ ?]%app_nil. Qed.

Lemma sc_push_walk id m c : (sc_walk (sc_push id m c)).*1 ≡ₚ id :: (sc_walk c).*1.
Proof.
  unfold sc_walk, sc_push. simpl. rewrite <- app_assoc. simpl.
  by rewrite <- Permutation_middle.
Qed.
