(* ===== verification/Sieve.v ===== *)
(** * The SIEVE policy

    Model of [src/src/storage/src/cache/policies/cache/sieve.rs]: the [linked_map]
    of [LinkedMap.v], a hand and a size counter.  The theorems say that it
    implements the machine of [SecondChance.v] with the hand moving from the
    tail of the list towards its head. *)

From stdpp Require Import base list gmap fin_sets.
From Stdlib Require Import ZArith Lia.
From S2P Require Import Prelude DoublyLinkedList CachePolicy LinkedMap SecondChance.

Record SieveNode : Type := { sv_entry_id : EntryID; sv_visited : bool }.

(** [map], [list] (and their heap), [hand], [total_size]. *)
Record SieveInternalState : Type := Sieve {
  sv_lm : linked_map SieveNode;
  sv_hand : option loc;
  sv_total_size : Z
}.

Definition sieve_new : SieveInternalState := Sieve lm_new None 0.

Definition sieve_entry_size (_ : EntryID) : Z := 1.

Definition sv_mark (visited : bool) (d : SieveNode) : SieveNode :=
  {| sv_entry_id := sv_entry_id d; sv_visited := visited |}.

Definition sieve_tail (M : SieveInternalState) : option loc := dl_tail (lm_list (sv_lm M)).

(** The inner [loop] of [find_victim].  The counter is decremented with
    wrapping arithmetic (release profile). *)
Fixpoint sieve_scan (fuel : nat) (hand_ptr : loc) (M : SieveInternalState)
    : outcome (EntryID * SieveInternalState) :=
  match fuel with
  | O => NoFuel
  | S fuel =>
      n ← deref (lm_heap (sv_lm M) !! hand_ptr);
      if sv_visited (data n) then
        lm ← lm_update hand_ptr (sv_mark false) (sv_lm M);
        n ← deref (lm_heap lm !! hand_ptr);
        next_hand ← expect (option_or (prev n) (sieve_tail M));
        sieve_scan fuel next_hand (Sieve lm (Some next_hand) (sv_total_size M))
      else
        let victim_id := sv_entry_id (data n) in
        let prv := prev n in
        node_ptr ← expect (lm_map (sv_lm M) !! victim_id);
        let lm := sv_lm M in
        lm ← lm_remove_and_release node_ptr
               (LinkedMap (delete victim_id (lm_map lm)) (lm_list lm) (lm_heap lm));
        let total := usize (sv_total_size M - sieve_entry_size victim_id) in
        Ret (victim_id, Sieve lm (option_or prv (dl_tail (lm_list lm))) total)
  end.

(** Enough steps for the hand: it clears a mark at every step but the last. *)
Definition sieve_fuel (M : SieveInternalState) : nat := S (size (lm_heap (sv_lm M))).

Fixpoint sieve_find_victim (cnt : nat) (M : SieveInternalState)
    : outcome (list EntryID * SieveInternalState) :=
  match cnt with
  | O => Ret ([], M)
  | S cnt =>
      match option_or (sv_hand M) (sieve_tail M) with
      | None => Ret ([], M)
      | Some hand_ptr =>
          '(id, M) ← sieve_scan (sieve_fuel M) hand_ptr M;
          '(advices, M) ← sieve_find_victim cnt M;
          Ret (id :: advices, M)
      end
  end.

Definition sieve_notify_insert (entry_id : EntryID) (_ : CachedBatchType)
    (M : SieveInternalState) : outcome SieveInternalState :=
  match lm_map (sv_lm M) !! entry_id with
  | Some node_ptr =>
      lm ← lm_update node_ptr (sv_mark true) (sv_lm M);
      Ret (Sieve lm (sv_hand M) (sv_total_size M))
  | None =>
      let was_empty := match dl_head (lm_list (sv_lm M)) with None => true | Some _ => false end in
      '(lm, node_ptr) ←
        lm_insert_front entry_id {| sv_entry_id := entry_id; sv_visited := false |} (sv_lm M);
      Ret (Sieve lm (if was_empty then Some node_ptr else sv_hand M)
             (usize (sv_total_size M + sieve_entry_size entry_id)))
  end.

Definition sieve_notify_access (entry_id : EntryID) (_ : CachedBatchType)
    (M : SieveInternalState) : outcome SieveInternalState :=
  match lm_map (sv_lm M) !! entry_id with
  | Some node_ptr =>
      lm ← lm_update node_ptr (sv_mark true) (sv_lm M);
      Ret (Sieve lm (sv_hand M) (sv_total_size M))
  | None => Ret M
  end.

Definition sieve_drop (order : list loc) (M : SieveInternalState) : outcome SieveInternalState :=
  lm ← lm_drop order (sv_lm M); Ret (Sieve lm None 0).

#[export] Instance SievePolicy : CachePolicy SieveInternalState := {
  policy_new := sieve_new;
  find_victim := sieve_find_victim;
  notify_insert := sieve_notify_insert;
  notify_access := sieve_notify_access
}.

(** ** Simulation *)

Definition sv_view (x : loc * SieveNode) : EntryID * bool := (sv_entry_id x.2, sv_visited x.2).

(** The list from its tail is [behind] from its end, then [ahead] from the hand:
    head ... (ahead reversed, the hand last) (behind reversed) ... tail. *)
Record sieve_rel (M : SieveInternalState) (u v : list (loc * SieveNode)) (c : sc) : Prop := {
  sv_lists : lm_inv sv_entry_id (sv_lm M) (reverse u ++ reverse v);
  sv_hands : sv_hand M = first_loc u;
  sv_some : u = [] → v = [];
  sv_total : sv_total_size M = usize (Z.of_nat (length (u ++ v)));
  sv_ahead : ahead c = sv_view <$> u;
  sv_behind : behind c = sv_view <$> v
}.

Definition sieve_sim (M : SieveInternalState) (c : sc) : Prop := ∃ u v, sieve_rel M u v c.

Lemma sieve_new_sim : sieve_sim sieve_new (Sc [] []).
Proof. exists [], []. split; try done. apply lm_inv_new. Qed.

Lemma wrap_nodes_view u v :
  sc_wrap (sv_view <$> u) (sv_view <$> v)
  = Sc (sv_view <$> (wrap_nodes u v).1) (sv_view <$> (wrap_nodes u v).2).
Proof. by destruct u. Qed.

Lemma sieve_scan_skip fuel M p d u v c :
  sieve_rel M ((p, d) :: u) v c → sv_visited d = true →
  ∃ M' u' v', sieve_scan (S fuel) p M
              = match sv_hand M' with Some q => sieve_scan fuel q M' | None => Panic end
    ∧ u' ≠ [] ∧ sieve_rel M' u' v'
        (sc_wrap (sv_view <$> u) ((sv_view <$> v) ++ [(sv_entry_id d, false)])).
Proof.
  intros I Hv. pose proof (sv_lists _ _ _ _ I) as IL.
  rewrite reverse_cons, <- app_assoc in IL. simpl in IL.
  destruct (lm_node _ _ _ _ _ _ IL) as [Hn _].
  destruct (lm_update_ok _ _ _ _ _ _ (sv_mark false) IL eq_refl) as (lm & E & IL' & Em).
  destruct (lm_node _ _ _ _ _ _ IL') as [Hn' _].
  set (v' := v ++ [(p, sv_mark false d)]) in *.
  assert (option_or (last_loc (reverse u)) (sieve_tail M) = first_loc (wrap_nodes u v').1) as Eh.
  { rewrite wrap_nodes_hand, last_loc_reverse. unfold sieve_tail.
    rewrite (lm_tail _ _ _ IL), last_loc_app. unfold v'.
    change ((p, d) :: reverse v) with ([(p, d)] ++ reverse v).
    rewrite last_loc_app, last_loc_reverse, first_loc_app. simpl.
    by destruct (first_loc u), (first_loc v). }
  exists (Sieve lm (first_loc (wrap_nodes u v').1) (sv_total_size M)),
    (wrap_nodes u v').1, (wrap_nodes u v').2.
  assert ((wrap_nodes u v').1 ≠ []) as Hne.
  { unfold v'. destruct u; simpl; [|done]. by intros [_ ?]%app_nil. }
  split; [|split; [done|]].
  - cbn [sieve_scan]. rewrite Hn. cbn. rewrite Hv, E. cbn. rewrite Hn'. cbn.
    rewrite Eh. by destruct (first_loc (wrap_nodes u v').1).
  - assert ((sv_view <$> v) ++ [(sv_entry_id d, false)] = sv_view <$> v') as Ev.
    { unfold v'. by rewrite fmap_app. }
    split.
    + simpl. rewrite wrap_nodes_rev. unfold v'. by rewrite reverse_app.
    + done.
    + apply wrap_nodes_some.
    + simpl. rewrite wrap_nodes_length, (sv_total _ _ _ _ I). unfold v'.
      rewrite !length_app. simpl. f_equal. lia.
    + by rewrite Ev, wrap_nodes_view.
    + by rewrite Ev, wrap_nodes_view.
Qed.

Lemma sieve_scan_take fuel M p d u v c :
  sieve_rel M ((p, d) :: u) v c → sv_visited d = false →
  ∃ M', sieve_scan (S fuel) p M = Ret (sv_entry_id d, M')
        ∧ sieve_sim M' (sc_wrap (sv_view <$> u) (sv_view <$> v)).
Proof.
  intros I Hv. pose proof (sv_lists _ _ _ _ I) as IL.
  rewrite reverse_cons, <- app_assoc in IL. simpl in IL.
  destruct (lm_node _ _ _ _ _ _ IL) as [Hn Hm].
  destruct (lm_remove_ok _ _ _ _ _ _ IL) as (lm & E & IL' & _).
  eexists. split.
  { cbn [sieve_scan]. rewrite Hn. cbn. rewrite Hv, Hm. cbn. rewrite E. done. }
  exists (wrap_nodes u v).1, (wrap_nodes u v).2. split.
  - cbn. by rewrite wrap_nodes_rev.
  - cbn. rewrite (lm_tail _ _ _ IL'), wrap_nodes_hand, last_loc_app, !last_loc_reverse.
    by destruct (first_loc u), (first_loc v).
  - apply wrap_nodes_some.
  - cbn. rewrite wrap_nodes_length, (sv_total _ _ _ _ I). unfold sieve_entry_size, usize.
    simpl. rewrite Zminus_mod_idemp_l. f_equal. lia.
  - by rewrite wrap_nodes_view.
  - by rewrite wrap_nodes_view.
Qed.

Lemma sieve_scan_sim fuel M u v c p :
  sieve_rel M u v c → sv_hand M = Some p →
  match sc_evict fuel c with
  | None => sieve_scan fuel p M = NoFuel
  | Some (id, c') => ∃ M', sieve_scan fuel p M = Ret (id, M') ∧ sieve_sim M' c'
  end.
Proof.
  revert M u v c p. induction fuel as [|fuel IH]; intros M u v c p I Hp; [done|].
  destruct u as [|[q d] u]; [by rewrite (sv_hands _ _ _ _ I) in Hp|].
  pose proof Hp as Hq. rewrite (sv_hands _ _ _ _ I) in Hq. injection Hq as ->.
  cbn [sc_evict]. rewrite (sv_ahead _ _ _ _ I), (sv_behind _ _ _ _ I).
  unfold sv_view at 1. cbn [fst snd fmap list_fmap]. destruct (sv_visited d) eqn:Hv.
  - destruct (sieve_scan_skip fuel M p d u v c I Hv) as (M' & u' & v' & -> & Hne & I').
    destruct u' as [|[q e] u']; [done|].
    rewrite (sv_hands _ _ _ _ I'). simpl.
    apply (IH M' _ _ _ q I'). by rewrite (sv_hands _ _ _ _ I').
  - by apply (sieve_scan_take fuel M p d u v c).
Qed.

Lemma sieve_find_victim_ok cnt M c :
  sieve_sim M c →
  ∃ M', sieve_find_victim cnt M = Ret ((sc_victims cnt c).1, M')
        ∧ sieve_sim M' (sc_victims cnt c).2.
Proof.
  revert M c. induction cnt as [|cnt IH]; intros M c Sm; [by exists M|].
  cbn [sieve_find_victim sc_victims]. destruct Sm as (u & v & I).
  destruct u as [|[p d] u].
  - pose proof (sv_some _ _ _ _ I eq_refl) as ->.
    rewrite (sv_hands _ _ _ _ I). unfold sieve_tail.
    rewrite (lm_tail _ _ _ (sv_lists _ _ _ _ I)). simpl. rewrite (sv_ahead _ _ _ _ I).
    simpl. exists M. split; [done|]. by exists [], [].
  - assert (sv_hand M = Some p) as Hp by (by rewrite (sv_hands _ _ _ _ I)).
    rewrite Hp. cbn [option_or].
    pose proof (sieve_scan_sim (S (length (sc_walk c))) M _ _ c p I Hp) as H.
    pose proof (sieve_scan_sim (sieve_fuel M) M _ _ c p I Hp) as H2.
    assert (sc_walk c = sv_view <$> ((p, d) :: u) ++ v) as Ew.
    { unfold sc_walk. by rewrite (sv_ahead _ _ _ _ I), (sv_behind _ _ _ _ I), fmap_app. }
    assert (sc_evict (sieve_fuel M) c = sc_evict (S (length (sc_walk c))) c) as Ef.
    { apply sc_evict_fuel; [| |lia].
      - intros E. rewrite (sv_ahead _ _ _ _ I) in E. done.
      - unfold sieve_fuel. pose proof (lm_size _ _ _ (sv_lists _ _ _ _ I)) as Hs.
        rewrite length_app, !length_reverse, <- length_app in Hs.
        rewrite Ew, length_fmap. lia. }
    rewrite Ef in H2.
    destruct (sc_evict (S (length (sc_walk c))) c) as [[id c']|] eqn:E.
    + destruct H2 as (M' & -> & Sm'). simpl.
      destruct (IH M' c' Sm') as (M2 & -> & S2). simpl. exists M2.
      by destruct (sc_victims cnt c').
    + exfalso. assert (sc_wf c) as W.
      { intros Ea. by rewrite (sv_ahead _ _ _ _ I) in Ea. }
      pose proof (sc_evict_pick c (S (length (sc_walk c))) W) as Hk.
      rewrite E in Hk. destruct (sc_pick _) as [i|].
      * destruct Hk as (? & ? & _); [lia|done].
      * destruct Hk as [Hk _]; [lia|]. by rewrite Ew in Hk.
Qed.

Lemma sv_ids xs : (sv_view <$> xs).*1 = ids sv_entry_id xs.
Proof. unfold ids. by rewrite <- !list_fmap_compose. Qed.

Lemma sieve_rel_ids M u v c :
  sieve_rel M u v c → ids sv_entry_id (reverse u ++ reverse v) ≡ₚ (sc_walk c).*1.
Proof.
  intros I. unfold sc_walk.
  rewrite (sv_ahead _ _ _ _ I), (sv_behind _ _ _ _ I), <- fmap_app, sv_ids.
  apply ids_perm. by rewrite !reverse_Permutation.
Qed.

Lemma sieve_elem M c id :
  sieve_sim M c → lm_map (sv_lm M) !! id = None ↔ id ∉ (sc_walk c).*1.
Proof.
  intros (u & v & I). rewrite (lm_lookup_None _ _ _ id (sv_lists _ _ _ _ I)).
  by rewrite (sieve_rel_ids _ _ _ _ I).
Qed.

Lemma sieve_sim_NoDup M c : sieve_sim M c → NoDup (sc_walk c).*1.
Proof.
  intros (u & v & I). rewrite <- (sieve_rel_ids _ _ _ _ I). eapply lm_NoDup. apply I.
Qed.

Lemma sieve_sim_wf M c : sieve_sim M c → sc_wf c.
Proof.
  intros (u & v & I). unfold sc_wf. rewrite (sv_ahead _ _ _ _ I), (sv_behind _ _ _ _ I).
  intros E%fmap_nil_inv. by rewrite (sv_some _ _ _ _ I E).
Qed.

(** Setting the mark of the node of [id], wherever it is. *)
Lemma sieve_touch_ok id p M c :
  sieve_sim M c → lm_map (sv_lm M) !! id = Some p →
  ∃ lm, lm_update p (sv_mark true) (sv_lm M) = Ret lm
        ∧ sieve_sim (Sieve lm (sv_hand M) (sv_total_size M)) (sc_touch id c).
Proof.
  intros (u & v & I) Hp. pose proof (sv_lists _ _ _ _ I) as IL.
  destruct (lm_lookup_Some _ _ _ _ _ IL Hp) as (a & d & b & Eab & Hd).
  pose proof (lm_NoDup _ _ _ IL) as ND. pose proof IL as IL0. rewrite Eab in IL.
  destruct (lm_update_ok _ _ _ _ _ _ (sv_mark true) IL eq_refl) as (lm & E & IL' & Em).
  exists lm. split; [done|].
  set (f := λ x : loc * SieveNode,
              if decide (sv_entry_id x.2 = id) then (x.1, sv_mark true x.2) else x).
  assert (a ++ (p, sv_mark true d) :: b = f <$> (reverse u ++ reverse v)) as Ef.
  { rewrite Eab. symmetry. apply (fmap_middle_on sv_entry_id); [by rewrite <- Eab| | ].
    - unfold f. cbn. by rewrite decide_True.
    - intros [q e] Hq. unfold f. cbn. rewrite decide_False; [done|]. cbn in Hq. congruence. }
  assert (∀ l, sv_view <$> (f <$> l) = set_mark id (sv_view <$> l)) as Ev.
  { intros l. unfold set_mark. rewrite <- !list_fmap_compose. apply list_fmap_ext.
    intros _ [q e] _. unfold f. cbn. by case_decide. }
  exists (f <$> u), (f <$> v). split; simpl.
  - rewrite Ef in IL'. by rewrite fmap_app, !fmap_reverse in IL'.
  - rewrite (sv_hands _ _ _ _ I). destruct u as [|[q e] u]; [done|]. cbn. unfold f. cbn.
    by case_decide.
  - intros Eu%fmap_nil_inv. by rewrite (sv_some _ _ _ _ I Eu).
  - by rewrite (sv_total _ _ _ _ I), <- fmap_app, length_fmap.
  - by rewrite Ev, (sv_ahead _ _ _ _ I).
  - by rewrite Ev, (sv_behind _ _ _ _ I).
Qed.

Lemma sieve_notify_access_ok id ty M c :
  sieve_sim M c →
  ∃ M', sieve_notify_access id ty M = Ret M'
        ∧ sieve_sim M' (if decide (id ∈ (sc_walk c).*1) then sc_touch id c else c).
Proof.
  intros Sm. unfold sieve_notify_access. pose proof (sieve_elem _ _ id Sm) as HN.
  destruct (lm_map (sv_lm M) !! id) as [p|] eqn:E.
  - rewrite decide_True by (apply dec_stable; intros Hn%HN; done).
    destruct (sieve_touch_ok _ _ _ _ Sm E) as (lm & -> & Sm'). by eexists.
  - rewrite decide_False by (by apply HN). eauto.
Qed.

Lemma sieve_notify_insert_ok id ty M c :
  sieve_sim M c →
  ∃ M', sieve_notify_insert id ty M = Ret M'
        ∧ sieve_sim M' (if decide (id ∈ (sc_walk c).*1) then sc_touch id c else sc_push id false c).
Proof.
  intros Sm. unfold sieve_notify_insert. pose proof (sieve_elem _ _ id Sm) as HN.
  destruct (lm_map (sv_lm M) !! id) as [p|] eqn:E.
  - rewrite decide_True by (apply dec_stable; intros Hn%HN; done).
    destruct (sieve_touch_ok _ _ _ _ Sm E) as (lm & -> & Sm'). by eexists.
  - rewrite decide_False by (by apply HN). destruct Sm as (u & v & I).
    destruct (lm_insert_front_ok _ _ _ id {| sv_entry_id := id; sv_visited := false |}
                (sv_lists _ _ _ _ I) E eq_refl) as (lm & p & -> & I' & _).
    eexists. split; [done|]. simpl.
    exists (u ++ [(p, {| sv_entry_id := id; sv_visited := false |})]), v. split; simpl.
    + by rewrite reverse_app.
    + rewrite (lm_head _ _ _ (sv_lists _ _ _ _ I)), first_loc_app, first_loc_app.
      rewrite !first_loc_reverse, (sv_hands _ _ _ _ I). destruct u as [|[q d] u _] using rev_ind.
      * by rewrite (sv_some _ _ _ _ I eq_refl).
      * rewrite last_loc_snoc. simpl. rewrite first_loc_app.
        destruct u as [|[]]; done.
    + by intros [_ ?]%app_nil.
    + rewrite (sv_total _ _ _ _ I). unfold usize, sieve_entry_size.
      rewrite Zplus_mod_idemp_l, !length_app. f_equal. simpl. lia.
    + by rewrite (sv_ahead _ _ _ _ I), fmap_app.
    + apply I.
Qed.

(** The entries reading the list from its head. *)
Definition sieve_order (M : SieveInternalState) : list EntryID := lm_order sv_entry_id (sv_lm M).

Lemma sieve_order_ok M c : sieve_sim M c → sieve_order M ≡ₚ (sc_walk c).*1.
Proof.
  intros (u & v & I). unfold sieve_order. rewrite <- (sieve_rel_ids _ _ _ _ I).
  erewrite lm_order_ok; [done|]. eexists. split; [apply I|done].
Qed.

#[export] Program Instance SieveLaws : PolicyLaws SieveInternalState := {
  policy_inv M := ∃ c, sieve_sim M c;
  tracked := sieve_order
}.
Next Obligation. intros M [c Sm]. rewrite (sieve_order_ok _ _ Sm). by eapply sieve_sim_NoDup. Qed.
Next Obligation. split; [eexists; apply sieve_new_sim|done]. Qed.
Next Obligation.
  intros cnt M [c Sm]. destruct (sieve_find_victim_ok cnt M c Sm) as (M' & E & Sm').
  destruct (sc_victims cnt c) as [vs c'] eqn:Ec. simpl in *.
  destruct (sc_victims_ok cnt c vs c' (sieve_sim_wf _ _ Sm) Ec) as (_ & HP & Hl).
  exists vs, M'. split; [done|]. split; [by eexists|].
  rewrite (sieve_order_ok _ _ Sm), (sieve_order_ok _ _ Sm'). split; [done|].
  by rewrite Hl, length_fmap.
Qed.
Next Obligation.
  intros id ty M [c Sm]. destruct (sieve_notify_insert_ok id ty M c Sm) as (M' & E & Sm').
  exists M'. split; [done|]. split; [by eexists|]. apply touch_insert_law. intros i.
  rewrite (sieve_order_ok _ _ Sm), (sieve_order_ok _ _ Sm'). clear Sm'. case_decide as Hid.
  - rewrite sc_touch_walk, set_mark_ids. naive_solver.
  - rewrite sc_push_walk. apply elem_of_cons.
Qed.
Next Obligation.
  intros id ty M [c Sm]. destruct (sieve_notify_access_ok id ty M c Sm) as (M' & E & Sm').
  exists M'. split; [done|]. split; [by eexists|]. intros i.
  rewrite (sieve_order_ok _ _ Sm), (sieve_order_ok _ _ Sm'). clear Sm'. case_decide; [|done].
  by rewrite sc_touch_walk, set_mark_ids.
Qed.
