(* ===== verification/Clock.v ===== *)
(** * The CLOCK policy

    Model of [src/src/storage/src/cache/policies/cache/clock.rs]: second chance with
    an optional size function.  Like SIEVE it implements the machine of
    [SecondChance.v]; here the hand moves from the head of the list towards its
    tail, insertions go to the tail and new entries are marked. *)

From stdpp Require Import base list gmap fin_sets.
From Stdlib Require Import ZArith Lia.
From S2P Require Import Prelude DoublyLinkedList CachePolicy LinkedMap SecondChance.

Record ClockNode : Type := { ck_entry_id : EntryID; ck_referenced : bool }.

(** [ClockPolicy]: [size_of] and the internal state [map], [list] (and their
    heap), [hand], [total_size]. *)
Record ClockPolicy : Type := Clock {
  ck_size_of : option (EntryID → Z);
  ck_lm : linked_map ClockNode;
  ck_hand : option loc;
  ck_total_size : Z
}.

Definition clock_new_with_size_fn (size_of : option (EntryID → Z)) : ClockPolicy :=
  Clock size_of lm_new None 0.

Definition clock_new : ClockPolicy := clock_new_with_size_fn None.

Definition clock_entry_size (M : ClockPolicy) (id : EntryID) : Z :=
  match ck_size_of M with Some f => f id | None => 1 end.

Definition ck_mark (referenced : bool) (d : ClockNode) : ClockNode :=
  {| ck_entry_id := ck_entry_id d; ck_referenced := referenced |}.

Definition clock_head (M : ClockPolicy) : option loc := dl_head (lm_list (ck_lm M)).

(** The inner [loop] of [find_victim].  [cursor] is the hand at every turn; a
    turn that finds no cursor clears the hand and breaks with no victim.  The
    counter is decremented with wrapping arithmetic (release profile). *)
Fixpoint clock_scan (fuel : nat) (cursor : option loc) (M : ClockPolicy)
    : outcome (option EntryID * ClockPolicy) :=
  match fuel with
  | O => NoFuel
  | S fuel =>
      match cursor with
      | None => Ret (None, Clock (ck_size_of M) (ck_lm M) None (ck_total_size M))
      | Some handle_ptr =>
          n ← deref (lm_heap (ck_lm M) !! handle_ptr);
          if ck_referenced (data n) then
            lm ← lm_update handle_ptr (ck_mark false) (ck_lm M);
            n ← deref (lm_heap lm !! handle_ptr);
            let nxt := option_or (next n) (clock_head M) in
            clock_scan fuel nxt (Clock (ck_size_of M) lm nxt (ck_total_size M))
          else
            let victim_id := ck_entry_id (data n) in
            let succ := next n in
            _ ← expect (lm_map (ck_lm M) !! victim_id);
            let lm := ck_lm M in
            lm ← lm_remove_and_release handle_ptr
                   (LinkedMap (delete victim_id (lm_map lm)) (lm_list lm) (lm_heap lm));
            let total := usize (ck_total_size M - clock_entry_size M victim_id) in
            Ret (Some victim_id,
                 Clock (ck_size_of M) lm (option_or succ (dl_head (lm_list lm))) total)
      end
  end.

(** Enough steps for the hand: it clears a mark at every step but the last. *)
Definition clock_fuel (M : ClockPolicy) : nat := S (size (lm_heap (ck_lm M))).

Fixpoint clock_evict_loop (cnt : nat) (cursor : option loc) (M : ClockPolicy)
    : outcome (list EntryID * ClockPolicy) :=
  match cnt with
  | O => Ret ([], M)
  | S cnt =>
      '(v, M) ← clock_scan (clock_fuel M) cursor M;
      let evicted := match v with Some id => [id] | None => [] end in
      match ck_hand M with
      | None => Ret (evicted, M)
      | Some _ =>
          '(vs, M) ← clock_evict_loop cnt (ck_hand M) M;
          Ret (evicted ++ vs, M)
      end
  end.

Definition clock_find_victim (cnt : nat) (M : ClockPolicy) : outcome (list EntryID * ClockPolicy) :=
  if decide (cnt = 0) then Ret ([], M)
  else clock_evict_loop cnt (option_or (ck_hand M) (clock_head M)) M.

Definition clock_notify_insert (entry_id : EntryID) (_ : CachedBatchType) (M : ClockPolicy)
    : outcome ClockPolicy :=
  match lm_map (ck_lm M) !! entry_id with
  | Some existing =>
      lm ← lm_update existing (ck_mark true) (ck_lm M);
      Ret (Clock (ck_size_of M) lm (ck_hand M) (ck_total_size M))
  | None =>
      '(lm, new_ptr) ←
        lm_insert_back entry_id {| ck_entry_id := entry_id; ck_referenced := true |} (ck_lm M);
      Ret (Clock (ck_size_of M) lm (option_or (ck_hand M) (Some new_ptr))
             (usize (ck_total_size M + clock_entry_size M entry_id)))
  end.

Definition clock_notify_access (entry_id : EntryID) (_ : CachedBatchType) (M : ClockPolicy)
    : outcome ClockPolicy :=
  match lm_map (ck_lm M) !! entry_id with
  | Some handle =>
      lm ← lm_update handle (ck_mark true) (ck_lm M);
      Ret (Clock (ck_size_of M) lm (ck_hand M) (ck_total_size M))
  | None => Ret M
  end.

Definition clock_drop (order : list loc) (M : ClockPolicy) : outcome ClockPolicy :=
  lm ← lm_drop order (ck_lm M); Ret (Clock (ck_size_of M) lm None 0).

#[export] Instance clock_policy : CachePolicy ClockPolicy := {
  policy_new := clock_new;
  find_victim := clock_find_victim;
  notify_insert := clock_notify_insert;
  notify_access := clock_notify_access
}.

(** ** Simulation *)

Definition ck_view (x : loc * ClockNode) : EntryID * bool := (ck_entry_id x.2, ck_referenced x.2).

Definition sum_sizes (M : ClockPolicy) (l : list EntryID) : Z :=
  foldr (λ id s, clock_entry_size M id + s)%Z 0%Z l.

(** The list from its head is [behind], then [ahead] from the hand. *)
Record clock_rel (M : ClockPolicy) (u v : list (loc * ClockNode)) (c : sc) : Prop := {
  ck_lists : lm_inv ck_entry_id (ck_lm M) (v ++ u);
  ck_hands : ck_hand M = first_loc u;
  ck_some : u = [] → v = [];
  ck_total : ck_total_size M = usize (sum_sizes M (ids ck_entry_id (v ++ u)));
  ck_ahead : ahead c = ck_view <$> u;
  ck_behind : behind c = ck_view <$> v
}.

Definition clock_sim (M : ClockPolicy) (c : sc) : Prop := ∃ u v, clock_rel M u v c.

Lemma clock_new_sim f : clock_sim (clock_new_with_size_fn f) (Sc [] []).
Proof. exists [], []. split; try done. apply lm_inv_new. Qed.

Lemma ck_wrap_view u v :
  sc_wrap (ck_view <$> u) (ck_view <$> v)
  = Sc (ck_view <$> (wrap_nodes u v).1) (ck_view <$> (wrap_nodes u v).2).
Proof. by destruct u. Qed.

Lemma sum_sizes_app M a b : sum_sizes M (a ++ b) = (sum_sizes M a + sum_sizes M b)%Z.
Proof. unfold sum_sizes. induction a as [|x a IH]; simpl; [done|]. rewrite IH. lia. Qed.

Lemma sum_sizes_size_of M M' l : ck_size_of M = ck_size_of M' → sum_sizes M l = sum_sizes M' l.
Proof.
  intros E. unfold sum_sizes. induction l as [|x l IH]; simpl; [done|]. rewrite IH.
  unfold clock_entry_size. by rewrite E.
Qed.

Lemma clock_scan_skip fuel M p d u v c :
  clock_rel M ((p, d) :: u) v c → ck_referenced d = true →
  ∃ M' u' v', clock_scan (S fuel) (Some p) M = clock_scan fuel (ck_hand M') M'
    ∧ clock_rel M' u' v'
        (sc_wrap (ck_view <$> u) ((ck_view <$> v) ++ [(ck_entry_id d, false)])).
Proof.
  intros I Hv. pose proof (ck_lists _ _ _ _ I) as IL.
  destruct (lm_node _ _ _ _ _ _ IL) as [Hn _].
  destruct (lm_update_ok _ _ _ _ _ _ (ck_mark false) IL eq_refl) as (lm & E & IL' & Em).
  destruct (lm_node _ _ _ _ _ _ IL') as [Hn' _].
  set (v' := v ++ [(p, ck_mark false d)]) in *.
  assert (option_or (first_loc u) (clock_head M) = first_loc (wrap_nodes u v').1) as Eh.
  { rewrite wrap_nodes_hand. unfold clock_head.
    rewrite (lm_head _ _ _ IL). unfold v'. rewrite !first_loc_app. simpl. done. }
  exists (Clock (ck_size_of M) lm (first_loc (wrap_nodes u v').1) (ck_total_size M)),
    (wrap_nodes u v').1, (wrap_nodes u v').2.
  split.
  - cbn [clock_scan]. rewrite Hn. cbn. rewrite Hv, E. cbn. rewrite Hn'. cbn. by rewrite Eh.
  - assert ((ck_view <$> v) ++ [(ck_entry_id d, false)] = ck_view <$> v') as Ev.
    { unfold v'. by rewrite fmap_app. }
    assert ((wrap_nodes u v').2 ++ (wrap_nodes u v').1 = v ++ (p, ck_mark false d) :: u) as Ewr.
    { rewrite wrap_nodes_list. unfold v'. by rewrite <- app_assoc. }
    split.
    + simpl. by rewrite Ewr.
    + done.
    + apply wrap_nodes_some.
    + rewrite Ewr. simpl. rewrite (ck_total _ _ _ _ I). f_equal.
      unfold ids. by rewrite !fmap_app.
    + by rewrite Ev, ck_wrap_view.
    + by rewrite Ev, ck_wrap_view.
Qed.

Lemma clock_scan_take fuel M p d u v c :
  clock_rel M ((p, d) :: u) v c → ck_referenced d = false →
  ∃ M', clock_scan (S fuel) (Some p) M = Ret (Some (ck_entry_id d), M')
        ∧ clock_sim M' (sc_wrap (ck_view <$> u) (ck_view <$> v)).
Proof.
  intros I Hv. pose proof (ck_lists _ _ _ _ I) as IL.
  destruct (lm_node _ _ _ _ _ _ IL) as [Hn Hm].
  destruct (lm_remove_ok _ _ _ _ _ _ IL) as (lm & E & IL' & _).
  eexists. split.
  { cbn [clock_scan]. rewrite Hn. cbn. rewrite Hv, Hm. cbn. rewrite E. done. }
  exists (wrap_nodes u v).1, (wrap_nodes u v).2. split.
  - cbn. by rewrite wrap_nodes_list.
  - cbn. rewrite (lm_head _ _ _ IL'), wrap_nodes_hand, first_loc_app.
    by destruct (first_loc u), (first_loc v).
  - apply wrap_nodes_some.
  - rewrite wrap_nodes_list. cbn. rewrite (ck_total _ _ _ _ I). unfold usize.
    rewrite !ids_app, !sum_sizes_app.
    rewrite Zminus_mod_idemp_l. f_equal. unfold ids, sum_sizes, clock_entry_size. cbn. lia.
  - by rewrite ck_wrap_view.
  - by rewrite ck_wrap_view.
Qed.

Lemma clock_scan_sim fuel M u v c p :
  clock_rel M u v c → ck_hand M = Some p →
  match sc_evict fuel c with
  | None => clock_scan fuel (Some p) M = NoFuel
  | Some (id, c') =>
      ∃ M', clock_scan fuel (Some p) M = Ret (Some id, M') ∧ clock_sim M' c'
  end.
Proof.
  revert M u v c p. induction fuel as [|fuel IH]; intros M u v c p I Hp; [done|].
  destruct u as [|[q d] u]; [by rewrite (ck_hands _ _ _ _ I) in Hp|].
  pose proof Hp as Hq. rewrite (ck_hands _ _ _ _ I) in Hq. injection Hq as ->.
  cbn [sc_evict]. rewrite (ck_ahead _ _ _ _ I), (ck_behind _ _ _ _ I).
  unfold ck_view at 1. cbn [fst snd fmap list_fmap]. destruct (ck_referenced d) eqn:Hv.
  - destruct (clock_scan_skip fuel M p d u v c I Hv) as (M' & u' & v' & -> & I').
    destruct u' as [|[q e] u'].
    { pose proof (ck_some _ _ _ _ I' eq_refl) as ->. pose proof (ck_ahead _ _ _ _ I') as Ea.
      destruct u as [|x u]; simpl in Ea; [by apply app_nil in Ea as [_ ?]|done]. }
    rewrite (ck_hands _ _ _ _ I'). simpl.
    apply (IH M' _ _ _ q I'). by rewrite (ck_hands _ _ _ _ I').
  - by apply (clock_scan_take fuel M p d u v c).
Qed.

Lemma ck_ids xs : (ck_view <$> xs).*1 = ids ck_entry_id xs.
Proof. unfold ids. by rewrite <- !list_fmap_compose. Qed.

Lemma clock_rel_ids M u v c :
  clock_rel M u v c → ids ck_entry_id (v ++ u) ≡ₚ (sc_walk c).*1.
Proof.
  intros I. unfold sc_walk.
  rewrite (ck_ahead _ _ _ _ I), (ck_behind _ _ _ _ I), <- fmap_app, ck_ids.
  apply ids_perm, Permutation_app_comm.
Qed.

Lemma clock_sim_wf M c : clock_sim M c → sc_wf c.
Proof.
  intros (u & v & I). unfold sc_wf. rewrite (ck_ahead _ _ _ _ I), (ck_behind _ _ _ _ I).
  intros E%fmap_nil_inv. by rewrite (ck_some _ _ _ _ I E).
Qed.

Lemma clock_sim_NoDup M c : clock_sim M c → NoDup (sc_walk c).*1.
Proof.
  intros (u & v & I). rewrite <- (clock_rel_ids _ _ _ _ I). eapply lm_NoDup. apply I.
Qed.

Lemma clock_elem M c id :
  clock_sim M c → lm_map (ck_lm M) !! id = None ↔ id ∉ (sc_walk c).*1.
Proof.
  intros (u & v & I). rewrite (lm_lookup_None _ _ _ id (ck_lists _ _ _ _ I)).
  by rewrite (clock_rel_ids _ _ _ _ I).
Qed.

Lemma clock_hand_None M c : clock_sim M c → ck_hand M = None ↔ sc_walk c = [].
Proof.
  intros (u & v & I). rewrite (ck_hands _ _ _ _ I). unfold sc_walk.
  rewrite (ck_ahead _ _ _ _ I), (ck_behind _ _ _ _ I). destruct u as [|x u]; [|done].
  by rewrite (ck_some _ _ _ _ I eq_refl).
Qed.

Lemma sc_victims_empty cnt c : sc_wf c → sc_walk c = [] → sc_victims cnt c = ([], c).
Proof.
  intros W E. destruct cnt; [done|]. cbn [sc_victims].
  destruct c as [[|x u] v]; [done|]. done.
Qed.

Lemma clock_evict_loop_ok cnt M c :
  clock_sim M c →
  ∃ M', clock_evict_loop cnt (ck_hand M) M = Ret ((sc_victims cnt c).1, M')
        ∧ clock_sim M' (sc_victims cnt c).2.
Proof.
  revert M c. induction cnt as [|cnt IH]; intros M c Sm; [by exists M|].
  pose proof (clock_sim_wf _ _ Sm) as W. cbn [clock_evict_loop].
  destruct (ck_hand M) as [p|] eqn:Hp.
  - pose proof Sm as (u & v & I).
    pose proof (clock_scan_sim (clock_fuel M) M _ _ c p I Hp) as H.
    assert (length (sc_walk c) = length (v ++ u)) as Hlen.
    { pose proof (clock_rel_ids _ _ _ _ I) as HP. apply Permutation_length in HP.
      unfold ids in HP. rewrite !length_fmap in HP. done. }
    rewrite (sc_evict_fuel c (clock_fuel M) (S (length (sc_walk c)))) in H; [|done| |lia].
    2: { unfold clock_fuel. pose proof (lm_size _ _ _ (ck_lists _ _ _ _ I)). lia. }
    pose proof (sc_evict_pick c (S (length (sc_walk c))) W) as Hk.
    cbn [sc_victims]. destruct (sc_evict (S (length (sc_walk c))) c) as [[id c']|] eqn:E.
    + destruct H as (M' & -> & Sm'). simpl. destruct (IH M' c' Sm') as (M2 & E2 & S2).
      destruct (ck_hand M') as [q|] eqn:Hq.
      * rewrite E2. simpl. exists M2. by destruct (sc_victims cnt c').
      * apply (clock_hand_None _ _ Sm') in Hq.
        rewrite sc_victims_empty by (done || by eapply clock_sim_wf). by exists M'.
    + exfalso. destruct (sc_pick _) as [i|].
      * destruct Hk as (? & ? & _); [lia|done].
      * destruct Hk as [Hk _]; [lia|]. by rewrite (proj2 (clock_hand_None _ _ Sm) Hk) in Hp.
  - pose proof (proj1 (clock_hand_None _ _ Sm) Hp) as Hw.
    rewrite sc_victims_empty by done. simpl.
    exists (Clock (ck_size_of M) (ck_lm M) None (ck_total_size M)). split; [done|].
    rewrite <- Hp. by destruct M.
Qed.

Lemma clock_find_victim_ok cnt M c :
  clock_sim M c →
  ∃ M', clock_find_victim cnt M = Ret ((sc_victims cnt c).1, M')
        ∧ clock_sim M' (sc_victims cnt c).2.
Proof.
  intros Sm. unfold clock_find_victim. case_decide as E; [subst cnt; by exists M|].
  assert (option_or (ck_hand M) (clock_head M) = ck_hand M) as ->; [|by apply clock_evict_loop_ok].
  destruct Sm as (u & v & I). unfold clock_head.
  rewrite (lm_head _ _ _ (ck_lists _ _ _ _ I)), (ck_hands _ _ _ _ I).
  destruct u as [|[]]; [|done]. by rewrite (ck_some _ _ _ _ I eq_refl).
Qed.

(** Setting the mark of the node of [id], wherever it is. *)
Lemma clock_touch_ok id p M c :
  clock_sim M c → lm_map (ck_lm M) !! id = Some p →
  ∃ lm, lm_update p (ck_mark true) (ck_lm M) = Ret lm
        ∧ clock_sim (Clock (ck_size_of M) lm (ck_hand M) (ck_total_size M)) (sc_touch id c).
Proof.
  intros (u & v & I) Hp. pose proof (ck_lists _ _ _ _ I) as IL.
  destruct (lm_lookup_Some _ _ _ _ _ IL Hp) as (a & d & b & Eab & Hd).
  pose proof (lm_NoDup _ _ _ IL) as ND. rewrite Eab in IL.
  destruct (lm_update_ok _ _ _ _ _ _ (ck_mark true) IL eq_refl) as (lm & E & IL' & Em).
  exists lm. split; [done|].
  set (f := λ x : loc * ClockNode,
              if decide (ck_entry_id x.2 = id) then (x.1, ck_mark true x.2) else x).
  assert (a ++ (p, ck_mark true d) :: b = f <$> (v ++ u)) as Ef.
  { rewrite Eab. symmetry. apply (fmap_middle_on ck_entry_id); [by rewrite <- Eab| | ].
    - unfold f. cbn. by rewrite decide_True.
    - intros [q e] Hq. unfold f. cbn. rewrite decide_False; [done|]. cbn in Hq. congruence. }
  assert (∀ l, ck_view <$> (f <$> l) = set_mark id (ck_view <$> l)) as Ev.
  { intros l. unfold set_mark. rewrite <- !list_fmap_compose. apply list_fmap_ext.
    intros _ [q e] _. unfold f. cbn. by case_decide. }
  assert (ids ck_entry_id (f <$> (v ++ u)) = ids ck_entry_id (v ++ u)) as Eid.
  { unfold ids. rewrite <- !list_fmap_compose. apply list_fmap_ext.
    intros _ [q e] _. unfold f. cbn. by case_decide. }
  exists (f <$> u), (f <$> v). split; simpl.
  - by rewrite Ef, fmap_app in IL'.
  - rewrite (ck_hands _ _ _ _ I). destruct u as [|[q e] u]; [done|]. cbn. unfold f. cbn.
    by case_decide.
  - intros Eu%fmap_nil_inv. by rewrite (ck_some _ _ _ _ I Eu).
  - rewrite <- fmap_app, Eid. apply I.
  - by rewrite Ev, (ck_ahead _ _ _ _ I).
  - by rewrite Ev, (ck_behind _ _ _ _ I).
Qed.

Lemma clock_notify_access_ok id ty M c :
  clock_sim M c →
  ∃ M', clock_notify_access id ty M = Ret M'
        ∧ clock_sim M' (if decide (id ∈ (sc_walk c).*1) then sc_touch id c else c).
Proof.
  intros Sm. unfold clock_notify_access. pose proof (clock_elem _ _ id Sm) as HN.
  destruct (lm_map (ck_lm M) !! id) as [p|] eqn:E.
  - rewrite decide_True by (apply dec_stable; intros Hn%HN; done).
    destruct (clock_touch_ok _ _ _ _ Sm E) as (lm & -> & Sm'). by eexists.
  - rewrite decide_False by (by apply HN). eauto.
Qed.

Lemma clock_notify_insert_ok id ty M c :
  clock_sim M c →
  ∃ M', clock_notify_insert id ty M = Ret M'
        ∧ clock_sim M' (if decide (id ∈ (sc_walk c).*1) then sc_touch id c else sc_push id true c).
Proof.
  intros Sm. unfold clock_notify_insert. pose proof (clock_elem _ _ id Sm) as HN.
  destruct (lm_map (ck_lm M) !! id) as [p|] eqn:E.
  - rewrite decide_True by (apply dec_stable; intros Hn%HN; done).
    destruct (clock_touch_ok _ _ _ _ Sm E) as (lm & -> & Sm'). by eexists.
  - rewrite decide_False by (by apply HN). destruct Sm as (u & v & I).
    destruct (lm_insert_back_ok _ _ _ id {| ck_entry_id := id; ck_referenced := true |}
                (ck_lists _ _ _ _ I) E eq_refl) as (lm & p & -> & I' & _).
    eexists. split; [done|]. simpl.
    exists (u ++ [(p, {| ck_entry_id := id; ck_referenced := true |})]), v. split; simpl.
    + by rewrite app_assoc.
    + rewrite (ck_hands _ _ _ _ I), first_loc_app. done.
    + by intros [_ ?]%app_nil.
    + rewrite (ck_total _ _ _ _ I). unfold usize.
      rewrite Zplus_mod_idemp_l, app_assoc, (ids_app _ (v ++ u)), sum_sizes_app.
      f_equal. unfold ids, sum_sizes, clock_entry_size. cbn. lia.
    + by rewrite (ck_ahead _ _ _ _ I), fmap_app.
    + apply I.
Qed.

Definition clock_order (M : ClockPolicy) : list EntryID := lm_order ck_entry_id (ck_lm M).

Lemma clock_order_ok M c : clock_sim M c → clock_order M ≡ₚ (sc_walk c).*1.
Proof.
  intros (u & v & I). unfold clock_order. rewrite <- (clock_rel_ids _ _ _ _ I).
  erewrite lm_order_ok; [done|]. eexists. split; [apply I|done].
Qed.

#[export] Program Instance ClockLaws : PolicyLaws ClockPolicy := {
  policy_inv M := ∃ c, clock_sim M c;
  tracked := clock_order
}.
Next Obligation. intros M [c Sm]. rewrite (clock_order_ok _ _ Sm). by eapply clock_sim_NoDup. Qed.
Next Obligation. split; [eexists; apply clock_new_sim|done]. Qed.
Next Obligation.
  intros cnt M [c Sm]. destruct (clock_find_victim_ok cnt M c Sm) as (M' & E & Sm').
  destruct (sc_victims cnt c) as [vs c'] eqn:Ec. simpl in *.
  destruct (sc_victims_ok cnt c vs c' (clock_sim_wf _ _ Sm) Ec) as (_ & HP & Hl).
  exists vs, M'. split; [done|]. split; [by eexists|].
  rewrite (clock_order_ok _ _ Sm), (clock_order_ok _ _ Sm'). split; [done|].
  by rewrite Hl, length_fmap.
Qed.
Next Obligation.
  intros id ty M [c Sm]. destruct (clock_notify_insert_ok id ty M c Sm) as (M' & E & Sm').
  exists M'. split; [done|]. split; [by eexists|]. apply touch_insert_law. intros i.
  rewrite (clock_order_ok _ _ Sm), (clock_order_ok _ _ Sm'). clear Sm'. case_decide as Hid.
  - rewrite sc_touch_walk, set_mark_ids. naive_solver.
  - rewrite sc_push_walk. apply elem_of_cons.
Qed.
Next Obligation.
  intros id ty M [c Sm]. destruct (clock_notify_access_ok id ty M c Sm) as (M' & E & Sm').
  exists M'. split; [done|]. split; [by eexists|]. intros i.
  rewrite (clock_order_ok _ _ Sm), (clock_order_ok _ _ Sm'). clear Sm'. case_decide; [|done].
  by rewrite sc_touch_walk, set_mark_ids.
Qed.
