(* ===== verification/PolicySpecs.v ===== *)
(** * What each cache policy does

    One abstract machine per policy: a sequence of entries for LRU, FIFO and
    FILO, three eviction queues and a disk queue for the liquid policy, the
    second-chance machine for SIEVE and CLOCK.  [run_policy] runs any sequence of
    calls on the pointer-level model of the code, [run_spec] on the machine; the
    theorems say that they give the same victims, that no call ever panics or
    touches freed memory, and that dropping the policy afterwards frees every
    node exactly once. *)

From stdpp Require Import base list gmap.
From Stdlib Require Import ZArith Lia.
From S2P Require Import Prelude DoublyLinkedList CachePolicy LinkedMap Lru Filo LiquidPolicy SecondChance.
From S2P Require Import Sieve Clock.

(** A call of the trait [CachePolicy]. *)
Inductive policy_call : Type :=
| CallFindVictim (cnt : nat)
| CallInsert (id : EntryID) (ty : CachedBatchType)
| CallAccess (id : EntryID) (ty : CachedBatchType).

Fixpoint run_policy {P} `{CachePolicy P} (calls : list policy_call) (p : P)
    : outcome (list (list EntryID) * P) :=
  match calls with
  | [] => Ret ([], p)
  | CallFindVictim cnt :: calls =>
      '(vs, p) ← find_victim cnt p; '(r, p) ← run_policy calls p; Ret (vs :: r, p)
  | CallInsert id ty :: calls => p ← notify_insert id ty p; run_policy calls p
  | CallAccess id ty :: calls => p ← notify_access id ty p; run_policy calls p
  end.

Record policy_spec : Type := PolicySpec {
  ps_state : Type;
  ps_new : ps_state;
  ps_find : nat → ps_state → list EntryID * ps_state;
  ps_insert : EntryID → CachedBatchType → ps_state → ps_state;
  ps_access : EntryID → CachedBatchType → ps_state → ps_state
}.

Fixpoint run_spec (A : policy_spec) (calls : list policy_call) (a : ps_state A)
    : list (list EntryID) * ps_state A :=
  match calls with
  | [] => ([], a)
  | CallFindVictim cnt :: calls =>
      let '(vs, a) := ps_find A cnt a in let '(r, a) := run_spec A calls a in (vs :: r, a)
  | CallInsert id ty :: calls => run_spec A calls (ps_insert A id ty a)
  | CallAccess id ty :: calls => run_spec A calls (ps_access A id ty a)
  end.

(** ** The machines *)

(** Most recently used first; victims from the other end. *)
Definition lru_spec : policy_spec := PolicySpec (list EntryID) []
  (λ cnt s, (take cnt (reverse s), take (length s - cnt) s))
  (λ id _ s, id :: others id s)
  (λ id _ s, if decide (id ∈ s) then id :: others id s else s).

(** First in, first out: an insertion moves an entry to the end of the queue. *)
Definition fifo_spec : policy_spec := PolicySpec (list EntryID) []
  (λ cnt s, (take cnt s, drop cnt s)) (λ id _ s, others id s ++ [id]) (λ _ _ s, s).

(** First in, last out. *)
Definition filo_spec : policy_spec := PolicySpec (list EntryID) []
  (λ cnt s, (take cnt s, drop cnt s)) (λ id _ s, id :: others id s) (λ _ _ s, s).

(** Arrow entries first, then liquid, then squeezed ones, each kind in order of
    insertion; entries on disk are never victims. *)
Definition lq_dropped (cnt : nat) (s : QueueKind → list EntryID) (q : QueueKind) : list EntryID :=
  match q with
  | QArrow => drop cnt (s QArrow)
  | QLiquid => drop (cnt - length (s QArrow)) (s QLiquid)
  | QSqueezed => drop (cnt - length (s QArrow) - length (s QLiquid)) (s QSqueezed)
  | QDisk => s QDisk
  end.

Definition liquid_spec : policy_spec := PolicySpec (QueueKind → list EntryID) (λ _, [])
  (λ cnt s, (take cnt (lq_evictable s), lq_dropped cnt s))
  (λ id ty s, lq_upsert id (queue_of ty) s) (λ _ _ s, s).

Definition second_chance_spec (mark : bool) : policy_spec := PolicySpec sc (Sc [] [])
  sc_victims
  (λ id _ c, if decide (id ∈ (sc_walk c).*1) then sc_touch id c else sc_push id mark c)
  (λ id _ c, if decide (id ∈ (sc_walk c).*1) then sc_touch id c else c).

(** ** Simulation *)

Record simulates {P} `{CachePolicy P} (A : policy_spec) (R : P → ps_state A → Prop) : Prop := {
  sim_new : R policy_new (ps_new A);
  sim_find cnt p a :
    R p a → ∃ p', find_victim cnt p = Ret ((ps_find A cnt a).1, p') ∧ R p' (ps_find A cnt a).2;
  sim_insert id ty p a : R p a → ∃ p', notify_insert id ty p = Ret p' ∧ R p' (ps_insert A id ty a);
  sim_access id ty p a : R p a → ∃ p', notify_access id ty p = Ret p' ∧ R p' (ps_access A id ty a)
}.

Lemma simulates_run {P} `{CachePolicy P} A R calls p a :
  simulates A R → R p a →
  ∃ p', run_policy calls p = Ret ((run_spec A calls a).1, p') ∧ R p' (run_spec A calls a).2.
Proof.
  intros Sim. revert p a. induction calls as [|[cnt|id ty|id ty] calls IH]; intros p a Hp; cbn; [eauto| | |].
  - destruct (sim_find _ _ Sim cnt p a Hp) as (p1 & -> & H1).
    destruct (ps_find A cnt a) as [vs a1]. cbn in *.
    destruct (IH p1 a1 H1) as (p2 & -> & H2). cbn.
    destruct (run_spec A calls a1) as [r a2]. by exists p2.
  - destruct (sim_insert _ _ Sim id ty p a Hp) as (p1 & -> & H1). cbn. by apply IH.
  - destruct (sim_access _ _ Sim id ty p a Hp) as (p1 & -> & H1). cbn. by apply IH.
Qed.

Lemma lru_simulates : simulates lru_spec lru_model.
Proof.
  split; cbn.
  - apply lm_model_new.
  - intros cnt p a. apply lru_find_victim_ok.
  - intros id ty p a. apply lru_notify_insert_ok.
  - intros id ty p a. apply lru_notify_access_ok.
Qed.

Lemma fifo_simulates : simulates fifo_spec (λ p s, queue_model (fifo_state p) s).
Proof.
  split; cbn.
  - apply lm_model_new.
  - intros cnt [M] s Ms. destruct (queue_find_victim_ok cnt M s Ms) as (M' & E & Ms').
    exists (Fifo M'). cbn. by rewrite E.
  - intros id ty [M] s Ms. destruct (insert_back_ok id M s Ms) as (M' & E & Ms').
    exists (Fifo M'). cbn. by rewrite E.
  - intros id ty p s Ms. by exists p.
Qed.

Lemma filo_simulates : simulates filo_spec (λ p s, queue_model (filo_state p) s).
Proof.
  split; cbn.
  - apply lm_model_new.
  - intros cnt [M] s Ms. destruct (queue_find_victim_ok cnt M s Ms) as (M' & E & Ms').
    exists (Filo M'). cbn. by rewrite E.
  - intros id ty [M] s Ms. destruct (insert_front_ok id M s Ms) as (M' & E & Ms').
    exists (Filo M'). cbn. by rewrite E.
  - intros id ty p s Ms. by exists p.
Qed.

Lemma sieve_simulates : simulates (second_chance_spec false) sieve_sim.
Proof.
  split; cbn.
  - apply sieve_new_sim.
  - intros cnt p a. apply sieve_find_victim_ok.
  - intros id ty p a. apply sieve_notify_insert_ok.
  - intros id ty p a. apply sieve_notify_access_ok.
Qed.

Lemma clock_simulates : simulates (second_chance_spec true) clock_sim.
Proof.
  split; cbn.
  - apply clock_new_sim.
  - intros cnt p a. apply clock_find_victim_ok.
  - intros id ty p a. apply clock_notify_insert_ok.
  - intros id ty p a. apply clock_notify_access_ok.
Qed.

Lemma lq_model_ext Q s s' : (∀ q, s q = s' q) → lq_model Q s → lq_model Q s'.
Proof. intros H (xs & I & Hs). exists xs. split; [done|]. intros q. by rewrite <- H. Qed.

Lemma lq_dropped_next cnt s q : lq_dropped cnt (lq_next s) q = lq_dropped (S cnt) s q.
Proof.
  unfold lq_next. destruct (s QArrow) as [|a sa] eqn:EA, (s QLiquid) as [|l sl] eqn:EL;
    destruct q; unfold lq_dropped, lq_pop; simpl; rewrite ?EA, ?EL; simpl; rewrite ?Nat.sub_0_r; try done.
  all: rewrite ?drop_nil; try done. destruct (s QSqueezed); cbn; by rewrite ?drop_nil.
Qed.

Lemma lq_dropped_empty cnt s q : lq_evictable s = [] → lq_dropped cnt s q = s q.
Proof.
  unfold lq_evictable. intros [HA [HL HS]%app_eq_nil]%app_eq_nil.
  destruct q; simpl; rewrite ?HA, ?HL, ?HS; by rewrite ?drop_nil.
Qed.

Lemma lq_loop_dropped cnt Q s :
  lq_model Q s →
  ∃ Q', lq_victim_loop cnt Q = Ret (take cnt (lq_evictable s), Q') ∧ lq_model Q' (lq_dropped cnt s).
Proof.
  revert Q s. induction cnt as [|cnt IH]; intros Q s M; simpl.
  { exists Q. split; [done|]. eapply lq_model_ext; [|exact M]. intros q. destruct q; simpl; by rewrite ?drop_0. }
  pose proof (lq_next_victim_ok Q s M) as H. pose proof (lq_evictable_next s) as Hn.
  destruct (lq_evictable s) as [|id r] eqn:Es.
  - rewrite H. simpl. exists Q. split; [done|]. eapply lq_model_ext; [|exact M].
    intros q. by rewrite lq_dropped_empty.
  - destruct H as (Q' & -> & M'). simpl. destruct (IH Q' _ M') as (Q2 & -> & M2). simpl.
    exists Q2. rewrite Hn. split; [done|]. eapply lq_model_ext; [|exact M2]. apply lq_dropped_next.
Qed.

Lemma liquid_simulates : simulates liquid_spec lq_model.
Proof.
  split; cbn.
  - apply lq_model_new.
  - intros cnt p a Hp. unfold lq_find_victim. case_decide as E; [|by apply lq_loop_dropped].
    subst cnt. exists p. split; [done|]. eapply lq_model_ext; [|exact Hp].
    intros q. destruct q; simpl; by rewrite ?drop_0.
  - intros id ty p a. apply upsert_ok.
  - intros id ty p a Hp. by exists p.
Qed.

(** ** Properties *)

(** C14: after any calls, the LRU policy gives out the entries in order of least
    recent use, never panics or touches freed memory, and its destructor frees
    every node once, in whatever order the hash map is drained. *)
Theorem lru_refines calls :
  ∃ M, run_policy calls lru_new = Ret ((run_spec lru_spec calls []).1, M)
       ∧ ∀ order, order ≡ₚ (map_to_list (lm_map M)).*2 → lru_drop order M = Ret (LinkedMap ∅ dll_new ∅).
Proof.
  destruct (simulates_run lru_spec _ calls _ _ lru_simulates (sim_new _ _ lru_simulates)) as (M & E & R).
  exists M. split; [exact E|]. intros order Ho. by eapply lm_model_drop.
Qed.

(** After any calls, FIFO and FILO give out the entries from the front of
    their queue, to which insertions add at the back or at the front, never
    panic or touch freed memory, and their destructor frees every node once. *)
Theorem fifo_filo_refine calls :
  (∃ M, run_policy calls (Fifo lm_new) = Ret ((run_spec fifo_spec calls []).1, Fifo M)
        ∧ ∀ order, order ≡ₚ (map_to_list (lm_map M)).*2 → queue_drop order M = Ret (LinkedMap ∅ dll_new ∅))
  ∧ (∃ M, run_policy calls (Filo lm_new) = Ret ((run_spec filo_spec calls []).1, Filo M)
        ∧ ∀ order, order ≡ₚ (map_to_list (lm_map M)).*2 → queue_drop order M = Ret (LinkedMap ∅ dll_new ∅)).
Proof.
  split.
  - destruct (simulates_run fifo_spec _ calls _ _ fifo_simulates (sim_new _ _ fifo_simulates)) as ([M] & E & R).
    exists M. split; [exact E|]. intros order Ho. by eapply lm_model_drop.
  - destruct (simulates_run filo_spec _ calls _ _ filo_simulates (sim_new _ _ filo_simulates)) as ([M] & E & R).
    exists M. split; [exact E|]. intros order Ho. by eapply lm_model_drop.
Qed.

(** C15: after any calls, the liquid policy gives out Arrow entries before liquid
    before squeezed ones, each kind in order of insertion, and never an entry on
    disk; it never panics or touches freed memory, and its destructor empties the
    four lists and frees every node once. *)
Theorem liquid_policy_refines calls :
  ∃ Q, run_policy calls lq_new = Ret ((run_spec liquid_spec calls (λ _, [])).1, Q)
       ∧ ∀ order, order ≡ₚ (map_to_list (lq_map Q)).*2 → lq_drop order Q = Ret lq_new.
Proof.
  destruct (simulates_run liquid_spec _ calls _ _ liquid_simulates (sim_new _ _ liquid_simulates)) as (Q & E & R).
  exists Q. split; [exact E|]. intros order Ho. by eapply lq_drop_ok.
Qed.

(** C16: after any calls, SIEVE and CLOCK give out the victims of the
    second-chance machine (the first unmarked entry the hand meets, the marks it
    passes being cleared), whether new entries start unmarked (SIEVE) or marked
    (CLOCK); no call panics or loses the hand, and the destructors free every
    node once. *)
Theorem second_chance_refine calls :
  (∃ M, run_policy calls sieve_new = Ret ((run_spec (second_chance_spec false) calls (Sc [] [])).1, M)
        ∧ ∀ order, order ≡ₚ (map_to_list (lm_map (sv_lm M))).*2 → sieve_drop order M = Ret sieve_new)
  ∧ (∃ M, run_policy calls clock_new = Ret ((run_spec (second_chance_spec true) calls (Sc [] [])).1, M)
        ∧ ∀ order, order ≡ₚ (map_to_list (lm_map (ck_lm M))).*2 →
            clock_drop order M = Ret (Clock (ck_size_of M) lm_new None 0)).
Proof.
  split.
  - destruct (simulates_run _ _ calls _ _ sieve_simulates (sim_new _ _ sieve_simulates)) as (M & E & u & v & R).
    exists M. split; [exact E|]. intros order Ho. unfold sieve_drop.
    by rewrite (lm_drop_ok _ _ _ _ (sv_lists _ _ _ _ R) Ho).
  - destruct (simulates_run _ _ calls _ _ clock_simulates (sim_new _ _ clock_simulates)) as (M & E & u & v & R).
    exists M. split; [exact E|]. intros order Ho. unfold clock_drop.
    by rewrite (lm_drop_ok _ _ _ _ (ck_lists _ _ _ _ R) Ho).
Qed.
