(* ===== verification/S3Fifo.v ===== *)
(** * The S3-FIFO policy

    Model of [src/src/storage/src/cache/policies/cache/s3_fifo.rs]: a small and a
    main queue, a ghost queue of evicted entries and a frequency map.  Deques
    are lists with the front first.  The small queue's share of the total is an
    [f32] in the source and a [spec_float] of precision 24 here. *)

From stdpp Require Import base list gmap fin_sets.
From Stdlib Require Import ZArith Lia.
From Stdlib Require Import Floats.SpecFloat.
From S2P Require Import Prelude CachePolicy.

Record S3FifoInternalState : Type := S3 {
  small : list EntryID;
  main : list EntryID;
  ghost : list EntryID;
  ghost_set : gset EntryID;
  frequency : gmap EntryID Z;
  small_queue_size : Z;
  main_queue_size : Z;
  total_size : Z
}.

Definition s3_new : S3FifoInternalState := S3 [] [] [] ∅ ∅ 0 0 0.

Definition s3_entry_size (_ : EntryID) : Z := 1.

Definition cap_frequency (freq : Z) : Z := Z.min freq 3.

Definition set_frequency (f : gmap EntryID Z) (s : S3FifoInternalState) : S3FifoInternalState :=
  S3 (small s) (main s) (ghost s) (ghost_set s) f
    (small_queue_size s) (main_queue_size s) (total_size s).

Definition inc_frequency (id : EntryID) (s : S3FifoInternalState) : S3FifoInternalState :=
  match frequency s !! id with
  | Some freq => set_frequency (<[id := cap_frequency (freq + 1)]> (frequency s)) s
  | None => s
  end.

(** [saturating_sub(1)]. *)
Definition dec_frequency (id : EntryID) (s : S3FifoInternalState) : S3FifoInternalState :=
  match frequency s !! id with
  | Some freq => set_frequency (<[id := (Z.max 0 (freq - 1))%Z]> (frequency s)) s
  | None => s
  end.

(** The counters wrap (release profile). *)
Definition inc_small_queue_size (n : Z) (s : S3FifoInternalState) : S3FifoInternalState :=
  S3 (small s) (main s) (ghost s) (ghost_set s) (frequency s)
    (usize (small_queue_size s + n)) (main_queue_size s) (usize (total_size s + n)).

Definition dec_small_queue_size (n : Z) (s : S3FifoInternalState) : S3FifoInternalState :=
  S3 (small s) (main s) (ghost s) (ghost_set s) (frequency s)
    (usize (small_queue_size s - n)) (main_queue_size s) (usize (total_size s - n)).

Definition inc_main_queue_size (n : Z) (s : S3FifoInternalState) : S3FifoInternalState :=
  S3 (small s) (main s) (ghost s) (ghost_set s) (frequency s)
    (small_queue_size s) (usize (main_queue_size s + n)) (usize (total_size s + n)).

Definition dec_main_queue_size (n : Z) (s : S3FifoInternalState) : S3FifoInternalState :=
  S3 (small s) (main s) (ghost s) (ghost_set s) (frequency s)
    (small_queue_size s) (usize (main_queue_size s - n)) (usize (total_size s - n)).

(** [x as f32]: rounded to 24 bits, ties to even. *)
Definition f32_of_usize (x : Z) : spec_float := binary_normalize 24 128 x 0 false.

(** The literal [0.1] at type [f32]. *)
Definition f32_tenth : spec_float := S754_finite false 13421773 (-27).

Definition small_queue_fraction (s : S3FifoInternalState) : spec_float :=
  if (total_size s =? 0)%Z then S754_zero false
  else SFdiv 24 128 (f32_of_usize (small_queue_size s)) (f32_of_usize (total_size s)).

Definition check_if_entry_exists_in_small_or_main (id : EntryID) (s : S3FifoInternalState) : bool :=
  match frequency s !! id with
  | Some _ => bool_decide (id ∉ ghost_set s)
  | None => false
  end.

Definition set_small (l : list EntryID) (s : S3FifoInternalState) : S3FifoInternalState :=
  S3 l (main s) (ghost s) (ghost_set s) (frequency s)
    (small_queue_size s) (main_queue_size s) (total_size s).

Definition set_main (l : list EntryID) (s : S3FifoInternalState) : S3FifoInternalState :=
  S3 (small s) l (ghost s) (ghost_set s) (frequency s)
    (small_queue_size s) (main_queue_size s) (total_size s).

Definition set_ghost (l : list EntryID) (g : gset EntryID) (s : S3FifoInternalState)
    : S3FifoInternalState :=
  S3 (small s) (main s) l g (frequency s)
    (small_queue_size s) (main_queue_size s) (total_size s).

(** [pop_back]. *)
Definition pop_back (l : list EntryID) : option (EntryID * list EntryID) :=
  match reverse l with
  | [] => None
  | x :: r => Some (x, reverse r)
  end.

(** The frequency read by the eviction loops. *)
Definition freq_of (id : EntryID) (s : S3FifoInternalState) : Z := default 0%Z (frequency s !! id).

(** Every turn pops the small queue: [length (small s)] turns suffice. *)
Fixpoint evict_from_small (fuel : nat) (s : S3FifoInternalState)
    : option EntryID * S3FifoInternalState :=
  match fuel with
  | O => (None, s)
  | S fuel =>
      match pop_back (small s) with
      | None => (None, s)
      | Some (element, rest) =>
          let s := set_small rest s in
          let freq := freq_of element s in
          let entry_size := s3_entry_size element in
          let s := dec_small_queue_size entry_size s in
          if (freq >? 1)%Z then
            let s := set_main (element :: main s) s in
            let s := inc_main_queue_size entry_size s in
            let s := set_frequency (<[element := 0%Z]> (frequency s)) s in
            evict_from_small fuel s
          else
            let s := set_ghost (element :: ghost s) ({[element]} ∪ ghost_set s) s in
            let s := set_frequency (delete element (frequency s)) s in
            (Some element, s)
      end
  end.

(** A turn evicts or lowers a frequency; [None] is an exhausted fuel. *)
Fixpoint evict_from_main (fuel : nat) (s : S3FifoInternalState)
    : option (option EntryID * S3FifoInternalState) :=
  match fuel with
  | O => None
  | S fuel =>
      match pop_back (main s) with
      | None => Some (None, s)
      | Some (element, rest) =>
          let s := set_main rest s in
          let freq := freq_of element s in
          let entry_size := s3_entry_size element in
          let s := dec_main_queue_size entry_size s in
          if (freq >? 0)%Z then
            let s := set_main (element :: main s) s in
            let s := dec_frequency element s in
            let s := inc_main_queue_size entry_size s in
            evict_from_main fuel s
          else
            let s := set_frequency (delete element (frequency s)) s in
            Some (Some element, s)
      end
  end.

(** The sum of the frequencies bounds the turns of [evict_from_main]. *)
Definition total_freq (f : gmap EntryID Z) : Z := map_fold (λ _ v a, v + a)%Z 0%Z f.

Definition main_fuel (s : S3FifoInternalState) : nat := S (Z.to_nat (total_freq (frequency s))).

Definition evict_small_next (s : S3FifoInternalState) : bool :=
  match small s with
  | [] => false
  | _ => SFleb f32_tenth (small_queue_fraction s)
  end.

(** [while advices.len() < cnt && state.total_size > 0]; [cnt] is what is
    missing, [None] an exhausted fuel. *)
Fixpoint s3_loop (fuel : nat) (cnt : nat) (s : S3FifoInternalState)
    : option (list EntryID * S3FifoInternalState) :=
  match cnt with
  | O => Some ([], s)
  | S cnt' =>
      if (total_size s >? 0)%Z then
        match fuel with
        | O => None
        | S fuel =>
            r ← if evict_small_next s then Some (evict_from_small (length (small s)) s)
                else evict_from_main (main_fuel s) s;
            match r.1 with
            | Some v => '(vs, s) ← s3_loop fuel cnt' r.2; Some (v :: vs, s)
            | None => s3_loop fuel cnt r.2
            end
        end
      else Some ([], s)
  end.

(** One turn per victim, and one in which the small queue empties into main. *)
Definition s3_find_victim (cnt : nat) (s : S3FifoInternalState)
    : outcome (list EntryID * S3FifoInternalState) :=
  match s3_loop (S cnt) cnt s with
  | Some r => Ret r
  | None => NoFuel
  end.

Definition s3_notify_insert (id : EntryID) (_ : CachedBatchType) (s : S3FifoInternalState)
    : outcome S3FifoInternalState :=
  let entry_size := s3_entry_size id in
  if check_if_entry_exists_in_small_or_main id s then Ret (inc_frequency id s)
  else if bool_decide (id ∈ ghost_set s) then
    let s := set_ghost (others id (ghost s)) (ghost_set s ∖ {[id]}) s in
    let s := set_main (id :: main s) s in
    Ret (inc_main_queue_size entry_size s)
  else
    let s := set_small (id :: small s) s in
    let s := inc_small_queue_size entry_size s in
    Ret (set_frequency (<[id := 0%Z]> (frequency s)) s).

Definition s3_notify_access (id : EntryID) (_ : CachedBatchType) (s : S3FifoInternalState)
    : outcome S3FifoInternalState :=
  if check_if_entry_exists_in_small_or_main id s then Ret (inc_frequency id s) else Ret s.

Definition s3_drop (_ : S3FifoInternalState) : S3FifoInternalState := S3 [] [] [] ∅ ∅ 0 0 0.

#[export] Instance S3FifoPolicy : CachePolicy S3FifoInternalState := {
  policy_new := s3_new;
  find_victim := s3_find_victim;
  notify_insert := s3_notify_insert;
  notify_access := s3_notify_access
}.

(** The counters count the queues, and frequencies are between 0 and 3. *)
Record s3_inv (s : S3FifoInternalState) : Prop := {
  s3_small : small_queue_size s = usize (Z.of_nat (length (small s)));
  s3_main : main_queue_size s = usize (Z.of_nat (length (main s)));
  s3_total : total_size s = usize (Z.of_nat (length (small s) + length (main s)));
  s3_freq : map_Forall (λ _ v, 0 ≤ v ≤ 3)%Z (frequency s)
}.

(** ** Lemmas *)

Lemma total_freq_insert id v f :
  total_freq (<[id := v]> f) = (total_freq f - default 0 (f !! id) + v)%Z.
Proof.
  change (msum (λ v : Z, v) (<[id := v]> f) = (msum (λ v : Z, v) f - default 0 (f !! id) + v)%Z).
  rewrite msum_insert. by destruct (f !! id).
Qed.

Lemma pop_back_snoc l x r : pop_back l = Some (x, r) → l = r ++ [x].
Proof.
  unfold pop_back. destruct (reverse l) as [|y l'] eqn:E; [done|]. intros [= -> <-].
  rewrite <- (reverse_involutive l), E. by rewrite reverse_cons.
Qed.

Lemma pop_back_None l : pop_back l = None → l = [].
Proof.
  unfold pop_back. destruct (reverse l) as [|y l'] eqn:E; [|done]. intros _.
  rewrite <- (reverse_involutive l), E. done.
Qed.

Lemma usize_pred a : usize (usize (a + 1) - 1) = usize a.
Proof. unfold usize. rewrite Zminus_mod_idemp_l. f_equal. lia. Qed.

Lemma usize_succ a b : usize (usize a + b) = usize (a + b).
Proof. unfold usize. by rewrite Z.add_mod_idemp_l. Qed.

Lemma usize_sub a b : usize (usize a - b) = usize (a - b).
Proof. unfold usize. by rewrite Zminus_mod_idemp_l. Qed.

Lemma s3_freq_range s id : s3_inv s → (0 ≤ freq_of id s ≤ 3)%Z.
Proof.
  intros I. unfold freq_of. destruct (frequency s !! id) as [v|] eqn:E; cbn; [|lia].
  by apply (s3_freq _ I id v).
Qed.

(** Settles the counters of [s3_inv]. *)
Ltac s3_counters :=
  cbn; unfold s3_entry_size; rewrite ?usize_sub, ?usize_succ; f_equal; rewrite ?length_app; cbn; lia.

Lemma evict_from_small_ok fuel s :
  s3_inv s → length (small s) ≤ fuel →
  let '(r, s') := evict_from_small fuel s in
  s3_inv s' ∧ (r = None → small s' = [])
  ∧ ∀ v, r = Some v → v ∈ small s ∧ v ∈ ghost_set s' ∧ frequency s' !! v = None.
Proof.
  revert s. induction fuel as [|fuel IH]; intros s I Hf; cbn [evict_from_small].
  { split; [done|]. split; [|done]. intros _. by apply length_zero_iff_nil; lia. }
  destruct (pop_back (small s)) as [[x rest]|] eqn:E.
  2: { split; [done|]. split; [|done]. intros _. by apply pop_back_None. }
  apply pop_back_snoc in E. pose proof (s3_freq_range s x I) as Hx.
  change (freq_of x (set_small rest s)) with (freq_of x s).
  destruct I as [H1 H2 H3 H4]. rewrite E, length_app in H1, H3. cbn [length] in H1, H3.
  destruct (freq_of x s >? 1)%Z.
  - set (s' := set_frequency _ _).
    assert (s3_inv s') as I'.
    { split; cbn; rewrite ?H1, ?H2, ?H3; [s3_counters..|]. by apply map_Forall_insert_2. }
    assert (length (small s') ≤ fuel) as Hf'.
    { cbn. rewrite E, length_app in Hf. cbn in Hf. lia. }
    specialize (IH s' I' Hf'). destruct (evict_from_small fuel s') as [r s2].
    destruct IH as (I2 & Hr & Hv). split; [done|]. split; [done|]. intros v Ev.
    destruct (Hv v Ev) as (Hin & Hg & Hfr). split; [|done]. rewrite E. apply elem_of_app. by left.
  - split; [|split; [done|]].
    + split; cbn; rewrite ?H1, ?H2, ?H3; [s3_counters..|]. by apply map_Forall_delete.
    + intros v [= <-]. cbn. split; [rewrite E; set_solver|]. split; [set_solver|].
      apply lookup_delete_eq.
Qed.

Lemma evict_from_main_ok fuel s :
  s3_inv s → (total_freq (frequency s) < Z.of_nat fuel)%Z →
  ∃ r s', evict_from_main fuel s = Some (r, s') ∧ s3_inv s'
          ∧ (r = None → main s = []) ∧ (∀ v, r = Some v → v ∈ main s).
Proof.
  revert s. induction fuel as [|fuel IH]; intros s I Hf.
  { assert (0 ≤ total_freq (frequency s))%Z; [|lia]. destruct I as [_ _ _ H4].
    clear Hf. revert H4. induction (frequency s) as [|k v m Hk IHm] using map_ind; intros Hall; [done|].
    rewrite total_freq_insert, Hk. apply map_Forall_insert in Hall as [Hv Hall]; [|done].
    specialize (IHm Hall). cbn in *. lia. }
  cbn [evict_from_main]. destruct (pop_back (main s)) as [[x rest]|] eqn:E.
  2: { exists None, s. split_and!; [done|done|intros _; by apply pop_back_None|done]. }
  apply pop_back_snoc in E. pose proof (s3_freq_range s x I) as Hx.
  change (freq_of x (set_main rest s)) with (freq_of x s).
  destruct I as [H1 H2 H3 H4]. rewrite E, length_app in H2, H3. cbn [length] in H2, H3.
  destruct (freq_of x s >? 0)%Z eqn:Eg.
  - unfold freq_of in Hx, Eg. destruct (frequency s !! x) as [v|] eqn:Ev; [cbn in Hx, Eg|done].
    unfold dec_frequency. cbn [set_main dec_main_queue_size frequency]. rewrite Ev.
    set (s' := inc_main_queue_size _ _).
    assert (s3_inv s') as I'.
    { split; cbn; rewrite ?H1, ?H2, ?H3; [done|s3_counters..|]. apply map_Forall_insert_2; [lia|done]. }
    destruct (IH s' I') as (r & s2 & Hr & I2 & Hn & Hv2).
    { cbn. rewrite total_freq_insert, Ev. cbn. lia. }
    exists r, s2. split_and!; [exact Hr|done| |].
    + intros ->. exfalso. specialize (Hn eq_refl). done.
    + intros w Hw. specialize (Hv2 w Hw). cbn in Hv2. rewrite E. set_solver.
  - eexists (Some x), _. split_and!; [done| |done|].
    + split; cbn; rewrite ?H1, ?H2, ?H3; [done|s3_counters..|]. by apply map_Forall_delete.
    + intros w [= <-]. rewrite E. set_solver.
Qed.

(** ** Properties *)

(** Both eviction loops of S3-FIFO end within their fuel (the length of the
    small queue, the sum of the frequencies); the counters stay the lengths of
    the queues and frequencies between 0 and 3; a non-empty main queue always
    gives a victim, and a victim of the small queue is remembered as a ghost. *)
Theorem s3_eviction_loops_end s :
  s3_inv s →
  (∃ r s', evict_from_main (main_fuel s) s = Some (r, s') ∧ s3_inv s' ∧ (r = None → main s = []))
  ∧ (let '(r, s') := evict_from_small (length (small s)) s in
     s3_inv s' ∧ (r = None → small s' = []) ∧ ∀ v, r = Some v → v ∈ small s ∧ v ∈ ghost_set s').
Proof.
  intros I. split.
  - destruct (evict_from_main_ok (main_fuel s) s I) as (r & s' & H & I' & Hn & _); [unfold main_fuel; lia|].
    by exists r, s'.
  - pose proof (evict_from_small_ok (length (small s)) s I (le_n _)) as H.
    destruct (evict_from_small _ s) as [r s']. destruct H as (I' & Hn & Hv).
    split_and!; [done|done|]. intros v E. by destruct (Hv v E) as (? & ? & _).
Qed.

Lemma s3_eviction_loops_end_witness :
  ∃ r s', evict_from_main (main_fuel (S3 [] [7; 8]%Z [] ∅ {[7 := 2; 8 := 1]}%Z 0 2 2))
            (S3 [] [7; 8]%Z [] ∅ {[7 := 2; 8 := 1]}%Z 0 2 2) = Some (r, s').
Proof.
  destruct (s3_eviction_loops_end (S3 [] [7; 8]%Z [] ∅ {[7 := 2; 8 := 1]}%Z 0 2 2)) as [(r & s' & H & _) _].
  - split; try done. apply map_Forall_insert_2; [cbn; lia|]. apply map_Forall_singleton. cbn; lia.
  - by exists r, s'.
Defined.

(** C37: S3-FIFO does not keep the contract of a cache policy: an entry that comes
    back from the ghost queue has no frequency, so a further insertion queues it
    again, and one call of [find_victim] then gives it out twice. *)
Theorem s3_fifo_duplicate_victim :
  (∃ s1 s2 s3 s4 s5,
     s3_notify_insert 5 TMemoryArrow s3_new = Ret s1 ∧ s3_find_victim 1 s1 = Ret ([5%Z], s2)
     ∧ s3_notify_insert 5 TMemoryArrow s2 = Ret s3 ∧ s3_notify_insert 5 TMemoryArrow s3 = Ret s4
     ∧ s3_find_victim 2 s4 = Ret ([5; 5]%Z, s5))
  ∧ ¬ inhabited (PolicyLaws S3FifoInternalState).
Proof.
  assert (∃ s1 s2 s3 s4 s5,
     s3_notify_insert 5 TMemoryArrow s3_new = Ret s1 ∧ s3_find_victim 1 s1 = Ret ([5%Z], s2)
     ∧ s3_notify_insert 5 TMemoryArrow s2 = Ret s3 ∧ s3_notify_insert 5 TMemoryArrow s3 = Ret s4
     ∧ s3_find_victim 2 s4 = Ret ([5; 5]%Z, s5)) as H.
  { eexists _, _, _, _, _. split; [vm_compute; reflexivity|]. split; [vm_compute; reflexivity|].
    split; [vm_compute; reflexivity|]. split; [vm_compute; reflexivity|]. vm_compute; reflexivity. }
  split; [exact H|]. intros [PL]. destruct H as (s1 & s2 & s3 & s4 & s5 & E1 & E2 & E3 & E4 & E5).
  destruct (policy_new_ok (S := S3FifoInternalState)) as [I0 _].
  destruct (notify_insert_ok 5 TMemoryArrow _ I0) as (t1 & F1 & I1 & _).
  assert (t1 = s1) as -> by (cbn in F1; congruence).
  destruct (find_victim_ok 1 _ I1) as (v2 & t2 & F2 & I2 & _).
  assert (t2 = s2) as -> by (cbn in F2; congruence).
  destruct (notify_insert_ok 5 TMemoryArrow _ I2) as (t3 & F3 & I3 & _).
  assert (t3 = s3) as -> by (cbn in F3; congruence).
  destruct (notify_insert_ok 5 TMemoryArrow _ I3) as (t4 & F4 & I4 & _).
  assert (t4 = s4) as -> by (cbn in F4; congruence).
  destruct (find_victim_ok 2 _ I4) as (v5 & t5 & F5 & _ & HP & _).
  assert (v5 = [5; 5]%Z) as -> by (cbn in F5; congruence).
  pose proof (tracked_NoDup _ I4) as ND. rewrite HP in ND.
  apply NoDup_app in ND as (ND & _). apply NoDup_cons in ND as [Hn _]. apply Hn. left.
Qed.
