(* ===== verification/Bytes.v ===== *)
(** * Bytes

    Buffers of bytes (lists of [Z] in [0, 256)), little-endian integers and
    slices with Rust's bounds checks.  Shared by the serialisation formats. *)

From stdpp Require Import base list.
From Stdlib Require Import ZArith Lia.
From S2P Require Import Prelude.
Local Open Scope Z_scope.

(** [to_le_bytes] of an [n]-byte integer. *)
Fixpoint le_bytes (n : nat) (z : Z) : list Z :=
  match n with
  | O => []
  | S n => z mod 256 :: le_bytes n (z / 256)
  end.

(** [from_le_bytes]. *)
Fixpoint le_val (bs : list Z) : Z :=
  match bs with
  | [] => 0
  | b :: bs => b + 256 * le_val bs
  end.

Definition is_byte (b : Z) : Prop := 0 <= b < 256.

(** [&l[start..start + len]]. *)
Definition slice {A} (l : list A) (start len : nat) : outcome (list A) :=
  if decide (start + len <= length l)%nat then Ret (take len (drop start l)) else Panic.

(** [x[i]]. *)
Definition index {A} (l : list A) (i : nat) : outcome A :=
  match l !! i with Some x => Ret x | None => Panic end.

(** [(n + 7) & !7]. *)
Definition align8 (n : nat) : nat := ((n + 7) / 8 * 8)%nat.

(** The words of [n] bytes each in a byte buffer, a trailing partial word
    dropped. *)
Fixpoint words_of (n : nat) (k : nat) (bs : list Z) : list Z :=
  match k with
  | O => []
  | S k => le_val (take n bs) :: words_of n k (drop n bs)
  end.

Lemma length_le_bytes n z : length (le_bytes n z) = n.
Proof. revert z. induction n as [|n IH]; intros z; simpl; [done|]. by rewrite IH. Qed.

Lemma le_bytes_byte n z : Forall is_byte (le_bytes n z).
Proof.
  revert z. induction n as [|n IH]; intros z; simpl; constructor; [|apply IH].
  unfold is_byte. apply Z.mod_pos_bound. lia.
Qed.

Lemma le_val_bytes n z : le_val (le_bytes n z) = z mod 2 ^ (8 * Z.of_nat n).
Proof.
  revert z. induction n as [|n IH]; intros z; simpl le_bytes; simpl le_val.
  - by rewrite Z.mod_1_r.
  - rewrite IH. replace (8 * Z.of_nat (S n)) with (8 + 8 * Z.of_nat n) by lia.
    rewrite Z.pow_add_r by lia. change (2 ^ 8) with 256.
    rewrite (Z.rem_mul_r z 256) by lia. lia.
Qed.

Lemma le_val_bytes_id n z : 0 <= z < 2 ^ (8 * Z.of_nat n) -> le_val (le_bytes n z) = z.
Proof. intros H. rewrite le_val_bytes. by apply Z.mod_small. Qed.

Lemma le_val_bound bs : Forall is_byte bs -> 0 <= le_val bs < 2 ^ (8 * Z.of_nat (length bs)).
Proof.
  induction 1 as [|b bs Hb _ IH]; simpl le_val; [simpl; lia|].
  replace (8 * Z.of_nat (length (b :: bs))) with (8 + 8 * Z.of_nat (length bs))
    by (simpl length; lia).
  rewrite Z.pow_add_r by lia. change (2 ^ 8) with 256. unfold is_byte in Hb. lia.
Qed.

Lemma slice_ok {A} (a b c : list A) start len :
  start = length a -> len = length b -> slice (a ++ b ++ c) start len = Ret b.
Proof.
  intros -> ->. unfold slice. rewrite decide_True by (rewrite !length_app; lia).
  by rewrite drop_app_length, take_app_length.
Qed.

Lemma slice_full {A} (a b : list A) start len :
  start = length a -> len = length b -> slice (a ++ b) start len = Ret b.
Proof. intros H1 H2. rewrite <- (app_nil_r b) at 1. by apply slice_ok. Qed.

Lemma align8_ge n : (n <= align8 n)%nat.
Proof. unfold align8. pose proof (Nat.div_mod (n + 7) 8). pose proof (Nat.mod_upper_bound (n + 7) 8). lia. Qed.

Lemma align8_mod n : (align8 n mod 8 = 0)%nat.
Proof. unfold align8. by apply Nat.Div0.mod_mul. Qed.

Lemma align8_lt n : (align8 n < n + 8)%nat.
Proof. unfold align8. pose proof (Nat.div_mod (n + 7) 8). pose proof (Nat.mod_upper_bound (n + 7) 8). lia. Qed.

Lemma words_of_concat n ws :
  words_of n (length ws) (concat (le_bytes n <$> ws)) = (λ z, z mod 2 ^ (8 * Z.of_nat n)) <$> ws.
Proof.
  induction ws as [|w ws IH]; [done|]. cbn [length words_of fmap list_fmap concat].
  rewrite take_app_length', drop_app_length' by (by rewrite length_le_bytes).
  rewrite le_val_bytes. f_equal. exact IH.
Qed.

Lemma length_concat_bytes n ws : length (concat (le_bytes n <$> ws)) = (length ws * n)%nat.
Proof.
  induction ws as [|w ws IH]; [done|]. cbn [fmap list_fmap concat].
  rewrite length_app, length_le_bytes. simpl in *. lia.
Qed.
