(* ===== verification/Arrow.v ===== *)
(** * The Arrow buffers and the FastLanes codec

    What the array formats use of two third-party crates: [arrow]'s null
    buffers and primitive arrays, and [fastlanes]' bit packing.  Each is a class
    of operations with the laws their documentation states; a concrete instance
    of each follows, on which every law is proved, so the hypotheses of the
    theorems that use them can hold. *)

From stdpp Require Import base list.
From Stdlib Require Import ZArith Lia.
From S2P Require Import Prelude Bytes.
Local Open Scope Z_scope.

(** A validity bitmap ([true] is valid) and the bytes it is stored in.
    [nb_offset] is the bit offset into its buffer, [nb_slice] the whole buffer,
    [nb_sliced] a copy with the offset removed. *)
Class NullBuffers : Type := {
  NullBuffer : Type;
  nb_bits : NullBuffer -> list bool;
  nb_offset : NullBuffer -> Z;
  nb_slice : NullBuffer -> list Z;
  nb_sliced : NullBuffer -> list Z;
  nb_of_bytes : list Z -> nat -> NullBuffer;
  nb_new_null : nat -> NullBuffer
}.

Class NullBufferLaws `{NullBuffers} : Prop := {
  nb_slice_bits n :
    nb_offset n = 0 -> nb_bits (nb_of_bytes (nb_slice n) (length (nb_bits n))) = nb_bits n;
  nb_sliced_bits n :
    nb_bits (nb_of_bytes (nb_sliced n) (length (nb_bits n))) = nb_bits n;
  nb_slice_length n :
    nb_offset n = 0 -> (length (nb_bits n) <= 8 * length (nb_slice n))%nat;
  nb_sliced_length n : (length (nb_bits n) <= 8 * length (nb_sliced n))%nat;
  nb_new_null_bits n : nb_bits (nb_new_null n) = replicate n false
}.

(** [PrimitiveArray]: the values buffer and the optional null buffer. *)
Record PrimitiveArray `{NullBuffers} : Type := Prim {
  pa_values : list Z;
  pa_nulls : option NullBuffer
}.
Arguments PrimitiveArray {_}.
Arguments Prim {_} pa_values pa_nulls.
Arguments pa_values {_} p.
Arguments pa_nulls {_} p.

(** The logical content: [None] where the bitmap is unset. *)
Definition mask_values (values : list Z) (valid : list bool) : list (option Z) :=
  zip_with (λ v (b : bool), if b then Some v else None) values valid.

Definition logical `{NullBuffers} (values : list Z) (nulls : option NullBuffer)
    : list (option Z) :=
  match nulls with
  | None => Some <$> values
  | Some n => mask_values values (nb_bits n)
  end.

Definition pa_logical `{NullBuffers} (a : PrimitiveArray) : list (option Z) :=
  logical (pa_values a) (pa_nulls a).

(** The values of the null buffer, or all valid. *)
Definition validity `{NullBuffers} (nulls : option NullBuffer) (len : nat) : list bool :=
  match nulls with Some n => nb_bits n | None => replicate len true end.

(** [BooleanArray::new]. *)
Definition boolean_array `{NullBuffers} (bits : list bool) (nulls : option NullBuffer) : list (option bool) :=
  zip_with (λ b (is_valid : bool), if is_valid then Some b else None) bits (validity nulls (length bits)).

(** A function on the valid values. *)
Definition map_valid (f : Z -> Z) (l : list (option Z)) : list (option Z) := option_map f <$> l.

Definition pa_wf `{NullBuffers} (a : PrimitiveArray) : Prop :=
  match pa_nulls a with
  | None => True
  | Some n => length (nb_bits n) = length (pa_values a)
  end.

Definition pa_new_null `{NullBuffers} (n : nat) : PrimitiveArray :=
  Prim (replicate n 0) (Some (nb_new_null n)).

#[global] Arguments pa_new_null : simpl never.
#[global] Arguments pa_logical : simpl never.

Definition null_count `{NullBuffers} (n : NullBuffer) : nat :=
  length (filter (λ b, b = false) (nb_bits n)).

Definition nulls_len `{NullBuffers} (nulls : option NullBuffer) (len : nat) : Prop :=
  match nulls with None => True | Some n => length (nb_bits n) = len end.

(** The length of a FastLanes chunk. *)
Definition CHUNK : nat := Z.to_nat 1024.

Lemma CHUNK_Z : Z.of_nat CHUNK = 1024.
Proof. reflexivity. Qed.

Lemma CHUNK_pos : (0 < CHUNK)%nat.
Proof. pose proof CHUNK_Z. lia. Qed.

#[global] Opaque CHUNK.

(** [BitPacking] on chunks of 1024 [w]-bit words: packing keeps the low [b] bits
    of each, in [1024 * b / w] words. *)
Class Fastlanes : Type := {
  fl_pack : Z -> nat -> list Z -> list Z;
  fl_unpack : Z -> nat -> list Z -> list Z
}.

Definition word_size (w : Z) : Prop := w = 8 \/ w = 16 \/ w = 32 \/ w = 64.

(** [(1024 * bit_width).div_ceil(size_of::<T>() * 8)]. *)
Definition packed_len (w : Z) (b : nat) : nat :=
  Z.to_nat ((1024 * Z.of_nat b + (w - 1)) / w).

Definition is_word (w z : Z) : Prop := 0 <= z < 2 ^ w.

Class FastlanesLaws `{Fastlanes} : Prop := {
  fl_pack_length w b vs :
    word_size w -> (1 <= Z.of_nat b <= w)%Z -> length vs = CHUNK ->
    length (fl_pack w b vs) = packed_len w b;
  fl_pack_words w b vs :
    word_size w -> (1 <= Z.of_nat b <= w)%Z -> length vs = CHUNK ->
    Forall (is_word w) (fl_pack w b vs);
  fl_unpack_pack w b vs :
    word_size w -> (1 <= Z.of_nat b <= w)%Z -> length vs = CHUNK -> Forall (is_word w) vs ->
    fl_unpack w b (fl_pack w b vs) = (λ v, v mod 2 ^ Z.of_nat b) <$> vs;
  fl_unpack_length w b ws : length ws = packed_len w b -> length (fl_unpack w b ws) = CHUNK
}.

(** ** Lemmas *)

Lemma logical_length `{NullBuffers} values nulls :
  nulls_len nulls (length values) -> length (logical values nulls) = length values.
Proof.
  destruct nulls as [n|]; simpl; [|by rewrite length_fmap].
  intros E. unfold mask_values. rewrite length_zip_with. lia.
Qed.

Lemma mask_none (values : list Z) n :
  length values = n -> mask_values values (replicate n false) = replicate n None.
Proof.
  revert n. induction values as [|v values IH]; intros [|n]; simpl; try done.
  intros [= E]. f_equal. by apply IH.
Qed.

Lemma all_null_bits (bits : list bool) :
  length (filter (λ b, b = false) bits) = length bits -> bits = replicate (length bits) false.
Proof.
  induction bits as [|b bits IH]; [done|]. destruct b.
  - rewrite filter_cons_False by done. intros E.
    pose proof (length_filter (λ b, b = false) bits). simpl in E. lia.
  - rewrite filter_cons_True by done. simpl. intros [= E]. f_equal. by apply IH.
Qed.

Lemma pa_new_null_logical `{NullBufferLaws} n : pa_logical (pa_new_null n) = replicate n None.
Proof.
  unfold pa_logical, pa_new_null, logical. simpl. rewrite nb_new_null_bits.
  apply mask_none. by rewrite length_replicate.
Qed.

(** ** A concrete instance of each *)

Fixpoint bits_val (bs : list bool) : Z :=
  match bs with [] => 0 | b :: bs => (if b then 1 else 0) + 2 * bits_val bs end.

Fixpoint byte_bits (n : nat) (z : Z) : list bool :=
  match n with O => [] | S n => (z mod 2 =? 1) :: byte_bits n (z / 2) end.

(** Eight bits per byte, least significant first. *)
Fixpoint pack_bits (fuel : nat) (bs : list bool) : list Z :=
  match fuel, bs with
  | O, _ | _, [] => []
  | S fuel, _ => bits_val (take 8 bs) :: pack_bits fuel (drop 8 bs)
  end.

#[export] Instance list_null_buffers : NullBuffers := {
  NullBuffer := list bool;
  nb_bits n := n;
  nb_offset _ := 0;
  nb_slice n := pack_bits (length n) n;
  nb_sliced n := pack_bits (length n) n;
  nb_of_bytes bytes len := take len (concat (byte_bits 8 <$> bytes));
  nb_new_null n := replicate n false
}.

Lemma byte_bits_val n bs : (length bs <= n)%nat ->
  byte_bits n (bits_val bs) = bs ++ replicate (n - length bs) false.
Proof.
  revert bs. induction n as [|n IH]; intros [|b bs] Hl; simpl in *; try done; try lia.
  - f_equal. specialize (IH [] ltac:(simpl; lia)). simpl in IH. rewrite Nat.sub_0_r in IH.
    exact IH.
  - f_equal.
    + destruct b; [|by rewrite Z.add_0_l, Z.mul_comm, Z.mod_mul].
      rewrite Z.add_comm, Z.mul_comm, Z.add_comm, Z_mod_plus_full. done.
    + rewrite <- IH by lia. f_equal. destruct b; Z.to_euclidean_division_equations; lia.
Qed.

Lemma pack_bits_unpack fuel bs : (length bs <= fuel)%nat ->
  take (length bs) (concat (byte_bits 8 <$> pack_bits fuel bs)) = bs.
Proof.
  revert bs. induction fuel as [|fuel IH]; intros bs Hl.
  { destruct bs; [done|simpl in Hl; lia]. }
  destruct bs as [|b bs]; [done|]. cbn [pack_bits fmap list_fmap concat].
  set (l := b :: bs) in *. rewrite byte_bits_val by (rewrite length_take; lia).
  destruct (decide (length l <= 8)%nat) as [Hs|Hs].
  - rewrite (take_ge l 8) by lia. rewrite <- app_assoc. by rewrite take_app_length.
  - rewrite length_take, Nat.min_l by lia. simpl (replicate (8 - 8) false). rewrite app_nil_r.
    rewrite <- (take_drop 8 l) at 1. rewrite length_app, take_app_ge by (rewrite length_take; lia).
    rewrite length_take, Nat.min_l by lia.
    replace (8 + length (drop 8 l) - 8)%nat with (length (drop 8 l)) by lia.
    rewrite IH by (rewrite length_drop; unfold l in *; simpl in *; lia).
    by rewrite take_drop.
Qed.

Lemma pack_bits_length fuel bs : (length bs <= fuel)%nat ->
  (length bs <= 8 * length (pack_bits fuel bs))%nat.
Proof.
  revert bs. induction fuel as [|fuel IH]; intros bs Hl.
  { destruct bs; [done|simpl in Hl; lia]. }
  destruct bs as [|b bs]; [done|]. set (l := b :: bs) in *.
  change (pack_bits (S fuel) l) with (bits_val (take 8 l) :: pack_bits fuel (drop 8 l)).
  specialize (IH (drop 8 l)). rewrite length_drop in IH.
  assert (length l - 8 <= fuel)%nat as H8 by (unfold l in *; simpl in *; lia).
  specialize (IH H8). cbn [length]. lia.
Qed.

#[export] Instance list_null_buffer_laws : NullBufferLaws.
Proof.
  split; simpl.
  - intros n _. by apply pack_bits_unpack.
  - intros n. by apply pack_bits_unpack.
  - intros n _. by apply pack_bits_length.
  - intros n. by apply pack_bits_length.
  - done.
Qed.

(** The chunk as one number in base [2 ^ b], then its digits in base [2 ^ w]. *)
Fixpoint base_val (b : Z) (vs : list Z) : Z :=
  match vs with [] => 0 | v :: vs => v mod 2 ^ b + 2 ^ b * base_val b vs end.

Fixpoint base_digits (w : Z) (n : nat) (z : Z) : list Z :=
  match n with O => [] | S n => z mod 2 ^ w :: base_digits w n (z / 2 ^ w) end.

#[export] Instance base_fastlanes : Fastlanes := {
  fl_pack w b vs := base_digits w (packed_len w b) (base_val (Z.of_nat b) vs);
  fl_unpack w b ws := base_digits (Z.of_nat b) CHUNK (base_val w ws)
}.

Lemma length_base_digits w n z : length (base_digits w n z) = n.
Proof. revert z. induction n as [|n IH]; intros z; simpl; [done|]. by rewrite IH. Qed.

Lemma base_digits_words w n z : 0 <= w -> Forall (is_word w) (base_digits w n z).
Proof.
  intros Hw. revert z. induction n as [|n IH]; intros z; simpl; constructor; [|apply IH].
  apply Z.mod_pos_bound. lia.
Qed.

Lemma base_val_bound b vs : 0 <= b -> 0 <= base_val b vs < 2 ^ (b * Z.of_nat (length vs)).
Proof.
  intros Hb. induction vs as [|v vs IH]; simpl base_val.
  { rewrite Z.mul_0_r. simpl. lia. }
  replace (b * Z.of_nat (length (v :: vs))) with (b + b * Z.of_nat (length vs))
    by (simpl length; lia).
  rewrite Z.pow_add_r by lia. pose proof (Z.mod_pos_bound v (2 ^ b) ltac:(lia)). nia.
Qed.

Lemma base_val_digits w n z : 0 <= w ->
  base_val w (base_digits w n z) = z mod 2 ^ (w * Z.of_nat n).
Proof.
  intros Hw. revert z. induction n as [|n IH]; intros z; simpl base_digits; simpl base_val.
  { rewrite Z.mul_0_r. by rewrite Z.mod_1_r. }
  rewrite IH, Z.mod_mod by lia.
  replace (w * Z.of_nat (S n)) with (w + w * Z.of_nat n) by lia.
  rewrite Z.pow_add_r by lia. rewrite (Z.rem_mul_r z (2 ^ w)) by lia. lia.
Qed.

Lemma base_digits_val b n vs : 0 <= b -> length vs = n ->
  base_digits b n (base_val b vs) = (λ v, v mod 2 ^ b) <$> vs.
Proof.
  intros Hb. revert vs. induction n as [|n IH]; intros [|v vs]; simpl; try done.
  intros [= E]. pose proof (Z.mod_pos_bound v (2 ^ b) ltac:(lia)). f_equal.
  - rewrite Z.mul_comm, Z_mod_plus_full. by apply Z.mod_mod; lia.
  - rewrite <- IH by done. f_equal. rewrite Z.mul_comm, Z_div_plus_full by lia.
    rewrite Z.div_small by lia. lia.
Qed.

Lemma packed_len_bits w b : word_size w -> (1 <= Z.of_nat b <= w) ->
  w * Z.of_nat (packed_len w b) = 1024 * Z.of_nat b.
Proof.
  intros Hw Hb. unfold packed_len.
  rewrite Z2Nat.id by (apply Z.div_pos; destruct Hw as [->|[->|[->| ->]]]; lia).
  destruct Hw as [->|[->|[->| ->]]]; Z.to_euclidean_division_equations; lia.
Qed.

#[export] Instance base_fastlanes_laws : FastlanesLaws.
Proof.
  split; unfold fl_pack, fl_unpack, base_fastlanes.
  - intros w b vs _ _ _. apply length_base_digits.
  - intros w b vs Hw _ _. apply base_digits_words. destruct Hw as [->|[->|[->| ->]]]; lia.
  - intros w b vs Hw Hb Hl _.
    rewrite base_val_digits by (destruct Hw as [->|[->|[->| ->]]]; lia).
    rewrite packed_len_bits by done.
    pose proof (base_val_bound (Z.of_nat b) vs ltac:(lia)) as B. rewrite Hl in B.
    rewrite CHUNK_Z in B. rewrite (Z.mul_comm 1024).
    rewrite (Z.mod_small (base_val _ _)) by exact B.
    apply base_digits_val; [lia|done].
  - intros w b ws _. apply length_base_digits.
Qed.
