(* ===== verification/BitPack.v ===== *)
(** * Bit-packed arrays

    Model of [src/src/storage/src/liquid_array/raw/bit_pack_array.rs] and of
    [get_bit_width] in [src/src/storage/src/utils/mod.rs], over the buffers and the
    codec of [Arrow.v].  A native word of [w] bits is a [Z] in [0, 2^w); the
    target is little-endian. *)

From stdpp Require Import base list.
From Stdlib Require Import ZArith Lia.
From S2P Require Import Prelude Bytes Arrow.
Local Open Scope Z_scope.

(** [u64::leading_zeros]. *)
Definition leading_zeros (x : Z) : Z := if x =? 0 then 64 else 63 - Z.log2 x.

Definition get_bit_width (max_value : Z) : Z :=
  if max_value =? 0 then 1 else wrapu 8 (64 - leading_zeros max_value).

Section bit_packed.
Context `{NullBuffers} `{Fastlanes} (w : Z).

Record BitPackedArray : Type := BitPacked {
  packed_values : list Z;
  bp_nulls : option NullBuffer;
  bp_bit_width : option nat;
  original_len : nat
}.

Definition bp_new_null_array (len : nat) : BitPackedArray :=
  BitPacked (replicate len 0) (Some (nb_new_null len)) None len.

Definition bp_len (a : BitPackedArray) : nat := original_len a.

Definition div_ceil (a b : nat) : nat := ((a + (b - 1)) / b)%nat.

(** Full chunks, then the last one padded with the default value. *)
Definition bp_from_primitive (array : PrimitiveArray) (bit_width : nat) : BitPackedArray :=
  let values := pa_values array in
  let original_len := length values in
  let num_chunks := div_ceil original_len CHUNK in
  let num_full_chunks := (original_len / CHUNK)%nat in
  let output :=
    concat ((λ i, fl_pack w bit_width (take CHUNK (drop (i * CHUNK) values)))
              <$> seq 0 num_full_chunks) in
  let output :=
    if decide (num_chunks = num_full_chunks) then output
    else
      let last_chunk_size := (length values mod CHUNK)%nat in
      let last_chunk :=
        drop (length values - last_chunk_size) values ++ replicate (CHUNK - last_chunk_size) 0 in
      output ++ fl_pack w bit_width last_chunk in
  BitPacked output (pa_nulls array) (Some bit_width) original_len.

(** [&packed[i * elements_per_chunk..][0..elements_per_chunk]] for every chunk. *)
Fixpoint unpack_chunks (bit_width epc : nat) (packed : list Z) (i : nat) (n : nat)
    : outcome (list Z) :=
  match n with
  | O => Ret []
  | S n =>
      chunk ← slice packed (i * epc) epc;
      rest ← unpack_chunks bit_width epc packed (S i) n;
      Ret (fl_unpack w bit_width chunk ++ rest)
  end.

Definition bp_to_primitive (a : BitPackedArray) : outcome PrimitiveArray :=
  match bp_bit_width a with
  | None => Ret (pa_new_null (original_len a))
  | Some bit_width =>
      let length := original_len a in
      let num_chunks := div_ceil length CHUNK in
      let elements_per_chunk := packed_len w bit_width in
      output ← unpack_chunks bit_width elements_per_chunk (packed_values a) 0 num_chunks;
      Ret (Prim (take length output) (bp_nulls a))
  end.

Definition native_bytes : nat := Z.to_nat (w / 8).

(** The bytes appended to the buffer, whatever it already holds. *)
Definition bp_to_bytes (a : BitPackedArray) : list Z :=
  let has_nulls := match bp_nulls a with Some _ => true | None => false end in
  let nulls_bytes :=
    match bp_nulls a with
    | Some n => if nb_offset n =? 0 then nb_slice n else nb_sliced n
    | None => []
    end in
  let values_bytes := concat (le_bytes native_bytes <$> packed_values a) in
  let values_offset_base := (16 + if has_nulls then length nulls_bytes else 0)%nat in
  let values_offset := align8 values_offset_base in
  let header :=
    le_bytes 4 (Z.of_nat (original_len a))
    ++ [match bp_bit_width a with Some b => Z.of_nat b | None => 0 end;
        if has_nulls then 1 else 0]
    ++ le_bytes 4 (Z.of_nat (length nulls_bytes))
    ++ le_bytes 4 (Z.of_nat (length values_bytes))
    ++ [0; 0] in
  let body := header ++ (if has_nulls then nulls_bytes else []) in
  body ++ replicate (values_offset - length body) 0 ++ values_bytes.

Definition bp_from_bytes (bytes : list Z) : outcome BitPackedArray :=
  if decide (length bytes < 16)%nat then Panic else
  let original_len := Z.to_nat (le_val (take 4 bytes)) in
  let bit_width := nth 4 bytes 0 in
  let has_nulls := negb (nth 5 bytes 0 =? 0) in
  let nulls_len := Z.to_nat (le_val (take 4 (drop 6 bytes))) in
  let values_len := Z.to_nat (le_val (take 4 (drop 10 bytes))) in
  let nulls_offset := if has_nulls then 16%nat else 0%nat in
  let values_offset_base := (16 + if has_nulls then nulls_len else 0)%nat in
  let values_offset := align8 values_offset_base in
  if decide (values_len = 0%nat) then Ret (bp_new_null_array original_len) else
  if has_nulls && (bool_decide (nulls_len = 0%nat)
                   || bool_decide (length bytes < nulls_offset + nulls_len)%nat) then Panic else
  if decide (length bytes < values_offset + values_len)%nat then Panic else
  nulls ← (if has_nulls
           then b ← slice bytes nulls_offset nulls_len;
                if decide (8 * nulls_len < original_len)%nat then Panic
                else Ret (Some (nb_of_bytes b original_len))
           else Ret None);
  values ← slice bytes values_offset values_len;
  let packed_len := (values_len / native_bytes)%nat in
  let packed_values := words_of native_bytes packed_len values in
  match nulls with
  | Some n =>
      if decide (null_count n = original_len) then Ret (bp_new_null_array original_len)
      else if bit_width =? 0 then Panic
      else Ret (BitPacked packed_values nulls (Some (Z.to_nat bit_width)) original_len)
  | None =>
      if bit_width =? 0 then Panic
      else Ret (BitPacked packed_values nulls (Some (Z.to_nat bit_width)) original_len)
  end.

(** The logical content of a bit-packed array, as [to_primitive] gives it. *)
Definition bp_logical (a : BitPackedArray) : outcome (list (option Z)) :=
  p ← bp_to_primitive a; Ret (pa_logical p).

(** What the constructors establish: the packed words are complete chunks, the
    null buffer covers the array, and an array without a width is all null. *)
Record bp_wf (a : BitPackedArray) : Prop := {
  bpw_width b : bp_bit_width a = Some b -> (1 <= Z.of_nat b <= w);
  bpw_chunks b : bp_bit_width a = Some b ->
    length (packed_values a) = (div_ceil (original_len a) CHUNK * packed_len w b)%nat;
  bpw_words : Forall (is_word w) (packed_values a);
  bpw_nulls : nulls_len (bp_nulls a) (original_len a);
  bpw_null : bp_bit_width a = None ->
    (∃ n, bp_nulls a = Some n ∧ nb_bits n = replicate (original_len a) false)
    ∧ length (packed_values a) = original_len a
}.
End bit_packed.
Arguments BitPackedArray {_}.
Arguments BitPacked {_} packed_values bp_nulls bp_bit_width original_len.
Arguments packed_values {_} b.
Arguments bp_nulls {_} b.
Arguments bp_bit_width {_} b.
Arguments original_len {_} b.
Arguments bp_new_null_array {_} len.
Arguments bp_len {_} a.

(** ** The bit width *)

Lemma get_bit_width_log v : 0 < v < 2 ^ 64 -> get_bit_width v = Z.log2 v + 1.
Proof.
  intros H. unfold get_bit_width, leading_zeros.
  destruct (v =? 0) eqn:E; [lia|].
  assert (0 <= Z.log2 v < 64).
  { split; [apply Z.log2_nonneg|]. apply Z.log2_lt_pow2; lia. }
  rewrite wrapu_id; lia.
Qed.

Lemma get_bit_width_range v : 0 <= v < 2 ^ 64 ->
  1 <= get_bit_width v <= 64 /\ v < 2 ^ get_bit_width v.
Proof.
  intros H. destruct (Z.eq_dec v 0) as [->|Hv]; [unfold get_bit_width; simpl; lia|].
  rewrite get_bit_width_log by lia. pose proof (Z.log2_spec v ltac:(lia)) as [_ L].
  replace (Z.succ (Z.log2 v)) with (Z.log2 v + 1) in L by lia.
  pose proof (Z.log2_nonneg v). pose proof (Z.log2_lt_pow2 v 64 ltac:(lia)) as [Hl _].
  specialize (Hl ltac:(lia)). lia.
Qed.

Lemma get_bit_width_least v b : 0 <= v < 2 ^ 64 -> 1 <= b -> v < 2 ^ b -> get_bit_width v <= b.
Proof.
  intros H Hb Hv. destruct (Z.eq_dec v 0) as [->|Hn]; [unfold get_bit_width; simpl; lia|].
  rewrite get_bit_width_log by lia.
  pose proof (Z.log2_lt_pow2 v b ltac:(lia)) as [Hl _]. specialize (Hl Hv). lia.
Qed.

(** ** Chunks *)

(** The [i]-th chunk of 1024 values, padded with zeros. *)
Definition chunk (values : list Z) (i : nat) : list Z :=
  let c := take CHUNK (drop (i * CHUNK) values) in c ++ replicate (CHUNK - length c) 0.

Lemma div_ceil_cases n c : (0 < c)%nat ->
  (div_ceil n c = n / c ∧ n mod c = 0 ∨ div_ceil n c = S (n / c) ∧ n mod c ≠ 0)%nat.
Proof.
  intros Hc. unfold div_ceil. pose proof (Nat.div_mod n c ltac:(lia)) as E.
  pose proof (Nat.mod_upper_bound n c ltac:(lia)).
  destruct (decide (n mod c = 0)%nat) as [Hr|Hr]; [left|right]; split; try done; symmetry.
  - apply (Nat.div_unique _ c _ (c - 1)); lia.
  - apply (Nat.div_unique _ c _ (n mod c - 1)); lia.
Qed.

Lemma div_ceil_ge n c : (0 < c)%nat -> (n <= div_ceil n c * c)%nat.
Proof.
  intros Hc. pose proof (Nat.div_mod n c ltac:(lia)).
  pose proof (Nat.mod_upper_bound n c ltac:(lia)).
  destruct (div_ceil_cases n c Hc) as [[-> Hr]|[-> Hr]]; lia.
Qed.

Lemma length_chunk values i : length (chunk values i) = CHUNK.
Proof. unfold chunk. rewrite length_app, length_replicate, length_take. lia. Qed.

Lemma chunk_S values i : chunk values (S i) = chunk (drop CHUNK values) i.
Proof.
  unfold chunk. rewrite drop_drop. replace (CHUNK + i * CHUNK)%nat with (S i * CHUNK)%nat by lia. done.
Qed.

Lemma concat_chunks n values : (length values <= n * CHUNK)%nat ->
  take (length values) (concat (chunk values <$> seq 0 n)) = values.
Proof.
  revert values. induction n as [|n IH]; intros values Hl.
  { destruct values; [done|simpl in Hl; lia]. }
  cbn [seq fmap list_fmap concat].
  assert (chunk values <$> seq 1 n = chunk (drop CHUNK values) <$> seq 0 n) as E.
  { rewrite <- fmap_S_seq, <- list_fmap_compose. apply list_fmap_ext. intros i x _.
    unfold compose. apply chunk_S. }
  rewrite E. unfold chunk at 1. rewrite Nat.mul_0_l, drop_0.
  destruct (decide (length values <= CHUNK)%nat) as [Hs|Hs].
  - rewrite (take_ge values) by lia. rewrite <- app_assoc. by rewrite take_app_length.
  - rewrite length_take, Nat.min_l by lia.
    rewrite Nat.sub_diag. cbn [replicate]. rewrite app_nil_r.
    rewrite take_app_ge by (rewrite length_take; lia).
    rewrite length_take, Nat.min_l by lia.
    rewrite <- length_drop. rewrite IH by (rewrite length_drop; lia). apply take_drop.
Qed.

Lemma chunk_full values i : (S i * CHUNK <= length values)%nat ->
  chunk values i = take CHUNK (drop (i * CHUNK) values).
Proof.
  intros Hl. unfold chunk. rewrite length_take, length_drop, Nat.min_l by lia.
  rewrite Nat.sub_diag. apply app_nil_r.
Qed.

Lemma chunk_words w values i : 0 <= w -> Forall (is_word w) values -> Forall (is_word w) (chunk values i).
Proof.
  intros Hw F. unfold chunk. apply Forall_app. split.
  - by apply Forall_take, Forall_drop.
  - apply Forall_replicate. unfold is_word. lia.
Qed.

Section bit_packed_lemmas.
Context `{NullBufferLaws} `{FastlanesLaws} (w : Z) (Hw : word_size w).

Lemma word_size_pos : 8 <= w <= 64.
Proof using Hw. destruct Hw as [->|[->|[->| ->]]]; lia. Qed.

(** The packed buffer is the chunks, each packed. *)
Lemma from_primitive_chunks a b :
  packed_values (bp_from_primitive w a b)
  = concat ((λ i, fl_pack w b (chunk (pa_values a) i))
              <$> seq 0 (div_ceil (length (pa_values a)) CHUNK)).
Proof.
  pose proof CHUNK_pos as HC. unfold bp_from_primitive. cbn [packed_values]. set (vs := pa_values a).
  assert (∀ k, (k <= length vs / CHUNK)%nat →
    (λ i, fl_pack w b (take CHUNK (drop (i * CHUNK) vs))) <$> seq 0 k
    = (λ i, fl_pack w b (chunk vs i)) <$> seq 0 k) as Efull.
  { intros k Hk. apply list_fmap_ext. intros j i [-> Hi]%lookup_seq. rewrite chunk_full; [reflexivity|].
    pose proof (Nat.div_mod (length vs) CHUNK ltac:(lia)). nia. }
  rewrite Efull by lia. case_decide as E; [by rewrite E|].
  assert (div_ceil (length vs) CHUNK = S (length vs / CHUNK)) as ->.
  { destruct (div_ceil_cases (length vs) CHUNK HC) as [[? _]|[? _]]; done. }
  rewrite seq_S, fmap_app, concat_app. f_equal. cbn [fmap list_fmap concat Nat.add].
  rewrite app_nil_r. f_equal. unfold chunk.
  pose proof (Nat.div_mod (length vs) CHUNK ltac:(lia)).
  pose proof (Nat.mod_upper_bound (length vs) CHUNK ltac:(lia)).
  replace (length vs / CHUNK * CHUNK)%nat with (length vs - length vs mod CHUNK)%nat by lia.
  rewrite (take_ge (drop _ _)) by (rewrite length_drop; lia).
  rewrite length_drop. do 2 f_equal. lia.
Qed.

Lemma unpack_chunks_ok b epc (ps : list (list Z)) pre post i :
  Forall (λ p, length p = epc) ps -> length pre = (i * epc)%nat ->
  unpack_chunks w b epc (pre ++ concat ps ++ post) i (length ps)
  = Ret (concat (fl_unpack w b <$> ps)).
Proof.
  revert pre i. induction ps as [|p ps IH]; intros pre i F Hpre; [done|].
  apply Forall_cons in F as [Hp F]. cbn [length unpack_chunks concat].
  rewrite <- app_assoc, slice_ok by done. simpl.
  rewrite app_assoc, IH; [done|done|]. rewrite length_app. lia.
Qed.

(** Packing and unpacking keeps the low bits of every value, and the nulls. *)
Lemma bp_roundtrip a b :
  Forall (is_word w) (pa_values a) -> 1 <= Z.of_nat b <= w ->
  bp_to_primitive w (bp_from_primitive w a b)
  = Ret (Prim ((λ v, v mod 2 ^ Z.of_nat b) <$> pa_values a) (pa_nulls a)).
Proof.
  pose proof CHUNK_pos as HC. intros F Hb. pose proof word_size_pos as Hwp. unfold bp_to_primitive.
  rewrite from_primitive_chunks. cbn [bp_bit_width original_len bp_nulls bp_from_primitive].
  set (vs := pa_values a) in *. set (n := div_ceil (length vs) CHUNK).
  set (ps := (λ i, fl_pack w b (chunk vs i)) <$> seq 0 n).
  assert (length ps = n) as Hn by (unfold ps; by rewrite length_fmap, length_seq).
  assert (Forall (λ p, length p = packed_len w b) ps) as Fps.
  { apply Forall_fmap, Forall_forall. intros i _. simpl.
    apply fl_pack_length; [done|done|apply length_chunk]. }
  pose proof (unpack_chunks_ok b (packed_len w b) ps [] [] 0 Fps eq_refl) as E.
  rewrite app_nil_r, app_nil_l, Hn in E. rewrite E. simpl. do 2 f_equal.
  assert (concat (fl_unpack w b <$> ps)
          = (λ v, v mod 2 ^ Z.of_nat b) <$> concat (chunk vs <$> seq 0 n)) as ->.
  { unfold ps. clear E Fps Hn ps. induction (seq 0 n) as [|i l IH]; [done|].
    cbn [fmap list_fmap concat]. rewrite fmap_app. f_equal; [|exact IH].
    apply fl_unpack_pack; [done|done|apply length_chunk|apply chunk_words; [lia|done]]. }
  rewrite <- fmap_take. f_equal. apply concat_chunks, div_ceil_ge, HC.
Qed.

Lemma bp_from_primitive_wf a b :
  pa_wf a -> 1 <= Z.of_nat b <= w -> bp_wf w (bp_from_primitive w a b).
Proof.
  intros Hwf Hb. split.
  - intros b' [= <-]. done.
  - intros b' [= <-]. rewrite from_primitive_chunks. cbn [original_len bp_from_primitive].
    set (n := div_ceil _ _). rewrite <- (length_seq n 0) at 2.
    induction (seq 0 n) as [|i l IH]; [done|]. cbn [fmap list_fmap concat].
    rewrite length_app, fl_pack_length by (try done; apply length_chunk).
    rewrite IH. simpl. lia.
  - rewrite from_primitive_chunks. apply Forall_concat, Forall_fmap, Forall_forall.
    intros i _. simpl. apply fl_pack_words; [done|done|apply length_chunk].
  - exact Hwf.
  - done.
Qed.

(** A well-formed array unpacks to as many values as it has entries. *)
Lemma unpack_chunks_len b packed i n :
  ((i + n) * packed_len w b <= length packed)%nat ->
  ∃ out, unpack_chunks w b (packed_len w b) packed i n = Ret out ∧ length out = (n * CHUNK)%nat.
Proof.
  revert i. induction n as [|n IH]; intros i Hl; [by exists []|]. cbn [unpack_chunks].
  assert (i * packed_len w b + packed_len w b <= length packed)%nat as Hs by lia.
  unfold slice. rewrite decide_True by done. run_step.
  destruct (IH (S i)) as (out & -> & Hout); [lia|]. cbn.
  eexists. split; [done|]. rewrite length_app, Hout, fl_unpack_length; [lia|].
  rewrite length_take, length_drop. lia.
Qed.

Lemma bp_to_primitive_wf a :
  bp_wf w a ->
  ∃ p, bp_to_primitive w a = Ret p ∧ length (pa_values p) = original_len a
       ∧ (bp_bit_width a ≠ None → pa_nulls p = bp_nulls a)
       ∧ (bp_bit_width a = None → pa_logical p = replicate (original_len a) None).
Proof.
  intros Wf. unfold bp_to_primitive. destruct (bp_bit_width a) as [b|] eqn:Eb.
  - destruct (unpack_chunks_len b (packed_values a) 0 (div_ceil (original_len a) CHUNK))
      as (out & -> & Hout); [by rewrite (bpw_chunks _ _ Wf b Eb)|].
    cbn. eexists. split; [done|]. split; [|done]. cbn. rewrite length_take.
    pose proof (div_ceil_ge (original_len a) CHUNK CHUNK_pos). lia.
  - eexists. split; [done|]. split; [cbn; apply length_replicate|]. split; [done|].
    intros _. apply pa_new_null_logical.
Qed.

Lemma bp_new_null_logical n : bp_logical w (bp_new_null_array n) = Ret (replicate n None).
Proof. unfold bp_logical, bp_new_null_array. cbn. by rewrite pa_new_null_logical. Qed.

Lemma bp_new_null_wf n : bp_wf w (bp_new_null_array n).
Proof.
  split; cbn; try done.
  - apply Forall_replicate. unfold is_word. pose proof word_size_pos. lia.
  - by rewrite nb_new_null_bits, length_replicate.
  - intros _. split; [|apply length_replicate]. eexists. split; [done|]. apply nb_new_null_bits.
Qed.

(** An array whose bitmap is all unset reads as nulls. *)
Lemma bp_all_null a n :
  bp_wf w a -> bp_nulls a = Some n -> nb_bits n = replicate (original_len a) false ->
  bp_logical w a = Ret (replicate (original_len a) None).
Proof.
  intros Wf En Eb. destruct (bp_to_primitive_wf a Wf) as (p & E & Hl & Hn & Hnone).
  unfold bp_logical. rewrite E. cbn. f_equal. destruct (bp_bit_width a) eqn:Ew; [|by rewrite Hnone].
  unfold pa_logical. rewrite Hn, En by done. cbn. rewrite Eb. by apply mask_none.
Qed.

(** Replacing the null buffer by one with the same bits changes nothing. *)
Lemma bp_logical_nulls packed n n' b len :
  nb_bits n = nb_bits n' ->
  bp_logical w (BitPacked packed (Some n) (Some b) len)
  = bp_logical w (BitPacked packed (Some n') (Some b) len).
Proof.
  intros E. unfold bp_logical, bp_to_primitive. cbn.
  destruct (unpack_chunks w b _ _ _ _); cbn; [|done..]. unfold pa_logical. cbn. by rewrite E.
Qed.

Definition nulls_bytes (a : BitPackedArray) : list Z :=
  match bp_nulls a with
  | Some n => if nb_offset n =? 0 then nb_slice n else nb_sliced n
  | None => []
  end.

Lemma nulls_bytes_bits a n :
  bp_nulls a = Some n ->
  nb_bits (nb_of_bytes (nulls_bytes a) (length (nb_bits n))) = nb_bits n
  ∧ (length (nb_bits n) <= 8 * length (nulls_bytes a))%nat.
Proof.
  intros E. unfold nulls_bytes. rewrite E. destruct (nb_offset n =? 0) eqn:E0.
  - split; [by apply nb_slice_bits; lia|by apply nb_slice_length; lia].
  - split; [apply nb_sliced_bits|apply nb_sliced_length].
Qed.

Lemma native_bytes_bits : 8 * Z.of_nat (native_bytes w) = w /\ (0 < native_bytes w)%nat.
Proof using Hw. unfold native_bytes. by destruct Hw as [->|[->|[->| ->]]]; split; try done; apply Nat.lt_0_succ. Qed.

(** Reading the header fields back. *)
Lemma header_fields (h1 h2 h3 rest : list Z) x y :
  length h1 = 4%nat -> length h2 = 4%nat -> length h3 = 4%nat ->
  let bytes := h1 ++ [x; y] ++ h2 ++ h3 ++ [0; 0] ++ rest in
  take 4 bytes = h1 ∧ nth 4 bytes 0 = x ∧ nth 5 bytes 0 = y
  ∧ take 4 (drop 6 bytes) = h2 ∧ take 4 (drop 10 bytes) = h3
  ∧ length bytes = (16 + length rest)%nat.
Proof.
  intros L1 L2 L3. do 5 (destruct h1 as [|? h1]; try done). do 5 (destruct h2 as [|? h2]; try done).
  by do 5 (destruct h3 as [|? h3]; try done).
Qed.

Lemma bp_bytes_shape a :
  let vb := concat (le_bytes (native_bytes w) <$> packed_values a) in
  let nb := nulls_bytes a in
  let pad := (align8 (16 + length nb) - (16 + length nb))%nat in
  bp_to_bytes w a
  = le_bytes 4 (Z.of_nat (original_len a))
    ++ [match bp_bit_width a with Some b => Z.of_nat b | None => 0 end;
        match bp_nulls a with Some _ => 1 | None => 0 end]
    ++ le_bytes 4 (Z.of_nat (length nb)) ++ le_bytes 4 (Z.of_nat (length vb)) ++ [0; 0]
    ++ nb ++ replicate pad 0 ++ vb.
Proof.
  intros vb nb pad. unfold pad, nb, vb, bp_to_bytes, nulls_bytes. clear.
  destruct (bp_nulls a) as [n|]; cbn [app]; rewrite <- !app_assoc; cbn [app].
  - reflexivity.
  - reflexivity.
Qed.

(** The fields fit their headers. *)
Definition bp_fits (a : BitPackedArray) : Prop :=
  Z.of_nat (original_len a) < 2 ^ 32 ∧ Z.of_nat (length (nulls_bytes a)) < 2 ^ 32
  ∧ Z.of_nat (length (packed_values a) * native_bytes w) < 2 ^ 32.

Lemma header_len n : Z.of_nat n < 2 ^ 32 -> Z.to_nat (le_val (le_bytes 4 (Z.of_nat n))) = n.
Proof. intros Hn. rewrite le_val_bytes_id by (change (8 * Z.of_nat 4) with 32; lia). lia. Qed.

Lemma packed_words_back a :
  bp_wf w a ->
  words_of (native_bytes w) (length (packed_values a) * native_bytes w / native_bytes w)
    (concat (le_bytes (native_bytes w) <$> packed_values a)) = packed_values a.
Proof.
  intros Wf. destruct native_bytes_bits as [E8 Hp]. rewrite Nat.div_mul by lia.
  rewrite words_of_concat, E8. apply fmap_id_on. intros z Hz.
  pose proof (proj1 (Forall_forall _ _) (bpw_words _ _ Wf) z Hz) as Hw'.
  by apply Z.mod_small.
Qed.

(** No packed word: the array is empty or has no width. *)
Lemma bp_no_values a :
  bp_wf w a -> length (packed_values a) = 0%nat -> bp_logical w a = Ret (replicate (original_len a) None).
Proof.
  intros Wf E. destruct (bp_bit_width a) as [b|] eqn:Eb.
  - pose proof (bpw_chunks _ _ Wf b Eb) as Hc. rewrite E in Hc.
    assert (0 < packed_len w b)%nat.
    { pose proof (packed_len_bits w b Hw (bpw_width _ _ Wf b Eb)) as Hb.
      pose proof (bpw_width _ _ Wf b Eb). nia. }
    pose proof (div_ceil_ge (original_len a) CHUNK CHUNK_pos).
    assert (original_len a = 0%nat) as E0 by nia.
    destruct (bp_to_primitive_wf a Wf) as (p & Ep & Hl & Hn & _).
    unfold bp_logical. rewrite Ep. cbn. rewrite E0 in *. destruct p as [[|v vs] ns]; [|done].
    unfold pa_logical, logical. cbn. destruct ns as [n|]; [|done]. unfold mask_values. done.
  - destruct (bpw_null _ _ Wf Eb) as [(n & En & Eb') _]. by eapply bp_all_null.
Qed.

Lemma bp_nulls_case a n :
  bp_wf w a -> bp_nulls a = Some n ->
  let n' := nb_of_bytes (nulls_bytes a) (original_len a) in
  nb_bits n' = nb_bits n
  ∧ (null_count n' = original_len a -> bp_logical w a = Ret (replicate (original_len a) None))
  ∧ (null_count n' ≠ original_len a -> bp_bit_width a ≠ None).
Proof.
  intros Wf En n'. pose proof (bpw_nulls _ _ Wf) as Hl. rewrite En in Hl. cbn in Hl.
  destruct (nulls_bytes_bits a n En) as [Eb _]. rewrite Hl in Eb. fold n' in Eb.
  split; [done|]. unfold null_count. rewrite Eb. split.
  - intros Hc. eapply bp_all_null; [done|done|]. rewrite <- Hl. apply all_null_bits. by rewrite Hl.
  - intros Hc Hw0. destruct (bpw_null _ _ Wf Hw0) as [(m & Em & Ebm) _].
    rewrite En in Em. injection Em as <-. apply Hc. rewrite Ebm. clear.
    induction (original_len a) as [|k IH]; [done|]. cbn [replicate].
    rewrite filter_cons_True by done. cbn [length]. by rewrite IH.
Qed.

(** What [from_bytes] makes of a buffer with a given header, null bytes and a
    non-empty values section. *)
Lemma bp_from_bytes_shape len bw (hasn : bool) nb vb :
  Z.of_nat len < 2 ^ 32 -> Z.of_nat (length nb) < 2 ^ 32 -> Z.of_nat (length vb) < 2 ^ 32 ->
  length vb ≠ 0%nat ->
  (if hasn then length nb ≠ 0%nat ∧ (len <= 8 * length nb)%nat else nb = []) ->
  let pad := (align8 (16 + length nb) - (16 + length nb))%nat in
  let nulls := if hasn then Some (nb_of_bytes nb len) else None in
  let all_null := match nulls with Some n => bool_decide (null_count n = len) | None => false end in
  bp_from_bytes w
    (le_bytes 4 (Z.of_nat len) ++ [bw; if hasn then 1 else 0] ++ le_bytes 4 (Z.of_nat (length nb))
     ++ le_bytes 4 (Z.of_nat (length vb)) ++ [0; 0] ++ nb ++ replicate pad 0 ++ vb)
  = if all_null then Ret (bp_new_null_array len)
    else if bw =? 0 then Panic
    else Ret (BitPacked (words_of (native_bytes w) (length vb / native_bytes w) vb)
                nulls (Some (Z.to_nat bw)) len).
Proof.
  intros Hlen Hnb Hvb Ev Hn pad nulls all_null.
  set (hn := if hasn then 1 else 0).
  destruct (header_fields (le_bytes 4 (Z.of_nat len)) (le_bytes 4 (Z.of_nat (length nb)))
     (le_bytes 4 (Z.of_nat (length vb))) (nb ++ replicate pad 0 ++ vb) bw hn)
    as (E1 & E2 & E3 & E4 & E5 & E6); [apply length_le_bytes..|].
  cbv zeta in E1, E2, E3, E4, E5, E6.
  set (bytes := le_bytes 4 (Z.of_nat len) ++ _) in *.
  unfold bp_from_bytes. rewrite E1, E2, E3, E4, E5, E6.
  rewrite (header_len _ Hlen), (header_len _ Hnb), (header_len _ Hvb). rewrite decide_False by lia.
  clear E1 E2 E3 E4 E5. rewrite (decide_False (P := length vb = 0%nat)) by done.
  assert (align8 (16 + length nb) = 16 + length nb + pad)%nat as Eal.
  { unfold pad. pose proof (align8_ge (16 + length nb)). lia. }
  assert (slice bytes (align8 (16 + length nb)) (length vb) = Ret vb) as Evs.
  { replace bytes with ((le_bytes 4 (Z.of_nat len) ++ [bw; hn]
        ++ le_bytes 4 (Z.of_nat (length nb)) ++ le_bytes 4 (Z.of_nat (length vb)) ++ [0; 0]
        ++ nb ++ replicate pad 0) ++ vb) by (unfold bytes; by rewrite <- !app_assoc).
    apply slice_full; [|done]. rewrite Eal, !length_app, !length_le_bytes, length_replicate.
    cbn [length]. lia. }
  assert (length (nb ++ replicate pad 0%Z ++ vb) = length nb + pad + length vb)%nat as Erest.
  { rewrite !length_app, length_replicate. lia. }
  rewrite Erest. unfold all_null, nulls, hn. destruct hasn; [destruct Hn as [Hne Hle]|subst nb].
  - change (negb (1 =? 0)) with true. cbv match. rewrite bool_decide_eq_false_2 by done.
    rewrite bool_decide_eq_false_2 by lia. rewrite decide_False by (rewrite Eal; lia).
    assert (slice bytes 16 (length nb) = Ret nb) as ->.
    { replace bytes with ((le_bytes 4 (Z.of_nat len) ++ [bw; hn]
        ++ le_bytes 4 (Z.of_nat (length nb)) ++ le_bytes 4 (Z.of_nat (length vb)) ++ [0; 0])
        ++ nb ++ replicate pad 0 ++ vb) by (unfold bytes; by rewrite <- !app_assoc).
      apply slice_ok; [|done]. rewrite !length_app, !length_le_bytes. done. }
    cbn [mbind outcome_mbind outcome_bind andb orb]. rewrite decide_False by lia.
    run_step. rewrite Evs. run_step.
    by case_decide; [rewrite bool_decide_eq_true_2|rewrite bool_decide_eq_false_2].
  - change (negb (0 =? 0)) with false. cbv match. cbn [andb length].
    rewrite decide_False by (cbn [length] in Eal; rewrite Eal; lia).
    run_step. cbn [length] in Evs. rewrite Evs. done.
Qed.

Lemma bp_from_bytes_empty len bw hn nb vb pad :
  Z.of_nat len < 2 ^ 32 -> length vb = 0%nat ->
  bp_from_bytes w
    (le_bytes 4 (Z.of_nat len) ++ [bw; hn] ++ le_bytes 4 (Z.of_nat (length nb))
     ++ le_bytes 4 (Z.of_nat (length vb)) ++ [0; 0] ++ nb ++ replicate pad 0 ++ vb)
  = Ret (bp_new_null_array len).
Proof.
  intros Hlen Ev.
  destruct (header_fields (le_bytes 4 (Z.of_nat len)) (le_bytes 4 (Z.of_nat (length nb)))
     (le_bytes 4 (Z.of_nat (length vb))) (nb ++ replicate pad 0 ++ vb) bw hn)
    as (E1 & E2 & E3 & E4 & E5 & E6); [apply length_le_bytes..|].
  cbv zeta in E1, E2, E3, E4, E5, E6. unfold bp_from_bytes. rewrite E1, E2, E3, E4, E5, E6.
  rewrite Ev, (header_len _ Hlen). rewrite decide_False by lia. by rewrite decide_True.
Qed.

Lemma bp_empty a :
  bp_wf w a -> original_len a = 0%nat ->
  length (concat (le_bytes (native_bytes w) <$> packed_values a)) = 0%nat.
Proof.
  intros Wf E. rewrite length_concat_bytes. destruct (bp_bit_width a) as [b|] eqn:Eb.
  - rewrite (bpw_chunks _ _ Wf b Eb), E. pose proof CHUNK_pos.
    destruct (div_ceil_cases 0 CHUNK CHUNK_pos) as [[-> _]|[_ Hm]].
    + by rewrite Nat.Div0.div_0_l.
    + by rewrite Nat.Div0.mod_0_l in Hm.
  - destruct (bpw_null _ _ Wf Eb) as [_ ->]. by rewrite E.
Qed.

(** Serialising and reading back gives an array with the same content: the same
    words, or an array of nulls. *)
Lemma bp_bytes_same a :
  bp_wf w a -> bp_fits a ->
  ∃ a', bp_from_bytes w (bp_to_bytes w a) = Ret a' ∧ bp_wf w a'
        ∧ original_len a' = original_len a ∧ bp_logical w a' = bp_logical w a
        ∧ (a' = bp_new_null_array (original_len a)
           ∨ ∃ ns, a' = BitPacked (packed_values a) ns (bp_bit_width a) (original_len a)).
Proof.
  intros Wf (Hlen & Hnb & Hvb). rewrite bp_bytes_shape. cbv zeta.
  pose proof (packed_words_back a Wf) as Hback.
  set (vb := concat (le_bytes (native_bytes w) <$> packed_values a)) in *.
  assert (length vb = length (packed_values a) * native_bytes w)%nat as Evb
    by apply length_concat_bytes.
  rewrite <- Evb in Hback, Hvb. destruct native_bytes_bits as [_ Hnp].
  destruct (decide (length vb = 0)%nat) as [Ev|Ev].
  { exists (bp_new_null_array (original_len a)). split.
    - apply bp_from_bytes_empty; done.
    - split; [apply bp_new_null_wf|]. split; [done|]. split; [|by left].
      rewrite bp_new_null_logical, bp_no_values; [done..|]. lia. }
  assert (∀ b, bp_bit_width a = Some b → (Z.of_nat b =? 0) = false) as Hbw.
  { intros b Eb. pose proof (bpw_width _ _ Wf b Eb). lia. }
  destruct (bp_nulls a) as [n|] eqn:En.
  - destruct (bp_nulls_case a n Wf En) as (Ebits & Hall & Hsome).
    pose proof (bpw_nulls _ _ Wf) as Hl. rewrite En in Hl. cbn in Hl.
    destruct (nulls_bytes_bits a n En) as [_ Hle]. rewrite Hl in Hle.
    assert (length (nulls_bytes a) ≠ 0%nat) as Hne by (intros E0; apply Ev, bp_empty; lia || done).
    rewrite (bp_from_bytes_shape (original_len a) _ true (nulls_bytes a) vb) by done.
    rewrite Hback. destruct (decide (null_count (nb_of_bytes (nulls_bytes a) (original_len a))
                                     = original_len a)) as [Ec|Ec].
    + rewrite bool_decide_eq_true_2 by done.
      exists (bp_new_null_array (original_len a)). split; [done|]. split; [apply bp_new_null_wf|].
      split; [done|]. split; [|by left]. rewrite bp_new_null_logical. symmetry. by apply Hall.
    + rewrite bool_decide_eq_false_2 by done.
      destruct (bp_bit_width a) as [b|] eqn:Eb; [|by destruct (Hsome Ec)].
      rewrite Hbw, Nat2Z.id by done. eexists. split; [done|].
      split; [|split; [done|split]].
      * split; cbn; try (intros b' [= <-]); try done; try apply Wf; try done.
        by rewrite Ebits.
      * destruct a as [ps ns bw len]; cbn in *. subst ns bw. by apply bp_logical_nulls.
      * right. rewrite <- Eb. by eexists.
  - assert (nulls_bytes a = []) as Enb by (unfold nulls_bytes; by rewrite En).
    rewrite Enb in *.
    rewrite (bp_from_bytes_shape (original_len a) _ false [] vb) by done.
    destruct (bp_bit_width a) as [b|] eqn:Eb.
    2: { destruct (bpw_null _ _ Wf Eb) as [(n & En' & _) _]. congruence. }
    rewrite Hbw, Hback, Nat2Z.id by done. exists a. split; [destruct a; cbn in *; by subst|].
    split_and!; try done. right. exists None. destruct a; cbn in *; by subst.
Qed.

Lemma bp_bytes_ok a :
  bp_wf w a -> bp_fits a ->
  ∃ a', bp_from_bytes w (bp_to_bytes w a) = Ret a' ∧ bp_wf w a'
        ∧ original_len a' = original_len a ∧ bp_logical w a' = bp_logical w a.
Proof. intros Wf Hf. destruct (bp_bytes_same a Wf Hf) as (a' & E & W' & Hl & Hc & _). by exists a'. Qed.

(** The values read back, those of null rows too, are zeros or the ones written. *)
Lemma bp_bytes_values a p :
  bp_wf w a -> bp_fits a -> bp_to_primitive w a = Ret p ->
  ∃ a' p', bp_from_bytes w (bp_to_bytes w a) = Ret a' ∧ bp_to_primitive w a' = Ret p' ∧ pa_logical p' = pa_logical p
           ∧ length (pa_values p') = length (pa_values p) ∧ pa_wf p' ∧ ∀ v, v ∈ pa_values p' -> v = 0 ∨ v ∈ pa_values p.
Proof.
  intros Wf Hf Ep. destruct (bp_bytes_same a Wf Hf) as (a' & E & Wf' & Hl & Hlog & Hs).
  destruct (bp_to_primitive_wf a' Wf') as (p' & Ep' & Hl' & Hn & Hnone).
  destruct (bp_to_primitive_wf a Wf) as (p0 & Ep0 & Hl0 & _). rewrite Ep in Ep0. injection Ep0 as <-.
  exists a', p'. unfold bp_logical in Hlog. rewrite Ep, Ep' in Hlog. injection Hlog as Hlog.
  split_and!; try done; [congruence|..].
  { unfold pa_wf. destruct (bp_bit_width a') as [b|] eqn:Eb.
    - rewrite Hn by done. pose proof (bpw_nulls _ _ Wf') as Hw'. unfold nulls_len in Hw'. by destruct (bp_nulls a'); [rewrite Hl'|].
    - unfold bp_to_primitive in Ep'. rewrite Eb in Ep'. injection Ep' as <-. unfold pa_new_null. cbn. by rewrite nb_new_null_bits, !length_replicate. }
  intros v Hv. destruct Hs as [->|[ns ->]].
  - left. cbn in Ep'. injection Ep' as <-. cbn in Hv. by apply elem_of_replicate in Hv as [-> _].
  - unfold bp_to_primitive in Ep, Ep'. cbn in Ep'. destruct (bp_bit_width a) as [b|].
    + destruct (unpack_chunks _ _ _ _ _ _); [|done..]. injection Ep as <-. injection Ep' as <-. by right.
    + left. injection Ep' as <-. cbn in Hv. by apply elem_of_replicate in Hv as [-> _].
Qed.
End bit_packed_lemmas.

(** ** Properties *)

(** A column of three bytes, the last one null. *)
Definition small_column : @PrimitiveArray list_null_buffers :=
  Prim [3; 5; 0] (Some ([true; true; false] : list bool)).

Lemma small_column_fits : bp_fits 8 (bp_from_primitive 8 small_column 3).
Proof.
  assert (word_size 8) as Hw by (unfold word_size; lia).
  pose proof (bp_from_primitive_wf 8 Hw small_column 3 eq_refl ltac:(lia)) as Wf.
  pose proof (bpw_chunks 8 _ Wf 3 eq_refl) as Hc. split; [cbn; lia|]. split; [vm_compute; reflexivity|].
  rewrite Hc. unfold packed_len. cbn [original_len bp_from_primitive pa_values small_column length].
  pose proof CHUNK_Z. pose proof (div_ceil_cases 3 CHUNK CHUNK_pos) as Hd.
  assert (3 / CHUNK = 0)%nat as E0 by (apply Nat.div_small; lia). rewrite E0 in Hd.
  change (native_bytes 8) with 1%nat.
  destruct Hd as [[-> _]|[-> _]]; [lia|].
  rewrite Nat2Z.inj_mul, Nat2Z.inj_mul. apply Z.le_lt_trans with (1 * 1024 * 8); [|lia].
  by vm_compute.
Qed.

(** The width chosen for a maximum is the least that holds it (and at least
    one bit). *)
Theorem bit_width_is_least max b :
  0 <= max < 2 ^ 64 ->
  1 <= get_bit_width max <= 64 ∧ max < 2 ^ get_bit_width max
  ∧ (1 <= b -> max < 2 ^ b -> get_bit_width max <= b).
Proof.
  intros H. destruct (get_bit_width_range max H) as [Hr Hm]. split; [done|]. split; [done|].
  by apply get_bit_width_least.
Qed.

Lemma bit_width_is_least_witness : get_bit_width 255 <= 8 ∧ 255 < 2 ^ get_bit_width 255.
Proof.
  destruct (bit_width_is_least 255 8) as (_ & H1 & H2); [lia|]. split; [apply H2; lia|exact H1].
Defined.

(** Packing an array whose values fit in [b] bits, writing it as bytes,
    reading the bytes back and unpacking gives the same values and the same
    nulls: nothing is lost to the chunking, the padding, the alignment of the
    header or the byte order. *)
Theorem bit_pack_roundtrip `{NullBufferLaws} `{FastlanesLaws} w (a : PrimitiveArray) b :
  word_size w -> Forall (is_word w) (pa_values a) -> pa_wf a -> 1 <= Z.of_nat b <= w ->
  Forall (λ v, v < 2 ^ Z.of_nat b) (pa_values a) ->
  bp_fits w (bp_from_primitive w a b) ->
  ∃ a', bp_from_bytes w (bp_to_bytes w (bp_from_primitive w a b)) = Ret a'
        ∧ bp_logical w a' = Ret (pa_logical a) ∧ original_len a' = length (pa_values a).
Proof.
  intros Hw Fw Hwf Hb Fb Hfit.
  pose proof (bp_from_primitive_wf w Hw a b Hwf Hb) as Wf.
  destruct (bp_bytes_ok w Hw _ Wf Hfit) as (a' & E & _ & Hlen & Hlog).
  exists a'. split; [exact E|]. split; [|by rewrite Hlen].
  rewrite Hlog. unfold bp_logical. rewrite (bp_roundtrip w Hw a b Fw Hb).
  run_step. f_equal.
  assert ((λ v, v mod 2 ^ Z.of_nat b) <$> pa_values a = pa_values a) as ->; [|by destruct a].
  apply fmap_id_on. intros v Hv. rewrite Forall_forall in Fb, Fw.
  specialize (Fb v Hv). specialize (Fw v Hv). unfold is_word in Fw. by apply Z.mod_small; lia.
Qed.

Lemma bit_pack_roundtrip_witness :
  ∃ a', bp_from_bytes 8 (bp_to_bytes 8 (bp_from_primitive 8 small_column 3)) = Ret a'
        ∧ bp_logical 8 a' = Ret [Some 3; Some 5; None].
Proof.
  assert (word_size 8) as Hw by (unfold word_size; lia).
  destruct (bit_pack_roundtrip 8 small_column 3) as (a' & E & Hl & _).
  - exact Hw.
  - repeat constructor; unfold is_word; lia.
  - reflexivity.
  - lia.
  - repeat constructor; lia.
  - exact small_column_fits.
  - exists a'. split; [exact E|exact Hl].
Defined.
