(* ===== verification/CivilDate.v ===== *)
(** * Calendar arithmetic

    Model of the date functions of
    [src/src/storage/src/liquid_array/squeezed_date32_array.rs]: days since the
    epoch to (year, month, day) and back, the extracted components and the
    reduction of timestamps to days.  Rust's [/] truncates ([Z.quot]); an [as]
    cast wraps ([wraps], [wrapu]).

    The reference is the calendar itself: [next_day] with the Gregorian leap
    rule.  The conversion sends 0 to 1970-01-01 and commutes with [next_day],
    which determines it, and the two conversions are inverse to each other. *)

From Stdlib Require Import ZArith Lia List Bool.
From S2P Require Import Prelude.
Local Open Scope Z_scope.

Inductive Date32Field : Type := Year | Month | Day | DayOfWeek.

Inductive TimeUnit : Type := Second | Millisecond | Microsecond | Nanosecond.

Definition date32_field_eqb (a b : Date32Field) : bool :=
  match a, b with
  | Year, Year | Month, Month | Day, Day | DayOfWeek, DayOfWeek => true
  | _, _ => false
  end.

(** [ymd_from_epoch_days] before the final casts: 64-bit arithmetic, which no
    [i32] input overflows. *)
Definition ymd_of_days (days_since_epoch : Z) : Z * Z * Z :=
  let z := days_since_epoch + 719468 in
  let era := if z >=? 0 then Z.quot z 146097 else Z.quot (z - 146096) 146097 in
  let doe := z - era * 146097 in
  let yoe := Z.quot (doe - Z.quot doe 1460 + Z.quot doe 36524 - Z.quot doe 146096) 365 in
  let y := yoe + era * 400 in
  let doy := doe - (365 * yoe + Z.quot yoe 4 - Z.quot yoe 100) in
  let mp := Z.quot (5 * doy + 2) 153 in
  let d := (doy - Z.quot (153 * mp + 2) 5) + 1 in
  let m := mp + (if mp <? 10 then 3 else -9) in
  let y := if m <=? 2 then y + 1 else y in
  (y, m, d).

Definition ymd_from_epoch_days (days_since_epoch : Z) : Z * Z * Z :=
  let '(y, m, d) := ymd_of_days days_since_epoch in
  (wraps 32 y, wrapu 32 m, wrapu 32 d).

(** [days_since_epoch + 4] is [i32] arithmetic: it wraps in the release profile. *)
Definition day_of_week_sunday0 (days_since_epoch : Z) : Z :=
  (wraps 32 (days_since_epoch + 4)) mod 7.

Definition component_from_days (field : Date32Field) (days : Z) : Z :=
  let '(year, month, day) := ymd_from_epoch_days days in
  match field with
  | Year => year
  | Month => wraps 32 month
  | Day => wraps 32 day
  | DayOfWeek => day_of_week_sunday0 days
  end.

Definition ticks_per_day (unit : TimeUnit) : Z :=
  match unit with
  | Second => 86400
  | Millisecond => 86400000
  | Microsecond => 86400000000
  | Nanosecond => 86400000000000
  end.

(** [div_euclid] by a positive number is the floor. *)
Definition timestamp_to_days_since_epoch (value : Z) (unit : TimeUnit) : Z :=
  wraps 32 (value / ticks_per_day unit).

Definition days_of_ymd (year month day : Z) : Z :=
  let y := year - (if month <=? 2 then 1 else 0) in
  let era := if y >=? 0 then Z.quot y 400 else Z.quot (y - 399) 400 in
  let yoe := y - era * 400 in
  let mp := month + (if month >? 2 then -3 else 9) in
  let doy := Z.quot (153 * mp + 2) 5 + day - 1 in
  let doe := yoe * 365 + Z.quot yoe 4 - Z.quot yoe 100 + doy in
  era * 146097 + doe - 719468.

Definition ymd_to_epoch_days (year month day : Z) : Z := wraps 32 (days_of_ymd year month day).

(** ** The calendar *)

Definition is_leap (y : Z) : bool :=
  (y mod 4 =? 0) && (negb (y mod 100 =? 0) || (y mod 400 =? 0)).

Definition days_in_month (y m : Z) : Z :=
  if m =? 2 then (if is_leap y then 29 else 28)
  else if (m =? 4) || (m =? 6) || (m =? 9) || (m =? 11) then 30
  else 31.

Definition valid_date (ymd : Z * Z * Z) : Prop :=
  let '(y, m, d) := ymd in 1 <= m <= 12 /\ 1 <= d <= days_in_month y m.

Definition next_day (ymd : Z * Z * Z) : Z * Z * Z :=
  let '(y, m, d) := ymd in
  if d <? days_in_month y m then (y, m, d + 1)
  else if m <? 12 then (y, m + 1, 1)
  else (y + 1, 1, 1).

Definition is_i32 (z : Z) : Prop := -2 ^ 31 <= z < 2 ^ 31.

(** ** Lemmas *)

(** Days before the year [yoe] of an era (a year starts in March). *)
Definition year_start (yoe : Z) : Z := 365 * yoe + yoe / 4 - yoe / 100.

Lemma era_floor z n : 0 < n ->
  (if z >=? 0 then Z.quot z n else Z.quot (z - (n - 1)) n) = z / n.
Proof.
  intros Hn. destruct (z >=? 0) eqn:E.
  - apply Z.geb_le in E. apply Z.quot_div_nonneg; lia.
  - assert (z < 0) by lia. clear E.
    assert (Z.quot (z - (n - 1)) n = - ((n - 1 - z) / n)) as ->.
    { rewrite <- (Z.quot_div_nonneg (n - 1 - z) n) by lia.
      rewrite <- Z.quot_opp_l by lia. f_equal. lia. }
    Z.to_euclidean_division_equations. nia.
Qed.

(** The fields of a day in terms of floors. *)
Definition yoe_of (doe : Z) : Z := (doe - doe / 1460 + doe / 36524 - doe / 146096) / 365.

Lemma yoe_bounds doe : 0 <= doe <= 146096 ->
  0 <= yoe_of doe <= 399 /\ year_start (yoe_of doe) <= doe.
Proof. intros H. unfold yoe_of, year_start. Z.to_euclidean_division_equations. lia. Qed.

Lemma yoe_upper doe : 0 <= doe <= 146096 -> yoe_of doe <= 398 ->
  doe < year_start (yoe_of doe + 1).
Proof. intros H. unfold yoe_of, year_start. Z.to_euclidean_division_equations. lia. Qed.

Lemma year_start_step y : 0 <= y <= 398 ->
  year_start (y + 1) = year_start y + (if is_leap (y + 1) then 366 else 365).
Proof.
  intros H. unfold year_start, is_leap.
  destruct ((y + 1) mod 4 =? 0) eqn:E4, ((y + 1) mod 100 =? 0) eqn:E100,
    ((y + 1) mod 400 =? 0) eqn:E400; simpl;
    rewrite ?Z.eqb_eq, ?Z.eqb_neq in *; Z.to_euclidean_division_equations; lia.
Qed.

Lemma year_start_mono a b : 0 <= a -> a <= b -> year_start a <= year_start b.
Proof. intros Ha H. unfold year_start. Z.to_euclidean_division_equations. lia. Qed.

(** The year of the era is determined by the interval the day falls in. *)
Lemma yoe_unique doe y : 0 <= doe <= 146096 -> 0 <= y <= 399 ->
  year_start y <= doe -> (y <= 398 -> doe < year_start (y + 1)) -> yoe_of doe = y.
Proof.
  intros Hd Hy Hl Hu. pose proof (yoe_bounds doe Hd) as [Hb Hs].
  pose proof (yoe_upper doe Hd) as Hb'.
  destruct (Z.lt_trichotomy (yoe_of doe) y) as [H|[H|H]]; [|assumption|].
  - pose proof (year_start_mono (yoe_of doe + 1) y ltac:(lia) ltac:(lia)). lia.
  - pose proof (year_start_mono (y + 1) (yoe_of doe) ltac:(lia) ltac:(lia)). lia.
Qed.

(** Days before March 1st of year [y], and before month [mp] of a March year. *)
Definition days_before_year (y : Z) : Z := 365 * y + y / 4 - y / 100 + y / 400.
Definition month_start (mp : Z) : Z := (153 * mp + 2) / 5.

Lemma days_before_year_step y :
  days_before_year (y + 1) = days_before_year y + (if is_leap (y + 1) then 366 else 365).
Proof.
  unfold days_before_year, is_leap.
  destruct ((y + 1) mod 4 =? 0) eqn:E4, ((y + 1) mod 100 =? 0) eqn:E100,
    ((y + 1) mod 400 =? 0) eqn:E400; simpl;
    rewrite ?Z.eqb_eq, ?Z.eqb_neq in *; Z.to_euclidean_division_equations; lia.
Qed.

Lemma days_before_year_era y :
  days_before_year y = (y / 400) * 146097 + year_start (y mod 400).
Proof. unfold days_before_year, year_start. Z.to_euclidean_division_equations. lia. Qed.

(** The March year of a date and its month in that year. *)
Definition march_year (y m : Z) : Z := y - (if m <=? 2 then 1 else 0).
Definition march_month (m : Z) : Z := m + (if m >? 2 then -3 else 9).

Lemma days_of_ymd_eq y m d : 1 <= m <= 12 ->
  days_of_ymd y m d
  = days_before_year (march_year y m) + month_start (march_month m) + d - 1 - 719468.
Proof.
  intros Hm. unfold days_of_ymd. fold (march_year y m) (march_month m).
  rewrite (days_before_year_era (march_year y m)).
  pose proof (era_floor (march_year y m) 400 ltac:(lia)) as E. change (400 - 1) with 399 in E. rewrite E.
  assert (0 <= march_month m <= 11).
  { unfold march_month. destruct (m >? 2) eqn:G; lia. }
  assert (march_year y m - march_year y m / 400 * 400 = march_year y m mod 400) as ->.
  { rewrite Z.mod_eq by lia. lia. }
  pose proof (Z.mod_pos_bound (march_year y m) 400 ltac:(lia)).
  rewrite !Z.quot_div_nonneg by lia. unfold year_start, month_start. lia.
Qed.

(** The same for the inverse: fields of a day in floors. *)
Lemma ymd_of_days_eq days :
  let z := days + 719468 in
  let doe := z mod 146097 in
  let y := yoe_of doe + (z / 146097) * 400 in
  let doy := doe - year_start (yoe_of doe) in
  let mp := (5 * doy + 2) / 153 in
  let m := mp + (if mp <? 10 then 3 else -9) in
  ymd_of_days days = ((if m <=? 2 then y + 1 else y), m, doy - month_start mp + 1).
Proof.
  intros z doe y doy mp m. unfold ymd_of_days. fold z.
  pose proof (era_floor z 146097 ltac:(lia)) as E. change (146097 - 1) with 146096 in E. rewrite E.
  assert (z - z / 146097 * 146097 = doe) as ->.
  { unfold doe. rewrite Z.mod_eq by lia. lia. }
  pose proof (Z.mod_pos_bound z 146097 ltac:(lia)) as Hdoe. fold doe in Hdoe.
  destruct (yoe_bounds doe ltac:(lia)) as [Hy Hs].
  assert (Z.quot (doe - Z.quot doe 1460 + Z.quot doe 36524 - Z.quot doe 146096) 365 = yoe_of doe)
    as ->.
  { rewrite !(Z.quot_div_nonneg doe) by lia. apply Z.quot_div_nonneg; [|lia].
    Z.to_euclidean_division_equations. lia. }
  assert (doe - (365 * yoe_of doe + Z.quot (yoe_of doe) 4 - Z.quot (yoe_of doe) 100) = doy) as ->.
  { rewrite !Z.quot_div_nonneg by lia. unfold doy, year_start. lia. }
  assert (0 <= doy) by (unfold doy; lia).
  assert (Z.quot (5 * doy + 2) 153 = mp) as -> by (apply Z.quot_div_nonneg; lia).
  assert (0 <= mp) by (apply Z.div_pos; lia).
  rewrite (Z.quot_div_nonneg (153 * mp + 2)) by lia. reflexivity.
Qed.

(** The length of a March year, and the months within it. *)
Lemma doy_bounds doe : 0 <= doe <= 146096 ->
  0 <= doe - year_start (yoe_of doe) <= 365.
Proof.
  intros H. pose proof (yoe_bounds doe H) as [Hy Hs]. pose proof (yoe_upper doe H) as Hu.
  destruct (Z.eq_dec (yoe_of doe) 399) as [E|E].
  - rewrite E in *. unfold year_start in *. Z.to_euclidean_division_equations. lia.
  - rewrite year_start_step in Hu by lia. destruct (is_leap _) in Hu; lia.
Qed.

Lemma month_of_doy doy : 0 <= doy <= 365 ->
  let mp := (5 * doy + 2) / 153 in
  0 <= mp <= 11 /\ month_start mp <= doy < month_start (mp + 1).
Proof. intros H mp. subst mp. unfold month_start. Z.to_euclidean_division_equations. lia. Qed.

Lemma doy_of_month mp doy : 0 <= mp <= 11 -> month_start mp <= doy < month_start (mp + 1) ->
  (5 * doy + 2) / 153 = mp.
Proof. intros H. unfold month_start. Z.to_euclidean_division_equations. lia. Qed.

Lemma march_year_month yoe mp era :
  let m := mp + (if mp <? 10 then 3 else -9) in
  let y := yoe + era * 400 in
  0 <= mp <= 11 ->
  1 <= m <= 12 /\ march_month m = mp /\ march_year (if m <=? 2 then y + 1 else y) m = y.
Proof.
  intros m y H. unfold march_month, march_year, m.
  destruct (mp <? 10) eqn:E1.
  - destruct (mp + 3 >? 2) eqn:E2; [|lia]. destruct (mp + 3 <=? 2) eqn:E3; [lia|]. lia.
  - destruct (mp + -9 >? 2) eqn:E2; [lia|]. destruct (mp + -9 <=? 2) eqn:E3; [|lia]. lia.
Qed.

(** Month lengths: the table of the calendar against [month_start]. *)
Lemma days_in_month_march y m : 1 <= m <= 12 ->
  days_in_month y m
  = if m =? 2 then (if is_leap (march_year y m + 1) then 366 else 365) - month_start 11
    else month_start (march_month m + 1) - month_start (march_month m).
Proof.
  intros Hm. unfold days_in_month, march_year, march_month, month_start.
  assert (m = 1 \/ m = 2 \/ m = 3 \/ m = 4 \/ m = 5 \/ m = 6 \/ m = 7 \/ m = 8 \/ m = 9
          \/ m = 10 \/ m = 11 \/ m = 12) as Hc by lia.
  repeat (destruct Hc as [->|Hc]); try subst m; simpl; try reflexivity.
  replace (y - 1 + 1) with y by lia. destruct (is_leap y); reflexivity.
Qed.

Lemma is_leap_mod y : is_leap (y mod 400 + 1) = is_leap (y + 1).
Proof.
  unfold is_leap.
  replace ((y mod 400 + 1) mod 4) with ((y + 1) mod 4) by (Z.to_euclidean_division_equations; lia).
  replace ((y mod 400 + 1) mod 100) with ((y + 1) mod 100)
    by (Z.to_euclidean_division_equations; lia).
  replace ((y mod 400 + 1) mod 400) with ((y + 1) mod 400)
    by (Z.to_euclidean_division_equations; lia).
  reflexivity.
Qed.

(** [days_of_ymd] then [ymd_of_days]. *)
Lemma ymd_of_days_of_ymd y m d :
  valid_date (y, m, d) -> ymd_of_days (days_of_ymd y m d) = (y, m, d).
Proof.
  intros [Hm Hd]. rewrite days_of_ymd_eq by assumption.
  set (Y := march_year y m). set (mp := march_month m).
  assert (0 <= mp <= 11) as Hmp.
  { unfold mp, march_month. destruct (m >? 2) eqn:G; lia. }
  rewrite days_in_month_march in Hd by assumption. fold Y mp in Hd.
  pose proof (Z.mod_pos_bound Y 400 ltac:(lia)) as HY.
  set (doy := month_start mp + d - 1).
  assert (month_start mp <= doy < month_start (mp + 1)
          /\ doy <= (if is_leap (Y + 1) then 365 else 364)) as [Hdoy Hlen].
  { unfold doy. destruct (m =? 2) eqn:E2.
    - assert (mp = 11) as -> by (unfold mp, march_month; destruct (m >? 2) eqn:G; lia).
      change (month_start 11) with 337 in *. change (month_start (11 + 1)) with 367.
      destruct (is_leap (Y + 1)); lia.
    - assert (mp <= 10) by (unfold mp, march_month; destruct (m >? 2) eqn:G; lia).
      split; [lia|]. assert (month_start (mp + 1) <= month_start 11).
      { unfold month_start. Z.to_euclidean_division_equations. lia. }
      change (month_start 11) with 337 in *. destruct (is_leap (Y + 1)); lia. }
  set (doe := year_start (Y mod 400) + doy).
  assert (0 <= month_start mp) by (unfold month_start; apply Z.div_pos; lia).
  assert (0 <= doe <= 146096 /\ yoe_of doe = Y mod 400) as [Hdoe Hyoe].
  { assert (is_leap (Y mod 400 + 1) = is_leap (Y + 1)) as Hl.
    { apply is_leap_mod. }
    pose proof (year_start_mono 0 (Y mod 400) ltac:(lia) ltac:(lia)) as H0.
    change (year_start 0) with 0 in H0.
    destruct (Z.eq_dec (Y mod 400) 399) as [E|E].
    - assert (doe <= 146096).
      { unfold doe. rewrite E. change (year_start 399) with 145731. destruct (is_leap (Y + 1)); lia. }
      split; [unfold doe in *; lia|]. apply yoe_unique; unfold doe in *; lia.
    - pose proof (year_start_step (Y mod 400) ltac:(lia)) as Hst. rewrite Hl in Hst.
      pose proof (year_start_mono (Y mod 400 + 1) 399 ltac:(lia) ltac:(lia)) as H9.
      change (year_start 399) with 145731 in H9.
      assert (doe < year_start (Y mod 400 + 1)).
      { unfold doe. rewrite Hst. destruct (is_leap (Y + 1)); lia. }
      split; [unfold doe in *; lia|]. apply yoe_unique; unfold doe in *; lia. }
  rewrite ymd_of_days_eq. cbv zeta.
  replace (days_before_year Y + month_start mp + d - 1 - 719468 + 719468)
    with (doe + (Y / 400) * 146097)
    by (unfold doe, doy; rewrite days_before_year_era; lia).
  rewrite Z_mod_plus_full, Z_div_plus_full by lia.
  rewrite (Z.mod_small doe), (Z.div_small doe) by lia. rewrite Hyoe.
  replace (doe - year_start (Y mod 400)) with doy by (unfold doe; lia).
  rewrite (doy_of_month mp doy Hmp Hdoy).
  replace (Y mod 400 + (0 + Y / 400) * 400) with Y by (Z.to_euclidean_division_equations; lia).
  replace (doy - month_start mp + 1) with d by (unfold doy; lia).
  unfold mp, march_month, Y, march_year. clear - Hm.
  destruct (m >? 2) eqn:G, (m <=? 2) eqn:L; try lia.
  - destruct (m + -3 <? 10) eqn:E1; [|lia]. destruct (m + -3 + 3 <=? 2) eqn:E2; [lia|].
    repeat f_equal; lia.
  - destruct (m + 9 <? 10) eqn:E1; [lia|]. destruct (m + 9 + -9 <=? 2) eqn:E2; [|lia].
    repeat f_equal; lia.
Qed.

(** [ymd_of_days] gives a date of the calendar, and [days_of_ymd] gives the day
    back. *)
Lemma days_of_ymd_of_days days :
  valid_date (ymd_of_days days)
  /\ (let '(y, m, d) := ymd_of_days days in days_of_ymd y m d) = days.
Proof.
  rewrite ymd_of_days_eq. cbv zeta. set (z := days + 719468). set (doe := z mod 146097).
  pose proof (Z.mod_pos_bound z 146097 ltac:(lia)) as Hdoe. fold doe in Hdoe.
  destruct (yoe_bounds doe ltac:(lia)) as [Hy Hs].
  pose proof (doy_bounds doe ltac:(lia)) as Hdoy.
  set (doy := doe - year_start (yoe_of doe)) in *.
  destruct (month_of_doy doy ltac:(lia)) as [Hmp Hmd]. cbv zeta in Hmd.
  set (mp := (5 * doy + 2) / 153) in *.
  destruct (march_year_month (yoe_of doe) mp (z / 146097) Hmp) as (Hm & Emm & Emy).
  set (m := mp + (if mp <? 10 then 3 else -9)) in *.
  set (Y := yoe_of doe + z / 146097 * 400) in *.
  set (y := if m <=? 2 then Y + 1 else Y) in *.
  assert (Y mod 400 = yoe_of doe /\ Y / 400 = z / 146097) as [EY1 EY2].
  { unfold Y. rewrite Z_mod_plus_full, Z_div_plus_full, Z.mod_small, Z.div_small by lia. lia. }
  split.
  - split; [assumption|]. rewrite days_in_month_march by assumption. rewrite Emy, Emm.
    destruct (m =? 2) eqn:E2; [|lia].
    assert (mp = 11) as E11 by (unfold m in E2; destruct (mp <? 10) eqn:G; lia).
    rewrite E11 in *. rewrite <- is_leap_mod, EY1.
    assert (doy <= if is_leap (yoe_of doe + 1) then 365 else 364); [|
      destruct (is_leap (yoe_of doe + 1)); lia].
    destruct (Z.eq_dec (yoe_of doe) 399) as [E|E].
    + rewrite E. simpl. lia.
    + pose proof (yoe_upper doe ltac:(lia) ltac:(lia)) as Hu.
      rewrite year_start_step in Hu by lia. unfold doy. destruct (is_leap _); lia.
  - rewrite days_of_ymd_eq by assumption. rewrite Emy, Emm, days_before_year_era, EY1, EY2.
    assert (z = z / 146097 * 146097 + doe) by (unfold doe; rewrite Z.mod_eq by lia; lia).
    unfold doy, z in *. lia.
Qed.

Lemma days_in_month_range y m : 28 <= days_in_month y m <= 31.
Proof.
  unfold days_in_month.
  repeat match goal with |- context [if ?b then _ else _] => destruct b end; lia.
Qed.

(** The day after. *)
Lemma days_of_next_day y m d : valid_date (y, m, d) ->
  valid_date (next_day (y, m, d))
  /\ (let '(y', m', d') := next_day (y, m, d) in days_of_ymd y' m' d') = days_of_ymd y m d + 1.
Proof.
  intros [Hm Hd]. unfold next_day. destruct (d <? days_in_month y m) eqn:Ed.
  - split; [simpl; lia|]. rewrite !days_of_ymd_eq by assumption. lia.
  - assert (d = days_in_month y m) as Edm by lia. destruct (m <? 12) eqn:E12.
    + pose proof (days_in_month_range y (m + 1)).
      split; [simpl; lia|]. rewrite !days_of_ymd_eq by lia. subst d.
      rewrite days_in_month_march by assumption. destruct (m =? 2) eqn:E2.
      * assert (m = 2) as -> by lia. change (march_month 2) with 11. change (march_month (2 + 1)) with 0.
        change (march_year y (2 + 1)) with (y - 0). change (march_year y 2) with (y - 1).
        pose proof (days_before_year_step (y - 1)) as S. replace (y - 1 + 1) with y in S by lia.
        replace (y - 0) with y by lia. replace (y - 1 + 1) with y by lia. rewrite S.
        change (month_start 0) with 0. lia.
      * unfold march_year. destruct (m <=? 2) eqn:L1, (m + 1 <=? 2) eqn:L2; try lia;
          unfold march_month; destruct (m >? 2) eqn:G1, (m + 1 >? 2) eqn:G2; try lia.
        -- replace (m + 9 + 1) with (m + 1 + 9) by lia. lia.
        -- replace (m + -3 + 1) with (m + 1 + -3) by lia. lia.
    + assert (m = 12) as -> by lia. split; [simpl; unfold days_in_month; simpl; lia|].
      rewrite !days_of_ymd_eq by lia. subst d. change (days_in_month y 12) with 31.
      change (march_year (y + 1) 1) with (y + 1 - 1). change (march_year y 12) with (y - 0).
      change (march_month 1) with 10. change (march_month 12) with 9.
      replace (y + 1 - 1) with y by lia. replace (y - 0) with y by lia.
      change (month_start 10) with 306. change (month_start 9) with 275. lia.
Qed.

(** No cast loses anything on the days an [i32] holds. *)
Lemma ymd_of_days_bounds days : is_i32 days ->
  let '(y, m, d) := ymd_of_days days in
  - 2 ^ 31 <= y < 2 ^ 31 /\ 1 <= m <= 12 /\ 1 <= d <= 31.
Proof.
  intros H. pose proof (days_of_ymd_of_days days) as [V E].
  destruct (ymd_of_days days) as [[y m] d]. destruct V as [Hm Hd].
  rewrite days_of_ymd_eq in E by assumption.
  pose proof (days_in_month_range y m).
  split; [|lia]. unfold days_before_year, march_year, month_start, march_month in E.
  unfold is_i32 in H. destruct (m <=? 2) eqn:G1, (m >? 2) eqn:G2; try lia;
    Z.to_euclidean_division_equations; lia.
Qed.

Lemma ymd_from_epoch_days_eq days : is_i32 days -> ymd_from_epoch_days days = ymd_of_days days.
Proof.
  intros H. unfold ymd_from_epoch_days. pose proof (ymd_of_days_bounds days H) as B.
  destruct (ymd_of_days days) as [[y m] d]. destruct B as (By & Bm & Bd).
  rewrite wraps_id, !wrapu_id by lia. reflexivity.
Qed.

Lemma wraps_i32 z : is_i32 z -> wraps 32 z = z.
Proof. intros H. apply wraps_id; [lia|]. unfold is_i32 in H. lia. Qed.

(** Components fit an [i32], and the offsets between two of them a [u32]. *)
Lemma component_bounds f days : is_i32 days ->
  - 5880000 <= component_from_days f days <= 5890000.
Proof.
  intros H. unfold component_from_days. rewrite ymd_from_epoch_days_eq by assumption.
  pose proof (days_of_ymd_of_days days) as [V E]. pose proof (ymd_of_days_bounds days H) as B.
  destruct (ymd_of_days days) as [[y m] d]. destruct V as [Hm Hd]. destruct B as (By & _ & Bd).
  rewrite days_of_ymd_eq in E by assumption. destruct f.
  - unfold days_before_year, march_year, month_start, march_month in E. unfold is_i32 in H.
    destruct (m <=? 2) eqn:G1, (m >? 2) eqn:G2; try lia; Z.to_euclidean_division_equations; lia.
  - rewrite wraps_id; lia.
  - rewrite wraps_id; lia.
  - unfold day_of_week_sunday0. pose proof (Z.mod_pos_bound (wraps 32 (days + 4)) 7 ltac:(lia)). lia.
Qed.

Lemma ticks_pos u : 0 < ticks_per_day u.
Proof. destruct u; reflexivity. Qed.

(** ** Properties *)

(** C30: [ymd_from_epoch_days] is the proleptic Gregorian calendar: day 0 is
    1970-01-01, every [i32] day gives a date that exists, and the day after is
    the next date. *)
Theorem ymd_from_epoch_days_calendar days :
  is_i32 days -> is_i32 (days + 1) ->
  ymd_from_epoch_days 0 = (1970, 1, 1)
  /\ valid_date (ymd_from_epoch_days days)
  /\ ymd_from_epoch_days (days + 1) = next_day (ymd_from_epoch_days days).
Proof.
  intros H0 H1. split; [reflexivity|]. rewrite !ymd_from_epoch_days_eq by assumption.
  destruct (days_of_ymd_of_days days) as [V E]. split; [assumption|].
  destruct (ymd_of_days days) as [[y m] d] eqn:Ed.
  destruct (days_of_next_day y m d V) as [V' E']. destruct (next_day (y, m, d)) as [[y' m'] d'].
  rewrite <- E, <- E'. apply ymd_of_days_of_ymd. assumption.
Qed.

Lemma ymd_from_epoch_days_calendar_witness :
  ymd_from_epoch_days (19782 + 1) = next_day (ymd_from_epoch_days 19782)
  /\ ymd_from_epoch_days 19783 = (2024, 3, 1).
Proof.
  split; [|vm_compute; reflexivity].
  apply (ymd_from_epoch_days_calendar 19782); unfold is_i32; lia.
Defined.

(** The two conversions are inverse to each other: a day goes to its date
    and back, and a date of the calendar whose day fits an [i32] goes to its day
    and back. *)
Theorem ymd_epoch_days_roundtrip :
  (forall days, is_i32 days ->
     let '(y, m, d) := ymd_from_epoch_days days in ymd_to_epoch_days y m d = days)
  /\ (forall y m d, valid_date (y, m, d) -> is_i32 (days_of_ymd y m d) ->
        ymd_from_epoch_days (ymd_to_epoch_days y m d) = (y, m, d)).
Proof.
  split.
  - intros days H. rewrite ymd_from_epoch_days_eq by assumption.
    destruct (days_of_ymd_of_days days) as [_ E]. destruct (ymd_of_days days) as [[y m] d].
    unfold ymd_to_epoch_days. rewrite E. apply wraps_i32. assumption.
  - intros y m d V H. unfold ymd_to_epoch_days. rewrite wraps_i32 by assumption.
    rewrite ymd_from_epoch_days_eq by assumption. apply ymd_of_days_of_ymd. assumption.
Qed.

(** The day of the week is between 0 and 6, is 0 on Sunday 1970-01-04, and
    advances by one each day, as long as [days + 4] does not overflow; on the
    last four [i32] days it wraps (the last one, a Saturday, gets 1). *)
Theorem day_of_week_cycle :
  (forall days, is_i32 days -> 0 <= day_of_week_sunday0 days < 7)
  /\ day_of_week_sunday0 3 = 0
  /\ (forall days, - 2 ^ 31 <= days -> days + 5 < 2 ^ 31 ->
        day_of_week_sunday0 (days + 1) = (day_of_week_sunday0 days + 1) mod 7)
  /\ day_of_week_sunday0 (2 ^ 31 - 1) <> (2 ^ 31 - 1 + 4) mod 7.
Proof.
  split; [|split; [reflexivity|split; [|vm_compute; discriminate]]].
  - intros days _. apply Z.mod_pos_bound. lia.
  - intros days Hl Hu. unfold day_of_week_sunday0. rewrite !wraps_i32 by (unfold is_i32; lia).
    rewrite Z.add_mod_idemp_l by lia. f_equal. lia.
Qed.
