(* ===== verification/SqueezedDate32.v ===== *)
(** * Squeezed date arrays

    Model of [SqueezedDate32Array] in
    [src/src/storage/src/liquid_array/squeezed_date32_array.rs]: one component of a
    date or timestamp column, kept bit-packed as offsets from the smallest one.
    The calendar is in [CivilDate.v], the packed array in [BitPack.v]. *)

From stdpp Require Import base list.
From Stdlib Require Import ZArith Lia.
From S2P Require Import Prelude Bytes Arrow BitPack CivilDate.
Local Open Scope Z_scope.

(** The data types the array is built from. *)
Inductive DateType : Type :=
| TDate32
| TTimestamp (unit : TimeUnit).

Section squeezed_date32.
Context `{NullBuffers} `{Fastlanes}.

(** [backing] is the byte range of the full array on disk. *)
Record SqueezedDate32Array : Type := SqueezedDate32 {
  sd_field : Date32Field;
  sd_bit_packed : BitPackedArray;
  sd_reference_value : Z;
  sd_original_data_type : DateType;
  sd_backing : option (Z * Z)
}.

Definition is_null (nulls : option NullBuffer) (idx : nat) : bool :=
  match nulls with
  | Some n => negb (nth idx (nb_bits n) false)
  | None => false
  end.

(** The loop over the values: has_value, min and max of the component. *)
Fixpoint component_range (component : Z -> Z) (nulls : option NullBuffer) (idx : nat)
    (values : list Z) (acc : bool * Z * Z) : bool * Z * Z :=
  match values with
  | [] => acc
  | v :: values =>
      let acc :=
        if is_null nulls idx then acc
        else
          let '(_, mn, mx) := acc in
          let comp := component v in
          (true, if comp <? mn then comp else mn, if comp >? mx then comp else mx) in
      component_range component nulls (S idx) values acc
  end.

Definition i32_max : Z := 2 ^ 31 - 1.
Definition i32_min : Z := - 2 ^ 31.

Definition all_null_squeezed (field : Date32Field) (ty : DateType) (len : nat) : SqueezedDate32Array :=
  SqueezedDate32 field (bp_new_null_array len) 0 ty None.

(** The common body of [from_liquid_date32] and [from_liquid_timestamp], which
    differ in the component of a raw value. *)
Definition from_components (component : Z -> Z) (field : Date32Field) (ty : DateType)
    (arrow_array : PrimitiveArray) : SqueezedDate32Array :=
  let values := pa_values arrow_array in
  let nulls := pa_nulls arrow_array in
  let len := length values in
  if match nulls with Some n => bool_decide (null_count n = len) | None => false end
  then all_null_squeezed field ty len
  else
    let '(has_value, min_component, max_component) :=
      component_range component nulls 0 values (false, i32_max, i32_min) in
    if negb has_value then all_null_squeezed field ty len
    else
      let max_offset := wrapu 64 (max_component - min_component) in
      let bit_width := Z.to_nat (get_bit_width max_offset) in
      let offsets :=
        imap (λ idx v, if is_null nulls idx then 0
                       else wrapu 32 (wraps 32 (component v - min_component))) values in
      SqueezedDate32 field (bp_from_primitive 32 (Prim offsets nulls) bit_width)
        min_component ty None.

Definition from_liquid_date32 (field : Date32Field) (arrow_array : PrimitiveArray)
    : SqueezedDate32Array :=
  from_components (component_from_days field) field TDate32 arrow_array.

Definition from_liquid_timestamp (unit : TimeUnit) (field : Date32Field)
    (arrow_array : PrimitiveArray) : SqueezedDate32Array :=
  from_components (λ v, component_from_days field (timestamp_to_days_since_epoch v unit))
    field (TTimestamp unit) arrow_array.

Definition with_backing (disk_range : Z * Z) (a : SqueezedDate32Array) : SqueezedDate32Array :=
  SqueezedDate32 (sd_field a) (sd_bit_packed a) (sd_reference_value a)
    (sd_original_data_type a) (Some disk_range).

Definition sd_len (a : SqueezedDate32Array) : nat := bp_len (sd_bit_packed a).

Definition sd_is_empty (a : SqueezedDate32Array) : bool := bool_decide (sd_len a = 0%nat).

(** [i32::saturating_add]. *)
Definition saturating_add32 (a b : Z) : Z := Z.max i32_min (Z.min i32_max (a + b)).

Definition to_component_date32 (a : SqueezedDate32Array) : outcome PrimitiveArray :=
  unsigned ← bp_to_primitive 32 (sd_bit_packed a);
  let ref_v := sd_reference_value a in
  Ret (Prim ((λ v, saturating_add32 (wraps 32 v) ref_v) <$> pa_values unsigned)
         (pa_nulls unsigned)).

(** [(v as i32 + ref_v) as i64]; the four units differ in the type of the result
    only. *)
Definition to_component_timestamp (a : SqueezedDate32Array) : outcome PrimitiveArray :=
  unsigned ← bp_to_primitive 32 (sd_bit_packed a);
  let ref_v := sd_reference_value a in
  Ret (Prim ((λ v, wraps 32 (wraps 32 v + ref_v)) <$> pa_values unsigned) (pa_nulls unsigned)).

Definition to_component_array (a : SqueezedDate32Array) : outcome PrimitiveArray :=
  match sd_original_data_type a with
  | TDate32 => to_component_date32 a
  | TTimestamp _ => to_component_timestamp a
  end.

Definition lossy_day (field : Date32Field) (comp : Z) : Z :=
  match field with
  | Year => ymd_to_epoch_days comp 1 1
  | Month => ymd_to_epoch_days 1970 (wrapu 32 comp) 1
  | Day => ymd_to_epoch_days 1970 1 (wrapu 32 comp)
  | DayOfWeek => saturating_add32 (ymd_to_epoch_days 1970 1 4) comp
  end.

Definition to_arrow_date32_lossy (a : SqueezedDate32Array) : outcome PrimitiveArray :=
  unsigned ← bp_to_primitive 32 (sd_bit_packed a);
  let ref_v := sd_reference_value a in
  let nulls := pa_nulls unsigned in
  Ret (Prim (imap (λ i off, if is_null nulls i then 0
                            else lossy_day (sd_field a) (wraps 32 (ref_v + wraps 32 off)))
               (pa_values unsigned)) nulls).
End squeezed_date32.
Arguments SqueezedDate32Array {_}.
Arguments SqueezedDate32 {_} sd_field sd_bit_packed sd_reference_value sd_original_data_type
  sd_backing.
Arguments sd_field {_} s.
Arguments sd_bit_packed {_} s.
Arguments sd_reference_value {_} s.
Arguments sd_original_data_type {_} s.
Arguments sd_backing {_} s.

(** ** Lemmas *)

Section lemmas.
Context `{NullBufferLaws} `{FastlanesLaws}.

Lemma logical_lookup values nulls i :
  nulls_len nulls (length values) ->
  logical values nulls !! i
  = (λ v, if is_null nulls i then None else Some v) <$> values !! i.
Proof.
  destruct nulls as [n|]; cbn; intros Hl; [|by rewrite list_lookup_fmap].
  unfold mask_values. destruct (values !! i) as [v|] eqn:Ev; cbn.
  - destruct (nb_bits n !! i) as [b|] eqn:Eb.
    + rewrite lookup_zip_with, Ev. cbn. rewrite Eb. cbn.
      by rewrite (nth_lookup_Some _ _ false b Eb); destruct b.
    + apply lookup_ge_None in Eb. apply lookup_lt_Some in Ev. lia.
  - rewrite lookup_zip_with, Ev. done.
Qed.

(** The loop computes the range of the components of the valid values. *)
Lemma component_range_spec component lo hi nulls values idx h mn mx :
  (∀ i v, values !! i = Some v -> is_null nulls (idx + i) = false -> lo <= component v <= hi) ->
  (h = true -> lo <= mn /\ mn <= mx /\ mx <= hi) ->
  i32_min <= lo -> hi <= i32_max -> (h = false -> mn = i32_max /\ mx = i32_min) ->
  let '(h', mn', mx') := component_range component nulls idx values (h, mn, mx) in
  (h' = true -> lo <= mn' /\ mn' <= mx' /\ mx' <= hi)
  /\ (h' = false -> h = false /\ ∀ i v, values !! i = Some v -> is_null nulls (idx + i) = true)
  /\ mn' <= mn /\ mx <= mx'
  /\ (∀ i v, values !! i = Some v -> is_null nulls (idx + i) = false ->
        mn' <= component v <= mx').
Proof.
  revert idx h mn mx. induction values as [|v values IH]; intros idx h mn mx Hc Hh Hlo Hhi Hf0.
  { cbn. repeat split; try done; try lia; try apply Hh; done. }
  cbn [component_range].
  assert (∀ i w, values !! i = Some w -> is_null nulls (S idx + i) = false ->
            lo <= component w <= hi) as Hc'.
  { intros i w Hw Hn. apply (Hc (S i) w Hw). by rewrite <- Nat.add_succ_comm. }
  pose proof (Hc 0%nat v eq_refl) as Hv. rewrite Nat.add_0_r in Hv.
  destruct (is_null nulls idx) eqn:En.
  - specialize (IH (S idx) h mn mx Hc' Hh Hlo Hhi Hf0).
    destruct (component_range _ _ _ _ _) as [[h' mn'] mx'].
    destruct IH as (I1 & I2 & I3 & I4 & I5). split_and!; try done.
    + intros E. destruct (I2 E) as [Eh Hnull]. split; [done|]. intros [|i] w Hw.
      * by rewrite Nat.add_0_r.
      * rewrite <- Nat.add_succ_comm. by eapply Hnull.
    + intros [|i] w Hw Hn; [rewrite Nat.add_0_r in Hn; congruence|].
      rewrite <- Nat.add_succ_comm in Hn. by eapply I5.
  - specialize (Hv eq_refl).
    set (mn1 := if component v <? mn then component v else mn).
    set (mx1 := if component v >? mx then component v else mx).
    assert (mn1 <= component v <= mx1 /\ mn1 <= mn /\ mx <= mx1 /\ lo <= mn1 /\ mx1 <= hi) as Hb.
    { unfold mn1, mx1, i32_min, i32_max in *.
      destruct (component v <? mn) eqn:E1, (component v >? mx) eqn:E2, h;
        try (destruct (Hh eq_refl)); try (destruct (Hf0 eq_refl)); lia. }
    specialize (IH (S idx) true mn1 mx1 Hc' ltac:(lia) Hlo Hhi ltac:(done)).
    destruct (component_range _ _ _ _ _) as [[h' mn'] mx'].
    destruct IH as (I1 & I2 & I3 & I4 & I5). split_and!; try done; try lia.
    + intros E. by destruct (I2 E).
    + intros [|i] w Hw Hn.
      * injection Hw as <-. lia.
      * rewrite <- Nat.add_succ_comm in Hn. by eapply I5.
Qed.

(** The null shortcut: an all-null array in, nulls out. *)
Lemma all_null_component field ty (len : nat) :
  ∃ p, to_component_array (all_null_squeezed field ty len) = Ret p
       ∧ pa_logical p = replicate len None ∧ pa_wf p.
Proof.
  assert (∀ f, logical (f <$> replicate len 0) (Some (nb_new_null len)) = replicate len None) as E.
  { intros f. cbn. rewrite nb_new_null_bits. apply mask_none.
    by rewrite length_fmap, length_replicate. }
  unfold to_component_array, all_null_squeezed, to_component_date32, to_component_timestamp.
  destruct ty; cbn; eexists; (split; [done|]); (split; [apply E|]);
    unfold pa_wf, pa_new_null; cbn; by rewrite nb_new_null_bits, length_fmap, !length_replicate.
Qed.

Lemma logical_all_none values nulls :
  nulls_len nulls (length values) ->
  (∀ i v, values !! i = Some v -> is_null nulls i = true) ->
  logical values nulls = replicate (length values) None.
Proof.
  intros Hl Hn. apply list_eq. intros i. rewrite logical_lookup by done.
  destruct (values !! i) as [v|] eqn:Ev; cbn.
  - rewrite (Hn i v Ev). symmetry. apply lookup_replicate. split; [done|].
    by apply lookup_lt_Some in Ev.
  - symmetry. apply lookup_ge_None. apply lookup_ge_None in Ev. by rewrite length_replicate.
Qed.

Lemma null_count_all (values : list Z) n :
  length (nb_bits n) = length values -> null_count n = length values ->
  ∀ i v, values !! i = Some v -> is_null (Some n) i = true.
Proof.
  intros Hl Hc i v Hv. unfold null_count in Hc. rewrite <- Hl in Hc.
  apply all_null_bits in Hc. cbn. rewrite Hc.
  apply lookup_lt_Some in Hv. rewrite <- Hl in Hv.
  by rewrite nth_lookup, lookup_replicate_2.
Qed.

(** An offset from the minimum fits the chosen width, and adding it back gives
    the component. *)
Lemma offset_ok comp mn mx :
  -5880000 <= mn <= comp -> comp <= mx <= 5890000 ->
  let b := Z.to_nat (get_bit_width (wrapu 64 (mx - mn))) in
  let off := wrapu 32 (wraps 32 (comp - mn)) in
  1 <= Z.of_nat b <= 32 /\ off mod 2 ^ Z.of_nat b = comp - mn /\ is_word 32 off
  /\ saturating_add32 (wraps 32 (comp - mn)) mn = comp
  /\ wraps 32 (wraps 32 (comp - mn) + mn) = comp.
Proof.
  intros H3 H4 b off. unfold off, b.
  rewrite (wrapu_id 64) by lia. rewrite (wraps_id 32 (comp - mn)) by lia.
  rewrite (wrapu_id 32) by lia.
  pose proof (get_bit_width_range (mx - mn) ltac:(lia)) as [Hr Hlt].
  pose proof (get_bit_width_least (mx - mn) 32 ltac:(lia) ltac:(lia) ltac:(lia)).
  rewrite Z2Nat.id by lia. split_and!; try lia.
  - apply Z.mod_small. lia.
  - unfold is_word. lia.
  - unfold saturating_add32, i32_min, i32_max. lia.
  - rewrite wraps_id; lia.
Qed.

(** The packed offsets, read back with the minimum added, are the components. *)
Lemma offsets_ok component field ty a mn mx :
  nulls_len (pa_nulls a) (length (pa_values a)) ->
  -5880000 <= mn /\ mn <= mx /\ mx <= 5890000 ->
  (∀ i v, pa_values a !! i = Some v -> is_null (pa_nulls a) (0 + i) = false ->
     mn <= component v <= mx) ->
  ∃ p, to_component_array
         (SqueezedDate32 field
            (bp_from_primitive 32
               (Prim (imap (λ idx v, if is_null (pa_nulls a) idx then 0
                                     else wrapu 32 (wraps 32 (component v - mn))) (pa_values a))
                  (pa_nulls a))
               (Z.to_nat (get_bit_width (wrapu 64 (mx - mn)))))
            mn ty None) = Ret p
       ∧ pa_logical p = map_valid component (pa_logical a) ∧ pa_wf p.
Proof.
  intros Hnl Hb Hr. set (offsets := imap _ _). set (bw := Z.to_nat _).
  assert (word_size 32) as Hw by (unfold word_size; lia).
  assert (1 <= Z.of_nat bw <= 32) as Hbw.
  { destruct (offset_ok mn mn mx ltac:(lia) ltac:(lia)) as [Hbw _]. exact Hbw. }
  assert (length offsets = length (pa_values a)) as Hol by apply length_imap.
  assert (Forall (is_word 32) offsets) as Hword.
  { apply Forall_lookup. intros i x Hx. unfold offsets in Hx. rewrite list_lookup_imap in Hx.
    destruct (pa_values a !! i) as [v|] eqn:Ev; [|done]. cbn in Hx. injection Hx as <-.
    destruct (is_null (pa_nulls a) i) eqn:En; [unfold is_word; lia|].
    specialize (Hr i v Ev En).
    by destruct (offset_ok (component v) mn mx ltac:(lia) ltac:(lia)) as (_ & _ & Hx & _). }
  pose proof (bp_roundtrip 32 Hw (Prim offsets (pa_nulls a)) bw Hword Hbw) as E.
  cbn [pa_values pa_nulls] in E.
  assert (∀ (add : Z -> Z -> Z), add = saturating_add32 \/ add = (λ x y, wraps 32 (x + y)) ->
    logical ((λ v, add (wraps 32 v) mn) <$> ((λ v, v mod 2 ^ Z.of_nat bw) <$> offsets)) (pa_nulls a)
    = map_valid component (pa_logical a)) as Hadd.
  { intros add Hadd. apply list_eq. intros i. unfold pa_logical, map_valid.
    rewrite list_lookup_fmap, !logical_lookup
      by (rewrite ?length_fmap; unfold offsets; rewrite ?length_imap; done).
    rewrite !list_lookup_fmap. unfold offsets. rewrite list_lookup_imap.
    destruct (pa_values a !! i) as [v|] eqn:Ev; cbn; [|done].
    destruct (is_null (pa_nulls a) i) eqn:En; [done|]. cbn. do 2 f_equal.
    specialize (Hr i v Ev En).
    destruct (offset_ok (component v) mn mx ltac:(lia) ltac:(lia)) as (_ & Eo & _ & E1 & E2).
    cbv zeta in Eo. fold bw in Eo. rewrite Eo. by destruct Hadd as [-> | ->]. }
  unfold to_component_array, to_component_date32, to_component_timestamp.
  destruct ty; cbn [sd_original_data_type sd_bit_packed sd_reference_value]; rewrite E; cbn;
    (eexists; split; [done|]); (split; [|unfold pa_wf; cbn; destruct (pa_nulls a); [by rewrite !length_fmap, Hol|done]]).
  - apply (Hadd saturating_add32). by left.
  - apply (Hadd (λ x y, wraps 32 (x + y))). by right.
Qed.

(** Building from components and reading them back. *)
Lemma from_components_ok component field ty a :
  pa_wf a ->
  (∀ i v, pa_values a !! i = Some v -> is_null (pa_nulls a) i = false ->
     -5880000 <= component v <= 5890000) ->
  ∃ p, to_component_array (from_components component field ty a) = Ret p
       ∧ pa_logical p = map_valid component (pa_logical a) ∧ pa_wf p.
Proof.
  intros Hwf Hc. assert (nulls_len (pa_nulls a) (length (pa_values a))) as Hnl.
  { unfold pa_wf in Hwf. by destruct (pa_nulls a). }
  unfold from_components.
  assert (∀ (Hall : ∀ i v, pa_values a !! i = Some v -> is_null (pa_nulls a) i = true),
    ∃ p, to_component_array (all_null_squeezed field ty (length (pa_values a))) = Ret p
         ∧ pa_logical p = map_valid component (pa_logical a) ∧ pa_wf p) as Hallnull.
  { intros Hall. destruct (all_null_component field ty (length (pa_values a))) as (p & E & El & Wp).
    exists p. split; [done|]. split; [|done]. rewrite El. unfold pa_logical.
    rewrite logical_all_none by done. unfold map_valid. by rewrite fmap_replicate. }
  destruct (match pa_nulls a with Some n => _ | None => false end) eqn:Enull.
  { apply Hallnull. destruct (pa_nulls a) as [n|] eqn:En; [|done].
    apply bool_decide_eq_true in Enull. by apply null_count_all. }
  pose proof (component_range_spec component (-5880000) 5890000 (pa_nulls a) (pa_values a) 0
    false i32_max i32_min Hc ltac:(done) ltac:(unfold i32_min; lia) ltac:(unfold i32_max; lia)
    ltac:(done)) as R.
  destruct (component_range _ _ _ _ _) as [[h mn] mx]. destruct R as (R1 & R2 & _ & _ & R5).
  destruct h; cbn [negb]; [|apply Hallnull; by apply R2].
  specialize (R1 eq_refl). by apply offsets_ok.
Qed.

Lemma from_components_len component field ty a :
  sd_len (from_components component field ty a) = length (pa_values a).
Proof.
  unfold from_components. destruct (match pa_nulls a with Some n => _ | None => false end); [done|].
  destruct (component_range _ _ _ _ _) as [[[] mn] mx]; cbn [negb]; [|done].
  unfold sd_len, bp_len. cbn [sd_bit_packed bp_from_primitive original_len pa_values]. apply length_imap.
Qed.

Lemma from_components_parts component field ty a :
  sd_field (from_components component field ty a) = field
  ∧ sd_original_data_type (from_components component field ty a) = ty.
Proof.
  unfold from_components. destruct (match pa_nulls a with Some n => _ | None => false end); [done|].
  by destruct (component_range _ _ _ _ _) as [[[] mn] mx].
Qed.
End lemmas.

(** ** Properties *)

(** A squeezed date or timestamp column gives back, at every row, the
    component of the original value, and nulls where the column has nulls. *)
Theorem squeezed_component_roundtrip `{NullBufferLaws} `{FastlanesLaws} field ty a :
  pa_wf a ->
  (∀ i v, pa_values a !! i = Some v -> is_null (pa_nulls a) i = false ->
     match ty with
     | TDate32 => is_i32 v
     | TTimestamp unit => is_i32 (v / ticks_per_day unit)
     end) ->
  let component v :=
    component_from_days field
      (match ty with TDate32 => v | TTimestamp unit => v / ticks_per_day unit end) in
  ∃ p, to_component_array
         (match ty with
          | TDate32 => from_liquid_date32 field a
          | TTimestamp unit => from_liquid_timestamp unit field a
          end) = Ret p
       ∧ pa_logical p = map_valid component (pa_logical a).
Proof.
  intros Hwf Hv component. destruct ty as [|unit].
  - destruct (from_components_ok component field TDate32 a Hwf) as (p & E & El & _); [|by exists p].
    intros i v Hi Hn. apply component_bounds. eauto.
  - destruct (from_components_ok
      (λ v, component_from_days field (timestamp_to_days_since_epoch v unit)) field
      (TTimestamp unit) a Hwf) as (p & E & El & _).
    { intros i v Hi Hn. specialize (Hv i v Hi Hn). unfold timestamp_to_days_since_epoch.
      rewrite wraps_i32 by done. by apply component_bounds. }
    exists p. split; [done|]. rewrite El. unfold map_valid, pa_logical. apply list_eq. intros i.
    assert (nulls_len (pa_nulls a) (length (pa_values a))) as Hnl.
    { unfold pa_wf in Hwf. by destruct (pa_nulls a). }
    rewrite !list_lookup_fmap, !logical_lookup by done.
    destruct (pa_values a !! i) as [v|] eqn:Ev; [|done]. cbn [fmap option_fmap option_map].
    destruct (is_null (pa_nulls a) i) eqn:En; [done|]. cbn [option_map]. do 2 f_equal.
    unfold component, timestamp_to_days_since_epoch. by rewrite (wraps_i32 _ (Hv i v Ev En)).
Qed.

Lemma squeezed_component_roundtrip_witness :
  ∃ p, to_component_array (from_liquid_date32 Year (Prim [0; 365; 19783] None)) = Ret p
       ∧ pa_logical p = [Some 1970; Some 1971; Some 2024].
Proof.
  destruct (squeezed_component_roundtrip Year TDate32 (Prim [0; 365; 19783] None)) as (p & E & El).
  - exact I.
  - intros [|[|[|i]]] v; cbn; intros [= <-] _ || discriminate; unfold is_i32; lia.
  - exists p. split; [exact E|]. rewrite El. vm_compute. reflexivity.
Defined.

(** The lossy reconstruction keeps the component: the day that
    [to_arrow_date32_lossy] rebuilds from a component has that component (for the
    year, as long as January 1st of the year fits an [i32]). *)
Theorem lossy_day_component field days :
  is_i32 days -> (field = Year -> - 2 ^ 31 + 366 <= days) ->
  component_from_days field (lossy_day field (component_from_days field days))
  = component_from_days field days.
Proof.
  intros H Hy. pose proof (days_of_ymd_of_days days) as [V E].
  pose proof (ymd_of_days_bounds days H) as B.
  unfold component_from_days at 2 3. rewrite (ymd_from_epoch_days_eq days) by done.
  destruct (ymd_of_days days) as [[y m] d]. destruct V as [Hm Hd]. destruct B as (By & _ & Bd).
  destruct field; cbn [lossy_day].
  - assert (is_i32 (days_of_ymd y 1 1)) as Hi.
    { specialize (Hy eq_refl). unfold is_i32 in *.
      rewrite days_of_ymd_eq in E by done. rewrite days_of_ymd_eq by lia.
      change (march_year y 1) with (y - 1). change (march_month 1) with 10.
      change (month_start 10) with 306. unfold march_year, march_month in E.
      pose proof (days_before_year_step (y - 1)) as S. replace (y - 1 + 1) with y in S by lia.
      destruct (m <=? 2) eqn:G1, (m >? 2) eqn:G2; try lia;
        [|replace (y - 0) with y in E by lia]; destruct (is_leap y);
        unfold month_start in *; Z.to_euclidean_division_equations; lia. }
    unfold component_from_days. unfold ymd_to_epoch_days. rewrite wraps_i32 by done.
    rewrite ymd_from_epoch_days_eq by done. rewrite ymd_of_days_of_ymd; [done|].
    split; [lia|]. pose proof (days_in_month_range y 1). lia.
  - rewrite (wraps_id 32 m), wrapu_id by lia. unfold component_from_days.
    assert (∃ k, m = 1 + Z.of_nat k /\ (k < 12)%nat) as (k & -> & Hk).
    { exists (Z.to_nat (m - 1)). lia. }
    do 12 (destruct k as [|k]; [reflexivity|]). lia.
  - rewrite (wraps_id 32 d), wrapu_id by lia. unfold component_from_days.
    assert (∃ k, d = 1 + Z.of_nat k /\ (k < 31)%nat) as (k & -> & Hk).
    { exists (Z.to_nat (d - 1)). lia. }
    do 31 (destruct k as [|k]; [reflexivity|]). lia.
  - pose proof (Z.mod_pos_bound (wraps 32 (days + 4)) 7 ltac:(lia)) as Hr.
    fold (day_of_week_sunday0 days) in Hr. set (w := day_of_week_sunday0 days) in *.
    assert (∃ k, w = Z.of_nat k /\ (k < 7)%nat) as (k & -> & Hk).
    { exists (Z.to_nat w). lia. }
    do 7 (destruct k as [|k]; [reflexivity|]). lia.
Qed.

Lemma lossy_day_component_witness :
  component_from_days Year (lossy_day Year (component_from_days Year 19783)) = 2024.
Proof.
  etransitivity; [apply (lossy_day_component Year 19783)|vm_compute; reflexivity].
  - unfold is_i32. lia.
  - intros _. lia.
Defined.
