(* ===== verification/Expressions.v ===== *)
(** * Cache expressions

    Model of [src/src/storage/src/cache/expressions.rs]: the hints a query attaches
    to a read or an insertion.  [DataType] is Arrow's, a parameter with its
    [Display] function. *)

From stdpp Require Import base list strings.
From Stdlib Require Import ZArith Ascii String.
From S2P Require Import Prelude CivilDate.

Section expressions.
Context {DataType : Type} (show_type : DataType → string).

Record VariantRequest : Type := VRequest {
  vr_path : string;
  vr_data_type : DataType
}.

Inductive CacheExpression : Type :=
| ExtractDate32 (field : Date32Field)
| VariantGet (requests : list VariantRequest)
| PredicateColumn
| SubstringSearch.

Definition extract_date32 (field : Date32Field) : CacheExpression := ExtractDate32 field.

Definition variant_get (path : string) (data_type : DataType) : CacheExpression :=
  VariantGet [VRequest path data_type].

(** [assert!(!requests.is_empty(), ..)]. *)
Definition variant_get_many (requests : list (string * DataType)) : outcome CacheExpression :=
  let requests := (λ r, VRequest r.1 r.2) <$> requests in
  match requests with
  | [] => Panic
  | _ => Ret (VariantGet requests)
  end.

Definition substring_search : CacheExpression := SubstringSearch.

(** [to_ascii_uppercase]. *)
Definition ascii_upper (c : ascii) : ascii :=
  let n := nat_of_ascii c in
  if (Nat.leb 97 n && Nat.leb n 122)%bool then ascii_of_nat (n - 32) else c.

Fixpoint to_ascii_uppercase (s : string) : string :=
  match s with
  | EmptyString => EmptyString
  | String c s => String (ascii_upper c) (to_ascii_uppercase s)
  end.

Definition date_part (upper : string) : option Date32Field :=
  if String.eqb upper "YEAR" then Some Year
  else if String.eqb upper "MONTH" then Some Month
  else if String.eqb upper "DAY" then Some Day
  else if (String.eqb upper "DOW" || String.eqb upper "DAYOFWEEK"
           || String.eqb upper "DAY_OF_WEEK")%bool then Some DayOfWeek
  else None.

Definition try_from_date_part_str (value : string) : option CacheExpression :=
  ExtractDate32 <$> date_part (to_ascii_uppercase value).

Definition as_date32_field (e : CacheExpression) : option Date32Field :=
  match e with
  | ExtractDate32 field => Some field
  | VariantGet _ | PredicateColumn | SubstringSearch => None
  end.

Definition variant_path (e : CacheExpression) : option string :=
  match e with
  | VariantGet requests => vr_path <$> head requests
  | ExtractDate32 _ | PredicateColumn | SubstringSearch => None
  end.

Definition variant_data_type (e : CacheExpression) : option DataType :=
  match e with
  | VariantGet requests => vr_data_type <$> head requests
  | ExtractDate32 _ | PredicateColumn | SubstringSearch => None
  end.

Definition variant_requests (e : CacheExpression) : option (list VariantRequest) :=
  match e with
  | VariantGet requests => Some requests
  | ExtractDate32 _ | PredicateColumn | SubstringSearch => None
  end.

(** [Display]. *)
Definition show_field (f : Date32Field) : string :=
  match f with Year => "Year" | Month => "Month" | Day => "Day" | DayOfWeek => "DayOfWeek" end.

Fixpoint join_comma (l : list string) : string :=
  match l with
  | [] => ""
  | [s] => s
  | s :: l => s +:+ "," +:+ join_comma l
  end.

Definition show_expression (e : CacheExpression) : string :=
  match e with
  | VariantGet requests =>
      "VariantGet["
      +:+ join_comma ((λ r, vr_path r +:+ ":" +:+ show_type (vr_data_type r)) <$> requests)
      +:+ "]"
  | ExtractDate32 field => "ExtractDate32:" +:+ show_field field
  | PredicateColumn => "PredicateColumn"
  | SubstringSearch => "SubstringSearch"
  end.

(** ** Lemmas *)

Lemma ascii_upper_idem c : ascii_upper (ascii_upper c) = ascii_upper c.
Proof. destruct c as [[] [] [] [] [] [] [] []]; reflexivity. Qed.

Lemma to_ascii_uppercase_idem s :
  to_ascii_uppercase (to_ascii_uppercase s) = to_ascii_uppercase s.
Proof. induction s as [|c s IH]; [done|]. simpl. by rewrite ascii_upper_idem, IH. Qed.
End expressions.
Arguments VariantRequest DataType : clear implicits.
Arguments CacheExpression DataType : clear implicits.

(** A date part is recognised whatever the case it is written in, and an
    expression built from one answers with its field and with no variant path. *)
Theorem date_part_case_insensitive {DataType : Type} (value : string) :
  try_from_date_part_str (DataType := DataType) (to_ascii_uppercase value)
  = try_from_date_part_str value
  ∧ (∀ e, try_from_date_part_str (DataType := DataType) value = Some e →
       as_date32_field e = date_part (to_ascii_uppercase value)
       ∧ variant_requests e = None ∧ variant_path e = None ∧ variant_data_type e = None).
Proof.
  unfold try_from_date_part_str. rewrite to_ascii_uppercase_idem. split; [done|].
  intros e. destruct (date_part _) as [f|]; [|done]. by intros [= <-].
Qed.
