(* ===== verification/Budget.v ===== *)
(** * The memory budget

    Model of [src/src/storage/src/cache/budget.rs].  [BudgetAccounting] holds two
    atomics.  The operations are first given as the functions a thread runs
    alone; [try_reserve_memory] is a load followed by a compare-exchange, so its
    interleavings are then modelled as a step relation over threads. *)

From stdpp Require Import base list relations.
From Stdlib Require Import ZArith Lia.
From S2P Require Import Prelude.
Local Open Scope Z_scope.

Record BudgetAccounting : Type := Budget {
  max_memory_bytes : Z;
  used_memory_bytes : Z;
  used_disk_bytes : Z
}.

Definition budget_new (max_memory_bytes : Z) : BudgetAccounting := Budget max_memory_bytes 0 0.

Definition reset_usage (b : BudgetAccounting) : BudgetAccounting := Budget (max_memory_bytes b) 0 0.

(** [None] is [Err(())].  Alone, the compare-exchange finds what was loaded. *)
Definition try_reserve_memory (request_bytes : Z) (b : BudgetAccounting) : option BudgetAccounting :=
  let used := used_memory_bytes b in
  if usize (used + request_bytes) >? max_memory_bytes b then None
  else Some (Budget (max_memory_bytes b) (usize (used + request_bytes)) (used_disk_bytes b)).

Definition try_update_memory_usage (old_size new_size : Z) (b : BudgetAccounting)
    : option BudgetAccounting :=
  if old_size <? new_size then try_reserve_memory (new_size - old_size) b
  else Some (Budget (max_memory_bytes b) (usize (used_memory_bytes b - (old_size - new_size)))
               (used_disk_bytes b)).

Definition memory_usage_bytes (b : BudgetAccounting) : Z := used_memory_bytes b.
Definition disk_usage_bytes (b : BudgetAccounting) : Z := used_disk_bytes b.

Definition add_used_disk_bytes (bytes : Z) (b : BudgetAccounting) : BudgetAccounting :=
  Budget (max_memory_bytes b) (used_memory_bytes b) (usize (used_disk_bytes b + bytes)).

(** ** Threads

    A thread reserving memory is about to load, or has loaded [used] and is
    about to compare-exchange, or has its answer.  A thread giving memory back
    does one [fetch_sub]. *)
Inductive thread : Type :=
| Loading (request : Z)
| Exchanging (request used : Z)
| Answered (request : Z) (ok : bool)
| Releasing (bytes : Z)
| Released (bytes : Z).

(** One atomic access of one thread. *)
Definition thread_step (max used : Z) (t : thread) : option (Z * thread) :=
  match t with
  | Loading request =>
      Some (used, if usize (used + request) >? max then Answered request false
                  else Exchanging request used)
  | Exchanging request u =>
      if used =? u then Some (usize (u + request), Answered request true)
      else Some (used, Loading request)
  | Releasing bytes => Some (usize (used - bytes), Released bytes)
  | Answered _ _ | Released _ => None
  end.

Inductive step (max : Z) : Z * list thread → Z * list thread → Prop :=
| step_thread used used' a t t' b :
    thread_step max used t = Some (used', t') →
    step max (used, a ++ t :: b) (used', a ++ t' :: b).

(** What a thread has taken from the budget, or may still give back. *)
Definition taken (t : thread) : Z :=
  match t with
  | Answered request true => request
  | Released bytes => - bytes
  | _ => 0
  end.

Definition to_release (t : thread) : Z :=
  match t with Releasing bytes => bytes | _ => 0 end.

Definition sum_z (f : thread → Z) (ts : list thread) : Z := foldr (λ t s, f t + s) 0 ts.

Definition thread_ok (max : Z) (t : thread) : Prop :=
  match t with
  | Loading r | Answered r _ => 0 <= r < 2 ^ 63
  | Exchanging r u => 0 <= r < 2 ^ 63 ∧ 0 <= u ∧ u + r <= max
  | Releasing n | Released n => 0 <= n
  end.

(** [base] is what was in use before the threads started. *)
Record conc_inv (max base : Z) (s : Z * list thread) : Prop := {
  ci_used : s.1 = base + sum_z taken s.2;
  ci_bound : s.1 <= max;
  ci_owned : sum_z to_release s.2 <= s.1;
  ci_threads : Forall (thread_ok max) s.2
}.

Lemma sum_z_app f a b : sum_z f (a ++ b) = sum_z f a + sum_z f b.
Proof. induction a as [|t a IH]; simpl; [done|]. unfold sum_z in *. simpl. lia. Qed.

Lemma to_release_nonneg max ts : Forall (thread_ok max) ts → 0 <= sum_z to_release ts.
Proof.
  induction 1 as [|t ts Ht _ IH]; unfold sum_z in *; simpl; [lia|].
  destruct t; simpl in *; lia.
Qed.

Lemma conc_inv_step max base s s' :
  max <= 2 ^ 63 → conc_inv max base s → step max s s' → conc_inv max base s'.
Proof.
  intros Hmax [Hu Hb Ho Ht] Hs. destruct Hs as [used used' a t t' b E]. cbn [fst snd] in *.
  pose proof Ht as Ht0. apply Forall_app in Ht as [Ha Hb']. apply Forall_cons in Hb' as [Htt Hb'].
  pose proof (to_release_nonneg _ _ Ha). pose proof (to_release_nonneg _ _ Hb').
  assert (∀ f x y, sum_z f (x ++ y :: b) = sum_z f x + (f y + sum_z f b)) as Hsum
    by (intros f x y; rewrite sum_z_app; reflexivity).
  rewrite Hsum in Hu, Ho.
  destruct t as [r|r u|r ok|n|n]; cbn [thread_step] in E; try discriminate;
    cbn [taken to_release thread_ok] in *.
  - injection E as <- <-. unfold usize. rewrite Z.mod_small by lia.
    destruct (used + r >? max) eqn:G; split; cbn [fst snd]; rewrite ?Hsum; cbn; try lia;
      apply Forall_app; (split; [done|]); constructor; try done; cbn; lia.
  - destruct (used =? u) eqn:G; injection E as <- <-.
    + assert (used = u) as -> by lia. machine.
      split; cbn [fst snd]; rewrite ?Hsum; cbn; try lia.
      apply Forall_app. split; [done|]. constructor; [cbn; lia|done].
    + split; cbn [fst snd]; rewrite ?Hsum; cbn; try lia.
      apply Forall_app. split; [done|]. constructor; [cbn; lia|done].
  - injection E as <- <-. machine.
    split; cbn [fst snd]; rewrite ?Hsum; cbn; try lia.
    apply Forall_app. split; [done|]. constructor; [cbn; lia|done].
Qed.

Lemma conc_inv_steps max base s s' :
  max <= 2 ^ 63 → conc_inv max base s → rtc (step max) s s' → conc_inv max base s'.
Proof. intros Hm I Hs. induction Hs; eauto using conc_inv_step. Qed.

(** What the threads start from: nothing answered yet. *)
Definition fresh_thread (t : thread) : Prop :=
  match t with
  | Loading r => 0 <= r < 2 ^ 63
  | Releasing n => 0 <= n
  | _ => False
  end.

Lemma conc_inv_start max base ts :
  Forall fresh_thread ts → base <= max → sum_z to_release ts <= base →
  conc_inv max base (base, ts).
Proof.
  intros F Hb Hr. split; cbn [fst snd]; [|done|done|].
  - clear Hr. assert (sum_z taken ts = 0) as ->; [|lia].
    induction F as [|t ts Ht _ IH]; [done|]. unfold sum_z in *. simpl. rewrite IH.
    by destruct t.
  - eapply Forall_impl; [exact F|]. intros []; simpl; lia || done.
Qed.

(** ** The sequential operations *)

Lemma try_reserve_ok n b :
  0 <= used_memory_bytes b <= max_memory_bytes b → max_memory_bytes b <= 2 ^ 63 → 0 <= n < 2 ^ 63 →
  try_reserve_memory n b
  = if used_memory_bytes b + n <=? max_memory_bytes b
    then Some (Budget (max_memory_bytes b) (used_memory_bytes b + n) (used_disk_bytes b))
    else None.
Proof.
  intros Hu Hm Hn. unfold try_reserve_memory. machine.
  destruct (_ >? _) eqn:E, (_ <=? _) eqn:F; lia || done.
Qed.

Lemma try_update_ok o n b :
  0 <= used_memory_bytes b <= max_memory_bytes b → max_memory_bytes b <= 2 ^ 63 →
  0 <= o <= used_memory_bytes b → 0 <= n < 2 ^ 63 →
  try_update_memory_usage o n b
  = if used_memory_bytes b - o + n <=? max_memory_bytes b
    then Some (Budget (max_memory_bytes b) (used_memory_bytes b - o + n) (used_disk_bytes b))
    else None.
Proof.
  intros Hu Hm Ho Hn. unfold try_update_memory_usage. destruct (o <? n) eqn:E.
  - rewrite try_reserve_ok by lia.
    replace (used_memory_bytes b + (n - o)) with (used_memory_bytes b - o + n) by lia. done.
  - machine. destruct (_ <=? _) eqn:F; [|lia]. do 2 f_equal. lia.
Qed.

(** ** Properties *)

(** C12: whatever the interleaving of threads reserving and releasing memory, the
    usage never exceeds the maximum and is exactly what was in use before, plus
    the reservations that were granted, minus what was released: no update is
    lost. *)
Theorem budget_interleaving_safe max base ts s :
  max <= 2 ^ 63 → base <= max → Forall fresh_thread ts → sum_z to_release ts <= base →
  rtc (step max) (base, ts) s →
  0 <= s.1 <= max ∧ s.1 = base + sum_z taken s.2.
Proof.
  intros Hm Hb F Hr Hs.
  pose proof (conc_inv_steps _ _ _ _ Hm (conc_inv_start max base ts F Hb Hr) Hs) as [Hu Hu' Ho Ht].
  pose proof (to_release_nonneg _ _ Ht). lia.
Qed.

Lemma budget_interleaving_safe_witness :
  0 <= 90 <= 100 ∧ 90 = 10 + sum_z taken [Answered 80 true; Answered 60 false].
Proof.
  apply (budget_interleaving_safe 100 10 [Loading 80; Loading 60] (90, [Answered 80 true; Answered 60 false])).
  - lia.
  - lia.
  - repeat constructor; cbn; lia.
  - cbn. lia.
  - eapply rtc_l; [apply (step_thread 100 10 10 [] (Loading 80) (Exchanging 80 10) [Loading 60]); reflexivity|].
    eapply rtc_l; [apply (step_thread 100 10 10 [Exchanging 80 10] (Loading 60) (Exchanging 60 10) []); reflexivity|].
    eapply rtc_l; [apply (step_thread 100 10 90 [] (Exchanging 80 10) (Answered 80 true) [Exchanging 60 10]); reflexivity|].
    eapply rtc_l; [apply (step_thread 100 90 90 [Answered 80 true] (Exchanging 60 10) (Loading 60) []); reflexivity|].
    eapply rtc_l; [apply (step_thread 100 90 90 [Answered 80 true] (Loading 60) (Answered 60 false) []); reflexivity|].
    apply rtc_refl.
Defined.
