(* ===== verification/DataTypes.v ===== *)
(** * Arrow data types

    The type tags the storage crate matches on: [arrow_schema::DataType] and
    [Field] with the constructors the source names (the others are one
    constructor carrying a code), and the byte-array type tags of
    [src/src/storage/src/liquid_array/byte_array.rs] and [mod.rs]. *)

From stdpp Require Import base list strings.
From Stdlib Require Import ZArith String.
From S2P Require Import Prelude CivilDate.

Inductive DataType : Type :=
| TInt8 | TInt16 | TInt32 | TInt64
| TUInt8 | TUInt16 | TUInt32 | TUInt64
| TDate32 | TDate64
| TTimestamp (unit : TimeUnit) (tz : option string)
| TFloat32 | TFloat64
| TDecimal128 (precision scale : Z)
| TDecimal256 (precision scale : Z)
| TUtf8 | TUtf8View | TLargeUtf8 | TBinary | TBinaryView
| TDictionary (key value : DataType)
| TStruct (fields : list Field)
| TOther (code : nat)
with Field : Type := mkField (name : string) (data_type : DataType) (nullable : bool).

Definition f_name (f : Field) : string := let 'mkField n _ _ := f in n.
Definition f_type (f : Field) : DataType := let 'mkField _ t _ := f in t.

#[export] Instance TimeUnit_eq_dec : EqDecision TimeUnit.
Proof. solve_decision. Defined.

Fixpoint data_type_eq_dec (a b : DataType) {struct a} : {a = b} + {a <> b}
with field_eq_dec (f g : Field) {struct f} : {f = g} + {f <> g}.
Proof.
  - decide equality; try apply (decide (_ = _)). apply (List.list_eq_dec field_eq_dec).
  - decide equality; apply (decide (_ = _)).
Defined.

#[export] Instance DataType_eq_dec : EqDecision DataType := data_type_eq_dec.

(** The types [LiquidPrimitiveArray] and [LiquidFixedLenByteArray] encode. *)
Definition is_liquid_primitive (t : DataType) : bool :=
  match t with
  | TInt8 | TInt16 | TInt32 | TInt64 | TUInt8 | TUInt16 | TUInt32 | TUInt64
  | TDate32 | TDate64 | TTimestamp _ None => true
  | _ => false
  end.

Definition is_decimal (t : DataType) : bool :=
  match t with TDecimal128 _ _ | TDecimal256 _ _ => true | _ => false end.

Definition is_float (t : DataType) : bool :=
  match t with TFloat32 | TFloat64 => true | _ => false end.

Definition is_byte_type (t : DataType) : bool :=
  match t with
  | TUtf8 | TUtf8View | TBinary | TBinaryView
  | TDictionary TUInt16 TBinary | TDictionary TUInt16 TUtf8 => true
  | _ => false
  end.

(** A dictionary with [UInt16] keys must have binary or string values. *)
Definition dictionary_supported (t : DataType) : bool :=
  match t with
  | TDictionary TUInt16 TBinary | TDictionary TUInt16 TUtf8 => true
  | TDictionary TUInt16 _ => false
  | _ => true
  end.

(** [LiquidDataType] and its [From<u16>]. *)
Inductive LiquidDataType : Type :=
| LByteArray | LInteger | LFloat | LFixedLenByteArray | LByteViewArray | LLinearInteger.

Definition liquid_data_type_code (t : LiquidDataType) : Z :=
  match t with
  | LByteArray => 0 | LByteViewArray => 4 | LInteger => 1
  | LFloat => 2 | LFixedLenByteArray => 3 | LLinearInteger => 5
  end%Z.

Definition liquid_data_type_from (value : Z) : outcome LiquidDataType :=
  match value with
  | 0%Z => Ret LByteArray
  | 4%Z => Ret LByteViewArray
  | 1%Z => Ret LInteger
  | 2%Z => Ret LFloat
  | 3%Z => Ret LFixedLenByteArray
  | 5%Z => Ret LLinearInteger
  | _ => Panic
  end.

(** [ArrowByteType], its [From<u16>], [to_arrow_type] and [from_arrow_type]. *)
Inductive ArrowByteType : Type :=
| BUtf8 | BUtf8View | BDict16Binary | BDict16Utf8 | BBinary | BBinaryView.

Definition arrow_byte_type_code (t : ArrowByteType) : Z :=
  match t with
  | BUtf8 => 0 | BUtf8View => 1 | BDict16Binary => 2
  | BDict16Utf8 => 3 | BBinary => 4 | BBinaryView => 5
  end%Z.

Definition arrow_byte_type_of_code (value : Z) : outcome ArrowByteType :=
  match value with
  | 0%Z => Ret BUtf8
  | 1%Z => Ret BUtf8View
  | 2%Z => Ret BDict16Binary
  | 3%Z => Ret BDict16Utf8
  | 4%Z => Ret BBinary
  | 5%Z => Ret BBinaryView
  | _ => Panic
  end.

Definition to_arrow_type (t : ArrowByteType) : DataType :=
  match t with
  | BUtf8 => TUtf8
  | BUtf8View => TUtf8View
  | BDict16Binary => TDictionary TUInt16 TBinary
  | BDict16Utf8 => TDictionary TUInt16 TUtf8
  | BBinary => TBinary
  | BBinaryView => TBinaryView
  end.

Definition from_arrow_type (ty : DataType) : outcome ArrowByteType :=
  match ty with
  | TUtf8 => Ret BUtf8
  | TUtf8View => Ret BUtf8View
  | TBinary => Ret BBinary
  | TBinaryView => Ret BBinaryView
  | TDictionary TUInt16 TBinary => Ret BDict16Binary
  | TDictionary TUInt16 TUtf8 => Ret BDict16Utf8
  | _ => Panic
  end.

Definition is_string (t : ArrowByteType) : bool :=
  match t with BUtf8 | BUtf8View | BDict16Utf8 => true | _ => false end.

(** [ByteViewBuildOptions] and its [for_data_type]. *)
Record ByteViewBuildOptions : Type := BVOptions {
  bv_arrow_type : ArrowByteType;
  bv_build_fingerprints : bool
}.

Definition for_data_type (ty : DataType) (build_fingerprints : bool) : outcome ByteViewBuildOptions :=
  t ← from_arrow_type ty; Ret (BVOptions t build_fingerprints).

(** ** Properties *)

(** The type tags written in the headers decode to what was encoded, and an
    Arrow type goes through its byte tag unchanged; every type outside the six
    byte types panics instead of being given a tag. *)
Theorem type_tags_roundtrip :
  (∀ t, liquid_data_type_from (liquid_data_type_code t) = Ret t)
  ∧ (∀ t, arrow_byte_type_of_code (arrow_byte_type_code t) = Ret t)
  ∧ (∀ t, from_arrow_type (to_arrow_type t) = Ret t)
  ∧ (∀ ty, from_arrow_type ty = Panic ∨ ∃ t, from_arrow_type ty = Ret t ∧ to_arrow_type t = ty).
Proof.
  split; [by intros []|]. split; [by intros []|]. split; [by intros []|].
  intros ty. destruct ty; simpl; eauto; repeat case_match; eauto.
Qed.
