(* ===== verification/Ipc.v ===== *)
(** * The header of serialised liquid arrays

    Model of [LiquidIPCHeader] and [PrimitivePhysicalType] in
    [src/src/storage/src/liquid_array/ipc.rs], and of [PrimitiveKind] in
    [src/src/storage/src/liquid_array/mod.rs]: the sixteen bytes every liquid
    array starts with, and the integer types it can hold. *)

From stdpp Require Import base list.
From Stdlib Require Import ZArith Lia.
From S2P Require Import Prelude Bytes Arrow DataTypes.
Local Open Scope Z_scope.

Inductive PrimitivePhysicalType : Type :=
| PInt8 | PInt16 | PInt32 | PInt64 | PUInt8 | PUInt16 | PUInt32 | PUInt64
| PFloat32 | PFloat64 | PDate32 | PDate64
| PTimestampSecond | PTimestampMillisecond | PTimestampMicrosecond | PTimestampNanosecond.

#[export] Instance physical_type_eq_dec : EqDecision PrimitivePhysicalType.
Proof. solve_decision. Defined.

Definition physical_type_id (t : PrimitivePhysicalType) : Z :=
  match t with
  | PInt8 => 0 | PInt16 => 1 | PInt32 => 2 | PInt64 => 3
  | PUInt8 => 4 | PUInt16 => 5 | PUInt32 => 6 | PUInt64 => 7
  | PFloat32 => 8 | PFloat64 => 9 | PDate32 => 10 | PDate64 => 11
  | PTimestampSecond => 12 | PTimestampMillisecond => 13
  | PTimestampMicrosecond => 14 | PTimestampNanosecond => 15
  end.

Definition physical_type_try_from (value : Z) : option PrimitivePhysicalType :=
  match value with
  | 0 => Some PInt8 | 1 => Some PInt16 | 2 => Some PInt32 | 3 => Some PInt64
  | 4 => Some PUInt8 | 5 => Some PUInt16 | 6 => Some PUInt32 | 7 => Some PUInt64
  | 8 => Some PFloat32 | 9 => Some PFloat64 | 10 => Some PDate32 | 11 => Some PDate64
  | 12 => Some PTimestampSecond | 13 => Some PTimestampMillisecond
  | 14 => Some PTimestampMicrosecond | 15 => Some PTimestampNanosecond
  | _ => None
  end.

(** The category of the table: an integer type, or a float. *)
Definition is_integer (t : PrimitivePhysicalType) : bool :=
  match t with PFloat32 | PFloat64 => false | _ => true end.

(** The width in bits of the native type, which its [UnSignedType] shares. *)
Definition native_width (t : PrimitivePhysicalType) : Z :=
  match t with
  | PInt8 | PUInt8 => 8
  | PInt16 | PUInt16 => 16
  | PInt32 | PUInt32 | PDate32 | PFloat32 => 32
  | _ => 64
  end.

(** [PrimitiveKind::IS_UNSIGNED]. *)
Definition is_unsigned (t : PrimitivePhysicalType) : bool :=
  match t with PUInt8 | PUInt16 | PUInt32 | PUInt64 => true | _ => false end.

Definition is_timestamp (t : PrimitivePhysicalType) : bool :=
  match t with
  | PTimestampSecond | PTimestampMillisecond | PTimestampMicrosecond | PTimestampNanosecond => true
  | _ => false
  end.

(** A native value, and [as_] to the native type of [t] (a cast wraps). *)
Definition in_native (t : PrimitivePhysicalType) (z : Z) : Prop :=
  if is_unsigned t then 0 <= z < 2 ^ native_width t
  else - 2 ^ (native_width t - 1) <= z < 2 ^ (native_width t - 1).

Definition as_native (t : PrimitivePhysicalType) (z : Z) : Z :=
  if is_unsigned t then wrapu (native_width t) z else wraps (native_width t) z.

(** ** The header *)

Record LiquidIPCHeader : Type := IPCHeader {
  magic : list Z;
  version : Z;
  logical_type : Z;
  physical_type : Z
}.

Definition MAGIC : Z := 0x4C514441.
Definition VERSION : Z := 1.
Definition header_size : nat := 16.

Definition header_new (logical_type_id physical_type_id : Z) : LiquidIPCHeader :=
  IPCHeader (le_bytes 4 MAGIC) VERSION logical_type_id physical_type_id.

Definition header_to_bytes (h : LiquidIPCHeader) : list Z :=
  magic h ++ le_bytes 2 (version h) ++ le_bytes 2 (logical_type h) ++ le_bytes 2 (physical_type h)
  ++ replicate 6 0.

Definition header_from_bytes (bytes : list Z) : outcome LiquidIPCHeader :=
  if (length bytes <? header_size)%nat then Panic
  else
    let magic := take 4 bytes in
    let version := le_val (take 2 (drop 4 bytes)) in
    let logical_type_id := le_val (take 2 (drop 6 bytes)) in
    let physical_type_id := le_val (take 2 (drop 8 bytes)) in
    if bool_decide (magic ≠ le_bytes 4 MAGIC) then Panic
    else if negb (version =? VERSION) then Panic
    else Ret (IPCHeader magic version logical_type_id physical_type_id).

(** ** Lemmas *)

Lemma physical_type_ids t : physical_type_try_from (physical_type_id t) = Some t.
Proof. by destruct t. Qed.

Lemma native_word t : word_size (native_width t).
Proof. unfold word_size. destruct t; cbn; lia. Qed.

Lemma native_width_range t : 8 <= native_width t <= 64.
Proof. destruct t; cbn; lia. Qed.

Lemma as_native_id t z : in_native t z -> as_native t z = z.
Proof.
  unfold in_native, as_native. pose proof (native_width_range t).
  destruct (is_unsigned t); intros Hz; [by apply wrapu_id|]. apply wraps_id; lia.
Qed.

Lemma as_native_range t z : in_native t (as_native t z).
Proof.
  unfold in_native, as_native, wrapu, wraps. pose proof (native_width_range t).
  assert (2 ^ native_width t = 2 * 2 ^ (native_width t - 1)) as E
    by (rewrite <- Z.pow_succ_r by lia; f_equal; lia).
  assert (0 < 2 ^ native_width t) by (apply Z.pow_pos_nonneg; lia).
  destruct (is_unsigned t); [apply Z.mod_pos_bound; lia|].
  pose proof (Z.mod_pos_bound (z + 2 ^ (native_width t - 1)) (2 ^ native_width t)). lia.
Qed.

(** Casts only depend on the value modulo the width. *)
Lemma as_native_mod t a b :
  a mod 2 ^ native_width t = b mod 2 ^ native_width t -> as_native t a = as_native t b.
Proof.
  intros E. unfold as_native, wrapu, wraps. destruct (is_unsigned t); [done|].
  by rewrite Z.add_mod, E, <- Z.add_mod by (pose proof (native_width_range t); lia).
Qed.

Lemma as_native_wrapu t z : as_native t (wrapu (native_width t) z) = as_native t z.
Proof. apply as_native_mod. unfold wrapu. by rewrite Zmod_mod. Qed.

Lemma wrapu_as_native t z : wrapu (native_width t) (as_native t z) = wrapu (native_width t) z.
Proof.
  unfold as_native, wrapu, wraps. pose proof (native_width_range t).
  destruct (is_unsigned t); [by rewrite Zmod_mod|].
  set (m := 2 ^ native_width t). set (h := 2 ^ (native_width t - 1)).
  rewrite Zminus_mod, Zmod_mod, <- Zminus_mod. f_equal. lia.
Qed.

Lemma header_roundtrip l p :
  0 <= l < 2 ^ 16 -> 0 <= p < 2 ^ 16 ->
  ∀ rest, header_from_bytes (header_to_bytes (header_new l p) ++ rest) = Ret (header_new l p).
Proof.
  intros Hl Hp rest. unfold header_to_bytes, header_new. cbn [magic version logical_type physical_type].
  rewrite <- !app_assoc. pose proof (le_val_bytes_id 2 l Hl) as El. pose proof (le_val_bytes_id 2 p Hp) as Ep.
  unfold header_from_bytes. cbn [le_bytes app replicate length take drop] in *. cbn [Nat.ltb Nat.leb header_size].
  rewrite El, Ep. rewrite bool_decide_eq_false_2 by (intros H; by apply H). reflexivity.
Qed.

Lemma length_header h : length (magic h) = 4%nat -> length (header_to_bytes h) = header_size.
Proof. intros Hm. unfold header_to_bytes. by rewrite !length_app, Hm, !length_le_bytes. Qed.
