(* ===== verification/LiquidPrimitive.v ===== *)
(** * Primitive and delta arrays

    Model of [LiquidPrimitiveArray] and [LiquidPrimitiveDeltaArray] in
    [src/src/storage/src/liquid_array/primitive_array.rs], over the bit-packed
    arrays of [BitPack.v].  The type parameter [T] of the source is an argument.
    Arrow's kernels ([min], [max], [filter]) are a class with laws. *)

From stdpp Require Import base list.
From Stdlib Require Import ZArith Lia.
From S2P Require Import Prelude Bytes Arrow BitPack DataTypes Ipc.
Local Open Scope Z_scope.

Class PrimitiveKernels `{NullBuffers} : Type := {
  prim_min : PrimitiveArray -> option Z;
  prim_max : PrimitiveArray -> option Z;
  prim_filter : PrimitiveArray -> list bool -> option PrimitiveArray
}.

(** The values of the rows that are not null. *)
Definition valid_values (l : list (option Z)) : list Z := omap (λ o, o) l.

Class PrimitiveKernelLaws `{PrimitiveKernels} : Prop := {
  prim_min_ok a :
    match prim_min a with
    | None => valid_values (pa_logical a) = []
    | Some m => m ∈ valid_values (pa_logical a) /\ Forall (λ v, m <= v) (valid_values (pa_logical a))
    end;
  prim_max_ok a :
    match prim_max a with
    | None => valid_values (pa_logical a) = []
    | Some m => m ∈ valid_values (pa_logical a) /\ Forall (λ v, v <= m) (valid_values (pa_logical a))
    end;
  prim_filter_ok a m :
    pa_wf a -> (length m <= length (pa_values a))%nat ->
    ∃ a', prim_filter a m = Some a' /\ pa_wf a' /\ pa_logical a' = keep (pa_logical a) m
          /\ ∀ v, v ∈ pa_values a' -> v ∈ pa_values a
}.

Inductive IntegerSqueezePolicy : Type := Clamp | Quantize.

Section primitive.
Context `{NullBuffers} `{Fastlanes} {PK : PrimitiveKernels}.
Context (T : PrimitivePhysicalType).

Local Abbreviation w := (native_width T).

Record LiquidPrimitiveArray : Type := LiquidPrimitive {
  lp_bit_packed : BitPackedArray;
  lp_reference_value : Z;
  lp_squeeze_policy : IntegerSqueezePolicy
}.

Definition lp_len (l : LiquidPrimitiveArray) : nat := bp_len (lp_bit_packed l).
Definition lp_is_empty (l : LiquidPrimitiveArray) : bool := (lp_len l =? 0)%nat.

Definition with_squeeze_policy (policy : IntegerSqueezePolicy) (l : LiquidPrimitiveArray)
    : LiquidPrimitiveArray :=
  LiquidPrimitive (lp_bit_packed l) (lp_reference_value l) policy.

(** The offsets from the minimum; when it is zero the values buffer is taken as
    it is, as unsigned integers. *)
Definition unsigned_offsets (min : Z) (values : list Z) : list Z :=
  if negb (min =? 0) then (λ v, wrapu w (as_native T (v - min))) <$> values
  else wrapu w <$> values.

Definition lp_from_arrow_array (arrow_array : PrimitiveArray) : outcome LiquidPrimitiveArray :=
  match prim_min arrow_array with
  | None => Ret (LiquidPrimitive (bp_new_null_array (length (pa_values arrow_array))) 0 Quantize)
  | Some min =>
      max ← expect (prim_max arrow_array);
      let sub := wrapu w (as_native T (max - min)) in
      let bit_width := Z.to_nat (get_bit_width sub) in
      let values := unsigned_offsets min (pa_values arrow_array) in
      Ret (LiquidPrimitive (bp_from_primitive w (Prim values (pa_nulls arrow_array)) bit_width) min
             Quantize)
  end.

(** A stored offset with the reference added back. *)
Definition add_reference (reference v : Z) : Z := as_native T (wrapu w (v + wrapu w reference)).

Definition lp_to_arrow_array (l : LiquidPrimitiveArray) : outcome PrimitiveArray :=
  unsigned ← bp_to_primitive w (lp_bit_packed l);
  let nulls := bp_nulls (lp_bit_packed l) in
  let values :=
    if negb (lp_reference_value l =? 0) then add_reference (lp_reference_value l) <$> pa_values unsigned
    else as_native T <$> pa_values unsigned in
  Ret (Prim values nulls).

Definition lp_filter (l : LiquidPrimitiveArray) (selection : list bool) : outcome PrimitiveArray :=
  a ← lp_to_arrow_array l; expect (prim_filter a selection).

(** ** Bytes *)

Definition bit_pack_starting_loc : nat := align8 (header_size + native_bytes w).

(** The layout both arrays share. *)
Definition array_to_bytes (logical_type_id : Z) (reference_value : Z) (bit_packed : BitPackedArray)
    : list Z :=
  let result :=
    header_to_bytes (header_new logical_type_id (physical_type_id T))
    ++ le_bytes (native_bytes w) reference_value in
  result ++ replicate (bit_pack_starting_loc - length result) 0 ++ bp_to_bytes w bit_packed.

Definition array_from_bytes (logical_type_id : Z) (bytes : list Z) : outcome (BitPackedArray * Z) :=
  header ← header_from_bytes bytes;
  if negb (physical_type header =? physical_type_id T) then Panic
  else if negb (logical_type header =? logical_type_id) then Panic
  else
    _ ← index bytes header_size;
    reference_value ←
      (if decide (header_size + native_bytes w <= length bytes)%nat
       then Ret (as_native T (le_val (take (native_bytes w) (drop header_size bytes)))) else Undefined);
    if (length bytes <? bit_pack_starting_loc)%nat then Panic
    else
      bit_packed ← bp_from_bytes w (drop bit_pack_starting_loc bytes);
      Ret (bit_packed, reference_value).

Definition lp_to_bytes (l : LiquidPrimitiveArray) : list Z :=
  array_to_bytes (liquid_data_type_code LInteger) (lp_reference_value l) (lp_bit_packed l).

Definition lp_from_bytes (bytes : list Z) : outcome LiquidPrimitiveArray :=
  '(bit_packed, reference_value) ← array_from_bytes (liquid_data_type_code LInteger) bytes;
  Ret (LiquidPrimitive bit_packed reference_value Quantize).

(** ** Delta encoding *)

Record LiquidPrimitiveDeltaArray : Type := LiquidPrimitiveDelta {
  ld_bit_packed : BitPackedArray;
  ld_reference_value : Z
}.

Definition zigzag (delta : Z) : Z :=
  let delta_i64 := wraps 64 delta in
  wrapu 64 (Z.lxor (wraps 64 (Z.shiftl delta_i64 1)) (Z.shiftr delta_i64 63)).

(** The difference of a value and the one before, cut to the unsigned type. *)
Definition encode_delta (prev cur : Z) : Z := wrapu w (zigzag (as_native T (cur - prev))).

(** The loop over the values with their validity: the previous valid value
    ([None] before the first), the anchor, the output and its maximum. *)
Fixpoint encode_deltas (prev : option Z) (anchor max_value : Z) (values : list Z) (valid : list bool)
    : Z * Z * list Z :=
  match values, valid with
  | cur :: values, is_valid :: valid =>
      if negb is_valid then
        let '(anchor, max_value, out) := encode_deltas prev anchor max_value values valid in
        (anchor, max_value, 0 :: out)
      else
        match prev with
        | None =>
            let '(anchor, max_value, out) := encode_deltas (Some cur) cur max_value values valid in
            (anchor, max_value, 0 :: out)
        | Some prev =>
            let delta := encode_delta prev cur in
            let '(anchor, max_value, out) :=
              encode_deltas (Some cur) anchor (Z.max max_value delta) values valid in
            (anchor, max_value, delta :: out)
        end
  | _, _ => (anchor, max_value, [])
  end.

(** [null_count() == len], and [vals[0]] when there are no nulls. *)
Definition ld_from_arrow_array (arrow_array : PrimitiveArray) : LiquidPrimitiveDeltaArray :=
  let values := pa_values arrow_array in
  let len := length values in
  if bool_decide (match pa_nulls arrow_array with Some n => null_count n | None => 0%nat end = len)
  then LiquidPrimitiveDelta (bp_new_null_array len) 0
  else
    let '(anchor, max_value, out) :=
      encode_deltas None 0 0 values (validity (pa_nulls arrow_array) len) in
    let bit_width := Z.to_nat (get_bit_width max_value) in
    LiquidPrimitiveDelta (bp_from_primitive w (Prim out (pa_nulls arrow_array)) bit_width) anchor.

(** [from_i64] is [None] for a negative delta of an unsigned type. *)
Definition decode_delta (delta_unsigned : Z) : outcome Z :=
  let delta_i64 := Z.lxor (wraps 64 (Z.shiftr delta_unsigned 1)) (- wraps 64 (Z.land delta_unsigned 1)) in
  if bool_decide (as_native T delta_i64 = delta_i64) then Ret delta_i64 else Panic.

Fixpoint decode_deltas (have_prev : bool) (current_value : Z) (deltas : list Z) (valid : list bool)
    : outcome (list Z) :=
  match deltas, valid with
  | delta_unsigned :: deltas, is_valid :: valid =>
      if negb is_valid then
        rest ← decode_deltas have_prev current_value deltas valid; Ret (0 :: rest)
      else if negb have_prev then
        rest ← decode_deltas true current_value deltas valid; Ret (current_value :: rest)
      else
        delta ← decode_delta delta_unsigned;
        let current_value := as_native T (current_value + delta) in
        rest ← decode_deltas true current_value deltas valid; Ret (current_value :: rest)
  | _, _ => Ret []
  end.

(** Without nulls the anchor is pushed first, even for an empty array. *)
Definition ld_to_arrow_array (l : LiquidPrimitiveDeltaArray) : outcome PrimitiveArray :=
  unsigned ← bp_to_primitive w (ld_bit_packed l);
  let deltas := pa_values unsigned in
  match bp_nulls (ld_bit_packed l) with
  | Some n =>
      values ← decode_deltas false (ld_reference_value l) deltas (nb_bits n);
      Ret (Prim values (Some n))
  | None =>
      values ← decode_deltas true (ld_reference_value l) (tail deltas)
                 (replicate (length (tail deltas)) true);
      Ret (Prim (ld_reference_value l :: values) None)
  end.

Definition ld_to_bytes (l : LiquidPrimitiveDeltaArray) : list Z :=
  array_to_bytes 1 (ld_reference_value l) (ld_bit_packed l).

Definition ld_from_bytes (bytes : list Z) : outcome LiquidPrimitiveDeltaArray :=
  '(bit_packed, reference_value) ← array_from_bytes 1 bytes;
  Ret (LiquidPrimitiveDelta bit_packed reference_value).
End primitive.
Arguments LiquidPrimitiveArray {_}.
Arguments LiquidPrimitive {_} lp_bit_packed lp_reference_value lp_squeeze_policy.
Arguments lp_bit_packed {_} l.
Arguments lp_reference_value {_} l.
Arguments lp_squeeze_policy {_} l.
Arguments LiquidPrimitiveDeltaArray {_}.
Arguments LiquidPrimitiveDelta {_} ld_bit_packed ld_reference_value.
Arguments ld_bit_packed {_} l.
Arguments ld_reference_value {_} l.

(** ** Lemmas *)

Lemma logical_map `{NullBuffers} f values nulls :
  logical (f <$> values) nulls = map_valid f (logical values nulls).
Proof.
  unfold logical, map_valid. destruct nulls as [n|].
  - unfold mask_values. generalize (nb_bits n). clear. induction values as [|v values IH]; intros [|b l];
      try done. cbn. rewrite IH. by destruct b.
  - rewrite <- !list_fmap_compose. done.
Qed.

Lemma map_valid_ext f g l :
  (∀ v, v ∈ valid_values l -> f v = g v) -> map_valid f l = map_valid g l.
Proof.
  unfold map_valid, valid_values. induction l as [|[v|] l IH]; intros Hf; cbn in *; [done| |].
  - rewrite Hf by left. f_equal. apply IH. intros x Hx. apply Hf. by right.
  - f_equal. by apply IH.
Qed.

Lemma map_valid_compose f g l : map_valid f (map_valid g l) = map_valid (λ v, f (g v)) l.
Proof. unfold map_valid. rewrite <- list_fmap_compose. apply list_fmap_ext. by intros i [v|] _. Qed.

Lemma map_valid_id f l : (∀ v, v ∈ valid_values l -> f v = v) -> map_valid f l = l.
Proof.
  intros Hf. rewrite (map_valid_ext f (λ v, v)) by done. unfold map_valid.
  apply fmap_id_on. by intros [v|].
Qed.

Lemma valid_in l v : v ∈ valid_values l <-> Some v ∈ l.
Proof.
  unfold valid_values. rewrite list_elem_of_omap. split; [by intros (o & Ho & ->)|]. eauto.
Qed.

Lemma logical_in `{NullBuffers} values nulls v : Some v ∈ logical values nulls -> v ∈ values.
Proof.
  destruct nulls as [n|]; cbn.
  - unfold mask_values. intros Hv. apply elem_of_lookup_zip_with in Hv as (i & x & b & Hx & E & _).
    destruct b; [|done]. injection Hx as ->. by eapply list_elem_of_lookup_2.
  - intros (x & [= ->] & Hx)%list_elem_of_fmap. done.
Qed.

Lemma no_valid_values l : valid_values l = [] -> l = replicate (length l) None.
Proof.
  induction l as [|[v|] l IH]; intros E; [done|done|]. cbn in *. by rewrite <- IH.
Qed.

Lemma mask_lookup values valid k :
  mask_values values valid !! k
  = match zip values valid !! k with Some (v, b) => Some (if (b : bool) then Some v else None) | None => None end.
Proof.
  unfold mask_values. rewrite !lookup_zip_with. destruct (values !! k), (valid !! k); done.
Qed.

Lemma validity_length `{NullBuffers} (nulls : option NullBuffer) values :
  pa_wf (Prim values nulls) -> length (validity nulls (length values)) = length values.
Proof. unfold validity, pa_wf. cbn. destruct nulls; [done|]. intros _. apply length_replicate. Qed.

Lemma logical_len `{NullBuffers} p : pa_wf p -> length (pa_logical p) = length (pa_values p).
Proof. intros Wf. unfold pa_logical. apply logical_length. unfold pa_wf in Wf. by destruct (pa_nulls p). Qed.

Lemma all_null_logical `{NullBuffers} col :
  pa_wf col -> (match pa_nulls col with Some n => null_count n | None => 0%nat end = length (pa_values col)) ->
  pa_logical col = replicate (length (pa_values col)) None.
Proof.
  unfold pa_wf, pa_logical, logical. destruct (pa_nulls col) as [n|]; intros Wf E.
  - rewrite <- Wf in E. rewrite (all_null_bits _ E), Wf. by apply mask_none.
  - by destruct (pa_values col).
Qed.

Section primitive_lemmas.
Context `{NullBufferLaws} `{FastlanesLaws} {PK : PrimitiveKernels} {PL : PrimitiveKernelLaws}.
Context (T : PrimitivePhysicalType).

Local Abbreviation w := (native_width T).

(** What a primitive array holds: offsets [v - reference]. *)
Record lp_repr (l : LiquidPrimitiveArray) (vs : list (option Z)) : Prop := {
  lh_wf : bp_wf w (lp_bit_packed l);
  lh_ref : in_native T (lp_reference_value l);
  lh_len : original_len (lp_bit_packed l) = length vs;
  lh_range v : v ∈ valid_values vs -> lp_reference_value l <= v /\ in_native T v;
  lh_logical : bp_logical w (lp_bit_packed l) = Ret (map_valid (λ v, v - lp_reference_value l) vs)
}.

(** A fresh one: the offsets fit the width, and the largest needs it. *)
Record lp_holds (l : LiquidPrimitiveArray) (vs : list (option Z)) : Prop := {
  lh_repr : lp_repr l vs;
  lh_width b : bp_bit_width (lp_bit_packed l) = Some b ->
    (∀ v, v ∈ valid_values vs -> v < lp_reference_value l + 2 ^ Z.of_nat b)
    /\ (b = 1%nat \/ in_native T (lp_reference_value l + 2 ^ (Z.of_nat b - 1)))
    /\ ∃ p, bp_to_primitive w (lp_bit_packed l) = Ret p
            /\ Forall (λ v, 0 <= v < 2 ^ Z.of_nat b) (pa_values p)
}.

(** Native values and offsets. *)
Lemma offset_wrap min v :
  in_native T min -> in_native T v -> min <= v ->
  wrapu w (as_native T (v - min)) = v - min.
Proof.
  intros Hm Hv Hle. rewrite wrapu_as_native. apply wrapu_id.
  pose proof (native_width_range T). unfold in_native in *.
  assert (2 ^ w = 2 * 2 ^ (w - 1)) as E by (rewrite <- Z.pow_succ_r by lia; f_equal; lia).
  destruct (is_unsigned T); lia.
Qed.

Lemma in_native_nonneg v : in_native T v -> 0 <= v -> v < 2 ^ w.
Proof.
  pose proof (native_width_range T). unfold in_native. destruct (is_unsigned T); [lia|].
  intros [_ Hv] _. eapply Z.lt_le_trans; [exact Hv|]. apply Z.pow_le_mono_r; lia.
Qed.

Lemma unsigned_offsets_ok min values v :
  in_native T min -> Forall (in_native T) values -> v ∈ unsigned_offsets T min values -> is_word w v.
Proof.
  intros Hm F Hv. unfold unsigned_offsets in Hv. unfold is_word.
  destruct (negb (min =? 0)); apply list_elem_of_fmap in Hv as (x & -> & _);
    apply Z.mod_pos_bound; pose proof (native_width_range T); lia.
Qed.

Lemma unsigned_offset_value min values :
  in_native T min ->
  ∃ f, unsigned_offsets T min values = f <$> values
       /\ ∀ v, in_native T v -> min <= v -> f v = v - min.
Proof.
  intros Hm. unfold unsigned_offsets. destruct (min =? 0) eqn:E; cbn [negb].
  - exists (wrapu w). split; [done|]. intros v Hv Hle. assert (min = 0) as -> by lia.
    rewrite wrapu_id; [lia|]. split; [lia|]. by apply in_native_nonneg; [|lia].
  - exists (λ v, wrapu w (as_native T (v - min))). split; [done|]. intros v Hv Hle. by apply offset_wrap.
Qed.

Lemma lp_all_null n :
  lp_holds (LiquidPrimitive (bp_new_null_array n) 0 Quantize) (replicate n None).
Proof.
  split; [split|]; cbn [lp_bit_packed lp_reference_value].
  - apply bp_new_null_wf. apply native_word.
  - unfold in_native. pose proof (native_width_range T).
    destruct (is_unsigned T); split; try lia; apply Z.pow_pos_nonneg; lia.
  - cbn. by rewrite length_replicate.
  - intros v Hv. apply valid_in, elem_of_replicate in Hv. naive_solver.
  - rewrite bp_new_null_logical. unfold map_valid. by rewrite fmap_replicate.
  - done.
Qed.

(** The width of the largest offset. *)
Lemma offset_width min max :
  in_native T min -> in_native T max -> min <= max ->
  let b := Z.to_nat (get_bit_width (wrapu w (as_native T (max - min)))) in
  1 <= Z.of_nat b <= w /\ max < min + 2 ^ Z.of_nat b
  /\ (b = 1%nat \/ in_native T (min + 2 ^ (Z.of_nat b - 1))).
Proof.
  intros Hm HM Hle b. unfold b. rewrite offset_wrap by done.
  pose proof (native_width_range T) as Hw.
  assert (0 <= max - min < 2 ^ w) as Hs.
  { pose proof (offset_wrap min max Hm HM Hle) as <-. unfold wrapu. apply Z.mod_pos_bound. lia. }
  assert (2 ^ w <= 2 ^ 64) as H64 by (apply Z.pow_le_mono_r; lia).
  destruct (get_bit_width_range (max - min) ltac:(lia)) as [Hr Hlt].
  pose proof (get_bit_width_least (max - min) w ltac:(lia) ltac:(lia) ltac:(lia)) as Hleast.
  rewrite Z2Nat.id by lia. split; [lia|]. split; [lia|].
  destruct (Z.eq_dec (max - min) 0) as [E0|E0].
  { left. rewrite E0. reflexivity. }
  destruct (Z.eq_dec (get_bit_width (max - min)) 1) as [E1|E1]; [left; lia|]. right.
  rewrite get_bit_width_log by lia. pose proof (Z.log2_spec (max - min) ltac:(lia)) as [Hl _].
  replace (Z.log2 (max - min) + 1 - 1) with (Z.log2 (max - min)) by lia.
  unfold in_native in *. pose proof (Z.pow_nonneg 2 (Z.log2 (max - min)) ltac:(lia)).
  destruct (is_unsigned T); lia.
Qed.

Lemma lp_from_arrow_ok a :
  pa_wf a -> Forall (in_native T) (pa_values a) ->
  ∃ l, lp_from_arrow_array T a = Ret l /\ lp_holds l (pa_logical a) /\ lp_squeeze_policy l = Quantize.
Proof.
  intros Wf F. unfold lp_from_arrow_array. pose proof (prim_min_ok a) as Hmin. pose proof (prim_max_ok a) as Hmax.
  assert (length (pa_logical a) = length (pa_values a)) as Hlen.
  { unfold pa_logical. apply logical_length. unfold pa_wf in Wf. by destruct (pa_nulls a). }
  assert (∀ v, v ∈ valid_values (pa_logical a) -> in_native T v) as Hnat.
  { intros v Hv. rewrite Forall_forall in F. apply F. by eapply logical_in, valid_in. }
  destruct (prim_min a) as [min|].
  2: { eexists. split; [done|]. split; [|done].
       rewrite (no_valid_values _ Hmin), Hlen. apply lp_all_null. }
  destruct Hmin as [Imin Fmin]. destruct (prim_max a) as [max|]; [|by rewrite Hmax in Imin; apply elem_of_nil in Imin].
  destruct Hmax as [Imax Fmax]. rewrite Forall_forall in Fmin, Fmax. cbn [expect]. run_step.
  destruct (offset_width min max (Hnat _ Imin) (Hnat _ Imax) (Fmin _ Imax)) as (Hb & Hlt & Hin).
  set (b := Z.to_nat _) in *. eexists. split; [done|]. split; [|done].
  destruct (unsigned_offset_value min (pa_values a) (Hnat _ Imin)) as (f & Ef & Hf).
  pose proof (native_word T) as Hword.
  assert (Forall (is_word w) (unsigned_offsets T min (pa_values a))) as Fw.
  { apply Forall_forall. intros v Hv. by eapply unsigned_offsets_ok; [apply Hnat, Imin| |]. }
  assert (length (unsigned_offsets T min (pa_values a)) = length (pa_values a)) as Hlu
    by (rewrite Ef; apply length_fmap).
  pose proof (bp_roundtrip w Hword (Prim (unsigned_offsets T min (pa_values a)) (pa_nulls a)) b Fw Hb) as Hrt.
  cbn [pa_values pa_nulls] in Hrt.
  split; [split|]; cbn [lp_bit_packed lp_reference_value].
  - apply bp_from_primitive_wf; [done| |done]. unfold pa_wf in *. cbn [pa_nulls pa_values].
    destruct (pa_nulls a); [|done]. by rewrite Hlu.
  - by apply Hnat.
  - by rewrite Hlen.
  - intros v Hv. split; [by apply Fmin|by apply Hnat].
  - unfold bp_logical. rewrite Hrt. run_step. f_equal. unfold pa_logical. cbn [pa_values pa_nulls].
    rewrite Ef, <- list_fmap_compose, logical_map. apply map_valid_ext. intros v Hv. cbn.
    rewrite Hf by (by apply Hnat || by apply Fmin). apply Z.mod_small.
    pose proof (Fmin v Hv). pose proof (Fmax v Hv). lia.
  - intros b' [= <-]. split; [|split; [done|]].
    + intros v Hv. pose proof (Fmax v Hv). lia.
    + eexists. split; [done|]. cbn [pa_values]. apply Forall_fmap, Forall_true. intros v. cbn.
      apply Z.mod_pos_bound. lia.
Qed.

(** ** Reading the values back *)

Lemma as_native_offset r v :
  in_native T v -> as_native T (wrapu w (v - r + wrapu w r)) = v.
Proof.
  intros Hv. rewrite as_native_wrapu. rewrite <- (as_native_id T v Hv) at 2. apply as_native_mod.
  unfold wrapu. pose proof (native_width_range T). rewrite Zplus_mod_idemp_r. f_equal. lia.
Qed.

(** Unpacking and mapping what was stored, null rows aside. *)
Lemma bp_decode_ok w' bp us :
  word_size w' -> bp_wf w' bp -> bp_logical w' bp = Ret us ->
  ∃ p, bp_to_primitive w' bp = Ret p /\ length (pa_values p) = original_len bp /\ length us = original_len bp
       /\ nulls_len (bp_nulls bp) (original_len bp)
       /\ ∀ f, logical (f <$> pa_values p) (bp_nulls bp) = map_valid f us.
Proof.
  intros Hw Wf Hlog. destruct (bp_to_primitive_wf w' bp Wf) as (p & Ep & Elen & Hn & Hnone).
  unfold bp_logical in Hlog. rewrite Ep in Hlog. cbn in Hlog. injection Hlog as Hlog.
  pose proof (bpw_nulls _ _ Wf) as Hnl. exists p. split; [done|]. split; [done|].
  destruct (bp_bit_width bp) as [b|] eqn:Eb.
  - specialize (Hn ltac:(done)). split; [|split; [done|]].
    + rewrite <- Hlog. unfold pa_logical. rewrite Hn. rewrite <- Elen. apply logical_length.
      by destruct (bp_nulls bp); [rewrite Elen|].
    + intros f. by rewrite logical_map, <- Hn, <- Hlog.
  - destruct (bpw_null _ _ Wf Eb) as [(n & En & Ebits) _]. rewrite (Hnone eq_refl) in Hlog. subst us.
    split; [apply length_replicate|]. split; [done|]. intros f. rewrite En. cbn.
    rewrite Ebits, mask_none by (by rewrite length_fmap). unfold map_valid. by rewrite fmap_replicate.
Qed.

Lemma lp_to_arrow_ok l vs :
  lp_repr l vs ->
  ∃ a, lp_to_arrow_array T l = Ret a /\ pa_logical a = vs /\ pa_wf a
       /\ length (pa_values a) = length vs.
Proof.
  intros [Wf Hr Hl Hv Hlog]. unfold lp_to_arrow_array.
  destruct (bp_decode_ok w _ _ (native_word T) Wf Hlog) as (p & -> & Elen & _ & Hnl & Hdec). run_step.
  set (f := if negb (lp_reference_value l =? 0) then add_reference T (lp_reference_value l) else as_native T).
  assert ((if negb (lp_reference_value l =? 0)
           then add_reference T (lp_reference_value l) <$> pa_values p
           else as_native T <$> pa_values p) = f <$> pa_values p) as ->
    by (unfold f; by destruct (negb _)).
  assert (length (f <$> pa_values p) = length vs) as Hfl by (rewrite length_fmap; congruence).
  eexists. split; [done|]. split; [|split; [|exact Hfl]].
  2: { unfold pa_wf. cbn [pa_nulls pa_values]. destruct (bp_nulls _); [|done]. cbn in Hnl. congruence. }
  unfold pa_logical. cbn [pa_values pa_nulls]. rewrite Hdec, map_valid_compose. apply map_valid_id.
  intros v Hvv. destruct (Hv v Hvv) as [_ Hnat]. unfold f, add_reference.
  destruct (lp_reference_value l =? 0) eqn:E0; cbn [negb].
  - replace (v - lp_reference_value l) with v by lia. by apply as_native_id.
  - by apply as_native_offset.
Qed.

Lemma array_bytes_shape code r bp :
  0 <= code < 2 ^ 16 ->
  ∃ pad, array_to_bytes T code r bp
         = header_to_bytes (header_new code (physical_type_id T)) ++ le_bytes (native_bytes w) r
           ++ replicate pad 0 ++ bp_to_bytes w bp
         /\ bit_pack_starting_loc T = (header_size + native_bytes w + pad)%nat.
Proof.
  intros Hc. unfold array_to_bytes.
  assert (length (header_to_bytes (header_new code (physical_type_id T)) ++ le_bytes (native_bytes w) r)
          = header_size + native_bytes w)%nat as ->.
  { rewrite length_app, length_le_bytes, length_header; [done|apply length_le_bytes]. }
  exists (bit_pack_starting_loc T - (header_size + native_bytes w))%nat. rewrite <- app_assoc.
  split; [done|]. unfold bit_pack_starting_loc. pose proof (align8_ge (header_size + native_bytes w)). lia.
Qed.

Lemma array_bytes_ok code r bp :
  0 <= code < 2 ^ 16 -> in_native T r -> bp_wf w bp -> bp_fits w bp ->
  ∃ bp', array_from_bytes T code (array_to_bytes T code r bp) = Ret (bp', r)
         /\ bp_wf w bp' /\ original_len bp' = original_len bp /\ bp_logical w bp' = bp_logical w bp
         /\ bp_from_bytes w (bp_to_bytes w bp) = Ret bp'.
Proof.
  intros Hc Hr Wf Hfit. destruct (array_bytes_shape code r bp Hc) as (pad & -> & Eloc).
  destruct (bp_bytes_ok w (native_word T) bp Wf Hfit) as (bp' & Ebp & Wf' & Hlen & Hlog).
  destruct (native_bytes_bits w (native_word T)) as [E8 Hpos].
  set (hd := header_to_bytes _) in *.
  assert (length hd = header_size) as Hhd by (apply length_header, length_le_bytes).
  unfold array_from_bytes.
  assert (0 <= physical_type_id T < 2 ^ 16) as Hp by (destruct T; cbn; lia).
  rewrite (header_roundtrip code (physical_type_id T) Hc Hp : ∀ rest, header_from_bytes (hd ++ rest) = _).
  run_step.
  cbn [physical_type logical_type header_new]. rewrite !Z.eqb_refl. cbn [negb].
  set (bytes := hd ++ _) in *.
  assert (length bytes = header_size + native_bytes w + pad + length (bp_to_bytes w bp))%nat as Hbl.
  { unfold bytes. rewrite !length_app, Hhd, length_le_bytes, length_replicate. lia. }
  assert (∃ b0, index bytes header_size = Ret b0) as (b0 & ->).
  { unfold index. destruct (lookup_lt_is_Some_2 bytes header_size ltac:(lia)) as [b0 ->]. by exists b0. }
  run_step. rewrite decide_True by lia. run_step.
  replace (length bytes <? bit_pack_starting_loc T)%nat with false by (symmetry; apply Nat.ltb_ge; lia).
  assert (drop header_size bytes = le_bytes (native_bytes w) r ++ replicate pad 0 ++ bp_to_bytes w bp) as Ed.
  { unfold bytes. by rewrite drop_app_length'. }
  assert (drop (bit_pack_starting_loc T) bytes = bp_to_bytes w bp) as ->.
  { rewrite Eloc, <- Nat.add_assoc, <- drop_drop, Ed, app_assoc, drop_app_length'; [done|].
    rewrite length_app, length_le_bytes, length_replicate. done. }
  rewrite Ed, take_app_length' by (by rewrite length_le_bytes).
  rewrite Ebp. run_step. rewrite le_val_bytes, E8.
  exists bp'. split; [|by split_and!]. do 2 f_equal. change (r mod 2 ^ w) with (wrapu w r).
  rewrite as_native_wrapu. by apply as_native_id.
Qed.

Lemma lp_bytes_ok l vs :
  lp_repr l vs -> bp_fits w (lp_bit_packed l) ->
  ∃ l', lp_from_bytes T (lp_to_bytes T l) = Ret l' /\ lp_repr l' vs.
Proof.
  intros [Wf Hr Hl Hv Hlog] Hfit. unfold lp_from_bytes, lp_to_bytes.
  destruct (array_bytes_ok (liquid_data_type_code LInteger) (lp_reference_value l) (lp_bit_packed l)
              ltac:(cbn; lia) Hr Wf Hfit) as (bp' & -> & Wf' & Hlen & Hlog' & _).
  run_step. eexists. split; [done|]. split; cbn [lp_bit_packed lp_reference_value]; try done; congruence.
Qed.

(** ** Delta encoding *)

Lemma lxor_m1 a : Z.lxor a (-1) = - a - 1.
Proof. rewrite Z.lxor_m1_r. unfold Z.lnot. lia. Qed.

Lemma zigzag_eq d : - 2 ^ 63 <= d < 2 ^ 63 -> zigzag d = if d <? 0 then - 2 * d - 1 else 2 * d.
Proof.
  intros Hd. unfold zigzag. rewrite (wraps_id 64 d) by lia.
  rewrite Z.shiftl_mul_pow2, Z.shiftr_div_pow2 by lia. change (2 ^ 1) with 2.
  assert (∀ a, wrapu 64 (wraps 64 a) = wrapu 64 a) as Hw.
  { intros a. unfold wrapu, wraps. rewrite Zminus_mod, Zmod_mod, <- Zminus_mod. f_equal. lia. }
  destruct (d <? 0) eqn:E.
  - replace (d / 2 ^ 63) with (-1) by (Z.to_euclidean_division_equations; lia).
    rewrite lxor_m1. replace (- wraps 64 (d * 2) - 1) with (- 1 - wraps 64 (d * 2)) by lia.
    unfold wrapu. rewrite Zminus_mod. fold (wrapu 64 (wraps 64 (d * 2))). rewrite Hw. unfold wrapu.
    rewrite <- Zminus_mod, Z.mod_small by lia. lia.
  - rewrite Z.div_small, Z.lxor_0_r, Hw, wrapu_id by lia. lia.
Qed.

Lemma decode_zigzag d :
  - 2 ^ 63 <= d < 2 ^ 63 ->
  Z.lxor (wraps 64 (Z.shiftr (zigzag d) 1)) (- wraps 64 (Z.land (zigzag d) 1)) = d.
Proof.
  intros Hd. rewrite zigzag_eq by done.
  assert (∀ a, Z.land a 1 = a mod 2) as Hl by (intros a; by apply (Z.land_ones a 1)).
  rewrite Hl, Z.shiftr_div_pow2 by lia. change (2 ^ 1) with 2. destruct (d <? 0) eqn:E.
  - replace ((-2 * d - 1) mod 2) with 1 by (Z.to_euclidean_division_equations; lia).
    replace ((-2 * d - 1) / 2) with (- d - 1) by (Z.to_euclidean_division_equations; lia).
    rewrite !wraps_id by lia. change (- (1)) with (-1). rewrite lxor_m1. lia.
  - replace ((2 * d) mod 2) with 0 by (Z.to_euclidean_division_equations; lia).
    replace (2 * d / 2) with d by (Z.to_euclidean_division_equations; lia).
    rewrite !wraps_id by lia. apply Z.lxor_0_r.
Qed.

Lemma signed_i64 d : is_unsigned T = false -> in_native T d -> - 2 ^ 63 <= d < 2 ^ 63.
Proof.
  intros Hu Hd. unfold in_native in Hd. rewrite Hu in Hd. pose proof (native_width_range T).
  assert (2 ^ (w - 1) <= 2 ^ 63) by (apply Z.pow_le_mono_r; lia). lia.
Qed.

Lemma delta_roundtrip prev cur :
  is_unsigned T = false -> in_native T cur ->
  let e := encode_delta T prev cur in
  0 <= e < 2 ^ w /\ ∃ d, decode_delta T e = Ret d /\ as_native T (prev + d) = cur.
Proof.
  intros Hu Hc e. set (d := as_native T (cur - prev)).
  pose proof (as_native_range T (cur - prev)) as Hd. fold d in Hd.
  pose proof (signed_i64 d Hu Hd) as H64.
  assert (e = zigzag d) as Ee.
  { unfold e, encode_delta. fold d. apply wrapu_id. rewrite zigzag_eq by done.
    unfold in_native in Hd. rewrite Hu in Hd. pose proof (native_width_range T).
    assert (2 ^ w = 2 * 2 ^ (w - 1)) as E2 by (rewrite <- Z.pow_succ_r by lia; f_equal; lia).
    destruct (d <? 0) eqn:E; lia. }
  split.
  - unfold e, encode_delta. apply Z.mod_pos_bound. pose proof (native_width_range T). lia.
  - rewrite Ee. unfold decode_delta. rewrite decode_zigzag by done.
    rewrite bool_decide_eq_true_2 by (by apply as_native_id). exists d. split; [done|].
    rewrite <- (as_native_id T cur Hc). apply as_native_mod. pose proof (native_width_range T).
    change ((prev + d) mod 2 ^ w) with (wrapu w (prev + d)). unfold d, wrapu.
    rewrite <- Zplus_mod_idemp_r. change (as_native T (cur - prev) mod 2 ^ w) with (wrapu w (as_native T (cur - prev))).
    rewrite wrapu_as_native. unfold wrapu. rewrite Zplus_mod_idemp_r. f_equal. lia.
Qed.

(** Encoding then decoding, from a previous value on. *)
Lemma deltas_roundtrip values valid prev anchor mx :
  is_unsigned T = false -> Forall (in_native T) values -> length valid = length values -> 0 <= mx < 2 ^ w ->
  let '(anchor', mx', out) := encode_deltas T prev anchor mx values valid in
  mx <= mx' < 2 ^ w /\ Forall (λ e, 0 <= e <= mx') out /\ length out = length values
  /\ (is_Some prev -> anchor' = anchor)
  /\ ∃ vals, decode_deltas T (bool_decide (is_Some prev)) (default anchor' prev) out valid = Ret vals
             /\ mask_values vals valid = mask_values values valid /\ length vals = length values.
Proof.
  intros Hu. revert valid prev anchor mx.
  induction values as [|cur values IH]; intros [|v valid] prev anchor mx F Hl Hmx; try done.
  { cbn. split_and!; try done; try lia. by exists []. }
  apply Forall_cons in F as [Hc F]. injection Hl as Hl. cbn [encode_deltas]. destruct v; cbn [negb].
  - destruct prev as [p|].
    + destruct (delta_roundtrip p cur Hu Hc) as (He & d & Hd & Hcur).
      specialize (IH valid (Some cur) anchor (Z.max mx (encode_delta T p cur)) F Hl ltac:(lia)).
      destruct (encode_deltas _ _ _ _ _ _) as [[anchor' mx'] out].
      destruct IH as (I1 & I2 & I3 & I4 & vals & I5 & I6 & I7).
      rewrite bool_decide_eq_true_2 in I5 |- * by done. cbn [default from_option id] in I5 |- *.
      split_and!; try lia; [constructor; [lia|done]|cbn; by rewrite I3|by intros _; apply I4|].
      exists (cur :: vals). cbn [decode_deltas negb]. rewrite Hd. run_step. rewrite Hcur, I5. run_step.
      split; [done|]. unfold mask_values in *. cbn. split; [by f_equal|by rewrite I7].
    + specialize (IH valid (Some cur) cur mx F Hl Hmx).
      destruct (encode_deltas _ _ _ _ _ _) as [[anchor' mx'] out].
      destruct IH as (I1 & I2 & I3 & I4 & vals & I5 & I6 & I7). rewrite (I4 ltac:(done)) in *.
      rewrite bool_decide_eq_true_2 in I5 by done. cbn [default from_option id] in I5 |- *.
      rewrite bool_decide_eq_false_2 by (by intros [? ?]).
      split_and!; try lia; [constructor; [lia|done]|cbn; by rewrite I3|by intros [? ?]|].
      exists (cur :: vals). cbn [decode_deltas negb]. rewrite I5. run_step.
      split; [done|]. unfold mask_values in *. cbn. split; [by f_equal|by rewrite I7].
  - specialize (IH valid prev anchor mx F Hl Hmx).
    destruct (encode_deltas _ _ _ _ _ _) as [[anchor' mx'] out].
    destruct IH as (I1 & I2 & I3 & I4 & vals & I5 & I6 & I7).
    split_and!; try lia; [constructor; [lia|done]|cbn; by rewrite I3|done|].
    exists (0 :: vals). cbn [decode_deltas negb]. rewrite I5. run_step.
    split; [done|]. unfold mask_values in *. cbn. split; [by f_equal|by rewrite I7].
Qed.

Lemma all_valid_mask values : mask_values values (replicate (length values) true) = Some <$> values.
Proof. induction values as [|v values IH]; [done|]. unfold mask_values in *. cbn. by f_equal. Qed.

Lemma validity_logical a : mask_values (pa_values a) (validity (pa_nulls a) (length (pa_values a))) = pa_logical a.
Proof. unfold validity, pa_logical, logical. destruct (pa_nulls a); [done|]. apply all_valid_mask. Qed.

Lemma ld_to_arrow_ok a :
  is_unsigned T = false -> pa_wf a -> Forall (in_native T) (pa_values a) ->
  ∃ r, ld_to_arrow_array T (ld_from_arrow_array T a) = Ret r /\ pa_logical r = pa_logical a.
Proof.
  intros Hu Wf F. unfold ld_from_arrow_array. set (values := pa_values a).
  assert (length (validity (pa_nulls a) (length values)) = length values) as Hlv.
  { unfold validity, pa_wf in *. destruct (pa_nulls a); [done|apply length_replicate]. }
  case_bool_decide as Hnull.
  - unfold ld_to_arrow_array, bp_to_primitive. cbn [ld_bit_packed bp_bit_width bp_new_null_array bp_nulls]. run_step.
    unfold pa_new_null. cbn [original_len pa_values bp_new_null_array ld_reference_value]. rewrite nb_new_null_bits.
    assert (∀ k, decode_deltas T false 0 (replicate k 0) (replicate k false) = Ret (replicate k 0)) as Hd.
    { induction k as [|k IH]; [done|]. cbn. by rewrite IH. }
    rewrite Hd. run_step. eexists. split; [done|]. unfold pa_logical. cbn [logical pa_values pa_nulls].
    rewrite nb_new_null_bits, mask_none by apply length_replicate. unfold pa_wf in Wf.
    destruct (pa_nulls a) as [n|].
    + unfold null_count in Hnull. fold values in Wf. rewrite <- Wf in Hnull. cbn.
      rewrite (all_null_bits _ Hnull), Wf, mask_none by done. done.
    + destruct values eqn:E; [|done]. unfold values in E. by rewrite E.
  - pose proof (native_word T) as Hword. pose proof (native_width_range T) as Hw.
    pose proof (deltas_roundtrip values (validity (pa_nulls a) (length values)) None 0 0 Hu F Hlv ltac:(lia)) as R.
    destruct (encode_deltas T None 0 0 values (validity (pa_nulls a) (length values)))
      as [[anchor mx] out] eqn:Eenc.
    destruct R as (Hmx & Fout & Hlo & _ & vals & Hd & Hm & Hlvals).
    assert (2 ^ w <= 2 ^ 64) as H64 by (apply Z.pow_le_mono_r; lia).
    destruct (get_bit_width_range mx ltac:(lia)) as [Hb Hlt].
    pose proof (get_bit_width_least mx w ltac:(lia) ltac:(lia) ltac:(lia)) as Hbw.
    set (b := Z.to_nat (get_bit_width mx)). assert (Z.of_nat b = get_bit_width mx) as Eb by (unfold b; lia).
    assert (bp_to_primitive w (bp_from_primitive w (Prim out (pa_nulls a)) b) = Ret (Prim out (pa_nulls a))) as Ep.
    { rewrite bp_roundtrip; [|done| |lia].
      - cbn [pa_values pa_nulls]. do 2 f_equal. apply fmap_id_on. intros v Hv.
        rewrite Forall_forall in Fout. specialize (Fout v Hv). apply Z.mod_small. rewrite Eb. lia.
      - eapply Forall_impl; [exact Fout|]. intros v Hv. cbn in Hv. unfold is_word. lia. }
    unfold ld_to_arrow_array. cbn [ld_bit_packed ld_reference_value]. rewrite Ep. run_step.
    cbn [pa_values bp_nulls bp_from_primitive pa_nulls].
    rewrite bool_decide_eq_false_2 in Hd by (by intros [? ?]). cbn [default from_option] in Hd.
    rewrite <- validity_logical. fold values. unfold validity in *. destruct (pa_nulls a) as [n|].
    + rewrite Hd. run_step. eexists. split; [done|]. exact Hm.
    + destruct values as [|v values']; [done|]. cbn [length replicate] in *. destruct out as [|e out]; [done|].
      cbn [decode_deltas negb tail] in *. injection Hlo as Hlo. rewrite Hlo.
      destruct (decode_deltas T true anchor out (replicate (length values') true)) as [vals'| | |]; try done.
      cbn in Hd. injection Hd as <-. run_step. eexists. split; [done|].
      unfold pa_logical. cbn [pa_values pa_nulls logical]. change (true :: replicate (length values') true)
        with (replicate (S (length values')) true) in Hm.
      cbn [length] in Hlvals. rewrite <- Hlvals in Hm at 1.
      change (S (length vals')) with (length (anchor :: vals')) in Hm.
      change (S (length values')) with (length (v :: values')) in Hm.
      rewrite !all_valid_mask in Hm. rewrite all_valid_mask. done.
Qed.

(** The second of two values of an unsigned type, after encoding and decoding. *)
Lemma decode_unsigned a b :
  is_unsigned T = true ->
  let d := (b - a) mod 2 ^ w in
  decode_delta T (encode_delta T a b)
  = if bool_decide (w = 64) then (if d <? 2 ^ 63 then Ret d else Panic) else Ret (d mod 2 ^ (w - 1)).
Proof.
  intros Hu d. pose proof (native_width_range T) as Hw.
  assert (2 ^ w = 2 * 2 ^ (w - 1)) as E2 by (rewrite <- Z.pow_succ_r by lia; f_equal; lia).
  assert (0 <= d < 2 ^ w) as Hd by (apply Z.mod_pos_bound; lia).
  assert (as_native T (b - a) = d) as Ed by (unfold as_native; by rewrite Hu).
  unfold encode_delta. rewrite Ed. case_bool_decide as H64.
  - rewrite H64 in *. assert (zigzag d = zigzag (wraps 64 d)) as ->.
    { unfold zigzag. by rewrite (wraps_id 64 (wraps 64 d))
        by (unfold wraps; pose proof (Z.mod_pos_bound (d + 2 ^ (64 - 1)) (2 ^ 64)); lia). }
    assert (wraps 64 d = if d <? 2 ^ 63 then d else d - 2 ^ 64) as Ew.
    { destruct (d <? 2 ^ 63) eqn:E; [by apply wraps_id; lia|]. unfold wraps.
      rewrite <- (Z_mod_plus_full _ (-1)), Z.mod_small by lia. lia. }
    assert (- 2 ^ 63 <= wraps 64 d < 2 ^ 63) as Hr by (rewrite Ew; destruct (d <? 2 ^ 63) eqn:E; lia).
    rewrite wrapu_id by (rewrite zigzag_eq by done; destruct (wraps 64 d <? 0) eqn:E0; lia).
    unfold decode_delta. rewrite decode_zigzag by done. rewrite Ew. destruct (d <? 2 ^ 63) eqn:E.
    + rewrite bool_decide_eq_true_2; [done|]. apply as_native_id. unfold in_native. rewrite Hu, H64. lia.
    + rewrite bool_decide_eq_false_2; [done|]. intros Hn.
      pose proof (as_native_range T (d - 2 ^ 64)) as Hr'. unfold in_native in Hr'. rewrite Hu, Hn in Hr'. lia.
  - assert (w <= 32) as H32 by (clear -H64; destruct T; cbn in *; lia).
    assert (2 ^ w <= 2 ^ 32) by (apply Z.pow_le_mono_r; lia).
    rewrite zigzag_eq by lia. replace (d <? 0) with false by lia.
    set (e := wrapu w (2 * d)). assert (e = 2 * (d mod 2 ^ (w - 1))) as Ee.
    { unfold e, wrapu. rewrite E2. apply Zmult_mod_distr_l. }
    pose proof (Z.mod_pos_bound d (2 ^ (w - 1)) ltac:(lia)) as Hm. set (k := d mod 2 ^ (w - 1)) in *.
    assert (e = zigzag k) as -> by (rewrite zigzag_eq, Ee by lia; by replace (k <? 0) with false by lia).
    unfold decode_delta. rewrite decode_zigzag by lia. rewrite bool_decide_eq_true_2; [done|].
    apply as_native_id. unfold in_native. rewrite Hu. lia.
Qed.
End primitive_lemmas.

(** ** An instance of the kernels *)

Definition fold_valid (f : Z -> Z -> Z) (a : @PrimitiveArray list_null_buffers) : option Z :=
  match valid_values (pa_logical a) with [] => None | v :: vs => Some (foldl f v vs) end.

#[export] Instance list_kernels : PrimitiveKernels := {
  prim_min := fold_valid Z.min;
  prim_max := fold_valid Z.max;
  prim_filter a m :=
    if decide (length m <= length (pa_values a))%nat
    then Some (Prim (keep (pa_values a) m) ((λ n : list bool, keep n m) <$> pa_nulls a)) else None
}.

Lemma foldl_extreme (f : Z -> Z -> Z) (le : Z -> Z -> Prop) v vs :
  (∀ a b, f a b = a \/ f a b = b) -> (∀ a b, le (f a b) a /\ le (f a b) b) -> (∀ a, le a a) ->
  (∀ a b c, le a b -> le b c -> le a c) ->
  foldl f v vs ∈ v :: vs /\ Forall (le (foldl f v vs)) (v :: vs).
Proof.
  intros Hf Hle Hr Ht. revert v. induction vs as [|x vs IH]; intros v; cbn [foldl].
  - split; [left|by repeat constructor].
  - destruct (IH (f v x)) as [Hin Hall]. apply Forall_cons in Hall as [Hfx Hall]. split.
    + apply elem_of_cons in Hin as [->|Hin]; [|by right; right].
      destruct (Hf v x) as [->| ->]; [left|right; left].
    + destruct (Hle v x). constructor; [by eapply Ht|]. constructor; [by eapply Ht|done].
Qed.

Lemma keep_in {A} (l : list A) m x : x ∈ keep l m -> x ∈ l.
Proof.
  revert m. induction l as [|y l IH]; intros [|b m] Hx; cbn in Hx; try by apply elem_of_nil in Hx.
  destruct b; [apply elem_of_cons in Hx as [->|Hx]|]; [left|right; by eapply IH..].
Qed.

Lemma keep_same_length {A B} (l : list A) (l' : list B) m :
  length l = length l' -> length (keep l m) = length (keep l' m).
Proof.
  revert l' m. induction l as [|x l IH]; intros [|y l'] [|b m] Hl; try done. injection Hl as Hl.
  cbn. destruct b; cbn; by rewrite (IH l').
Qed.

Lemma keep_mask values (bits : list bool) m :
  mask_values (keep values m) (keep bits m) = keep (mask_values values bits) m.
Proof.
  unfold mask_values. revert bits m. induction values as [|v values IH]; intros [|b bits] [|c m]; try done.
  - cbn. by destruct c, (keep values m).
  - cbn. destruct c; cbn; by rewrite IH.
Qed.

#[export] Instance list_kernel_laws : PrimitiveKernelLaws.
Proof.
  split.
  - intros a. cbn. unfold fold_valid. destruct (valid_values (pa_logical a)) as [|v vs]; [done|].
    apply (foldl_extreme Z.min Z.le); lia.
  - intros a. cbn. unfold fold_valid. destruct (valid_values (pa_logical a)) as [|v vs]; [done|].
    apply (foldl_extreme Z.max (λ a b, b <= a)); lia.
  - intros a m Wf Hm. cbn. rewrite decide_True by done. eexists. split; [done|]. split; [|split].
    + unfold pa_wf in *. cbn. destruct (pa_nulls a) as [n|]; [|done]. cbn in *. by apply keep_same_length.
    + unfold pa_logical, logical. cbn. destruct (pa_nulls a) as [n|]; cbn; [apply keep_mask|apply keep_fmap].
    + intros v. apply keep_in.
Qed.

(** ** Properties *)

(** C17: every integer, date and timestamp column survives the frame-of-reference
    encoding: decoding gives the same values and nulls, over the whole range of
    the type (the extremes included), a filter keeps the selected rows, and so
    does an array read back from its bytes. *)
Theorem primitive_roundtrip `{NullBufferLaws} `{FastlanesLaws} `{!PrimitiveKernels} `{!PrimitiveKernelLaws} T (a : PrimitiveArray) m :
  pa_wf a -> Forall (in_native T) (pa_values a) -> length m = length (pa_values a) ->
  ∃ l a1 f, lp_from_arrow_array T a = Ret l
    /\ lp_to_arrow_array T l = Ret a1 /\ pa_logical a1 = pa_logical a
    /\ lp_filter T l m = Ret f /\ pa_logical f = keep (pa_logical a) m
    /\ lp_len l = length (pa_values a)
    /\ (bp_fits (native_width T) (lp_bit_packed l) ->
        ∃ l' a2, lp_from_bytes T (lp_to_bytes T l) = Ret l'
                 /\ lp_to_arrow_array T l' = Ret a2 /\ pa_logical a2 = pa_logical a).
Proof.
  intros Wf F Hm. destruct (lp_from_arrow_ok T a Wf F) as (l & -> & [R _] & _).
  assert (length (pa_logical a) = length (pa_values a)) as Hlen.
  { unfold pa_logical. apply logical_length. unfold pa_wf in Wf. by destruct (pa_nulls a). }
  destruct (lp_to_arrow_ok T l _ R) as (a1 & E1 & L1 & Wf1 & Hl1).
  destruct (prim_filter_ok a1 m Wf1 ltac:(lia)) as (f & Ef & _ & Lf & _).
  exists l, a1, f. split; [done|]. split; [done|]. split; [done|]. unfold lp_filter. rewrite E1. run_step.
  rewrite Ef. split; [done|]. split; [by rewrite Lf, L1|].
  split; [unfold lp_len, bp_len; by rewrite (lh_len _ _ _ R)|].
  intros Hfit. destruct (lp_bytes_ok T l _ R Hfit) as (l' & -> & R').
  destruct (lp_to_arrow_ok T l' _ R') as (a2 & E2 & L2 & _). by exists l', a2.
Qed.

Definition byte_column : @PrimitiveArray list_null_buffers :=
  Prim [-128; 127; 5] (Some ([true; true; false] : list bool)).

Lemma primitive_roundtrip_witness :
  ∃ l a1, lp_from_arrow_array PInt8 byte_column = Ret l
          /\ lp_to_arrow_array PInt8 l = Ret a1 /\ pa_logical a1 = [Some (-128); Some 127; None].
Proof.
  destruct (primitive_roundtrip PInt8 byte_column [true; true; false]) as (l & a1 & f & El & Ea & Hl & _).
  - reflexivity.
  - repeat constructor; cbn; lia.
  - reflexivity.
  - exists l, a1. split; [exact El|]. split; [exact Ea|]. exact Hl.
Defined.

(** The delta encoding gives back every column of a signed integer, date or
    timestamp type, also when a difference wraps around; for the unsigned types
    the zigzag code is cut to the width of the type, and a second value that is
    half the range or more above the first (which is any value slightly below it)
    comes back wrong, or panics for 64 bits. *)
Theorem delta_signed_exact_unsigned_not `{NullBufferLaws} `{FastlanesLaws} T :
  (is_unsigned T = false -> ∀ a : PrimitiveArray, pa_wf a -> Forall (in_native T) (pa_values a) ->
     ∃ r, ld_to_arrow_array T (ld_from_arrow_array T a) = Ret r /\ pa_logical r = pa_logical a)
  /\ (is_unsigned T = true -> ∀ prev cur, in_native T prev -> in_native T cur ->
        let r := d ← decode_delta T (encode_delta T prev cur); Ret (as_native T (prev + d)) in
        if (cur - prev) mod 2 ^ native_width T <? 2 ^ (native_width T - 1) then r = Ret cur
        else if bool_decide (native_width T = 64) then r = Panic
        else ∃ v, r = Ret v /\ v ≠ cur).
Proof.
  split; [intros Hu a Wf F; by apply ld_to_arrow_ok|].
  intros Hu prev cur Hp Hc r. unfold r. rewrite decode_unsigned by done.
  pose proof (native_width_range T) as Hw. set (w := native_width T) in *.
  assert (2 ^ w = 2 * 2 ^ (w - 1)) as E2 by (rewrite <- Z.pow_succ_r by lia; f_equal; lia).
  set (d := (cur - prev) mod 2 ^ w).
  assert (0 <= d < 2 ^ w) as Hd by (apply Z.mod_pos_bound; lia).
  assert (as_native T (prev + d) = cur) as Ecur.
  { rewrite <- (as_native_id T cur Hc). apply as_native_mod. fold w. unfold d.
    rewrite Zplus_mod_idemp_r. f_equal. lia. }
  destruct (d <? 2 ^ (w - 1)) eqn:E.
  - assert ((if bool_decide (w = 64) then if d <? 2 ^ 63 then Ret d else Panic
             else Ret (d mod 2 ^ (w - 1))) = Ret d) as ->.
    { case_bool_decide as H64; [|by rewrite Z.mod_small by lia]. rewrite H64 in E. change (64 - 1) with 63 in E. by rewrite E. }
    run_step. by rewrite Ecur.
  - case_bool_decide as H64; [rewrite H64 in E; change (64 - 1) with 63 in E; by rewrite E|]. run_step. eexists. split; [done|].
    rewrite <- Ecur. intros Heq. apply (f_equal (wrapu w)) in Heq. unfold w in Heq.
    rewrite !wrapu_as_native in Heq. fold w in Heq. unfold wrapu in Heq.
    assert (d mod 2 ^ (w - 1) = d - 2 ^ (w - 1)) as Em.
    { rewrite <- (Z_mod_plus_full _ (-1)), Z.mod_small by lia. lia. }
    rewrite Em in Heq. apply (f_equal (λ x, (x - prev) mod 2 ^ w)) in Heq.
    rewrite !Zminus_mod_idemp_l in Heq. replace (prev + d - prev) with d in Heq by lia.
    replace (prev + (d - 2 ^ (w - 1)) - prev) with (d - 2 ^ (w - 1)) in Heq by lia.
    rewrite !Z.mod_small in Heq by lia. lia.
Qed.

Lemma delta_signed_exact_unsigned_not_witness :
  (∃ v, (d ← decode_delta PUInt8 (encode_delta PUInt8 5 3); Ret (as_native PUInt8 (5 + d))) = Ret v /\ v ≠ 3)
  /\ (d ← decode_delta PUInt64 (encode_delta PUInt64 5 3); Ret (as_native PUInt64 (5 + d))) = Panic.
Proof.
  split.
  - exact (proj2 (delta_signed_exact_unsigned_not PUInt8) eq_refl 5 3 ltac:(cbn; lia) ltac:(cbn; lia)).
  - exact (proj2 (delta_signed_exact_unsigned_not PUInt64) eq_refl 5 3 ltac:(cbn; lia) ltac:(cbn; lia)).
Defined.
