(* ===== verification/Floats.v ===== *)
(** * Floating-point numbers

    The [f64] of Rust as [SpecFloat] of the standard library specifies it (53 bits
    of precision, exponents below 1024), with the conversions from and to integers
    that the source uses.  Then [f32] and [f64] as their bit patterns: an operation
    decodes its operands, computes with [SpecFloat] (IEEE 754, nearest even) and
    encodes the result; a NaN that an operation produces is the quiet one.  This is
    what the float and the linear arrays store, compare bit for bit and write to
    disk. *)

From stdpp Require Import base list.
From Stdlib Require Import ZArith Lia.
From Stdlib Require Import Floats.SpecFloat.
From S2P Require Import Prelude.
Local Open Scope Z_scope.

Abbreviation f64 := spec_float.

Definition f64_add : f64 -> f64 -> f64 := SFadd 53 1024.
Definition f64_sub : f64 -> f64 -> f64 := SFsub 53 1024.
Definition f64_mul : f64 -> f64 -> f64 := SFmul 53 1024.
Definition f64_div : f64 -> f64 -> f64 := SFdiv 53 1024.

(** An integer [as f64]: the nearest one, ties to even. *)
Definition f64_of_Z (z : Z) : f64 := binary_normalize 53 1024 z 0 false.

(** [Iterator::sum], which starts from the negative zero. *)
Definition f64_sum (l : list f64) : f64 := foldl f64_add (S754_zero true) l.

(** [f64::round] (ties away from zero) of a magnitude [m * 2 ^ e]. *)
Definition round_magnitude (m : positive) (e : Z) : Z :=
  if 0 <=? e then Zpos m * 2 ^ e else (2 * Zpos m + 2 ^ (- e)) / (2 * 2 ^ (- e)).

(** [x.round() as iN]: saturating, zero for a NaN. *)
Definition f64_round_to (w : Z) (x : f64) : Z :=
  let lo := - 2 ^ (w - 1) in
  let hi := 2 ^ (w - 1) - 1 in
  match x with
  | S754_nan | S754_zero _ => 0
  | S754_infinity s => if s then lo else hi
  | S754_finite s m e =>
      let r := round_magnitude m e in
      Z.max lo (Z.min hi (if s then - r else r))
  end.

(** A sanity check of the rounding: halves go away from zero. *)
Lemma f64_round_examples :
  f64_round_to 32 (f64_div (f64_of_Z 7) (f64_of_Z 2)) = 4
  /\ f64_round_to 32 (f64_div (f64_of_Z (-7)) (f64_of_Z 2)) = -4
  /\ f64_round_to 32 (f64_div (f64_of_Z 10) (f64_of_Z 3)) = 3
  /\ f64_round_to 32 (f64_of_Z (2 ^ 40)) = 2 ^ 31 - 1
  /\ f64_round_to 32 (f64_div (f64_of_Z 0) (f64_of_Z 0)) = 0.
Proof. by vm_compute. Qed.

Lemma f64_round_range w x : 0 < w -> - 2 ^ (w - 1) <= f64_round_to w x < 2 ^ (w - 1).
Proof.
  intros Hw. assert (0 < 2 ^ (w - 1)) by (apply Z.pow_pos_nonneg; lia).
  destruct x as [s|s| |s m e]; cbn [f64_round_to]; try (destruct s); lia.
Qed.

(** Precision, the exponent of the infinities, and the width of the word. *)
Record FloatFormat : Type := FormatOf { fl_prec : Z; fl_emax : Z; fl_width : Z }.

Definition binary32 : FloatFormat := FormatOf 24 128 32.
Definition binary64 : FloatFormat := FormatOf 53 1024 64.

(** A bit pattern of a format. *)
Abbreviation fl := Z (only parsing).

Section format.
Context (F : FloatFormat).

Local Abbreviation mantissa_bits := (fl_prec F - 1).
Local Abbreviation exponent_bits := (fl_width F - fl_prec F).
Local Abbreviation min_exponent := (emin (fl_prec F) (fl_emax F)).

(** Sign, exponent and mantissa fields of a word. *)
Definition sign_bit (z : Z) : bool := Z.testbit z (fl_width F - 1).
Definition exponent_field (z : Z) : Z := (z / 2 ^ mantissa_bits) mod 2 ^ exponent_bits.
Definition mantissa_field (z : Z) : Z := z mod 2 ^ mantissa_bits.
Definition top_exponent : Z := 2 ^ exponent_bits - 1.

Definition of_bits (z : fl) : spec_float :=
  let s := sign_bit z in
  let e := exponent_field z in
  let m := mantissa_field z in
  if e =? top_exponent then if m =? 0 then S754_infinity s else S754_nan
  else if e =? 0 then match m with Zpos p => S754_finite s p min_exponent | _ => S754_zero s end
  else S754_finite s (Z.to_pos (m + 2 ^ mantissa_bits)) (min_exponent + e - 1).

Definition word_of (s : bool) (magnitude : Z) : fl :=
  wrapu (fl_width F) ((if s then 2 ^ (fl_width F - 1) else 0) + magnitude).

Definition to_bits (x : spec_float) : fl :=
  match x with
  | S754_zero s => word_of s 0
  | S754_infinity s => word_of s (top_exponent * 2 ^ mantissa_bits)
  | S754_nan => word_of false (top_exponent * 2 ^ mantissa_bits + 2 ^ (mantissa_bits - 1))
  | S754_finite s m e =>
      word_of s (if Zpos m <? 2 ^ mantissa_bits then Zpos m
                 else (e - min_exponent + 1) * 2 ^ mantissa_bits + (Zpos m - 2 ^ mantissa_bits))
  end.

(** ** Operations *)

Definition lift2 (op : spec_float -> spec_float -> spec_float) (x y : fl) : fl := to_bits (op (of_bits x) (of_bits y)).

Definition fadd : fl -> fl -> fl := lift2 (SFadd (fl_prec F) (fl_emax F)).
Definition fsub : fl -> fl -> fl := lift2 (SFsub (fl_prec F) (fl_emax F)).
Definition fmul : fl -> fl -> fl := lift2 (SFmul (fl_prec F) (fl_emax F)).
Definition fdiv : fl -> fl -> fl := lift2 (SFdiv (fl_prec F) (fl_emax F)).

(** [==], [<] and [<=]; false as soon as an operand is a NaN. *)
Definition feq (x y : fl) : bool := SFeqb (of_bits x) (of_bits y).
Definition flt (x y : fl) : bool := SFltb (of_bits x) (of_bits y).
Definition fle (x y : fl) : bool := SFleb (of_bits x) (of_bits y).

Definition is_nan (x : fl) : bool := match of_bits x with S754_nan => true | _ => false end.
Definition is_finite (x : fl) : bool :=
  match of_bits x with S754_zero _ | S754_finite _ _ _ => true | _ => false end.

Definition fabs (x : fl) : fl := x mod 2 ^ (fl_width F - 1).

(** [f64::min] and [f64::max]: the other operand when one is a NaN. *)
Definition fmin (x y : fl) : fl := if is_nan x then y else if flt y x then y else x.
Definition fmax (x y : fl) : fl := if is_nan x then y else if flt x y then y else x.

Definition f_infinity : fl := to_bits (S754_infinity false).
Definition f_neg_infinity : fl := to_bits (S754_infinity true).

(** An integer [as] a float: the nearest one, ties to even. *)
Definition fl_of_Z (z : Z) : fl := to_bits (binary_normalize (fl_prec F) (fl_emax F) z 0 false).

(** [x as iN] or [uN], for a range of integers: towards zero, saturating, zero for
    a NaN; and [x.round() as iN]. *)
Definition truncate_magnitude (m : positive) (e : Z) : Z :=
  if 0 <=? e then Zpos m * 2 ^ e else Zpos m / 2 ^ (- e).

Definition fl_cast (magnitude : positive -> Z -> Z) (lo hi : Z) (x : fl) : Z :=
  match of_bits x with
  | S754_nan | S754_zero _ => Z.max lo (Z.min hi 0)
  | S754_infinity s => if s then lo else hi
  | S754_finite s m e => let r := magnitude m e in Z.max lo (Z.min hi (if s then - r else r))
  end.

Definition fl_as : Z -> Z -> fl -> Z := fl_cast truncate_magnitude.
Definition fl_round_as : Z -> Z -> fl -> Z := fl_cast round_magnitude.
End format.

(** [as f32] of an [f64] and back. *)
Definition fl_convert (F G : FloatFormat) (x : fl) : fl :=
  to_bits G match of_bits F x with
            | S754_finite s m e => binary_normalize (fl_prec G) (fl_emax G) (if s then Zneg m else Zpos m) e s
            | y => y
            end.

(** The literals of the source are decimal: [m] over or times a power of ten,
    correctly rounded. *)
Definition decimal_literal (F : FloatFormat) (m : Z) (e10 : Z) : fl :=
  if 0 <=? e10 then fl_of_Z F (m * 10 ^ e10)
  else
    to_bits F
      (match m with
       | Zpos p =>
           let '(mz, ez, lz) := SFdiv_core_binary (fl_prec F) (fl_emax F) (Zpos p) 0 (10 ^ (- e10)) 0 in
           binary_round_aux (fl_prec F) (fl_emax F) false mz ez lz
       | _ => S754_zero false
       end).

(** Known patterns: 1, 0.1, 10^-12, 10^23 and the smallest subnormal in double
    precision, 0.1 in single, and conversions between them. *)
Lemma float_examples :
  fl_of_Z binary64 1 = 0x3ff0000000000000
  /\ decimal_literal binary64 1 (-1) = 0x3fb999999999999a
  /\ decimal_literal binary64 1 (-12) = 0x3d719799812dea11
  /\ decimal_literal binary64 1 23 = 0x44b52d02c7e14af6
  /\ decimal_literal binary32 1 (-1) = 0x3dcccccd
  /\ fl_convert binary64 binary32 0x3fb999999999999a = 0x3dcccccd
  /\ fl_convert binary32 binary64 0x3dcccccd = 0x3fb99999a0000000
  /\ fmul binary64 1 0x3ff0000000000000 = 1
  /\ fadd binary64 0x3fb999999999999a 0x3fc999999999999a = 0x3fd3333333333334
  /\ fl_as binary64 (-128) 127 0xc012000000000000 = -4
  /\ fl_round_as binary64 (-128) 127 0xc012000000000000 = -5.
Proof. by vm_compute. Qed.

(** ** The words of a format *)

Class FormatOk (F : FloatFormat) : Prop := {
  fmt_prec : 3 <= fl_prec F;
  fmt_width : fl_prec F + 2 <= fl_width F;
  fmt_emax : fl_emax F = 2 ^ (fl_width F - fl_prec F - 1)
}.

#[export] Instance binary32_ok : FormatOk binary32.
Proof. by split. Qed.
#[export] Instance binary64_ok : FormatOk binary64.
Proof. by split. Qed.

Section words.
Context (F : FloatFormat) {Fok : FormatOk F}.

Local Abbreviation mb := (fl_prec F - 1).
Local Abbreviation eb := (fl_width F - fl_prec F).
Local Abbreviation M := (2 ^ mb).
Local Abbreviation E := (2 ^ eb).

Lemma word_split : 2 ^ (fl_width F - 1) = M * E /\ 2 ^ fl_width F = 2 * (M * E) /\ 2 <= M /\ 4 <= E.
Proof.
  destruct Fok as [Hp Hw _].
  assert (2 ^ (fl_width F - 1) = M * E) as E1 by (rewrite <- Z.pow_add_r by lia; f_equal; lia).
  assert (2 ^ fl_width F = 2 * 2 ^ (fl_width F - 1)) as E2 by (rewrite <- Z.pow_succ_r by lia; f_equal; lia).
  pose proof (Z.pow_le_mono_r 2 1 mb ltac:(lia) ltac:(lia)).
  pose proof (Z.pow_le_mono_r 2 2 eb ltac:(lia) ltac:(lia)). lia.
Qed.

Lemma mantissa_range z : 0 <= mantissa_field F z < M.
Proof. apply Z.mod_pos_bound. destruct word_split as (_ & _ & ? & _). lia. Qed.

Lemma exponent_range z : 0 <= exponent_field F z < E.
Proof. apply Z.mod_pos_bound. destruct word_split as (_ & _ & _ & ?). lia. Qed.

(** A word is its three fields. *)
Lemma word_fields z :
  0 <= z < 2 ^ fl_width F ->
  word_of F (sign_bit F z) (exponent_field F z * M + mantissa_field F z) = z.
Proof.
  destruct word_split as (E1 & E2 & HM & HE). intros Hz. unfold word_of. rewrite E1.
  assert (z / M / E = z / (M * E)) as Ed by (apply Z.div_div; lia).
  assert (sign_bit F z = (1 =? z / (M * E))) as ->.
  { unfold sign_bit. rewrite <- E1. destruct Fok as [Hp Hw _]. rewrite Z.testbit_odd, Z.shiftr_div_pow2 by lia.
    assert (0 <= z / 2 ^ (fl_width F - 1) < 2) as Hr
      by (split; [apply Z.div_pos; lia|apply Z.div_lt_upper_bound; lia]).
    assert (z / 2 ^ (fl_width F - 1) = 0 \/ z / 2 ^ (fl_width F - 1) = 1) as [-> | ->] by lia; done. }
  unfold exponent_field, mantissa_field.
  pose proof (Z.div_mod z M ltac:(lia)) as D1. pose proof (Z.div_mod (z / M) E ltac:(lia)) as D2. rewrite Ed in D2.
  assert (0 <= z / (M * E) < 2) as Hr by (split; [apply Z.div_pos; nia|apply Z.div_lt_upper_bound; nia]).
  rewrite wrapu_id; destruct (Z.eqb_spec 1 (z / (M * E))); nia.
Qed.

Lemma word_of_range s m : 0 <= word_of F s m < 2 ^ fl_width F.
Proof. apply Z.mod_pos_bound. destruct word_split as (_ & ? & ? & ?). nia. Qed.

Lemma to_bits_range x : 0 <= to_bits F x < 2 ^ fl_width F.
Proof. destruct x; apply word_of_range. Qed.

Lemma is_nan_spec z : is_nan F z = true <-> of_bits F z = S754_nan.
Proof. unfold is_nan. by destruct (of_bits F z). Qed.

(** Decoding loses nothing but the payload of a NaN. *)
Lemma to_of_bits z : 0 <= z < 2 ^ fl_width F -> is_nan F z = false -> to_bits F (of_bits F z) = z.
Proof.
  intros Hz Hn. rewrite <- (word_fields z Hz) at 2. unfold is_nan, of_bits in *.
  pose proof (mantissa_range z) as Hm. pose proof (exponent_range z) as He. destruct word_split as (_ & _ & HM & HE).
  destruct (exponent_field F z =? top_exponent F) eqn:E1.
  { destruct (mantissa_field F z =? 0) eqn:E2; [|done]. cbn [to_bits]. f_equal. unfold top_exponent in *. nia. }
  destruct (exponent_field F z =? 0) eqn:E3.
  - assert (exponent_field F z = 0) as -> by lia. destruct (mantissa_field F z) as [|m|m]; [| |lia]; cbn [to_bits].
    + f_equal; lia.
    + replace (Zpos m <? M) with true by (symmetry; apply Z.ltb_lt; lia). f_equal; lia.
  - cbn [to_bits]. rewrite Z2Pos.id by lia.
    replace (_ <? M) with false by (symmetry; apply Z.ltb_ge; lia). f_equal; nia.
Qed.

(** Two words that [==] identifies are equal, or both zeros. *)
Definition same_float (x y : fl) : Prop :=
  x = y \/ (of_bits F x = S754_zero (sign_bit F x) /\ of_bits F y = S754_zero (sign_bit F y)).

Lemma pos_cont_eq m1 m2 : Pos.compare_cont Eq m1 m2 = Eq -> m1 = m2.
Proof. intros H. by apply Pos.compare_eq. Qed.

Lemma sf_eqb_eq x y :
  SFeqb x y = true -> (x = y /\ x ≠ S754_nan) \/ (∃ s t, x = S754_zero s /\ y = S754_zero t).
Proof.
  unfold SFeqb. destruct x as [s|s| |s m e], y as [t|t| |t n f]; cbn; try done; try (by destruct s); try (by destruct t);
    try (by right; eauto).
  - destruct s, t; try done; left; done.
  - destruct s, t; try done; destruct (Z.compare_spec e f) as [->| |]; try done;
      destruct (Pos.compare_cont Eq m n) eqn:En; try done; apply pos_cont_eq in En as ->; by left.
Qed.

Lemma of_bits_zero x s : of_bits F x = S754_zero s -> of_bits F x = S754_zero (sign_bit F x).
Proof.
  unfold of_bits. destruct (_ =? top_exponent F); [by destruct (_ =? 0)|]. destruct (_ =? 0); [|done].
  by destruct (mantissa_field F x).
Qed.

Lemma feq_same x y :
  0 <= x < 2 ^ fl_width F -> 0 <= y < 2 ^ fl_width F -> feq F x y = true -> same_float x y.
Proof.
  intros Hx Hy H. unfold feq in H. destruct (sf_eqb_eq _ _ H) as [[E Hn]|(s & t & Es & Et)].
  - left. rewrite <- (to_of_bits x), <- (to_of_bits y), E; try done.
    + apply not_true_iff_false. rewrite is_nan_spec, <- E. done.
    + apply not_true_iff_false. by rewrite is_nan_spec.
  - right. split; by eapply of_bits_zero.
Qed.

Lemma digits2_log p : Zpos (digits2_pos p) = Z.log2 (Zpos p) + 1.
Proof.
  induction p as [p IH|p IH|]; [| |done]; cbn [digits2_pos]; rewrite Pos2Z.inj_succ, IH.
  - change (Zpos p~1) with (2 * Zpos p + 1). rewrite Z.log2_succ_double; lia.
  - change (Zpos p~0) with (2 * Zpos p). rewrite Z.log2_double; lia.
Qed.

(** Every word denotes a number of the format, in canonical form. *)
Lemma of_bits_valid z : valid_binary (fl_prec F) (fl_emax F) (of_bits F z) = true.
Proof.
  unfold of_bits. pose proof (mantissa_range z) as Hm. pose proof (exponent_range z) as He.
  destruct word_split as (_ & _ & HM & HE). destruct Fok as [Hp Hw Hmax].
  assert (E = 2 * 2 ^ (fl_width F - fl_prec F - 1)) as EE by (rewrite <- Z.pow_succ_r by lia; f_equal; lia).
  pose proof (Z.pow_gt_lin_r 2 (fl_width F - fl_prec F - 1) ltac:(lia) ltac:(lia)) as Hlin.
  destruct (exponent_field F z =? top_exponent F) eqn:E1; [by destruct (_ =? 0)|]. unfold top_exponent in E1.
  destruct (exponent_field F z =? 0) eqn:E3.
  - destruct (mantissa_field F z) as [|m|m] eqn:Em; [done| |done]. cbn [valid_binary]. unfold bounded, canonical_mantissa, fexp.
    rewrite digits2_log. pose proof (Z.log2_lt_pow2 (Zpos m) mb ltac:(lia)) as [Hl _]. specialize (Hl ltac:(lia)).
    apply andb_true_intro. unfold emin. split; [apply Z.eqb_eq|apply Z.leb_le]; lia.
  - cbn [valid_binary]. unfold bounded, canonical_mantissa, fexp. rewrite digits2_log, Z2Pos.id by lia.
    rewrite (Z.log2_unique _ mb) by (rewrite ?Z.pow_succ_r; lia). apply andb_true_intro. unfold emin.
    split; [apply Z.eqb_eq|apply Z.leb_le]; lia.
Qed.
End words.
