(* ===== verification/CompactOffsets.v ===== *)
(** * Compact offsets

    Model of [CompactOffsets] in [src/src/storage/src/liquid_array/raw/fsst_buffer.rs]:
    the offsets of the values in an FSST buffer, stored as their differences from
    a line fitted with floating-point numbers, in one, two or four bytes each.
    Arithmetic on [i32] wraps (release profile). *)

From stdpp Require Import base list.
From Stdlib Require Import ZArith Lia.
From S2P Require Import Prelude Bytes Floats.
Local Open Scope Z_scope.

Record CompactOffsetHeader : Type := OffsetHeader {
  slope : Z;
  intercept : Z;
  offset_bytes : Z
}.

Inductive OffsetResiduals : Type := One (values : list Z) | Two (values : list Z) | Four (values : list Z).

Definition residuals_len (r : OffsetResiduals) : nat :=
  match r with One values | Two values | Four values => length values end.

Definition get_i32 (r : OffsetResiduals) (i : nat) : outcome Z :=
  match r with One values | Two values | Four values => index values i end.

Record CompactOffsets : Type := Compact {
  co_header : CompactOffsetHeader;
  co_residuals : OffsetResiduals
}.

(** The least-squares line; the sums of indices are computed in [usize]. *)
Definition fit_line (offsets : list Z) : Z * Z :=
  let n := Z.of_nat (length offsets) in
  if n <=? 1 then (0, wraps 32 (default 0 (head offsets)))
  else
    let n_f64 := f64_of_Z n in
    let sum_x := f64_of_Z (usize (n * (n - 1)) / 2) in
    let sum_y := f64_sum (f64_of_Z <$> offsets) in
    let sum_xy :=
      f64_sum (imap (λ i o, f64_mul (f64_of_Z (Z.of_nat i)) (f64_of_Z o)) offsets) in
    let sum_x_sq := f64_of_Z (usize (usize (n * (n - 1)) * (2 * n - 1)) / 6) in
    let slope :=
      f64_div (f64_sub (f64_mul n_f64 sum_xy) (f64_mul sum_x sum_y))
        (f64_sub (f64_mul n_f64 sum_x_sq) (f64_mul sum_x sum_x)) in
    let intercept := f64_div (f64_sub sum_y (f64_mul slope sum_x)) n_f64 in
    (f64_round_to 32 slope, f64_round_to 32 intercept).

(** [slope * index as i32 + intercept]. *)
Definition predicted (slope intercept : Z) (i : nat) : Z :=
  wraps 32 (wraps 32 (slope * wraps 32 (Z.of_nat i)) + intercept).

Definition residual_of (slope intercept : Z) (i : nat) (offset : Z) : Z :=
  wraps 32 (wraps 32 offset - predicted slope intercept i).

(** The bytes one residual takes, from their extremes. *)
Definition residual_bytes (residuals : list Z) : Z :=
  let min_residual := foldl Z.min (2 ^ 31 - 1) residuals in
  let max_residual := foldl Z.max (- 2 ^ 31) residuals in
  if (- 2 ^ 7 <=? min_residual) && (max_residual <=? 2 ^ 7 - 1) then 1
  else if (- 2 ^ 15 <=? min_residual) && (max_residual <=? 2 ^ 15 - 1) then 2
  else 4.

Definition from_offsets (offsets : list Z) : CompactOffsets :=
  if bool_decide (offsets = []) then Compact (OffsetHeader 0 0 1) (One [])
  else
    let '(slope, intercept) := fit_line offsets in
    let offset_residuals := imap (residual_of slope intercept) offsets in
    let offset_bytes := residual_bytes offset_residuals in
    let residuals :=
      if offset_bytes =? 1 then One (wraps 8 <$> offset_residuals)
      else if offset_bytes =? 2 then Two (wraps 16 <$> offset_residuals)
      else Four offset_residuals in
    Compact (OffsetHeader slope intercept offset_bytes) residuals.

Definition co_len (c : CompactOffsets) : nat := residuals_len (co_residuals c).

Definition get_offset (c : CompactOffsets) (i : nat) : outcome Z :=
  residual ← get_i32 (co_residuals c) i;
  Ret (wrapu 32 (wraps 32 (predicted (slope (co_header c)) (intercept (co_header c)) i + residual))).

Fixpoint offsets_from (c : CompactOffsets) (i n : nat) : outcome (list Z) :=
  match n with
  | O => Ret []
  | S n => offset ← get_offset c i; rest ← offsets_from c (S i) n; Ret (offset :: rest)
  end.

Definition offsets (c : CompactOffsets) : outcome (list Z) := offsets_from c 0 (co_len c).

(** Twelve bytes of header, with its padding. *)
Definition co_memory_usage (c : CompactOffsets) : Z :=
  12 + match co_residuals c with
       | One values => Z.of_nat (length values)
       | Two values => Z.of_nat (length values) * 2
       | Four values => Z.of_nat (length values) * 4
       end.

(** ** Bytes *)

Definition write_residuals (c : CompactOffsets) : list Z :=
  le_bytes 4 (slope (co_header c)) ++ le_bytes 4 (intercept (co_header c)) ++ [offset_bytes (co_header c)]
  ++ match co_residuals c with
     | One residuals => concat (le_bytes 1 <$> residuals)
     | Two residuals => concat (le_bytes 2 <$> residuals)
     | Four residuals => concat (le_bytes 4 <$> residuals)
     end.

Definition decode_compact_offsets (bytes : list Z) : outcome CompactOffsets :=
  if (length bytes <? 9)%nat then Panic
  else
    let slope := wraps 32 (le_val (take 4 bytes)) in
    let intercept := wraps 32 (le_val (take 4 (drop 4 bytes))) in
    offset_bytes ← index bytes 8;
    let header := OffsetHeader slope intercept offset_bytes in
    let payload := drop 9 bytes in
    if negb ((offset_bytes =? 1) || (offset_bytes =? 2) || (offset_bytes =? 4)) then Panic
    else if negb ((length payload mod Z.to_nat offset_bytes =? 0)%nat) then Panic
    else
      let count := (length payload / Z.to_nat offset_bytes)%nat in
      Ret (Compact header
             (if offset_bytes =? 1 then One (wraps 8 <$> words_of 1 count payload)
              else if offset_bytes =? 2 then Two (wraps 16 <$> words_of 2 count payload)
              else Four (wraps 32 <$> words_of 4 count payload))).

Definition empty_compact_offsets : CompactOffsets := from_offsets [].

(** ** Lemmas *)

(** The prediction cancels, whatever the line. *)
Lemma residual_cancels s b i o :
  0 <= o < 2 ^ 32 -> wrapu 32 (wraps 32 (predicted s b i + residual_of s b i o)) = o.
Proof.
  intros Ho. unfold wrapu, residual_of. rewrite wraps_mod by lia.
  rewrite Z.add_mod, wraps_mod, <- Z.add_mod by lia.
  replace (predicted s b i + (wraps 32 o - predicted s b i)) with (wraps 32 o) by lia.
  rewrite wraps_mod by lia. by apply Z.mod_small.
Qed.

(** The extremes bound every residual. *)
Lemma foldl_min_le l acc : foldl Z.min acc l <= acc /\ ∀ v, v ∈ l -> foldl Z.min acc l <= v.
Proof.
  revert acc. induction l as [|x l IH]; intros acc; cbn; [split; [lia|]; intros v Hv; by apply not_elem_of_nil in Hv|].
  destruct (IH (Z.min acc x)) as [H1 H2]. split; [lia|].
  intros v [->|Hv]%elem_of_cons; [lia|by apply H2].
Qed.

Lemma foldl_max_le l acc : acc <= foldl Z.max acc l /\ ∀ v, v ∈ l -> v <= foldl Z.max acc l.
Proof.
  revert acc. induction l as [|x l IH]; intros acc; cbn; [split; [lia|]; intros v Hv; by apply not_elem_of_nil in Hv|].
  destruct (IH (Z.max acc x)) as [H1 H2]. split; [lia|].
  intros v [->|Hv]%elem_of_cons; [lia|by apply H2].
Qed.

Lemma foldl_min_ge l acc m : m <= acc -> Forall (λ v, m <= v) l -> m <= foldl Z.min acc l.
Proof. intros Ha F. revert acc Ha. induction F as [|x l Hx _ IH]; intros acc Ha; cbn; [done|]. apply IH. lia. Qed.

Lemma foldl_max_ge' l acc m : acc <= m -> Forall (λ v, v <= m) l -> foldl Z.max acc l <= m.
Proof. intros Ha F. revert acc Ha. induction F as [|x l Hx _ IH]; intros acc Ha; cbn; [done|]. apply IH. lia. Qed.

(** A residual fits in [n] bytes. *)
Definition fits (n r : Z) : Prop := - 2 ^ (8 * n - 1) <= r < 2 ^ (8 * n - 1).

(** [residual_bytes] is the least of 1, 2 and 4 that holds all of them. *)
Lemma residual_bytes_least rs :
  Forall (fits 4) rs ->
  let n := residual_bytes rs in
  (n = 1 \/ n = 2 \/ n = 4) /\ Forall (fits n) rs
  /\ ∀ k, k = 1 \/ k = 2 \/ k = 4 -> Forall (fits k) rs -> n <= k.
Proof.
  intros F4 n. unfold fits in *.
  assert (∀ k, (- 2 ^ (8 * k - 1) <=? foldl Z.min (2 ^ 31 - 1) rs) && (foldl Z.max (- 2 ^ 31) rs <=? 2 ^ (8 * k - 1) - 1) = true
          -> Forall (fits k) rs) as Hin.
  { intros k [Hlo Hhi]%andb_prop. apply Z.leb_le in Hlo, Hhi. apply Forall_forall. intros v Hv.
    pose proof (proj2 (foldl_min_le rs (2 ^ 31 - 1)) v Hv).
    pose proof (proj2 (foldl_max_le rs (- 2 ^ 31)) v Hv). unfold fits. lia. }
  assert (∀ k, k = 1 \/ k = 2 -> Forall (fits k) rs ->
     (- 2 ^ (8 * k - 1) <=? foldl Z.min (2 ^ 31 - 1) rs) && (foldl Z.max (- 2 ^ 31) rs <=? 2 ^ (8 * k - 1) - 1) = true) as Hout.
  { intros k Hk F. apply andb_true_intro. rewrite !Z.leb_le. split.
    - apply foldl_min_ge; [destruct Hk as [->| ->]; lia|]. eapply Forall_impl; [exact F|]. unfold fits. cbn. lia.
    - apply foldl_max_ge'; [destruct Hk as [->| ->]; lia|]. eapply Forall_impl; [exact F|]. unfold fits. cbn. lia. }
  pose proof (Hin 1) as I1. pose proof (Hin 2) as I2. pose proof (Hout 1) as O1. pose proof (Hout 2) as O2.
  change (8 * 1 - 1) with 7 in *. change (8 * 2 - 1) with 15 in *.
  unfold n, residual_bytes. destruct (_ && _) eqn:E1.
  { split_and!; [lia|by apply I1|]. intros; lia. }
  destruct (_ && _) eqn:E2 in |- *.
  { split_and!; [lia|by apply I2|]. intros k [-> |Hk] F; [|lia]. specialize (O1 ltac:(lia) F). congruence. }
  split_and!; [lia|done|]. intros k [->|[->| ->]] F; [| |lia].
  - specialize (O1 ltac:(lia) F). congruence.
  - specialize (O2 ltac:(lia) F). congruence.
Qed.

(** The residuals of each size, as they are written and read back. *)
Definition residual_values (r : OffsetResiduals) : list Z :=
  match r with One values | Two values | Four values => values end.

Lemma wraps_fits n r : 1 <= n -> fits n r -> wraps (8 * n) r = r.
Proof. intros Hn Hf. unfold fits in Hf. apply wraps_id; lia. Qed.

Lemma fmap_wraps_fits n w rs : w = 8 * n -> 1 <= n -> Forall (fits n) rs -> wraps w <$> rs = rs.
Proof.
  intros -> Hn F. apply fmap_id_on. intros r Hr. apply wraps_fits; [done|]. by rewrite Forall_forall in F; apply F.
Qed.

Lemma wraps_le_val n r : 1 <= Z.of_nat n -> fits (Z.of_nat n) r ->
  wraps (8 * Z.of_nat n) (le_val (le_bytes n r)) = r.
Proof.
  intros Hn Hf. rewrite le_val_bytes. rewrite <- (wraps_fits (Z.of_nat n) r Hn Hf) at 2.
  apply wraps_cong; [lia|]. by rewrite Zmod_mod.
Qed.

Lemma words_back n rs : 1 <= Z.of_nat n -> Forall (fits (Z.of_nat n)) rs ->
  wraps (8 * Z.of_nat n) <$> words_of n (length rs) (concat (le_bytes n <$> rs)) = rs.
Proof.
  intros Hn F. rewrite words_of_concat, <- list_fmap_compose. rewrite <- list_fmap_id.
  apply list_fmap_ext. intros i r Hr. cbn. rewrite <- le_val_bytes. apply wraps_le_val; [done|].
  eapply Forall_lookup_1; done.
Qed.

Lemma fit_line_range os s b : fit_line os = (s, b) -> fits 4 s /\ fits 4 b.
Proof.
  unfold fit_line, fits. change (8 * 4 - 1) with 31. destruct (_ <=? 1); intros [= <- <-].
  - split; [lia|]. apply (wraps_range 32); lia.
  - split; apply (f64_round_range 32); lia.
Qed.

(** Well-formed: every number fits its field, the header names the size. *)
Definition co_wf (c : CompactOffsets) : Prop :=
  let n := match co_residuals c with One _ => 1 | Two _ => 2 | Four _ => 4 end in
  fits 4 (slope (co_header c)) /\ fits 4 (intercept (co_header c)) /\ offset_bytes (co_header c) = n
  /\ Forall (fits n) (residual_values (co_residuals c)).

Lemma residuals_fit s b os : Forall (fits 4) (imap (residual_of s b) os).
Proof.
  apply Forall_lookup. intros i r Hr. apply list_lookup_imap_Some in Hr as (o & _ & ->).
  unfold fits, residual_of. apply wraps_range. lia.
Qed.

(** What [from_offsets] builds, when there is an offset. *)
Lemma from_offsets_shape os s b :
  os ≠ [] -> fit_line os = (s, b) ->
  co_wf (from_offsets os)
  /\ co_header (from_offsets os) = OffsetHeader s b (residual_bytes (imap (residual_of s b) os))
  /\ residual_values (co_residuals (from_offsets os)) = imap (residual_of s b) os.
Proof.
  intros Hne Hl. unfold from_offsets. rewrite bool_decide_eq_false_2 by done. rewrite Hl.
  destruct (fit_line_range os s b Hl) as [Hs Hb].
  destruct (residual_bytes_least _ (residuals_fit s b os)) as (Hn & F & _). unfold co_wf. cbn [co_header].
  destruct Hn as [E|[E|E]]; rewrite E in *; cbn [Z.eqb Pos.eqb co_residuals residual_values slope intercept offset_bytes];
    try first [rewrite (fmap_wraps_fits 1 8) by done | rewrite (fmap_wraps_fits 2 16) by done]; done.
Qed.

Lemma offsets_from_ok c os i :
  (∀ j o, os !! j = Some o -> get_offset c (i + j) = Ret o) -> offsets_from c i (length os) = Ret os.
Proof.
  revert i. induction os as [|o os IH]; intros i Hg; cbn; [done|].
  rewrite <- (Nat.add_0_r i) at 1. rewrite (Hg 0%nat o) by done. run_step.
  rewrite IH; [done|]. intros j o' Hj. rewrite Nat.add_succ_comm. by apply (Hg (S j)).
Qed.

Lemma get_i32_values r i : get_i32 r i = index (residual_values r) i.
Proof. by destruct r. Qed.

Lemma residuals_len_values r : residuals_len r = length (residual_values r).
Proof. by destruct r. Qed.

Lemma get_offset_exact os i o :
  Forall (λ o, 0 <= o < 2 ^ 32) os -> os !! i = Some o -> get_offset (from_offsets os) i = Ret o.
Proof.
  intros F Ho. destruct (fit_line os) as [s b] eqn:Hl.
  assert (os ≠ []) as Hne by (by intros ->).
  destruct (from_offsets_shape os s b Hne Hl) as (_ & Hh & Hv).
  unfold get_offset. rewrite get_i32_values, Hv, Hh. unfold index. rewrite list_lookup_imap, Ho. cbn [fmap option_fmap option_map].
  run_step. cbn [slope intercept]. rewrite residual_cancels; [done|]. by eapply Forall_lookup_1 in F.
Qed.

Lemma from_offsets_len os : co_len (from_offsets os) = length os.
Proof.
  destruct (decide (os = [])) as [->|Hne]; [done|]. destruct (fit_line os) as [s b] eqn:Hl.
  destruct (from_offsets_shape os s b Hne Hl) as (_ & _ & Hv).
  unfold co_len. by rewrite residuals_len_values, Hv, length_imap.
Qed.

Lemma from_offsets_wf os : co_wf (from_offsets os).
Proof.
  destruct (decide (os = [])) as [->|Hne]; [by unfold co_wf, fits|].
  destruct (fit_line os) as [s b] eqn:Hl. by destruct (from_offsets_shape os s b Hne Hl).
Qed.

(** ** Bytes *)

Lemma write_shape c :
  write_residuals c
  = le_bytes 4 (slope (co_header c)) ++ le_bytes 4 (intercept (co_header c)) ++ [offset_bytes (co_header c)]
    ++ concat (le_bytes (match co_residuals c with One _ => 1 | Two _ => 2 | Four _ => 4 end)
                 <$> residual_values (co_residuals c)).
Proof. unfold write_residuals. by destruct (co_residuals c). Qed.

Lemma header_numbers s b n payload :
  fits 4 s -> fits 4 b ->
  let bytes := le_bytes 4 s ++ le_bytes 4 b ++ [n] ++ payload in
  (length bytes <? 9)%nat = false /\ wraps 32 (le_val (take 4 bytes)) = s
  /\ wraps 32 (le_val (take 4 (drop 4 bytes))) = b /\ index bytes 8 = Ret n /\ drop 9 bytes = payload.
Proof.
  intros Hs Hb bytes.
  pose proof (wraps_le_val 4 s ltac:(lia) Hs) as Es. pose proof (wraps_le_val 4 b ltac:(lia) Hb) as Eb.
  unfold bytes. cbn [le_bytes app] in *. by split_and!.
Qed.

Lemma payload_count n rs :
  (0 < n)%nat ->
  let payload := concat (le_bytes n <$> rs) in
  (length payload mod n = 0)%nat /\ (length payload / n = length rs)%nat.
Proof.
  intros Hn payload. unfold payload. rewrite length_concat_bytes.
  split; [by rewrite Nat.Div0.mod_mul|by apply Nat.div_mul; lia].
Qed.

Lemma decode_write c : co_wf c -> decode_compact_offsets (write_residuals c) = Ret c.
Proof.
  destruct c as [[s b n] r]. unfold co_wf. cbn [co_header co_residuals slope intercept offset_bytes].
  intros (Hs & Hb & Hn & F). rewrite write_shape. cbn [co_header co_residuals slope intercept offset_bytes].
  destruct (header_numbers s b n (concat (le_bytes (match r with One _ => 1 | Two _ => 2 | Four _ => 4 end)
                                             <$> residual_values r)) Hs Hb) as (E1 & E2 & E3 & E4 & E5).
  unfold decode_compact_offsets. rewrite E1, E2, E3, E4, E5. run_step.
  destruct r as [rs|rs|rs]; cbn [residual_values] in *; subst n; cbn [Z.eqb Pos.eqb orb negb].
  - change (Z.to_nat 1) with 1%nat. destruct (payload_count 1 rs ltac:(lia)) as [-> ->]. cbn [Nat.eqb negb]. by rewrite (words_back 1).
  - change (Z.to_nat 2) with 2%nat. destruct (payload_count 2 rs ltac:(lia)) as [-> ->]. cbn [Nat.eqb negb]. by rewrite (words_back 2).
  - change (Z.to_nat 4) with 4%nat. destruct (payload_count 4 rs ltac:(lia)) as [-> ->]. cbn [Nat.eqb negb]. by rewrite (words_back 4).
Qed.

Lemma write_length c : 
  co_wf c -> length (write_residuals c) = (9 + Z.to_nat (offset_bytes (co_header c)) * co_len c)%nat.
Proof.
  intros (_ & _ & Hn & _). rewrite write_shape, !length_app, !length_le_bytes, length_concat_bytes. cbn [length].
  unfold co_len. rewrite residuals_len_values, Hn. destruct (co_residuals c); cbn; lia.
Qed.

(** ** The theorem *)

(** Compact offsets are exact: every list of 32-bit offsets is given back
    whatever line the floating-point regression finds (its error cancels modulo
    2^32), element by element and as a list; the bytes decode to the same
    offsets; and with that line no smaller size of one, two or four bytes holds
    every residual. *)
Theorem compact_offsets_exact os (F : Forall (λ o, 0 <= o < 2 ^ 32) os) :
  offsets (from_offsets os) = Ret os
  /\ (∀ i o, os !! i = Some o -> get_offset (from_offsets os) i = Ret o)
  /\ decode_compact_offsets (write_residuals (from_offsets os)) = Ret (from_offsets os)
  /\ length (write_residuals (from_offsets os))
     = (9 + Z.to_nat (offset_bytes (co_header (from_offsets os))) * length os)%nat
  /\ ∀ s b k, os ≠ [] -> fit_line os = (s, b) -> k = 1 \/ k = 2 \/ k = 4 ->
       Forall (fits k) (imap (residual_of s b) os) -> offset_bytes (co_header (from_offsets os)) <= k.
Proof.
  split_and!.
  - unfold offsets. rewrite from_offsets_len. apply offsets_from_ok. intros j o Hj. by apply get_offset_exact.
  - intros i o Ho. by apply get_offset_exact.
  - apply decode_write, from_offsets_wf.
  - rewrite write_length by apply from_offsets_wf. by rewrite from_offsets_len.
  - intros s b k Hne Hl Hk Fk. destruct (from_offsets_shape os s b Hne Hl) as (_ & -> & _).
    by apply (residual_bytes_least _ (residuals_fit s b os)).
Qed.

Lemma compact_offsets_exact_witness :
  fit_line [0; 1000; 2100; 2900; 4000] = (990, 20)
  /\ offset_bytes (co_header (from_offsets [0; 1000; 2100; 2900; 4000])) = 1
  /\ offsets (from_offsets [0; 1000; 2100; 2900; 4000]) = Ret [0; 1000; 2100; 2900; 4000].
Proof.
  split; [vm_compute; reflexivity|]. split; [vm_compute; reflexivity|].
  apply (compact_offsets_exact [0; 1000; 2100; 2900; 4000]). repeat constructor; lia.
Defined.
