(* ===== verification/Fsst.v ===== *)
(** * FSST buffers

    Model of [RawFsstBuffer], [PrefixKey], [FsstArray] and the symbol tables in
    [src/src/storage/src/liquid_array/raw/fsst_buffer.rs]: byte strings compressed
    one by one into one buffer, with compact offsets.  The [fsst] crate is
    third-party: a class with the law that decompression inverts compression.
    The strings of an Arrow byte array are a list; building its 32-bit offsets
    panics when they overflow. *)

From stdpp Require Import base list.
From Stdlib Require Import ZArith Lia.
From S2P Require Import Prelude Bytes CompactOffsets.
Local Open Scope Z_scope.

Class FsstLib : Type := {
  FsstCompressor : Type;
  fsst_train : list (list Z) -> FsstCompressor;
  compress_into : FsstCompressor -> list Z -> list Z;
  decompress_into : FsstCompressor -> list Z -> list Z;
  (** The symbols as 64-bit words, and their lengths. *)
  symbol_table : FsstCompressor -> list Z;
  symbol_lengths : FsstCompressor -> list Z;
  rebuild_from : list Z -> list Z -> FsstCompressor
}.

Class FsstLaws `{FsstLib} : Prop := {
  compress_inverse c x : Forall is_byte x -> decompress_into c (compress_into c x) = x;
  compress_byte c x : Forall is_byte x -> Forall is_byte (compress_into c x);
  decompress_empty c : decompress_into c [] = [];
  rebuild_inverse c : rebuild_from (symbol_table c) (symbol_lengths c) = c;
  symbol_count c : length (symbol_lengths c) = length (symbol_table c) /\ (length (symbol_table c) <= 255)%nat;
  symbol_words c : Forall (λ s, 0 <= s < 2 ^ 64) (symbol_table c);
  symbol_length_bytes c : Forall is_byte (symbol_lengths c)
}.

(** The length of a list as an integer. *)
Abbreviation zlen l := (Z.of_nat (length l)).

Section fsst.
Context {FL : FsstLib}.

Record RawFsstBuffer : Type := RawFsst {
  rf_values : list Z;
  rf_uncompressed_bytes : Z
}.

Record FsstArray : Type := Fsst {
  fa_compressor : FsstCompressor;
  fa_raw : RawFsstBuffer;
  fa_compact_offsets : CompactOffsets
}.

(** ** The raw buffer *)

(** The loop over the items: the values, the uncompressed length, the offsets. *)
Fixpoint push_slices (c : FsstCompressor) (items : list (option (list Z))) (values : list Z) (uncompressed_len : Z)
    : list Z * Z * list Z :=
  match items with
  | [] => (values, uncompressed_len, [])
  | item :: items =>
      let '(values, uncompressed_len) :=
        match item with
        | Some bytes => (values ++ compress_into c bytes, usize (uncompressed_len + zlen bytes))
        | None => (values, uncompressed_len)
        end in
      let '(all_values, all_len, offsets) := push_slices c items values uncompressed_len in
      (all_values, all_len, wrapu 32 (zlen values) :: offsets)
  end.

Definition from_byte_slices (c : FsstCompressor) (items : list (option (list Z))) : RawFsstBuffer * list Z :=
  let '(values, uncompressed_len, offsets) := push_slices c items [] 0 in
  (RawFsst values uncompressed_len, 0 :: offsets).

Definition raw_compressed_slice (raw : RawFsstBuffer) (start_offset end_offset : Z) : outcome (list Z) :=
  if end_offset <? start_offset then Panic
  else slice (rf_values raw) (Z.to_nat start_offset) (Z.to_nat (end_offset - start_offset)).

(** [OffsetBufferBuilder::<i32>::finish]. *)
Definition finish_offsets (values : list (list Z)) : outcome (list (list Z)) :=
  if zlen (concat values) <? 2 ^ 31 then Ret values else Panic.

Fixpoint decompress_values (raw : RawFsstBuffer) (c : FsstCompressor) (offsets : list Z) : outcome (list (list Z)) :=
  match offsets with
  | start_offset :: (end_offset :: _) as rest =>
      value ←
        (if negb (start_offset =? end_offset)
         then compressed ← raw_compressed_slice raw start_offset end_offset; Ret (decompress_into c compressed)
         else Ret []);
      values ← decompress_values raw c rest;
      Ret (value :: values)
  | _ => Ret []
  end.

Definition raw_to_uncompressed (raw : RawFsstBuffer) (c : FsstCompressor) (offsets : list Z)
    : outcome (list (list Z)) :=
  values ← decompress_values raw c offsets; finish_offsets values.

Definition raw_to_bytes (raw : RawFsstBuffer) : list Z :=
  le_bytes 8 (rf_uncompressed_bytes raw) ++ le_bytes 4 (zlen (rf_values raw)) ++ rf_values raw.

Definition raw_from_bytes (bytes : list Z) : outcome RawFsstBuffer :=
  uncompressed_bytes ← slice bytes 0 8;
  values_len ← slice bytes 8 4;
  values ← slice bytes 12 (Z.to_nat (le_val values_len));
  Ret (RawFsst values (le_val uncompressed_bytes)).

(** ** Arrays *)

Definition from_byte_offsets (raw : RawFsstBuffer) (byte_offsets : list Z) (c : FsstCompressor) : FsstArray :=
  Fsst c raw (from_offsets byte_offsets).

(** From a byte array or from the little-endian bytes of decimals. *)
Definition from_byte_array_with_compressor (items : list (option (list Z))) (c : FsstCompressor) : FsstArray :=
  let '(raw, offsets) := from_byte_slices c items in from_byte_offsets raw offsets c.

Definition fa_len (a : FsstArray) : nat := (co_len (fa_compact_offsets a) - 1)%nat.

Definition fa_uncompressed_bytes (a : FsstArray) : Z := rf_uncompressed_bytes (fa_raw a).

Definition fa_to_bytes (a : FsstArray) : list Z := raw_to_bytes (fa_raw a) ++ write_residuals (fa_compact_offsets a).

Definition fa_from_bytes (bytes : list Z) (c : FsstCompressor) : outcome FsstArray :=
  if (length bytes <? 12)%nat then Panic
  else
    raw_values_len ← slice bytes 8 4;
    let raw_len := (12 + Z.to_nat (le_val raw_values_len))%nat in
    if (length bytes <? raw_len)%nat then Panic
    else
      raw ← raw_from_bytes (take raw_len bytes);
      compact ← decode_compact_offsets (drop raw_len bytes);
      Ret (Fsst c raw compact).

Definition to_uncompressed (a : FsstArray) : outcome (list (list Z)) :=
  offsets ← offsets (fa_compact_offsets a);
  raw_to_uncompressed (fa_raw a) (fa_compressor a) offsets.

Definition get_compressed_slice (a : FsstArray) (dict_index : nat) : outcome (list Z) :=
  start_offset ← get_offset (fa_compact_offsets a) dict_index;
  end_offset ← get_offset (fa_compact_offsets a) (dict_index + 1);
  raw_compressed_slice (fa_raw a) start_offset end_offset.

(** A loop with an early panic. *)
Fixpoint each {A B} (f : A -> outcome B) (l : list A) : outcome (list B) :=
  match l with
  | [] => Ret []
  | x :: l => y ← f x; ys ← each f l; Ret (y :: ys)
  end.

Definition to_uncompressed_selected (a : FsstArray) (selected : list nat) : outcome (list (list Z)) :=
  values ←
    each (λ dict_index, compressed ← get_compressed_slice a dict_index;
                        Ret (decompress_into (fa_compressor a) compressed)) selected;
  finish_offsets values.

(** The values one after the other, as the buffer of a fixed-width array. *)
Definition decompress_as_fixed_size_binary (a : FsstArray) : outcome (list Z) :=
  values ←
    each (λ i, compressed ← get_compressed_slice a i; Ret (decompress_into (fa_compressor a) compressed))
      (seq 0 (fa_len a));
  Ret (concat values).

(** ** Symbol tables *)

(** [None] is an error. *)
Definition save_symbol_table (c : FsstCompressor) : option (list Z) :=
  let symbols := symbol_table c in
  let symbols_lengths := symbol_lengths c in
  if negb (length symbols =? length symbols_lengths)%nat then None
  else if (255 <? length symbols)%nat then None
  else Some ([zlen symbols] ++ symbols_lengths ++ concat (le_bytes 8 <$> symbols)).

Definition load_symbol_table (data : list Z) : option FsstCompressor :=
  match data with
  | [] => None
  | symbol_count :: _ =>
      let symbol_count := Z.to_nat symbol_count in
      let lengths_end := (1 + symbol_count)%nat in
      if (length data <? lengths_end)%nat then None
      else
        let lengths := take symbol_count (drop 1 data) in
        let symbols_end := (lengths_end + symbol_count * 8)%nat in
        if (length data <? symbols_end)%nat then None
        else Some (rebuild_from (words_of 8 symbol_count (drop lengths_end data)) lengths)
  end.
End fsst.
Arguments FsstArray {_}.

(** ** Prefix keys *)

Record PrefixKey : Type := Prefix { prefix7 : list Z; len_byte : Z }.

Definition prefix_len : nat := 7.

Definition prefix_key_new (suffix_bytes : list Z) : PrefixKey :=
  let copy_len := Nat.min prefix_len (length suffix_bytes) in
  Prefix (take copy_len suffix_bytes ++ replicate (7 - copy_len) 0)
    (if 255 <=? zlen suffix_bytes then 255 else zlen suffix_bytes).

(** ** Lemmas *)

(** The bytes of an item: a null is empty. *)
Definition item_bytes (item : option (list Z)) : list Z := default [] item.

Lemma each_ok {A B} (f : A -> outcome B) l ys :
  Forall2 (λ x y, f x = Ret y) l ys -> each f l = Ret ys.
Proof. induction 1 as [|x y l ys Hx _ IH]; cbn; [done|]. rewrite Hx. run_step. by rewrite IH. Qed.

(** The ends of consecutive blocks, from the position [base] on. *)
Fixpoint ends (base : Z) (blocks : list (list Z)) : list Z :=
  match blocks with [] => [] | b :: blocks => (base + zlen b) :: ends (base + zlen b) blocks end.

Lemma length_ends base blocks : length (ends base blocks) = length blocks.
Proof. revert base. induction blocks as [|b blocks IH]; intros base; cbn; [done|]. by rewrite IH. Qed.

Lemma ends_bound base blocks o :
  0 <= base -> o ∈ ends base blocks -> base <= o <= base + zlen (concat blocks).
Proof.
  revert base. induction blocks as [|b blocks IH]; intros base Hb Ho; cbn in Ho; [by apply not_elem_of_nil in Ho|].
  cbn. rewrite length_app. apply elem_of_cons in Ho as [->|Ho]; [lia|].
  specialize (IH (base + zlen b) ltac:(lia) Ho). lia.
Qed.

(** The offsets of the blocks before the [i]-th, the first zero included. *)
Lemma ends_lookup base blocks i b :
  blocks !! i = Some b ->
  (base :: ends base blocks) !! i = Some (base + zlen (concat (take i blocks)))
  /\ (base :: ends base blocks) !! S i = Some (base + zlen (concat (take i blocks)) + zlen b).
Proof.
  revert base i. induction blocks as [|x blocks IH]; intros base [|i] Hb; try done.
  - injection Hb as ->. cbn. split; f_equal; lia.
  - cbn in Hb. destruct (IH (base + zlen x) i Hb) as [H1 H2]. 
    split; (etransitivity; [first [exact H1|exact H2]|]); cbn; rewrite length_app; f_equal; lia.
Qed.

Section fsst_lemmas.
Context {FL : FsstLib} {LL : FsstLaws}.

Definition blocks_of (c : FsstCompressor) (items : list (option (list Z))) : list (list Z) :=
  (λ item, match item with Some bytes => compress_into c bytes | None => [] end) <$> items.

Lemma push_slices_ok c items values n :
  zlen values + zlen (concat (blocks_of c items)) < 2 ^ 32 ->
  push_slices c items values n
  = (values ++ concat (blocks_of c items),
     (push_slices c items values n).1.2,
     ends (zlen values) (blocks_of c items)).
Proof.
  revert values n. induction items as [|item items IH]; intros values n Hl; cbn [push_slices blocks_of fmap list_fmap concat ends].
  { by rewrite app_nil_r. }
  cbn [blocks_of fmap list_fmap concat] in Hl. rewrite length_app in Hl.
  set (block := match item with Some bytes => compress_into c bytes | None => [] end) in *.
  set (len := match item with Some bytes => usize (n + zlen bytes) | None => n end).
  assert ((match item with
           | Some bytes => (values ++ compress_into c bytes, usize (n + zlen bytes))
           | None => (values, n)
           end) = (values ++ block, len)) as -> by (destruct item; unfold block, len; by rewrite ?app_nil_r).
  rewrite IH by (rewrite length_app; fold (blocks_of c items) in Hl; lia). cbn [fst snd]. fold (blocks_of c items).
  rewrite <- app_assoc. f_equal. rewrite length_app.
  replace (zlen values + zlen block) with (Z.of_nat (length values + length block)) by lia.
  f_equal. apply wrapu_id. lia.
Qed.

(** What an array holds. *)
Record fa_holds (a : FsstArray) (items : list (option (list Z))) : Prop := {
  fah_bytes : Forall (λ item, Forall is_byte (item_bytes item)) items;
  fah_size : zlen (concat (blocks_of (fa_compressor a) items)) < 2 ^ 32;
  fah_values : rf_values (fa_raw a) = concat (blocks_of (fa_compressor a) items);
  fah_length : 0 <= rf_uncompressed_bytes (fa_raw a) < 2 ^ 64;
  fah_offsets : fa_compact_offsets a = from_offsets (0 :: ends 0 (blocks_of (fa_compressor a) items))
}.

Lemma usize_range z : 0 <= usize z < 2 ^ 64.
Proof. apply Z.mod_pos_bound. lia. Qed.

Lemma push_len_range c items values n : 0 <= n < 2 ^ 64 -> 0 <= (push_slices c items values n).1.2 < 2 ^ 64.
Proof.
  revert values n. induction items as [|item items IH]; intros values n Hn; cbn [push_slices]; [done|].
  destruct item as [bytes|].
  - specialize (IH (values ++ compress_into c bytes) (usize (n + zlen bytes)) (usize_range _)).
    by destruct (push_slices _ _ _ _) as [[? ?] ?].
  - specialize (IH values n Hn). by destruct (push_slices _ _ _ _) as [[? ?] ?].
Qed.

Lemma from_byte_array_ok c items :
  Forall (λ item, Forall is_byte (item_bytes item)) items -> zlen (concat (blocks_of c items)) < 2 ^ 32 ->
  fa_holds (from_byte_array_with_compressor items c) items
  /\ fa_compressor (from_byte_array_with_compressor items c) = c.
Proof.
  intros F Hs. unfold from_byte_array_with_compressor, from_byte_slices.
  pose proof (push_len_range c items [] 0 ltac:(lia)) as Hr.
  rewrite (push_slices_ok c items [] 0) by (cbn [length]; lia). split; [|done]. by constructor.
Qed.

Lemma ends_words blocks :
  zlen (concat blocks) < 2 ^ 32 -> Forall (λ o, 0 <= o < 2 ^ 32) (0 :: ends 0 blocks).
Proof.
  intros Hs. constructor; [lia|]. apply Forall_forall. intros o Ho. apply ends_bound in Ho; lia.
Qed.

Lemma slice_block (blocks : list (list Z)) i b :
  blocks !! i = Some b -> slice (concat blocks) (length (concat (take i blocks))) (length b) = Ret b.
Proof.
  intros Hb. rewrite <- (take_drop i blocks) at 1. rewrite concat_app, (drop_S _ b) by done. cbn [concat].
  by apply slice_ok.
Qed.

Lemma get_compressed_ok a items i item :
  fa_holds a items -> items !! i = Some item ->
  get_compressed_slice a i
  = Ret (match item with Some bytes => compress_into (fa_compressor a) bytes | None => [] end).
Proof.
  intros [F Hs Hv Hl Ho] Hi. unfold get_compressed_slice. rewrite Ho.
  set (b := match item with Some bytes => _ | None => _ end).
  assert (blocks_of (fa_compressor a) items !! i = Some b) as Hb by (unfold blocks_of; by rewrite list_lookup_fmap, Hi).
  destruct (ends_lookup 0 _ i b Hb) as [H1 H2].
  pose proof (ends_words _ Hs) as Fw.
  rewrite (get_offset_exact _ i _ Fw H1). run_step.
  replace (i + 1)%nat with (S i) by lia. rewrite (get_offset_exact _ (S i) _ Fw H2). run_step.
  unfold raw_compressed_slice. rewrite Hv. set (blocks := blocks_of _ _) in *.
  set (start := length (concat (take i blocks))). case Z.ltb_spec; [lia|]. intros _.
  replace (Z.to_nat (0 + Z.of_nat start)) with start by lia.
  replace (Z.to_nat _) with (length b) by lia. by apply slice_block.
Qed.

(** Decompression gives the items back. *)
Lemma decompress_block c items i item :
  Forall (λ item, Forall is_byte (item_bytes item)) items -> items !! i = Some item ->
  decompress_into c (match item with Some bytes => compress_into c bytes | None => [] end) = item_bytes item.
Proof.
  intros F Hi. eapply Forall_lookup_1 in F; [|done]. destruct item as [bytes|]; [by apply compress_inverse|apply decompress_empty].
Qed.

Lemma decompress_values_ok raw c blocks pre post :
  rf_values raw = pre ++ concat blocks ++ post ->
  decompress_values raw c (zlen pre :: ends (zlen pre) blocks) = Ret (decompress_into c <$> blocks).
Proof.
  revert pre. induction blocks as [|b blocks IH]; intros pre Hv; [done|]. cbn [ends concat] in Hv |- *.
  change (decompress_values raw c (zlen pre :: (zlen pre + zlen b) :: ends (zlen pre + zlen b) blocks))
    with (value ←
            (if negb (zlen pre =? zlen pre + zlen b)
             then compressed ← raw_compressed_slice raw (zlen pre) (zlen pre + zlen b);
                  Ret (decompress_into c compressed)
             else Ret []);
          values ← decompress_values raw c ((zlen pre + zlen b) :: ends (zlen pre + zlen b) blocks);
          Ret (value :: values)).
  assert ((if negb (zlen pre =? zlen pre + zlen b)
           then compressed ← raw_compressed_slice raw (zlen pre) (zlen pre + zlen b);
                Ret (decompress_into c compressed)
           else Ret []) = Ret (decompress_into c b)) as ->.
  { case Z.eqb_spec; cbn [negb].
    - intros E. destruct b; [by rewrite decompress_empty|cbn in E; lia].
    - intros _. unfold raw_compressed_slice. case Z.ltb_spec; [lia|]. intros _. rewrite Hv, <- app_assoc.
      rewrite (slice_ok pre b) by lia. done. }
  run_step. replace (zlen pre + zlen b) with (zlen (pre ++ b)) by (rewrite length_app; lia).
  rewrite (IH (pre ++ b)); [done|]. by rewrite Hv, <- !app_assoc.
Qed.

Lemma fmap_items c items :
  Forall (λ item, Forall is_byte (item_bytes item)) items ->
  decompress_into c <$> blocks_of c items = item_bytes <$> items.
Proof.
  intros F. unfold blocks_of. rewrite <- list_fmap_compose. apply list_fmap_ext.
  intros i item Hi. cbn. by eapply decompress_block.
Qed.

Lemma fa_len_ok a items : fa_holds a items -> fa_len a = length items.
Proof.
  intros [_ _ _ _ Ho]. unfold fa_len. rewrite Ho, from_offsets_len. cbn [length].
  rewrite length_ends. unfold blocks_of. rewrite length_fmap. lia.
Qed.

Lemma to_uncompressed_ok a items :
  fa_holds a items -> zlen (concat (item_bytes <$> items)) < 2 ^ 31 ->
  to_uncompressed a = Ret (item_bytes <$> items).
Proof.
  intros H Hs. pose proof H as [F Hc Hv _ Ho]. unfold to_uncompressed. rewrite Ho. unfold offsets.
  rewrite from_offsets_len. pose proof (ends_words _ Hc) as Fw.
  rewrite (offsets_from_ok _ (0 :: ends 0 (blocks_of (fa_compressor a) items)))
    by (intros j o Hj; by apply get_offset_exact). run_step.
  unfold raw_to_uncompressed. rewrite (decompress_values_ok _ _ (blocks_of (fa_compressor a) items) [] []).
  - run_step. rewrite fmap_items by done. unfold finish_offsets. case Z.ltb_spec; [done|lia].
  - by rewrite Hv, app_nil_r.
Qed.

Lemma each_lookup {A B} (f : nat -> outcome B) (g : A -> B) (items : list A) (selected : list nat) :
  (∀ i x, items !! i = Some x -> f i = Ret (g x)) ->
  Forall (λ i, (i < length items)%nat) selected ->
  each f selected = Ret (g <$> omap (λ i, items !! i) selected).
Proof.
  intros Hf. induction 1 as [|i selected Hi _ IH]; [done|]. cbn.
  destruct (lookup_lt_is_Some_2 _ _ Hi) as [x Hx]. rewrite (Hf i x Hx). run_step. rewrite IH. run_step.
  by rewrite Hx.
Qed.

Lemma to_uncompressed_selected_ok a items selected :
  fa_holds a items -> Forall (λ i, (i < length items)%nat) selected ->
  zlen (concat (item_bytes <$> omap (λ i, items !! i) selected)) < 2 ^ 31 ->
  to_uncompressed_selected a selected = Ret (item_bytes <$> omap (λ i, items !! i) selected).
Proof.
  intros H Fs Hs. unfold to_uncompressed_selected.
  rewrite (each_lookup _ item_bytes items); [|intros i item Hi|done].
  - run_step. unfold finish_offsets. case Z.ltb_spec; [done|lia].
  - rewrite (get_compressed_ok a items i item) by done. run_step. f_equal.
    eapply decompress_block; [apply H|done].
Qed.

(** ** Bytes *)

Lemma raw_roundtrip raw rest :
  0 <= rf_uncompressed_bytes raw < 2 ^ 64 -> zlen (rf_values raw) < 2 ^ 32 ->
  raw_from_bytes (raw_to_bytes raw ++ rest) = Ret raw.
Proof.
  intros Hu Hl. unfold raw_from_bytes, raw_to_bytes. rewrite <- !app_assoc.
  pose proof (λ c, slice_ok [] (le_bytes 8 (rf_uncompressed_bytes raw)) c 0 8 eq_refl (eq_sym (length_le_bytes _ _))) as E.
  cbn [app] in E. rewrite E. run_step.
  rewrite (slice_ok (le_bytes 8 (rf_uncompressed_bytes raw)) (le_bytes 4 (zlen (rf_values raw))))
    by (by rewrite ?length_le_bytes). run_step.
  rewrite !le_val_bytes_id by (cbn; lia). rewrite Nat2Z.id, (app_assoc (le_bytes 8 _)).
  rewrite (slice_ok (le_bytes 8 (rf_uncompressed_bytes raw) ++ le_bytes 4 (zlen (rf_values raw))))
    by (by rewrite ?length_app, ?length_le_bytes). run_step. by destruct raw.
Qed.

Lemma raw_length raw : length (raw_to_bytes raw) = (12 + length (rf_values raw))%nat.
Proof. unfold raw_to_bytes. rewrite !length_app, !length_le_bytes. lia. Qed.

Lemma fa_bytes_ok a items :
  fa_holds a items -> fa_from_bytes (fa_to_bytes a) (fa_compressor a) = Ret a.
Proof.
  intros [F Hc Hv Hl Ho]. unfold fa_from_bytes, fa_to_bytes. rewrite length_app, raw_length.
  case Nat.ltb_spec; [lia|]. intros _.
  assert (slice (raw_to_bytes (fa_raw a) ++ write_residuals (fa_compact_offsets a)) 8 4
          = Ret (le_bytes 4 (zlen (rf_values (fa_raw a))))) as ->.
  { unfold raw_to_bytes. rewrite <- !app_assoc. apply slice_ok; by rewrite ?length_le_bytes. }
  run_step. rewrite le_val_bytes_id by (rewrite Hv; cbn; lia). rewrite Nat2Z.id.
  case Nat.ltb_spec; [lia|]. intros _. rewrite <- raw_length, take_app_length, drop_app_length.
  rewrite <- (app_nil_r (raw_to_bytes _)), raw_roundtrip by (rewrite ?Hv; done). run_step.
  rewrite decode_write by (rewrite Ho; apply from_offsets_wf). by destruct a.
Qed.

(** ** Symbol tables *)

Lemma words_of_app n k a b : length a = (k * n)%nat -> words_of n k (a ++ b) = words_of n k a.
Proof.
  revert a. induction k as [|k IH]; intros a Hl; cbn [words_of]; [done|].
  rewrite take_app_le, drop_app_le by lia. f_equal. apply IH. rewrite length_drop. lia.
Qed.

Lemma symbol_table_ok c :
  ∃ bytes, save_symbol_table c = Some bytes /\ ∀ rest, load_symbol_table (bytes ++ rest) = Some c.
Proof.
  destruct (symbol_count c) as [Hl Hn]. unfold save_symbol_table. rewrite Hl, Nat.eqb_refl. cbn [negb].
  case Nat.ltb_spec; [lia|]. intros _. eexists. split; [done|]. intros rest. unfold load_symbol_table. cbn [app].
  set (words := concat (le_bytes 8 <$> symbol_table c)).
  assert (length words = length (symbol_table c) * 8)%nat as Hw by apply length_concat_bytes.
  rewrite Nat2Z.id. cbn [length drop]. rewrite !length_app, Hl, Hw.
  case Nat.ltb_spec; [lia|]. intros _. case Nat.ltb_spec; [lia|]. intros _. f_equal.
  cbn [Nat.add drop]. rewrite drop_0, <- app_assoc.
  rewrite take_app_length', drop_app_length' by done.
  assert (words_of 8 (length (symbol_table c)) (words ++ rest) = symbol_table c) as ->; [|apply rebuild_inverse].
  rewrite words_of_app by (unfold words; by rewrite length_concat_bytes). unfold words. rewrite words_of_concat.
  apply fmap_id_on. intros s Hin. apply Z.mod_small. pose proof (symbol_words c) as F.
  rewrite Forall_forall in F. by apply F.
Qed.
End fsst_lemmas.

(** ** A codec *)

(** Every byte escaped, as FSST does for a byte without a symbol. *)
Fixpoint unescape (bytes : list Z) : list Z :=
  match bytes with _ :: b :: bytes => b :: unescape bytes | _ => [] end.

#[export] Instance escape_fsst : FsstLib := {
  FsstCompressor := unit;
  fsst_train _ := tt;
  compress_into _ x := concat ((λ b, [255; b]) <$> x);
  decompress_into _ := unescape;
  symbol_table _ := [];
  symbol_lengths _ := [];
  rebuild_from _ _ := tt
}.

#[export] Instance escape_fsst_laws : FsstLaws.
Proof.
  split; cbn.
  - intros _ x _. induction x as [|b x IH]; cbn; [done|]. by rewrite IH.
  - intros _ x F. induction F as [|b x Hb _ IH]; cbn; [done|]. constructor; [by unfold is_byte|]. by constructor.
  - done.
  - by intros [].
  - intros _. split; [done|lia].
  - done.
  - done.
Qed.

(** ** The theorem *)

(** An FSST array gives back the byte strings it was built from (a null as the
    empty string), all of them or any selection, through offsets that come from
    the floating-point fit; its bytes decode to the same array, and the saved
    symbol table to the same compressor. *)
Theorem fsst_roundtrip `{FsstLaws} (c : FsstCompressor) (items : list (option (list Z)))
    (Hbytes : Forall (λ item, Forall is_byte (item_bytes item)) items)
    (Hcompressed : zlen (concat (blocks_of c items)) < 2 ^ 32)
    (Hplain : zlen (concat (item_bytes <$> items)) < 2 ^ 31) :
  let a := from_byte_array_with_compressor items c in
  fa_len a = length items
  /\ to_uncompressed a = Ret (item_bytes <$> items)
  /\ (∀ selected,
       Forall (λ i, (i < length items)%nat) selected ->
       zlen (concat (item_bytes <$> omap (λ i, items !! i) selected)) < 2 ^ 31 ->
       to_uncompressed_selected a selected = Ret (item_bytes <$> omap (λ i, items !! i) selected))
  /\ fa_from_bytes (fa_to_bytes a) c = Ret a
  /\ ∃ bytes, save_symbol_table c = Some bytes /\ load_symbol_table bytes = Some c.
Proof.
  intros a. destruct (from_byte_array_ok c items Hbytes Hcompressed) as [Ha Hc]. fold a in Ha, Hc.
  split_and!.
  - by apply fa_len_ok.
  - by apply to_uncompressed_ok.
  - intros selected Hs Hl. by apply to_uncompressed_selected_ok.
  - rewrite <- Hc at 1. by apply (fa_bytes_ok a items).
  - destruct (symbol_table_ok c) as (bytes & Hs & Hl). exists bytes. split; [done|].
    specialize (Hl []). by rewrite app_nil_r in Hl.
Qed.

Definition escape : @FsstCompressor escape_fsst := tt.

Lemma fsst_roundtrip_witness :
  let a := from_byte_array_with_compressor [Some [104; 105]; None; Some [104; 101; 121]] escape in
  fa_len a = 3%nat
  /\ to_uncompressed a = Ret [[104; 105]; []; [104; 101; 121]]
  /\ to_uncompressed_selected a [2%nat; 0%nat] = Ret [[104; 101; 121]; [104; 105]]
  /\ fa_from_bytes (fa_to_bytes a) escape = Ret a.
Proof.
  destruct (fsst_roundtrip escape [Some [104; 105]; None; Some [104; 101; 121]])
    as (H1 & H2 & H3 & H4 & _).
  - repeat constructor; unfold is_byte; lia.
  - vm_compute. reflexivity.
  - vm_compute. reflexivity.
  - split; [exact H1|]. split; [exact H2|]. split; [|exact H4].
    apply (H3 [2%nat; 0%nat]); [repeat constructor; cbn; lia|vm_compute; reflexivity].
Defined.
