(* ===== verification/ByteCache.v ===== *)
(** * The byte cache

    Model of [ByteCache] in [src/src/storage/src/utils/byte_cache.rs]: ranges of
    objects read through chunk files on disk.  The object store behind it is
    third-party: a class.  File operations succeed; a chunk becomes visible by a
    rename, in one step, and replaces the file that was there. *)

From stdpp Require Import base numbers gmap strings list pretty.
From Stdlib Require Import ZArith Ascii Lia.
From S2P Require Import Prelude.
Local Open Scope Z_scope.

Abbreviation Bytes := (list Z).

(** [location] is an object path, segments separated by slashes. *)
Class ObjectStore : Type := {
  (** The size of an object. *)
  store_head : string -> option Z;
  (** [get_opts] with a bounded range, and its bytes. *)
  store_get_range : string -> Z -> Z -> option Bytes
}.

(** The options the cache looks at. *)
Inductive GetRange : Type :=
| Bounded (from to : Z)
| Suffix (suffix : Z)
| Offset (offset : Z).

Record GetOptions : Type := Options { go_head : bool; go_range : option GetRange }.

Section byte_cache.
Context {OS : ObjectStore}.

Definition CACHE_BLOCK_SIZE : Z := 1024 * 1024 * 4.

(** The chunk files, by directory and index. *)
Definition Files : Type := gmap (string * Z) Bytes.

(** [str::replace] of a slash. *)
Fixpoint replace_slashes (s : string) : string :=
  match s with
  | EmptyString => EmptyString
  | String c s => String (if Ascii.eqb c "/" then "_"%char else c) (replace_slashes s)
  end.

Definition get_cache_dir_for_path (path : string) : string := replace_slashes path.

Definition get_chunk_path (path : string) (chunk_index : Z) : string * Z :=
  (get_cache_dir_for_path path, chunk_index).

(** The first and the last chunk; [end - 1] wraps (release profile). *)
Definition chunks_for_range (range : Z * Z) : Z * Z :=
  (range.1 / CACHE_BLOCK_SIZE, wrapu 64 (range.2 - 1) / CACHE_BLOCK_SIZE).

(** [RangeInclusive] as an iterator. *)
Definition chunk_indexes (chunks : Z * Z) : list Z :=
  (λ i, chunks.1 + Z.of_nat i) <$> seq 0 (Z.to_nat (chunks.2 - chunks.1 + 1)).

Definition is_chunk_ready (path : string * Z) (fs : Files) : bool := bool_decide (is_Some (fs !! path)).

(** [read_exact] of [len] bytes from [offset] on. *)
Definition read_from_cached_chunk (path : string * Z) (offset len : Z) (fs : Files) : result Bytes :=
  match fs !! path with
  | None => Err
  | Some data =>
      if bool_decide (offset + len <= Z.of_nat (length data))
      then Ok (take (Z.to_nat len) (drop (Z.to_nat offset) data)) else Err
  end.

Definition save_chunk (path : string) (chunk_index : Z) (data : Bytes) (fs : Files) : Files :=
  <[get_chunk_path path chunk_index := data]> fs.

(** What the stream yields for one chunk. *)
Definition yield_chunk (location : string) (range : Z * Z) (fs : Files) (chunk_idx : Z) : list (result Bytes) :=
  let chunk_path := get_chunk_path location chunk_idx in
  let chunk_start := wrapu 64 (chunk_idx * CACHE_BLOCK_SIZE) in
  let chunk_end := wrapu 64 (chunk_start + CACHE_BLOCK_SIZE) in
  let overlap_start := Z.max chunk_start range.1 in
  let overlap_end := Z.min chunk_end range.2 in
  if overlap_start <? overlap_end then
    [read_from_cached_chunk chunk_path (overlap_start - chunk_start) (overlap_end - overlap_start) fs]
  else [].

Definition get_range_from_cache_stream (location : string) (range : Z * Z) (fs : Files) : list (result Bytes) :=
  mjoin (yield_chunk location range fs <$> chunk_indexes (chunks_for_range range)).

(** The range asked for. *)
Definition resolve_range (options : GetOptions) (file_size : Z) : Z * Z :=
  match go_range options with
  | Some (Bounded from to) => (from, to)
  | Some (Suffix suffix) => (Z.max 0 (file_size - suffix), file_size)
  | Some (Offset offset) => (offset, file_size)
  | None => (0, file_size)
  end.

(** The chunks without a file, found before any is fetched. *)
Definition missing_chunks (location : string) (range : Z * Z) (fs : Files) : list Z :=
  List.filter (λ i, negb (is_chunk_ready (get_chunk_path location i) fs))
    (chunk_indexes (chunks_for_range range)).

Fixpoint fetch_chunks (location : string) (file_size : Z) (chunks : list Z) (fs : Files) : result unit * Files :=
  match chunks with
  | [] => (Ok tt, fs)
  | chunk_idx :: chunks =>
      let chunk_start := wrapu 64 (chunk_idx * CACHE_BLOCK_SIZE) in
      let chunk_end := Z.min (wrapu 64 (chunk_start + CACHE_BLOCK_SIZE)) file_size in
      match store_get_range location chunk_start chunk_end with
      | None => (Err, fs)
      | Some chunk_data => fetch_chunks location file_size chunks (save_chunk location chunk_idx chunk_data fs)
      end
  end.

(** A head request is passed on; otherwise the answer is the range and the stream
    of its bytes, which is read after the chunks are there. *)
Inductive GetResult : Type :=
| HeadOnly (size : Z)
| Stream (size : Z) (range : Z * Z) (payload : list (result Bytes)).

Definition get_opts (location : string) (options : GetOptions) (fs : Files) : result GetResult * Files :=
  match store_head location with
  | None => (Err, fs)
  | Some file_size =>
      if go_head options then (Ok (HeadOnly file_size), fs)
      else
        let range := resolve_range options file_size in
        let '(r, fs) := fetch_chunks location file_size (missing_chunks location range fs) fs in
        match r with
        | Err => (Err, fs)
        | Ok _ => (Ok (Stream file_size range (get_range_from_cache_stream location range fs)), fs)
        end
  end.
End byte_cache.

(** ** The specification *)

(** The bytes [from .. to] of an object. *)
Definition sub (l : Bytes) (from to : Z) : Bytes := take (Z.to_nat (to - from)) (drop (Z.to_nat from) l).

Definition chunk_of (object : Bytes) (i : Z) : Bytes :=
  sub object (i * CACHE_BLOCK_SIZE) (Z.min (i * CACHE_BLOCK_SIZE + CACHE_BLOCK_SIZE) (Z.of_nat (length object))).

(** A store that serves these objects. *)
Class StoreLaws {OS : ObjectStore} (objects : gmap string Bytes) : Prop := {
  store_head_ok p : store_head p = (λ o, Z.of_nat (length o)) <$> objects !! p;
  store_range_ok p o from to :
    objects !! p = Some o -> 0 <= from < to -> to <= Z.of_nat (length o) ->
    store_get_range p from to = Some (sub o from to)
}.

(** Every chunk file of an object in [known] holds that part of the object. *)
Definition coherent (objects : gmap string Bytes) (known : string -> Prop) (fs : Files) : Prop :=
  ∀ p o i data, known p -> objects !! p = Some o -> fs !! get_chunk_path p i = Some data -> data = chunk_of o i.

(** The bytes of a stream without errors. *)
Fixpoint stream_bytes (payload : list (result Bytes)) : option Bytes :=
  match payload with
  | [] => Some []
  | Ok b :: payload => app b <$> stream_bytes payload
  | Err :: _ => None
  end.

(** ** Lemmas *)

Lemma block_pos : 0 < CACHE_BLOCK_SIZE.
Proof. reflexivity. Qed.

Lemma block_small : CACHE_BLOCK_SIZE < 2 ^ 32.
Proof. reflexivity. Qed.

#[global] Opaque CACHE_BLOCK_SIZE.

Lemma sub_length l from to :
  0 <= from <= to -> to <= Z.of_nat (length l) -> Z.of_nat (length (sub l from to)) = to - from.
Proof. intros Hf Ht. unfold sub. rewrite length_take, length_drop. lia. Qed.

Lemma sub_app l a b c : 0 <= a <= b -> b <= c -> sub l a b ++ sub l b c = sub l a c.
Proof.
  intros Hab Hbc. unfold sub. replace (Z.to_nat (c - a)) with (Z.to_nat (b - a) + Z.to_nat (c - b))%nat by lia.
  rewrite <- take_take_drop, drop_drop. do 3 f_equal. lia.
Qed.

Lemma sub_sub l a b from to :
  0 <= a -> 0 <= from <= to -> a + to <= b -> b <= Z.of_nat (length l) ->
  take (Z.to_nat (to - from)) (drop (Z.to_nat from) (sub l a b)) = sub l (a + from) (a + to).
Proof.
  intros Ha Hf Ht Hb. unfold sub. rewrite take_drop_commute, take_take, Nat.min_l by lia.
  rewrite <- take_drop_commute, drop_drop. f_equal; [lia|]. f_equal. lia.
Qed.

(** The chunks of an object that fits a file do not wrap. *)
Lemma chunk_bounds size i :
  0 <= i -> i * CACHE_BLOCK_SIZE < size -> size <= 2 ^ 63 ->
  wrapu 64 (i * CACHE_BLOCK_SIZE) = i * CACHE_BLOCK_SIZE
  /\ wrapu 64 (i * CACHE_BLOCK_SIZE + CACHE_BLOCK_SIZE) = i * CACHE_BLOCK_SIZE + CACHE_BLOCK_SIZE.
Proof.
  intros Hi Hs Hb. change (2 ^ 63) with 9223372036854775808 in Hb.
  pose proof block_pos. pose proof block_small. unfold wrapu. change (2 ^ 64) with 18446744073709551616.
  rewrite !Z.mod_small by nia. done.
Qed.

(** The indexes, first one split off. *)
Lemma chunks_cons i n :
  ((λ k, i + Z.of_nat k) <$> seq 0 (S n)) = i :: ((λ k, (i + 1) + Z.of_nat k) <$> seq 0 n).
Proof.
  rewrite <- cons_seq, <- fmap_S_seq, fmap_cons, <- list_fmap_compose. f_equal; [lia|].
  apply list_fmap_ext. intros j x _. cbn. lia.
Qed.

Lemma mjoin_cons {A} (x : list A) l : mjoin (x :: l) = x ++ mjoin l.
Proof. done. Qed.

Section coherence.
Context {OS : ObjectStore} (objects : gmap string Bytes) {SL : StoreLaws objects}.

(** Fetching keeps what is cached and adds the chunks that are asked for. *)
Lemma save_chunk_ok known p o i fs :
  objects !! p = Some o -> known p -> (∀ q, known q -> get_cache_dir_for_path q = get_cache_dir_for_path p -> q = p) ->
  coherent objects known fs ->
  coherent objects known (save_chunk p i (chunk_of o i) fs) /\ fs ⊆ save_chunk p i (chunk_of o i) fs.
Proof.
  intros Ho Hp Hinj C. unfold save_chunk. split.
  - intros q oq j data Hq Hoq Hd. apply lookup_insert_Some in Hd as [[E <-]|[_ Hd]]; [|by eapply C].
    injection E as Ed <-. rewrite (Hinj q Hq) in Hoq by done. by simplify_eq.
  - apply map_subseteq_spec. intros k d Hk. apply lookup_insert_Some.
    destruct (decide (get_chunk_path p i = k)) as [<-|Hne]; [left|by right].
    split; [done|]. symmetry. by eapply C.
Qed.

Lemma fetch_chunks_ok p o chunks known fs :
  objects !! p = Some o -> known p -> (∀ q, known q -> get_cache_dir_for_path q = get_cache_dir_for_path p -> q = p) ->
  Z.of_nat (length o) <= 2 ^ 63 -> coherent objects known fs ->
  Forall (λ i, 0 <= i /\ i * CACHE_BLOCK_SIZE < Z.of_nat (length o)) chunks ->
  ∃ fs', fetch_chunks p (Z.of_nat (length o)) chunks fs = (Ok tt, fs')
    /\ coherent objects known fs' /\ fs ⊆ fs'
    /\ Forall (λ i, is_Some (fs' !! get_chunk_path p i)) chunks.
Proof.
  intros Ho Hp Hinj Hsize. revert fs. induction chunks as [|i chunks IH]; intros fs C F.
  { exists fs. by split_and!. }
  apply Forall_cons in F as [[Hi Hlt] F]. cbn [fetch_chunks]. pose proof block_pos as HB.
  destruct (chunk_bounds _ i Hi Hlt Hsize) as [-> ->].
  rewrite (store_range_ok p o) by (done || lia). fold (chunk_of o i).
  destruct (save_chunk_ok known p o i fs Ho Hp Hinj C) as [C1 Hsub].
  destruct (IH _ C1 F) as (fs' & Hf & C' & Hmono & Hall).
  exists fs'. split_and!; [done|done|by etransitivity|]. constructor; [|done].
  exists (chunk_of o i). apply (lookup_weaken (save_chunk p i (chunk_of o i) fs)); [|done].
  apply lookup_insert_eq.
Qed.

Lemma stream_bytes_app a b :
  stream_bytes (a ++ b) = x ← stream_bytes a; app x <$> stream_bytes b.
Proof.
  induction a as [|[x|] a IH]; cbn; [by destruct (stream_bytes b)| |done].
  rewrite IH. destruct (stream_bytes a); cbn; [|done]. destruct (stream_bytes b); cbn; [|done].
  by rewrite <- app_assoc.
Qed.

(** What one chunk of the range yields. *)
Lemma yield_chunk_ok p o known fs from to i :
  objects !! p = Some o -> known p -> coherent objects known fs -> is_Some (fs !! get_chunk_path p i) ->
  0 <= from < to -> to <= Z.of_nat (length o) -> Z.of_nat (length o) <= 2 ^ 63 -> 0 <= i ->
  i * CACHE_BLOCK_SIZE < to -> from < i * CACHE_BLOCK_SIZE + CACHE_BLOCK_SIZE ->
  yield_chunk p (from, to) fs i
  = [Ok (sub o (Z.max (i * CACHE_BLOCK_SIZE) from) (Z.min (i * CACHE_BLOCK_SIZE + CACHE_BLOCK_SIZE) to))].
Proof.
  intros Ho Hp C [data Hd] Hf Ht Hs Hi Hit Hif. pose proof block_pos as HB.
  unfold yield_chunk. destruct (chunk_bounds (Z.of_nat (length o)) i) as [-> ->]; [lia..|]. cbn [fst snd].
  replace (_ <? _) with true by lia.
  unfold read_from_cached_chunk. rewrite Hd, (C p o i data Hp Ho Hd). unfold chunk_of.
  rewrite bool_decide_eq_true_2 by (rewrite sub_length; lia).
  replace (Z.min (i * CACHE_BLOCK_SIZE + CACHE_BLOCK_SIZE) to - Z.max (i * CACHE_BLOCK_SIZE) from)
    with ((Z.min (i * CACHE_BLOCK_SIZE + CACHE_BLOCK_SIZE) to - i * CACHE_BLOCK_SIZE)
          - (Z.max (i * CACHE_BLOCK_SIZE) from - i * CACHE_BLOCK_SIZE)) by lia.
  rewrite sub_sub by lia. do 3 f_equal; lia.
Qed.

(** The stream from the chunk [i] on, [n] chunks. *)
Lemma stream_ok p o known fs from to n i :
  objects !! p = Some o -> known p -> coherent objects known fs ->
  0 <= from < to -> to <= Z.of_nat (length o) -> Z.of_nat (length o) <= 2 ^ 63 -> from / CACHE_BLOCK_SIZE <= i ->
  i + Z.of_nat n = (to - 1) / CACHE_BLOCK_SIZE + 1 ->
  Forall (λ j, is_Some (fs !! get_chunk_path p j)) ((λ k, i + Z.of_nat k) <$> seq 0 n) ->
  stream_bytes (mjoin (yield_chunk p (from, to) fs <$> ((λ k, i + Z.of_nat k) <$> seq 0 n)))
  = Some (sub o (Z.min to (Z.max (i * CACHE_BLOCK_SIZE) from)) to).
Proof.
  intros Ho Hp C Hf Ht Hs. revert i. pose proof block_pos as HB.
  pose proof (Z.div_mod (to - 1) CACHE_BLOCK_SIZE ltac:(lia)) as Et.
  pose proof (Z.mod_pos_bound (to - 1) CACHE_BLOCK_SIZE HB).
  pose proof (Z.div_mod from CACHE_BLOCK_SIZE ltac:(lia)) as Ef.
  pose proof (Z.mod_pos_bound from CACHE_BLOCK_SIZE HB).
  assert (0 <= from / CACHE_BLOCK_SIZE) by (apply Z.div_pos; lia).
  induction n as [|n IH]; intros i Hi Hn F.
  { cbn. assert (to <= i * CACHE_BLOCK_SIZE) by nia. rewrite Z.min_l by lia. unfold sub. by rewrite Z.sub_diag. }
  rewrite chunks_cons in F |- *. apply Forall_cons in F as [Hd F].
  specialize (IH (i + 1) ltac:(lia) ltac:(lia) F).
  rewrite fmap_cons, mjoin_cons, stream_bytes_app, IH.
  rewrite (yield_chunk_ok p o known) by (done || nia). cbn. f_equal. rewrite app_nil_r.
  replace (Z.min to (Z.max ((i + 1) * CACHE_BLOCK_SIZE) from))
    with (Z.min (i * CACHE_BLOCK_SIZE + CACHE_BLOCK_SIZE) to) by nia.
  rewrite sub_app by nia. f_equal. nia.
Qed.
(** The chunks of a range inside the object. *)
Lemma chunks_inside from to size :
  0 <= from < to -> to <= size -> size <= 2 ^ 63 ->
  chunks_for_range (from, to) = (from / CACHE_BLOCK_SIZE, (to - 1) / CACHE_BLOCK_SIZE)
  /\ Forall (λ i, 0 <= i /\ i * CACHE_BLOCK_SIZE < size) (chunk_indexes (chunks_for_range (from, to))).
Proof.
  intros Hf Ht Hs. pose proof block_pos as HB. change (2 ^ 63) with 9223372036854775808 in Hs.
  assert (chunks_for_range (from, to) = (from / CACHE_BLOCK_SIZE, (to - 1) / CACHE_BLOCK_SIZE)) as E.
  { unfold chunks_for_range. cbn [fst snd]. rewrite wrapu_id; [done|].
    change (2 ^ 64) with 18446744073709551616. lia. }
  split; [exact E|]. rewrite E. apply Forall_fmap, Forall_seq. intros j [_ Hj]. cbn [fst snd compose] in *.
  pose proof (Z.div_mod (to - 1) CACHE_BLOCK_SIZE ltac:(lia)).
  pose proof (Z.mod_pos_bound (to - 1) CACHE_BLOCK_SIZE HB).
  assert (0 <= from / CACHE_BLOCK_SIZE) by (apply Z.div_pos; lia).
  nia.
Qed.

Lemma missing_none p range fs :
  Forall (λ i, is_Some (fs !! get_chunk_path p i)) (missing_chunks p range fs) -> missing_chunks p range fs = [].
Proof.
  unfold missing_chunks. intros F. destruct (List.filter _ _) as [|i l] eqn:E; [done|].
  apply Forall_cons in F as [Hi _].
  assert (List.In i (i :: l)) as Hin by (by left). rewrite <- E in Hin. apply filter_In in Hin as [_ Hn].
  unfold is_chunk_ready in Hn. by rewrite bool_decide_eq_true_2 in Hn.
Qed.

Lemma missing_ready p range fs i :
  List.In i (chunk_indexes (chunks_for_range range)) -> ~ List.In i (missing_chunks p range fs) ->
  is_Some (fs !! get_chunk_path p i).
Proof.
  intros Hi Hm. destruct (decide (is_Some (fs !! get_chunk_path p i))) as [|Hn]; [done|].
  destruct Hm. apply filter_In. split; [done|]. unfold is_chunk_ready. by rewrite bool_decide_eq_false_2.
Qed.

(** The whole of a range is there afterwards, and what was there still is. *)
Lemma range_fetched p o known fs from to :
  objects !! p = Some o -> known p -> (∀ q, known q -> get_cache_dir_for_path q = get_cache_dir_for_path p -> q = p) ->
  coherent objects known fs -> Z.of_nat (length o) <= 2 ^ 63 -> 0 <= from < to -> to <= Z.of_nat (length o) ->
  ∃ fs', fetch_chunks p (Z.of_nat (length o)) (missing_chunks p (from, to) fs) fs = (Ok tt, fs')
    /\ coherent objects known fs' /\ fs ⊆ fs'
    /\ Forall (λ i, is_Some (fs' !! get_chunk_path p i)) (chunk_indexes (chunks_for_range (from, to))).
Proof.
  intros Ho Hp Hinj C Hs Hf Ht. destruct (chunks_inside from to _ Hf Ht Hs) as [_ F].
  destruct (fetch_chunks_ok p o (missing_chunks p (from, to) fs) known fs) as (fs' & Hfetch & C' & Hsub & Hall); try done.
  { apply Forall_forall. intros i Hi. rewrite Forall_forall in F. apply F.
    apply list_elem_of_In in Hi. apply filter_In in Hi as [Hi _]. by apply list_elem_of_In. }
  exists fs'. split_and!; [done..|]. apply Forall_forall. intros i Hi. apply list_elem_of_In in Hi.
  destruct (in_dec Z.eq_dec i (missing_chunks p (from, to) fs)) as [Hm|Hm].
  - rewrite Forall_forall in Hall. apply Hall. by apply list_elem_of_In.
  - destruct (missing_ready _ _ _ _ Hi Hm) as [d Hd]. exists d. by eapply lookup_weaken.
Qed.

(** The stream of a range whose chunks are all there. *)
Lemma stream_exact p o known fs from to :
  objects !! p = Some o -> known p -> coherent objects known fs -> Z.of_nat (length o) <= 2 ^ 63 ->
  0 <= from < to -> to <= Z.of_nat (length o) ->
  Forall (λ i, is_Some (fs !! get_chunk_path p i)) (chunk_indexes (chunks_for_range (from, to))) ->
  stream_bytes (get_range_from_cache_stream p (from, to) fs) = Some (sub o from to).
Proof.
  intros Ho Hp C Hs Hf Ht. unfold get_range_from_cache_stream.
  destruct (chunks_inside from to _ Hf Ht Hs) as [-> _]. unfold chunk_indexes. cbn [fst snd]. intros F.
  pose proof block_pos as HB. pose proof (Z.div_le_mono from (to - 1) CACHE_BLOCK_SIZE HB ltac:(lia)).
  rewrite (stream_ok p o known) by (done || lia). do 2 f_equal.
  pose proof (Z.mul_div_le from CACHE_BLOCK_SIZE HB). lia.
Qed.
End coherence.

(** Nothing of a fetched range is missing. *)
Lemma missing_after p range fs :
  Forall (λ i, is_Some (fs !! get_chunk_path p i)) (chunk_indexes (chunks_for_range range)) ->
  missing_chunks p range fs = [].
Proof.
  intros Hall. apply missing_none, Forall_forall. intros i Hi. rewrite Forall_forall in Hall. apply Hall.
  apply list_elem_of_In in Hi. apply filter_In in Hi as [Hi _]. by apply list_elem_of_In.
Qed.

(** Only the directory of a path matters to its chunks. *)
Lemma missing_same_dir p q range fs :
  get_cache_dir_for_path p = get_cache_dir_for_path q -> missing_chunks q range fs = missing_chunks p range fs.
Proof. intros E. unfold missing_chunks, get_chunk_path. by rewrite E. Qed.

Lemma stream_same_dir p q range fs :
  get_cache_dir_for_path p = get_cache_dir_for_path q ->
  get_range_from_cache_stream q range fs = get_range_from_cache_stream p range fs.
Proof. intros E. unfold get_range_from_cache_stream, yield_chunk, get_chunk_path. by rewrite E. Qed.

(** [get_opts] past the head request. *)
Lemma get_opts_range {OS : ObjectStore} (objects : gmap string Bytes) {SL : StoreLaws objects} p o options fs range fs' :
  objects !! p = Some o -> go_head options = false -> resolve_range options (Z.of_nat (length o)) = range ->
  fetch_chunks p (Z.of_nat (length o)) (missing_chunks p range fs) fs = (Ok tt, fs') ->
  get_opts p options fs = (Ok (Stream (Z.of_nat (length o)) range (get_range_from_cache_stream p range fs')), fs').
Proof.
  intros Ho Hhead <- Hfetch. unfold get_opts. rewrite store_head_ok, Ho. cbn [fmap option_fmap option_map].
  by rewrite Hhead, Hfetch.
Qed.

(** A store that holds its objects in memory. *)
Definition InMemory (objects : gmap string Bytes) : ObjectStore := {|
  store_head p := (λ o, Z.of_nat (length o)) <$> objects !! p;
  store_get_range p from to :=
    o ← objects !! p;
    if (0 <=? from) && (from <? to) && (to <=? Z.of_nat (length o)) then Some (sub o from to) else None
|}.

Lemma in_memory_laws objects : StoreLaws (OS := InMemory objects) objects.
Proof.
  constructor; [done|]. intros p o from to Ho Hf Ht. cbn. rewrite Ho. cbn.
  by replace (_ && _) with true by lia.
Qed.

(** ** The theorems *)

(** C28: reading a range inside an object through the byte cache gives exactly those
    bytes, whatever was cached before (nothing, some chunks, or all): the answer
    carries the size and the range, the stream has no error, the files stay
    coherent with the objects, no cached chunk is lost or changed, and nothing of
    the range is missing afterwards, so reading it again asks the store for no
    data.  The paths known so far must not share a directory with this one. *)
Theorem byte_cache_exact {OS : ObjectStore} (objects : gmap string Bytes) {SL : StoreLaws objects}
    (known : string -> Prop) (p : string) (o : Bytes) (options : GetOptions) (fs : Files) (from to : Z)
    (Ho : objects !! p = Some o) (Hp : known p)
    (Hinj : ∀ q, known q -> get_cache_dir_for_path q = get_cache_dir_for_path p -> q = p)
    (C : coherent objects known fs) (Hsize : Z.of_nat (length o) <= 2 ^ 63)
    (Hhead : go_head options = false) (Hrange : resolve_range options (Z.of_nat (length o)) = (from, to))
    (Hf : 0 <= from < to) (Ht : to <= Z.of_nat (length o)) :
  ∃ fs' payload,
    get_opts p options fs = (Ok (Stream (Z.of_nat (length o)) (from, to) payload), fs')
    /\ stream_bytes payload = Some (sub o from to)
    /\ coherent objects known fs' /\ fs ⊆ fs' /\ missing_chunks p (from, to) fs' = [].
Proof.
  destruct (range_fetched objects p o known fs from to) as (fs' & Hfetch & C' & Hsub & Hall); try done.
  exists fs', (get_range_from_cache_stream p (from, to) fs').
  split_and!; [by apply (get_opts_range objects)|by eapply stream_exact|done|done|by apply missing_after].
Qed.

(** Two paths whose slashes become the same underscores share their chunk files:
    after the first [to] bytes of one are read into an empty cache, the same range
    of the other is answered with the first one's bytes, without an error. *)
Theorem byte_cache_paths_collide {OS : ObjectStore} (objects : gmap string Bytes) {SL : StoreLaws objects}
    (p q : string) (op oq : Bytes) (to : Z)
    (Hop : objects !! p = Some op) (Hoq : objects !! q = Some oq)
    (Hdir : get_cache_dir_for_path p = get_cache_dir_for_path q) (Hsize : Z.of_nat (length op) <= 2 ^ 63)
    (Ht : 0 < to <= Z.of_nat (length op)) :
  let bounded := Options false (Some (Bounded 0 to)) in
  ∃ payload,
    get_opts q bounded (get_opts p bounded ∅).2
    = (Ok (Stream (Z.of_nat (length oq)) (0, to) payload), (get_opts p bounded ∅).2)
    /\ stream_bytes payload = Some (sub op 0 to).
Proof.
  intros bounded.
  destruct (range_fetched objects p op (eq p) ∅ 0 to) as (fs' & Hfetch & C & _ & Hall); try done; try lia.
  rewrite (get_opts_range objects p op bounded ∅ (0, to) fs') by done. cbn [snd].
  exists (get_range_from_cache_stream p (0, to) fs'). split; [|by apply (stream_exact objects p op (eq p)); done || lia].
  rewrite (get_opts_range objects q oq bounded fs' (0, to) fs'); [by rewrite (stream_same_dir p q)|done..|].
  by rewrite (missing_same_dir p q), (missing_after p).
Qed.

(** The theorems on a store with two objects. *)
Definition sample_objects : gmap string Bytes := {["a/b" := [1; 2; 3; 4]; "a_b" := [9; 8; 7]]}.

Lemma byte_cache_exact_witness :
  ∃ fs' payload,
    get_opts (OS := InMemory sample_objects) "a/b" (Options false (Some (Suffix 3))) ∅
    = (Ok (Stream 4 (1, 4) payload), fs')
    /\ stream_bytes payload = Some [2; 3; 4]
    /\ coherent sample_objects (λ p, p = "a/b") fs' /\ ∅ ⊆ fs'
    /\ missing_chunks "a/b" (1, 4) fs' = [].
Proof.
  apply (byte_cache_exact (OS := InMemory sample_objects) sample_objects (SL := in_memory_laws sample_objects)
    (λ p, p = "a/b") "a/b" [1; 2; 3; 4] (Options false (Some (Suffix 3))) ∅ 1 4);
    try reflexivity; try (cbn; lia).
  - intros q Hq _. exact Hq.
  - intros p o i data _ _ Hd. discriminate Hd.
Defined.

Lemma byte_cache_paths_collide_witness :
  let bounded := Options false (Some (Bounded 0 2)) in
  ∃ payload,
    get_opts (OS := InMemory sample_objects) "a_b" bounded (get_opts (OS := InMemory sample_objects) "a/b" bounded ∅).2
    = (Ok (Stream 3 (0, 2) payload), (get_opts (OS := InMemory sample_objects) "a/b" bounded ∅).2)
    /\ stream_bytes payload = Some [1; 2].
Proof.
  apply (byte_cache_paths_collide (OS := InMemory sample_objects) sample_objects
    (SL := in_memory_laws sample_objects) "a/b" "a_b" [1; 2; 3; 4] [9; 8; 7] 2); try reflexivity; cbn; lia.
Defined.
