(* ===== verification/VariantSchema.v ===== *)
(** * Shredding schemas of variant columns

    Ordered maps with string keys ([std::collections::BTreeMap<String, V>]) as the
    list of their entries in the order of iteration (byte-wise order of the keys):
    the recursive trees of the source keep their children in such a map, which a
    nested inductive type needs as a list.  Then a model of
    [src/src/storage/src/utils/variant_schema.rs]: the tree of typed paths from
    which the shredding type of a variant column is built. *)

From stdpp Require Import base list strings.
From Stdlib Require Import String Ascii Sorted.
From S2P Require Import Prelude DataTypes.

Section btree.
Context {V : Type}.
Implicit Types (m : list (string * V)) (k : string).

Fixpoint bt_get k m : option V :=
  match m with
  | [] => None
  | (k', v) :: m => if String.eqb k k' then Some v else bt_get k m
  end.

(** [map.entry(k).or_insert_with(|| dflt)] updated by [f]. *)
Fixpoint bt_entry (dflt : V) k (f : V → V) m : list (string * V) :=
  match m with
  | [] => [(k, f dflt)]
  | (k', v) :: m' =>
      match String.compare k k' with
      | Eq => (k', f v) :: m'
      | Lt => (k, f dflt) :: m
      | Gt => (k', v) :: bt_entry dflt k f m'
      end
  end.

Definition key_lt (a b : string * V) : Prop := String.compare a.1 b.1 = Lt.
Definition bt_sorted m : Prop := StronglySorted key_lt m.

(** ** Lemmas *)

Lemma compare_refl k : String.compare k k = Eq.
Proof.
  pose proof (String.compare_antisym k k) as H. by destruct (String.compare k k).
Qed.

Lemma compare_gt a b : String.compare a b = Gt → String.compare b a = Lt.
Proof. intros H. by rewrite String.compare_antisym, H. Qed.

Lemma compare_lt_trans a b c :
  String.compare a b = Lt → String.compare b c = Lt → String.compare a c = Lt.
Proof.
  intros H1 H2.
  assert (String.le a b) as L1 by (unfold String.le, String.leb; by rewrite H1).
  assert (String.le b c) as L2 by (unfold String.le, String.leb; by rewrite H2).
  assert (String.le a c) as L3 by (by trans b).
  unfold String.le, String.leb in L3. destruct (String.compare a c) eqn:E; [|done|done].
  apply String.compare_eq_iff in E as ->.
  by rewrite String.compare_antisym, H1 in H2.
Qed.

Lemma eqb_compare a b : String.eqb a b = true ↔ String.compare a b = Eq.
Proof.
  split; [intros ->%String.eqb_eq; apply compare_refl|].
  intros ->%String.compare_eq_iff. apply String.eqb_refl.
Qed.

Lemma bt_get_None k m : Forall (λ kv, String.compare k kv.1 = Lt) m → bt_get k m = None.
Proof.
  induction 1 as [|[k' v] m H _ IH]; [done|]. simpl in *.
  destruct (String.eqb k k') eqn:E; [|done]. apply eqb_compare in E. congruence.
Qed.

Lemma bt_get_entry_eq dflt k f m :
  bt_sorted m → bt_get k (bt_entry dflt k f m) = Some (f (default dflt (bt_get k m))).
Proof.
  induction m as [|[k' v] m IH]; intros Hs; simpl; [by rewrite String.eqb_refl|].
  apply StronglySorted_inv in Hs as [Hs Hk].
  destruct (String.compare k k') eqn:E; simpl.
  - apply eqb_compare in E. by rewrite E.
  - rewrite String.eqb_refl. destruct (String.eqb k k') eqn:E'.
    { apply eqb_compare in E'. congruence. }
    rewrite (bt_get_None k m); [done|].
    eapply Forall_impl; [exact Hk|]. intros [k2 v2] H. unfold key_lt in H. simpl in *.
    by eapply compare_lt_trans.
  - destruct (String.eqb k k') eqn:E'.
    { apply eqb_compare in E'. congruence. }
    by apply IH.
Qed.

Lemma bt_get_entry_ne dflt k k2 f m :
  k2 ≠ k → bt_get k2 (bt_entry dflt k f m) = bt_get k2 m.
Proof.
  intros Hn. apply String.eqb_neq in Hn.
  induction m as [|[k' v] m IH]; simpl; [by rewrite Hn|].
  destruct (String.compare k k') eqn:E; simpl.
  - apply String.compare_eq_iff in E as ->. by rewrite Hn.
  - by rewrite Hn.
  - by rewrite IH.
Qed.

Lemma bt_entry_sorted dflt k f m : bt_sorted m → bt_sorted (bt_entry dflt k f m).
Proof.
  unfold bt_sorted. induction m as [|[k' v] m IH]; intros Hs; simpl.
  { repeat constructor. }
  pose proof Hs as [Hm Hk]%StronglySorted_inv.
  destruct (String.compare k k') eqn:E.
  - by constructor.
  - constructor; [done|]. constructor; [done|].
    eapply Forall_impl; [exact Hk|]. intros [k2 v2] H. unfold key_lt in *. simpl in *.
    by eapply compare_lt_trans.
  - constructor; [by apply IH|]. apply compare_gt in E. clear IH Hm Hs.
    induction m as [|[k2 v2] m IH2]; simpl; [repeat constructor; done|].
    apply Forall_cons in Hk as [Hk Hk'].
    destruct (String.compare k k2); repeat constructor; eauto.
Qed.
End btree.

Lemma bt_get_fmap {V W} (g : string → V → W) k (m : list (string * V)) :
  bt_get k ((λ '(n, v), (n, g n v)) <$> m) = g k <$> bt_get k m.
Proof.
  induction m as [|[k' v] m IH]; [done|]. simpl. destruct (String.eqb k k') eqn:E; [|done].
  by apply String.eqb_eq in E as ->.
Qed.

(** [str::split] at a character: never empty. *)
Fixpoint str_split (sep : ascii) (s : string) : list string :=
  match s with
  | EmptyString => [""]
  | String c s' =>
      if Ascii.eqb c sep then "" :: str_split sep s'
      else match str_split sep s' with
           | [] => [String c ""]
           | w :: ws => String c w :: ws
           end
  end.

Definition is_nonempty (s : string) : bool := negb (String.eqb s "").

Definition split_variant_path (path : string) : list string :=
  List.filter is_nonempty (str_split "."%char path).

(** [VariantSchemaNode]; [children] is a [BTreeMap]. *)
Inductive VariantSchemaNode : Type :=
| VNode (children : list (string * VariantSchemaNode)) (leaf_type : option DataType).

Definition vn_children (n : VariantSchemaNode) := let 'VNode c _ := n in c.
Definition vn_leaf (n : VariantSchemaNode) := let 'VNode _ l := n in l.
Definition vn_default : VariantSchemaNode := VNode [] None.

Definition set_leaf (t : DataType) (n : VariantSchemaNode) : VariantSchemaNode :=
  VNode (vn_children n) (Some t).

Definition child_entry (name : string) (f : VariantSchemaNode → VariantSchemaNode)
    (n : VariantSchemaNode) : VariantSchemaNode :=
  VNode (bt_entry vn_default name f (vn_children n)) (vn_leaf n).

(** [absorb_shredded_field]: the inner loop is [find] of the first child named
    [typed_value], with what is done with it in place. *)
Fixpoint absorb_shredded_field (field : Field) (n : VariantSchemaNode) {struct field}
    : VariantSchemaNode :=
  match field with
  | mkField _ (TStruct children) _ =>
      (fix find (l : list Field) : VariantSchemaNode :=
         match l with
         | [] => n
         | mkField name ty _ :: l =>
             if String.eqb name "typed_value" then
               match ty with
               | TStruct [] => set_leaf (TStruct []) n
               | TStruct grand_children =>
                   (fix go (l : list Field) (n : VariantSchemaNode) : VariantSchemaNode :=
                      match l with
                      | [] => n
                      | grand_child :: l =>
                          go l (child_entry (f_name grand_child)
                                  (absorb_shredded_field grand_child) n)
                      end) grand_children n
               | other => set_leaf other n
               end
             else find l
         end) children
  | mkField _ other _ => set_leaf other n
  end.

Definition absorb_root (typed_field : Field) (n : VariantSchemaNode) : VariantSchemaNode :=
  match f_type typed_field with
  | TStruct children =>
      foldl (λ n child, child_entry (f_name child) (absorb_shredded_field child) n) n children
  | _ => n
  end.

Fixpoint insert_segments (segments : list string) (data_type : DataType)
    (n : VariantSchemaNode) : VariantSchemaNode :=
  match segments with
  | [] => set_leaf data_type n
  | head :: tail => child_entry head (insert_segments tail data_type) n
  end.

Fixpoint build_arrow_field (name : string) (n : VariantSchemaNode) {struct n} : option Field :=
  let 'VNode children leaf_type := n in
  typed_value_type ←
    match children with
    | [] => leaf_type
    | _ =>
        match omap (λ '(name, child), build_arrow_field name child) children with
        | [] => None
        | child_fields => Some (TStruct child_fields)
        end
    end;
  Some (mkField name
          (TStruct [mkField "value" TBinaryView true; mkField "typed_value" typed_value_type true])
          false).

Definition build_arrow_children (n : VariantSchemaNode) : list Field :=
  omap (λ '(name, child), build_arrow_field name child) (vn_children n).

(** [logical_struct_type], with [logical_field] of each child in place. *)
Fixpoint logical_struct_type (n : VariantSchemaNode) : option DataType :=
  let 'VNode children leaf_type := n in
  match children with
  | [] => leaf_type
  | _ =>
      match omap (λ '(name, child), (λ ty, mkField name ty false) <$> logical_struct_type child)
                 children with
      | [] => None
      | child_fields => Some (TStruct child_fields)
      end
  end.

Definition logical_field (name : string) (n : VariantSchemaNode) : option Field :=
  (λ ty, mkField name ty false) <$> logical_struct_type n.

(** [VariantSchema]: its root node. *)
Definition VariantSchema : Type := VariantSchemaNode.

Definition vs_new (existing_typed_value : option Field) : VariantSchema :=
  match existing_typed_value with
  | Some field => absorb_root field vn_default
  | None => vn_default
  end.

Definition insert_path (path : string) (data_type : DataType) (s : VariantSchema) : VariantSchema :=
  match split_variant_path path with
  | [] => s
  | segments => insert_segments segments data_type s
  end.

Definition typed_fields (s : VariantSchema) : list Field := build_arrow_children s.

Definition shredding_type (s : VariantSchema) : option DataType := logical_struct_type s.

(** ** Reading a schema back *)

(** The node at a path of the tree. *)
Fixpoint node_at (segments : list string) (n : VariantSchemaNode) : option VariantSchemaNode :=
  match segments with
  | [] => Some n
  | head :: tail => bt_get head (vn_children n) ≫= node_at tail
  end.

Definition find_field (name : string) (fields : list Field) : option DataType :=
  f_type <$> List.find (λ f, String.eqb (f_name f) name) fields.

(** The type a path selects in a struct type. *)
Fixpoint type_at (segments : list string) (ty : DataType) : option DataType :=
  match segments with
  | [] => Some ty
  | head :: tail =>
      match ty with
      | TStruct fields => find_field head fields ≫= type_at tail
      | _ => None
      end
  end.

(** Keys are in order at every node. *)
Inductive schema_wf : VariantSchemaNode → Prop :=
| schema_wf_node children leaf :
    bt_sorted children → Forall (λ c, schema_wf c.2) children →
    schema_wf (VNode children leaf).

(** ** Lemmas *)

Lemma schema_wf_inv n :
  schema_wf n → bt_sorted (vn_children n) ∧ Forall (λ c, schema_wf c.2) (vn_children n).
Proof. by destruct 1. Qed.

Lemma schema_wf_default : schema_wf vn_default.
Proof. constructor; constructor. Qed.

Lemma set_leaf_wf t n : schema_wf n → schema_wf (set_leaf t n).
Proof. by destruct 1. Qed.

Lemma bt_entry_Forall {V} (P : V → Prop) dflt k f (m : list (string * V)) :
  P dflt → (∀ v, P v → P (f v)) → Forall (λ c, P c.2) m →
  Forall (λ c, P c.2) (bt_entry dflt k f m).
Proof.
  intros Hd Hf. induction 1 as [|[k' v] m Hv Hm IH]; simpl.
  { by constructor; [apply Hf|constructor]. }
  destruct (String.compare k k'); repeat (constructor; simpl in *; auto).
Qed.

Lemma child_entry_wf name f n :
  (∀ c, schema_wf c → schema_wf (f c)) → schema_wf n → schema_wf (child_entry name f n).
Proof.
  intros Hf [Hs Hc]%schema_wf_inv. constructor; [by apply bt_entry_sorted|].
  apply bt_entry_Forall; auto using schema_wf_default.
Qed.

Lemma insert_segments_wf segments ty n : schema_wf n → schema_wf (insert_segments segments ty n).
Proof.
  revert n. induction segments as [|h t IH]; intros n Hn; [by apply set_leaf_wf|].
  apply child_entry_wf; auto.
Qed.

Lemma insert_path_wf path ty s : schema_wf s → schema_wf (insert_path path ty s).
Proof.
  unfold insert_path. destruct (split_variant_path path) eqn:E; [done|].
  rewrite <- E. apply insert_segments_wf.
Qed.

Lemma node_at_insert segments ty n :
  schema_wf n →
  ∃ n', node_at segments (insert_segments segments ty n) = Some n' ∧ vn_leaf n' = Some ty
        ∧ vn_children n' = default [] (vn_children <$> node_at segments n).
Proof.
  revert n. induction segments as [|h t IH]; intros n Hn; [by eexists; split_and!|].
  pose proof (schema_wf_inv _ Hn) as [Hs Hc]. cbn [insert_segments node_at child_entry vn_children].
  rewrite bt_get_entry_eq by done. cbn [mbind option_bind].
  destruct (bt_get h (vn_children n)) as [c|] eqn:E; cbn [default option_bind].
  - apply IH. clear IH Hs. induction Hc as [|[k v] m Hv Hm IH]; [done|]. simpl in E.
    destruct (String.eqb h k); [by injection E as <-|by apply IH].
  - destruct (IH vn_default schema_wf_default) as (n' & H1 & H2 & H3). exists n'. split_and!; [done..|].
    rewrite H3. by destruct t.
Qed.

Lemma node_at_insert_ne segments other ty n :
  other ≠ [] → segments ≠ [] → head other ≠ head segments →
  node_at other (insert_segments segments ty n) = node_at other n.
Proof.
  destruct other as [|k o], segments as [|h t]; try done. intros _ _ Hh.
  cbn [insert_segments node_at child_entry vn_children]. rewrite bt_get_entry_ne; [done|].
  intros ->. by apply Hh.
Qed.

Lemma find_field_omap name (children : list (string * VariantSchemaNode)) :
  bt_sorted children →
  find_field name
    (omap (λ '(name, child), (λ ty, mkField name ty false) <$> logical_struct_type child) children)
  = bt_get name children ≫= logical_struct_type.
Proof.
  induction children as [|[k c] m IH]; intros Hs; [done|]. simpl.
  apply StronglySorted_inv in Hs as [Hs Hk]. specialize (IH Hs). rewrite String.eqb_sym.
  destruct (logical_struct_type c) as [ty|] eqn:E; simpl; unfold find_field; simpl.
  - destruct (String.eqb k name) eqn:E'; [by simpl; rewrite E|exact IH].
  - destruct (String.eqb k name) eqn:E'; [|exact IH]. simpl. rewrite E.
    apply String.eqb_eq in E' as ->. etrans; [exact IH|]. by rewrite bt_get_None.
Qed.

Lemma type_at_node segments n n' ty :
  schema_wf n → node_at segments n = Some n' → logical_struct_type n' = Some ty →
  ∃ root, logical_struct_type n = Some root ∧ type_at segments root = Some ty.
Proof.
  revert n. induction segments as [|h t IH]; intros n Hn Hat Hty.
  { injection Hat as ->. eauto. }
  destruct n as [children leaf]. apply schema_wf_inv in Hn as [Hs Hc]. cbn in Hs, Hc, Hat.
  destruct (bt_get h children) as [c|] eqn:E; [|done]. cbn in Hat.
  assert (schema_wf c) as Hcw.
  { clear -Hc E. induction Hc as [|[k v] m Hv Hm IH]; [done|]. simpl in E.
    destruct (String.eqb h k); [by injection E as <-|by apply IH]. }
  destruct (IH c Hcw Hat Hty) as (root & Hroot & Hta).
  pose proof (find_field_omap h children Hs) as Hf. rewrite E in Hf. cbn in Hf. rewrite Hroot in Hf.
  destruct children as [|c0 cs]; [done|]. cbn [logical_struct_type].
  destruct (omap _ (c0 :: cs)) as [|f fs] eqn:Eo; [done|].
  eexists; split; [done|]. cbn [type_at]. by rewrite Hf.
Qed.

(** ** Properties *)

(** C31: inserting a typed path where no longer path was inserted makes the
    shredding type give that path that type; every path that starts with
    another field keeps its type, and the schema keeps its fields in order. *)
Theorem insert_path_shreds path ty (s : VariantSchema) :
  schema_wf s → split_variant_path path ≠ [] →
  (∀ n, node_at (split_variant_path path) s = Some n → vn_children n = []) →
  ∃ root, shredding_type (insert_path path ty s) = Some root
          ∧ type_at (split_variant_path path) root = Some ty
          ∧ (∀ other n t, other ≠ [] → head other ≠ head (split_variant_path path) →
               node_at other s = Some n → logical_struct_type n = Some t →
               type_at other root = Some t)
          ∧ schema_wf (insert_path path ty s).
Proof.
  intros Hs Hp Hleaf. pose proof (insert_path_wf path ty s Hs) as Hw.
  assert (insert_path path ty s = insert_segments (split_variant_path path) ty s) as Hi
    by (unfold insert_path; by destruct (split_variant_path path)).
  rewrite Hi in Hw |- *. set (segs := split_variant_path path) in *.
  destruct (node_at_insert segs ty s Hs) as (n' & H1 & H2 & H3).
  assert (logical_struct_type n' = Some ty) as Hn'.
  { destruct n' as [c l]. cbn in H2, H3. subst l. rewrite H3.
    destruct (node_at segs s) as [n0|]; [|done]. cbn. by rewrite (Hleaf n0 eq_refl). }
  destruct (type_at_node segs _ _ _ Hw H1 Hn') as (root & Hr & Ht).
  exists root. split_and!; [done|done| |done].
  intros other n t Ho Hne Hat Hlt.
  destruct (type_at_node other _ n t Hw) as (root' & Hr' & Ht'); [|done|congruence].
  by rewrite node_at_insert_ne.
Qed.

Lemma insert_path_shreds_witness :
  ∃ root, shredding_type (insert_path "a.b" TInt64 (insert_path "c" TUtf8 (vs_new None))) = Some root
          ∧ type_at ["a"; "b"] root = Some TInt64 ∧ type_at ["c"] root = Some TUtf8.
Proof.
  destruct (insert_path_shreds "a.b" TInt64 (insert_path "c" TUtf8 (vs_new None)))
    as (root & H1 & H2 & H3 & _).
  - apply insert_path_wf, schema_wf_default.
  - by vm_compute.
  - by vm_compute.
  - exists root. split_and!; [done|done|].
    by apply (H3 ["c"] (VNode [] (Some TUtf8))).
Defined.

(** A path with a typed path below it loses its own type: once [head.tail]
    was inserted, inserting [head] itself changes neither the shredding type nor
    the physical fields, so the request for [head] is silently dropped. *)
Theorem insert_path_inner_leaf_ignored head tail ty ty' (s : VariantSchema) :
  schema_wf s → tail ≠ [] →
  let s' := insert_segments (head :: tail) ty s in
  logical_struct_type (insert_segments [head] ty' s') = logical_struct_type s'
  ∧ build_arrow_children (insert_segments [head] ty' s') = build_arrow_children s'.
Proof.
  intros Hs Ht s'. pose proof (insert_segments_wf (head :: tail) ty s Hs) as Hw. fold s' in Hw.
  assert (∃ c, bt_get head (vn_children s') = Some c ∧ vn_children c ≠ []) as (c & Hc & Hne).
  { subst s'. cbn. rewrite bt_get_entry_eq by (by apply schema_wf_inv in Hs as []).
    eexists. split; [done|]. destruct tail as [|h t]; [done|]. cbn.
    set (d := default _ _). destruct d as [[|[k v] m] l]; cbn; [done|]. by destruct (String.compare h k). }
  destruct s' as [children leaf] eqn:Es. apply schema_wf_inv in Hw as [Hsort _].
  cbn in Hc, Hsort. cbn [insert_segments child_entry vn_children vn_leaf].
  clear Es Ht Hs. clearbody s'. clear s'.
  assert (∀ {B} (g : string → VariantSchemaNode → option B) m,
            bt_sorted m → bt_get head m = Some c →
            (∀ n, vn_children n ≠ [] → g head (set_leaf ty' n) = g head n) →
            omap (λ '(n, c), g n c) (bt_entry vn_default head (set_leaf ty') m)
            = omap (λ '(n, c), g n c) m) as Hom.
  { intros B g m Hm. induction m as [|[k v] m IH]; [done|].
    apply StronglySorted_inv in Hm as [Hm Hk]. intros Hg Hl. simpl in Hg |- *.
    destruct (String.compare head k) eqn:E.
    - assert (String.eqb head k = true) as E' by (by apply eqb_compare). rewrite E' in Hg.
      injection Hg as ->. apply String.eqb_eq in E' as <-. simpl. by rewrite Hl.
    - destruct (String.eqb head k) eqn:E'; [apply eqb_compare in E'; congruence|].
      rewrite bt_get_None in Hg; [done|]. eapply Forall_impl; [exact Hk|].
      intros [k2 v2] H. unfold key_lt in H. simpl in *. by eapply compare_lt_trans.
    - destruct (String.eqb head k) eqn:E'; [apply eqb_compare in E'; congruence|].
      simpl. destruct (g k v); [f_equal|]; by apply IH. }
  unfold build_arrow_children, child_entry. cbn [vn_children vn_leaf].
  change (λ n, set_leaf ty' n) with (set_leaf ty').
  rewrite (Hom _ build_arrow_field); [|done|done|by intros [[] ?] ?].
  split; [|done]. cbn [logical_struct_type].
  rewrite (Hom _ (λ name n, (λ ty, mkField name ty false) <$> logical_struct_type n));
    [|done|done|by intros [[] ?] ?].
  destruct children as [|[k v] m]; [done|]. simpl. by destruct (String.compare head k).
Qed.

Lemma insert_path_inner_leaf_ignored_witness :
  logical_struct_type (insert_segments ["a"] TUtf8 (insert_segments ["a"; "b"] TInt64 vn_default))
  = logical_struct_type (insert_segments ["a"; "b"] TInt64 vn_default).
Proof.
  apply (insert_path_inner_leaf_ignored "a" ["b"] TInt64 TUtf8 vn_default); [|done].
  apply schema_wf_default.
Defined.
