(* ===== verification/Formats.v ===== *)
(** * The array formats the cache stores

    Interfaces between the cache core and what it stores.  [ArrowLib] is the
    Arrow library (code outside the repository): arrays, the filter kernel, the
    IPC stream.  [LiquidFormats] has the operations of the traits [LiquidArray]
    and [LiquidSqueezedArray] of [src/src/storage/src/liquid_array/mod.rs] and
    of the encoders [transcode.rs] calls, for arrays behind [Arc<dyn ..>].
    [FormatLaws] states what the cache core relies on. *)

From stdpp Require Import base list gmap strings.
From Stdlib Require Import ZArith String.
From S2P Require Import Prelude CivilDate DataTypes Expressions.

(** [BooleanBuffer] and [BooleanArray]. *)
Abbreviation BooleanBuffer := (list bool) (only parsing).
Abbreviation BooleanArray := (list (option bool)) (only parsing).
Abbreviation Bytes := (list Z) (only parsing).
Abbreviation Hint := (CacheExpression DataType).

Definition count_set_bits (b : BooleanBuffer) : nat := List.length (List.filter id b).

Lemma keep_none {A} (l : list A) m : count_set_bits m = 0%nat → keep l m = [].
Proof.
  revert m. induction l as [|x l IH]; intros [|b m]; simpl; try done.
  unfold count_set_bits in *. simpl. destruct b; simpl; [done|apply IH].
Qed.

(** [SqueezedBacking]. *)
Inductive SqueezedBacking : Type := BackingLiquid | BackingArrow.

(** What a squeezed array does through its [SqueezeIoHandler] while it answers:
    a read of [n] bytes of its file, a trace of decompressions, a note that a
    read was saved. *)
Inductive SqueezeIoEvent : Type :=
| SqRead (n : Z)
| SqDecompress (decompressed total : Z)
| SqIoSaved.

(** An asynchronous method of a squeezed array: it sees the current content of
    the entry's file ([None] when there is none) and returns its answer with
    the events it caused. *)
Definition SqueezeIo (A : Type) : Type := option Bytes → outcome (A * list SqueezeIoEvent).

(** [VariantStructSqueezedArray] of [variant_array.rs]. *)
Record VariantStructSqueezed (L N : Type) : Type := VariantSqueezed {
  vs_values : gmap string L;
  vs_len : nat;
  vs_nulls : option N;
  vs_original_arrow_type : DataType
}.
Arguments VariantSqueezed {L N}.
Arguments vs_values {L N}.
Arguments vs_len {L N}.
Arguments vs_nulls {L N}.
Arguments vs_original_arrow_type {L N}.

Class ArrowLib : Type := {
  ArrayRef : Type;
  NullBuffer : Type;
  PhysicalExpr : Type;
  is_primitive : DataType → bool;
  arr_data_type : ArrayRef → DataType;
  arr_len : ArrayRef → nat;
  arr_null_count : ArrayRef → Z;
  arr_memory_size : ArrayRef → Z;
  arr_filter : ArrayRef → BooleanBuffer → option ArrayRef;
  new_empty_array : DataType → ArrayRef;
  (** A record batch of one column of a type and nullability, as an IPC stream. *)
  ipc_write : DataType → bool → ArrayRef → option Bytes;
  (** The first column of the first batch of a stream. *)
  ipc_read : Bytes → option ArrayRef;
  (** Whether the keys of a dictionary array are [UInt16]. *)
  as_dictionary_u16 : ArrayRef → bool;
  (** [gc] of a [BinaryViewArray] or [StringViewArray]; [None] for the others. *)
  view_gc : ArrayRef → option ArrayRef;
  child_data : ArrayRef → list ArrayRef;
  with_child_data : ArrayRef → list ArrayRef → option ArrayRef;
  (** [StructArray::new] (panics when the fields do not fit) and the two
      placeholder columns of a variant struct. *)
  struct_new : list Field → list ArrayRef → option NullBuffer → outcome ArrayRef;
  empty_binary_views : nat → ArrayRef;
  null_binary_views : nat → ArrayRef
}.

Class LiquidFormats `{ArrowLib} : Type := {
  Compressor : Type;
  LiquidArrayRef : Type;
  SqueezedRef : Type;
  (** [LiquidArray] *)
  l_memory_size : LiquidArrayRef → Z;
  l_len : LiquidArrayRef → nat;
  l_original_type : LiquidArrayRef → DataType;
  l_to_arrow : LiquidArrayRef → outcome ArrayRef;
  l_to_bytes : LiquidArrayRef → outcome Bytes;
  l_filter : LiquidArrayRef → BooleanBuffer → outcome ArrayRef;
  l_try_eval : LiquidArrayRef → PhysicalExpr → BooleanBuffer → outcome (option BooleanArray);
  l_squeeze : LiquidArrayRef → option Hint → outcome (option (SqueezedRef * Bytes));
  (** [ipc::read_from_bytes] *)
  read_from_bytes : Bytes → option Compressor → outcome LiquidArrayRef;
  (** The encoders of [transcode.rs]. *)
  primitive_from_arrow : DataType → ArrayRef → outcome LiquidArrayRef;
  float_from_arrow : DataType → ArrayRef → outcome LiquidArrayRef;
  decimal_from_arrow : ArrayRef → Compressor → outcome LiquidArrayRef;
  decimal_train : ArrayRef → outcome (Compressor * LiquidArrayRef);
  view_from_arrow : ArrayRef → Compressor → ByteViewBuildOptions → outcome LiquidArrayRef;
  view_train : ArrayRef → ByteViewBuildOptions → outcome (Compressor * LiquidArrayRef);
  (** [LiquidSqueezedArray] *)
  s_memory_size : SqueezedRef → Z;
  s_len : SqueezedRef → nat;
  s_original_type : SqueezedRef → DataType;
  s_disk_backing : SqueezedRef → SqueezedBacking;
  s_to_arrow : SqueezedRef → SqueezeIo ArrayRef;
  s_filter : SqueezedRef → BooleanBuffer → SqueezeIo ArrayRef;
  s_try_eval : SqueezedRef → PhysicalExpr → BooleanBuffer → SqueezeIo (option BooleanArray);
  (** The downcasts: the component a [SqueezedDate32Array] holds, with its
      [to_component_array]; a [VariantStructSqueezedArray]. *)
  s_as_date32 : SqueezedRef → option (Date32Field * ArrayRef);
  s_as_variant : SqueezedRef → option (VariantStructSqueezed LiquidArrayRef NullBuffer);
  s_of_variant : VariantStructSqueezed LiquidArrayRef NullBuffer → SqueezedRef
}.

(** [arrow_to_bytes] of [utils.rs]: the field is nullable when the array has a
    null. *)
Definition arrow_to_bytes `{ArrowLib} (a : ArrayRef) : option Bytes :=
  ipc_write (arr_data_type a) (0 <? arr_null_count a)%Z a.

(** ** What the cache core relies on

    [Val] is the logical content of an array, [den] that of an Arrow array.
    [l_ok c l v]: the liquid array [l] encodes [v] and can be read back when the
    compressor state is [c].  [s_ok s v b]: [s] was squeezed from [v], with the
    bytes [b] in its file. *)
Class FormatLaws `{LF : LiquidFormats} : Type := {
  Val : Type;
  vlen : Val → nat;
  vtype : Val → DataType;
  vfilter : Val → BooleanBuffer → Val;
  (** The rows with the component in the place of the date: what
      [to_component_array] gives, in the type of the column. *)
  extracted : Date32Field → Val → Val;
  peval : PhysicalExpr → Val → BooleanArray;
  den : ArrayRef → Val;
  l_ok : option Compressor → LiquidArrayRef → Val → Prop;
  s_ok : SqueezedRef → Val → Bytes → Prop;

  vfilter_true v : vfilter v (repeat true (vlen v)) = v;
  extracted_len f v : vlen (extracted f v) = vlen v;

  is_primitive_number t :
    is_liquid_primitive t = true ∨ is_float t = true ∨ is_decimal t = true → is_primitive t = true;
  is_primitive_bytes t : is_byte_type t = true → is_primitive t = false;
  is_primitive_dictionary k v : is_primitive (TDictionary k v) = false;
  den_len a : vlen (den a) = arr_len a;
  den_type a : vtype (den a) = arr_data_type a;
  arr_size a : (0 <= arr_memory_size a < 2 ^ 63)%Z;
  arr_filter_ok a m :
    List.length m <= arr_len a → ∃ a', arr_filter a m = Some a' ∧ den a' = vfilter (den a) m;
  empty_ok v m : List.length m <= vlen v → count_set_bits m = 0 → den (new_empty_array (vtype v)) = vfilter v m;
  ipc_ok a : ∃ b a', arrow_to_bytes a = Some b ∧ ipc_read b = Some a' ∧ den a' = den a;
  dictionary_u16_ok a k v :
    arr_data_type a = TDictionary k v → as_dictionary_u16 a = true ↔ k = TUInt16;
  arr_depth : ArrayRef → nat;
  child_depth a c : c ∈ child_data a → arr_depth c < arr_depth a;
  gc_ok a a' : view_gc a = Some a' → den a' = den a;
  with_child_ok a cs a' :
    den <$> cs = den <$> child_data a → with_child_data a cs = Some a' → den a' = den a;

  l_size l : (0 <= l_memory_size l < 2 ^ 63)%Z;
  l_ok_mono l v c : l_ok None l v → l_ok (Some c) l v;
  l_len_ok c l v : l_ok c l v → l_len l = vlen v;
  l_type_ok c l v : l_ok c l v → l_original_type l = vtype v;
  l_to_arrow_ok c l v : l_ok c l v → ∃ a, l_to_arrow l = Ret a ∧ den a = v;
  l_filter_ok c l v m :
    l_ok c l v → List.length m <= vlen v → ∃ a, l_filter l m = Ret a ∧ den a = vfilter v m;
  l_try_eval_ok c l v p m :
    l_ok c l v → List.length m <= vlen v →
    ∃ r, l_try_eval l p m = Ret r ∧ (∀ b, r = Some b → b = peval p (vfilter v m));
  l_bytes_ok c l v :
    l_ok c l v →
    ∃ b, l_to_bytes l = Ret b ∧ ∃ l', read_from_bytes b c = Ret l' ∧ l_ok c l' v;
  l_squeeze_ok c l v hint :
    l_ok c l v →
    ∃ r, l_squeeze l hint = Ret r
         ∧ (∀ s b, r = Some (s, b) →
              l_to_bytes l = Ret b ∧ s_ok s v b ∧ s_disk_backing s = BackingLiquid
              ∧ s_as_variant s = None);
  primitive_from_ok a :
    is_liquid_primitive (arr_data_type a) = true →
    ∃ l, primitive_from_arrow (arr_data_type a) a = Ret l ∧ l_ok None l (den a);
  float_from_ok a :
    is_float (arr_data_type a) = true →
    ∃ l, float_from_arrow (arr_data_type a) a = Ret l ∧ l_ok None l (den a);
  decimal_from_ok a c : is_decimal (arr_data_type a) = true → ∃ l, decimal_from_arrow a c = Ret l ∧ l_ok (Some c) l (den a);
  decimal_train_ok a : is_decimal (arr_data_type a) = true → ∃ c l, decimal_train a = Ret (c, l) ∧ l_ok (Some c) l (den a);
  view_from_ok a c o :
    for_data_type (arr_data_type a) (bv_build_fingerprints o) = Ret o →
    ∃ l, view_from_arrow a c o = Ret l ∧ l_ok (Some c) l (den a);
  view_train_ok a o :
    for_data_type (arr_data_type a) (bv_build_fingerprints o) = Ret o →
    ∃ c l, view_train a o = Ret (c, l) ∧ l_ok (Some c) l (den a);

  s_size s : (0 <= s_memory_size s < 2 ^ 63)%Z;
  s_len_ok s v b : s_ok s v b → s_len s = vlen v;
  s_type_ok s v b : s_ok s v b → s_original_type s = vtype v;
  s_to_arrow_ok s v b : s_ok s v b → ∃ a es, s_to_arrow s (Some b) = Ret (a, es) ∧ den a = v;
  s_filter_ok s v b m :
    s_ok s v b → List.length m <= vlen v →
    ∃ a es, s_filter s m (Some b) = Ret (a, es) ∧ den a = vfilter v m;
  s_try_eval_ok s v b p m :
    s_ok s v b → List.length m <= vlen v →
    ∃ r es, s_try_eval s p m (Some b) = Ret (r, es)
            ∧ (∀ x, r = Some x → x = peval p (vfilter v m));
  s_date32_ok s v b f a : s_ok s v b → s_as_date32 s = Some (f, a) → den a = extracted f v
}.
