(* ===== verification/ByteDict.v ===== *)
(** * Dictionaries of byte strings

    What the byte arrays share: [CheckedDictionaryArray] of
    [src/src/storage/src/utils/mod.rs], [build_dict_selection] and the literals of
    [byte_array.rs], the predicates of [byte_view_array/operator.rs], the order of
    byte strings.  Arrow's dictionary builder, its casts and comparison kernels are a
    class with the laws of their documentation. *)

From stdpp Require Import base list.
From Stdlib Require Import ZArith Lia.
From S2P Require Import Prelude Bytes Arrow DataTypes CivilDate Expressions Formats LiquidPrimitive.
Local Open Scope Z_scope.

(** ** The order of byte strings *)

(** [Ord] of [[u8]]. *)
Fixpoint bytes_cmp (a b : Bytes) : comparison :=
  match a, b with
  | [], [] => Eq
  | [], _ :: _ => Lt
  | _ :: _, [] => Gt
  | x :: a, y :: b => match x ?= y with Eq => bytes_cmp a b | c => c end
  end.

Definition bytes_eqb (a b : Bytes) : bool := bool_decide (a = b).

(** [str::from_utf8]: no overlong form, surrogate or value above U+10FFFF. *)
Definition continuation (b : Z) : bool := in_range 0x80 0xBF b.

Fixpoint utf8_ok (fuel : nat) (bytes : Bytes) : bool :=
  match fuel, bytes with
  | _, [] => true
  | O, _ => false
  | S fuel, b :: bytes =>
      if b <? 0x80 then utf8_ok fuel bytes
      else if in_range 0xC2 0xDF b then
        match bytes with c :: bytes => continuation c && utf8_ok fuel bytes | _ => false end
      else if in_range 0xE0 0xEF b then
        match bytes with
        | c :: d :: bytes =>
            in_range (if b =? 0xE0 then 0xA0 else 0x80) (if b =? 0xED then 0x9F else 0xBF) c
            && continuation d && utf8_ok fuel bytes
        | _ => false
        end
      else if in_range 0xF0 0xF4 b then
        match bytes with
        | c :: d :: e :: bytes =>
            in_range (if b =? 0xF0 then 0x90 else 0x80) (if b =? 0xF4 then 0x8F else 0xBF) c
            && continuation d && continuation e && utf8_ok fuel bytes
        | _ => false
        end
      else false
  end.

Definition is_utf8 (bytes : Bytes) : bool := utf8_ok (length bytes) bytes.

(** ** Literals and predicates *)

(** The scalars the source looks at; a null is [None]. *)
Inductive ByteScalar : Type :=
| SUtf8 (v : option Bytes)
| SUtf8View (v : option Bytes)
| SLargeUtf8 (v : option Bytes)
| SBinary (v : option Bytes)
| SBinaryView (v : option Bytes)
| SFixedSizeBinary (size : Z) (v : option Bytes)
| SLargeBinary (v : option Bytes)
| SDictionary (v : ByteScalar)
| SBoolean (v : option bool)
| SOther (code : nat).

Fixpoint get_string_needle (value : ByteScalar) : option Bytes :=
  match value with
  | SUtf8 v | SUtf8View v | SLargeUtf8 v => v
  | SDictionary value => get_string_needle value
  | _ => None
  end.

Fixpoint get_bytes_needle (value : ByteScalar) : option Bytes :=
  match value with
  | SUtf8 v | SUtf8View v | SLargeUtf8 v | SBinary v | SBinaryView v | SFixedSizeBinary _ v | SLargeBinary v => v
  | SDictionary value => get_bytes_needle value
  | _ => None
  end.

Inductive Comparison : Type := CLt | CGt | CLtEq | CGtEq.
Inductive Equality : Type := EEq | ENotEq.
Inductive SubString : Type := Contains | NotContains.

Inductive ByteViewOperator : Type :=
| BComparison (c : Comparison)
| BEquality (e : Equality)
| BSubString (s : SubString).

(** The operators of DataFusion that the source names. *)
Inductive DFByteOperator : Type :=
| DEq | DNotEq | DLt | DLtEq | DGt | DGtEq
| DLikeMatch | DILikeMatch | DNotLikeMatch | DNotILikeMatch
| DOther (code : nat).

(** Whether a value ordered so with the needle is selected. *)
Definition holds (op : Comparison) (ordering : comparison) : bool :=
  match op, ordering with
  | CLt, Lt => true
  | CLt, _ => false
  | CLtEq, (Lt | Eq) => true
  | CLtEq, _ => false
  | CGt, Gt => true
  | CGt, _ => false
  | CGtEq, (Gt | Eq) => true
  | CGtEq, _ => false
  end.

Definition operator_try_from (op : DFByteOperator) : option ByteViewOperator :=
  match op with
  | DEq => Some (BEquality EEq)
  | DNotEq => Some (BEquality ENotEq)
  | DLt => Some (BComparison CLt)
  | DGt => Some (BComparison CGt)
  | DLtEq => Some (BComparison CLtEq)
  | DGtEq => Some (BComparison CGtEq)
  | DLikeMatch => Some (BSubString Contains)
  | DNotLikeMatch => Some (BSubString NotContains)
  | _ => None
  end.

Definition operator_from (op : ByteViewOperator) : DFByteOperator :=
  match op with
  | BComparison CLt => DLt
  | BComparison CGt => DGt
  | BComparison CLtEq => DLtEq
  | BComparison CGtEq => DGtEq
  | BEquality EEq => DEq
  | BEquality ENotEq => DNotEq
  | BSubString Contains => DLikeMatch
  | BSubString NotContains => DNotLikeMatch
  end.

Definition from_like_expr (negated case_insensitive : bool) : option ByteViewOperator :=
  match negated, case_insensitive with
  | false, false => Some (BSubString Contains)
  | true, false => Some (BSubString NotContains)
  | _, _ => None
  end.

(** What the downcasts of a physical expression find; a dynamic filter carries
    what [current] gives, [None] for an error. *)
Inductive BExpr : Type :=
| BLiteral (v : ByteScalar)
| BBinary (left : BExpr) (op : DFByteOperator) (right : BExpr)
| BLike (negated case_insensitive : bool) (expr pattern : BExpr)
| BDynamic (current : option BExpr)
| BOther.

Inductive UnsupportedExpression : Type := UOp | UExpr | UConstant (v : bool).

(** The operator and the literal, or why there is none. *)
Definition unsupported_op {A} (o : option A) : A + UnsupportedExpression :=
  match o with Some a => inl a | None => inr UOp end.

Definition byte_view_expression (expr : BExpr)
    : outcome ((ByteViewOperator * Bytes) + UnsupportedExpression) :=
  expr ← (match expr with BDynamic current => expect current | _ => Ret expr end);
  Ret (match expr with
       | BLiteral (SBoolean (Some v)) => inr (UConstant v)
       | BBinary _ op (BLiteral literal) =>
           match operator_try_from op with
           | None => inr UOp
           | Some op =>
               match get_bytes_needle literal with None => inr UExpr | Some needle => inl (op, needle) end
           end
       | BLike negated case_insensitive _ (BLiteral literal) =>
           match from_like_expr negated case_insensitive with
           | None => inr UOp
           | Some op =>
               match get_bytes_needle literal with None => inr UExpr | Some needle => inl (op, needle) end
           end
       | _ => inr UExpr
       end).

(** ** Dictionaries *)

(** [DictionaryArray<UInt16Type>] of strings or of binaries, no value null. *)
Record DictionaryArray `{NullBuffers} : Type := Dictionary {
  dict_keys : PrimitiveArray;
  dict_values : list Bytes;
  dict_utf8 : bool
}.
Arguments DictionaryArray {_}.
Arguments Dictionary {_} dict_keys dict_values dict_utf8.
Arguments dict_keys {_} d.
Arguments dict_values {_} d.
Arguments dict_utf8 {_} d.

(** The content: the value of each valid key. *)
Definition dict_lookup (values : list Bytes) (key : Z) : option Bytes := values !! Z.to_nat key.

Definition dict_logical `{NullBuffers} (d : DictionaryArray) : list (option Bytes) :=
  (λ key, key ≫= dict_lookup (dict_values d)) <$> pa_logical (dict_keys d).

(** A column of strings or binaries: its content. *)
Definition ByteColumn : Type := list (option Bytes).

(** Arrow's kernels: the dictionary builder ([None]: more than 65,536 values),
    an array of keys from an iterator, [cast], and [apply_cmp] with a scalar. *)
Class ByteKernels `{NullBuffers} : Type := {
  build_dictionary : ByteColumn -> option (PrimitiveArray * list Bytes);
  keys_from_iter : list (option Z) -> PrimitiveArray;
  cast_dictionary : DictionaryArray -> DataType -> option ByteColumn;
  dictionary_cmp : DFByteOperator -> DictionaryArray -> ByteScalar -> option BooleanArray;
  strings_cmp : DFByteOperator -> list Bytes -> ByteScalar -> option BooleanArray;
  keys_eq : PrimitiveArray -> Z -> BooleanArray
}.

(** [contains] on byte strings. *)
Fixpoint is_prefix (p s : Bytes) : bool :=
  match p, s with
  | [], _ => true
  | x :: p, y :: s => (x =? y) && is_prefix p s
  | _ :: _, [] => false
  end.

Fixpoint contains_bytes (p s : Bytes) : bool :=
  is_prefix p s || match s with [] => false | _ :: s => contains_bytes p s end.

(** The answer of an operator on a string. *)
Definition answer (op : ByteViewOperator) (needle v : Bytes) : bool :=
  match op with
  | BComparison c => holds c (bytes_cmp v needle)
  | BEquality EEq => bytes_eqb v needle
  | BEquality ENotEq => negb (bytes_eqb v needle)
  | BSubString Contains => contains_bytes needle v
  | BSubString NotContains => negb (contains_bytes needle v)
  end.

(** A comparison or an equality with a literal. *)
Definition decidable_op (op : ByteViewOperator) : bool := match op with BSubString _ => false | _ => true end.

(** A pattern without wildcards and escapes. *)
Definition plain_pattern (p : Bytes) : Prop := Forall (λ b, b ≠ 37 /\ b ≠ 95 /\ b ≠ 92) p.

(** What a dictionary builder makes of a column: distinct values of the column,
    and for each valid row the position of its value. *)
Record dictionary_of `{NullBuffers} {A} (col : list (option A)) (keys : PrimitiveArray) (values : list A) : Prop := {
  do_wf : pa_wf keys;
  do_column : (λ key, key ≫= λ k, values !! Z.to_nat k) <$> pa_logical keys = col;
  do_distinct : NoDup values;
  do_range : Forall (λ k, k = 0 \/ 0 <= k < Z.of_nat (length values)) (pa_values keys);
  do_length : (length values <= length (omap (λ o, o) col))%nat;
  do_count : Z.of_nat (length values) <= 2 ^ 16;
  do_in v : v ∈ values -> Some v ∈ col;
  do_valid : Forall (λ k, 0 <= k < Z.of_nat (length values)) (valid_values (pa_logical keys))
}.

Class ByteKernelLaws `{ByteKernels} : Prop := {
  build_dictionary_ok col keys values : build_dictionary col = Some (keys, values) -> dictionary_of col keys values;
  build_dictionary_some col : Z.of_nat (length col) <= 2 ^ 16 -> is_Some (build_dictionary col);
  keys_from_iter_ok l : pa_wf (keys_from_iter l) /\ pa_logical (keys_from_iter l) = l
    /\ ∀ k, k ∈ pa_values (keys_from_iter l) -> k = 0 \/ Some k ∈ l;
  cast_dictionary_ok d t :
    Forall (λ k, 0 <= k < Z.of_nat (length (dict_values d))) (valid_values (pa_logical (dict_keys d))) ->
    is_byte_type t = true -> cast_dictionary d t = Some (dict_logical d);
  strings_like_ok values p :
    plain_pattern p ->
    strings_cmp DLikeMatch values (SUtf8 (Some ([37] ++ p ++ [37])))
    = Some ((λ v, Some (contains_bytes p v)) <$> values);
  keys_eq_ok keys k :
    pa_wf keys -> keys_eq keys k = option_map (λ v, v =? k) <$> pa_logical keys;
  dictionary_cmp_ok d op o needle :
    Forall (λ k, 0 <= k < Z.of_nat (length (dict_values d))) (valid_values (pa_logical (dict_keys d))) ->
    dict_utf8 d = true -> operator_try_from op = Some o -> decidable_op o = true ->
    dictionary_cmp op d (SUtf8 (Some needle)) = Some (option_map (answer o needle) <$> dict_logical d)
}.

Section dictionaries.
Context `{NullBuffers} {BK : ByteKernels}.

(** ** [CheckedDictionaryArray] *)

(** [byte_array_to_dict_array], on the items of any byte array; the builder
    panics when the keys overflow. *)
Definition byte_array_to_dict_array (utf8 : bool) (input : ByteColumn) : outcome DictionaryArray :=
  '(keys, values) ← expect (build_dictionary input); Ret (Dictionary keys values utf8).

Definition gc_dictionary_array (array : DictionaryArray) : outcome DictionaryArray :=
  byte_array_to_dict_array (dict_utf8 array) (dict_logical array).

Definition bit_width_for_key (d : DictionaryArray) : Z := BitPack.get_bit_width (Z.of_nat (length (dict_values d))).

(** ** [build_dict_selection] *)

(** The positions of the dictionary that some valid key hits. *)
Definition hit_positions (keys : PrimitiveArray) (dict_len : nat) : list nat :=
  List.filter (λ i, bool_decide (Z.of_nat i ∈ valid_values (pa_logical keys))) (seq 0 dict_len).

(** [key_map]: the number of a position among the selected ones, in 16 bits. *)
Fixpoint number_of (offset : Z) (selected : list nat) (i : nat) : option Z :=
  match selected with
  | [] => None
  | j :: selected => if (j =? i)%nat then Some (wrapu 16 offset) else number_of (offset + 1) selected i
  end.

(** A key outside of the dictionary panics, on the mask or on the map. *)
Definition renumber (selected : list nat) (key : option Z) : outcome (option Z) :=
  match key with
  | None => Ret None
  | Some v => k ← expect (number_of 0 selected (Z.to_nat v)); Ret (Some k)
  end.

Fixpoint renumber_all (selected : list nat) (keys : list (option Z)) : outcome (list (option Z)) :=
  match keys with
  | [] => Ret []
  | key :: keys => k ← renumber selected key; ks ← renumber_all selected keys; Ret (k :: ks)
  end.

Definition build_dict_selection (keys : PrimitiveArray) (dict_len : nat) : outcome (list nat * PrimitiveArray) :=
  let selected := hit_positions keys dict_len in
  new_keys ← renumber_all selected (pa_logical keys);
  Ret (selected, keys_from_iter new_keys).

(** ** Fingerprints *)

Definition FINGERPRINT_BUCKETS : Z := 32.
Definition FINGERPRINT_MASK : Z := FINGERPRINT_BUCKETS - 1.

Definition fingerprint_of (bytes : Bytes) : Z :=
  foldl (λ bits byte, Z.lor bits (Z.shiftl 1 (Z.land byte FINGERPRINT_MASK))) 0 bytes.

Definition might_contain (self needle : Z) : bool := Z.land self needle =? needle.

Definition build_fingerprints (values : list Bytes) : list Z := fingerprint_of <$> values.

(** The inside of a pattern [%..%] without other wildcards. *)
Definition substring_pattern_bytes (pattern : Bytes) : option Bytes :=
  if (length pattern <? 2)%nat then None
  else if negb (nth 0 pattern 0 =? 37) || negb (nth (length pattern - 1) pattern 0 =? 37) then None
  else
    let inner := take (length pattern - 2) (drop 1 pattern) in
    if bool_decide (inner = []) then None
    else if existsb (λ b, (b =? 37) || (b =? 95)) inner then None
    else Some inner.
End dictionaries.

(** ** Lemmas on byte strings *)

Lemma bytes_cmp_eq a b : bytes_cmp a b = Eq <-> a = b.
Proof.
  revert b. induction a as [|x a IH]; intros [|y b]; cbn; try done.
  case Z.compare_spec; intros Hxy; [|split; [done|intros [= ? ?]; lia]..].
  rewrite IH. subst. split; [by intros ->|by intros [=]].
Qed.

Lemma bytes_cmp_refl a : bytes_cmp a a = Eq.
Proof. by apply bytes_cmp_eq. Qed.

(** A common prefix does not matter. *)
Lemma bytes_cmp_app p a b : bytes_cmp (p ++ a) (p ++ b) = bytes_cmp a b.
Proof. induction p as [|x p IH]; [done|]. cbn. by rewrite Z.compare_refl. Qed.

(** A difference within the first [n] bytes decides. *)
Lemma bytes_cmp_take n a b : bytes_cmp (take n a) (take n b) ≠ Eq -> bytes_cmp a b = bytes_cmp (take n a) (take n b).
Proof.
  revert a b. induction n as [|n IH]; intros [|x a] [|y b]; cbn; try done.
  case Z.compare_spec; intros Hxy Hne; try done. by apply IH.
Qed.

Lemma bytes_cmp_nil_l b : b ≠ [] -> bytes_cmp [] b = Lt.
Proof. by destruct b. Qed.

(** ** An instance of the kernels *)

Section list_dictionary.
Context {A : Type} `{EqDecision A}.

Definition position_of (v : A) (values : list A) : nat := default 0%nat (fst <$> list_find (v =.) values).

Lemma position_ok v values : v ∈ values -> values !! position_of v values = Some v.
Proof.
  intros Hv. unfold position_of. destruct (list_find_elem_of (v =.) values v Hv eq_refl) as [[i x] E]. rewrite E. cbn.
  apply list_find_Some in E as (-> & -> & _). done.
Qed.

Lemma remove_dups_length (l : list A) : (length (remove_dups l) <= length l)%nat.
Proof. induction l as [|x l IH]; [done|]. cbn. destruct (decide_rel _ x l); cbn; lia. Qed.

Lemma prim_of_options {B} (f : B -> Z) (g : option B -> Z) (l : list (option B)) :
  (∀ x, g (Some x) = f x) ->
  pa_logical (H := list_null_buffers) (Prim (g <$> l) (Some ((λ o, bool_decide (is_Some o)) <$> l : list bool)))
  = option_map f <$> l.
Proof.
  intros Hg. unfold pa_logical, logical, mask_values. cbn. induction l as [|o l IH]; [done|]. cbn. rewrite IH.
  destruct o as [x|]; [by rewrite Hg|done].
Qed.

(** A dictionary of the distinct values of a column; 16-bit keys overflow. *)
Definition list_dictionary (col : list (option A)) : option (PrimitiveArray * list A) :=
  let values := remove_dups (omap (λ o, o) col) in
  if decide (Z.of_nat (length values) <= 2 ^ 16) then
    Some (Prim (from_option (λ v, Z.of_nat (position_of v values)) 0 <$> col)
            (Some ((λ o, bool_decide (is_Some o)) <$> col : list bool)), values)
  else None.

Lemma list_dictionary_ok col keys values :
  list_dictionary col = Some (keys, values) -> dictionary_of col keys values.
Proof.
  unfold list_dictionary. set (vs := remove_dups _). case_decide as Hs; [|done]. intros [= <- <-].
  assert (∀ v, v ∈ vs <-> Some v ∈ col) as Hin.
  { intros v. unfold vs. rewrite elem_of_remove_dups, list_elem_of_omap. split; [by intros (o & Ho & ->)|by exists (Some v)]. }
  split.
  - unfold pa_wf. cbn. by rewrite !length_fmap.
  - rewrite (prim_of_options (λ v, Z.of_nat (position_of v vs))) by done. rewrite <- list_fmap_compose.
    rewrite <- (list_fmap_id col) at 2. apply list_fmap_ext. intros i [v|] Hi; [|done]. cbn.
    rewrite Nat2Z.id. apply position_ok, Hin. by eapply list_elem_of_lookup_2.
  - apply NoDup_remove_dups.
  - cbn. apply Forall_fmap, Forall_forall. intros [v|] Hv; [right|by left]. cbn. split; [lia|].
    apply Nat2Z.inj_lt. eapply lookup_lt_Some, position_ok. by apply Hin.
  - apply remove_dups_length.
  - done.
  - intros v. apply Hin.
  - rewrite (prim_of_options (λ v, Z.of_nat (position_of v vs))) by done. apply Forall_forall.
    intros k ([v|] & Hk & Hv)%valid_in%list_elem_of_fmap; [|done]. injection Hk as ->. split; [lia|].
    apply Nat2Z.inj_lt. eapply lookup_lt_Some, position_ok. by apply Hin.
Qed.

Lemma list_dictionary_some col : Z.of_nat (length col) <= 2 ^ 16 -> is_Some (list_dictionary col).
Proof.
  intros Hl. unfold list_dictionary. rewrite decide_True; [by eexists|]. pose proof (remove_dups_length (omap (λ o, o) col)).
  assert (length (omap (λ o, o) col) <= length col)%nat; [|lia].
  clear. induction col as [|[v|] col IH]; cbn; lia.
Qed.
End list_dictionary.

(** The inside of [%..%]. *)
Definition like_inner (p : Bytes) : Bytes := take (length p - 2) (drop 1 p).

#[export] Instance list_byte_kernels : ByteKernels := {
  build_dictionary := list_dictionary;
  keys_from_iter l := Prim (default 0 <$> l) (Some ((λ o, bool_decide (is_Some o)) <$> l : list bool));
  cast_dictionary d t := if is_byte_type t then Some (dict_logical d) else None;
  dictionary_cmp op d needle :=
    match operator_try_from op, needle with
    | Some o, SUtf8 (Some needle) =>
        if decidable_op o && dict_utf8 d then Some (option_map (answer o needle) <$> dict_logical d) else None
    | _, _ => None
    end;
  strings_cmp op values needle :=
    match op, needle with
    | DLikeMatch, SUtf8 (Some p) => Some ((λ v, Some (contains_bytes (like_inner p) v)) <$> values)
    | _, _ => None
    end;
  keys_eq keys k := option_map (λ v, v =? k) <$> pa_logical keys
}.

#[export] Instance list_byte_kernel_laws : ByteKernelLaws.
Proof.
  split.
  - apply list_dictionary_ok.
  - apply list_dictionary_some.
  - intros l. split_and!.
    + unfold pa_wf. cbn. by rewrite !length_fmap.
    + cbn. rewrite (prim_of_options id) by done. rewrite <- (list_fmap_id l) at 2. apply list_fmap_ext.
      by intros _ [k|] _.
    + intros k (o & -> & Ho)%list_elem_of_fmap. destruct o as [k|]; [by right|by left].
  - intros d t _ E. cbn. by rewrite E.
  - intros values p _. cbn -[like_inner].
    assert (like_inner (37 :: p ++ [37]) = p) as ->; [|done]. unfold like_inner. rewrite skipn_cons, drop_0.
    rewrite take_app_length'; [done|]. cbn [length]. rewrite length_app. cbn [length]. lia.
  - done.
  - intros d op o needle _ Hu Ho Hd. cbn. by rewrite Ho, Hd, Hu.
Qed.
