(* ===== verification/ByteView.v ===== *)
(** * Byte view arrays

    Model of [LiquidByteViewArray] in [src/src/storage/src/liquid_array/byte_view_array/]
    ([mod.rs], [conversions.rs], [comparisons.rs], [helpers.rs], [serialization.rs]):
    a dictionary of FSST-compressed strings with the prefix shared by all of them,
    seven bytes and the length of each suffix, and optional fingerprints.  The
    compressed strings are in memory ([FsstArray]) or on disk ([DiskBuffer]). *)

From stdpp Require Import base list.
From Stdlib Require Import ZArith Lia.
From S2P Require Import Prelude Bytes Arrow BitPack DataTypes Ipc CivilDate Expressions Formats.
From S2P Require Import LiquidPrimitive CompactOffsets Fsst ByteDict.
Local Open Scope Z_scope.

Section byte_view.
Context `{NullBuffers} `{Fastlanes} {PK : PrimitiveKernels} {FL : FsstLib} {BK : ByteKernels}.

Record DiskBuffer : Type := Disk {
  db_uncompressed_bytes : Z;
  db_disk_range : nat * nat;
  db_compressor : FsstCompressor
}.

Record LiquidByteViewArray (B : Type) : Type := ByteView {
  dictionary_keys : PrimitiveArray;
  prefix_keys : list PrefixKey;
  fsst_buffer : B;
  original_arrow_type : ArrowByteType;
  shared_prefix : Bytes;
  string_fingerprints : option (list Z)
}.
Arguments ByteView {B}.
Arguments dictionary_keys {B}.
Arguments prefix_keys {B}.
Arguments fsst_buffer {B}.
Arguments original_arrow_type {B}.
Arguments shared_prefix {B}.
Arguments string_fingerprints {B}.

Definition bv_len {B} (a : LiquidByteViewArray B) : nat := length (pa_values (dictionary_keys a)).

Definition bv_nulls {B} (a : LiquidByteViewArray B) : option Arrow.NullBuffer := pa_nulls (dictionary_keys a).

(** ** Building *)

Fixpoint common_len (a b : Bytes) : nat :=
  match a, b with x :: a, y :: b => if x =? y then S (common_len a b) else 0 | _, _ => 0 end.

(** The first value, cut to what the others share; it stops once it is empty. *)
Fixpoint truncate_prefix (prefix : Bytes) (values : list Bytes) : Bytes :=
  match values with
  | [] => prefix
  | value :: values =>
      let prefix := take (common_len prefix value) prefix in
      if bool_decide (prefix = []) then prefix else truncate_prefix prefix values
  end.

Definition shared_prefix_of (values : list Bytes) : Bytes :=
  match values with [] => [] | value :: values => truncate_prefix value values end.

Definition remaining_bytes (shared_prefix_len : nat) (value : Bytes) : Bytes :=
  if (shared_prefix_len <? length value)%nat then drop shared_prefix_len value else [].

Definition bv_from_dict_array_inner (dict : DictionaryArray) (compressor : FsstCompressor)
    (options : ByteViewBuildOptions) : outcome (LiquidByteViewArray FsstArray) :=
  let values := dict_values dict in
  let shared_prefix := shared_prefix_of values in
  let '(raw_fsst_buffer, byte_offsets) := from_byte_slices compressor (Some <$> values) in
  let prefix_keys := (λ value, prefix_key_new (remaining_bytes (length shared_prefix) value)) <$> values in
  let fingerprints := if bv_build_fingerprints options then Some (fingerprint_of <$> values) else None in
  if negb (length values =? length byte_offsets - 1)%nat then Panic
  else
    Ret (ByteView (dict_keys dict) prefix_keys (from_byte_offsets raw_fsst_buffer byte_offsets compressor)
           (bv_arrow_type options) shared_prefix fingerprints).

(** From a byte array or a view array, with or without training. *)
Definition bv_from_byte_array_inner (utf8 : bool) (array : ByteColumn) (compressor : FsstCompressor)
    (options : ByteViewBuildOptions) : outcome (LiquidByteViewArray FsstArray) :=
  dict ← byte_array_to_dict_array utf8 array; bv_from_dict_array_inner dict compressor options.

Definition train_compressor (array : ByteColumn) : FsstCompressor := fsst_train (omap (λ item, item) array).

Definition train_from_view_inner (utf8 : bool) (array : ByteColumn) (options : ByteViewBuildOptions)
    : outcome (FsstCompressor * LiquidByteViewArray FsstArray) :=
  let compressor := train_compressor array in
  a ← bv_from_byte_array_inner utf8 array compressor options; Ret (compressor, a).

Definition train_from_arrow_inner (utf8 : bool) (array : ByteColumn) (options : ByteViewBuildOptions)
    : outcome (FsstCompressor * LiquidByteViewArray FsstArray) :=
  dict ← byte_array_to_dict_array utf8 array;
  let compressor := train_compressor (Some <$> dict_values dict) in
  a ← bv_from_dict_array_inner dict compressor options; Ret (compressor, a).

Definition train_from_arrow_dict_inner (array : DictionaryArray) (options : ByteViewBuildOptions)
    : outcome (FsstCompressor * LiquidByteViewArray FsstArray) :=
  let compressor := train_compressor (Some <$> dict_values array) in
  dict ← gc_dictionary_array array;
  a ← bv_from_dict_array_inner dict compressor options; Ret (compressor, a).

(** ** Reading *)

Definition should_decompress_keyed {B} (a : LiquidByteViewArray B) : bool :=
  (bv_len a <? 2048)%nat || (bv_len a <? length (prefix_keys a))%nat.

Definition to_dict_arrow_inner {B} (a : LiquidByteViewArray B) (keys : PrimitiveArray) (values : list Bytes)
    : DictionaryArray :=
  Dictionary keys values (is_string (original_arrow_type a)).

Definition to_dict_arrow_decompress_all (a : LiquidByteViewArray FsstArray) : outcome DictionaryArray :=
  values ← to_uncompressed (fsst_buffer a); Ret (to_dict_arrow_inner a (dictionary_keys a) values).

Definition to_dict_arrow_decompress_keyed (a : LiquidByteViewArray FsstArray) : outcome DictionaryArray :=
  '(selected, new_keys) ← build_dict_selection (dictionary_keys a) (length (prefix_keys a));
  values ← to_uncompressed_selected (fsst_buffer a) selected;
  Ret (to_dict_arrow_inner a new_keys values).

Definition to_dict_arrow (a : LiquidByteViewArray FsstArray) : outcome DictionaryArray :=
  if should_decompress_keyed a then to_dict_arrow_decompress_keyed a else to_dict_arrow_decompress_all a.

Definition bv_to_arrow_array (a : LiquidByteViewArray FsstArray) : outcome ByteColumn :=
  dict ← to_dict_arrow a; expect (cast_dictionary dict (to_arrow_type (original_arrow_type a))).

(** Only the keys are filtered. *)
Definition bv_filter_inner {B} (a : LiquidByteViewArray B) (filter : list bool) : outcome (LiquidByteViewArray B) :=
  keys ← expect (prim_filter (dictionary_keys a) filter);
  Ret (ByteView keys (prefix_keys a) (fsst_buffer a) (original_arrow_type a) (shared_prefix a)
         (string_fingerprints a)).

Definition bv_filter (a : LiquidByteViewArray FsstArray) (selection : list bool) : outcome ByteColumn :=
  filtered ← bv_filter_inner a selection; bv_to_arrow_array filtered.

(** ** Bytes *)

Record ByteViewArrayHeader : Type := ViewHeader {
  keys_size : Z;
  compact_offsets_size : Z;
  shared_prefix_size : Z;
  fsst_raw_size : Z;
  fingerprint_size : Z
}.

Definition view_header_size : nat := 20.

Definition view_header_to_bytes (h : ByteViewArrayHeader) : Bytes :=
  le_bytes 4 (keys_size h) ++ le_bytes 4 (compact_offsets_size h) ++ le_bytes 4 (shared_prefix_size h)
  ++ le_bytes 4 (fsst_raw_size h) ++ le_bytes 4 (fingerprint_size h).

Definition view_header_from_bytes (bytes : Bytes) : outcome ByteViewArrayHeader :=
  if (length bytes <? view_header_size)%nat then Panic
  else
    Ret (ViewHeader (le_val (take 4 bytes)) (le_val (take 4 (drop 4 bytes))) (le_val (take 4 (drop 8 bytes)))
           (le_val (take 4 (drop 12 bytes))) (le_val (take 4 (drop 16 bytes)))).

(** Zeros up to a multiple of eight. *)
Definition pad8 (result : Bytes) : Bytes := result ++ replicate (align8 (length result) - length result) 0.

Definition prefix_key_bytes (k : PrefixKey) : Bytes := prefix7 k ++ [len_byte k].

Definition fingerprint_bytes {B} (a : LiquidByteViewArray B) : Bytes :=
  match string_fingerprints a with Some f => concat (le_bytes 4 <$> f) | None => [] end.

Definition bv_to_bytes (a : LiquidByteViewArray FsstArray) : Bytes :=
  let header_size := (header_size + view_header_size)%nat in
  let result := pad8 (replicate header_size 0) in
  let fsst_raw_bytes := raw_to_bytes (fa_raw (fsst_buffer a)) in
  let result := pad8 (result ++ fsst_raw_bytes) in
  let keys_bytes := bp_to_bytes 16 (bp_from_primitive 16 (dictionary_keys a) 16) in
  let result := pad8 (result ++ keys_bytes) in
  let offsets_bytes := write_residuals (fa_compact_offsets (fsst_buffer a)) in
  let result := pad8 (result ++ offsets_bytes) in
  let result := pad8 (result ++ concat (prefix_key_bytes <$> prefix_keys a)) in
  let result := pad8 (result ++ shared_prefix a) in
  let result := result ++ fingerprint_bytes a in
  let ipc := header_new (liquid_data_type_code LByteViewArray) (arrow_byte_type_code (original_arrow_type a)) in
  let view_header :=
    ViewHeader (zlen keys_bytes) (zlen offsets_bytes) (zlen (shared_prefix a)) (zlen fsst_raw_bytes)
      (zlen (default [] (string_fingerprints a)) * 4) in
  header_to_bytes ipc ++ view_header_to_bytes view_header ++ drop header_size result.

(** The next part of the buffer, from the aligned cursor on, and the new cursor. *)
Definition read_part (bytes : Bytes) (cursor size : nat) : outcome (Bytes * nat) :=
  let start := align8 cursor in
  if (length bytes <? start + size)%nat then Panic else Ret (take size (drop start bytes), (start + size)%nat).

Fixpoint prefix_keys_of (n : nat) (bytes : Bytes) : list PrefixKey :=
  match n with O => [] | S n => Prefix (take 7 bytes) (nth 7 bytes 0) :: prefix_keys_of n (drop 8 bytes) end.

Definition decode_prefix_keys (bytes : Bytes) : outcome (list PrefixKey) :=
  if negb (length bytes mod 8 =? 0)%nat then Panic else Ret (prefix_keys_of (length bytes / 8) bytes).

Definition bv_from_bytes (bytes : Bytes) (compressor : FsstCompressor) : outcome (LiquidByteViewArray FsstArray) :=
  ipc ← header_from_bytes bytes;
  arrow_type ← arrow_byte_type_of_code (physical_type ipc);
  let header_size := (header_size + view_header_size)%nat in
  view ← slice bytes Ipc.header_size view_header_size;
  view_header ← view_header_from_bytes view;
  '(fsst_raw, cursor) ← read_part bytes header_size (Z.to_nat (fsst_raw_size view_header));
  raw_buffer ← raw_from_bytes fsst_raw;
  '(keys_data, cursor) ← read_part bytes cursor (Z.to_nat (keys_size view_header));
  bit_packed ← bp_from_bytes 16 keys_data;
  keys ← bp_to_primitive 16 bit_packed;
  '(chunk, cursor) ← read_part bytes cursor (Z.to_nat (compact_offsets_size view_header));
  compact_offsets ←
    (if 0 <? compact_offsets_size view_header then decode_compact_offsets chunk else Ret empty_compact_offsets);
  let prefix_count := (co_len compact_offsets - 1)%nat in
  '(prefix_bytes, cursor) ← read_part bytes cursor (prefix_count * 8);
  prefixes ← decode_prefix_keys prefix_bytes;
  '(shared, cursor) ← read_part bytes cursor (Z.to_nat (shared_prefix_size view_header));
  '(fingerprint_data, _) ← read_part bytes cursor (Z.to_nat (fingerprint_size view_header));
  fingerprints ←
    (if fingerprint_size view_header =? 0 then Ret None
     else if negb (fingerprint_size view_header mod 4 =? 0) then Panic
     else if negb (fingerprint_size view_header =? Z.of_nat prefix_count * 4) then Panic
     else Ret (Some (words_of 4 (length fingerprint_data / 4) fingerprint_data)));
  Ret (ByteView keys prefixes (Fsst compressor raw_buffer compact_offsets) arrow_type shared fingerprints).

(** ** Squeezing *)

(** The fingerprints are built when the hint asks for them; the strings go to
    disk. *)
Definition bv_squeeze (squeeze_hint : option Hint) (a : LiquidByteViewArray FsstArray)
    : outcome (option (LiquidByteViewArray DiskBuffer * Bytes)) :=
  match squeeze_hint with
  | None => Ret None
  | Some hint =>
      fingerprints ←
        (match hint with
         | SubstringSearch =>
             match string_fingerprints a with
             | Some f => Ret (Some f)
             | None => values ← to_uncompressed (fsst_buffer a); Ret (Some (build_fingerprints values))
             end
         | _ => Ret None
         end);
      let bytes := bv_to_bytes a in
      let disk :=
        Disk (fa_uncompressed_bytes (fsst_buffer a)) (0%nat, length bytes) (fa_compressor (fsst_buffer a)) in
      Ret (Some (ByteView (dictionary_keys a) (prefix_keys a) disk (original_arrow_type a) (shared_prefix a)
                   fingerprints, bytes))
  end.

(** [self.io.read(Some(range))] and [from_bytes]. *)
Definition hydrate (d : DiskBuffer) : SqueezeIo (LiquidByteViewArray FsstArray) := λ backing,
  file ← expect backing;
  let '(from, to) := db_disk_range d in
  bytes ← slice file from (to - from);
  a ← bv_from_bytes bytes (db_compressor d);
  Ret (a, [SqRead (Z.of_nat (to - from))]).

Definition disk_to_uncompressed (d : DiskBuffer) : SqueezeIo (list Bytes) := λ backing,
  '(a, events) ← hydrate d backing;
  values ← to_uncompressed (fsst_buffer a);
  Ret (values, events).

Definition disk_to_uncompressed_selected (d : DiskBuffer) (selected : list nat) : SqueezeIo (list Bytes) := λ backing,
  '(a, events) ← hydrate d backing;
  values ← to_uncompressed_selected (fsst_buffer a) selected;
  Ret (values, events ++ [SqDecompress (zlen selected) (zlen (prefix_keys a))]).

Definition disk_to_dict_arrow (a : LiquidByteViewArray DiskBuffer) : SqueezeIo DictionaryArray := λ backing,
  if should_decompress_keyed a then
    '(selected, new_keys) ← build_dict_selection (dictionary_keys a) (length (prefix_keys a));
    '(values, events) ← disk_to_uncompressed_selected (fsst_buffer a) selected backing;
    Ret (to_dict_arrow_inner a new_keys values, events)
  else
    '(values, events) ← disk_to_uncompressed (fsst_buffer a) backing;
    Ret (to_dict_arrow_inner a (dictionary_keys a) values, events).

(** [to_arrow_array] of a filtered array; the trait's reads the whole one back. *)
Definition disk_filtered_to_arrow (a : LiquidByteViewArray DiskBuffer) : SqueezeIo ByteColumn := λ backing,
  '(dict, events) ← disk_to_dict_arrow a backing;
  column ← expect (cast_dictionary dict (to_arrow_type (original_arrow_type a)));
  Ret (column, events).

Definition disk_to_arrow_array (a : LiquidByteViewArray DiskBuffer) : SqueezeIo ByteColumn := λ backing,
  '(hydrated, events) ← hydrate (fsst_buffer a) backing;
  column ← bv_to_arrow_array hydrated;
  Ret (column, events).

Definition disk_filter (a : LiquidByteViewArray DiskBuffer) (selection : list bool) : SqueezeIo ByteColumn := λ backing,
  if (count_set_bits selection =? 0)%nat then Ret ([], [])
  else filtered ← bv_filter_inner a selection; disk_filtered_to_arrow filtered backing.
End byte_view.
Arguments LiquidByteViewArray {_} B.
Arguments ByteView {_ B}.
Arguments dictionary_keys {_ B}.
Arguments prefix_keys {_ B}.
Arguments fsst_buffer {_ B}.
Arguments original_arrow_type {_ B}.
Arguments shared_prefix {_ B}.
Arguments string_fingerprints {_ B}.
