(* ===== verification/ByteCompare.v ===== *)
(** * Predicates on byte view arrays

    Model of [comparisons.rs] and [helpers.rs] in
    [src/src/storage/src/liquid_array/byte_view_array/]: a comparison is decided for
    each dictionary value from the shared prefix, the prefix key and the
    fingerprint; only what they leave open is decompressed (and, for the array on
    disk, read).  The answers are then spread over the rows by an unchecked
    access. *)

From stdpp Require Import base list.
From Stdlib Require Import ZArith Lia.
From S2P Require Import Prelude Bytes Arrow BitPack DataTypes Ipc CivilDate Expressions Formats.
From S2P Require Import LiquidPrimitive CompactOffsets Fsst ByteDict ByteView.
Local Open Scope Z_scope.

Section compare.
Context `{NullBuffers} `{Fastlanes} {PK : PrimitiveKernels} {FL : FsstLib} {BK : ByteKernels}.

(** ** Prefix keys *)

Definition known_len (k : PrefixKey) : option nat :=
  if len_byte k =? 255 then None else Some (Z.to_nat (len_byte k)).

(** [prefix7()[..n] == suffix[..n]]. *)
Definition same_prefix (n : nat) (k : PrefixKey) (suffix : Bytes) : bool :=
  bytes_eqb (take n (prefix7 k)) (take n suffix).

Definition length_gate (needle_len : nat) (k : PrefixKey) : bool :=
  match known_len k with Some l => (l =? needle_len)%nat | None => (255 <=? needle_len)%nat end.

Definition starts_with_shared {B} (a : LiquidByteViewArray B) (needle : Bytes) : bool :=
  (length (shared_prefix a) <=? length needle)%nat
  && bytes_eqb (take (length (shared_prefix a)) needle) (shared_prefix a).

Definition bytes_cmp_short (left right : Bytes) (len : nat) : comparison :=
  match len with O => Eq | _ => bytes_cmp (take len left) (take len right) end.

Definition bytes_cmp_short_auto (left right : Bytes) : comparison :=
  let len := Nat.min (length left) (length right) in
  match bytes_cmp_short left right len with
  | Eq => Nat.compare (length left) (length right)
  | ordering => ordering
  end.

Definition compare_with_shared_prefix {B} (a : LiquidByteViewArray B) (needle : Bytes) (op : Comparison) : option bool :=
  let needle_shared_len := Nat.min (length needle) (length (shared_prefix a)) in
  match bytes_cmp (take needle_shared_len (shared_prefix a)) (take needle_shared_len needle) with
  | Lt => Some (match op with CLt | CLtEq => true | CGt | CGtEq => false end)
  | Gt => Some (match op with CLt | CLtEq => false | CGt | CGtEq => true end)
  | Eq =>
      if (length needle <? length (shared_prefix a))%nat
      then Some (match op with CGt | CGtEq => true | CLt => false | CLtEq => false end)
      else None
  end.

(** The answer for one key, [None] when it is open. *)
Definition compare_key (op : Comparison) (needle_suffix : Bytes) (k : PrefixKey) : option bool :=
  let cmp_len := Nat.min (length needle_suffix) prefix_len in
  if (cmp_len =? 0)%nat then
    let is_empty_suffix := len_byte k =? 0 in
    Some (match op with CLt => false | CLtEq => is_empty_suffix | CGt => negb is_empty_suffix | CGtEq => true end)
  else
    match bytes_cmp_short (prefix7 k) needle_suffix cmp_len with
    | Lt => Some (match op with CLt | CLtEq => true | CGt | CGtEq => false end)
    | Gt => Some (match op with CLt | CLtEq => false | CGt | CGtEq => true end)
    | Eq => None
    end.

(** [false] where an answer is open. *)
Definition decided (answers : list (option bool)) : list bool := default false <$> answers.

Definition open_positions (answers : list (option bool)) : list nat :=
  List.filter (λ i, bool_decide (answers !! i = Some None)) (seq 0 (length answers)).

Definition compare_with_prefix {B} (a : LiquidByteViewArray B) (needle : Bytes) (op : Comparison)
    : list bool * list nat :=
  match compare_with_shared_prefix a needle op with
  | Some result => (replicate (bv_len a) result, [])
  | None =>
      let answers := compare_key op (drop (length (shared_prefix a)) needle) <$> prefix_keys a in
      (decided answers, open_positions answers)
  end.

(** The same for equality. *)
Definition equals_key (needle_suffix : Bytes) (k : PrefixKey) : option bool :=
  if length_gate (length needle_suffix) k then
    match known_len k with
    | None => if same_prefix prefix_len k needle_suffix then None else Some false
    | Some l =>
        if (l <=? prefix_len)%nat then Some (same_prefix l k needle_suffix)
        else if same_prefix prefix_len k needle_suffix then None else Some false
    end
  else Some false.

Definition compare_equals_with_prefix {B} (a : LiquidByteViewArray B) (needle : Bytes) : list bool * list nat :=
  if starts_with_shared a needle then
    let answers := equals_key (drop (length (shared_prefix a)) needle) <$> prefix_keys a in
    (decided answers, open_positions answers)
  else (replicate (length (prefix_keys a)) false, []).

(** ** From the dictionary to the rows *)

(** [get_unchecked]. *)
Definition map_dictionary_results {B} (a : LiquidByteViewArray B) (dict_results : list bool) : outcome BooleanArray :=
  bits ← each (λ dict_key, deref (dict_results !! Z.to_nat dict_key)) (pa_values (dictionary_keys a));
  Ret (boolean_array bits (bv_nulls a)).

(** [dict_results[i] = result] for the open positions. *)
Fixpoint set_results (dict_results : list bool) (positions : list nat) (results : list bool) : list bool :=
  match positions, results with
  | i :: positions, r :: results => set_results (<[i := r]> dict_results) positions results
  | _, _ => dict_results
  end.

Definition negate_array (result : BooleanArray) : BooleanArray := option_map negb <$> result.

(** ** Substrings *)

Definition compute_fingerprint_candidates (needle : Bytes) (fingerprints : list Z) : list bool * list nat :=
  let needle_fp := fingerprint_of needle in
  (replicate (length fingerprints) false,
   List.filter (λ i, might_contain (nth i fingerprints 0) needle_fp) (seq 0 (length fingerprints))).

Definition apply_like_match_on_candidates (dict_results : list bool) (ambiguous : list nat) (values : list Bytes)
    (needle : Bytes) (operator : SubString) : outcome (list bool) :=
  if negb (is_utf8 needle) then Panic
  else
    matches ← expect (strings_cmp DLikeMatch values (SUtf8 (Some ([37] ++ needle ++ [37]))));
    let dict_results := set_results dict_results ambiguous (default false <$> matches) in
    Ret (match operator with NotContains => negb <$> dict_results | Contains => dict_results end).

(** ** In memory *)

Definition compare_equals (a : LiquidByteViewArray FsstArray) (needle : Bytes) : outcome BooleanArray :=
  if negb (starts_with_shared a needle) then map_dictionary_results a (replicate (length (prefix_keys a)) false)
  else
    let needle_suffix := drop (length (shared_prefix a)) needle in
    let needle_len := length needle_suffix in
    if (needle_len <=? prefix_len)%nat then
      map_dictionary_results a
        ((λ k, match known_len k with
               | Some l => (l =? needle_len)%nat && same_prefix l k needle_suffix
               | None => false
               end) <$> prefix_keys a)
    else
      let compressed_needle := compress_into (fa_compressor (fsst_buffer a)) needle in
      dict_results ←
        each (λ i, match prefix_keys a !! i with
                   | None => Panic
                   | Some k =>
                       if length_gate needle_len k && same_prefix prefix_len k needle_suffix then
                         compressed_value ← get_compressed_slice (fsst_buffer a) i;
                         Ret (bytes_eqb compressed_value compressed_needle)
                       else Ret false
                   end)
          (seq 0 (length (prefix_keys a)));
      map_dictionary_results a dict_results.

Definition compare_with_inner (a : LiquidByteViewArray FsstArray) (needle : Bytes) (op : Comparison)
    : outcome BooleanArray :=
  let '(dict_results, ambiguous) := compare_with_prefix a needle op in
  dict_results ←
    (if bool_decide (ambiguous = []) then Ret dict_results
     else
       values ← to_uncompressed_selected (fsst_buffer a) ambiguous;
       Ret (set_results dict_results ambiguous ((λ v, holds op (bytes_cmp v needle)) <$> values)));
  map_dictionary_results a dict_results.

Definition compare_like_substring (a : LiquidByteViewArray FsstArray) (needle : Bytes) (operator : SubString)
    (fingerprints : list Z) : outcome BooleanArray :=
  let '(dict_results, ambiguous) := compute_fingerprint_candidates needle fingerprints in
  dict_results ←
    (if bool_decide (ambiguous = []) then Ret dict_results
     else
       values ← to_uncompressed_selected (fsst_buffer a) ambiguous;
       apply_like_match_on_candidates dict_results ambiguous values needle operator);
  map_dictionary_results a dict_results.

(** The scalar has the type of the dictionary's values. *)
Definition compare_with_arrow_fallback (a : LiquidByteViewArray FsstArray) (needle : Bytes) (op : ByteViewOperator)
    : outcome BooleanArray :=
  dict_array ← to_dict_arrow a;
  needle_scalar ←
    (if dict_utf8 dict_array then if is_utf8 needle then Ret (SUtf8 (Some needle)) else Panic
     else Ret (SBinary (Some needle)));
  expect (dictionary_cmp (operator_from op) dict_array needle_scalar).

Definition compare_with (a : LiquidByteViewArray FsstArray) (needle : Bytes) (op : ByteViewOperator)
    : outcome BooleanArray :=
  match op with
  | BComparison cmp => compare_with_inner a needle cmp
  | BEquality EEq => compare_equals a needle
  | BEquality ENotEq => result ← compare_equals a needle; Ret (negate_array result)
  | BSubString op =>
      match string_fingerprints a with
      | Some fingerprints =>
          pattern ← expect (substring_pattern_bytes needle); compare_like_substring a pattern op fingerprints
      | None => compare_with_arrow_fallback a needle (BSubString op)
      end
  end.

Definition constant_answer {B} (a : LiquidByteViewArray B) (v : bool) : BooleanArray :=
  boolean_array (replicate (bv_len a) v) (bv_nulls a).

Definition bv_try_eval_predicate (a : LiquidByteViewArray FsstArray) (expr : BExpr) (filter : list bool)
    : outcome (option BooleanArray) :=
  filtered ← bv_filter_inner a filter;
  e ← byte_view_expression expr;
  match e with
  | inr (UConstant v) => Ret (Some (constant_answer filtered v))
  | inr _ => Ret None
  | inl (op, needle) =>
      match op, string_fingerprints filtered with
      | BSubString _, None => Ret None
      | _, _ => result ← compare_with filtered needle op; Ret (Some result)
      end
  end.

(** ** On disk *)

Definition disk_compare_equals (a : LiquidByteViewArray DiskBuffer) (needle : Bytes) : SqueezeIo BooleanArray := λ backing,
  let '(dict_results, ambiguous) := compare_equals_with_prefix a needle in
  '(dict_results, events) ←
    (if bool_decide (ambiguous = []) then Ret (dict_results, [SqIoSaved])
     else
       '(hydrated, events) ← hydrate (fsst_buffer a) backing;
       let compressed_needle := compress_into (fa_compressor (fsst_buffer hydrated)) needle in
       matches ←
         each (λ i, compressed_value ← get_compressed_slice (fsst_buffer hydrated) i;
                    Ret (bytes_eqb compressed_value compressed_needle)) ambiguous;
       Ret (set_results dict_results ambiguous matches, events));
  result ← map_dictionary_results a dict_results;
  Ret (result, events).

Definition disk_compare_with_inner (a : LiquidByteViewArray DiskBuffer) (needle : Bytes) (op : Comparison)
    : SqueezeIo BooleanArray := λ backing,
  let '(dict_results, ambiguous) := compare_with_prefix a needle op in
  '(dict_results, events) ←
    (if bool_decide (ambiguous = []) then Ret (dict_results, [SqIoSaved])
     else
       '(values, events) ← disk_to_uncompressed_selected (fsst_buffer a) ambiguous backing;
       Ret (set_results dict_results ambiguous ((λ v, holds op (bytes_cmp_short_auto v needle)) <$> values), events));
  result ← map_dictionary_results a dict_results;
  Ret (result, events).

Definition disk_compare_like_substring (a : LiquidByteViewArray DiskBuffer) (needle : Bytes) (operator : SubString)
    (fingerprints : list Z) : SqueezeIo BooleanArray := λ backing,
  let '(dict_results, ambiguous) := compute_fingerprint_candidates needle fingerprints in
  '(dict_results, events) ←
    (if bool_decide (ambiguous = []) then Ret (dict_results, [SqIoSaved])
     else
       '(values, events) ← disk_to_uncompressed_selected (fsst_buffer a) ambiguous backing;
       dict_results ← apply_like_match_on_candidates dict_results ambiguous values needle operator;
       Ret (dict_results, events));
  result ← map_dictionary_results a dict_results;
  Ret (result, events).

Definition disk_compare_with (a : LiquidByteViewArray DiskBuffer) (needle : Bytes) (op : ByteViewOperator)
    : SqueezeIo BooleanArray := λ backing,
  match op with
  | BEquality EEq => disk_compare_equals a needle backing
  | BEquality ENotEq =>
      '(result, events) ← disk_compare_equals a needle backing; Ret (negate_array result, events)
  | BComparison op => disk_compare_with_inner a needle op backing
  | BSubString op =>
      pattern ← expect (substring_pattern_bytes needle);
      fingerprints ← expect (string_fingerprints a);
      disk_compare_like_substring a pattern op fingerprints backing
  end.

Definition disk_try_eval_predicate (a : LiquidByteViewArray DiskBuffer) (expr : BExpr) (filter : list bool)
    : SqueezeIo (option BooleanArray) := λ backing,
  filtered ← bv_filter_inner a filter;
  e ← byte_view_expression expr;
  match e with
  | inr (UConstant v) => Ret (Some (constant_answer filtered v), [])
  | inr _ => Ret (None, [])
  | inl (op, needle) =>
      match op, string_fingerprints filtered with
      | BSubString _, None => Ret (None, [])
      | _, _ => '(result, events) ← disk_compare_with filtered needle op backing; Ret (Some result, events)
      end
  end.

(** [prefix_compare_counts]: selected, open and all rows. *)
Definition prefix_compare_counts {B} (a : LiquidByteViewArray B) (needle : Bytes) (op : Comparison) : nat * nat * nat :=
  let '(dict_results, ambiguous) := compare_with_prefix a needle op in
  (length (List.filter id dict_results), length ambiguous, bv_len a).
End compare.
