(* ===== verification/ByteViewSpec.v ===== *)
(** * Byte view arrays answer as the column

    Proofs on [ByteView.v] and [ByteCompare.v]: what prefix keys, shared prefixes
    and fingerprints decide is right, and the rest is decided on the strings. *)

From stdpp Require Import base list.
From Stdlib Require Import ZArith Lia.
From S2P Require Import Prelude Bytes Arrow BitPack DataTypes Ipc CivilDate Expressions Formats.
From S2P Require Import LiquidPrimitive CompactOffsets Fsst ByteDict ByteView ByteCompare.
Local Open Scope Z_scope.

(** ** Prefix keys *)

(** Zeros against bytes: never greater. *)
Lemma zeros_cmp m n ns :
  Forall is_byte ns -> bytes_cmp (take n (replicate m 0)) (take n ns) ≠ Eq -> (n <= m)%nat -> (n <= length ns)%nat ->
  bytes_cmp (take n (replicate m 0)) (take n ns) = Lt.
Proof.
  intros F. revert m n. induction F as [|y ns Hy F IH]; intros m n Hne Hm Hl; [destruct n; [done|cbn in Hl; lia]|].
  destruct n as [|n]; [done|]. destruct m as [|m]; [lia|]. cbn -[Z.compare] in *.
  unfold is_byte in Hy. destruct (Z.compare_spec 0 y) as [Hc|Hc|Hc]; [|done|lia]. apply IH; [done|lia..].
Qed.

(** A padded prefix that differs from the needle decides the order. *)
Lemma padded_cmp n m s ns :
  Forall is_byte ns -> (n <= length ns)%nat -> (n <= length s + m)%nat ->
  bytes_cmp (take n (s ++ replicate m 0)) (take n ns) ≠ Eq ->
  bytes_cmp (take n (s ++ replicate m 0)) (take n ns) = bytes_cmp s ns.
Proof.
  revert s ns. induction n as [|n IH]; intros [|x s] [|y ns] F Hn Hm Hne; cbn in Hn, Hm; try done; try lia.
  - rewrite app_nil_l in *. rewrite (zeros_cmp m (S n) (y :: ns)); [done|done|done|lia|cbn; lia].
  - apply Forall_cons in F as [_ F]. cbn in Hne |- *. revert Hne. case Z.compare_spec; intros Hc Hne; try done.
    apply IH; try done; lia.
Qed.

Lemma prefix7_take n s :
  (n <= 7)%nat -> take n (prefix7 (prefix_key_new s)) = take n (s ++ replicate 7 0).
Proof.
  intros Hn. unfold prefix_key_new, prefix_len. cbn [prefix7].
  destruct (decide (length s <= 7)%nat) as [Hs|Hs].
  - rewrite Nat.min_r by lia. rewrite (take_ge s) by lia. rewrite !take_app.
    f_equal. rewrite !take_replicate. f_equal. lia.
  - rewrite Nat.min_l by lia. rewrite Nat.sub_diag. cbn [replicate]. rewrite app_nil_r, take_take, Nat.min_l by lia.
    by rewrite take_app_le by lia.
Qed.

Lemma len_byte_zero s : (len_byte (prefix_key_new s) =? 0) = bool_decide (s = []).
Proof.
  unfold prefix_key_new. cbn [len_byte]. destruct s as [|x s]; [done|]. rewrite bool_decide_eq_false_2 by done.
  case Z.leb_spec; cbn [length]; intros; apply Z.eqb_neq; lia.
Qed.

Lemma known_len_spec s :
  known_len (prefix_key_new s) = if (length s <? 255)%nat then Some (length s) else None.
Proof.
  unfold known_len, prefix_key_new. cbn [len_byte]. case Z.leb_spec; intros Hl.
  - case Nat.ltb_spec; [lia|done].
  - case Z.eqb_spec; [lia|]. intros _. case Nat.ltb_spec; [|lia]. by rewrite Nat2Z.id.
Qed.

Lemma compare_key_ok op s ns b :
  Forall is_byte ns -> compare_key op ns (prefix_key_new s) = Some b -> b = holds op (bytes_cmp s ns).
Proof.
  intros F. unfold compare_key, prefix_len. destruct (Nat.min (length ns) 7 =? 0)%nat eqn:E.
  - apply Nat.eqb_eq in E. assert (ns = []) as -> by (apply nil_length_inv; lia).
    rewrite len_byte_zero. intros [= <-]. destruct s; by destruct op.
  - apply Nat.eqb_neq in E. unfold bytes_cmp_short. destruct (Nat.min (length ns) 7) as [|c] eqn:Ec; [done|].
    rewrite prefix7_take by lia. pose proof (padded_cmp (S c) 7 s ns F ltac:(lia) ltac:(lia)) as P.
    destruct (bytes_cmp (take (S c) (s ++ replicate 7 0)) (take (S c) ns)); [done| |];
      intros [= <-]; rewrite <- P by done; by destruct op.
Qed.

Lemma bytes_eqb_iff a b : bytes_eqb a b = true <-> a = b.
Proof. unfold bytes_eqb. apply bool_decide_eq_true. Qed.

Lemma same_prefix_of s : ∀ n, (n <= 7)%nat -> same_prefix n (prefix_key_new s) s = (bytes_eqb (take n (s ++ replicate 7 0)) (take n s)).
Proof. intros n Hn. unfold same_prefix. by rewrite prefix7_take. Qed.

(** A short suffix of the same length is compared completely. *)
Lemma same_prefix_short s ns :
  (length s <= 7)%nat -> length s = length ns -> same_prefix (length s) (prefix_key_new s) ns = bytes_eqb s ns.
Proof.
  intros Hs Hl. unfold same_prefix. rewrite prefix7_take by done. rewrite take_app_length.
  by rewrite (take_ge ns) by lia.
Qed.

(** Equal suffixes have equal prefixes. *)
Lemma same_prefix_refl s : (7 <= length s)%nat -> same_prefix 7 (prefix_key_new s) s = true.
Proof.
  intros Hs. rewrite same_prefix_of by lia. apply bytes_eqb_iff.
  by rewrite take_app_le by lia.
Qed.

Lemma length_gate_spec s n :
  length_gate n (prefix_key_new s) = if (length s <? 255)%nat then (length s =? n)%nat else (255 <=? n)%nat.
Proof. unfold length_gate. rewrite known_len_spec. by destruct (length s <? 255)%nat. Qed.

Lemma length_gate_self s : length_gate (length s) (prefix_key_new s) = true.
Proof. rewrite length_gate_spec. case Nat.ltb_spec; [by rewrite Nat.eqb_refl|]. intros. by apply Nat.leb_le. Qed.

Lemma equals_key_ok s ns b : equals_key ns (prefix_key_new s) = Some b -> b = bytes_eqb s ns.
Proof.
  unfold equals_key, prefix_len. intros E. symmetry.
  destruct (decide (s = ns)) as [->|Hne].
  - rewrite length_gate_self, known_len_spec in E. unfold bytes_eqb. rewrite bool_decide_eq_true_2 by done.
    destruct (Nat.ltb_spec (length ns) 255) as [Hl|Hl].
    + destruct (Nat.leb_spec (length ns) 7) as [Hp|Hp].
      * rewrite same_prefix_short in E by (done || lia). injection E as <-. symmetry. by apply bytes_eqb_iff.
      * rewrite (same_prefix_refl ns) in E by lia. done.
    + rewrite (same_prefix_refl ns) in E by lia. done.
  - unfold bytes_eqb. rewrite bool_decide_eq_false_2 by done.
    destruct (length_gate (length ns) (prefix_key_new s)) eqn:G; [|by injection E].
    rewrite length_gate_spec in G. rewrite known_len_spec in E.
    destruct (Nat.ltb_spec (length s) 255) as [Hl|Hl].
    + apply Nat.eqb_eq in G. destruct (Nat.leb_spec (length s) 7) as [Hp|Hp].
      * rewrite same_prefix_short in E by (done || lia). injection E as <-. unfold bytes_eqb.
        by rewrite bool_decide_eq_false_2.
      * by destruct (same_prefix _ _ _); simplify_eq.
    + by destruct (same_prefix _ _ _); simplify_eq.
Qed.

(** ** Shared prefixes *)

Lemma shared_prefix_ok {B} `{NullBuffers} (a : LiquidByteViewArray B) needle op b s :
  compare_with_shared_prefix a needle op = Some b -> b = holds op (bytes_cmp (shared_prefix a ++ s) needle).
Proof.
  unfold compare_with_shared_prefix. set (sp := shared_prefix a). set (n := Nat.min (length needle) (length sp)).
  assert (take n (sp ++ s) = take n sp) as Et by (apply take_app_le; lia).
  pose proof (bytes_cmp_take n (sp ++ s) needle) as C. rewrite Et in C.
  destruct (bytes_cmp (take n sp) (take n needle)) eqn:E.
  - case Nat.ltb_spec; intros Hl; [|done]. intros [= <-].
    apply bytes_cmp_eq in E. rewrite (take_ge needle) in E by lia.
    assert (sp ++ s = needle ++ drop n (sp ++ s)) as -> by (rewrite <- E, <- Et; by rewrite take_drop).
    rewrite <- (app_nil_r needle) at 2. rewrite bytes_cmp_app.
    destruct (drop n (sp ++ s)) as [|x d] eqn:Ed; [|by destruct op].
    apply (f_equal length) in Ed. rewrite length_drop, length_app in Ed. cbn in Ed. lia.
  - intros [= <-]. rewrite C by done. by destruct op.
  - intros [= <-]. rewrite C by done. by destruct op.
Qed.

Lemma shared_prefix_none {B} `{NullBuffers} (a : LiquidByteViewArray B) needle op :
  compare_with_shared_prefix a needle op = None ->
  needle = shared_prefix a ++ drop (length (shared_prefix a)) needle.
Proof.
  unfold compare_with_shared_prefix. destruct (bytes_cmp _ _) eqn:E; try done.
  case Nat.ltb_spec; [done|]. intros Hl _. rewrite Nat.min_r in E by done. apply bytes_cmp_eq in E.
  rewrite (take_ge (shared_prefix a)) in E by lia. rewrite E at 1. by rewrite take_drop.
Qed.

Lemma starts_with_shared_spec {B} `{NullBuffers} (a : LiquidByteViewArray B) needle :
  starts_with_shared a needle = true ->
  needle = shared_prefix a ++ drop (length (shared_prefix a)) needle.
Proof.
  unfold starts_with_shared. intros [Hl E]%andb_prop. apply bytes_eqb_iff in E. rewrite <- E at 1. by rewrite take_drop.
Qed.

Lemma starts_with_shared_false {B} `{NullBuffers} (a : LiquidByteViewArray B) s :
  starts_with_shared a (shared_prefix a ++ s) = true.
Proof.
  unfold starts_with_shared. rewrite length_app, take_app_length. apply andb_true_intro. split; [apply Nat.leb_le; lia|].
  by apply bytes_eqb_iff.
Qed.

(** The prefix computed by the constructor. *)
Lemma common_len_prefix a b : take (common_len a b) a = take (common_len a b) b.
Proof.
  revert b. induction a as [|x a IH]; intros [|y b]; cbn; try done. case Z.eqb_spec; [|done]. intros ->. cbn.
  by rewrite IH.
Qed.

Lemma truncate_prefix_ok prefix values :
  (∃ k, truncate_prefix prefix values = take k prefix)
  /\ ∀ v, v ∈ values -> ∃ s, v = truncate_prefix prefix values ++ s.
Proof.
  revert prefix. induction values as [|v values IH]; intros prefix; cbn [truncate_prefix].
  { split; [exists (length prefix); by rewrite take_ge|]. intros v Hv. by apply not_elem_of_nil in Hv. }
  set (p := take (common_len prefix v) prefix). destruct (bool_decide (p = [])) eqn:E.
  - apply bool_decide_eq_true in E. split; [by eexists|]. intros u _. exists u. by rewrite E.
  - destruct (IH p) as [[k Hk] Hall]. split.
    + rewrite Hk. exists (Nat.min k (common_len prefix v)). unfold p. by rewrite take_take.
    + intros u [->|Hu]%elem_of_cons; [|by apply Hall]. rewrite Hk. unfold p. rewrite common_len_prefix, take_take.
      eexists. symmetry. apply take_drop.
Qed.

Lemma shared_prefix_of_ok values v : v ∈ values -> ∃ s, v = shared_prefix_of values ++ s.
Proof.
  destruct values as [|u values]; [intros Hv; by apply not_elem_of_nil in Hv|]. cbn [shared_prefix_of].
  destruct (truncate_prefix_ok u values) as [[k Hk] Hall]. intros [->|Hv]%elem_of_cons; [|by apply Hall].
  rewrite Hk. eexists. symmetry. apply take_drop.
Qed.

Lemma remaining_app sp s : remaining_bytes (length sp) (sp ++ s) = s.
Proof.
  unfold remaining_bytes. rewrite length_app. case Nat.ltb_spec; intros Hl; [by rewrite drop_app_length|].
  destruct s; [done|cbn in Hl; lia].
Qed.

(** ** Fingerprints *)

Lemma fingerprint_bit bytes acc i :
  0 <= i -> Z.testbit (foldl (λ bits byte, Z.lor bits (Z.shiftl 1 (Z.land byte FINGERPRINT_MASK))) acc bytes) i
  = Z.testbit acc i || existsb (λ b, Z.land b FINGERPRINT_MASK =? i) bytes.
Proof.
  intros Hi. revert acc. induction bytes as [|b bytes IH]; intros acc; cbn [foldl existsb]; [by rewrite orb_false_r|].
  rewrite IH, Z.lor_spec, <- orb_assoc. do 2 f_equal.
  assert (0 <= Z.land b FINGERPRINT_MASK) by (apply Z.land_nonneg; right; done).
  rewrite Z.shiftl_1_l. case Z.eqb_spec; intros E; [by rewrite E, Z.pow2_bits_true|].
  by rewrite Z.pow2_bits_false.
Qed.

Lemma is_prefix_in p s b : is_prefix p s = true -> b ∈ p -> b ∈ s.
Proof.
  revert s. induction p as [|x p IH]; intros [|y s]; cbn; try done; [intros _ Hb; by apply not_elem_of_nil in Hb..|].
  intros [Hx Hp]%andb_prop [->|Hb]%elem_of_cons; [apply Z.eqb_eq in Hx as ->; left|right; by eapply IH].
Qed.

Lemma contains_in p s b : contains_bytes p s = true -> b ∈ p -> b ∈ s.
Proof.
  induction s as [|y s IH]; cbn; rewrite orb_true_iff; intros [Hp|Hc] Hb; try done; try by eapply is_prefix_in.
  right. by apply IH.
Qed.

(** A substring's fingerprint is within the string's. *)
Lemma fingerprint_sound p s : contains_bytes p s = true -> might_contain (fingerprint_of s) (fingerprint_of p) = true.
Proof.
  intros Hc. unfold might_contain, fingerprint_of. apply Z.eqb_eq. apply Z.bits_inj'. intros i Hi.
  rewrite Z.land_spec, !fingerprint_bit, Z.bits_0, !orb_false_l by done.
  destruct (existsb _ p) eqn:E; [|by rewrite andb_false_r]. rewrite andb_true_r.
  apply existsb_exists in E as (b & Hb & Ei). apply existsb_exists. exists b. split; [|done].
  apply list_elem_of_In in Hb. apply list_elem_of_In. by eapply contains_in.
Qed.

(** ** Answers for the dictionary *)

Lemma each_map {A B} (f : A -> outcome B) (h : A -> B) (l : list A) : (∀ x, x ∈ l -> f x = Ret (h x)) -> each f l = Ret (h <$> l).
Proof.
  induction l as [|x l IH]; intros Hf; [done|]. cbn. rewrite Hf by left. run_step. rewrite IH; [done|].
  intros y Hy. apply Hf. by right.
Qed.

Lemma omap_sublist {A} (P : nat -> bool) (l : list A) : omap (λ i, l !! i) (List.filter P (seq 0 (length l))) `sublist_of` l.
Proof.
  assert (∀ ps, omap (λ i, l !! i) (List.filter P ps) `sublist_of` omap (λ i, l !! i) ps) as Hs.
  { induction ps as [|i ps IH]; [done|]. cbn. destruct (P i), (l !! i) as [x|] eqn:E; cbn; rewrite ?E; try done.
    - by apply sublist_skip.
    - by apply sublist_cons. }
  specialize (Hs (seq 0 (length l))). by rewrite omap_seq in Hs.
Qed.

Lemma concat_sublist (l k : list Bytes) : l `sublist_of` k -> zlen (concat l) <= zlen (concat k).
Proof. induction 1; cbn; rewrite ?length_app; lia. Qed.

Lemma omap_positions {A} (d : A) (l : list A) ps :
  Forall (λ i, (i < length l)%nat) ps -> omap (λ i, l !! i) ps = (λ i, default d (l !! i)) <$> ps.
Proof.
  induction 1 as [|i ps Hi _ IH]; [done|]. cbn. destruct (lookup_lt_is_Some_2 l i Hi) as [x ->]. cbn. by rewrite IH.
Qed.

Lemma length_set_results d ps rs : length (set_results d ps rs) = length d.
Proof. revert d rs. induction ps as [|i ps IH]; intros d [|r rs]; try done. cbn. by rewrite IH, length_insert. Qed.

Lemma set_results_lookup h d ps j :
  (j < length d)%nat -> set_results d ps (h <$> ps) !! j = if decide (j ∈ ps) then Some (h j) else d !! j.
Proof.
  revert d. induction ps as [|i ps IH]; intros d Hj; cbn [set_results fmap list_fmap].
  { rewrite decide_False; [done|]. apply not_elem_of_nil. }
  rewrite IH by (by rewrite length_insert). destruct (decide (j ∈ ps)) as [Hp|Hp].
  { by rewrite decide_True by (by right). }
  destruct (decide (j = i)) as [->|Hne].
  - rewrite decide_True by left. by rewrite list_lookup_insert_eq.
  - rewrite decide_False by (by intros [?|?]%elem_of_cons). by rewrite list_lookup_insert_ne.
Qed.

Lemma open_in answers j : j ∈ open_positions answers <-> answers !! j = Some None.
Proof.
  unfold open_positions. rewrite list_elem_of_In, filter_In, <- list_elem_of_In, bool_decide_eq_true, elem_of_seq.
  split; [by intros []|]. intros E. split; [|done]. apply lookup_lt_Some in E. lia.
Qed.

Lemma open_range answers : Forall (λ i, (i < length answers)%nat) (open_positions answers).
Proof. apply Forall_forall. intros j Hj%open_in. by eapply lookup_lt_Some. Qed.

(** Deciding, then filling in what is open, answers for every value. *)
Lemma resolve (g : Bytes -> bool) (h : nat -> bool) answers values :
  length answers = length values ->
  (∀ j v b, answers !! j = Some (Some b) -> values !! j = Some v -> b = g v) ->
  (∀ j v, values !! j = Some v -> h j = g v) ->
  set_results (decided answers) (open_positions answers) (h <$> open_positions answers) = g <$> values.
Proof.
  intros Hl Hd Hh. apply list_eq_same_length with (n := length values);
    [by rewrite length_fmap|by rewrite length_set_results; unfold decided; rewrite length_fmap|].
  intros j x y Hj. unfold decided. rewrite set_results_lookup by (rewrite length_fmap; lia).
  destruct (lookup_lt_is_Some_2 values j Hj) as [v Hv]. rewrite !list_lookup_fmap, Hv. cbn.
  destruct (lookup_lt_is_Some_2 answers j) as [o Ho]; [by rewrite Hl|]. rewrite Ho. cbn.
  destruct o as [b|].
  - rewrite decide_False by (rewrite open_in, Ho; done). cbn. intros [= <-] [= <-]. by apply (Hd j).
  - rewrite decide_True by (by apply open_in). intros [= <-] [= <-]. by apply Hh.
Qed.

Section holds.
Context `{NullBuffers} `{Fastlanes} {PK : PrimitiveKernels} {FL : FsstLib} {LL : FsstLaws} {BK : ByteKernels}
  {BL : ByteKernelLaws}.

(** What an array holds: the values of its dictionary. *)
Record view_holds {B} (a : LiquidByteViewArray B) (values : list Bytes) : Prop := {
  vh_prefix_keys :
    prefix_keys a = (λ v, prefix_key_new (remaining_bytes (length (shared_prefix a)) v)) <$> values;
  vh_shared v : v ∈ values -> ∃ s, v = shared_prefix a ++ s;
  vh_fingerprints f : string_fingerprints a = Some f -> f = fingerprint_of <$> values;
  vh_bytes : Forall (Forall is_byte) values;
  vh_size : zlen (concat values) < 2 ^ 31;
  vh_keys : Forall (λ k, 0 <= k < Z.of_nat (length values)) (pa_values (dictionary_keys a))
}.

(** The column of an array with these values. *)
Definition view_column {B} (a : LiquidByteViewArray B) (values : list Bytes) : ByteColumn :=
  (λ key, key ≫= dict_lookup values) <$> pa_logical (dictionary_keys a).

Lemma boolean_array_map (f : Z -> bool) (g : Z -> option bool) keys nulls :
  Forall (λ k, g k = Some (f k)) keys ->
  boolean_array (f <$> keys) nulls = (λ key, key ≫= g) <$> logical keys nulls.
Proof.
  intros F. unfold boolean_array. rewrite length_fmap.
  assert (logical keys nulls = mask_values keys (validity nulls (length keys))) as ->.
  { destruct nulls; [done|]. symmetry. apply all_valid_mask. }
  generalize (validity nulls (length keys)) as valid. induction F as [|k keys Hk _ IH]; intros [|b valid]; try done.
  cbn. rewrite IH. f_equal. by destruct b.
Qed.

(** Spreading right answers over the rows. *)
Lemma spread_ok {B} (a : LiquidByteViewArray B) values results (g : Bytes -> bool) :
  Forall (λ k, ∃ v, values !! Z.to_nat k = Some v /\ results !! Z.to_nat k = Some (g v)) (pa_values (dictionary_keys a)) ->
  map_dictionary_results a results = Ret (option_map g <$> view_column a values).
Proof.
  intros F. unfold map_dictionary_results.
  rewrite (each_map _ (λ k, default false (results !! Z.to_nat k))).
  - run_step. f_equal. unfold bv_nulls. rewrite (boolean_array_map _ (λ k, option_map g (dict_lookup values k))).
    + unfold view_column, pa_logical. rewrite <- list_fmap_compose. apply list_fmap_ext. intros _ [k|] _; done.
    + eapply Forall_impl; [exact F|]. intros k (v & Hv & Hr). unfold dict_lookup. by rewrite Hv, Hr.
  - intros k Hk. rewrite Forall_forall in F. destruct (F k Hk) as (v & _ & Hr). by rewrite Hr.
Qed.

Lemma spread_values {B} (a : LiquidByteViewArray B) values (g : Bytes -> bool) :
  view_holds a values -> map_dictionary_results a (g <$> values) = Ret (option_map g <$> view_column a values).
Proof.
  intros Hh. apply spread_ok. eapply Forall_impl; [apply Hh|]. intros k Hk. cbn in Hk.
  destruct (lookup_lt_is_Some_2 values (Z.to_nat k)) as [v Hv]; [lia|]. exists v. by rewrite list_lookup_fmap, Hv.
Qed.

(** The same answer everywhere. *)
Lemma spread_constant {B} (a : LiquidByteViewArray B) values (g : Bytes -> bool) n r :
  view_holds a values -> Forall (λ k, k < Z.of_nat n) (pa_values (dictionary_keys a)) -> (∀ v, v ∈ values -> g v = r) ->
  map_dictionary_results a (replicate n r) = Ret (option_map g <$> view_column a values).
Proof.
  intros Hh Hn Hg. apply spread_ok. pose proof (vh_keys a values Hh) as Hk. rewrite Forall_forall in Hn, Hk |- *.
  intros k Hin. specialize (Hk k Hin). specialize (Hn k Hin). cbn in Hk, Hn.
  destruct (lookup_lt_is_Some_2 values (Z.to_nat k)) as [v Hv]; [lia|]. exists v. split; [done|].
  rewrite lookup_replicate_2 by lia. rewrite (Hg v); [done|]. by eapply list_elem_of_lookup_2.
Qed.

(** ** Comparisons in memory *)

(** The prefix key of a value is the one of its suffix. *)
Lemma prefix_key_at {B} (a : LiquidByteViewArray B) values j v :
  view_holds a values -> values !! j = Some v ->
  ∃ s, v = shared_prefix a ++ s /\ prefix_keys a !! j = Some (prefix_key_new s).
Proof.
  intros Hh Hv. destruct (vh_shared a values Hh v) as [s ->]; [by eapply list_elem_of_lookup_2|]. exists s. split; [done|].
  rewrite (vh_prefix_keys a values Hh), list_lookup_fmap, Hv. cbn. by rewrite remaining_app.
Qed.

Lemma view_length {B} (a : LiquidByteViewArray B) values : view_holds a values -> length (prefix_keys a) = length values.
Proof. intros Hh. by rewrite (vh_prefix_keys a values Hh), length_fmap. Qed.

(** What the prefixes decide is right. *)
Lemma compare_decides {B} (a : LiquidByteViewArray B) values op needle j v b :
  view_holds a values -> Forall is_byte needle -> compare_with_shared_prefix a needle op = None ->
  (compare_key op (drop (length (shared_prefix a)) needle) <$> prefix_keys a) !! j = Some (Some b) ->
  values !! j = Some v -> b = holds op (bytes_cmp v needle).
Proof.
  intros Hh Hn Hs Hb Hv. destruct (prefix_key_at a values j v Hh Hv) as (s & -> & Hk).
  rewrite list_lookup_fmap, Hk in Hb. injection Hb as Hb. rewrite (shared_prefix_none _ _ _ Hs), bytes_cmp_app.
  apply compare_key_ok in Hb; [done|]. by apply Forall_drop.
Qed.

Lemma equals_decides {B} (a : LiquidByteViewArray B) values needle j v b :
  view_holds a values -> starts_with_shared a needle = true ->
  (equals_key (drop (length (shared_prefix a)) needle) <$> prefix_keys a) !! j = Some (Some b) ->
  values !! j = Some v -> b = bytes_eqb v needle.
Proof.
  intros Hh Hs Hb Hv. destruct (prefix_key_at a values j v Hh Hv) as (s & -> & Hk).
  rewrite list_lookup_fmap, Hk in Hb. injection Hb as ->%equals_key_ok. rewrite (starts_with_shared_spec _ _ Hs) at 2.
  unfold bytes_eqb. apply bool_decide_ext. split; [by intros ->|by intros ?%app_inv_head].
Qed.

Lemma not_shared {B} (a : LiquidByteViewArray B) values needle v :
  view_holds a values -> starts_with_shared a needle = false -> v ∈ values -> bytes_eqb v needle = false.
Proof.
  intros Hh Hs Hv. destruct (vh_shared a values Hh v Hv) as [s ->]. apply bool_decide_eq_false. intros <-.
  by rewrite starts_with_shared_false in Hs.
Qed.

(** Compressed strings are equal when the strings are. *)
Lemma compressed_eqb c v needle :
  Forall is_byte v -> Forall is_byte needle ->
  bytes_eqb (compress_into c v) (compress_into c needle) = bytes_eqb v needle.
Proof.
  intros Hv Hn. unfold bytes_eqb. apply bool_decide_ext. split; [|by intros ->]. intros E.
  by rewrite <- (compress_inverse c v Hv), E, compress_inverse.
Qed.

Lemma item_bytes_some (l : list Bytes) : item_bytes <$> (Some <$> l) = l.
Proof. rewrite <- list_fmap_compose. apply list_fmap_id. Qed.

Lemma selected_ok (b : FsstArray) values P :
  fa_holds b (Some <$> values) -> zlen (concat values) < 2 ^ 31 ->
  to_uncompressed_selected b (List.filter P (seq 0 (length values)))
  = Ret ((λ i, default [] (values !! i)) <$> List.filter P (seq 0 (length values))).
Proof.
  intros Hb Hs. pose proof (omap_sublist P values) as Hsub.
  assert (Forall (λ i, (i < length values)%nat) (List.filter P (seq 0 (length values)))) as F.
  { apply Forall_forall. intros i [Hi _]%list_elem_of_In%filter_In. apply in_seq in Hi. lia. }
  assert (item_bytes <$> omap (λ i, (Some <$> values) !! i) (List.filter P (seq 0 (length values)))
          = omap (λ i, values !! i) (List.filter P (seq 0 (length values)))) as E.
  { clear. induction (List.filter P (seq 0 (length values))) as [|i l IH]; [done|]. cbn. rewrite list_lookup_fmap.
    destruct (values !! i); cbn; by rewrite IH. }
  rewrite (to_uncompressed_selected_ok b (Some <$> values)); rewrite ?E; [|done|by rewrite length_fmap|].
  - by rewrite (omap_positions []).
  - apply concat_sublist in Hsub. lia.
Qed.

Lemma compressed_at (b : FsstArray) values i v :
  fa_holds b (Some <$> values) -> values !! i = Some v ->
  get_compressed_slice b i = Ret (compress_into (fa_compressor b) v).
Proof. intros Hb Hv. by rewrite (get_compressed_ok b (Some <$> values) i (Some v)) by (rewrite ?list_lookup_fmap, ?Hv; done). Qed.

(** ** Building *)

Lemma concat_submseteq (f : Bytes -> Bytes) (l k : list Bytes) : l ⊆+ k -> zlen (concat (f <$> l)) <= zlen (concat (f <$> k)).
Proof. induction 1; cbn; rewrite ?length_app; lia. Qed.

(** Distinct values take no more room than the column. *)
Lemma distinct_size (f : Bytes -> Bytes) (values : list Bytes) (col : ByteColumn) :
  NoDup values -> (∀ v, v ∈ values -> Some v ∈ col) ->
  zlen (concat (f <$> values)) <= zlen (concat (from_option f [] <$> col)).
Proof.
  intros Hd Hin. etransitivity; [apply (concat_submseteq f values (omap (λ o, o) col))|].
  - apply NoDup_submseteq; [done|]. intros v Hv%Hin. apply list_elem_of_omap. by exists (Some v).
  - clear. induction col as [|[v|] col IH]; cbn; rewrite ?length_app; lia.
Qed.

Lemma from_dict_ok (d : DictionaryArray) c options :
  Forall (Forall is_byte) (dict_values d) ->
  zlen (concat (compress_into c <$> dict_values d)) < 2 ^ 32 -> zlen (concat (dict_values d)) < 2 ^ 31 ->
  Forall (λ k, 0 <= k < Z.of_nat (length (dict_values d))) (pa_values (dict_keys d)) ->
  ∃ a, bv_from_dict_array_inner d c options = Ret a /\ view_holds a (dict_values d)
       /\ fa_holds (fsst_buffer a) (Some <$> dict_values d) /\ fa_compressor (fsst_buffer a) = c
       /\ dictionary_keys a = dict_keys d /\ original_arrow_type a = bv_arrow_type options
       /\ string_fingerprints a
          = if bv_build_fingerprints options then Some (fingerprint_of <$> dict_values d) else None.
Proof.
  intros Hb Hc Hs Hk.
  assert (blocks_of c (Some <$> dict_values d) = compress_into c <$> dict_values d) as Eb
    by (unfold blocks_of; by rewrite <- list_fmap_compose).
  destruct (from_byte_array_ok c (Some <$> dict_values d)) as [Ha Hcc].
  { apply Forall_fmap. done. }
  { by rewrite Eb. }
  unfold from_byte_array_with_compressor, from_byte_slices in Ha, Hcc.
  unfold bv_from_dict_array_inner, from_byte_slices.
  rewrite (push_slices_ok c (Some <$> dict_values d) [] 0) in Ha, Hcc |- * by (rewrite Eb; cbn [length]; lia).
  cbn [length]. rewrite length_ends, Eb, length_fmap. cbn [Nat.sub]. rewrite Nat.sub_0_r, Nat.eqb_refl. cbn [negb].
  rewrite Eb in Ha. eexists. split; [done|]. split_and!; try done. constructor; try done; cbn.
  - intros v Hv. by apply shared_prefix_of_ok.
  - intros f. destruct (bv_build_fingerprints options); [by intros [= <-]|done].
Qed.

Lemma view_column_dict {B} (a : LiquidByteViewArray B) utf8 values :
  dict_logical (Dictionary (dictionary_keys a) values utf8) = view_column a values.
Proof. done. Qed.

(** A column that fits a byte view array: 2^16 rows, some not null, the sizes
    within the offsets. *)
Record column_fits (c : FsstCompressor) (col : ByteColumn) : Prop := {
  cf_rows : Z.of_nat (length col) <= 2 ^ 16;
  cf_bytes : Forall (λ item, Forall is_byte (item_bytes item)) col;
  cf_compressed : zlen (concat (from_option (compress_into c) [] <$> col)) < 2 ^ 32;
  cf_plain : zlen (concat (item_bytes <$> col)) < 2 ^ 31;
  cf_value : ∃ v, Some v ∈ col
}.

(** An array that holds the column. *)
Record built (a : LiquidByteViewArray FsstArray) (c : FsstCompressor) (col : ByteColumn)
    (options : ByteViewBuildOptions) (values : list Bytes) : Prop := {
  bu_holds : view_holds a values;
  bu_fsst : fa_holds (fsst_buffer a) (Some <$> values);
  bu_compressor : fa_compressor (fsst_buffer a) = c;
  bu_column : view_column a values = col;
  bu_keys : pa_wf (dictionary_keys a);
  bu_type : original_arrow_type a = bv_arrow_type options;
  bu_fingerprints :
    string_fingerprints a = if bv_build_fingerprints options then Some (fingerprint_of <$> values) else None;
  bu_distinct : NoDup values;
  bu_count : Z.of_nat (length values) <= 2 ^ 16;
  bu_in v : v ∈ values <-> Some v ∈ col;
  bu_len : bv_len a = length col
}.

Lemma from_column_ok utf8 col c options :
  column_fits c col -> ∃ a values, bv_from_byte_array_inner utf8 col c options = Ret a /\ built a c col options values.
Proof.
  intros [Hn Hb Hc Hs [v0 Hv0]].
  destruct (build_dictionary_some col Hn) as [[keys values] E].
  destruct (build_dictionary_ok col keys values E) as [Wf El Hd Hk Hl Hm Hin _].
  assert (values ≠ []) as Hne.
  { intros ->. rewrite <- El in Hv0. unfold dict_logical in Hv0. cbn in Hv0.
    apply list_elem_of_fmap in Hv0 as (o & Ho & _). by destruct o. }
  unfold bv_from_byte_array_inner, byte_array_to_dict_array. rewrite E. cbn [expect]. run_step.
  destruct (from_dict_ok (Dictionary keys values utf8) c options) as (a & Ea & Hh & Hf & Hcc & Ek & Et & Ef); cbn [dict_values dict_keys].
  - apply Forall_forall. intros v Hv%Hin. rewrite Forall_forall in Hb. by apply (Hb (Some v)).
  - pose proof (distinct_size (compress_into c) values col Hd Hin). lia.
  - pose proof (distinct_size id values col Hd Hin) as Hz. rewrite list_fmap_id in Hz.
    change (from_option id [] <$> col) with (item_bytes <$> col) in Hz. lia.
  - eapply Forall_impl; [exact Hk|]. cbn. intros k [->|?]; [|done]. destruct values; [done|cbn; lia].
  - cbn [dict_values dict_keys] in *. rewrite Ea. exists a, values. split; [done|].
    assert (view_column a values = col) as Ev by (rewrite <- (view_column_dict a true), Ek; exact El).
    constructor; try done; try (by rewrite Ek).
    + intros v. split; [apply Hin|]. rewrite <- Ev. intros (o & Ho & _)%list_elem_of_fmap.
      destruct o as [k|]; [|done]. by eapply list_elem_of_lookup_2.
    + rewrite <- Ev. unfold bv_len, view_column. rewrite length_fmap, Ek. unfold pa_logical. rewrite logical_length; [done|].
      unfold pa_wf in Wf. by destruct (pa_nulls keys).
Qed.

(** No more distinct values than the column has. *)
Lemma built_distinct a c col options values :
  built a c col options values -> (length values <= length (remove_dups (omap (λ o, o) col)))%nat.
Proof.
  intros Hbu. apply submseteq_length, NoDup_submseteq; [by apply Hbu|].
  intros v Hv%(bu_in _ _ _ _ _ Hbu). apply elem_of_remove_dups, list_elem_of_omap. by exists (Some v).
Qed.
(** ** Filtered arrays *)

Lemma keep_count {A} (l : list A) m : length l = length m -> length (keep l m) = count_set_bits m.
Proof.
  revert m. induction l as [|x l IH]; intros [|b m] Hl; try done. injection Hl as Hl. specialize (IH m Hl).
  unfold count_set_bits in *. destruct b; cbn; [by rewrite IH|done].
Qed.

Lemma filter_inner_ok {PL : PrimitiveKernelLaws} {B} (a : LiquidByteViewArray B) values m :
  view_holds a values -> pa_wf (dictionary_keys a) -> length m = bv_len a ->
  ∃ f, bv_filter_inner a m = Ret f /\ view_holds f values /\ view_column f values = keep (view_column a values) m
       /\ fsst_buffer f = fsst_buffer a /\ shared_prefix f = shared_prefix a /\ prefix_keys f = prefix_keys a
       /\ string_fingerprints f = string_fingerprints a /\ bv_len f = count_set_bits m.
Proof.
  intros Hh Wf Hm. destruct (prim_filter_ok (dictionary_keys a) m Wf (Nat.eq_le_incl _ _ Hm)) as (keys & E & Wk & Hk & Hin).
  unfold bv_filter_inner. rewrite E. cbn [expect]. run_step. eexists. split; [done|].
  destruct Hh as [H1 H2 H3 H4 H5 H6]. split; [constructor; try done|].
  - cbn. rewrite Forall_forall in H6 |- *. intros k Hk'. by apply H6, Hin.
  - split; [|split_and!; try done].
    + unfold view_column. cbn. by rewrite Hk, keep_fmap.
    + unfold bv_len. cbn. assert (∀ p, pa_wf p -> length (pa_logical p) = length (pa_values p)) as Hlen.
      { intros p Wp. unfold pa_logical. apply logical_length. unfold pa_wf in Wp. by destruct (pa_nulls p). }
      rewrite <- Hlen, Hk by done. apply keep_count. rewrite Hlen by done. done.
Qed.

Lemma negate_ok (g : Bytes -> bool) (column : ByteColumn) :
  negate_array (option_map g <$> column) = option_map (λ v, negb (g v)) <$> column.
Proof. unfold negate_array. rewrite <- list_fmap_compose. apply list_fmap_ext. by intros _ [v|] _. Qed.

End holds.
