(* ===== verification/ByteViewReads.v ===== *)
(** * Reading byte view arrays back

    The serialization of [ByteView.v]: the parts follow each other at aligned
    places, and what is read back holds the same strings and rows.  Then the whole
    column, a selection of its rows and an array read from its bytes are the column
    that was stored; the array whose strings are on disk reads the same. *)

From stdpp Require Import base list.
From Stdlib Require Import ZArith Lia.
From S2P Require Import Prelude Bytes Arrow BitPack DataTypes Ipc CivilDate Expressions Formats.
From S2P Require Import LiquidPrimitive CompactOffsets Fsst ByteDict ByteView ByteCompare ByteViewSpec.
Local Open Scope Z_scope.

(** ** Aligned parts *)

(** The parts after [len] bytes, each at a multiple of eight. *)
Fixpoint layout (len : nat) (parts : list Bytes) : Bytes :=
  match parts with
  | [] => []
  | p :: parts => replicate (align8 len - len) 0 ++ p ++ layout (align8 len + length p) parts
  end.

Lemma length_pad8 r p : length (pad8 r ++ p) = (align8 (length r) + length p)%nat.
Proof. unfold pad8. rewrite !length_app, length_replicate. pose proof (align8_ge (length r)). lia. Qed.

Lemma layout_step r p parts :
  r ++ layout (length r) (p :: parts) = (pad8 r ++ p) ++ layout (length (pad8 r ++ p)) parts.
Proof. rewrite length_pad8. unfold pad8. cbn [layout]. by rewrite <- !app_assoc. Qed.

Lemma read_part_ok r p rest : read_part ((pad8 r ++ p) ++ rest) (length r) (length p) = Ret (p, length (pad8 r ++ p)).
Proof.
  unfold read_part. rewrite length_pad8, length_app, length_pad8. case Nat.ltb_spec; [lia|]. intros _.
  assert (length (pad8 r) = align8 (length r)) as E by (pose proof (length_pad8 r []) as E; rewrite app_nil_r in E; cbn [length] in E; lia).
  by rewrite <- E, <- app_assoc, drop_app_length, take_app_length.
Qed.

(** Reading the next part of a layout leaves the rest. *)
Lemma read_next r p parts :
  read_part (r ++ layout (length r) (p :: parts)) (length r) (length p) = Ret (p, length (pad8 r ++ p))
  /\ r ++ layout (length r) (p :: parts) = (pad8 r ++ p) ++ layout (length (pad8 r ++ p)) parts.
Proof. rewrite layout_step. split; [apply read_part_ok|done]. Qed.

(** ** The parts *)

Lemma view_header_roundtrip h :
  0 <= keys_size h < 2 ^ 32 -> 0 <= compact_offsets_size h < 2 ^ 32 -> 0 <= shared_prefix_size h < 2 ^ 32 ->
  0 <= fsst_raw_size h < 2 ^ 32 -> 0 <= fingerprint_size h < 2 ^ 32 ->
  view_header_from_bytes (view_header_to_bytes h) = Ret h.
Proof.
  intros H1 H2 H3 H4 H5. unfold view_header_from_bytes, view_header_to_bytes.
  rewrite !length_app, !length_le_bytes. cbn [Nat.add Nat.ltb Nat.leb view_header_size].
  assert (∀ (n : nat) (a b : Bytes), length a = n -> drop n (a ++ b) = b) as Ed by (intros n a b <-; apply drop_app_length).
  assert (∀ (n : nat) (a b : Bytes), length a = n -> take n (a ++ b) = a) as Et by (intros n a b <-; apply take_app_length).
  assert (∀ z, length (le_bytes 4 z) = 4%nat) as L by (intros; apply length_le_bytes).
  destruct h as [k o s r f]. cbn [keys_size compact_offsets_size shared_prefix_size fsst_raw_size fingerprint_size] in *.
  assert (∀ l : Bytes, drop 8 l = drop 4 (drop 4 l) /\ drop 12 l = drop 4 (drop 4 (drop 4 l))
                       /\ drop 16 l = drop 4 (drop 4 (drop 4 (drop 4 l)))) as D by (intros l; by rewrite !drop_drop).
  rewrite (proj1 (D _)), (proj1 (proj2 (D _))), (proj2 (proj2 (D _))). rewrite !Ed by apply L. rewrite !Et by apply L.
  rewrite (take_ge (le_bytes 4 f)) by (rewrite L; lia). by rewrite !le_val_bytes_id by (cbn; lia).
Qed.

Definition prefix_key_wf (k : PrefixKey) : Prop := length (prefix7 k) = 7%nat.

Lemma prefix_key_new_wf s : prefix_key_wf (prefix_key_new s).
Proof.
  unfold prefix_key_wf, prefix_key_new, prefix_len. cbn [prefix7]. rewrite length_app, length_take, length_replicate. lia.
Qed.

Lemma length_prefix_bytes ks : Forall prefix_key_wf ks -> length (concat (prefix_key_bytes <$> ks)) = (length ks * 8)%nat.
Proof.
  induction 1 as [|k ks Hk _ IH]; [done|]. cbn [fmap list_fmap concat length]. rewrite length_app, IH.
  unfold prefix_key_bytes. rewrite length_app, Hk. cbn. lia.
Qed.

Lemma decode_prefix_bytes ks : Forall prefix_key_wf ks -> decode_prefix_keys (concat (prefix_key_bytes <$> ks)) = Ret ks.
Proof.
  intros F. unfold decode_prefix_keys. rewrite length_prefix_bytes, Nat.Div0.mod_mul, Nat.eqb_refl, Nat.div_mul by done.
  cbn [negb]. f_equal. induction F as [|[p l] ks Hk _ IH]; [done|]. unfold prefix_key_wf in Hk. cbn [prefix7] in Hk.
  cbn [length prefix_keys_of fmap list_fmap concat]. unfold prefix_key_bytes at 1 3 5. cbn [prefix7 len_byte].
  rewrite <- !app_assoc. f_equal.
  - f_equal; [by rewrite take_app_length'|]. rewrite app_nth2 by lia. by rewrite Hk.
  - rewrite (app_assoc p [l]), drop_app_length' by (rewrite length_app, Hk; done). exact IH.
Qed.

Lemma fingerprint_word bytes : 0 <= fingerprint_of bytes < 2 ^ 32.
Proof.
  unfold fingerprint_of.
  assert (∀ acc, 0 <= acc < 2 ^ 32 ->
            0 <= foldl (λ bits byte, Z.lor bits (Z.shiftl 1 (Z.land byte FINGERPRINT_MASK))) acc bytes < 2 ^ 32) as G;
    [|by apply G].
  induction bytes as [|b bytes IH]; intros acc Ha; [done|]. cbn [foldl]. apply IH.
  assert (0 <= Z.land b FINGERPRINT_MASK < 2 ^ 5) as Hb.
  { unfold FINGERPRINT_MASK, FINGERPRINT_BUCKETS. change (32 - 1) with (Z.ones 5). rewrite Z.land_ones by lia.
    apply Z.mod_pos_bound. lia. }
  assert (0 <= Z.shiftl 1 (Z.land b FINGERPRINT_MASK) < 2 ^ 32) as Hs.
  { rewrite Z.shiftl_1_l. split; [apply Z.pow_nonneg; lia|]. apply Z.pow_lt_mono_r; lia. }
  split; [apply Z.lor_nonneg; lia|]. 
  destruct (decide (Z.lor acc (Z.shiftl 1 (Z.land b FINGERPRINT_MASK)) = 0)) as [->|Hz]; [lia|].
  apply Z.log2_lt_pow2; [pose proof (proj2 (Z.lor_nonneg acc (Z.shiftl 1 (Z.land b FINGERPRINT_MASK)))); lia|].
  rewrite Z.log2_lor by lia. apply Z.max_lub_lt.
  - destruct (decide (acc = 0)) as [->|]; [done|]. apply Z.log2_lt_pow2; lia.
  - rewrite Z.shiftl_1_l, Z.log2_pow2 by lia. lia.
Qed.

(** ** The round trip *)

Section roundtrip.
Context `{NullBufferLaws} `{FastlanesLaws} {PK : PrimitiveKernels} {FL : FsstLib} {LL : FsstLaws} {BK : ByteKernels}
  {BL : ByteKernelLaws}.

Implicit Type a : LiquidByteViewArray FsstArray.

Definition keys_part a : Bytes := bp_to_bytes 16 (bp_from_primitive 16 (dictionary_keys a) 16).

Definition view_parts a : list Bytes :=
  [raw_to_bytes (fa_raw (fsst_buffer a)); keys_part a; write_residuals (fa_compact_offsets (fsst_buffer a));
   concat (prefix_key_bytes <$> prefix_keys a); shared_prefix a; fingerprint_bytes a].

Definition header_part a : Bytes :=
  header_to_bytes (header_new (liquid_data_type_code LByteViewArray) (arrow_byte_type_code (original_arrow_type a)))
  ++ view_header_to_bytes
       (ViewHeader (zlen (keys_part a)) (zlen (write_residuals (fa_compact_offsets (fsst_buffer a))))
          (zlen (shared_prefix a)) (zlen (raw_to_bytes (fa_raw (fsst_buffer a))))
          (zlen (default [] (string_fingerprints a)) * 4)).

Lemma length_view_header h : length (view_header_to_bytes h) = view_header_size.
Proof. unfold view_header_to_bytes. by rewrite !length_app, !length_le_bytes. Qed.

Lemma length_header_part a : length (header_part a) = 36%nat.
Proof. unfold header_part. by rewrite length_app, length_view_header, length_header. Qed.

Lemma view_bytes_shape a : bv_to_bytes a = header_part a ++ layout 36 (view_parts a).
Proof.
  unfold bv_to_bytes. cbv zeta. fold (keys_part a). unfold header_part. rewrite <- app_assoc. do 2 f_equal.
  change (header_size + view_header_size)%nat with 36%nat.
  assert (∀ r, length r = 36%nat -> drop 36 (r ++ layout (length r) (view_parts a)) = layout 36 (view_parts a)) as D.
  { intros r Hr. by rewrite drop_app_length', Hr. }
  rewrite <- (D (replicate 36 0)) by apply length_replicate. unfold view_parts. rewrite !layout_step. cbn [layout].
  by rewrite app_nil_r.
Qed.

Lemma layout_part len parts p : p ∈ parts -> (length p <= length (layout len parts))%nat.
Proof.
  revert len. induction parts as [|q parts IH]; intros len Hp; [by apply not_elem_of_nil in Hp|]. cbn [layout].
  rewrite !length_app. apply elem_of_cons in Hp as [->|Hp]; [lia|]. specialize (IH (align8 len + length q)%nat Hp). lia.
Qed.

Lemma part_size a p : zlen (bv_to_bytes a) < 2 ^ 32 -> p ∈ view_parts a -> 0 <= zlen p < 2 ^ 32.
Proof.
  rewrite view_bytes_shape, length_app. intros Hs Hp. pose proof (layout_part 36 _ _ Hp). lia.
Qed.

Lemma length_fingerprint_bytes a : length (fingerprint_bytes a) = (length (default [] (string_fingerprints a)) * 4)%nat.
Proof. unfold fingerprint_bytes. destruct (string_fingerprints a) as [f|]; [by rewrite length_concat_bytes|done]. Qed.

(** The headers are read back. *)
Lemma header_back a rest :
  zlen (bv_to_bytes a) < 2 ^ 32 ->
  header_from_bytes (header_part a ++ rest)
  = Ret (header_new (liquid_data_type_code LByteViewArray) (arrow_byte_type_code (original_arrow_type a)))
  /\ ∃ bytes, slice (header_part a ++ rest) header_size view_header_size = Ret bytes
      /\ view_header_from_bytes bytes
         = Ret (ViewHeader (zlen (keys_part a)) (zlen (write_residuals (fa_compact_offsets (fsst_buffer a))))
                  (zlen (shared_prefix a)) (zlen (raw_to_bytes (fa_raw (fsst_buffer a))))
                  (zlen (fingerprint_bytes a))).
Proof.
  intros Hs. unfold header_part. rewrite <- app_assoc. split.
  - apply header_roundtrip; [cbn; lia|]. destruct (original_arrow_type a); cbn; lia.
  - eexists. split; [apply slice_ok; [by rewrite length_header|by rewrite length_view_header]|].
    rewrite length_fingerprint_bytes, Nat2Z.inj_mul.
    assert (∀ p, p ∈ view_parts a -> 0 <= zlen p < 2 ^ 32) as Hp by (intros p; by apply part_size).
    pose proof (Hp (fingerprint_bytes a)) as Hpf. rewrite length_fingerprint_bytes in Hpf.
    apply view_header_roundtrip; cbn [keys_size compact_offsets_size shared_prefix_size fsst_raw_size fingerprint_size];
      [apply Hp|apply Hp|apply Hp|apply Hp|rewrite Nat2Z.inj_mul in Hpf; apply Hpf];
      unfold view_parts; repeat first [left|right].
Qed.

(** The fingerprints are read back. *)
Lemma fingerprints_back a values prefix_count :
  view_holds a values -> values ≠ [] -> prefix_count = length values ->
  (if zlen (fingerprint_bytes a) =? 0 then Ret None
   else if negb (zlen (fingerprint_bytes a) mod 4 =? 0) then Panic
   else if negb (zlen (fingerprint_bytes a) =? Z.of_nat prefix_count * 4) then Panic
   else Ret (Some (words_of 4 (length (fingerprint_bytes a) / 4) (fingerprint_bytes a))))
  = Ret (string_fingerprints a).
Proof.
  intros Hh Hne ->. rewrite length_fingerprint_bytes. unfold fingerprint_bytes.
  destruct (string_fingerprints a) as [f|] eqn:Ef; [|done]. cbn [default from_option].
  pose proof (vh_fingerprints a values Hh f Ef) as ->. unfold id. rewrite length_fmap.
  case Z.eqb_spec; [destruct values; [done|cbn; lia]|]. intros _. rewrite Nat2Z.inj_mul, Z.mod_mul by done. cbn [Z.eqb negb].
  case Z.eqb_spec; [|lia]. intros _. cbn [negb]. rewrite Nat.div_mul by done. do 2 f_equal.
  rewrite <- (length_fmap fingerprint_of values), words_of_concat. apply fmap_id_on. intros w (v & -> & _)%list_elem_of_fmap.
  apply Z.mod_small. apply fingerprint_word.
Qed.

(** What is read is what was written, the keys of null rows apart. *)
Lemma view_bytes_ok a values :
  view_holds a values -> fa_holds (fsst_buffer a) (Some <$> values) -> pa_wf (dictionary_keys a) ->
  Z.of_nat (length values) <= 2 ^ 16 -> values ≠ [] -> bp_fits 16 (bp_from_primitive 16 (dictionary_keys a) 16) ->
  zlen (bv_to_bytes a) < 2 ^ 32 ->
  ∃ keys, bv_from_bytes (bv_to_bytes a) (fa_compressor (fsst_buffer a))
          = Ret (ByteView keys (prefix_keys a) (fsst_buffer a) (original_arrow_type a) (shared_prefix a)
                   (string_fingerprints a))
       /\ pa_logical keys = pa_logical (dictionary_keys a) /\ pa_wf keys
       /\ length (pa_values keys) = length (pa_values (dictionary_keys a))
       /\ Forall (λ k, 0 <= k < Z.of_nat (length values)) (pa_values keys).
Proof.
  intros Hh Hf Wk Hn Hne Hfit Hsize. pose proof (vh_keys a values Hh) as Hk.
  assert (Forall (is_word 16) (pa_values (dictionary_keys a))) as Hw by (eapply Forall_impl; [exact Hk|]; unfold is_word; cbn; lia).
  assert (word_size 16) as W16 by (unfold word_size; lia).
  pose proof (bp_roundtrip 16 W16 (dictionary_keys a) 16 Hw ltac:(lia)) as Ep.
  destruct (bp_bytes_values 16 W16 _ _ (bp_from_primitive_wf 16 W16 _ 16 Wk ltac:(lia)) Hfit Ep)
    as (bp & keys & Eb & Ek & Hlog & Hlen & Wf & Hin).
  assert ((λ v, v mod 2 ^ Z.of_nat 16) <$> pa_values (dictionary_keys a) = pa_values (dictionary_keys a)) as Eid.
  { apply fmap_id_on. intros v Hv. rewrite Forall_forall in Hw. apply Z.mod_small. by apply Hw. }
  rewrite Eid in Hlog, Hlen, Hin. cbn [pa_values pa_nulls] in *. fold (keys_part a) in Eb.
  exists keys. split; [|split_and!; try done].
  2: { rewrite Forall_forall in Hk |- *. intros v [->|Hv]%Hin; [|by apply Hk]. destruct values; [done|cbn; lia]. }
  destruct (header_back a (layout 36 (view_parts a)) Hsize) as (E1 & bytes & E2 & E3).
  rewrite view_bytes_shape. unfold bv_from_bytes. cbv zeta. rewrite E1. run_step. unfold header_new. cbn [physical_type].
  assert (arrow_byte_type_of_code (arrow_byte_type_code (original_arrow_type a)) = Ret (original_arrow_type a)) as ->
    by (by destruct (original_arrow_type a)).
  run_step. rewrite E2. run_step. rewrite E3. run_step.
  cbn [keys_size compact_offsets_size shared_prefix_size fsst_raw_size fingerprint_size]. rewrite !Nat2Z.id.
  change (header_size + view_header_size)%nat with 36%nat. rewrite <- (length_header_part a). unfold view_parts.
  destruct (read_next (header_part a) (raw_to_bytes (fa_raw (fsst_buffer a)))
              [keys_part a; write_residuals (fa_compact_offsets (fsst_buffer a));
               concat (prefix_key_bytes <$> prefix_keys a); shared_prefix a; fingerprint_bytes a]) as [-> ->].
  run_step.
  assert (raw_from_bytes (raw_to_bytes (fa_raw (fsst_buffer a))) = Ret (fa_raw (fsst_buffer a))) as ->.
  { rewrite <- (app_nil_r (raw_to_bytes _)). apply raw_roundtrip; [apply Hf|]. rewrite (fah_values _ _ Hf). apply Hf. }
  run_step. set (r1 := pad8 (header_part a) ++ raw_to_bytes (fa_raw (fsst_buffer a))).
  destruct (read_next r1 (keys_part a)
              [write_residuals (fa_compact_offsets (fsst_buffer a));
               concat (prefix_key_bytes <$> prefix_keys a); shared_prefix a; fingerprint_bytes a]) as [-> ->].
  run_step. rewrite Eb. run_step. rewrite Ek. run_step. set (r2 := pad8 r1 ++ keys_part a).
  destruct (read_next r2 (write_residuals (fa_compact_offsets (fsst_buffer a)))
              [concat (prefix_key_bytes <$> prefix_keys a); shared_prefix a; fingerprint_bytes a]) as [-> ->].
  run_step. set (r3 := pad8 r2 ++ write_residuals (fa_compact_offsets (fsst_buffer a))).
  assert ((0 <? zlen (write_residuals (fa_compact_offsets (fsst_buffer a)))) = true) as ->.
  { unfold write_residuals. rewrite length_app, length_le_bytes. apply Z.ltb_lt. lia. }
  rewrite decode_write by (rewrite (fah_offsets _ _ Hf); apply from_offsets_wf). run_step.
  assert (co_len (fa_compact_offsets (fsst_buffer a)) - 1 = length (prefix_keys a))%nat as ->.
  { rewrite (view_length a values Hh), (fah_offsets _ _ Hf), from_offsets_len. cbn [length].
    rewrite length_ends. unfold blocks_of. rewrite !length_fmap. lia. }
  assert (Forall prefix_key_wf (prefix_keys a)) as Fp.
  { rewrite (vh_prefix_keys a values Hh). apply Forall_fmap, Forall_forall. intros v _. apply prefix_key_new_wf. }
  rewrite <- (length_prefix_bytes (prefix_keys a)) by done.
  destruct (read_next r3 (concat (prefix_key_bytes <$> prefix_keys a)) [shared_prefix a; fingerprint_bytes a]) as [-> ->].
  run_step. rewrite decode_prefix_bytes by done. run_step.
  set (r4 := pad8 r3 ++ concat (prefix_key_bytes <$> prefix_keys a)).
  destruct (read_next r4 (shared_prefix a) [fingerprint_bytes a]) as [-> ->]. run_step.
  set (r5 := pad8 r4 ++ shared_prefix a). destruct (read_next r5 (fingerprint_bytes a) []) as [-> _]. run_step.
  rewrite (fingerprints_back a values) by (done || by apply view_length). run_step.
  by destruct (fsst_buffer a).
Qed.
End roundtrip.

(** ** Selected strings *)

Lemma number_of_some o selected i : i ∈ selected -> ∃ j, number_of o selected i = Some (wrapu 16 (o + Z.of_nat j)) /\ selected !! j = Some i.
Proof.
  revert o. induction selected as [|k selected IH]; intros o Hi; [by apply not_elem_of_nil in Hi|]. cbn [number_of].
  case Nat.eqb_spec; intros Hk.
  - exists 0%nat. cbn. rewrite Z.add_0_r. by subst.
  - apply elem_of_cons in Hi as [->|Hi]; [done|]. destruct (IH (o + 1) Hi) as (j & E & Hj). exists (S j).
    rewrite E. split; [do 2 f_equal; lia|done].
Qed.

Section reads.
Context `{NullBufferLaws} `{FastlanesLaws} {PK : PrimitiveKernels} {PL : PrimitiveKernelLaws} {FL : FsstLib}
  {LL : FsstLaws} {BK : ByteKernels} {BL : ByteKernelLaws}.

Implicit Type a : LiquidByteViewArray FsstArray.

(** Renumbered keys select the same strings. *)
Lemma renumber_ok selected (values : list Bytes) l :
  (length selected <= Z.to_nat (2 ^ 16))%nat ->
  (∀ k, Some k ∈ l -> Z.to_nat k ∈ selected) ->
  ∃ l', renumber_all selected l = Ret l'
        /\ (λ key, key ≫= dict_lookup ((λ i, default [] (values !! i)) <$> selected)) <$> l'
           = (λ key, key ≫= (λ k, Some (default [] (values !! Z.to_nat k)))) <$> l
        /\ Forall (λ k, 0 <= k < Z.of_nat (length selected)) (valid_values l').
Proof.
  intros Hs. induction l as [|o l IH]; intros Hin; [by exists []|]. cbn [renumber_all].
  destruct IH as (l' & El & Hl & Fl); [intros k Hk; apply Hin; by right|]. destruct o as [k|]; cbn [renumber].
  - destruct (number_of_some 0 selected (Z.to_nat k)) as (j & E & Hj); [apply Hin; left|].
    pose proof (lookup_lt_Some _ _ _ Hj). unfold wrapu in E. rewrite Z.mod_small in E by lia.
    rewrite E. cbn [expect]. run_step. rewrite El. run_step. eexists. split; [done|]. split.
    + cbn [fmap list_fmap]. f_equal; [|exact Hl]. cbn. unfold dict_lookup.
      replace (Z.to_nat (0 + Z.of_nat j)) with j by lia. by rewrite list_lookup_fmap, Hj.
    + unfold valid_values. cbn. constructor; [lia|exact Fl].
  - run_step. rewrite El. run_step. eexists. split; [done|]. split; [|exact Fl]. cbn [fmap list_fmap]. by f_equal.
Qed.

Lemma hit_positions_in keys n k :
  k ∈ valid_values (pa_logical keys) -> 0 <= k < Z.of_nat n -> Z.to_nat k ∈ hit_positions keys n.
Proof.
  intros Hk Hr. unfold hit_positions. apply list_elem_of_In, filter_In. split; [apply in_seq; lia|].
  apply bool_decide_eq_true. by rewrite Z2Nat.id by lia.
Qed.

(** The content of dictionary keys, and that reading the strings in use keeps it. *)
Definition keys_column (keys : PrimitiveArray) (values : list Bytes) : ByteColumn :=
  (λ key, key ≫= dict_lookup values) <$> pa_logical keys.

Definition keys_in (keys : PrimitiveArray) (values : list Bytes) : Prop :=
  Forall (λ k, 0 <= k < Z.of_nat (length values)) (valid_values (pa_logical keys)).

Lemma keys_column_default keys values :
  keys_in keys values ->
  keys_column keys values = (λ key, key ≫= (λ k, Some (default [] (values !! Z.to_nat k)))) <$> pa_logical keys.
Proof.
  intros F. apply list_fmap_ext. intros i [k|] Hk; [|done]. cbn. unfold dict_lookup, keys_in in *.
  rewrite Forall_forall in F. assert (k ∈ valid_values (pa_logical keys)) as Hin by (apply valid_in; by eapply list_elem_of_lookup_2).
  specialize (F k Hin). cbn in F. destruct (lookup_lt_is_Some_2 values (Z.to_nat k)) as [v ->]; [lia|]. done.
Qed.

Lemma selection_ok keys values :
  keys_in keys values -> Z.of_nat (length values) <= 2 ^ 16 ->
  ∃ new_keys,
    build_dict_selection keys (length values)
    = Ret (List.filter (λ i, bool_decide (Z.of_nat i ∈ valid_values (pa_logical keys))) (seq 0 (length values)), new_keys)
    /\ keys_column new_keys ((λ i, default [] (values !! i)) <$> hit_positions keys (length values))
       = keys_column keys values
    /\ keys_in new_keys ((λ i, default [] (values !! i)) <$> hit_positions keys (length values)).
Proof.
  intros F Hn. unfold build_dict_selection. set (hits := hit_positions keys (length values)).
  assert (length hits <= length values)%nat as Hl.
  { unfold hits, hit_positions. rewrite <- (length_seq (length values) 0) at 2.
    induction (seq 0 (length values)) as [|i l IH]; [done|]. cbn. destruct (bool_decide _); cbn; lia. }
  destruct (renumber_ok hits values (pa_logical keys)) as (l' & El & Hv & Fl); [lia|..].
  { intros k Hk. unfold keys_in in F. rewrite Forall_forall in F. apply valid_in in Hk. by apply hit_positions_in, F. }
  rewrite El. run_step. eexists. split; [done|]. destruct (keys_from_iter_ok l') as (_ & Hk & _).
  unfold keys_in, keys_column at 1. rewrite Hk, keys_column_default, Hv, length_fmap by done. done.
Qed.

Lemma view_keys_in {B} (a : LiquidByteViewArray B) values : view_holds a values -> keys_in (dictionary_keys a) values.
Proof.
  intros Hh. apply Forall_forall. intros k Hk%valid_in. pose proof (vh_keys a values Hh) as F.
  rewrite Forall_forall in F. apply F. by eapply logical_in.
Qed.

(** The dictionary read back, whole or with only the strings in use. *)
Definition reads_as (o : outcome DictionaryArray) {B} (a : LiquidByteViewArray B) values : Prop :=
  ∃ d, o = Ret d /\ dict_logical d = view_column a values
       /\ Forall (λ k, 0 <= k < Z.of_nat (length (dict_values d))) (valid_values (pa_logical (dict_keys d)))
       /\ dict_utf8 d = is_string (original_arrow_type a).

Lemma keyed_ok {B} (a : LiquidByteViewArray B) values :
  view_holds a values -> Z.of_nat (length values) <= 2 ^ 16 ->
  ∃ new_keys,
    build_dict_selection (dictionary_keys a) (length (prefix_keys a))
    = Ret (List.filter (λ i, bool_decide (Z.of_nat i ∈ valid_values (pa_logical (dictionary_keys a)))) (seq 0 (length values)), new_keys)
    /\ reads_as (Ret (to_dict_arrow_inner a new_keys
                        ((λ i, default [] (values !! i)) <$> hit_positions (dictionary_keys a) (length values)))) a values.
Proof.
  intros Hh Hn. rewrite (view_length a values Hh).
  destruct (selection_ok (dictionary_keys a) values) as (new_keys & E & Hc & Hin); [by apply view_keys_in|done|].
  exists new_keys. split; [exact E|]. eexists. split; [done|]. split; [exact Hc|]. split; [exact Hin|done].
Qed.

Lemma to_dict_arrow_ok a values :
  view_holds a values -> fa_holds (fsst_buffer a) (Some <$> values) -> Z.of_nat (length values) <= 2 ^ 16 ->
  reads_as (to_dict_arrow a) a values.
Proof.
  intros Hh Hf Hn. unfold to_dict_arrow. destruct (should_decompress_keyed a).
  - unfold to_dict_arrow_decompress_keyed. destruct (keyed_ok a values Hh Hn) as (new_keys & -> & R). run_step.
    rewrite selected_ok by (done || apply Hh). run_step. exact R.
  - unfold to_dict_arrow_decompress_all. rewrite (to_uncompressed_ok _ (Some <$> values)); rewrite ?item_bytes_some; [|done|apply Hh].
    run_step. eexists. split; [done|]. split; [done|]. split; [|done]. by apply view_keys_in.
Qed.

Lemma to_arrow_type_byte t : is_byte_type (to_arrow_type t) = true.
Proof. by destruct t. Qed.

Lemma cast_reads (o : outcome DictionaryArray) {B} (a : LiquidByteViewArray B) values t :
  reads_as o a values -> (d ← o; expect (cast_dictionary d (to_arrow_type t))) = Ret (view_column a values).
Proof.
  intros (d & -> & Hd & F & _). run_step. by rewrite cast_dictionary_ok, Hd by (done || apply to_arrow_type_byte).
Qed.

Lemma to_arrow_ok a values :
  view_holds a values -> fa_holds (fsst_buffer a) (Some <$> values) -> Z.of_nat (length values) <= 2 ^ 16 ->
  bv_to_arrow_array a = Ret (view_column a values).
Proof. intros Hh Hf Hn. by apply cast_reads, to_dict_arrow_ok. Qed.

(** ** On disk *)

(** A squeezed array with its backing. *)
Record disk_holds (d : LiquidByteViewArray DiskBuffer) (bytes : Bytes) (values : list Bytes) : Prop := {
  dh_view : view_holds d values;
  dh_count : Z.of_nat (length values) <= 2 ^ 16;
  dh_hydrate : ∃ h,
    hydrate (fsst_buffer d) (Some bytes) = Ret (h, [SqRead (zlen bytes)]) /\ fa_holds (fsst_buffer h) (Some <$> values)
    /\ view_holds h values
}.

(** The events of a read of the backing and of a selection. *)
Definition selected_events (bytes : Bytes) (n total : nat) : list SqueezeIoEvent :=
  [SqRead (zlen bytes); SqDecompress (Z.of_nat n) (Z.of_nat total)].

Lemma disk_selected_ok d bytes values P :
  disk_holds d bytes values ->
  disk_to_uncompressed_selected (fsst_buffer d) (List.filter P (seq 0 (length values))) (Some bytes)
  = Ret ((λ i, default [] (values !! i)) <$> List.filter P (seq 0 (length values)),
         selected_events bytes (length (List.filter P (seq 0 (length values)))) (length values)).
Proof.
  intros [Hh _ (h & E & Hf & Hv)]. unfold disk_to_uncompressed_selected. rewrite E. run_step.
  rewrite selected_ok by (done || apply Hv). run_step. by rewrite (view_length h values Hv).
Qed.

Lemma short_cmp (u v : Bytes) : bytes_cmp_short_auto u v = bytes_cmp u v.
Proof.
  assert (∀ n, bytes_cmp_short u v n = bytes_cmp (take n u) (take n v)) as E by (by intros []).
  unfold bytes_cmp_short_auto. rewrite E. clear E. revert v.
  induction u as [|x u IH]; intros [|y v]; try done. cbn [length Nat.min take bytes_cmp Nat.compare].
  by destruct (x ?= y).
Qed.

Lemma disk_dict_ok d bytes values :
  disk_holds d bytes values ->
  ∃ dict events, disk_to_dict_arrow d (Some bytes) = Ret (dict, events) /\ reads_as (Ret dict) d values.
Proof.
  intros Hd. pose proof Hd as [Hh Hn (h & E & Hf & Hv)]. unfold disk_to_dict_arrow.
  destruct (should_decompress_keyed d).
  - destruct (keyed_ok d values Hh Hn) as (new_keys & -> & R). run_step.
    rewrite (disk_selected_ok d bytes values) by done. run_step. by eexists _, _.
  - unfold disk_to_uncompressed. rewrite E. run_step.
    rewrite (to_uncompressed_ok _ (Some <$> values)); rewrite ?item_bytes_some; [|done|apply Hh]. run_step.
    eexists _, _. split; [done|]. eexists. split; [done|]. split; [done|]. split; [|done].
    by apply view_keys_in.
Qed.

(** A filtered array on disk reads its rows. *)
Lemma disk_filter_ok d m f bytes values :
  disk_holds f bytes values -> bv_filter_inner d m = Ret f -> (0 < count_set_bits m)%nat ->
  ∃ events, disk_filter d m (Some bytes) = Ret (view_column f values, events).
Proof.
  intros Hf Ef Hm. unfold disk_filter. case Nat.eqb_spec; [lia|]. intros _. rewrite Ef. run_step.
  unfold disk_filtered_to_arrow. destruct (disk_dict_ok f bytes values Hf) as (dict & events & -> & R). run_step.
  pose proof (cast_reads (Ret dict) f values (original_arrow_type f) R) as Ec. cbn in Ec. rewrite Ec. run_step.
  by eexists.
Qed.

(** An array whose serialization fits the headers. *)
Definition bytes_fit a : Prop :=
  bp_fits 16 (bp_from_primitive 16 (dictionary_keys a) 16) /\ zlen (bv_to_bytes a) < 2 ^ 32.

Lemma from_bytes_ok a values :
  view_holds a values -> fa_holds (fsst_buffer a) (Some <$> values) -> pa_wf (dictionary_keys a) ->
  Z.of_nat (length values) <= 2 ^ 16 -> values ≠ [] -> bytes_fit a ->
  ∃ b, bv_from_bytes (bv_to_bytes a) (fa_compressor (fsst_buffer a)) = Ret b /\ view_holds b values
       /\ fsst_buffer b = fsst_buffer a /\ view_column b values = view_column a values
       /\ original_arrow_type b = original_arrow_type a.
Proof.
  intros Hh Hf Wk Hn Hne [Hfit Hs].
  destruct (view_bytes_ok a values Hh Hf Wk Hn Hne Hfit Hs) as (keys & E & Hl & _ & _ & Hk).
  eexists. split; [exact E|]. destruct Hh as [H1' H2' H3' H4' H5' _]. split; [by constructor|]. split; [done|].
  split; [|done]. unfold view_column. cbn. by rewrite Hl.
Qed.

Lemma disk_hydrate_ok u bytes c b :
  bv_from_bytes bytes c = Ret b ->
  hydrate (Disk u (0%nat, length bytes) c) (Some bytes) = Ret (b, [SqRead (zlen bytes)]).
Proof.
  intros E. unfold hydrate. cbn [expect db_disk_range db_compressor]. run_step. rewrite Nat.sub_0_r.
  assert (slice bytes 0 (length bytes) = Ret bytes) as ->.
  { unfold slice. rewrite decide_True by lia. by rewrite drop_0, take_ge by done. }
  run_step. by rewrite E.
Qed.

(** Squeezing writes the whole array and keeps what answers without the strings. *)
Lemma squeeze_ok a values hint :
  view_holds a values -> fa_holds (fsst_buffer a) (Some <$> values) -> pa_wf (dictionary_keys a) ->
  Z.of_nat (length values) <= 2 ^ 16 -> values ≠ [] -> bytes_fit a ->
  ∃ d, bv_squeeze (Some hint) a = Ret (Some (d, bv_to_bytes a)) /\ disk_holds d (bv_to_bytes a) values
       /\ dictionary_keys d = dictionary_keys a /\ original_arrow_type d = original_arrow_type a
       /\ view_column d values = view_column a values
       /\ disk_to_arrow_array d (Some (bv_to_bytes a)) = Ret (view_column a values, [SqRead (zlen (bv_to_bytes a))])
       /\ (hint = SubstringSearch -> string_fingerprints d = Some (fingerprint_of <$> values)).
Proof.
  intros Hh Hf Wk Hn Hne Hfit. destruct (from_bytes_ok a values Hh Hf Wk Hn Hne Hfit) as (b & E & Hb & Eb & Ec & _).
  assert (∃ f, (match hint with
                | SubstringSearch =>
                    match string_fingerprints a with
                    | Some f => Ret (Some f)
                    | None => values ← to_uncompressed (fsst_buffer a); Ret (Some (build_fingerprints values))
                    end
                | _ => Ret None
                end) = Ret f /\ (∀ f', f = Some f' -> f' = fingerprint_of <$> values)
               /\ (hint = SubstringSearch -> f = Some (fingerprint_of <$> values))) as (f & Ef & Hfp & Hhint).
  { destruct hint; try (exists None; done). destruct (string_fingerprints a) as [f|] eqn:Es.
    - pose proof (vh_fingerprints a values Hh f Es) as ->. eexists. split; [done|]. split; [by intros f' [= <-]|done].
    - rewrite (to_uncompressed_ok _ (Some <$> values)); rewrite ?item_bytes_some; [|done|apply Hh]. run_step.
      eexists. split; [done|]. split; [by intros f' [= <-]|done]. }
  unfold bv_squeeze. rewrite Ef. run_step. eexists. split; [done|]. destruct Hh as [H1' H2' H3' H4' H5' H6'].
  match goal with |- disk_holds ?d _ _ /\ _ => set (sq := d) end.
  assert (hydrate (fsst_buffer sq) (Some (bv_to_bytes a)) = Ret (b, [SqRead (zlen (bv_to_bytes a))])) as Eh
    by exact (disk_hydrate_ok _ _ _ _ E).
  split; [|split_and!; try done].
  - split; [by constructor|done|]. exists b. split; [exact Eh|]. by rewrite Eb.
  - unfold disk_to_arrow_array. rewrite Eh. run_step. rewrite (to_arrow_ok b values), Ec by (done || by rewrite Eb). done.
Qed.
End reads.

(** ** The theorems *)

Section theorems.
Context `{NullBufferLaws} `{FastlanesLaws} {PK : PrimitiveKernels} {PL : PrimitiveKernelLaws} {FL : FsstLib}
  {LL : FsstLaws} {BK : ByteKernels} {BL : ByteKernelLaws}.

Lemma built_nonempty a c col options values : built a c col options values -> (∃ v, Some v ∈ col) -> values ≠ [].
Proof.
  intros Hbu (v & Hv) ->. apply (bu_in _ _ _ _ _ Hbu) in Hv. by apply not_elem_of_nil in Hv.
Qed.

(** C20: a column of strings, one of them not null, is read back from a byte view
    array as it was stored, whether all of the dictionary is decompressed or only
    the strings in use, and so are a selection of its rows and, when the lengths of
    the byte format fit their 32-bit fields ([bytes_fit]), an array read from its
    own bytes. The column has at most 2^16 rows, its strings take less than 2^31
    bytes and compressed less than 2^32; columns of nulls only are left out. *)
Theorem byte_view_roundtrip utf8 col c options m (Hfits : column_fits c col) (Hm : length m = length col) :
  ∃ a, bv_from_byte_array_inner utf8 col c options = Ret a
       /\ bv_to_arrow_array a = Ret col
       /\ bv_filter a m = Ret (keep col m)
       /\ (bytes_fit a -> ∃ b, bv_from_bytes (bv_to_bytes a) c = Ret b /\ bv_to_arrow_array b = Ret col).
Proof.
  destruct (from_column_ok utf8 col c options Hfits) as (a & values & E & Hbu). exists a. split; [done|].
  destruct Hbu as [Hh Hf Hc Hcol Hk Ht Hfp Hd Hn Hin Hlen] eqn:EB.
  split; [by rewrite (to_arrow_ok a values), Hcol|]. split.
  - destruct (filter_inner_ok a values m Hh Hk) as (f & Ef & Hf' & Ec & Eb & _); [by rewrite Hlen|].
    unfold bv_filter. rewrite Ef. run_step. rewrite (to_arrow_ok f values), Ec, Hcol by (done || by rewrite Eb). done.
  - intros Hb. pose proof (built_nonempty _ _ _ _ _ Hbu (cf_value _ _ Hfits)) as Hne.
    destruct (from_bytes_ok a values Hh Hf Hk Hn Hne Hb) as (b & Eb & Hb' & Ebuf & Ecol & _). rewrite Hc in Eb.
    exists b. split; [done|]. by rewrite (to_arrow_ok b values), Ecol, Hcol by (done || by rewrite Ebuf).
Qed.
End theorems.
