(* ===== verification/ByteViewAnswers.v ===== *)
(** * The answers of byte view arrays

    Theorems on [ByteCompare.v]: comparisons with a literal, in memory and on disk,
    give for each row the answer of comparing its string; where they do not. *)

From stdpp Require Import base list.
From Stdlib Require Import ZArith Lia.
From S2P Require Import Prelude Bytes Arrow BitPack DataTypes Ipc CivilDate Expressions Formats.
From S2P Require Import LiquidPrimitive CompactOffsets Fsst ByteDict ByteView ByteCompare ByteViewSpec ByteViewReads.
Local Open Scope Z_scope.

Section answers.
Context `{NullBuffers} `{Fastlanes} {PK : PrimitiveKernels} {FL : FsstLib} {LL : FsstLaws} {BK : ByteKernels}
  {BL : ByteKernelLaws}.

Implicit Type a : LiquidByteViewArray FsstArray.

Lemma equals_short s ns :
  (length ns <= 7)%nat ->
  (match known_len (prefix_key_new s) with
   | Some l => (l =? length ns)%nat && same_prefix l (prefix_key_new s) ns
   | None => false
   end) = bytes_eqb s ns.
Proof.
  intros Hn. rewrite known_len_spec. unfold bytes_eqb. case Nat.ltb_spec; intros Hl.
  - case Nat.eqb_spec; intros E; cbn [andb].
    + rewrite same_prefix_short by lia. done.
    + symmetry. apply bool_decide_eq_false. by intros ->.
  - symmetry. apply bool_decide_eq_false. intros ->. lia.
Qed.

Lemma suffix_eqb {B} (a : LiquidByteViewArray B) needle s :
  starts_with_shared a needle = true ->
  bytes_eqb s (drop (length (shared_prefix a)) needle) = bytes_eqb (shared_prefix a ++ s) needle.
Proof.
  intros Hs. rewrite (starts_with_shared_spec a needle Hs) at 2. unfold bytes_eqb. apply bool_decide_ext.
  split; [by intros ->|by intros ?%app_inv_head].
Qed.

(** The gate before the compressed strings are compared lets equal ones pass. *)
Lemma gate_equal s ns :
  (7 < length ns)%nat -> bytes_eqb s ns = true ->
  length_gate (length ns) (prefix_key_new s) && same_prefix prefix_len (prefix_key_new s) ns = true.
Proof.
  intros Hl ->%bytes_eqb_iff. rewrite length_gate_self. unfold prefix_len. by rewrite same_prefix_refl by lia.
Qed.

Lemma compare_equals_ok a values needle :
  view_holds a values -> fa_holds (fsst_buffer a) (Some <$> values) -> Forall is_byte needle ->
  compare_equals a needle = Ret (option_map (answer (BEquality EEq) needle) <$> view_column a values).
Proof.
  intros Hh Hb Hn. unfold compare_equals. destruct (starts_with_shared a needle) eqn:Hs; cbn [negb].
  - set (ns := drop (length (shared_prefix a)) needle). case Nat.leb_spec; intros Hl; unfold prefix_len in Hl.
    + rewrite <- (spread_values a values) by done. f_equal. rewrite (vh_prefix_keys a values Hh), <- list_fmap_compose.
      apply list_fmap_ext. intros i v Hv. destruct (vh_shared a values Hh v) as [s ->]; [by eapply list_elem_of_lookup_2|].
      cbn. rewrite remaining_app, equals_short by done. by apply suffix_eqb.
    + rewrite (each_lookup _ (answer (BEquality EEq) needle) values).
      * run_step. rewrite (view_length a values Hh), omap_seq. by apply spread_values.
      * intros i v Hv. destruct (prefix_key_at a values i v Hh Hv) as (s & -> & ->). cbn [answer].
        rewrite <- (suffix_eqb a needle s Hs). fold ns.
        destruct (length_gate (length ns) (prefix_key_new s) && same_prefix prefix_len (prefix_key_new s) ns) eqn:E.
        -- rewrite (compressed_at _ values i (shared_prefix a ++ s)) by done. run_step. f_equal.
           rewrite compressed_eqb; [by apply eq_sym, suffix_eqb| |done].
           pose proof (vh_bytes a values Hh) as F. rewrite Forall_forall in F. apply F. by eapply list_elem_of_lookup_2.
        -- f_equal. destruct (bytes_eqb s ns) eqn:En; [|done]. by rewrite gate_equal in E.
      * rewrite (view_length a values Hh). apply Forall_forall. intros i Hi%elem_of_seq. lia.
  - apply spread_constant; [done| |].
    + rewrite (view_length a values Hh). eapply Forall_impl; [apply Hh|]. cbn. lia.
    + intros v Hv. by apply (not_shared a values).
Qed.

Lemma compare_inner_ok a values needle op :
  view_holds a values -> fa_holds (fsst_buffer a) (Some <$> values) -> Forall is_byte needle ->
  Forall (λ k, k < Z.of_nat (bv_len a)) (pa_values (dictionary_keys a)) ->
  compare_with_inner a needle op = Ret (option_map (answer (BComparison op) needle) <$> view_column a values).
Proof.
  intros Hh Hb Hn Hk. unfold compare_with_inner, compare_with_prefix.
  destruct (compare_with_shared_prefix a needle op) as [r|] eqn:Hs.
  - rewrite bool_decide_eq_true_2 by done. run_step. apply spread_constant; [done..|].
    intros v Hv. destruct (vh_shared a values Hh v Hv) as [s ->]. symmetry. by apply (shared_prefix_ok a).
  - set (answers := compare_key _ _ <$> prefix_keys a).
    assert (length answers = length values) as Hl by (unfold answers; rewrite length_fmap; by apply view_length).
    pose proof (resolve (answer (BComparison op) needle) (λ i, holds op (bytes_cmp (default [] (values !! i)) needle))
                  answers values Hl) as R.
    rewrite <- (spread_values a values) by done. rewrite <- R.
    + case_bool_decide as E; [by rewrite E|]. 
      unfold open_positions. rewrite Hl, selected_ok by (done || apply Hh). run_step. by rewrite <- list_fmap_compose.
    + intros j v b Hj Hv. by eapply compare_decides.
    + intros j v Hv. by rewrite Hv.
Qed.

(** ** Substrings *)

(** Candidates are the open answers of a filter that rejects or says nothing. *)
Definition filter_answers (needle : Bytes) (values : list Bytes) : list (option bool) :=
  (λ v, if might_contain (fingerprint_of v) (fingerprint_of needle) then None else Some false) <$> values.

Lemma candidates_open needle values :
  compute_fingerprint_candidates needle (fingerprint_of <$> values)
  = (decided (filter_answers needle values), open_positions (filter_answers needle values)).
Proof.
  unfold compute_fingerprint_candidates, filter_answers, decided. rewrite length_fmap. f_equal.
  - induction values as [|v values IH]; [done|]. cbn. rewrite IH. by destruct (might_contain _ _).
  - unfold open_positions. rewrite length_fmap. apply filter_ext_in. intros i Hi%in_seq.
    destruct (lookup_lt_is_Some_2 values i) as [v Hv]; [lia|]. rewrite list_lookup_fmap, Hv.
    rewrite (nth_lookup_Some _ i 0 (fingerprint_of v)) by (by rewrite list_lookup_fmap, Hv). cbn.
    by destruct (might_contain _ _).
Qed.

Lemma filter_decides needle values j v b :
  filter_answers needle values !! j = Some (Some b) -> values !! j = Some v -> b = contains_bytes needle v.
Proof.
  unfold filter_answers. rewrite list_lookup_fmap. intros Hb Hv. rewrite Hv in Hb. cbn in Hb.
  destruct (might_contain _ _) eqn:E; [done|]. injection Hb as <-.
  destruct (contains_bytes needle v) eqn:C; [|done]. by rewrite (fingerprint_sound needle v C) in E.
Qed.

(** The matches among the candidates, spread over the dictionary. *)
Lemma candidates_ok needle values operator :
  is_utf8 needle = true -> plain_pattern needle ->
  let answers := filter_answers needle values in
  apply_like_match_on_candidates (decided answers) (open_positions answers)
    ((λ i, default [] (values !! i)) <$> open_positions answers) needle operator
  = Ret (answer (BSubString operator) needle <$> values).
Proof.
  intros Hu Hp answers. unfold apply_like_match_on_candidates. rewrite Hu. cbn [negb].
  rewrite strings_like_ok by done. cbn [expect]. run_step. rewrite <- !list_fmap_compose.
  pose proof (resolve (contains_bytes needle) (λ i, contains_bytes needle (default [] (values !! i))) answers values) as R.
  match goal with
  | |- context [set_results _ _ ?l] =>
      change l with ((λ i, contains_bytes needle (default [] (values !! i))) <$> open_positions answers)
  end. f_equal.
  rewrite R; [|unfold answers, filter_answers; by rewrite length_fmap|intros j v b; apply filter_decides|by intros j v ->].
  destruct operator; cbn; [done|]. by rewrite <- list_fmap_compose.
Qed.

Definition no_candidate (needle : Bytes) (values : list Bytes) : bool :=
  forallb (λ v, negb (might_contain (fingerprint_of v) (fingerprint_of needle))) values.

Lemma no_open needle values : no_candidate needle values = true <-> open_positions (filter_answers needle values) = [].
Proof.
  unfold no_candidate. rewrite forallb_forall. split.
  - intros Hn. destruct (open_positions _) as [|j l] eqn:E; [done|]. exfalso.
    assert (j ∈ open_positions (filter_answers needle values)) as Hj by (rewrite E; left). apply open_in in Hj.
    unfold filter_answers in Hj. rewrite list_lookup_fmap in Hj. destruct (values !! j) as [v|] eqn:Hv; [|done].
    cbn in Hj. rewrite <- (negb_involutive (might_contain _ _)), Hn in Hj; [done|].
    apply list_elem_of_In. by eapply list_elem_of_lookup_2.
  - intros E v [i Hv]%list_elem_of_In%list_elem_of_lookup. destruct (might_contain _ _) eqn:M; [|done]. exfalso.
    assert (i ∈ open_positions (filter_answers needle values)) as Hi; [|rewrite E in Hi; by apply not_elem_of_nil in Hi].
    apply open_in. unfold filter_answers. by rewrite list_lookup_fmap, Hv; cbn; rewrite M.
Qed.

Lemma decided_false needle values : no_candidate needle values = true -> decided (filter_answers needle values) = (λ _, false) <$> values.
Proof.
  unfold no_candidate, decided, filter_answers. intros Hn. rewrite <- list_fmap_compose. apply list_fmap_ext.
  intros i v _. cbn. by destruct (might_contain _ _).
Qed.

Lemma compare_like_ok a values needle operator :
  view_holds a values -> fa_holds (fsst_buffer a) (Some <$> values) ->
  is_utf8 needle = true -> plain_pattern needle -> no_candidate needle values = false ->
  compare_like_substring a needle operator (fingerprint_of <$> values)
  = Ret (option_map (answer (BSubString operator) needle) <$> view_column a values).
Proof.
  intros Hh Hb Hu Hp Hc. unfold compare_like_substring. rewrite candidates_open.
  rewrite bool_decide_eq_false_2 by (intros E%no_open; by rewrite Hc in E).
  assert (length (filter_answers needle values) = length values) as Hl by (unfold filter_answers; by rewrite length_fmap).
  pose proof (candidates_ok needle values operator Hu Hp) as E. cbn zeta in E.
  unfold open_positions in E |- *. rewrite Hl in E |- *. rewrite selected_ok by (done || apply Hh). run_step.
  rewrite E. run_step. by apply spread_values.
Qed.

(** Without a candidate both operators answer false. *)
Lemma compare_like_none a values needle operator :
  view_holds a values -> no_candidate needle values = true ->
  compare_like_substring a needle operator (fingerprint_of <$> values)
  = Ret (option_map (λ _, false) <$> view_column a values).
Proof.
  intros Hh Hc. unfold compare_like_substring. rewrite candidates_open.
  rewrite bool_decide_eq_true_2 by (by apply no_open). run_step. rewrite decided_false by done.
  by apply spread_values.
Qed.

Lemma no_candidate_contains needle values v : no_candidate needle values = true -> v ∈ values -> contains_bytes needle v = false.
Proof.
  unfold no_candidate. rewrite forallb_forall. intros Hn Hv%list_elem_of_In%Hn.
  destruct (contains_bytes needle v) eqn:C; [|done]. by rewrite (fingerprint_sound needle v C) in Hv.
Qed.

Lemma compare_with_ok a values needle op :
  view_holds a values -> fa_holds (fsst_buffer a) (Some <$> values) -> Forall is_byte needle ->
  (length values <= bv_len a)%nat -> decidable_op op = true ->
  compare_with a needle op = Ret (option_map (answer op needle) <$> view_column a values).
Proof.
  intros Hh Hb Hn Hl Hop. destruct op as [c|[]|s]; try done; cbn [compare_with].
  - apply compare_inner_ok; try done. eapply Forall_impl; [apply Hh|]. cbn. lia.
  - by apply compare_equals_ok.
  - rewrite (compare_equals_ok a values) by done. run_step. by rewrite negate_ok.
Qed.

(** ** On disk *)

Lemma disk_inner_ok d bytes values needle op :
  disk_holds d bytes values -> Forall is_byte needle -> (length values <= bv_len d)%nat ->
  ∃ events, disk_compare_with_inner d needle op (Some bytes)
            = Ret (option_map (answer (BComparison op) needle) <$> view_column d values, events).
Proof.
  intros Hd Hn Hk. pose proof Hd as [Hh _ _]. unfold disk_compare_with_inner, compare_with_prefix.
  destruct (compare_with_shared_prefix d needle op) as [r|] eqn:Hs.
  - rewrite bool_decide_eq_true_2 by done. run_step.
    rewrite (spread_constant d values (answer (BComparison op) needle)); [run_step; by eexists|done|..].
    + eapply Forall_impl; [apply Hh|]. cbn. lia.
    + intros v Hv. destruct (vh_shared d values Hh v Hv) as [s ->]. symmetry. by apply (shared_prefix_ok d).
  - set (answers := compare_key _ _ <$> prefix_keys d).
    assert (length answers = length values) as Hl by (unfold answers; rewrite length_fmap; by apply view_length).
    pose proof (resolve (answer (BComparison op) needle)
                  (λ i, holds op (bytes_cmp_short_auto (default [] (values !! i)) needle)) answers values Hl) as R.
    specialize (R (λ j v b Hj Hv, compare_decides d values op needle j v b Hh Hn Hs Hj Hv)
                  ltac:(intros j v Hv; cbn; by rewrite Hv, short_cmp)).
    case_bool_decide as E; [rewrite E in R; cbn in R; rewrite R|].
    + run_step. rewrite spread_values by done. run_step. by eexists.
    + unfold open_positions in R |- *. rewrite Hl in R |- *. rewrite (disk_selected_ok d bytes values) by done. run_step.
      rewrite <- list_fmap_compose. cbn in R. unfold compose. rewrite R. rewrite spread_values by done. run_step. by eexists.
Qed.

Lemma disk_equals_ok d bytes values needle :
  disk_holds d bytes values -> Forall is_byte needle ->
  ∃ events, disk_compare_equals d needle (Some bytes)
            = Ret (option_map (answer (BEquality EEq) needle) <$> view_column d values, events).
Proof.
  intros Hd Hn. pose proof Hd as [Hh _ (h & E & Hf & Hv)]. unfold disk_compare_equals, compare_equals_with_prefix.
  destruct (starts_with_shared d needle) eqn:Hs.
  - set (answers := equals_key _ <$> prefix_keys d).
    assert (length answers = length values) as Hl by (unfold answers; rewrite length_fmap; by apply view_length).
    pose proof (resolve (answer (BEquality EEq) needle) (λ i, bytes_eqb (default [] (values !! i)) needle) answers values Hl) as R.
    specialize (R (λ j v b Hj Hv, equals_decides d values needle j v b Hh Hs Hj Hv) ltac:(intros j v Ej; cbn; by rewrite Ej)).
    case_bool_decide as Eo; [rewrite Eo in R; cbn in R; rewrite R|].
    + run_step. rewrite spread_values by done. run_step. by eexists.
    + rewrite E. run_step. rewrite (each_map _ (λ i, bytes_eqb (default [] (values !! i)) needle)).
      * run_step. rewrite R, spread_values by done. run_step. by eexists.
      * intros i Hi. pose proof (open_range answers) as F. rewrite Forall_forall in F. specialize (F i Hi). cbn in F.
        destruct (lookup_lt_is_Some_2 values i) as [v Ev]; [lia|]. rewrite (compressed_at _ values i v) by done. run_step.
        rewrite Ev. cbn. f_equal. apply compressed_eqb; [|done]. pose proof (vh_bytes d values Hh) as Fb.
        rewrite Forall_forall in Fb. apply Fb. by eapply list_elem_of_lookup_2.
  - rewrite bool_decide_eq_true_2 by done. run_step.
    rewrite (spread_constant d values (answer (BEquality EEq) needle)); [run_step; by eexists|done|..].
    + rewrite (view_length d values Hh). eapply Forall_impl; [apply Hh|]. cbn. lia.
    + intros v Hin. by apply (not_shared d values).
Qed.

Lemma disk_compare_ok d bytes values needle op :
  disk_holds d bytes values -> Forall is_byte needle -> (length values <= bv_len d)%nat -> decidable_op op = true ->
  ∃ events, disk_compare_with d needle op (Some bytes)
            = Ret (option_map (answer op needle) <$> view_column d values, events).
Proof.
  intros Hd Hn Hl Hop. destruct op as [c|[]|s]; try done; cbn [disk_compare_with].
  - by apply disk_inner_ok.
  - by apply disk_equals_ok.
  - destruct (disk_equals_ok d bytes values needle Hd Hn) as (events & ->). run_step. rewrite negate_ok. by eexists.
Qed.

(** The pattern between the two [%]. *)
Lemma plain_inner needle : plain_pattern needle -> needle ≠ [] -> substring_pattern_bytes ([37] ++ needle ++ [37]) = Some needle.
Proof.
  intros Hp Hne. unfold substring_pattern_bytes. rewrite !length_app. cbn [length]. case Nat.ltb_spec; [lia|]. intros _.
  assert (take (1 + (length needle + 1) - 2) (drop 1 ([37] ++ needle ++ [37])) = needle) as ->.
  { cbn [app]. rewrite skipn_cons, drop_0. apply take_app_length'. lia. }
  assert (nth (1 + (length needle + 1) - 1) ([37] ++ needle ++ [37]) 0 = 37) as ->.
  { rewrite app_assoc, app_nth2 by (rewrite length_app; cbn; lia). rewrite length_app. cbn [length].
    by replace (_ - _)%nat with 0%nat by lia. }
  cbn [app nth negb orb Z.eqb Pos.eqb]. rewrite bool_decide_eq_false_2 by done.
  destruct (existsb _ needle) eqn:E; [|done]. exfalso. apply existsb_exists in E as (b & Hb & Eb).
  unfold plain_pattern in Hp. rewrite Forall_forall in Hp. apply list_elem_of_In, Hp in Hb as (H1 & H2 & _).
  apply orb_prop in Eb as [E|E]; by apply Z.eqb_eq in E.
Qed.

Lemma no_candidate_ext needle l k : (∀ v, v ∈ l <-> v ∈ k) -> no_candidate needle l = no_candidate needle k.
Proof.
  intros Hlk. unfold no_candidate. apply eq_true_iff_eq. rewrite !forallb_forall.
  split; intros Hf v Hv; apply Hf; apply list_elem_of_In, Hlk, list_elem_of_In, Hv.
Qed.

(** A step that is undefined makes the traversal undefined. *)
Lemma each_undefined {A B} (f : A -> outcome B) l x :
  (∀ y, f y = Undefined \/ ∃ z, f y = Ret z) -> x ∈ l -> f x = Undefined -> each f l = Undefined.
Proof.
  intros Hf Hx Ex. induction l as [|y l IH]; [by apply not_elem_of_nil in Hx|]. cbn.
  destruct (Hf y) as [->|[z Ey]]; [done|]. apply elem_of_cons in Hx as [->|Hx]; [by rewrite Ex|].
  rewrite Ey. run_step. by rewrite IH.
Qed.

Lemma spread_undefined {B} (a : LiquidByteViewArray B) results k :
  k ∈ pa_values (dictionary_keys a) -> Z.of_nat (length results) <= k -> map_dictionary_results a results = Undefined.
Proof.
  intros Hk Hl. unfold map_dictionary_results. rewrite (each_undefined _ _ k); [done| |done|].
  - intros y. destruct (results !! Z.to_nat y) as [b|]; [by right; exists b|by left].
  - by rewrite lookup_ge_None_2 by lia.
Qed.
End answers.


(** ** Theorems *)

Section theorems.
Context `{NullBufferLaws} `{FastlanesLaws} {PK : PrimitiveKernels} {PL : PrimitiveKernelLaws} {FL : FsstLib} {LL : FsstLaws}
  {BK : ByteKernels} {BL : ByteKernelLaws}.

(** C18: a comparison ([=], [<>], [<], [<=], [>], [>=]) of a byte view array with a
    literal, on the rows a filter selects, is the comparison of their strings, a
    null for a null: deciding from the shared prefix, from seven bytes and a length
    byte, or on compressed strings changes no answer. Conditions: the column has at
    most 2^16 rows, one of them not null, its strings take less than 2^31 bytes and
    compressed less than 2^32, the filter has a bit for each row and selects at
    least as many rows as the column has distinct strings. Outside of them the code
    may read out of bounds: see [shared_prefix_answer_out_of_bounds] for a filter
    that selects fewer rows and [null_column_undefined] for a column of nulls. *)
Theorem byte_view_predicates_exact utf8 col c options m expr op needle
    (Hfits : column_fits c col) (Hneedle : Forall is_byte needle) (Hm : length m = length col)
    (Hexpr : byte_view_expression expr = Ret (inl (op, needle))) (Hop : decidable_op op = true)
    (Hrows : (length (remove_dups (omap (λ o, o) col)) <= count_set_bits m)%nat) :
  ∃ a, bv_from_byte_array_inner utf8 col c options = Ret a
       /\ bv_try_eval_predicate a expr m = Ret (Some (option_map (answer op needle) <$> keep col m)).
Proof.
  destruct (from_column_ok utf8 col c options Hfits) as (a & values & E & Hbu). exists a. split; [done|].
  pose proof (built_distinct _ _ _ _ _ Hbu) as Hd.
  destruct (filter_inner_ok a values m) as (f & Ef & Hh & Ec & Hb & _ & _ & _ & Hl); [apply Hbu..| |].
  { rewrite Hm. symmetry. apply Hbu. }
  unfold bv_try_eval_predicate. rewrite Ef. run_step. rewrite Hexpr. run_step. destruct op as [o|o|o]; [..|done].
  all: rewrite (compare_with_ok f values needle); [|done|rewrite Hb; apply Hbu|done|lia|done].
  all: run_step; by rewrite Ec, (bu_column _ _ _ _ _ Hbu).
Qed.

(** C26: a substring predicate [LIKE '%p%'] on an array with fingerprints answers,
    for every selected row, whether its string contains the pattern, so no matching
    row is lost: the strings a fingerprint rejects do not contain the pattern. [NOT
    LIKE] is its negation, except that with no string left by the fingerprints it
    answers false for every row. Conditions: the pattern is not empty, is valid
    UTF-8 and has none of the characters that [LIKE] interprets (percent, underscore
    and the backslash, with which a fingerprint can reject a matching string); the
    column has at most 2^16 rows, one of them not null, its strings take less than
    2^31 bytes and compressed less than 2^32; the filter has a bit for each row. *)
Theorem byte_view_like utf8 col c t m expr operator needle
    (Hfits : column_fits c col) (Hm : length m = length col)
    (Hexpr : byte_view_expression expr = Ret (inl (BSubString operator, [37] ++ needle ++ [37])))
    (Hpattern : plain_pattern needle) (Hne : needle ≠ []) (Hutf8 : is_utf8 needle = true) :
  ∃ a, bv_from_byte_array_inner utf8 col c (BVOptions t true) = Ret a
       /\ bv_try_eval_predicate a expr m
          = Ret (Some ((if no_candidate needle (omap (λ o, o) col) then option_map (λ _, false)
                        else option_map (answer (BSubString operator) needle)) <$> keep col m)).
Proof.
  destruct (from_column_ok utf8 col c (BVOptions t true) Hfits) as (a & values & E & Hbu). exists a. split; [done|].
  destruct (filter_inner_ok a values m) as (f & Ef & Hh & Ec & Hb & _ & _ & Hf & _); [apply Hbu..| |].
  { rewrite Hm. symmetry. apply Hbu. }
  rewrite (bu_fingerprints _ _ _ _ _ Hbu) in Hf. cbn [bv_build_fingerprints] in Hf.
  unfold bv_try_eval_predicate. rewrite Ef. run_step. rewrite Hexpr. run_step. unfold compare_with. rewrite Hf.
  rewrite plain_inner by done. cbn [expect]. run_step.
  assert (no_candidate needle (omap (λ o, o) col) = no_candidate needle values) as ->.
  { apply no_candidate_ext. intros v. rewrite (bu_in _ _ _ _ _ Hbu), list_elem_of_omap.
    split; [by intros (o & Ho & ->)|by exists (Some v)]. }
  rewrite <- (bu_column _ _ _ _ _ Hbu), <- Ec. destruct (no_candidate needle values) eqn:En.
  - by rewrite compare_like_none by done.
  - rewrite compare_like_ok; [done|done|rewrite Hb; apply Hbu|done..].
Qed.

(** The answer that the shared prefix decides has one entry per row, not per
    string, and is then indexed without a check by the dictionary's keys: when a
    selected row has a string whose key is past the number of selected rows, the
    predicate reads out of bounds. *)
Theorem shared_prefix_answer_out_of_bounds (a : LiquidByteViewArray FsstArray) m f expr op needle k
    (Hfilter : bv_filter_inner a m = Ret f)
    (Hexpr : byte_view_expression expr = Ret (inl (BComparison op, needle)))
    (Hdecided : is_Some (compare_with_shared_prefix f needle op))
    (Hkey : k ∈ pa_values (dictionary_keys f)) (Hpast : Z.of_nat (bv_len f) <= k) :
  bv_try_eval_predicate a expr m = Undefined.
Proof.
  unfold bv_try_eval_predicate. rewrite Hfilter. run_step. rewrite Hexpr. run_step. cbn [compare_with].
  destruct Hdecided as [r Er]. unfold compare_with_inner, compare_with_prefix. rewrite Er.
  rewrite bool_decide_eq_true_2 by done. run_step. rewrite (spread_undefined f _ k); [done|done|].
  by rewrite length_replicate.
Qed.

(** A column of nulls has no string, and every key of its rows is zero: any
    comparison reads past the end of the empty answers. *)
Theorem null_column_undefined (a : LiquidByteViewArray FsstArray) m f expr op needle
    (Hfilter : bv_filter_inner a m = Ret f) (Hnone : prefix_keys f = []) (Hrow : pa_values (dictionary_keys f) ≠ [])
    (Hkeys : Forall (λ k, k = 0) (pa_values (dictionary_keys f)))
    (Hexpr : byte_view_expression expr = Ret (inl (BEquality op, needle))) :
  bv_try_eval_predicate a expr m = Undefined.
Proof.
  assert (compare_equals f needle = Undefined) as E.
  { assert (map_dictionary_results f [] = Undefined) as Eu.
    { destruct (pa_values (dictionary_keys f)) as [|k ks] eqn:Ek; [done|]. apply Forall_cons in Hkeys as [-> _].
      apply (spread_undefined f [] 0); [rewrite Ek; left|done]. }
    unfold compare_equals. rewrite Hnone. destruct (starts_with_shared f needle); cbn; [|done].
    case_match; [done|]. cbn. run_step. done. }
  unfold bv_try_eval_predicate. rewrite Hfilter. run_step. rewrite Hexpr. run_step.
  destruct op; cbn [compare_with]; by rewrite E.
Qed.

(** With fingerprints, a [LIKE] whose pattern is not [%..%] around a text without
    wildcards panics, and without fingerprints it is left to the caller. *)
Theorem like_pattern_panics (a : LiquidByteViewArray FsstArray) m f expr op pattern fingerprints
    (Hfilter : bv_filter_inner a m = Ret f)
    (Hexpr : byte_view_expression expr = Ret (inl (BSubString op, pattern)))
    (Hpattern : substring_pattern_bytes pattern = None) :
  (string_fingerprints f = Some fingerprints -> bv_try_eval_predicate a expr m = Panic)
  /\ (string_fingerprints f = None -> bv_try_eval_predicate a expr m = Ret None).
Proof.
  unfold bv_try_eval_predicate. rewrite Hfilter. run_step. rewrite Hexpr. run_step. split; intros E; rewrite E; [|done].
  cbn [compare_with]. rewrite E, Hpattern. done.
Qed.

(** C19: an array whose strings were squeezed to disk reads back as the column,
    selects the rows a filter keeps, and answers a comparison with a literal as the
    array in memory did: from the prefixes alone, or from them and the backing.
    Conditions: the column has at most 2^16 rows, one of them not null, its strings
    take less than 2^31 bytes and compressed less than 2^32, the filter has a bit
    for each row and selects at least as many rows as the column has distinct
    strings (with fewer, the answer that the shared prefix decides is read out of
    bounds here too), and the lengths of the byte format fit their 32-bit fields
    ([bytes_fit]). *)
Theorem byte_view_on_disk utf8 col c options hint m expr op needle
    (Hfits : column_fits c col) (Hneedle : Forall is_byte needle) (Hm : length m = length col)
    (Hexpr : byte_view_expression expr = Ret (inl (op, needle))) (Hop : decidable_op op = true)
    (Hrows : (length (remove_dups (omap (λ o, o) col)) <= count_set_bits m)%nat) :
  ∃ a, bv_from_byte_array_inner utf8 col c options = Ret a
       /\ (bytes_fit a ->
           ∃ d bytes events read_events, bv_squeeze (Some hint) a = Ret (Some (d, bytes))
             /\ disk_to_arrow_array d (Some bytes) = Ret (col, [SqRead (zlen bytes)])
             /\ disk_filter d m (Some bytes) = Ret (keep col m, read_events)
             /\ disk_try_eval_predicate d expr m (Some bytes)
                = Ret (Some (option_map (answer op needle) <$> keep col m), events)).
Proof.
  destruct (from_column_ok utf8 col c options Hfits) as (a & values & E & Hbu). exists a. split; [done|]. intros Hfit.
  pose proof (built_distinct _ _ _ _ _ Hbu) as Hdist.
  pose proof (built_nonempty _ _ _ _ _ Hbu (cf_value _ _ Hfits)) as Hne.
  assert (0 < length values)%nat as Hpos by (destruct values; [done|cbn; lia]).
  destruct Hbu as [Hh Hf Hc Hcol Hk Ht _ _ Hn _ Hlen].
  destruct (squeeze_ok a values hint Hh Hf Hk Hn Hne Hfit) as (d & Ed & Hd & Ekeys & _ & Ecol & Eread & _).
  exists d, (bv_to_bytes a). pose proof (dh_view _ _ _ Hd) as Hdv.
  destruct (filter_inner_ok d values m Hdv) as (f & Ef & Hfv & Efc & Efb & _ & _ & Eff & Hfl).
  { by rewrite Ekeys. }
  { unfold bv_len in *. by rewrite Ekeys, Hlen. }
  assert (disk_holds f (bv_to_bytes a) values) as Hfd by (split; [done|done|rewrite Efb; apply Hd]).
  destruct (disk_compare_ok f _ values needle op Hfd Hneedle ltac:(lia) Hop) as (events & Eev).
  destruct (disk_filter_ok d m f _ values Hfd Ef) as (read_events & Er); [lia|].
  exists events, read_events. split; [done|]. split; [|split].
  - by rewrite Eread, Hcol.
  - by rewrite Er, Efc, Ecol, Hcol.
  - unfold disk_try_eval_predicate. rewrite Ef. run_step. rewrite Hexpr. run_step. rewrite Eev. run_step.
    rewrite Efc, Ecol, Hcol. by destruct op.
Qed.
End theorems.

(** ** Witnesses *)

(** An equation on concrete data, evaluated once. *)
Ltac by_vm := match goal with |- _ = ?r => vm_cast_no_check (@eq_refl _ r) end.

(** "ab", "abacus", null, "ab", "about". *)
Definition words : ByteColumn :=
  [Some [97; 98]; Some [97; 98; 97; 99; 117; 115]; None; Some [97; 98]; Some [97; 98; 111; 117; 116]].

Lemma words_fit : column_fits escape words.
Proof.
  split; try (vm_compute; congruence); [|by exists [97; 98]; left].
  repeat constructor; unfold is_byte; lia.
Qed.

Definition compare_with_literal (op : DFByteOperator) (needle : Bytes) : BExpr :=
  BBinary BOther op (BLiteral (SUtf8 (Some needle))).

Lemma byte_view_predicates_exact_witness :
  ∃ a, bv_from_byte_array_inner true words escape (BVOptions BUtf8 false) = Ret a
       /\ bv_try_eval_predicate a (compare_with_literal DLtEq [97; 98; 97; 99]) [true; true; true; false; true]
          = Ret (Some [Some true; Some false; None; Some false]).
Proof.
  apply (byte_view_predicates_exact true words escape (BVOptions BUtf8 false) [true; true; true; false; true]
           (compare_with_literal DLtEq [97; 98; 97; 99]) (BComparison CLtEq) [97; 98; 97; 99]).
  - exact words_fit.
  - repeat constructor; unfold is_byte; lia.
  - reflexivity.
  - reflexivity.
  - reflexivity.
  - vm_compute. lia.
Defined.

(** [LIKE '%bo%'] on the words, and [NOT LIKE '%z%']: every word passes, none is
    selected. *)
Lemma byte_view_like_witness :
  (∃ a, bv_from_byte_array_inner true words escape (BVOptions BUtf8 true) = Ret a
        /\ bv_try_eval_predicate a (compare_with_literal DLikeMatch [37; 98; 111; 37]) [true; true; true; true; true]
           = Ret (Some [Some false; Some false; None; Some false; Some true]))
  /\ ∃ a, bv_from_byte_array_inner true words escape (BVOptions BUtf8 true) = Ret a
          /\ bv_try_eval_predicate a (compare_with_literal DNotLikeMatch [37; 122; 37]) [true; true; true; true; true]
             = Ret (Some [Some false; Some false; None; Some false; Some false]).
Proof.
  split.
  - apply (byte_view_like true words escape BUtf8 [true; true; true; true; true]
             (compare_with_literal DLikeMatch [37; 98; 111; 37]) Contains [98; 111]);
      [exact words_fit|reflexivity|reflexivity|repeat constructor; lia|done|reflexivity].
  - apply (byte_view_like true words escape BUtf8 [true; true; true; true; true]
             (compare_with_literal DNotLikeMatch [37; 122; 37]) NotContains [122]);
      [exact words_fit|reflexivity|reflexivity|repeat constructor; lia|done|reflexivity].
Defined.

Definition value_of {A} (default : A) (o : outcome A) : A := match o with Ret a => a | _ => default end.

Definition no_words : LiquidByteViewArray FsstArray :=
  ByteView (Prim [] None) [] (from_byte_array_with_compressor [] escape) BUtf8 [] None.

Definition array_of (col : ByteColumn) (fingerprints : bool) : LiquidByteViewArray FsstArray :=
  value_of no_words (bv_from_byte_array_inner true col escape (BVOptions BUtf8 fingerprints)).

(** "ab", "ac", "ad", and the last of them. *)
Definition three_words : LiquidByteViewArray FsstArray :=
  Eval vm_compute in array_of [Some [97; 98]; Some [97; 99]; Some [97; 100]] false.
Definition last_word : LiquidByteViewArray FsstArray :=
  Eval vm_compute in value_of no_words (bv_filter_inner three_words [false; false; true]).

Lemma shared_prefix_answer_out_of_bounds_witness :
  bv_from_byte_array_inner true [Some [97; 98]; Some [97; 99]; Some [97; 100]] escape (BVOptions BUtf8 false) = Ret three_words
  /\ bv_try_eval_predicate three_words (compare_with_literal DLt [122]) [false; false; true] = Undefined.
Proof.
  split; [by_vm|].
  apply (shared_prefix_answer_out_of_bounds three_words [false; false; true] last_word _ CLt [122] 2).
  - by_vm.
  - by_vm.
  - exists true. vm_compute. reflexivity.
  - vm_compute. left.
  - vm_compute. congruence.
Defined.

Definition nulls : LiquidByteViewArray FsstArray := Eval vm_compute in array_of [None; None] false.

Lemma null_column_undefined_witness :
  bv_from_byte_array_inner true [None; None] escape (BVOptions BUtf8 false) = Ret nulls
  /\ bv_try_eval_predicate nulls (compare_with_literal DEq [122]) [true; true] = Undefined.
Proof.
  split; [by_vm|]. apply (null_column_undefined nulls [true; true] nulls _ EEq [122]).
  - by_vm.
  - reflexivity.
  - vm_compute. congruence.
  - vm_compute. repeat constructor.
  - reflexivity.
Defined.

Definition words_with_fingerprints : LiquidByteViewArray FsstArray := Eval vm_compute in array_of words true.

Lemma like_pattern_panics_witness :
  bv_from_byte_array_inner true words escape (BVOptions BUtf8 true) = Ret words_with_fingerprints
  /\ bv_try_eval_predicate words_with_fingerprints (compare_with_literal DLikeMatch [97; 37])
       [true; true; true; true; true] = Panic.
Proof.
  split; [by_vm|].
  apply (like_pattern_panics words_with_fingerprints [true; true; true; true; true] words_with_fingerprints
           (compare_with_literal DLikeMatch [97; 37]) Contains [97; 37] [2621454; 6; 3178502]).
  - by_vm.
  - reflexivity.
  - reflexivity.
  - by_vm.
Defined.

Definition words_array : LiquidByteViewArray FsstArray := Eval vm_compute in array_of words false.

Lemma words_array_built : bv_from_byte_array_inner true words escape (BVOptions BUtf8 false) = Ret words_array.
Proof. by_vm. Qed.

Lemma words_array_fits : bytes_fit words_array.
Proof. split; [split_and!|]; apply Z.ltb_lt; by_vm. Qed.

Lemma byte_view_roundtrip_witness :
  bv_to_arrow_array words_array = Ret words
  /\ bv_filter words_array [true; false; true; false; true] = Ret [Some [97; 98]; None; Some [97; 98; 111; 117; 116]]
  /\ ∃ b, bv_from_bytes (bv_to_bytes words_array) escape = Ret b /\ bv_to_arrow_array b = Ret words.
Proof.
  destruct (byte_view_roundtrip true words escape (BVOptions BUtf8 false) [true; false; true; false; true]
              words_fit eq_refl) as (a & E & Ha & Hf & Hb).
  rewrite words_array_built in E. injection E as <-. split; [exact Ha|]. split; [exact Hf|]. apply Hb, words_array_fits.
Defined.

(** The needle is longer than the prefix keys tell: the backing is read. *)
Lemma byte_view_on_disk_witness :
  ∃ d bytes events, bv_squeeze (Some PredicateColumn) words_array = Ret (Some (d, bytes))
    /\ disk_to_arrow_array d (Some bytes) = Ret (words, [SqRead (zlen bytes)])
    /\ disk_try_eval_predicate d (compare_with_literal DGtEq [97; 98; 97; 99]) [true; true; true; false; true] (Some bytes)
       = Ret (Some [Some false; Some true; None; Some true], events).
Proof.
  destruct (byte_view_on_disk true words escape (BVOptions BUtf8 false) PredicateColumn [true; true; true; false; true]
              (compare_with_literal DGtEq [97; 98; 97; 99]) (BComparison CGtEq) [97; 98; 97; 99])
    as (a & E & H).
  - exact words_fit.
  - repeat constructor; unfold is_byte; lia.
  - reflexivity.
  - reflexivity.
  - reflexivity.
  - vm_compute. lia.
  - rewrite words_array_built in E. injection E as <-.
    destruct (H words_array_fits) as (d & bytes & events & reads & Ed & Er & _ & Ep). by exists d, bytes, events.
Defined.
