(* ===== verification/ByteArray.v ===== *)
(** * Byte arrays

    Model of [LiquidByteArray] in [src/src/storage/src/liquid_array/byte_array.rs]:
    bit-packed dictionary keys and FSST-compressed values.  Unlike the byte views it
    keeps nothing beside them: equality is decided by the position of the
    compressed needle, every other predicate by Arrow on the dictionary. *)

From stdpp Require Import base list.
From Stdlib Require Import ZArith Lia.
From S2P Require Import Prelude Bytes Arrow BitPack DataTypes Ipc CivilDate Expressions Formats.
From S2P Require Import LiquidPrimitive CompactOffsets Fsst ByteDict ByteView ByteCompare.
Local Open Scope Z_scope.

Section byte_array.
Context `{NullBuffers} `{Fastlanes} {PK : PrimitiveKernels} {FL : FsstLib} {BK : ByteKernels}.

Record LiquidByteArray : Type := ByteArr {
  ba_keys : BitPackedArray;
  ba_values : FsstArray;
  ba_arrow_type : ArrowByteType
}.

Definition ba_len (a : LiquidByteArray) : nat := bp_len (ba_keys a).
Definition ba_nulls (a : LiquidByteArray) : option Arrow.NullBuffer := bp_nulls (ba_keys a).

(** ** Building *)

Definition ba_from_dict_array_inner (array : DictionaryArray) (compressor : FsstCompressor)
    (arrow_type : ArrowByteType) : LiquidByteArray :=
  let bit_width_for_key := bit_width_for_key array in
  ByteArr (bp_from_primitive 16 (dict_keys array) (Z.to_nat bit_width_for_key))
    (from_byte_array_with_compressor (Some <$> dict_values array) compressor) arrow_type.

(** From a byte array, or from a view array with the type of the views. *)
Definition ba_from_byte_array (utf8 : bool) (array : ByteColumn) (compressor : FsstCompressor)
    (arrow_type : ArrowByteType) : outcome LiquidByteArray :=
  dict ← byte_array_to_dict_array utf8 array; Ret (ba_from_dict_array_inner dict compressor arrow_type).

Definition ba_train_from_arrow (utf8 : bool) (array : ByteColumn) (arrow_type : ArrowByteType)
    : outcome (FsstCompressor * LiquidByteArray) :=
  dict ← byte_array_to_dict_array utf8 array;
  let compressor := train_compressor (Some <$> dict_values dict) in
  Ret (compressor, ba_from_dict_array_inner dict compressor arrow_type).

Definition dict_arrow_type (array : DictionaryArray) : ArrowByteType :=
  if dict_utf8 array then BDict16Utf8 else BDict16Binary.

Definition ba_train_from_arrow_dict (array : DictionaryArray) : outcome (FsstCompressor * LiquidByteArray) :=
  let compressor := train_compressor (Some <$> dict_values array) in
  dict ← gc_dictionary_array array;
  Ret (compressor, ba_from_dict_array_inner dict compressor (dict_arrow_type array)).

Definition ba_from_dict_array (array : DictionaryArray) (compressor : FsstCompressor) : outcome LiquidByteArray :=
  dict ← gc_dictionary_array array; Ret (ba_from_dict_array_inner dict compressor (dict_arrow_type array)).

(** ** Reading *)

Definition ba_to_dict_arrow_decompress_all (a : LiquidByteArray) : outcome DictionaryArray :=
  primitive_key ← bp_to_primitive 16 (ba_keys a);
  values ← to_uncompressed (ba_values a);
  Ret (Dictionary primitive_key values (is_string (ba_arrow_type a))).

Definition ba_to_dict_arrow_decompress_keyed (a : LiquidByteArray) : outcome DictionaryArray :=
  primitive_key ← bp_to_primitive 16 (ba_keys a);
  '(selected, new_keys) ← build_dict_selection primitive_key (fa_len (ba_values a));
  values ← to_uncompressed_selected (ba_values a) selected;
  Ret (Dictionary new_keys values (is_string (ba_arrow_type a))).

Definition ba_to_dict_arrow (a : LiquidByteArray) : outcome DictionaryArray :=
  if (ba_len a <? 2048)%nat || (ba_len a <? fa_len (ba_values a))%nat then ba_to_dict_arrow_decompress_keyed a
  else ba_to_dict_arrow_decompress_all a.

Definition to_dict_arrow_with_selection (a : LiquidByteArray) (selection : list bool) : outcome DictionaryArray :=
  primitive_key ← bp_to_primitive 16 (ba_keys a);
  filtered_keys ← expect (prim_filter primitive_key selection);
  values ← to_uncompressed (ba_values a);
  Ret (Dictionary filtered_keys values (is_string (ba_arrow_type a))).

Definition ba_to_arrow_array (a : LiquidByteArray) : outcome ByteColumn :=
  dict ← ba_to_dict_arrow a; expect (cast_dictionary dict (to_arrow_type (ba_arrow_type a))).

Definition ba_filter_inner (a : LiquidByteArray) (filter : list bool) : outcome LiquidByteArray :=
  primitive_keys ← bp_to_primitive 16 (ba_keys a);
  filtered_keys ← expect (prim_filter primitive_keys filter);
  Ret (ByteArr
         match bp_bit_width (ba_keys a) with
         | Some bit_width => bp_from_primitive 16 filtered_keys bit_width
         | None => bp_new_null_array (length (pa_values filtered_keys))
         end (ba_values a) (ba_arrow_type a)).

(** ** Predicates *)

(** The first value whose compressed bytes are the needle's. *)
Fixpoint position_of_compressed (values : FsstArray) (compressed : Bytes) (positions : list nat)
    : outcome (option nat) :=
  match positions with
  | [] => Ret None
  | i :: positions =>
      slice ← get_compressed_slice values i;
      if bytes_eqb slice compressed then Ret (Some i) else position_of_compressed values compressed positions
  end.

Definition ba_compare_equals (a : LiquidByteArray) (needle : Bytes) : outcome BooleanArray :=
  let compressed := compress_into (fa_compressor (ba_values a)) needle in
  keys ← bp_to_primitive 16 (ba_keys a);
  idx ← position_of_compressed (ba_values a) compressed (seq 0 (fa_len (ba_values a)));
  Ret (match idx with
       | Some idx => keys_eq keys (wrapu 16 (Z.of_nat idx))
       | None => boolean_array (replicate (length (pa_values keys)) false) (ba_nulls a)
       end).

Definition ba_compare_not_equals (a : LiquidByteArray) (needle : Bytes) : outcome BooleanArray :=
  result ← ba_compare_equals a needle; Ret (negate_array result).

(** The operators that are handed to Arrow. *)
Definition passed_on (op : DFByteOperator) : bool := match op with DOther _ => false | _ => true end.

Definition like_operator (negated case_insensitive : bool) : DFByteOperator :=
  match negated, case_insensitive with
  | false, false => DLikeMatch
  | true, false => DNotLikeMatch
  | false, true => DILikeMatch
  | true, true => DNotILikeMatch
  end.

Definition ba_try_eval_predicate_inner (expr : BExpr) (a : LiquidByteArray) : outcome (option BooleanArray) :=
  match expr with
  | BBinary _ op (BLiteral literal) =>
      match op, get_string_needle literal with
      | DEq, Some needle => result ← ba_compare_equals a needle; Ret (Some result)
      | DNotEq, Some needle => result ← ba_compare_not_equals a needle; Ret (Some result)
      | _, _ =>
          dict_array ← ba_to_dict_arrow a;
          Ret (if passed_on op then dictionary_cmp op dict_array literal else None)
      end
  | BLike negated case_insensitive _ (BLiteral literal) =>
      arrow_dict ← ba_to_dict_arrow a;
      Ret (dictionary_cmp (like_operator negated case_insensitive) arrow_dict literal)
  | _ => Ret None
  end.

Definition ba_try_eval_predicate (a : LiquidByteArray) (expr : BExpr) (filter : list bool)
    : outcome (option BooleanArray) :=
  filtered ← ba_filter_inner a filter; ba_try_eval_predicate_inner expr filtered.

(** ** Bytes *)

Definition byte_header_size : nat := 8.

Definition byte_header_to_bytes (key_size value_size : Z) : Bytes := le_bytes 4 key_size ++ le_bytes 4 value_size.

Definition byte_header_from_bytes (bytes : Bytes) : outcome (Z * Z) :=
  if (length bytes <? byte_header_size)%nat then Panic
  else Ret (le_val (take 4 bytes), le_val (take 4 (drop 4 bytes))).

Definition ba_to_bytes (a : LiquidByteArray) : Bytes :=
  let header_size := (header_size + byte_header_size)%nat in
  let result := replicate header_size 0 in
  let keys_bytes := bp_to_bytes 16 (ba_keys a) in
  let result := pad8 (result ++ keys_bytes) in
  let values_bytes := fa_to_bytes (ba_values a) in
  let result := result ++ values_bytes in
  header_to_bytes (header_new (liquid_data_type_code LByteArray) (arrow_byte_type_code (ba_arrow_type a)))
  ++ byte_header_to_bytes (zlen keys_bytes) (zlen values_bytes) ++ drop header_size result.

Definition ba_from_bytes (bytes : Bytes) (compressor : FsstCompressor) : outcome LiquidByteArray :=
  let header_size := (header_size + byte_header_size)%nat in
  header ← header_from_bytes bytes;
  header_bytes ← slice bytes Ipc.header_size byte_header_size;
  '(keys_size, values_size) ← byte_header_from_bytes header_bytes;
  original_arrow_type ← arrow_byte_type_of_code (physical_type header);
  let keys_end := (header_size + Z.to_nat keys_size)%nat in
  if (length bytes <? keys_end)%nat then Panic
  else
    let values_start := align8 keys_end in
    let values_end := (values_start + Z.to_nat values_size)%nat in
    if (length bytes <? values_end)%nat then Panic
    else
      keys_data ← slice bytes header_size (Z.to_nat keys_size);
      keys ← bp_from_bytes 16 keys_data;
      values_data ← slice bytes values_start (Z.to_nat values_size);
      values ← fa_from_bytes values_data compressor;
      Ret (ByteArr keys values original_arrow_type).
End byte_array.
