(* ===== verification/ByteArraySpec.v ===== *)
(** * Byte arrays answer as the column

    Proofs on [ByteArray.v]: reads, filters, the byte format and predicates of a
    byte array are those of the column it was built from. *)

From stdpp Require Import base list.
From Stdlib Require Import ZArith Lia.
From S2P Require Import Prelude Bytes Arrow BitPack DataTypes Ipc CivilDate Expressions Formats.
From S2P Require Import LiquidPrimitive CompactOffsets Fsst ByteDict ByteView ByteCompare ByteViewSpec ByteViewReads.
From S2P Require Import ByteViewReads ByteArray.
Local Open Scope Z_scope.

Section byte_array_lemmas.
Context `{NullBufferLaws} `{FastlanesLaws} {PK : PrimitiveKernels} {PL : PrimitiveKernelLaws} {FL : FsstLib}
  {LL : FsstLaws} {BK : ByteKernels} {BL : ByteKernelLaws}.

Lemma W16 : word_size 16.
Proof. unfold word_size. lia. Qed.

(** What an array holds: unpacked keys [p] into distinct values. *)
Record byte_holds (a : LiquidByteArray) (p : PrimitiveArray) (values : list Bytes) : Prop := {
  bh_keys : bp_to_primitive 16 (ba_keys a) = Ret p;
  bh_packed : bp_wf 16 (ba_keys a);
  bh_wf : pa_wf p;
  bh_words : Forall (is_word 16) (pa_values p);
  bh_width b : bp_bit_width (ba_keys a) = Some b -> Z.of_nat (length values) <= 2 ^ Z.of_nat b;
  bh_in : keys_in p values;
  bh_values : fa_holds (ba_values a) (Some <$> values);
  bh_bytes : Forall (Forall is_byte) values;
  bh_size : zlen (concat values) < 2 ^ 31;
  bh_distinct : NoDup values;
  bh_count : Z.of_nat (length values) < 2 ^ 16
}.

Lemma byte_len a p values : byte_holds a p values -> ba_len a = length (pa_values p) /\ fa_len (ba_values a) = length values.
Proof.
  intros Hh. split.
  - destruct (bp_to_primitive_wf 16 _ (bh_packed _ _ _ Hh)) as (p' & E & Hl & _).
    rewrite (bh_keys _ _ _ Hh) in E. injection E as <-. unfold ba_len, bp_len. done.
  - rewrite (fa_len_ok _ (Some <$> values)) by apply Hh. by rewrite length_fmap.
Qed.

(** ** Reading *)

Lemma ba_dict_ok a p values :
  byte_holds a p values ->
  ∃ d, ba_to_dict_arrow a = Ret d /\ dict_logical d = keys_column p values /\ keys_in (dict_keys d) (dict_values d)
       /\ dict_utf8 d = is_string (ba_arrow_type a).
Proof.
  intros Hh. destruct (byte_len a p values Hh) as [_ Hv]. unfold ba_to_dict_arrow.
  destruct ((ba_len a <? 2048)%nat || (ba_len a <? fa_len (ba_values a))%nat).
  - unfold ba_to_dict_arrow_decompress_keyed. rewrite (bh_keys _ _ _ Hh). run_step. rewrite Hv.
    destruct (selection_ok p values) as (new_keys & -> & Hc & Hin); [apply Hh|pose proof (bh_count _ _ _ Hh); lia|].
    run_step. rewrite selected_ok by apply Hh. run_step. eexists. split; [done|]. split; [exact Hc|]. by split.
  - unfold ba_to_dict_arrow_decompress_all. rewrite (bh_keys _ _ _ Hh). run_step.
    rewrite (to_uncompressed_ok _ (Some <$> values)); rewrite ?item_bytes_some; [|apply Hh..]. run_step.
    eexists. split; [done|]. split; [done|]. split; [apply Hh|done].
Qed.

Lemma ba_arrow_ok a p values : byte_holds a p values -> ba_to_arrow_array a = Ret (keys_column p values).
Proof.
  intros Hh. unfold ba_to_arrow_array. destruct (ba_dict_ok a p values Hh) as (d & -> & Hd & Hin & _). run_step.
  by rewrite cast_dictionary_ok, Hd by (done || apply to_arrow_type_byte).
Qed.

(** ** Filters *)

Lemma keep_replicate {A} (x : A) n m : keep (replicate n x) m = replicate (length (keep (replicate n x) m)) x.
Proof. revert m. induction n as [|n IH]; intros [|[] m]; try done; cbn; [by rewrite IH at 1|apply IH]. Qed.

Lemma keys_in_keep q q' values m : keys_in q values -> pa_logical q' = keep (pa_logical q) m -> keys_in q' values.
Proof.
  unfold keys_in. rewrite !Forall_forall. intros F E k Hk%valid_in. rewrite E in Hk. apply keep_in in Hk.
  by apply F, valid_in.
Qed.

Lemma ba_filter_ok a p values m :
  byte_holds a p values -> length m = ba_len a ->
  ∃ f q, ba_filter_inner a m = Ret f /\ byte_holds f q values /\ keys_column q values = keep (keys_column p values) m
         /\ ba_arrow_type f = ba_arrow_type a /\ length (pa_values q) = length (keep (pa_logical p) m).
Proof.
  intros Hh Hm. destruct (byte_len a p values Hh) as [Hl _]. rewrite Hl in Hm.
  destruct (prim_filter_ok p m (bh_wf _ _ _ Hh) (Nat.eq_le_incl _ _ Hm)) as (r & E & Wr & Hr & Hin).
  unfold ba_filter_inner. rewrite (bh_keys _ _ _ Hh). run_step. rewrite E. cbn [expect]. run_step.
  assert (length (pa_values r) = length (keep (pa_logical p) m)) as Hrl by (rewrite <- Hr; symmetry; by apply logical_len).
  assert (Forall (is_word 16) (pa_values r)) as Fr.
  { pose proof (bh_words _ _ _ Hh) as F. rewrite Forall_forall in F |- *. intros v Hv. by apply F, Hin. }
  assert (keys_in r values) as Kr by (eapply keys_in_keep; [apply Hh|exact Hr]).
  destruct (bp_bit_width (ba_keys a)) as [b|] eqn:Eb.
  - pose proof (bpw_width _ _ (bh_packed _ _ _ Hh) b Eb) as Hb. pose proof (bh_width _ _ _ Hh b Eb) as Hw.
    set (q := Prim ((λ v, v mod 2 ^ Z.of_nat b) <$> pa_values r) (pa_nulls r)).
    assert (pa_logical q = keep (pa_logical p) m) as Hq.
    { rewrite <- Hr. unfold pa_logical, q. cbn [pa_values pa_nulls]. rewrite logical_map. apply map_valid_id. intros v Hv.
      unfold keys_in in Kr. rewrite Forall_forall in Kr. apply Z.mod_small. specialize (Kr v Hv). cbn in Kr. lia. }
    eexists _, q. split; [done|]. split; [|split_and!; try done].
    + destruct Hh as [_ _ _ _ _ Hi Hv Hby Hsz Hd Hct]. split; try done.
      * apply (bp_roundtrip 16 W16 r b Fr Hb).
      * by apply (bp_from_primitive_wf 16 W16).
      * unfold pa_wf, q in *. cbn. destruct (pa_nulls r); [|done]. by rewrite length_fmap.
      * cbn. apply Forall_fmap, Forall_forall. intros v _. unfold is_word. cbn.
        pose proof (Z.mod_pos_bound v (2 ^ Z.of_nat b) ltac:(lia)).
        pose proof (Z.pow_le_mono_r 2 (Z.of_nat b) 16 ltac:(lia) ltac:(lia)). lia.
      * cbn. by intros b' [= <-].
      * exact (keys_in_keep p q values m Hi Hq).
    + unfold keys_column. by rewrite Hq, keep_fmap.
    + unfold q. cbn. by rewrite length_fmap.
  - set (q := pa_new_null (length (pa_values r))).
    assert (pa_logical q = keep (pa_logical p) m) as Hq.
    { unfold q. rewrite pa_new_null_logical, Hrl.
      destruct (bp_to_primitive_wf 16 _ (bh_packed _ _ _ Hh)) as (p' & Ep & _ & _ & Hn).
      rewrite (bh_keys _ _ _ Hh) in Ep. injection Ep as <-. rewrite Hn by done. symmetry. apply keep_replicate. }
    eexists _, q. split; [done|]. split; [|split_and!; try done].
    + destruct Hh as [_ _ _ _ _ Hi Hv Hby Hsz Hd Hct]. split; try done.
      * apply (bp_new_null_wf 16 W16).
      * unfold pa_wf, q, pa_new_null. cbn. by rewrite nb_new_null_bits, !length_replicate.
      * unfold q, pa_new_null. cbn. apply Forall_replicate. unfold is_word. lia.
      * exact (keys_in_keep p q values m Hi Hq).
    + unfold keys_column. by rewrite Hq, keep_fmap.
    + unfold q, pa_new_null. cbn. by rewrite length_replicate.
Qed.

(** ** Building *)

Lemma key_width n : 0 <= n < 2 ^ 16 -> 1 <= get_bit_width n <= 16 /\ n < 2 ^ get_bit_width n.
Proof.
  intros Hn. destruct (get_bit_width_range n) as [[H1' H2'] H3']; [lia|].
  pose proof (get_bit_width_least n 16 ltac:(lia) ltac:(lia) ltac:(lia)). lia.
Qed.

Lemma ba_build_ok (d : DictionaryArray) c t :
  pa_wf (dict_keys d) -> NoDup (dict_values d) -> Z.of_nat (length (dict_values d)) < 2 ^ 16 ->
  Forall (λ k, k = 0 \/ 0 <= k < Z.of_nat (length (dict_values d))) (pa_values (dict_keys d)) ->
  keys_in (dict_keys d) (dict_values d) -> Forall (Forall is_byte) (dict_values d) ->
  zlen (concat (compress_into c <$> dict_values d)) < 2 ^ 32 -> zlen (concat (dict_values d)) < 2 ^ 31 ->
  byte_holds (ba_from_dict_array_inner d c t) (dict_keys d) (dict_values d)
  /\ fa_compressor (ba_values (ba_from_dict_array_inner d c t)) = c.
Proof.
  intros Wf Hd Hn Hr Hin Hb Hc Hs.
  destruct (key_width (Z.of_nat (length (dict_values d)))) as [Hw Hlt]; [lia|].
  set (b := Z.to_nat (get_bit_width (Z.of_nat (length (dict_values d))))).
  assert (Z.of_nat b = get_bit_width (Z.of_nat (length (dict_values d)))) as Eb by lia.
  assert (Forall (is_word 16) (pa_values (dict_keys d))) as Fw.
  { eapply Forall_impl; [exact Hr|]. unfold is_word. cbn. lia. }
  assert (blocks_of c (Some <$> dict_values d) = compress_into c <$> dict_values d) as Ebl
    by (unfold blocks_of; by rewrite <- list_fmap_compose).
  destruct (from_byte_array_ok c (Some <$> dict_values d)) as [Hf Hcc]; [by apply Forall_fmap|by rewrite Ebl|].
  split; [|exact Hcc]. split; try done; cbn [ba_keys ba_from_dict_array_inner].
  - unfold bit_width_for_key. fold b. rewrite (bp_roundtrip 16 W16) by (done || lia).
    assert ((λ v, v mod 2 ^ Z.of_nat b) <$> pa_values (dict_keys d) = pa_values (dict_keys d)) as ->; [|by destruct (dict_keys d)].
    apply fmap_id_on. intros v Hv. rewrite Forall_forall in Hr. apply Z.mod_small. rewrite Eb. specialize (Hr v Hv). cbn in Hr.
    destruct Hr as [->|?]; [|lia]. pose proof (Z.pow_pos_nonneg 2 (get_bit_width (Z.of_nat (length (dict_values d))))). lia.
  - apply (bp_from_primitive_wf 16 W16); [done|]. unfold bit_width_for_key. lia.
  - cbn. intros b' [= <-]. unfold bit_width_for_key. rewrite Z2Nat.id by lia. lia.
Qed.

(** A column that fits a byte array. *)
Record byte_column_fits (c : FsstCompressor) (col : ByteColumn) : Prop := {
  bf_rows : Z.of_nat (length col) < 2 ^ 16;
  bf_bytes : Forall (λ item, Forall is_byte (item_bytes item)) col;
  bf_compressed : zlen (concat (from_option (compress_into c) [] <$> col)) < 2 ^ 32;
  bf_plain : zlen (concat (item_bytes <$> col)) < 2 ^ 31
}.

Lemma ba_from_column_ok utf8 col c t :
  byte_column_fits c col ->
  ∃ a p values, ba_from_byte_array utf8 col c t = Ret a /\ byte_holds a p values /\ keys_column p values = col
       /\ ba_arrow_type a = t /\ fa_compressor (ba_values a) = c /\ ba_len a = length col.
Proof.
  intros [Hn Hb Hc Hs]. destruct (build_dictionary_some col ltac:(lia)) as [[keys values] E].
  destruct (build_dictionary_ok col keys values E) as [Wf El Hd Hk Hl _ Hin Ki].
  unfold ba_from_byte_array, byte_array_to_dict_array. rewrite E. cbn [expect]. run_step.
  assert (length (omap (λ o : option Bytes, o) col) <= length col)%nat as Ho
    by (clear; induction col as [|[v|] col IH]; cbn; lia).
  destruct (ba_build_ok (Dictionary keys values utf8) c t) as [Hh Hcc]; try done; cbn [dict_keys dict_values] in *.
  - lia.
  - apply Forall_forall. intros v Hv%Hin. rewrite Forall_forall in Hb. by apply (Hb (Some v)).
  - pose proof (distinct_size (compress_into c) values col Hd Hin). lia.
  - pose proof (distinct_size id values col Hd Hin) as Hz. rewrite list_fmap_id in Hz.
    change (from_option id [] <$> col) with (item_bytes <$> col) in Hz. lia.
  - eexists _, keys, values. split; [done|]. split; [exact Hh|]. split; [exact El|]. split_and!; try done.
    destruct (byte_len _ _ _ Hh) as [-> _]. rewrite <- El. unfold dict_logical. cbn [dict_keys].
    rewrite length_fmap. symmetry. by apply logical_len.
Qed.

(** ** Equality *)

Lemma position_ok_at b values needle positions :
  fa_holds b (Some <$> values) -> Forall (Forall is_byte) values -> Forall is_byte needle ->
  Forall (λ i, (i < length values)%nat) positions ->
  ∃ o, position_of_compressed b (compress_into (fa_compressor b) needle) positions = Ret o
       /\ match o with
          | Some i => values !! i = Some needle
          | None => ∀ i, i ∈ positions -> values !! i ≠ Some needle
          end.
Proof.
  intros Hf Hb Hn. induction 1 as [|i positions Hi _ IH].
  { exists None. split; [done|]. intros i Hi. by apply not_elem_of_nil in Hi. }
  destruct (lookup_lt_is_Some_2 values i Hi) as [v Hv]. cbn [position_of_compressed].
  rewrite (compressed_at b values i v) by done. run_step.
  rewrite compressed_eqb by (done || (rewrite Forall_forall in Hb; apply Hb; by eapply list_elem_of_lookup_2)).
  unfold bytes_eqb. case_bool_decide as E.
  - subst v. by exists (Some i).
  - destruct IH as (o & Ho & Hs). exists o. split; [done|]. destruct o as [j|]; [done|].
    intros j [->|Hj]%elem_of_cons; [rewrite Hv; by intros [= ->]|by apply Hs].
Qed.

(** The validity of the packed keys and of the unpacked ones. *)
Lemma same_nulls a p values (x : bool) :
  byte_holds a p values ->
  boolean_array (replicate (length (pa_values p)) x) (ba_nulls a) = option_map (λ _, x) <$> pa_logical p.
Proof.
  intros Hh. destruct (bp_to_primitive_wf 16 _ (bh_packed _ _ _ Hh)) as (p' & Ep & Hl & Hs & Hn).
  rewrite (bh_keys _ _ _ Hh) in Ep. injection Ep as <-. unfold ba_nulls.
  destruct (bp_bit_width (ba_keys a)) as [b|] eqn:Eb.
  - rewrite <- Hs by done. assert (replicate (length (pa_values p)) x = (λ _, x) <$> pa_values p) as ->
      by (clear; induction (pa_values p) as [|v l IH]; [done|]; cbn; by rewrite IH).
    rewrite (boolean_array_map (λ _, x) (λ _, Some x)) by (by apply Forall_true). 
    unfold pa_logical. apply list_fmap_ext. by intros _ [k|] _.
  - rewrite Hn by done. destruct (bpw_null _ _ (bh_packed _ _ _ Hh) Eb) as [(n & -> & Hb) _].
    rewrite fmap_replicate. unfold boolean_array, validity. rewrite Hb, Hl. cbn.
    generalize (original_len (ba_keys a)) as k. induction k as [|k IH]; [done|]. cbn. by rewrite IH.
Qed.

Lemma ba_equals_ok a p values needle :
  byte_holds a p values -> Forall is_byte needle ->
  ba_compare_equals a needle = Ret (option_map (answer (BEquality EEq) needle) <$> keys_column p values).
Proof.
  intros Hh Hn. unfold ba_compare_equals. rewrite (bh_keys _ _ _ Hh). run_step.
  destruct (byte_len a p values Hh) as [_ ->].
  destruct (position_ok_at (ba_values a) values needle (seq 0 (length values))) as (o & -> & Ho);
    [apply Hh|apply Hh|done|apply Forall_forall; intros i Hi%elem_of_seq; lia|].
  run_step. f_equal. unfold keys_column. rewrite <- list_fmap_compose.
  pose proof (bh_in _ _ _ Hh) as F. unfold keys_in in F. rewrite Forall_forall in F.
  assert (∀ k, Some k ∈ pa_logical p -> ∃ v, values !! Z.to_nat k = Some v /\ 0 <= k) as Hv.
  { intros k Hk%valid_in%F. cbn in Hk. destruct (lookup_lt_is_Some_2 values (Z.to_nat k)) as [v Ev]; [lia|].
    exists v. split; [done|lia]. }
  destruct o as [i|].
  - rewrite keys_eq_ok by apply Hh. pose proof (lookup_lt_Some _ _ _ Ho) as Hi. pose proof (bh_count _ _ _ Hh) as Hc.
    unfold wrapu. rewrite Z.mod_small by lia. apply list_fmap_ext. intros j [k|] Hk; [|done]. cbn.
    destruct (Hv k) as (v & Ev & Hk0); [by eapply list_elem_of_lookup_2|]. unfold dict_lookup. rewrite Ev. cbn. f_equal.
    unfold bytes_eqb. case Z.eqb_spec; intros E; symmetry.
    + apply bool_decide_eq_true. subst k. rewrite Nat2Z.id, Ho in Ev. by injection Ev.
    + apply bool_decide_eq_false. intros ->. apply E.
      pose proof (NoDup_lookup _ _ _ _ (bh_distinct _ _ _ Hh) Ev Ho). lia.
  - rewrite (same_nulls a p values) by done. apply list_fmap_ext. intros j [k|] Hk; [|done]. cbn.
    destruct (Hv k) as (v & Ev & Hk0); [by eapply list_elem_of_lookup_2|]. unfold dict_lookup. rewrite Ev. cbn. f_equal.
    symmetry. apply bool_decide_eq_false. intros ->. apply (Ho (Z.to_nat k)); [|done].
    apply elem_of_seq. apply lookup_lt_Some in Ev. lia.
Qed.

(** ** Bytes *)

Definition byte_bytes_fit a : Prop := bp_fits 16 (ba_keys a) /\ zlen (ba_to_bytes a) < 2 ^ 32.

Lemma ba_bytes_shape a :
  let keys := bp_to_bytes 16 (ba_keys a) in
  let values := fa_to_bytes (ba_values a) in
  ba_to_bytes a
  = header_to_bytes (header_new (liquid_data_type_code LByteArray) (arrow_byte_type_code (ba_arrow_type a)))
    ++ byte_header_to_bytes (zlen keys) (zlen values)
    ++ keys ++ replicate (align8 (24 + length keys) - (24 + length keys)) 0 ++ values.
Proof.
  cbv zeta. unfold ba_to_bytes. cbv zeta. change (header_size + byte_header_size)%nat with 24%nat. do 2 f_equal.
  unfold pad8. rewrite !length_app, length_replicate, <- !app_assoc. rewrite drop_app_length'; [done|].
  by rewrite length_replicate.
Qed.

Lemma byte_header_ok k v : 0 <= k < 2 ^ 32 -> 0 <= v < 2 ^ 32 -> byte_header_from_bytes (byte_header_to_bytes k v) = Ret (k, v).
Proof.
  intros Hk Hv. unfold byte_header_from_bytes, byte_header_to_bytes. rewrite length_app, !length_le_bytes.
  cbn [Nat.add Nat.ltb Nat.leb byte_header_size]. rewrite take_app_length', drop_app_length' by (by rewrite length_le_bytes).
  rewrite take_ge by (rewrite length_le_bytes; lia). by rewrite !le_val_bytes_id by (cbn; lia).
Qed.

(** The keys read back hold the same array. *)
Lemma rekeyed_ok a p values :
  byte_holds a p values -> bp_fits 16 (ba_keys a) ->
  ∃ keys p', bp_from_bytes 16 (bp_to_bytes 16 (ba_keys a)) = Ret keys
             /\ byte_holds (ByteArr keys (ba_values a) (ba_arrow_type a)) p' values
             /\ keys_column p' values = keys_column p values.
Proof.
  intros Hh Hfit.
  destruct (bp_bytes_same 16 W16 _ (bh_packed _ _ _ Hh) Hfit) as (keys & Ek & Wk & _ & _ & Hsame).
  destruct (bp_bytes_values 16 W16 _ p (bh_packed _ _ _ Hh) Hfit (bh_keys _ _ _ Hh))
    as (keys' & p' & Ek' & Ep' & Hlog & Hlen & Wp' & Hin).
  rewrite Ek in Ek'. injection Ek' as <-. exists keys, p'. split; [done|]. split; [|unfold keys_column; by rewrite Hlog].
  assert (∀ b, bp_bit_width keys = Some b -> bp_bit_width (ba_keys a) = Some b) as Hbw.
  { destruct Hsame as [->|[ns ->]]; [done|]. by intros b. }
  destruct Hh as [_ _ _ Fw Hw Hi Hv Hby Hsz Hd Hct]. split; try done; cbn [ba_keys].
  - rewrite Forall_forall in Fw |- *. intros v [->|Hvv]%Hin; [unfold is_word; lia|by apply Fw].
  - intros b Eb. by apply Hw, Hbw.
  - unfold keys_in in *. by rewrite Hlog.
Qed.

Lemma ba_bytes_ok a p values :
  byte_holds a p values -> byte_bytes_fit a ->
  ∃ a' p', ba_from_bytes (ba_to_bytes a) (fa_compressor (ba_values a)) = Ret a' /\ byte_holds a' p' values
           /\ keys_column p' values = keys_column p values /\ ba_arrow_type a' = ba_arrow_type a.
Proof.
  intros Hh [Hfit Hsize].
  destruct (rekeyed_ok a p values Hh Hfit) as (keys & p' & Ek & Hk & Hcol).
  exists (ByteArr keys (ba_values a) (ba_arrow_type a)), p'.
  rewrite ba_bytes_shape in Hsize |- *. cbv zeta in Hsize |- *.
  set (kb := bp_to_bytes 16 (ba_keys a)) in *. set (vb := fa_to_bytes (ba_values a)) in *.
  set (pad := replicate _ 0) in *. set (hd := header_to_bytes _) in *. set (bh := byte_header_to_bytes _ _) in *.
  assert (length hd = 16%nat) as Hhd by (by apply length_header).
  assert (length bh = 8%nat) as Hbh by (unfold bh, byte_header_to_bytes; by rewrite length_app, !length_le_bytes).
  assert (length pad = align8 (24 + length kb) - (24 + length kb))%nat as Hpad by apply length_replicate.
  pose proof (align8_ge (24 + length kb)) as Hal. rewrite !length_app, Hhd, Hbh, Hpad in Hsize.
  split; [|done].
  unfold ba_from_bytes. cbv zeta. change (header_size + byte_header_size)%nat with 24%nat.
  assert (header_from_bytes (hd ++ bh ++ kb ++ pad ++ vb)
          = Ret (header_new (liquid_data_type_code LByteArray) (arrow_byte_type_code (ba_arrow_type a)))) as ->.
  { apply header_roundtrip; [cbn; lia|]. destruct (ba_arrow_type a); cbn; lia. }
  run_step. rewrite (slice_ok hd bh) by done. run_step. assert (byte_header_from_bytes bh = Ret (zlen kb, zlen vb)) as -> by (apply byte_header_ok; lia). run_step.
  unfold header_new. cbn [physical_type].
  assert (arrow_byte_type_of_code (arrow_byte_type_code (ba_arrow_type a)) = Ret (ba_arrow_type a)) as ->
    by (by destruct (ba_arrow_type a)).
  run_step. rewrite !Nat2Z.id. rewrite !length_app, Hhd, Hbh, Hpad.
  case Nat.ltb_spec; [lia|]. intros _. case Nat.ltb_spec; [lia|]. intros _.
  assert (slice (hd ++ bh ++ kb ++ pad ++ vb) 24 (length kb) = Ret kb) as ->.
  { rewrite (app_assoc hd bh). apply slice_ok; [|done]. by rewrite length_app, Hhd, Hbh. }
  run_step. rewrite Ek. run_step.
  assert (slice (hd ++ bh ++ kb ++ pad ++ vb) (align8 (24 + length kb)) (length vb) = Ret vb) as ->.
  { rewrite !app_assoc. apply slice_full; [|done]. rewrite !length_app, Hhd, Hbh, Hpad. lia. }
  run_step.
  unfold vb. rewrite (fa_bytes_ok _ (Some <$> values)) by apply Hh. done.
Qed.
End byte_array_lemmas.

(** ** Theorems *)

Section theorems.
Context `{NullBufferLaws} `{FastlanesLaws} {PK : PrimitiveKernels} {PL : PrimitiveKernelLaws} {FL : FsstLib}
  {LL : FsstLaws} {BK : ByteKernels} {BL : ByteKernelLaws}.

(** A byte array gives back the column it was built from, whether its dictionary
    is decompressed whole or only where it is used, a filtered one the selected
    rows, and one read from its bytes the same column. *)
Theorem byte_array_roundtrip utf8 col c t m (Hfits : byte_column_fits c col) (Hm : length m = length col) :
  ∃ a f, ba_from_byte_array utf8 col c t = Ret a
         /\ ba_to_arrow_array a = Ret col
         /\ ba_filter_inner a m = Ret f /\ ba_to_arrow_array f = Ret (keep col m)
         /\ (byte_bytes_fit a -> ∃ b, ba_from_bytes (ba_to_bytes a) c = Ret b /\ ba_to_arrow_array b = Ret col).
Proof.
  destruct (ba_from_column_ok utf8 col c t Hfits) as (a & p & values & E & Hh & Hcol & Ht & Hc & Hl).
  destruct (ba_filter_ok a p values m Hh) as (f & q & Ef & Hf & Hq & _); [congruence|].
  exists a, f. split; [done|]. split; [by rewrite (ba_arrow_ok a p values), Hcol|]. split; [done|].
  split; [by rewrite (ba_arrow_ok f q values), Hq, Hcol|]. intros Hb.
  destruct (ba_bytes_ok a p values Hh Hb) as (b & p' & Eb & Hbh & Hbc & _). rewrite Hc in Eb. exists b. split; [done|].
  by rewrite (ba_arrow_ok b p' values), Hbc, Hcol.
Qed.

(** C27: a comparison of a byte array of strings with a string literal, on the rows a
    filter selects, is the comparison of the strings; for [=] and [<>] it is decided
    by the position of the compressed literal among the compressed values. *)
Theorem byte_array_predicates_exact col c t m left op o needle
    (Hfits : byte_column_fits c col) (Hm : length m = length col) (Hstring : is_string t = true)
    (Hneedle : Forall is_byte needle) (Hop : operator_try_from op = Some o) (Ho : decidable_op o = true) :
  ∃ a, ba_from_byte_array true col c t = Ret a
       /\ ba_try_eval_predicate a (BBinary left op (BLiteral (SUtf8 (Some needle)))) m
          = Ret (Some (option_map (answer o needle) <$> keep col m)).
Proof.
  destruct (ba_from_column_ok true col c t Hfits) as (a & p & values & E & Hh & Hcol & Ht & Hc & Hl).
  destruct (ba_filter_ok a p values m Hh) as (f & q & Ef & Hf & Hq & Htf & _); [congruence|].
  exists a. split; [done|]. unfold ba_try_eval_predicate. rewrite Ef. run_step. rewrite <- Hcol, <- Hq.
  assert (∀ dict, ba_to_dict_arrow f = Ret dict ->
            dictionary_cmp op dict (SUtf8 (Some needle)) = Some (option_map (answer o needle) <$> keys_column q values)) as Hk.
  { intros dict Ed. destruct (ba_dict_ok f q values Hf) as (d & Ed' & Hd & Hin & Hu). rewrite Ed in Ed'. injection Ed' as <-.
    rewrite (dictionary_cmp_ok _ _ o), Hd by (done || by rewrite Hu, Htf, Ht). done. }
  destruct (ba_dict_ok f q values Hf) as (d & Ed & _).
  unfold ba_try_eval_predicate_inner. cbn [get_string_needle].
  destruct op; try discriminate Hop; injection Hop as <-; try discriminate Ho; rewrite ?Ed; cbn [passed_on];
    try (run_step; by rewrite (Hk d Ed)).
  - rewrite (ba_equals_ok f q values) by done. done.
  - unfold ba_compare_not_equals. rewrite (ba_equals_ok f q values) by done. run_step. by rewrite negate_ok.
Qed.
End theorems.

(** ** Witnesses *)

Definition animals : ByteColumn := [Some [99; 97; 116]; None; Some [100; 111; 103]; Some [99; 97; 116]].

Lemma animals_fit : byte_column_fits escape animals.
Proof. split; try (vm_compute; congruence). repeat constructor; unfold is_byte; lia. Qed.

Lemma byte_array_roundtrip_witness :
  ∃ a f, ba_from_byte_array true animals escape BUtf8 = Ret a /\ ba_to_arrow_array a = Ret animals
         /\ ba_filter_inner a [true; true; false; false] = Ret f /\ ba_to_arrow_array f = Ret [Some [99; 97; 116]; None].
Proof.
  destruct (byte_array_roundtrip true animals escape BUtf8 [true; true; false; false] animals_fit eq_refl)
    as (a & f & H1 & H2 & H3 & H4 & _). by exists a, f.
Defined.

Lemma byte_array_predicates_exact_witness :
  ∃ a, ba_from_byte_array true animals escape BUtf8 = Ret a
       /\ ba_try_eval_predicate a (BBinary BOther DNotEq (BLiteral (SUtf8 (Some [99; 97; 116])))) [true; true; true; false]
          = Ret (Some [Some false; None; Some true]).
Proof.
  apply (byte_array_predicates_exact animals escape BUtf8 [true; true; true; false] BOther DNotEq (BEquality ENotEq)
           [99; 97; 116] animals_fit); try reflexivity.
  repeat constructor; unfold is_byte; lia.
Defined.
