(* ===== verification/FixedLenByteArray.v ===== *)
(** * Fixed-length byte arrays

    Model of [LiquidFixedLenByteArray] in
    [src/src/storage/src/liquid_array/fix_len_byte_array.rs]: decimals of 128 or 256
    bits as bit-packed dictionary keys and FSST-compressed little-endian values.
    Arrow's dictionary builder and cast are a class; the alignment of buffers is
    not modelled. *)

From stdpp Require Import base list.
From Stdlib Require Import ZArith Lia.
From S2P Require Import Prelude Bytes Arrow BitPack DataTypes Ipc Expressions Formats LiquidPrimitive CompactOffsets.
From S2P Require Import Fsst ByteDict.
Local Open Scope Z_scope.

(** Precision, a [u8], and scale, an [i8]. *)
Inductive ArrowFixedLenByteArrayType : Type :=
| Decimal128 (precision scale : Z)
| Decimal256 (precision scale : Z).

Definition value_width (t : ArrowFixedLenByteArrayType) : nat :=
  match t with Decimal128 _ _ => 16 | Decimal256 _ _ => 32 end.

(** [From<&DataType>] and back. *)
Definition fixed_type_of (value : DataType) : outcome ArrowFixedLenByteArrayType :=
  match value with
  | TDecimal128 precision scale => Ret (Decimal128 precision scale)
  | TDecimal256 precision scale => Ret (Decimal256 precision scale)
  | _ => Panic
  end.

Definition fixed_data_type (value : ArrowFixedLenByteArrayType) : DataType :=
  match value with
  | Decimal128 precision scale => TDecimal128 precision scale
  | Decimal256 precision scale => TDecimal256 precision scale
  end.

(** The bits of a value. *)
Definition decimal_bits (t : ArrowFixedLenByteArrayType) : Z := 8 * Z.of_nat (value_width t).

(** [PrimitiveDictionaryBuilder] ([None]: more than 65,536 values), and the cast of
    a dictionary of decimals to its value type. *)
Class DecimalKernels `{NullBuffers} : Type := {
  decimal_dictionary : list (option Z) -> option (PrimitiveArray * list Z);
  cast_decimals : PrimitiveArray -> list Z -> option PrimitiveArray
}.

Section fixed.
Context `{NullBuffers} `{Fastlanes} {PK : PrimitiveKernels} {FL : FsstLib} {BK : ByteKernels} {DK : DecimalKernels}.

Record LiquidFixedLenByteArray : Type := FixedArr {
  fx_arrow_type : ArrowFixedLenByteArrayType;
  fx_keys : BitPackedArray;
  fx_values : FsstArray
}.

Definition fx_len (a : LiquidFixedLenByteArray) : nat := bp_len (fx_keys a).

(** ** Building *)

Definition decimal_slice (t : ArrowFixedLenByteArrayType) (v : Z) : Bytes := le_bytes (value_width t) v.

Definition from_decimal_array_with_compressor (t : ArrowFixedLenByteArrayType) (array : list Z) (compressor : FsstCompressor)
    : FsstArray :=
  from_byte_array_with_compressor (Some ∘ decimal_slice t <$> array) compressor.

Definition fx_from_dict_array_inner (keys : PrimitiveArray) (values : list Z) (compressor : FsstCompressor)
    (arrow_type : ArrowFixedLenByteArrayType) : LiquidFixedLenByteArray :=
  let bit_width_for_key := BitPack.get_bit_width (Z.of_nat (length values)) in
  FixedArr arrow_type (bp_from_primitive 16 keys (Z.to_nat bit_width_for_key))
    (from_decimal_array_with_compressor arrow_type values compressor).

Definition from_decimal_array (array : PrimitiveArray) (compressor : FsstCompressor) (data_type : ArrowFixedLenByteArrayType)
    : outcome LiquidFixedLenByteArray :=
  '(keys, values) ← expect (decimal_dictionary (pa_logical array));
  Ret (fx_from_dict_array_inner keys values compressor data_type).

(** Trained on every slot, null or not. *)
Definition train_from_decimal_array (array : PrimitiveArray) (data_type : ArrowFixedLenByteArrayType)
    : outcome (FsstCompressor * LiquidFixedLenByteArray) :=
  let compressor := fsst_train (decimal_slice data_type <$> pa_values array) in
  liquid_array ← from_decimal_array array compressor data_type;
  Ret (compressor, liquid_array).

(** ** Reading *)

(** An array of [len] decimals over a buffer. *)
Definition decimals_of_buffer (t : ArrowFixedLenByteArrayType) (len : nat) (buffer : Bytes) : outcome (list Z) :=
  if (length buffer <? len * value_width t)%nat then Panic
  else Ret (wraps (decimal_bits t) <$> words_of (value_width t) len buffer).

Definition to_decimal_array (a : FsstArray) (t : ArrowFixedLenByteArrayType) : outcome (list Z) :=
  value_buffer ← decompress_as_fixed_size_binary a; decimals_of_buffer t (fa_len a) value_buffer.

Definition fx_to_arrow_array_decompress_all (a : LiquidFixedLenByteArray) : outcome PrimitiveArray :=
  array ← to_decimal_array (fx_values a) (fx_arrow_type a);
  keys ← bp_to_primitive 16 (fx_keys a);
  expect (cast_decimals keys array).

Definition decompress_keyed_values (a : LiquidFixedLenByteArray) (selected : list nat) : outcome (list Z) :=
  value_buffer ← to_uncompressed_selected (fx_values a) selected;
  decimals_of_buffer (fx_arrow_type a) (length selected) (concat value_buffer).

Definition fx_to_arrow_array_decompress_keyed (a : LiquidFixedLenByteArray) : outcome PrimitiveArray :=
  primitive_key ← bp_to_primitive 16 (fx_keys a);
  '(selected, new_keys) ← build_dict_selection primitive_key (fa_len (fx_values a));
  decompressed_values ← decompress_keyed_values a selected;
  expect (cast_decimals new_keys decompressed_values).

Definition fx_to_arrow_array (a : LiquidFixedLenByteArray) : outcome PrimitiveArray :=
  if (fx_len a <? 2048)%nat || (fx_len a <? fa_len (fx_values a))%nat then fx_to_arrow_array_decompress_keyed a
  else fx_to_arrow_array_decompress_all a.

(** The default [filter] of [LiquidArray]. *)
Definition fx_filter (a : LiquidFixedLenByteArray) (selection : list bool) : outcome PrimitiveArray :=
  arrow_array ← fx_to_arrow_array a; expect (prim_filter arrow_array selection).

(** ** Bytes *)

Record FixedLenByteArrayHeader : Type := FixedHeader {
  fh_key_size : Z;
  fh_value_size : Z;
  fh_arrow_type : Z;
  fh_precision : Z;
  fh_scale : Z
}.

Definition fixed_header_size : nat := 12.

Definition fixed_header_to_bytes (h : FixedLenByteArrayHeader) : Bytes :=
  le_bytes 4 (fh_key_size h) ++ le_bytes 4 (fh_value_size h)
  ++ [fh_arrow_type h; fh_precision h; wrapu 8 (fh_scale h); 0].

Definition fixed_header_from_bytes (bytes : Bytes) : outcome FixedLenByteArrayHeader :=
  if (length bytes <? fixed_header_size)%nat then Panic
  else Ret (FixedHeader (le_val (take 4 bytes)) (le_val (take 4 (drop 4 bytes)))
              (nth 8 bytes 0) (nth 9 bytes 0) (wraps 8 (nth 10 bytes 0))).

Definition fx_to_bytes (a : LiquidFixedLenByteArray) : Bytes :=
  let header_size := (header_size + fixed_header_size)%nat in
  let result := replicate header_size 0 in
  let keys_bytes := bp_to_bytes 16 (fx_keys a) in
  let result := result ++ keys_bytes in
  let result := result ++ replicate (align8 (length result) - length result) 0 in
  let values_bytes := fa_to_bytes (fx_values a) in
  let result := result ++ values_bytes in
  let '(arrow_type, precision, scale) :=
    match fx_arrow_type a with Decimal128 p s => (0, p, s) | Decimal256 p s => (1, p, s) end in
  header_to_bytes (header_new (liquid_data_type_code LFixedLenByteArray) 0)
  ++ fixed_header_to_bytes
       (FixedHeader (wrapu 32 (zlen keys_bytes)) (wrapu 32 (zlen values_bytes)) arrow_type precision scale)
  ++ drop header_size result.

Definition fx_from_bytes (bytes : Bytes) (compressor : FsstCompressor) : outcome LiquidFixedLenByteArray :=
  let header_size := (header_size + fixed_header_size)%nat in
  header ← header_from_bytes bytes;
  if negb (logical_type header =? liquid_data_type_code LFixedLenByteArray) then Panic
  else
    header_bytes ← slice bytes Ipc.header_size fixed_header_size;
    fixed_len_header ← fixed_header_from_bytes header_bytes;
    arrow_type ←
      (if fh_arrow_type fixed_len_header =? 0
       then Ret (Decimal128 (fh_precision fixed_len_header) (fh_scale fixed_len_header))
       else if fh_arrow_type fixed_len_header =? 1
       then Ret (Decimal256 (fh_precision fixed_len_header) (fh_scale fixed_len_header))
       else Panic);
    let keys_size := Z.to_nat (fh_key_size fixed_len_header) in
    let values_size := Z.to_nat (fh_value_size fixed_len_header) in
    let keys_end := (header_size + keys_size)%nat in
    if (length bytes <? keys_end)%nat then Panic
    else
      let values_start := align8 keys_end in
      let values_end := (values_start + values_size)%nat in
      if (length bytes <? values_end)%nat then Panic
      else
        keys_data ← slice bytes header_size keys_size;
        keys ← bp_from_bytes 16 keys_data;
        values_data ← slice bytes values_start values_size;
        values ← fa_from_bytes values_data compressor;
        Ret (FixedArr arrow_type keys values).
End fixed.
