(* ===== verification/FixedLenSpec.v ===== *)
(** * Decimals come back

    Proofs on [FixedLenByteArray.v]: what is stored beside the type is a byte array
    ([ByteArraySpec.v]) of the little-endian bytes of the decimals. *)

From stdpp Require Import base list.
From Stdlib Require Import ZArith Lia.
From S2P Require Import Prelude Bytes Arrow BitPack DataTypes Ipc Expressions Formats LiquidPrimitive CompactOffsets.
From S2P Require Import Fsst ByteDict ByteView ByteCompare ByteViewSpec ByteViewReads ByteArray ByteArraySpec.
From S2P Require Import FixedLenByteArray.
Local Open Scope Z_scope.

(** The rows of decimal keys. *)
Definition decimal_column `{NullBuffers} (keys : PrimitiveArray) (values : list Z) : list (option Z) :=
  (λ key, key ≫= λ k, values !! Z.to_nat k) <$> pa_logical keys.

Class DecimalKernelLaws `{DecimalKernels} : Prop := {
  decimal_dictionary_ok col keys values : decimal_dictionary col = Some (keys, values) -> dictionary_of col keys values;
  decimal_dictionary_some col : Z.of_nat (length col) <= 2 ^ 16 -> is_Some (decimal_dictionary col);
  cast_decimals_ok keys values :
    Forall (λ k, 0 <= k < Z.of_nat (length values)) (valid_values (pa_logical keys)) ->
    ∃ b, cast_decimals keys values = Some b /\ pa_wf b /\ pa_logical b = decimal_column keys values
}.

Section fixed_lemmas.
Context `{NullBufferLaws} `{FastlanesLaws} {PK : PrimitiveKernels} {PL : PrimitiveKernelLaws} {FL : FsstLib}
  {LL : FsstLaws} {BK : ByteKernels} {BL : ByteKernelLaws} {DK : DecimalKernels} {DL : DecimalKernelLaws}.

(** ** Values as bytes *)

Definition in_decimal (t : ArrowFixedLenByteArrayType) (v : Z) : Prop :=
  - 2 ^ (decimal_bits t - 1) <= v < 2 ^ (decimal_bits t - 1).

Definition decimal_of (t : ArrowFixedLenByteArrayType) (bytes : Bytes) : Z := wraps (decimal_bits t) (le_val bytes).

Lemma decimal_bits_pos t : 0 < decimal_bits t.
Proof. by destruct t. Qed.

Lemma decimal_back t v : in_decimal t v -> decimal_of t (decimal_slice t v) = v.
Proof.
  intros Hv. pose proof (decimal_bits_pos t). unfold decimal_of, decimal_slice. rewrite le_val_bytes.
  rewrite <- (wraps_id (decimal_bits t) v) at 2 by (exact Hv || lia).
  apply wraps_cong; [lia|]. unfold decimal_bits. by rewrite Zmod_mod.
Qed.

Lemma slice_length t v : length (decimal_slice t v) = value_width t.
Proof. apply length_le_bytes. Qed.

Lemma slice_bytes t v : Forall is_byte (decimal_slice t v).
Proof. apply le_bytes_byte. Qed.

Lemma slices_back t vs :
  Forall (in_decimal t) vs -> decimals_of_buffer t (length vs) (concat (decimal_slice t <$> vs)) = Ret vs.
Proof.
  intros F. unfold decimals_of_buffer, decimal_slice. rewrite length_concat_bytes, Nat.ltb_irrefl, words_of_concat.
  f_equal. rewrite <- list_fmap_compose. apply fmap_id_on. intros v Hv. cbn. rewrite Forall_forall in F.
  pose proof (decimal_back t v (F v Hv)) as Hb. unfold decimal_of, decimal_slice in Hb. by rewrite le_val_bytes in Hb.
Qed.

(** ** What an array holds *)

Definition as_byte_array (a : LiquidFixedLenByteArray) : LiquidByteArray := ByteArr (fx_keys a) (fx_values a) BBinaryView.

Record fixed_holds (a : LiquidFixedLenByteArray) (p : PrimitiveArray) (vs : list Z) : Prop := {
  xh_bytes : byte_holds (as_byte_array a) p (decimal_slice (fx_arrow_type a) <$> vs);
  xh_range : Forall (in_decimal (fx_arrow_type a)) vs
}.

(** The decimals of keys are those of the strings, decoded. *)
Lemma column_decoded t keys vs :
  Forall (in_decimal t) vs ->
  option_map (decimal_of t) <$> keys_column keys (decimal_slice t <$> vs) = decimal_column keys vs.
Proof.
  intros F. unfold keys_column, decimal_column. rewrite <- list_fmap_compose. apply list_fmap_ext. intros i [k|] _; [|done].
  cbn. unfold dict_lookup. rewrite list_lookup_fmap. destruct (vs !! Z.to_nat k) as [v|] eqn:Ev; [|done]. cbn. f_equal.
  apply decimal_back. rewrite Forall_forall in F. by eapply F, list_elem_of_lookup_2.
Qed.

Lemma decompress_all_ok (b : FsstArray) (values : list Bytes) :
  fa_holds b (Some <$> values) -> decompress_as_fixed_size_binary b = Ret (concat values).
Proof.
  intros Hb. unfold decompress_as_fixed_size_binary. rewrite (fa_len_ok b _ Hb).
  rewrite (each_lookup _ item_bytes (Some <$> values)).
  - run_step. by rewrite omap_seq, item_bytes_some.
  - intros i item Hi. rewrite (get_compressed_ok b _ i item Hb Hi). run_step. f_equal.
    eapply decompress_block; [apply Hb|done].
  - apply Forall_forall. intros i Hi%elem_of_seq. lia.
Qed.

Lemma fx_arrow_ok a p vs :
  fixed_holds a p vs -> ∃ b, fx_to_arrow_array a = Ret b /\ pa_wf b /\ pa_logical b = decimal_column p vs.
Proof.
  intros [Hh F]. set (t := fx_arrow_type a) in *. pose proof (bh_values _ _ _ Hh) as Hv. cbn [ba_values as_byte_array] in Hv.
  pose proof (bh_keys _ _ _ Hh) as Hk. cbn [ba_keys as_byte_array] in Hk. pose proof (bh_in _ _ _ Hh) as Hin.
  unfold fx_to_arrow_array. rewrite (fa_len_ok _ _ Hv), !length_fmap.
  destruct ((fx_len a <? 2048)%nat || (fx_len a <? length vs)%nat).
  - unfold fx_to_arrow_array_decompress_keyed. rewrite Hk. run_step. rewrite (fa_len_ok _ _ Hv), !length_fmap.
    destruct (selection_ok p (decimal_slice t <$> vs)) as (new_keys & E & Hc & Hin'); [done|pose proof (bh_count _ _ _ Hh); lia|].
    rewrite length_fmap in E. rewrite E. run_step. unfold decompress_keyed_values. fold t.
    pose proof (selected_ok (fx_values a) _ (λ i, bool_decide (Z.of_nat i ∈ valid_values (pa_logical p))) Hv (bh_size _ _ _ Hh)) as Es.
    unfold hit_positions in Hc, Hin'. rewrite length_fmap in Es, Hc, Hin'. rewrite Es. run_step.
    set (hits := List.filter _ (seq 0 (length vs))) in *. set (ws := (λ i, default 0 (vs !! i)) <$> hits).
    assert ((λ i, default [] ((decimal_slice t <$> vs) !! i)) <$> hits = decimal_slice t <$> ws) as Ew.
    { unfold ws. rewrite <- list_fmap_compose. apply list_fmap_ext. intros j i Hj%list_elem_of_lookup_2. cbn.
      unfold hits in Hj. apply list_elem_of_In, filter_In in Hj as [Hj _]. apply in_seq in Hj.
      rewrite list_lookup_fmap. destruct (lookup_lt_is_Some_2 vs i ltac:(lia)) as [v ->]. done. }
    rewrite Ew in Hc, Hin' |- *. assert (length hits = length ws) as -> by (unfold ws; by rewrite length_fmap).
    assert (Forall (in_decimal t) ws) as Fw.
    { unfold ws. apply Forall_fmap, Forall_forall. intros i Hi%list_elem_of_In. apply filter_In in Hi as [Hi _]. apply in_seq in Hi.
      cbn. destruct (lookup_lt_is_Some_2 vs i ltac:(lia)) as [v Ev]. rewrite Ev. cbn. rewrite Forall_forall in F.
      by eapply F, list_elem_of_lookup_2. }
    rewrite slices_back by done. run_step.
    destruct (cast_decimals_ok new_keys ws) as (b & -> & Wb & Hb).
    { unfold keys_in in Hin'. by rewrite length_fmap in Hin'. }
    exists b. split; [done|]. split; [done|].
    rewrite Hb, <- (column_decoded t new_keys ws), Hc by done. by apply column_decoded.
  - unfold fx_to_arrow_array_decompress_all, to_decimal_array. rewrite (decompress_all_ok _ _ Hv). run_step. fold t.
    rewrite (fa_len_ok _ _ Hv), !length_fmap, slices_back by done. run_step. rewrite Hk. run_step.
    destruct (cast_decimals_ok p vs) as (b & -> & Wb & Hb).
    { unfold keys_in in Hin. by rewrite length_fmap in Hin. }
    by exists b.
Qed.

(** ** Building *)

(** A column of decimals that fits. *)
Record decimals_fit (t : ArrowFixedLenByteArrayType) (c : FsstCompressor) (col : list (option Z)) : Prop := {
  df_rows : Z.of_nat (length col) < 2 ^ 16;
  df_range v : Some v ∈ col -> in_decimal t v;
  df_compressed : zlen (concat (from_option (compress_into c ∘ decimal_slice t) [] <$> col)) < 2 ^ 32
}.

Lemma fx_build_bytes keys vs c t :
  as_byte_array (fx_from_dict_array_inner keys vs c t)
  = ba_from_dict_array_inner (Dictionary keys (decimal_slice t <$> vs) false) c BBinaryView.
Proof.
  unfold as_byte_array, fx_from_dict_array_inner, ba_from_dict_array_inner, from_decimal_array_with_compressor, bit_width_for_key.
  cbn [fx_keys fx_values dict_keys dict_values]. rewrite length_fmap. f_equal. by rewrite <- list_fmap_compose.
Qed.

Lemma decimal_slice_inj t a b : in_decimal t a -> in_decimal t b -> decimal_slice t a = decimal_slice t b -> a = b.
Proof. intros Ha Hb E. by rewrite <- (decimal_back t a Ha), E, decimal_back. Qed.

Lemma slices_distinct t vs : Forall (in_decimal t) vs -> NoDup vs -> NoDup (decimal_slice t <$> vs).
Proof.
  intros F Hd. induction Hd as [|v vs Hv Hd IH]; [constructor|]. apply Forall_cons in F as [Fv F]. cbn. constructor; [|by apply IH].
  intros (u & E & Hu)%list_elem_of_fmap. apply Hv. rewrite Forall_forall in F.
  by rewrite (decimal_slice_inj t v u Fv (F u Hu) E).
Qed.

Lemma concat_slices t vs : zlen (concat (decimal_slice t <$> vs)) = Z.of_nat (length vs) * Z.of_nat (value_width t).
Proof. unfold decimal_slice. rewrite length_concat_bytes. lia. Qed.

Lemma fx_from_ok array t c :
  decimals_fit t c (pa_logical array) ->
  ∃ a p vs, from_decimal_array array c t = Ret a /\ fixed_holds a p vs /\ decimal_column p vs = pa_logical array
            /\ fx_arrow_type a = t /\ fa_compressor (fx_values a) = c.
Proof.
  set (col := pa_logical array). intros [Hn Hr Hc]. destruct (decimal_dictionary_some col ltac:(lia)) as [[keys vs] E].
  destruct (decimal_dictionary_ok col keys vs E) as [Wf El Hd Hk Hl _ Hin Ki].
  unfold from_decimal_array. fold col. rewrite E. cbn [expect]. run_step.
  assert (Forall (in_decimal t) vs) as F by (apply Forall_forall; intros v Hv; by apply Hr, Hin).
  assert (length (omap (λ o : option Z, o) col) <= length col)%nat as Ho
    by (clear; induction col as [|[v|] col IH]; cbn; lia).
  destruct (ba_build_ok (Dictionary keys (decimal_slice t <$> vs) false) c BBinaryView) as [Hh Hcc];
    cbn [dict_keys dict_values]; rewrite ?length_fmap; try done.
  - by apply slices_distinct.
  - lia.
  - unfold keys_in. by rewrite length_fmap.
  - apply Forall_fmap, Forall_true. intros v. apply slice_bytes.
  - pose proof (distinct_size (compress_into c) (decimal_slice t <$> vs) (option_map (decimal_slice t) <$> col)) as Hz.
    rewrite <- (list_fmap_compose _ (from_option (compress_into c) [])) in Hz.
    assert (from_option (compress_into c) [] ∘ option_map (decimal_slice t) <$> col
            = from_option (compress_into c ∘ decimal_slice t) [] <$> col) as Ec
      by (apply list_fmap_ext; intros i [v|] _; done).
    rewrite Ec in Hz. specialize (Hz (slices_distinct t vs F Hd)).
    assert (∀ v, v ∈ decimal_slice t <$> vs -> Some v ∈ option_map (decimal_slice t) <$> col) as Hsub; [|specialize (Hz Hsub); lia].
    intros v (u & -> & Hu)%list_elem_of_fmap. apply list_elem_of_fmap. exists (Some u). split; [done|by apply Hin].
  - rewrite concat_slices. assert (Z.of_nat (value_width t) <= 32) by (destruct t; cbn; lia). nia.
  - rewrite <- fx_build_bytes in Hh, Hcc. eexists _, keys, vs. split; [done|]. split; [by split|]. split; [exact El|]. by split.
Qed.

(** ** Bytes *)

(** Precision and scale are bytes. *)
Definition type_fits (t : ArrowFixedLenByteArrayType) : Prop :=
  match t with Decimal128 p s | Decimal256 p s => 0 <= p < 2 ^ 8 /\ - 2 ^ 7 <= s < 2 ^ 7 end.

Definition fixed_bytes_fit (a : LiquidFixedLenByteArray) : Prop :=
  type_fits (fx_arrow_type a) /\ bp_fits 16 (fx_keys a) /\ zlen (fx_to_bytes a) < 2 ^ 32.

Definition fixed_header_of (a : LiquidFixedLenByteArray) : FixedLenByteArrayHeader :=
  let '(code, p, s) := match fx_arrow_type a with Decimal128 p s => (0, p, s) | Decimal256 p s => (1, p, s) end in
  FixedHeader (wrapu 32 (zlen (bp_to_bytes 16 (fx_keys a)))) (wrapu 32 (zlen (fa_to_bytes (fx_values a)))) code p s.

Lemma fx_bytes_shape a :
  let keys := bp_to_bytes 16 (fx_keys a) in
  fx_to_bytes a
  = header_to_bytes (header_new (liquid_data_type_code LFixedLenByteArray) 0) ++ fixed_header_to_bytes (fixed_header_of a)
    ++ keys ++ replicate (align8 (28 + length keys) - (28 + length keys)) 0 ++ fa_to_bytes (fx_values a).
Proof.
  cbv zeta. unfold fx_to_bytes, fixed_header_of. cbv zeta. change (header_size + fixed_header_size)%nat with 28%nat.
  destruct (fx_arrow_type a); do 2 f_equal;
    rewrite !length_app, length_replicate, <- !app_assoc, drop_app_length' by (by rewrite length_replicate); done.
Qed.

Lemma fixed_header_ok h :
  0 <= fh_key_size h < 2 ^ 32 -> 0 <= fh_value_size h < 2 ^ 32 -> - 2 ^ 7 <= fh_scale h < 2 ^ 7 ->
  length (fixed_header_to_bytes h) = 12%nat /\ fixed_header_from_bytes (fixed_header_to_bytes h) = Ret h.
Proof.
  intros Hk Hv Hs. unfold fixed_header_to_bytes. set (kb := le_bytes 4 (fh_key_size h)). set (vb := le_bytes 4 (fh_value_size h)).
  assert (length kb = 4%nat) as Lk by apply length_le_bytes. assert (length vb = 4%nat) as Lv by apply length_le_bytes.
  set (rest := [fh_arrow_type h; fh_precision h; wrapu 8 (fh_scale h); 0]). split; [rewrite !length_app, Lk, Lv; done|].
  unfold fixed_header_from_bytes. rewrite !length_app, Lk, Lv. cbn [length rest Nat.add Nat.ltb Nat.leb fixed_header_size].
  assert (take 4 (drop 4 (kb ++ vb ++ rest)) = vb) as -> by (by rewrite drop_app_length', take_app_length').
  rewrite take_app_length' by done.
  rewrite !(app_nth2 kb), !(app_nth2 vb) by lia. rewrite Lk, Lv. cbn [Nat.sub nth rest].
  unfold kb, vb. rewrite !le_val_bytes_id by (cbn; lia).
  assert (wraps 8 (wrapu 8 (fh_scale h)) = fh_scale h) as ->; [|by destruct h].
  rewrite <- (wraps_id 8 (fh_scale h)) at 2 by (cbn; lia). apply wraps_cong; [lia|]. unfold wrapu. by rewrite Zmod_mod.
Qed.

Lemma fx_bytes_ok a p vs :
  fixed_holds a p vs -> fixed_bytes_fit a ->
  ∃ a' p', fx_from_bytes (fx_to_bytes a) (fa_compressor (fx_values a)) = Ret a' /\ fixed_holds a' p' vs
           /\ decimal_column p' vs = decimal_column p vs /\ fx_arrow_type a' = fx_arrow_type a.
Proof.
  intros [Hh F] (Ht & Hfit & Hsize).
  destruct (rekeyed_ok (as_byte_array a) p _ Hh Hfit) as (keys & p' & Ek & Hk & Hcol).
  cbn [ba_keys ba_values ba_arrow_type as_byte_array] in Ek, Hk.
  exists (FixedArr (fx_arrow_type a) keys (fx_values a)), p'. split.
  2: { split; [by split|]. split; [|done]. by rewrite <- (column_decoded (fx_arrow_type a)), Hcol, column_decoded. }
  rewrite fx_bytes_shape in Hsize |- *. cbv zeta in Hsize |- *. set (kb := bp_to_bytes 16 (fx_keys a)) in *.
  set (vb := fa_to_bytes (fx_values a)) in *. set (pad := replicate _ 0) in *. set (hd := header_to_bytes _) in *.
  assert (length hd = 16%nat) as Hhd by (by apply length_header).
  assert (length pad = align8 (28 + length kb) - (28 + length kb))%nat as Hpad by apply length_replicate.
  pose proof (align8_ge (28 + length kb)) as Hal.
  set (h := fixed_header_of a) in *. rewrite !length_app, Hhd, Hpad in Hsize.
  assert (fh_key_size h = zlen kb /\ fh_value_size h = zlen vb
          /\ (if fh_arrow_type h =? 0 then Ret (Decimal128 (fh_precision h) (fh_scale h))
              else if fh_arrow_type h =? 1 then Ret (Decimal256 (fh_precision h) (fh_scale h)) else Panic)
             = Ret (fx_arrow_type a) /\ - 2 ^ 7 <= fh_scale h < 2 ^ 7) as (Hks & Hvs & Htype & Hscale).
  { unfold h, fixed_header_of. fold kb vb. unfold type_fits in Ht. rewrite !wrapu_id by lia.
    destruct (fx_arrow_type a) as [pr sc|pr sc]; cbn [fh_key_size fh_value_size fh_arrow_type fh_precision fh_scale];
      split_and!; try done; apply Ht. }
  destruct (fixed_header_ok h) as [Hhl Hhe]; [lia|lia|done|]. set (hb := fixed_header_to_bytes h) in *.
  unfold fx_from_bytes. cbv zeta. change (header_size + fixed_header_size)%nat with 28%nat.
  assert (header_from_bytes (hd ++ hb ++ kb ++ pad ++ vb) = Ret (header_new (liquid_data_type_code LFixedLenByteArray) 0)) as ->
    by (apply header_roundtrip; cbn; lia).
  run_step. cbn [logical_type header_new]. rewrite Z.eqb_refl. cbn [negb].
  rewrite (slice_ok hd hb) by done. run_step. rewrite Hhe. run_step. rewrite Htype. run_step.
  rewrite Hks, Hvs, !Nat2Z.id. rewrite !length_app, Hhd, Hhl, Hpad.
  case Nat.ltb_spec; [lia|]. intros _. case Nat.ltb_spec; [lia|]. intros _.
  assert (slice (hd ++ hb ++ kb ++ pad ++ vb) 28 (length kb) = Ret kb) as ->.
  { rewrite (app_assoc hd hb). apply slice_ok; [|done]. by rewrite length_app, Hhd, Hhl. }
  run_step. rewrite Ek. run_step.
  assert (slice (hd ++ hb ++ kb ++ pad ++ vb) (align8 (28 + length kb)) (length vb) = Ret vb) as ->.
  { rewrite !app_assoc. apply slice_full; [|done]. rewrite !length_app, Hhd, Hhl, Hpad. lia. }
  run_step. pose proof (fa_bytes_ok _ _ (bh_values _ _ _ Hh)) as Hfa. cbn [ba_values as_byte_array] in Hfa. fold vb in Hfa.
  by rewrite Hfa.
Qed.
End fixed_lemmas.

(** ** Theorems *)

Section theorems.
Context `{NullBufferLaws} `{FastlanesLaws} {PK : PrimitiveKernels} {PL : PrimitiveKernelLaws} {FL : FsstLib}
  {LL : FsstLaws} {BK : ByteKernels} {BL : ByteKernelLaws} {DK : DecimalKernels} {DL : DecimalKernelLaws}.

(** C25: a column of 128- or 256-bit decimals comes back from a fixed-length byte
    array, whether its dictionary is decompressed whole or only where it is used;
    a filter keeps the selected rows, and the bytes give back the column with its
    precision and scale. *)
Theorem decimal_roundtrip array t c m
    (Hfits : decimals_fit t c (pa_logical array)) (Hm : length m = length (pa_logical array)) :
  ∃ a, from_decimal_array array c t = Ret a
       /\ (∃ b, fx_to_arrow_array a = Ret b /\ pa_logical b = pa_logical array)
       /\ (∃ f, fx_filter a m = Ret f /\ pa_logical f = keep (pa_logical array) m)
       /\ (fixed_bytes_fit a ->
           ∃ a' b, fx_from_bytes (fx_to_bytes a) c = Ret a' /\ fx_arrow_type a' = t
                   /\ fx_to_arrow_array a' = Ret b /\ pa_logical b = pa_logical array).
Proof.
  destruct (fx_from_ok array t c Hfits) as (a & p & vs & E & Hh & Hcol & Ht & Hc). exists a. split; [done|].
  destruct (fx_arrow_ok a p vs Hh) as (b & Eb & Wb & Hb). rewrite Hcol in Hb. split; [by exists b|]. split.
  - unfold fx_filter. rewrite Eb. run_step.
    destruct (prim_filter_ok b m Wb) as (f & -> & _ & Hf & _); [by rewrite Hm, <- Hb, (logical_len b Wb)|].
    exists f. split; [done|]. by rewrite Hf, Hb.
  - intros Hfit. destruct (fx_bytes_ok a p vs Hh Hfit) as (a' & p' & Ea & Hh' & Hcol' & Ht').
    destruct (fx_arrow_ok a' p' vs Hh') as (b' & Eb' & _ & Hb'). rewrite Hc in Ea. exists a', b'.
    split; [exact Ea|]. split; [congruence|]. split; [done|]. congruence.
Qed.
End theorems.

(** ** A concrete column *)

#[export] Instance list_decimals : DecimalKernels := {
  decimal_dictionary := list_dictionary;
  cast_decimals keys values :=
    let column := decimal_column keys values in
    Some (Prim (default 0 <$> column) (Some ((λ o, bool_decide (is_Some o)) <$> column : list bool)))
}.

#[export] Instance list_decimal_laws : DecimalKernelLaws.
Proof.
  split.
  - apply list_dictionary_ok.
  - apply list_dictionary_some.
  - intros keys values _. eexists. split; [done|]. split; [unfold pa_wf; cbn; by rewrite !length_fmap|].
    rewrite (prim_of_options id) by done. rewrite <- (list_fmap_id (decimal_column keys values)) at 2.
    apply list_fmap_ext. by intros _ [v|] _.
Qed.

(** -12.50, a null and two times 10^30, with two digits after the point. *)
Definition prices : PrimitiveArray := Prim [-1250; 0; 10 ^ 32; 10 ^ 32] (Some [true; false; true; true]).

Lemma prices_fit : decimals_fit (Decimal128 38 2) escape (pa_logical prices).
Proof.
  split.
  - reflexivity.
  - intros v Hv. change (Some v ∈ [Some (-1250); None; Some (10 ^ 32); Some (10 ^ 32)]) in Hv. clear -Hv.
    rewrite !elem_of_cons, elem_of_nil in Hv. unfold in_decimal. change (decimal_bits (Decimal128 38 2)) with 128.
    destruct Hv as [Hv|[Hv|[Hv|[Hv|[]]]]]; first [injection Hv as ->; lia|discriminate Hv].
  - vm_compute. reflexivity.
Qed.

Lemma decimal_roundtrip_witness :
  ∃ a b, from_decimal_array prices escape (Decimal128 38 2) = Ret a /\ fx_to_arrow_array a = Ret b
         /\ pa_logical b = [Some (-1250); None; Some (10 ^ 32); Some (10 ^ 32)].
Proof.
  destruct (decimal_roundtrip prices (Decimal128 38 2) escape [true; true; true; false]) as (a & E & (b & Eb & Hb) & _).
  - exact prices_fit.
  - reflexivity.
  - exists a, b. split; [exact E|]. split; [exact Eb|exact Hb].
Defined.
