(* ===== verification/LinearArray.v ===== *)
(** * Linear-model integer arrays

    Model of [LiquidLinearArray] in
    [src/src/storage/src/liquid_array/linear_integer_array.rs]: integers as a line
    fitted over the row numbers, in double precision, and residuals, which are a
    [LiquidPrimitiveArray] of [i64].  The theorems say when the values come back
    whatever line was fitted, and when they do not. *)

From stdpp Require Import base list.
From Stdlib Require Import ZArith Lia.
From Stdlib Require Import Floats.SpecFloat.
From S2P Require Import Prelude Bytes Arrow BitPack DataTypes Ipc LiquidPrimitive Floats.
Local Open Scope Z_scope.

(** ** Fitting a line *)

Local Notation "x +. y" := (fadd binary64 x y) (at level 50, left associativity).
Local Notation "x -. y" := (fsub binary64 x y) (at level 50, left associativity).
Local Notation "x *. y" := (fmul binary64 x y) (at level 40, left associativity).
Local Notation "x /. y" := (fdiv binary64 x y) (at level 40, left associativity).
Local Notation "x <. y" := (flt binary64 x y) (at level 70).
Local Abbreviation as_f64 := (fl_of_Z binary64).

Definition f_zero : fl := as_f64 0.
Definition f_one : fl := as_f64 1.
Definition f_half : fl := decimal_literal binary64 5 (-1).
Definition f_1e_12 : fl := decimal_literal binary64 1 (-12).
Definition f_1e_6 : fl := decimal_literal binary64 1 (-6).

(** The least and the greatest slope between neighbouring points. *)
Fixpoint slope_bounds (slope_min slope_max : fl) (value : fl) (idx : Z) (points : list (fl * Z)) : fl * fl :=
  match points with
  | [] => (slope_min, slope_max)
  | (value', idx') :: points =>
      let di := as_f64 (wrapu 32 (idx' - idx)) in
      if f_zero <. di then
        let s := (value' -. value) /. di in
        slope_bounds (if s <. slope_min then s else slope_min) (if slope_max <. s then s else slope_max)
          value' idx' points
      else slope_bounds slope_min slope_max value' idx' points
  end.

(** Extremes of [value - m * idx] and the rows where they are taken. *)
Definition range_step (m : fl) (acc : fl * Z * fl * Z) (point : fl * Z) : fl * Z * fl * Z :=
  let '(min_s, i_min, max_s, i_max) := acc in
  let '(value, idx) := point in
  let s := value -. m *. as_f64 idx in
  let '(min_s, i_min) := if s <. min_s then (s, idx) else (min_s, i_min) in
  let '(max_s, i_max) := if max_s <. s then (s, idx) else (max_s, i_max) in
  (min_s, i_min, max_s, i_max).

Definition range_stats (points : list (fl * Z)) (m : fl) : fl * Z * fl * Z :=
  foldl (range_step m) (f_infinity binary64, 0, f_neg_infinity binary64, 0) points.

Definition MAX_ITERS : nat := 8.

(** Bisection on the slope, by the rows of the extremes. *)
Fixpoint bisect (points : list (fl * Z)) (iters : nat) (lo hi : fl) : fl * fl :=
  match iters with
  | O => (lo, hi)
  | S iters =>
      let m := f_half *. (lo +. hi) in
      let '(_, i_min, _, i_max) := range_stats points m in
      let g := i_min - i_max in
      if g =? 0 then (m, m)
      else
        let '(lo, hi) := if 0 <? g then (lo, m) else (m, hi) in
        if fabs binary64 (hi -. lo) <. f_1e_12 then (lo, hi) else bisect points iters lo hi
  end.

Definition fit_linf (points : list (fl * Z)) : fl * fl :=
  match points with
  | [] => (f_zero, f_zero)
  | [(value, _)] => (value, f_zero)
  | (value, idx) :: rest =>
      let '(slope_min, slope_max) := slope_bounds (f_infinity binary64) (f_neg_infinity binary64) value idx rest in
      let '(slope_min, slope_max) :=
        if negb (is_finite binary64 slope_min) || negb (is_finite binary64 slope_max) then (f_zero, f_zero)
        else (slope_min, slope_max) in
      let lo := fmin binary64 slope_min slope_max in
      let hi := fmax binary64 slope_min slope_max in
      let '(lo, hi) :=
        if fabs binary64 (hi -. lo) <. f_1e_12 then
          let pad := if fabs binary64 hi <. f_one then f_one else fabs binary64 hi *. f_1e_6 in
          (lo -. pad, hi +. pad)
        else (lo, hi) in
      let '(lo, hi) := bisect points MAX_ITERS lo hi in
      let m := f_half *. (lo +. hi) in
      let '(min_s, _, max_s, _) := range_stats points m in
      (f_half *. (max_s +. min_s), m)
  end.

(** ** Predictions *)

Definition predict_u64_saturated (pred : fl) (max_u64 : Z) : Z :=
  if negb (is_finite binary64 pred) || fle binary64 pred f_zero then 0
  else if fle binary64 (as_f64 max_u64) pred then max_u64
  else fl_round_as binary64 0 (2 ^ 64 - 1) pred.

Definition predict_i64_saturated (pred : fl) (min_i64 max_i64 : Z) : Z :=
  if negb (is_finite binary64 pred) then 0
  else if fle binary64 pred (as_f64 min_i64) then min_i64
  else if fle binary64 (as_f64 max_i64) pred then max_i64
  else fl_round_as binary64 (- 2 ^ 63) (2 ^ 63 - 1) pred.

Section linear.
Context `{NullBuffers} `{Fastlanes} {PK : PrimitiveKernels}.
Context (T : PrimitivePhysicalType).

Local Abbreviation w := (native_width T).

(** [PrimitiveKind] of the type. *)
Definition MAX_U64 : Z := if is_unsigned T then 2 ^ w - 1 else 0.
Definition MIN_I64 : Z := if is_unsigned T then 0 else - 2 ^ (w - 1).
Definition MAX_I64 : Z := if is_unsigned T then 0 else 2 ^ (w - 1) - 1.

Record LiquidLinearArray : Type := LinearArr {
  la_residuals : LiquidPrimitiveArray;
  la_intercept : fl;
  la_slope : fl
}.

Definition la_len (a : LiquidLinearArray) : nat := lp_len (la_residuals a).

Definition prediction (intercept slope : fl) (i : nat) : Z :=
  let pr := slope *. as_f64 (Z.of_nat i) +. intercept in
  if is_unsigned T then predict_u64_saturated pr MAX_U64 else predict_i64_saturated pr MIN_I64 MAX_I64.

(** The magnitude of an unsigned residual is cut to 63 bits; a signed one wraps. *)
Definition residual (p v : Z) : Z :=
  if is_unsigned T then
    let '(pos, mag) := if p <=? v then (true, v - p) else (false, p - v) in
    let m := Z.land mag (2 ^ 63 - 1) in
    if pos then m else - m
  else wraps 64 (v - p).

(** The residual of the zero model. *)
Definition zero_residual (v : Z) : Z := if is_unsigned T then Z.land v (2 ^ 63 - 1) else v.

(** The values of the valid rows as [f64], with their row numbers. *)
Definition collect_non_null_f64_and_indices (values : list Z) (valid : list bool) : list (fl * Z) :=
  omap (λ row, row)
    (imap (λ i '(v, is_valid), if (is_valid : bool) then Some (as_f64 v, wrapu 32 (Z.of_nat i)) else None)
       (zip values valid)).

(** One residual a row, zero where it is null. *)
Definition residuals_with (residual_of : nat -> Z -> Z) (values : list Z) (valid : list bool) : list Z :=
  imap (λ i '(v, is_valid), if (is_valid : bool) then residual_of i v else 0) (zip values valid).

Definition valid_rows (values : list Z) (valid : list bool) : list Z := valid_values (mask_values values valid).

Definition spread (lo hi : Z) (values : list Z) : Z := foldl Z.max hi values - foldl Z.min lo values.

(** Whether the residuals spread as widely as the values. *)
Definition falls_back (residuals values : list Z) (valid : list bool) : bool :=
  let orig_width :=
    if is_unsigned T then Z.max 0 (spread (2 ^ 64 - 1) 0 (valid_rows values valid))
    else spread (2 ^ 63 - 1) (- 2 ^ 63) (valid_rows values valid) in
  orig_width <=? spread (2 ^ 63 - 1) (- 2 ^ 63) (valid_rows residuals valid).

Definition la_from_arrow_array (arrow_array : PrimitiveArray) : outcome LiquidLinearArray :=
  let values := pa_values arrow_array in
  let len := length values in
  if bool_decide (match pa_nulls arrow_array with Some n => null_count n | None => 0%nat end = len) then
    residuals ← lp_from_arrow_array PInt64 (pa_new_null len);
    Ret (LinearArr residuals f_zero f_zero)
  else
    let valid := validity (pa_nulls arrow_array) len in
    let '(intercept, slope) := fit_linf (collect_non_null_f64_and_indices values valid) in
    let residuals := residuals_with (λ i, residual (prediction intercept slope i)) values valid in
    let '(intercept, slope, residuals) :=
      if falls_back residuals values valid
      then (f_zero, f_zero, residuals_with (λ _, zero_residual) values valid)
      else (intercept, slope, residuals) in
    residuals ← lp_from_arrow_array PInt64 (Prim residuals (pa_nulls arrow_array));
    Ret (LinearArr residuals intercept slope).

(** [from_u64] and [from_i64] are [None] out of the native range. *)
Definition native_from (sum : Z) : outcome Z := if bool_decide (as_native T sum = sum) then Ret sum else Panic.

Definition reconstruct (intercept slope : fl) (i : nat) (e : Z) : outcome Z :=
  let p := prediction intercept slope i in
  native_from
    (if is_unsigned T then
       if 0 <=? e then Z.min (2 ^ 64 - 1) (p + Z.abs e) else Z.max 0 (p - Z.abs e)
     else Z.max (- 2 ^ 63) (Z.min (2 ^ 63 - 1) (p + e))).

Fixpoint reconstruct_from (intercept slope : fl) (i : nat) (residuals : list Z) : outcome (list Z) :=
  match residuals with
  | [] => Ret []
  | e :: residuals =>
      v ← reconstruct intercept slope i e;
      final_values ← reconstruct_from intercept slope (S i) residuals;
      Ret (v :: final_values)
  end.

Definition la_to_arrow_array (a : LiquidLinearArray) : outcome PrimitiveArray :=
  arr ← lp_to_arrow_array PInt64 (la_residuals a);
  final_values ← reconstruct_from (la_intercept a) (la_slope a) 0 (pa_values arr);
  Ret (Prim final_values (pa_nulls arr)).

Definition la_filter (a : LiquidLinearArray) (selection : list bool) : outcome PrimitiveArray :=
  arr ← la_to_arrow_array a; expect (prim_filter arr selection).

(** ** Bytes *)

Definition residual_starting_loc : nat := align8 (header_size + 8 + 8).

Definition la_to_bytes (a : LiquidLinearArray) : list Z :=
  let out :=
    header_to_bytes (header_new (liquid_data_type_code LLinearInteger) (physical_type_id T))
    ++ le_bytes 8 (la_intercept a) ++ le_bytes 8 (la_slope a) in
  out ++ replicate (residual_starting_loc - length out) 0 ++ lp_to_bytes PInt64 (la_residuals a).

Definition la_from_bytes (bytes : list Z) : outcome LiquidLinearArray :=
  _ ← header_from_bytes bytes;
  intercept ← slice bytes header_size 8;
  slope ← slice bytes (header_size + 8) 8;
  if (length bytes <? residual_starting_loc)%nat then Panic
  else
    residuals ← lp_from_bytes PInt64 (drop residual_starting_loc bytes);
    Ret (LinearArr residuals (le_val intercept) (le_val slope)).
End linear.
Arguments LinearArr {_} la_residuals la_intercept la_slope.
Arguments la_residuals {_} l.
Arguments la_intercept {_} l.
Arguments la_slope {_} l.
