(* ===== verification/LinearSpec.v ===== *)
(** * Correctness of the linear-model arrays

    What [LinearArray.v] gives back: predictions stay in the native range, so the
    residuals of the types up to 32 bits are exact whatever line was fitted; the
    64-bit types lose values, and a null row can make decoding panic. *)

From stdpp Require Import base list.
From Stdlib Require Import ZArith Lia.
From Stdlib Require Import Floats.SpecFloat.
From S2P Require Import Prelude Bytes Arrow BitPack DataTypes Ipc LiquidPrimitive Floats LinearArray.
Local Open Scope Z_scope.

(** ** Comparison and rounding *)

(** Canonical numbers are ordered by exponent, then by mantissa. *)
Lemma bounded_digits m e :
  bounded 53 1024 m e = true -> Zpos m < 2 ^ 53 /\ (emin 53 1024 < e -> 2 ^ 52 <= Zpos m).
Proof.
  unfold bounded, canonical_mantissa, fexp. rewrite digits2_log. intros [H _]%andb_prop. apply Z.eqb_eq in H.
  pose proof (Z.log2_spec (Zpos m) ltac:(lia)) as [Hl Hu]. split.
  - eapply Z.lt_le_trans; [exact Hu|]. apply Z.pow_le_mono_r; lia.
  - intros He. transitivity (2 ^ Z.log2 (Zpos m)); [|done]. apply Z.pow_le_mono_r; lia.
Qed.

(** A number below an integer [K] (in canonical form) rounds to at most [K]. *)
Lemma round_below m e K M E :
  bounded 53 1024 m e = true -> 2 ^ 52 <= Zpos M -> E < 0 -> Zpos M = K * 2 ^ (- E) ->
  e < E \/ (e = E /\ Zpos m < Zpos M) ->
  round_magnitude m e <= K.
Proof.
  intros Hb HM HE EK Hlt. destruct (bounded_digits m e Hb) as [Hm _]. unfold round_magnitude.
  replace (0 <=? e) with false by lia. set (P := 2 ^ (- e)).
  assert (0 < P) by (apply Z.pow_pos_nonneg; lia).
  assert (Zpos m < K * P) as Hk.
  { destruct Hlt as [Hlt|[-> Hlt]]; [|unfold P; lia].
    assert (P = 2 ^ (E - e) * 2 ^ (- E)) as EP by (unfold P; rewrite <- Z.pow_add_r by lia; f_equal; lia).
    assert (2 <= 2 ^ (E - e)) by (change 2 with (2 ^ 1) at 1; apply Z.pow_le_mono_r; lia).
    replace (K * P) with (2 ^ (E - e) * Zpos M) by (rewrite EK, EP; ring). nia. }
  enough ((2 * Zpos m + P) / (2 * P) < K + 1) by lia. apply Z.div_lt_upper_bound; nia.
Qed.

(** The integer a finite number rounds to. *)
Definition rounded (x : spec_float) : Z :=
  match x with S754_finite s m e => if s then - round_magnitude m e else round_magnitude m e | _ => 0 end.

Lemma round_as_finite lo hi x :
  is_finite binary64 x = true ->
  fl_round_as binary64 lo hi x = Z.max lo (Z.min hi (rounded (of_bits binary64 x))).
Proof.
  unfold is_finite, fl_round_as, fl_cast, rounded. by destruct (of_bits binary64 x).
Qed.

Lemma round_magnitude_nonneg m e : 0 <= round_magnitude m e.
Proof.
  unfold round_magnitude. destruct (0 <=? e) eqn:He; [pose proof (Z.pow_nonneg 2 e); nia|].
  pose proof (Z.pow_pos_nonneg 2 (- e) ltac:(lia) ltac:(lia)). apply Z.div_pos; lia.
Qed.

(** An integer in canonical form with a fractional exponent. *)
Definition fractional (s : bool) (K : Z) (x : spec_float) : Prop :=
  ∃ M E, x = S754_finite s M E /\ 2 ^ 52 <= Zpos M /\ E < 0 /\ Zpos M = K * 2 ^ (- E).

(** What is not at or past [K] rounds to at most [K], on either side of zero. *)
Lemma rounded_below K k x :
  fractional false K k -> valid_binary 53 1024 x = true -> SFleb k x = false -> x ≠ S754_nan ->
  rounded x <= K.
Proof.
  intros (M & E & -> & HM & HE & EK) Hv Hle Hn. pose proof (Z.pow_pos_nonneg 2 (- E) ltac:(lia) ltac:(lia)).
  assert (0 < K) by nia. destruct x as [s|s| |s m e]; cbn [rounded]; try lia.
  destruct s; [pose proof (round_magnitude_nonneg m e); lia|].
  apply (round_below m e K M E); try done. unfold SFleb in Hle. cbn in Hle.
  destruct (Z.compare_spec E e) as [->| |]; [|done|by left].
  right. split; [done|]. apply Pos2Z.pos_lt_pos. change (Pos.compare_cont Eq M m) with (M ?= m)%positive in Hle.
  destruct (Pos.compare_spec M m); done.
Qed.

Lemma rounded_above K k x :
  fractional true K k -> valid_binary 53 1024 x = true -> SFleb x k = false -> x ≠ S754_nan ->
  - K <= rounded x.
Proof.
  intros (M & E & -> & HM & HE & EK) Hv Hle Hn. pose proof (Z.pow_pos_nonneg 2 (- E) ltac:(lia) ltac:(lia)).
  assert (0 < K) by nia. destruct x as [s|s| |s m e]; cbn [rounded]; try lia.
  destruct s; [|pose proof (round_magnitude_nonneg m e); lia].
  apply Z.opp_le_mono. rewrite !Z.opp_involutive. apply (round_below m e K M E); try done. unfold SFleb in Hle. cbn in Hle.
  destruct (Z.compare_spec e E) as [->| |]; [|by left|done].
  right. split; [done|]. apply Pos2Z.pos_lt_pos. change (Pos.compare_cont Eq m M) with (m ?= M)%positive in Hle.
  destruct (Pos.compare_spec m M); done.
Qed.

(** ** Predictions *)

Local Abbreviation as_f64 := (fl_of_Z binary64).

Lemma finite_not_nan x : is_finite binary64 x = true -> of_bits binary64 x ≠ S754_nan.
Proof. unfold is_finite. by destruct (of_bits binary64 x). Qed.

Section linear_lemmas.
Context (T : PrimitivePhysicalType).
Local Abbreviation w := (native_width T).

Lemma bounds_fractional :
  w <= 32 ->
  if is_unsigned T then fractional false (2 ^ w - 1) (of_bits binary64 (as_f64 (MAX_U64 T)))
  else fractional false (2 ^ (w - 1) - 1) (of_bits binary64 (as_f64 (MAX_I64 T)))
       /\ fractional true (2 ^ (w - 1)) (of_bits binary64 (as_f64 (MIN_I64 T))).
Proof.
  intros Hw. assert (∀ s K x, 0 < K -> x = S754_finite s (Z.to_pos (K * 2 ^ (52 - Z.log2 K))) (Z.log2 K - 52) ->
    Z.log2 K < 52 -> fractional s K x) as Hf.
  { intros s K x HK -> Hl. pose proof (Z.log2_nonneg K). pose proof (Z.log2_spec K HK) as [Hlo _].
    assert (2 ^ 52 = 2 ^ Z.log2 K * 2 ^ (52 - Z.log2 K)) by (rewrite <- Z.pow_add_r by lia; f_equal; lia).
    pose proof (Z.pow_pos_nonneg 2 (52 - Z.log2 K) ltac:(lia) ltac:(lia)).
    do 2 eexists. split; [done|]. rewrite Z2Pos.id by nia. split; [nia|]. split; [lia|]. do 2 f_equal. lia. }
  destruct T; try (exfalso; cbn in Hw; lia); cbn [is_unsigned native_width];
    try split; apply Hf; vm_compute; congruence.
Qed.

(** The prediction for any row is a value of the type. *)
Lemma prediction_range intercept slope i :
  w <= 32 -> in_native T (prediction T intercept slope i).
Proof.
  intros Hw. pose proof (bounds_fractional Hw) as Hb. pose proof (native_width_range T).
  assert (1 < 2 ^ (w - 1)) by (apply Z.pow_gt_1; lia). assert (1 < 2 ^ w) by (apply Z.pow_gt_1; lia).
  assert (2 ^ (w - 1) <= 2 ^ 31) by (apply Z.pow_le_mono_r; lia). assert (2 ^ w <= 2 ^ 32) by (apply Z.pow_le_mono_r; lia).
  unfold prediction, in_native. set (pr := fadd _ _ _). clearbody pr.
  pose proof (of_bits_valid binary64 pr) as Hv. destruct (is_unsigned T) eqn:Hu.
  - unfold predict_u64_saturated. destruct (is_finite binary64 pr) eqn:Hf; cbn [negb orb]; [|lia].
    destruct (fle binary64 pr f_zero); [lia|]. destruct (fle binary64 (as_f64 (MAX_U64 T)) pr) eqn:Hle.
    { unfold MAX_U64. rewrite Hu. lia. }
    rewrite round_as_finite by done. pose proof (rounded_below _ _ _ Hb Hv Hle (finite_not_nan _ Hf)). lia.
  - destruct Hb as [Hhi Hlo]. unfold predict_i64_saturated. destruct (is_finite binary64 pr) eqn:Hf; cbn [negb]; [|lia].
    destruct (fle binary64 pr (as_f64 (MIN_I64 T))) eqn:Hle1; [unfold MIN_I64; rewrite Hu; lia|].
    destruct (fle binary64 (as_f64 (MAX_I64 T)) pr) eqn:Hle2; [unfold MAX_I64; rewrite Hu; lia|].
    rewrite round_as_finite by done. pose proof (rounded_below _ _ _ Hhi Hv Hle2 (finite_not_nan _ Hf)).
    pose proof (rounded_above _ _ _ Hlo Hv Hle1 (finite_not_nan _ Hf)). lia.
Qed.

(** Without the bound on the width, it is still a [u64] or an [i64]. *)
Lemma prediction_64 intercept slope i :
  if is_unsigned T then 0 <= prediction T intercept slope i < 2 ^ 64
  else - 2 ^ 63 <= prediction T intercept slope i < 2 ^ 63.
Proof.
  pose proof (native_width_range T). assert (2 ^ (w - 1) <= 2 ^ 63) by (apply Z.pow_le_mono_r; lia).
  assert (2 ^ w <= 2 ^ 64) by (apply Z.pow_le_mono_r; lia). assert (1 < 2 ^ (w - 1)) by (apply Z.pow_gt_1; lia).
  assert (1 < 2 ^ w) by (apply Z.pow_gt_1; lia).
  unfold prediction, predict_u64_saturated, predict_i64_saturated, MAX_U64, MIN_I64, MAX_I64. set (pr := fadd _ _ _). clearbody pr.
  destruct (is_unsigned T); destruct (is_finite binary64 pr) eqn:Hf; cbn [negb orb]; try lia;
    repeat match goal with |- context [fle binary64 ?a ?b] => destruct (fle binary64 a b) end;
    rewrite ?round_as_finite by done; lia.
Qed.
End linear_lemmas.

(** ** Residuals *)

Lemma land_63 z : Z.land z (2 ^ 63 - 1) = z mod 2 ^ 63.
Proof. change (2 ^ 63 - 1) with (Z.ones 63). by apply Z.land_ones. Qed.

(** The residual of [v] against [p] is not cut. *)
Definition residual_fits (T : PrimitivePhysicalType) (p v : Z) : Prop :=
  if is_unsigned T then - 2 ^ 63 < v - p < 2 ^ 63 else - 2 ^ 63 <= v - p < 2 ^ 63.

Section rows.
Context `{NullBufferLaws} `{FastlanesLaws} {PK : PrimitiveKernels} {PL : PrimitiveKernelLaws}.
Context (T : PrimitivePhysicalType).
Local Abbreviation w := (native_width T).

Lemma residual_range p v : in_native PInt64 (residual T p v).
Proof.
  unfold residual, in_native. cbn [is_unsigned native_width]. destruct (is_unsigned T).
  - destruct (p <=? v); rewrite land_63; [pose proof (Z.mod_pos_bound (v - p) (2 ^ 63))|pose proof (Z.mod_pos_bound (p - v) (2 ^ 63))]; lia.
  - pose proof (wraps_range 64 (v - p)). lia.
Qed.

Lemma zero_residual_0 v : in_native T v -> zero_residual T v = residual T 0 v.
Proof.
  intros Hv. unfold zero_residual, residual, in_native in *. pose proof (native_width_range T).
  destruct (is_unsigned T).
  - replace (0 <=? v) with true by lia. by rewrite Z.sub_0_r.
  - assert (2 ^ (w - 1) <= 2 ^ 63) by (apply Z.pow_le_mono_r; lia). rewrite wraps_id; lia.
Qed.

Lemma reconstruct_residual intercept slope i v :
  in_native T v -> residual_fits T (prediction T intercept slope i) v ->
  reconstruct T intercept slope i (residual T (prediction T intercept slope i) v) = Ret v.
Proof.
  intros Hv Hf. unfold reconstruct. pose proof (prediction_64 T intercept slope i) as Hp.
  set (p := prediction T intercept slope i) in *. clearbody p.
  enough ((if is_unsigned T
           then if 0 <=? residual T p v then Z.min (2 ^ 64 - 1) (p + Z.abs (residual T p v))
                else Z.max 0 (p - Z.abs (residual T p v))
           else Z.max (- 2 ^ 63) (Z.min (2 ^ 63 - 1) (p + residual T p v))) = v) as ->.
  { unfold native_from. by rewrite bool_decide_eq_true_2 by by apply as_native_id. }
  pose proof (native_width_range T). assert (2 ^ (w - 1) <= 2 ^ 63) by (apply Z.pow_le_mono_r; lia).
  assert (2 ^ w <= 2 ^ 64) by (apply Z.pow_le_mono_r; lia).
  unfold residual, residual_fits, in_native in *. destruct (is_unsigned T).
  - destruct (p <=? v) eqn:E; rewrite !land_63, !Z.mod_small by lia.
    + replace (0 <=? v - p) with true by lia. lia.
    + replace (0 <=? - (p - v)) with false by lia. lia.
  - rewrite wraps_id by lia. lia.
Qed.

(** The zero line predicts zero. *)
Lemma prediction_zero i : prediction T f_zero f_zero i = 0.
Proof.
  unfold prediction. assert (∃ x, fmul binary64 f_zero (fl_of_Z binary64 (Z.of_nat i)) = to_bits binary64 x
    /\ (x = S754_nan \/ ∃ s, x = S754_zero s)) as (x & -> & Hx).
  { unfold fmul, lift2. eexists. split; [done|].
    replace (of_bits binary64 f_zero) with (S754_zero false) by by vm_compute.
    destruct (of_bits binary64 _) as [t|t| |t m e]; cbn; eauto. }
  destruct Hx as [->|([] & ->)]; destruct T; by vm_compute.
Qed.

(** A linear array that holds a column. *)
Definition la_repr (a : LiquidLinearArray) (target : list (option Z)) : Prop :=
  ∃ rs, lp_repr PInt64 (la_residuals a) rs /\ length rs = length target
        /\ ∀ k, match target !! k with
                | Some (Some v) => ∃ e, rs !! k = Some (Some e) /\ reconstruct T (la_intercept a) (la_slope a) k e = Ret v
                | Some None => rs !! k = Some None
                | None => True
                end.

Lemma residuals_lookup f values valid (k : nat) :
  residuals_with f values valid !! k
  = match zip values valid !! k with Some (v, b) => Some (if (b : bool) then f k v else 0) | None => None end.
Proof. unfold residuals_with. rewrite list_lookup_imap. destruct (zip values valid !! k) as [[v b]|]; done. Qed.

Lemma residuals_length f values valid : length valid = length values -> length (residuals_with f values valid) = length values.
Proof. intros Hl. unfold residuals_with. rewrite length_imap, length_zip. lia. Qed.

Lemma residuals_native f values valid :
  (∀ k v, v ∈ values -> in_native PInt64 (f k v)) -> Forall (in_native PInt64) (residuals_with f values valid).
Proof.
  intros Hf. apply Forall_lookup. intros k r. rewrite residuals_lookup.
  destruct (zip values valid !! k) as [[v b]|] eqn:E; [|done]. intros [= <-].
  destruct b; [|unfold in_native; cbn; lia]. apply Hf. apply lookup_zip_with_Some in E as (v' & b' & [= <- <-] & Hv & _).
  by eapply list_elem_of_lookup_2.
Qed.

(** Residuals against a line that fits, packed, hold the column. *)
Lemma line_ok intercept slope nulls values residual_of :
  pa_wf (Prim values nulls) -> Forall (in_native T) values ->
  (∀ k v, v ∈ values -> residual_of k v = residual T (prediction T intercept slope k) v) ->
  (∀ k v, pa_logical (Prim values nulls) !! k = Some (Some v) -> residual_fits T (prediction T intercept slope k) v) ->
  ∃ l, lp_from_arrow_array PInt64 (Prim (residuals_with residual_of values (validity nulls (length values))) nulls) = Ret l
       /\ la_repr (LinearArr l intercept slope) (pa_logical (Prim values nulls)).
Proof.
  intros Wf F Hr Hfit. pose proof (validity_length _ _ Wf) as Hl. set (valid := validity nulls (length values)) in *.
  pose proof (residuals_length residual_of values valid Hl) as Hlr.
  destruct (lp_from_arrow_ok PInt64 (Prim (residuals_with residual_of values valid) nulls)) as (l & El & [Hrep _] & _).
  { unfold pa_wf in *. cbn in *. by destruct nulls; rewrite ?Hlr. }
  { apply residuals_native. intros k v Hv. rewrite (Hr k v Hv). apply residual_range. }
  exists l. split; [done|]. eexists. split; [exact Hrep|].
  rewrite <- !validity_logical. cbn [pa_values pa_nulls]. rewrite Hlr. fold valid.
  rewrite <- validity_logical in Hfit. cbn [pa_values pa_nulls] in Hfit. fold valid in Hfit.
  split; [unfold mask_values; rewrite !length_zip_with; lia|]. intros k. specialize (Hfit k).
  rewrite !mask_lookup, !lookup_zip_with in *. rewrite residuals_lookup, lookup_zip_with. destruct (values !! k) as [v|] eqn:Ev, (valid !! k) as [b|] eqn:Eb; cbn in *; try done.
  apply list_elem_of_lookup_2 in Ev. destruct b; [|done]. eexists. split; [done|]. cbn [la_intercept la_slope].
  rewrite Hr by done. apply reconstruct_residual; [by eapply Forall_forall in F|by apply Hfit].
Qed.

(** ** Building and reading *)

Definition is_f64 (x : fl) : Prop := 0 <= x < 2 ^ 64.

Lemma to_bits_f64 x : is_f64 (to_bits binary64 x).
Proof. exact (to_bits_range binary64 x). Qed.

Lemma fmul_f64 x y : is_f64 (fmul binary64 x y).
Proof. unfold fmul, lift2. apply to_bits_f64. Qed.

Lemma fit_linf_f64 points :
  Forall (λ point, is_f64 point.1) points -> is_f64 (fit_linf points).1 /\ is_f64 (fit_linf points).2.
Proof.
  assert (is_f64 f_zero) as Hzero by apply to_bits_f64.
  intros F. destruct points as [|[v i] [|[v' i'] points]]; cbn [fit_linf]; [done| |].
  { apply Forall_cons in F as [F _]. by split. }
  destruct (slope_bounds _ _ _ _ _) as [s1 s2]. destruct (if negb _ || _ then _ else _) as [s1' s2'].
  destruct (if flt _ _ _ then _ else _) as [lo hi]. destruct (bisect _ _ _ _) as [lo' hi'].
  destruct (range_stats _ _) as [[[min_s i_min] max_s] i_max]. cbn [fst snd]. split; apply fmul_f64.
Qed.

Lemma collect_f64 values valid :
  Forall (λ point, is_f64 point.1) (collect_non_null_f64_and_indices values valid).
Proof.
  unfold collect_non_null_f64_and_indices. apply Forall_forall. intros point (o & Ho & ->)%list_elem_of_omap.
  apply list_elem_of_lookup in Ho as (k & Hk). rewrite list_lookup_imap in Hk.
  destruct (zip values valid !! k) as [[v []]|]; try done. injection Hk as <-. apply to_bits_f64.
Qed.

(** The fitted line leaves residuals that are not cut, and so does the zero line. *)
Definition linear_fits (col : PrimitiveArray) : Prop :=
  let '(intercept, slope) :=
    fit_linf (collect_non_null_f64_and_indices (pa_values col) (validity (pa_nulls col) (length (pa_values col)))) in
  ∀ k v, pa_logical col !! k = Some (Some v) ->
    residual_fits T (prediction T intercept slope k) v /\ residual_fits T 0 v.

Lemma in_native_logical col k v :
  Forall (in_native T) (pa_values col) -> pa_logical col !! k = Some (Some v) -> in_native T v.
Proof.
  intros F Hk. eapply Forall_forall in F; [exact F|]. eapply logical_in, list_elem_of_lookup_2. exact Hk.
Qed.

Lemma narrow_fits col : w <= 32 -> Forall (in_native T) (pa_values col) -> linear_fits col.
Proof.
  intros Hw F. unfold linear_fits. destruct (fit_linf _) as [intercept slope]. intros k v Hk.
  pose proof (in_native_logical _ _ _ F Hk) as Hv. pose proof (prediction_range T intercept slope k Hw) as Hp.
  unfold in_native, residual_fits in *. pose proof (native_width_range T).
  assert (2 ^ (w - 1) <= 2 ^ 31) by (apply Z.pow_le_mono_r; lia). assert (2 ^ w <= 2 ^ 32) by (apply Z.pow_le_mono_r; lia).
  destruct (is_unsigned T); lia.
Qed.

Lemma la_from_arrow_ok col :
  pa_wf col -> Forall (in_native T) (pa_values col) -> linear_fits col ->
  ∃ a, la_from_arrow_array T col = Ret a /\ la_repr a (pa_logical col) /\ is_f64 (la_intercept a) /\ is_f64 (la_slope a).
Proof.
  intros Wf F Hfit. unfold la_from_arrow_array. case_bool_decide as Hnull.
  - destruct (lp_from_arrow_ok PInt64 (pa_new_null (length (pa_values col)))) as (l & -> & [Hrep _] & _).
    { unfold pa_wf, pa_new_null. cbn. by rewrite nb_new_null_bits, !length_replicate. }
    { unfold pa_new_null. cbn. apply Forall_replicate. unfold in_native. cbn. lia. }
    run_step. eexists. split; [done|]. split; [|by split; vm_compute]. eexists. split; [exact Hrep|].
    rewrite (all_null_logical col Wf Hnull).
    assert (pa_logical (pa_new_null (length (pa_values col))) = replicate (length (pa_values col)) None) as ->.
    { unfold pa_logical, pa_new_null. cbn. by rewrite nb_new_null_bits, mask_none by by rewrite length_replicate. }
    split; [done|]. intros k. destruct (replicate _ None !! k) as [[v|]|] eqn:E; [|done|done].
    apply lookup_replicate in E as [? _]. done.
  - destruct col as [values nulls]. unfold linear_fits in Hfit. cbn [pa_values pa_nulls] in *.
    pose proof (fit_linf_f64 _ (collect_f64 values (validity nulls (length values)))) as Hr.
    destruct (fit_linf _) as [intercept slope]. destruct (falls_back _ _ _ _); run_step.
    + destruct (line_ok f_zero f_zero nulls values (λ _, zero_residual T)) as (l & -> & Hl); try done.
      { intros k v Hv. rewrite prediction_zero. apply zero_residual_0. by eapply Forall_forall in F. }
      { intros k v Hk. rewrite prediction_zero. by apply (Hfit k v Hk). }
      run_step. eexists. split; [done|]. split; [done|]. by split; vm_compute.
    + destruct (line_ok intercept slope nulls values (λ i, residual T (prediction T intercept slope i))) as (l & -> & Hl); try done.
      { intros k v Hk. by apply (Hfit k v Hk). }
      run_step. eauto.
Qed.

(** Only a null row can make decoding panic. *)
Lemma reconstruct_from_ok intercept slope i es bits target :
  length bits = length es -> length target = length es ->
  (∀ k, match target !! k with
        | Some (Some v) => bits !! k = Some true /\ ∃ e, es !! k = Some e /\ reconstruct T intercept slope (i + k) e = Ret v
        | Some None => bits !! k = Some false
        | None => True
        end) ->
  (reconstruct_from T intercept slope i es = Panic /\ None ∈ target)
  \/ ∃ vals, reconstruct_from T intercept slope i es = Ret vals /\ length vals = length es /\ mask_values vals bits = target.
Proof.
  revert i bits target. induction es as [|e es IH]; intros i [|b bits] [|o target] Hb Ht Hk; try done.
  { right. by exists []. }
  destruct (IH (S i) bits target ltac:(cbn in Hb; lia) ltac:(cbn in Ht; lia)) as [[E Hn]|(vals & E & Hl & Hm)].
  { intros k. specialize (Hk (S k)). cbn in Hk. by rewrite Nat.add_succ_r in Hk. }
  - left. cbn [reconstruct_from]. split; [|by right]. rewrite E.
    unfold reconstruct, native_from. case_bool_decide; done.
  - specialize (Hk 0%nat). cbn [lookup list_lookup] in Hk. cbn [reconstruct_from]. rewrite Nat.add_0_r in Hk. destruct o as [v|].
    + destruct Hk as [[= ->] (e' & [= <-] & ->)]. run_step. rewrite E. run_step. right. exists (v :: vals).
      split; [done|]. split; [cbn; lia|]. unfold mask_values in *. cbn. by rewrite Hm.
    + injection Hk as ->. unfold reconstruct, native_from. case_bool_decide; run_step; [|by left; split; [|left]].
      rewrite E. run_step. right. eexists (_ :: vals). split; [done|]. split; [cbn; lia|].
      unfold mask_values in *. cbn. by rewrite Hm.
Qed.

(** What reading gives: the column, or a panic over a null row. *)
Definition reads_as (target : list (option Z)) (r : outcome PrimitiveArray) : Prop :=
  (r = Panic /\ None ∈ target) \/ ∃ b, r = Ret b /\ pa_wf b /\ pa_logical b = target.

Lemma la_to_arrow_ok a target : la_repr a target -> reads_as target (la_to_arrow_array T a).
Proof.
  intros (rs & Hrep & Hlen & Hk). unfold la_to_arrow_array.
  destruct (lp_to_arrow_ok PInt64 _ _ Hrep) as (arr & -> & <- & Wf & Hl). run_step.
  rewrite <- validity_logical in *. pose proof (validity_length (pa_nulls arr) (pa_values arr)) as Hv.
  specialize (Hv ltac:(by destruct arr)). set (bits := validity _ _) in *.
  destruct (reconstruct_from_ok (la_intercept a) (la_slope a) 0 (pa_values arr) bits target) as [[-> Hn]|(vals & -> & Hvl & Hm)].
  - done.
  - rewrite <- Hlen. unfold mask_values. rewrite length_zip_with. lia.
  - intros k. specialize (Hk k). rewrite mask_lookup, lookup_zip_with in Hk.
    destruct (target !! k) as [[v|]|]; [| |done].
    + destruct Hk as (e & He & Hr). destruct (pa_values arr !! k) as [e'|], (bits !! k) as [[]|]; cbn in He; try done.
      injection He as ->. split; [done|]. exists e. by rewrite Nat.add_0_l.
    + by destruct (pa_values arr !! k) as [e'|], (bits !! k) as [[]|].
  - by left.
  - run_step. right. eexists. split; [done|]. unfold pa_wf in *. cbn. split; [by destruct (pa_nulls arr); rewrite ?Hvl|].
    rewrite <- validity_logical. cbn [pa_values pa_nulls]. by rewrite Hvl.
Qed.

Lemma la_filter_ok a target m :
  la_repr a target -> length m = length target ->
  (la_filter T a m = Panic /\ None ∈ target) \/ ∃ b, la_filter T a m = Ret b /\ pa_logical b = keep target m.
Proof.
  intros Hr Hm. unfold la_filter. destruct (la_to_arrow_ok a target Hr) as [[-> Hn]|(b & -> & Wf & Hb)]; [by left|].
  run_step. right. destruct (prim_filter_ok b m Wf) as (f & -> & _ & Hf & _).
  { rewrite Hm, <- Hb, <- validity_logical. unfold mask_values. rewrite length_zip_with, validity_length by by destruct b. lia. }
  exists f. by rewrite Hf, Hb.
Qed.

Lemma la_bytes_ok a target :
  la_repr a target -> bp_fits 64 (lp_bit_packed (la_residuals a)) ->
  0 <= la_intercept a < 2 ^ 64 -> 0 <= la_slope a < 2 ^ 64 ->
  ∃ b, la_from_bytes (la_to_bytes T a) = Ret b /\ la_repr b target.
Proof.
  intros (rs & Hrep & Hlen & Hk) Hfit Hi Hs. unfold la_from_bytes, la_to_bytes.
  set (hd := header_to_bytes _). assert (length hd = header_size) as Hhd by (apply length_header, length_le_bytes).
  set (ib := le_bytes 8 (la_intercept a)). set (sb := le_bytes 8 (la_slope a)).
  assert (length ib = 8%nat) as Hib by apply length_le_bytes. assert (length sb = 8%nat) as Hsb by apply length_le_bytes.
  replace (residual_starting_loc - _)%nat with 0%nat by (rewrite !length_app, Hhd, Hib, Hsb; done).
  cbn [replicate app]. rewrite <- !app_assoc.
  rewrite (header_roundtrip (liquid_data_type_code LLinearInteger) (physical_type_id T) ltac:(cbn; lia) ltac:(destruct T; cbn; lia) : ∀ rest, header_from_bytes (hd ++ rest) = _).
  run_step. rewrite (slice_ok hd ib _ header_size 8) by (by rewrite ?Hhd, ?Hib). run_step.
  rewrite (app_assoc hd ib), (slice_ok (hd ++ ib) sb _ (header_size + 8) 8) by (by rewrite ?length_app, ?Hhd, ?Hib, ?Hsb). run_step.
  rewrite (app_assoc (hd ++ ib) sb). replace (length _ <? residual_starting_loc)%nat with false.
  2: { symmetry. apply Nat.ltb_ge. rewrite !length_app, Hhd, Hib, Hsb. unfold residual_starting_loc. change (align8 (header_size + 8 + 8)) with 32%nat. change header_size with 16%nat. lia. }
  rewrite drop_app_length' by (by rewrite !length_app, Hhd, Hib, Hsb).
  destruct (lp_bytes_ok PInt64 _ rs Hrep Hfit) as (l & -> & Hl). run_step.
  eexists. split; [done|]. exists rs. split; [done|]. split; [done|]. cbn [la_intercept la_slope]. unfold ib, sb.
  rewrite !le_val_bytes, !Z.mod_small by (change (8 * Z.of_nat 8) with 64; assumption). exact Hk.
Qed.
End rows.

(** ** Theorems *)

Section theorems.
Context `{NullBufferLaws} `{FastlanesLaws} {PK : PrimitiveKernels} {PL : PrimitiveKernelLaws}.
Context (T : PrimitivePhysicalType).

(** C24: whatever line was fitted, a linear array of a type of at most 32 bits, or one
    whose residuals are not cut, reads as the column it was built from, filtered or
    from its bytes; when a row is null, and only then, reading may panic instead. *)
Theorem linear_exact col m
    (Wf : pa_wf col) (Hnat : Forall (in_native T) (pa_values col))
    (Hfit : native_width T <= 32 \/ linear_fits T col) (Hm : length m = length (pa_logical col)) :
  ∃ a, la_from_arrow_array T col = Ret a
       /\ reads_as (pa_logical col) (la_to_arrow_array T a)
       /\ ((la_filter T a m = Panic /\ None ∈ pa_logical col)
           \/ ∃ f, la_filter T a m = Ret f /\ pa_logical f = keep (pa_logical col) m)
       /\ (bp_fits 64 (lp_bit_packed (la_residuals a)) ->
           ∃ b, la_from_bytes (la_to_bytes T a) = Ret b /\ reads_as (pa_logical col) (la_to_arrow_array T b)).
Proof.
  assert (linear_fits T col) as Hfits by (destruct Hfit; [by apply narrow_fits|done]).
  destruct (la_from_arrow_ok T col Wf Hnat Hfits) as (a & E & Hr & Hi & Hs). exists a. split; [done|].
  split; [by apply la_to_arrow_ok|]. split; [by apply la_filter_ok|]. intros Hb.
  destruct (la_bytes_ok T a _ Hr Hb Hi Hs) as (b & Eb & Hrb). exists b. split; [done|]. by apply la_to_arrow_ok.
Qed.
End theorems.

(** What a column reads as after it was encoded. *)
Definition linear_round_trip (T : PrimitivePhysicalType) (col : PrimitiveArray) : outcome (list Z) :=
  a ← la_from_arrow_array T col; b ← la_to_arrow_array T a; Ret (pa_values b).

(** Where the residuals do not fit: a null row makes an [i8] column unreadable, the
    top bit of a [u64] is lost, and an [i64] column comes back changed. *)
Theorem linear_wide_types_lossy :
  linear_round_trip PInt8 (Prim [127; 0] (Some [true; false])) = Panic
  /\ linear_round_trip PUInt64 (Prim [2 ^ 63] None) = Ret [0]
  /\ linear_round_trip PInt64 (Prim [- 2 ^ 63; 2 ^ 63 - 1; - 2 ^ 63; 2 ^ 63 - 1] None)
     = Ret [- 2 ^ 63; - 2 ^ 63; 2 ^ 63 - 1; 2 ^ 63 - 1].
Proof. split; [|split]; vm_compute; reflexivity. Qed.

(** ** Witnesses *)

Definition offsets_like : PrimitiveArray := Prim [10; 12; 14; 17; 18] None.

Lemma linear_exact_witness :
  ∃ a b, la_from_arrow_array PInt32 offsets_like = Ret a /\ la_to_arrow_array PInt32 a = Ret b
         /\ pa_logical b = [Some 10; Some 12; Some 14; Some 17; Some 18].
Proof.
  destruct (linear_exact PInt32 offsets_like [true; true; true; true; false]) as (a & E & Hr & _).
  - exact I.
  - repeat constructor; unfold in_native; cbn; lia.
  - by left.
  - reflexivity.
  - exists a. destruct Hr as [[_ Hn]|(b & Eb & _ & Hb)].
    + exfalso. change (None ∈ Some <$> [10; 12; 14; 17; 18]) in Hn. by apply list_elem_of_fmap in Hn as (? & ? & _).
    + exists b. split; [exact E|]. split; [exact Eb|]. exact Hb.
Defined.
