(* ===== verification/HybridArray.v ===== *)
(** * Squeezed primitive arrays

    Model of [LiquidPrimitiveArray::squeeze] in
    [src/src/storage/src/liquid_array/primitive_array.rs] and of
    [LiquidPrimitiveClampedArray] and [LiquidPrimitiveQuantizedArray] in
    [hybrid_primitive_array.rs]: half of the bits stay in memory, the whole array
    is on disk, and a comparison with a literal is answered from memory when the
    bits that are left decide it for every row.  DataFusion's expressions are
    what the downcasts find in them ([PExpr]); its comparison and cast kernels
    are a class. *)

From stdpp Require Import base list strings.
From Stdlib Require Import ZArith Lia String.
From S2P Require Import Prelude Bytes Arrow BitPack DataTypes Ipc CivilDate Expressions Formats.
From S2P Require Import SqueezedDate32 LiquidPrimitive.
Local Open Scope Z_scope.

Inductive Operator : Type := OpEq | OpNotEq | OpLt | OpLtEq | OpGt | OpGtEq.

(** The operators of DataFusion: the comparisons, and the others. *)
Inductive DFOperator : Type := DFCompare (op : Operator) | DFOther (code : nat).

Definition from_datafusion (op : DFOperator) : option Operator :=
  match op with DFCompare op => Some op | DFOther _ => None end.

(** [ScalarValue]: an integer, date or timestamp, null or not; any other. *)
Inductive ScalarValue : Type := ScalarInteger (v : option Z) | ScalarOther (code : nat).

(** What the downcasts of a physical expression find; [PDynamic] carries what
    [current] gives, [None] for an error. *)
Inductive PExpr : Type :=
| PColumn
| PLiteral (v : ScalarValue)
| PBinary (left : PExpr) (op : DFOperator) (right : PExpr)
| PScalarFunction (name : string) (args : list PExpr)
| PDynamic (current : option PExpr)
| POther.

Inductive PredicateLhs : Type := Plain | ToTimestampSeconds.

Definition unwrap_dynamic_filter (expr : PExpr) : option PExpr :=
  match expr with PDynamic current => current | _ => Some expr end.

Definition predicate_lhs_kind (expr : PExpr) : option PredicateLhs :=
  match expr with
  | PColumn => Some Plain
  | PScalarFunction name [PColumn] =>
      if String.eqb name "to_timestamp_seconds" then Some ToTimestampSeconds else None
  | _ => None
  end.

Definition can_eval_to_timestamp_seconds_direct (T : PrimitivePhysicalType) : bool :=
  match T with
  | PInt8 | PInt16 | PInt32 | PInt64 | PUInt8 | PUInt16 | PUInt32 | PUInt64 | PTimestampSecond => true
  | _ => false
  end.

(** The answer of a squeezed array (a null row is [None]), or that it
    needs its backing. *)
Inductive SqueezeResult (A : Type) : Type := Decided (a : A) | NeedsBacking.
Arguments Decided {A}.
Arguments NeedsBacking {A}.

(** [apply_cmp] and [cast] to the type of a literal. *)
Class CompareKernels `{NullBuffers} : Type := {
  apply_cmp : DFOperator -> PrimitiveArray -> ScalarValue -> option BooleanArray;
  cast_to : PrimitiveArray -> ScalarValue -> option PrimitiveArray
}.

Definition compare_values (op : Operator) (a b : Z) : bool :=
  match op with
  | OpEq => a =? b | OpNotEq => negb (a =? b)
  | OpLt => a <? b | OpLtEq => a <=? b | OpGt => a >? b | OpGtEq => a >=? b
  end.

Section hybrid.
Context `{NullBuffers} `{Fastlanes} {PK : PrimitiveKernels} {CK : CompareKernels}.
Context (T : PrimitivePhysicalType).
(** The decoding of the arrays that are not integers. *)
Context (read_other : list Z -> outcome PrimitiveArray).

Local Abbreviation w := (native_width T).

Record LiquidPrimitiveClampedArray : Type := Clamped {
  cl_squeezed : BitPackedArray;
  cl_reference_value : Z;
  cl_disk_range : nat * nat
}.

Record LiquidPrimitiveQuantizedArray : Type := Quantized {
  qu_quantized : BitPackedArray;
  qu_reference_value : Z;
  qu_bucket_width : Z;
  qu_disk_range : nat * nat
}.

Inductive SqueezedPrimitive : Type :=
| SqueezedDate (a : SqueezedDate32Array)
| SqueezedClamped (a : LiquidPrimitiveClampedArray)
| SqueezedQuantized (a : LiquidPrimitiveQuantizedArray).

(** ** Squeezing *)

Definition timestamp_unit : option TimeUnit :=
  match T with
  | PTimestampSecond => Some Second
  | PTimestampMillisecond => Some Millisecond
  | PTimestampMicrosecond => Some Microsecond
  | PTimestampNanosecond => Some Nanosecond
  | _ => None
  end.

(** [(1usize << bw) - 1] as a value of the unsigned type. *)
Definition sentinel_of (bw : nat) : Z := wrapu w (usize (usize (Z.shiftl 1 (Z.of_nat bw)) - 1)).

Definition clamp_value (sentinel v : Z) : Z := if v >=? sentinel then sentinel else v.

Definition bucket_width_of (max_offset bucket_count : Z) : Z :=
  let range_size := Z.min (max_offset + 1) (2 ^ 64 - 1) in
  Z.max ((range_size + (bucket_count - 1)) / bucket_count) 1.

Definition quantize_value (bucket_width bucket_count v : Z) : Z :=
  let idx := v / bucket_width in
  wrapu w (if idx >=? bucket_count then bucket_count - 1 else idx).

Definition lp_squeeze (expression_hint : option Hint) (l : LiquidPrimitiveArray)
    : outcome (option (SqueezedPrimitive * list Z)) :=
  match expression_hint with
  | None => Ret None
  | Some hint =>
      let full_bytes := lp_to_bytes T l in
      let disk_range := (0%nat, List.length full_bytes) in
      if bool_decide (T = PDate32) || is_timestamp T then
        match as_date32_field hint with
        | None => Ret None
        | Some field =>
            a ← lp_to_arrow_array T l;
            let squeezed :=
              match timestamp_unit with
              | None => from_liquid_date32 field a
              | Some unit => from_liquid_timestamp unit field a
              end in
            Ret (Some (SqueezedDate (with_backing (0, Z.of_nat (List.length full_bytes)) squeezed), full_bytes))
        end
      else
        match bp_bit_width (lp_bit_packed l) with
        | None => Ret None
        | Some orig_bw =>
            if (orig_bw <? 8)%nat then Ret None
            else
              let new_bw := Nat.max (orig_bw / 2) 1 in
              unsigned ← bp_to_primitive w (lp_bit_packed l);
              let values := pa_values unsigned in
              match lp_squeeze_policy l with
              | Clamp =>
                  let sentinel := sentinel_of new_bw in
                  let squeezed :=
                    bp_from_primitive w (Prim (clamp_value sentinel <$> values) (pa_nulls unsigned)) new_bw in
                  Ret (Some (SqueezedClamped (Clamped squeezed (lp_reference_value l) disk_range), full_bytes))
              | Quantize =>
                  let max_offset := foldl Z.max 0 values in
                  let bucket_count := Z.shiftl 1 (Z.of_nat new_bw) in
                  let bucket_width := bucket_width_of max_offset bucket_count in
                  let quantized :=
                    bp_from_primitive w
                      (Prim (quantize_value bucket_width bucket_count <$> values) (pa_nulls unsigned)) new_bw in
                  Ret (Some (SqueezedQuantized
                               (Quantized quantized (lp_reference_value l) bucket_width disk_range), full_bytes))
              end
        end
  end.

(** ** Reading the whole array back *)

(** [read_from_bytes] of [ipc.rs], and [to_arrow_array] of what it gives. *)
Definition read_arrow_from_bytes (bytes : list Z) : outcome PrimitiveArray :=
  header ← header_from_bytes bytes;
  logical ← liquid_data_type_from (logical_type header);
  match logical with
  | LInteger =>
      physical ← expect (physical_type_try_from (physical_type header));
      if is_integer physical then l ← lp_from_bytes physical bytes; lp_to_arrow_array physical l else Panic
  | _ => read_other bytes
  end.

Definition hydrate_full_arrow (disk_range : nat * nat) : SqueezeIo PrimitiveArray := λ backing,
  file ← expect backing;
  let '(from, to) := disk_range in
  bytes ← slice file from (to - from);
  a ← read_arrow_from_bytes bytes;
  Ret (a, [SqRead (Z.of_nat (to - from))]).

(** ** Filters *)

Definition filter_packed (packed : BitPackedArray) (selection : list bool) : outcome BitPackedArray :=
  unsigned ← bp_to_primitive w packed;
  filtered ← expect (prim_filter unsigned selection);
  bit_width ← expect (bp_bit_width packed);
  Ret (bp_from_primitive w filtered bit_width).

Definition cl_filter_inner (c : LiquidPrimitiveClampedArray) (selection : list bool)
    : outcome LiquidPrimitiveClampedArray :=
  squeezed ← filter_packed (cl_squeezed c) selection;
  Ret (Clamped squeezed (cl_reference_value c) (cl_disk_range c)).

Definition qu_filter_inner (q : LiquidPrimitiveQuantizedArray) (selection : list bool)
    : outcome LiquidPrimitiveQuantizedArray :=
  quantized ← filter_packed (qu_quantized q) selection;
  Ret (Quantized quantized (qu_reference_value q) (qu_bucket_width q) (qu_disk_range q)).

Definition has_sentinel (sentinel : Z) (values : list Z) (valid : list bool) : bool :=
  existsb (λ x, x.2 && (x.1 =? sentinel)) (zip values valid).

Definition to_arrow_known_only (c : LiquidPrimitiveClampedArray) : outcome (option PrimitiveArray) :=
  squeezed_prim ← bp_to_primitive w (cl_squeezed c);
  bw ← expect (bp_bit_width (cl_squeezed c));
  let values := pa_values squeezed_prim in
  let sentinel := sentinel_of bw in
  if has_sentinel sentinel values (validity (bp_nulls (cl_squeezed c)) (List.length values)) then Ret None
  else Ret (Some (Prim (add_reference T (cl_reference_value c) <$> values) (pa_nulls squeezed_prim))).

Definition cl_to_arrow_array (c : LiquidPrimitiveClampedArray) : SqueezeIo PrimitiveArray := λ backing,
  known ← to_arrow_known_only c;
  match known with
  | Some a => Ret (a, [])
  | None => hydrate_full_arrow (cl_disk_range c) backing
  end.

(** The default [filter] of [LiquidSqueezedArray]: filter the whole array. *)
Definition filter_full (disk_range : nat * nat) (selection : list bool) : SqueezeIo PrimitiveArray := λ backing,
  '(full, events) ← hydrate_full_arrow disk_range backing;
  a ← expect (prim_filter full selection);
  Ret (a, events).

Definition cl_filter (c : LiquidPrimitiveClampedArray) (selection : list bool) : SqueezeIo PrimitiveArray := λ backing,
  if (count_set_bits selection =? 0)%nat then Ret (Prim [] None, [])
  else
    filtered ← cl_filter_inner c selection;
    known ← to_arrow_known_only filtered;
    match known with
    | Some a => Ret (a, [])
    | None => filter_full (cl_disk_range c) selection backing
    end.

Definition qu_to_arrow_array (q : LiquidPrimitiveQuantizedArray) : SqueezeIo PrimitiveArray :=
  hydrate_full_arrow (qu_disk_range q).

Definition qu_filter (q : LiquidPrimitiveQuantizedArray) (selection : list bool) : SqueezeIo PrimitiveArray :=
  filter_full (qu_disk_range q) selection.

(** ** Predicates *)

(** The scalar as a value of the native type ([FromPrimitive]). *)
Definition literal_native (v : ScalarValue) : option Z :=
  match v with
  | ScalarInteger (Some v) => if bool_decide (as_native T v = v) then Some v else None
  | _ => None
  end.

(** One pass over the rows: a null row is [false], an undecided row needs the
    backing. *)
Fixpoint eval_rows (decide_row : Z -> option bool) (values : list Z) (valid : list bool) : option (list bool) :=
  match values, valid with
  | u :: values, is_valid :: valid =>
      match (if negb is_valid then Some false else decide_row u) with
      | None => None
      | Some b => cons b <$> eval_rows decide_row values valid
      end
  | _, _ => Some []
  end.

Definition eval_packed (decide_row : Z -> option bool) (packed : BitPackedArray) (values : list Z)
    : SqueezeResult (option BooleanArray) :=
  match eval_rows decide_row values (validity (bp_nulls packed) (List.length values)) with
  | None => NeedsBacking
  | Some out_vals => Decided (Some (boolean_array out_vals (bp_nulls packed)))
  end.

(** Whether a row at or above the sentinel is decided, and how. *)
Definition resolves_on_sentinel (op : Operator) (reference sentinel k : Z) : bool :=
  let sent_abs :=
    if is_unsigned T then wrapu 64 (wrapu w reference + sentinel)
    else wraps 64 (reference + wraps 64 sentinel) in
  let k := if is_unsigned T then wrapu w k else k in
  match op with
  | OpEq | OpNotEq | OpGt | OpLtEq => k <? sent_abs
  | OpLt | OpGtEq => k <=? sent_abs
  end.

Definition above (op : Operator) : bool :=
  match op with
  | OpEq => false | OpNotEq => true | OpLt => false | OpLtEq => false | OpGt => true | OpGtEq => true
  end.

Definition clamped_row (op : Operator) (reference sentinel k u : Z) : option bool :=
  if u =? sentinel then
    if resolves_on_sentinel op reference sentinel k then Some (above op) else None
  else Some (compare_values op (add_reference T reference u) k).

Definition cl_try_eval_predicate_inner (c : LiquidPrimitiveClampedArray) (op : Operator) (literal : ScalarValue)
    : outcome (SqueezeResult (option BooleanArray)) :=
  match literal_native literal with
  | None => Ret (Decided None)
  | Some k =>
      squeezed_prim ← bp_to_primitive w (cl_squeezed c);
      bw ← expect (bp_bit_width (cl_squeezed c));
      Ret (eval_packed (clamped_row op (cl_reference_value c) (sentinel_of bw) k) (cl_squeezed c)
             (pa_values squeezed_prim))
  end.

(** The side of a bucket below, above, and at the one of the literal. *)
Definition less_side (op : Operator) : bool :=
  match op with
  | OpEq => false | OpNotEq => true | OpLt => true | OpLtEq => true | OpGt => false | OpGtEq => false
  end.

Definition on_equal_bucket (op : Operator) (r bw : Z) : option bool :=
  match op with
  | OpEq | OpNotEq => None
  | OpLt => if r =? 0 then Some false else None
  | OpLtEq => if r + 1 =? bw then Some true else None
  | OpGt => if r + 1 =? bw then Some false else None
  | OpGtEq => if r =? 0 then Some true else None
  end.

Definition quantized_row (op : Operator) (q r bw b : Z) : option bool :=
  if b <? q then Some (less_side op)
  else if b >? q then Some (above op)
  else on_equal_bucket op r bw.

(** [None] when the literal is below the reference, else its offset. *)
Definition relative_offset (reference k : Z) : option Z :=
  if is_unsigned T then
    let ref_u := wrapu w reference in
    let k_u := wrapu w k in
    if k_u <? ref_u then None else Some (k_u - ref_u)
  else if k <? reference then None else Some (wrapu 64 (wraps 64 (k - reference))).

Definition qu_try_eval_predicate_inner (a : LiquidPrimitiveQuantizedArray) (op : Operator) (literal : ScalarValue)
    : outcome (SqueezeResult (option BooleanArray)) :=
  match literal_native literal with
  | None => Ret (Decided None)
  | Some k =>
      q_prim ← bp_to_primitive w (qu_quantized a);
      match relative_offset (qu_reference_value a) k with
      | None => Ret (eval_packed (λ _, Some (above op)) (qu_quantized a) (pa_values q_prim))
      | Some rel =>
          let bw := qu_bucket_width a in
          if bw =? 0 then Panic
          else Ret (eval_packed (quantized_row op (rel / bw) (rel mod bw) bw) (qu_quantized a) (pa_values q_prim))
      end
  end.

(** The evaluation on the whole array, filtered. *)
Definition eval_full (disk_range : nat * nat) (lhs_kind : PredicateLhs) (op : DFOperator) (literal : ScalarValue)
    (filter : list bool) : SqueezeIo (option BooleanArray) := λ backing,
  '(full, events) ← hydrate_full_arrow disk_range backing;
  Ret (match prim_filter full filter with
       | None => None
       | Some filtered_arr =>
           match (match lhs_kind with
                  | Plain => Some filtered_arr
                  | ToTimestampSeconds => cast_to filtered_arr literal
                  end) with
           | None => None
           | Some lhs_array => apply_cmp op lhs_array literal
           end
       end, events).

(** The body the two [try_eval_predicate] share, with the evaluation on what is
    in memory as an argument. *)
Definition try_eval_with (inner : Operator -> ScalarValue -> outcome (SqueezeResult (option BooleanArray)))
    (disk_range : nat * nat) (expr : PExpr) (filter : list bool) : SqueezeIo (option BooleanArray) := λ backing,
  match unwrap_dynamic_filter expr with
  | Some (PBinary lhs op (PLiteral literal)) =>
      match predicate_lhs_kind lhs, from_datafusion op with
      | Some lhs_kind, Some supported_op =>
          let can_eval_without_cast :=
            match lhs_kind with
            | Plain => true
            | ToTimestampSeconds => can_eval_to_timestamp_seconds_direct T
            end in
          if can_eval_without_cast then
            r ← inner supported_op literal;
            match r with
            | Decided (Some mask) => Ret (Some mask, [SqIoSaved])
            | Decided None => Ret (None, [])
            | NeedsBacking => eval_full disk_range lhs_kind op literal filter backing
            end
          else eval_full disk_range lhs_kind op literal filter backing
      | _, _ => Ret (None, [])
      end
  | _ => Ret (None, [])
  end.

Definition cl_try_eval_predicate (c : LiquidPrimitiveClampedArray) (expr : PExpr) (filter : list bool)
    : SqueezeIo (option BooleanArray) := λ backing,
  filtered ← cl_filter_inner c filter;
  try_eval_with (cl_try_eval_predicate_inner filtered) (cl_disk_range c) expr filter backing.

Definition qu_try_eval_predicate (a : LiquidPrimitiveQuantizedArray) (expr : PExpr) (filter : list bool)
    : SqueezeIo (option BooleanArray) := λ backing,
  filtered ← qu_filter_inner a filter;
  try_eval_with (qu_try_eval_predicate_inner filtered) (qu_disk_range a) expr filter backing.
End hybrid.
