(* ===== verification/HybridSpec.v ===== *)
(** * Squeezed primitive arrays answer like the arrays they were squeezed from

    The clamped and the quantized arrays of [HybridArray.v]: what is left in
    memory decides a comparison only when it is the right answer, and everything
    else is read from the bytes on disk. *)

From stdpp Require Import base list.
From Stdlib Require Import ZArith Lia.
From S2P Require Import Prelude Bytes Arrow BitPack DataTypes Ipc CivilDate Expressions Formats.
From S2P Require Import SqueezedDate32 LiquidPrimitive HybridArray.
Local Open Scope Z_scope.

(** The reference answer: null rows stay null. *)
Definition compare_rows (op : Operator) (k : Z) (vs : list (option Z)) : list (option bool) :=
  option_map (λ v, compare_values op v k) <$> vs.

Class CompareLaws `{CK : CompareKernels} : Prop := {
  apply_cmp_ok op a k :
    pa_wf a -> apply_cmp (DFCompare op) a (ScalarInteger (Some k)) = Some (compare_rows op k (pa_logical a))
}.

Lemma keep_valid_in (l : list (option Z)) m v : v ∈ valid_values (keep l m) -> v ∈ valid_values l.
Proof. rewrite !valid_in. apply keep_in. Qed.

Lemma keep_map_valid f l m : keep (map_valid f l) m = map_valid f (keep l m).
Proof. unfold map_valid. symmetry. apply keep_fmap. Qed.

Section hybrid_lemmas.
Context `{NullBufferLaws} `{FastlanesLaws} {PK : PrimitiveKernels} {PL : PrimitiveKernelLaws}.
Context {CK : CompareKernels} {CL : CompareLaws}.
Context (T : PrimitivePhysicalType) (read_other : list Z -> outcome PrimitiveArray).

Local Abbreviation w := (native_width T).

(** A packed array of [b] bits that holds these codes. *)
Record packed_ok (packed : BitPackedArray) (b : nat) (codes : list (option Z)) : Prop := {
  pk_width : bp_bit_width packed = Some b;
  pk_bits : 1 <= Z.of_nat b <= w;
  pk_prim : ∃ p, bp_to_primitive w packed = Ret p /\ pa_wf p /\ pa_nulls p = bp_nulls packed
                 /\ Forall (λ v, 0 <= v < 2 ^ Z.of_nat b) (pa_values p) /\ pa_logical p = codes
}.

Lemma packed_of_prim p b :
  pa_wf p -> 1 <= Z.of_nat b <= w -> Forall (λ v, 0 <= v < 2 ^ Z.of_nat b) (pa_values p) ->
  packed_ok (bp_from_primitive w p b) b (pa_logical p).
Proof.
  intros Wf Hb F. split; [done|done|].
  assert (2 ^ Z.of_nat b <= 2 ^ w) by (apply Z.pow_le_mono_r; lia).
  exists p. split; [|done]. rewrite bp_roundtrip; [|apply native_word| |done].
  - f_equal. destruct p as [vs n]. cbn [pa_values pa_nulls]. f_equal. apply fmap_id_on. intros v Hv.
    rewrite Forall_forall in F. by apply Z.mod_small, F.
  - eapply Forall_impl; [exact F|]. intros v Hv. cbn in Hv. unfold is_word. lia.
Qed.

Lemma filter_packed_ok packed b codes m :
  packed_ok packed b codes -> (length m <= length codes)%nat ->
  ∃ packed', filter_packed T packed m = Ret packed' /\ packed_ok packed' b (keep codes m).
Proof.
  intros [Hw Hb (p & Ep & Wf & _ & F & <-)] Hm. unfold filter_packed. rewrite Ep, Hw. run_step.
  destruct (prim_filter_ok p m Wf) as (p' & -> & Wf' & El & Hin); [by rewrite <- logical_len|].
  cbn [expect]. run_step. eexists. split; [done|]. rewrite <- El. apply packed_of_prim; [done..|].
  rewrite Forall_forall in F |- *. intros v Hv. apply F, Hin, Hv.
Qed.

(** One pass over the rows. *)
Lemma eval_rows_ok f values valid bits :
  length valid = length values -> eval_rows f values valid = Some bits ->
  length bits = length values
  /\ Forall2 (λ code out, match code with
                          | None => out = None
                          | Some u => ∃ b, f u = Some b /\ out = Some b
                          end)
       (mask_values values valid)
       (zip_with (λ b (is_valid : bool), if is_valid then Some b else None) bits valid).
Proof.
  revert valid bits. induction values as [|u values IH]; intros [|v valid] bits Hl E; try done.
  { injection E as <-. split; [done|constructor]. }
  injection Hl as Hl. cbn [eval_rows] in E. unfold mask_values in *.
  destruct (if negb v then Some false else f u) as [b|] eqn:Eb; [|done].
  destruct (eval_rows f values valid) as [bits'|] eqn:E'; [|done]. injection E as <-.
  destruct (IH valid bits' Hl E') as [Hb F]. split; [cbn; by rewrite Hb|]. cbn. constructor; [|done].
  destruct v; cbn in Eb; eauto.
Qed.

Lemma eval_packed_exact packed b g vs f op k p :
  packed_ok packed b (map_valid g vs) -> bp_to_primitive w packed = Ret p ->
  (∀ v r, v ∈ valid_values vs -> f (g v) = Some r -> r = compare_values op v k) ->
  eval_packed f packed (pa_values p) = NeedsBacking
  \/ eval_packed f packed (pa_values p) = Decided (Some (compare_rows op k vs)).
Proof.
  intros [_ _ (p' & Ep & Wf & En & _ & El)] Ep' Hf. rewrite Ep in Ep'. injection Ep' as <-.
  unfold eval_packed. rewrite <- En.
  assert (length (validity (pa_nulls p') (length (pa_values p'))) = length (pa_values p')) as Hlv.
  { unfold validity, pa_wf in *. destruct (pa_nulls p'); [done|apply length_replicate]. }
  destruct (eval_rows f _ _) as [bits|] eqn:E; [|by left]. right. do 2 f_equal.
  destruct (eval_rows_ok f _ _ bits Hlv E) as [Hb F]. unfold boolean_array. rewrite Hb.
  rewrite validity_logical, El in F. unfold compare_rows, map_valid in *.
  apply list_eq. intros i. rewrite list_lookup_fmap.
  rewrite Forall2_fmap_l in F. destruct (vs !! i) as [o|] eqn:Ev.
  - destruct (Forall2_lookup_l _ _ _ _ _ F Ev) as (out & Eo & Ho). rewrite Eo. cbn. f_equal.
    destruct o as [v|]; [|done]. cbn in Ho. destruct Ho as (r & Er & ->). cbn. f_equal.
    apply Hf; [|done]. apply valid_in. by eapply list_elem_of_lookup_2.
  - cbn. apply lookup_ge_None. apply lookup_ge_None in Ev. by rewrite <- (Forall2_length _ _ _ F).
Qed.

(** ** Clamped arrays *)

Record clamped_ok (c : LiquidPrimitiveClampedArray) (b : nat) (vs : list (option Z)) : Prop := {
  ck_packed : packed_ok (cl_squeezed c) b
                (map_valid (λ v, clamp_value (2 ^ Z.of_nat b - 1) (v - cl_reference_value c)) vs);
  ck_small : Z.of_nat b < 64;
  ck_ref : in_native T (cl_reference_value c);
  ck_sent : in_native T (cl_reference_value c + (2 ^ Z.of_nat b - 1));
  ck_range v : v ∈ valid_values vs -> cl_reference_value c <= v /\ in_native T v
}.

Lemma sentinel_eq b : 1 <= Z.of_nat b <= w -> Z.of_nat b < 64 -> sentinel_of T b = 2 ^ Z.of_nat b - 1.
Proof.
  intros Hb H64. unfold sentinel_of. rewrite Z.shiftl_mul_pow2, Z.mul_1_l by lia.
  assert (2 ^ Z.of_nat b <= 2 ^ 63) by (apply Z.pow_le_mono_r; lia).
  assert (2 ^ Z.of_nat b <= 2 ^ w) by (apply Z.pow_le_mono_r; lia).
  pose proof (Z.pow_pos_nonneg 2 (Z.of_nat b)). rewrite (usize_id (2 ^ _)), usize_id by lia.
  by rewrite wrapu_id by lia.
Qed.

Lemma in_native_between a b c : in_native T a -> in_native T c -> a <= b <= c -> in_native T b.
Proof. unfold in_native. destruct (is_unsigned T); lia. Qed.

Lemma in_native_64 v :
  in_native T v -> if is_unsigned T then wrapu w v = v /\ wrapu 64 v = v else wraps 64 v = v.
Proof.
  pose proof (native_width_range T). unfold in_native.
  assert (2 ^ w <= 2 ^ 64) by (apply Z.pow_le_mono_r; lia).
  assert (2 ^ (w - 1) <= 2 ^ (64 - 1)) by (apply Z.pow_le_mono_r; lia).
  destruct (is_unsigned T); intros Hv; [by rewrite !wrapu_id by lia|by rewrite wraps_id by lia].
Qed.

(** A row at or above a sentinel that resolves is on the right side. *)
Lemma resolves_ok op reference sentinel k v :
  in_native T reference -> in_native T (reference + sentinel) -> in_native T k ->
  0 <= sentinel < 2 ^ 63 -> reference + sentinel <= v ->
  resolves_on_sentinel T op reference sentinel k = true -> above op = compare_values op v k.
Proof.
  intros Hr Hs Hk H63 Hv E.
  assert (resolves_on_sentinel T op reference sentinel k
          = match op with
            | OpEq | OpNotEq | OpGt | OpLtEq => k <? reference + sentinel
            | OpLt | OpGtEq => k <=? reference + sentinel
            end) as Er.
  { unfold resolves_on_sentinel. pose proof (in_native_64 _ Hr) as Er. pose proof (in_native_64 _ Hs) as Es.
    pose proof (in_native_64 _ Hk) as Ek. destruct (is_unsigned T).
    - destruct Er as [-> _], Es as [_ ->], Ek as [-> _]. done.
    - rewrite (wraps_id 64 sentinel) by lia. by rewrite Es. }
  rewrite Er in E. clear Er. destruct op; cbn in *; lia.
Qed.

Lemma clamped_row_ok c b vs op k v r :
  clamped_ok c b vs -> in_native T k -> v ∈ valid_values vs ->
  clamped_row T op (cl_reference_value c) (sentinel_of T b) k
    (clamp_value (2 ^ Z.of_nat b - 1) (v - cl_reference_value c)) = Some r ->
  r = compare_values op v k.
Proof.
  intros [[_ Hb _] H64 Hr Hs Hv] Hk Hin E. destruct (Hv v Hin) as [Hle Hnat].
  rewrite sentinel_eq in E by lia. assert (2 ^ Z.of_nat b <= 2 ^ 63) by (apply Z.pow_le_mono_r; lia).
  unfold clamped_row, clamp_value in E. set (s := 2 ^ Z.of_nat b - 1) in *.
  destruct (v - cl_reference_value c >=? s) eqn:Ec; [rewrite Z.eqb_refl in E|].
  - destruct (resolves_on_sentinel _ _ _ _ _) eqn:Er; [|done]. injection E as <-.
    eapply resolves_ok; [exact Hr|exact Hs|exact Hk|lia|lia|exact Er].
  - replace (v - cl_reference_value c =? s) with false in E by lia. injection E as <-. f_equal.
    unfold add_reference. by apply as_native_offset.
Qed.

Lemma cl_filter_inner_ok c b vs m :
  clamped_ok c b vs -> (length m <= length vs)%nat ->
  ∃ c', cl_filter_inner T c m = Ret c' /\ clamped_ok c' b (keep vs m).
Proof.
  intros [Hp H64 Hr Hs Hv] Hm. unfold cl_filter_inner.
  destruct (filter_packed_ok _ b _ m Hp) as (packed & -> & Hp'); [by unfold map_valid; rewrite length_fmap|].
  run_step. eexists. split; [done|]. split; cbn [cl_squeezed cl_reference_value]; try done.
  - by rewrite keep_map_valid in Hp'.
  - intros v Hin. apply Hv. by eapply keep_valid_in.
Qed.

Lemma cl_inner_ok c b vs op k :
  clamped_ok c b vs -> in_native T k ->
  ∃ r, cl_try_eval_predicate_inner T c op (ScalarInteger (Some k)) = Ret r
       /\ (r = NeedsBacking \/ r = Decided (Some (compare_rows op k vs))).
Proof.
  intros C Hk. pose proof C as [Hp _ _ _ _]. unfold cl_try_eval_predicate_inner. cbn [literal_native].
  rewrite bool_decide_eq_true_2 by (by apply as_native_id).
  destruct (pk_prim _ _ _ Hp) as (p & Ep & _). rewrite Ep, (pk_width _ _ _ Hp). cbn [expect]. run_step.
  eexists. split; [done|]. eapply eval_packed_exact; [exact Hp|exact Ep|].
  intros v r Hin Hrow. by eapply clamped_row_ok.
Qed.

(** Nothing is missing when no valid row has the sentinel. *)
Lemma known_only_ok c b vs :
  clamped_ok c b vs ->
  ∃ r, to_arrow_known_only T c = Ret r
       /\ match r with Some a => pa_logical a = vs /\ pa_wf a | None => True end.
Proof.
  intros [Hp H64 Hr Hs Hv]. destruct Hp as [Hw Hb (p & Ep & Wf & En & F & El)].
  unfold to_arrow_known_only. rewrite Ep, Hw. cbn [expect]. run_step. rewrite <- En, sentinel_eq by lia.
  set (s := 2 ^ Z.of_nat b - 1) in *. set (ref := cl_reference_value c) in *.
  destruct (has_sentinel s (pa_values p) _) eqn:Es; [by exists None|]. eexists. split; [done|].
  split; [|unfold pa_wf in *; cbn; destruct (pa_nulls p); [by rewrite length_fmap|done]].
  unfold pa_logical. cbn [pa_values pa_nulls]. rewrite logical_map.
  change (logical (pa_values p) (pa_nulls p)) with (pa_logical p). rewrite El, map_valid_compose.
  apply map_valid_id. intros v Hin. destruct (Hv v Hin) as [Hle Hnat].
  unfold clamp_value. destruct (v - ref >=? s) eqn:Ec; [exfalso|].
  - assert (Some s ∈ pa_logical p) as Hins.
    { rewrite El. unfold map_valid. apply list_elem_of_fmap. exists (Some v). split; [|by apply valid_in].
      cbn. unfold clamp_value. by rewrite Ec. }
    rewrite <- validity_logical in Hins. unfold mask_values in Hins.
    apply elem_of_lookup_zip_with in Hins as (i & x & bit & Hx & Hvx & Hbit).
    destruct bit; [|done]. injection Hx as ->. apply Bool.not_true_iff_false in Es. apply Es.
    unfold has_sentinel. apply existsb_exists. exists (x, true). split; [|cbn; lia].
    apply list_elem_of_In, list_elem_of_lookup. exists i. by rewrite lookup_zip_with, Hvx; cbn; rewrite Hbit.
  - unfold add_reference. by apply as_native_offset.
Qed.

(** ** Quantized arrays *)

Record quantized_ok (a : LiquidPrimitiveQuantizedArray) (b : nat) (vs : list (option Z)) : Prop := {
  qk_packed : packed_ok (qu_quantized a) b
                (map_valid (λ v, (v - qu_reference_value a) / qu_bucket_width a) vs);
  qk_bucket : 0 < qu_bucket_width a;
  qk_ref : in_native T (qu_reference_value a);
  qk_range v : v ∈ valid_values vs -> qu_reference_value a <= v /\ in_native T v
}.

(** The buckets cover the offsets. *)
Lemma bucket_covers max n v :
  1 <= n <= 63 -> 0 <= v <= max -> max < 2 ^ 64 ->
  0 < bucket_width_of max (2 ^ n) /\ 0 <= v / bucket_width_of max (2 ^ n) < 2 ^ n.
Proof.
  intros Hn Hv Hmax. set (bw := bucket_width_of max (2 ^ n)).
  assert (2 ^ 64 = 2 ^ n * 2 ^ (64 - n)) as E64 by (rewrite <- Z.pow_add_r by lia; f_equal; lia).
  pose proof (Z.pow_pos_nonneg 2 n ltac:(lia) ltac:(lia)).
  pose proof (Z.pow_pos_nonneg 2 (64 - n) ltac:(lia) ltac:(lia)).
  assert (2 <= 2 ^ n) as Htwo by (change 2 with (2 ^ 1) at 1; apply Z.pow_le_mono_r; lia).
  assert (0 < bw /\ max < bw * 2 ^ n) as [Hbw Hcov].
  { unfold bw, bucket_width_of. set (rs := Z.min (max + 1) (2 ^ 64 - 1)).
    pose proof (Z.mul_succ_div_gt (rs + (2 ^ n - 1)) (2 ^ n) ltac:(lia)) as Hd.
    set (q := (rs + (2 ^ n - 1)) / 2 ^ n) in *. split; [lia|].
    assert (rs <= q * 2 ^ n) as Hq by lia.
    destruct (Z.eq_dec max (2 ^ 64 - 1)) as [->|Hne]; [|unfold rs in Hq; nia].
    assert (2 ^ (64 - n) <= q) by (unfold rs in Hq; nia). nia. }
  split; [done|]. split; [apply Z.div_pos; lia|]. apply Z.div_lt_upper_bound; lia.
Qed.

Lemma quantized_row_ok op off rel bw r :
  0 < bw -> quantized_row op (rel / bw) (rel mod bw) bw (off / bw) = Some r ->
  r = compare_values op off rel.
Proof.
  intros Hbw. pose proof (Z.div_mod rel bw ltac:(lia)) as Er. pose proof (Z.mod_pos_bound rel bw Hbw) as Hr.
  pose proof (Z.div_mod off bw ltac:(lia)) as Eo. pose proof (Z.mod_pos_bound off bw Hbw) as Ho.
  unfold quantized_row. set (q := rel / bw) in *. set (q' := off / bw) in *.
  destruct (q' <? q) eqn:E1; [|destruct (q' >? q) eqn:E2].
  - assert (off < rel) by nia. intros [= <-]. destruct op; cbn; lia.
  - assert (off > rel) by nia. intros [= <-]. destruct op; cbn; lia.
  - assert (q' = q) as Eq by lia. rewrite Eq in Eo. destruct op; cbn [on_equal_bucket compare_values];
      try done; (destruct (_ =? _) eqn:E; [|done]); intros [= <-]; lia.
Qed.

Lemma relative_offset_ok reference k :
  in_native T reference -> in_native T k ->
  relative_offset T reference k = if k <? reference then None else Some (k - reference).
Proof.
  intros Hr Hk. unfold relative_offset. pose proof (in_native_64 _ Hr) as Er. pose proof (in_native_64 _ Hk) as Ek.
  pose proof (native_width_range T). unfold in_native in Hr, Hk. destruct (is_unsigned T).
  - destruct Er as [-> _], Ek as [-> _]. done.
  - destruct (k <? reference) eqn:E; [done|]. f_equal.
    assert (2 ^ (w - 1) <= 2 ^ 63) by (apply Z.pow_le_mono_r; lia).
    unfold wrapu, wraps. rewrite Zminus_mod, Zmod_mod, <- Zminus_mod.
    rewrite Z.mod_small by lia. lia.
Qed.

Lemma compare_offset op v k r : compare_values op (v - r) (k - r) = compare_values op v k.
Proof. destruct op; cbn; lia. Qed.

Lemma qu_filter_inner_ok a b vs m :
  quantized_ok a b vs -> (length m <= length vs)%nat ->
  ∃ a', qu_filter_inner T a m = Ret a' /\ quantized_ok a' b (keep vs m).
Proof.
  intros [Hp Hb Hr Hv] Hm. unfold qu_filter_inner.
  destruct (filter_packed_ok _ b _ m Hp) as (packed & -> & Hp'); [by unfold map_valid; rewrite length_fmap|].
  run_step. eexists. split; [done|]. split; cbn [qu_quantized qu_reference_value qu_bucket_width]; try done.
  - by rewrite keep_map_valid in Hp'.
  - intros v Hin. apply Hv. by eapply keep_valid_in.
Qed.

Lemma qu_inner_ok a b vs op k :
  quantized_ok a b vs -> in_native T k ->
  ∃ r, qu_try_eval_predicate_inner T a op (ScalarInteger (Some k)) = Ret r
       /\ (r = NeedsBacking \/ r = Decided (Some (compare_rows op k vs))).
Proof.
  intros [Hp Hb Hr Hv] Hk. unfold qu_try_eval_predicate_inner. cbn [literal_native].
  rewrite bool_decide_eq_true_2 by (by apply as_native_id).
  destruct (pk_prim _ _ _ Hp) as (p & Ep & _). rewrite Ep. run_step.
  rewrite relative_offset_ok by done. destruct (k <? qu_reference_value a) eqn:Ek.
  - eexists. split; [done|]. eapply eval_packed_exact; [exact Hp|exact Ep|].
    intros v r Hin [= <-]. destruct (Hv v Hin). destruct op; cbn; lia.
  - replace (qu_bucket_width a =? 0) with false by lia. eexists. split; [done|].
    eapply eval_packed_exact; [exact Hp|exact Ep|]. intros v r Hin Hrow.
    apply quantized_row_ok in Hrow; [|done]. by rewrite compare_offset in Hrow.
Qed.

(** ** Squeezing *)

Definition halved (b : nat) : nat := Nat.max (b / 2) 1.

Lemma halved_bounds b : (8 <= b)%nat -> (2 * halved b <= b /\ 1 <= halved b)%nat.
Proof. intros Hb. unfold halved. pose proof (Nat.div_mod b 2). pose proof (Nat.mod_upper_bound b 2). lia. Qed.

(** The packed offsets of a fresh array. *)
Lemma fresh_offsets l vs b :
  lp_holds T l vs -> bp_bit_width (lp_bit_packed l) = Some b ->
  ∃ p, bp_to_primitive w (lp_bit_packed l) = Ret p /\ pa_wf p
       /\ Forall (λ v, 0 <= v < 2 ^ Z.of_nat b) (pa_values p)
       /\ pa_logical p = map_valid (λ v, v - lp_reference_value l) vs /\ 1 <= Z.of_nat b <= w.
Proof.
  intros [[Wf _ Hl _ Hlog] Hwidth] Eb. destruct (Hwidth b Eb) as (_ & _ & p & Ep & F).
  destruct (bp_to_primitive_wf w _ Wf) as (p' & Ep' & Elen & Hn & _).
  rewrite Ep in Ep'. injection Ep' as <-. exists p. split; [done|]. split.
  { unfold pa_wf. rewrite Hn by congruence. pose proof (bpw_nulls _ _ Wf) as Hnl.
    destruct (bp_nulls _); [|done]. cbn in Hnl. congruence. }
  split; [done|]. unfold bp_logical in Hlog. rewrite Ep in Hlog. cbn in Hlog. injection Hlog as Hlog.
  split; [done|]. by apply (bpw_width _ _ Wf).
Qed.

Lemma pa_wf_map f p : pa_wf p -> pa_wf (Prim (f <$> pa_values p) (pa_nulls p)).
Proof. unfold pa_wf. cbn. destruct (pa_nulls p); [by rewrite length_fmap|done]. Qed.

Lemma pa_logical_map f p : pa_logical (Prim (f <$> pa_values p) (pa_nulls p)) = map_valid f (pa_logical p).
Proof. apply logical_map. Qed.

Lemma squeeze_clamped l vs b p :
  lp_holds T l vs -> bp_bit_width (lp_bit_packed l) = Some b -> (8 <= b)%nat ->
  bp_to_primitive w (lp_bit_packed l) = Ret p ->
  ∀ range, clamped_ok
    (Clamped (bp_from_primitive w (Prim (clamp_value (sentinel_of T (halved b)) <$> pa_values p) (pa_nulls p))
                (halved b)) (lp_reference_value l) range) (halved b) vs.
Proof.
  intros L Eb H8 Ep range. destruct (fresh_offsets l vs b L Eb) as (p' & Ep' & Wf & F & El & Hb).
  rewrite Ep in Ep'. injection Ep' as <-. destruct (halved_bounds b H8) as [Hh2 Hh1].
  pose proof (native_width_range T). set (h := halved b) in *. rewrite sentinel_eq by lia.
  pose proof (Z.pow_pos_nonneg 2 (Z.of_nat h) ltac:(lia) ltac:(lia)).
  destruct L as [[_ Hr _ Hv _] Hwidth]. destruct (Hwidth b Eb) as (_ & [->|Hin] & _); [lia|].
  split; cbn [cl_squeezed cl_reference_value]; [|lia|done| |done].
  - rewrite <- (map_valid_compose (clamp_value (2 ^ Z.of_nat h - 1)) (λ v, v - lp_reference_value l)).
    rewrite <- El, <- pa_logical_map. apply packed_of_prim; [by apply pa_wf_map|lia|].
    cbn [pa_values]. apply Forall_fmap. eapply Forall_impl; [exact F|]. intros v Hvb. cbv beta in Hvb. change (0 <= clamp_value (2 ^ Z.of_nat h - 1) v < 2 ^ Z.of_nat h).
    unfold clamp_value. destruct (v >=? 2 ^ Z.of_nat h - 1) eqn:E; lia.
  - eapply in_native_between; [exact Hr|exact Hin|].
    assert (2 ^ Z.of_nat h <= 2 ^ (Z.of_nat b - 1)) by (apply Z.pow_le_mono_r; lia). lia.
Qed.

Lemma foldl_max_ge l acc : acc <= foldl Z.max acc l /\ ∀ v, v ∈ l -> v <= foldl Z.max acc l.
Proof.
  revert acc. induction l as [|x l IH]; intros acc; cbn [foldl].
  - split; [lia|]. intros v Hv. by apply elem_of_nil in Hv.
  - destruct (IH (Z.max acc x)) as [Hge Hall]. split; [lia|]. intros v [->|Hv]%elem_of_cons; [lia|by apply Hall].
Qed.

Lemma foldl_max_lt l acc m : acc < m -> Forall (λ v, v < m) l -> foldl Z.max acc l < m.
Proof. revert acc. induction l as [|x l IH]; intros acc Ha F; [done|]. apply Forall_cons in F as [Hx F]. apply IH; [lia|done]. Qed.

Lemma squeeze_quantized l vs b p :
  lp_holds T l vs -> bp_bit_width (lp_bit_packed l) = Some b -> (8 <= b)%nat ->
  bp_to_primitive w (lp_bit_packed l) = Ret p ->
  let count := Z.shiftl 1 (Z.of_nat (halved b)) in
  let bw := bucket_width_of (foldl Z.max 0 (pa_values p)) count in
  ∀ range, quantized_ok
    (Quantized (bp_from_primitive w (Prim (quantize_value T bw count <$> pa_values p) (pa_nulls p)) (halved b))
       (lp_reference_value l) bw range) (halved b) vs.
Proof.
  intros L Eb H8 Ep count bw range. destruct (fresh_offsets l vs b L Eb) as (p' & Ep' & Wf & F & El & Hb).
  rewrite Ep in Ep'. injection Ep' as <-. destruct (halved_bounds b H8) as [Hh2 Hh1].
  pose proof (native_width_range T). set (h := halved b) in *.
  assert (count = 2 ^ Z.of_nat h) as Ec by (unfold count; rewrite Z.shiftl_mul_pow2 by lia; lia).
  assert (2 ^ Z.of_nat b <= 2 ^ 64) by (apply Z.pow_le_mono_r; lia).
  assert (2 ^ Z.of_nat h <= 2 ^ w) by (apply Z.pow_le_mono_r; lia).
  pose proof (Z.pow_pos_nonneg 2 (Z.of_nat b) ltac:(lia) ltac:(lia)).
  set (max := foldl Z.max 0 (pa_values p)) in *.
  assert (0 <= max < 2 ^ 64) as Hmax.
  { split; [apply (proj1 (foldl_max_ge (pa_values p) 0))|]. apply foldl_max_lt; [lia|]. eapply Forall_impl; [exact F|]. cbn. lia. }
  assert (∀ v, v ∈ pa_values p -> 0 < bw /\ quantize_value T bw count v = v / bw /\ 0 <= v / bw < 2 ^ Z.of_nat h) as Hq.
  { intros v Hv. rewrite Forall_forall in F. pose proof (F v Hv).
    pose proof (proj2 (foldl_max_ge (pa_values p) 0) v Hv) as Hle.
    destruct (bucket_covers max (Z.of_nat h) v ltac:(lia) ltac:(lia) ltac:(lia)) as [Hbw Hd].
    rewrite <- Ec in Hbw, Hd. fold bw in Hbw, Hd. split; [done|]. rewrite <- Ec. split; [|done].
    unfold quantize_value. replace (v / bw >=? count) with false by lia. apply wrapu_id. lia. }
  destruct L as [[_ Hr _ Hv _] _].
  split; cbn [qu_quantized qu_reference_value qu_bucket_width]; [| |done|done].
  - rewrite <- (map_valid_compose (λ v, v / bw) (λ v, v - lp_reference_value l)).
    rewrite <- El. assert (map_valid (λ v, v / bw) (pa_logical p) = map_valid (quantize_value T bw count) (pa_logical p)) as ->.
    { apply map_valid_ext. intros v Hin. symmetry. apply Hq. by eapply logical_in, valid_in. }
    rewrite <- pa_logical_map. apply packed_of_prim; [by apply pa_wf_map|lia|].
    cbn [pa_values]. apply Forall_fmap, Forall_forall. intros v Hin. cbn.
    destruct (Hq v Hin) as (_ & -> & ?). done.
  - unfold bw, bucket_width_of. lia.
Qed.

(** ** The bytes on disk *)

Lemma lp_bytes_header l :
  header_from_bytes (lp_to_bytes T l) = Ret (header_new (liquid_data_type_code LInteger) (physical_type_id T)).
Proof.
  unfold lp_to_bytes.
  destruct (array_bytes_shape T (liquid_data_type_code LInteger) (lp_reference_value l) (lp_bit_packed l))
    as (pad & -> & _); [cbn; lia|]. apply header_roundtrip; destruct T; cbn; lia.
Qed.

Lemma hydrate_reads l :
  is_integer T = true ->
  let bytes := lp_to_bytes T l in
  hydrate_full_arrow read_other (0%nat, length bytes) (Some bytes)
  = (x ← lp_from_bytes T bytes; a ← lp_to_arrow_array T x; Ret (a, [SqRead (Z.of_nat (length bytes))])).
Proof.
  intros Hint bytes. unfold hydrate_full_arrow. cbn [expect]. run_step.
  assert (slice bytes 0 (length bytes - 0) = Ret bytes) as ->.
  { unfold slice. rewrite decide_True by lia. by rewrite drop_0, Nat.sub_0_r, firstn_all. }
  run_step. unfold read_arrow_from_bytes.
  assert (header_from_bytes bytes = _) as -> by apply lp_bytes_header. run_step. cbn [logical_type physical_type header_new liquid_data_type_code liquid_data_type_from]. run_step.
  rewrite physical_type_ids. cbn [expect]. run_step. rewrite Hint, Nat.sub_0_r.
  by destruct (lp_from_bytes T bytes).
Qed.

Lemma hydrate_ok l vs :
  is_integer T = true -> lp_repr T l vs -> bp_fits w (lp_bit_packed l) ->
  let bytes := lp_to_bytes T l in
  ∃ a, hydrate_full_arrow read_other (0%nat, length bytes) (Some bytes)
       = Ret (a, [SqRead (Z.of_nat (length bytes))])
       /\ pa_logical a = vs /\ pa_wf a /\ length (pa_values a) = length vs.
Proof.
  intros Hint R Hfit bytes. unfold bytes. rewrite hydrate_reads by done.
  destruct (lp_bytes_ok T l vs R Hfit) as (l' & -> & R'). run_step.
  destruct (lp_to_arrow_ok T l' vs R') as (a & -> & Ha). run_step. by exists a.
Qed.

Lemma filter_full_ok l vs m :
  is_integer T = true -> lp_repr T l vs -> bp_fits w (lp_bit_packed l) -> (length m <= length vs)%nat ->
  let bytes := lp_to_bytes T l in
  ∃ f es, filter_full read_other (0%nat, length bytes) m (Some bytes) = Ret (f, es) /\ pa_logical f = keep vs m.
Proof.
  intros Hint R Hfit Hm bytes. destruct (hydrate_ok l vs Hint R Hfit) as (a & Ea & <- & Wf & Hlen).
  unfold filter_full. fold bytes in Ea. rewrite Ea. run_step.
  destruct (prim_filter_ok a m Wf ltac:(lia)) as (f & -> & _ & Hf & _). cbn [expect]. run_step. eauto.
Qed.

(** A comparison with a literal, behind a dynamic filter or not. *)
Definition comparison (expr : PExpr) (op : Operator) (k : Z) : Prop :=
  unwrap_dynamic_filter expr = Some (PBinary PColumn (DFCompare op) (PLiteral (ScalarInteger (Some k)))).

(** The answer is right; when no read was made it does not depend on the file. *)
Definition answers_exactly (eval : SqueezeIo (option BooleanArray)) (bytes : list Z)
    (answer : list (option bool)) : Prop :=
  ∃ es, eval (Some bytes) = Ret (Some answer, es)
        /\ (es = [SqIoSaved] -> ∀ backing, eval backing = Ret (Some answer, es)).

Lemma try_eval_ok inner expr op k l vs m r :
  is_integer T = true -> lp_repr T l vs -> bp_fits w (lp_bit_packed l) -> (length m <= length vs)%nat ->
  comparison expr op k -> inner op (ScalarInteger (Some k)) = Ret r ->
  r = NeedsBacking \/ r = Decided (Some (compare_rows op k (keep vs m))) ->
  let bytes := lp_to_bytes T l in
  answers_exactly (try_eval_with T read_other inner (0%nat, length bytes) expr m) bytes
    (compare_rows op k (keep vs m)).
Proof.
  intros Hint R Hfit Hm He Er Hr bytes. unfold answers_exactly, try_eval_with. rewrite He.
  cbn [predicate_lhs_kind from_datafusion]. rewrite Er. run_step. destruct Hr as [->| ->].
  - unfold eval_full. destruct (hydrate_ok l vs Hint R Hfit) as (a & Ea & <- & Wf & Hlen).
    fold bytes in Ea. rewrite Ea. run_step.
    destruct (prim_filter_ok a m Wf ltac:(lia)) as (f & -> & Wf' & Hf & _).
    rewrite apply_cmp_ok, Hf by done. eexists. split; [done|]. done.
  - eexists. split; [done|]. done.
Qed.

Lemma squeeze_fresh l vs hint s bytes :
  bool_decide (T = PDate32) || is_timestamp T = false ->
  lp_squeeze T hint l = Ret (Some (s, bytes)) -> lp_holds T l vs ->
  ∃ b, (8 <= b)%nat /\ bytes = lp_to_bytes T l
    /\ match lp_squeeze_policy l with
       | Clamp => ∃ c, s = SqueezedClamped c /\ clamped_ok c (halved b) vs /\ cl_disk_range c = (0%nat, length bytes)
       | Quantize => ∃ a, s = SqueezedQuantized a /\ quantized_ok a (halved b) vs
                         /\ qu_disk_range a = (0%nat, length bytes)
       end.
Proof.
  intros Ht E L. unfold lp_squeeze in E. destruct hint as [h|]; [|done]. rewrite Ht in E.
  destruct (bp_bit_width (lp_bit_packed l)) as [b|] eqn:Eb; [|done].
  destruct (b <? 8)%nat eqn:E8; [done|]. apply Nat.ltb_ge in E8.
  destruct (fresh_offsets l vs b L Eb) as (p & Ep & _). rewrite Ep in E. cbn [mbind outcome_mbind outcome_bind] in E.
  exists b. destruct (lp_squeeze_policy l); injection E as <- <-; (split; [done|]; split; [done|]);
    eexists; (split; [done|]; split; [|done]).
  - by apply (squeeze_clamped l vs b p).
  - by apply (squeeze_quantized l vs b p).
Qed.
End hybrid_lemmas.

Lemma holds_policy `{NullBuffers} `{Fastlanes} T l vs policy :
  lp_holds T l vs -> lp_holds T (with_squeeze_policy policy l) vs.
Proof. intros [[? ? ? ? ?] ?]. by split. Qed.

Lemma bytes_policy `{NullBuffers} T l policy : lp_to_bytes T (with_squeeze_policy policy l) = lp_to_bytes T l.
Proof. done. Qed.

(** ** Properties *)

Section exact.
Context `{NullBufferLaws} `{FastlanesLaws} {PK : PrimitiveKernels} {PL : PrimitiveKernelLaws}.
Context {CK : CompareKernels} {CL : CompareLaws}.
Context (T : PrimitivePhysicalType) (read_other : list Z -> outcome PrimitiveArray).

(** A column of an integer type that is squeezed with a policy. *)
Definition squeezed_from (policy : IntegerSqueezePolicy) (hint : option Hint) (a : PrimitiveArray)
    (s : SqueezedPrimitive) (bytes : list Z) : Prop :=
  ∃ l, lp_from_arrow_array T a = Ret l /\ bp_fits (native_width T) (lp_bit_packed l)
       /\ lp_squeeze T hint (with_squeeze_policy policy l) = Ret (Some (s, bytes)).

Definition plain_integer : Prop :=
  is_integer T = true /\ bool_decide (T = PDate32) || is_timestamp T = false.

(** C10: an integer column squeezed by clamping (the values far above the minimum
    become one sentinel) still decodes and filters to the rows it had, and
    answers every comparison with a literal of its type like the column itself;
    answers that are given without reading the file are right whatever is in it. *)
Theorem clamped_exact hint (a : PrimitiveArray) s bytes :
  plain_integer -> pa_wf a -> Forall (in_native T) (pa_values a) -> squeezed_from Clamp hint a s bytes ->
  ∃ c, s = SqueezedClamped c
    /\ (∃ r es, cl_to_arrow_array T read_other c (Some bytes) = Ret (r, es) /\ pa_logical r = pa_logical a)
    /\ ∀ m, length m = length (pa_values a) ->
       (∃ r es, cl_filter T read_other c m (Some bytes) = Ret (r, es) /\ pa_logical r = keep (pa_logical a) m)
       /\ ∀ expr op k, comparison expr op k -> in_native T k ->
          answers_exactly (cl_try_eval_predicate T read_other c expr m) bytes
            (compare_rows op k (keep (pa_logical a) m)).
Proof.
  intros [Hint Ht] Wf F (l & El & Hfit & Es).
  destruct (lp_from_arrow_ok T a Wf F) as (l' & El' & L & _). rewrite El in El'. injection El' as <-.
  apply (holds_policy T l _ Clamp) in L. pose proof (lh_repr _ _ _ L) as R.
  destruct (squeeze_fresh T _ _ hint s bytes Ht Es L) as (b & H8 & -> & c & -> & C & Ed).
  set (vs := pa_logical a) in *. assert (length vs = length (pa_values a)) as Hlen by (by apply logical_len).
  exists c. split; [done|]. split.
  - unfold cl_to_arrow_array. destruct (known_only_ok T c _ vs C) as (r & -> & Hr). run_step.
    destruct r as [r|]; [exists r, []; by split; [|apply Hr]|]. rewrite Ed.
    destruct (hydrate_ok T read_other _ vs Hint R Hfit) as (r & -> & Hl & _). eauto.
  - intros m Hm. destruct (cl_filter_inner_ok T c _ vs m C ltac:(lia)) as (c' & Ec & C'). split.
    + unfold cl_filter. destruct (count_set_bits m =? 0)%nat eqn:E0.
      { apply Nat.eqb_eq in E0. exists (Prim [] None), []. split; [done|]. by rewrite keep_none. }
      rewrite Ec. run_step. destruct (known_only_ok T c' _ _ C') as (r & -> & Hr). run_step.
      destruct r as [r|]; [exists r, []; by split; [|apply Hr]|]. rewrite Ed.
      apply filter_full_ok; try done. lia.
    + intros expr op k He Hk. unfold cl_try_eval_predicate.
      destruct (cl_inner_ok T c' _ _ op k C' Hk) as (r & Er & Hr).
      destruct (try_eval_ok T read_other (cl_try_eval_predicate_inner T c') expr op k _ vs m r Hint R Hfit
                  ltac:(lia) He Er Hr) as (es & Hes & Hsaved).
      exists es. rewrite Ec, Ed. run_step. by split.
Qed.

(** C9: an integer column squeezed by quantizing (only the bucket of each value
    stays in memory) decodes and filters to the rows it had, and answers every
    comparison with a literal of its type like the column itself, over the whole
    64-bit range; answers given without reading the file are right whatever is in
    it. *)
Theorem quantized_exact hint (a : PrimitiveArray) s bytes :
  plain_integer -> pa_wf a -> Forall (in_native T) (pa_values a) -> squeezed_from Quantize hint a s bytes ->
  ∃ q, s = SqueezedQuantized q
    /\ (∃ r es, qu_to_arrow_array read_other q (Some bytes) = Ret (r, es) /\ pa_logical r = pa_logical a)
    /\ ∀ m, length m = length (pa_values a) ->
       (∃ r es, qu_filter read_other q m (Some bytes) = Ret (r, es) /\ pa_logical r = keep (pa_logical a) m)
       /\ ∀ expr op k, comparison expr op k -> in_native T k ->
          answers_exactly (qu_try_eval_predicate T read_other q expr m) bytes
            (compare_rows op k (keep (pa_logical a) m)).
Proof.
  intros [Hint Ht] Wf F (l & El & Hfit & Es).
  destruct (lp_from_arrow_ok T a Wf F) as (l' & El' & L & _). rewrite El in El'. injection El' as <-.
  apply (holds_policy T l _ Quantize) in L. pose proof (lh_repr _ _ _ L) as R.
  destruct (squeeze_fresh T _ _ hint s bytes Ht Es L) as (b & H8 & -> & q & -> & Q & Ed).
  set (vs := pa_logical a) in *. assert (length vs = length (pa_values a)) as Hlen by (by apply logical_len).
  exists q. split; [done|]. unfold qu_to_arrow_array, qu_filter. rewrite Ed. split.
  - destruct (hydrate_ok T read_other _ vs Hint R Hfit) as (r & -> & Hl & _). eauto.
  - intros m Hm. split; [apply filter_full_ok; try done; lia|].
    intros expr op k He Hk. unfold qu_try_eval_predicate.
    destruct (qu_filter_inner_ok T q _ vs m Q ltac:(lia)) as (q' & Eq & Q').
    destruct (qu_inner_ok T q' _ _ op k Q' Hk) as (r & Er & Hr).
    destruct (try_eval_ok T read_other (qu_try_eval_predicate_inner T q') expr op k _ vs m r Hint R Hfit
                ltac:(lia) He Er Hr) as (es & Hes & Hsaved).
    exists es. rewrite Eq, Ed. run_step. by split.
Qed.
End exact.

(** ** A concrete column *)

#[export] Instance list_compare : CompareKernels := {
  apply_cmp op a v :=
    match op, v with
    | DFCompare op, ScalarInteger (Some k) => Some (compare_rows op k (pa_logical a))
    | _, _ => None
    end;
  cast_to a _ := Some a
}.

#[export] Instance list_compare_laws : CompareLaws.
Proof. split. done. Qed.

Definition wide_column : @PrimitiveArray list_null_buffers :=
  Prim [-100; 5; 900; 7] (Some ([true; true; true; false] : list bool)).

Definition wide_liquid : @LiquidPrimitiveArray list_null_buffers :=
  LiquidPrimitive (bp_from_primitive 32 (Prim [0; 105; 1000; 107] (pa_nulls wide_column)) 10) (-100) Quantize.

Lemma wide_fits : bp_fits 32 (lp_bit_packed wide_liquid).
Proof.
  assert (word_size 32) as Hw by (unfold word_size; lia).
  pose proof (bp_from_primitive_wf 32 Hw (Prim [0; 105; 1000; 107] (pa_nulls wide_column)) 10 eq_refl ltac:(lia)) as Wf.
  pose proof (bpw_chunks 32 _ Wf 10 eq_refl) as Hc. split; [cbn; lia|]. split; [vm_compute; reflexivity|].
  cbn [lp_bit_packed wide_liquid]. rewrite Hc. cbn [original_len bp_from_primitive pa_values length].
  pose proof CHUNK_Z. pose proof (div_ceil_cases 4 CHUNK CHUNK_pos) as Hd.
  assert (4 / CHUNK = 0)%nat as E0 by (apply Nat.div_small; lia). rewrite E0 in Hd.
  change (native_bytes 32) with 4%nat. change (packed_len 32 10) with 320%nat.
  destruct Hd as [[-> _]|[-> _]]; lia.
Qed.

Lemma wide_from_arrow : lp_from_arrow_array PInt32 wide_column = Ret wide_liquid.
Proof. reflexivity. Qed.

(** It is squeezed with either policy. *)
Lemma wide_squeezes policy :
  ∃ s bytes, squeezed_from PInt32 policy (Some PredicateColumn) wide_column s bytes.
Proof.
  destruct (lp_from_arrow_ok PInt32 wide_column eq_refl) as (l & E & L & _).
  { repeat constructor; cbn; lia. }
  rewrite wide_from_arrow in E. injection E as <-.
  destruct (fresh_offsets PInt32 wide_liquid _ 10 L eq_refl) as (p & Ep & _).
  assert (∃ s bytes, lp_squeeze PInt32 (Some PredicateColumn) (with_squeeze_policy policy wide_liquid)
                     = Ret (Some (s, bytes))) as (s & bytes & Es).
  { unfold lp_squeeze. change (bool_decide (PInt32 = PDate32) || is_timestamp PInt32) with false. cbv match.
    change (bp_bit_width (lp_bit_packed (with_squeeze_policy policy wide_liquid))) with (Some 10%nat).
    change (lp_bit_packed (with_squeeze_policy policy wide_liquid)) with (lp_bit_packed wide_liquid).
    cbv match. change (10 <? 8)%nat with false. cbv match. change (native_width PInt32) with 32 in Ep |- *.
    rewrite Ep. run_step. destruct policy; cbn [lp_squeeze_policy with_squeeze_policy]; eauto. }
  exists s, bytes, wide_liquid. split; [apply wide_from_arrow|]. split; [apply wide_fits|exact Es].
Qed.

Definition less_than_ten : PExpr := PDynamic (Some (PBinary PColumn (DFCompare OpLt) (PLiteral (ScalarInteger (Some 10))))).

Lemma clamped_exact_witness :
  ∃ s bytes c, squeezed_from PInt32 Clamp (Some PredicateColumn) wide_column s bytes /\ s = SqueezedClamped c
    /\ answers_exactly (cl_try_eval_predicate PInt32 (λ _, Panic) c less_than_ten [true; true; true; true]) bytes
         [Some true; Some true; Some false; None].
Proof.
  destruct (wide_squeezes Clamp) as (s & bytes & Es).
  destruct (clamped_exact PInt32 (λ _, Panic) (Some PredicateColumn) wide_column s bytes) as (c & E & _ & Hm).
  - split; reflexivity.
  - reflexivity.
  - repeat constructor; cbn; lia.
  - exact Es.
  - exists s, bytes, c. split; [exact Es|]. split; [exact E|].
    destruct (Hm [true; true; true; true] eq_refl) as [_ He].
    exact (He less_than_ten OpLt 10 eq_refl ltac:(cbn; lia)).
Defined.

Lemma quantized_exact_witness :
  ∃ s bytes q, squeezed_from PInt32 Quantize (Some PredicateColumn) wide_column s bytes /\ s = SqueezedQuantized q
    /\ answers_exactly (qu_try_eval_predicate PInt32 (λ _, Panic) q less_than_ten [true; true; false; true]) bytes
         [Some true; Some true; None].
Proof.
  destruct (wide_squeezes Quantize) as (s & bytes & Es).
  destruct (quantized_exact PInt32 (λ _, Panic) (Some PredicateColumn) wide_column s bytes) as (q & E & _ & Hm).
  - split; reflexivity.
  - reflexivity.
  - repeat constructor; cbn; lia.
  - exact Es.
  - exists s, bytes, q. split; [exact Es|]. split; [exact E|].
    destruct (Hm [true; true; false; true] eq_refl) as [_ He].
    exact (He less_than_ten OpLt 10 eq_refl ltac:(cbn; lia)).
Defined.
