(* ===== verification/FloatArray.v ===== *)
(** * Float arrays

    Model of [LiquidFloatArray] and [LiquidFloatQuantizedArray] in
    [src/src/storage/src/liquid_array/float_array.rs]: ALP.  A float is multiplied by
    powers of ten, rounded to an integer and bit-packed; the ones that do not decode
    to themselves are kept aside as patches.  A float is its bit pattern ([Floats.v]).
    The memory a vector occupies, by which the exponents are chosen, depends on the
    allocator: it is an argument. *)

From stdpp Require Import base list.
From Stdlib Require Import ZArith Lia.
From S2P Require Import Prelude Bytes Arrow BitPack DataTypes Ipc Expressions Formats LiquidPrimitive Floats.
From S2P Require Import HybridArray Fsst.
Local Open Scope Z_scope.

(** ** The float types *)

Inductive LiquidFloatType : Type := Float32Type | Float64Type.

Definition float_format (t : LiquidFloatType) : FloatFormat :=
  match t with Float32Type => binary32 | Float64Type => binary64 end.

Definition float_physical (t : LiquidFloatType) : PrimitivePhysicalType :=
  match t with Float32Type => PFloat32 | Float64Type => PFloat64 end.

Definition FRACTIONAL_BITS (t : LiquidFloatType) : Z := match t with Float32Type => 23 | Float64Type => 52 end.
Definition MAX_EXPONENT (t : LiquidFloatType) : nat := match t with Float32Type => 10 | Float64Type => 18 end.

Definition SWEET (t : LiquidFloatType) : fl :=
  let F := float_format t in
  fadd F (fl_of_Z F (Z.shiftl 1 (FRACTIONAL_BITS t))) (fl_of_Z F (Z.shiftl 1 (FRACTIONAL_BITS t - 1))).

(** The tables of powers of ten and of their inverses. *)
Definition powers_of_ten (F : FloatFormat) (sign : Z) (len : nat) : list fl :=
  (λ i, decimal_literal F 1 (sign * Z.of_nat i)) <$> seq 0 len.

Definition F10_single : list fl := Eval vm_compute in powers_of_ten binary32 1 11.
Definition IF10_single : list fl := Eval vm_compute in powers_of_ten binary32 (-1) 11.
Definition F10_double : list fl := Eval vm_compute in powers_of_ten binary64 1 24.
Definition IF10_double : list fl := Eval vm_compute in powers_of_ten binary64 (-1) 24.

Definition F10 (t : LiquidFloatType) : list fl := match t with Float32Type => F10_single | Float64Type => F10_double end.
Definition IF10 (t : LiquidFloatType) : list fl := match t with Float32Type => IF10_single | Float64Type => IF10_double end.

Record Exponents : Type := Exps { exp_e : nat; exp_f : nat }.

Inductive FloatSqueezePolicy : Type := FloatQuantize.

(** [v[i] = x]. *)
Definition set_at {A} (l : list A) (i : nat) (x : A) : outcome (list A) :=
  if decide (i < length l)%nat then Ret (<[i := x]> l) else Panic.

(** [ScalarValue]: an integer or date, a float, any other; null or not. *)
Inductive FloatScalar : Type :=
| FsInteger (v : option Z)
| FsFloat32 (v : option fl)
| FsFloat64 (v : option fl)
| FsOther (code : nat).

(** What the downcasts find in a predicate: an operator with a literal on its
    right, or nothing of use.  The left side is not looked at. *)
Inductive FExpr : Type := FBinary (op : DFOperator) (literal : FloatScalar) | FOther.

(** [apply_cmp] on a float column. *)
Class FloatCompare `{NullBuffers} : Type := {
  float_apply_cmp : DFOperator -> PrimitiveArray -> FloatScalar -> option BooleanArray
}.

Section float.
Context `{NullBuffers} `{Fastlanes} {PK : PrimitiveKernels}.
Context (T : LiquidFloatType).

Local Abbreviation F := (float_format T).
Local Abbreviation w := (fl_width (float_format T)).

Definition fast_round (val : fl) : Z :=
  fl_as F (- 2 ^ (w - 1)) (2 ^ (w - 1) - 1) (fsub F (fadd F val (SWEET T)) (SWEET T)).

Definition encode_single_unchecked (exp : Exponents) (val : fl) : outcome Z :=
  f10 ← index (F10 T) (exp_e exp);
  if10 ← index (IF10 T) (exp_f exp);
  Ret (fast_round (fmul F (fmul F val f10) if10)).

Definition decode_single (exp : Exponents) (val : Z) : outcome fl :=
  f10 ← index (F10 T) (exp_f exp);
  if10 ← index (IF10 T) (exp_e exp);
  Ret (fmul F (fmul F (fl_of_Z F val) f10) if10).

Record LiquidFloatArray : Type := FloatArr {
  lf_exponent : Exponents;
  lf_bit_packed : BitPackedArray;
  lf_patch_indices : list Z;
  lf_patch_values : list fl;
  lf_reference_value : Z;
  lf_squeeze_policy : FloatSqueezePolicy
}.

Definition lf_len (a : LiquidFloatArray) : nat := bp_len (lf_bit_packed a).

(** ** Encoding *)

(** [decoded.eq(v)]. *)
Definition decodes_to (exp : Exponents) (encoded : Z) (v : fl) : outcome bool :=
  decoded ← decode_single exp encoded; Ret (feq F decoded v).

Fixpoint encode_values (exp : Exponents) (values : list fl) : outcome (nat * list Z) :=
  match values with
  | [] => Ret (0%nat, [])
  | v :: values =>
      encoded ← encode_single_unchecked exp v;
      eq ← decodes_to exp encoded v;
      '(patch_count, encoded_values) ← encode_values exp values;
      Ret (((if eq : bool then 0 else 1) + patch_count)%nat, encoded :: encoded_values)
  end.

(** The second pass writes every row at the current patch and advances only past
    the rows that do not decode to themselves. *)
Fixpoint write_patches (exp : Exponents) (i : nat) (encoded_values : list Z) (values : list fl) (patch_index : nat)
    (patch_indices : list Z) (patch_values : list fl) : outcome (nat * list Z * list fl) :=
  match encoded_values, values with
  | encoded :: encoded_values, v :: values =>
      eq ← decodes_to exp encoded v;
      patch_indices ← set_at patch_indices patch_index (Z.of_nat i);
      patch_values ← set_at patch_values patch_index v;
      write_patches exp (S i) encoded_values values ((if eq : bool then 0 else 1) + patch_index)%nat patch_indices patch_values
  | _, _ => Ret (patch_index, patch_indices, patch_values)
  end.

Definition collect_patches (exp : Exponents) (encoded_values : list Z) (values : list fl) (patch_count : nat)
    : outcome (list Z * list fl) :=
  if (0 <? patch_count)%nat then
    '(patch_index, patch_indices, patch_values) ←
      write_patches exp 0 encoded_values values 0 (replicate (patch_count + 1) 0) (replicate (patch_count + 1) 0);
    if (patch_index =? patch_count)%nat then Ret (take patch_count patch_indices, take patch_count patch_values)
    else Panic
  else Ret ([], []).

(** The first row that is not a patch. *)
Fixpoint first_unpatched (i : nat) (encoded_values patch_indices : list Z) : option Z :=
  match encoded_values with
  | [] => None
  | encoded :: encoded_values =>
      match patch_indices !! i with
      | Some p => if p =? Z.of_nat i then first_unpatched (S i) encoded_values patch_indices else Some encoded
      | None => Some encoded
      end
  end.

Fixpoint fill_patches (fill_value : Z) (patch_indices encoded_values : list Z) : outcome (list Z) :=
  match patch_indices with
  | [] => Ret encoded_values
  | patch_idx :: patch_indices =>
      encoded_values ← set_at encoded_values (Z.to_nat patch_idx) fill_value;
      fill_patches fill_value patch_indices encoded_values
  end.

Definition list_min (l : list Z) : option Z := match l with [] => None | x :: l => Some (foldl Z.min x l) end.
Definition list_max (l : list Z) : option Z := match l with [] => None | x :: l => Some (foldl Z.max x l) end.

Definition wrapping_sub_unsigned (v min : Z) : Z := wrapu w (wraps w (v - min)).

Definition encode_arrow_array (arrow_array : PrimitiveArray) (exp : Exponents) : outcome LiquidFloatArray :=
  let values := pa_values arrow_array in
  let nulls := pa_nulls arrow_array in
  let len := length values in
  if bool_decide (match nulls with Some n => null_count n | None => 0%nat end = len)
  then Ret (FloatArr (Exps 0 0) (bp_new_null_array len) [] [] 0 FloatQuantize)
  else
    '(patch_count, encoded_values) ← encode_values exp values;
    '(patch_indices, patch_values) ← collect_patches exp encoded_values values patch_count;
    let fill_value :=
      if (0 <? patch_count)%nat && (patch_count <? len)%nat then first_unpatched 0 encoded_values patch_indices
      else None in
    encoded_values ←
      match fill_value with
      | Some fill_value => fill_patches fill_value patch_indices encoded_values
      | None => Ret encoded_values
      end;
    min ← expect (list_min encoded_values);
    max ← expect (list_max encoded_values);
    let sub := wrapping_sub_unsigned max min in
    let encoded_output := Prim ((λ v, wrapping_sub_unsigned v min) <$> encoded_values) nulls in
    let bit_width := Z.to_nat (get_bit_width sub) in
    Ret (FloatArr exp (bp_from_primitive w encoded_output bit_width) patch_indices patch_values min FloatQuantize).

(** ** The best exponents *)

Context (array_memory_size : LiquidFloatArray -> Z).

Definition NUM_SAMPLES : nat := Z.to_nat 1024.

(** Every [step]-th row. *)
Fixpoint step_by {A} (step skip : nat) (l : list A) : list A :=
  match l with
  | [] => []
  | x :: l => match skip with O => x :: step_by step (step - 1) l | S skip => step_by step skip l end
  end.

(** The sample that the exponents are tried on. *)
Definition sample_of (arrow_array : PrimitiveArray) : PrimitiveArray :=
  let len := length (pa_values arrow_array) in
  if (NUM_SAMPLES <? len)%nat
  then Prim (valid_values (step_by (len / NUM_SAMPLES) 0 (pa_logical arrow_array))) None
  else arrow_array.

(** [for e in 0..MAX_EXPONENT { for f in 0..e { .. } }] *)
Definition exponent_pairs : list Exponents :=
  concat ((λ e, Exps e <$> seq 0 e) <$> seq 0 (MAX_EXPONENT T)).

Fixpoint try_exponents (sample : PrimitiveArray) (best_exponents : Exponents) (min_encoded_size : Z)
    (pairs : list Exponents) : outcome Exponents :=
  match pairs with
  | [] => Ret best_exponents
  | exp :: pairs =>
      liquid_array ← encode_arrow_array sample exp;
      if array_memory_size liquid_array <? min_encoded_size
      then try_exponents sample exp (array_memory_size liquid_array) pairs
      else try_exponents sample best_exponents min_encoded_size pairs
  end.

Definition get_best_exponents (arrow_array : PrimitiveArray) : outcome Exponents :=
  try_exponents (sample_of arrow_array) (Exps 0 0) (2 ^ 64 - 1) exponent_pairs.

Definition lf_from_arrow_array (arrow_array : PrimitiveArray) : outcome LiquidFloatArray :=
  best_exponents ← get_best_exponents arrow_array; encode_arrow_array arrow_array best_exponents.

(** ** Decoding *)

Fixpoint patch_decoded {A} (patch_indices : list Z) (patch_values : list A) (decoded_values : list A) : outcome (list A) :=
  match patch_indices with
  | [] => Ret decoded_values
  | i :: patch_indices =>
      match patch_values with
      | [] => Panic
      | v :: patch_values =>
          decoded_values ← set_at decoded_values (Z.to_nat i) v;
          patch_decoded patch_indices patch_values decoded_values
      end
  end.

Definition stored_value (reference v : Z) : Z := wraps w (wraps w v + reference).

Definition lf_to_arrow_array (a : LiquidFloatArray) : outcome PrimitiveArray :=
  unsigned_array ← bp_to_primitive w (lf_bit_packed a);
  decoded_values ←
    mapM (λ v, decode_single (lf_exponent a) (stored_value (lf_reference_value a) v)) (pa_values unsigned_array);
  decoded_values ← patch_decoded (lf_patch_indices a) (lf_patch_values a) decoded_values;
  Ret (Prim decoded_values (bp_nulls (lf_bit_packed a))).

(** The default [filter] of [LiquidArray]. *)
Definition lf_filter (a : LiquidFloatArray) (selection : list bool) : outcome PrimitiveArray :=
  arr ← lf_to_arrow_array a; expect (prim_filter arr selection).

(** ** Bytes *)

Definition value_bytes : nat := native_bytes w.

Definition pad8_to (l : list Z) : list Z := l ++ replicate (align8 (length l) - length l) 0.

Definition lf_to_bytes (a : LiquidFloatArray) : list Z :=
  let result := header_to_bytes (header_new (liquid_data_type_code LFloat) (physical_type_id (float_physical T))) in
  let result := pad8_to (result ++ le_bytes value_bytes (lf_reference_value a)) in
  let result := result ++ [Z.of_nat (exp_e (lf_exponent a)); Z.of_nat (exp_f (lf_exponent a))] ++ replicate 6 0 in
  let result := result ++ le_bytes 8 (zlen (lf_patch_indices a)) in
  let result :=
    match lf_patch_indices a with
    | [] => result
    | _ => result ++ concat (le_bytes 8 <$> lf_patch_indices a) ++ concat (le_bytes value_bytes <$> lf_patch_values a)
    end in
  pad8_to result ++ bp_to_bytes w (lf_bit_packed a).

Definition lf_from_bytes (bytes : list Z) : outcome LiquidFloatArray :=
  header ← header_from_bytes bytes;
  if negb (physical_type header =? physical_type_id (float_physical T)) then Panic
  else if negb (logical_type header =? liquid_data_type_code LFloat) then Panic
  else
    _ ← index bytes header_size;
    reference_value ←
      (if decide (header_size + value_bytes <= length bytes)%nat
       then Ret (wraps w (le_val (take value_bytes (drop header_size bytes)))) else Undefined);
    let next := align8 (header_size + value_bytes) in
    exponent_e ← index bytes next;
    exponent_f ← index bytes (next + 1);
    patch_length ← slice bytes (next + 8) 8;
    let patch_length := le_val patch_length in
    let next := (next + 16)%nat in
    if 2 ^ 61 <=? patch_length then Undefined
    else
      let count := Z.to_nat patch_length in
      indices ← slice bytes next (count * 8);
      values ← slice bytes (next + count * 8) (count * value_bytes);
      let next := align8 (next + count * 8 + count * value_bytes) in
      if (length bytes <? next)%nat then Panic
      else
        bit_packed ← bp_from_bytes w (drop next bytes);
        Ret (FloatArr (Exps (Z.to_nat exponent_e) (Z.to_nat exponent_f)) bit_packed (words_of 8 count indices)
               (words_of value_bytes count values) reference_value FloatQuantize).

(** ** Squeezing *)

Record LiquidFloatQuantizedArray : Type := FloatQuantized {
  fq_exponent : Exponents;
  fq_quantized : BitPackedArray;
  fq_reference_value : Z;
  fq_bucket_width : Z;
  fq_disk_range : nat * nat;
  fq_patch_indices : list Z;
  fq_patch_values : list fl
}.

Definition fq_len (q : LiquidFloatQuantizedArray) : nat := bp_len (fq_quantized q).

(** The bucket of a stored value, counted from that of the reference. *)
Definition quantize_stored (reference shift v : Z) : Z :=
  let v_signed := wraps w (reference + wraps w v) in
  wrapu w (wraps w (Z.shiftr v_signed shift - Z.shiftr reference shift)).

Definition lf_squeeze (a : LiquidFloatArray) : outcome (option (LiquidFloatQuantizedArray * list Z)) :=
  match bp_bit_width (lf_bit_packed a) with
  | None => Ret None
  | Some orig_bw =>
      if (orig_bw <? 8)%nat then Ret None
      else
        let new_bw := (orig_bw / 2)%nat in
        let full_bytes := lf_to_bytes a in
        unsigned ← bp_to_primitive w (lf_bit_packed a);
        match lf_squeeze_policy a with
        | FloatQuantize =>
            let shift := Z.of_nat (orig_bw - new_bw) in
            let quantized_values := quantize_stored (lf_reference_value a) shift <$> pa_values unsigned in
            Ret (Some (FloatQuantized (lf_exponent a)
                         (bp_from_primitive w (Prim quantized_values (pa_nulls unsigned)) new_bw)
                         (lf_reference_value a) shift (0%nat, length full_bytes)
                         (lf_patch_indices a) (lf_patch_values a), full_bytes))
        end
  end.

(** [read_from_bytes] on the bytes of a float array. *)
Definition fq_hydrate_full_arrow (q : LiquidFloatQuantizedArray) : SqueezeIo PrimitiveArray := λ backing,
  file ← expect backing;
  let '(from, to) := fq_disk_range q in
  bytes ← slice file from (to - from);
  liquid ← lf_from_bytes bytes;
  a ← lf_to_arrow_array liquid;
  Ret (a, [SqRead (Z.of_nat (to - from))]).

Definition fq_to_arrow_array : LiquidFloatQuantizedArray -> SqueezeIo PrimitiveArray := fq_hydrate_full_arrow.

(** The patches keep their row numbers. *)
Definition new_from_filtered (q : LiquidFloatQuantizedArray) (filtered : PrimitiveArray) : outcome LiquidFloatQuantizedArray :=
  bit_width ← expect (bp_bit_width (fq_quantized q));
  Ret (FloatQuantized (fq_exponent q) (bp_from_primitive w filtered bit_width) (fq_reference_value q)
         (fq_bucket_width q) (fq_disk_range q) (fq_patch_indices q) (fq_patch_values q)).

Definition fq_filter_inner (q : LiquidFloatQuantizedArray) (selection : list bool) : outcome LiquidFloatQuantizedArray :=
  q_prim ← bp_to_primitive w (fq_quantized q);
  filtered ← expect (prim_filter q_prim selection);
  new_from_filtered q filtered.

(** ** Predicates *)

(** The comparison with [k] of a value between [lo] and [hi]. *)
Definition handle_eq (lo hi k : fl) : option bool := if flt F k lo || flt F hi k then Some false else None.
Definition handle_neq (lo hi k : fl) : option bool := if flt F k lo || flt F hi k then Some true else None.
Definition handle_lt (lo hi k : fl) : option bool :=
  if fle F k lo then Some false else if flt F hi k then Some true else None.
Definition handle_lteq (lo hi k : fl) : option bool :=
  if flt F k lo then Some false else if fle F hi k then Some true else None.
Definition handle_gt (lo hi k : fl) : option bool :=
  if flt F k lo then Some true else if fle F hi k then Some false else None.
Definition handle_gteq (lo hi k : fl) : option bool :=
  if fle F k lo then Some true else if flt F hi k then Some false else None.

Definition comp_fn (op : Operator) : fl -> fl -> fl -> option bool :=
  match op with
  | OpEq => handle_eq | OpNotEq => handle_neq | OpLt => handle_lt
  | OpLtEq => handle_lteq | OpGt => handle_gt | OpGtEq => handle_gteq
  end.

Definition float_compare (op : Operator) (x k : fl) : bool :=
  match op with
  | OpEq => feq F x k | OpNotEq => negb (feq F x k)
  | OpLt => flt F x k | OpLtEq => fle F x k | OpGt => flt F k x | OpGtEq => fle F k x
  end.

(** [FromPrimitive] of the native type. *)
Definition literal_float (v : FloatScalar) : option fl :=
  match v with
  | FsInteger (Some v) => Some (fl_of_Z F v)
  | FsFloat32 (Some v) => Some (match T with Float32Type => v | Float64Type => fl_convert binary32 F v end)
  | FsFloat64 (Some v) => Some (match T with Float64Type => v | Float32Type => fl_convert binary64 F v end)
  | _ => None
  end.

(** The endpoints of a bucket, decoded. *)
Definition bucket_bounds (q : LiquidFloatQuantizedArray) (b : Z) : outcome (fl * fl) :=
  let val := wraps w b in
  let endpoint v := wraps w (wraps w (Z.shiftl v (fq_bucket_width q)) + fq_reference_value q) in
  val_lower ← decode_single (fq_exponent q) (endpoint val);
  val_higher ← decode_single (fq_exponent q) (endpoint (wraps w (val + 1)));
  Ret (val_lower, val_higher).

(** One pass over the rows; [patches] are the row numbers of the patches that
    follow.  [None] when a row needs the backing. *)
Fixpoint eval_float_rows (q : LiquidFloatQuantizedArray) (decide_row : fl -> fl -> option bool) (i : nat) (patches : list Z)
    (values : list Z) (valid : list bool) : outcome (option (list bool)) :=
  match values, valid with
  | b :: values, is_valid :: valid =>
      let continue_with v patches :=
        out_vals ← eval_float_rows q decide_row (S i) patches values valid; Ret (cons v <$> out_vals) in
      if negb is_valid then continue_with false patches
      else
        match patches with
        | p :: patches' =>
            if p =? Z.of_nat i then continue_with false patches'
            else
              '(val_lower, val_higher) ← bucket_bounds q b;
              match decide_row val_lower val_higher with
              | Some v => continue_with v patches
              | None => Ret None
              end
        | [] =>
            '(val_lower, val_higher) ← bucket_bounds q b;
            match decide_row val_lower val_higher with
            | Some v => continue_with v patches
            | None => Ret None
            end
        end
  | _, _ => Ret (Some [])
  end.

(** The patches are compared themselves. *)
Fixpoint eval_patches (compare : fl -> bool) (patch_indices : list Z) (patch_values : list fl) (out_vals : list bool)
    : outcome (list bool) :=
  match patch_indices with
  | [] => Ret out_vals
  | patch_idx :: patch_indices =>
      match patch_values with
      | [] => Panic
      | patch_value :: patch_values =>
          out_vals ← set_at out_vals (Z.to_nat patch_idx) (compare patch_value);
          eval_patches compare patch_indices patch_values out_vals
      end
  end.

Definition fq_try_eval_predicate_inner (q : LiquidFloatQuantizedArray) (op : Operator) (literal : FloatScalar)
    : outcome (SqueezeResult (option BooleanArray)) :=
  match literal_float literal with
  | None => Ret (Decided None)
  | Some k =>
      q_prim ← bp_to_primitive w (fq_quantized q);
      let values := pa_values q_prim in
      out_vals ←
        eval_float_rows q (λ lo hi, comp_fn op lo hi k) 0 (fq_patch_indices q) values
          (validity (bp_nulls (fq_quantized q)) (length values));
      match out_vals with
      | None => Ret NeedsBacking
      | Some out_vals =>
          out_vals ← eval_patches (λ x, float_compare op x k) (fq_patch_indices q) (fq_patch_values q) out_vals;
          Ret (Decided (Some (boolean_array out_vals (bp_nulls (fq_quantized q)))))
      end
  end.

Context {FC : FloatCompare}.

Definition fq_try_eval_predicate (q : LiquidFloatQuantizedArray) (expr : FExpr) (filter : list bool)
    : SqueezeIo (option BooleanArray) := λ backing,
  filtered ← fq_filter_inner q filter;
  match expr with
  | FBinary op literal =>
      match from_datafusion op with
      | Some supported_op =>
          r ← fq_try_eval_predicate_inner filtered supported_op literal;
          match r with
          | Decided mask => Ret (mask, [])
          | NeedsBacking =>
              '(full, events) ← fq_hydrate_full_arrow q backing;
              Ret (match prim_filter full filter with
                   | None => None
                   | Some filtered_arr => float_apply_cmp op filtered_arr literal
                   end, events)
          end
      | None => Ret (None, [])
      end
  | FOther => Ret (None, [])
  end.
End float.
Arguments FloatArr {_}.
Arguments FloatQuantized {_}.
Arguments lf_exponent {_} l.
Arguments lf_bit_packed {_} l.
Arguments lf_patch_indices {_} l.
Arguments lf_patch_values {_} l.
Arguments lf_reference_value {_} l.
Arguments lf_squeeze_policy {_} l.
Arguments fq_exponent {_} l.
Arguments fq_quantized {_} l.
Arguments fq_reference_value {_} l.
Arguments fq_bucket_width {_} l.
Arguments fq_disk_range {_} l.
Arguments fq_patch_indices {_} l.
Arguments fq_patch_values {_} l.
