(* ===== verification/FloatSpec.v ===== *)
(** * Correctness of the float arrays

    What [FloatArray.v] gives back: every row bit for bit, except that a negative
    zero may come back positive; on the rows that do not decode to themselves this
    is what the patches are for. *)

From stdpp Require Import base list.
From Stdlib Require Import ZArith Lia.
From Stdlib Require Import Floats.SpecFloat.
From S2P Require Import Prelude Bytes Arrow BitPack DataTypes Ipc Expressions Formats LiquidPrimitive Floats.
From S2P Require Import HybridArray HybridSpec Fsst FloatArray.
Local Open Scope Z_scope.

#[export] Instance float_format_ok T : FormatOk (float_format T).
Proof. destruct T; apply _. Qed.

Section float_lemmas.
Context `{NullBufferLaws} `{FastlanesLaws} {PK : PrimitiveKernels} {PL : PrimitiveKernelLaws}.
Context (T : LiquidFloatType).

Local Abbreviation F := (float_format T).
Local Abbreviation w := (fl_width (float_format T)).

(** A word of the format, and a value of the signed integer type. *)
Definition is_float (x : fl) : Prop := 0 <= x < 2 ^ w.
Definition is_signed (z : Z) : Prop := - 2 ^ (w - 1) <= z < 2 ^ (w - 1).

Lemma width_cases : w = 32 \/ w = 64.
Proof. destruct T; auto. Qed.

Lemma width_word : word_size w.
Proof. unfold word_size. destruct width_cases; lia. Qed.

Lemma width_double : 2 ^ w = 2 * 2 ^ (w - 1) /\ 2 ^ 31 <= 2 ^ (w - 1).
Proof. destruct width_cases as [-> | ->]; lia. Qed.

(** ** Encoding and decoding a value *)

Definition exps_ok (exp : Exponents) : Prop := (exp_e exp < length (F10 T))%nat /\ (exp_f exp < length (F10 T))%nat.

Lemma tables : length (IF10 T) = length (F10 T).
Proof. by destruct T. Qed.

Lemma exponent_pairs_ok : Forall exps_ok (exponent_pairs T).
Proof.
  assert (∀ n m, (n <= m)%nat -> Forall (λ exp, (exp_e exp < m)%nat /\ (exp_f exp < m)%nat)
                                  (concat ((λ e, Exps e <$> seq 0 e) <$> seq 0 n))) as Hn.
  { intros n m Hnm. apply Forall_concat, Forall_fmap, Forall_forall. intros e He%elem_of_seq. cbn.
    apply Forall_fmap, Forall_forall. intros f Hf%elem_of_seq. cbn. lia. }
  unfold exponent_pairs, exps_ok. apply Hn. destruct T; vm_compute; lia.
Qed.

Definition decoded (exp : Exponents) (e : Z) : fl :=
  fmul F (fmul F (fl_of_Z F e) (F10 T !!! exp_f exp)) (IF10 T !!! exp_e exp).

Definition encoded (exp : Exponents) (v : fl) : Z :=
  fast_round T (fmul F (fmul F v (F10 T !!! exp_e exp)) (IF10 T !!! exp_f exp)).

Lemma index_ok {A} `{Inhabited A} (l : list A) i : (i < length l)%nat -> index l i = Ret (l !!! i).
Proof. intros Hi. unfold index. destruct (lookup_lt_is_Some_2 l i Hi) as [x Hx]. by rewrite Hx, (list_lookup_total_correct _ _ _ Hx). Qed.

Lemma decode_ok exp e : exps_ok exp -> decode_single T exp e = Ret (decoded exp e).
Proof. intros [He Hf]. unfold decode_single. rewrite !index_ok by (rewrite ?tables; done). run_step. unfold decoded. f_equal. Qed.

Lemma encode_ok exp v : exps_ok exp -> encode_single_unchecked T exp v = Ret (encoded exp v).
Proof. intros [He Hf]. unfold encode_single_unchecked. rewrite !index_ok by (rewrite ?tables; done). run_step. unfold encoded. f_equal. Qed.

Lemma decoded_float exp e : is_float (decoded exp e).
Proof. apply to_bits_range. apply _. Qed.

Lemma encoded_signed exp v : is_signed (encoded exp v).
Proof.
  unfold encoded, fast_round, fl_as, fl_cast, is_signed. pose proof width_double.
  destruct (of_bits _ _) as [[]|[]| |s m e]; lia.
Qed.

(** Whether a row decodes to itself. *)
Definition survives (exp : Exponents) (v : fl) : bool := feq F (decoded exp (encoded exp v)) v.

Lemma decodes_to_ok exp v : exps_ok exp -> decodes_to T exp (encoded exp v) v = Ret (survives exp v).
Proof. intros He. unfold decodes_to. rewrite decode_ok by done. run_step. unfold survives. f_equal. Qed.

Lemma survives_feq exp v : survives exp v = true -> feq F (decoded exp (encoded exp v)) v = true.
Proof. unfold survives. intros E. exact E. Qed.

#[local] Opaque decoded encoded survives.

(** The rows that do not. *)
Fixpoint lost (exp : Exponents) (i : nat) (values : list fl) : list (Z * fl) :=
  match values with
  | [] => []
  | v :: values => if survives exp v then lost exp (S i) values else (Z.of_nat i, v) :: lost exp (S i) values
  end.

Lemma lost_length exp i j values : length (lost exp i values) = length (lost exp j values).
Proof. revert i j. induction values as [|v values IH]; intros i j; cbn; [done|]. destruct (survives exp v); cbn; by rewrite (IH _ (S j)). Qed.

Lemma lost_spec exp i values p :
  p ∈ lost exp i values <->
  ∃ k v, p = (Z.of_nat (i + k), v) /\ values !! k = Some v /\ survives exp v = false.
Proof.
  revert i. induction values as [|v values IH]; intros i; cbn [lost].
  { split; [by intros ?%elem_of_nil|]. by intros (k & v & _ & ? & _). }
  assert (p ∈ lost exp (S i) values <->
          ∃ k v', p = (Z.of_nat (i + S k), v') /\ (v :: values) !! S k = Some v' /\ survives exp v' = false) as IH'.
  { rewrite IH. cbn. setoid_rewrite Nat.add_succ_r. done. }
  destruct (survives exp v) eqn:Ev; rewrite ?elem_of_cons, IH'; split.
  - intros (k & v' & ?). by exists (S k), v'.
  - intros ([|k] & v' & Hp & Hv & Hs); [cbn in Hv; congruence|by exists k, v'].
  - intros [->|(k & v' & ?)]; [exists 0%nat, v; by rewrite Nat.add_0_r|by exists (S k), v'].
  - intros ([|k] & v' & Hp & Hv & Hs); [|by right; exists k, v']. left. injection Hv as <-. by rewrite Nat.add_0_r in Hp.
Qed.

Lemma lost_nodup exp i values : NoDup (lost exp i values).*1.
Proof.
  revert i. induction values as [|v values IH]; intros i; cbn [lost]; [constructor|].
  destruct (survives exp v); [apply IH|]. cbn. constructor; [|apply IH].
  intros (p & Hp & Hin)%list_elem_of_fmap. apply lost_spec in Hin as (k & v' & -> & _). cbn in Hp. lia.
Qed.

Lemma encode_values_ok exp values :
  exps_ok exp -> encode_values T exp values = Ret (length (lost exp 0 values), encoded exp <$> values).
Proof.
  intros He. induction values as [|v values IH]; [done|]. cbn [encode_values].
  rewrite encode_ok by done. run_step. rewrite decodes_to_ok by done. run_step. rewrite IH. run_step. cbn [lost].
  destruct (survives exp v); cbn [length]; by rewrite (lost_length exp 1 0).
Qed.

Lemma set_at_ok {A} (l : list A) i x : (i < length l)%nat -> set_at l i x = Ret (<[i := x]> l).
Proof. intros Hi. unfold set_at. by rewrite decide_True. Qed.

Lemma take_insert_snoc {A} (l : list A) i x : (i < length l)%nat -> take (S i) (<[i := x]> l) = take i l ++ [x].
Proof.
  intros Hi. rewrite (take_S_r _ _ x) by by apply list_lookup_insert_eq. by rewrite take_insert_ge by lia.
Qed.

Lemma write_patches_ok exp i values idx pis pvs :
  exps_ok exp -> (idx + length (lost exp i values) < length pis)%nat -> length pvs = length pis ->
  ∃ pis' pvs',
    write_patches T exp i (encoded exp <$> values) values idx pis pvs
    = Ret ((idx + length (lost exp i values))%nat, pis', pvs')
    /\ take (idx + length (lost exp i values)) pis' = take idx pis ++ (lost exp i values).*1
    /\ take (idx + length (lost exp i values)) pvs' = take idx pvs ++ (lost exp i values).*2.
Proof.
  intros He. revert i idx pis pvs. induction values as [|v values IH]; intros i idx pis pvs Hlt Hl.
  { exists pis, pvs. cbn. by rewrite Nat.add_0_r, !app_nil_r. }
  cbn [fmap list_fmap write_patches]. rewrite decodes_to_ok by done. run_step.
  rewrite !set_at_ok by (cbn in Hlt; destruct (survives exp v); cbn in Hlt; lia). run_step.
  cbn [lost] in *. destruct (survives exp v) eqn:Ev.
  - destruct (IH (S i) idx (<[idx := Z.of_nat i]> pis) (<[idx := v]> pvs)) as (pis' & pvs' & E & H1' & H2'); [by rewrite length_insert|by rewrite !length_insert|].
    exists pis', pvs'. cbn [Nat.add]. rewrite E, H1', H2', !take_insert_ge by lia. done.
  - cbn [length fmap list_fmap fst snd] in *.
    destruct (IH (S i) (S idx) (<[idx := Z.of_nat i]> pis) (<[idx := v]> pvs)) as (pis' & pvs' & E & H1' & H2'); [rewrite length_insert; lia|by rewrite !length_insert|].
    exists pis', pvs'. cbn [Nat.add]. rewrite Nat.add_succ_r. rewrite E. split; [done|].
    cbn [Nat.add] in H1', H2'. rewrite H1', H2', !take_insert_snoc, <- !app_assoc by lia. done.
Qed.

Lemma collect_patches_ok exp values :
  exps_ok exp ->
  collect_patches T exp (encoded exp <$> values) values (length (lost exp 0 values))
  = Ret ((lost exp 0 values).*1, (lost exp 0 values).*2).
Proof.
  intros He. unfold collect_patches. set (n := length (lost exp 0 values)).
  destruct (0 <? n)%nat eqn:E0.
  - destruct (write_patches_ok exp 0 values 0 (replicate (n + 1) 0) (replicate (n + 1) 0) He)
      as (pis & pvs & E & Hi & Hv); [rewrite length_replicate; unfold n; lia|by rewrite !length_replicate|].
    rewrite E. run_step. cbn [Nat.add] in *. fold n in Hi, Hv |- *. rewrite Nat.eqb_refl. by rewrite Hi, Hv.
  - apply Nat.ltb_ge in E0. destruct (lost exp 0 values); [done|cbn in n; unfold n in E0; lia].
Qed.

(** ** The encoded column *)

Lemma first_unpatched_in i es ps e : first_unpatched i es ps = Some e -> e ∈ es.
Proof.
  revert i. induction es as [|x es IH]; intros i; cbn; [done|].
  destruct (ps !! i) as [p|]; [destruct (p =? Z.of_nat i)|]; [intros ?%IH; by right| |]; intros [= ->]; left.
Qed.

Lemma fill_patches_ok fill ps es :
  Forall (λ p, 0 <= p < zlen es) ps ->
  ∃ es', fill_patches fill ps es = Ret es' /\ length es' = length es
         /\ (∀ k, Z.of_nat k ∉ ps -> es' !! k = es !! k) /\ (∀ e, e ∈ es' -> e ∈ es \/ e = fill).
Proof.
  revert es. induction ps as [|p ps IH]; intros es Hp; cbn [fill_patches]; [by eauto 6|].
  apply Forall_cons in Hp as [Hp Hps]. rewrite set_at_ok by lia. run_step.
  destruct (IH (<[Z.to_nat p := fill]> es)) as (es' & -> & Hl & Hk & Hin); [by rewrite length_insert|].
  exists es'. split; [done|]. split; [by rewrite Hl, length_insert|]. split.
  - intros k [Hne Hk']%not_elem_of_cons. rewrite Hk by done. apply list_lookup_insert_ne. lia.
  - intros e [He| ->]%Hin; [|by right]. apply list_elem_of_lookup in He as (k & He).
    apply list_lookup_insert_Some in He as [(_ & -> & _)|(_ & He)]; [by right|]. left. by eapply list_elem_of_lookup_2.
Qed.

Lemma list_min_ok l : l ≠ [] -> ∃ m, list_min l = Some m /\ m ∈ l /\ Forall (λ v, m <= v) l.
Proof.
  intros Hl. destruct l as [|x l]; [done|]. eexists. split; [done|].
  apply (foldl_extreme Z.min (λ a b, a <= b)); intros; lia.
Qed.

Lemma list_max_ok l : l ≠ [] -> ∃ m, list_max l = Some m /\ m ∈ l /\ Forall (λ v, v <= m) l.
Proof.
  intros Hl. destruct l as [|x l]; [done|]. eexists. split; [done|].
  apply (foldl_extreme Z.max (λ a b, b <= a)); intros; lia.
Qed.

Lemma wrapping_sub_ok v min : is_signed min -> is_signed v -> min <= v -> wrapping_sub_unsigned T v min = v - min.
Proof.
  unfold is_signed, wrapping_sub_unsigned. destruct width_double as [E _]. intros Hm Hv Hle.
  unfold wrapu. rewrite wraps_mod by (destruct width_cases; lia). apply Z.mod_small. lia.
Qed.

Lemma stored_value_ok reference v :
  is_signed v -> stored_value T reference (v - reference) = v.
Proof.
  intros Hv. unfold stored_value. pose proof width_cases. rewrite <- (wraps_id w v) at 2 by (done || lia).
  apply wraps_cong; [lia|]. rewrite <- Zplus_mod_idemp_l, wraps_mod, Zplus_mod_idemp_l by lia. f_equal. lia.
Qed.

(** What a float array holds: for each row its integer, and its value where that
    does not decode to it. *)
Record lf_repr (a : LiquidFloatArray) (target : list (option fl)) (es : list (option Z)) : Prop := {
  lr_wf : bp_wf w (lf_bit_packed a);
  lr_exps : exps_ok (lf_exponent a);
  lr_ref : is_signed (lf_reference_value a);
  lr_len : original_len (lf_bit_packed a) = length target;
  lr_es e : e ∈ valid_values es -> lf_reference_value a <= e /\ is_signed e;
  lr_logical : bp_logical w (lf_bit_packed a) = Ret (map_valid (λ e, e - lf_reference_value a) es);
  lr_patches : length (lf_patch_indices a) = length (lf_patch_values a);
  lr_values : Forall is_float (lf_patch_values a);
  lr_distinct : NoDup (lf_patch_indices a);
  lr_bounds : Forall (λ p, 0 <= p < zlen target) (lf_patch_indices a);
  lr_rows k :
    match target !! k with
    | Some (Some v) =>
        is_float v
        /\ ∃ e, es !! k = Some (Some e)
                /\ ((∃ j, lf_patch_indices a !! j = Some (Z.of_nat k) /\ lf_patch_values a !! j = Some v)
                    \/ ((Z.of_nat k ∉ lf_patch_indices a) /\ feq F (decoded (lf_exponent a) e) v = true))
    | Some None => es !! k = Some None
    | None => True
    end
}.

(** The integers that are packed: signed, and those of the rows that survive. *)
Definition packed_codes (exp : Exponents) (values : list fl) (es : list Z) : Prop :=
  length es = length values /\ Forall is_signed es
  /\ ∀ k v, values !! k = Some v -> survives exp v = true -> es !! k = Some (encoded exp v).

Lemma filled_ok exp values len :
  exps_ok exp ->
  ∃ es,
    (match (if (0 <? length (lost exp 0 values))%nat && (length (lost exp 0 values) <? len)%nat
            then first_unpatched 0 (encoded exp <$> values) (lost exp 0 values).*1 else None) with
     | Some fill_value => fill_patches fill_value (lost exp 0 values).*1 (encoded exp <$> values)
     | None => Ret (encoded exp <$> values)
     end) = Ret es /\ packed_codes exp values es.
Proof.
  intros He. assert (Forall is_signed (encoded exp <$> values)) as Fe.
  { apply Forall_fmap, Forall_true. intros v. apply encoded_signed. }
  assert (∀ k v, values !! k = Some v -> (encoded exp <$> values) !! k = Some (encoded exp v)) as Hk
    by (intros k v Hv; by rewrite list_lookup_fmap, Hv).
  set (fill := if _ && _ then _ else _). destruct fill as [x|] eqn:Ex.
  - assert (is_signed x) as Hx.
    { unfold fill in Ex. destruct (_ && _) in Ex; [|done]. apply first_unpatched_in in Ex.
      rewrite Forall_forall in Fe. by apply Fe. }
    destruct (fill_patches_ok x (lost exp 0 values).*1 (encoded exp <$> values)) as (es & -> & Hl & Hu & Hin).
    { apply Forall_fmap, Forall_forall. intros p Hp. apply lost_spec in Hp as (k & v & -> & Hv & _). cbn.
      apply lookup_lt_Some in Hv. rewrite length_fmap. lia. }
    rewrite length_fmap in Hl. exists es. split; [done|]. split; [done|]. split.
    + apply Forall_forall. intros e [Hin'| ->]%Hin; [|done]. rewrite Forall_forall in Fe. by apply Fe.
    + intros k v Hv Hs. rewrite Hu; [by apply Hk|].
      intros (p & Ep & Hp)%list_elem_of_fmap. apply lost_spec in Hp as (k' & v' & -> & Hv' & Hs').
      cbn in Ep. assert (k' = k) as -> by lia. congruence.
  - exists (encoded exp <$> values). split; [done|]. split; [apply length_fmap|]. split; [done|]. auto.
Qed.

(** What is packed, null rows included, fits its width. *)
Definition lf_fresh (a : LiquidFloatArray) : Prop :=
  ∀ b, bp_bit_width (lf_bit_packed a) = Some b ->
    1 <= Z.of_nat b <= w
    /\ ∃ p, bp_to_primitive w (lf_bit_packed a) = Ret p /\ pa_wf p /\ pa_nulls p = bp_nulls (lf_bit_packed a)
            /\ Forall (λ v, 0 <= v < 2 ^ Z.of_nat b) (pa_values p).

Lemma lf_encode_ok col exp :
  pa_wf col -> Forall is_float (pa_values col) -> exps_ok exp ->
  ∃ a es, encode_arrow_array T col exp = Ret a /\ lf_repr a (pa_logical col) es
          /\ lf_fresh a /\ lf_squeeze_policy a = FloatQuantize.
Proof.
  intros Wf Fv He. unfold encode_arrow_array. pose proof width_word as Hword. pose proof width_double as [E2 H31].
  case_bool_decide as Hnull.
  { eexists _, (replicate (length (pa_values col)) None). split; [done|]. rewrite (all_null_logical col Wf Hnull).
    split; [|split; [by intros b|done]].
    split; cbn [lf_bit_packed lf_exponent lf_reference_value lf_patch_indices lf_patch_values].
    - by apply bp_new_null_wf.
    - split; destruct T; vm_compute; lia.
    - unfold is_signed. lia.
    - by rewrite length_replicate.
    - intros e Hin. apply valid_in, elem_of_replicate in Hin as [? _]. done.
    - rewrite bp_new_null_logical. unfold map_valid. by rewrite fmap_replicate.
    - done.
    - constructor.
    - constructor.
    - constructor.
    - intros k. destruct (replicate _ None !! k) as [[v|]|] eqn:E; [|done|done].
      apply lookup_replicate in E as [? _]. done. }
  destruct col as [values nulls]. cbn [pa_values pa_nulls] in *.
  assert (values ≠ []) as Hne.
  { intros ->. apply Hnull. unfold pa_wf in Wf. destruct nulls as [n|]; [|done]. cbn in Wf.
    unfold null_count. by destruct (nb_bits n). }
  rewrite encode_values_ok by done. run_step. rewrite collect_patches_ok by done. run_step.
  destruct (filled_ok exp values (length values) He) as (es & -> & Hle & Fe & Hes). run_step.
  assert (es ≠ []) as Hese by (intros ->; by destruct values).
  destruct (list_min_ok es Hese) as (mn & -> & Hmn & Fmn). destruct (list_max_ok es Hese) as (mx & -> & Hmx & Fmx).
  cbn [expect]. run_step. rewrite Forall_forall in Fe, Fmn, Fmx.
  pose proof (Fe _ Hmn) as Smn. pose proof (Fe _ Hmx) as Smx.
  assert ((λ v, wrapping_sub_unsigned T v mn) <$> es = (λ v, v - mn) <$> es) as ->.
  { apply list_fmap_ext. intros i v Hv%list_elem_of_lookup_2. apply wrapping_sub_ok; auto. }
  rewrite wrapping_sub_ok by auto. set (b := Z.to_nat (get_bit_width (mx - mn))).
  assert (0 <= mx - mn < 2 ^ w) as Hsub by (pose proof (Fmn _ Hmx); unfold is_signed in *; lia).
  assert (2 ^ w <= 2 ^ 64) as H64 by (destruct width_cases as [-> | ->]; lia).
  destruct (get_bit_width_range (mx - mn) ltac:(lia)) as [Hr Hlt].
  pose proof (get_bit_width_least (mx - mn) w ltac:(destruct width_cases; lia) ltac:(destruct width_cases; lia) ltac:(lia)) as Hleast.
  assert (Z.of_nat b = get_bit_width (mx - mn)) as Eb by (unfold b; lia).
  assert (length es = length values) as Hle' by done.
  pose proof (bp_roundtrip w Hword (Prim ((λ v, v - mn) <$> es) nulls) b) as Hrt. cbn [pa_values pa_nulls] in Hrt.
  eexists _, (logical es nulls). split; [done|].
  assert (pa_wf (Prim ((λ v, v - mn) <$> es) nulls)) as Wf'.
  { unfold pa_wf in *. cbn in *. destruct nulls; [|done]. by rewrite length_fmap, Hle. }
  assert (Forall (is_word w) ((λ v, v - mn) <$> es)) as Fw.
  { apply Forall_fmap, Forall_forall. intros e He'. cbn. unfold is_word. pose proof (Fmn _ He'). pose proof (Fmx _ He'). lia. }
  specialize (Hrt Fw ltac:(lia)). split; [|split; [|done]].
  2: { intros b' [= <-]. split; [lia|]. eexists. split; [exact Hrt|]. split.
       - unfold pa_wf in *. cbn in *. by destruct nulls; rewrite ?length_fmap in *.
       - split; [done|]. apply Forall_fmap, Forall_true. intros v. cbn. apply Z.mod_pos_bound. apply Z.pow_pos_nonneg; lia. }
  split; cbn [lf_bit_packed lf_exponent lf_reference_value lf_patch_indices lf_patch_values].
  - apply bp_from_primitive_wf; [done..|lia].
  - done.
  - done.
  - cbn. rewrite length_fmap, Hle. unfold pa_logical. cbn. symmetry. apply logical_length. by destruct nulls.
  - intros e He'%valid_in%logical_in. auto.
  - unfold bp_logical. rewrite Hrt. run_step. f_equal. unfold pa_logical. cbn [pa_values pa_nulls].
    rewrite <- list_fmap_compose, logical_map.
    apply map_valid_ext. intros e He'%valid_in%logical_in. cbn. apply Z.mod_small. rewrite Eb.
    pose proof (Fmn _ He'). pose proof (Fmx _ He'). lia.
  - by rewrite !length_fmap.
  - apply Forall_fmap, Forall_forall. intros p Hp. apply lost_spec in Hp as (k & v & -> & Hv & _). cbn.
    rewrite Forall_forall in Fv. by eapply Fv, list_elem_of_lookup_2.
  - apply lost_nodup.
  - unfold pa_logical. cbn [pa_values pa_nulls]. rewrite logical_length by by destruct nulls.
    apply Forall_fmap, Forall_forall. intros p Hp. apply lost_spec in Hp as (k & v & -> & Hv & _).
    cbn. apply lookup_lt_Some in Hv. lia.
  - intros k. rewrite <- validity_logical. cbn [pa_values pa_nulls].
    assert (logical es nulls = mask_values es (validity nulls (length values))) as ->.
    { pose proof (validity_logical (Prim es nulls)) as Hv. cbn [pa_values pa_nulls] in Hv. rewrite Hle in Hv. symmetry. exact Hv. }
    unfold mask_values. rewrite !lookup_zip_with. destruct (values !! k) as [v|] eqn:Ev; [|done]. cbn [mbind option_bind].
    destruct (lookup_lt_is_Some_2 es k) as [e Hek]; [rewrite Hle; by eapply lookup_lt_Some|]. rewrite Hek.
    destruct (validity nulls (length values) !! k) as [[]|]; cbn; [|done|done].
    rewrite Forall_forall in Fv. split; [by apply Fv, list_elem_of_lookup_2 with k|]. exists e. split; [done|].
    destruct (survives exp v) eqn:Es.
    + right. rewrite (Hes k v Ev Es) in Hek. injection Hek as <-. split; [|by apply survives_feq].
      intros (p & Ep & Hp)%list_elem_of_fmap. apply lost_spec in Hp as (k' & v' & -> & Hv' & Hs').
      cbn in Ep. assert (k' = k) as -> by lia. assert (Some v = Some v') as [= <-] by (rewrite <- Ev; exact Hv'). by rewrite Es in Hs'.
    + left. assert ((Z.of_nat (0 + k), v) ∈ lost exp 0 values) as Hin by (apply lost_spec; eauto).
      apply list_elem_of_lookup in Hin as (j & Hj). exists j.
      split; [exact (list_lookup_fmap_Some_2 fst _ _ _ Hj)|exact (list_lookup_fmap_Some_2 snd _ _ _ Hj)].
Qed.

(** ** Reading *)

Lemma mapM_ok {A B} (f : A -> outcome B) (g : A -> B) l : (∀ x, f x = Ret (g x)) -> mapM f l = Ret (g <$> l).
Proof. intros Hf. induction l as [|x l IH]; [done|]. cbn. rewrite Hf. cbn in *. by rewrite IH. Qed.

(** Writing values at distinct rows. *)
Lemma patch_decoded_ok {A} ps (vs l : list A) :
  length ps = length vs -> NoDup ps -> Forall (λ p, 0 <= p < zlen l) ps ->
  ∃ l', patch_decoded ps vs l = Ret l' /\ length l' = length l
        /\ (∀ k, Z.of_nat k ∉ ps -> l' !! k = l !! k)
        /\ (∀ j k v, ps !! j = Some (Z.of_nat k) -> vs !! j = Some v -> l' !! k = Some v).
Proof.
  revert vs l. induction ps as [|p ps IH]; intros [|v vs] l Hl Hd Hp; try done.
  { exists l. split; [done|]. by split_and!. }
  apply NoDup_cons in Hd as [Hn Hd]. apply Forall_cons in Hp as [Hp Hps]. cbn [patch_decoded].
  rewrite set_at_ok by lia. run_step. injection Hl as Hl.
  destruct (IH vs (<[Z.to_nat p := v]> l) Hl Hd) as (l' & -> & Hl' & Hk & Hj); [by rewrite length_insert|].
  exists l'. split; [done|]. split; [by rewrite Hl', length_insert|]. split.
  - intros k [Hne Hk']%not_elem_of_cons. rewrite Hk by done. apply list_lookup_insert_ne. lia.
  - intros [|j] k v' Hpj Hvj.
    + cbn in Hpj, Hvj. injection Hpj as Hpk. injection Hvj as <-. subst p. rewrite Hk by done.
      rewrite Nat2Z.id in *. apply list_lookup_insert_eq. lia.
    + by eapply Hj.
Qed.

(** A column up to the sign of zeros. *)
Definition same_column : list (option fl) -> list (option fl) -> Prop := Forall2 (option_Forall2 (same_float F)).

Lemma Forall2_keep {A B} (R : A -> B -> Prop) l l' m : Forall2 R l l' -> Forall2 R (keep l m) (keep l' m).
Proof.
  intros Hl. revert m. induction Hl as [|x x' l l' Hx Hl IH]; intros [|b m]; cbn; try constructor.
  destruct b; [constructor; [done|]|]; apply IH.
Qed.

Lemma lf_decode_ok a target es :
  lf_repr a target es ->
  ∃ b, lf_to_arrow_array T a = Ret b /\ pa_wf b /\ same_column (pa_logical b) target.
Proof.
  intros [Wf He Hr Hlen Hes Hlog Hpl _ Hd Hb Hrows]. unfold lf_to_arrow_array.
  destruct (bp_decode_ok w _ _ width_word Wf Hlog) as (p & -> & Hp & Hlu & Hnl & Hdec). run_step.
  set (g := λ v, decoded (lf_exponent a) (stored_value T (lf_reference_value a) v)).
  rewrite (mapM_ok _ g) by (intros v; by apply decode_ok). run_step.
  destruct (patch_decoded_ok (lf_patch_indices a) (lf_patch_values a) (g <$> pa_values p) Hpl Hd)
    as (l' & -> & Hl' & Hk & Hj); [by rewrite length_fmap, Hp, Hlen|].
  run_step. rewrite length_fmap in Hl'.
  eexists. split; [done|]. assert (pa_wf (Prim l' (bp_nulls (lf_bit_packed a)))) as Wf'.
  { unfold pa_wf. cbn. destruct (bp_nulls _); [|done]. cbn in Hnl. congruence. }
  split; [done|]. assert (length l' = length target) as Hlt by congruence.
  set (valid := validity (bp_nulls (lf_bit_packed a)) (length l')).
  assert (mask_values l' valid = pa_logical (Prim l' (bp_nulls (lf_bit_packed a)))) as Em by apply (validity_logical (Prim l' _)).
  rewrite <- Em. pose proof (validity_length _ _ Wf') as Hv. fold valid in Hv.
  apply Forall2_same_length_lookup. split; [unfold mask_values; rewrite length_zip_with; lia|].
  intros k o o' Ho Ho'. specialize (Hrows k). rewrite Ho' in Hrows.
  pose proof (Hdec g) as Hg. rewrite map_valid_compose in Hg.
  rewrite mask_lookup, lookup_zip_with in Ho.
  assert (mask_values (g <$> pa_values p) valid = logical (g <$> pa_values p) (bp_nulls (lf_bit_packed a))) as Ev.
  { unfold valid. rewrite Hl', <- (length_fmap g (pa_values p)). 
    pose proof (validity_logical (Prim (g <$> pa_values p) (bp_nulls (lf_bit_packed a)))) as E. unfold pa_logical in E.
    cbn [pa_values pa_nulls] in E. exact E. }
  rewrite Hg in Ev. apply (f_equal (.!! k)) in Ev. unfold map_valid in Ev.
  rewrite list_lookup_fmap, mask_lookup, lookup_zip_with in Ev.
  destruct (l' !! k) as [x|] eqn:Ex; [|done]. destruct (valid !! k) as [bit|]; [|done]. cbn in Ho. injection Ho as <-.
  destruct (lookup_lt_is_Some_2 (g <$> pa_values p) k) as [y Hy].
  { rewrite length_fmap, <- Hl'. by eapply lookup_lt_Some. }
  rewrite Hy in Ev. cbn in Ev. destruct o' as [v|].
  - destruct Hrows as (Hf & e & Hek & Hcase). rewrite Hek in Ev. cbn in Ev.
    destruct bit; [|done]. injection Ev as Ey. constructor. destruct Hcase as [(j & Hij & Hvj)|[Hnin Hfeq]].
    + pose proof (Hj _ _ _ Hij Hvj) as Hx. rewrite Ex in Hx. injection Hx as ->. by left.
    + rewrite Hk, Hy in Ex by done. injection Ex as <-. rewrite Ey.
      destruct (Hes e) as [Hle Hs]; [apply valid_in; by eapply list_elem_of_lookup_2|].
      unfold g. rewrite stored_value_ok by done. apply feq_same; [apply _|apply decoded_float|done|done].
  - rewrite Hrows in Ev. cbn in Ev. by destruct bit; [|constructor].
Qed.

Lemma lf_filter_ok a target es m :
  lf_repr a target es -> length m = length target ->
  ∃ b, lf_filter T a m = Ret b /\ same_column (pa_logical b) (keep target m).
Proof.
  intros Hr Hm. destruct (lf_decode_ok a target es Hr) as (b & E & Wf & Hb). unfold lf_filter. rewrite E. run_step.
  assert (length (pa_logical b) = length (pa_values b)) as Hlb by (apply logical_length; by destruct b as [? []]).
  destruct (prim_filter_ok b m Wf) as (f & -> & _ & Hf & _); [by rewrite Hm, <- Hlb, (Forall2_length _ _ _ Hb)|].
  exists f. split; [done|]. rewrite Hf. by apply Forall2_keep.
Qed.

(** ** Choosing the exponents *)

Lemma step_by_in {A} step skip (l : list A) x : x ∈ step_by step skip l -> x ∈ l.
Proof.
  revert skip. induction l as [|y l IH]; intros skip; [done|]. cbn [step_by].
  destruct skip; [intros [->|?%IH]%elem_of_cons; [left|by right]|intros ?%IH; by right].
Qed.

Lemma sample_ok col :
  pa_wf col -> Forall is_float (pa_values col) -> pa_wf (sample_of col) /\ Forall is_float (pa_values (sample_of col)).
Proof.
  intros Wf Fv. unfold sample_of. destruct (_ <? _)%nat; [|done]. split; [done|]. cbn [pa_values].
  apply Forall_forall. intros v Hv%valid_in%step_by_in%logical_in. rewrite Forall_forall in Fv. by apply Fv.
Qed.

Lemma try_exponents_ok size sample best min pairs :
  pa_wf sample -> Forall is_float (pa_values sample) -> exps_ok best -> Forall exps_ok pairs ->
  ∃ exp, try_exponents T size sample best min pairs = Ret exp /\ exps_ok exp.
Proof.
  intros Wf Fv. revert best min. induction pairs as [|exp pairs IH]; intros best min Hb Hp; [by exists best|].
  apply Forall_cons in Hp as [He Hp]. cbn [try_exponents].
  destruct (lf_encode_ok sample exp Wf Fv He) as (a & es & -> & _). run_step. destruct (_ <? _); by apply IH.
Qed.

Lemma lf_from_arrow_ok size col :
  pa_wf col -> Forall is_float (pa_values col) ->
  ∃ a es, lf_from_arrow_array T size col = Ret a /\ lf_repr a (pa_logical col) es
          /\ lf_fresh a /\ lf_squeeze_policy a = FloatQuantize.
Proof.
  intros Wf Fv. unfold lf_from_arrow_array, get_best_exponents. destruct (sample_ok col Wf Fv) as [Ws Fs].
  destruct (try_exponents_ok size _ (Exps 0 0) (2 ^ 64 - 1) (exponent_pairs T) Ws Fs) as (exp & -> & He).
  { split; destruct T; vm_compute; lia. }
  { apply exponent_pairs_ok. }
  run_step. by apply lf_encode_ok.
Qed.

(** ** Bytes *)

Lemma width_native : w = native_width (float_physical T).
Proof. by destruct T. Qed.

Lemma index_app {A} (a : list A) x b i : i = length a -> index (a ++ x :: b) i = Ret x.
Proof. intros ->. unfold index. by rewrite list_lookup_middle. Qed.

(** The bytes before the patches. *)
Definition float_prefix (a : LiquidFloatArray) : list Z :=
  header_to_bytes (header_new (liquid_data_type_code LFloat) (physical_type_id (float_physical T)))
  ++ le_bytes (value_bytes T) (lf_reference_value a) ++ replicate (8 - value_bytes T) 0.

Lemma value_bytes_range : (0 < value_bytes T <= 8)%nat /\ 8 * Z.of_nat (value_bytes T) = w.
Proof. destruct T; split; vm_compute; repeat constructor. Qed.

Lemma float_prefix_length a : length (float_prefix a) = 24%nat.
Proof.
  pose proof value_bytes_range. unfold float_prefix.
  rewrite !length_app, length_le_bytes, length_replicate, length_header by apply length_le_bytes.
  change header_size with 16%nat. lia.
Qed.

(** The padding and the packed array, after what precedes it. *)
Definition float_suffix (a : LiquidFloatArray) (n : nat) : list Z :=
  replicate (align8 n - n) 0 ++ bp_to_bytes w (lf_bit_packed a).

Definition patch_part (a : LiquidFloatArray) : list Z :=
  concat (le_bytes 8 <$> lf_patch_indices a) ++ concat (le_bytes (value_bytes T) <$> lf_patch_values a).

Lemma float_bytes_shape a :
  length (lf_patch_indices a) = length (lf_patch_values a) ->
  lf_to_bytes T a
  = float_prefix a ++ Z.of_nat (exp_e (lf_exponent a)) :: Z.of_nat (exp_f (lf_exponent a)) :: replicate 6 0
    ++ le_bytes 8 (zlen (lf_patch_indices a)) ++ patch_part a
    ++ float_suffix a (40 + length (lf_patch_indices a) * 8 + length (lf_patch_values a) * value_bytes T).
Proof.
  intros Hl. unfold lf_to_bytes. set (hd := header_to_bytes _). set (rb := le_bytes (value_bytes T) _).
  assert (pad8_to (hd ++ rb) = float_prefix a) as ->.
  { unfold pad8_to, float_prefix. fold hd rb. rewrite <- app_assoc. do 3 f_equal. rewrite length_app.
    assert (length hd = 16%nat) as -> by (apply length_header, length_le_bytes).
    unfold rb. rewrite length_le_bytes. destruct T; reflexivity. }
  set (mid := _ ++ le_bytes 8 _).
  assert (match lf_patch_indices a with
          | [] => mid
          | _ => mid ++ concat (le_bytes 8 <$> lf_patch_indices a) ++ concat (le_bytes (value_bytes T) <$> lf_patch_values a)
          end = mid ++ patch_part a) as ->.
  { unfold patch_part. destruct (lf_patch_indices a) eqn:E; [|done]. destruct (lf_patch_values a); [|done]. by rewrite !app_nil_r. }
  assert (length (patch_part a) = length (lf_patch_indices a) * 8 + length (lf_patch_values a) * value_bytes T)%nat as Hp.
  { unfold patch_part. by rewrite length_app, !length_concat_bytes. }
  unfold pad8_to, float_suffix. rewrite length_app, Hp.
  assert (length mid = 40%nat) as ->.
  { unfold mid. rewrite !length_app, float_prefix_length, length_le_bytes. done. }
  rewrite !Nat.add_assoc. unfold mid. rewrite <- !app_assoc. reflexivity.
Qed.

Definition lf_fits (a : LiquidFloatArray) : Prop := bp_fits w (lf_bit_packed a) /\ zlen (lf_patch_indices a) < 2 ^ 61.

Lemma signed_bytes z : is_signed z -> wraps w (le_val (le_bytes (value_bytes T) z)) = z.
Proof.
  intros Hz. destruct value_bytes_range as [_ E]. rewrite le_val_bytes, E. pose proof width_cases.
  rewrite <- (wraps_id w z) at 2 by (done || lia). apply wraps_cong; [lia|]. by rewrite Zmod_mod.
Qed.

Lemma lf_bytes_ok a target es :
  lf_repr a target es -> lf_fits a -> zlen target <= 2 ^ 64 ->
  ∃ b, lf_from_bytes T (lf_to_bytes T a) = Ret b /\ lf_repr b target es
       /\ lf_reference_value b = lf_reference_value a /\ lf_exponent b = lf_exponent a
       /\ lf_patch_indices b = lf_patch_indices a.
Proof.
  intros R [Hfit Hn] Ht. destruct R as [Wf He Hr Hlen Hes Hlog Hpl Fv Hd Hb Hrows]. rewrite float_bytes_shape by done.
  rewrite <- Hpl. set (n := length (lf_patch_indices a)) in *.
  set (tail := float_suffix _ _). pose proof value_bytes_range as [Hvb E8]. pose proof (float_prefix_length a) as Hpre.
  set (hd := header_to_bytes (header_new (liquid_data_type_code LFloat) (physical_type_id (float_physical T)))).
  assert (length hd = 16%nat) as Hhd by (apply length_header, length_le_bytes).
  set (rb := le_bytes (value_bytes T) (lf_reference_value a)).
  set (ib := concat (le_bytes 8 <$> lf_patch_indices a)). set (vb := concat (le_bytes (value_bytes T) <$> lf_patch_values a)).
  assert (length ib = (n * 8)%nat) as Hib by apply length_concat_bytes.
  assert (length vb = (n * value_bytes T)%nat) as Hvbl by (unfold vb; by rewrite length_concat_bytes, <- Hpl).
  set (lb := le_bytes 8 (zlen (lf_patch_indices a))). assert (length lb = 8%nat) as Hlb by apply length_le_bytes.
  set (e := Z.of_nat (exp_e (lf_exponent a))). set (f := Z.of_nat (exp_f (lf_exponent a))).
  change (patch_part a) with (ib ++ vb). rewrite <- (app_assoc ib vb).
  set (bytes := float_prefix a ++ _).
  assert (∃ more, bytes = hd ++ rb ++ more) as (more & Emore).
  { unfold bytes, float_prefix. fold hd rb. rewrite <- !app_assoc. by eexists. }
  assert (bytes = (float_prefix a ++ [e]) ++ f :: replicate 6 0 ++ lb ++ ib ++ vb ++ tail) as E1 by (unfold bytes; by rewrite <- app_assoc).
  set (p32 := float_prefix a ++ e :: f :: replicate 6 0). assert (length p32 = 32%nat) as H32 by (unfold p32; rewrite length_app, Hpre; done).
  assert (bytes = p32 ++ lb ++ ib ++ vb ++ tail) as E2 by (unfold bytes, p32; by rewrite <- app_assoc).
  unfold lf_from_bytes.
  assert (header_from_bytes bytes = Ret (header_new (liquid_data_type_code LFloat) (physical_type_id (float_physical T)))) as ->.
  { rewrite Emore. apply (header_roundtrip (liquid_data_type_code LFloat) (physical_type_id (float_physical T))); destruct T; cbn; lia. }
  run_step. cbn [physical_type logical_type header_new]. rewrite !Z.eqb_refl. cbn [negb].
  assert (length bytes = 40 + n * 8 + n * value_bytes T + length tail)%nat as Hbl.
  { rewrite E2, !length_app, H32, Hlb, Hib, Hvbl. lia. }
  change header_size with 16%nat.
  assert (∃ b0, index bytes 16 = Ret b0) as (b0 & ->).
  { unfold index. destruct (lookup_lt_is_Some_2 bytes 16 ltac:(lia)) as [b0 ->]. by exists b0. }
  run_step. rewrite decide_True by lia. run_step.
  assert (align8 (16 + value_bytes T) = 24%nat) as -> by by destruct T.
  assert (index bytes 24 = Ret e) as -> by (unfold bytes; by apply index_app). run_step.
  assert (index bytes (24 + 1) = Ret f) as -> by (rewrite E1; apply index_app; by rewrite length_app, Hpre). run_step.
  assert (slice bytes (24 + 8) 8 = Ret lb) as -> by (rewrite E2; by apply slice_ok). run_step.
  assert (le_val lb = zlen (lf_patch_indices a)) as -> by (apply le_val_bytes_id; change (8 * Z.of_nat 8) with 64; lia).
  replace (2 ^ 61 <=? _) with false by (symmetry; apply Z.leb_gt; lia). rewrite Nat2Z.id. fold n.
  assert (slice bytes (24 + 16) (n * 8) = Ret ib) as ->.
  { rewrite E2, (app_assoc p32 lb). apply slice_ok; [by rewrite length_app, H32, Hlb|done]. }
  run_step.
  assert (slice bytes (24 + 16 + n * 8) (n * value_bytes T) = Ret vb) as ->.
  { rewrite E2, (app_assoc p32 lb), (app_assoc (p32 ++ lb) ib). apply slice_ok; [by rewrite !length_app, H32, Hlb, Hib|done]. }
  run_step. change (24 + 16 + n * 8)%nat with (40 + n * 8)%nat.
  set (k := (40 + n * 8 + n * value_bytes T)%nat) in *. pose proof (align8_ge k) as Hk.
  assert (length tail = (align8 k - k) + length (bp_to_bytes w (lf_bit_packed a)))%nat as Htl
    by (unfold tail, float_suffix; by rewrite length_app, length_replicate).
  replace (length bytes <? align8 k)%nat with false by (symmetry; apply Nat.ltb_ge; lia).
  assert (drop (align8 k) bytes = bp_to_bytes w (lf_bit_packed a)) as ->.
  { rewrite E2. replace (align8 k) with (k + (align8 k - k))%nat by lia. rewrite <- drop_drop.
    rewrite (app_assoc p32 lb), (app_assoc (p32 ++ lb) ib), (app_assoc ((p32 ++ lb) ++ ib) vb).
    rewrite drop_app_length' by (rewrite !length_app, H32, Hlb, Hib, Hvbl; unfold k; lia).
    unfold tail, float_suffix. by rewrite drop_app_length' by by rewrite length_replicate. }
  destruct (bp_bytes_ok w width_word _ Wf Hfit) as (bp' & -> & Wf' & Hlen' & Hlog'). run_step.
  assert (words_of 8 n ib = lf_patch_indices a) as ->.
  { unfold ib, n. rewrite words_of_concat. apply fmap_id_on. intros p Hp. rewrite Forall_forall in Hb. specialize (Hb p Hp).
    apply Z.mod_small. change (8 * Z.of_nat 8) with 64. lia. }
  assert (words_of (value_bytes T) n vb = lf_patch_values a) as ->.
  { unfold vb. rewrite Hpl, words_of_concat, E8. apply fmap_id_on. intros p Hp. rewrite Forall_forall in Fv. by apply Z.mod_small, Fv. }
  assert (wraps w (le_val (take (value_bytes T) (drop 16 bytes))) = lf_reference_value a) as ->.
  { rewrite Emore, (drop_app_length' hd) by done. rewrite take_app_length' by (symmetry; apply length_le_bytes). by apply signed_bytes. }
  unfold e, f. rewrite !Nat2Z.id. eexists. split; [done|].
  split; [|by destruct (lf_exponent a)]. destruct (lf_exponent a) as [ee ff].
  split; cbn [lf_bit_packed lf_exponent lf_reference_value lf_patch_indices lf_patch_values exp_e exp_f]; try done; congruence.
Qed.
End float_lemmas.

(** ** Theorems *)

Section theorems.
Context `{NullBufferLaws} `{FastlanesLaws} {PK : PrimitiveKernels} {PL : PrimitiveKernelLaws}.
Context (T : LiquidFloatType) (array_memory_size : LiquidFloatArray -> Z).

(** C22: whatever exponents are chosen, a float array gives back every value of its
    column bit for bit, up to the sign of zeros, read whole, filtered or from its
    bytes: NaNs, infinities and what loses digits are patched. *)
Theorem float_roundtrip col m
    (Wf : pa_wf col) (Hf : Forall (is_float T) (pa_values col)) (Hm : length m = length (pa_logical col)) :
  ∃ a, lf_from_arrow_array T array_memory_size col = Ret a
       /\ (∃ b, lf_to_arrow_array T a = Ret b /\ same_column T (pa_logical b) (pa_logical col))
       /\ (∃ f, lf_filter T a m = Ret f /\ same_column T (pa_logical f) (keep (pa_logical col) m))
       /\ (lf_fits T a -> zlen (pa_logical col) <= 2 ^ 64 ->
           ∃ a' b, lf_from_bytes T (lf_to_bytes T a) = Ret a'
                   /\ lf_to_arrow_array T a' = Ret b /\ same_column T (pa_logical b) (pa_logical col)).
Proof.
  destruct (lf_from_arrow_ok T array_memory_size col Wf Hf) as (a & es & E & R & _). exists a. split; [done|].
  destruct (lf_decode_ok T a _ es R) as (b & Eb & _ & Hb). split; [by exists b|].
  split; [by apply lf_filter_ok with es|]. intros Hfit Hlen.
  destruct (lf_bytes_ok T a _ es R Hfit Hlen) as (a' & Ea & R' & _).
  destruct (lf_decode_ok T a' _ es R') as (b' & Eb' & _ & Hb'). by exists a', b'.
Qed.
End theorems.

(** ** Witnesses *)

(** 1.5, a null, a NaN and the negative zero. *)
Definition floats_like : PrimitiveArray :=
  Prim [0x3ff8000000000000; 0; 0x7ff8000000000000; 2 ^ 63] (Some [true; false; true; true]).

Lemma float_roundtrip_witness :
  ∃ a b, lf_from_arrow_array Float64Type (λ _, 0) floats_like = Ret a /\ lf_to_arrow_array Float64Type a = Ret b
         /\ same_column Float64Type (pa_logical b) [Some 0x3ff8000000000000; None; Some 0x7ff8000000000000; Some (2 ^ 63)].
Proof.
  destruct (float_roundtrip Float64Type (λ _, 0) floats_like [true; true; true; true]) as (a & E & (b & Eb & Hb) & _).
  - reflexivity.
  - repeat constructor; unfold is_float; cbn; lia.
  - reflexivity.
  - exists a, b. split; [exact E|]. split; [exact Eb|exact Hb].
Defined.
