(* ===== verification/FloatOrder.v ===== *)
(** * Order and rounding

    The comparisons of [Floats.v] are a total order up to the sign of zeros, and
    rounding to nearest even preserves it, so the conversion of integers and the
    multiplication by a positive number are monotone: what the quantized float
    arrays rely on when they compare the ends of a bucket with a literal. *)

From stdpp Require Import base list.
From Stdlib Require Import ZArith Lia.
From Stdlib Require Import Floats.SpecFloat.
From S2P Require Import Prelude Floats.
Local Open Scope Z_scope.

(** ** The order *)

(** The place of a number: its class and sign, then exponent, then mantissa. *)
Definition rank (x : spec_float) : option (Z * Z * Z) :=
  match x with
  | S754_nan => None
  | S754_infinity s => Some (if s then -2 else 2, 0, 0)
  | S754_zero _ => Some (0, 0, 0)
  | S754_finite s m e => Some (if s then (-1, - e, Zneg m) else (1, e, Zpos m))
  end.

Definition lex_lt (a b : Z * Z * Z) : Prop :=
  let '(a1, a2, a3) := a in let '(b1, b2, b3) := b in
  a1 < b1 \/ (a1 = b1 /\ (a2 < b2 \/ (a2 = b2 /\ a3 < b3))).

Definition lex_le (a b : Z * Z * Z) : Prop := lex_lt a b \/ a = b.

(** [x] and [y] are comparable, and in the relation. *)
Definition ranked (R : Z * Z * Z -> Z * Z * Z -> Prop) (x y : spec_float) : Prop :=
  match rank x, rank y with Some a, Some b => R a b | _, _ => False end.

Lemma compare_rank x y :
  match SFcompare x y with
  | None => rank x = None \/ rank y = None
  | Some Lt => ranked lex_lt x y
  | Some Eq => ranked eq x y
  | Some Gt => ranked (λ a b, lex_lt b a) x y
  end.
Proof.
  unfold ranked, lex_lt. destruct x as [s|s| |s m e], y as [t|t| |t n f]; cbn; auto;
    try (destruct s); try (destruct t); cbn; try done; try lia.
  - change (Pos.compare_cont Eq m n) with (m ?= n)%positive.
    destruct (Z.compare_spec e f) as [->| |]; [destruct (Pos.compare_spec m n) as [->| |]| |]; cbn; try done; lia.
  - change (Pos.compare_cont Eq m n) with (m ?= n)%positive.
    destruct (Z.compare_spec e f) as [->| |]; [destruct (Pos.compare_spec m n) as [->| |]| |]; cbn; try done; lia.
Qed.

Lemma ranked_iff (P Q : Z * Z * Z -> Z * Z * Z -> Prop) x y : (∀ a b, P a b <-> Q a b) -> ranked P x y <-> ranked Q x y.
Proof. intros Hpq. unfold ranked. destruct (rank x), (rank y); try done. Qed.

Lemma lex_total a b : lex_lt a b \/ a = b \/ lex_lt b a.
Proof.
  destruct a as [[a1 a2] a3], b as [[b1 b2] b3]. unfold lex_lt.
  destruct (Ztrichotomy_inf a1 b1) as [[?| ->]|?]; [lia| |lia]. destruct (Ztrichotomy_inf a2 b2) as [[?| ->]|?]; [lia| |lia].
  destruct (Ztrichotomy_inf a3 b3) as [[?| ->]|?]; [lia|auto|lia].
Qed.

Lemma lex_irrefl a : ~ lex_lt a a.
Proof. destruct a as [[a1 a2] a3]. unfold lex_lt. lia. Qed.

Lemma lex_trans a b c : lex_lt a b -> lex_lt b c -> lex_lt a c.
Proof. destruct a as [[a1 a2] a3], b as [[b1 b2] b3], c as [[c1 c2] c3]. unfold lex_lt. lia. Qed.

Lemma ltb_ranked x y : SFltb x y = true <-> ranked lex_lt x y.
Proof.
  unfold SFltb. pose proof (compare_rank x y) as Hc. unfold ranked in *. destruct (SFcompare x y) as [[]|].
  - split; [done|]. destruct (rank x), (rank y); try done. subst. intros ?%lex_irrefl. done.
  - done.
  - split; [done|]. destruct (rank x), (rank y); try done. intros Hlt. destruct (lex_irrefl p). by eapply lex_trans.
  - split; [done|]. by destruct Hc as [-> | ->]; [|destruct (rank x)].
Qed.

Lemma leb_ranked x y : SFleb x y = true <-> ranked lex_le x y.
Proof.
  unfold SFleb, lex_le. pose proof (compare_rank x y) as Hc. unfold ranked in *. destruct (SFcompare x y) as [[]|].
  - split; [|done]. intros _. destruct (rank x), (rank y); try done. by right.
  - split; [|done]. intros _. destruct (rank x), (rank y); try done. by left.
  - split; [done|]. destruct (rank x) as [p|], (rank y) as [q|]; try done. intros [Hlt| ->].
    + destruct (lex_irrefl p). by eapply lex_trans.
    + by destruct (lex_irrefl q).
  - split; [done|]. by destruct Hc as [-> | ->]; [|destruct (rank x)].
Qed.

Lemma eqb_ranked x y : SFeqb x y = true <-> ranked eq x y.
Proof.
  unfold SFeqb. pose proof (compare_rank x y) as Hc. unfold ranked in *. destruct (SFcompare x y) as [[]|].
  - done.
  - split; [done|]. destruct (rank x), (rank y); try done. intros ->. by apply lex_irrefl in Hc.
  - split; [done|]. destruct (rank x), (rank y); try done. intros ->. by apply lex_irrefl in Hc.
  - split; [done|]. by destruct Hc as [-> | ->]; [|destruct (rank x)].
Qed.

(** ** Shifting and rounding *)

(** [m] shifted right by [k] bits: the quotient, and where the remainder lies. *)
Definition shifted (m k : Z) (mrs : shr_record) : Prop :=
  0 <= k /\ ∃ low, 0 <= low < 2 ^ k /\ m = shr_m mrs * 2 ^ k + low /\ 0 <= shr_m mrs
                   /\ shr_r mrs = (2 ^ k <=? 2 * low)
                   /\ shr_s mrs = negb (low =? 0) && negb (2 * low =? 2 ^ k).

Lemma shifted_0 m : 0 <= m -> shifted m 0 (Build_shr_record m false false).
Proof. intros Hm. split; [done|]. exists 0. cbn [shr_m shr_r shr_s]. split_and!; try done; lia. Qed.

Lemma shr_1_spec M r s :
  0 <= M -> shr_1 (Build_shr_record M r s) = Build_shr_record (M / 2) (Z.odd M) (r || s).
Proof.
  intros HM. rewrite <- Z.div2_div. destruct M as [|p|p]; [done| |lia]. destruct p; done.
Qed.

Lemma shifted_1 m k mrs : shifted m k mrs -> shifted m (k + 1) (shr_1 mrs).
Proof.
  intros (Hk & low & Hlow & Em & HM & Er & Es). destruct mrs as [M r s]. cbn [shr_m shr_r shr_s] in *. rewrite shr_1_spec by done.
  split; [lia|]. exists ((if Z.odd M then 2 ^ k else 0) + low). cbn [shr_m shr_r shr_s].
  assert (2 ^ (k + 1) = 2 * 2 ^ k) as E2 by (rewrite Z.pow_add_r by lia; lia). rewrite E2.
  pose proof (Z.div_mod M 2 ltac:(lia)) as Hdm. rewrite Zmod_odd in Hdm.
  assert (0 <= M / 2) by (apply Z.div_pos; lia). subst r s.
  destruct (Z.odd M); split_and!; nia.
Qed.

Lemma shifted_iter m p : ∀ k mrs, shifted m k mrs -> shifted m (k + Zpos p) (iter_pos shr_1 p mrs).
Proof.
  induction p as [p IH|p IH|]; intros k mrs Hs; cbn [iter_pos].
  - replace (k + Zpos p~1) with (k + 1 + Zpos p + Zpos p) by lia. by apply IH, IH, shifted_1.
  - replace (k + Zpos p~0) with (k + Zpos p + Zpos p) by lia. by apply IH, IH.
  - by apply shifted_1.
Qed.

(** [q] is the nearest integer to [m / 2 ^ n], the even one of two. *)
Definition nearest (m n q : Z) : Prop :=
  - 2 ^ n <= 2 * (q * 2 ^ n - m) <= 2 ^ n
  /\ (2 * (q * 2 ^ n - m) = 2 ^ n \/ 2 * (q * 2 ^ n - m) = - 2 ^ n -> Z.even q = true).

Lemma round_nearest m k mrs :
  shifted m k mrs -> nearest m k (round_nearest_even (shr_m mrs) (loc_of_shr_record mrs)).
Proof.
  intros (Hk & low & Hlow & Em & HM & Er & Es). destruct mrs as [M r s]. cbn [shr_m shr_r shr_s] in *.
  subst r s. unfold nearest.
  destruct (Z.leb_spec (2 ^ k) (2 * low)), (Z.eqb_spec low 0), (Z.eqb_spec (2 * low) (2 ^ k)); try lia;
    cbn [negb andb loc_of_shr_record round_nearest_even]; try (split; [nia|intros [?|?]; nia]).
  destruct (Z.even M) eqn:Ev; (split; [nia|]); intros _; [done|].
  by rewrite Z.even_add, Ev.
Qed.

Lemma nearest_mono m1 n m2 q1 q2 : nearest m1 n q1 -> nearest m2 n q2 -> 0 <= n -> m1 <= m2 -> q1 <= q2.
Proof.
  intros [B1 T1] [B2 T2] Hn Hm. apply Z.nlt_ge. intros Hq. pose proof (Z.pow_pos_nonneg 2 n ltac:(lia) Hn).
  assert (q1 = q2 + 1) as -> by nia.
  assert (2 * ((q2 + 1) * 2 ^ n - m1) = 2 ^ n) as E1 by nia. assert (2 * (q2 * 2 ^ n - m2) = - 2 ^ n) as E2 by nia.
  specialize (T1 (or_introl E1)). specialize (T2 (or_intror E2)). rewrite Z.even_add, T2 in T1. done.
Qed.

Lemma nearest_bounds m n q lo hi : nearest m n q -> 0 <= n -> lo * 2 ^ n <= m <= hi * 2 ^ n -> lo <= q <= hi.
Proof.
  intros [B T] Hn [Hlo Hhi]. pose proof (Z.pow_pos_nonneg 2 n ltac:(lia) Hn). split; nia.
Qed.

Section rounding.
Context (prec emax : Z) (Hprec : 2 <= prec).

Local Abbreviation fexp := (fexp prec emax).
Local Abbreviation emin := (emin prec emax).

(** The rounded mantissa [q] at exponent [e], in canonical form. *)
Definition normal_form (s : bool) (q e : Z) : spec_float :=
  match q with
  | Zpos m =>
      let '(m, e) := if q =? 2 ^ prec then (Z.to_pos (2 ^ (prec - 1)), e + 1) else (m, e) in
      if e <=? emax - prec then S754_finite s m e else S754_infinity s
  | _ => S754_zero s
  end.

Lemma shr_none mrs e n : n <= 0 -> shr mrs e n = (mrs, e).
Proof. by destruct n. Qed.

Lemma shr_spec m e n : 0 <= m -> 0 <= n -> ∃ mrs, shr (Build_shr_record m false false) e n = (mrs, e + n) /\ shifted m n mrs.
Proof.
  intros Hm Hn. destruct n as [|p|p]; [|cbn|lia].
  - eexists. cbn. rewrite Z.add_0_r. split; [done|by apply shifted_0].
  - eexists. split; [done|]. change (Zpos p) with (0 + Zpos p). by apply shifted_iter, shifted_0.
Qed.

Definition digits (m : Z) : Z := Z.log2 m + 1.

Lemma digits_spec m : 0 < m -> 2 ^ (digits m - 1) <= m < 2 ^ digits m.
Proof. intros Hm. unfold digits. pose proof (Z.log2_spec m Hm). replace (Z.log2 m + 1 - 1) with (Z.log2 m) by lia. by rewrite Z.add_1_r. Qed.

Lemma Zdigits2_digits m : 0 < m -> Zdigits2 m = digits m.
Proof. intros Hm. destruct m; [lia| |lia]. apply digits2_log. Qed.

(** What rounding computes: the nearest multiple of the unit of the result. *)
Lemma round_aux_spec s m ex :
  0 < m -> ex <= fexp (digits m + ex) ->
  let e := fexp (digits m + ex) in
  ∃ q, nearest m (e - ex) q /\ 0 <= q <= 2 ^ prec /\ (emin < e -> 2 ^ (prec - 1) <= q)
       /\ binary_round_aux prec emax s m ex loc_Exact = normal_form s q e.
Proof.
  intros Hm He e. pose proof (digits_spec m Hm) as Hd. unfold binary_round_aux, shr_fexp. rewrite Zdigits2_digits by done.
  cbn [shr_record_of_loc]. fold e. destruct (shr_spec m ex (e - ex) ltac:(lia) ltac:(lia)) as (mrs & -> & Hs).
  pose proof (round_nearest m (e - ex) mrs Hs) as Hn. set (q := round_nearest_even _ _) in *.
  replace (ex + (e - ex)) with e by lia.
  assert (emin <= e) as Hemin by (unfold e, fexp; lia).
  assert (e = emin \/ e = digits m + ex - prec) as He' by (unfold e, fexp; lia).
  assert (m <= 2 ^ prec * 2 ^ (e - ex)) as Hup.
  { rewrite <- Z.pow_add_r by lia. transitivity (2 ^ digits m); [lia|]. apply Z.pow_le_mono_r; [lia|]. unfold e, fexp. lia. }
  destruct (nearest_bounds m (e - ex) q 0 (2 ^ prec) Hn ltac:(lia) ltac:(lia)) as [Hq0 Hqhi].
  assert (emin < e -> 2 ^ (prec - 1) <= q) as Hqlo.
  { intros Hlt. apply (nearest_bounds m (e - ex) q (2 ^ (prec - 1)) (2 ^ prec) Hn ltac:(lia)). split; [|done].
    rewrite <- Z.pow_add_r by lia. replace (prec - 1 + (e - ex)) with (digits m - 1) by lia. lia. }
  exists q. split; [done|]. split; [done|]. split; [done|]. unfold normal_form.
  destruct q as [|p|p]; [| |lia].
  - rewrite shr_none; [done|]. cbn. unfold fexp. lia.
  - rewrite Zdigits2_digits by done. pose proof (digits_spec (Zpos p) ltac:(lia)) as Hdp.
    destruct (Z.eqb_spec (Zpos p) (2 ^ prec)) as [E|E].
    + assert (digits (Zpos p) = prec + 1) as -> by (rewrite E; unfold digits; rewrite Z.log2_pow2; lia).
      destruct (shr_spec (Zpos p) e 1 ltac:(lia) ltac:(lia)) as (mrs' & Es & (_ & low & Hlow & Em & _)).
      replace (fexp (prec + 1 + e) - e) with 1 by (unfold fexp; lia). rewrite Es.
      assert (2 ^ prec = 2 * 2 ^ (prec - 1)) as E2 by (rewrite <- Z.pow_succ_r by lia; f_equal; lia).
      change (2 ^ 1) with 2 in *. assert (shr_m mrs' = 2 ^ (prec - 1)) as -> by lia.
      pose proof (Z.pow_pos_nonneg 2 (prec - 1) ltac:(lia) ltac:(lia)). by destruct (2 ^ (prec - 1)).
    + rewrite shr_none; [done|]. assert (digits (Zpos p) <= prec); [|unfold fexp; lia].
      apply Z.nlt_ge. intros Hlt. assert (2 ^ prec <= 2 ^ (digits (Zpos p) - 1)) by (apply Z.pow_le_mono_r; lia). lia.
Qed.

Lemma half_prec : 2 ^ prec = 2 * 2 ^ (prec - 1) /\ 1 <= 2 ^ (prec - 1).
Proof.
  split; [rewrite <- Z.pow_succ_r by lia; f_equal; lia|]. pose proof (Z.pow_pos_nonneg 2 (prec - 1)). lia.
Qed.

Lemma normal_form_mono q1 e1 q2 e2 :
  0 <= q1 <= 2 ^ prec -> 0 <= q2 <= 2 ^ prec ->
  (e1 = e2 /\ q1 <= q2) \/ (e1 < e2 /\ 2 ^ (prec - 1) <= q2) ->
  ranked lex_le (normal_form false q1 e1) (normal_form false q2 e2).
Proof.
  intros H1 H2 Hc. destruct half_prec as [E2 Hp]. unfold normal_form, lex_le, lex_lt.
  destruct q1 as [|m1|m1], q2 as [|m2|m2]; try lia.
  - by right.
  - destruct (Z.eqb_spec (Zpos m2) (2 ^ prec)); case_match; left; lia.
  - destruct (Z.eqb_spec (Zpos m1) (2 ^ prec)), (Z.eqb_spec (Zpos m2) (2 ^ prec));
      repeat match goal with |- context [?a <=? ?b] => destruct (Z.leb_spec a b) end;
      unfold ranked; cbn [rank]; rewrite ?Z2Pos.id by lia;
      try (left; lia); try (right; done); try lia.
    + destruct (Z.eq_dec e1 e2) as [->|]; [right; do 2 f_equal; lia|left; lia].
    + destruct (Z.eq_dec (e1 + 1) e2) as [<-|]; [|left; lia]. destruct (Z.eq_dec (2 ^ (prec - 1)) (Zpos m2)) as [->|]; [by right|left; lia].
    + destruct (Z.eq_dec e1 e2) as [<-|]; [|left; lia]. destruct (Z.eq_dec (Zpos m1) (Zpos m2)) as [->|]; [by right|left; lia].
Qed.

Lemma nearest_scale m n q j : 0 <= j -> 0 <= n -> nearest m n q -> nearest (m * 2 ^ j) (n + j) q.
Proof.
  intros Hj Hn [B Tie]. unfold nearest. rewrite Z.pow_add_r by lia. pose proof (Z.pow_pos_nonneg 2 j ltac:(lia) Hj).
  split; [nia|]. intros Heq. apply Tie. nia.
Qed.

(** Rounding keeps the order of exact positive numbers. *)
Lemma round_aux_mono m1 ex1 m2 ex2 K :
  0 < m1 -> 0 < m2 -> ex1 <= fexp (digits m1 + ex1) -> ex2 <= fexp (digits m2 + ex2) ->
  0 <= ex1 + K -> 0 <= ex2 + K -> m1 * 2 ^ (ex1 + K) <= m2 * 2 ^ (ex2 + K) ->
  ranked lex_le (binary_round_aux prec emax false m1 ex1 loc_Exact) (binary_round_aux prec emax false m2 ex2 loc_Exact).
Proof.
  intros Hm1 Hm2 He1 He2 HK1 HK2 Hle.
  destruct (round_aux_spec false m1 ex1 Hm1 He1) as (q1 & Hn1 & Hq1 & Hlo1 & ->).
  destruct (round_aux_spec false m2 ex2 Hm2 He2) as (q2 & Hn2 & Hq2 & Hlo2 & ->).
  set (e1 := fexp (digits m1 + ex1)) in *. set (e2 := fexp (digits m2 + ex2)) in *.
  assert (digits m1 + ex1 <= digits m2 + ex2) as Hd.
  { apply Z.nlt_ge. intros Hlt. pose proof (digits_spec m1 Hm1) as D1. pose proof (digits_spec m2 Hm2) as D2.
    assert (0 <= digits m1 - 1) by (unfold digits; pose proof (Z.log2_nonneg m1); lia).
    assert (0 <= digits m2) by (unfold digits; pose proof (Z.log2_nonneg m2); lia).
    assert (2 ^ digits m2 * 2 ^ (ex2 + K) <= 2 ^ (digits m1 - 1) * 2 ^ (ex1 + K)).
    { rewrite <- !Z.pow_add_r by lia. apply Z.pow_le_mono_r; lia. }
    pose proof (Z.pow_pos_nonneg 2 (ex1 + K) ltac:(lia) HK1). pose proof (Z.pow_pos_nonneg 2 (ex2 + K) ltac:(lia) HK2). nia. }
  assert (e1 <= e2) as Hee by (unfold e1, e2, fexp; lia).
  assert (emin <= e1) by (unfold e1, fexp; lia).
  apply normal_form_mono; [done..|]. destruct (Z.eq_dec e1 e2) as [E|E]; [left|right; split; [lia|apply Hlo2; lia]].
  split; [done|]. apply (nearest_scale _ _ _ (ex1 + K)) in Hn1; [|lia..]. apply (nearest_scale _ _ _ (ex2 + K)) in Hn2; [|lia..].
  replace (e1 - ex1 + (ex1 + K)) with (e1 + K) in Hn1 by lia. replace (e2 - ex2 + (ex2 + K)) with (e1 + K) in Hn2 by lia.
  by apply (nearest_mono _ (e1 + K) _ _ _ Hn1 Hn2); [lia|].
Qed.

Lemma round_aux_opp m ex : binary_round_aux prec emax true m ex loc_Exact = SFopp (binary_round_aux prec emax false m ex loc_Exact).
Proof.
  unfold binary_round_aux. destruct (shr_fexp _ _ _ _ _) as [mrs e]. destruct (shr_fexp _ _ _ _ _) as [mrs' e'].
  destruct (shr_m mrs') as [|p|p]; [done| |done]. by destruct (_ <=? _).
Qed.

Definition lex_opp (a : Z * Z * Z) : Z * Z * Z := let '(a1, a2, a3) := a in (- a1, - a2, - a3).

Lemma rank_opp x : rank (SFopp x) = lex_opp <$> rank x.
Proof. destruct x as [s|s| |s m e]; cbn; try done; destruct s; cbn; by rewrite ?Z.opp_involutive. Qed.

Lemma ranked_opp x y : ranked lex_le x y -> ranked lex_le (SFopp y) (SFopp x).
Proof.
  unfold ranked. rewrite !rank_opp. destruct (rank x) as [[[a1 a2] a3]|], (rank y) as [[[b1 b2] b3]|]; try done.
  unfold lex_le, lex_lt. cbn. intros [Hlt|[= -> -> ->]]; [left; lia|by right].
Qed.

(** The rounding of an exact number [v * 2 ^ ex]. *)
Definition rounded_of (v ex : Z) (x : spec_float) : Prop :=
  match v with
  | Z0 => ∃ s, x = S754_zero s
  | Zpos m => x = binary_round_aux prec emax false (Zpos m) ex loc_Exact /\ ex <= fexp (digits (Zpos m) + ex)
  | Zneg m => x = binary_round_aux prec emax true (Zpos m) ex loc_Exact /\ ex <= fexp (digits (Zpos m) + ex)
  end.

Lemma normal_form_sign s q e : 0 <= q -> 
  match rank (normal_form s q e) with Some a => if s then lex_le a (0, 0, 0) else lex_le (0, 0, 0) a | None => False end.
Proof.
  intros Hq. unfold normal_form, lex_le, lex_lt. destruct q as [|p|p]; [by destruct s; right| |lia].
  destruct (Zpos p =? 2 ^ prec); destruct (_ <=? emax - prec), s; cbn; left; lia.
Qed.

Lemma round_aux_sign s m ex :
  0 < m -> ex <= fexp (digits m + ex) ->
  match rank (binary_round_aux prec emax s m ex loc_Exact) with
  | Some a => if s then lex_le a (0, 0, 0) else lex_le (0, 0, 0) a
  | None => False
  end.
Proof.
  intros Hm He. destruct (round_aux_spec s m ex Hm He) as (q & _ & Hq & _ & ->). apply normal_form_sign. lia.
Qed.

Lemma lex_le_trans a b c : lex_le a b -> lex_le b c -> lex_le a c.
Proof. intros [Hab| ->] [Hbc| ->]; [left; by eapply lex_trans|by left|by left|by right]. Qed.

Lemma rounded_mono v1 ex1 x1 v2 ex2 x2 K :
  rounded_of v1 ex1 x1 -> rounded_of v2 ex2 x2 -> 0 <= ex1 + K -> 0 <= ex2 + K ->
  v1 * 2 ^ (ex1 + K) <= v2 * 2 ^ (ex2 + K) -> ranked lex_le x1 x2.
Proof.
  intros H1 H2 HK1 HK2 Hle. pose proof (Z.pow_pos_nonneg 2 (ex1 + K) ltac:(lia) HK1). pose proof (Z.pow_pos_nonneg 2 (ex2 + K) ltac:(lia) HK2).
  destruct v1 as [|m1|m1], v2 as [|m2|m2]; cbn [rounded_of] in *; try (exfalso; nia).
  - destruct H1 as [s ->], H2 as [t ->]. by right.
  - destruct H1 as [s ->], H2 as [-> He]. pose proof (round_aux_sign false (Zpos m2) ex2 ltac:(lia) He) as Hs.
    unfold ranked. cbn [rank]. by destruct (rank _).
  - destruct H1 as [-> He1], H2 as [-> He2]. by apply (round_aux_mono _ _ _ _ K).
  - destruct H1 as [-> He], H2 as [t ->]. pose proof (round_aux_sign true (Zpos m1) ex1 ltac:(lia) He) as Hs.
    unfold ranked. by destruct (rank (binary_round_aux _ _ _ _ _ _)).
  - destruct H1 as [-> He1], H2 as [-> He2]. pose proof (round_aux_sign true (Zpos m1) ex1 ltac:(lia) He1) as Hs1.
    pose proof (round_aux_sign false (Zpos m2) ex2 ltac:(lia) He2) as Hs2. unfold ranked.
    destruct (rank (binary_round_aux prec emax true _ _ _)), (rank (binary_round_aux prec emax false _ _ _)); try done.
    by eapply lex_le_trans.
  - destruct H1 as [-> He1], H2 as [-> He2]. rewrite !round_aux_opp. apply ranked_opp.
    apply (round_aux_mono _ _ _ _ K); try done; nia.
Qed.

Lemma normal_form_valid s q e :
  0 <= q <= 2 ^ prec -> emin <= e -> (emin < e -> 2 ^ (prec - 1) <= q) -> valid_binary prec emax (normal_form s q e) = true.
Proof.
  intros Hq He Hlo. destruct half_prec as [E2 Hp]. unfold normal_form. destruct q as [|p|p]; [done| |lia].
  assert (∀ m e, emin <= e -> e <= emax - prec -> digits (Zpos m) <= prec -> (emin < e -> prec <= digits (Zpos m)) ->
                 valid_binary prec emax (S754_finite s m e) = true) as Hv.
  { intros m e' H1 H2 H3 H4. cbn. unfold bounded, canonical_mantissa, SpecFloat.fexp. rewrite digits2_log. fold (digits (Zpos m)).
    apply andb_true_intro. split; [apply Z.eqb_eq; lia|by apply Z.leb_le]. }
  pose proof (digits_spec (Zpos p) ltac:(lia)) as Hd. destruct (Z.eqb_spec (Zpos p) (2 ^ prec)) as [E|E].
  - destruct (Z.leb_spec (e + 1) (emax - prec)); [|done]. apply Hv; try lia; rewrite Z2Pos.id by lia;
      unfold digits; rewrite Z.log2_pow2; lia.
  - destruct (Z.leb_spec e (emax - prec)); [|done]. apply Hv; try lia.
    + apply Z.nlt_ge. intros Hlt. assert (2 ^ prec <= 2 ^ (digits (Zpos p) - 1)) by (apply Z.pow_le_mono_r; lia). lia.
    + intros Hlt. apply Z.nlt_ge. intros Hlt'. assert (2 ^ digits (Zpos p) <= 2 ^ (prec - 1)) by (apply Z.pow_le_mono_r; lia). lia.
Qed.

Lemma rounded_valid v ex x : rounded_of v ex x -> valid_binary prec emax x = true.
Proof.
  assert (∀ s m, 0 < m -> ex <= fexp (digits m + ex) -> valid_binary prec emax (binary_round_aux prec emax s m ex loc_Exact) = true) as Hr.
  { intros s m Hm He. destruct (round_aux_spec s m ex Hm He) as (q & _ & Hq & Hlo & ->).
    apply normal_form_valid; [done| |done]. unfold fexp. lia. }
  destruct v; cbn [rounded_of]; [intros [s ->]; done| |]; intros [-> He]; by apply Hr.
Qed.

(** The conversion of an integer, and a product, are roundings of exact numbers. *)
Lemma normalize_rounded v :
  ∃ v' ex, ex <= 0 /\ v' = v * 2 ^ (- ex) /\ rounded_of v' ex (binary_normalize prec emax v 0 false).
Proof.
  assert (∀ m, ∃ mz ez, shl_align m 0 (fexp (Zpos (digits2_pos m) + 0)) = (mz, ez) /\ ez <= 0
                        /\ Zpos mz = Zpos m * 2 ^ (- ez) /\ ez <= fexp (digits (Zpos mz) + ez)) as Hs.
  { intros m. unfold shl_align. rewrite digits2_log. fold (digits (Zpos m)). rewrite Z.add_0_r, Z.sub_0_r.
    destruct (fexp (digits (Zpos m))) as [|p|p] eqn:Ef.
    - exists m, 0. split_and!; try done; [cbn; lia|]. rewrite Z.add_0_r, Ef. done.
    - exists m, 0. split_and!; try done; [cbn; lia|]. rewrite Z.add_0_r, Ef. done.
    - exists (Pos.iter xO m p), (Zneg p). split; [done|]. split; [done|].
      assert (∀ p, Zpos (Pos.iter xO m p) = Zpos m * 2 ^ Zpos p) as Hi.
      { intros k. pattern k. apply Pos.peano_ind; [cbn; lia|]. intros j IH. rewrite Pos.iter_succ, Pos2Z.inj_succ, Z.pow_succ_r by lia. lia. }
      split; [apply Hi|]. rewrite Hi. unfold digits. rewrite Z.log2_mul_pow2 by lia.
      replace (_ + 1 + Zneg p) with (digits (Zpos m)) by (unfold digits; lia). by rewrite Ef. }
  destruct v as [|m|m]; cbn [binary_normalize].
  - exists 0, 0. split; [done|]. split; [done|]. by exists false.
  - destruct (Hs m) as (mz & ez & Ea & Hz & Em & He). exists (Zpos mz), ez. split; [done|]. split; [done|].
    unfold binary_round. rewrite Ea. by split.
  - destruct (Hs m) as (mz & ez & Ea & Hz & Em & He). exists (Zneg mz), ez. split; [done|]. split; [lia|].
    unfold binary_round. rewrite Ea. by split.
Qed.

(** ** Multiplication *)

Lemma canonical_digits m e :
  bounded prec emax m e = true -> digits (Zpos m) <= prec /\ emin <= e /\ (emin < e -> digits (Zpos m) = prec).
Proof.
  unfold bounded, canonical_mantissa, SpecFloat.fexp. rewrite digits2_log. fold (digits (Zpos m)). intros [H _]%andb_prop.
  apply Z.eqb_eq in H. lia.
Qed.

(** Canonical numbers are ordered as their exact values. *)
Lemma canonical_order m e n f K :
  bounded prec emax m e = true -> bounded prec emax n f = true -> 0 <= e + K -> 0 <= f + K ->
  e < f \/ (e = f /\ Zpos m <= Zpos n) -> Zpos m * 2 ^ (e + K) <= Zpos n * 2 ^ (f + K).
Proof.
  intros Hm Hn HK1 HK2 [Hlt|[-> Hle]]; [|pose proof (Z.pow_nonneg 2 (f + K)); nia].
  destruct (canonical_digits m e Hm) as (Dm & He & _). destruct (canonical_digits n f Hn) as (_ & _ & Dn). specialize (Dn ltac:(lia)).
  pose proof (digits_spec (Zpos m) ltac:(lia)) as [_ Um]. pose proof (digits_spec (Zpos n) ltac:(lia)) as [Ln _].
  assert (2 ^ digits (Zpos m) <= 2 ^ prec) by (apply Z.pow_le_mono_r; lia). rewrite Dn in Ln.
  assert (2 ^ prec * 2 ^ (e + K) <= 2 ^ (prec - 1) * 2 ^ (f + K)).
  { rewrite <- !Z.pow_add_r by lia. apply Z.pow_le_mono_r; lia. }
  pose proof (Z.pow_pos_nonneg 2 (e + K) ltac:(lia) HK1). pose proof (Z.pow_pos_nonneg 2 (f + K) ltac:(lia) HK2). nia.
Qed.

(** The exact value of a number that is not infinite. *)
Definition exact (x : spec_float) : Z * Z :=
  match x with S754_finite s m e => (if s then Zneg m else Zpos m, e) | _ => (0, 0) end.

Definition is_infinite (x : spec_float) : bool := match x with S754_infinity _ => true | _ => false end.

Lemma exact_order x y K :
  valid_binary prec emax x = true -> valid_binary prec emax y = true -> is_infinite x = false -> is_infinite y = false ->
  ranked lex_le x y -> 0 <= (exact x).2 + K -> 0 <= (exact y).2 + K ->
  (exact x).1 * 2 ^ ((exact x).2 + K) <= (exact y).1 * 2 ^ ((exact y).2 + K).
Proof.
  intros Vx Vy Ix Iy Hr HKx HKy. unfold ranked, lex_le, lex_lt in Hr.
  destruct x as [s|s| |s m e], y as [t|t| |t n f]; try done; cbn [exact fst snd rank] in *; try lia.
  - destruct t; [destruct Hr as [?|[=]]; lia|]. pose proof (Z.pow_nonneg 2 (f + K)). lia.
  - destruct s; [|destruct Hr as [?|[=]]; lia]. pose proof (Z.pow_nonneg 2 (e + K)). lia.
  - pose proof (Z.pow_nonneg 2 (f + K)). pose proof (Z.pow_nonneg 2 (e + K)).
    destruct s, t; [|lia|destruct Hr as [?|[=]]; lia|].
    + pose proof (canonical_order n f m e K Vy Vx HKy HKx) as Ho. enough (Zpos n * 2 ^ (f + K) <= Zpos m * 2 ^ (e + K)) by lia.
      apply Ho. destruct Hr as [Hr|[= He Hm]]; lia.
    + apply canonical_order; try done. destruct Hr as [Hr|[= He Hm]]; lia.
Qed.

Lemma mul_rounded x mc ec :
  valid_binary prec emax x = true -> is_infinite x = false -> x ≠ S754_nan -> prec <= digits (Zpos mc) ->
  rounded_of ((exact x).1 * Zpos mc) ((exact x).2 + (match x with S754_finite _ _ _ => ec | _ => 0 end))
    (SFmul prec emax x (S754_finite false mc ec)).
Proof.
  intros Vx Ix Nx Hc. destruct x as [s|s| |s m e]; try done; cbn [exact fst snd SFmul].
  { by exists (xorb s false). }
  assert (e + ec <= fexp (digits (Zpos (m * mc)) + (e + ec))) as He.
  { assert (prec <= digits (Zpos (m * mc))); [|unfold SpecFloat.fexp; lia].
    etransitivity; [exact Hc|]. unfold digits. apply Zplus_le_compat_r, Z.log2_le_mono. nia. }
  destruct s; cbn; by split.
Qed.

Lemma rank_top x a : rank x = Some a -> lex_le a (2, 0, 0) /\ lex_le (-2, 0, 0) a.
Proof.
  unfold lex_le, lex_lt. destruct x as [s|s| |s m e]; intros [= <-]; [split; left; lia|destruct s|destruct s; split; left; lia].
  - split; [left; lia|by right].
  - split; [by right|left; lia].
Qed.

Lemma rounded_rank v ex x : rounded_of v ex x -> is_Some (rank x).
Proof.
  destruct v as [|m|m]; cbn [rounded_of]; [intros [s ->]; by eexists| |]; intros [-> He].
  - pose proof (round_aux_sign false (Zpos m) ex ltac:(lia) He). destruct (rank _); [by eexists|done].
  - pose proof (round_aux_sign true (Zpos m) ex ltac:(lia) He). destruct (rank _); [by eexists|done].
Qed.

(** Multiplying by a positive number keeps the order. *)
Lemma mul_mono x y mc ec :
  valid_binary prec emax x = true -> valid_binary prec emax y = true -> prec <= digits (Zpos mc) ->
  ranked lex_le x y -> ranked lex_le (SFmul prec emax x (S754_finite false mc ec)) (SFmul prec emax y (S754_finite false mc ec)).
Proof.
  intros Vx Vy Hc Hr. assert (x ≠ S754_nan) as Nx by (intros ->; done). assert (y ≠ S754_nan) as Ny by (intros ->; unfold ranked in Hr; by destruct (rank x)).
  assert (∀ z, valid_binary prec emax z = true -> z ≠ S754_nan -> is_Some (rank (SFmul prec emax z (S754_finite false mc ec)))) as Hs.
  { intros z Vz Nz. destruct (is_infinite z) eqn:Iz; [destruct z; try done; by eexists|]. by eapply rounded_rank, mul_rounded. }
  destruct (is_infinite x) eqn:Ix, (is_infinite y) eqn:Iy.
  - destruct x as [|s| |], y as [|t| |]; try done. destruct s, t; done.
  - destruct x as [|[]| |]; try done.
    + destruct (Hs y Vy Ny) as [a Ha]. unfold ranked. cbn [SFmul xorb rank]. rewrite Ha. by apply rank_top in Ha as [_ Ha].
    + exfalso. unfold ranked, lex_le, lex_lt in Hr. destruct y as [t|t| |t n f]; try done; cbn in Hr; try destruct t; destruct Hr as [|[=]]; lia.
  - destruct y as [|[]| |]; try done.
    + exfalso. unfold ranked, lex_le, lex_lt in Hr. destruct x as [t|t| |t n f]; try done; cbn in Hr; try destruct t; destruct Hr as [|[=]]; lia.
    + destruct (Hs x Vx Nx) as [a Ha]. unfold ranked. cbn [SFmul xorb rank]. rewrite Ha. by apply rank_top in Ha as [Ha _].
  - pose proof (mul_rounded x mc ec Vx Ix Nx Hc) as Rx. pose proof (mul_rounded y mc ec Vy Iy Ny Hc) as Ry.
    set (kx := match x with S754_finite _ _ _ => ec | _ => 0 end) in *. set (ky := match y with S754_finite _ _ _ => ec | _ => 0 end) in *.
    set (K := Z.abs (exact x).2 + Z.abs (exact y).2 + Z.abs ec + Z.abs ec).
    assert (Z.abs kx <= Z.abs ec /\ Z.abs ky <= Z.abs ec) as [Hkx Hky] by (unfold kx, ky; destruct x, y; cbn; lia).
    apply (rounded_mono _ _ _ _ _ _ K Rx Ry); [unfold K; lia..|].
    pose proof (exact_order x y (K - Z.abs ec + ec) Vx Vy Ix Iy Hr) as Ho.
    assert (∀ z k, (z = x /\ k = kx) \/ (z = y /\ k = ky) ->
      (exact z).1 * Zpos mc * 2 ^ ((exact z).2 + k + K) = Zpos mc * 2 ^ (Z.abs ec) * ((exact z).1 * 2 ^ ((exact z).2 + (K - Z.abs ec + ec)))) as Hz.
    { intros z k Hzk. assert ((exact z).1 = 0 \/ k = ec) as [E| ->].
      { unfold kx, ky in Hzk. destruct z; cbn; [by left..|]. destruct Hzk as [[<- ->]|[<- ->]]; by right. }
      - rewrite E. lia.
      - replace ((exact z).2 + ec + K) with (Z.abs ec + ((exact z).2 + (K - Z.abs ec + ec))) by lia.
        rewrite Z.pow_add_r; [lia|lia|]. unfold K. destruct Hzk as [[-> _]|[-> _]]; lia. }
    rewrite (Hz x kx), (Hz y ky) by auto. apply Z.mul_le_mono_nonneg_l; [|apply Ho; unfold K; lia].
    pose proof (Z.pow_nonneg 2 (Z.abs ec)). lia.
Qed.
End rounding.

(** ** On words *)

Section on_words.
Context (F : FloatFormat) {Fok : FormatOk F}.

Local Abbreviation mb := (fl_prec F - 1).
Local Abbreviation eb := (fl_width F - fl_prec F).

Lemma word_of_fields s mag :
  0 <= mag < 2 ^ mb * 2 ^ eb ->
  sign_bit F (word_of F s mag) = s /\ exponent_field F (word_of F s mag) = mag / 2 ^ mb
  /\ mantissa_field F (word_of F s mag) = mag mod 2 ^ mb.
Proof.
  intros Hm. destruct (word_split F) as (E1 & E2 & HM & HE). destruct Fok as [Hp Hw _]. unfold word_of.
  rewrite E1. set (M := 2 ^ mb) in *. set (E := 2 ^ eb) in *.
  rewrite wrapu_id by (rewrite E2; destruct s; nia).
  assert ((if s then M * E else 0) = (if s then E else 0) * M) as Es by (destruct s; lia). rewrite Es.
  unfold sign_bit, exponent_field, mantissa_field. fold M E.
  rewrite (Z.add_comm _ mag), Z.div_add, Z_mod_plus_full by lia. split; [|split; [|done]].
  - rewrite Z.testbit_odd, Z.shiftr_div_pow2, E1 by lia.
    destruct s; [|by rewrite Z.div_small by lia].
    replace (mag + E * M) with (mag + 1 * (M * E)) by lia. by rewrite Z.div_add, Z.div_small by nia.
  - assert (0 <= mag / M < E) as Hr by (split; [apply Z.div_pos; lia|apply Z.div_lt_upper_bound; lia]).
    destruct s; [|by rewrite Z.add_0_r, Z.mod_small].
    replace (mag / M + E) with (mag / M + 1 * E) by lia. by rewrite Z_mod_plus_full, Z.mod_small.
Qed.

(** Encoding loses nothing either. *)
Lemma of_to_bits x : valid_binary (fl_prec F) (fl_emax F) x = true -> of_bits F (to_bits F x) = x.
Proof.
  intros Hv. destruct (word_split F) as (E1 & E2 & HM & HE). destruct Fok as [Hp Hw Hmax].
  assert (2 ^ eb = 2 * fl_emax F) as EE by (rewrite Hmax, <- Z.pow_succ_r by lia; f_equal; lia).
  assert (2 ^ mb = 2 * 2 ^ (mb - 1)) as EM by (rewrite <- Z.pow_succ_r by lia; f_equal; lia).
  assert (∀ s e m, 0 <= e < 2 ^ eb -> 0 <= m < 2 ^ mb ->
            of_bits F (word_of F s (e * 2 ^ mb + m))
            = if e =? top_exponent F then if m =? 0 then S754_infinity s else S754_nan
              else if e =? 0 then match m with Zpos p => S754_finite s p (emin (fl_prec F) (fl_emax F)) | _ => S754_zero s end
              else S754_finite s (Z.to_pos (m + 2 ^ mb)) (emin (fl_prec F) (fl_emax F) + e - 1)) as Hof.
  { intros s e m He Hm. destruct (word_of_fields s (e * 2 ^ mb + m) ltac:(nia)) as (Es & Ee & Em).
    assert ((e * 2 ^ mb + m) / 2 ^ mb = e) as Eq by (rewrite Z.add_comm, Z.div_add, Z.div_small by lia; lia).
    assert ((e * 2 ^ mb + m) mod 2 ^ mb = m) as Er by (rewrite Z.add_comm, Z_mod_plus_full; by apply Z.mod_small).
    unfold of_bits. by rewrite Es, Ee, Em, Eq, Er. }
  assert (0 <= top_exponent F < 2 ^ eb) as Htop by (unfold top_exponent; lia).
  destruct x as [s|s| |s m e]; cbn [to_bits].
  - replace 0 with (0 * 2 ^ mb + 0) by lia. rewrite Hof by lia. replace (0 =? top_exponent F) with false; [done|].
    unfold top_exponent. symmetry. apply Z.eqb_neq. lia.
  - rewrite <- (Z.add_0_r (top_exponent F * 2 ^ mb)), Hof by lia. by rewrite Z.eqb_refl.
  - pose proof (Z.pow_pos_nonneg 2 (mb - 1) ltac:(lia) ltac:(lia)). rewrite Hof by lia. rewrite Z.eqb_refl.
    by replace (2 ^ (mb - 1) =? 0) with false by (symmetry; apply Z.eqb_neq; lia).
  - destruct (canonical_digits (fl_prec F) (fl_emax F) m e Hv) as (Dm & He & Dn).
    cbn [valid_binary] in Hv. apply andb_prop in Hv as [_ He2%Z.leb_le].
    pose proof (digits_spec (Zpos m) ltac:(lia)) as Hd.
    assert (Zpos m < 2 * 2 ^ mb) as Hm2.
    { rewrite <- Z.pow_succ_r by lia. eapply Z.lt_le_trans; [apply Hd|]. apply Z.pow_le_mono_r; lia. }
    assert (fl_emax F - fl_prec F = emin (fl_prec F) (fl_emax F) + (2 * fl_emax F - 3)) as Eemin by (unfold emin; lia).
    destruct (Z.ltb_spec (Zpos m) (2 ^ mb)) as [Hlt|Hge].
    + replace (Zpos m) with (0 * 2 ^ mb + Zpos m) by lia. rewrite Hof by lia.
      replace (0 =? top_exponent F) with false by (symmetry; apply Z.eqb_neq; unfold top_exponent; lia). cbn [Z.eqb]. f_equal.
      destruct (Z.eq_dec (emin (fl_prec F) (fl_emax F)) e) as [?|Hne]; [done|]. exfalso.
      rewrite (Dn ltac:(lia)) in Hd. lia.
    + rewrite Hof by lia. replace (_ =? top_exponent F) with false by (symmetry; apply Z.eqb_neq; unfold top_exponent; lia).
      replace (_ =? 0) with false by (symmetry; apply Z.eqb_neq; lia). f_equal; lia.
Qed.

(** A positive factor with a full mantissa. *)
Definition positive_normal (c : fl) : Prop :=
  match of_bits F c with S754_finite false m _ => fl_prec F <= digits (Zpos m) | _ => False end.

Lemma fl_of_Z_mono a b : a <= b -> fle F (fl_of_Z F a) (fl_of_Z F b) = true.
Proof.
  intros Hab. assert (2 <= fl_prec F) as Hp by (destruct Fok; lia). unfold fle, fl_of_Z.
  destruct (normalize_rounded (fl_prec F) (fl_emax F) a) as (va & ea & Ha & Ea & Ra).
  destruct (normalize_rounded (fl_prec F) (fl_emax F) b) as (vb & eb' & Hb & Eb & Rb).
  rewrite !of_to_bits by by eapply rounded_valid. apply leb_ranked.
  apply (rounded_mono _ _ Hp _ _ _ _ _ _ (- ea - eb') Ra Rb); [lia..|]. subst va vb.
  rewrite <- !Z.mul_assoc, <- !Z.pow_add_r by lia.
  replace (- ea + (ea + (- ea - eb'))) with (- ea - eb') by lia. replace (- eb' + (eb' + (- ea - eb'))) with (- ea - eb') by lia.
  apply Z.mul_le_mono_nonneg_r; [apply Z.pow_nonneg; lia|done].
Qed.

Lemma fmul_mono x y c : positive_normal c -> fle F x y = true -> fle F (fmul F x c) (fmul F y c) = true.
Proof.
  assert (2 <= fl_prec F) as Hp by (destruct Fok; lia). unfold positive_normal, fle, fmul, lift2.
  intros Hc Hle. apply leb_ranked in Hle. destruct (of_bits F c) as [| | |[] mc ec]; try done.
  pose proof (of_bits_valid F x) as Vx. pose proof (of_bits_valid F y) as Vy.
  assert (∀ z, valid_binary (fl_prec F) (fl_emax F) z = true ->
            valid_binary (fl_prec F) (fl_emax F) (SFmul (fl_prec F) (fl_emax F) z (S754_finite false mc ec)) = true) as Hv.
  { intros z Vz. destruct z as [s|s| |s m e]; try done. eapply rounded_valid; [done|].
    apply (mul_rounded _ _ (S754_finite s m e) mc ec); done. }
  rewrite !of_to_bits by by apply Hv. by apply leb_ranked, mul_mono.
Qed.

(** Comparisons as relations on ranks. *)
Definition key (x : fl) : option (Z * Z * Z) := rank (of_bits F x).

Lemma fle_key x y : fle F x y = true <-> ∃ a b, key x = Some a /\ key y = Some b /\ lex_le a b.
Proof.
  unfold fle, key. rewrite leb_ranked. unfold ranked. destruct (rank (of_bits F x)), (rank (of_bits F y)); naive_solver.
Qed.

Lemma flt_key x y : flt F x y = true <-> ∃ a b, key x = Some a /\ key y = Some b /\ lex_lt a b.
Proof.
  unfold flt, key. rewrite ltb_ranked. unfold ranked. destruct (rank (of_bits F x)), (rank (of_bits F y)); naive_solver.
Qed.

Lemma feq_key x y : feq F x y = true <-> ∃ a, key x = Some a /\ key y = Some a.
Proof.
  unfold feq, key. rewrite eqb_ranked. unfold ranked. destruct (rank (of_bits F x)), (rank (of_bits F y)); naive_solver.
Qed.
(** *** The total order of IEEE 754, as [total_cmp] computes it *)

Definition total_key (x : fl) : Z := if sign_bit F x then - fabs F x - 1 else fabs F x.

(** The rank of a positive number, from its bits without the sign. *)
Definition magnitude_key (mag : Z) : Z * Z * Z :=
  let e := mag / 2 ^ mb in
  let m := mag mod 2 ^ mb in
  if e =? top_exponent F then (2, 0, 0)
  else if e =? 0 then if m =? 0 then (0, 0, 0) else (1, emin (fl_prec F) (fl_emax F), m)
  else (1, emin (fl_prec F) (fl_emax F) + e - 1, m + 2 ^ mb).

Lemma fabs_fields x :
  fabs F x / 2 ^ mb = exponent_field F x /\ fabs F x mod 2 ^ mb = mantissa_field F x /\ 0 <= fabs F x < 2 ^ mb * 2 ^ eb.
Proof.
  destruct (word_split F) as (E1 & E2 & HM & HE). unfold fabs, exponent_field, mantissa_field. rewrite E1.
  set (M := 2 ^ mb) in *. set (E := 2 ^ eb) in *.
  rewrite (Z.rem_mul_r x M E) by lia.
  pose proof (Z.mod_pos_bound x M ltac:(lia)) as H1. pose proof (Z.mod_pos_bound (x / M) E ltac:(lia)) as H2.
  set (r := x mod M) in *. set (q := (x / M) mod E) in *. split; [|split].
  - symmetry. apply (Z.div_unique_pos _ _ _ r); lia.
  - symmetry. apply (Z.mod_unique_pos _ _ q); lia.
  - nia.
Qed.

Lemma key_magnitude x :
  is_nan F x = false ->
  key x = Some (if sign_bit F x then lex_opp (magnitude_key (fabs F x)) else magnitude_key (fabs F x))
  /\ 0 <= fabs F x <= top_exponent F * 2 ^ mb.
Proof.
  destruct (fabs_fields x) as (Ee & Em & H0). destruct (word_split F) as (_ & _ & HM & HE).
  unfold is_nan, key, magnitude_key. rewrite Ee, Em. intros Hn. unfold of_bits in *.
  assert (0 <= mantissa_field F x < 2 ^ mb) as Hm by (unfold mantissa_field; apply Z.mod_pos_bound; lia).
  assert (0 <= exponent_field F x < 2 ^ eb) as He by (unfold exponent_field; apply Z.mod_pos_bound; lia).
  assert (fabs F x = exponent_field F x * 2 ^ mb + mantissa_field F x) as Ef
    by (rewrite <- Ee, <- Em; rewrite Z.mul_comm; apply Z.div_mod; lia).
  assert (exponent_field F x <= top_exponent F) as Ht by (unfold top_exponent; lia).
  destruct (Z.eqb_spec (exponent_field F x) (top_exponent F)) as [E|E].
  - destruct (Z.eqb_spec (mantissa_field F x) 0) as [Z0|]; [|done]. split; [by destruct (sign_bit F x)|]. nia.
  - split; [|nia]. destruct (Z.eqb_spec (exponent_field F x) 0).
    + destruct (mantissa_field F x) as [|p|p]; [| |lia]; by destruct (sign_bit F x).
    + cbn [rank]. rewrite Z2Pos.id by lia. destruct (sign_bit F x); cbn [lex_opp]; [|done].
      f_equal. f_equal. rewrite <- Pos2Z.opp_pos, Z2Pos.id by lia. done.
Qed.

Lemma magnitude_mono a b : 0 <= a < b -> b <= top_exponent F * 2 ^ mb -> lex_lt (magnitude_key a) (magnitude_key b).
Proof.
  destruct (word_split F) as (_ & _ & HM & HE). intros Hab Hb. unfold magnitude_key, lex_lt. set (M := 2 ^ mb) in *.
  pose proof (Z.div_mod a M ltac:(lia)) as Da. pose proof (Z.div_mod b M ltac:(lia)) as Db.
  pose proof (Z.mod_pos_bound a M ltac:(lia)). pose proof (Z.mod_pos_bound b M ltac:(lia)).
  set (ea := a / M) in *. set (ma := a mod M) in *. set (eb' := b / M) in *. set (mb' := b mod M) in *.
  assert (0 <= ea) by (apply Z.div_pos; lia). assert (ea <= eb') by (apply Z.div_le_mono; lia).
  assert (eb' <= top_exponent F) by nia. assert (eb' = top_exponent F -> mb' = 0) by nia.
  assert (ea = eb' -> ma < mb') by nia.
  destruct (Z.eqb_spec ea (top_exponent F)), (Z.eqb_spec eb' (top_exponent F)); [lia|lia| |].
  - destruct (Z.eqb_spec ea 0); [destruct (Z.eqb_spec ma 0)|]; lia.
  - destruct (Z.eqb_spec ea 0), (Z.eqb_spec eb' 0); try lia; [destruct (Z.eqb_spec ma 0), (Z.eqb_spec mb' 0); lia|].
    destruct (Z.eqb_spec ma 0); lia.
Qed.

Lemma magnitude_sign mag : 0 <= mag -> magnitude_key mag = (0, 0, 0) /\ mag = 0 \/ 0 < mag /\ 0 < (magnitude_key mag).1.1.
Proof.
  destruct (word_split F) as (_ & _ & HM & HE). intros H0. unfold magnitude_key.
  pose proof (Z.div_mod mag (2 ^ mb) ltac:(lia)). pose proof (Z.mod_pos_bound mag (2 ^ mb) ltac:(lia)).
  assert (0 < top_exponent F) by (unfold top_exponent; destruct Fok; nia).
  destruct (Z.eqb_spec (mag / 2 ^ mb) (top_exponent F)); [right; cbn; nia|].
  destruct (Z.eqb_spec (mag / 2 ^ mb) 0) as [E|]; [|right; cbn; split; [|lia]; apply Z.le_neq; split; [done|intros <-; by rewrite Z.div_0_l in * by lia]].
  destruct (Z.eqb_spec (mag mod 2 ^ mb) 0); [left; split; [done|nia]|right; cbn; nia].
Qed.
Lemma lex_opp_lt a b : lex_lt a b -> lex_lt (lex_opp b) (lex_opp a).
Proof. destruct a as [[a1 a2] a3], b as [[b1 b2] b3]. unfold lex_lt, lex_opp. lia. Qed.

Lemma lex_lt_sign a b : a.1.1 <= 0 -> 0 < b.1.1 -> lex_lt a b.
Proof. destruct a as [[a1 a2] a3], b as [[b1 b2] b3]. cbn. unfold lex_lt. lia. Qed.

(** A smaller number in the total order is smaller, unless both are zeros. *)
Lemma total_key_lt x y a b :
  is_nan F x = false -> is_nan F y = false -> key x = Some a -> key y = Some b -> total_key x < total_key y ->
  lex_lt a b \/ fabs F x = 0 /\ fabs F y = 0.
Proof.
  intros Nx Ny Ka Kb. destruct (key_magnitude x Nx) as [Ex Hx], (key_magnitude y Ny) as [Ey Hy].
  rewrite Ka in Ex. rewrite Kb in Ey. injection Ex as ->. injection Ey as ->. unfold total_key.
  pose proof (magnitude_sign (fabs F x) (proj1 Hx)) as Sx. pose proof (magnitude_sign (fabs F y) (proj1 Hy)) as Sy.
  assert (∀ k, (lex_opp k).1.1 = - k.1.1) as Ho by (by intros [[? ?] ?]).
  destruct (sign_bit F x), (sign_bit F y); intros Hlt.
  - left. apply lex_opp_lt, magnitude_mono; lia.
  - destruct Sx as [[-> E1]|[_ Sx]], Sy as [[-> E2]|[_ Sy]]; [by right|left..].
    + by apply lex_lt_sign.
    + exact (lex_opp_lt (0, 0, 0) _ (lex_lt_sign (0, 0, 0) _ (Z.le_refl 0) Sx)).
    + apply lex_lt_sign; [rewrite Ho; lia|done].
  - exfalso. lia.
  - left. apply magnitude_mono; lia.
Qed.

Lemma total_key_eq x y : is_nan F x = false -> is_nan F y = false -> total_key x = total_key y -> key x = key y.
Proof.
  intros Nx Ny E. destruct (key_magnitude x Nx) as [-> Hx], (key_magnitude y Ny) as [-> Hy]. unfold total_key in E.
  destruct (sign_bit F x), (sign_bit F y); try lia; assert (fabs F x = fabs F y) as -> by lia; done.
Qed.

(** The order of the numbers and the total order agree, but for NaN and for two
    zeros. *)
Lemma total_order x y :
  is_nan F x = false -> is_nan F y = false -> fabs F x ≠ 0 \/ fabs F y ≠ 0 ->
  flt F x y = (total_key x <? total_key y) /\ fle F x y = (total_key x <=? total_key y)
  /\ feq F x y = (total_key x =? total_key y).
Proof.
  intros Nx Ny Hz. destruct (key_magnitude x Nx) as [Kx _], (key_magnitude y Ny) as [Ky _].
  remember (if sign_bit F x then _ else _) as a eqn:Ea in Kx. remember (if sign_bit F y then _ else _) as b eqn:Eb in Ky.
  clear Ea Eb. pose proof (total_key_lt x y a b Nx Ny Kx Ky) as H1. pose proof (total_key_lt y x b a Ny Nx Ky Kx) as H2.
  pose proof (total_key_eq x y Nx Ny) as H3. rewrite Kx, Ky in H3.
  assert (flt F x y = true <-> lex_lt a b) as Hlt by (rewrite flt_key, Kx, Ky; naive_solver).
  assert (fle F x y = true <-> lex_le a b) as Hle by (rewrite fle_key, Kx, Ky; naive_solver).
  assert (feq F x y = true <-> a = b) as Heq by (rewrite feq_key, Kx, Ky; naive_solver).
  assert (∀ p q, lex_lt p q -> p ≠ q /\ ~ lex_lt q p) as Hir.
  { intros p q Hpq. split; [intros ->; by apply lex_irrefl in Hpq|]. intros Hqp. by apply (lex_irrefl p), (lex_trans p q p). }
  unfold lex_le in Hle.
  destruct (Ztrichotomy_inf (total_key x) (total_key y)) as [[Hlt'|E]|Hgt].
  - destruct (H1 Hlt') as [L|[? ?]]; [|lia]. destruct (Hir _ _ L) as [? ?].
    split_and!; [rewrite (proj2 Hlt L)|rewrite (proj2 Hle (or_introl L))|]; symmetry; try lia.
    rewrite (proj2 (Z.eqb_neq _ _)) by lia. symmetry. apply not_true_iff_false. naive_solver.
  - specialize (H3 E). injection H3 as ->. split_and!.
    + rewrite E, Z.ltb_irrefl. apply not_true_iff_false. rewrite Hlt. apply lex_irrefl.
    + rewrite (proj2 Hle) by by right. lia.
    + rewrite (proj2 Heq) by done. lia.
  - destruct (H2 ltac:(lia)) as [L|[? ?]]; [|lia]. destruct (Hir _ _ L) as [? ?]. split_and!.
    + rewrite (proj2 (Z.ltb_ge _ _)) by lia. apply not_true_iff_false. naive_solver.
    + rewrite (proj2 (Z.leb_gt _ _)) by lia. apply not_true_iff_false. naive_solver.
    + rewrite (proj2 (Z.eqb_neq _ _)) by lia. apply not_true_iff_false. naive_solver.
Qed.
End on_words.
