(* ===== verification/FloatSqueezeSpec.v ===== *)
(** * Squeezed float arrays

    When the quantized float arrays of [FloatArray.v] answer as the column: the
    reference must be the start of a bucket, the last bucket must end in range, and
    no row may be filtered out of a column with patches.  Without these conditions
    they answer wrongly. *)

From stdpp Require Import base list.
From Stdlib Require Import ZArith Lia.
From Stdlib Require Import Floats.SpecFloat.
From S2P Require Import Prelude Bytes Arrow BitPack DataTypes Ipc Expressions Formats LiquidPrimitive Floats.
From S2P Require Import HybridArray HybridSpec Fsst FloatArray FloatSpec FloatOrder.
Local Open Scope Z_scope.

Definition is_positive_normal (F : FloatFormat) (c : fl) : bool :=
  match of_bits F c with S754_finite false m _ => fl_prec F <=? digits (Zpos m) | _ => false end.

Lemma positive_normal_b F c : is_positive_normal F c = true -> positive_normal F c.
Proof. unfold is_positive_normal, positive_normal. destruct (of_bits F c) as [| | |[] m e]; try done. intros H'%Z.leb_le. exact H'. Qed.

Lemma tables_positive T :
  forallb (is_positive_normal (float_format T)) (F10 T) = true /\ forallb (is_positive_normal (float_format T)) (IF10 T) = true.
Proof. destruct T; vm_compute; done. Qed.

Section squeeze_lemmas.
Context `{NullBufferLaws} `{FastlanesLaws} {PK : PrimitiveKernels} {PL : PrimitiveKernelLaws}.
Context (T : LiquidFloatType).

Local Abbreviation F := (float_format T).
Local Abbreviation w := (fl_width (float_format T)).

(** ** Decoding keeps the order *)

Lemma table_positive i :
  (i < length (F10 T))%nat -> positive_normal F (F10 T !!! i) /\ positive_normal F (IF10 T !!! i).
Proof.
  destruct (tables_positive T) as [H1' H2'].
  rewrite !forallb_forall in *.
  intros Hi. split; apply positive_normal_b; [apply H1'|apply H2']; apply list_elem_of_In, list_elem_of_lookup_total_2;
    rewrite ?tables; done.
Qed.

Lemma decoded_mono exp a b : exps_ok T exp -> a <= b -> fle F (decoded T exp a) (decoded T exp b) = true.
Proof.
  intros [He Hf] Hab. Local Transparent decoded. unfold decoded. Local Opaque decoded.
  apply fmul_mono; [apply _|by apply table_positive|]. apply fmul_mono; [apply _|by apply table_positive|].
  by apply fl_of_Z_mono; [apply _|].
Qed.

(** ** Deciding a row *)

Lemma fle_not x y a b : key F x = Some a -> key F y = Some b -> fle F x y = false -> ~ lex_le a b.
Proof. intros Ex Ey E Hle. assert (fle F x y = true) by (apply fle_key; eauto). congruence. Qed.

Lemma flt_not x y a b : key F x = Some a -> key F y = Some b -> flt F x y = false -> ~ lex_lt a b.
Proof. intros Ex Ey E Hlt. assert (flt F x y = true) by (apply flt_key; eauto). congruence. Qed.

Lemma feq_not x y a b : key F x = Some a -> key F y = Some b -> feq F x y = false -> ~ (lex_le a b /\ lex_le b a).
Proof.
  intros Ex Ey E [[Hab| ->] [Hba|]]; try (assert (feq F x y = true) by (apply feq_key; eauto); congruence).
  - destruct (lex_irrefl a). by eapply lex_trans.
  - subst. by destruct (lex_irrefl a).
Qed.

(** The comparisons of a goal, as statements on ranks. *)
Ltac compare_keys :=
  repeat match goal with
  | H : fle F ?x ?y = true |- _ => apply fle_key in H as (? & ? & ? & ? & ?); simplify_eq
  | H : flt F ?x ?y = true |- _ => apply flt_key in H as (? & ? & ? & ? & ?); simplify_eq
  | H : feq F ?x ?y = true |- _ => apply feq_key in H as (? & ? & ?); simplify_eq
  | Hx : key F ?x = Some _, Hy : key F ?y = Some _, H : fle F ?x ?y = false |- _ => apply (fle_not _ _ _ _ Hx Hy) in H
  | Hx : key F ?x = Some _, Hy : key F ?y = Some _, H : flt F ?x ?y = false |- _ => apply (flt_not _ _ _ _ Hx Hy) in H
  | Hx : key F ?x = Some _, Hy : key F ?y = Some _, H : feq F ?x ?y = false |- _ => apply (feq_not _ _ _ _ Hx Hy) in H
  end.

Lemma lex_le_iff a1 a2 a3 b1 b2 b3 :
  lex_le (a1, a2, a3) (b1, b2, b3) <-> a1 < b1 \/ (a1 = b1 /\ (a2 < b2 \/ (a2 = b2 /\ a3 <= b3))).
Proof.
  unfold lex_le, lex_lt. split; [intros [?|[=]]; lia|]. intros Hle.
  destruct (decide ((a1, a2, a3) = (b1, b2, b3))) as [?|Hne]; [by right|left].
  destruct (Z.eq_dec a1 b1), (Z.eq_dec a2 b2), (Z.eq_dec a3 b3); simplify_eq; lia.
Qed.

(** What the ends of a bucket decide holds of every value between them. *)
Lemma decided_right op lo v hi k r :
  fle F lo v = true -> fle F v hi = true -> comp_fn T op lo hi k = Some r -> r = float_compare T op v k.
Proof.
  intros Hlo Hhi. destruct (key F k) as [d|] eqn:Ek.
  - compare_keys.
    unfold comp_fn, handle_eq, handle_neq, handle_lt, handle_lteq, handle_gt, handle_gteq, float_compare.
    destruct op;
      repeat match goal with
      | |- context [fle F ?x ?y] => destruct (fle F x y) eqn:?
      | |- context [flt F ?x ?y] => destruct (flt F x y) eqn:?
      | |- context [feq F ?x ?y] => destruct (feq F x y) eqn:?
      end; cbn; intros E; try discriminate E; injection E as <-; try done; compare_keys; 
      repeat match goal with p : Z * Z * Z |- _ => destruct p as [[? ?] ?] end; rewrite ?lex_le_iff in *; unfold lex_lt in *; lia.
  - assert (∀ x, fle F k x = false /\ fle F x k = false /\ flt F k x = false /\ flt F x k = false) as Hn.
    { intros x. split_and!; apply not_true_iff_false; [intros ?%fle_key|intros ?%fle_key|intros ?%flt_key|intros ?%flt_key]; naive_solver congruence. }
    destruct (Hn lo) as (A1 & A2 & A3 & A4), (Hn hi) as (B1 & B2 & B3 & B4).
    unfold comp_fn, handle_eq, handle_neq, handle_lt, handle_lteq, handle_gt, handle_gteq.
    destruct op; rewrite ?A1, ?A2, ?A3, ?A4, ?B1, ?B2, ?B3, ?B4; done.
Qed.

(** ** The squeezed array *)

(** A quantized array: the buckets of the integers, counted from the reference. *)
Record fq_repr (q : LiquidFloatQuantizedArray) (target : list (option fl)) (es : list (option Z)) (nb : nat) : Prop := {
  fr_packed : packed_ok (float_physical T) (fq_quantized q) nb
                (map_valid (λ e, (e - fq_reference_value q) / 2 ^ fq_bucket_width q) es);
  fr_exps : exps_ok T (fq_exponent q);
  fr_shift : 1 <= fq_bucket_width q;
  fr_ref : is_signed T (fq_reference_value q);
  fr_top : fq_reference_value q + 2 ^ (Z.of_nat nb + fq_bucket_width q) < 2 ^ (w - 1);
  fr_es e : e ∈ valid_values es ->
    fq_reference_value q <= e < fq_reference_value q + 2 ^ (Z.of_nat nb + fq_bucket_width q);
  fr_len : length es = length target;
  fr_patches : length (fq_patch_indices q) = length (fq_patch_values q);
  fr_distinct : NoDup (fq_patch_indices q);
  fr_bounds : Forall (λ p, 0 <= p < zlen target) (fq_patch_indices q);
  fr_rows k :
    match target !! k with
    | Some (Some v) =>
        ∃ e, es !! k = Some (Some e)
             /\ ((∃ j, fq_patch_indices q !! j = Some (Z.of_nat k) /\ fq_patch_values q !! j = Some v)
                 \/ ((Z.of_nat k ∉ fq_patch_indices q) /\ feq F (decoded T (fq_exponent q) e) v = true))
    | Some None => es !! k = Some None
    | None => True
    end
}.

(** The reference is the start of a bucket, and the last bucket ends in range. *)
Definition lf_aligned (a : LiquidFloatArray) : Prop :=
  match bp_bit_width (lf_bit_packed a) with
  | Some bw => lf_reference_value a mod 2 ^ Z.of_nat (bw - bw / 2) = 0
               /\ lf_reference_value a + 2 ^ Z.of_nat bw < 2 ^ (w - 1)
  | None => True
  end.

Lemma quantize_stored_ok reference s u b :
  1 <= s -> reference mod 2 ^ s = 0 -> is_signed T reference -> 0 <= u < 2 ^ b -> reference + 2 ^ b < 2 ^ (w - 1) ->
  quantize_stored T reference s u = u / 2 ^ s.
Proof.
  intros Hs Ha Hr Hu Hb. pose proof (width_cases T) as Hw. destruct (width_double T) as [E2 H31]. unfold is_signed in Hr.
  unfold quantize_stored. rewrite !Z.shiftr_div_pow2 by lia.
  assert (wraps w (reference + wraps w u) = reference + u) as ->.
  { rewrite <- (wraps_id w (reference + u)) by lia. apply wraps_cong; [lia|].
    rewrite <- Zplus_mod_idemp_r, wraps_mod, Zplus_mod_idemp_r by lia. done. }
  pose proof (Z.pow_pos_nonneg 2 s ltac:(lia) ltac:(lia)) as Hp.
  assert (reference = reference / 2 ^ s * 2 ^ s) as Er by (pose proof (Z.div_mod reference (2 ^ s)); lia).
  replace ((reference + u) / 2 ^ s) with (reference / 2 ^ s + u / 2 ^ s)
    by (rewrite <- Z.div_add_l, <- Er by lia; done).
  replace (reference / 2 ^ s + u / 2 ^ s - reference / 2 ^ s) with (u / 2 ^ s) by lia.
  assert (0 <= u / 2 ^ s <= u) by (split; [apply Z.div_pos; lia|apply Z.div_le_upper_bound; nia]).
  unfold wrapu. rewrite wraps_mod by lia. apply Z.mod_small. lia.
Qed.

Lemma lf_squeeze_ok a target es :
  lf_repr T a target es -> lf_fresh T a -> lf_squeeze_policy a = FloatQuantize -> lf_aligned a ->
  match lf_squeeze T a with
  | Ret None => True
  | Ret (Some (q, bytes)) =>
      bytes = lf_to_bytes T a /\ fq_disk_range q = (0%nat, length bytes) /\ ∃ nb, fq_repr q target es nb
  | _ => False
  end.
Proof.
  intros [Wf He Hr Hlen Hes Hlog Hpl _ Hd Hb Hrows] Hfresh Hpol Hal. unfold lf_squeeze, lf_aligned in *.
  destruct (bp_bit_width (lf_bit_packed a)) as [bw|] eqn:Ebw; [|done].
  destruct (bw <? 8)%nat eqn:E8; [done|]. apply Nat.ltb_ge in E8.
  destruct (Hfresh bw Ebw) as (Hbw & p & Ep & Wp & Enp & Fp). rewrite Ep, Hpol. run_step.
  set (nb := (bw / 2)%nat) in *. set (s := Z.of_nat (bw - nb)).
  assert (4 <= nb /\ 2 * nb <= bw)%nat as [Hnb Hnb2].
  { pose proof (Nat.div_mod bw 2). pose proof (Nat.mod_upper_bound bw 2). unfold nb. lia. }
  assert (Z.of_nat nb + s = Z.of_nat bw) as Es by (unfold s; lia). destruct Hal as [Ha Htop]. fold s in Ha.
  split; [done|]. split; [done|]. exists nb. pose proof (width_native T) as Hwn.
  unfold bp_logical in Hlog. rewrite Ep in Hlog. cbn in Hlog. injection Hlog as Hlog.
  assert (quantize_stored T (lf_reference_value a) s <$> pa_values p = (λ u, u / 2 ^ s) <$> pa_values p) as Eq.
  { apply list_fmap_ext. intros i u Hu%list_elem_of_lookup_2. rewrite Forall_forall in Fp.
    by apply (quantize_stored_ok _ _ _ (Z.of_nat bw)); [lia| | |apply Fp|]. }
  pose proof (Z.pow_pos_nonneg 2 s ltac:(lia) ltac:(lia)) as Hp2.
  assert (2 ^ Z.of_nat bw = 2 ^ Z.of_nat nb * 2 ^ s) as Ebp by (rewrite <- Z.pow_add_r by lia; f_equal; lia).
  assert (∀ e, e ∈ valid_values es -> 0 <= e - lf_reference_value a < 2 ^ Z.of_nat bw) as Hrange.
  { intros e Hin. rewrite Forall_forall in Fp. apply Fp.
    apply logical_in with (nulls := pa_nulls p). change (logical (pa_values p) (pa_nulls p)) with (pa_logical p). rewrite Hlog.
    unfold map_valid. apply list_elem_of_fmap. exists (Some e). split; [done|]. by apply valid_in. }
  split; cbn [fq_exponent fq_quantized fq_reference_value fq_bucket_width fq_disk_range fq_patch_indices fq_patch_values];
    fold s; rewrite ?Es; try done.
  - rewrite Hwn, Eq. set (qp := Prim ((λ u, u / 2 ^ s) <$> pa_values p) (pa_nulls p)).
    assert (map_valid (λ e, (e - lf_reference_value a) / 2 ^ s) es = pa_logical qp) as ->.
    { unfold pa_logical, qp. cbn [pa_values pa_nulls]. rewrite logical_map.
      change (logical (pa_values p) (pa_nulls p)) with (pa_logical p). by rewrite Hlog, map_valid_compose. }
    apply packed_of_prim.
    + unfold pa_wf, qp in *. cbn in *. by destruct (pa_nulls p); rewrite ?length_fmap.
    + rewrite <- Hwn. lia.
    + apply Forall_fmap. eapply Forall_impl; [exact Fp|]. intros u Hu. cbn in *.
      split; [apply Z.div_pos; lia|apply Z.div_lt_upper_bound; lia].
  - unfold s. lia.
  - intros e Hin. pose proof (Hrange e Hin). lia.
  - pose proof (f_equal length Hlog) as El. unfold map_valid in El; rewrite length_fmap in El.
    destruct (bp_to_primitive_wf w _ Wf) as (p' & Ep' & Hl' & _). rewrite Ep in Ep'. injection Ep' as <-.
    rewrite <- El, logical_len by done. by rewrite Hl'.
  - intros k. specialize (Hrows k). destruct (target !! k) as [[v|]|]; try done. by destruct Hrows as (_ & Hrows).
Qed.

(** ** Filtering *)

Lemma keep_all_true {A} (l : list A) m : length m = length l -> Forall (eq true) m -> keep l m = l.
Proof.
  revert m. induction l as [|x l IH]; intros [|b m] Hl Hm; try done. injection Hl as Hl.
  apply Forall_cons in Hm as [<- Hm]. cbn. by rewrite IH.
Qed.

Lemma fq_filter_inner_ok q target es nb m :
  fq_repr q target es nb -> length m = length target -> (fq_patch_indices q = [] \/ Forall (eq true) m) ->
  ∃ q', fq_filter_inner T q m = Ret q' /\ fq_repr q' (keep target m) (keep es m) nb.
Proof.
  intros [Hp He Hs Hr Ht Hes Hl Hpl Hd Hb Hrows] Hm Hcase.
  destruct (filter_packed_ok (float_physical T) _ nb _ m Hp) as (packed & E & Hp');
    [by unfold map_valid; rewrite length_fmap, Hm, Hl|].
  assert (fq_filter_inner T q m
          = (packed ← filter_packed (float_physical T) (fq_quantized q) m;
             Ret (FloatQuantized (fq_exponent q) packed (fq_reference_value q) (fq_bucket_width q) (fq_disk_range q)
                    (fq_patch_indices q) (fq_patch_values q)))) as ->.
  { unfold fq_filter_inner, filter_packed, new_from_filtered. rewrite <- width_native.
    destruct (bp_to_primitive w (fq_quantized q)); [|done..]. run_step.
    destruct (prim_filter _ m); [|done]. cbn [expect]. run_step.
    by destruct (bp_bit_width (fq_quantized q)). }
  rewrite E. run_step. eexists. split; [done|]. rewrite keep_map_valid in Hp'.
  split; cbn [fq_exponent fq_quantized fq_reference_value fq_bucket_width fq_patch_indices fq_patch_values]; try done.
  - intros e Hin. apply Hes. by eapply keep_valid_in.
  - by apply keep_same_length.
  - destruct Hcase as [-> | Hall]; [constructor|]. by rewrite keep_all_true.
  - destruct Hcase as [Hnil|Hall]; [|by rewrite !keep_all_true by congruence].
    assert (Forall2 (λ o eo, match o with Some v => ∃ e, eo = Some e /\ feq F (decoded T (fq_exponent q) e) v = true
                                        | None => eo = None end) target es) as F2.
    { apply Forall2_same_length_lookup. split; [done|]. intros k o eo Ho Heo. specialize (Hrows k). rewrite Ho in Hrows.
      destruct o as [v|]; [|congruence]. destruct Hrows as (e & Ee & Hc). exists e. split; [congruence|].
      rewrite Hnil in Hc. destruct Hc as [(j & Hj & _)|[_ Hc]]; [done|exact Hc]. }
    apply (Forall2_keep _ _ _ m) in F2. intros k. destruct (keep target m !! k) as [o|] eqn:Ho; [|done].
    destruct (Forall2_lookup_l _ _ _ _ _ F2 Ho) as (eo & Heo & Hc). destruct o as [v|]; [|congruence].
    destruct Hc as (e & -> & Hc). exists e. split; [done|]. right. rewrite Hnil. split; [apply not_elem_of_nil|exact Hc].
Qed.

(** ** Comparing *)

Lemma bucket_bounds_ok q b :
  exps_ok T (fq_exponent q) -> 0 <= fq_bucket_width q -> is_signed T (fq_reference_value q) ->
  0 <= b -> fq_reference_value q + (b + 1) * 2 ^ fq_bucket_width q < 2 ^ (w - 1) ->
  bucket_bounds T q b
  = Ret (decoded T (fq_exponent q) (b * 2 ^ fq_bucket_width q + fq_reference_value q),
         decoded T (fq_exponent q) ((b + 1) * 2 ^ fq_bucket_width q + fq_reference_value q)).
Proof.
  intros He Hs Hr Hb Ht. unfold bucket_bounds. pose proof (width_cases T) as Hw. unfold is_signed in Hr.
  set (r := fq_reference_value q) in *. set (s := fq_bucket_width q) in *.
  pose proof (Z.pow_pos_nonneg 2 s ltac:(lia) Hs) as Hp.
  assert (∀ x y, x mod 2 ^ w = y mod 2 ^ w -> - 2 ^ (w - 1) <= y * 2 ^ s + r < 2 ^ (w - 1) ->
            wraps w (wraps w (Z.shiftl x s) + r) = y * 2 ^ s + r) as Hend.
  { intros x y Exy Hrange. rewrite <- (wraps_id w (y * 2 ^ s + r)) by lia. apply wraps_cong; [lia|].
    rewrite <- Zplus_mod_idemp_l, wraps_mod, Zplus_mod_idemp_l by lia. rewrite Z.shiftl_mul_pow2 by done.
    rewrite <- Zplus_mod_idemp_l, <- Zmult_mod_idemp_l, Exy, Zmult_mod_idemp_l, Zplus_mod_idemp_l. done. }
  rewrite (Hend (wraps w b) b), (Hend (wraps w (wraps w b + 1)) (b + 1)).
  - rewrite !decode_ok by done. run_step. done.
  - rewrite wraps_mod, <- Zplus_mod_idemp_l, wraps_mod, Zplus_mod_idemp_l by lia. done.
  - nia.
  - by apply wraps_mod; lia.
  - nia.
Qed.

Lemma eval_float_rows_ok q f i ps values valid :
  (∀ b, b ∈ values -> ∃ p, bucket_bounds T q b = Ret p) -> length valid = length values ->
  eval_float_rows T q f i ps values valid = Ret None
  \/ ∃ bits, eval_float_rows T q f i ps values valid = Ret (Some bits) /\ length bits = length values
             /\ ∀ k b, values !! k = Some b -> valid !! k = Some true -> Z.of_nat (i + k) ∉ ps ->
                ∃ lo hi x, bucket_bounds T q b = Ret (lo, hi) /\ f lo hi = Some x /\ bits !! k = Some x.
Proof.
  revert i ps valid. induction values as [|b values IH]; intros i ps [|v valid] Hb Hl; try done.
  { right. exists []. split; [done|]. split; [done|]. intros k b Hkb; rewrite lookup_nil in Hkb; done. }
  injection Hl as Hl. cbn [eval_float_rows].
  assert (∀ b, b ∈ values -> ∃ p, bucket_bounds T q b = Ret p) as Hb' by (intros b' Hin; apply Hb; by right).
  pose (next (x : bool) ps' :=
    (out_vals ← eval_float_rows T q f (S i) ps' values valid; Ret (fmap (M := option) (cons x) out_vals)) : outcome (option (list bool))).
  assert (∀ x ps', (∀ j, j ∈ ps' -> j ∈ ps) ->
            (v = true -> Z.of_nat i ∉ ps -> ∃ lo hi, bucket_bounds T q b = Ret (lo, hi) /\ f lo hi = Some x) ->
            next x ps' = Ret None
            \/ ∃ bits, next x ps' = Ret (Some bits)
                /\ length bits = S (length values)
                /\ ∀ k b', (b :: values) !! k = Some b' -> (v :: valid) !! k = Some true -> Z.of_nat (i + k) ∉ ps ->
                   ∃ lo hi y, bucket_bounds T q b' = Ret (lo, hi) /\ f lo hi = Some y /\ bits !! k = Some y) as Hc.
  { intros x ps' Hin Hx. unfold next. destruct (IH (S i) ps' valid Hb' Hl) as [->|(bits & -> & Hbl & Hk)]; [by left|]. right.
    run_step. exists (x :: bits). split; [done|]. split; [cbn; by rewrite Hbl|].
    intros [|k] b' Hb'' Hv Hn.
    - cbn in Hb'', Hv. injection Hb'' as <-. injection Hv as ->. rewrite Nat.add_0_r in Hn.
      destruct (Hx eq_refl Hn) as (lo & hi & E & Ef). by exists lo, hi, x.
    - cbn [lookup list_lookup] in *. apply (Hk k b'); [done..|]. intros Hn'. apply Hn. rewrite Nat.add_succ_r. by apply Hin. }
  destruct (Hb b ltac:(left)) as [[lo hi] Eb].
  destruct v; cbn [negb]; [|by apply Hc].
  destruct ps as [|p ps'].
  - rewrite Eb. run_step. destruct (f lo hi) as [x|] eqn:Ef; [|by left]. apply Hc; [done|]. intros _ _. by exists lo, hi.
  - destruct (Z.eqb_spec p (Z.of_nat i)) as [->|Hne].
    + apply Hc; [intros j Hj; by right|]. intros _ []. left.
    + rewrite Eb. run_step. destruct (f lo hi) as [x|] eqn:Ef; [|by left]. apply Hc; [done|]. intros _ _. by exists lo, hi.
Qed.

Lemma eval_patches_decoded compare ps vs bits : eval_patches compare ps vs bits = patch_decoded ps (compare <$> vs) bits.
Proof.
  revert vs bits. induction ps as [|p ps IH]; intros [|v vs] bits; [done..|]. cbn.
  destruct (set_at _ _ _); [|done..]. run_step. apply IH.
Qed.

(** The comparison of every row. *)
Definition float_rows (op : Operator) (k : fl) (rows : list (option fl)) : list (option bool) :=
  option_map (λ v, float_compare T op v k) <$> rows.

Lemma compare_feq op x y k : feq F x y = true -> float_compare T op x k = float_compare T op y k.
Proof.
  intros (a & Ex & Ey)%feq_key. unfold float_compare.
  assert (∀ f : fl -> bool, (f x = true <-> f y = true) -> f x = f y) as Hb
    by (intros f Hf; destruct (f x), (f y); naive_solver).
  destruct op; try (apply (Hb (λ x, feq F x k)); rewrite !feq_key; naive_solver);
    try (apply (Hb (λ x, fle F k x)); rewrite !fle_key; naive_solver);
    try (apply (Hb (λ x, flt F k x)); rewrite !flt_key; naive_solver);
    try (apply (Hb (λ x, fle F x k)); rewrite !fle_key; naive_solver);
    try (apply (Hb (λ x, flt F x k)); rewrite !flt_key; naive_solver).
  f_equal. apply (Hb (λ x, feq F x k)); rewrite !feq_key; naive_solver.
Qed.

Lemma bucket_decides q target es nb op k e lo hi x :
  fq_repr q target es nb -> e ∈ valid_values es ->
  bucket_bounds T q ((e - fq_reference_value q) / 2 ^ fq_bucket_width q) = Ret (lo, hi) ->
  comp_fn T op lo hi k = Some x -> x = float_compare T op (decoded T (fq_exponent q) e) k.
Proof.
  intros [Hp He Hs Hr Ht Hes _ _ _ _ _] Hin Eb. destruct (Hes e Hin) as [Hle Hlt].
  set (r := fq_reference_value q) in *. set (s := fq_bucket_width q) in *.
  rewrite Z.pow_add_r in Ht, Hlt by lia.
  pose proof (Z.pow_pos_nonneg 2 s ltac:(lia) ltac:(lia)) as Hps.
  assert (0 <= (e - r) / 2 ^ s < 2 ^ Z.of_nat nb) as Hq
    by (split; [apply Z.div_pos; lia|apply Z.div_lt_upper_bound; lia]).
  rewrite bucket_bounds_ok in Eb; [|done|lia|done|lia|fold s r; nia]. fold s r in Eb. injection Eb as <- <-.
  pose proof (Z.div_mod (e - r) (2 ^ s) ltac:(lia)) as Hdm. pose proof (Z.mod_pos_bound (e - r) (2 ^ s) Hps).
  apply decided_right; apply decoded_mono; try done; nia.
Qed.

Lemma fq_inner_ok q target es nb op literal k :
  fq_repr q target es nb -> literal_float T literal = Some k ->
  fq_try_eval_predicate_inner T q op literal = Ret NeedsBacking
  \/ fq_try_eval_predicate_inner T q op literal = Ret (Decided (Some (float_rows op k target))).
Proof.
  intros R Ek. pose proof R as [Hp He Hs Hr Ht Hes Hl Hpl Hd Hb Hrows]. unfold fq_try_eval_predicate_inner. rewrite Ek.
  destruct (pk_prim _ _ _ _ Hp) as (p & Ep & Wf & En & Fp & El). rewrite <- width_native in Ep. rewrite Ep. run_step. rewrite <- En.
  set (valid := validity (pa_nulls p) (length (pa_values p))).
  assert (length valid = length (pa_values p)) as Hv by (apply validity_length; by destruct p).
  assert (length (pa_values p) = length target) as Hpt.
  { rewrite <- (logical_len p) by done. rewrite El. unfold map_valid. by rewrite length_fmap. }
  assert (mask_values (pa_values p) valid = pa_logical p) as Em by apply validity_logical.
  destruct (eval_float_rows_ok q (λ lo hi, comp_fn T op lo hi k) 0 (fq_patch_indices q) (pa_values p) valid)
    as [->|(bits & -> & Hbl & Hbits)]; [|done|by left|].
  { intros b Hin. rewrite Forall_forall in Fp. specialize (Fp b Hin). rewrite Z.pow_add_r in Ht by lia.
    eexists. apply bucket_bounds_ok; try done; try lia. pose proof (Z.pow_pos_nonneg 2 (fq_bucket_width q)). nia. }
  right. run_step. rewrite eval_patches_decoded.
  destruct (patch_decoded_ok (fq_patch_indices q) ((λ x, float_compare T op x k) <$> fq_patch_values q) bits)
    as (out & -> & Hol & Hkeep & Hset); [by rewrite length_fmap|done|by rewrite Hbl, Hpt|].
  run_step. do 3 f_equal. unfold boolean_array, float_rows. rewrite Hol, Hbl. fold valid.
  apply list_eq. intros i. rewrite lookup_zip_with, list_lookup_fmap. specialize (Hrows i).
  assert (mask_values (pa_values p) valid !! i = map_valid (λ e, (e - fq_reference_value q) / 2 ^ fq_bucket_width q) es !! i)
    as Ei by (rewrite Em, El; done).
  unfold map_valid in Ei. rewrite list_lookup_fmap, mask_lookup, lookup_zip_with in Ei.
  destruct (target !! i) as [o|] eqn:Eo.
  - destruct (lookup_lt_is_Some_2 out i) as [b Eb]; [rewrite Hol, Hbl, Hpt; by eapply lookup_lt_Some|]. rewrite Eb. cbn [mbind option_bind].
    destruct (lookup_lt_is_Some_2 (pa_values p) i) as [u Eu]; [rewrite Hpt; by eapply lookup_lt_Some|]. rewrite Eu in Ei.
    destruct (lookup_lt_is_Some_2 valid i) as [vb Evb]; [rewrite Hv, Hpt; by eapply lookup_lt_Some|]. rewrite Evb in Ei |- *.
    cbn in Ei |- *. f_equal. destruct o as [v|].
    + destruct Hrows as (e & Ee & Hcase). rewrite Ee in Ei. cbn in Ei. destruct vb; [|done]. injection Ei as ->. cbn. f_equal.
      destruct Hcase as [(j & Hj & Hvj)|[Hn Hf]].
      * assert (out !! i = Some (float_compare T op v k)) as Ex.
        { apply (Hset j); [exact Hj|]. rewrite list_lookup_fmap, Hvj. reflexivity. }
        congruence.
      * destruct (Hbits i _ Eu Evb Hn) as (lo & hi & x & E1 & E2 & E3). rewrite Hkeep, E3 in Eb by done. injection Eb as <-.
        rewrite <- (compare_feq op _ _ k Hf). eapply bucket_decides; [exact R| |exact E1|exact E2].
        apply valid_in. by eapply list_elem_of_lookup_2.
    + rewrite Hrows in Ei. cbn in Ei. by destruct vb.
  - apply lookup_ge_None in Eo. by rewrite (lookup_ge_None_2 out i) by (rewrite Hol, Hbl, Hpt; done).
Qed.

Lemma squeeze_patches a q bytes : lf_squeeze T a = Ret (Some (q, bytes)) -> fq_patch_indices q = lf_patch_indices a.
Proof.
  unfold lf_squeeze. destruct (bp_bit_width _); [|done]. destruct (_ <? _)%nat; [done|].
  destruct (bp_to_primitive _ _); [|done..]. run_step. destruct (lf_squeeze_policy a). by intros [= <- _].
Qed.

Lemma squeeze_bytes a q bytes :
  lf_squeeze T a = Ret (Some (q, bytes)) -> bytes = lf_to_bytes T a /\ fq_disk_range q = (0%nat, length bytes).
Proof.
  unfold lf_squeeze. destruct (bp_bit_width _); [|done]. destruct (_ <? _)%nat; [done|].
  destruct (bp_to_primitive _ _); [|done..]. run_step. destruct (lf_squeeze_policy a). by intros [= <- <-].
Qed.
End squeeze_lemmas.

(** ** Arrow's comparison *)

(** [T::total_cmp], as the comparison kernels of Arrow use it. *)
Definition total_compare (T : LiquidFloatType) (op : Operator) (x k : fl) : bool :=
  let l := total_key (float_format T) x in
  let r := total_key (float_format T) k in
  match op with
  | OpEq => l =? r | OpNotEq => negb (l =? r)
  | OpLt => l <? r | OpLtEq => l <=? r | OpGt => r <? l | OpGtEq => r <=? l
  end.

Definition total_rows (T : LiquidFloatType) (op : Operator) (k : fl) (rows : list (option fl)) : list (option bool) :=
  option_map (λ x, total_compare T op x k) <$> rows.

(** A literal of the type of the column. *)
Definition native_literal (T : LiquidFloatType) (v : FloatScalar) : option fl :=
  match T, v with
  | Float32Type, FsFloat32 (Some k) | Float64Type, FsFloat64 (Some k) => Some k
  | _, _ => None
  end.

(** The kernels compare floats in the total order of IEEE 754. *)
Class FloatCompareLaws `{NullBuffers} {FC : FloatCompare} : Prop := {
  float_apply_cmp_ok T op a literal k :
    native_literal T literal = Some k ->
    float_apply_cmp (DFCompare op) a literal = Some (total_rows T op k (pa_logical a))
}.

Lemma native_float T literal k : native_literal T literal = Some k -> literal_float T literal = Some k.
Proof. destruct T, literal as [[]|[]|[]|]; cbn; by intros [= ->]. Qed.

(** Against a number that is not zero, the total order is the order of numbers. *)
Lemma total_compare_ok T op x k :
  is_nan (float_format T) x = false -> is_nan (float_format T) k = false -> fabs (float_format T) k ≠ 0 ->
  total_compare T op x k = float_compare T op x k.
Proof.
  intros Nx Nk Hk. destruct (total_order (float_format T) x k Nx Nk (or_intror Hk)) as (H1 & H2 & H3).
  destruct (total_order (float_format T) k x Nk Nx (or_introl Hk)) as (H4 & H5 & _).
  unfold total_compare, float_compare. destruct op; congruence.
Qed.

Lemma same_float_nan F x y : same_float F x y -> is_nan F x = is_nan F y.
Proof. unfold is_nan. by intros [->|[-> ->]]. Qed.

Lemma same_float_compare T op x y k :
  same_float (float_format T) x y -> float_compare T op x k = float_compare T op y k.
Proof.
  intros [->|[Ex Ey]]; [done|]. unfold float_compare, feq, flt, fle. rewrite Ex, Ey.
  destruct op; by destruct (of_bits _ k) as [| | |[]].
Qed.

(** Read back up to the sign of zeros, rows without NaN compare as they were. *)
Lemma total_rows_ok T op k rows rows' :
  same_column T rows' rows -> Forall (λ x, is_nan (float_format T) x = false) (valid_values rows) ->
  is_nan (float_format T) k = false -> fabs (float_format T) k ≠ 0 ->
  total_rows T op k rows' = float_rows T op k rows.
Proof.
  intros Hs Hn Nk Hk. unfold total_rows, float_rows. induction Hs as [|o' o rows' rows Ho Hs IH]; [done|].
  destruct Ho as [x y Hxy|]; cbn in *; [|by rewrite IH].
  apply Forall_cons in Hn as [Ny Hn]. rewrite IH by done. f_equal. f_equal.
  rewrite total_compare_ok; [|by rewrite (same_float_nan _ _ _ Hxy)|done|done]. by apply same_float_compare.
Qed.

(** ** Theorems *)

Section theorems.
Context `{NullBufferLaws} `{FastlanesLaws} {PK : PrimitiveKernels} {PL : PrimitiveKernelLaws} {FC : FloatCompare}
  {FCL : FloatCompareLaws}.
Context (T : LiquidFloatType).

Local Abbreviation F := (float_format T).

Lemma fq_hydrate_ok a target es q :
  lf_repr T a target es -> lf_fits T a -> zlen target <= 2 ^ 64 -> fq_disk_range q = (0%nat, length (lf_to_bytes T a)) ->
  ∃ b, fq_hydrate_full_arrow T q (Some (lf_to_bytes T a)) = Ret (b, [SqRead (zlen (lf_to_bytes T a))])
       /\ pa_wf b /\ same_column T (pa_logical b) target.
Proof.
  intros R Hfit Ht Ed. destruct (lf_bytes_ok T a _ es R Hfit Ht) as (a' & Ea & R' & _).
  destruct (lf_decode_ok T a' _ es R') as (b & Eb & Wf & Hb). exists b. split; [|done].
  unfold fq_hydrate_full_arrow. cbn [expect]. run_step. rewrite Ed, Nat.sub_0_r.
  assert (slice (lf_to_bytes T a) 0 (length (lf_to_bytes T a)) = Ret (lf_to_bytes T a)) as ->.
  { rewrite <- (app_nil_r (lf_to_bytes T a)) at 1. by apply (slice_ok [] _ [] 0). }
  run_step. rewrite Ea. run_step. rewrite Eb. run_step. done.
Qed.

(** The answer to a comparison of the kept rows: none when the literal is not a
    number; decided in memory, whatever is in the file; or Arrow's, on the rows of
    the file. *)
Definition float_answer (q : LiquidFloatQuantizedArray) (op : Operator) (literal : FloatScalar) (m : list bool)
    (bytes : list Z) (rows : list (option fl)) : Prop :=
  let ask := fq_try_eval_predicate T q (FBinary (DFCompare op) literal) m in
  match literal_float T literal with
  | None => ∀ backing, ask backing = Ret (None, [])
  | Some k =>
      (∀ backing, ask backing = Ret (Some (float_rows T op k rows), []))
      \/ ∃ f, same_column T (pa_logical f) rows
              /\ ask (Some bytes) = Ret (float_apply_cmp (DFCompare op) f literal, [SqRead (zlen bytes)])
  end.

(** C23: whatever exponents a float column of at most 2^64 rows is encoded with,
    squeezed to the buckets of its integers it decodes, from its file, to itself up
    to the sign of zeros. Under [lf_aligned] (the reference is the start of a
    bucket, and the end of the last bucket, the reference plus two to the bit width,
    is below 2^31 for f32 and 2^63 for f64) and with every row kept when there are
    patches, a comparison with a literal is answered in memory exactly as the
    comparison of the kept rows, for every row, or is sent to the file: the ends of
    a bucket decide only what holds of every float that can lie between them,
    because decoding keeps the order. From the file the answer is Arrow's, which
    compares in the total order of IEEE 754; with a literal of the column's type
    that is neither zero nor NaN and rows that are not NaN, it is the comparison of
    the rows too, so the answer does not depend on where it was found. The lengths
    that the byte format writes must fit their fields ([lf_fits]). Without the
    conditions the answers are wrong ([float_squeezed_wrong]). *)
Theorem float_squeezed_exact col exp a q bytes (He : exps_ok T exp)
    (Wf : pa_wf col) (Hf : Forall (is_float T) (pa_values col)) (Hlen : zlen (pa_logical col) <= 2 ^ 64)
    (Ea : encode_arrow_array T col exp = Ret a) (Hfit : lf_fits T a)
    (Eq : lf_squeeze T a = Ret (Some (q, bytes))) :
  (∃ b, fq_to_arrow_array T q (Some bytes) = Ret (b, [SqRead (zlen bytes)])
        /\ same_column T (pa_logical b) (pa_logical col))
  /\ ∀ m op literal,
       lf_aligned T a -> length m = length (pa_logical col) -> (lf_patch_indices a = [] \/ Forall (eq true) m) ->
       float_answer q op literal m bytes (keep (pa_logical col) m)
       /\ ∀ k, native_literal T literal = Some k -> is_nan F k = false -> fabs F k ≠ 0 ->
              Forall (λ x, is_nan F x = false) (valid_values (keep (pa_logical col) m)) ->
              ∃ events, fq_try_eval_predicate T q (FBinary (DFCompare op) literal) m (Some bytes)
                        = Ret (Some (float_rows T op k (keep (pa_logical col) m)), events).
Proof.
  destruct (lf_encode_ok T col exp Wf Hf He) as (a0 & es & Ea0 & R & Hfresh & Hpol).
  rewrite Ea in Ea0. injection Ea0 as <-.
  destruct (squeeze_bytes T a q bytes Eq) as [-> Ed].
  destruct (fq_hydrate_ok a _ es q R Hfit Hlen Ed) as (b & Eb & Wb & Hb). split; [by exists b|].
  intros m op literal Hal Hm Hcase.
  pose proof (lf_squeeze_ok T a _ es R Hfresh Hpol Hal) as Hs. rewrite Eq in Hs. destruct Hs as (_ & _ & nb & Q). assert (fq_patch_indices q = lf_patch_indices a) as Epi by (by eapply squeeze_patches).
  rewrite <- Epi in Hcase.
  assert (float_answer q op literal m (lf_to_bytes T a) (keep (pa_logical col) m)) as Ha.
  2: { split; [exact Ha|]. intros k Ek Nk Hk Hn. pose proof (native_float T literal k Ek) as El. unfold float_answer in Ha. rewrite El in Ha.
       destruct Ha as [Ha|(f & Hf' & Ha)]; [by exists []|]. rewrite (float_apply_cmp_ok T op f literal k Ek) in Ha.
       rewrite (total_rows_ok T op k _ _ Hf' Hn Nk Hk) in Ha. by eexists. }
  destruct (fq_filter_inner_ok T q _ es nb m Q Hm Hcase) as (q' & Eq' & Q').
  unfold float_answer, fq_try_eval_predicate. rewrite Eq'. run_step. cbn [from_datafusion].
  destruct (literal_float T literal) as [k|] eqn:Ek.
  2: { intros backing. unfold fq_try_eval_predicate_inner. rewrite Ek. run_step. done. }
  destruct (fq_inner_ok T q' _ _ nb op literal k Q' Ek) as [-> | ->]; [right|left; intros backing; run_step; done].
  run_step. rewrite Eb. run_step.
  assert (length m = length (pa_values b)) as Hmb by (rewrite <- (logical_len b Wb), (Forall2_length _ _ _ Hb); done).
  destruct (prim_filter_ok b m Wb (Nat.eq_le_incl _ _ Hmb)) as (f & -> & _ & Hfl & _).
  exists f. split; [rewrite Hfl; by apply Forall2_keep|done].
Qed.
End theorems.

(** ** Concrete columns *)

#[export] Instance total_order_compare : FloatCompare := {
  float_apply_cmp op a v :=
    match op, v with
    | DFCompare op, FsFloat32 (Some k) => Some (total_rows Float32Type op k (pa_logical a))
    | DFCompare op, FsFloat64 (Some k) => Some (total_rows Float64Type op k (pa_logical a))
    | _, _ => None
    end
}.

#[export] Instance total_order_compare_laws : FloatCompareLaws.
Proof. split. intros [] op a [[]|[]|[]|] k; cbn; by intros [= ->]. Qed.

(** 0.0, 12.8, a null and 300.0. *)
Definition tenths : PrimitiveArray := Prim [0; 0x402999999999999a; 0; 0x4072c00000000000] (Some [true; true; false; true]).

(** 1.0, 12.8 and 300.0: the reference, 10, is not the start of a bucket of 64. *)
Definition unaligned_tenths : PrimitiveArray := Prim [0x3ff0000000000000; 0x402999999999999a; 0x4072c00000000000] None.

Definition ten : FloatScalar := FsFloat64 (Some 0x4024000000000000).
Definition thirteen : FloatScalar := FsFloat64 (Some 0x402a000000000000).

Definition squeezed_tenths (col : PrimitiveArray) : outcome (LiquidFloatArray * LiquidFloatQuantizedArray * list Z) :=
  a ← encode_arrow_array Float64Type col (Exps 1 0);
  squeezed ← lf_squeeze Float64Type a;
  '(q, bytes) ← expect squeezed;
  Ret (a, q, bytes).

(** 0.0, 300.0 and a NaN, which is a patch. *)
Definition patched_tenths : PrimitiveArray := Prim [0; 0x4072c00000000000; 0x7ff8000000000000] None.

Definition ask_tenths (col : PrimitiveArray) (literal : FloatScalar) (m : list bool) : outcome (option BooleanArray) :=
  '(_, q, bytes) ← squeezed_tenths col;
  '(answer, _) ← fq_try_eval_predicate Float64Type q (FBinary (DFCompare OpLt) literal) m (Some bytes);
  Ret answer.

(** 0.0 and 2147483392.0, whose bucket ends at 2^31. *)
Definition wide_column : PrimitiveArray := Prim [0; 0x4efffffe] None.

(** Is it less than 2147449984.0? *)
Definition ask_wide : outcome (option BooleanArray) :=
  a ← encode_arrow_array Float32Type wide_column (Exps 0 0);
  squeezed ← lf_squeeze Float32Type a;
  '(q, bytes) ← expect squeezed;
  '(answer, _) ← fq_try_eval_predicate Float32Type q (FBinary (DFCompare OpLt) (FsFloat32 (Some 0x4efffef9))) [true; true]
    (Some bytes);
  Ret answer.

(** Without those conditions a squeezed float array is wrong: of 1.0, 12.8 and
    300.0, whose reference lies inside a bucket, it says that 12.8 is not less than
    13; the rows of a column with a patch, once the patch is filtered out, make the
    comparison panic, because a filtered array keeps the row numbers; and where the
    last bucket ends at 2^31 its end wraps to a negative number, so that
    2147483392.0 is less than 2147449984.0. *)
Example float_squeezed_wrong :
  ask_tenths unaligned_tenths thirteen [true; true; true] = Ret (Some [Some true; Some false; Some false])
  /\ float_rows Float64Type OpLt 0x402a000000000000 (pa_logical unaligned_tenths) = [Some true; Some true; Some false]
  /\ ask_tenths patched_tenths ten [true; true; false] = Panic
  /\ ask_tenths patched_tenths ten [true; true; true] = Ret (Some [Some true; Some false; Some false])
  /\ ask_wide = Ret (Some [Some true; Some true])
  /\ float_rows Float32Type OpLt 0x4efffef9 (pa_logical wide_column) = [Some true; Some false].
Proof. split_and!; vm_compute; reflexivity. Qed.

Definition tenths_array : LiquidFloatArray :=
  FloatArr (Exps 1 0) (bp_from_primitive 64 (Prim [0; 128; 0; 3000] (pa_nulls tenths)) 12) [] [] 0 FloatQuantize.

Lemma tenths_encode : encode_arrow_array Float64Type tenths (Exps 1 0) = Ret tenths_array.
Proof. vm_compute. reflexivity. Qed.

Lemma tenths_fits : lf_fits Float64Type tenths_array.
Proof.
  assert (word_size 64) as Hw by (unfold word_size; lia).
  pose proof (bp_from_primitive_wf 64 Hw (Prim [0; 128; 0; 3000] (pa_nulls tenths)) 12 eq_refl ltac:(lia)) as Wf.
  pose proof (bpw_chunks 64 _ Wf 12 eq_refl) as Hc. split; [|cbn; lia]. split; [cbn; lia|]. split; [vm_compute; reflexivity|].
  cbn [lf_bit_packed tenths_array]. rewrite Hc. cbn [original_len bp_from_primitive pa_values length].
  pose proof CHUNK_Z. pose proof (div_ceil_cases 4 CHUNK CHUNK_pos) as Hd.
  assert (4 / CHUNK = 0)%nat as E0 by (apply Nat.div_small; lia). rewrite E0 in Hd.
  change (fl_width (float_format Float64Type)) with 64.
  change (native_bytes 64) with 8%nat. change (packed_len 64 12) with 192%nat.
  destruct Hd as [[-> _]|[-> _]]; lia.
Qed.

Lemma tenths_squeeze : ∃ q bytes, lf_squeeze Float64Type tenths_array = Ret (Some (q, bytes)).
Proof.
  destruct (lf_encode_ok Float64Type tenths (Exps 1 0)) as (a & es & E & _ & Hfresh & _).
  - reflexivity.
  - repeat constructor; cbn; lia.
  - split; vm_compute; lia.
  - rewrite tenths_encode in E. injection E as <-. destruct (Hfresh 12%nat eq_refl) as (_ & p & Ep & _).
    unfold lf_squeeze. change (bp_bit_width (lf_bit_packed tenths_array)) with (Some 12%nat). cbv match.
    change (12 <? 8)%nat with false. cbv match. rewrite Ep. run_step. cbn [lf_squeeze_policy tenths_array]. eauto.
Qed.

Lemma float_squeezed_exact_witness :
  ∃ q bytes events, lf_squeeze Float64Type tenths_array = Ret (Some (q, bytes))
    /\ fq_try_eval_predicate Float64Type q (FBinary (DFCompare OpLt) ten) [true; true; false; true] (Some bytes)
       = Ret (Some [Some true; Some false; Some false], events).
Proof.
  destruct tenths_squeeze as (q & bytes & Es).
  destruct (float_squeezed_exact Float64Type tenths (Exps 1 0) tenths_array q bytes) as [_ Ha].
  - split; vm_compute; lia.
  - reflexivity.
  - repeat constructor; cbn; lia.
  - vm_compute. discriminate.
  - exact tenths_encode.
  - exact tenths_fits.
  - exact Es.
  - destruct (Ha [true; true; false; true] OpLt ten ltac:(split; vm_compute; reflexivity) eq_refl (or_introl eq_refl)) as [_ Hk].
    destruct (Hk 0x4024000000000000 eq_refl) as [events Hr].
    + vm_compute. reflexivity.
    + vm_compute. congruence.
    + repeat constructor.
    + exists q, bytes, events. split; [exact Es|]. rewrite Hr. vm_compute. reflexivity.
Defined.
