(* ===== verification/LiquidArrays.v ===== *)
(** * The liquid arrays together

    What [Arc<dyn LiquidArray>] holds, [read_from_bytes] of
    [src/src/storage/src/liquid_array/ipc.rs] over all formats, and the formats that
    [src/src/storage/src/cache/transcode.rs] chooses for the columns of each type
    when it has a compressor.  The bytes of any array are read back by the decoder
    of its own format. *)

From stdpp Require Import base list.
From Stdlib Require Import ZArith Lia.
From S2P Require Import Prelude Bytes Arrow BitPack CivilDate DataTypes Ipc Expressions Formats LiquidPrimitive CompactOffsets Floats.
From S2P Require Import Fsst ByteDict ByteView ByteCompare ByteViewSpec ByteViewReads ByteArray ByteArraySpec.
From S2P Require Import FixedLenByteArray FixedLenSpec LinearArray LinearSpec HybridArray FloatArray FloatSpec.
Local Open Scope Z_scope.

(** The columns of Arrow that have a liquid format: strings and binaries, or
    dictionaries of them with [UInt16] keys. *)
Inductive ArrowColumn `{NullBuffers} : Type :=
| ColInteger (t : PrimitivePhysicalType) (a : PrimitiveArray)
| ColFloat (t : LiquidFloatType) (a : PrimitiveArray)
| ColDecimal (t : ArrowFixedLenByteArrayType) (a : PrimitiveArray)
| ColBytes (t : ArrowByteType) (c : ByteColumn)
| ColDictionary (t : ArrowByteType) (d : DictionaryArray).

Section arrays.
Context `{NullBuffers} `{Fastlanes} {PK : PrimitiveKernels} {FL : FsstLib} {BK : ByteKernels} {DK : DecimalKernels}.

Inductive LiquidArray : Type :=
| LiqInteger (t : PrimitivePhysicalType) (a : LiquidPrimitiveArray)
| LiqLinear (t : PrimitivePhysicalType) (a : LiquidLinearArray)
| LiqFloat (t : LiquidFloatType) (a : LiquidFloatArray)
| LiqByteArray (a : LiquidByteArray)
| LiqByteView (a : LiquidByteViewArray FsstArray)
| LiqFixedLen (a : LiquidFixedLenByteArray).

(** ** The methods of the trait *)

Definition data_type (l : LiquidArray) : LiquidDataType :=
  match l with
  | LiqInteger _ _ => LInteger
  | LiqLinear _ _ => LLinearInteger
  | LiqFloat _ _ => LFloat
  | LiqByteArray _ => LByteArray
  | LiqByteView _ => LByteViewArray
  | LiqFixedLen _ => LFixedLenByteArray
  end.

(** The second tag of the header. *)
Definition type_tag (l : LiquidArray) : Z :=
  match l with
  | LiqInteger t _ | LiqLinear t _ => physical_type_id t
  | LiqFloat t _ => physical_type_id (float_physical t)
  | LiqByteArray a => arrow_byte_type_code (ba_arrow_type a)
  | LiqByteView a => arrow_byte_type_code (original_arrow_type a)
  | LiqFixedLen _ => 0
  end.

Definition to_bytes (l : LiquidArray) : Bytes :=
  match l with
  | LiqInteger t a => lp_to_bytes t a
  | LiqLinear t a => la_to_bytes t a
  | LiqFloat t a => lf_to_bytes t a
  | LiqByteArray a => ba_to_bytes a
  | LiqByteView a => bv_to_bytes a
  | LiqFixedLen a => fx_to_bytes a
  end.

Definition to_arrow_array (l : LiquidArray) : outcome ArrowColumn :=
  match l with
  | LiqInteger t a => b ← lp_to_arrow_array t a; Ret (ColInteger t b)
  | LiqLinear t a => b ← la_to_arrow_array t a; Ret (ColInteger t b)
  | LiqFloat t a => b ← lf_to_arrow_array t a; Ret (ColFloat t b)
  | LiqByteArray a => b ← ba_to_arrow_array a; Ret (ColBytes (ba_arrow_type a) b)
  | LiqByteView a => b ← bv_to_arrow_array a; Ret (ColBytes (original_arrow_type a) b)
  | LiqFixedLen a => b ← fx_to_arrow_array a; Ret (ColDecimal (fx_arrow_type a) b)
  end.

(** ** [read_from_bytes] *)

Definition expect_physical_type (id : Z) : outcome PrimitivePhysicalType := expect (physical_type_try_from id).

Definition deserialize_integer (t : PrimitivePhysicalType) (bytes : Bytes) : outcome LiquidArray :=
  if is_integer t then a ← lp_from_bytes t bytes; Ret (LiqInteger t a) else Panic.

Definition deserialize_linear_integer (t : PrimitivePhysicalType) (bytes : Bytes) : outcome LiquidArray :=
  if is_integer t then a ← la_from_bytes bytes; Ret (LiqLinear t a) else Panic.

Definition deserialize_float (t : PrimitivePhysicalType) (bytes : Bytes) : outcome LiquidArray :=
  match t with
  | PFloat32 => a ← lf_from_bytes Float32Type bytes; Ret (LiqFloat Float32Type a)
  | PFloat64 => a ← lf_from_bytes Float64Type bytes; Ret (LiqFloat Float64Type a)
  | _ => Panic
  end.

Definition read_from_bytes (bytes : Bytes) (context : option FsstCompressor) : outcome LiquidArray :=
  header ← header_from_bytes bytes;
  logical ← liquid_data_type_from (logical_type header);
  match logical with
  | LInteger => t ← expect_physical_type (physical_type header); deserialize_integer t bytes
  | LByteArray => compressor ← expect context; a ← ba_from_bytes bytes compressor; Ret (LiqByteArray a)
  | LByteViewArray => compressor ← expect context; a ← bv_from_bytes bytes compressor; Ret (LiqByteView a)
  | LFloat => t ← expect_physical_type (physical_type header); deserialize_float t bytes
  | LFixedLenByteArray => compressor ← expect context; a ← fx_from_bytes bytes compressor; Ret (LiqFixedLen a)
  | LLinearInteger => t ← expect_physical_type (physical_type header); deserialize_linear_integer t bytes
  end.

(** ** The format of a column *)

Context (array_memory_size : LiquidFloatArray -> Z).

Definition transcode_with (compressor : FsstCompressor) (build_fingerprints : bool) (array : ArrowColumn)
    : outcome LiquidArray :=
  match array with
  | ColInteger t a => l ← lp_from_arrow_array t a; Ret (LiqInteger t l)
  | ColFloat t a => l ← lf_from_arrow_array t array_memory_size a; Ret (LiqFloat t l)
  | ColDecimal t a => l ← from_decimal_array a compressor t; Ret (LiqFixedLen l)
  | ColBytes t col =>
      l ← bv_from_byte_array_inner (is_string t) col compressor (BVOptions t build_fingerprints); Ret (LiqByteView l)
  (* [from_unique_dict_array_with_options]: the dictionary is taken as it is. *)
  | ColDictionary t d => l ← bv_from_dict_array_inner d compressor (BVOptions t build_fingerprints); Ret (LiqByteView l)
  end.
End arrays.

(** ** Lemmas *)

Section lemmas.
Context `{NullBufferLaws} `{FastlanesLaws} {PK : PrimitiveKernels} {PL : PrimitiveKernelLaws} {FL : FsstLib}
  {LL : FsstLaws} {BK : ByteKernels} {BL : ByteKernelLaws} {DK : DecimalKernels} {DL : DecimalKernelLaws}.

(** Every format starts with its header. *)
Lemma to_bytes_header l :
  (∀ t a, l = LiqFloat t a -> length (lf_patch_indices a) = length (lf_patch_values a)) ->
  ∃ rest, to_bytes l = header_to_bytes (header_new (liquid_data_type_code (data_type l)) (type_tag l)) ++ rest.
Proof.
  intros Hf. destruct l as [t a|t a|t a|a|a|a]; cbn [to_bytes data_type type_tag].
  - unfold lp_to_bytes, array_to_bytes. cbv zeta. rewrite <- !app_assoc. by eexists.
  - unfold la_to_bytes. cbv zeta. rewrite <- !app_assoc. by eexists.
  - rewrite float_bytes_shape by (by eapply Hf). unfold float_prefix. rewrite <- !app_assoc. by eexists.
  - by eexists.
  - by eexists.
  - rewrite fx_bytes_shape. by eexists.
Qed.

Definition float_patched (l : LiquidArray) : Prop :=
  match l with LiqFloat _ a => length (lf_patch_indices a) = length (lf_patch_values a) | _ => True end.

(** What a format's own decoder makes of its bytes. *)
Definition own_decoder (l : LiquidArray) (context : option FsstCompressor) : outcome LiquidArray :=
  match l with
  | LiqInteger t a => if is_integer t then b ← lp_from_bytes t (lp_to_bytes t a); Ret (LiqInteger t b) else Panic
  | LiqLinear t a => if is_integer t then b ← la_from_bytes (la_to_bytes t a); Ret (LiqLinear t b) else Panic
  | LiqFloat t a => b ← lf_from_bytes t (lf_to_bytes t a); Ret (LiqFloat t b)
  | LiqByteArray a => c ← expect context; b ← ba_from_bytes (ba_to_bytes a) c; Ret (LiqByteArray b)
  | LiqByteView a => c ← expect context; b ← bv_from_bytes (bv_to_bytes a) c; Ret (LiqByteView b)
  | LiqFixedLen a => c ← expect context; b ← fx_from_bytes (fx_to_bytes a) c; Ret (LiqFixedLen b)
  end.

Lemma read_dispatch l context : float_patched l -> read_from_bytes (to_bytes l) context = own_decoder l context.
Proof.
  intros Hf. unfold read_from_bytes. destruct (to_bytes_header l) as [rest Eb]; [by intros t a ->|].
  assert (header_from_bytes (to_bytes l) = Ret (header_new (liquid_data_type_code (data_type l)) (type_tag l))) as ->.
  { rewrite Eb. apply header_roundtrip; [destruct l; cbn; lia|].
    destruct l as [[] a|[] a|[] a|a|a|a]; cbn; try lia; [destruct (ba_arrow_type a)|destruct (original_arrow_type a)]; cbn; lia. }
  run_step. cbn [logical_type physical_type header_new].
  assert (liquid_data_type_from (liquid_data_type_code (data_type l)) = Ret (data_type l)) as -> by by destruct l.
  run_step. unfold expect_physical_type.
  destruct l as [t a|t a|t a|a|a|a]; cbn [data_type type_tag to_bytes own_decoder]; rewrite ?physical_type_ids; cbn [expect];
    run_step; try done. by destruct t.
Qed.
End lemmas.

(** ** Theorems *)

Section theorems.
Context `{NullBufferLaws} `{FastlanesLaws} {PK : PrimitiveKernels} {PL : PrimitiveKernelLaws} {FL : FsstLib}
  {LL : FsstLaws} {BK : ByteKernels} {BL : ByteKernelLaws} {DK : DecimalKernels} {DL : DecimalKernelLaws}.
Context (array_memory_size : LiquidFloatArray -> Z).

(** A dictionary as Arrow gives it: some values, at most 2^16 of them and not too
    large, and every key one of them. *)
Definition dictionary_fits (c : FsstCompressor) (d : DictionaryArray) : Prop :=
  pa_wf (dict_keys d) /\ Forall (λ k, 0 <= k < Z.of_nat (length (dict_values d))) (pa_values (dict_keys d))
  /\ dict_values d ≠ [] /\ Z.of_nat (length (dict_values d)) <= 2 ^ 16 /\ Forall (Forall is_byte) (dict_values d)
  /\ zlen (concat (compress_into c <$> dict_values d)) < 2 ^ 32 /\ zlen (concat (dict_values d)) < 2 ^ 31.

(** A column as Arrow gives it, small enough for 32-bit offsets. *)
Definition column_ok (c : FsstCompressor) (col : ArrowColumn) : Prop :=
  match col with
  | ColInteger t a => is_integer t = true /\ pa_wf a /\ Forall (in_native t) (pa_values a)
  | ColFloat t a => pa_wf a /\ Forall (is_float t) (pa_values a) /\ zlen (pa_logical a) <= 2 ^ 64
  | ColDecimal t a => decimals_fit t c (pa_logical a)
  | ColBytes t col => column_fits c col
  | ColDictionary t d => dictionary_fits c d
  end.

(** The lengths that the byte formats write fit their fields. *)
Definition liquid_fits (l : LiquidArray) : Prop :=
  match l with
  | LiqInteger t a => bp_fits (native_width t) (lp_bit_packed a)
  | LiqLinear _ a => bp_fits 64 (lp_bit_packed (la_residuals a))
  | LiqFloat t a => lf_fits t a
  | LiqByteArray a => byte_bytes_fit a
  | LiqByteView a => bytes_fit a
  | LiqFixedLen a => fixed_bytes_fit a
  end.

(** The same type and rows, floats up to the sign of zeros. *)
Definition same_rows (b col : ArrowColumn) : Prop :=
  match b, col with
  | ColInteger t a, ColInteger t' a' => t = t' /\ pa_logical a = pa_logical a'
  | ColFloat t a, ColFloat t' a' => t = t' /\ same_column t (pa_logical a) (pa_logical a')
  | ColDecimal t a, ColDecimal t' a' => t = t' /\ pa_logical a = pa_logical a'
  | ColBytes t c, ColBytes t' c' => t = t' /\ c = c'
  | ColBytes t c, ColDictionary t' d => t = t' /\ c = dict_logical d
  | _, _ => False
  end.

Definition needs_compressor (col : ArrowColumn) : bool :=
  match col with ColDecimal _ _ | ColBytes _ _ | ColDictionary _ _ => true | _ => false end.

Definition reads_back (l : LiquidArray) (col : ArrowColumn) : Prop :=
  ∃ b, to_arrow_array l = Ret b /\ same_rows b col.

(** What the cache stores of a column, and what comes back of its bytes. *)
Definition stored_ok (c : FsstCompressor) (l : LiquidArray) (col : ArrowColumn) : Prop :=
  float_patched l /\ reads_back l col
  /\ (liquid_fits l ->
      ∀ context, context = Some c \/ needs_compressor col = false ->
      ∃ l', own_decoder l context = Ret l' /\ data_type l' = data_type l /\ reads_back l' col)
  /\ (needs_compressor col = true -> own_decoder l None = Panic).

Lemma integer_stored c t a :
  column_ok c (ColInteger t a) ->
  ∃ l, lp_from_arrow_array t a = Ret l /\ stored_ok c (LiqInteger t l) (ColInteger t a).
Proof.
  intros (Ht & Wf & F). destruct (lp_from_arrow_ok t a Wf F) as (l & E & [R _] & _). exists l. split; [done|].
  assert (∀ x, lp_repr t x (pa_logical a) -> reads_back (LiqInteger t x) (ColInteger t a)) as Hread.
  { intros x Rx. destruct (lp_to_arrow_ok t x _ Rx) as (b & Eb & Lb & _). exists (ColInteger t b). cbn. by rewrite Eb. }
  split; [done|]. split; [by apply Hread|]. split; [|done]. intros Hfit context _.
  destruct (lp_bytes_ok t l _ R Hfit) as (l' & El & R'). exists (LiqInteger t l'). cbn [own_decoder]. rewrite Ht, El. run_step.
  split; [done|]. split; [done|by apply Hread].
Qed.

Lemma float_stored c t a :
  column_ok c (ColFloat t a) ->
  ∃ l, lf_from_arrow_array t array_memory_size a = Ret l /\ stored_ok c (LiqFloat t l) (ColFloat t a).
Proof.
  intros (Wf & F & Hlen). destruct (lf_from_arrow_ok t array_memory_size a Wf F) as (l & es & E & R & _). exists l. split; [done|].
  assert (∀ x, lf_repr t x (pa_logical a) es -> reads_back (LiqFloat t x) (ColFloat t a)) as Hread.
  { intros x Rx. destruct (lf_decode_ok t x _ es Rx) as (b & Eb & _ & Hb). exists (ColFloat t b). cbn. by rewrite Eb. }
  split; [apply R|]. split; [by apply Hread|]. split; [|done]. intros Hfit context _.
  destruct (lf_bytes_ok t l _ es R Hfit Hlen) as (l' & El & R' & _). exists (LiqFloat t l'). cbn [own_decoder]. rewrite El. run_step.
  split; [done|]. split; [done|by apply Hread].
Qed.

Lemma decimal_stored c t a :
  column_ok c (ColDecimal t a) ->
  ∃ l, from_decimal_array a c t = Ret l /\ stored_ok c (LiqFixedLen l) (ColDecimal t a).
Proof.
  intros Hfits. destruct (fx_from_ok a t c Hfits) as (l & p & vs & E & Hh & Hcol & Ht & Hc). exists l. split; [done|].
  assert (∀ x q, fixed_holds x q vs -> decimal_column q vs = pa_logical a -> fx_arrow_type x = t ->
            reads_back (LiqFixedLen x) (ColDecimal t a)) as Hread.
  { intros x q Hx Hq Hxt. destruct (fx_arrow_ok x q vs Hx) as (b & Eb & _ & Hb). exists (ColDecimal t b). cbn [to_arrow_array]. rewrite Eb, Hxt.
    run_step. split; [done|]. split; [done|congruence]. }
  split; [done|]. split; [by eapply Hread|]. split; [|done]. intros Hfit context [->|?]; [|done].
  destruct (fx_bytes_ok l p vs Hh Hfit) as (l' & p' & El & Hh' & Hcol' & Ht'). rewrite Hc in El.
  exists (LiqFixedLen l'). cbn [own_decoder expect]. run_step. rewrite El. run_step. split; [done|]. split; [done|]. eapply Hread; [exact Hh'|congruence|congruence].
Qed.

(** A byte view array that holds the rows of a column. *)
Lemma view_stored c l values t rows col :
  view_holds l values -> fa_holds (fsst_buffer l) (Some <$> values) -> fa_compressor (fsst_buffer l) = c ->
  view_column l values = rows -> pa_wf (dictionary_keys l) -> original_arrow_type l = t ->
  Z.of_nat (length values) <= 2 ^ 16 -> values ≠ [] -> same_rows (ColBytes t rows) col -> needs_compressor col = true ->
  stored_ok c (LiqByteView l) col.
Proof.
  intros Hh Hf Hc Hcol Hk Ht Hn Hne Hsame Hneeds.
  assert (∀ x, view_holds x values -> fa_holds (fsst_buffer x) (Some <$> values) -> view_column x values = rows ->
            original_arrow_type x = t -> reads_back (LiqByteView x) col) as Hread.
  { intros x Hx Hxf Hxc Hxt. exists (ColBytes t rows). cbn [to_arrow_array]. rewrite (to_arrow_ok x values), Hxc, Hxt by done. done. }
  split; [done|]. split; [by apply Hread|]. split; [|done]. intros Hfit context [->|Hno]; [|by rewrite Hneeds in Hno].
  destruct (from_bytes_ok l values Hh Hf Hk Hn Hne Hfit) as (b & Eb & Hb & Ebuf & Ecol & Etype). rewrite Hc in Eb.
  exists (LiqByteView b). cbn [own_decoder expect]. run_step. rewrite Eb. run_step. split; [done|]. split; [done|]. apply Hread; congruence.
Qed.

Lemma bytes_stored c fp t col :
  column_ok c (ColBytes t col) ->
  ∃ l, bv_from_byte_array_inner (is_string t) col c (BVOptions t fp) = Ret l /\ stored_ok c (LiqByteView l) (ColBytes t col).
Proof.
  intros Hfits. destruct (from_column_ok (is_string t) col c (BVOptions t fp) Hfits) as (l & values & E & Hbu). exists l. split; [done|].
  pose proof (built_nonempty _ _ _ _ _ Hbu (cf_value _ _ Hfits)) as Hne.
  destruct Hbu as [Hh Hf Hc Hcol Hk Ht _ _ Hn _ _]. by apply (view_stored c l values t col).
Qed.

Lemma dictionary_stored c fp t d :
  column_ok c (ColDictionary t d) ->
  ∃ l, bv_from_dict_array_inner d c (BVOptions t fp) = Ret l /\ stored_ok c (LiqByteView l) (ColDictionary t d).
Proof.
  intros (Wf & Fk & Hne & Hn & Hb & Hc & Hp).
  destruct (from_dict_ok d c (BVOptions t fp) Hb Hc Hp Fk) as (l & E & Hh & Hf & Hcc & Ek & Et & _). exists l. split; [done|].
  apply (view_stored c l (dict_values d) t (dict_logical d)); try done; [|by rewrite Ek].
  by rewrite <- (view_column_dict l true), Ek.
Qed.

(** C21: every column that is transcoded with a compressor (integers, dates,
    timestamps, floats, decimals, strings, binaries, and dictionaries of these with
    UInt16 keys, which are taken as they are) reads back with its type and rows,
    floats up to the sign of zeros, and so does what [read_from_bytes] makes of its
    bytes: the header sends them to the decoder of their own format. Numbers need no
    compressor; decimals and byte strings panic without one. Conditions
    ([column_ok]): decimals have fewer than 2^16 rows, strings and binaries at most
    2^16 rows of which one is not null, dictionaries some values, at most 2^16 of
    them, with every key in range; the strings take less than 2^31 bytes and,
    compressed, like the decimals, less than 2^32; floats have at most 2^64 rows.
    Reading the bytes back asks that the lengths the formats write fit their 32-bit
    fields ([liquid_fits]). *)
Theorem ipc_roundtrip c fp col (Hcol : column_ok c col) :
  ∃ l, transcode_with array_memory_size c fp col = Ret l
       /\ reads_back l col
       /\ (liquid_fits l ->
           ∀ context, context = Some c \/ needs_compressor col = false ->
           ∃ l', read_from_bytes (to_bytes l) context = Ret l' /\ data_type l' = data_type l /\ reads_back l' col)
       /\ (needs_compressor col = true -> read_from_bytes (to_bytes l) None = Panic).
Proof.
  assert (∃ l, transcode_with array_memory_size c fp col = Ret l /\ stored_ok c l col) as (l & E & Hp & Hr & Hs & Hn).
  { destruct col as [t a|t a|t a|t x|t d]; cbn [transcode_with].
    - destruct (integer_stored c t a Hcol) as (l & -> & Hl). by eexists.
    - destruct (float_stored c t a Hcol) as (l & -> & Hl). by eexists.
    - destruct (decimal_stored c t a Hcol) as (l & -> & Hl). by eexists.
    - destruct (bytes_stored c fp t x Hcol) as (l & -> & Hl). by eexists.
    - destruct (dictionary_stored c fp t d Hcol) as (l & -> & Hl). by eexists. }
  exists l. split; [done|]. split; [done|]. split; intros; rewrite read_dispatch by done; auto.
Qed.
End theorems.

(** ** A concrete column *)

(** "cd", a null, "cd" and "ab" over the dictionary "ab", "cd". *)
Definition sample_dictionary : DictionaryArray :=
  Dictionary (Prim [1; 0; 1; 0] (Some [true; false; true; true])) [[97; 98]; [99; 100]] true.

Lemma sample_dictionary_fits : dictionary_fits escape sample_dictionary.
Proof.
  unfold dictionary_fits. split; [reflexivity|]. split; [repeat constructor; cbn; lia|]. split; [done|].
  split; [cbn; lia|]. split; [repeat constructor; unfold is_byte; lia|]. split; apply Z.ltb_lt; vm_compute; reflexivity.
Qed.

Definition sample_view : LiquidArray :=
  Eval vm_compute in
    match transcode_with (λ _, 0) escape false (ColDictionary BDict16Utf8 sample_dictionary) with
    | Ret l => l
    | _ => LiqInteger PInt8 (LiquidPrimitive (bp_new_null_array 0) 0 Clamp)
    end.

Lemma ipc_roundtrip_witness :
  ∃ l l', transcode_with (λ _, 0) escape false (ColDictionary BDict16Utf8 sample_dictionary) = Ret l
       /\ read_from_bytes (to_bytes l) (Some escape) = Ret l' /\ reads_back l' (ColDictionary BDict16Utf8 sample_dictionary)
       /\ read_from_bytes (to_bytes l) None = Panic.
Proof.
  destruct (ipc_roundtrip (λ _, 0) escape false (ColDictionary BDict16Utf8 sample_dictionary)) as (l & E & _ & Hs & Hn).
  - exact sample_dictionary_fits.
  - assert (l = sample_view) as El.
    { assert (transcode_with (λ _, 0) escape false (ColDictionary BDict16Utf8 sample_dictionary) = Ret sample_view) as E'
        by (vm_compute; reflexivity).
      rewrite E' in E. by injection E. }
    destruct (Hs ltac:(rewrite El; split; [split_and!|]; apply Z.ltb_lt; vm_compute; reflexivity) (Some escape) (or_introl eq_refl))
      as (l' & E' & _ & Hr).
    exists l, l'. split; [exact E|]. split; [exact E'|]. split; [exact Hr|apply Hn; reflexivity].
Defined.
