(* ===== verification/SampleFormats.v ===== *)
(** * A concrete instance of the format interfaces

    A small world of arrays that satisfies [FormatLaws]: columns of nullable
    integers of a few types, whose bytes are written and parsed, liquid arrays
    that may need the compressor they were encoded with, and squeezed date
    columns that keep one component of each row in memory.  The theorems of the
    cache are applied to it at concrete inputs. *)

From stdpp Require Import base list gmap strings.
From Stdlib Require Import ZArith Lia String.
From S2P Require Import Prelude CivilDate DataTypes Expressions Formats.
Local Open Scope Z_scope.

Inductive stype : Type := SInt64 | SDate32 | SUtf8 | SUtf8View | SDict | SBinaryView | SOther.

#[export] Instance stype_eq_dec : EqDecision stype.
Proof. solve_decision. Defined.

Definition to_dt (t : stype) : DataType :=
  match t with
  | SInt64 => TInt64 | SDate32 => TDate32 | SUtf8 => TUtf8 | SUtf8View => TUtf8View
  | SDict => TDictionary TUInt16 TInt32
  | SBinaryView => TBinaryView
  | SOther => TOther 0
  end.

Definition of_dt (t : DataType) : stype :=
  match t with
  | TInt64 => SInt64 | TDate32 => SDate32 | TUtf8 => SUtf8 | TUtf8View => SUtf8View
  | TDictionary _ _ => SDict
  | TBinaryView => SBinaryView
  | _ => SOther
  end.

Definition stype_code (t : stype) : Z :=
  match t with SInt64 => 0 | SDate32 => 1 | SUtf8 => 2 | SUtf8View => 3 | SDict => 4 | SBinaryView => 6 | SOther => 5 end.

Definition stype_of (z : Z) : stype :=
  match z with 0 => SInt64 | 1 => SDate32 | 2 => SUtf8 | 3 => SUtf8View | 4 => SDict | 6 => SBinaryView | _ => SOther end.

Record sarr : Type := SArr { sa_type : stype; sa_vals : list (option Z) }.

Record sliquid : Type := SLiq { sl_arr : sarr; sl_comp : option Z }.

Record ssq : Type := SSq { sq_field : Date32Field; sq_type : stype; sq_comps : list (option Z) }.

(** ** Bytes *)

Definition enc_cell (o : option Z) : list Z := match o with Some z => [1; z] | None => [0; 0] end.

Fixpoint enc_vals (l : list (option Z)) : list Z :=
  match l with [] => [] | o :: l => enc_cell o ++ enc_vals l end.

Fixpoint dec_vals (b : list Z) : list (option Z) :=
  match b with
  | flag :: z :: b => (if flag =? 1 then Some z else None) :: dec_vals b
  | _ => []
  end.

Definition enc_arr (a : sarr) : list Z := stype_code (sa_type a) :: enc_vals (sa_vals a).

Definition dec_arr (b : list Z) : option sarr :=
  match b with [] => None | c :: b => Some (SArr (stype_of c) (dec_vals b)) end.

Definition enc_liquid (l : sliquid) : list Z := enc_cell (sl_comp l) ++ enc_arr (sl_arr l).

(** The bytes of a compressed array are read back with its own compressor. *)
Definition dec_liquid (b : list Z) (c : option Z) : outcome sliquid :=
  match b with
  | flag :: k :: b =>
      a ← expect (dec_arr b);
      if flag =? 1 then
        match c with
        | Some k' => if k =? k' then Ret (SLiq a (Some k)) else Panic
        | None => Panic
        end
      else Ret (SLiq a None)
  | _ => Panic
  end.

(** ** Values *)

Definition sfilter (a : sarr) (m : list bool) : sarr := SArr (sa_type a) (keep (sa_vals a) m).

Definition week_day (z : Z) : Z := z mod 7.

Definition scomponent (f : Date32Field) (a : sarr) : list (option Z) :=
  fmap (M := option) week_day <$> sa_vals a.

Definition seval (threshold : Z) (a : sarr) : list (option bool) :=
  fmap (M := option) (λ z, z >? threshold) <$> sa_vals a.

Definition ssize (n : nat) : Z := Z.min (8 * Z.of_nat n) (2 ^ 63 - 1).

Definition s_primitive (t : DataType) : bool :=
  is_liquid_primitive t || is_float t || is_decimal t.

#[export] Instance sample_arrow : ArrowLib := {
  ArrayRef := sarr;
  NullBuffer := unit;
  PhysicalExpr := Z;
  is_primitive := s_primitive;
  arr_data_type a := to_dt (sa_type a);
  arr_len a := List.length (sa_vals a);
  arr_null_count a := Z.of_nat (List.length (List.filter (λ o, negb (bool_decide (is_Some o))) (sa_vals a)));
  arr_memory_size a := ssize (List.length (sa_vals a));
  arr_filter a m :=
    if decide (List.length m <= List.length (sa_vals a))%nat then Some (sfilter a m) else None;
  new_empty_array t := SArr (of_dt t) [];
  ipc_write _ _ a := Some (enc_arr a);
  ipc_read := dec_arr;
  as_dictionary_u16 a := bool_decide (sa_type a = SDict);
  view_gc a := if decide (sa_type a = SUtf8View) then Some a else None;
  child_data _ := [];
  with_child_data _ _ := None;
  struct_new _ arrays _ := Ret (SArr SOther (List.concat (sa_vals <$> arrays)));
  empty_binary_views n := SArr SBinaryView (replicate n None);
  null_binary_views n := SArr SBinaryView (replicate n None)
}.

Definition ssqueeze (l : sliquid) (hint : option Hint) : option (ssq * list Z) :=
  match hint, sa_type (sl_arr l) with
  | Some (ExtractDate32 f), SDate32 =>
      Some (SSq f SDate32 (scomponent f (sl_arr l)), enc_liquid l)
  | _, _ => None
  end.

Definition read_backing (b : option (list Z)) : outcome (sarr * list SqueezeIoEvent) :=
  b ← expect b; a ← expect (dec_arr (drop 2 b)); Ret (a, [SqRead (Z.of_nat (List.length b))]).

#[export] Instance sample_liquid : LiquidFormats := {
  Compressor := Z;
  LiquidArrayRef := sliquid;
  SqueezedRef := ssq;
  l_memory_size l := ssize (List.length (sa_vals (sl_arr l)) / 2);
  l_len l := List.length (sa_vals (sl_arr l));
  l_original_type l := to_dt (sa_type (sl_arr l));
  l_to_arrow l := Ret (sl_arr l);
  l_to_bytes l := Ret (enc_liquid l);
  l_filter l m := Ret (sfilter (sl_arr l) m);
  l_try_eval l p m := Ret (Some (seval p (sfilter (sl_arr l) m)));
  l_squeeze l hint := Ret (ssqueeze l hint);
  read_from_bytes := dec_liquid;
  primitive_from_arrow _ a := Ret (SLiq a None);
  float_from_arrow _ a := Ret (SLiq a None);
  decimal_from_arrow a c := Ret (SLiq a (Some c));
  decimal_train a := Ret (0, SLiq a (Some 0));
  view_from_arrow a c _ := Ret (SLiq a (Some c));
  view_train a _ := Ret (0, SLiq a (Some 0));
  s_memory_size s := ssize (List.length (sq_comps s) / 4);
  s_len s := List.length (sq_comps s);
  s_original_type s := to_dt (sq_type s);
  s_disk_backing _ := BackingLiquid;
  s_to_arrow _ b := read_backing b;
  s_filter _ m b := '(a, es) ← read_backing b; Ret (sfilter a m, es);
  s_try_eval _ _ _ _ := Ret (None, []);
  s_as_date32 s := Some (sq_field s, SArr (sq_type s) (sq_comps s));
  s_as_variant _ := None;
  s_of_variant _ := SSq Year SOther []
}.

(** ** Laws *)

Lemma dec_enc_vals l : dec_vals (enc_vals l) = l.
Proof. induction l as [|[z|] l IH]; simpl; by rewrite ?IH. Qed.

Lemma dec_enc_arr a : dec_arr (enc_arr a) = Some a.
Proof. destruct a as [t l]. unfold dec_arr, enc_arr. simpl. rewrite dec_enc_vals. by destruct t. Qed.

Lemma dec_enc_liquid l c :
  sl_comp l = None ∨ sl_comp l = c → dec_liquid (enc_liquid l) c = Ret l.
Proof.
  destruct l as [a [k|]]; unfold enc_liquid, dec_liquid; cbn [sl_comp sl_arr enc_cell app];
    rewrite dec_enc_arr; cbn; [|done]. intros [|<-]; [done|]. by rewrite Z.eqb_refl.
Qed.

Lemma ssize_range n : 0 <= ssize n < 2 ^ 63.
Proof. unfold ssize. lia. Qed.

Lemma of_to_dt t : of_dt (to_dt t) = t.
Proof. by destruct t. Qed.

#[export, program] Instance sample_laws : FormatLaws := {
  Val := sarr;
  vlen a := List.length (sa_vals a);
  vtype a := to_dt (sa_type a);
  vfilter := sfilter;
  extracted f v := SArr (sa_type v) (scomponent f v);
  peval := seval;
  den a := a;
  arr_depth _ := 0%nat;
  l_ok c l v := sl_arr l = v ∧ (sl_comp l = None ∨ sl_comp l = c);
  s_ok s v b :=
    sq_type s = sa_type v ∧ sq_comps s = scomponent (sq_field s) v
    ∧ ∃ l, b = enc_liquid l ∧ sl_arr l = v
}.
Next Obligation. intros [t l]. unfold sfilter. cbn. by rewrite keep_true. Qed.
Next Obligation. intros f v. cbn. apply length_fmap. Qed.
Next Obligation. intros t H. unfold is_primitive, sample_arrow, s_primitive. destruct H as [->|[->| ->]]; by rewrite ?orb_true_r. Qed.
Next Obligation. intros t H. by destruct t. Qed.
Next Obligation. done. Qed.
Next Obligation. done. Qed.
Next Obligation. done. Qed.
Next Obligation. intros a. apply ssize_range. Qed.
Next Obligation. intros a m H. cbn in *. rewrite decide_True by done. eauto. Qed.
Next Obligation. intros [t l] m H Hc. cbn. unfold sfilter. cbn. by rewrite of_to_dt, keep_none. Qed.
Next Obligation. intros a. exists (enc_arr a), a. split_and!; [done|apply dec_enc_arr|done]. Qed.
Next Obligation. intros [[] l] k v H; cbn in *; try discriminate. injection H as <- <-. by rewrite bool_decide_true. Qed.
Next Obligation. intros a c H. by apply elem_of_nil in H. Qed.
Next Obligation. intros a a' H. cbn in H. case_decide; by simplify_eq. Qed.
Next Obligation. done. Qed.
Next Obligation. intros l. apply ssize_range. Qed.
Next Obligation. intros l v c [<- [H|H]]; split; auto. Qed.
Next Obligation. intros c l v [<- H]. done. Qed.
Next Obligation. intros c l v [<- H]. done. Qed.
Next Obligation. intros c l v [<- H]. by eexists. Qed.
Next Obligation. intros c l v m [<- H] _. by eexists. Qed.
Next Obligation. intros c l v p m [<- H] _. eexists. split; [done|]. by intros b [= <-]. Qed.
Next Obligation.
  intros c l v [<- H]. exists (enc_liquid l). split; [done|].
  exists l. split; [by apply dec_enc_liquid|done].
Qed.
Next Obligation.
  intros c l v hint [<- H]. eexists. split; [done|]. intros s b E. unfold ssqueeze in E.
  destruct hint as [[f| | |]|]; try discriminate. destruct (sa_type (sl_arr l)) eqn:Et; try discriminate.
  injection E as <- <-. split_and!; try done. by exists l.
Qed.
Next Obligation. intros a _. exists (SLiq a None). cbn. auto. Qed.
Next Obligation. intros a _. exists (SLiq a None). cbn. auto. Qed.
Next Obligation. intros a c _. exists (SLiq a (Some c)). cbn. auto. Qed.
Next Obligation. intros a _. exists 0, (SLiq a (Some 0)). cbn. auto. Qed.
Next Obligation. intros a c o _. exists (SLiq a (Some c)). cbn. auto. Qed.
Next Obligation. intros a o _. exists 0, (SLiq a (Some 0)). cbn. auto. Qed.
Next Obligation. intros s. apply ssize_range. Qed.
Next Obligation. intros s v b (_ & H & _). cbn. rewrite H. by unfold scomponent; rewrite length_fmap. Qed.
Next Obligation. intros s v b (H & _). cbn. by rewrite H. Qed.
Next Obligation. intros s v b (_ & _ & l & -> & <-). cbn. unfold enc_liquid.
  assert (drop 2 (enc_cell (sl_comp l) ++ enc_arr (sl_arr l)) = enc_arr (sl_arr l)) as -> by (by destruct (sl_comp l)).
  rewrite dec_enc_arr. cbn. eauto. Qed.
Next Obligation. intros s v b m (_ & _ & l & -> & <-) _. cbn. unfold enc_liquid.
  assert (drop 2 (enc_cell (sl_comp l) ++ enc_arr (sl_arr l)) = enc_arr (sl_arr l)) as -> by (by destruct (sl_comp l)).
  rewrite dec_enc_arr. cbn. eauto. Qed.
Next Obligation. intros s v b p m _ _. eexists _, _. split; [done|]. done. Qed.
Next Obligation.
  intros s v b f a (Ht & H & _) E. cbn in E. injection E as <- <-. cbn. by rewrite Ht, H.
Qed.
