(* ===== verification/IntegerFormats.v ===== *)
(** * The formats of integer, date and timestamp columns

    The interface of [Formats.v] built from the code: [LiquidPrimitiveArray] with its
    byte format ([LiquidPrimitive.v]) and the three arrays it is squeezed to
    ([SqueezedDate32.v], [HybridArray.v]).  [integer_laws] proves every law of
    [FormatLaws] of them, so that what is shown of the cache holds of these formats.
    Arrow arrays are integer columns of less than [2 ^ 28] rows, or columns of types
    that have no liquid format; Arrow's own operations (filter, comparison kernels,
    IPC streams) are concrete functions that do what is documented of them. *)

From stdpp Require Import base list strings.
From Stdlib Require Import ZArith Lia String.
From S2P Require Import Prelude Bytes Arrow BitPack CivilDate DataTypes Ipc Expressions Formats SampleFormats.
From S2P Require Import SqueezedDate32 LiquidPrimitive HybridArray HybridSpec.
Local Open Scope Z_scope.

(** ** Columns *)

Inductive ColumnType : Type :=
| CInteger (T : PrimitivePhysicalType) (H : Is_true (is_integer T))
| COther (code : nat).

Definition data_type_of (t : ColumnType) : DataType :=
  match t with
  | CInteger T _ =>
      match T with
      | PInt8 => TInt8 | PInt16 => TInt16 | PInt32 => TInt32 | PInt64 => TInt64
      | PUInt8 => TUInt8 | PUInt16 => TUInt16 | PUInt32 => TUInt32 | PUInt64 => TUInt64
      | PDate32 => DataTypes.TDate32 | PDate64 => TDate64
      | PTimestampSecond => DataTypes.TTimestamp Second None
      | PTimestampMillisecond => DataTypes.TTimestamp Millisecond None
      | PTimestampMicrosecond => DataTypes.TTimestamp Microsecond None
      | PTimestampNanosecond => DataTypes.TTimestamp Nanosecond None
      | PFloat32 => TFloat32 | PFloat64 => TFloat64
      end
  | COther code => TOther code
  end.

Definition column_type_of (t : DataType) : ColumnType :=
  match t with
  | TInt8 => CInteger PInt8 I | TInt16 => CInteger PInt16 I | TInt32 => CInteger PInt32 I | TInt64 => CInteger PInt64 I
  | TUInt8 => CInteger PUInt8 I | TUInt16 => CInteger PUInt16 I | TUInt32 => CInteger PUInt32 I
  | TUInt64 => CInteger PUInt64 I
  | DataTypes.TDate32 => CInteger PDate32 I | TDate64 => CInteger PDate64 I
  | DataTypes.TTimestamp Second None => CInteger PTimestampSecond I
  | DataTypes.TTimestamp Millisecond None => CInteger PTimestampMillisecond I
  | DataTypes.TTimestamp Microsecond None => CInteger PTimestampMicrosecond I
  | DataTypes.TTimestamp Nanosecond None => CInteger PTimestampNanosecond I
  | TOther code => COther code
  | _ => COther 0
  end.

Lemma column_type_back t : column_type_of (data_type_of t) = t.
Proof. destruct t as [T H|code]; [|done]. by destruct T; try done; destruct H. Qed.

#[export] Instance in_native_dec T v : Decision (in_native T v).
Proof. unfold in_native. destruct (is_unsigned T); apply _. Defined.

#[export] Instance pa_wf_dec (a : @PrimitiveArray list_null_buffers) : Decision (pa_wf a).
Proof. unfold pa_wf. destruct (pa_nulls a); apply _. Defined.

(** What the type system guarantees of an array, and its size. *)
Definition array_fits (T : PrimitivePhysicalType) (a : PrimitiveArray) : Prop :=
  pa_wf a /\ Forall (in_native T) (pa_values a) /\ Z.of_nat (List.length (pa_values a)) < 2 ^ 28.

#[export] Instance array_fits_dec T a : Decision (array_fits T a).
Proof. unfold array_fits. apply _. Defined.

Record IntegerColumn (T : PrimitivePhysicalType) : Type := Integers {
  ic_array : PrimitiveArray;
  ic_fits : Is_true (bool_decide (array_fits T ic_array))
}.
Arguments Integers {T}.
Arguments ic_array {T}.
Arguments ic_fits {T}.

Inductive Column : Type :=
| ColIntegers (T : PrimitivePhysicalType) (H : Is_true (is_integer T)) (c : IntegerColumn T)
| ColOther (code : nat) (rows : list (option Z)).

Definition column_type (c : Column) : ColumnType :=
  match c with ColIntegers T H _ => CInteger T H | ColOther code _ => COther code end.

Definition column_rows (c : Column) : list (option Z) :=
  match c with ColIntegers _ _ c => pa_logical (ic_array c) | ColOther _ rows => rows end.

(** An array that the code made, as a column. *)
Definition to_column (T : PrimitivePhysicalType) (a : PrimitiveArray) : outcome Column :=
  match decide (Is_true (is_integer T)), decide (Is_true (bool_decide (array_fits T a))) with
  | left H, left F => Ret (ColIntegers T H (Integers a F))
  | _, _ => Undefined
  end.

Lemma to_column_ok T a :
  is_integer T = true -> array_fits T a ->
  ∃ c H, to_column T a = Ret c /\ column_type c = CInteger T H /\ column_rows c = pa_logical a.
Proof.
  intros Hi Hf. unfold to_column. destruct (decide (Is_true (is_integer T))) as [H|H]; [|by rewrite Hi in H].
  destruct (decide _) as [F|F]; [by eexists _, H|]. exfalso. apply F. by apply bool_decide_pack.
Qed.

Lemma empty_fits T : Is_true (bool_decide (array_fits T (Prim [] None))).
Proof. by apply bool_decide_pack. Qed.

(** Rows as an array. *)
Definition of_rows (rows : list (option Z)) : PrimitiveArray :=
  Prim (default 0 <$> rows) (Some (((λ o, bool_decide (is_Some o)) <$> rows) : list bool)).

Lemma of_rows_logical rows : pa_logical (of_rows rows) = rows.
Proof.
  unfold pa_logical, of_rows, logical, mask_values. cbn. induction rows as [|[v|] rows IH]; [done|..]; cbn; by rewrite IH.
Qed.

Lemma of_rows_fits T (rows : list (option Z)) :
  Forall (in_native T) (valid_values rows) -> Z.of_nat (List.length rows) < 2 ^ 28 -> array_fits T (of_rows rows).
Proof.
  intros F Hl. split; [|split].
  - unfold pa_wf, of_rows. cbn. by rewrite !length_fmap.
  - cbn. clear Hl. induction rows as [|[v|] rows IH]; cbn in *; [constructor|..].
    + apply Forall_cons in F as [? F]. constructor; auto.
    + constructor; [|auto]. pose proof (as_native_range T 0). unfold in_native.
      pose proof (native_width_range T). destruct (is_unsigned T); pose proof (Z.pow_pos_nonneg 2 (native_width T - 1));
        pose proof (Z.pow_pos_nonneg 2 (native_width T)); lia.
  - cbn. by rewrite length_fmap.
Qed.

(** An allocation is smaller than [isize::MAX]. *)
Definition allocated (bytes : Z) : Z := Z.max 0 (Z.min bytes (2 ^ 63 - 1)).

Definition column_filter (c : Column) (m : list bool) : option Column :=
  match c with
  | ColIntegers T _ c =>
      a ← prim_filter (ic_array c) m;
      match to_column T a with Ret c => Some c | _ => None end
  | ColOther code rows => if decide (List.length m <= List.length rows)%nat then Some (ColOther code (keep rows m)) else None
  end.

Definition new_empty (t : ColumnType) : Column :=
  match t with
  | CInteger T H => ColIntegers T H (Integers (Prim [] None) (empty_fits T))
  | COther code => ColOther code []
  end.

(** An IPC stream: a type code, then the rows. *)
Definition column_write (c : Column) : Bytes :=
  match c with
  | ColIntegers T _ c => physical_type_id T :: enc_vals (pa_logical (ic_array c))
  | ColOther code rows => 16 + Z.of_nat code :: enc_vals rows
  end.

Definition column_read (b : Bytes) : option Column :=
  match b with
  | [] => None
  | code :: b =>
      match physical_type_try_from code with
      | Some T => match to_column T (of_rows (dec_vals b)) with Ret c => Some c | _ => None end
      | None => Some (ColOther (Z.to_nat (code - 16)) (dec_vals b))
      end
  end.

#[export] Instance integer_arrow : ArrowLib := {
  ArrayRef := Column;
  NullBuffer := list bool;
  PhysicalExpr := PExpr;
  is_primitive t := is_liquid_primitive t || is_float t || is_decimal t;
  arr_data_type c := data_type_of (column_type c);
  arr_len c := List.length (column_rows c);
  arr_null_count c := Z.of_nat (List.length (List.filter (λ o, negb (bool_decide (is_Some o))) (column_rows c)));
  arr_memory_size c := allocated (8 * Z.of_nat (List.length (column_rows c)));
  arr_filter := column_filter;
  new_empty_array t := new_empty (column_type_of t);
  ipc_write _ _ c := Some (column_write c);
  ipc_read := column_read;
  as_dictionary_u16 _ := false;
  view_gc _ := None;
  child_data _ := [];
  with_child_data _ _ := None;
  struct_new _ _ _ := Panic;
  empty_binary_views n := ColOther 0 (replicate n None);
  null_binary_views n := ColOther 0 (replicate n None)
}.

(** ** The liquid arrays *)

Record LiquidInteger : Type := LiqInteger { li_type : PrimitivePhysicalType; li_array : LiquidPrimitiveArray }.

Inductive SqueezedColumn : Type :=
| SqInteger (T : PrimitivePhysicalType) (a : SqueezedPrimitive)
| SqVariant (v : VariantStructSqueezed LiquidInteger (list bool)).

(** [read_from_bytes] of [ipc.rs], the branch of integers. *)
Definition integer_from_bytes (bytes : Bytes) : outcome LiquidInteger :=
  header ← header_from_bytes bytes;
  logical ← liquid_data_type_from (logical_type header);
  match logical with
  | LInteger =>
      T ← expect (physical_type_try_from (physical_type header));
      if is_integer T then l ← lp_from_bytes T bytes; Ret (LiqInteger T l) else Panic
  | _ => Panic
  end.

(** [to_arrow_array] and [filter] of [SqueezedDate32Array]. *)
Definition sd_to_arrow_array (a : SqueezedDate32Array) : SqueezeIo PrimitiveArray := λ backing,
  '(from, to) ← expect (sd_backing a);
  hydrate_full_arrow (λ _, Panic) (Z.to_nat from, Z.to_nat to) backing.

Definition sd_filter (a : SqueezedDate32Array) (selection : list bool) : SqueezeIo PrimitiveArray := λ backing,
  if (count_set_bits selection =? 0)%nat then Ret (Prim [] None, [])
  else
    '(full, events) ← sd_to_arrow_array a backing;
    filtered ← expect (prim_filter full selection);
    Ret (filtered, events).

(** The methods of [LiquidSqueezedArray]. *)
Definition squeezed_to_arrow (T : PrimitivePhysicalType) (s : SqueezedPrimitive) : SqueezeIo PrimitiveArray :=
  match s with
  | SqueezedDate a => sd_to_arrow_array a
  | SqueezedClamped c => cl_to_arrow_array T (λ _, Panic) c
  | SqueezedQuantized q => qu_to_arrow_array (λ _, Panic) q
  end.

Definition squeezed_filter (T : PrimitivePhysicalType) (s : SqueezedPrimitive) (selection : list bool)
    : SqueezeIo PrimitiveArray :=
  match s with
  | SqueezedDate a => sd_filter a selection
  | SqueezedClamped c => cl_filter T (λ _, Panic) c selection
  | SqueezedQuantized q => qu_filter (λ _, Panic) q selection
  end.

Definition squeezed_try_eval (T : PrimitivePhysicalType) (s : SqueezedPrimitive) (p : PExpr) (selection : list bool)
    : SqueezeIo (option BooleanArray) :=
  match s with
  | SqueezedDate _ => λ _, Ret (None, [])
  | SqueezedClamped c => cl_try_eval_predicate T (λ _, Panic) c p selection
  | SqueezedQuantized q => qu_try_eval_predicate T (λ _, Panic) q p selection
  end.

Definition squeezed_len (s : SqueezedPrimitive) : nat :=
  match s with
  | SqueezedDate a => sd_len a
  | SqueezedClamped c => bp_len (cl_squeezed c)
  | SqueezedQuantized q => bp_len (qu_quantized q)
  end.

Definition squeezed_date (T : PrimitivePhysicalType) (s : SqueezedPrimitive) : option (Date32Field * Column) :=
  match s with
  | SqueezedDate a =>
      match (p ← to_component_array a; to_column T p) with
      | Ret c => Some (sd_field a, c)
      | _ => None
      end
  | _ => None
  end.

Definition packed_size (T : PrimitivePhysicalType) (a : BitPackedArray) : Z :=
  allocated (Z.of_nat (List.length (packed_values a) * native_bytes (native_width T)) + native_width T / 8).

Definition squeezed_size (T : PrimitivePhysicalType) (s : SqueezedPrimitive) : Z :=
  match s with
  | SqueezedDate a => packed_size PInt32 (sd_bit_packed a)
  | SqueezedClamped c => packed_size T (cl_squeezed c)
  | SqueezedQuantized q => packed_size T (qu_quantized q)
  end.

(** An array made by an asynchronous method, as a column. *)
Definition io_column (T : PrimitivePhysicalType) (io : SqueezeIo PrimitiveArray) : SqueezeIo Column := λ backing,
  '(a, events) ← io backing; c ← to_column T a; Ret (c, events).

Definition integer_type_of (T : PrimitivePhysicalType) : DataType :=
  match decide (Is_true (is_integer T)) with left H => data_type_of (CInteger T H) | right _ => TOther 0 end.

Definition li_to_arrow (l : LiquidInteger) : outcome Column :=
  a ← lp_to_arrow_array (li_type l) (li_array l); to_column (li_type l) a.

Definition li_filter (l : LiquidInteger) (m : list bool) : outcome Column :=
  a ← lp_filter (li_type l) (li_array l) m; to_column (li_type l) a.

Definition li_squeeze (l : LiquidInteger) (hint : option Hint) : outcome (option (SqueezedColumn * Bytes)) :=
  r ← lp_squeeze (li_type l) hint (li_array l);
  Ret (option_map (λ x : SqueezedPrimitive * Bytes, (SqInteger (li_type l) x.1, x.2)) r).

Definition li_from_arrow (c : Column) : outcome LiquidInteger :=
  match c with
  | ColIntegers T _ c => l ← lp_from_arrow_array T (ic_array c); Ret (LiqInteger T l)
  | ColOther _ _ => Panic
  end.

#[export] Instance integer_liquid : LiquidFormats := {
  Compressor := unit;
  LiquidArrayRef := LiquidInteger;
  SqueezedRef := SqueezedColumn;
  l_memory_size l := packed_size (li_type l) (lp_bit_packed (li_array l));
  l_len l := lp_len (li_array l);
  l_original_type l := integer_type_of (li_type l);
  l_to_arrow := li_to_arrow;
  l_to_bytes l := Ret (lp_to_bytes (li_type l) (li_array l));
  l_filter := li_filter;
  l_try_eval _ _ _ := Ret None;
  l_squeeze := li_squeeze;
  read_from_bytes bytes _ := integer_from_bytes bytes;
  primitive_from_arrow _ c := li_from_arrow c;
  float_from_arrow _ _ := Panic;
  decimal_from_arrow _ _ := Panic;
  decimal_train _ := Panic;
  view_from_arrow _ _ _ := Panic;
  view_train _ _ := Panic;
  s_memory_size s := match s with SqInteger T a => squeezed_size T a | SqVariant v => allocated (Z.of_nat (vs_len v)) end;
  s_len s := match s with SqInteger _ a => squeezed_len a | SqVariant v => vs_len v end;
  s_original_type s := match s with SqInteger T _ => integer_type_of T | SqVariant v => vs_original_arrow_type v end;
  s_disk_backing s := match s with SqInteger _ _ => BackingLiquid | SqVariant _ => BackingArrow end;
  s_to_arrow s := match s with SqInteger T a => io_column T (squeezed_to_arrow T a) | SqVariant _ => λ _, Panic end;
  s_filter s m := match s with SqInteger T a => io_column T (squeezed_filter T a m) | SqVariant _ => λ _, Panic end;
  s_try_eval s p m := match s with SqInteger T a => squeezed_try_eval T a p m | SqVariant _ => λ _, Panic end;
  s_as_date32 s := match s with SqInteger T a => squeezed_date T a | SqVariant _ => None end;
  s_as_variant s := match s with SqInteger _ _ => None | SqVariant v => Some v end;
  s_of_variant := SqVariant
}.

(** ** What they hold *)

Definition small (rows : list (option Z)) : Prop := Z.of_nat (List.length rows) < 2 ^ 28.

Lemma pack_bits_le fuel bs : (List.length (pack_bits fuel bs) <= fuel)%nat.
Proof. revert bs. induction fuel as [|fuel IH]; intros [|b bs]; cbn; try lia. specialize (IH (drop 8 (b :: bs))). cbn in IH. lia. Qed.

(** The headers of a packed array have room for as many rows. *)
Lemma small_fits w (a : BitPackedArray) :
  word_size w -> bp_wf w a -> Z.of_nat (original_len a) < 2 ^ 28 -> bp_fits w a.
Proof.
  intros Hw Wf Hl. destruct (native_bytes_bits w Hw) as [E8 _]. split; [lia|]. split.
  - unfold nulls_bytes. pose proof (bpw_nulls _ _ Wf) as Hn. destruct (bp_nulls a) as [n|]; [|cbn; lia].
    cbn in *. pose proof (pack_bits_le (List.length n) n). lia.
  - assert (w <= 64) by (destruct Hw as [->|[->|[->| ->]]]; lia).
    destruct (bp_bit_width a) as [b|] eqn:Eb.
    + rewrite (bpw_chunks _ _ Wf b Eb). pose proof (bpw_width _ _ Wf b Eb) as Hb.
      pose proof (packed_len_bits w b Hw Hb) as Ep. pose proof CHUNK_Z.
      assert (Z.of_nat (div_ceil (original_len a) CHUNK) <= 2 ^ 18 + 1) as Hd.
      { pose proof (Nat.div_mod (original_len a) CHUNK ltac:(lia)) as Ed.
        destruct (div_ceil_cases (original_len a) CHUNK CHUNK_pos) as [[-> _]|[-> _]];
          (assert (1024 * Z.of_nat (original_len a / CHUNK) <= Z.of_nat (original_len a)) by nia); lia. }
      assert (Z.of_nat (packed_len w b) * Z.of_nat (native_bytes w) <= 8192) by nia.
      rewrite !Nat2Z.inj_mul. nia.
    + destruct (bpw_null _ _ Wf Eb) as [_ ->]. nia.
Qed.

Lemma keep_le {A} (l : list A) m : (List.length (keep l m) <= List.length l)%nat.
Proof. revert m. induction l as [|x l IH]; intros [|[] m]; cbn; try lia; specialize (IH m); lia. Qed.

Section held.
Context (T : PrimitivePhysicalType).

Lemma holds_small_fits l rows : lp_repr T l rows -> small rows -> bp_fits (native_width T) (lp_bit_packed l).
Proof.
  intros R Hs. apply small_fits; [apply native_word|apply R|]. rewrite (lh_len _ _ _ R). exact Hs.
Qed.

(** What is read back can be squeezed like the array that was written. *)
Lemma lp_bytes_holds l rows :
  lp_holds T l rows -> small rows ->
  ∃ l', lp_from_bytes T (lp_to_bytes T l) = Ret l' /\ lp_holds T l' rows.
Proof.
  intros [R Hw] Hs. pose proof (holds_small_fits l rows R Hs) as Hfit.
  destruct (lp_bytes_ok T l rows R Hfit) as (l' & E & R'). exists l'. split; [done|]. split; [done|].
  destruct R as [Wf Hr _ _ _].
  destruct (array_bytes_ok T (liquid_data_type_code LInteger) (lp_reference_value l) (lp_bit_packed l)
              ltac:(cbn; lia) Hr Wf Hfit) as (bp' & Ea & _ & _ & _ & Ebp).
  unfold lp_from_bytes, lp_to_bytes in E. rewrite Ea in E. cbn in E. injection E as <-. cbn [lp_bit_packed lp_reference_value].
  destruct (bp_bytes_same _ (native_word T) _ Wf Hfit) as (bp2 & Ebp2 & _ & _ & _ & Hcase).
  rewrite Ebp in Ebp2. injection Ebp2 as <-. intros b Eb. destruct Hcase as [->|[ns ->]]; [done|]. cbn in Eb.
  destruct (Hw b Eb) as (H1 & H2 & p & Ep & F). split; [done|]. split; [done|].
  unfold bp_to_primitive in Ep |- *. cbn [bp_bit_width packed_values original_len]. rewrite Eb in Ep |- *.
  destruct (unpack_chunks _ _ _ _ _ _) as [out| | |]; try done. injection Ep as <-.
  eexists. split; [done|]. exact F.
Qed.

Lemma lp_to_arrow_fits l rows :
  lp_repr T l rows -> small rows ->
  ∃ a, lp_to_arrow_array T l = Ret a /\ pa_logical a = rows /\ array_fits T a.
Proof.
  intros R Hs. destruct (lp_to_arrow_ok T l rows R) as (a & E & Hl & Wf & Hlen). exists a. split; [done|]. split; [done|].
  split; [done|]. split; [|by rewrite Hlen]. unfold lp_to_arrow_array in E.
  destruct (bp_to_primitive _ _) as [u| | |]; [|done..]. injection E as <-. cbn [pa_values].
  destruct (negb _); apply Forall_fmap, Forall_true; intros v; apply as_native_range.
Qed.

Lemma filter_fits a m :
  array_fits T a -> (List.length m <= List.length (pa_values a))%nat ->
  ∃ f, prim_filter a m = Some f /\ pa_logical f = keep (pa_logical a) m /\ array_fits T f.
Proof.
  intros (Wf & F & Hl) Hm. destruct (prim_filter_ok a m Wf Hm) as (f & E & Wf' & Hk & Hin). exists f.
  split; [done|]. split; [done|]. split; [done|]. split.
  - rewrite Forall_forall in F |- *. auto.
  - rewrite <- logical_len, Hk by done. pose proof (keep_le (pa_logical a) m) as Hle. rewrite logical_len in Hle by done. lia.
Qed.

Lemma lp_bytes_dispatch l :
  is_integer T = true -> integer_from_bytes (lp_to_bytes T l) = (x ← lp_from_bytes T (lp_to_bytes T l); Ret (LiqInteger T x)).
Proof.
  intros Hint. unfold integer_from_bytes. rewrite lp_bytes_header.
  run_step. cbn [logical_type physical_type header_new liquid_data_type_code liquid_data_type_from]. run_step.
  rewrite physical_type_ids. cbn [expect]. run_step. by rewrite Hint.
Qed.

(** What is read of the file, as an array of the type. *)
Lemma hydrate_fits l rows :
  is_integer T = true -> lp_repr T l rows -> small rows ->
  let bytes := lp_to_bytes T l in
  ∃ a es, hydrate_full_arrow (λ _, Panic) (0%nat, List.length bytes) (Some bytes) = Ret (a, es)
          /\ pa_logical a = rows /\ array_fits T a.
Proof.
  intros Hint R Hs bytes. unfold bytes. rewrite hydrate_reads by done.
  destruct (lp_bytes_ok T l rows R (holds_small_fits l rows R Hs)) as (l' & -> & R'). run_step.
  destruct (lp_to_arrow_fits l' rows R' Hs) as (a & -> & Ha). run_step. by eexists a, _.
Qed.
End held.

(** ** What the squeezed arrays hold *)

(** The component of a raw value of a date or timestamp column. *)
Definition component_of (T : PrimitivePhysicalType) (f : Date32Field) (v : Z) : Z :=
  match timestamp_unit T with
  | None => component_from_days f v
  | Some unit => component_from_days f (timestamp_to_days_since_epoch v unit)
  end.

Definition is_date (T : PrimitivePhysicalType) : bool := bool_decide (T = PDate32) || is_timestamp T.

Lemma component_of_bounds T f v : is_date T = true -> in_native T v -> -5880000 <= component_of T f v <= 5890000.
Proof.
  intros Hd Hv. unfold component_of. destruct (timestamp_unit T) as [u|] eqn:Eu.
  - apply component_bounds. pose proof (as_native_range PDate32 (v / ticks_per_day u)) as H. exact H.
  - apply component_bounds. destruct T; try done; exact Hv.
Qed.

(** [s] was squeezed from the rows, and the file of the entry holds [bytes]. *)
Definition squeezed_ok (T : PrimitivePhysicalType) (s : SqueezedPrimitive) (rows : list (option Z)) (bytes : Bytes) : Prop :=
  small rows /\ (∃ l, bytes = lp_to_bytes T l /\ lp_holds T l rows)
  /\ match s with
     | SqueezedDate a =>
         sd_backing a = Some (0, Z.of_nat (List.length bytes)) /\ sd_len a = List.length rows
         /\ ∃ p, to_component_array a = Ret p /\ array_fits T p
                 /\ pa_logical p = map_valid (component_of T (sd_field a)) rows
     | SqueezedClamped c =>
         is_date T = false /\ cl_disk_range c = (0%nat, List.length bytes) /\ bp_len (cl_squeezed c) = List.length rows
         /\ ∃ b, clamped_ok T c b rows
     | SqueezedQuantized q =>
         is_date T = false /\ qu_disk_range q = (0%nat, List.length bytes) /\ bp_len (qu_quantized q) = List.length rows
         /\ ∃ b, quantized_ok T q b rows
     end.

Lemma component_array_native T f ty a p :
  is_date T = true -> ty = match timestamp_unit T with None => TDate32 | Some u => TTimestamp u end ->
  sd_original_data_type a = ty -> sd_field a = f -> to_component_array a = Ret p -> Forall (in_native T) (pa_values p).
Proof.
  intros Hd -> Ht _ E. unfold to_component_array in E. rewrite Ht in E.
  unfold to_component_date32, to_component_timestamp in E. destruct (timestamp_unit T) as [u|] eqn:Eu.
  - destruct (bp_to_primitive _ _) as [x| | |]; [|done..]. injection E as <-. cbn. apply Forall_fmap, Forall_true. intros v. cbn.
    pose proof (as_native_range PDate32 (wraps 32 v + sd_reference_value a)) as H. unfold in_native, as_native in H. cbn in H.
    destruct T; cbn in *; try done; unfold in_native; cbn; lia.
  - destruct (bp_to_primitive _ _) as [x| | |]; [|done..]. injection E as <-. cbn. apply Forall_fmap, Forall_true. intros v. cbn.
    destruct T; cbn in *; try done. unfold in_native, saturating_add32, i32_min, i32_max. cbn. lia.
Qed.

Lemma squeeze_date_ok T field l rows range :
  is_date T = true -> lp_holds T l rows -> small rows ->
  ∃ a, lp_to_arrow_array T l = Ret a
    /\ let s := match timestamp_unit T with
                | None => from_liquid_date32 field a
                | Some unit => from_liquid_timestamp unit field a
                end in
       sd_field s = field /\ sd_len (with_backing range s) = List.length rows
       /\ ∃ p, to_component_array (with_backing range s) = Ret p /\ array_fits T p
               /\ pa_logical p = map_valid (component_of T field) rows.
Proof.
  intros Hd [R _] Hs. destruct (lp_to_arrow_fits T l rows R Hs) as (a & E & Hl & Wf & F & Hn). exists a. split; [done|]. cbv zeta.
  set (ty := match timestamp_unit T with None => TDate32 | Some u => TTimestamp u end).
  assert (match timestamp_unit T with
          | None => from_liquid_date32 field a
          | Some unit => from_liquid_timestamp unit field a
          end = from_components (component_of T field) field ty a) as ->
    by (unfold component_of, ty; by destruct (timestamp_unit T)).
  destruct (from_components_parts (component_of T field) field ty a) as [Ef Et].
  pose proof (from_components_len (component_of T field) field ty a) as Elen.
  destruct (from_components_ok (component_of T field) field ty a Wf) as (p & Ep & El & Wp).
  { intros i v Hi _. apply component_of_bounds; [done|]. rewrite Forall_forall in F. apply F. by eapply list_elem_of_lookup_2. }
  split; [done|]. assert (List.length (pa_values a) = List.length rows) as Elr by (rewrite <- Hl; by rewrite logical_len).
  split; [unfold sd_len in *; cbn; by rewrite Elen|].
  exists p. split; [exact Ep|]. split; [|by rewrite El, Hl]. split; [done|]. split.
  - by eapply (component_array_native T field ty).
  - rewrite <- logical_len, El by done. unfold map_valid. rewrite length_fmap, Hl. exact Hs.
Qed.

Lemma lp_squeeze_ok T l rows hint :
  lp_holds T l rows -> small rows ->
  ∃ r, lp_squeeze T hint l = Ret r
       /\ ∀ s b, r = Some (s, b) -> b = lp_to_bytes T l /\ squeezed_ok T s rows b.
Proof.
  intros L Hs. unfold lp_squeeze. destruct hint as [h|]; [|by exists None]. fold (is_date T).
  destruct (is_date T) eqn:Ed.
  - destruct (as_date32_field h) as [field|]; [|by exists None].
    destruct (squeeze_date_ok T field l rows (0, Z.of_nat (List.length (lp_to_bytes T l))) Ed L Hs)
      as (a & -> & Ef & Elen & p & Ep & Fp & El). run_step. eexists. split; [done|]. intros s b [= <- <-]. split; [done|].
    split; [done|]. split; [by exists l|]. split; [done|]. split; [exact Elen|]. exists p. split; [exact Ep|]. split; [done|].
    rewrite El. cbn. by rewrite Ef.
  - destruct (bp_bit_width (lp_bit_packed l)) as [b|] eqn:Eb; [|by exists None].
    destruct (b <? 8)%nat eqn:E8; [by exists None|]. apply Nat.ltb_ge in E8.
    destruct (fresh_offsets T l rows b L Eb) as (u & Eu & Wu & _ & Elog & _). rewrite Eu. run_step.
    assert (List.length (pa_values u) = List.length rows) as Elr.
    { rewrite <- logical_len by done. rewrite Elog. unfold map_valid. by rewrite length_fmap. }
    destruct (lp_squeeze_policy l); eexists; (split; [done|]); intros s x [= <- <-]; (split; [done|]);
      (split; [done|]); (split; [by exists l|]); (split; [done|]); (split; [done|]); cbn;
      (split; [by rewrite length_fmap|]); exists (halved b).
    + by apply (squeeze_clamped T l rows b u).
    + by apply (squeeze_quantized T l rows b u).
Qed.

(** ** Reads and comparisons *)

(** Every comparison with an integer, on the column itself or on its seconds. *)
Definition eval_expr (p : PExpr) (rows : list (option Z)) : BooleanArray :=
  match unwrap_dynamic_filter p with
  | Some (PBinary lhs (DFCompare op) (PLiteral (ScalarInteger (Some k)))) =>
      match predicate_lhs_kind lhs with Some _ => compare_rows op k rows | None => [] end
  | _ => []
  end.

Section squeezed.
Context (T : PrimitivePhysicalType) (Hint : is_integer T = true).

Lemma known_only_fits c b rows k :
  clamped_ok T c b rows -> small rows -> to_arrow_known_only T c = Ret (Some k) -> pa_logical k = rows /\ array_fits T k.
Proof.
  intros C Hs Er. destruct (known_only_ok T c b rows C) as (r & Er' & Hk). rewrite Er in Er'. injection Er' as <-.
  destruct Hk as [Hk Wk]. split; [done|]. split; [done|]. split; [|rewrite <- logical_len, Hk by done; exact Hs].
  unfold to_arrow_known_only in Er. destruct (bp_to_primitive _ _) as [u| | |]; [|done..]. cbn in Er.
  destruct (bp_bit_width _); [|done]. cbn in Er. destruct (has_sentinel _ _ _); [done|]. injection Er as <-.
  apply Forall_fmap, Forall_true. intros v. apply as_native_range.
Qed.

Lemma squeezed_to_arrow_ok s rows bytes :
  squeezed_ok T s rows bytes ->
  ∃ a es, squeezed_to_arrow T s (Some bytes) = Ret (a, es) /\ pa_logical a = rows /\ array_fits T a.
Proof.
  intros (Hs & (l & -> & L & _) & H). destruct (hydrate_fits T l rows Hint L Hs) as (a & es & E & Ha).
  destruct s as [d|c|q]; cbn [squeezed_to_arrow].
  - destruct H as (Hb & _). unfold sd_to_arrow_array. rewrite Hb. cbn [expect]. run_step.
    rewrite Nat2Z.id. change (Z.to_nat 0) with 0%nat. rewrite E. by eexists _, _.
  - destruct H as (_ & Hr & _ & b & C). unfold cl_to_arrow_array.
    destruct (known_only_ok T c b rows C) as (r & Er & _). rewrite Er. run_step. rewrite Hr.
    destruct r as [k|]; [|by exists a, es]. exists k, []. split; [done|]. exact (known_only_fits c b rows k C Hs Er).
  - destruct H as (_ & Hr & _). unfold qu_to_arrow_array. rewrite Hr. by exists a, es.
Qed.

Lemma squeezed_full_filter_ok rows l m :
  lp_repr T l rows -> small rows -> (List.length m <= List.length rows)%nat ->
  ∃ f es, filter_full (λ _, Panic) (0%nat, List.length (lp_to_bytes T l)) m (Some (lp_to_bytes T l)) = Ret (f, es)
          /\ pa_logical f = keep rows m /\ array_fits T f.
Proof.
  intros R Hs Hm. destruct (hydrate_fits T l rows Hint R Hs) as (a & es & E & Ha & Fa). unfold filter_full. rewrite E. run_step.
  destruct (filter_fits T a m Fa) as (f & -> & Hf & Ff); [rewrite <- logical_len by apply Fa; by rewrite Ha|].
  cbn [expect]. run_step. exists f, es. by rewrite Hf, Ha.
Qed.

Lemma empty_array_fits : array_fits T (Prim [] None).
Proof. exact (bool_decide_unpack _ (empty_fits T)). Qed.

Lemma squeezed_filter_ok s rows bytes m :
  squeezed_ok T s rows bytes -> (List.length m <= List.length rows)%nat ->
  ∃ f es, squeezed_filter T s m (Some bytes) = Ret (f, es) /\ pa_logical f = keep rows m /\ array_fits T f.
Proof.
  intros (Hs & (l & -> & L & _) & H) Hm. pose proof (squeezed_full_filter_ok rows l m L Hs Hm) as Hfull.
  destruct s as [d|c|q]; cbn [squeezed_filter].
  - unfold sd_filter. destruct (count_set_bits m =? 0)%nat eqn:E0.
    { apply Nat.eqb_eq in E0. exists (Prim [] None), []. split; [done|]. split; [by rewrite keep_none|apply empty_array_fits]. }
    destruct H as (Hb & _). unfold sd_to_arrow_array. rewrite Hb. cbn [expect]. run_step.
    rewrite Nat2Z.id. change (Z.to_nat 0) with 0%nat. exact Hfull.
  - destruct H as (_ & Hr & _ & b & C). unfold cl_filter. destruct (count_set_bits m =? 0)%nat eqn:E0.
    { apply Nat.eqb_eq in E0. exists (Prim [] None), []. split; [done|]. split; [by rewrite keep_none|apply empty_array_fits]. }
    destruct (cl_filter_inner_ok T c b rows m C Hm) as (c' & -> & C'). run_step.
    destruct (known_only_ok T c' _ _ C') as (r & Er & _). rewrite Er. run_step. rewrite Hr.
    destruct r as [k|]; [|exact Hfull]. exists k, []. split; [done|].
    refine (known_only_fits c' b (keep rows m) k C' _ Er). pose proof (keep_le rows m). unfold small in *. lia.
  - destruct H as (_ & Hr & _). unfold qu_filter. rewrite Hr. exact Hfull.
Qed.

(** *** Comparisons *)

(** An evaluation in memory answers rightly, gives up, or asks for the file. *)
Definition decides (vs : list (option Z)) (op : Operator) (literal : HybridArray.ScalarValue)
    (r : SqueezeResult (option BooleanArray)) : Prop :=
  r = NeedsBacking \/ r = Decided None
  \/ ∃ k, literal = ScalarInteger (Some k) /\ r = Decided (Some (compare_rows op k vs)).

Lemma literal_cases literal :
  literal_native T literal = None
  \/ ∃ k, literal = ScalarInteger (Some k) /\ in_native T k /\ literal_native T literal = Some k.
Proof.
  destruct literal as [[k|]|code]; [|by left..]. cbn [literal_native].
  case_bool_decide as E; [|by left]. right. exists k. split; [done|]. split; [|done]. rewrite <- E. apply as_native_range.
Qed.

Lemma cl_decides c b vs op literal :
  clamped_ok T c b vs -> ∃ r, cl_try_eval_predicate_inner T c op literal = Ret r /\ decides vs op literal r.
Proof.
  intros C. destruct (literal_cases literal) as [E|(k & -> & Hk & _)].
  - unfold cl_try_eval_predicate_inner. rewrite E. eexists. split; [done|]. by right; left.
  - destruct (cl_inner_ok T c b vs op k C Hk) as (r & E & [->| ->]); eexists; (split; [exact E|]); [by left|]. right; right. by exists k.
Qed.

Lemma qu_decides q b vs op literal :
  quantized_ok T q b vs -> ∃ r, qu_try_eval_predicate_inner T q op literal = Ret r /\ decides vs op literal r.
Proof.
  intros C. destruct (literal_cases literal) as [E|(k & -> & Hk & _)].
  - unfold qu_try_eval_predicate_inner. rewrite E. eexists. split; [done|]. by right; left.
  - destruct (qu_inner_ok T q b vs op k C Hk) as (r & E & [->| ->]); eexists; (split; [exact E|]); [by left|]. right; right. by exists k.
Qed.

Lemma eval_full_ok rows l m lhs lhs_kind op literal expr :
  lp_repr T l rows -> small rows -> (List.length m <= List.length rows)%nat ->
  unwrap_dynamic_filter expr = Some (PBinary lhs (DFCompare op) (PLiteral literal)) -> predicate_lhs_kind lhs = Some lhs_kind ->
  ∃ r es, eval_full (λ _, Panic) (0%nat, List.length (lp_to_bytes T l)) lhs_kind (DFCompare op) literal m
            (Some (lp_to_bytes T l)) = Ret (r, es)
          /\ ∀ x, r = Some x -> x = eval_expr expr (keep rows m).
Proof.
  intros R Hs Hm He Hk. destruct (hydrate_fits T l rows Hint R Hs) as (a & es & E & Ha & Fa). unfold eval_full. rewrite E. run_step.
  destruct (filter_fits T a m Fa) as (f & -> & Hf & Ff); [rewrite <- logical_len by apply Fa; by rewrite Ha|].
  eexists _, es. split; [done|]. intros x Hx. unfold eval_expr. rewrite He.
  assert (match lhs_kind with Plain => Some f | ToTimestampSeconds => cast_to f literal end = Some f) as Ef by by destruct lhs_kind.
  rewrite Ef in Hx. cbn [apply_cmp list_compare] in Hx. destruct literal as [[k|]|code]; [|done..].
  rewrite Hk. injection Hx as <-. by rewrite Hf, Ha.
Qed.

Lemma try_eval_any inner rows l m expr :
  lp_repr T l rows -> small rows -> (List.length m <= List.length rows)%nat ->
  (∀ op literal, ∃ r, inner op literal = Ret r /\ decides (keep rows m) op literal r) ->
  ∃ r es, try_eval_with T (λ _, Panic) inner (0%nat, List.length (lp_to_bytes T l)) expr m (Some (lp_to_bytes T l)) = Ret (r, es)
          /\ ∀ x, r = Some x -> x = eval_expr expr (keep rows m).
Proof.
  intros R Hs Hm Hin. unfold try_eval_with.
  destruct (unwrap_dynamic_filter expr) as [[|?|lhs op [| literal|? ? ?|? ?|?|]|? ?|?|]|] eqn:He; try by eexists _, _.
  destruct (predicate_lhs_kind lhs) as [kind|] eqn:Hk; [|by eexists _, _].
  destruct op as [op|code]; cbn [from_datafusion]; [|by eexists _, _].
  pose proof (eval_full_ok rows l m lhs kind op literal expr R Hs Hm He Hk) as Hfull.
  destruct (match kind with Plain => true | ToTimestampSeconds => can_eval_to_timestamp_seconds_direct T end); [|exact Hfull].
  destruct (Hin op literal) as (r & -> & Hr). run_step. destruct Hr as [->|[->|(k & -> & ->)]]; [exact Hfull|by eexists _, _|].
  eexists _, _. split; [done|]. intros x [= <-]. unfold eval_expr. by rewrite He, Hk.
Qed.

Lemma squeezed_try_eval_ok s rows bytes p m :
  squeezed_ok T s rows bytes -> (List.length m <= List.length rows)%nat ->
  ∃ r es, squeezed_try_eval T s p m (Some bytes) = Ret (r, es) /\ ∀ x, r = Some x -> x = eval_expr p (keep rows m).
Proof.
  intros (Hs & (l & -> & L & _) & H) Hm. destruct s as [d|c|q]; cbn [squeezed_try_eval].
  - by eexists _, _.
  - destruct H as (_ & Hr & _ & b & C). unfold cl_try_eval_predicate. rewrite Hr.
    destruct (cl_filter_inner_ok T c b rows m C Hm) as (c' & -> & C'). run_step.
    apply try_eval_any; try done. intros op literal. by eapply cl_decides.
  - destruct H as (_ & Hr & _ & b & C). unfold qu_try_eval_predicate. rewrite Hr.
    destruct (qu_filter_inner_ok T q b rows m C Hm) as (q' & -> & C'). run_step.
    apply try_eval_any; try done. intros op literal. by eapply qu_decides.
Qed.
End squeezed.

(** ** The laws *)

Definition IntegerValue : Type := ColumnType * list (option Z).

Definition column_value (c : Column) : IntegerValue := (column_type c, column_rows c).

Definition extract (f : Date32Field) (v : IntegerValue) : IntegerValue :=
  (v.1, match v.1 with CInteger T _ => map_valid (component_of T f) v.2 | COther _ => v.2 end).

Definition li_ok (l : LiquidInteger) (v : IntegerValue) : Prop :=
  ∃ H, v.1 = CInteger (li_type l) H /\ lp_holds (li_type l) (li_array l) v.2 /\ small v.2.

Definition sq_ok (s : SqueezedColumn) (v : IntegerValue) (b : Bytes) : Prop :=
  match s with
  | SqInteger T a => ∃ H, v.1 = CInteger T H /\ squeezed_ok T a v.2 b
  | SqVariant _ => False
  end.

Lemma allocated_range n : 0 <= allocated n < 2 ^ 63.
Proof. unfold allocated. lia. Qed.

Lemma column_filter_ok c m :
  (List.length m <= List.length (column_rows c))%nat ->
  ∃ c', column_filter c m = Some c' /\ column_value c' = (column_type c, keep (column_rows c) m).
Proof.
  intros Hm. destruct c as [T H [a F]|code rows]; cbn [column_filter column_rows ic_array] in *.
  - pose proof (bool_decide_unpack _ F) as Fa.
    destruct (filter_fits T a m Fa) as (f & -> & Hf & Ff); [by rewrite <- logical_len by apply Fa|]. cbn [mbind option_bind].
    destruct (to_column_ok T f) as (c & H' & -> & Ht & Hr); [by apply Is_true_true|done|].
    exists c. split; [done|]. unfold column_value. rewrite Ht, Hr, Hf. cbn. by rewrite (Is_true_pi _ H H').
  - rewrite decide_True by done. by eexists.
Qed.

(** An array of the type of a value with some rows is a column of them. *)
Lemma to_column_value T H a rows :
  array_fits T a -> pa_logical a = rows -> ∃ c, to_column T a = Ret c /\ column_value c = (CInteger T H, rows).
Proof.
  intros Fa <-. destruct (to_column_ok T a) as (c & H' & -> & Ht & Hr); [by apply Is_true_true|done|].
  exists c. split; [done|]. unfold column_value. by rewrite Ht, Hr, (Is_true_pi _ H H').
Qed.

Lemma column_write_read c : ∃ c', column_read (column_write c) = Some c' /\ column_value c' = column_value c.
Proof.
  destruct c as [T H [a F]|code rows]; cbn [column_write column_read ic_array].
  - pose proof (bool_decide_unpack _ F) as (Wf & Fn & Hl). rewrite physical_type_ids, dec_enc_vals.
    destruct (to_column_value T H (of_rows (pa_logical a)) (pa_logical a)) as (c & -> & Hc).
    + apply of_rows_fits; [|by rewrite logical_len]. apply Forall_forall. intros v Hv. rewrite Forall_forall in Fn. apply Fn.
      by eapply logical_in, valid_in.
    + apply of_rows_logical.
    + by exists c.
  - destruct (physical_type_try_from (16 + Z.of_nat code)) as [T|] eqn:E.
    + exfalso. unfold physical_type_try_from in E. destruct (16 + Z.of_nat code) as [|n|n] eqn:Ez; [lia| |lia].
      do 5 (destruct n as [n|n|]; try lia; try done).
    + rewrite dec_enc_vals. eexists. split; [done|]. unfold column_value. cbn. do 2 f_equal. lia.
Qed.

Lemma integer_type_of_ok T (H : Is_true (is_integer T)) : integer_type_of T = data_type_of (CInteger T H).
Proof. unfold integer_type_of. destruct (decide _) as [H'|H']; [by rewrite (Is_true_pi _ H H')|done]. Qed.

Lemma li_from_arrow_ok c :
  is_liquid_primitive (data_type_of (column_type c)) = true -> ∃ l, li_from_arrow c = Ret l /\ li_ok l (column_value c).
Proof.
  intros Hp. destruct c as [T H [a F]|code rows]; [|done]. cbn [li_from_arrow ic_array].
  pose proof (bool_decide_unpack _ F) as (Wf & Fn & Hl).
  destruct (lp_from_arrow_ok T a Wf Fn) as (l & -> & L & _). run_step. eexists. split; [done|].
  exists H. split; [done|]. split; [exact L|]. unfold small. cbn. by rewrite logical_len.
Qed.

Lemma li_reads l v :
  li_ok l v ->
  (∃ c, li_to_arrow l = Ret c /\ column_value c = v)
  /\ ∀ m, (List.length m <= List.length v.2)%nat -> ∃ c, li_filter l m = Ret c /\ column_value c = (v.1, keep v.2 m).
Proof.
  destruct v as [t rows]. intros (H & Ht & L & Hs). cbn in Ht, L, Hs |- *. subst t.
  destruct (lp_to_arrow_fits _ _ rows (lh_repr _ _ _ L) Hs) as (a & E & Ha & Fa). split.
  - unfold li_to_arrow. rewrite E. run_step. by apply to_column_value.
  - intros m Hm. unfold li_filter, lp_filter. rewrite E. run_step.
    destruct (filter_fits _ a m Fa) as (f & -> & Hf & Ff); [rewrite <- logical_len by apply Fa; by rewrite Ha|].
    cbn [expect]. run_step. apply to_column_value; [done|]. by rewrite Hf, Ha.
Qed.

Lemma li_bytes l v :
  li_ok l v -> ∃ l', integer_from_bytes (lp_to_bytes (li_type l) (li_array l)) = Ret l' /\ li_ok l' v.
Proof.
  intros (H & Ht & L & Hs). rewrite lp_bytes_dispatch by by apply Is_true_true.
  destruct (lp_bytes_holds _ _ _ L Hs) as (l' & -> & L'). run_step. eexists. split; [done|]. by exists H.
Qed.

Lemma li_squeeze_ok l v hint :
  li_ok l v ->
  ∃ r, li_squeeze l hint = Ret r
       /\ ∀ s b, r = Some (s, b) -> b = lp_to_bytes (li_type l) (li_array l) /\ sq_ok s v b /\ ∃ a, s = SqInteger (li_type l) a.
Proof.
  intros (H & Ht & L & Hs). unfold li_squeeze.
  destruct (lp_squeeze_ok _ _ _ hint L Hs) as (r & -> & Hr). run_step. eexists. split; [done|].
  intros s b E. destruct r as [[a x]|]; [|done]. injection E as <- <-. destruct (Hr a x eq_refl) as [-> Ha].
  split; [done|]. split; [by exists H|by eexists].
Qed.

(** The answer of an asynchronous method, as a column. *)
Lemma io_column_ok T H io rows b :
  (∃ a es, io (Some b) = Ret (a, es) /\ pa_logical a = rows /\ array_fits T a) ->
  ∃ c es, io_column T io (Some b) = Ret (c, es) /\ column_value c = (CInteger T H, rows).
Proof.
  intros (a & es & E & Ha & Fa). unfold io_column. rewrite E. run_step.
  destruct (to_column_value T H a rows Fa Ha) as (c & -> & Hc). run_step. by exists c, es.
Qed.

Lemma squeezed_date_ok T H a rows b f c :
  squeezed_ok T a rows b -> squeezed_date T a = Some (f, c) -> column_value c = extract f (CInteger T H, rows).
Proof.
  intros (_ & _ & Ha) E. destruct a as [d|?|?]; [|done..]. destruct Ha as (_ & _ & p & Ep & Fp & Hp).
  cbn [squeezed_date] in E. rewrite Ep in E. cbn [mbind outcome_mbind outcome_bind] in E.
  destruct (to_column_value T H p _ Fp Hp) as (c' & Ec & Hc). rewrite Ec in E. injection E as <- <-. exact Hc.
Qed.

Lemma squeezed_len_ok T a rows b : squeezed_ok T a rows b -> squeezed_len a = List.length rows.
Proof. intros (_ & _ & Ha). destruct a; cbn; tauto. Qed.

(** [FormatLaws], one law after the other. *)
#[export, program] Instance integer_laws : FormatLaws := {
  Val := IntegerValue;
  vlen v := List.length v.2;
  vtype v := data_type_of v.1;
  vfilter v m := (v.1, keep v.2 m);
  extracted := extract;
  peval p v := eval_expr p v.2;
  den := column_value;
  arr_depth _ := 0%nat;
  l_ok _ := li_ok;
  s_ok := sq_ok
}.
Next Obligation. intros [t rows]. cbn. by rewrite keep_true. Qed.
Next Obligation. intros f [[T H|code] rows]; cbn; [apply length_fmap|done]. Qed.
Next Obligation. intros t H. cbn. destruct H as [->|[->| ->]]; by rewrite ?orb_true_r. Qed.
Next Obligation. intros t H. by destruct t. Qed.
Next Obligation. done. Qed.
Next Obligation. done. Qed.
Next Obligation. done. Qed.
Next Obligation. intros a. apply allocated_range. Qed.
Next Obligation. intros a m H. by apply column_filter_ok. Qed.
Next Obligation.
  intros [t rows] m Hm Hc. cbn in *. rewrite column_type_back, (keep_none rows m Hc).
  by destruct t.
Qed.
Next Obligation. intros a. destruct (column_write_read a) as (c' & E & Hc). by exists (column_write a), c'. Qed.
Next Obligation. intros a k v E. cbn in E. destruct a as [T H c|code rows]; cbn in E; [by destruct T|done]. Qed.
Next Obligation. intros a c H. by apply elem_of_nil in H. Qed.
Next Obligation. done. Qed.
Next Obligation. done. Qed.
Next Obligation. intros l. apply allocated_range. Qed.
Next Obligation. done. Qed.
Next Obligation.
  intros c l v (H & _ & L & _). cbn. unfold lp_len, bp_len. apply (lh_len _ _ _ (lh_repr _ _ _ L)).
Qed.
Next Obligation. intros c l v (H & Ht & _). cbn. by rewrite Ht, (integer_type_of_ok _ H). Qed.
Next Obligation. intros c l v H. by apply li_reads. Qed.
Next Obligation. intros c l v m H Hm. by apply li_reads. Qed.
Next Obligation. intros c l v p m _ _. by exists None. Qed.
Next Obligation. intros c l v H. eexists. split; [done|]. by apply li_bytes. Qed.
Next Obligation.
  intros c l v hint H. destruct (li_squeeze_ok l v hint H) as (r & Er & Hr). exists r. split; [exact Er|].
  intros s b E. destruct (Hr s b E) as (-> & Hs & a & ->). by split_and!.
Qed.
Next Obligation. intros a H. by apply li_from_arrow_ok. Qed.
Next Obligation. intros a H. cbn in H. destruct a as [T Hi c|code rows]; cbn in H; [by destruct T|done]. Qed.
Next Obligation. intros a c H. cbn in H. destruct a as [T Hi x|code rows]; cbn in H; [by destruct T|done]. Qed.
Next Obligation. intros a H. cbn in H. destruct a as [T Hi x|code rows]; cbn in H; [by destruct T|done]. Qed.
Next Obligation. intros a c o H. cbn in H. destruct a as [T Hi x|code rows]; cbn in H; [by destruct T|done]. Qed.
Next Obligation. intros a o H. cbn in H. destruct a as [T Hi x|code rows]; cbn in H; [by destruct T|done]. Qed.
Next Obligation. intros [T []|x]; apply allocated_range. Qed.
Next Obligation. intros [T a|x] v b H; [|done]. destruct H as (H & _ & Ha). by apply (squeezed_len_ok T a v.2 b). Qed.
Next Obligation. intros [T a|x] v b H; [|done]. destruct H as (H & Ht & _). cbn. by rewrite Ht, (integer_type_of_ok _ H). Qed.
Next Obligation.
  intros [T a|x] v b H; [|done]. destruct v as [t rows], H as (H & Ht & Ha). cbn in Ht, Ha. subst t.
  apply io_column_ok. by apply squeezed_to_arrow_ok; [apply Is_true_true|].
Qed.
Next Obligation.
  intros [T a|x] v b m H Hm; [|done]. destruct v as [t rows], H as (H & Ht & Ha). cbn in Ht, Ha. subst t.
  apply io_column_ok. by apply squeezed_filter_ok; [apply Is_true_true| |].
Qed.
Next Obligation.
  intros [T a|x] v b p m H Hm; [|done]. destruct v as [t rows], H as (H & Ht & Ha).
  by apply squeezed_try_eval_ok; [apply Is_true_true| |].
Qed.
Next Obligation.
  intros [T a|x] v b f c H E; [|done]. destruct v as [t rows], H as (H & Ht & Ha). cbn in Ht, Ha. subst t.
  by apply (squeezed_date_ok T H a rows b).
Qed.
