(* ===== verification/Observer.v ===== *)
(** * Runtime counters and the event trace

    Model of [src/src/storage/src/cache/observer/stats.rs] (the counters the
    macro [define_runtime_stats!] declares) and of [Observer] in
    [observer/mod.rs].  The event trace is recorded, as in a debug build. *)

From stdpp Require Import base list.
From Stdlib Require Import ZArith Lia.
From S2P Require Import Prelude CachePolicy DataTypes Expressions.
Local Open Scope Z_scope.

Inductive InternalEvent : Type :=
| InsertFailed (entry : EntryID) (kind : CachedBatchType)
| InsertSuccess (entry : EntryID) (kind : CachedBatchType)
| SqueezeBegin (victims : list EntryID)
| SqueezeVictim (entry : EntryID)
| IoWrite (entry : EntryID) (kind : CachedBatchType) (bytes : Z)
| IoReadSqueezedBacking (entry : EntryID) (bytes : Z)
| IoReadArrow (entry : EntryID) (bytes : Z)
| IoReadLiquid (entry : EntryID) (bytes : Z)
| ReadEvent (entry : EntryID) (selection : bool) (expr : option (CacheExpression DataType))
    (cached : CachedBatchType)
| HydrateEvent (entry : EntryID) (cached new : CachedBatchType)
| EvalPredicateEvent (entry : EntryID) (selection : bool) (cached : CachedBatchType)
| ReadSqueezedData (entry : EntryID) (expression : CacheExpression DataType)
| TryReadLiquid (entry : EntryID)
| DecompressSqueezed (entry : EntryID) (decompressed total : Z).

(** One constructor per row of [define_runtime_stats!]. *)
Inductive counter : Type :=
| c_get
| c_get_with_selection
| c_eval_predicate
| c_get_squeezed_success
| c_get_squeezed_needs_io
| c_try_read_liquid_calls
| c_hit_date32_expression_calls
| c_read_io_count
| c_write_io_count
| c_eval_predicate_on_liquid_failed
| c_squeezed_decompressed_count
| c_squeezed_total_count
| c_squeeze_io_saved.

#[export] Instance counter_eq_dec : EqDecision counter.
Proof. solve_decision. Defined.

(** [RuntimeStats]: an [AtomicU64] per counter. *)
Definition RuntimeStats : Type := counter → Z.

Definition stats_zero : RuntimeStats := λ _, 0.

(** [fetch_add], which wraps. *)
Definition stats_add (c : counter) (n : Z) (r : RuntimeStats) : RuntimeStats :=
  λ c', if decide (c' = c) then wrapu 64 (r c + n) else r c'.

Definition incr (c : counter) (r : RuntimeStats) : RuntimeStats := stats_add c 1 r.

Definition stats_reset (r : RuntimeStats) : RuntimeStats := stats_zero.

(** The snapshot and the counters after it. *)
Definition consume_snapshot (r : RuntimeStats) : RuntimeStats * RuntimeStats := (r, stats_reset r).

Definition track_decompress_squeezed_count (decompressed total : Z) (r : RuntimeStats) : RuntimeStats :=
  stats_add c_squeezed_total_count total (stats_add c_squeezed_decompressed_count decompressed r).

Record Observer : Type := mkObserver {
  runtime : RuntimeStats;
  event_trace : list InternalEvent
}.

Definition observer_new : Observer := mkObserver stats_zero [].

Definition with_runtime (f : RuntimeStats → RuntimeStats) (o : Observer) : Observer :=
  mkObserver (f (runtime o)) (event_trace o).

Definition runtime_snapshot (o : Observer) : RuntimeStats * Observer :=
  let '(v, r) := consume_snapshot (runtime o) in (v, mkObserver r (event_trace o)).

(** [EventTracer::drain]. *)
Definition consume_event_trace (o : Observer) : list InternalEvent * Observer :=
  (event_trace o, mkObserver (runtime o) []).

Definition on_get (selection : bool) (o : Observer) : Observer :=
  with_runtime (λ r, let r := incr c_get r in if selection then incr c_get_with_selection r else r) o.
Definition on_try_read_liquid : Observer → Observer := with_runtime (incr c_try_read_liquid_calls).
Definition on_eval_predicate : Observer → Observer := with_runtime (incr c_eval_predicate).
Definition on_get_squeezed_success : Observer → Observer := with_runtime (incr c_get_squeezed_success).
Definition on_get_squeezed_needs_io : Observer → Observer := with_runtime (incr c_get_squeezed_needs_io).
Definition on_hit_date32_expression : Observer → Observer :=
  with_runtime (incr c_hit_date32_expression_calls).

Definition record_runtime (event : InternalEvent) (r : RuntimeStats) : RuntimeStats :=
  match event with
  | IoWrite _ _ _ => incr c_write_io_count r
  | IoReadArrow _ _ | IoReadLiquid _ _ => incr c_read_io_count r
  | IoReadSqueezedBacking _ _ => incr c_get_squeezed_needs_io (incr c_read_io_count r)
  | DecompressSqueezed _ decompressed total => track_decompress_squeezed_count decompressed total r
  | _ => r
  end.

Definition record_internal (event : InternalEvent) (o : Observer) : Observer :=
  mkObserver (record_runtime event (runtime o)) (event_trace o ++ [event]).

(** ** What the counters count *)

Definition is_io_read (e : InternalEvent) : bool :=
  match e with
  | IoReadArrow _ _ | IoReadLiquid _ _ | IoReadSqueezedBacking _ _ => true
  | _ => false
  end.

Definition is_io_write (e : InternalEvent) : bool :=
  match e with IoWrite _ _ _ => true | _ => false end.

Definition count_events (p : InternalEvent → bool) (es : list InternalEvent) : Z :=
  Z.of_nat (length (List.filter p es)).

(** The counters agree with the trace since both were last reset. *)
Definition io_counted (o : Observer) : Prop :=
  runtime o c_read_io_count = wrapu 64 (count_events is_io_read (event_trace o))
  ∧ runtime o c_write_io_count = wrapu 64 (count_events is_io_write (event_trace o)).

Lemma wrapu_add a b : wrapu 64 (wrapu 64 a + b) = wrapu 64 (a + b).
Proof. unfold wrapu. by rewrite Z.add_mod_idemp_l. Qed.

Lemma count_events_snoc p es e :
  count_events p (es ++ [e]) = count_events p es + (if p e then 1 else 0).
Proof.
  unfold count_events. rewrite List.filter_app, length_app. simpl. destruct (p e); simpl; lia.
Qed.

Lemma stats_add_ne c c' n r : c ≠ c' → stats_add c n r c' = r c'.
Proof. intros H. unfold stats_add. by rewrite decide_False. Qed.

Lemma stats_add_eq c n r : stats_add c n r c = wrapu 64 (r c + n).
Proof. unfold stats_add. by rewrite decide_True. Qed.

Lemma record_runtime_read e r :
  record_runtime e r c_read_io_count
  = if is_io_read e then wrapu 64 (r c_read_io_count + 1) else r c_read_io_count.
Proof.
  destruct e; cbn; unfold incr, track_decompress_squeezed_count;
    rewrite ?stats_add_ne, ?stats_add_eq by done; done.
Qed.

Lemma record_runtime_write e r :
  record_runtime e r c_write_io_count
  = if is_io_write e then wrapu 64 (r c_write_io_count + 1) else r c_write_io_count.
Proof.
  destruct e; cbn; unfold incr, track_decompress_squeezed_count;
    rewrite ?stats_add_ne, ?stats_add_eq by done; done.
Qed.

(** ** Properties *)

(** Whatever events are recorded, the read and write counters are the
    numbers of read and write events of the trace (modulo the width of the
    counter): no kind of file access is missed or counted twice. *)
Theorem io_counters_match_trace events o :
  io_counted o → io_counted (foldl (λ o e, record_internal e o) o events).
Proof.
  revert o. induction events as [|e es IH]; intros o H; [done|]. simpl. apply IH.
  destruct H as [Hr Hw]. split; cbn [record_internal runtime event_trace];
    rewrite ?record_runtime_read, ?record_runtime_write, count_events_snoc.
  - rewrite Hr. destruct (is_io_read e); [apply wrapu_add|by rewrite Z.add_0_r].
  - rewrite Hw. destruct (is_io_write e); [apply wrapu_add|by rewrite Z.add_0_r].
Qed.

Lemma io_counters_match_trace_witness :
  io_counted (foldl (λ o e, record_internal e o) observer_new
                [IoWrite 1 TDiskArrow 10; IoReadSqueezedBacking 1 10; IoReadLiquid 1 10]).
Proof. apply io_counters_match_trace. split; reflexivity. Defined.
