(* ===== verification/CacheEntry.v ===== *)
(** * Cache entries, the index and the files

    Model of [src/src/storage/src/cache/cached_batch.rs], of [ArtIndex] of
    [index.rs] (the concurrent radix tree it wraps is a finite map) and of
    [DefaultIoContext::disk_path] of [io_context.rs]. *)

From stdpp Require Import base list gmap strings.
From Stdlib Require Import ZArith String Ascii Lia.
From S2P Require Import Prelude CachePolicy DataTypes Formats.

Section entries.
Context {AL : ArrowLib} {LF : LiquidFormats}.

Inductive CacheEntry : Type :=
| MemoryArrow (array : ArrayRef)
| MemoryLiquid (array : LiquidArrayRef)
| MemorySqueezedLiquid (array : SqueezedRef)
| DiskLiquid (data_type : DataType)
| DiskArrow (data_type : DataType).

Definition memory_usage (e : CacheEntry) : Z :=
  match e with
  | MemoryArrow array => arr_memory_size array
  | MemoryLiquid array => l_memory_size array
  | MemorySqueezedLiquid array => s_memory_size array
  | DiskLiquid _ | DiskArrow _ => 0
  end.

(** [CachedBatchType::from]. *)
Definition batch_type (e : CacheEntry) : CachedBatchType :=
  match e with
  | MemoryArrow _ => TMemoryArrow
  | MemoryLiquid _ => TMemoryLiquid
  | MemorySqueezedLiquid _ => TMemorySqueezedLiquid
  | DiskLiquid _ => TDiskLiquid
  | DiskArrow _ => TDiskArrow
  end.

(** [Display]. *)
Definition show_entry (e : CacheEntry) : string :=
  match e with
  | MemoryArrow _ => "MemoryArrow"
  | MemoryLiquid _ => "MemoryLiquid"
  | MemorySqueezedLiquid _ => "MemorySqueezedLiquid"
  | DiskLiquid _ => "DiskLiquid"
  | DiskArrow _ => "DiskArrow"
  end.

(** [disk_entry_from_squeezed] of [core.rs]. *)
Definition disk_entry_from_squeezed (array : SqueezedRef) : CacheEntry :=
  match s_disk_backing array with
  | BackingLiquid => DiskLiquid (s_original_type array)
  | BackingArrow => DiskArrow (s_original_type array)
  end.

(** ** The index *)

Record ArtIndex : Type := mkIndex {
  art : gmap Z CacheEntry;
  ix_entry_count : Z
}.

Definition index_new : ArtIndex := mkIndex ∅ 0.

Definition index_get (id : EntryID) (ix : ArtIndex) : option CacheEntry := art ix !! id.

Definition index_is_cached (id : EntryID) (ix : ArtIndex) : bool := bool_decide (is_Some (art ix !! id)).

Definition index_insert (id : EntryID) (batch : CacheEntry) (ix : ArtIndex) : ArtIndex :=
  mkIndex (<[id := batch]> (art ix))
    (match art ix !! id with
     | None => usize (ix_entry_count ix + 1)
     | Some _ => ix_entry_count ix
     end).

(** Every key is removed, then the count is stored. *)
Definition index_reset (ix : ArtIndex) : ArtIndex :=
  mkIndex (foldl (λ m k, delete k m) (art ix) (map_to_list (art ix)).*1) 0.

(** [for_each]: the entries, in the order of [keys]. *)
Definition index_entries (ix : ArtIndex) : list (EntryID * CacheEntry) := map_to_list (art ix).

Definition entry_count (ix : ArtIndex) : Z := ix_entry_count ix.

(** ** Lemmas *)

Lemma index_reset_empty ix : art (index_reset ix) = ∅.
Proof.
  apply map_eq. intros k. rewrite lookup_empty. unfold index_reset. cbn [art].
  assert (∀ ks (m : gmap Z CacheEntry), (∀ j, is_Some (m !! j) → j ∈ ks) →
            foldl (λ m k, delete k m) m ks !! k = None) as H.
  { induction ks as [|j ks IH]; intros m Hd; simpl.
    - destruct (m !! k) eqn:E; [|done]. specialize (Hd k). rewrite E in Hd.
      exfalso. by eapply not_elem_of_nil, Hd.
    - apply IH. intros i [x Hx]. apply lookup_delete_Some in Hx as [Hne Hx].
      specialize (Hd i). rewrite Hx in Hd. specialize (Hd ltac:(by eexists)).
      apply elem_of_cons in Hd as [->|]; [done|done]. }
  apply H. intros j [x Hx]. apply list_elem_of_fmap. exists (j, x).
  split; [done|]. by apply elem_of_map_to_list.
Qed.

Lemma index_count_insert id batch ix :
  (0 <= Z.of_nat (size (art ix)) < 2 ^ 64 - 1)%Z →
  entry_count ix = Z.of_nat (size (art ix)) →
  entry_count (index_insert id batch ix) = Z.of_nat (size (art (index_insert id batch ix))).
Proof.
  unfold entry_count, index_insert. cbn [ix_entry_count art]. intros Hs H.
  destruct (art ix !! id) eqn:E.
  - rewrite H. by rewrite map_size_insert_Some by (by eexists).
  - rewrite map_size_insert_None by done. machine. lia.
Qed.
End entries.

(** ** Files *)

(** [format!("{:016x}.liquid", id)] of a [usize]. *)
Definition hex_digit (n : Z) : ascii :=
  ascii_of_N (Z.to_N (if (n <? 10)%Z then 48 + n else 87 + n)).

Fixpoint hex_digits (n : nat) (z : Z) : string :=
  match n with
  | 0%nat => ""
  | Datatypes.S n => String (hex_digit (z / 16 ^ Z.of_nat n mod 16)) (hex_digits n z)
  end.

Definition disk_path (id : EntryID) : string := (hex_digits 16 id +:+ ".liquid")%string.

Lemma hex_digit_inj a b : (0 <= a < 16)%Z → (0 <= b < 16)%Z → hex_digit a = hex_digit b → a = b.
Proof.
  intros Ha Hb H. apply (f_equal N_of_ascii) in H. unfold hex_digit in H.
  rewrite !N_ascii_embedding in H by (repeat case_match; lia).
  repeat case_match; lia.
Qed.

Lemma hex_digits_inj n a b :
  (0 <= a)%Z → (0 <= b)%Z → hex_digits n a = hex_digits n b →
  (a mod 16 ^ Z.of_nat n = b mod 16 ^ Z.of_nat n)%Z.
Proof.
  intros Ha Hb. induction n as [|n IH]; intros H; [by rewrite !Z.mod_1_r|].
  cbn [hex_digits] in H. injection H as Hd Hr. specialize (IH Hr).
  assert (0 < 16 ^ Z.of_nat n)%Z by (apply Z.pow_pos_nonneg; lia).
  apply hex_digit_inj in Hd; [|apply Z.mod_pos_bound; lia..].
  rewrite Nat2Z.inj_succ, Z.pow_succ_r, Z.mul_comm by lia.
  rewrite !Z.rem_mul_r by lia. by rewrite Hd, IH.
Qed.

Lemma disk_path_inj_range a b :
  (0 <= a < 2 ^ 64)%Z → (0 <= b < 2 ^ 64)%Z → disk_path a = disk_path b → a = b.
Proof.
  intros Ha Hb H. unfold disk_path in H.
  assert (hex_digits 16 a = hex_digits 16 b) as H'.
  { assert (∀ n x y s, (hex_digits n x +:+ s = hex_digits n y +:+ s)%string →
              hex_digits n x = hex_digits n y) as Hc.
    { clear. induction n as [|n IH]; intros x y s H; [done|]. cbn [hex_digits String.append] in *.
      injection H as -> H. f_equal. by eapply IH. }
    by eapply Hc. }
  apply hex_digits_inj in H'; [|lia..].
  change (16 ^ Z.of_nat 16)%Z with (2 ^ 64)%Z in H'.
  by rewrite !Z.mod_small in H' by lia.
Qed.

(** ** Properties *)

(** Two entries never share a file: the path of an entry, sixteen
    hexadecimal digits and an extension, determines its 64-bit identifier. *)
Theorem disk_path_injective a b :
  (0 <= a < 2 ^ 64)%Z → (0 <= b < 2 ^ 64)%Z →
  (disk_path a = disk_path b ↔ a = b) ∧ String.length (disk_path a) = 23%nat.
Proof.
  intros Ha Hb. split; [|done].
  split; [by apply disk_path_inj_range|by intros ->].
Qed.

Lemma disk_path_injective_witness :
  (disk_path 255 = "00000000000000ff.liquid")%string
  ∧ (disk_path 255 = disk_path 256 ↔ 255 = 256)%Z.
Proof. split; [by vm_compute|]. apply (disk_path_injective 255 256); lia. Defined.
