(* ===== verification/Transcode.v ===== *)
(** * Transcoding Arrow arrays to liquid arrays

    Model of [src/src/storage/src/cache/transcode.rs]: the choice of an encoder
    by data type, and the compressor that is trained once and then shared
    ([LiquidCompressorStates] of [utils.rs], here the option it holds; taking
    its lock is one step). *)

From stdpp Require Import base list gmap strings.
From Stdlib Require Import ZArith.
From S2P Require Import Prelude CivilDate DataTypes Expressions Formats SampleFormats.

Section transcode.
Context {AL : ArrowLib} {LF : LiquidFormats}.

(** [LiquidCompressorStates]. *)
Definition CompressorStates : Type := option Compressor.

Definition with_fsst_compressor_or_train (state : CompressorStates)
    (use_compressor : Compressor → outcome LiquidArrayRef)
    (train : outcome (Compressor * LiquidArrayRef)) : outcome (LiquidArrayRef * CompressorStates) :=
  match state with
  | Some compressor => l ← use_compressor compressor; Ret (l, state)
  | None => '(compressor, liquid_array) ← train; Ret (liquid_array, Some compressor)
  end.

Definition keep_state (state : CompressorStates) (r : outcome LiquidArrayRef)
    : outcome (option LiquidArrayRef * CompressorStates) :=
  l ← r; Ret (Some l, state).

Definition or_train (state : CompressorStates)
    (use_compressor : Compressor → outcome LiquidArrayRef)
    (train : outcome (Compressor * LiquidArrayRef))
    : outcome (option LiquidArrayRef * CompressorStates) :=
  '(l, state) ← with_fsst_compressor_or_train state use_compressor train; Ret (Some l, state).

(** The branch for primitive types.  [None] is [Err(array)]. *)
Definition transcode_primitive (array : ArrayRef) (state : CompressorStates)
    : outcome (option LiquidArrayRef * CompressorStates) :=
  match arr_data_type array with
  | (TInt8 | TInt16 | TInt32 | TInt64 | TUInt8 | TUInt16 | TUInt32 | TUInt64
    | TDate32 | TDate64 | TTimestamp _ None) as data_type =>
      keep_state state (primitive_from_arrow data_type array)
  | TTimestamp _ (Some _) => Ret (None, state)
  | (TFloat32 | TFloat64) as data_type => keep_state state (float_from_arrow data_type array)
  | TDecimal128 _ _ | TDecimal256 _ _ =>
      or_train state (decimal_from_arrow array) (decimal_train array)
  | _ => Ret (None, state)
  end.

(** The branch for byte arrays. *)
Definition transcode_bytes (array : ArrayRef) (build_fingerprints : bool) (state : CompressorStates)
    : outcome (option LiquidArrayRef * CompressorStates) :=
  match arr_data_type array with
  | TUtf8View | TBinaryView | TUtf8 | TBinary =>
      options ← for_data_type (arr_data_type array) build_fingerprints;
      or_train state (λ compressor, view_from_arrow array compressor options)
        (view_train array options)
  | TDictionary _ _ =>
      if as_dictionary_u16 array then
        options ← for_data_type (arr_data_type array) build_fingerprints;
        or_train state (λ compressor, view_from_arrow array compressor options)
          (view_train array options)
      else Ret (None, state)
  | _ => Ret (None, state)
  end.

Definition transcode_liquid_inner_with_hint (array : ArrayRef) (squeeze_hint : option Hint)
    (state : CompressorStates) : outcome (option LiquidArrayRef * CompressorStates) :=
  if is_primitive (arr_data_type array) then transcode_primitive array state
  else
    let build_fingerprints :=
      match squeeze_hint with Some SubstringSearch => true | _ => false end in
    transcode_bytes array build_fingerprints state.

Definition transcode_liquid_inner (array : ArrayRef) (state : CompressorStates)
    : outcome (option LiquidArrayRef * CompressorStates) :=
  transcode_liquid_inner_with_hint array None state.

(** ** Lemmas *)

(** A compressor state only ever goes from untrained to trained. *)
Definition comp_le (c c' : CompressorStates) : Prop := c = None ∨ c' = c.

#[export] Instance comp_le_preorder : PreOrder comp_le.
Proof.
  split; [by right|]. unfold comp_le. intros c c' c'' [->| ->] [H|H]; auto.
Qed.

Context {FL : FormatLaws}.

Lemma l_ok_le c c' l v : comp_le c c' → l_ok c l v → l_ok c' l v.
Proof.
  intros [->| ->]; [|done]. destruct c'; [apply l_ok_mono|done].
Qed.

(** The types an array is transcoded from. *)
Definition transcodable (t : DataType) : bool :=
  is_liquid_primitive t || is_float t || is_decimal t || is_byte_type t.

Definition transcode_post (array : ArrayRef) (state : CompressorStates)
    (r : outcome (option LiquidArrayRef * CompressorStates)) : Prop :=
  if transcodable (arr_data_type array) then
    ∃ l state', r = Ret (Some l, state') ∧ comp_le state state' ∧ l_ok state' l (den array)
  else r = Ret (None, state).

Lemma keep_state_ok state r (array : ArrayRef) :
  (∃ l, r = Ret l ∧ l_ok None l (den array)) →
  ∃ l state', keep_state state r = Ret (Some l, state') ∧ comp_le state state'
              ∧ l_ok state' l (den array).
Proof.
  intros (l & -> & Hl). exists l, state. split_and!; [done|done|].
  eapply l_ok_le; [|exact Hl]. by left.
Qed.

Lemma or_train_ok state use train (array : ArrayRef) :
  (∀ c, ∃ l, use c = Ret l ∧ l_ok (Some c) l (den array)) →
  (∃ c l, train = Ret (c, l) ∧ l_ok (Some c) l (den array)) →
  ∃ l state', or_train state use train = Ret (Some l, state') ∧ comp_le state state'
              ∧ l_ok state' l (den array).
Proof.
  intros Hu (c' & l' & -> & Ht). unfold or_train, with_fsst_compressor_or_train.
  destruct state as [c|].
  - destruct (Hu c) as (l & -> & Hl). exists l, (Some c). split_and!; [done|by right|done].
  - exists l', (Some c'). split_and!; [done|by left|done].
Qed.

Lemma view_options_ok ty fp :
  is_byte_type ty = true →
  ∃ o, for_data_type ty fp = Ret o ∧ for_data_type ty (bv_build_fingerprints o) = Ret o.
Proof.
  intros H. destruct ty; try discriminate; cbn in *; eauto;
    repeat case_match; try discriminate; cbn; eauto.
Qed.

Lemma transcode_view_ok array fp state :
  is_byte_type (arr_data_type array) = true →
  ∃ l state',
    (options ← for_data_type (arr_data_type array) fp;
     or_train state (λ compressor, view_from_arrow array compressor options)
       (view_train array options)) = Ret (Some l, state')
    ∧ comp_le state state' ∧ l_ok state' l (den array).
Proof.
  intros Hb. destruct (view_options_ok _ fp Hb) as (o & -> & Ho).
  run_step. apply or_train_ok.
  - intros c. by apply view_from_ok.
  - by apply view_train_ok.
Qed.

Lemma transcode_ok array hint state :
  dictionary_supported (arr_data_type array) = true →
  transcode_post array state (transcode_liquid_inner_with_hint array hint state).
Proof.
  intros Hd. unfold transcode_post, transcode_liquid_inner_with_hint.
  pose proof (primitive_from_ok array) as Hp. pose proof (float_from_ok array) as Hf.
  pose proof (decimal_from_ok array) as Hd1. pose proof (decimal_train_ok array) as Hd2.
  pose proof (is_primitive_number (arr_data_type array)) as Hn.
  pose proof (is_primitive_bytes (arr_data_type array)) as Hb.
  pose proof (transcode_view_ok array) as Hv.
  pose proof (dictionary_u16_ok array) as Hk.
  unfold transcodable, transcode_primitive, transcode_bytes.
  set (fp := match hint with Some SubstringSearch => true | _ => false end).
  destruct (arr_data_type array) as
    [| | | | | | | | | |u tz| | |p s|p s| | | | | |k v|fs|n] eqn:E;
    cbn [is_liquid_primitive is_float is_decimal is_byte_type orb] in *;
    try (rewrite Hn by auto; apply keep_state_ok; auto);
    try (rewrite Hn by auto; apply or_train_ok; auto);
    try (rewrite Hb by auto; apply Hv; auto);
    try (by destruct (is_primitive _)).
  - destruct tz as [tz|].
    + by destruct (is_primitive _).
    + rewrite Hn by auto. apply keep_state_ok; auto.
  - rewrite is_primitive_dictionary. destruct (as_dictionary_u16 array) eqn:Ea.
    + assert (k = TUInt16) as -> by (by apply (Hk k v)). destruct v; try discriminate; apply Hv; auto.
    + destruct k; try done. exfalso.
      assert (false = true) by (by apply (Hk TUInt16 v)). done.
Qed.

(** ** Properties *)

(** Transcoding a supported array never panics: numbers, dates, timestamps
    without a zone, floats, decimals and byte arrays get a liquid array of the
    same content, readable under the compressor the state holds afterwards (a
    trained compressor is never replaced); any other type is given back and the
    state is left alone. *)
Theorem transcode_preserves array hint state :
  dictionary_supported (arr_data_type array) = true →
  if transcodable (arr_data_type array) then
    ∃ l state', transcode_liquid_inner_with_hint array hint state = Ret (Some l, state')
                ∧ (state' = state ∨ state = None) ∧ l_ok state' l (den array)
  else transcode_liquid_inner_with_hint array hint state = Ret (None, state).
Proof.
  intros Hd. pose proof (transcode_ok array hint state Hd) as H. unfold transcode_post in H.
  destruct (transcodable _); [|done].
  destruct H as (l & state' & ? & [?|?] & ?); exists l, state'; auto.
Qed.

(** A dictionary with 16-bit keys and values that are neither binary nor
    strings is not given back as unsupported: the type lookup panics first. *)
Theorem transcode_dictionary_panics array hint state v :
  arr_data_type array = TDictionary TUInt16 v → v ≠ TBinary → v ≠ TUtf8 →
  transcode_liquid_inner_with_hint array hint state = Panic.
Proof.
  intros E H1 H2. unfold transcode_liquid_inner_with_hint, transcode_bytes.
  rewrite E, is_primitive_dictionary.
  assert (as_dictionary_u16 array = true) as -> by (by apply (dictionary_u16_ok array TUInt16 v)).
  by destruct v.
Qed.
End transcode.

Lemma transcode_preserves_witness :
  ∃ l state',
    transcode_liquid_inner_with_hint (LF := sample_liquid) (SArr SUtf8 [Some 3%Z; None]) None None
    = Ret (Some l, state')
    ∧ l_ok (LF := sample_liquid) state' l (SArr SUtf8 [Some 3%Z; None]).
Proof.
  destruct (transcode_preserves (FL := sample_laws) (SArr SUtf8 [Some 3%Z; None]) None None eq_refl)
    as (l & state' & H & _ & Hl).
  eauto.
Defined.

Lemma transcode_dictionary_panics_witness :
  transcode_liquid_inner_with_hint (LF := sample_liquid) (SArr SDict [Some 3%Z; None]) None None
  = Panic.
Proof.
  by apply (transcode_dictionary_panics (FL := sample_laws) (SArr SDict [Some 3%Z; None]) None None TInt32).
Defined.
