(* ===== verification/VariantArray.v ===== *)
(** * Squeezed variant columns

    Model of [src/src/storage/src/liquid_array/variant_array.rs]: the squeezed
    form of a variant column, which keeps a liquid array per typed path in
    memory and builds from them the Arrow struct a reader asks for.  The record
    itself is declared with the interfaces in [Formats.v]; its hash map is a
    finite map, iterated in the order of [map_to_list].  Assertions are those of
    a debug build. *)

From stdpp Require Import base list gmap strings.
From Stdlib Require Import ZArith String.
From S2P Require Import Prelude DataTypes VariantSchema Formats SampleFormats.

Section variant.
Context {AL : ArrowLib} {LF : LiquidFormats}.

Abbreviation Variant := (VariantStructSqueezed LiquidArrayRef NullBuffer).

(** [VariantStructSqueezedArray::new]. *)
Definition variant_new (values : list (string * LiquidArrayRef)) (nulls : option NullBuffer)
    (original_arrow_type : DataType) : outcome Variant :=
  let len := match values with [] => 0%nat | (_, array) :: _ => l_len array end in
  if forallb (λ pa, Nat.eqb (l_len pa.2) len) values then
    Ret (VariantSqueezed
           (foldl (λ m pa, <[pa.1 := pa.2]> m) ∅ values) len nulls original_arrow_type)
  else Panic.

(** [VariantTreeNode]: its children are sorted by name when they are built. *)
Inductive VariantTreeNode : Type :=
| VTree (vt_len : nat) (leaf : option ArrayRef) (children : list (string * VariantTreeNode)).

Definition vt_new (len : nat) : VariantTreeNode := VTree len None [].

Fixpoint vt_insert (segments : list string) (values : ArrayRef) (n : VariantTreeNode)
    : VariantTreeNode :=
  let 'VTree len leaf children := n in
  match segments with
  | [] => VTree len (Some values) children
  | head :: tail =>
      VTree len leaf (bt_entry (vt_new len) head (vt_insert tail values) children)
  end.

Definition wrap_typed_value (len : nat) (values : ArrayRef) : outcome ArrayRef :=
  struct_new [mkField "value" TBinaryView true; mkField "typed_value" (arr_data_type values) true]
    [null_binary_views len; values] None.

(** The struct of the children's arrays ([into_struct_array]). *)
Definition struct_of (children : list (string * ArrayRef)) : outcome ArrayRef :=
  struct_new ((λ '(name, a), mkField name (arr_data_type a) false) <$> children)
    (snd <$> children) None.

Fixpoint into_field_array (n : VariantTreeNode) {struct n} : outcome ArrayRef :=
  let 'VTree len leaf children := n in
  match children with
  | [] => values ← expect leaf; wrap_typed_value len values
  | _ =>
      arrays ←
        (fix go (l : list (string * VariantTreeNode)) : outcome (list (string * ArrayRef)) :=
           match l with
           | [] => Ret []
           | (name, child) :: l => a ← into_field_array child; r ← go l; Ret ((name, a) :: r)
           end) children;
      typed_struct ← struct_of arrays;
      wrap_typed_value len typed_struct
  end.

Fixpoint child_arrays (l : list (string * VariantTreeNode)) : outcome (list (string * ArrayRef)) :=
  match l with
  | [] => Ret []
  | (name, child) :: l => a ← into_field_array child; r ← child_arrays l; Ret ((name, a) :: r)
  end.

Definition into_struct_array (n : VariantTreeNode) : outcome ArrayRef :=
  let 'VTree _ _ children := n in arrays ← child_arrays children; struct_of arrays.

Fixpoint insert_paths (values : list (string * LiquidArrayRef)) (root : VariantTreeNode)
    : outcome VariantTreeNode :=
  match values with
  | [] => Ret root
  | (path, array) :: values =>
      match split_variant_path path with
      | [] => insert_paths values root
      | segments => a ← l_to_arrow array; insert_paths values (vt_insert segments a root)
      end
  end.

Definition build_typed_struct (v : Variant) : outcome ArrayRef :=
  root ← insert_paths (map_to_list (vs_values v)) (vt_new (vs_len v));
  into_struct_array root.

Definition build_root_struct (v : Variant) : outcome ArrayRef :=
  typed_struct ← build_typed_struct v;
  struct_new
    [mkField "metadata" TBinaryView false; mkField "value" TBinaryView true;
     mkField "typed_value" (arr_data_type typed_struct) true]
    [empty_binary_views (vs_len v); null_binary_views (vs_len v); typed_struct]
    (vs_nulls v).

Definition contains_path (path : string) (v : Variant) : bool :=
  bool_decide (is_Some (vs_values v !! path)).

Definition to_arrow_array_with_paths (paths : list string) (v : Variant) : outcome ArrayRef :=
  let filtered := omap (λ path, pair path <$> vs_values v !! path) paths in
  match filtered with
  | [] => build_root_struct v
  | _ => filtered ← variant_new filtered (vs_nulls v) (vs_original_arrow_type v);
         build_root_struct filtered
  end.

Definition typed_values (v : Variant) : list (string * LiquidArrayRef) := map_to_list (vs_values v).

(** [LiquidSqueezedArray] for it. *)
Definition variant_memory_size (v : Variant) : Z :=
  foldr (λ a s, l_memory_size a.2 + s)%Z 0%Z (map_to_list (vs_values v)).
Definition variant_to_arrow_array (v : Variant) : outcome ArrayRef := build_root_struct v.
Definition variant_disk_backing (v : Variant) : SqueezedBacking := BackingArrow.

(** ** Trees *)

(** The leaf a path selects. *)
Fixpoint vt_at (segments : list string) (n : VariantTreeNode) : option ArrayRef :=
  let 'VTree _ leaf children := n in
  match segments with
  | [] => leaf
  | head :: tail => bt_get head children ≫= vt_at tail
  end.

(** Every node without children has a leaf, and children are in order. *)
Inductive vt_ok : VariantTreeNode → Prop :=
| vt_ok_node len leaf children :
    (children = [] → is_Some leaf) → bt_sorted children →
    Forall (λ c, vt_ok c.2) children → vt_ok (VTree len leaf children).

(** A root may be empty. *)
Definition vt_root_ok (n : VariantTreeNode) : Prop :=
  let 'VTree _ _ children := n in bt_sorted children ∧ Forall (λ c, vt_ok c.2) children.

Lemma vt_ok_root n : vt_ok n → vt_root_ok n.
Proof. by destruct 1. Qed.

Lemma bt_entry_not_nil {V} (d : V) k f m : bt_entry d k f m ≠ [].
Proof. destruct m as [|[k' v] m]; [done|]. simpl. by destruct (String.compare k k'). Qed.

Lemma vt_insert_ok segments a n : vt_root_ok n → vt_ok (vt_insert segments a n).
Proof.
  revert n. induction segments as [|h t IH]; intros [len leaf children] [Hs Hc]; cbn.
  { constructor; [by eexists|done|done]. }
  constructor; [intros H; by apply bt_entry_not_nil in H|by apply bt_entry_sorted|].
  clear Hs. induction Hc as [|[k v] m Hv Hm IHm]; cbn.
  - constructor; [|done]. cbn. apply IH. by split; constructor.
  - destruct (String.compare h k); repeat constructor; try done; cbn in *.
    + apply IH. by apply vt_ok_root.
    + apply IH. by split; constructor.
Qed.

Lemma vt_at_insert segments a n :
  vt_root_ok n → vt_at segments (vt_insert segments a n) = Some a.
Proof.
  revert n. induction segments as [|h t IH]; intros [len leaf children] [Hs Hc]; cbn; [done|].
  rewrite bt_get_entry_eq by done. cbn. apply IH.
  destruct (bt_get h children) as [c|] eqn:E; cbn; [|by split; constructor].
  apply vt_ok_root. clear -Hc E. induction Hc as [|[k v] m Hv Hm IHm]; [done|]. cbn in E.
  destruct (String.eqb h k); [by injection E as <-|by apply IHm].
Qed.

Lemma vt_at_insert_ne segments other a n :
  vt_root_ok n → other ≠ segments → vt_at other (vt_insert segments a n) = vt_at other n.
Proof.
  revert other n. induction segments as [|h t IH]; intros other [len leaf children] [Hs Hc] Hne.
  - by destruct other.
  - destruct other as [|k o]; [done|]. cbn. destruct (decide (k = h)) as [->|Hk].
    + rewrite bt_get_entry_eq by done. cbn.
      assert (o ≠ t) as Hot by congruence.
      destruct (bt_get h children) as [c|] eqn:E; cbn.
      * apply IH; [|done]. apply vt_ok_root. clear -Hc E.
        induction Hc as [|[k v] m Hv Hm IHm]; [done|]. cbn in E.
        destruct (String.eqb h k); [by injection E as <-|by apply IHm].
      * rewrite IH; [by destruct o|by split; constructor|done].
    + by rewrite bt_get_entry_ne.
Qed.

(** [StructArray::new] accepts the fields the code gives it. *)
Hypothesis struct_new_ok : ∀ fields arrays nulls,
  f_type <$> fields = arr_data_type <$> arrays → ∃ a, struct_new fields arrays nulls = Ret a.
Hypothesis binary_views_type : ∀ n,
  arr_data_type (empty_binary_views n) = TBinaryView ∧ arr_data_type (null_binary_views n) = TBinaryView.

Lemma wrap_typed_value_ok len a : ∃ r, wrap_typed_value len a = Ret r.
Proof. apply struct_new_ok. cbn. by destruct (binary_views_type len) as [_ ->]. Qed.

Lemma struct_of_ok l : ∃ r, struct_of l = Ret r.
Proof. apply struct_new_ok. induction l as [|[k a] l IH]; cbn; by f_equal. Qed.

Lemma into_field_array_ok n : vt_ok n → ∃ a, into_field_array n = Ret a.
Proof.
  revert n. fix IH 2. intros n Hn. destruct Hn as [len leaf children Hl Hs Hc].
  assert (∃ r, child_arrays children = Ret r) as [r Hr].
  { clear Hl Hs. induction Hc as [|[k c] m Hcm Hm IHm]; [by eexists|].
    destruct (IH c Hcm) as [a Ha], IHm as [r Hr]. cbn. rewrite Ha. cbn. rewrite Hr. by eexists. }
  destruct children as [|c cs].
  - destruct (Hl eq_refl) as [a ->]. apply wrap_typed_value_ok.
  - destruct (struct_of_ok r) as [t Ht]. destruct (wrap_typed_value_ok len t) as [w Hw].
    exists w. destruct c as [k c]. cbn in Hr |- *.
    change (child_arrays cs) with
      ((fix go (l : list (string * VariantTreeNode)) : outcome (list (string * ArrayRef)) :=
           match l with
           | [] => Ret []
           | (name, child) :: l => a ← into_field_array child; r ← go l; Ret ((name, a) :: r)
           end) cs) in Hr.
    rewrite Hr. cbn. by rewrite Ht.
Qed.

Lemma into_struct_array_ok n : vt_root_ok n → ∃ a, into_struct_array n = Ret a.
Proof.
  destruct n as [len leaf children]. intros [_ Hc].
  assert (∃ r, child_arrays children = Ret r) as [r Hr].
  { induction Hc as [|[k c] m Hcm Hm IHm]; [by eexists|].
    destruct (into_field_array_ok c Hcm) as [a Ha], IHm as [r Hr]. cbn. rewrite Ha. cbn.
    rewrite Hr. by eexists. }
  cbn. rewrite Hr. apply struct_of_ok.
Qed.

Lemma insert_paths_ok values root :
  vt_root_ok root → Forall (λ pa, ∃ a, l_to_arrow pa.2 = Ret a) values →
  ∃ root', insert_paths values root = Ret root' ∧ vt_root_ok root'.
Proof.
  intros Hr Hv. revert root Hr. induction Hv as [|[p l] vs [a Ha] _ IH]; intros root Hr; [by eexists|].
  cbn in Ha |- *. destruct (split_variant_path p) eqn:E; [by apply IH|].
  rewrite Ha. cbn. apply IH. by apply (vt_ok_root (vt_insert (s :: l0) a root)), vt_insert_ok.
Qed.

Lemma build_root_struct_ok v :
  map_Forall (λ _ l, ∃ a, l_to_arrow l = Ret a) (vs_values v) → ∃ a, build_root_struct v = Ret a.
Proof.
  intros Hv. unfold build_root_struct, build_typed_struct.
  destruct (insert_paths_ok (map_to_list (vs_values v)) (vt_new (vs_len v))) as (root & -> & Hr).
  - by split; constructor.
  - apply Forall_forall. intros [p l] Hin%elem_of_map_to_list. exact (Hv p l Hin).
  - cbn. destruct (into_struct_array_ok root Hr) as [t ->]. cbn. apply struct_new_ok. cbn.
    by destruct (binary_views_type (vs_len v)) as [-> ->].
Qed.

(** The content of the tree: a path holds what the last value with its segments
    put there. *)
Lemma insert_paths_at values root root' segments :
  vt_root_ok root → insert_paths values root = Ret root' → segments ≠ [] →
  (∀ p l, (p, l) ∈ values → split_variant_path p ≠ segments) →
  vt_at segments root' = vt_at segments root.
Proof.
  intros Hr H Hs. revert root Hr H. induction values as [|[p l] vs IH]; intros root Hr H Hne.
  { by injection H as ->. }
  cbn in H. pose proof (Hne p l ltac:(left)) as Hp.
  destruct (split_variant_path p) as [|h t] eqn:E; [eapply IH; [done|done|set_solver]|].
  destruct (l_to_arrow l) as [a| | |]; try done. cbn in H.
  rewrite (IH (vt_insert (h :: t) a root)); [|by apply vt_ok_root, (vt_insert_ok (h :: t))|done|set_solver].
  by apply vt_at_insert_ne.
Qed.

Lemma insert_paths_find values root root' p l a :
  vt_root_ok root → insert_paths values root = Ret root' →
  NoDup values.*1 → (p, l) ∈ values → split_variant_path p ≠ [] → l_to_arrow l = Ret a →
  (∀ q, q ∈ values.*1 → split_variant_path q = split_variant_path p → q = p) →
  vt_at (split_variant_path p) root' = Some a.
Proof.
  intros Hr H ND Hin Hp Ha Hinj. revert root Hr H.
  induction values as [|[q k] vs IH]; intros root Hr H; [set_solver|].
  cbn in ND. apply NoDup_cons in ND as [Hq ND]. cbn in H.
  assert (∀ root1, vt_root_ok root1 → insert_paths vs root1 = Ret root' → (p, l) ∈ vs →
            vt_at (split_variant_path p) root' = Some a) as Hrest.
  { intros root1 Hr1 H1 Hin1. eapply IH; eauto. intros q' Hq'. apply Hinj. cbn. set_solver. }
  apply elem_of_cons in Hin as [[= <- <-]|Hin].
  - destruct (split_variant_path p) as [|h t] eqn:E; [done|]. rewrite Ha in H. cbn in H.
    rewrite (insert_paths_at vs (vt_insert (h :: t) a root) root');
      [by apply vt_at_insert|by apply vt_ok_root, (vt_insert_ok (h :: t))|done|done|].
    intros q l' Hin' Hq'. assert (q = p) as ->; [|by apply Hq, list_elem_of_fmap; exists (p, l')].
    apply Hinj; [|congruence]. cbn. right. apply list_elem_of_fmap. by exists (q, l').
  - destruct (split_variant_path q) as [|h t] eqn:E; [by eapply Hrest|].
    destruct (l_to_arrow k) as [b| | |]; try done. cbn in H.
    eapply Hrest; [|exact H|done]. by apply vt_ok_root, (vt_insert_ok (h :: t)).
Qed.

(** ** Properties *)

(** Reading a squeezed variant column never panics and never touches the
    disk: the struct is built for any set of requested paths, and in the tree it
    is built from every resident path has the content of its liquid array. *)
Theorem variant_read_total (v : Variant) paths :
  map_Forall (λ _ l, (∃ a, l_to_arrow l = Ret a) ∧ l_len l = vs_len v) (vs_values v) →
  (∃ a, to_arrow_array_with_paths paths v = Ret a)
  ∧ ∃ root, insert_paths (map_to_list (vs_values v)) (vt_new (vs_len v)) = Ret root
      ∧ ∀ p l a, vs_values v !! p = Some l → l_to_arrow l = Ret a → split_variant_path p ≠ [] →
          (∀ q, is_Some (vs_values v !! q) → split_variant_path q = split_variant_path p → q = p) →
          vt_at (split_variant_path p) root = Some a.
Proof.
  intros Hv.
  assert (map_Forall (λ _ l, ∃ a, l_to_arrow l = Ret a) (vs_values v)) as Hv'
    by (intros p l E; by apply (Hv p l E)).
  split.
  - unfold to_arrow_array_with_paths.
    destruct (omap _ paths) as [|f fs] eqn:E; [by apply build_root_struct_ok|].
    assert (Forall (λ pa, (∃ a, l_to_arrow pa.2 = Ret a) ∧ l_len pa.2 = vs_len v) (f :: fs)) as HF.
    { rewrite <- E. apply Forall_forall. intros [p l] Hin. apply list_elem_of_omap in Hin as (q & _ & Hq).
      destruct (vs_values v !! q) as [k|] eqn:Ek; [|done]. injection Hq as <- <-. exact (Hv q k Ek). }
    unfold variant_new.
    assert (forallb (λ pa, Nat.eqb (l_len pa.2) (let '(_, array) := f in l_len array)) (f :: fs) = true) as Hb.
    { apply forallb_forall. intros pa Hpa%list_elem_of_In.
      rewrite Forall_forall in HF. destruct (HF pa Hpa) as [_ ->].
      destruct (HF f ltac:(left)) as [_ Hf]. destruct f as [p k]. cbn in Hf. rewrite Hf.
      apply Nat.eqb_refl. }
    destruct f as [p k]. rewrite Hb. run_step.
    apply build_root_struct_ok. cbn [vs_values].
    assert (∀ l m, map_Forall (λ _ l, ∃ a, l_to_arrow l = Ret a) m →
              Forall (λ pa : string * LiquidArrayRef, ∃ a, l_to_arrow pa.2 = Ret a) l →
              map_Forall (λ _ l, ∃ a, l_to_arrow l = Ret a)
                (foldl (λ m pa, <[pa.1 := pa.2]> m) (m : gmap string LiquidArrayRef) l)) as Hfold.
    { induction l as [|[q x] l IHl]; intros m Hm HFl; [done|]. apply Forall_cons in HFl as [Hx HFl].
      cbn. apply IHl; [|done]. by apply map_Forall_insert_2. }
    apply Hfold; [apply map_Forall_empty|]. eapply Forall_impl; [exact HF|]. by intros ? [].
  - destruct (insert_paths_ok (map_to_list (vs_values v)) (vt_new (vs_len v))) as (root & Hroot & Hok).
    { by split; constructor. }
    { apply Forall_forall. intros [p l] Hin%elem_of_map_to_list. exact (Hv' p l Hin). }
    exists root. split; [done|]. intros p l a Hp Ha Hs Hinj.
    eapply insert_paths_find; [|exact Hroot| | |done|exact Ha|].
    + by split; constructor.
    + apply NoDup_fst_map_to_list.
    + by apply elem_of_map_to_list.
    + intros q Hq. apply Hinj. apply list_elem_of_fmap in Hq as ([q' k] & -> & Hk).
      apply elem_of_map_to_list in Hk. by eexists.
Qed.
End variant.

Lemma variant_read_total_witness :
  ∃ a, to_arrow_array_with_paths (LF := sample_liquid) ["a.b"]
         (VariantSqueezed {[ "a.b" := SLiq (SArr SInt64 [Some 1%Z]) None ]} 1 None (TOther 0)) = Ret a.
Proof.
  apply (variant_read_total (LF := sample_liquid)).
  - intros fields arrays nulls _. by eexists.
  - intros n. done.
  - intros p l E. cbn [vs_values] in E. apply lookup_singleton_Some in E as [<- <-]. split; [by eexists|done].
Defined.
