(* ===== verification/Squeeze.v ===== *)
(** * Squeeze policies

    Model of [src/src/storage/src/cache/policies/squeeze.rs]: what replaces an
    entry when it has to shrink, and the bytes to write for it.  The three
    policies are functions from the entry, the hint and the compressor state;
    [SqueezeLaws] is what the cache core relies on.  The variant arrays of the
    Parquet crates are the parameter [VariantLib]. *)

From stdpp Require Import base list gmap strings.
From Stdlib Require Import ZArith String Ascii Lia.
From S2P Require Import Prelude CachePolicy DataTypes Expressions VariantSchema Formats CacheEntry.
From S2P Require Import Transcode VariantArray SampleFormats.

(** ** Variants *)

Inductive VariantPathElement : Type := PathField (name : string) | PathIndex (index : nat).

Class VariantLib {AL : ArrowLib} : Type := {
  StructArray : Type;
  VariantArray : Type;
  as_struct : ArrayRef → option StructArray;
  struct_ref : StructArray → ArrayRef;
  column_by_name : StructArray → string → option ArrayRef;
  struct_nulls : StructArray → option NullBuffer;
  variant_try_new : ArrayRef → option VariantArray;
  variant_is_empty : VariantArray → bool;
  variant_inner : VariantArray → StructArray;
  typed_value_field : VariantArray → option ArrayRef;
  unshred_variant : VariantArray → option VariantArray;
  shred_variant : VariantArray → DataType → option VariantArray;
  (** [VariantPath::from]. *)
  parse_variant_path : string → list VariantPathElement
}.

(** [str::trim] (the white space of ASCII). *)
Definition is_space (c : ascii) : bool :=
  let n := nat_of_ascii c in Nat.eqb n 32 || (Nat.leb 9 n && Nat.leb n 13).

Fixpoint trim_start (s : string) : string :=
  match s with
  | EmptyString => EmptyString
  | String c s' => if is_space c then trim_start s' else s
  end.

Fixpoint trim_end (s : string) : string :=
  match s with
  | EmptyString => EmptyString
  | String c s => match trim_end s with
                  | EmptyString => if is_space c then EmptyString else String c EmptyString
                  | s' => String c s'
                  end
  end.

Definition trim (s : string) : string := trim_end (trim_start s).

Section squeeze.
Context {AL : ArrowLib} {LF : LiquidFormats} {VL : VariantLib}.

Definition build_shredding_schema (variant_struct : StructArray)
    (requests : list (VariantRequest DataType)) : option DataType :=
  let typed_field :=
    match arr_data_type (struct_ref variant_struct) with
    | TStruct fields => List.find (λ child, String.eqb (f_name child) "typed_value") fields
    | _ => None
    end in
  let schema :=
    foldl (λ schema request,
             let path := trim (vr_path request) in
             if String.eqb path "" then schema
             else insert_path path (vr_data_type request) schema)
      (vs_new typed_field) requests in
  shredding_type schema.

(** The loop over the path, [cursor] being the struct reached so far. *)
Fixpoint extract_from (cursor : StructArray) (path : list VariantPathElement) : option ArrayRef :=
  match path with
  | [] => None
  | PathIndex _ :: _ => None
  | PathField field_name :: rest =>
      field ← column_by_name cursor field_name;
      match rest with
      | [] => Some field
      | _ =>
          struct_field ← as_struct field;
          typed_value ← column_by_name struct_field "typed_value";
          cursor ← as_struct typed_value;
          extract_from cursor rest
      end
  end.

Definition extract_typed_values_for_path (typed_root : StructArray) (path : string)
    : option ArrayRef := extract_from typed_root (parse_variant_path path).

(** The loop over the requests: [None] when a path is not a struct. *)
Fixpoint collect_typed_values (array : ArrayRef) (typed_root : StructArray)
    (requests : list (VariantRequest DataType)) : option (list (string * ArrayRef)) :=
  match requests with
  | [] => Some []
  | request :: requests =>
      let path := trim (vr_path request) in
      if String.eqb path "" then collect_typed_values array typed_root requests
      else
        match extract_typed_values_for_path typed_root path with
        | None => collect_typed_values array typed_root requests
        | Some path_struct =>
            path_struct ← as_struct path_struct;
            match column_by_name path_struct "typed_value" with
            | None => collect_typed_values array typed_root requests
            | Some typed_values =>
                if Nat.eqb (arr_len typed_values) (arr_len array) then
                  cons (path, typed_values) <$> collect_typed_values array typed_root requests
                else collect_typed_values array typed_root requests
            end
        end
  end.

(** The typed values as liquid arrays: [None] at the first that has no liquid form. *)
Fixpoint transcode_all (collected : list (string * ArrayRef)) (compressor : CompressorStates)
    : outcome (option (list (string * LiquidArrayRef)) * CompressorStates) :=
  match collected with
  | [] => Ret (Some [], compressor)
  | (path, typed_values) :: collected =>
      '(liquid_array, compressor) ← transcode_liquid_inner typed_values compressor;
      match liquid_array with
      | None => Ret (None, compressor)
      | Some liquid_array =>
          '(rest, compressor) ← transcode_all collected compressor;
          Ret (fmap (M := option) (cons (path, liquid_array)) rest, compressor)
      end
  end.

(** The variant array after the re-shredding its requests ask for, with the
    array that was shredded; [None] when the function returns early. *)
Definition shred_for_requests (struct_array : StructArray) (variant_array : VariantArray)
    (requests : list (VariantRequest DataType)) : option (VariantArray * option ArrayRef) :=
  match
    shredding_type ← build_shredding_schema struct_array requests;
    unshredded ← unshred_variant variant_array;
    shred_variant unshredded shredding_type
  with
  | Some shredded =>
      let shredded_struct := struct_ref (variant_inner shredded) in
      variant_array ← variant_try_new shredded_struct;
      Some (variant_array, Some shredded_struct)
  | None => Some (variant_array, None)
  end.

(** What [try_variant_squeeze] finds before it encodes anything: the backing
    array, its nulls and the collected paths. *)
Definition variant_plan (array : ArrayRef) (requests : list (VariantRequest DataType))
    : option (ArrayRef * option NullBuffer * list (string * ArrayRef)) :=
  struct_array ← as_struct array;
  variant_array ← variant_try_new (struct_ref struct_array);
  if variant_is_empty variant_array then None
  else
    match requests with
    | [] => None
    | _ =>
        '(variant_array, shredded_array) ← shred_for_requests struct_array variant_array requests;
        typed_root ← typed_value_field variant_array;
        typed_root ← as_struct typed_root;
        collected ← collect_typed_values array typed_root requests;
        match collected with
        | [] => None
        | _ => Some (default array shredded_array, struct_nulls (variant_inner variant_array), collected)
        end
    end.

Definition try_variant_squeeze (array : ArrayRef) (requests : list (VariantRequest DataType))
    (compressor : CompressorStates) : outcome (option (SqueezedRef * Bytes) * CompressorStates) :=
  match variant_plan array requests with
  | None => Ret (None, compressor)
  | Some (backing_array, nulls, collected) =>
      match arrow_to_bytes backing_array with
      | None => Ret (None, compressor)
      | Some bytes =>
          '(liquid_values, compressor) ← transcode_all collected compressor;
          match liquid_values with
          | None => Ret (None, compressor)
          | Some liquid_values =>
              squeezed ← variant_new liquid_values nulls (arr_data_type backing_array);
              Ret (Some (s_of_variant squeezed, bytes), compressor)
          end
      end
  end.

(** ** The policies *)

(** The new entry, the bytes to write, and the compressor state. *)
Definition SqueezePolicy : Type :=
  CacheEntry → CompressorStates → option Hint →
  outcome ((CacheEntry * option Bytes) * CompressorStates).

Definition squeeze_arrow_to_disk (array : ArrayRef) : outcome (CacheEntry * option Bytes) :=
  bytes ← expect (arrow_to_bytes array);
  Ret (DiskArrow (arr_data_type array), Some bytes).

Definition squeeze_liquid_to_disk (liquid_array : LiquidArrayRef) : outcome (CacheEntry * option Bytes) :=
  disk_data ← l_to_bytes liquid_array;
  Ret (DiskLiquid (l_original_type liquid_array), Some disk_data).

Definition with_state {A} (compressor : CompressorStates) (r : outcome A) : outcome (A * CompressorStates) :=
  r ← r; Ret (r, compressor).

Definition Evict : SqueezePolicy := λ entry compressor _,
  with_state compressor
    match entry with
    | MemoryArrow array => squeeze_arrow_to_disk array
    | MemoryLiquid liquid_array => squeeze_liquid_to_disk liquid_array
    | MemorySqueezedLiquid squeezed_array => Ret (disk_entry_from_squeezed squeezed_array, None)
    | DiskLiquid _ | DiskArrow _ => Ret (entry, None)
    end.

(** Transcode the array, or write it as it is. *)
Definition transcode_or_disk (array : ArrayRef) (compressor : CompressorStates) (hint : option Hint)
    : outcome ((CacheEntry * option Bytes) * CompressorStates) :=
  '(liquid_array, compressor) ← transcode_liquid_inner_with_hint array hint compressor;
  match liquid_array with
  | Some liquid_array => Ret ((MemoryLiquid liquid_array, None), compressor)
  | None => with_state compressor (squeeze_arrow_to_disk array)
  end.

Definition TranscodeSqueezeEvict : SqueezePolicy := λ entry compressor squeeze_hint,
  match entry with
  | MemoryArrow array =>
      '(squeezed, compressor) ←
        match squeeze_hint ≫= variant_requests with
        | Some requests => try_variant_squeeze array requests compressor
        | None => Ret (None, compressor)
        end;
      match squeezed with
      | Some (squeezed_array, bytes) =>
          Ret ((MemorySqueezedLiquid squeezed_array, Some bytes), compressor)
      | None => transcode_or_disk array compressor squeeze_hint
      end
  | MemoryLiquid liquid_array =>
      with_state compressor
        (r ← l_squeeze liquid_array squeeze_hint;
         match r with
         | Some (squeezed_array, bytes) => Ret (MemorySqueezedLiquid squeezed_array, Some bytes)
         | None => squeeze_liquid_to_disk liquid_array
         end)
  | MemorySqueezedLiquid squeezed_array =>
      with_state compressor (Ret (disk_entry_from_squeezed squeezed_array, None))
  | DiskLiquid _ | DiskArrow _ => with_state compressor (Ret (entry, None))
  end.

Definition TranscodeEvict : SqueezePolicy := λ entry compressor _,
  match entry with
  | MemoryArrow array => transcode_or_disk array compressor None
  | MemoryLiquid liquid_array => with_state compressor (squeeze_liquid_to_disk liquid_array)
  | MemorySqueezedLiquid squeezed_array =>
      with_state compressor (Ret (disk_entry_from_squeezed squeezed_array, None))
  | DiskLiquid _ | DiskArrow _ => with_state compressor (Ret (entry, None))
  end.

(** ** The content of an entry

    [entry_ok c file e v]: with compressor state [c] and [file] the content of its
    file, the entry [e] holds the value [v]. *)
Context {FL : FormatLaws}.

Definition file_liquid (c : CompressorStates) (b : Bytes) (v : Val) : Prop :=
  ∃ l, l_to_bytes l = Ret b ∧ l_ok c l v.

Definition file_arrow (b : Bytes) (v : Val) : Prop := ∃ a, ipc_read b = Some a ∧ den a = v.

Definition entry_ok (c : CompressorStates) (file : option Bytes) (e : CacheEntry) (v : Val) : Prop :=
  match e with
  | MemoryArrow array => den array = v
  | MemoryLiquid liquid => l_ok c liquid v
  | MemorySqueezedLiquid squeezed =>
      s_as_variant squeezed = None ∧ s_disk_backing squeezed = BackingLiquid
      ∧ ∃ b, file = Some b ∧ s_ok squeezed v b ∧ file_liquid c b v
  | DiskLiquid t => t = vtype v ∧ ∃ b, file = Some b ∧ file_liquid c b v
  | DiskArrow t => t = vtype v ∧ ∃ b, file = Some b ∧ file_arrow b v
  end.

(** How many times an entry can still be squeezed. *)
Definition rank (e : CacheEntry) : nat :=
  match e with
  | MemoryArrow _ => 3
  | MemoryLiquid _ => 2
  | MemorySqueezedLiquid _ => 1
  | DiskLiquid _ | DiskArrow _ => 0
  end.

Definition hint_plain (h : option Hint) : Prop := h ≫= variant_requests = None.

(** What the cache needs from a squeeze policy: it never panics, keeps the
    content, lowers the rank of an entry in memory and leaves an entry on disk
    as it is; an Arrow array is written only when it leaves memory. *)
Class SqueezeLaws (squeeze : SqueezePolicy) : Prop := {
  squeeze_ok e c hint file v :
    hint_plain hint → dictionary_supported (vtype v) = true → entry_ok c file e v →
    ∃ e' bytes c', squeeze e c hint = Ret ((e', bytes), c')
      ∧ comp_le c c'
      ∧ entry_ok c' (option_or bytes file) e' v
      ∧ (rank e' < rank e ∨ (rank e = 0 ∧ e' = e))
      ∧ (rank e = 3 → rank e' = 0 ∨ (bytes = None ∧ rank e' = 2))
}.

(** ** Lemmas *)

Lemma file_liquid_le c c' b v : comp_le c c' → file_liquid c b v → file_liquid c' b v.
Proof. intros Hc (l & Hb & Hl). exists l. split; [done|by eapply l_ok_le]. Qed.

Lemma entry_ok_le c c' file e v : comp_le c c' → entry_ok c file e v → entry_ok c' file e v.
Proof.
  intros Hc. destruct e; cbn; [done|by apply l_ok_le| | |done].
  - intros (H1 & H2 & b & Hf & Hs & Hl). eauto 10 using file_liquid_le.
  - intros (H1 & b & Hf & Hl). eauto using file_liquid_le.
Qed.

Lemma squeeze_arrow_ok array file c :
  ∃ e bytes, squeeze_arrow_to_disk array = Ret (e, Some bytes)
             ∧ entry_ok c (option_or (Some bytes) file) e (den array) ∧ rank e = 0.
Proof.
  destruct (ipc_ok array) as (b & a' & Hb & Hr & Hd). unfold squeeze_arrow_to_disk. rewrite Hb.
  eexists _, b. split; [done|]. split; [|done]. cbn. split; [by rewrite den_type|].
  exists b. split; [done|]. by exists a'.
Qed.

Lemma squeeze_liquid_ok liquid file c v :
  l_ok c liquid v →
  ∃ e bytes, squeeze_liquid_to_disk liquid = Ret (e, Some bytes)
             ∧ entry_ok c (option_or (Some bytes) file) e v ∧ rank e = 0.
Proof.
  intros Hl. destruct (l_bytes_ok c liquid v Hl) as (b & Hb & _).
  unfold squeeze_liquid_to_disk. rewrite Hb. eexists _, b. split; [done|]. split; [|done].
  cbn. split; [by eapply l_type_ok|]. exists b. split; [done|]. by exists liquid.
Qed.

Lemma squeeze_squeezed_ok squeezed file c v :
  entry_ok c file (MemorySqueezedLiquid squeezed) v →
  entry_ok c file (disk_entry_from_squeezed squeezed) v
  ∧ rank (disk_entry_from_squeezed squeezed) = 0.
Proof.
  intros (_ & Hd & b & Hf & Hs & Hl). unfold disk_entry_from_squeezed. rewrite Hd. cbn.
  split; [|done]. split; [by eapply s_type_ok|]. eauto.
Qed.

Lemma transcode_or_disk_ok array file c hint :
  dictionary_supported (arr_data_type array) = true →
  ∃ e bytes c', transcode_or_disk array c hint = Ret ((e, bytes), c')
    ∧ comp_le c c' ∧ entry_ok c' (option_or bytes file) e (den array)
    ∧ rank e < 3 ∧ (rank e = 0 ∨ (bytes = None ∧ rank e = 2)).
Proof.
  intros Hd. pose proof (transcode_ok array hint c Hd) as H. unfold transcode_post in H.
  unfold transcode_or_disk. destruct (transcodable _).
  - destruct H as (l & c' & -> & Hc & Hl). exists (MemoryLiquid l), None, c'.
    split_and!; [done|done|done|cbn; lia|by right].
  - rewrite H. run_step.
    destruct (squeeze_arrow_ok array file c) as (e & b & -> & He & Hr).
    exists e, (Some b), c. split_and!; [done|done|done|lia|by left].
Qed.

#[export] Instance evict_laws : SqueezeLaws Evict.
Proof.
  split. intros e c hint file v Hh Hd He. unfold Evict, with_state. destruct e as [a|l|q|t|t]; cbn in He.
  - subst v. destruct (squeeze_arrow_ok a file c) as (e & b & -> & He & Hr).
    exists e, (Some b), c. split_and!; [done|done|done|left; cbn; lia|auto].
  - destruct (squeeze_liquid_ok l file c v He) as (e & b & -> & He' & Hr).
    exists e, (Some b), c. split_and!; [done|done|done|left; cbn; lia|auto].
  - destruct (squeeze_squeezed_ok q file c v He) as [He' Hr].
    eexists _, None, c. split_and!; [done|done|exact He'|left; cbn; lia|auto].
  - eexists _, None, c. split_and!; [done|done|exact He|right; auto|auto].
  - eexists _, None, c. split_and!; [done|done|exact He|right; auto|auto].
Qed.

#[export] Instance transcode_evict_laws : SqueezeLaws TranscodeEvict.
Proof.
  split. intros e c hint file v Hh Hd He. destruct e as [a|l|q|t|t];
    [|apply (squeeze_ok (SqueezeLaws := evict_laws) _ c hint file v Hh Hd He)..].
  cbn in He. subst v. rewrite den_type in Hd. unfold TranscodeEvict.
  destruct (transcode_or_disk_ok a file c None Hd) as (e & b & c' & -> & Hc & He & Hr & Hb).
  exists e, b, c'. split_and!; [done|done|done|by left|auto].
Qed.

#[export] Instance transcode_squeeze_evict_laws : SqueezeLaws TranscodeSqueezeEvict.
Proof.
  split. intros e c hint file v Hh Hd He. destruct e as [a|l|q|t|t];
    [| |apply (squeeze_ok (SqueezeLaws := evict_laws) _ c hint file v Hh Hd He)..].
  - cbn in He. subst v. rewrite den_type in Hd. unfold TranscodeSqueezeEvict.
    rewrite Hh. run_step.
    destruct (transcode_or_disk_ok a file c hint Hd) as (e & b & c' & -> & Hc & He & Hr & Hb).
    exists e, b, c'. split_and!; [done|done|done|by left|auto].
  - cbn in He. unfold TranscodeSqueezeEvict, with_state.
    destruct (l_squeeze_ok c l v hint He) as (r & -> & Hr). run_step.
    destruct r as [[q b]|].
    + destruct (Hr q b eq_refl) as (Hb & Hs & Hk & Hv).
      exists (MemorySqueezedLiquid q), (Some b), c. split_and!; [done|done| |left; cbn; lia|cbn; lia].
      cbn. split_and!; [done..|]. exists b. split_and!; [done..|]. by exists l.
    + destruct (squeeze_liquid_ok l file c v He) as (e & b & -> & He' & Hr').
      exists e, (Some b), c. split_and!; [done|done|done|left; cbn; lia|auto].
Qed.

(** ** Properties *)

(** C13: each of the three squeeze policies, applied again and again to an entry
    with the files it asks to write, never panics: after any number of steps the
    entry (with its file) still holds the same content, and from the third step on
    it is on disk. Conditions: the hint names no variant paths, a dictionary with
    UInt16 keys has Binary or Utf8 values, and the formats satisfy [FormatLaws] (as
    the integer, date and timestamp arrays do by [integer_laws]). *)
Theorem squeeze_chain_reaches_disk (policy : SqueezePolicy) e c hint file v :
  policy = Evict ∨ policy = TranscodeSqueezeEvict ∨ policy = TranscodeEvict →
  hint_plain hint → dictionary_supported (vtype v) = true → entry_ok c file e v →
  ∀ n, ∃ e' file' c',
    Nat.iter n (λ r, '(e, file, c) ← r; '(e', b, c') ← policy e c hint; Ret (e', option_or b file, c'))
      (Ret (e, file, c)) = Ret (e', file', c')
    ∧ entry_ok c' file' e' v ∧ (3 ≤ n → in_memory (batch_type e') = false).
Proof.
  intros Hp Hh Hd He steps.
  assert (SqueezeLaws policy) as SL by (destruct Hp as [->|[->| ->]]; apply _).
  assert (∀ n, ∃ e' file' c',
    Nat.iter n (λ r, '(e, file, c) ← r; '(e', b, c') ← policy e c hint; Ret (e', option_or b file, c'))
      (Ret (e, file, c)) = Ret (e', file', c')
    ∧ rank e' ≤ rank e - n ∧ entry_ok c' file' e' v) as H.
  { induction n as [|n (e1 & f1 & c1 & E & Hr & He1)]; [exists e, file, c; split_and!; [done|lia|done]|].
    rewrite Nat.iter_succ, E. run_step.
    destruct (squeeze_ok e1 c1 hint f1 v Hh Hd He1) as (e2 & b & c2 & -> & Hc & He2 & Hr2 & _).
    exists e2, (option_or b f1), c2. split_and!; [done| |done].
    destruct Hr2 as [?|[? ->]]; lia. }
  destruct (H steps) as (e' & f' & c' & E & Hr & He'). exists e', f', c'. split_and!; [done|done|].
  intros Hn. destruct e, e'; cbn [rank] in Hr; cbn; done || (exfalso; lia).
Qed.
End squeeze.

(** The sample world has no variant arrays. *)
#[export] Instance sample_variants : VariantLib (AL := sample_arrow) := {
  StructArray := sarr;
  VariantArray := sarr;
  as_struct _ := None;
  struct_ref a := a;
  column_by_name _ _ := None;
  struct_nulls _ := None;
  variant_try_new _ := None;
  variant_is_empty _ := true;
  variant_inner a := a;
  typed_value_field _ := None;
  unshred_variant _ := None;
  shred_variant _ _ := None;
  parse_variant_path _ := []
}.

Lemma squeeze_chain_reaches_disk_witness :
  ∃ e' file' c',
    Nat.iter 3 (λ r, '(e, file, c) ← r;
                  '(e', b, c') ← TranscodeSqueezeEvict e c (Some (ExtractDate32 CivilDate.Year));
                  Ret (e', option_or b file, c'))
      (Ret (MemoryArrow (LF := sample_liquid) (SArr SDate32 [Some 8; None]%Z), None, None))
    = Ret (e', file', c')
    ∧ in_memory (batch_type e') = false.
Proof.
  destruct (squeeze_chain_reaches_disk (FL := sample_laws) TranscodeSqueezeEvict
              (MemoryArrow (LF := sample_liquid) (SArr SDate32 [Some 8; None]%Z)) None
              (Some (ExtractDate32 CivilDate.Year)) None (SArr SDate32 [Some 8; None]%Z))
    with (n := 3) as (e' & file' & c' & H & _ & Hm).
  - auto.
  - done.
  - done.
  - done.
  - exists e', file', c'. exact (conj H (Hm (le_n 3))).
Defined.
