(* ===== verification/Hydration.v ===== *)
(** * Hydration policies

    Model of [src/src/storage/src/cache/policies/hydration.rs]: whether an entry
    that was just read goes back to memory, and in which form. *)

From stdpp Require Import base list gmap strings.
From Stdlib Require Import ZArith String Lia.
From S2P Require Import Prelude CachePolicy DataTypes Expressions Formats CacheEntry Transcode VariantArray.
From S2P Require Import Squeeze SampleFormats.

Section hydration.
Context {AL : ArrowLib} {LF : LiquidFormats} {VL : VariantLib}.

Inductive MaterializedEntry : Type :=
| MatArrow (array : ArrayRef)
| MatLiquid (liquid : LiquidArrayRef).

Record HydrationRequest : Type := HRequest {
  hr_entry_id : EntryID;
  hr_cached : CacheEntry;
  hr_materialized : MaterializedEntry;
  hr_expression : option Hint
}.

(** The compressor of the request is shared state. *)
Definition HydrationPolicy : Type :=
  HydrationRequest → CompressorStates → outcome (option CacheEntry * CompressorStates).

Definition hydrate_variant_paths (requests : list (VariantRequest DataType)) (materialized : ArrayRef)
    (squeezed : VariantStructSqueezed LiquidArrayRef NullBuffer) (squeezed_type : DataType)
    (compressor : CompressorStates) : outcome (option CacheEntry * CompressorStates) :=
  let missing_requests :=
    List.filter (λ request, negb (contains_path (vr_path request) squeezed)) requests in
  match missing_requests with
  | [] => Ret (None, compressor)
  | _ =>
      '(new_squeezed, compressor) ← try_variant_squeeze materialized missing_requests compressor;
      match new_squeezed ≫= (λ sb, s_as_variant sb.1) with
      | None => Ret (None, compressor)
      | Some new_variant =>
          let combined_values := typed_values squeezed ++ typed_values new_variant in
          let nulls := option_or (vs_nulls squeezed) (vs_nulls new_variant) in
          merged ← variant_new combined_values nulls squeezed_type;
          Ret (Some (MemorySqueezedLiquid (s_of_variant merged)), compressor)
      end
  end.

Definition expression_requests (expression : option Hint) : option (list (VariantRequest DataType)) :=
  match expression with Some (VariantGet requests) => Some requests | _ => None end.

Definition AlwaysHydrate : HydrationPolicy := λ request compressor,
  match hr_cached request, hr_materialized request with
  | DiskArrow _, MatArrow arr =>
      '(squeezed, compressor) ←
        match expression_requests (hr_expression request) with
        | Some requests => try_variant_squeeze arr requests compressor
        | None => Ret (None, compressor)
        end;
      match squeezed with
      | Some (squeezed, _) => Ret (Some (MemorySqueezedLiquid squeezed), compressor)
      | None => Ret (Some (MemoryArrow arr), compressor)
      end
  | DiskLiquid _, MatLiquid liq => Ret (Some (MemoryLiquid liq), compressor)
  | MemoryLiquid _, _ => Ret (None, compressor)
  | MemorySqueezedLiquid squeezed_entry, MatArrow arr =>
      '(entry, compressor) ←
        match expression_requests (hr_expression request), s_as_variant squeezed_entry with
        | Some requests, Some squeezed =>
            hydrate_variant_paths requests arr squeezed (s_original_type squeezed_entry) compressor
        | _, _ => Ret (None, compressor)
        end;
      match entry with
      | Some entry => Ret (Some entry, compressor)
      | None => Ret (Some (MemoryArrow arr), compressor)
      end
  | MemorySqueezedLiquid _, MatLiquid liq => Ret (Some (MemoryLiquid liq), compressor)
  | _, _ => Ret (None, compressor)
  end.

Definition NoHydration : HydrationPolicy := λ _ compressor, Ret (None, compressor).

(** ** What the cache relies on *)
Context {FL : FormatLaws}.

Definition materialized_ok (c : CompressorStates) (m : MaterializedEntry) (v : Val) : Prop :=
  match m with
  | MatArrow a => den a = v
  | MatLiquid l => l_ok c l v
  end.

(** A policy never panics, and what it puts in memory holds what was read,
    whatever is on disk. *)
Class HydrationLaws (hydrate : HydrationPolicy) : Prop := {
  hydrate_ok request c v :
    hint_plain (hr_expression request) → materialized_ok c (hr_materialized request) v →
    ∃ r c', hydrate request c = Ret (r, c') ∧ comp_le c c'
      ∧ (∀ e file, r = Some e → entry_ok c' file e v ∧ in_memory (batch_type e) = true)
}.

Lemma hint_plain_requests h : hint_plain h → expression_requests h = None.
Proof. destruct h as [[]|]; done. Qed.

#[export] Instance no_hydration_laws : HydrationLaws NoHydration.
Proof. split. intros request c v _ _. by eexists None, c. Qed.

#[export] Instance always_hydrate_laws : HydrationLaws AlwaysHydrate.
Proof.
  split. intros request c v Hp Hm. unfold AlwaysHydrate. rewrite (hint_plain_requests _ Hp).
  destruct (hr_cached request), (hr_materialized request); cbn in Hm |- *;
    eexists _, c; (split; [done|]); (split; [done|]); intros e file He; simplify_eq; done.
Qed.

(** ** Properties *)

(** The default policy promotes: for a request without variant paths it
    only ever returns an entry closer to Arrow than the one that was read,
    holding the value that was read, and it always does so after a disk read. *)
Theorem always_hydrate_promotes request c v :
  hint_plain (hr_expression request) → materialized_ok c (hr_materialized request) v →
  ∃ r, AlwaysHydrate request c = Ret (r, c)
    ∧ (∀ e file, r = Some e → entry_ok c file e v ∧ rank (hr_cached request) < rank e)
    ∧ (∀ t a, hr_cached request = DiskArrow t → hr_materialized request = MatArrow a →
         r = Some (MemoryArrow a))
    ∧ (∀ t l, hr_cached request = DiskLiquid t → hr_materialized request = MatLiquid l →
         r = Some (MemoryLiquid l)).
Proof.
  intros Hp Hm. unfold AlwaysHydrate. rewrite (hint_plain_requests _ Hp).
  destruct (hr_cached request), (hr_materialized request); cbn in Hm |- *;
    eexists; (split; [done|]); split_and!; intros; simplify_eq; try done; split; try done; cbn; lia.
Qed.
End hydration.

Lemma always_hydrate_promotes_witness :
  AlwaysHydrate (HRequest 7 (DiskArrow TDate32) (MatArrow (LF := sample_liquid) (SArr SDate32 [Some 8%Z])) None) None
  = Ret (Some (MemoryArrow (LF := sample_liquid) (SArr SDate32 [Some 8%Z])), None).
Proof.
  destruct (always_hydrate_promotes (FL := sample_laws)
    (HRequest 7 (DiskArrow TDate32) (MatArrow (LF := sample_liquid) (SArr SDate32 [Some 8%Z])) None)
    None (SArr SDate32 [Some 8%Z]) eq_refl eq_refl) as (r & H & _ & H2 & _).
  rewrite H. by rewrite (H2 TDate32 (SArr SDate32 [Some 8%Z]) eq_refl eq_refl).
Defined.
