(* ===== verification/Core.v ===== *)
(** * The cache

    Model of [LiquidCache] of [src/src/storage/src/cache/core.rs], with
    [DefaultIoContext] and [DefaultSqueezeIo] of [io_context.rs] as its files,
    hints and compressor state.  An operation is a function from the state of
    the cache to its answer and the state after it; concurrent callers and the
    concurrent squeezing of victims are run one after the other.  A write to a
    file succeeds; a read of a file that does not exist panics, as its [expect]
    does.  Loops take fuel. *)

From stdpp Require Import base list gmap strings.
From Stdlib Require Import ZArith String.
From S2P Require Import Prelude CachePolicy DataTypes Expressions Budget Formats Observer CacheEntry.
From S2P Require Import Transcode VariantArray Squeeze Hydration.

Section core.
Context {AL : ArrowLib} {LF : LiquidFormats} {VL : VariantLib}.
Context {P : Type} {CP : CachePolicy P}.

Record LiquidCache : Type := mkCache {
  index : ArtIndex;
  budget : BudgetAccounting;
  cache_policy : P;
  observer : Observer;
  (** [DefaultIoContext] *)
  files : gmap string Bytes;
  squeeze_hints : gmap Z Hint;
  compressor_state : CompressorStates
}.

Definition set_index (f : ArtIndex → ArtIndex) (s : LiquidCache) : LiquidCache :=
  mkCache (f (index s)) (budget s) (cache_policy s) (observer s) (files s) (squeeze_hints s)
    (compressor_state s).
Definition set_budget (f : BudgetAccounting → BudgetAccounting) (s : LiquidCache) : LiquidCache :=
  mkCache (index s) (f (budget s)) (cache_policy s) (observer s) (files s) (squeeze_hints s)
    (compressor_state s).
Definition set_policy (p : P) (s : LiquidCache) : LiquidCache :=
  mkCache (index s) (budget s) p (observer s) (files s) (squeeze_hints s) (compressor_state s).
Definition set_observer (f : Observer → Observer) (s : LiquidCache) : LiquidCache :=
  mkCache (index s) (budget s) (cache_policy s) (f (observer s)) (files s) (squeeze_hints s)
    (compressor_state s).
Definition set_files (f : gmap string Bytes → gmap string Bytes) (s : LiquidCache) : LiquidCache :=
  mkCache (index s) (budget s) (cache_policy s) (observer s) (f (files s)) (squeeze_hints s)
    (compressor_state s).
Definition set_hints (f : gmap Z Hint → gmap Z Hint) (s : LiquidCache) : LiquidCache :=
  mkCache (index s) (budget s) (cache_policy s) (observer s) (files s) (f (squeeze_hints s))
    (compressor_state s).
Definition set_compressor (c : CompressorStates) (s : LiquidCache) : LiquidCache :=
  mkCache (index s) (budget s) (cache_policy s) (observer s) (files s) (squeeze_hints s) c.

(** [LiquidCache::new]. *)
Definition cache_new (max_cache_bytes : Z) : LiquidCache :=
  mkCache index_new (budget_new max_cache_bytes) policy_new observer_new ∅ ∅ None.

(** ** Files and hints ([io_context.rs]) *)

Definition add_squeeze_hint (id : EntryID) (expression : Hint) (s : LiquidCache) : LiquidCache :=
  set_hints (insert id expression) s.

Definition squeeze_hint (id : EntryID) (s : LiquidCache) : option Hint := squeeze_hints s !! id.

Definition file_of (id : EntryID) (s : LiquidCache) : option Bytes := files s !! disk_path id.

Definition write_file (id : EntryID) (bytes : Bytes) (s : LiquidCache) : LiquidCache :=
  set_files (insert (disk_path id) bytes) s.

Definition bytes_len (b : Bytes) : Z := Z.of_nat (List.length b).

(** What [DefaultSqueezeIo] does for a squeezed array of an entry. *)
Definition squeeze_io_event (id : EntryID) (e : SqueezeIoEvent) (o : Observer) : Observer :=
  match e with
  | SqRead n => record_internal (IoReadSqueezedBacking id n) o
  | SqDecompress decompressed total => record_internal (DecompressSqueezed id decompressed total) o
  | SqIoSaved => with_runtime (incr c_squeeze_io_saved) o
  end.

Definition run_squeezed {A} (id : EntryID) (op : SqueezeIo A) (s : LiquidCache)
    : outcome (A * LiquidCache) :=
  '(a, events) ← op (file_of id s);
  Ret (a, set_observer (λ o, foldl (λ o e, squeeze_io_event id e o) o events) s).

(** ** Small operations *)

Definition trace (event : InternalEvent) (s : LiquidCache) : LiquidCache :=
  set_observer (record_internal event) s.

Definition do_notify_insert (id : EntryID) (ty : CachedBatchType) (s : LiquidCache) : outcome LiquidCache :=
  p ← notify_insert id ty (cache_policy s); Ret (set_policy p s).

Definition do_notify_access (id : EntryID) (ty : CachedBatchType) (s : LiquidCache) : outcome LiquidCache :=
  p ← notify_access id ty (cache_policy s); Ret (set_policy p s).

Definition reset (s : LiquidCache) : LiquidCache := set_budget reset_usage (set_index index_reset s).

Definition is_cached (id : EntryID) (s : LiquidCache) : bool := index_is_cached id (index s).

Definition write_batch_to_disk (id : EntryID) (batch : CacheEntry) (bytes : Bytes) (s : LiquidCache)
    : LiquidCache :=
  let s := trace (IoWrite id (batch_type batch) (bytes_len bytes)) s in
  let s := write_file id bytes s in
  set_budget (add_used_disk_bytes (bytes_len bytes)) s.

(** The write of the bytes a squeeze asks for. *)
Definition write_opt (id : EntryID) (batch : CacheEntry) (bytes : option Bytes) (s : LiquidCache)
    : LiquidCache :=
  match bytes with Some bytes => write_batch_to_disk id batch bytes s | None => s end.

Definition read_disk_arrow_array (id : EntryID) (s : LiquidCache) : outcome (ArrayRef * LiquidCache) :=
  bytes ← expect (file_of id s);
  array ← expect (ipc_read bytes);
  Ret (array, trace (IoReadArrow id (bytes_len bytes)) s).

Definition read_disk_liquid_array (id : EntryID) (s : LiquidCache)
    : outcome (LiquidArrayRef * LiquidCache) :=
  bytes ← expect (file_of id s);
  let s := trace (IoReadLiquid id (bytes_len bytes)) s in
  liquid ← read_from_bytes bytes (compressor_state s);
  Ret (liquid, s).

(** [try_insert]: [Some e] is [Err(e)]. *)
Definition try_insert (id : EntryID) (to_insert : CacheEntry) (s : LiquidCache)
    : outcome (option CacheEntry * LiquidCache) :=
  let new_memory_size := memory_usage to_insert in
  let reserved :=
    match index_get id (index s) with
    | Some entry => try_update_memory_usage (memory_usage entry) new_memory_size (budget s)
    | None => try_reserve_memory new_memory_size (budget s)
    end in
  match reserved with
  | None => Ret (Some to_insert, s)
  | Some b =>
      let s := set_budget (λ _, b) s in
      let s := set_index (index_insert id to_insert) s in
      let s := trace (InsertSuccess id (batch_type to_insert)) s in
      s ← do_notify_insert id (batch_type to_insert) s;
      Ret (None, s)
  end.

(** ** Squeezing *)

Section policies.
Context (squeeze_policy : SqueezePolicy) (hydration_policy : HydrationPolicy).

(** The policy with the shared compressor state. *)
Definition run_squeeze (e : CacheEntry) (hint : option Hint) (s : LiquidCache)
    : outcome ((CacheEntry * option Bytes) * LiquidCache) :=
  '(r, c) ← squeeze_policy e (compressor_state s) hint; Ret (r, set_compressor c s).

Fixpoint squeeze_victim_loop (fuel : nat) (to_squeeze : EntryID) (batch : CacheEntry)
    (hint : option Hint) (s : LiquidCache) : outcome LiquidCache :=
  match fuel with
  | 0 => NoFuel
  | Datatypes.S fuel =>
      '((new_batch, bytes_to_write), s) ← run_squeeze batch hint s;
      let s := write_opt to_squeeze new_batch bytes_to_write s in
      '(r, s) ← try_insert to_squeeze new_batch s;
      match r with
      | None => Ret s
      | Some batch => squeeze_victim_loop fuel to_squeeze batch hint s
      end
  end.

(** At most three squeezes take an entry to disk, where it takes no memory. *)
Definition squeeze_fuel : nat := 4.

Definition squeeze_victim_inner (to_squeeze : EntryID) (s : LiquidCache) : outcome LiquidCache :=
  match index_get to_squeeze (index s) with
  | None => Ret s
  | Some to_squeeze_batch =>
      let s := trace (SqueezeVictim to_squeeze) s in
      squeeze_victim_loop squeeze_fuel to_squeeze to_squeeze_batch (squeeze_hint to_squeeze s) s
  end.

Fixpoint squeeze_each (victims : list EntryID) (s : LiquidCache) : outcome LiquidCache :=
  match victims with
  | [] => Ret s
  | victim :: victims => s ← squeeze_victim_inner victim s; squeeze_each victims s
  end.

Definition squeeze_victims (victims : list EntryID) (s : LiquidCache) : outcome LiquidCache :=
  squeeze_each victims (trace (SqueezeBegin victims) s).

(** ** Inserting *)

Definition write_in_memory_batch_to_disk (id : EntryID) (batch : CacheEntry) (s : LiquidCache)
    : outcome (CacheEntry * LiquidCache) :=
  match batch with
  | MemoryArrow _ =>
      '((new_batch, bytes_to_write), s) ← run_squeeze batch None s;
      Ret (new_batch, write_opt id new_batch bytes_to_write s)
  | MemoryLiquid liquid_array =>
      liquid_bytes ← l_to_bytes liquid_array;
      Ret (DiskLiquid (l_original_type liquid_array), write_batch_to_disk id batch liquid_bytes s)
  | MemorySqueezedLiquid squeezed_array => Ret (disk_entry_from_squeezed squeezed_array, s)
  | DiskLiquid _ | DiskArrow _ => Panic
  end.

Fixpoint insert_inner (fuel : nat) (id : EntryID) (batch_to_cache : CacheEntry) (s : LiquidCache)
    : outcome LiquidCache :=
  match fuel with
  | 0 => NoFuel
  | Datatypes.S fuel =>
      '(r, s) ← try_insert id batch_to_cache s;
      match r with
      | None => Ret s
      | Some not_inserted =>
          let s := trace (InsertFailed id (batch_type not_inserted)) s in
          '(victims, p) ← find_victim 8 (cache_policy s);
          let s := set_policy p s in
          match victims with
          | [] =>
              '(on_disk_batch, s) ← write_in_memory_batch_to_disk id not_inserted s;
              insert_inner fuel id on_disk_batch s
          | _ =>
              s ← squeeze_victims victims s;
              insert_inner fuel id not_inserted s
          end
      end
  end.

(** ** Reading *)

Definition maybe_hydrate (fuel : nat) (id : EntryID) (cached : CacheEntry)
    (materialized : MaterializedEntry) (expression : option Hint) (s : LiquidCache)
    : outcome LiquidCache :=
  '(new_entry, c) ←
    hydration_policy (HRequest id cached materialized expression) (compressor_state s);
  let s := set_compressor c s in
  match new_entry with
  | None => Ret s
  | Some new_entry =>
      let s := trace (HydrateEvent id (batch_type cached) (batch_type new_entry)) s in
      insert_inner fuel id new_entry s
  end.

(** [filter(array, selection).ok()]. *)
Definition filter_ok (array : ArrayRef) (selection : option BooleanBuffer) : option ArrayRef :=
  match selection with Some selection => arr_filter array selection | None => Some array end.

Definition liquid_selected (liquid : LiquidArrayRef) (selection : option BooleanBuffer)
    : outcome ArrayRef :=
  match selection with Some selection => l_filter liquid selection | None => l_to_arrow liquid end.

Definition selects_nothing (selection : option BooleanBuffer) : bool :=
  match selection with Some selection => Nat.eqb (count_set_bits selection) 0 | None => false end.

Definition read_disk_array (fuel : nat) (entry : CacheEntry) (id : EntryID) (expression : option Hint)
    (selection : option BooleanBuffer) (s : LiquidCache) : outcome (option ArrayRef * LiquidCache) :=
  match entry with
  | DiskArrow data_type =>
      if selects_nothing selection then Ret (Some (new_empty_array data_type), s)
      else
        '(full_array, s) ← read_disk_arrow_array id s;
        s ← maybe_hydrate fuel id entry (MatArrow full_array) expression s;
        Ret (filter_ok full_array selection, s)
  | DiskLiquid data_type =>
      if selects_nothing selection then Ret (Some (new_empty_array data_type), s)
      else
        '(liquid, s) ← read_disk_liquid_array id s;
        s ← maybe_hydrate fuel id entry (MatLiquid liquid) expression s;
        array ← liquid_selected liquid selection;
        Ret (Some array, s)
  | _ => Panic
  end.

Definition try_read_squeezed_date32_array (array : SqueezedRef) (expression : option Hint)
    (selection : option BooleanBuffer) (s : LiquidCache) : option ArrayRef * LiquidCache :=
  match expression, s_as_date32 array with
  | Some (ExtractDate32 field), Some (squeezed_field, component) =>
      if CivilDate.date32_field_eqb squeezed_field field then
        (filter_ok component selection, set_observer on_hit_date32_expression s)
      else (None, s)
  | _, _ => (None, s)
  end.

Definition try_read_squeezed_variant_array (fuel : nat) (array : SqueezedRef) (id : EntryID)
    (expression : option Hint) (selection : option BooleanBuffer) (s : LiquidCache)
    : outcome (option ArrayRef * LiquidCache) :=
  match expression ≫= variant_requests, s_as_variant array with
  | Some requests, Some variant_squeezed =>
      let all_paths_present :=
        forallb (λ request, contains_path (vr_path request) variant_squeezed) requests in
      '(full_array, s) ←
        (if negb all_paths_present then
           let s := set_observer on_get_squeezed_needs_io s in
           '(full_array, s) ← read_disk_arrow_array id s;
           s ← maybe_hydrate fuel id (MemorySqueezedLiquid array) (MatArrow full_array) expression s;
           Ret (full_array, s)
         else
           full_array ← to_arrow_array_with_paths (vr_path <$> requests) variant_squeezed;
           Ret (full_array, s));
      Ret (filter_ok full_array selection, s)
  | _, _ => Ret (None, s)
  end.

(** The trace of a read served by a squeezed array ([expression.unwrap()]). *)
Definition squeezed_success (id : EntryID) (expression : option Hint) (s : LiquidCache)
    : outcome LiquidCache :=
  let s := set_observer on_get_squeezed_success s in
  expression ← expect expression;
  Ret (trace (ReadSqueezedData id expression) s).

Definition squeezed_selected (array : SqueezedRef) (selection : option BooleanBuffer)
    : SqueezeIo ArrayRef :=
  match selection with Some selection => s_filter array selection | None => s_to_arrow array end.

Definition read_squeezed_array (fuel : nat) (array : SqueezedRef) (id : EntryID)
    (expression : option Hint) (selection : option BooleanBuffer) (s : LiquidCache)
    : outcome (option ArrayRef * LiquidCache) :=
  let '(date, s) := try_read_squeezed_date32_array array expression selection s in
  match date with
  | Some array => s ← squeezed_success id expression s; Ret (Some array, s)
  | None =>
      '(variant, s) ← try_read_squeezed_variant_array fuel array id expression selection s;
      match variant with
      | Some array => s ← squeezed_success id expression s; Ret (Some array, s)
      | None =>
          '(out, s) ← run_squeezed id (squeezed_selected array selection) s;
          Ret (Some out, s)
      end
  end.

Definition is_some {A} (o : option A) : bool := match o with Some _ => true | None => false end.

Definition read_arrow_array (fuel : nat) (id : EntryID) (selection : option BooleanBuffer)
    (expression : option Hint) (s : LiquidCache) : outcome (option ArrayRef * LiquidCache) :=
  match index_get id (index s) with
  | None => Ret (None, s)
  | Some batch =>
      s ← do_notify_access id (batch_type batch) s;
      let s := trace (ReadEvent id (is_some selection) expression (batch_type batch)) s in
      match batch with
      | MemoryArrow array => Ret (filter_ok array selection, s)
      | MemoryLiquid array => a ← liquid_selected array selection; Ret (Some a, s)
      | DiskArrow _ | DiskLiquid _ => read_disk_array fuel batch id expression selection s
      | MemorySqueezedLiquid array => read_squeezed_array fuel array id expression selection s
      end
  end.

Definition try_read_liquid (fuel : nat) (id : EntryID) (s : LiquidCache)
    : outcome (option LiquidArrayRef * LiquidCache) :=
  let s := set_observer on_try_read_liquid s in
  let s := trace (TryReadLiquid id) s in
  match index_get id (index s) with
  | None => Ret (None, s)
  | Some batch =>
      s ← do_notify_access id (batch_type batch) s;
      match batch with
      | MemoryLiquid array => Ret (Some array, s)
      | DiskLiquid _ =>
          '(liquid, s) ← read_disk_liquid_array id s;
          s ← maybe_hydrate fuel id batch (MatLiquid liquid) None s;
          Ret (Some liquid, s)
      | MemorySqueezedLiquid array =>
          match s_disk_backing array with
          | BackingLiquid => '(liquid, s) ← read_disk_liquid_array id s; Ret (Some liquid, s)
          | BackingArrow => Ret (None, s)
          end
      | DiskArrow _ | MemoryArrow _ => Ret (None, s)
      end
  end.

(** ** Predicates *)

(** [Ok] is a boolean array, [Err] the filtered rows. *)
Definition PredicateResult : Type := BooleanArray + ArrayRef.

(** The selection, or every row. *)
Definition selection_or_all (selection : option BooleanBuffer) (len : nat) : BooleanBuffer :=
  default (repeat true len) selection.

Definition filter_for_predicate (array : ArrayRef) (selection : option BooleanBuffer)
    : option PredicateResult :=
  inr <$> arr_filter array (selection_or_all selection (arr_len array)).

Definition eval_on_liquid (array : LiquidArrayRef) (selection : option BooleanBuffer)
    (predicate : PhysicalExpr) (s : LiquidCache) : outcome (option PredicateResult * LiquidCache) :=
  let selection := selection_or_all selection (l_len array) in
  r ← l_try_eval array predicate selection;
  match r with
  | Some buf => Ret (Some (inl buf), s)
  | None =>
      let s := set_observer (with_runtime (incr c_eval_predicate_on_liquid_failed)) s in
      filtered ← l_filter array selection;
      Ret (Some (inr filtered), s)
  end.

Definition eval_predicate_on_squeezed (array : SqueezedRef) (id : EntryID)
    (selection : option BooleanBuffer) (predicate : PhysicalExpr) (s : LiquidCache)
    : outcome (option PredicateResult * LiquidCache) :=
  let selection := selection_or_all selection (s_len array) in
  '(r, s) ← run_squeezed id (s_try_eval array predicate selection) s;
  match r with
  | Some buf => Ret (Some (inl buf), s)
  | None =>
      '(filtered, s) ← run_squeezed id (s_filter array selection) s;
      Ret (Some (inr filtered), s)
  end.

Definition eval_predicate_internal (fuel : nat) (id : EntryID) (selection : option BooleanBuffer)
    (predicate : PhysicalExpr) (s : LiquidCache) : outcome (option PredicateResult * LiquidCache) :=
  let s := set_observer on_eval_predicate s in
  match index_get id (index s) with
  | None => Ret (None, s)
  | Some batch =>
      s ← do_notify_access id (batch_type batch) s;
      let s := trace (EvalPredicateEvent id (is_some selection) (batch_type batch)) s in
      match batch with
      | MemoryArrow array => Ret (filter_for_predicate array selection, s)
      | DiskArrow _ =>
          '(array, s) ← read_disk_arrow_array id s;
          s ← maybe_hydrate fuel id batch (MatArrow array) None s;
          Ret (filter_for_predicate array selection, s)
      | MemoryLiquid array => eval_on_liquid array selection predicate s
      | DiskLiquid _ =>
          '(liquid, s) ← read_disk_liquid_array id s;
          s ← maybe_hydrate fuel id batch (MatLiquid liquid) None s;
          eval_on_liquid liquid selection predicate s
      | MemorySqueezedLiquid array => eval_predicate_on_squeezed array id selection predicate s
      end
  end.

(** ** Flushing *)

(** [try_insert(..).expect(..)]. *)
Definition insert_expect (id : EntryID) (e : CacheEntry) (s : LiquidCache) : outcome LiquidCache :=
  '(r, s) ← try_insert id e s;
  match r with None => Ret s | Some _ => Panic end.

Definition flush_entry (id : EntryID) (batch : CacheEntry) (s : LiquidCache) : outcome LiquidCache :=
  match batch with
  | MemoryArrow array =>
      bytes ← expect (arrow_to_bytes array);
      insert_expect id (DiskArrow (arr_data_type array)) (write_batch_to_disk id batch bytes s)
  | MemoryLiquid liquid_array =>
      liquid_bytes ← l_to_bytes liquid_array;
      insert_expect id (DiskLiquid (l_original_type liquid_array))
        (write_batch_to_disk id batch liquid_bytes s)
  | MemorySqueezedLiquid array => insert_expect id (disk_entry_from_squeezed array) s
  | DiskArrow _ | DiskLiquid _ => Ret s
  end.

Fixpoint flush_entries (entries : list (EntryID * CacheEntry)) (s : LiquidCache) : outcome LiquidCache :=
  match entries with
  | [] => Ret s
  | (id, batch) :: entries => s ← flush_entry id batch s; flush_entries entries s
  end.

Definition flush_all_to_disk (s : LiquidCache) : outcome LiquidCache :=
  flush_entries (index_entries (index s)) s.
End policies.

(** ** Statistics *)

Record CacheStats : Type := mkStats {
  total_entries : Z;
  memory_arrow_entries : Z;
  memory_liquid_entries : Z;
  memory_squeezed_liquid_entries : Z;
  disk_liquid_entries : Z;
  disk_arrow_entries : Z;
  memory_arrow_bytes : Z;
  memory_liquid_bytes : Z;
  memory_squeezed_liquid_bytes : Z;
  st_memory_usage_bytes : Z;
  st_disk_usage_bytes : Z;
  st_max_cache_bytes : Z;
  st_runtime : RuntimeStats
}.

(** The entries of a kind and the bytes they take, as the loop adds them up. *)
Definition count_kind (ty : CachedBatchType) (es : list (EntryID * CacheEntry)) : Z :=
  foldl (λ n e, if decide (batch_type e.2 = ty) then usize (n + 1) else n) 0%Z es.

Definition bytes_kind (ty : CachedBatchType) (es : list (EntryID * CacheEntry)) : Z :=
  foldl (λ n e, if decide (batch_type e.2 = ty) then usize (n + memory_usage e.2) else n) 0%Z es.

(** Taking the statistics resets the runtime counters. *)
Definition stats (s : LiquidCache) : CacheStats * LiquidCache :=
  let es := index_entries (index s) in
  let '(runtime, o) := runtime_snapshot (observer s) in
  (mkStats (entry_count (index s))
     (count_kind TMemoryArrow es) (count_kind TMemoryLiquid es) (count_kind TMemorySqueezedLiquid es)
     (count_kind TDiskLiquid es) (count_kind TDiskArrow es)
     (bytes_kind TMemoryArrow es) (bytes_kind TMemoryLiquid es) (bytes_kind TMemorySqueezedLiquid es)
     (memory_usage_bytes (budget s)) (disk_usage_bytes (budget s)) (max_memory_bytes (budget s))
     runtime,
   set_observer (λ _, o) s).
End core.
Arguments LiquidCache {AL LF} P.
