(* ===== verification/CoreInv.v ===== *)
(** * The invariant of the cache

    What holds between two operations of the cache of [Core.v]: every entry of
    the index holds the value last inserted for it ([m]), in memory or in its
    file; the memory in use is the sum of the sizes of the entries and within
    the budget; the policy is in a good state.  While an entry is being replaced
    its old content may already be gone from its file: [X] is that entry. *)

From stdpp Require Import base list gmap strings.
From Stdlib Require Import ZArith String Lia.
From S2P Require Import Prelude CachePolicy DataTypes Expressions Budget Formats Observer CacheEntry.
From S2P Require Import Transcode VariantArray Squeeze Hydration Core.

Section invariant.
Context {AL : ArrowLib} {LF : LiquidFormats} {VL : VariantLib} {FL : FormatLaws}.
Context {P : Type} {CP : CachePolicy P} {PL : PolicyLaws P}.

Definition is_usize (z : Z) : Prop := (0 <= z < 2 ^ 64)%Z.

Record cache_inv (X : option EntryID) (s : LiquidCache P) (m : gmap Z Val) : Prop := {
  ci_dom id : is_Some (art (index s) !! id) ↔ is_Some (m !! id);
  ci_val id v : m !! id = Some v → is_usize id ∧ dictionary_supported (vtype v) = true;
  ci_ok id e v :
    X ≠ Some id → art (index s) !! id = Some e → m !! id = Some v →
    entry_ok (compressor_state s) (file_of id s) e v;
  ci_used : used_memory_bytes (budget s) = msum memory_usage (art (index s));
  ci_max : (used_memory_bytes (budget s) <= max_memory_bytes (budget s) <= 2 ^ 63)%Z;
  ci_count : entry_count (index s) = usize (Z.of_nat (size (art (index s))));
  ci_policy : policy_inv (cache_policy s);
  ci_hints id h : squeeze_hints s !! id = Some h → variant_requests h = None
}.

Lemma memory_usage_range e : (0 <= memory_usage e < 2 ^ 63)%Z.
Proof. destruct e; cbn; [apply arr_size|apply l_size|apply s_size|lia|lia]. Qed.

Lemma rank_memory e : rank e = 0 ↔ in_memory (batch_type e) = false.
Proof. by destruct e. Qed.

Lemma rank_zero_size e : rank e = 0 → memory_usage e = 0%Z.
Proof. by destruct e. Qed.

(** An entry of rank two or more does not depend on its file. *)
Lemma entry_ok_file c file file' e v : 2 ≤ rank e → entry_ok c file e v → entry_ok c file' e v.
Proof. destruct e; cbn; lia || done. Qed.

(** ** Files *)

Lemma file_of_write id b (s : LiquidCache P) : file_of id (write_file id b s) = Some b.
Proof. apply lookup_insert_eq. Qed.

Lemma file_of_write_ne id id' b (s : LiquidCache P) :
  is_usize id → is_usize id' → id ≠ id' → file_of id' (write_file id b s) = file_of id' s.
Proof.
  intros H H' Hne. apply lookup_insert_ne. intros E. by apply disk_path_inj_range in E.
Qed.

(** What an observation leaves alone. *)
Definition same_but_observer (s s' : LiquidCache P) : Prop := s' = set_observer (λ _, observer s') s.

Lemma same_refl (s : LiquidCache P) : same_but_observer s s.
Proof. by destruct s. Qed.

Lemma same_trace ev (s : LiquidCache P) : same_but_observer s (trace ev s).
Proof. done. Qed.

Lemma same_observer f (s : LiquidCache P) : same_but_observer s (set_observer f s).
Proof. done. Qed.

Lemma same_trans (s1 s2 s3 : LiquidCache P) :
  same_but_observer s1 s2 → same_but_observer s2 s3 → same_but_observer s1 s3.
Proof. unfold same_but_observer. intros -> ->. done. Qed.

Lemma cache_inv_same X (s s' : LiquidCache P) m :
  same_but_observer s s' → cache_inv X s m → cache_inv X s' m.
Proof. intros ->. by destruct 1. Qed.

(** ** Writing to a file *)

Lemma cache_inv_weaken id (s : LiquidCache P) m : cache_inv None s m → cache_inv (Some id) s m.
Proof. intros []; split; auto. Qed.

Lemma write_batch_inv X id b e (s : LiquidCache P) m :
  cache_inv X s m → (X = None ∨ X = Some id) → is_usize id →
  cache_inv (Some id) (write_batch_to_disk id e b s) m
  ∧ file_of id (write_batch_to_disk id e b s) = Some b.
Proof.
  intros I HX Hid. split; [|apply file_of_write].
  destruct I as [Hd Hv Ho Hu Hm Hc Hp Hh]. split; try done.
  intros id' e' v Hne He Hm'. assert (id ≠ id') by congruence.
  destruct (Hv _ _ Hm') as [Hid' _].
  replace (file_of id' _) with (file_of id' s); [apply Ho; [naive_solver|done|done]|].
  symmetry. exact (file_of_write_ne id id' b s Hid Hid' H).
Qed.

Lemma write_opt_inv X id b e (s : LiquidCache P) m :
  cache_inv X s m → (X = None ∨ X = Some id) → is_usize id →
  cache_inv (Some id) (write_opt id e b s) m
  ∧ file_of id (write_opt id e b s) = option_or b (file_of id s)
  ∧ compressor_state (write_opt id e b s) = compressor_state s
  ∧ index (write_opt id e b s) = index s
  ∧ cache_policy (write_opt id e b s) = cache_policy s.
Proof.
  intros I HX Hid. destruct b as [b|]; cbn [write_opt option_or].
  - destruct (write_batch_inv X id b e s m I HX Hid). done.
  - split_and!; try done. destruct HX as [->| ->]; [by apply cache_inv_weaken|done].
Qed.

Lemma set_compressor_inv X c (s : LiquidCache P) m :
  comp_le (compressor_state s) c → cache_inv X s m → cache_inv X (set_compressor c s) m.
Proof.
  intros Hc [Hd Hv Ho Hu Hm Hcn Hp Hh]. split; try done.
  intros id e v Hne He Hm'. eapply entry_ok_le; [exact Hc|]. by apply Ho.
Qed.

(** ** Weight

    A bound on the squeezes still possible: every squeeze lowers a rank or takes
    an entry out of the policy for good. *)
Definition rank_z (e : CacheEntry) : Z := Z.of_nat (rank e).

Definition weight (s : LiquidCache P) : Z :=
  2 * msum rank_z (art (index s)) + Z.of_nat (List.length (tracked (cache_policy s))).

Lemma weight_nonneg s : (0 <= weight s)%Z.
Proof. unfold weight. pose proof (msum_nonneg rank_z (art (index s)) ltac:(unfold rank_z; lia)). lia. Qed.

Lemma access_inv X id ty (s : LiquidCache P) m :
  cache_inv X s m →
  ∃ s', do_notify_access id ty s = Ret s' ∧ cache_inv X s' m ∧ index s' = index s
        ∧ files s' = files s ∧ compressor_state s' = compressor_state s ∧ weight s' = weight s.
Proof.
  intros I. destruct (notify_access_ok id ty _ (ci_policy _ _ _ I)) as (p & Hp & Hi & Ht).
  unfold do_notify_access. rewrite Hp. eexists. split; [done|]. split.
  { destruct I. by split. }
  split_and!; try done. unfold weight. cbn. do 2 f_equal.
  apply Permutation_length, NoDup_Permutation; [by apply tracked_NoDup| |done].
  by apply tracked_NoDup, (ci_policy _ _ _ I).
Qed.

(** ** Insertion *)

(** [try_insert] gives the entry back when it does not fit, and never refuses
    an entry that takes no memory. *)
Definition insert_post (id : EntryID) (e : CacheEntry) (v : Val) (s : LiquidCache P) m
    (r : outcome (option CacheEntry * LiquidCache P)) : Prop :=
  (∃ s', r = Ret (None, s') ∧ cache_inv None s' (<[id := v]> m)
         ∧ art (index s') = <[id := e]> (art (index s))
         ∧ files s' = files s ∧ compressor_state s' = compressor_state s
         ∧ squeeze_hints s' = squeeze_hints s
         ∧ (∀ i, i ≠ id → i ∈ tracked (cache_policy s') ↔ i ∈ tracked (cache_policy s))
         ∧ notify_insert id (batch_type e) (cache_policy s) = Ret (cache_policy s'))
  ∨ (r = Ret (Some e, s) ∧ rank e ≠ 0
     ∧ ∃ d, (max_memory_bytes (budget s) < used_memory_bytes (budget s) - d + memory_usage e)%Z
            ∧ d = fopt memory_usage (art (index s) !! id)).

Lemma try_insert_max id e r (s s' : LiquidCache P) :
  try_insert id e s = Ret (r, s') → max_memory_bytes (budget s') = max_memory_bytes (budget s).
Proof.
  intros H. unfold try_insert in H.
  destruct (match index_get id (index s) with Some _ => _ | None => _ end) as [b|] eqn:Eb; [|by simplify_eq].
  assert (max_memory_bytes b = max_memory_bytes (budget s)) as Hb.
  { unfold try_update_memory_usage, try_reserve_memory in Eb. repeat case_match; simplify_eq; done. }
  unfold do_notify_insert in H. cbn in H.
  destruct (notify_insert _ _ _); cbn in H; try done. by injection H as <- <-.
Qed.

Lemma try_insert_inv X id e v (s : LiquidCache P) m :
  cache_inv X s m → (X = None ∨ X = Some id) → is_usize id →
  dictionary_supported (vtype v) = true →
  entry_ok (compressor_state s) (file_of id s) e v →
  insert_post id e v s m (try_insert id e s).
Proof.
  intros I HX Hid Hd He. unfold insert_post, try_insert, index_get.
  pose proof I as [Hdom Hv Ho Hu Hm Hc Hp Hh].
  assert (0 <= used_memory_bytes (budget s))%Z as Hu0
    by (rewrite Hu; apply msum_nonneg; intros; apply memory_usage_range).
  pose proof (memory_usage_range e) as He0.
  set (d := fopt memory_usage (art (index s) !! id)).
  assert (0 <= d <= used_memory_bytes (budget s))%Z as Hdd.
  { subst d. rewrite Hu. destruct (art (index s) !! id) as [e0|] eqn:E; cbn.
    - split; [apply memory_usage_range|]. eapply msum_lookup; [|done]. intros; apply memory_usage_range.
    - split; [done|]. apply msum_nonneg. intros; apply memory_usage_range. }
  assert (match art (index s) !! id with
          | Some entry => try_update_memory_usage (memory_usage entry) (memory_usage e) (budget s)
          | None => try_reserve_memory (memory_usage e) (budget s)
          end
          = if (used_memory_bytes (budget s) - d + memory_usage e <=? max_memory_bytes (budget s))%Z
            then Some (Budget (max_memory_bytes (budget s))
                   (used_memory_bytes (budget s) - d + memory_usage e) (used_disk_bytes (budget s)))
            else None) as ->.
  { subst d. destruct (art (index s) !! id) as [e0|]; cbn [fopt] in *.
    - apply try_update_ok; lia.
    - rewrite Z.sub_0_r. apply try_reserve_ok; lia. }
  destruct (_ <=? _)%Z eqn:E.
  - left. unfold do_notify_insert. cbn [trace set_observer set_index set_budget cache_policy].
    destruct (notify_insert_ok id (batch_type e) _ Hp) as (p & Hn & Hi & Ht & _). rewrite Hn.
    run_step. eexists. split; [done|]. split; [|done].
    split; cbn [index set_policy trace set_observer set_index set_budget index_insert art budget
                used_memory_bytes max_memory_bytes cache_policy squeeze_hints]; try done.
    + intros i. rewrite !lookup_insert_is_Some'. rewrite Hdom. done.
    + intros i v' Hi'. apply lookup_insert_Some in Hi' as [[<- <-]|[_ ?]]; [done|by apply Hv].
    + intros i e' v' _ He' Hv'. destruct (decide (i = id)) as [->|Hne].
      * rewrite lookup_insert_eq in He'. rewrite lookup_insert_eq in Hv'. by simplify_eq.
      * rewrite lookup_insert_ne in He' by done. rewrite lookup_insert_ne in Hv' by done. apply Ho; [naive_solver|done|done].
    + rewrite msum_insert, <- Hu. subst d. lia.
    + lia.
    + unfold entry_count in *. cbn [index_insert ix_entry_count]. rewrite Hc.
      destruct (art (index s) !! id) eqn:El.
      * by rewrite map_size_insert_Some by (by eexists).
      * rewrite map_size_insert_None by done. unfold usize.
        rewrite Z.add_mod_idemp_l by done. f_equal. lia.
  - right. split; [done|]. split.
    + intros Hr. apply rank_zero_size in Hr. rewrite Hr in E. lia.
    + exists d. split; [lia|done].
Qed.
End invariant.
