(* ===== verification/CoreOps.v ===== *)
(** * The operations of the cache keep its invariant and end

    For any squeeze policy, hydration policy and cache policy that satisfy their
    laws: squeezing a victim, inserting and hydrating return with enough fuel
    (bounded by [weight]), never panic and keep the invariant of [CoreInv.v]. *)

From stdpp Require Import base list gmap strings.
From Stdlib Require Import ZArith String Lia.
From S2P Require Import Prelude CachePolicy DataTypes Expressions Budget Formats Observer CacheEntry.
From S2P Require Import Transcode VariantArray Squeeze Hydration Core CoreInv.

Section ops.
Context {AL : ArrowLib} {LF : LiquidFormats} {VL : VariantLib} {FL : FormatLaws}.
Context {P : Type} {CP : CachePolicy P} {PL : PolicyLaws P} {MO : MemoryOnlyPolicy P}.
Context (squeeze_policy : SqueezePolicy) (hydration_policy : HydrationPolicy).
Context {SL : SqueezeLaws squeeze_policy} {HL : HydrationLaws hydration_policy}.

Lemma tracked_insert_length (t t' : list Z) id b :
  NoDup t → NoDup t' → id ∉ t → (∀ i, i ≠ id → i ∈ t' ↔ i ∈ t) → (b = false → id ∉ t') →
  List.length t' ≤ List.length t + (if b then 1 else 0).
Proof.
  intros H1 H2 Hn Hi Hb. destruct b.
  - transitivity (List.length (id :: t)); [|cbn; lia].
    apply submseteq_length, NoDup_submseteq; [done|].
    intros i Hit. destruct (decide (i = id)) as [->|Hne]; [left|right]. by apply Hi.
  - rewrite Nat.add_0_r. apply submseteq_length, NoDup_submseteq; [done|].
    intros i Hit. destruct (decide (i = id)) as [->|Hne]; [by destruct Hb|by apply Hi].
Qed.

(** An untracked entry that is replaced by one of lower rank, or by a disk entry
    of no higher rank, does not increase the weight. *)
Lemma insert_weight id e e0 (s s' : LiquidCache P) :
  policy_inv (cache_policy s) → policy_inv (cache_policy s') →
  art (index s) !! id = Some e0 → art (index s') = <[id := e]> (art (index s)) →
  id ∉ tracked (cache_policy s) →
  (∀ i, i ≠ id → i ∈ tracked (cache_policy s') ↔ i ∈ tracked (cache_policy s)) →
  notify_insert id (batch_type e) (cache_policy s) = Ret (cache_policy s') →
  (rank e < rank e0 ∨ (rank e = 0 ∧ rank e0 = 0)) →
  (weight s' <= weight s)%Z.
Proof.
  intros Hp Hp' E E' Hn Hi Hnot Hr. unfold weight. rewrite E', msum_insert, E. cbn [fopt].
  unfold rank_z.
  pose proof (tracked_insert_length (tracked (cache_policy s)) (tracked (cache_policy s')) id
                (in_memory (batch_type e)) (tracked_NoDup _ Hp) (tracked_NoDup _ Hp') Hn Hi) as Hl.
  assert (in_memory (batch_type e) = false → id ∉ tracked (cache_policy s')) as Hmo
    by (intros Hm; exact (notify_insert_disk id _ _ _ Hp Hm Hnot)).
  specialize (Hl Hmo).
  destruct (in_memory (batch_type e)) eqn:Em.
  - assert (rank e ≠ 0) by (intros H%rank_memory; congruence). lia.
  - apply rank_memory in Em. lia.
Qed.

(** What squeezing an entry changes. *)
Record squeezed_post (s s' : LiquidCache P) (m : gmap Z Val) (id : EntryID) : Prop := {
  sp_inv : cache_inv None s' m;
  sp_weight : (weight s' <= weight s)%Z;
  sp_comp : comp_le (compressor_state s) (compressor_state s');
  sp_tracked i : i ≠ id → i ∈ tracked (cache_policy s') ↔ i ∈ tracked (cache_policy s)
}.

Lemma squeeze_loop_ok fuel id batch hint e0 v (s : LiquidCache P) m :
  cache_inv (Some id) s m → m !! id = Some v → hint_plain hint →
  entry_ok (compressor_state s) (file_of id s) batch v →
  art (index s) !! id = Some e0 → rank batch ≤ rank e0 → id ∉ tracked (cache_policy s) →
  rank batch < fuel →
  ∃ s', squeeze_victim_loop squeeze_policy fuel id batch hint s = Ret s' ∧ squeezed_post s s' m id.
Proof.
  revert batch s. induction fuel as [|fuel IH]; intros batch s I Hm Hh He E Hr Hn Hf; [lia|].
  destruct (ci_val _ _ _ I _ _ Hm) as [Hid Hd].
  destruct (squeeze_ok batch (compressor_state s) hint (file_of id s) v Hh Hd He)
    as (e' & b & c' & Hsq & Hc & He' & Hr' & _).
  cbn [squeeze_victim_loop]. unfold run_squeeze. rewrite Hsq. run_step.
  set (s1 := set_compressor c' s).
  assert (cache_inv (Some id) s1 m) as I1 by (by apply set_compressor_inv).
  destruct (write_opt_inv (Some id) id b e' s1 m I1 (or_intror eq_refl) Hid)
    as (I2 & Hfile & Hcomp & Hix & Hpol).
  set (s2 := write_opt id e' b s1) in *.
  assert (entry_ok (compressor_state s2) (file_of id s2) e' v) as He2 by (by rewrite Hfile, Hcomp).
  assert (weight s2 = weight s) as Hw2 by (unfold weight; by rewrite Hix, Hpol).
  assert (policy_inv (cache_policy s)) as Hp by (apply (ci_policy _ _ _ I)).
  destruct (try_insert_inv (Some id) id e' v s2 m I2 (or_intror eq_refl) Hid Hd He2)
    as [(s3 & -> & I3 & Hart & Hfiles & Hc3 & Hh3 & Htr & Hnot)|(-> & Hr0 & _)];
    run_step.
  - exists s3. split; [done|]. rewrite insert_id in I3 by done. split; [done| | |].
    + rewrite <- Hw2. eapply (insert_weight id e' e0); try done.
      * by rewrite Hpol.
      * apply (ci_policy _ _ _ I3).
      * by rewrite Hix.
      * by rewrite Hpol.
      * destruct Hr' as [?|[? ->]]; [left; lia|]. destruct (decide (rank e0 = 0)); [by right|left; lia].
    + by rewrite Hc3, Hcomp.
    + intros i Hi. rewrite Htr by done. by rewrite Hpol.
  - destruct Hr' as [Hr'|[? ->]]; [|done].
    destruct (IH e' s2 I2 Hm Hh He2) as (s3 & -> & [I3 Hw3 Hc3 Ht3]).
    + by rewrite Hix.
    + lia.
    + by rewrite Hpol.
    + lia.
    + exists s3. split; [done|]. split; [done|by rewrite <- Hw2| |].
      * etrans; [exact Hc|]. by rewrite Hcomp in Hc3.
      * intros i Hi. rewrite Ht3 by done. by rewrite Hpol.
Qed.

Lemma squeeze_victim_ok id (s : LiquidCache P) m :
  cache_inv None s m → id ∉ tracked (cache_policy s) →
  ∃ s', squeeze_victim_inner squeeze_policy id s = Ret s' ∧ squeezed_post s s' m id.
Proof.
  intros I Hn. unfold squeeze_victim_inner, index_get.
  destruct (art (index s) !! id) as [e|] eqn:E; [|by exists s].
  destruct (proj1 (ci_dom _ _ _ I id)) as [v Hv]; [by eexists|].
  set (s1 := trace (SqueezeVictim id) s).
  assert (cache_inv None s1 m) as I1 by (by eapply cache_inv_same).
  destruct (squeeze_loop_ok squeeze_fuel id e (squeeze_hint id s1) e v s1 m) as (s' & -> & Hpost).
  - by apply cache_inv_weaken.
  - done.
  - unfold hint_plain, squeeze_hint. destruct (squeeze_hints s1 !! id) eqn:Eh; [|done].
    by eapply (ci_hints _ _ _ I1).
  - by apply (ci_ok _ _ _ I1).
  - done.
  - done.
  - done.
  - unfold squeeze_fuel. destruct e; cbn; lia.
  - exists s'. split; [done|]. by destruct Hpost.
Qed.

Lemma squeeze_each_ok victims (s : LiquidCache P) m :
  cache_inv None s m → NoDup victims → (∀ i, i ∈ victims → i ∉ tracked (cache_policy s)) →
  ∃ s', squeeze_each squeeze_policy victims s = Ret s'
        ∧ cache_inv None s' m ∧ (weight s' <= weight s)%Z
        ∧ comp_le (compressor_state s) (compressor_state s').
Proof.
  intros I ND. revert s I. induction ND as [|id victims Hnot ND IH]; intros s I Hn; [by exists s|].
  destruct (squeeze_victim_ok id s m I) as (s1 & Hs1 & [I1 Hw1 Hc1 Ht1]); [apply Hn; left|].
  destruct (IH s1 I1) as (s2 & Hs2 & I2 & Hw2 & Hc2).
  { intros i Hi. rewrite Ht1 by (intros ->; done). apply Hn. by right. }
  exists s2. cbn. rewrite Hs1. cbn. rewrite Hs2. split_and!; [done|done|lia|by etrans].
Qed.

(** Replacing an entry by any other adds at most seven. *)
Lemma insert_weight_le id e (s s' : LiquidCache P) :
  policy_inv (cache_policy s) → policy_inv (cache_policy s') →
  art (index s') = <[id := e]> (art (index s)) →
  (∀ i, i ≠ id → i ∈ tracked (cache_policy s') ↔ i ∈ tracked (cache_policy s)) →
  (weight s' <= weight s + 7)%Z.
Proof.
  intros Hp Hp' E' Hi. unfold weight. rewrite E', msum_insert.
  assert (0 <= fopt rank_z (art (index s) !! id))%Z as Ho
    by (destruct (art (index s) !! id); unfold rank_z; cbn; lia).
  assert (rank_z e <= 3)%Z as He by (unfold rank_z; destruct e; cbn; lia).
  assert (List.length (tracked (cache_policy s')) ≤ List.length (id :: tracked (cache_policy s))) as Hl.
  { apply submseteq_length, NoDup_submseteq; [by apply tracked_NoDup|].
    intros i Hit. destruct (decide (i = id)) as [->|Hne]; [left|right]. by apply Hi. }
  cbn in Hl. lia.
Qed.

(** The state after an operation on a cache that holds [m]. *)
Definition advanced (s s' : LiquidCache P) (m : gmap Z Val) : Prop :=
  cache_inv None s' m ∧ (weight s' <= weight s + 7)%Z.

Lemma advanced_here (s s' : LiquidCache P) m :
  cache_inv None s' m → weight s' = weight s → advanced s s' m.
Proof. intros I H. split; [done|lia]. Qed.

Lemma advanced_from (s0 s s' : LiquidCache P) m :
  weight s = weight s0 → advanced s s' m → advanced s0 s' m.
Proof. intros H [I Hw]. split; [done|lia]. Qed.

Lemma advanced_same (s0 s s' : LiquidCache P) m :
  same_but_observer s s' → advanced s0 s m → advanced s0 s' m.
Proof.
  intros Hs [I Hw]. split; [by eapply cache_inv_same|]. by rewrite Hs.
Qed.

(** ** Insertion *)

(** The entry to insert: it holds [v]; once it is on disk its file was written. *)
Definition pending (X : option EntryID) (id : EntryID) (e : CacheEntry) (v : Val) (s : LiquidCache P)
    : Prop :=
  entry_ok (compressor_state s) (file_of id s) e v
  ∧ ((X = None ∧ 2 ≤ rank e) ∨ (X = Some id ∧ rank e = 0)).

Lemma write_to_disk_ok id e v (s : LiquidCache P) m :
  cache_inv None s m → is_usize id → dictionary_supported (vtype v) = true →
  pending None id e v s → 2 ≤ rank e →
  ∃ e' s' X, write_in_memory_batch_to_disk squeeze_policy id e s = Ret (e', s')
    ∧ cache_inv X s' m ∧ pending X id e' v s' ∧ rank e' < rank e ∧ weight s' = weight s
    ∧ comp_le (compressor_state s) (compressor_state s').
Proof.
  intros I Hid Hd [He _] Hr. destruct e as [a|l|q|t|t]; cbn [rank] in Hr; try lia;
    cbn [write_in_memory_batch_to_disk].
  - destruct (squeeze_ok (MemoryArrow a) (compressor_state s) None (file_of id s) v eq_refl Hd He)
      as (e' & b & c' & Hsq & Hc & He' & Hr' & Hb).
    unfold run_squeeze. rewrite Hsq. run_step.
    set (s1 := set_compressor c' s).
    assert (cache_inv None s1 m) as I1 by (by apply set_compressor_inv).
    assert (rank e' < 3) as Hr3 by (destruct Hr' as [?|[? ?]]; cbn in *; lia).
    destruct (Hb eq_refl) as [H0|[-> H2]].
    + destruct (write_opt_inv None id b e' s1 m I1 (or_introl eq_refl) Hid)
        as (I2 & Hfile & Hcomp & Hix & Hpol).
      exists e', (write_opt id e' b s1), (Some id). split_and!; [done|done| |done| |].
      * split; [by rewrite Hfile, Hcomp|by right].
      * unfold weight. by rewrite Hix, Hpol.
      * by rewrite Hcomp.
    + exists e', s1, None. split_and!; [done|done| |done|done|done].
      split; [|left; split; [done|lia]]. eapply entry_ok_file; [|exact He']. lia.
  - cbn in He. destruct (l_bytes_ok _ _ _ He) as (b & Hb & _). rewrite Hb.
    run_step.
    destruct (write_batch_inv None id b (MemoryLiquid l) s m I (or_introl eq_refl) Hid) as [I2 Hf].
    eexists _, _, (Some id). split_and!; [done|exact I2| |cbn; lia|done|done].
    split; [|by right]. rewrite Hf. cbn. split; [by eapply l_type_ok|]. exists b. split; [done|]. by exists l.
Qed.

Lemma pending_mono id e v (s s' : LiquidCache P) :
  comp_le (compressor_state s) (compressor_state s') → pending None id e v s → pending None id e v s'.
Proof.
  intros Hc [He [[_ Hr]|[? _]]]; [|done]. split; [|by left].
  eapply entry_ok_file; [done|]. by eapply entry_ok_le.
Qed.

Lemma insert_inner_ok fuel id e v X (s : LiquidCache P) m :
  cache_inv X s m → is_usize id → dictionary_supported (vtype v) = true → pending X id e v s →
  (weight s + rank_z e < Z.of_nat fuel)%Z →
  ∃ s', insert_inner squeeze_policy fuel id e s = Ret s' ∧ advanced s s' (<[id := v]> m)
        ∧ comp_le (compressor_state s) (compressor_state s').
Proof.
  revert e X s. induction fuel as [|fuel IH]; intros e X s I Hid Hd Hpe Hf.
  { pose proof (weight_nonneg s). unfold rank_z in Hf. lia. }
  pose proof Hpe as [He HX].
  cbn [insert_inner].
  destruct (try_insert_inv X id e v s m I ltac:(naive_solver) Hid Hd He)
    as [(s3 & -> & I3 & Ha3 & _ & Hc3 & _ & Ht3 & _)|(-> & Hr0 & _)];
    run_step.
  { exists s3. split_and!; [done| |by rewrite Hc3]. split; [done|].
    eapply insert_weight_le; [apply (ci_policy _ _ _ I)|apply (ci_policy _ _ _ I3)|done|done]. }
  destruct HX as [[-> Hr]|[_ ?]]; [|done].
  set (s1 := trace (InsertFailed id (batch_type e)) s).
  assert (cache_inv None s1 m) as I1 by (by eapply cache_inv_same).
  destruct (find_victim_ok 8 _ (ci_policy _ _ _ I1)) as (vs & p & Hfv & Hp & Hperm & Hlen).
  rewrite Hfv. run_step.
  set (s2 := set_policy p s1).
  assert (cache_inv None s2 m) as I2 by (destruct I1; by split).
  assert (pending None id e v s2) as Hpe2 by (by apply (pending_mono id e v s)).
  pose proof (tracked_NoDup _ (ci_policy _ _ _ I1)) as ND. rewrite Hperm in ND.
  apply NoDup_app in ND as (ND & Hdisj & _).
  assert (weight s = weight s2 + Z.of_nat (List.length vs))%Z as Hw.
  { unfold weight. cbn. change (cache_policy s1) with (cache_policy s) in Hperm.
    rewrite Hperm, length_app. lia. }
  destruct vs as [|x vs].
  - destruct (write_to_disk_ok id e v s2 m I2 Hid Hd Hpe2 Hr) as (e' & s4 & X' & -> & I4 & Hp4 & Hr4 & Hw4 & Hc4).
    run_step.
    destruct (IH e' X' s4 I4 Hid Hd Hp4) as (s5 & Hs5 & I5 & Hc5).
    { cbn in Hw. unfold rank_z in *. lia. }
    exists s5. split_and!; [done| |by etrans]. destruct I5. split; [done|lia].
  - destruct (squeeze_each_ok (x :: vs) (trace (SqueezeBegin (x :: vs)) s2) m)
      as (s4 & Hs4 & I4 & Hw4 & Hc4).
    + by eapply cache_inv_same.
    + done.
    + intros i Hi. by apply Hdisj.
    + unfold squeeze_victims. rewrite Hs4. run_step.
      change (weight (trace (SqueezeBegin (x :: vs)) s2)) with (weight s2) in Hw4.
      destruct (IH e None s4 I4 Hid Hd) as (s5 & Hs5 & I5 & Hc5).
      * by apply (pending_mono id e v s2).
      * cbn in Hw. unfold rank_z in *. lia.
      * exists s5. split_and!; [done| |by etrans]. destruct I5. split; [done|lia].
Qed.

(** Enough fuel for one operation. *)
Definition enough (fuel : nat) (s : LiquidCache P) : Prop := (weight s + 3 < Z.of_nat fuel)%Z.

Lemma maybe_hydrate_ok fuel id cached mat expr v (s : LiquidCache P) m :
  cache_inv None s m → m !! id = Some v → hint_plain expr →
  materialized_ok (compressor_state s) mat v → enough fuel s →
  ∃ s', maybe_hydrate squeeze_policy hydration_policy fuel id cached mat expr s = Ret s'
        ∧ advanced s s' m ∧ comp_le (compressor_state s) (compressor_state s').
Proof.
  intros I Hm Hh Hmat Hf. unfold maybe_hydrate.
  destruct (hydrate_ok (HRequest id cached mat expr) (compressor_state s) v Hh Hmat)
    as (r & c' & -> & Hc & Hr). run_step.
  set (s1 := set_compressor c' s).
  assert (cache_inv None s1 m) as I1 by (by apply set_compressor_inv).
  destruct r as [e|]; [|by exists s1; split_and!; [done|by apply advanced_here|done]].
  destruct (ci_val _ _ _ I _ _ Hm) as [Hid Hd].
  set (s2 := trace (HydrateEvent id (batch_type cached) (batch_type e)) s1).
  destruct (insert_inner_ok fuel id e v None s2 m) as (s3 & Hs3 & I3 & Hc3).
  - by eapply cache_inv_same.
  - done.
  - done.
  - split; [by apply Hr|]. left. split; [done|].
    destruct (Hr e None eq_refl) as [He Hmem]. destruct e; cbn in *; try done; try lia.
    by destruct He as (_ & _ & b & ? & _).
  - change (weight s2) with (weight s). unfold enough, rank_z in *. destruct e; cbn; lia.
  - exists s3. split_and!; [done| |by etrans]. by rewrite insert_id in I3.
Qed.
End ops.
