(* ===== verification/CoreReads.v ===== *)
(** * Reads, predicates and flushes

    The remaining operations of the cache return, keep its invariant, and answer
    with the value the cache holds for the entry ([CoreInv.v]), whatever form and
    place it is kept in. *)

From stdpp Require Import base list gmap strings.
From Stdlib Require Import ZArith String Lia.
From S2P Require Import Prelude CachePolicy CivilDate DataTypes Expressions Budget Formats Observer.
From S2P Require Import CacheEntry Transcode VariantArray Squeeze Hydration Core CoreInv CoreOps.

Section reads.
Context {AL : ArrowLib} {LF : LiquidFormats} {VL : VariantLib} {FL : FormatLaws}.
Context {P : Type} {CP : CachePolicy P} {PL : PolicyLaws P} {MO : MemoryOnlyPolicy P}.
Context (squeeze_policy : SqueezePolicy) (hydration_policy : HydrationPolicy).
Context {SL : SqueezeLaws squeeze_policy} {HL : HydrationLaws hydration_policy}.

(** The rows a read asks for. *)
Definition vsel (v : Val) (selection : option BooleanBuffer) : Val :=
  match selection with Some m => vfilter v m | None => v end.

Definition selection_fits (v : Val) (selection : option BooleanBuffer) : Prop :=
  match selection with Some m => List.length m <= vlen v | None => True end.

(** What a read may answer: the selected rows, or, when a date component is asked
    for, the components of these rows in the place of their dates.  Which of the two
    depends on where the entry is. *)
Definition read_obs (expression : option Hint) (v : Val) (selection : option BooleanBuffer)
    (a : ArrayRef) : Prop :=
  den a = vsel v selection
  ∨ ∃ f, expression = Some (ExtractDate32 f)
         ∧ den a = vsel (extracted f v) selection.

Definition predicate_obs (p : PhysicalExpr) (v : Val) (selection : option BooleanBuffer)
    (r : PredicateResult) : Prop :=
  match r with
  | inl buf => buf = peval p (vsel v selection)
  | inr rows => den rows = vsel v selection
  end.

(** ** Arrays *)

Lemma extracted_fits f v selection : selection_fits v selection → selection_fits (extracted f v) selection.
Proof. destruct selection as [m|]; cbn; [|done]. by rewrite extracted_len. Qed.

Lemma filter_ok_ok a v selection :
  den a = v → selection_fits v selection →
  ∃ a', filter_ok a selection = Some a' ∧ den a' = vsel v selection.
Proof.
  intros <- Hf. destruct selection as [m|]; cbn in *; [|by eexists].
  rewrite den_len in Hf. destruct (arr_filter_ok a m Hf) as (a' & -> & Hd). by eexists.
Qed.

Lemma liquid_selected_ok c l v selection :
  l_ok c l v → selection_fits v selection →
  ∃ a, liquid_selected l selection = Ret a ∧ den a = vsel v selection.
Proof.
  intros Hl Hf. destruct selection as [m|]; cbn in *; [by eapply l_filter_ok|by eapply l_to_arrow_ok].
Qed.

Lemma squeezed_selected_ok s v b selection :
  s_ok s v b → selection_fits v selection →
  ∃ a es, squeezed_selected s selection (Some b) = Ret (a, es) ∧ den a = vsel v selection.
Proof.
  intros Hs Hf. destruct selection as [m|]; cbn in *; [by eapply s_filter_ok|by eapply s_to_arrow_ok].
Qed.

Lemma selection_or_all_fits v selection :
  selection_fits v selection →
  List.length (selection_or_all selection (vlen v)) <= vlen v
  ∧ vfilter v (selection_or_all selection (vlen v)) = vsel v selection.
Proof.
  destruct selection as [m|]; cbn; [done|]. intros _. split; [by rewrite repeat_length|apply vfilter_true].
Qed.

Lemma filter_for_predicate_ok p a v selection :
  den a = v → selection_fits v selection →
  ∃ r, filter_for_predicate a selection = Some r ∧ predicate_obs p v selection r.
Proof.
  intros Hd Hf. destruct (selection_or_all_fits v selection Hf) as [Hl Hv].
  unfold filter_for_predicate. rewrite <- den_len, Hd.
  destruct (arr_filter_ok a (selection_or_all selection (vlen v))) as (a' & -> & Ha').
  { by rewrite Hl, <- Hd, den_len. }
  eexists. split; [done|]. cbn. by rewrite Ha', Hd, Hv.
Qed.

(** ** Files *)

Lemma read_disk_arrow_ok id b v (s : LiquidCache P) :
  file_of id s = Some b → file_arrow b v →
  ∃ a s', read_disk_arrow_array id s = Ret (a, s') ∧ den a = v ∧ same_but_observer s s'.
Proof.
  intros Hf (a & Hr & Hd). unfold read_disk_arrow_array. rewrite Hf. cbn. rewrite Hr.
  eexists a, _. by split_and!.
Qed.

Lemma read_disk_liquid_ok id b v (s : LiquidCache P) :
  file_of id s = Some b → file_liquid (compressor_state s) b v →
  ∃ l s', read_disk_liquid_array id s = Ret (l, s') ∧ l_ok (compressor_state s) l v
          ∧ same_but_observer s s'.
Proof.
  intros Hf (l & Hb & Hl). destruct (l_bytes_ok _ _ _ Hl) as (b' & Hb' & l' & Hr & Hl').
  assert (b' = b) as -> by congruence.
  unfold read_disk_liquid_array. rewrite Hf. cbn. rewrite Hr.
  eexists l', _. by split_and!.
Qed.

Lemma run_squeezed_ok {A} id (op : SqueezeIo A) b a es (s : LiquidCache P) :
  file_of id s = Some b → op (Some b) = Ret (a, es) →
  ∃ s', run_squeezed id op s = Ret (a, s') ∧ same_but_observer s s'.
Proof.
  intros Hf Ho. unfold run_squeezed. rewrite Hf, Ho. cbn. eexists. by split.
Qed.

Lemma same_fields (s s' : LiquidCache P) :
  same_but_observer s s' →
  index s' = index s ∧ cache_policy s' = cache_policy s ∧ files s' = files s
  ∧ compressor_state s' = compressor_state s ∧ weight s' = weight s.
Proof. intros ->. done. Qed.

Lemma same_enough fuel (s s' : LiquidCache P) :
  same_but_observer s s' → enough fuel s → enough fuel s'.
Proof. intros (_ & _ & _ & _ & Hw)%same_fields. unfold enough. by rewrite Hw. Qed.

(** ** Reads *)

Lemma read_disk_ok fuel id e expr sel v (s : LiquidCache P) m :
  cache_inv None s m → m !! id = Some v → rank e = 0 →
  entry_ok (compressor_state s) (file_of id s) e v → hint_plain expr → selection_fits v sel →
  enough fuel s →
  ∃ a s', read_disk_array squeeze_policy hydration_policy fuel e id expr sel s = Ret (Some a, s')
          ∧ advanced s s' m ∧ den a = vsel v sel.
Proof.
  intros I Hm Hr He Hp Hs Hf. unfold read_disk_array.
  assert (selects_nothing sel = true → den (new_empty_array (vtype v)) = vsel v sel) as Hempty.
  { destruct sel as [mk|]; [|done]. cbn. intros Hc%Nat.eqb_eq. by apply empty_ok. }
  destruct e as [| | |t|t]; try (cbn in Hr; lia); cbn in He; destruct He as (-> & b & Hb & Hfile);
    (destruct (selects_nothing sel) eqn:Esel; [by eexists _, s; split_and!; [done|by apply advanced_here|auto]|]).
  - destruct (read_disk_liquid_ok id b v s Hb Hfile) as (l & s1 & -> & Hl & Hsame).
    run_step.
    pose proof (same_fields _ _ Hsame) as (_ & _ & _ & Hc & Hw).
    destruct (maybe_hydrate_ok squeeze_policy hydration_policy fuel id (DiskLiquid (vtype v))
                (MatLiquid l) expr v s1 m) as (s2 & -> & I2 & _).
    + by eapply cache_inv_same.
    + done.
    + done.
    + cbn. by rewrite Hc.
    + by eapply same_enough.
    + run_step.
      destruct (liquid_selected_ok _ l v sel Hl Hs) as (a & -> & Ha).
      exists a, s2. split_and!; [done|by eapply advanced_from|done].
  - destruct (read_disk_arrow_ok id b v s Hb Hfile) as (a & s1 & -> & Ha & Hsame).
    run_step.
    destruct (maybe_hydrate_ok squeeze_policy hydration_policy fuel id (DiskArrow (vtype v))
                (MatArrow a) expr v s1 m) as (s2 & -> & I2 & _).
    + by eapply cache_inv_same.
    + done.
    + done.
    + done.
    + by eapply same_enough.
    + run_step.
      destruct (filter_ok_ok a v sel Ha Hs) as (a' & -> & Ha'). exists a', s2.
      split_and!; [done| |done]. eapply advanced_from; [|done]. by apply same_fields in Hsame as (_&_&_&_&?).
Qed.

Lemma read_squeezed_ok fuel id q expr sel v (s : LiquidCache P) m :
  cache_inv None s m → entry_ok (compressor_state s) (file_of id s) (MemorySqueezedLiquid q) v →
  hint_plain expr → selection_fits v sel →
  ∃ a s', read_squeezed_array squeeze_policy hydration_policy fuel q id expr sel s = Ret (Some a, s')
          ∧ advanced s s' m ∧ read_obs expr v sel a.
Proof.
  intros I (Hnv & _ & b & Hb & Hq & _) Hp Hs. unfold read_squeezed_array.
  destruct (try_read_squeezed_date32_array q expr sel s) as [date s1] eqn:Ed.
  assert (same_but_observer s s1
          ∧ (∀ a, date = Some a → is_some expr = true ∧ read_obs expr v sel a)) as [Hsame Hdate].
  { unfold try_read_squeezed_date32_array in Ed.
    destruct expr as [[field| | |]|]; try (by simplify_eq; split; [apply same_refl|]).
    destruct (s_as_date32 q) as [[f comp]|] eqn:Eq; [|by simplify_eq; split; [apply same_refl|]].
    destruct (date32_field_eqb f field) eqn:Ef; [|by simplify_eq; split; [apply same_refl|]]. injection Ed as <- <-.
    split; [done|]. intros a Ha. split; [done|]. right. exists field. split; [done|].
    assert (f = field) as -> by (destruct f, field; cbn in Ef; congruence).
    pose proof (s_date32_ok q v b field comp Hq Eq) as Hcomp.
    destruct (filter_ok_ok comp _ sel Hcomp) as (a' & Ha' & Hd); [by apply extracted_fits|]. congruence. }
  assert (cache_inv None s1 m) as I1 by (by eapply cache_inv_same).
  destruct date as [a|].
  - destruct (Hdate a eq_refl) as [Hx Hobs]. unfold squeezed_success.
    destruct expr as [expr|]; [|done]. cbn. eexists _, _. split; [done|]. split; [|done].
    eapply advanced_same; [|by apply (advanced_here s s)]. eapply same_trans; [exact Hsame|done].
  - unfold try_read_squeezed_variant_array. rewrite Hp. run_step.
    destruct (squeezed_selected_ok q v b sel Hq Hs) as (a & es & Ha & Hd).
    assert (file_of id s1 = Some b) as Hb1 by (by rewrite Hsame).
    destruct (run_squeezed_ok id _ b a es s1 Hb1 Ha) as (s2 & -> & Hsame2). cbn.
    exists a, s2. split; [done|]. split; [|by left].
    eapply advanced_same; [|by apply (advanced_here s s)]. by eapply same_trans.
Qed.

Lemma read_arrow_ok fuel id sel expr (s : LiquidCache P) m :
  cache_inv None s m → hint_plain expr → (∀ v, m !! id = Some v → selection_fits v sel) →
  enough fuel s →
  ∃ r s', read_arrow_array squeeze_policy hydration_policy fuel id sel expr s = Ret (r, s')
          ∧ advanced s s' m
          ∧ match m !! id with
            | Some v => ∃ a, r = Some a ∧ read_obs expr v sel a
            | None => r = None
            end.
Proof.
  intros I Hp Hs Hf. unfold read_arrow_array, index_get.
  destruct (art (index s) !! id) as [e|] eqn:E.
  2: { exists None, s. split_and!; [done|by apply advanced_here|]. destruct (m !! id) eqn:Em; [|done].
       assert (is_Some (art (index s) !! id)) as [? ?] by (apply (ci_dom _ _ _ I); by eexists).
       congruence. }
  destruct (proj1 (ci_dom _ _ _ I id)) as [v Hv]; [by eexists|]. rewrite Hv. specialize (Hs v Hv).
  destruct (access_inv None id (batch_type e) s m I) as (s1 & -> & I1 & Hix & Hfl & Hc & Hw).
  run_step.
  set (s2 := trace _ s1). assert (cache_inv None s2 m) as I2 by (by eapply cache_inv_same).
  assert (entry_ok (compressor_state s2) (file_of id s2) e v) as He
    by (apply (ci_ok _ _ _ I2); [done| |done]; change (index s2) with (index s1); by rewrite Hix).
  assert (weight s2 = weight s) as Hw2 by done.
  assert (enough fuel s2) as Hf2 by (unfold enough in *; by rewrite <- Hw in Hf).
  destruct e as [a|l|q|t|t].
  - cbn in He. destruct (filter_ok_ok a v sel He Hs) as (a' & -> & Ha').
    eexists _, s2. split_and!; [done|by apply advanced_here|]. exists a'. split; [done|by left].
  - cbn in He. destruct (liquid_selected_ok _ l v sel He Hs) as (a' & -> & Ha'). cbn.
    eexists _, s2. split_and!; [done|by apply advanced_here|]. exists a'. split; [done|by left].
  - destruct (read_squeezed_ok fuel id q expr sel v s2 m I2 He Hp Hs) as (a & s3 & -> & I3 & Ha).
    eexists _, s3. split_and!; [done|by eapply advanced_from|eauto].
  - destruct (read_disk_ok fuel id (DiskLiquid t) expr sel v s2 m I2 Hv eq_refl He Hp Hs Hf2)
      as (a & s3 & -> & I3 & Ha). eexists _, s3. split_and!; [done|by eapply advanced_from|]. exists a. split; [done|by left].
  - destruct (read_disk_ok fuel id (DiskArrow t) expr sel v s2 m I2 Hv eq_refl He Hp Hs Hf2)
      as (a & s3 & -> & I3 & Ha). eexists _, s3. split_and!; [done|by eapply advanced_from|]. exists a. split; [done|by left].
Qed.

(** ** Predicates *)

Lemma eval_on_liquid_ok c l v p sel (s : LiquidCache P) :
  l_ok c l v → selection_fits v sel →
  ∃ r s', eval_on_liquid l sel p s = Ret (Some r, s') ∧ same_but_observer s s'
          ∧ predicate_obs p v sel r.
Proof.
  intros Hl Hs. unfold eval_on_liquid. rewrite (l_len_ok c l v Hl).
  destruct (selection_or_all_fits v sel Hs) as [Hlen Hv].
  destruct (l_try_eval_ok c l v p _ Hl Hlen) as (r & -> & Hr). run_step.
  destruct r as [buf|].
  - eexists _, s. split_and!; [done|apply same_refl|]. cbn. by rewrite (Hr buf eq_refl), Hv.
  - destruct (l_filter_ok c l v _ Hl Hlen) as (a & -> & Ha). cbn.
    eexists _, _. split_and!; [done|done|]. cbn. by rewrite Ha, Hv.
Qed.

Lemma eval_on_squeezed_ok id q b v p sel (s : LiquidCache P) :
  file_of id s = Some b → s_ok q v b → selection_fits v sel →
  ∃ r s', eval_predicate_on_squeezed q id sel p s = Ret (Some r, s') ∧ same_but_observer s s'
          ∧ predicate_obs p v sel r.
Proof.
  intros Hb Hq Hs. unfold eval_predicate_on_squeezed. rewrite (s_len_ok q v b Hq).
  destruct (selection_or_all_fits v sel Hs) as [Hlen Hv].
  destruct (s_try_eval_ok q v b p _ Hq Hlen) as (r & es & Hr & Hobs).
  destruct (run_squeezed_ok id _ b r es s Hb Hr) as (s1 & -> & Hsame).
  run_step. destruct r as [buf|].
  - eexists _, s1. split_and!; [done|done|]. cbn. by rewrite (Hobs buf eq_refl), Hv.
  - destruct (s_filter_ok q v b _ Hq Hlen) as (a & es' & Ha & Hd).
    assert (file_of id s1 = Some b) as Hb1 by (by rewrite Hsame).
    destruct (run_squeezed_ok id _ b a es' s1 Hb1 Ha) as (s2 & -> & Hsame2). cbn.
    eexists _, s2. split_and!; [done|by eapply same_trans|]. cbn. by rewrite Hd, Hv.
Qed.

Lemma eval_predicate_ok fuel id sel p (s : LiquidCache P) m :
  cache_inv None s m → (∀ v, m !! id = Some v → selection_fits v sel) → enough fuel s →
  ∃ r s', eval_predicate_internal squeeze_policy hydration_policy fuel id sel p s = Ret (r, s')
          ∧ advanced s s' m
          ∧ match m !! id with
            | Some v => ∃ a, r = Some a ∧ predicate_obs p v sel a
            | None => r = None
            end.
Proof.
  intros I Hs Hf. unfold eval_predicate_internal, index_get.
  set (s0 := set_observer on_eval_predicate s).
  assert (cache_inv None s0 m) as I0 by (by eapply cache_inv_same). change (index s) with (index s0).
  destruct (art (index s0) !! id) as [e|] eqn:E.
  2: { exists None, s0. split_and!; [done|by apply advanced_here|]. destruct (m !! id) eqn:Em; [|done].
       assert (is_Some (art (index s0) !! id)) as [? ?] by (apply (ci_dom _ _ _ I0); by eexists).
       congruence. }
  destruct (proj1 (ci_dom _ _ _ I0 id)) as [v Hv]; [by eexists|]. rewrite Hv. specialize (Hs v Hv).
  destruct (access_inv None id (batch_type e) s0 m I0) as (s1 & -> & I1 & Hix & Hfl & Hc & Hw).
  run_step.
  set (s2 := trace _ s1). assert (cache_inv None s2 m) as I2 by (by eapply cache_inv_same).
  assert (entry_ok (compressor_state s2) (file_of id s2) e v) as He
    by (apply (ci_ok _ _ _ I2); [done| |done]; change (index s2) with (index s1); by rewrite Hix).
  assert (enough fuel s2) as Hf2
    by (unfold enough in *; change (weight s) with (weight s0) in Hf; by rewrite <- Hw in Hf).
  destruct e as [a|l|q|t|t].
  - cbn in He. destruct (filter_for_predicate_ok p a v sel He Hs) as (r & -> & Hr). 
    eexists _, s2. split_and!; [done|by apply advanced_here|eauto].
  - cbn in He. destruct (eval_on_liquid_ok _ l v p sel s2 He Hs) as (r & s3 & -> & Hsame & Hr).
    eexists _, s3.
    split_and!; [done|eapply advanced_same; [exact Hsame|by apply advanced_here]|eauto].
  - destruct He as (_ & _ & b & Hb & Hq & _).
    destruct (eval_on_squeezed_ok id q b v p sel s2 Hb Hq Hs) as (r & s3 & -> & Hsame & Hr).
    eexists _, s3.
    split_and!; [done|eapply advanced_same; [exact Hsame|by apply advanced_here]|eauto].
  - destruct He as (-> & b & Hb & Hfile).
    destruct (read_disk_liquid_ok id b v s2 Hb Hfile) as (l & s3 & -> & Hl & Hsame).
    run_step. pose proof (same_fields _ _ Hsame) as (_ & _ & _ & Hc3 & Hw3).
    destruct (maybe_hydrate_ok squeeze_policy hydration_policy fuel id (DiskLiquid (vtype v))
                (MatLiquid l) None v s3 m) as (s4 & -> & I4 & _); [by eapply cache_inv_same|done|done| |by eapply same_enough|].
    { cbn. by rewrite Hc3. }
    run_step.
    destruct (eval_on_liquid_ok _ l v p sel s4 Hl Hs) as (r & s5 & -> & Hsame5 & Hr).
    eexists _, s5. split_and!; [done| |eauto]. eapply advanced_same; [exact Hsame5|].
    eapply advanced_from; [|done]. by rewrite Hw3.
  - destruct He as (-> & b & Hb & Hfile).
    destruct (read_disk_arrow_ok id b v s2 Hb Hfile) as (a & s3 & -> & Ha & Hsame).
    run_step.
    destruct (maybe_hydrate_ok squeeze_policy hydration_policy fuel id (DiskArrow (vtype v))
                (MatArrow a) None v s3 m) as (s4 & -> & I4 & _); [by eapply cache_inv_same|done|done|done|by eapply same_enough|].
    run_step.
    destruct (filter_for_predicate_ok p a v sel Ha Hs) as (r & -> & Hr).
    eexists _, s4. split_and!; [done| |eauto]. apply same_fields in Hsame as (_ & _ & _ & _ & Hw3).
    eapply advanced_from; [|done]. by rewrite Hw3.
Qed.

Lemma try_read_liquid_ok fuel id (s : LiquidCache P) m :
  cache_inv None s m → enough fuel s →
  ∃ r s', try_read_liquid squeeze_policy hydration_policy fuel id s = Ret (r, s')
          ∧ advanced s s' m
          ∧ (∀ l, r = Some l → ∃ v, m !! id = Some v ∧ l_ok (compressor_state s') l v).
Proof.
  intros I Hf. unfold try_read_liquid, index_get.
  set (s0 := trace (TryReadLiquid id) (set_observer on_try_read_liquid s)).
  assert (cache_inv None s0 m) as I0 by (eapply cache_inv_same; [|exact I]; done).
  destruct (art (index s0) !! id) as [e|] eqn:E; [|by eexists None, s0; split_and!; [done|by apply advanced_here|done]].
  destruct (proj1 (ci_dom _ _ _ I0 id)) as [v Hv]; [by eexists|].
  destruct (access_inv None id (batch_type e) s0 m I0) as (s1 & -> & I1 & Hix & Hfl & Hc & Hw).
  run_step.
  assert (entry_ok (compressor_state s1) (file_of id s1) e v) as He
    by (apply (ci_ok _ _ _ I1); [done| |done]; by rewrite Hix).
  assert (enough fuel s1) as Hf1
    by (unfold enough in *; change (weight s) with (weight s0) in Hf; by rewrite <- Hw in Hf).
  destruct e as [a|l|q|t|t].
  - eexists None, s1. by split_and!; [done|by apply advanced_here|done].
  - cbn in He. eexists (Some l), s1. split_and!; [done|by apply advanced_here|]. intros l' [= <-]. by exists v.
  - destruct He as (_ & -> & b & Hb & _ & Hfile).
    destruct (read_disk_liquid_ok id b v s1 Hb Hfile) as (l & s3 & -> & Hl & Hsame). cbn.
    eexists _, s3.
    split_and!; [done|eapply advanced_same; [exact Hsame|by apply advanced_here]|]. intros l' [= <-].
    exists v. split; [done|]. by apply same_fields in Hsame as (_ & _ & _ & -> & _).
  - destruct He as (-> & b & Hb & Hfile).
    destruct (read_disk_liquid_ok id b v s1 Hb Hfile) as (l & s3 & -> & Hl & Hsame).
    run_step. pose proof (same_fields _ _ Hsame) as (_ & _ & _ & Hc3 & Hw3).
    destruct (maybe_hydrate_ok squeeze_policy hydration_policy fuel id (DiskLiquid (vtype v))
                (MatLiquid l) None v s3 m) as (s4 & -> & I4 & Hc4);
      [by eapply cache_inv_same|done|done| |by eapply same_enough|].
    { cbn. by rewrite Hc3. }
    cbn. eexists _, s4. split_and!; [done|eapply advanced_from; [|done]; by rewrite Hw3|]. intros l' [= <-]. exists v. split; [done|].
    eapply l_ok_le; [exact Hc4|]. by rewrite Hc3.
  - eexists None, s1. by split_and!; [done|by apply advanced_here|done].
Qed.

End reads.

(** ** Flushing and resetting *)

Section flush.
Context {AL : ArrowLib} {LF : LiquidFormats} {FL : FormatLaws}.
Context {P : Type} {CP : CachePolicy P} {PL : PolicyLaws P} {MO : MemoryOnlyPolicy P}.

(** Replacing an entry by a disk entry does not add weight. *)
Lemma insert_weight_disk id e (s s' : LiquidCache P) :
  policy_inv (cache_policy s) → policy_inv (cache_policy s') → rank e = 0 →
  art (index s') = <[id := e]> (art (index s)) →
  (∀ i, i ≠ id → i ∈ tracked (cache_policy s') ↔ i ∈ tracked (cache_policy s)) →
  notify_insert id (batch_type e) (cache_policy s) = Ret (cache_policy s') →
  (weight s' <= weight s)%Z.
Proof.
  intros Hp Hp' Hr E' Hi Hnot. unfold weight. rewrite E', msum_insert.
  assert (0 <= fopt rank_z (art (index s) !! id))%Z as Ho
    by (destruct (art (index s) !! id); unfold rank_z; cbn; lia).
  assert (rank_z e = 0)%Z as He by (unfold rank_z; lia).
  assert (id ∉ tracked (cache_policy s')) as Hn
    by exact (notify_insert_disk id _ _ _ Hp (proj1 (rank_memory e) Hr) Hnot).
  assert (List.length (tracked (cache_policy s')) ≤ List.length (tracked (cache_policy s))) as Hl.
  { apply submseteq_length, NoDup_submseteq; [by apply tracked_NoDup|].
    intros i Hit. destruct (decide (i = id)) as [->|Hne]; [done|by apply Hi]. }
  lia.
Qed.

Lemma insert_expect_ok X id e v (s : LiquidCache P) m :
  cache_inv X s m → (X = None ∨ X = Some id) → m !! id = Some v → rank e = 0 →
  entry_ok (compressor_state s) (file_of id s) e v →
  ∃ s', insert_expect id e s = Ret s' ∧ cache_inv None s' m
        ∧ art (index s') = <[id := e]> (art (index s)) ∧ (weight s' <= weight s)%Z.
Proof.
  intros I HX Hm Hr He. destruct (ci_val _ _ _ I _ _ Hm) as [Hid Hd].
  unfold insert_expect.
  destruct (try_insert_inv X id e v s m I HX Hid Hd He)
    as [(s3 & -> & I3 & Ha & _ & _ & _ & Ht & Hnot)|(-> & Hr0 & _)]; [|done].
  cbn. exists s3. rewrite insert_id in I3 by done. split_and!; [done..|].
  eapply (insert_weight_disk id e); try done; [apply (ci_policy _ _ _ I)|apply (ci_policy _ _ _ I3)].
Qed.

Lemma flush_entry_ok id e (s : LiquidCache P) m :
  cache_inv None s m → art (index s) !! id = Some e →
  ∃ s' e', flush_entry id e s = Ret s' ∧ cache_inv None s' m ∧ rank e' = 0
           ∧ art (index s') = <[id := e']> (art (index s)) ∧ (weight s' <= weight s)%Z.
Proof.
  intros I E. destruct (proj1 (ci_dom _ _ _ I id)) as [v Hv]; [by eexists|].
  destruct (ci_val _ _ _ I _ _ Hv) as [Hid Hd].
  pose proof (ci_ok _ _ _ I id e v ltac:(done) E Hv) as He.
  destruct e as [a|l|q|t|t]; cbn [flush_entry].
  - cbn in He. subst v. destruct (ipc_ok a) as (b & a' & -> & Hr & Hda). cbn [mbind outcome_mbind outcome_bind expect].
    destruct (write_batch_inv None id b (MemoryArrow a) s m I (or_introl eq_refl) Hid) as [I2 Hf].
    destruct (insert_expect_ok (Some id) id (DiskArrow (arr_data_type a)) (den a) _ m I2 (or_intror eq_refl) Hv eq_refl)
      as (s3 & -> & I3 & Ha & Hw).
    { rewrite Hf. cbn. split; [by rewrite den_type|]. exists b. split; [done|]. by exists a'. }
    exists s3, (DiskArrow (arr_data_type a)). by split_and!.
  - cbn in He. destruct (l_bytes_ok _ _ _ He) as (b & Hb & _). rewrite Hb. run_step.
    destruct (write_batch_inv None id b (MemoryLiquid l) s m I (or_introl eq_refl) Hid) as [I2 Hf].
    destruct (insert_expect_ok (Some id) id (DiskLiquid (l_original_type l)) v _ m I2 (or_intror eq_refl) Hv eq_refl)
      as (s3 & -> & I3 & Ha & Hw).
    { rewrite Hf. cbn. split; [by eapply l_type_ok|]. exists b. split; [done|]. by exists l. }
    exists s3, (DiskLiquid (l_original_type l)). by split_and!.
  - destruct (squeeze_squeezed_ok q _ _ v He) as [He' Hr].
    destruct (insert_expect_ok None id _ v s m I (or_introl eq_refl) Hv Hr He') as (s3 & -> & I3 & Ha & Hw).
    exists s3, (disk_entry_from_squeezed q). by split_and!.
  - exists s, (DiskLiquid t). rewrite insert_id by done. by split_and!.
  - exists s, (DiskArrow t). rewrite insert_id by done. by split_and!.
Qed.

Lemma flush_entries_ok es (s : LiquidCache P) m :
  cache_inv None s m → NoDup es.*1 → (∀ id e, (id, e) ∈ es → art (index s) !! id = Some e) →
  ∃ s', flush_entries es s = Ret s' ∧ cache_inv None s' m
        ∧ (∀ id, id ∉ es.*1 → art (index s') !! id = art (index s) !! id)
        ∧ (∀ id, id ∈ es.*1 → ∃ e, art (index s') !! id = Some e ∧ rank e = 0)
        ∧ (weight s' <= weight s)%Z.
Proof.
  revert s. induction es as [|[id e] es IH]; intros s I ND Hes.
  { exists s. split_and!; [done|done|done| |done]. intros id Hin. by apply elem_of_nil in Hin. }
  cbn in ND. apply NoDup_cons in ND as [Hn ND].
  destruct (flush_entry_ok id e s m I) as (s1 & e' & Hs1 & I1 & Hr & Ha & Hw1); [apply Hes; left|].
  destruct (IH s1 I1 ND) as (s2 & Hs2 & I2 & Hother & Hin & Hw2).
  { intros i x Hix. rewrite Ha, lookup_insert_ne; [apply Hes; by right|].
    intros ->. apply Hn. apply list_elem_of_fmap. by exists (i, x). }
  exists s2. cbn [flush_entries fmap list_fmap fst]. rewrite Hs1. run_step.
  split_and!; [done|done| | |lia].
  - intros i Hi. rewrite Hother by set_solver. rewrite Ha, lookup_insert_ne; [done|set_solver].
  - intros i [->|Hi]%elem_of_cons; [|by apply Hin].
    rewrite Hother by done. rewrite Ha, lookup_insert_eq. by eexists.
Qed.

Lemma flush_ok (s : LiquidCache P) m :
  cache_inv None s m →
  ∃ s', flush_all_to_disk s = Ret s' ∧ advanced s s' m
        ∧ map_Forall (λ _ e, rank e = 0) (art (index s')) ∧ used_memory_bytes (budget s') = 0%Z.
Proof.
  intros I. unfold flush_all_to_disk, index_entries.
  destruct (flush_entries_ok (map_to_list (art (index s))) s m I) as (s' & Hs' & I' & Ho & Hin & Hw).
  - apply NoDup_fst_map_to_list.
  - intros id e. apply elem_of_map_to_list.
  - assert (map_Forall (λ _ e, rank e = 0) (art (index s'))) as Hall.
    { intros id e E. destruct (art (index s) !! id) as [e0|] eqn:E0.
      - destruct (Hin id) as (e1 & E1 & Hr).
        { apply list_elem_of_fmap. exists (id, e0). split; [done|]. by apply elem_of_map_to_list. }
        assert (e1 = e) as -> by congruence. done.
      - assert (art (index s') !! id = None); [|congruence]. rewrite Ho; [done|].
        intros Hi. apply list_elem_of_fmap in Hi as ([i x] & -> & Hx).
        apply elem_of_map_to_list in Hx. cbn in *. congruence. }
    exists s'. split_and!; [done|by split; [done|lia]|done|]. rewrite (ci_used _ _ _ I'). clear -Hall.
    induction (art (index s')) as [|k e mm Hk IH] using map_ind; [done|].
    rewrite msum_insert_None by done. rewrite IH.
    + rewrite rank_zero_size; [done|]. apply (Hall k e). apply lookup_insert_eq.
    + intros i x Hi. apply (Hall i x). rewrite lookup_insert_ne; [done|congruence].
Qed.

Lemma reset_inv (s : LiquidCache P) m : cache_inv None s m → advanced s (reset s) ∅.
Proof.
  intros [Hd Hv Ho Hu Hm Hc Hp Hh].
  assert (art (index (reset s)) = ∅) as He by apply index_reset_empty.
  assert (0 <= used_memory_bytes (budget s))%Z
    by (rewrite Hu; apply msum_nonneg; intros; apply memory_usage_range).
  split.
  2: { unfold weight. rewrite He. cbn.
       pose proof (msum_nonneg rank_z (art (index s)) ltac:(unfold rank_z; lia)) as Hn.
       change (msum rank_z ∅) with 0%Z. lia. }
  split; try done.
  - intros id. rewrite He, !lookup_empty. done.
  - rewrite He. done.
  - cbn. lia.
  - rewrite He. done.
Qed.

Lemma hint_inv id h (s : LiquidCache P) m :
  cache_inv None s m → variant_requests h = None → cache_inv None (add_squeeze_hint id h s) m.
Proof.
  intros [Hd Hv Ho Hu Hm Hc Hp Hh] Hpl. split; try done.
  intros i h' Hl. cbn in Hl. apply lookup_insert_Some in Hl as [[_ <-]|[_ Hl]]; [done|by eapply Hh].
Qed.

Lemma cache_new_inv max : (0 <= max <= 2 ^ 63)%Z → cache_inv None (cache_new (P := P) max) ∅.
Proof.
  intros H. destruct (policy_new_ok (S := P)) as [Hp _]. split; cbn; try done.
  intros id. by rewrite !lookup_empty.
Qed.

Lemma weight_new max : weight (cache_new (P := P) max) = 0%Z.
Proof. unfold weight. destruct (policy_new_ok (S := P)) as [_ Ht]. cbn. by rewrite Ht. Qed.

End flush.
