(* ===== verification/Builders.v ===== *)
(** * Builders

    Model of [src/src/storage/src/cache/builders.rs]: the requests a caller
    configures and awaits, and the garbage collection of view arrays on
    insertion. *)

From stdpp Require Import base list gmap strings.
From Stdlib Require Import ZArith String Lia.
From S2P Require Import Prelude CachePolicy DataTypes Expressions Budget Formats Observer CacheEntry.
From S2P Require Import Transcode VariantArray Squeeze Hydration Core SampleFormats.

Section gc.
Context {AL : ArrowLib}.

(** [maybe_gc_view_arrays]; the fuel bounds the nesting of the array. *)
Fixpoint maybe_gc_view_arrays (fuel : nat) (array : ArrayRef) : outcome (option ArrayRef) :=
  match fuel with
  | 0 => NoFuel
  | Datatypes.S fuel =>
      match view_gc array with
      | Some gc => Ret (Some gc)
      | None =>
          match child_data array with
          | [] => Ret None
          | _ =>
              '(changed, children) ←
                (fix go (cs : list ArrayRef) : outcome (bool * list ArrayRef) :=
                   match cs with
                   | [] => Ret (false, [])
                   | child :: cs =>
                       gc_child ← maybe_gc_view_arrays fuel child;
                       '(changed, children) ← go cs;
                       match gc_child with
                       | Some gc_child => Ret (true, gc_child :: children)
                       | None => Ret (changed, child :: children)
                       end
                   end) (child_data array);
              if negb changed then Ret None
              else Ret (with_child_data array children)
          end
      end
  end.
End gc.

Section builders.
Context {AL : ArrowLib} {LF : LiquidFormats} {VL : VariantLib}.

(** [LiquidCacheBuilder]: the policy of the cache is its type. *)
Record LiquidCacheBuilder : Type := mkBuilder {
  lb_batch_size : Z;
  lb_max_cache_bytes : Z;
  lb_cache_dir : option string;
  lb_hydration_policy : HydrationPolicy;
  lb_squeeze_policy : SqueezePolicy
}.

Definition builder_new : LiquidCacheBuilder :=
  mkBuilder 8192 (1024 * 1024 * 1024) None AlwaysHydrate TranscodeSqueezeEvict.

Definition with_cache_dir (dir : string) (b : LiquidCacheBuilder) : LiquidCacheBuilder :=
  mkBuilder (lb_batch_size b) (lb_max_cache_bytes b) (Some dir) (lb_hydration_policy b) (lb_squeeze_policy b).
Definition with_batch_size (n : Z) (b : LiquidCacheBuilder) : LiquidCacheBuilder :=
  mkBuilder n (lb_max_cache_bytes b) (lb_cache_dir b) (lb_hydration_policy b) (lb_squeeze_policy b).
Definition with_max_cache_bytes (n : Z) (b : LiquidCacheBuilder) : LiquidCacheBuilder :=
  mkBuilder (lb_batch_size b) n (lb_cache_dir b) (lb_hydration_policy b) (lb_squeeze_policy b).
Definition with_hydration_policy (p : HydrationPolicy) (b : LiquidCacheBuilder) : LiquidCacheBuilder :=
  mkBuilder (lb_batch_size b) (lb_max_cache_bytes b) (lb_cache_dir b) p (lb_squeeze_policy b).
Definition with_squeeze_policy (p : SqueezePolicy) (b : LiquidCacheBuilder) : LiquidCacheBuilder :=
  mkBuilder (lb_batch_size b) (lb_max_cache_bytes b) (lb_cache_dir b) (lb_hydration_policy b) p.

Context {P : Type} {CP : CachePolicy P}.

(** The cache and the policies it runs with. *)
Definition build (b : LiquidCacheBuilder) : LiquidCache P * SqueezePolicy * HydrationPolicy :=
  (cache_new (lb_max_cache_bytes b), lb_squeeze_policy b, lb_hydration_policy b).

(** [Insert]. *)
Record Insert : Type := mkInsert {
  in_entry_id : EntryID;
  in_batch : ArrayRef;
  in_skip_gc : bool;
  in_squeeze_hint : option Hint
}.

Definition insert_new (id : EntryID) (batch : ArrayRef) : Insert := mkInsert id batch false None.
Definition with_skip_gc (i : Insert) : Insert :=
  mkInsert (in_entry_id i) (in_batch i) true (in_squeeze_hint i).
Definition with_squeeze_hint (expression : Hint) (i : Insert) : Insert :=
  mkInsert (in_entry_id i) (in_batch i) (in_skip_gc i) (Some expression).

Definition insert_run (squeeze_policy : SqueezePolicy) (fuel : nat) (i : Insert) (s : LiquidCache P)
    : outcome (LiquidCache P) :=
  batch ←
    (if in_skip_gc i then Ret (in_batch i)
     else gc ← maybe_gc_view_arrays fuel (in_batch i); Ret (default (in_batch i) gc));
  let s := match in_squeeze_hint i with
           | Some squeeze_hint => add_squeeze_hint (in_entry_id i) squeeze_hint s
           | None => s
           end in
  insert_inner squeeze_policy fuel (in_entry_id i) (MemoryArrow batch) s.

(** [Get]. *)
Record Get : Type := mkGet {
  gt_entry_id : EntryID;
  gt_selection : option BooleanBuffer;
  gt_expression_hint : option Hint
}.

Definition get_new (id : EntryID) : Get := mkGet id None None.
Definition get_with_selection (selection : BooleanBuffer) (g : Get) : Get :=
  mkGet (gt_entry_id g) (Some selection) (gt_expression_hint g).
Definition get_with_expression_hint (expression : option Hint) (g : Get) : Get :=
  mkGet (gt_entry_id g) (gt_selection g) expression.

Definition get_read (squeeze_policy : SqueezePolicy) (hydration_policy : HydrationPolicy) (fuel : nat)
    (g : Get) (s : LiquidCache P) : outcome (option ArrayRef * LiquidCache P) :=
  let s := set_observer (on_get (is_some (gt_selection g))) s in
  read_arrow_array squeeze_policy hydration_policy fuel (gt_entry_id g) (gt_selection g)
    (gt_expression_hint g) s.

(** [EvaluatePredicate]. *)
Record EvaluatePredicate : Type := mkEval {
  ev_entry_id : EntryID;
  ev_predicate : PhysicalExpr;
  ev_selection : option BooleanBuffer
}.

Definition eval_new (id : EntryID) (predicate : PhysicalExpr) : EvaluatePredicate :=
  mkEval id predicate None.
Definition eval_with_selection (selection : BooleanBuffer) (e : EvaluatePredicate) : EvaluatePredicate :=
  mkEval (ev_entry_id e) (ev_predicate e) (Some selection).

Definition eval_read (squeeze_policy : SqueezePolicy) (hydration_policy : HydrationPolicy) (fuel : nat)
    (e : EvaluatePredicate) (s : LiquidCache P) : outcome (option PredicateResult * LiquidCache P) :=
  eval_predicate_internal squeeze_policy hydration_policy fuel (ev_entry_id e) (ev_selection e)
    (ev_predicate e) s.
End builders.

Section gc_lemmas.
Context {AL : ArrowLib} {LF : LiquidFormats} {FL : FormatLaws}.

Lemma maybe_gc_ok fuel array :
  arr_depth array < fuel →
  ∃ r, maybe_gc_view_arrays fuel array = Ret r ∧ (∀ a', r = Some a' → den a' = den array).
Proof.
  revert array. induction fuel as [|fuel IH]; intros array Hf; [lia|]. cbn [maybe_gc_view_arrays].
  destruct (view_gc array) as [g|] eqn:Eg.
  { eexists. split; [done|]. intros a' [= <-]. by apply gc_ok. }
  pose proof (child_depth array) as Hc. pose proof (with_child_ok array) as Hw.
  set (go := fix go (cs : list ArrayRef) : outcome (bool * list ArrayRef) := _).
  assert (∀ cs, (∀ c, c ∈ cs → arr_depth c < fuel) →
            ∃ b cs', go cs = Ret (b, cs') ∧ den <$> cs' = den <$> cs) as Hgo.
  { induction cs as [|c cs IHcs]; intros Hcs; [by eexists _, _|].
    destruct (IH c) as (r & Hr & Hden); [apply Hcs; left|].
    destruct IHcs as (b & cs' & Hb & Hcs'); [intros c' Hc'; apply Hcs; by right|].
    cbn [go]. fold go. rewrite Hr. run_step. rewrite Hb.
    run_step.
    destruct r as [g|]; eexists _, _; (split; [done|]); cbn; rewrite Hcs'; [|done].
    by rewrite (Hden g eq_refl). }
  destruct (child_data array) as [|c cs] eqn:Ec; [by eexists|].
  destruct (Hgo (c :: cs)) as (b & cs' & -> & Hcs').
  { intros c' Hc'. specialize (Hc c' Hc'). lia. }
  run_step. destruct b; cbn [negb]; [|by eexists].
  eexists. split; [done|]. intros a' Ha'. by apply (Hw cs').
Qed.

(** ** Properties *)

(** The garbage collection of view arrays terminates on every array (fuel
    beyond its depth) and never changes the content that is cached. *)
Theorem gc_preserves_content fuel array :
  arr_depth array < fuel →
  ∃ r, maybe_gc_view_arrays fuel array = Ret r ∧ den (default array r) = den array.
Proof.
  intros Hf. destruct (maybe_gc_ok fuel array Hf) as (r & Hr & Hd). exists r. split; [done|].
  destruct r as [a'|]; cbn; [by apply Hd|done].
Qed.
End gc_lemmas.

Lemma gc_preserves_content_witness :
  ∃ r, maybe_gc_view_arrays (AL := sample_arrow) 1 (SArr SUtf8View [Some 3%Z]) = Ret r
       ∧ default (SArr SUtf8View [Some 3%Z]) r = SArr SUtf8View [Some 3%Z].
Proof. apply (gc_preserves_content (FL := sample_laws) 1 (SArr SUtf8View [Some 3%Z])). cbn. lia. Defined.
