(* ===== verification/CacheSpec.v ===== *)
(** * What the cache promises

    The cache as its callers see it: a map from entries to the values inserted
    last.  [operation] lists the public operations of [LiquidCache] and of its
    builders, [exec] runs one on the model of the code, [spec] is its effect on
    the map and [answers] what it may answer.  The theorems hold for every cache
    policy that gives out memory entries only, every squeeze policy and every
    hydration policy that satisfy their laws, all formats that satisfy [FormatLaws],
    and for inputs without variant paths; [integer_insert_get] applies them to the
    integer, date and timestamp formats of the source.

    Then where an insertion never ends.  Insertions end when the policy gives out
    memory entries only; most policies of the repository (LRU, FIFO, FILO, CLOCK,
    SIEVE) keep tracking an entry after it went to disk.  The loop of
    [insert_inner] only writes the new entry to disk when there is no victim, so
    with such a policy an entry larger than the cache is retried for ever as soon
    as one other entry is cached: the victims are on disk already, squeezing
    them frees nothing, and each of them is tracked again.

    Last the statistics of the cache. *)

From stdpp Require Import base list gmap strings.
From Stdlib Require Import ZArith String Lia.
From S2P Require Import Prelude CachePolicy LinkedMap Lru LiquidPolicy CivilDate DataTypes Expressions Budget.
From S2P Require Import Arrow Ipc HybridArray Formats SampleFormats IntegerFormats Observer CacheEntry Transcode VariantArray Squeeze.
From S2P Require Import Hydration Core CoreInv CoreOps CoreReads Builders.

Section spec.
Context {AL : ArrowLib} {LF : LiquidFormats} {VL : VariantLib} {FL : FormatLaws}.
Context {P : Type} {CP : CachePolicy P} {PL : PolicyLaws P} {MO : MemoryOnlyPolicy P}.
Context (squeeze_policy : SqueezePolicy) (hydration_policy : HydrationPolicy).
Context {SL : SqueezeLaws squeeze_policy} {HL : HydrationLaws hydration_policy}.

Inductive operation : Type :=
| OpInsert (i : Insert)
| OpGet (g : Get)
| OpEval (e : EvaluatePredicate)
| OpTryReadLiquid (id : EntryID)
| OpAddHint (id : EntryID) (h : Hint)
| OpFlush
| OpReset
| OpStats.

Inductive response : Type :=
| RDone
| RRead (r : option ArrayRef)
| RPredicate (r : option PredicateResult)
| RLiquid (r : option LiquidArrayRef)
| RStats (r : CacheStats).

Definition exec (fuel : nat) (op : operation) (s : LiquidCache P) : outcome (response * LiquidCache P) :=
  match op with
  | OpInsert i => s ← insert_run squeeze_policy fuel i s; Ret (RDone, s)
  | OpGet g => '(r, s) ← get_read squeeze_policy hydration_policy fuel g s; Ret (RRead r, s)
  | OpEval e => '(r, s) ← eval_read squeeze_policy hydration_policy fuel e s; Ret (RPredicate r, s)
  | OpTryReadLiquid id =>
      '(r, s) ← try_read_liquid squeeze_policy hydration_policy fuel id s; Ret (RLiquid r, s)
  | OpAddHint id h => Ret (RDone, add_squeeze_hint id h s)
  | OpFlush => s ← flush_all_to_disk s; Ret (RDone, s)
  | OpReset => Ret (RDone, reset s)
  | OpStats => let '(r, s) := stats s in Ret (RStats r, s)
  end.

Fixpoint run (fuel : nat) (ops : list operation) (s : LiquidCache P)
    : outcome (list response * LiquidCache P) :=
  match ops with
  | [] => Ret ([], s)
  | op :: ops =>
      '(r, s) ← exec fuel op s;
      '(rs, s) ← run fuel ops s;
      Ret (r :: rs, s)
  end.

(** ** The abstract cache *)

Definition cache_map : Type := gmap Z Val.

Definition spec (op : operation) (m : cache_map) : cache_map :=
  match op with
  | OpInsert i => <[in_entry_id i := den (in_batch i)]> m
  | OpReset => ∅
  | _ => m
  end.

(** Identifiers are machine words, selections have a bit per row, hints name no
    variant paths, and dictionaries are of a kind the encoder knows. *)
Definition valid (op : operation) (m : cache_map) : Prop :=
  match op with
  | OpInsert i =>
      is_usize (in_entry_id i) ∧ dictionary_supported (arr_data_type (in_batch i)) = true
      ∧ hint_plain (in_squeeze_hint i)
  | OpGet g =>
      hint_plain (gt_expression_hint g)
      ∧ ∀ v, m !! gt_entry_id g = Some v → selection_fits v (gt_selection g)
  | OpEval e => ∀ v, m !! ev_entry_id e = Some v → selection_fits v (ev_selection e)
  | OpAddHint id h => variant_requests h = None
  | OpTryReadLiquid _ | OpFlush | OpReset | OpStats => True
  end.

(** The answer to an operation on a cache that holds [m], in the state it leaves. *)
Definition answers (op : operation) (m : cache_map) (r : response) (s' : LiquidCache P) : Prop :=
  match op, r with
  | OpGet g, RRead r =>
      match m !! gt_entry_id g with
      | Some v => ∃ a, r = Some a ∧ read_obs (gt_expression_hint g) v (gt_selection g) a
      | None => r = None
      end
  | OpEval e, RPredicate r =>
      match m !! ev_entry_id e with
      | Some v => ∃ a, r = Some a ∧ predicate_obs (ev_predicate e) v (ev_selection e) a
      | None => r = None
      end
  | OpTryReadLiquid id, RLiquid r =>
      ∀ l, r = Some l → ∃ v, m !! id = Some v ∧ l_ok (compressor_state s') l v
  | OpStats, RStats st => (st_memory_usage_bytes st <= st_max_cache_bytes st)%Z
  | (OpInsert _ | OpAddHint _ _ | OpFlush | OpReset), RDone => True
  | _, _ => False
  end.

Lemma get_answer g (v : Val) (m : cache_map) r s' :
  m !! gt_entry_id g = Some v → answers (OpGet g) m r s' →
  ∃ a, r = RRead (Some a) ∧ read_obs (gt_expression_hint g) v (gt_selection g) a.
Proof.
  intros E H. destruct r as [|r| | |]; try done. cbn [answers] in H. rewrite E in H.
  destruct H as (a & -> & H). by exists a.
Qed.

(** The nesting of an inserted array, for the garbage collection. *)
Definition depth (op : operation) : nat :=
  match op with OpInsert i => arr_depth (in_batch i) | _ => 0 end.

(** ** One operation *)

Lemma exec_ok fuel op (s : LiquidCache P) m :
  cache_inv None s m → valid op m → enough fuel s → depth op < fuel →
  ∃ r s', exec fuel op s = Ret (r, s') ∧ advanced s s' (spec op m) ∧ answers op m r s'.
Proof.
  intros I V Hf Hd. destruct op as [i|g|e|id|id h| | |]; cbn [exec spec valid answers depth] in *.
  - destruct V as (Hid & Hdict & Hh). unfold insert_run.
    assert (∃ b, (if in_skip_gc i then Ret (in_batch i)
                  else gc ← maybe_gc_view_arrays fuel (in_batch i); Ret (default (in_batch i) gc)) = Ret b
                 ∧ den b = den (in_batch i)) as (b & -> & Hb).
    { destruct (in_skip_gc i); [by eexists|].
      destruct (maybe_gc_ok fuel (in_batch i) Hd) as (r & -> & Hr). cbn. eexists. split; [done|].
      destruct r as [a'|]; cbn; [by apply Hr|done]. }
    run_step.
    set (s1 := match in_squeeze_hint i with Some h => add_squeeze_hint (in_entry_id i) h s | None => s end).
    assert (cache_inv None s1 m ∧ weight s1 = weight s) as [I1 Hw1].
    { unfold s1. destruct (in_squeeze_hint i) as [h|] eqn:E; [|done]. split; [|done]. by apply hint_inv. }
    destruct (insert_inner_ok squeeze_policy fuel (in_entry_id i) (MemoryArrow b) (den (in_batch i))
                None s1 m I1 Hid) as (s2 & -> & I2 & _).
    + by rewrite den_type.
    + split; [done|]. left. split; [done|cbn; lia].
    + rewrite Hw1. exact Hf.
    + cbn. eexists RDone, s2. split_and!; [done|by eapply advanced_from|done].
  - destruct V as [Hp Hs]. unfold get_read.
    set (s1 := set_observer _ s).
    assert (cache_inv None s1 m) as I1 by (eapply cache_inv_same; [|exact I]; done).
    destruct (read_arrow_ok squeeze_policy hydration_policy fuel (gt_entry_id g) (gt_selection g)
                (gt_expression_hint g) s1 m I1 Hp Hs Hf) as (r & s2 & -> & I2 & Hr).
    cbn. by eexists (RRead r), s2.
  - unfold eval_read.
    destruct (eval_predicate_ok squeeze_policy hydration_policy fuel (ev_entry_id e) (ev_selection e)
                (ev_predicate e) s m I V Hf) as (r & s2 & -> & I2 & Hr).
    cbn. by eexists (RPredicate r), s2.
  - destruct (try_read_liquid_ok squeeze_policy hydration_policy fuel id s m I Hf) as (r & s2 & -> & I2 & Hr).
    cbn. by eexists (RLiquid r), s2.
  - eexists RDone, _. split_and!; [done| |done]. apply advanced_here; [by apply hint_inv|done].
  - destruct (flush_ok s m I) as (s2 & -> & I2 & _). cbn. by eexists RDone, s2.
  - eexists RDone, _. split_and!; [done| |done]. by eapply reset_inv.
  - eexists (RStats _), _. split_and!; [done| |].
    + apply advanced_here; [|done]. eapply cache_inv_same; [|exact I]. done.
    + cbn. apply (ci_max _ _ _ I).
Qed.

(** ** Sequences *)

Fixpoint spec_run (ops : list operation) (m : cache_map) : cache_map :=
  match ops with [] => m | op :: ops => spec_run ops (spec op m) end.

Fixpoint all_valid (ops : list operation) (m : cache_map) : Prop :=
  match ops with [] => True | op :: ops => valid op m ∧ all_valid ops (spec op m) end.

Fixpoint all_answered (ops : list operation) (m : cache_map) (rs : list response) : Prop :=
  match ops, rs with
  | [], [] => True
  | op :: ops, r :: rs => (∃ s', answers op m r s') ∧ all_answered ops (spec op m) rs
  | _, _ => False
  end.

Lemma run_ok fuel ops (s : LiquidCache P) m :
  cache_inv None s m → all_valid ops m → Forall (λ op, depth op < fuel) ops →
  (weight s + 7 * Z.of_nat (List.length ops) + 3 < Z.of_nat fuel)%Z →
  ∃ rs s', run fuel ops s = Ret (rs, s') ∧ cache_inv None s' (spec_run ops m) ∧ all_answered ops m rs.
Proof.
  revert s m. induction ops as [|op ops IH]; intros s m I V D Hf; [by eexists [], s|].
  destruct V as [V Vs]. apply Forall_cons in D as [D Ds]. cbn [List.length] in Hf.
  destruct (exec_ok fuel op s m I V) as (r & s1 & Hx & [I1 Hw1] & Ha); [unfold enough; lia|done|].
  destruct (IH s1 (spec op m) I1 Vs Ds) as (rs & s2 & Hr & I2 & Has); [lia|].
  exists (r :: rs), s2. cbn [run]. rewrite Hx. run_step. rewrite Hr.
  cbn. split_and!; [done|done|by exists s1|done].
Qed.

(** ** Properties *)

(** C1: under the conditions below the cache refines a map from entries to values:
    starting empty, any sequence of insertions, reads, predicate evaluations, liquid
    reads, hints, flushes, resets and statistics runs to the end with seven units of
    fuel per operation, never panics, and every read answers with the selected rows
    of the value inserted last for its entry, through any number of squeezes,
    evictions and hydrations; a read with a date hint answers either with these rows
    or with the hinted component of each in its place.  Conditions: the cache policy
    gives out memory entries only ([MemoryOnlyPolicy]: the default [LiquidPolicy]
    does; LRU, FIFO, FILO, CLOCK and SIEVE do not, and with LRU an insertion may
    never end, see [oversized_insert_never_returns]); the squeeze and the hydration
    policy satisfy their laws (the three squeeze policies of the source, [AlwaysHydrate]
    and [NoHydration] do); the budget is at most 2^63 bytes; the formats satisfy
    [FormatLaws] (proved of the integer, date and timestamp arrays of the source by
    [integer_laws]; the string and the float arrays break them in the cases listed
    in the findings); and the operations are [valid]: entry numbers are machine words,
    no hint names variant paths, an inserted dictionary with UInt16 keys has Binary or
    Utf8 values, and no selection is longer than its column. *)
Theorem cache_refines_map max ops fuel :
  (0 <= max <= 2 ^ 63)%Z → all_valid ops ∅ → Forall (λ op, depth op < fuel) ops →
  7 * List.length ops + 3 < fuel →
  ∃ rs s', run fuel ops (cache_new max) = Ret (rs, s') ∧ all_answered ops ∅ rs
           ∧ (∀ id, is_cached id s' = bool_decide (is_Some (spec_run ops ∅ !! id))).
Proof.
  intros Hm V D Hf.
  destruct (run_ok fuel ops (cache_new max) ∅) as (rs & s' & Hr & I & Ha).
  - by apply cache_new_inv.
  - done.
  - done.
  - rewrite weight_new. lia.
  - exists rs, s'. split_and!; [done|done|]. intros id. unfold is_cached, index_is_cached.
    apply bool_decide_ext. apply (ci_dom _ _ _ I).
Qed.

(** C2: a valid operation on a cache in a good state (every entry holds its value,
    the memory in use is exactly the sum of the sizes of the entries in memory
    and within the budget, the policy is sound) ends and leaves it in a good state.
    The conditions are those of the refinement of a map: a policy that gives out
    memory entries only (as [LiquidPolicy] does and LRU does not), squeeze and
    hydration policies that satisfy their laws, formats that satisfy [FormatLaws]
    (as [integer_laws] proves of the integer, date and timestamp arrays), and a
    [valid] operation: entry numbers are machine words, no hint names variant paths,
    an inserted dictionary array is of a supported kind, and no selection is longer
    than its column. *)
Theorem cache_invariant_step fuel op (s : LiquidCache P) m :
  cache_inv None s m → valid op m → enough fuel s → depth op < fuel →
  ∃ r s', exec fuel op s = Ret (r, s') ∧ cache_inv None s' (spec op m)
          ∧ used_memory_bytes (budget s') = msum memory_usage (art (index s'))
          ∧ (used_memory_bytes (budget s') <= max_memory_bytes (budget s'))%Z.
Proof.
  intros I V Hf D. destruct (exec_ok fuel op s m I V Hf D) as (r & s' & Hx & [I' _] & _).
  exists r, s'. split_and!; [done|done|apply (ci_used _ _ _ I')|apply (ci_max _ _ _ I')].
Qed.

(** C3: squeezing a victim ends within four rounds, whatever the sizes of its
    successive forms, and neither loses its value nor puts back into the policy
    anything but that victim. *)
Theorem squeeze_victim_terminates id (s : LiquidCache P) m :
  cache_inv None s m → id ∉ tracked (cache_policy s) →
  ∃ s', squeeze_victim_inner squeeze_policy id s = Ret s' ∧ cache_inv None s' m
        ∧ (∀ i, i ≠ id → i ∈ tracked (cache_policy s') ↔ i ∈ tracked (cache_policy s)).
Proof.
  intros I Hn. destruct (squeeze_victim_ok squeeze_policy id s m I Hn) as (s' & Hs & [I' _ _ Ht]).
  by exists s'.
Qed.

(** C4: flushing writes every entry to its file and leaves nothing in memory:
    all entries are on disk, the memory in use is zero, and no value is lost. *)
Theorem flush_empties_memory (s : LiquidCache P) m :
  cache_inv None s m →
  ∃ s', flush_all_to_disk s = Ret s' ∧ cache_inv None s' m
        ∧ map_Forall (λ _ e, in_memory (batch_type e) = false) (art (index s'))
        ∧ memory_usage_bytes (budget s') = 0%Z.
Proof.
  intros I. destruct (flush_ok s m I) as (s' & Hs & [I' _] & Hr & Hu).
  exists s'. split_and!; [done|done| |done].
  intros id e E. apply rank_memory. by apply (Hr id e).
Qed.
End spec.

(** ** The default policies over the integer, date and timestamp arrays

    The theorems above with the liquid arrays of the source in the place of the
    laws: [IntegerFormats.v] proves these, so nothing is assumed of the formats. *)

(** What an operation must not do to an entry that is to be read later. *)
Definition keeps {AL : ArrowLib} (id : EntryID) (op : operation) : Prop :=
  match op with OpInsert i => in_entry_id i ≠ id | OpReset => False | _ => True end.

Section integers.
Context {VL : VariantLib (AL := integer_arrow)}.

Abbreviation IntegerOperation := (operation (AL := integer_arrow)).
Abbreviation IntegerCache := (LiquidCache (LF := integer_liquid) LiquidQueueInternalState).

Lemma spec_run_keeps id (ops : list IntegerOperation) m :
  Forall (keeps id) ops → spec_run (FL := integer_laws) ops m !! id = m !! id.
Proof.
  revert m. induction ops as [|op ops IH]; intros m F; [done|]. apply Forall_cons in F as [Hop F].
  cbn [spec_run]. rewrite IH by done. destruct op as [i|g|e|id'|id' h| | |]; try done. by apply (lookup_insert_ne (M := gmap Z)).
Qed.

Lemma spec_run_app (ops ops' : list IntegerOperation) m :
  spec_run (FL := integer_laws) (ops ++ ops') m = spec_run (FL := integer_laws) ops' (spec_run (FL := integer_laws) ops m).
Proof. revert m. induction ops as [|op ops IH]; intros m; [done|]. apply IH. Qed.

(** The last answer. *)
Lemma all_answered_last (ops : list IntegerOperation) op m rs :
  all_answered (FL := integer_laws) (P := LiquidQueueInternalState) (ops ++ [op]) m rs →
  ∃ rs' r s', rs = rs' ++ [r]
    ∧ answers (FL := integer_laws) (P := LiquidQueueInternalState) op (spec_run (FL := integer_laws) ops m) r s'.
Proof.
  revert m rs. induction ops as [|o ops IH]; intros m [|r rs] H; try done.
  - destruct H as [[s' H] Hrs]. destruct rs; [|done]. by exists [], r, s'.
  - destruct H as [_ H]. destruct (IH _ _ H) as (rs' & r' & s' & -> & Ha). by exists (r :: rs'), r', s'.
Qed.

(** C38: an integer, date or timestamp column (without a time zone) that was
    inserted is read back exactly: with any of the squeeze and hydration policies of
    the source, the default cache policy and any budget up to 2^63 bytes, whatever
    valid operations come before, and whatever operations other than a reset or an
    insertion under the same number come in between (insertions that squeeze or
    evict the column, reads that bring it back, predicates, flushes, hints without
    variant paths), every operation ends without a panic, and a read without a date
    hint answers with the column's own type and exactly its selected rows, nulls in
    their places. The liquid arrays are those of the source: no law of them is
    assumed. Columns have fewer than 2^28 rows; columns of types without a liquid
    format (kept and written as Arrow arrays) may be cached beside them. *)
Theorem integer_insert_get squeeze_policy hydration_policy max before i mid g fuel :
  squeeze_policy = Evict ∨ squeeze_policy = TranscodeSqueezeEvict ∨ squeeze_policy = TranscodeEvict →
  hydration_policy = AlwaysHydrate ∨ hydration_policy = NoHydration →
  (0 <= max <= 2 ^ 63)%Z →
  let ops : list IntegerOperation := (before ++ OpInsert i :: mid) ++ [OpGet g] in
  all_valid (FL := integer_laws) ops ∅ → Forall (keeps (in_entry_id i)) mid →
  gt_entry_id g = in_entry_id i → (∀ f, gt_expression_hint g ≠ Some (ExtractDate32 f)) →
  7 * List.length ops + 3 < fuel →
  ∃ rs a s', run (P := LiquidQueueInternalState) squeeze_policy hydration_policy fuel ops (cache_new max)
             = Ret (rs ++ [RRead (Some a)], s')
    ∧ column_type a = column_type (in_batch i)
    ∧ column_rows a = match gt_selection g with
                      | Some selection => keep (column_rows (in_batch i)) selection
                      | None => column_rows (in_batch i)
                      end.
Proof.
  intros Hsp Hhp Hm ops V Hmid Hid Hh Hf.
  assert (SqueezeLaws (FL := integer_laws) squeeze_policy) as SL by (destruct Hsp as [->|[->| ->]]; apply _).
  assert (HydrationLaws (FL := integer_laws) hydration_policy) as HL by (destruct Hhp as [->| ->]; apply _).
  destruct (run_ok (FL := integer_laws) (P := LiquidQueueInternalState) squeeze_policy hydration_policy
              fuel ops (cache_new max) ∅) as (rs & s' & Hr & _ & Ha).
  - by apply cache_new_inv.
  - done.
  - apply Forall_forall. intros op _. destruct op; cbn; lia.
  - rewrite (weight_new (P := LiquidQueueInternalState)). lia.
  - destruct (all_answered_last _ _ _ _ Ha) as (rs' & r & s1 & -> & Hg).
    assert (spec_run (FL := integer_laws) (before ++ OpInsert i :: mid) ∅ !! gt_entry_id g = Some (den (in_batch i))) as E.
    { rewrite spec_run_app, Hid. cbn [spec_run]. rewrite spec_run_keeps by done. apply (lookup_insert_eq (M := gmap Z)). }
    destruct (get_answer g (den (in_batch i)) _ r s1 E Hg) as (a & -> & [Hg'|(f & Ef & _)]); [|by destruct (Hh f)].
    exists rs', a, s'. split; [done|]. unfold vsel in Hg'.
    destruct (gt_selection g); cbn in Hg'; unfold column_value in Hg'; injection Hg' as Ht Hc; by split.
Qed.
End integers.

(** The integer world has no variant arrays. *)
#[export] Instance integer_variants : VariantLib (AL := integer_arrow) := {
  StructArray := Column;
  VariantArray := Column;
  as_struct _ := None;
  struct_ref a := a;
  column_by_name _ _ := None;
  struct_nulls _ := None;
  variant_try_new _ := None;
  variant_is_empty _ := true;
  variant_inner a := a;
  typed_value_field _ := None;
  unshred_variant _ := None;
  shred_variant _ _ := None;
  parse_variant_path _ := []
}.

Definition date_column : Column :=
  ColIntegers PDate32 I (Integers (T := PDate32) (Prim [8; 0; 400; 20]%Z (Some [true; false; true; true])) I).

Definition long_column : Column :=
  ColIntegers PInt64 I (Integers (T := PInt64) (Prim [1000000; -7; 3]%Z None) I).

Definition date_insert : Insert := mkInsert (AL := integer_arrow) 1 date_column false None.
Definition date_get : Get := mkGet 1 (Some [true; false; true]) None.

Definition integer_before : list (operation (AL := integer_arrow)) := [OpAddHint (AL := integer_arrow) 1 (ExtractDate32 Year)].

Definition integer_mid : list (operation (AL := integer_arrow)) :=
  [OpInsert (mkInsert (AL := integer_arrow) 2 long_column false None);
   OpInsert (mkInsert (AL := integer_arrow) 3 long_column false None);
   OpEval (mkEval (AL := integer_arrow) 2 (PBinary PColumn (DFCompare OpGt) (PLiteral (ScalarInteger (Some 3%Z)))) None);
   OpFlush (AL := integer_arrow)].

Definition integer_ops : list (operation (AL := integer_arrow)) :=
  (integer_before ++ OpInsert date_insert :: integer_mid) ++ [OpGet date_get].

Abbreviation LiquidState := LiquidQueueInternalState.

Definition integer_cache : LiquidCache (LF := integer_liquid) LiquidState := cache_new 40.

Lemma integer_ops_valid : all_valid (FL := integer_laws) integer_ops ∅.
Proof.
  repeat split; try done; intros v Hv; vm_compute in Hv; injection Hv as <-; try done; cbn; lia.
Qed.

Lemma cache_refines_map_witness :
  ∃ rs s', run (P := LiquidState) TranscodeSqueezeEvict AlwaysHydrate 100 integer_ops integer_cache
           = Ret (rs, s') ∧ all_answered (FL := integer_laws) (P := LiquidState) integer_ops ∅ rs.
Proof.
  destruct (cache_refines_map (FL := integer_laws) (P := LiquidState) TranscodeSqueezeEvict AlwaysHydrate
              40 integer_ops 100) as (rs & s' & Hr & Ha & _).
  - lia.
  - apply integer_ops_valid.
  - repeat constructor; cbn; lia.
  - cbn. lia.
  - exists rs, s'. exact (conj Hr Ha).
Defined.

Lemma integer_insert_get_witness :
  ∃ rs a s', run (P := LiquidState) TranscodeSqueezeEvict AlwaysHydrate 100 integer_ops integer_cache
             = Ret (rs ++ [RRead (Some a)], s')
             ∧ column_rows a = [Some 8; Some 400]%Z.
Proof.
  destruct (integer_insert_get TranscodeSqueezeEvict AlwaysHydrate 40 integer_before date_insert integer_mid
              date_get 100) as (rs & a & s' & Hr & _ & Hc).
  - auto.
  - auto.
  - lia.
  - apply integer_ops_valid.
  - by repeat constructor.
  - done.
  - done.
  - cbn. lia.
  - exists rs, a, s'. exact (conj Hr Hc).
Defined.

Lemma cache_invariant_step_witness :
  ∃ r s', exec (P := LiquidState) TranscodeSqueezeEvict AlwaysHydrate 11 (OpInsert date_insert) integer_cache = Ret (r, s')
          ∧ (used_memory_bytes (budget s') <= max_memory_bytes (budget s'))%Z.
Proof.
  destruct (cache_invariant_step (FL := integer_laws) (P := LiquidState) TranscodeSqueezeEvict AlwaysHydrate
              11 (OpInsert date_insert) integer_cache ∅)
    as (r & s' & Hx & _ & _ & Hb).
  - by apply cache_new_inv.
  - by repeat split.
  - unfold enough, integer_cache. rewrite (weight_new (P := LiquidState)). lia.
  - cbn. lia.
  - exists r, s'. exact (conj Hx Hb).
Defined.

(** ** The sample formats *)

#[local] Existing Instance sample_arrow.
#[local] Existing Instance sample_liquid.
#[local] Existing Instance sample_laws.
#[local] Existing Instance sample_variants.

Definition sample_cache : LiquidCache (LF := sample_liquid) LiquidState := cache_new 40.

Lemma squeeze_victim_terminates_witness :
  ∃ s', squeeze_victim_inner (P := LiquidState) TranscodeSqueezeEvict 1 sample_cache = Ret s'.
Proof.
  destruct (squeeze_victim_terminates (FL := sample_laws) (P := LiquidState) TranscodeSqueezeEvict 1
              sample_cache ∅) as (s' & Hs & _).
  - by apply cache_new_inv.
  - cbn. by intros ?%elem_of_nil.
  - exists s'. exact Hs.
Defined.

Lemma flush_empties_memory_witness :
  ∃ s', flush_all_to_disk sample_cache = Ret s' ∧ memory_usage_bytes (budget s') = 0%Z.
Proof.
  destruct (flush_empties_memory (FL := sample_laws) (P := LiquidState) sample_cache ∅) as (s' & Hs & _ & _ & Hu).
  - by apply cache_new_inv.
  - exists s'. exact (conj Hs Hu).
Defined.

(** ** Insertions that do not end *)

Section livelock.
Context {AL : ArrowLib} {LF : LiquidFormats} {VL : VariantLib} {FL : FormatLaws}.
Context {P : Type} {CP : CachePolicy P} {PL : PolicyLaws P} {TK : TracksEveryKind P}.
Context (squeeze_policy : SqueezePolicy) {SL : SqueezeLaws squeeze_policy}.

(** Every entry is on disk, and the policy still tracks some of them and
    nothing else. *)
Record all_on_disk (s : LiquidCache P) (m : gmap Z Val) : Prop := {
  ad_inv : cache_inv None s m;
  ad_rank : map_Forall (λ _ e, rank e = 0) (art (index s));
  ad_tracked i : i ∈ tracked (cache_policy s) → is_Some (art (index s) !! i)
}.

(** One victim: the same entry is inserted again, and tracked again. *)
Lemma squeeze_disk_victim id (s : LiquidCache P) m :
  all_on_disk s m → is_Some (art (index s) !! id) →
  ∃ s', squeeze_victim_inner squeeze_policy id s = Ret s' ∧ all_on_disk s' m
        ∧ art (index s') = art (index s) ∧ max_memory_bytes (budget s') = max_memory_bytes (budget s)
        ∧ id ∈ tracked (cache_policy s')
        ∧ (∀ i, i ≠ id → i ∈ tracked (cache_policy s') ↔ i ∈ tracked (cache_policy s)).
Proof.
  intros [I Hr Ht] [e E]. pose proof (Hr _ _ E) as Hre. cbn in Hre.
  destruct (proj1 (ci_dom _ _ _ I id)) as [v Hv]; [by eexists|].
  destruct (ci_val _ _ _ I _ _ Hv) as [Hid Hd].
  pose proof (ci_ok _ _ _ I id e v ltac:(done) E Hv) as He.
  unfold squeeze_victim_inner, index_get. rewrite E. unfold squeeze_fuel. cbn [squeeze_victim_loop].
  set (s1 := trace (SqueezeVictim id) s).
  assert (hint_plain (squeeze_hint id s1)) as Hh.
  { unfold hint_plain, squeeze_hint. destruct (squeeze_hints s1 !! id) eqn:Eh; [|done].
    by apply (ci_hints _ _ _ I id). }
  assert (cache_inv None s1 m) as I1 by (eapply cache_inv_same; [|exact I]; done).
  destruct (squeeze_ok e (compressor_state s1) _ (file_of id s1) v Hh Hd He)
    as (e' & b & c' & Hsq & Hc & He' & [?|[_ ->]] & _); [lia|].
  unfold run_squeeze. rewrite Hsq. run_step.
  set (s2 := set_compressor c' s1).
  assert (cache_inv None s2 m) as I2 by (by apply set_compressor_inv).
  destruct (write_opt_inv None id b e s2 m I2 (or_introl eq_refl) Hid) as (I3 & Hfile & Hcomp & Hix & Hpol).
  assert (max_memory_bytes (budget (write_opt id e b s2)) = max_memory_bytes (budget s)) as Hmax by (by destruct b).
  set (s3 := write_opt id e b s2) in *.
  destruct (try_insert_inv (Some id) id e v s3 m I3 (or_intror eq_refl) Hid Hd) as
    [(s4 & Hs4 & I4 & Ha & _ & _ & _ & Ht4 & Hn4)|(_ & Hne & _)]; [by rewrite Hfile, Hcomp| |done].
  pose proof (try_insert_max _ _ _ _ _ Hs4) as Hmax4.
  rewrite Hs4. run_step.
  assert (art (index s4) = art (index s)) as Ha4 by (rewrite Ha, Hix; by apply insert_id).
  assert (id ∈ tracked (cache_policy s4)) as Hin
    by (eapply notify_insert_tracked; [apply (ci_policy _ _ _ I3)|done]).
  assert (∀ i, i ≠ id → i ∈ tracked (cache_policy s4) ↔ i ∈ tracked (cache_policy s)) as Hoth
    by (intros i Hi; rewrite (Ht4 i Hi); by rewrite Hpol).
  exists s4. split_and!; [done| |done|congruence|done|done].
  rewrite insert_id in I4 by done. split; [done|by rewrite Ha4|].
  intros i Hi. rewrite Ha4. destruct (decide (i = id)) as [->|Hne]; [by eexists|].
  apply Ht. by apply Hoth.
Qed.

Lemma squeeze_disk_victims vs (s : LiquidCache P) m :
  all_on_disk s m → Forall (λ i, is_Some (art (index s) !! i)) vs →
  ∃ s', squeeze_each squeeze_policy vs s = Ret s' ∧ all_on_disk s' m
        ∧ art (index s') = art (index s) ∧ max_memory_bytes (budget s') = max_memory_bytes (budget s)
        ∧ (∀ i, i ∈ vs → i ∈ tracked (cache_policy s'))
        ∧ (∀ i, i ∈ tracked (cache_policy s) → i ∈ tracked (cache_policy s')).
Proof.
  revert s. induction vs as [|id vs IH]; intros s A F.
  { exists s. split_and!; try done. intros i Hi. by apply elem_of_nil in Hi. }
  apply Forall_cons in F as [Hid F].
  destruct (squeeze_disk_victim id s m A Hid) as (s1 & Hs1 & A1 & Ha1 & Hm1 & Hin1 & Ho1).
  destruct (IH s1 A1) as (s2 & Hs2 & A2 & Ha2 & Hm2 & Hin2 & Hk2); [by rewrite Ha1|].
  exists s2. cbn. rewrite Hs1. cbn. split_and!; [done|done|congruence|congruence| |].
  - intros i [->|Hi]%elem_of_cons; auto.
  - intros i Hi. apply Hk2. destruct (decide (i = id)) as [->|Hne]; [done|by apply Ho1].
Qed.

(** C36: with a policy that keeps tracking disk entries, inserting an array larger
    than the whole cache while another entry is cached (all entries being on
    disk) never returns: the loop runs out of any fuel. *)
Theorem oversized_insert_never_returns fuel id array (s : LiquidCache P) m :
  all_on_disk s m → tracked (cache_policy s) ≠ [] →
  is_usize id → dictionary_supported (arr_data_type array) = true →
  (max_memory_bytes (budget s) < arr_memory_size array)%Z →
  insert_inner squeeze_policy fuel id (MemoryArrow array) s = NoFuel.
Proof.
  revert s. induction fuel as [|fuel IH]; intros s A Ht Hid Hd Hsize; [done|].
  cbn [insert_inner]. pose proof A as [I Hr Htr].
  assert (fopt memory_usage (art (index s) !! id) = 0%Z) as H0.
  { destruct (art (index s) !! id) as [e|] eqn:E; [|done]. cbn. by apply rank_zero_size, (Hr id e). }
  assert (used_memory_bytes (budget s) = 0%Z) as Hu.
  { rewrite (ci_used _ _ _ I). clear -Hr. induction (art (index s)) as [|k e mm Hk IHm] using map_ind; [done|].
    rewrite msum_insert_None by done. rewrite IHm.
    - rewrite rank_zero_size; [done|]. apply (Hr k e). apply lookup_insert_eq.
    - intros i x Hi. apply (Hr i x). rewrite lookup_insert_ne; [done|congruence]. }
  destruct (try_insert_inv None id (MemoryArrow array) (den array) s m I (or_introl eq_refl) Hid) as
    [(s3 & Hs3 & I3 & Ha & _)|(-> & _)].
  - by rewrite den_type.
  - done.
  - exfalso. pose proof (ci_used _ _ _ I3) as Hu3. pose proof (ci_max _ _ _ I3) as Hm3.
    rewrite Ha, msum_insert, H0, <- (ci_used _ _ _ I), Hu in Hu3. cbn in Hu3.
    pose proof (try_insert_max _ _ _ _ _ Hs3). lia.
  - run_step.
    set (s1 := trace _ s).
    destruct (find_victim_ok 8 _ (ci_policy _ _ _ I)) as (vs & p & Hfv & Hp & Hperm & Hlen).
    change (cache_policy s1) with (cache_policy s). rewrite Hfv. run_step.
    destruct vs as [|v0 vs].
    { cbn in Hlen. destruct (tracked (cache_policy s)); [done|cbn in Hlen; lia]. }
    unfold squeeze_victims.
    set (s2 := trace (SqueezeBegin (v0 :: vs)) (set_policy p s1)).
    assert (all_on_disk s2 m) as A2.
    { split; [|done|].
      - eapply cache_inv_same; [by apply same_trace|]. destruct I. by split.
      - intros i Hi. apply Htr. rewrite Hperm. apply elem_of_app. by right. }
    destruct (squeeze_disk_victims (v0 :: vs) s2 m A2) as (s4 & -> & A4 & Ha4 & Hm4 & Hin4 & _).
    { apply Forall_forall. intros i Hi. apply Htr. rewrite Hperm. apply elem_of_app. by left. }
    run_step. apply IH; try done.
    + intros H. specialize (Hin4 v0 ltac:(left)). rewrite H in Hin4. by apply elem_of_nil in Hin4.
    + by rewrite Hm4.
Qed.
End livelock.

(** ** A small cache with the LRU policy *)

Definition lru_array : sarr := SArr SInt64 [Some 1]%Z.

(** Entry 1 is on disk, and tracked. *)
Definition lru_cache_outcome : outcome (option CacheEntry * LiquidCache (LF := sample_liquid) HashList) :=
  try_insert 1 (DiskArrow TInt64) (write_file 1 (enc_arr lru_array) (cache_new 40)).

Definition lru_cache : LiquidCache (LF := sample_liquid) HashList :=
  match lru_cache_outcome with Ret (_, s) => s | _ => cache_new 40 end.

Lemma lru_cache_on_disk :
  all_on_disk (FL := sample_laws) lru_cache (<[1%Z := lru_array]> ∅)
  ∧ 1%Z ∈ tracked (cache_policy lru_cache) ∧ max_memory_bytes (budget lru_cache) = 40%Z.
Proof.
  assert (cache_inv (FL := sample_laws) (Some 1%Z)
            (write_file 1 (enc_arr lru_array) (cache_new (P := HashList) 40)) ∅) as I0.
  { destruct (cache_new_inv (FL := sample_laws) (P := HashList) 40 ltac:(lia)). by split. }
  destruct (try_insert_inv (FL := sample_laws) (Some 1%Z) 1 (DiskArrow TInt64) lru_array _ ∅ I0
              (or_intror eq_refl) ltac:(done) eq_refl) as
    [(s1 & Hs1 & I1 & Ha & _ & _ & _ & Ht & Hn)|(_ & Hne & _)]; [|  |done].
  - split; [done|]. exists (enc_arr lru_array). split; [apply file_of_write|].
    exists lru_array. split; [apply dec_enc_arr|done].
  - assert (lru_cache = s1) as ->.
    { unfold lru_cache, lru_cache_outcome. by rewrite Hs1. }
    assert (1%Z ∈ tracked (cache_policy s1)) as Hin
      by (eapply notify_insert_tracked; [apply (ci_policy _ _ _ I0)|exact Hn]).
    assert (art (index s1) = {[1%Z := DiskArrow TInt64]}) as Ha' by (rewrite Ha; done).
    split; [|split; [done|]].
    + split; [done| |].
      * rewrite Ha'. by apply map_Forall_singleton.
      * intros i Hi. rewrite Ha'. destruct (decide (i = 1%Z)) as [->|Hne]; [by rewrite lookup_singleton_eq|].
        apply Ht in Hi; [|done]. cbn in Hi. by apply elem_of_nil in Hi.
    + by rewrite (try_insert_max _ _ _ _ _ Hs1).
Qed.

Lemma oversized_insert_never_returns_witness :
  insert_inner (P := HashList) TranscodeSqueezeEvict 1000 2
    (MemoryArrow (LF := sample_liquid) (SArr SInt64 (repeat None 6))) lru_cache = NoFuel.
Proof.
  destruct lru_cache_on_disk as (A & Hin & Hmax).
  apply (oversized_insert_never_returns (FL := sample_laws) (P := HashList) TranscodeSqueezeEvict
           1000 2 (SArr SInt64 (repeat None 6)) lru_cache (<[1%Z := lru_array]> ∅)).
  - exact A.
  - intros H. rewrite H in Hin. by apply elem_of_nil in Hin.
  - done.
  - done.
  - rewrite Hmax. by vm_compute.
Defined.

(** ** Statistics

    [LiquidCache::stats] counts the entries of each kind and adds up their sizes
    in one pass over the index ([count_kind], [bytes_kind] of [Core.v]); here it
    is shown to agree with the budget and with the number of entries. *)

Section stats.
Local Open Scope Z_scope.
Context {AL : ArrowLib} {LF : LiquidFormats} {FL : FormatLaws}.
Context {P : Type} {CP : CachePolicy P} {PL : PolicyLaws P}.

Definition esum (g : CacheEntry → Z) (es : list (EntryID * CacheEntry)) : Z :=
  foldr (λ e n, g e.2 + n) 0 es.

(** The share of a kind. *)
Definition of_kind (ty : CachedBatchType) (g : CacheEntry → Z) (e : CacheEntry) : Z :=
  if decide (batch_type e = ty) then g e else 0.

Lemma msum_esum g (m : gmap Z CacheEntry) : msum g m = esum g (map_to_list m).
Proof. unfold msum, esum. rewrite map_fold_foldr. by induction (map_to_list m) as [|[k e] l IH]; simpl; [|rewrite IH]. Qed.

Lemma esum_ext g g' es : (∀ e, g e = g' e) → esum g es = esum g' es.
Proof. intros H. induction es as [|e es IH]; simpl; [done|by rewrite H, IH]. Qed.

Lemma esum_add g g' es : esum (λ e, g e + g' e) es = esum g es + esum g' es.
Proof. induction es as [|e es IH]; simpl in *; lia. Qed.

Lemma esum_nonneg g es : (∀ e, 0 <= g e) → 0 <= esum g es.
Proof. intros H. induction es as [|e es IH]; simpl; [lia|]. specialize (H e.2). lia. Qed.

Lemma usize_add a b : usize (usize a + b) = usize (a + b).
Proof. unfold usize. by rewrite Z.add_mod_idemp_l. Qed.

Lemma kind_fold ty g es a :
  foldl (λ n e, if decide (batch_type e.2 = ty) then usize (n + g e.2) else n) (usize a) es
  = usize (a + esum (of_kind ty g) es).
Proof.
  revert a. induction es as [|e es IH]; intros a; simpl; [by rewrite Z.add_0_r|].
  unfold of_kind at 1. destruct (decide _).
  - rewrite usize_add, IH. f_equal. lia.
  - rewrite IH. f_equal.
Qed.

Lemma bytes_kind_sum ty es : bytes_kind ty es = usize (esum (of_kind ty memory_usage) es).
Proof. apply (kind_fold ty memory_usage es 0). Qed.

Lemma count_kind_sum ty es : count_kind ty es = usize (esum (of_kind ty (λ _, 1)) es).
Proof. apply (kind_fold ty (λ _, 1) es 0). Qed.

(** Every entry is of one kind. *)
Lemma kinds_split g es :
  esum (of_kind TMemoryArrow g) es + esum (of_kind TMemoryLiquid g) es
  + esum (of_kind TMemorySqueezedLiquid g) es + esum (of_kind TDiskLiquid g) es
  + esum (of_kind TDiskArrow g) es = esum g es.
Proof.
  rewrite <- !esum_add. apply esum_ext. intros e. unfold of_kind.
  destruct e; cbn [batch_type]; repeat destruct (decide _); try discriminate; try done; lia.
Qed.

Lemma of_kind_nonneg ty g e : 0 <= g e → 0 <= of_kind ty g e.
Proof. unfold of_kind. destruct (decide _); lia. Qed.

Lemma esum_one es : esum (λ _, 1) es = Z.of_nat (List.length es).
Proof. induction es as [|e es IH]; simpl in *; lia. Qed.

(** ** Properties *)

(** The statistics are consistent: the bytes of the three memory kinds add up
    to the memory in use, the counts of the five kinds to the number of entries,
    nothing overflows, and the runtime counters start again from zero. *)
Theorem stats_consistent (s : LiquidCache P) m :
  cache_inv None s m → Z.of_nat (size (art (index s))) < 2 ^ 64 →
  let '(st, s') := stats s in
  memory_arrow_bytes st + memory_liquid_bytes st + memory_squeezed_liquid_bytes st
  = st_memory_usage_bytes st
  ∧ memory_arrow_entries st + memory_liquid_entries st + memory_squeezed_liquid_entries st
    + disk_liquid_entries st + disk_arrow_entries st = total_entries st
  ∧ total_entries st = Z.of_nat (size m)
  ∧ (∀ c, runtime (observer s') c = 0) ∧ st_runtime st = runtime (observer s).
Proof.
  intros I Hs. unfold stats. cbn [runtime_snapshot consume_snapshot].
  cbn [memory_arrow_bytes memory_liquid_bytes memory_squeezed_liquid_bytes st_memory_usage_bytes
       memory_arrow_entries memory_liquid_entries memory_squeezed_liquid_entries disk_liquid_entries
       disk_arrow_entries total_entries st_runtime].
  set (es := index_entries (index s)).
  rewrite !bytes_kind_sum, !count_kind_sum.
  pose proof (kinds_split memory_usage es) as Hb. pose proof (kinds_split (λ _, 1) es) as Hc.
  assert (∀ ty, 0 <= esum (of_kind ty memory_usage) es) as Hnb
    by (intros ty; apply esum_nonneg; intros e; apply of_kind_nonneg, memory_usage_range).
  assert (∀ ty, 0 <= esum (of_kind ty (λ _, 1)) es) as Hnc
    by (intros ty; apply esum_nonneg; intros e; by apply of_kind_nonneg).
  assert (∀ ty, in_memory ty = false → esum (of_kind ty memory_usage) es = 0) as Hd.
  { intros ty Ht. clear -Ht. induction es as [|[k e] es IH]; simpl in *; [done|]. rewrite IH.
    unfold of_kind. destruct (decide (batch_type e = ty)) as [<-|]; [|done]. by destruct e. }
  rewrite (Hd TDiskLiquid), (Hd TDiskArrow) in Hb by done.
  assert (esum memory_usage es = used_memory_bytes (budget s)) as Hu
    by (rewrite (ci_used _ _ _ I), msum_esum; done).
  assert (esum (λ _, 1) es = Z.of_nat (size (art (index s)))) as Hn.
  { rewrite esum_one. unfold es, index_entries. f_equal. apply length_map_to_list. }
  pose proof (ci_max _ _ _ I) as Hm.
  pose proof (Hnb TMemoryArrow). pose proof (Hnb TMemoryLiquid). pose proof (Hnb TMemorySqueezedLiquid).
  pose proof (Hnc TMemoryArrow). pose proof (Hnc TMemoryLiquid). pose proof (Hnc TMemorySqueezedLiquid).
  pose proof (Hnc TDiskLiquid). pose proof (Hnc TDiskArrow).
  assert (size m = size (art (index s))) as Hsz.
  { rewrite <- !size_dom. f_equal. apply leibniz_equiv. intros id. rewrite !elem_of_dom.
    symmetry. apply (ci_dom _ _ _ I). }
  split_and!.
  - machine. unfold memory_usage_bytes. lia.
  - rewrite (ci_count _ _ _ I); machine. lia.
  - rewrite (ci_count _ _ _ I), usize_id by lia. by rewrite Hsz.
  - done.
  - done.
Qed.
End stats.

Lemma stats_consistent_witness :
  let '(st, s') := stats (sample_cache) in total_entries st = Z.of_nat (size (∅ : gmap Z sarr)).
Proof.
  pose proof (stats_consistent (FL := sample_laws) sample_cache ∅
    ltac:(by apply cache_new_inv) ltac:(by vm_compute)) as H.
  destruct (stats sample_cache) as [st s']. exact (proj1 (proj2 (proj2 H))).
Defined.
