(* ===== verification/ParquetIds.v ===== *)
(** * Entry identifiers of parquet columns

    Model of [src/src/parquet/src/cache/id.rs], and of the table of file
    identifiers of [LiquidCacheParquet] in [src/src/parquet/src/cache/mod.rs].  A
    batch of a column of a row group of a file is one entry of the cache: its
    identifier packs the four 16-bit numbers in 64 bits.  The [debug_assert]s are
    not executed (release profile). *)

From stdpp Require Import base numbers list strings gmap pretty.
From Stdlib Require Import ZArith Lia.
From S2P Require Import Prelude.
Local Open Scope Z_scope.

Record BatchID : Type := Batch { v : Z }.

Record ParquetArrayID : Type := ArrayID {
  file_id : Z;
  rg_id : Z;
  col_id : Z;
  batch_id : BatchID
}.

Record ColumnAccessPath : Type := AccessPath {
  cap_file_id : Z;
  cap_rg_id : Z;
  cap_col_id : Z
}.

(** ** Batches *)

(** [row_id / batch_size] panics when the batch size is zero. *)
Definition from_row_id (row_id batch_size : Z) : outcome BatchID :=
  if batch_size =? 0 then Panic else Ret (Batch (wrapu 16 (row_id / batch_size))).

Definition from_raw (v : Z) : BatchID := Batch v.

Definition inc (b : BatchID) : BatchID := Batch (wrapu 16 (v b + 1)).

(** ** Identifiers *)

(** [usize::from]. *)
Definition usize_of_id (id : ParquetArrayID) : Z :=
  Z.lor (Z.lor (Z.lor (usize (Z.shiftl (file_id id) 48)) (usize (Z.shiftl (rg_id id) 32)))
           (usize (Z.shiftl (col_id id) 16))) (v (batch_id id)).

Definition id_of_usize (value : Z) : ParquetArrayID :=
  ArrayID (wrapu 16 (Z.shiftr value 48))
    (wrapu 16 (Z.land (Z.shiftr value 32) 0xFFFF))
    (wrapu 16 (Z.land (Z.shiftr value 16) 0xFFFF))
    (from_raw (wrapu 16 (Z.land value 0xFFFF))).

Definition id_new (file_id row_group_id column_id : Z) (batch_id : BatchID) : ParquetArrayID :=
  ArrayID (wrapu 16 file_id) (wrapu 16 row_group_id) (wrapu 16 column_id) batch_id.

Definition access_path_new (file_id row_group_id column_id : Z) : ColumnAccessPath :=
  AccessPath (wrapu 16 file_id) (wrapu 16 row_group_id) (wrapu 16 column_id).

Definition entry_id (p : ColumnAccessPath) (b : BatchID) : ParquetArrayID :=
  id_new (cap_file_id p) (cap_rg_id p) (cap_col_id p) b.

Definition access_path_of (id : ParquetArrayID) : ColumnAccessPath :=
  AccessPath (wrapu 16 (file_id id)) (wrapu 16 (rg_id id)) (wrapu 16 (col_id id)).

(** [format!("{prefix}{n}")], and the components a path gets. *)
Definition numbered (prefix : string) (n : Z) : string := prefix +:+ pretty n.

Definition on_disk_liquid_path (root : list string) (id : ParquetArrayID) : list string :=
  root ++ [numbered "file_" (file_id id); numbered "rg_" (rg_id id); numbered "col_" (col_id id);
           numbered "batch_" (v (batch_id id)) +:+ ".liquid"].

(** ** Files *)

Record LiquidCacheParquet : Type := Registry {
  files : gmap string Z;
  current_file_id : Z
}.

Definition registry_new : LiquidCacheParquet := Registry ∅ 0.

(** The identifier of the file, with the table after the call. *)
Definition register_or_get_file (file_path : string) (c : LiquidCacheParquet)
    : Z * LiquidCacheParquet :=
  match files c !! file_path with
  | Some file_id => (file_id, c)
  | None =>
      (current_file_id c,
       Registry (<[file_path := current_file_id c]> (files c)) (usize (current_file_id c + 1)))
  end.

(** ** Lemmas *)

Definition is_u16 (z : Z) : Prop := 0 <= z < 2 ^ 16.

Definition id_wf (id : ParquetArrayID) : Prop :=
  is_u16 (file_id id) /\ is_u16 (rg_id id) /\ is_u16 (col_id id) /\ is_u16 (v (batch_id id)).

Lemma wrapu_u16 z : is_u16 (wrapu 16 z).
Proof. unfold is_u16, wrapu. apply Z.mod_pos_bound. lia. Qed.

Lemma lor_shift a b n : 0 <= n -> 0 <= b < 2 ^ n -> Z.lor (a * 2 ^ n) b = a * 2 ^ n + b.
Proof.
  intros Hn Hb. rewrite <- Z.shiftl_mul_pow2 by done.
  symmetry. rewrite <- Z.lxor_lor; [apply Z.add_nocarry_lxor|].
  all: apply Z.bits_inj'; intros i Hi; rewrite Z.land_spec, Z.bits_0.
  all: destruct (Z.lt_ge_cases i n); [rewrite Z.shiftl_spec_low by done; done|].
  all: rewrite <- (Z.mod_small b (2 ^ n)), Z.mod_pow2_bits_high, andb_false_r by lia; done.
Qed.

(** The identifier in base 2^16. *)
Lemma usize_of_id_eq id :
  id_wf id ->
  usize_of_id id
  = ((file_id id * 2 ^ 16 + rg_id id) * 2 ^ 16 + col_id id) * 2 ^ 16 + v (batch_id id).
Proof.
  intros (Hf & Hr & Hc & Hb). unfold is_u16 in *. unfold usize_of_id.
  rewrite !Z.shiftl_mul_pow2 by lia. machine.
  rewrite (lor_shift (file_id id) _ 48) by lia.
  replace (file_id id * 2 ^ 48 + rg_id id * 2 ^ 32)
    with ((file_id id * 2 ^ 16 + rg_id id) * 2 ^ 32) by lia.
  rewrite (lor_shift _ (col_id id * 2 ^ 16) 32) by lia.
  replace ((file_id id * 2 ^ 16 + rg_id id) * 2 ^ 32 + col_id id * 2 ^ 16)
    with (((file_id id * 2 ^ 16 + rg_id id) * 2 ^ 16 + col_id id) * 2 ^ 16) by lia.
  by rewrite lor_shift by lia.
Qed.

Lemma land_u16 z : Z.land z 0xFFFF = z mod 2 ^ 16.
Proof. change 0xFFFF with (Z.ones 16). by rewrite Z.land_ones. Qed.

Lemma id_of_usize_eq z :
  id_of_usize z = ArrayID (z / 2 ^ 48 mod 2 ^ 16) (z / 2 ^ 32 mod 2 ^ 16) (z / 2 ^ 16 mod 2 ^ 16)
                    (Batch (z mod 2 ^ 16)).
Proof.
  unfold id_of_usize, from_raw, wrapu. by rewrite !land_u16, !Zmod_mod, !Z.shiftr_div_pow2.
Qed.

Lemma id_of_usize_wf z : id_wf (id_of_usize z).
Proof. rewrite id_of_usize_eq. repeat split; apply Z.mod_pos_bound; lia. Qed.

(** Splitting a number in base 2^16 and putting it together. *)
Lemma usize_id_usize z : 0 <= z < 2 ^ 64 -> usize_of_id (id_of_usize z) = z.
Proof.
  intros Hz. rewrite usize_of_id_eq by apply id_of_usize_wf. rewrite id_of_usize_eq.
  cbn [file_id rg_id col_id batch_id v].
  Z.to_euclidean_division_equations. lia.
Qed.

Lemma id_usize_id id : id_wf id -> id_of_usize (usize_of_id id) = id.
Proof.
  intros W. rewrite id_of_usize_eq, usize_of_id_eq by done.
  destruct W as (Hf & Hr & Hc & Hb). destruct id as [f r c [b]].
  cbn [file_id rg_id col_id batch_id v] in *. unfold is_u16 in *.
  repeat f_equal; Z.to_euclidean_division_equations; lia.
Qed.

Lemma parquet_id_range id : id_wf id -> 0 <= usize_of_id id < 2 ^ 64.
Proof.
  intros W. rewrite usize_of_id_eq by done. destruct W as (?&?&?&?). unfold is_u16 in *. lia.
Qed.

Lemma numbered_inj prefix a b : numbered prefix a = numbered prefix b -> a = b.
Proof. unfold numbered. intros H. by apply (inj pretty), (inj (String.app prefix)). Qed.

Lemma length_string_app (a b : string) :
  String.length (a +:+ b) = (String.length a + String.length b)%nat.
Proof. induction a as [|c a IH]; [done|]. simpl. by rewrite IH. Qed.

Lemma string_app_length_inj (a b s : string) : a +:+ s = b +:+ s -> a = b.
Proof.
  revert b. induction a as [|c a IH]; intros [|d b]; simpl.
  - done.
  - intros E. apply (f_equal String.length) in E. simpl in E; rewrite ?length_string_app in E; simpl in E; lia.
  - intros E. apply (f_equal String.length) in E. simpl in E; rewrite ?length_string_app in E; simpl in E; lia.
  - intros [= -> E]. f_equal. by apply IH.
Qed.

Lemma liquid_path_inj root a b :
  on_disk_liquid_path root a = on_disk_liquid_path root b -> a = b.
Proof.
  unfold on_disk_liquid_path. intros E. apply (inj (app root)) in E.
  assert (∀ n, [numbered "file_" (file_id a); numbered "rg_" (rg_id a); numbered "col_" (col_id a);
              numbered "batch_" (v (batch_id a)) +:+ ".liquid"] !! n
          = [numbered "file_" (file_id b); numbered "rg_" (rg_id b); numbered "col_" (col_id b);
              numbered "batch_" (v (batch_id b)) +:+ ".liquid"] !! n) as H by (intros n; by rewrite E).
  pose proof (inj Some _ _ (H 0%nat)) as Ef. pose proof (inj Some _ _ (H 1%nat)) as Er.
  pose proof (inj Some _ _ (H 2%nat)) as Ec. pose proof (inj Some _ _ (H 3%nat)) as Eb.
  apply string_app_length_inj in Eb.
  apply numbered_inj in Ef, Er, Ec, Eb. clear E H.
  destruct a as [? ? ? []], b as [? ? ? []]. cbn in *. by subst.
Qed.

Lemma entry_id_inj i rg col b j rg' col' b' :
  is_u16 i -> is_u16 j ->
  entry_id (access_path_new i rg col) b = entry_id (access_path_new j rg' col') b' -> i = j.
Proof.
  unfold entry_id, id_new, access_path_new, is_u16. cbn. intros Hi Hj [= E _ _ _].
  unfold wrapu in E. rewrite !Zmod_mod, !Z.mod_small in E by lia. done.
Qed.

(** The table: identifiers are below the counter and determine the file. *)
Definition registry_wf (c : LiquidCacheParquet) : Prop :=
  current_file_id c = Z.of_nat (size (files c))
  /\ map_Forall (λ _ i, 0 <= i < current_file_id c) (files c)
  /\ (∀ p q i, files c !! p = Some i -> files c !! q = Some i -> p = q).

Definition register_all (paths : list string) (c : LiquidCacheParquet) : LiquidCacheParquet :=
  foldl (λ c path, (register_or_get_file path c).2) c paths.

Lemma registry_wf_new : registry_wf registry_new.
Proof. split; [done|]. split; [apply map_Forall_empty|]. by intros p q i H. Qed.

Lemma register_size path c :
  (size (files (register_or_get_file path c).2) <= S (size (files c)))%nat.
Proof.
  unfold register_or_get_file. destruct (files c !! path) as [i|] eqn:E; cbn; [lia|].
  rewrite map_size_insert_None by done. lia.
Qed.

Lemma register_wf path c :
  registry_wf c -> Z.of_nat (size (files c)) < 2 ^ 64 - 1 ->
  let '(i, c') := register_or_get_file path c in
  registry_wf c' /\ files c' !! path = Some i
  /\ (∀ q j, files c !! q = Some j -> files c' !! q = Some j).
Proof.
  intros (Hn & Hr & Hi) Hs. unfold register_or_get_file.
  destruct (files c !! path) as [i|] eqn:E; [done|]. machine.
  split; [split; [|split]|split]; cbn [files current_file_id].
  - rewrite map_size_insert_None by done. lia.
  - apply map_Forall_insert_2; [lia|]. eapply map_Forall_impl; [exact Hr|]. cbn. lia.
  - intros p q i Hp Hq. apply lookup_insert_Some in Hp, Hq.
    destruct Hp as [[<- <-]|[Np Hp]], Hq as [[<- Eq]|[Nq Hq]]; try done.
    + specialize (Hr _ _ Hq). cbn in Hr. lia.
    + subst i. specialize (Hr _ _ Hp). cbn in Hr. lia.
    + by eapply Hi.
  - apply lookup_insert_eq.
  - intros q j Hq. by rewrite lookup_insert_ne by congruence.
Qed.

Lemma register_all_wf paths c :
  registry_wf c -> Z.of_nat (length paths + size (files c)) < 2 ^ 64 ->
  registry_wf (register_all paths c)
  /\ (size (files (register_all paths c)) <= length paths + size (files c))%nat.
Proof.
  revert c. induction paths as [|path paths IH]; intros c W Hs; [done|].
  cbn [register_all foldl length] in *. fold (register_all paths (register_or_get_file path c).2).
  pose proof (register_size path c) as Hz. pose proof (register_wf path c W ltac:(lia)) as Wc.
  destruct (register_or_get_file path c) as [i c']. cbn [snd] in *. destruct Wc as (W' & _).
  destruct (IH c' W' ltac:(lia)) as [H1 H2]. split; [done|lia].
Qed.

(** ** Properties *)

(** The identifier of a batch packs its file, row group, column and batch
    numbers without loss, every 64-bit number is the identifier of one batch, a
    batch belongs to the column it was addressed through, and two batches never
    share a file name. *)
Theorem parquet_ids_roundtrip :
  (∀ id, id_wf id -> 0 <= usize_of_id id < 2 ^ 64 /\ id_of_usize (usize_of_id id) = id)
  /\ (∀ z, 0 <= z < 2 ^ 64 -> id_wf (id_of_usize z) /\ usize_of_id (id_of_usize z) = z)
  /\ (∀ f rg col b, let p := access_path_new f rg col in
        access_path_of (entry_id p b) = p /\ batch_id (entry_id p b) = b)
  /\ (∀ root a b, on_disk_liquid_path root a = on_disk_liquid_path root b -> a = b).
Proof.
  split; [|split; [|split]].
  - intros id W. split; [by apply parquet_id_range|by apply id_usize_id].
  - intros z Hz. split; [apply id_of_usize_wf|by apply usize_id_usize].
  - intros f rg col b p. split; [|done]. unfold access_path_of, entry_id, id_new, p, access_path_new.
    cbn. unfold wrapu. by rewrite !Zmod_mod.
  - apply liquid_path_inj.
Qed.

(** New files get the next numbers, in order. *)
Lemma register_all_new paths c :
  registry_wf c -> NoDup paths -> (∀ p, p ∈ paths -> files c !! p = None) ->
  Z.of_nat (length paths + size (files c)) < 2 ^ 64 ->
  size (files (register_all paths c)) = (length paths + size (files c))%nat
  /\ (∀ k p, paths !! k = Some p -> files (register_all paths c) !! p = Some (current_file_id c + Z.of_nat k))
  /\ (∀ q, q ∉ paths -> files (register_all paths c) !! q = files c !! q).
Proof.
  revert c. induction paths as [|path paths IH]; intros c W N Hnew Hs; [done|].
  apply NoDup_cons in N as [Nin N]. cbn [register_all foldl length] in *.
  fold (register_all paths (register_or_get_file path c).2).
  pose proof (register_wf path c W ltac:(lia)) as Wc. destruct W as (Hc & _ & _).
  unfold register_or_get_file in *. rewrite (Hnew path) in * by left. cbn [snd] in *. destruct Wc as (W' & _).
  assert (size (<[path := current_file_id c]> (files c)) = S (size (files c))) as Hz
    by (apply map_size_insert_None, Hnew; left).
  destruct (IH _ W' N) as (H1 & H2 & H3); cbn [files current_file_id] in *.
  - intros p Hp. rewrite lookup_insert_ne by (intros ->; done). apply Hnew. by right.
  - lia.
  - split; [lia|]. split.
    + intros [|k] p Hp; cbn in Hp.
      * injection Hp as ->. rewrite H3, lookup_insert_eq by done. f_equal. lia.
      * rewrite (H2 k p Hp), usize_id by lia. f_equal. lia.
    + intros q [Hq Hq']%not_elem_of_cons. rewrite H3 by done. by rewrite lookup_insert_ne.
Qed.

(** C29: up to 65,536 registered files, the batches of two files are never the same
    entry of the cache. The next file to be registered gets the number 65,536, and
    every batch of it is the entry of the same batch of the file registered first,
    so that the two share what is cached. This is what a release build does: in a
    debug build the assertion of [ParquetArrayID::new] panics on that file. *)
Theorem file_entries_separate :
  (∀ paths p q i j rg col b rg' col' b',
     (length paths <= 2 ^ 16)%nat ->
     let c := register_all paths registry_new in
     files c !! p = Some i -> files c !! q = Some j -> p ≠ q -> is_u16 (v b) -> is_u16 (v b') ->
     usize_of_id (entry_id (access_path_new i rg col) b) ≠ usize_of_id (entry_id (access_path_new j rg' col') b'))
  /\ (∀ first paths next,
        NoDup (first :: paths) -> length (first :: paths) = (2 ^ 16)%nat -> next ∉ first :: paths ->
        let '(k, c) := register_or_get_file next (register_all (first :: paths) registry_new) in
        files c !! next = Some k /\ files c !! first = Some 0 /\ k = 2 ^ 16
        /\ ∀ rg col b, usize_of_id (entry_id (access_path_new k rg col) b)
                        = usize_of_id (entry_id (access_path_new 0 rg col) b)).
Proof.
  split.
  - intros paths p q i j rg col b rg' col' b' Hl c Hp Hq Hne Hb Hb' E.
    assert (Z.of_nat (length paths) <= 2 ^ 16) as Hz.
    { apply inj_le in Hl. by rewrite Nat2Z.inj_pow in Hl. }
    destruct (register_all_wf paths registry_new registry_wf_new) as [(Hn & Hr & Hi) Hs];
      [change (size (files registry_new)) with 0%nat; lia|].
    fold c in Hn, Hr, Hi, Hs. change (size (files registry_new)) with 0%nat in Hs.
    pose proof (Hr _ _ Hp) as Hp'. pose proof (Hr _ _ Hq) as Hq'. cbn in Hp', Hq'.
    apply (f_equal id_of_usize) in E. rewrite !id_usize_id in E by (split_and!; (apply wrapu_u16 || done)).
    apply Hne, (Hi _ _ i); [done|]. apply entry_id_inj in E; [by subst| |]; unfold is_u16; lia.
  - intros first paths next N Hl Hnext.
    assert (Z.of_nat (length (first :: paths)) = 2 ^ 16) as Hz by (rewrite Hl, Nat2Z.inj_pow; done).
    set (all := first :: paths) in *.
    destruct (register_all_new all registry_new registry_wf_new N) as (Hs & Hk & Ho).
    { intros p _. apply lookup_empty. }
    { change (size (files registry_new)) with 0%nat. lia. }
    destruct (register_all_wf all registry_new registry_wf_new) as [(Hn & _) _];
      [change (size (files registry_new)) with 0%nat; lia|].
    change (size (files registry_new)) with 0%nat in Hs.
    pose proof (Hk 0%nat first eq_refl) as Hf. cbn in Hf.
    unfold register_or_get_file. rewrite (Ho next Hnext). cbn [files registry_new]. rewrite lookup_empty.
    cbn [files]. rewrite lookup_insert_eq, lookup_insert_ne by (intros <-; apply Hnext; left).
    assert (current_file_id (register_all all registry_new) = 2 ^ 16) as -> by lia. split_and!; done.
Qed.

Lemma file_entries_separate_witness :
  usize_of_id (entry_id (access_path_new 0 1 2) (Batch 3)) ≠ usize_of_id (entry_id (access_path_new 1 1 2) (Batch 3)).
Proof.
  destruct file_entries_separate as [H _].
  apply (H ["a"; "b"] "a" "b").
  - apply Nat2Z.inj_le. rewrite Nat2Z.inj_pow. cbn. lia.
  - vm_compute. reflexivity.
  - vm_compute. reflexivity.
  - discriminate.
  - split; cbn; lia.
  - split; cbn; lia.
Defined.
