(* ===== verification/RowSelection.v ===== *)
(** * Row selections

    Model of [src/src/parquet/src/reader/runtime/utils.rs] and of
    [row_selector_to_boolean_buffer] in [src/src/parquet/src/utils.rs]: runs of
    selected and skipped rows, their offset and limit, and the batches the reader
    cuts them into.  parquet's [RowSelection] is third-party: a class with the
    documented behaviour of its conversions (runs are merged and empty runs
    dropped, the rows stay the same). *)

From stdpp Require Import base list.
From Stdlib Require Import ZArith Lia.
From S2P Require Import Prelude.
Local Open Scope Z_scope.

Record RowSelector : Type := Selector { row_count : Z; skip : bool }.

(** The rows of a list of runs, one boolean each. *)
Definition rows_of (s : RowSelector) : list bool := replicate (Z.to_nat (row_count s)) (negb (skip s)).

Definition rows (l : list RowSelector) : list bool := mjoin (rows_of <$> l).

Class RowSelections : Type := {
  RowSelection : Type;
  rs_from : list RowSelector -> RowSelection;
  rs_selectors : RowSelection -> list RowSelector
}.

(** Row counts are [usize]s and so is their sum: the rows of one row group. *)
Fixpoint total (l : list RowSelector) : Z :=
  match l with [] => 0 | s :: l => row_count s + total l end.

Definition counted (l : list RowSelector) : Prop :=
  Forall (λ s, 0 <= row_count s) l /\ total l < 2 ^ 64.

Class RowSelectionLaws `{RowSelections} : Prop := {
  rs_from_rows l : counted l -> rows (rs_selectors (rs_from l)) = rows l;
  rs_counted s : counted (rs_selectors s)
}.

(** ** Operations *)

Definition row_selector_to_boolean_buffer (selection : list RowSelector) : list bool :=
  foldl (λ buffer selector, buffer ++ replicate (Z.to_nat (row_count selector)) (negb (skip selector)))
    [] selection.

(** The closure given to [position], and what it leaves in [selected_count] and
    [skipped_count]: the selectors after the one that is found. *)
Fixpoint find_split (offset selected_count skipped_count : Z) (selectors : list RowSelector)
    : option (Z * Z * list RowSelector) :=
  match selectors with
  | [] => None
  | selector :: selectors =>
      if skip selector
      then find_split offset selected_count (usize (skipped_count + row_count selector)) selectors
      else
        let selected_count := usize (selected_count + row_count selector) in
        if selected_count >? offset then Some (selected_count, skipped_count, selectors)
        else find_split offset selected_count skipped_count selectors
  end.

Fixpoint limit_selectors (limit : Z) (selectors : list RowSelector) : list RowSelector :=
  match selectors with
  | [] => []
  | selection :: selectors =>
      if skip selection then selection :: limit_selectors limit selectors
      else if row_count selection >=? limit then [Selector limit false]
      else selection :: limit_selectors (usize (limit - row_count selection)) selectors
  end.

Section selections.
Context `{RowSelections}.

Definition offset_row_selection (selection : RowSelection) (offset : Z) : RowSelection :=
  if offset =? 0 then selection
  else
    match find_split offset 0 0 (rs_selectors selection) with
    | None => rs_from []
    | Some (selected_count, skipped_count, rest) =>
        rs_from (Selector (usize (skipped_count + offset)) true
                 :: Selector (usize (selected_count - offset)) false :: rest)
    end.

Definition limit_row_selection (selection : RowSelection) (limit : Z) : RowSelection :=
  if limit =? 0 then rs_from []
  else rs_from (limit_selectors limit (rs_selectors selection)).
End selections.

(** The [while] loop of [take_next_batch]: the runs taken, [current_selected],
    the runs left. *)
Fixpoint take_loop (batch_size current_selected : Z) (selection : list RowSelector)
    : list RowSelector * Z * list RowSelector :=
  match selection with
  | [] => ([], current_selected, [])
  | front :: selection =>
      if usize (row_count front + current_selected) >? batch_size then
        let to_select := usize (batch_size - current_selected) in
        (if to_select >? 0 then [Selector to_select (skip front)] else [],
         usize (current_selected + to_select),
         Selector (usize (row_count front - to_select)) (skip front) :: selection)
      else
        let '(rt, selected, rest) :=
          take_loop batch_size (usize (current_selected + row_count front)) selection in
        (front :: rt, selected, rest)
  end.

Definition take_next_batch (selection : list RowSelector) (batch_size : Z)
    : option (list RowSelector) * list RowSelector :=
  let '(rt, current_selected, rest) := take_loop batch_size 0 selection in
  (if current_selected =? 0 then None else Some rt, rest).

(** What [poll_next] of the reader does with the queue: batch after batch, until
    there is none. *)
Fixpoint all_batches (fuel : nat) (batch_size : Z) (selection : list RowSelector)
    : outcome (list (list bool)) :=
  match fuel with
  | O => NoFuel
  | S fuel =>
      match take_next_batch selection batch_size with
      | (None, _) => Ret []
      | (Some batch, selection) =>
          batches ← all_batches fuel batch_size selection;
          Ret (row_selector_to_boolean_buffer batch :: batches)
      end
  end.

(** ** Specifications on rows *)

(** The first [n] selected rows are deselected. *)
Fixpoint deselect (n : nat) (l : list bool) : list bool :=
  match n, l with
  | S n, true :: l => false :: deselect n l
  | S n, false :: l => false :: deselect (S n) l
  | _, _ => l
  end.

(** The rows up to the [n]-th selected one. *)
Fixpoint keep_selected (n : nat) (l : list bool) : list bool :=
  match n, l with
  | O, _ | _, [] => []
  | S n, true :: l => true :: keep_selected n l
  | S n, false :: l => false :: keep_selected (S n) l
  end.

Definition selected (l : list bool) : nat := length (filter (λ b, b = true) l).

(** ** Lemmas *)

Lemma rows_cons s l : rows (s :: l) = rows_of s ++ rows l.
Proof. done. Qed.

Lemma counted_cons s l : counted (s :: l) -> 0 <= row_count s /\ counted l /\ row_count s + total l < 2 ^ 64.
Proof.
  intros [F Ht]. apply Forall_cons in F as [Hs F]. cbn in Ht.
  split; [done|]. split; [|done]. split; [done|lia].
Qed.

Lemma total_nonneg l : Forall (λ s, 0 <= row_count s) l -> 0 <= total l.
Proof. induction 1; cbn; lia. Qed.

Lemma rows_length l : Forall (λ s, 0 <= row_count s) l -> Z.of_nat (length (rows l)) = total l.
Proof.
  induction 1 as [|s l Hs F IH]; [done|]. rewrite rows_cons, length_app. unfold rows_of.
  rewrite length_replicate. cbn [total]. lia.
Qed.

Lemma boolean_buffer_rows l : row_selector_to_boolean_buffer l = rows l.
Proof.
  unfold row_selector_to_boolean_buffer. change (rows l) with ([] ++ rows l). generalize (@nil bool).
  induction l as [|s l IH]; intros acc; cbn [foldl]; [by rewrite app_nil_r|].
  by rewrite IH, rows_cons, app_assoc.
Qed.

Lemma selected_app a b : selected (a ++ b) = (selected a + selected b)%nat.
Proof. unfold selected. by rewrite filter_app, length_app. Qed.

Lemma selected_replicate n b : selected (replicate n b) = if b then n else 0%nat.
Proof.
  unfold selected. induction n as [|n IH]; [by destruct b|]. cbn [replicate]. destruct b.
  - rewrite filter_cons_True by done. cbn [length]. by rewrite IH.
  - by rewrite filter_cons_False by done.
Qed.

Lemma deselect_0 l : deselect 0 l = l.
Proof. by destruct l. Qed.

Lemma deselect_skipped n k l : deselect n (replicate k false ++ l) = replicate k false ++ deselect n l.
Proof. induction k as [|k IH]; [done|]. cbn. destruct n; [by rewrite deselect_0|]. by rewrite IH. Qed.

Lemma deselect_all n k l :
  (k <= n)%nat -> deselect n (replicate k true ++ l) = replicate k false ++ deselect (n - k) l.
Proof.
  revert n. induction k as [|k IH]; intros n Hk; cbn; [by rewrite Nat.sub_0_r|].
  destruct n as [|n]; [lia|]. cbn. by rewrite IH by lia.
Qed.

Lemma deselect_some n k l :
  (n <= k)%nat -> deselect n (replicate k true ++ l) = replicate n false ++ replicate (k - n) true ++ l.
Proof.
  revert k. induction n as [|n IH]; intros k Hk; cbn; [by rewrite deselect_0, Nat.sub_0_r|].
  destruct k as [|k]; [lia|]. cbn. by rewrite IH by lia.
Qed.

Lemma keep_skipped n k l :
  n ≠ O -> keep_selected n (replicate k false ++ l) = replicate k false ++ keep_selected n l.
Proof. intros Hn. induction k as [|k IH]; [done|]. destruct n; [done|]. cbn. by rewrite IH. Qed.

Lemma keep_all n k l :
  (k < n)%nat -> keep_selected n (replicate k true ++ l) = replicate k true ++ keep_selected (n - k) l.
Proof.
  revert n. induction k as [|k IH]; intros n Hk; cbn; [by rewrite Nat.sub_0_r|].
  destruct n as [|n]; [lia|]. cbn. by rewrite IH by lia.
Qed.

Lemma keep_some n k l : (n <= k)%nat -> keep_selected n (replicate k true ++ l) = replicate n true.
Proof.
  revert k. induction n as [|n IH]; intros k Hk; [by destruct (replicate k true ++ l)|].
  destruct k as [|k]; [lia|]. cbn. by rewrite IH by lia.
Qed.

Lemma find_split_ok offset sel skp l :
  counted l -> 0 <= sel <= offset -> 0 <= skp -> sel + skp + total l < 2 ^ 64 ->
  match find_split offset sel skp l with
  | None => (selected (rows l) <= Z.to_nat (offset - sel))%nat
  | Some (sel', skp', rest) =>
      deselect (Z.to_nat (offset - sel)) (rows l)
      = replicate (Z.to_nat (skp' - skp + (offset - sel))) false
        ++ replicate (Z.to_nat (sel' - offset)) true ++ rows rest
      /\ offset < sel' /\ skp <= skp' /\ sel' + skp' + total rest < 2 ^ 64 /\ counted rest
  end.
Proof.
  revert sel skp. induction l as [|[n sk] l IH]; intros sel skp C Hs Hk Ht; [cbn; lia|].
  apply counted_cons in C as (Hn & C & Hl). pose proof (total_nonneg l (proj1 C)) as Hl0.
  cbn [find_split skip row_count total] in *. rewrite rows_cons. unfold rows_of. cbn [row_count skip negb].
  destruct sk; cbn [negb].
  - machine. specialize (IH sel (skp + n) C ltac:(lia) ltac:(lia) ltac:(lia)).
    destruct (find_split offset sel (skp + n) l) as [[[sel' skp'] rest]|].
    + destruct IH as (E & H1 & H2 & H3). rewrite deselect_skipped, E. split; [|split_and!; lia || tauto].
      rewrite app_assoc, <- replicate_add. do 2 f_equal. lia.
    + rewrite selected_app, selected_replicate. lia.
  - machine. destruct (sel + n >? offset) eqn:G.
    + rewrite deselect_some by lia. split; [|split_and!; lia || done]. f_equal; [f_equal; lia|]. do 2 f_equal. lia.
    + specialize (IH (sel + n) skp C ltac:(lia) ltac:(lia) ltac:(lia)).
      destruct (find_split offset (sel + n) skp l) as [[[sel' skp'] rest]|].
      * destruct IH as (E & H1 & H2 & H3). rewrite deselect_all by lia.
        replace (Z.to_nat (offset - sel) - Z.to_nat n)%nat with (Z.to_nat (offset - (sel + n))) by lia.
        rewrite E. split; [|split_and!; lia || tauto]. rewrite app_assoc, <- replicate_add. do 2 f_equal. lia.
      * rewrite selected_app, selected_replicate. lia.
Qed.

Lemma limit_selectors_ok limit l :
  counted l -> 0 < limit < 2 ^ 64 ->
  rows (limit_selectors limit l) = keep_selected (Z.to_nat limit) (rows l).
Proof.
  revert limit. induction l as [|[n sk] l IH]; intros limit C Hl; [by destruct (Z.to_nat limit)|].
  apply counted_cons in C as (Hn & C & _). cbn [limit_selectors skip row_count] in *.
  rewrite rows_cons. unfold rows_of. cbn [row_count skip].
  destruct sk; cbn [negb].
  - rewrite rows_cons. unfold rows_of. cbn [row_count skip negb].
    rewrite keep_skipped by lia. by rewrite IH.
  - destruct (n >=? limit) eqn:G.
    + rewrite keep_some by lia. unfold rows, rows_of. cbn. by rewrite app_nil_r.
    + rewrite rows_cons. unfold rows_of. cbn [row_count skip negb]. machine.
      rewrite keep_all, IH by (done || lia). do 2 f_equal. lia.
Qed.

Lemma selected_deselect n l : selected (deselect n l) = (selected l - n)%nat.
Proof.
  revert n. induction l as [|b l IH]; intros [|n]; cbn [deselect]; try (cbn; lia).
  destruct b; unfold selected in *.
  - rewrite filter_cons_False by done. rewrite filter_cons_True by done. rewrite IH. cbn. lia.
  - rewrite !filter_cons_False by done. by rewrite IH.
Qed.

Lemma selected_keep n l : selected (keep_selected n l) = (n `min` selected l)%nat.
Proof.
  revert n. induction l as [|b l IH]; intros [|n]; cbn [keep_selected]; try done.
  destruct b; unfold selected in *.
  - rewrite !filter_cons_True by done. cbn [length]. rewrite IH. lia.
  - rewrite !filter_cons_False by done. by rewrite IH.
Qed.

Lemma limit_counted limit l :
  counted l -> 0 < limit < 2 ^ 64 ->
  Forall (λ s, 0 <= row_count s) (limit_selectors limit l) /\ total (limit_selectors limit l) <= total l.
Proof.
  revert limit. induction l as [|[n sk] l IH]; intros limit C Hl; [done|].
  apply counted_cons in C as (Hn & C & _). pose proof (total_nonneg l (proj1 C)).
  cbn [limit_selectors skip row_count total] in *.
  destruct sk; [|destruct (n >=? limit) eqn:G].
  - destruct (IH limit C Hl) as [F Ht]. split; [by constructor|]. cbn. lia.
  - split; [constructor; [cbn; lia|done]|]. cbn. lia.
  - machine. destruct (IH (limit - n) C ltac:(lia)) as [F Ht]. split; [by constructor|]. cbn. lia.
Qed.

(** A batch takes the next rows, whatever runs they come in. *)
Lemma take_loop_ok bs cur l :
  counted l -> 0 <= cur <= bs -> bs + total l < 2 ^ 64 ->
  let '(rt, selected, rest) := take_loop bs cur l in
  rows rt = take (Z.to_nat (bs - cur)) (rows l) /\ rows rest = drop (Z.to_nat (bs - cur)) (rows l)
  /\ selected = cur + Z.of_nat (length (rows rt)) /\ counted rest /\ total rest <= total l.
Proof.
  revert cur. induction l as [|[n sk] l IH]; intros cur C Hc Hb.
  { cbn. rewrite take_nil, drop_nil. split; [done|]. split; [done|]. split; [lia|]. split; [done|lia]. }
  pose proof C as C0. apply counted_cons in C as (Hn & C & Hl).
  pose proof (total_nonneg l (proj1 C)) as Hl0. cbn [row_count total] in *.
  cbn [take_loop row_count skip]. rewrite rows_cons. unfold rows_of. cbn [row_count skip].
  machine. destruct (n + cur >? bs) eqn:G.
  - machine.
    assert (rows (if bs - cur >? 0 then [Selector (bs - cur) sk] else [])
            = replicate (Z.to_nat (bs - cur)) (negb sk)) as ->.
    { destruct (bs - cur >? 0) eqn:G0; cbn; [by rewrite app_nil_r|].
      assert (bs - cur = 0) as -> by lia. done. }
    rewrite take_app_le, drop_app_le by (rewrite length_replicate; lia).
    rewrite take_replicate, drop_replicate, length_replicate.
    split; [f_equal; lia|]. split; [rewrite rows_cons; unfold rows_of; cbn; do 2 f_equal; lia|].
    split; [lia|]. split; [|cbn; lia]. split; [|cbn; lia].
    constructor; [cbn; lia|exact (proj1 C)].
  - rewrite usize_id by lia. specialize (IH (cur + n) C ltac:(lia) ltac:(lia)).
    destruct (take_loop bs (cur + n) l) as [[rt sel] rest]. destruct IH as (H1 & H2 & H3 & H4 & H5).
    rewrite rows_cons. unfold rows_of. cbn [row_count skip].
    rewrite take_app_ge, drop_app_ge by (rewrite length_replicate; lia).
    rewrite H1, H2, length_replicate.
    assert (Z.to_nat (bs - cur) - Z.to_nat n = Z.to_nat (bs - (cur + n)))%nat as -> by lia.
    split; [done|]. split; [done|]. rewrite H1 in H3.
    split; [rewrite length_app, length_replicate; lia|]. split; [done|lia].
Qed.

Lemma take_next_batch_ok bs l :
  counted l -> 0 < bs -> bs + total l < 2 ^ 64 ->
  let '(r, rest) := take_next_batch l bs in
  counted rest /\ total rest <= total l
  /\ match r with
     | None => rows l = []
     | Some rt => rows rt = take (Z.to_nat bs) (rows l) /\ rows rt ≠ []
                  /\ rows rest = drop (Z.to_nat bs) (rows l)
     end.
Proof.
  intros C Hb Ht. unfold take_next_batch. pose proof (take_loop_ok bs 0 l C ltac:(lia) Ht) as H.
  destruct (take_loop bs 0 l) as [[rt sel] rest]. destruct H as (H1 & H2 & H3 & H4 & H5).
  rewrite Z.sub_0_r in *. split; [done|]. split; [done|]. destruct (sel =? 0) eqn:E.
  - rewrite H1, length_take in H3. apply length_zero_iff_nil. lia.
  - split; [done|]. split; [|done]. intros En. rewrite En in H3. cbn in H3. lia.
Qed.

(** The rows cut into pieces of [n]. *)
Lemma all_batches_ok fuel bs l :
  counted l -> 0 < bs -> bs + total l < 2 ^ 64 -> (length (rows l) < fuel)%nat ->
  ∃ bss, all_batches fuel bs l = Ret bss /\ mjoin bss = rows l
    /\ ∀ k b, bss !! k = Some b ->
        b = take (Z.to_nat bs) (drop (k * Z.to_nat bs) (rows l)) /\ b ≠ [].
Proof.
  revert l. induction fuel as [|fuel IH]; intros l C Hb Ht Hf; [lia|]. cbn [all_batches].
  pose proof (take_next_batch_ok bs l C Hb Ht) as H.
  destruct (take_next_batch l bs) as [[rt|] rest]; destruct H as (Cr & Hr & H).
  2: { exists []. split; [done|]. split; [by rewrite H|]. by intros k b Hk. }
  destruct H as (E1 & Hne & E2). destruct (IH rest Cr Hb ltac:(lia)) as (bss & -> & Ej & Hk).
  { rewrite E2, length_drop. rewrite E1 in Hne. destruct (rows l); [by rewrite take_nil in Hne|].
    cbn [length] in *. lia. }
  run_step. rewrite boolean_buffer_rows. eexists. split; [done|]. split.
  - change (rows rt ++ mjoin bss = rows l). by rewrite Ej, E1, E2, take_drop.
  - intros [|k] b; cbn; [intros [= <-]; split; [by rewrite drop_0|done]|]. intros Hkb. destruct (Hk k b Hkb) as [-> Hbn].
    split; [|done]. by rewrite E2, drop_drop.
Qed.

Lemma offset_rows `{RowSelectionLaws} (s : RowSelection) n :
  0 <= n < 2 ^ 63 -> total (rs_selectors s) < 2 ^ 63 ->
  let l := rows (rs_selectors s) in
  rows (rs_selectors (offset_row_selection s n))
  = if decide (n ≠ 0 /\ (selected l <= Z.to_nat n)%nat) then [] else deselect (Z.to_nat n) l.
Proof.
  intros Hn Ht l. pose proof (rs_counted s) as C. unfold offset_row_selection.
  destruct (n =? 0) eqn:E0.
  { assert (n = 0) as -> by lia. rewrite decide_False by tauto. by rewrite deselect_0. }
  pose proof (total_nonneg _ (proj1 C)).
  pose proof (find_split_ok n 0 0 _ C ltac:(lia) ltac:(lia) ltac:(lia)) as Hf. fold l in Hf.
  rewrite !Z.sub_0_r in Hf.
  destruct (find_split n 0 0 (rs_selectors s)) as [[[sel skp] rest]|].
  - destruct Hf as (E & Hs1 & Hs2 & Hs3 & Cr). pose proof (total_nonneg _ (proj1 Cr)).
    rewrite decide_False.
    2: { intros [_ Hs]. apply (f_equal selected) in E. rewrite selected_deselect in E.
         rewrite !selected_app, !selected_replicate in E. lia. }
    machine. rewrite rs_from_rows.
    + rewrite !rows_cons. unfold rows_of. cbn [row_count skip negb]. rewrite E. do 2 f_equal. lia.
    + split; [|cbn; lia]. constructor; [cbn; lia|]. constructor; [cbn; lia|]. exact (proj1 Cr).
  - rewrite decide_True by (split; [lia|done]). by rewrite rs_from_rows by (split; [constructor|done]).
Qed.

Lemma limit_rows `{RowSelectionLaws} (s : RowSelection) n :
  0 <= n < 2 ^ 64 ->
  rows (rs_selectors (limit_row_selection s n)) = keep_selected (Z.to_nat n) (rows (rs_selectors s)).
Proof.
  intros Hn. pose proof (rs_counted s) as C. unfold limit_row_selection.
  destruct (n =? 0) eqn:E0.
  { assert (n = 0) as -> by lia. rewrite rs_from_rows by (split; [constructor|done]).
    by destruct (rows (rs_selectors s)). }
  destruct (limit_counted n _ C ltac:(lia)) as [F Ht]. destruct C as [F0 Ht0].
  rewrite rs_from_rows by (split; [done|lia]). by apply limit_selectors_ok; [|lia].
Qed.

(** ** An instance of the conversions *)

Fixpoint merge_runs (l : list RowSelector) : list RowSelector :=
  match l with
  | [] => []
  | s :: l =>
      if row_count s =? 0 then merge_runs l
      else
        match merge_runs l with
        | t :: r => if eqb (skip s) (skip t) then Selector (row_count s + row_count t) (skip s) :: r
                    else s :: t :: r
        | [] => [s]
        end
  end.

Lemma merge_runs_ok l :
  Forall (λ s, 0 <= row_count s) l ->
  Forall (λ s, 0 <= row_count s) (merge_runs l) /\ total (merge_runs l) = total l
  /\ rows (merge_runs l) = rows l.
Proof.
  induction 1 as [|[n sk] l Hn F IH]; [done|]. cbn [merge_runs row_count skip total] in *.
  destruct IH as (F' & Et & Er). rewrite rows_cons, <- Er, <- Et. clear Er Et.
  destruct (n =? 0) eqn:E0.
  { assert (n = 0) as -> by lia. split; [done|]. split; [lia|done]. }
  destruct (merge_runs l) as [|[m sk'] r].
  { split; [by constructor|]. done. }
  apply Forall_cons in F' as [Hm F']. cbn [row_count skip] in *. destruct (eqb sk sk') eqn:Es.
  - apply eqb_prop in Es as <-. split; [constructor; [cbn; lia|done]|]. split; [cbn; lia|].
    rewrite !rows_cons. unfold rows_of. cbn. rewrite app_assoc, <- replicate_add. do 2 f_equal. lia.
  - split; [by repeat constructor|]. done.
Qed.

#[export] Instance counted_dec l : Decision (counted l).
Proof. unfold counted. apply _. Defined.

Definition counted_selection : Type := { l : list RowSelector | counted l }.

Definition empty_selection : counted_selection := exist _ [] (conj (Forall_nil_2 _) eq_refl).

Lemma merge_counted l : counted l -> counted (merge_runs l).
Proof. intros [F Ht]. destruct (merge_runs_ok l F) as (F' & Et & _). split; [done|lia]. Qed.

#[export] Instance run_selections : RowSelections := {
  RowSelection := counted_selection;
  rs_from l := match decide (counted l) with
               | left C => exist _ (merge_runs l) (merge_counted l C)
               | right _ => empty_selection
               end;
  rs_selectors s := proj1_sig s
}.

#[export] Instance run_selection_laws : RowSelectionLaws.
Proof.
  split.
  - intros l C. cbn. case_decide as C'; [|done]. cbn. by destruct (merge_runs_ok l (proj1 C)) as (_ & _ & ?).
  - intros [l C]. exact C.
Qed.

(** ** Properties *)

(** [offset] deselects the first selected rows and leaves the others (the
    selection is empty when there are no more); [limit] keeps the rows up to the
    limit-th selected one; so they select what SQL's OFFSET and LIMIT keep. *)
Theorem offset_limit_rows `{RowSelectionLaws} (s : RowSelection) n :
  0 <= n < 2 ^ 63 -> total (rs_selectors s) < 2 ^ 63 ->
  let l := rows (rs_selectors s) in
  let l_off := rows (rs_selectors (offset_row_selection s n)) in
  let l_lim := rows (rs_selectors (limit_row_selection s n)) in
  l_off = (if decide (n ≠ 0 /\ (selected l <= Z.to_nat n)%nat) then [] else deselect (Z.to_nat n) l)
  /\ l_lim = keep_selected (Z.to_nat n) l
  /\ selected l_off = (selected l - Z.to_nat n)%nat
  /\ selected l_lim = (Z.to_nat n `min` selected l)%nat.
Proof.
  intros Hn Ht l l_off l_lim. pose proof (rs_counted s) as C.
  assert (l_off = (if decide (n ≠ 0 /\ (selected l <= Z.to_nat n)%nat) then []
                   else deselect (Z.to_nat n) l)) as Eo by (by apply offset_rows).
  assert (l_lim = keep_selected (Z.to_nat n) l) as El by (apply limit_rows; lia).
  split; [done|]. split; [done|]. rewrite Eo, El, selected_keep. split; [|done].
  case_decide; [cbn; lia|]. apply selected_deselect.
Qed.

(** The reader's batches partition the rows of the selection in order, the
    [k]-th one being exactly the rows from [k * batch_size] on, whatever the runs
    of the selection are: so the [k]-th batch reads the [k]-th entry of each
    column; the loop ends when the rows do. *)
Theorem batches_are_aligned fuel bs l :
  counted l -> 0 < bs -> bs + total l < 2 ^ 64 -> (length (rows l) < fuel)%nat ->
  ∃ bss, all_batches fuel bs l = Ret bss /\ mjoin bss = rows l
    /\ sum_list (selected <$> bss) = selected (rows l)
    /\ ∀ k b, bss !! k = Some b ->
        b = take (Z.to_nat bs) (drop (k * Z.to_nat bs) (rows l))
        /\ Z.of_nat (length b) = Z.min bs (total l - Z.of_nat k * bs) /\ b ≠ [].
Proof.
  intros C Hb Ht Hf. destruct (all_batches_ok fuel bs l C Hb Ht Hf) as (bss & E & Ej & Hk).
  exists bss. split; [done|]. split; [done|]. split.
  - rewrite <- Ej. clear. induction bss as [|b bss IH]; [done|].
    change (mjoin (b :: bss)) with (b ++ mjoin bss). rewrite selected_app, <- IH. reflexivity.
  - intros k b Hkb. destruct (Hk k b Hkb) as [Eb Hne]. split; [done|].
    assert (0 < length b)%nat by (destruct b; [done|cbn; lia]).
    pose proof (rows_length l (proj1 C)). split; [|done].
    subst b. rewrite length_take, length_drop in *. lia.
Qed.

Lemma batches_are_aligned_witness :
  ∃ bss, all_batches 20 4 [Selector 3 true; Selector 5 false; Selector 1 true] = Ret bss
         /\ mjoin bss = replicate 3 false ++ replicate 5 true ++ [false].
Proof.
  destruct (batches_are_aligned 20 4 [Selector 3 true; Selector 5 false; Selector 1 true])
    as (bss & E & Ej & _).
  - split; [repeat constructor; cbn; lia|reflexivity].
  - lia.
  - reflexivity.
  - vm_compute. lia.
  - by exists bss.
Defined.

Lemma offset_limit_rows_witness :
  rows (rs_selectors (limit_row_selection (rs_from [Selector 2 false; Selector 1 true; Selector 3 false]) 3))
  = [true; true; false; true].
Proof.
  destruct (offset_limit_rows (rs_from [Selector 2 false; Selector 1 true; Selector 3 false]) 3)
    as (_ & E & _).
  - lia.
  - vm_compute. reflexivity.
  - rewrite E. vm_compute. reflexivity.
Defined.
