(* ===== verification/BooleanBuffers.v ===== *)
(** * Boolean buffers

    arrow's [BooleanBuffer], bits packed in bytes, as a class of accessors with
    the laws its documentation states, an instance, and the lemmas that relate
    the bits of a buffer to the number its bytes make. *)

From stdpp Require Import base list.
From Stdlib Require Import ZArith Lia.
From S2P Require Import Prelude Bytes Arrow.
Local Open Scope Z_scope.

(** [bb_values] are the bytes of the whole buffer; the bits of the boolean buffer
    are [bb_len] bits from the bit [bb_offset] on.  [bb_finish] is
    [BooleanBufferBuilder::finish]. *)
Class BooleanBuffers : Type := {
  BooleanBuffer : Type;
  bb_values : BooleanBuffer -> list Z;
  bb_offset : BooleanBuffer -> nat;
  bb_len : BooleanBuffer -> nat;
  bb_new : list Z -> nat -> nat -> BooleanBuffer;
  bb_finish : list bool -> BooleanBuffer
}.

Definition bits_of (bytes : list Z) : list bool := concat (byte_bits 8 <$> bytes).

(** The logical bits. *)
Definition bb_bits `{BooleanBuffers} (b : BooleanBuffer) : list bool :=
  take (bb_len b) (drop (bb_offset b) (bits_of (bb_values b))).

Class BooleanBufferLaws `{BooleanBuffers} : Prop := {
  bb_values_bytes b : Forall is_byte (bb_values b);
  bb_len_bits b : (bb_offset b + bb_len b <= 8 * length (bb_values b))%nat;
  bb_new_spec bytes offset len :
    Forall is_byte bytes -> (offset + len <= 8 * length bytes)%nat ->
    let b := bb_new bytes offset len in
    bb_values b = bytes /\ bb_offset b = offset /\ bb_len b = len;
  bb_finish_spec bits :
    let b := bb_finish bits in
    bb_bits b = bits /\ bb_offset b = 0%nat /\ bb_len b = length bits
}.

(** [count_set_bits] and [set_indices]. *)
Definition count_set (l : list bool) : nat := length (filter (λ b, b = true) l).

(** ** Lemmas on bits *)

Lemma length_byte_bits n z : length (byte_bits n z) = n.
Proof. revert z. induction n as [|n IH]; intros z; [done|]. cbn [byte_bits length]. by rewrite IH. Qed.

Lemma byte_bits_lookup n z i : (i < n)%nat -> byte_bits n z !! i = Some (Z.testbit z (Z.of_nat i)).
Proof.
  revert z i. induction n as [|n IH]; intros z [|i] Hi; [lia..| |]; cbn [byte_bits lookup list_lookup].
  - f_equal. change (Z.of_nat 0) with 0. rewrite <- Z.bit0_mod. by destruct (Z.testbit z 0).
  - rewrite IH by lia. f_equal. rewrite Z.div2_bits by lia. f_equal. lia.
Qed.

Lemma byte_bits_ext n a b :
  (∀ i, 0 <= i < Z.of_nat n -> Z.testbit a i = Z.testbit b i) -> byte_bits n a = byte_bits n b.
Proof.
  intros Hi. apply list_eq. intros i. destruct (decide (i < n)%nat).
  - rewrite !byte_bits_lookup by done. f_equal. apply Hi. lia.
  - by rewrite !lookup_ge_None_2 by (rewrite length_byte_bits; lia).
Qed.

Lemma byte_bits_app a b z : byte_bits (a + b) z = byte_bits a z ++ byte_bits b (z / 2 ^ Z.of_nat a).
Proof.
  apply list_eq. intros i. destruct (decide (i < a)%nat) as [Ha|Ha].
  - rewrite lookup_app_l by (rewrite length_byte_bits; lia). by rewrite !byte_bits_lookup by lia.
  - rewrite lookup_app_r, length_byte_bits by (rewrite length_byte_bits; lia).
    destruct (decide (i < a + b)%nat) as [Hb|Hb].
    + rewrite !byte_bits_lookup by lia. rewrite <- Z.shiftr_div_pow2, Z.shiftr_spec by lia.
      do 2 f_equal. lia.
    + by rewrite !lookup_ge_None_2 by (rewrite length_byte_bits; lia).
Qed.

Lemma byte_bits_take k n z : (k <= n)%nat -> take k (byte_bits n z) = byte_bits k z.
Proof.
  intros Hk. replace n with (k + (n - k))%nat by lia. rewrite byte_bits_app.
  apply take_app_length'. by rewrite length_byte_bits.
Qed.

Lemma byte_bits_drop k n z : (k <= n)%nat -> drop k (byte_bits n z) = byte_bits (n - k) (z / 2 ^ Z.of_nat k).
Proof.
  intros Hk. replace n with (k + (n - k))%nat at 1 by lia. rewrite byte_bits_app.
  apply drop_app_length'. by rewrite length_byte_bits.
Qed.

Lemma byte_bits_mod n m z : (n <= m)%nat -> byte_bits n (z mod 2 ^ Z.of_nat m) = byte_bits n z.
Proof. intros Hn. apply byte_bits_ext. intros i Hi. by rewrite Z.mod_pow2_bits_low by lia. Qed.

Lemma byte_bits_0 n : byte_bits n 0 = replicate n false.
Proof. induction n as [|n IH]; [done|]. cbn [byte_bits replicate]. rewrite <- IH. done. Qed.

(** The bits of a buffer are those of the number it is the little-endian form of. *)
Lemma bits_of_val bytes :
  Forall is_byte bytes -> bits_of bytes = byte_bits (8 * length bytes) (le_val bytes).
Proof.
  induction 1 as [|b bytes Hb F IH]; [done|]. unfold bits_of in *. cbn [fmap list_fmap concat length le_val].
  rewrite IH. replace (8 * S (length bytes))%nat with (8 + 8 * length bytes)%nat by lia.
  rewrite byte_bits_app. unfold is_byte in Hb. change (2 ^ Z.of_nat 8) with 256. f_equal.
  - rewrite <- (byte_bits_mod 8 8 (b + 256 * le_val bytes)) by lia. change (2 ^ Z.of_nat 8) with 256.
    rewrite (Z.mul_comm 256), Z_mod_plus_full, Z.mod_small by lia. done.
  - f_equal. rewrite (Z.mul_comm 256), Z.div_add by lia. rewrite Z.div_small by lia. lia.
Qed.

Lemma bits_of_app a b : bits_of (a ++ b) = bits_of a ++ bits_of b.
Proof. unfold bits_of. by rewrite fmap_app, concat_app. Qed.

Lemma length_bits_of bytes : length (bits_of bytes) = (8 * length bytes)%nat.
Proof.
  induction bytes as [|b bytes IH]; [done|]. change (b :: bytes) with ([b] ++ bytes).
  rewrite bits_of_app, length_app, IH. cbn [length app]. unfold bits_of.
  cbn [fmap list_fmap concat]. rewrite length_app, length_byte_bits. cbn [length]. lia.
Qed.

Lemma bits_of_le_bytes n z : bits_of (le_bytes n z) = byte_bits (8 * n) z.
Proof.
  rewrite bits_of_val by apply le_bytes_byte. rewrite length_le_bytes, le_val_bytes.
  replace (8 * Z.of_nat n) with (Z.of_nat (8 * n)) by lia. by apply byte_bits_mod.
Qed.

Lemma bits_of_take n bytes : bits_of (take n bytes) = take (8 * n) (bits_of bytes).
Proof.
  destruct (decide (n <= length bytes)%nat) as [Hn|Hn].
  - rewrite <- (take_drop n bytes) at 2. rewrite bits_of_app, take_app_length'; [done|].
    rewrite length_bits_of, length_take. lia.
  - rewrite !take_ge; [done| |lia]. rewrite length_bits_of. lia.
Qed.

Lemma bits_of_drop n bytes : bits_of (drop n bytes) = drop (8 * n) (bits_of bytes).
Proof.
  destruct (decide (n <= length bytes)%nat) as [Hn|Hn].
  - rewrite <- (take_drop n bytes) at 2. rewrite bits_of_app, drop_app_length'; [done|].
    rewrite length_bits_of, length_take. lia.
  - rewrite !drop_ge; [done| |lia]. rewrite length_bits_of. lia.
Qed.

Lemma bits_of_zeros n : bits_of (replicate n 0) = replicate (8 * n) false.
Proof.
  induction n as [|n IH]; [done|]. change (replicate (S n) 0) with ([0] ++ replicate n 0).
  rewrite bits_of_app, IH. replace (8 * S n)%nat with (8 + 8 * n)%nat by lia. by rewrite replicate_add.
Qed.


(** ** Lemmas on loads *)

Lemma le_val_app a b : le_val (a ++ b) = le_val a + 2 ^ (8 * Z.of_nat (length a)) * le_val b.
Proof.
  induction a as [|x a IH]; [cbn; lia|]. cbn [app le_val length]. rewrite IH.
  replace (8 * Z.of_nat (S (length a))) with (8 + 8 * Z.of_nat (length a)) by lia.
  rewrite Z.pow_add_r by lia. change (2 ^ 8) with 256. lia.
Qed.

Lemma le_val_zeros n : le_val (replicate n 0) = 0.
Proof. induction n as [|n IH]; [done|]. cbn [replicate le_val]. lia. Qed.

Lemma le_val_split n bytes :
  Forall is_byte bytes -> (n <= length bytes)%nat ->
  le_val (take n bytes) = le_val bytes mod 2 ^ (8 * Z.of_nat n)
  /\ le_val (drop n bytes) = le_val bytes / 2 ^ (8 * Z.of_nat n).
Proof.
  intros F Hn. pose proof (le_val_app (take n bytes) (drop n bytes)) as E. rewrite take_drop in E.
  pose proof (le_val_bound (take n bytes) ltac:(by apply Forall_take)) as Hb.
  rewrite length_take, Nat.min_l in * by lia. rewrite E, (Z.mul_comm (2 ^ _)).
  rewrite Z_mod_plus_full, Z.div_add by lia. rewrite Z.mod_small, Z.div_small by lia. lia.
Qed.

(** [r] holds the 64 bits of [V] from the bit [i] on. *)
Definition window (r V i : Z) : Prop :=
  0 <= r < 2 ^ 64 /\ ∀ j, 0 <= j < 64 -> Z.testbit r j = Z.testbit V (i + j).

Lemma window_mod V i : 0 <= i -> window (V / 2 ^ i mod 2 ^ 64) V i.
Proof.
  intros Hi. split; [apply Z.mod_pos_bound; lia|]. intros j Hj.
  rewrite Z.mod_pow2_bits_low by lia. rewrite <- Z.shiftr_div_pow2, Z.shiftr_spec by lia.
  f_equal. lia.
Qed.

(** ** Counting set bits *)

Lemma count_set_cons b l : count_set (b :: l) = ((if b then 1 else 0) + count_set l)%nat.
Proof. unfold count_set. by destruct b; [rewrite filter_cons_True|rewrite filter_cons_False]. Qed.

Lemma count_set_app a b : count_set (a ++ b) = (count_set a + count_set b)%nat.
Proof. unfold count_set. by rewrite filter_app, length_app. Qed.

Lemma count_set_le l : (count_set l <= length l)%nat.
Proof. apply length_filter. Qed.

Lemma count_set_none n : count_set (replicate n false) = 0%nat.
Proof. induction n as [|n IH]; [done|]. cbn [replicate]. by rewrite count_set_cons, IH. Qed.


Lemma bb_bits_length `{BooleanBufferLaws} b : length (bb_bits b) = bb_len b.
Proof.
  unfold bb_bits. rewrite length_take, length_drop, length_bits_of. pose proof (bb_len_bits b). lia.
Qed.


(** ** An instance of the buffers *)

Lemma bits_val_range bs : 0 <= bits_val bs < 2 ^ Z.of_nat (length bs).
Proof.
  induction bs as [|b bs IH]; [done|]. cbn [bits_val length].
  rewrite Nat2Z.inj_succ, Z.pow_succ_r by lia. destruct b; lia.
Qed.

Lemma pack_bits_bytes fuel bs : Forall is_byte (pack_bits fuel bs).
Proof.
  revert bs. induction fuel as [|fuel IH]; intros [|b bs]; try constructor; [|apply IH].
  pose proof (bits_val_range (take 8 (b :: bs))) as Hr. unfold is_byte. split; [lia|].
  eapply Z.lt_le_trans; [apply Hr|]. change 256 with (2 ^ 8). apply Z.pow_le_mono_r; [lia|].
  rewrite length_take. lia.
Qed.

Definition buffer_parts : Type := list Z * nat * nat.

Definition buffer_ok (p : buffer_parts) : Prop :=
  Forall is_byte p.1.1 /\ (p.1.2 + p.2 <= 8 * length p.1.1)%nat.

#[export] Instance is_byte_dec z : Decision (is_byte z).
Proof. unfold is_byte. apply _. Defined.

#[export] Instance buffer_ok_dec p : Decision (buffer_ok p).
Proof. unfold buffer_ok. apply _. Defined.

Definition mk_buffer (p : buffer_parts) : { p : buffer_parts | buffer_ok p } :=
  match decide (buffer_ok p) with
  | left H => exist _ p H
  | right _ => exist _ ([], 0, 0)%nat (conj (Forall_nil_2 _) (le_n 0))
  end.

Lemma mk_buffer_ok p : buffer_ok p -> proj1_sig (mk_buffer p) = p.
Proof. intros H. unfold mk_buffer. by case_decide. Qed.

#[export] Instance byte_buffers : BooleanBuffers := {
  BooleanBuffer := { p : buffer_parts | buffer_ok p };
  bb_values b := (proj1_sig b).1.1;
  bb_offset b := (proj1_sig b).1.2;
  bb_len b := (proj1_sig b).2;
  bb_new bytes offset len := mk_buffer (bytes, offset, len);
  bb_finish bits := mk_buffer (pack_bits (length bits) bits, 0%nat, length bits)
}.

#[export] Instance byte_buffer_laws : BooleanBufferLaws.
Proof.
  split.
  - by intros [p [F Hl]].
  - by intros [p [F Hl]].
  - intros bytes offset len F Hl. cbn. rewrite mk_buffer_ok by done. done.
  - intros bits. unfold bb_bits. cbn. rewrite mk_buffer_ok.
    + split; [|done]. cbn [fst snd]. rewrite drop_0. by apply pack_bits_unpack.
    + split; [apply pack_bits_bytes|]. cbn [fst snd]. by apply pack_bits_length.
Qed.
