(* ===== verification/AndThen.v ===== *)
(** * Combination of boolean buffers

    Model of [boolean_buffer_and_then] in [src/src/parquet/src/utils.rs], with its
    version for x86 processors that have the [pdep] instruction.  A read through a
    pointer outside of the buffer is undefined.  The [debug_assert]s are not
    executed (release profile). *)

From stdpp Require Import base list.
From Stdlib Require Import ZArith Lia.
From S2P Require Import Prelude Bytes Arrow BooleanBuffers.
Local Open Scope Z_scope.


Fixpoint set_indices_from (i : nat) (l : list bool) : list nat :=
  match l with
  | [] => []
  | true :: l => i :: set_indices_from (S i) l
  | false :: l => set_indices_from (S i) l
  end.

Section and_then.
Context `{BooleanBuffers}.

(** ** The portable version *)

(** [for bit_idx in set_indices]: [other_bits.next()] is expected. *)
Fixpoint unset_refused (set_indices : list nat) (other_bits : list bool) (builder : list bool)
    : outcome (list bool) :=
  match set_indices with
  | [] => Ret builder
  | bit_idx :: set_indices =>
      match other_bits with
      | [] => Panic
      | predicate :: other_bits =>
          unset_refused set_indices other_bits (if negb predicate then <[bit_idx := false]> builder else builder)
      end
  end.

(** The builder starts from the bytes of [left]: its bits from bit 0 on. *)
Definition builder_from_buffer (b : BooleanBuffer) : list bool := take (bb_len b) (bits_of (bb_values b)).

Definition boolean_buffer_and_then_fallback (left right : BooleanBuffer) : outcome BooleanBuffer :=
  if (bb_len left =? bb_len right)%nat then Ret right
  else
    builder ← unset_refused (set_indices_from 0 (bb_bits left)) (bb_bits right) (builder_from_buffer left);
    Ret (bb_finish builder).

(** ** The version for BMI2 *)

(** [core::ptr::read_unaligned] of a [u64]. *)
Definition read_u64 (bytes : list Z) (offset : nat) : outcome Z :=
  if decide (offset + 8 <= length bytes)%nat then Ret (le_val (take 8 (drop offset bytes))) else Undefined.

Definition load_u64_zero_padded (bytes : list Z) (total_bytes offset : nat) : outcome Z :=
  let remaining := (total_bytes - offset)%nat in
  if (8 <=? remaining)%nat then read_u64 bytes offset
  else if (0 <? remaining)%nat then
    if decide (offset + remaining <= length bytes)%nat
    then Ret (le_val (take remaining (drop offset bytes) ++ replicate (8 - remaining) 0)) else Undefined
  else Ret 0.

(** [_pdep_u64]: the low bits of [src], in the places where [mask] has a one. *)
Fixpoint pdep (n : nat) (src mask : Z) : Z :=
  match n with
  | O => 0
  | S n => if mask mod 2 =? 1 then src mod 2 + 2 * pdep n (src / 2) (mask / 2)
           else 2 * pdep n src (mask / 2)
  end.

Definition count_ones (z : Z) : Z := Z.of_nat (count_set (byte_bits 64 z)).

(** [1u64.unbounded_shl(need).wrapping_sub(1)]. *)
Definition low_mask (need : Z) : Z :=
  wrapu 64 ((if need <? 64 then wrapu 64 (Z.shiftl 1 need) else 0) - 1).

(** The 64 bits of [right] from the bit [rb_bit] of the byte [rb_byte] on. *)
Definition load_bits (right : BooleanBuffer) (right_bytes rb_byte : nat) (rb_bit : Z) : outcome Z :=
  let need_high := negb (rb_bit =? 0) in
  let safe16 := (right_bytes - 16)%nat in
  if (rb_byte <=? safe16)%nat then
    low ← read_u64 (bb_values right) rb_byte;
    if need_high then
      high ← read_u64 (bb_values right) (rb_byte + 8);
      Ret (Z.lor (Z.shiftr low rb_bit) (wrapu 64 (Z.shiftl high (64 - rb_bit))))
    else Ret (Z.shiftr low rb_bit)
  else
    low ← load_u64_zero_padded (bb_values right) right_bytes rb_byte;
    let r_bits := Z.shiftr low rb_bit in
    if need_high then
      high ← load_u64_zero_padded (bb_values right) right_bytes (rb_byte + 8);
      Ret (Z.lor r_bits (wrapu 64 (Z.shiftl high (64 - rb_bit))))
    else Ret r_bits.

(** The bits of [right] from [right_bit_idx] on, [need] of them. *)
Definition fetch_bits (right : BooleanBuffer) (right_bytes : nat) (right_bit_idx need : Z) : outcome Z :=
  r_bits ← load_bits right right_bytes (Z.to_nat (right_bit_idx / 8)) (Z.land right_bit_idx 7);
  Ret (Z.land r_bits (low_mask need)).

(** A write of [bytes] at [offset]. *)
Definition write_bytes (out : list Z) (offset : nat) (bytes : list Z) : outcome (list Z) :=
  if decide (offset + length bytes <= length out)%nat
  then Ret (take offset out ++ bytes ++ drop (offset + length bytes) out) else Undefined.

(** One word of [left], at [word_idx], then the next ones. *)
Fixpoint full_words_loop (left right : BooleanBuffer) (right_bytes n word_idx : nat) (right_bit_idx : Z)
    (out : list Z) : outcome (Z * list Z) :=
  match n with
  | O => Ret (right_bit_idx, out)
  | S n =>
      left_word ← read_u64 (bb_values left) (word_idx * 8);
      if left_word =? 0 then full_words_loop left right right_bytes n (S word_idx) right_bit_idx out
      else
        let need := count_ones left_word in
        r_bits ← fetch_bits right right_bytes right_bit_idx need;
        let result := pdep 64 r_bits left_word in
        out ← write_bytes out (word_idx * 8) (le_bytes 8 result);
        full_words_loop left right right_bytes n (S word_idx) (usize (right_bit_idx + need)) out
  end.

(** The bits after the last full word. *)
Definition tail_word (left right : BooleanBuffer) (right_bytes full_words tail_bits : nat)
    (right_bit_idx : Z) (out : list Z) : outcome (list Z) :=
  let tail_bytes := ((tail_bits + 7) / 8)%nat in
  mask ←
    (if (tail_bytes =? 8)%nat then read_u64 (bb_values left) (full_words * 8)
     else if decide (full_words * 8 + tail_bytes <= length (bb_values left))%nat
     then Ret (le_val (take tail_bytes (drop (full_words * 8) (bb_values left))
                       ++ replicate (8 - tail_bytes) 0))
     else Undefined);
  let mask := Z.land mask (Z.shiftl 1 (Z.of_nat tail_bits) - 1) in
  if mask =? 0 then Ret out
  else
    let need := count_ones mask in
    r_bits ← fetch_bits right right_bytes right_bit_idx need;
    let result := pdep 64 r_bits mask in
    write_bytes out (full_words * 8) (take tail_bytes (le_bytes 8 result)).

Definition boolean_buffer_and_then_bmi2 (left right : BooleanBuffer) : outcome BooleanBuffer :=
  let bit_len := bb_len left in
  let byte_len := ((bit_len + 7) / 8)%nat in
  let right_bytes := ((bb_len right + 7) / 8)%nat in
  let out := replicate byte_len 0 in
  let full_words := (bit_len / 64)%nat in
  '(right_bit_idx, out) ← full_words_loop left right right_bytes full_words 0 0 out;
  let tail_bits := (bit_len mod 64)%nat in
  out ← (if (tail_bits =? 0)%nat then Ret out
         else tail_word left right right_bytes full_words tail_bits right_bit_idx out);
  Ret (bb_new out 0 bit_len).

Definition boolean_buffer_and_then (bmi2 : bool) (left right : BooleanBuffer) : outcome BooleanBuffer :=
  if (bb_len left =? bb_len right)%nat then Ret right
  else if bmi2 then boolean_buffer_and_then_bmi2 left right
  else boolean_buffer_and_then_fallback left right.
End and_then.

(** ** The specification

    Each selected row of [left] gets the next bit of [right]. *)
Fixpoint deposit (l r : list bool) : list bool :=
  match l with
  | [] => []
  | false :: l => false :: deposit l r
  | true :: l =>
      match r with
      | [] => false :: deposit l []
      | b :: r => b :: deposit l r
      end
  end.

(** ** Lemmas on [deposit] *)

Lemma deposit_app a b r : deposit (a ++ b) r = deposit a r ++ deposit b (drop (count_set a) r).
Proof.
  revert r. induction a as [|x a IH]; intros r; [done|]. unfold count_set in *. destruct x.
  - rewrite filter_cons_True by done. cbn [app deposit length]. destruct r as [|y r]; cbn [drop].
    + by rewrite IH, drop_nil.
    + by rewrite IH.
  - rewrite filter_cons_False by done. cbn [app deposit]. by rewrite IH.
Qed.

Lemma deposit_length l r : length (deposit l r) = length l.
Proof.
  revert r. induction l as [|[] l IH]; intros r; [done| |]; cbn [deposit length]; [|by rewrite IH].
  destruct r; cbn [length]; by rewrite IH.
Qed.

Lemma deposit_none n r : deposit (replicate n false) r = replicate n false.
Proof. induction n as [|n IH]; [done|]. cbn. by rewrite IH. Qed.

Lemma deposit_take l r k : (count_set l <= k)%nat -> deposit l (take k r) = deposit l r.
Proof.
  revert r k. induction l as [|[] l IH]; intros r k Hk; [done| |]; unfold count_set in *; cbn [deposit].
  - rewrite filter_cons_True in Hk by done. cbn [length] in Hk. destruct k as [|k]; [lia|].
    destruct r as [|y r]; cbn [take]; [done|]. f_equal. apply IH. lia.
  - rewrite filter_cons_False in Hk by done. f_equal. by apply IH.
Qed.

Lemma pdep_bits n src mask : byte_bits n (pdep n src mask) = deposit (byte_bits n mask) (byte_bits n src).
Proof.
  revert src mask. enough (∀ k src mask, (n <= k)%nat ->
    byte_bits n (pdep n src mask) = deposit (byte_bits n mask) (byte_bits k src)) as H by (intros; by apply H).
  induction n as [|n IH]; intros k src mask Hk; [done|]. cbn [pdep].
  assert (∀ b x, 0 <= b < 2 -> byte_bits (S n) (b + 2 * x) = (b =? 1) :: byte_bits n x) as Hc.
  { intros b x Hb. cbn [byte_bits]. rewrite (Z.mul_comm 2), Z_mod_plus_full, Z.div_add by lia.
    rewrite (Z.mod_small b), (Z.div_small b) by lia. f_equal. }
  destruct (mask mod 2 =? 1) eqn:Em.
  - rewrite Hc by (apply Z.mod_pos_bound; lia). destruct k as [|k]; [lia|].
    cbn [byte_bits]. rewrite Em. cbn [deposit]. f_equal. apply IH. lia.
  - rewrite <- (Z.add_0_l (2 * _)), Hc by lia. cbn [byte_bits]. rewrite Em. cbn [deposit].
    change (0 =? 1) with false. f_equal. apply IH. lia.
Qed.



Lemma read_u64_ok bytes o :
  Forall is_byte bytes -> (o + 8 <= length bytes)%nat ->
  ∃ r, read_u64 bytes o = Ret r /\ window r (le_val bytes) (8 * Z.of_nat o).
Proof.
  intros F Ho. unfold read_u64. rewrite decide_True by done. eexists. split; [done|].
  destruct (le_val_split o bytes F ltac:(lia)) as [_ Ed].
  destruct (le_val_split 8 (drop o bytes)) as [Et _]; [by apply Forall_drop|rewrite length_drop; lia|].
  rewrite Et, Ed. apply window_mod. lia.
Qed.

Lemma load_padded_ok bytes total o :
  Forall is_byte bytes -> (total <= length bytes)%nat ->
  ∃ r, load_u64_zero_padded bytes total o = Ret r
       /\ window r (le_val (take total bytes)) (8 * Z.of_nat o).
Proof.
  intros F Ht. unfold load_u64_zero_padded.
  assert (Forall is_byte (take total bytes)) as F' by (by apply Forall_take).
  assert (take (total - o) (drop o bytes) = drop o (take total bytes)) as Etd.
  { rewrite take_drop_commute. destruct (decide (o <= total)%nat).
    - by replace (o + (total - o))%nat with total by lia.
    - rewrite !drop_ge; [done|rewrite length_take; lia..]. }
  destruct (8 <=? total - o)%nat eqn:E8; [|destruct (0 <? total - o)%nat eqn:E0].
  - apply Nat.leb_le in E8. destruct (read_u64_ok (take total bytes) o F') as (r & Hr & W).
    { rewrite length_take. lia. }
    exists r. split; [|done]. unfold read_u64 in Hr |- *.
    rewrite decide_True in Hr by (rewrite length_take; lia). rewrite decide_True by lia.
    rewrite <- Etd, take_take, Nat.min_l in Hr by lia. exact Hr.
  - apply Nat.leb_gt in E8. apply Nat.ltb_lt in E0. rewrite decide_True by lia.
    eexists. split; [done|]. rewrite le_val_app, le_val_zeros, Z.mul_0_r, Z.add_0_r.
    destruct (le_val_split o (take total bytes) F') as [_ Ed]; [rewrite length_take; lia|].
    rewrite Etd, Ed. pose proof (window_mod (le_val (take total bytes)) (8 * Z.of_nat o) ltac:(lia)) as W.
    rewrite Z.mod_small in W; [done|]. rewrite <- Ed.
    pose proof (le_val_bound (drop o (take total bytes)) ltac:(by apply Forall_drop)) as Hb.
    split; [lia|]. eapply Z.lt_le_trans; [apply Hb|]. apply Z.pow_le_mono_r; [lia|].
    rewrite length_drop, length_take. lia.
  - apply Nat.ltb_ge in E0. exists 0. split; [done|]. split; [lia|]. intros j Hj.
    rewrite Z.bits_0. symmetry. pose proof (le_val_bound _ F') as Hb.
    rewrite length_take, Nat.min_l in Hb by lia.
    rewrite <- (Z.mod_small _ _ Hb). apply Z.mod_pow2_bits_high. lia.
Qed.

(** Two windows put together after a shift by [b] bits. *)
Lemma window_shift low high V i b :
  window low V i -> window high V (i + 64) -> 0 < b < 64 ->
  window (Z.lor (Z.shiftr low b) (wrapu 64 (Z.shiftl high (64 - b)))) V (i + b).
Proof.
  intros [Hl Bl] [Hh Bh] Hb. split.
  - assert (∀ x, 0 <= x < 2 ^ 64 <-> x mod 2 ^ 64 = x) as Hm.
    { intros x. split; [apply Z.mod_small|]. intros <-. apply Z.mod_pos_bound. lia. }
    apply Hm. apply Z.bits_inj'. intros n Hn. destruct (Z.lt_ge_cases n 64) as [H64|H64].
    + by rewrite Z.mod_pow2_bits_low by lia.
    + rewrite Z.mod_pow2_bits_high by lia. rewrite Z.lor_spec, Z.shiftr_spec by lia. unfold wrapu.
      rewrite Z.mod_pow2_bits_high by lia. rewrite <- (proj1 (Hm low) Hl).
      by rewrite Z.mod_pow2_bits_high by lia.
  - intros j Hj. rewrite Z.lor_spec, Z.shiftr_spec by lia. unfold wrapu.
    rewrite Z.mod_pow2_bits_low by lia.
    destruct (Z.lt_ge_cases (j + b) 64) as [Hjb|Hjb].
    + rewrite Bl, Z.shiftl_spec_low, orb_false_r by lia. f_equal. lia.
    + rewrite Z.shiftl_spec, Bh by lia. rewrite <- (Z.mod_small low (2 ^ 64)) by lia.
      rewrite Z.mod_pow2_bits_high by lia. cbn [orb]. f_equal. lia.
Qed.

Lemma low_mask_ones need : 0 <= need <= 64 -> low_mask need = Z.ones need.
Proof.
  intros Hn. unfold low_mask. rewrite Z.ones_equiv, <- Z.sub_1_r.
  destruct (need <? 64) eqn:E.
  - rewrite Z.shiftl_mul_pow2, Z.mul_1_l by lia.
    assert (0 < 2 ^ need < 2 ^ 64) by (split; [lia|apply Z.pow_lt_mono_r; lia]).
    rewrite (wrapu_id 64 (2 ^ need)) by lia. by rewrite wrapu_id by lia.
  - assert (need = 64) as -> by lia. reflexivity.
Qed.

Section correct.
Context `{BooleanBufferLaws}.

(** The 64 bits that follow a bit, as far as the buffer goes. *)
Lemma load_bits_ok right right_bytes o b :
  let V := le_val (bb_values right) in
  (right_bytes <= length (bb_values right))%nat -> (16 <= length (bb_values right))%nat -> 0 <= b < 8 ->
  ∃ r V', load_bits right right_bytes o b = Ret r
          /\ (V' = V \/ V' = V mod 2 ^ (8 * Z.of_nat right_bytes))
          /\ window r V' (8 * Z.of_nat o + b).
Proof.
  intros V Hrl H16 Hb. pose proof (bb_values_bytes right) as F. unfold load_bits.
  assert (8 * Z.of_nat (o + 8) = 8 * Z.of_nat o + 64) as Eh by lia.
  destruct (o <=? right_bytes - 16)%nat eqn:Es.
  - apply Nat.leb_le in Es. destruct (read_u64_ok _ o F ltac:(lia)) as (low & -> & Wl). run_step.
    destruct (b =? 0) eqn:Eb; cbn [negb].
    + exists low, V. assert (b = 0) as -> by lia. rewrite Z.shiftr_0_r, Z.add_0_r.
      split; [done|]. by split; [left|].
    + destruct (read_u64_ok _ (o + 8) F ltac:(lia)) as (high & -> & Wh). run_step.
      eexists _, V. split; [done|]. split; [by left|].
      rewrite Eh in Wh. apply window_shift; [done|done|lia].
  - destruct (load_padded_ok _ right_bytes o F Hrl) as (low & -> & Wl). run_step. cbv zeta.
    destruct (le_val_split right_bytes _ F Hrl) as [Et _]. rewrite Et in Wl.
    destruct (b =? 0) eqn:Eb; cbn [negb].
    + exists low, (V mod 2 ^ (8 * Z.of_nat right_bytes)). assert (b = 0) as -> by lia. rewrite Z.shiftr_0_r, Z.add_0_r.
      split; [done|]. by split; [right|].
    + destruct (load_padded_ok _ right_bytes (o + 8) F Hrl) as (high & -> & Wh). run_step.
      rewrite Et, Eh in Wh.
      eexists _, (V mod 2 ^ (8 * Z.of_nat right_bytes)). split; [done|]. split; [by right|].
      apply window_shift; [done|done|lia].
Qed.

Lemma right_bytes_ok b :
  bb_offset b = 0%nat ->
  (bb_len b <= 8 * ((bb_len b + 7) / 8))%nat /\ ((bb_len b + 7) / 8 <= length (bb_values b))%nat.
Proof.
  intros Ho. pose proof (bb_len_bits b). pose proof (Nat.div_mod (bb_len b + 7) 8).
  pose proof (Nat.mod_upper_bound (bb_len b + 7) 8). lia.
Qed.

Lemma fetch_bits_ok right idx need :
  bb_offset right = 0%nat -> (16 <= length (bb_values right))%nat ->
  0 <= need <= 64 -> 0 <= idx -> idx + need <= Z.of_nat (bb_len right) ->
  ∃ r, fetch_bits right ((bb_len right + 7) / 8) idx need = Ret r
       /\ take (Z.to_nat need) (byte_bits 64 r)
          = take (Z.to_nat need) (drop (Z.to_nat idx) (bb_bits right)).
Proof.
  intros Ho H16 Hn Hi Hl. pose proof (bb_values_bytes right) as F.
  pose proof (bb_len_bits right) as Hlen. destruct (right_bytes_ok right Ho) as [Hrb Hrl].
  unfold fetch_bits.
  assert (Z.land idx 7 = idx mod 8) as -> by (change 7 with (Z.ones 3); by rewrite Z.land_ones).
  pose proof (Z.div_mod idx 8 ltac:(lia)) as Edm. pose proof (Z.mod_pos_bound idx 8 ltac:(lia)) as Hm.
  destruct (load_bits_ok right _ (Z.to_nat (idx / 8)) (idx mod 8) Hrl H16 Hm) as (r & V' & -> & HV & W).
  replace (8 * Z.of_nat (Z.to_nat (idx / 8)) + idx mod 8) with idx in W by lia.
  run_step. eexists. split; [done|]. rewrite low_mask_ones by done.
  apply list_eq. intros j. destruct (decide (j < Z.to_nat need)%nat) as [Hj|Hj].
  2: { rewrite !lookup_ge_None_2; [done|rewrite length_take; lia..]. }
  rewrite !lookup_take_lt, byte_bits_lookup, lookup_drop by lia.
  unfold bb_bits. rewrite Ho, drop_0, lookup_take_lt by lia.
  rewrite bits_of_val, byte_bits_lookup by (done || lia). f_equal.
  rewrite Z.land_spec, Z.ones_spec_low, andb_true_r by lia. destruct W as [_ W]. rewrite W by lia.
  replace (Z.of_nat (Z.to_nat idx + j)) with (idx + Z.of_nat j) by lia.
  destruct HV as [->| ->]; [done|]. by rewrite Z.mod_pow2_bits_low by lia.
Qed.

(** The portable loop. *)
Lemma unset_refused_ok pre l r :
  (count_set l <= length r)%nat ->
  unset_refused (set_indices_from (length pre) l) r (pre ++ l) = Ret (pre ++ deposit l r).
Proof.
  revert pre r. induction l as [|b l IH]; intros pre r Hr; [done|]. rewrite count_set_cons in Hr.
  assert (∀ x r', (count_set l <= length r')%nat ->
    unset_refused (set_indices_from (S (length pre)) l) r' (pre ++ x :: l)
    = Ret (pre ++ x :: deposit l r')) as Hx.
  { intros x r' Hr'. specialize (IH (pre ++ [x]) r' Hr'). rewrite length_app, Nat.add_1_r in IH.
    by rewrite <- !app_assoc in IH. }
  destruct b; cbn [set_indices_from unset_refused deposit]; [|by apply Hx].
  destruct r as [|y r]; cbn [length] in Hr; [lia|].
  assert ((if negb y then <[length pre := false]> (pre ++ true :: l) else pre ++ true :: l)
          = pre ++ y :: l) as ->; [|apply Hx; lia].
  destruct y; [done|]. cbn [negb]. rewrite insert_app_r_alt by lia. by rewrite Nat.sub_diag.
Qed.

Lemma fallback_ok left right :
  bb_offset left = 0%nat -> count_set (bb_bits left) = bb_len right -> bb_len left ≠ bb_len right ->
  ∃ b, boolean_buffer_and_then_fallback left right = Ret b
       /\ bb_bits b = deposit (bb_bits left) (bb_bits right)
       /\ bb_offset b = 0%nat /\ bb_len b = bb_len left.
Proof.
  intros Ho Hc Hne. unfold boolean_buffer_and_then_fallback.
  destruct (bb_len left =? bb_len right)%nat eqn:E; [by apply Nat.eqb_eq in E|].
  assert (builder_from_buffer left = bb_bits left) as ->.
  { unfold builder_from_buffer, bb_bits. by rewrite Ho. }
  pose proof (bb_len_bits right) as Hl. pose proof (bb_len_bits left) as Hl'.
  rewrite (unset_refused_ok [] (bb_bits left)).
  2: { rewrite Hc. unfold bb_bits. rewrite length_take, length_drop, length_bits_of. lia. }
  run_step. cbn [app]. eexists. split; [done|].
  destruct (bb_finish_spec (deposit (bb_bits left) (bb_bits right))) as (H1 & H2 & H3).
  split; [done|]. split; [done|]. rewrite H3, deposit_length. unfold bb_bits.
  rewrite length_take, length_drop, length_bits_of. lia.
Qed.

(** ** The word loop

    [LB] are the bits of [left], padded to whole bytes. *)
Section words.
Context (left right : BooleanBuffer).
Context (Hleft : bb_offset left = 0%nat) (Hright : bb_offset right = 0%nat).
Context (H16 : (16 <= length (bb_values right))%nat).
Context (Hcount : count_set (bb_bits left) = bb_len right).
Context (Hsize : Z.of_nat (bb_len right) < 2 ^ 64).

Let byte_len : nat := ((bb_len left + 7) / 8)%nat.
Let LB : list bool := bb_bits left ++ replicate (8 * byte_len - bb_len left) false.
Let R : list bool := bb_bits right.

Lemma byte_len_ok : (bb_len left <= 8 * byte_len)%nat /\ (byte_len <= length (bb_values left))%nat.
Proof. by apply right_bytes_ok. Qed.

Lemma left_length : length (bb_bits left) = bb_len left.
Proof.
  unfold bb_bits. rewrite Hleft, drop_0, length_take, length_bits_of.
  pose proof (bb_len_bits left). lia.
Qed.

Lemma LB_length : length LB = (8 * byte_len)%nat.
Proof.
  unfold LB. rewrite length_app, left_length, length_replicate. pose proof byte_len_ok. lia.
Qed.

Lemma LB_count n : (count_set (take n LB) <= bb_len right)%nat.
Proof.
  rewrite <- Hcount. transitivity (count_set LB).
  - rewrite <- (take_drop n LB) at 2. rewrite count_set_app. lia.
  - unfold LB. rewrite count_set_app, count_set_none. lia.
Qed.

(** [k] bytes of the output are written. *)
Record out_ok (k : nat) (out : list Z) : Prop := {
  out_length : length out = byte_len;
  out_bytes : Forall is_byte out;
  out_done : bits_of (take k out) = deposit (take (8 * k) LB) R;
  out_rest : drop k out = replicate (byte_len - k) 0
}.

Lemma out_start : out_ok 0 (replicate byte_len 0).
Proof.
  split; [by rewrite length_replicate| |done|by rewrite drop_0, Nat.sub_0_r].
  apply Forall_replicate. unfold is_byte. lia.
Qed.

Definition next_bits (k m : nat) : list bool := take (8 * m) (drop (8 * k) LB).

Lemma take_next k m : take (8 * (k + m)) LB = take (8 * k) LB ++ next_bits k m.
Proof.
  unfold next_bits. rewrite take_drop_commute.
  rewrite <- (take_drop (8 * k) (take (8 * (k + m)) LB)) at 1. rewrite take_take. 
  do 2 f_equal; lia || (do 2 f_equal; lia).
Qed.

(** Writing the next bytes, or leaving the zeros when there is nothing to set. *)
Lemma write_ok k out bs :
  out_ok k out -> (k + length bs <= byte_len)%nat -> Forall is_byte bs ->
  bits_of bs = deposit (next_bits k (length bs)) (drop (count_set (take (8 * k) LB)) R) ->
  ∃ out', write_bytes out k bs = Ret out' /\ out_ok (k + length bs) out'.
Proof.
  intros [E1 E2 E3 E4] Hk F E. unfold write_bytes. rewrite decide_True by lia.
  eexists. split; [done|]. assert (length (take k out) = k) as Et by (rewrite length_take; lia).
  split.
  - rewrite !length_app, Et, length_drop. lia.
  - apply Forall_app. split; [by apply Forall_take|]. apply Forall_app. split; [done|by apply Forall_drop].
  - rewrite app_assoc, take_app_length' by (rewrite length_app; lia).
    by rewrite bits_of_app, E3, E, take_next, deposit_app.
  - rewrite app_assoc, drop_app_length' by (rewrite length_app; lia).
    rewrite <- drop_drop, E4, drop_replicate. f_equal. lia.
Qed.

Lemma skip_ok k m out :
  out_ok k out -> (k + m <= byte_len)%nat -> next_bits k m = replicate (8 * m) false ->
  out_ok (k + m) out.
Proof.
  intros [E1 E2 E3 E4] Hk E. split; [done|done| |].
  - rewrite <- (take_drop k (take (k + m) out)), take_take, Nat.min_l by lia.
    rewrite bits_of_app, E3, take_next, deposit_app, E, deposit_none. f_equal.
    rewrite <- take_drop_commute, E4, take_replicate, Nat.min_l by lia. apply bits_of_zeros.
  - rewrite <- drop_drop, E4, drop_replicate. f_equal. lia.
Qed.

Lemma deposit_prefix n l r : take n (deposit l r) = deposit (take n l) r.
Proof.
  revert l r. induction n as [|n IH]; intros [|b l] r; try done.
  destruct b; cbn [deposit take]; [destruct r; cbn [take]|]; by rewrite IH.
Qed.

(** A word of [left], complete or not. *)
Lemma deposit_word k m mask out :
  (m <= 8)%nat -> (k + m <= byte_len)%nat -> out_ok k out ->
  byte_bits 64 mask = next_bits k m ++ replicate (64 - 8 * m) false ->
  let idx := Z.of_nat (count_set (take (8 * k) LB)) in
  (mask = 0 -> out_ok (k + m) out)
  /\ idx + count_ones mask = Z.of_nat (count_set (take (8 * (k + m)) LB))
  /\ ∃ r out', fetch_bits right ((bb_len right + 7) / 8) idx (count_ones mask) = Ret r
       /\ write_bytes out k (take m (le_bytes 8 (pdep 64 r mask))) = Ret out' /\ out_ok (k + m) out'.
Proof.
  intros Hm Hk O Em idx.
  assert (length (next_bits k m) = 8 * m)%nat as Hl.
  { unfold next_bits. rewrite length_take, length_drop, LB_length. lia. }
  assert (count_ones mask = Z.of_nat (count_set (next_bits k m))) as Ec.
  { unfold count_ones. rewrite Em, count_set_app, count_set_none. f_equal. lia. }
  assert (count_set (take (8 * (k + m)) LB)
          = count_set (take (8 * k) LB) + count_set (next_bits k m))%nat as En.
  { by rewrite take_next, count_set_app. }
  split; [|split].
  - intros ->. apply skip_ok; [done|done|]. rewrite byte_bits_0 in Em.
    apply (f_equal (take (8 * m))) in Em. rewrite take_replicate, Nat.min_l in Em by lia.
    rewrite take_app_length' in Em by done. done.
  - unfold idx. lia.
  - pose proof (LB_count (8 * (k + m))) as Hc. pose proof (count_set_le (next_bits k m)) as Hle.
    destruct (fetch_bits_ok right idx (count_ones mask)) as (r & Hr & Eb); [done|done|lia..|].
    exists r. rewrite Hr. set (bs := take m (le_bytes 8 (pdep 64 r mask))).
    assert (length bs = m) as Hbs by (unfold bs; rewrite length_take, length_le_bytes; lia).
    destruct (write_ok k out bs O) as (out' & Hw & O').
    + lia.
    + unfold bs. apply Forall_take, le_bytes_byte.
    + rewrite Hbs. unfold bs. rewrite bits_of_take, bits_of_le_bytes.
      change (8 * 8)%nat with 64%nat. rewrite pdep_bits, deposit_prefix, Em, take_app_length' by done.
      rewrite <- (deposit_take _ (byte_bits 64 r) (Z.to_nat (count_ones mask))) by lia. rewrite Eb.
      rewrite deposit_take by lia. f_equal. f_equal. unfold idx. lia.
    + exists out'. rewrite Hbs in O'. done.
Qed.

Lemma next_bits_left k m :
  (8 * (k + m) <= bb_len left)%nat ->
  next_bits k m = take (8 * m) (drop (8 * k) (bits_of (bb_values left))).
Proof.
  intros Hk. unfold next_bits, LB, bb_bits. rewrite Hleft, drop_0, !take_drop_commute.
  pose proof (bb_len_bits left). rewrite take_app_le by (rewrite length_take, length_bits_of; lia).
  rewrite take_take. do 2 f_equal. lia.
Qed.

Lemma read_word k :
  (8 * (k + 8) <= bb_len left)%nat ->
  ∃ word, read_u64 (bb_values left) k = Ret word /\ 0 <= word < 2 ^ 64
          /\ byte_bits 64 word = next_bits k 8.
Proof.
  intros Hk. pose proof (bb_len_bits left) as Hl.
  destruct (read_u64_ok (bb_values left) k (bb_values_bytes left) ltac:(lia)) as (word & E & Hw & W).
  exists word. split; [done|]. split; [done|]. rewrite next_bits_left by done.
  rewrite bits_of_val by apply bb_values_bytes. rewrite byte_bits_drop, byte_bits_take by lia.
  apply byte_bits_ext. intros i Hi. rewrite W by lia.
  rewrite <- Z.shiftr_div_pow2, Z.shiftr_spec by lia. f_equal. lia.
Qed.

Lemma full_words_ok n w out :
  (64 * (w + n) <= bb_len left)%nat -> out_ok (w * 8) out ->
  ∃ out', full_words_loop left right ((bb_len right + 7) / 8) n w
            (Z.of_nat (count_set (take (8 * (w * 8)) LB))) out
          = Ret (Z.of_nat (count_set (take (8 * ((w + n) * 8)) LB)), out')
          /\ out_ok ((w + n) * 8) out'.
Proof.
  revert w out. induction n as [|n IH]; intros w out Hn O.
  { rewrite Nat.add_0_r. by exists out. }
  cbn [full_words_loop]. pose proof byte_len_ok as [Hb _].
  destruct (read_word (w * 8)) as (word & -> & Hw & Ew); [lia|]. run_step.
  destruct (deposit_word (w * 8) 8 word out ltac:(lia) ltac:(lia) O) as (Hz & Hi & r & out' & Hf & Hwr & O').
  { cbn [replicate Nat.sub Nat.mul Nat.add]. by rewrite app_nil_r. }
  replace (w * 8 + 8)%nat with (S w * 8)%nat in * by lia.
  replace (w + S n)%nat with (S w + n)%nat by lia.
  destruct (word =? 0) eqn:E0.
  - assert (word = 0) as -> by lia. specialize (Hz eq_refl).
    destruct (IH (S w) out ltac:(lia) Hz) as (out2 & H2 & O2). exists out2. split; [|done].
    rewrite <- H2. f_equal. rewrite <- Hi. unfold count_ones. rewrite byte_bits_0, count_set_none. lia.
  - rewrite Hf. run_step. rewrite take_ge in Hwr by (rewrite length_le_bytes; lia). rewrite Hwr. run_step.
    rewrite Hi. pose proof (LB_count (8 * (S w * 8))). rewrite usize_id by lia.
    apply IH; [lia|done].
Qed.

(** The last bits, when [left] is not a whole number of words. *)
Let full_words : nat := (bb_len left / 64)%nat.
Let tail_bits : nat := (bb_len left mod 64)%nat.
Let tail_bytes : nat := ((tail_bits + 7) / 8)%nat.

Lemma tail_size :
  bb_len left = (64 * full_words + tail_bits)%nat /\ (tail_bits < 64)%nat
  /\ (tail_bits <= 8 * tail_bytes < tail_bits + 8)%nat /\ byte_len = (full_words * 8 + tail_bytes)%nat.
Proof.
  unfold byte_len, tail_bytes. pose proof (Nat.div_mod (bb_len left) 64 ltac:(lia)) as E.
  fold full_words tail_bits in E. pose proof (Nat.mod_upper_bound (bb_len left) 64 ltac:(lia)).
  fold tail_bits in H1. rewrite E.
  pose proof (Nat.div_mod (tail_bits + 7) 8). pose proof (Nat.mod_upper_bound (tail_bits + 7) 8).
  split; [done|]. split; [done|]. split; [lia|].
  replace (64 * full_words + tail_bits + 7)%nat with (tail_bits + 7 + full_words * 8 * 8)%nat by lia.
  rewrite Nat.div_add by lia. lia.
Qed.

Lemma tail_mask_ok mask :
  (∀ j, 0 <= j < Z.of_nat tail_bits ->
     Z.testbit mask j = Z.testbit (le_val (bb_values left)) (8 * Z.of_nat (full_words * 8) + j)) ->
  byte_bits 64 (Z.land mask (Z.shiftl 1 (Z.of_nat tail_bits) - 1))
  = next_bits (full_words * 8) tail_bytes ++ replicate (64 - 8 * tail_bytes) false.
Proof.
  intros Hm. destruct tail_size as (El & Ht & Htb & Eb). pose proof byte_len_ok as [Hb1 Hb2].
  rewrite Z.shiftl_mul_pow2, Z.mul_1_l, Z.sub_1_r, <- Z.ones_equiv by lia.
  assert (length (next_bits (full_words * 8) tail_bytes) = 8 * tail_bytes)%nat as Hl.
  { unfold next_bits. rewrite length_take, length_drop, LB_length. lia. }
  apply list_eq. intros j. destruct (decide (j < 64)%nat) as [Hj|Hj].
  2: { rewrite !lookup_ge_None_2; [done|rewrite length_app, Hl, length_replicate; lia|].
       rewrite length_byte_bits. lia. }
  rewrite byte_bits_lookup, Z.land_spec by lia.
  destruct (decide (j < 8 * tail_bytes)%nat) as [Hj8|Hj8].
  - rewrite lookup_app_l by lia. unfold next_bits. rewrite lookup_take_lt, lookup_drop by lia.
    unfold LB. destruct (decide (j < tail_bits)%nat) as [Hjt|Hjt].
    + rewrite Z.ones_spec_low, andb_true_r, Hm by lia.
      rewrite lookup_app_l by (rewrite left_length; lia).
      unfold bb_bits. rewrite Hleft, drop_0, lookup_take_lt by lia.
      rewrite bits_of_val by apply bb_values_bytes.
      rewrite byte_bits_lookup by lia. do 2 f_equal. lia.
    + rewrite Z.ones_spec_high, andb_false_r by lia.
      rewrite lookup_app_r by (rewrite left_length; lia). rewrite lookup_replicate_2; [done|].
      rewrite left_length. lia.
  - rewrite Z.ones_spec_high, andb_false_r by lia. rewrite lookup_app_r by lia.
    rewrite lookup_replicate_2; [done|lia].
Qed.

Lemma tail_word_ok out :
  tail_bits ≠ 0%nat -> out_ok (full_words * 8) out ->
  ∃ out', tail_word left right ((bb_len right + 7) / 8) full_words tail_bits
            (Z.of_nat (count_set (take (8 * (full_words * 8)) LB))) out = Ret out'
          /\ out_ok byte_len out'.
Proof.
  intros Hne O. destruct tail_size as (El & Ht & Htb & Eb). pose proof byte_len_ok as [Hb1 Hb2].
  pose proof (bb_values_bytes left) as F. unfold tail_word. fold tail_bytes.
  assert (∃ mask, (if (tail_bytes =? 8)%nat then read_u64 (bb_values left) (full_words * 8)
     else if decide (full_words * 8 + tail_bytes <= length (bb_values left))%nat
     then Ret (le_val (take tail_bytes (drop (full_words * 8) (bb_values left))
                       ++ replicate (8 - tail_bytes) 0))
     else Undefined) = Ret mask
     /\ ∀ j, 0 <= j < Z.of_nat tail_bits ->
        Z.testbit mask j = Z.testbit (le_val (bb_values left)) (8 * Z.of_nat (full_words * 8) + j))
    as (mask & -> & Hmask).
  { destruct (tail_bytes =? 8)%nat eqn:E8.
    - apply Nat.eqb_eq in E8. destruct (read_u64_ok _ (full_words * 8) F ltac:(lia)) as (r & -> & _ & W).
      exists r. split; [done|]. intros j Hj. apply W. lia.
    - rewrite decide_True by lia. eexists. split; [done|]. intros j Hj.
      rewrite le_val_app, le_val_zeros, Z.mul_0_r, Z.add_0_r.
      destruct (le_val_split (full_words * 8) _ F ltac:(lia)) as [_ Ed].
      destruct (le_val_split tail_bytes (drop (full_words * 8) (bb_values left))) as [Et _];
        [by apply Forall_drop|rewrite length_drop; lia|].
      rewrite Et, Ed, Z.mod_pow2_bits_low by lia.
      rewrite <- Z.shiftr_div_pow2, Z.shiftr_spec by lia. f_equal. lia. }
  run_step. apply tail_mask_ok in Hmask. set (m := Z.land mask _) in *. cbv zeta.
  destruct (deposit_word (full_words * 8) tail_bytes m out ltac:(lia) ltac:(lia) O Hmask)
    as (Hz & _ & r & out' & Hf & Hw & O').
  rewrite <- Eb in *. destruct (m =? 0) eqn:E0.
  - exists out. split; [done|]. apply Hz. lia.
  - rewrite Hf. run_step. by exists out'.
Qed.

Lemma bmi2_ok :
  ∃ b, boolean_buffer_and_then_bmi2 left right = Ret b
       /\ bb_bits b = deposit (bb_bits left) R /\ bb_offset b = 0%nat /\ bb_len b = bb_len left.
Proof.
  destruct tail_size as (El & Ht & Htb & Eb). pose proof byte_len_ok as [Hb1 Hb2].
  unfold boolean_buffer_and_then_bmi2. fold byte_len full_words tail_bits.
  destruct (full_words_ok full_words 0 (replicate byte_len 0) ltac:(lia) out_start) as (out & Hw & O).
  change (0 + full_words)%nat with full_words in Hw, O.
  change (Z.of_nat (count_set (take (8 * (0 * 8)) LB))) with 0 in Hw. rewrite Hw. run_step.
  assert (∃ out', (if (tail_bits =? 0)%nat then Ret out
     else tail_word left right ((bb_len right + 7) / 8) full_words tail_bits
            (Z.of_nat (count_set (take (8 * (full_words * 8)) LB))) out) = Ret out'
     /\ out_ok byte_len out') as (out' & -> & O').
  { destruct (tail_bits =? 0)%nat eqn:E0.
    - apply Nat.eqb_eq in E0. exists out. split; [done|]. by replace byte_len with (full_words * 8)%nat by lia.
    - apply Nat.eqb_neq in E0. by apply tail_word_ok. }
  run_step. destruct O' as [L F D _]. eexists. split; [done|].
  destruct (bb_new_spec out' 0 (bb_len left) F ltac:(lia)) as (H1 & H2 & H3).
  split; [|done]. unfold bb_bits at 1. rewrite H1, H2, H3, drop_0.
  rewrite (take_ge out' byte_len) in D by lia. rewrite D, (take_ge LB) by (rewrite LB_length; lia).
  rewrite deposit_prefix. unfold LB. by rewrite take_app_length' by (symmetry; apply left_length).
Qed.
End words.
End correct.

(** ** Properties *)

Lemma deposit_everywhere l r : length r = length l -> count_set l = length l -> deposit l r = r.
Proof.
  revert r. induction l as [|b l IH]; intros [|y r] Hl Hc; try done. rewrite count_set_cons in Hc.
  cbn [length] in *. pose proof (count_set_le l). destruct b; [|lia]. cbn [deposit]. f_equal. apply IH; lia.
Qed.

Lemma count_deposit l r : length r = count_set l -> count_set (deposit l r) = count_set r.
Proof.
  revert r. induction l as [|[] l IH]; intros r Hr; rewrite ?count_set_cons in Hr.
  - by destruct r.
  - destruct r as [|y r]; [done|]. cbn [deposit length] in *. rewrite !count_set_cons, IH by lia. done.
  - cbn [deposit]. by rewrite count_set_cons, IH by lia.
Qed.

Lemma buffer_and_then_ok `{BooleanBufferLaws} (bmi2 : bool) left right :
  bb_offset left = 0%nat -> bb_offset right = 0%nat -> count_set (bb_bits left) = bb_len right ->
  Z.of_nat (bb_len right) < 2 ^ 64 -> (bmi2 = true -> 16 <= length (bb_values right))%nat ->
  ∃ b, boolean_buffer_and_then bmi2 left right = Ret b
       /\ bb_bits b = deposit (bb_bits left) (bb_bits right)
       /\ bb_offset b = 0%nat /\ bb_len b = bb_len left.
Proof.
  intros Ho Ho' Hc Hs H16. unfold boolean_buffer_and_then.
  destruct (bb_len left =? bb_len right)%nat eqn:E; [|destruct bmi2].
  - apply Nat.eqb_eq in E. exists right. split; [done|]. split; [|done]. symmetry.
    apply deposit_everywhere; rewrite ?bb_bits_length; lia.
  - by apply bmi2_ok; auto.
  - apply Nat.eqb_neq in E. by apply fallback_ok.
Qed.

(** C11: combining a selection with a predicate's answer on its selected rows
    gives each selected row its answer and leaves the others out; the version for
    BMI2 processors, on words and with unchecked loads, computes the same and
    reads inside its buffers, for buffers from bit 0 on, of 16 bytes at least on
    the right. *)
Theorem and_then_deposits `{BooleanBufferLaws} (bmi2 : bool) left right :
  bb_offset left = 0%nat -> bb_offset right = 0%nat -> count_set (bb_bits left) = bb_len right ->
  Z.of_nat (bb_len right) < 2 ^ 64 -> (bmi2 = true -> 16 <= length (bb_values right))%nat ->
  ∃ b, boolean_buffer_and_then bmi2 left right = Ret b
       /\ bb_bits b = deposit (bb_bits left) (bb_bits right)
       /\ bb_offset b = 0%nat /\ bb_len b = bb_len left
       /\ count_set (bb_bits b) = count_set (bb_bits right).
Proof.
  intros Ho Ho' Hc Hs H16.
  destruct (buffer_and_then_ok bmi2 left right Ho Ho' Hc Hs H16) as (b & E & Eb & Hob & Hlb).
  exists b. rewrite Eb. split; [done|]. split; [done|]. split; [done|]. split; [done|].
  apply count_deposit. by rewrite bb_bits_length.
Qed.

Lemma and_then_deposits_witness :
  ∃ b, boolean_buffer_and_then true (bb_finish (replicate 150 true ++ [false])) (bb_finish (replicate 150 false))
       = Ret b /\ bb_bits b = replicate 151 false.
Proof.
  destruct (and_then_deposits true (bb_finish (replicate 150 true ++ [false])) (bb_finish (replicate 150 false)))
    as (b & E & Eb & _).
  - reflexivity.
  - reflexivity.
  - vm_compute. reflexivity.
  - vm_compute. reflexivity.
  - intros _. vm_compute. lia.
  - exists b. split; [exact E|]. rewrite Eb. vm_compute. reflexivity.
Defined.

(** The BMI2 version reads eight bytes of the right buffer without looking at
    its length when the first bits are fetched: with fewer bytes there it reads
    outside of the buffer. *)
Theorem and_then_short_right_undefined `{BooleanBufferLaws} left right :
  bb_offset left = 0%nat -> (64 <= bb_len left)%nat -> bb_len left ≠ bb_len right ->
  count_set (take 64 (bb_bits left)) ≠ 0%nat -> (length (bb_values right) < 8)%nat ->
  boolean_buffer_and_then true left right = Undefined.
Proof.
  intros Ho H64 Hne Hc Hs. unfold boolean_buffer_and_then, boolean_buffer_and_then_bmi2.
  apply Nat.eqb_neq in Hne. rewrite Hne. pose proof (bb_len_bits left) as Hl.
  pose proof (Nat.Div0.div_le_mono 64 (bb_len left) 64 H64) as Hd. change (64 / 64)%nat with 1%nat in Hd.
  destruct (bb_len left / 64)%nat as [|n]; [lia|]. cbn [full_words_loop].
  destruct (read_u64_ok (bb_values left) (0 * 8) (bb_values_bytes left) ltac:(lia)) as (word & -> & _ & W).
  run_step. destruct (word =? 0) eqn:E0.
  - exfalso. apply Hc. assert (take 64 (bb_bits left) = replicate 64 false) as ->; [|apply count_set_none].
    unfold bb_bits. rewrite Ho, drop_0, take_take, Nat.min_l by lia.
    rewrite bits_of_val, byte_bits_take by (apply bb_values_bytes || lia). rewrite <- byte_bits_0.
    apply byte_bits_ext. intros j Hj. specialize (W j ltac:(lia)).
    change (8 * Z.of_nat (0 * 8) + j) with j in W. rewrite <- W. f_equal. lia.
  - unfold fetch_bits. change (Z.to_nat (0 / 8)) with 0%nat. change (Z.land 0 7) with 0.
    unfold load_bits. cbn [Nat.leb].
    assert (read_u64 (bb_values right) 0 = Undefined) as ->; [|done].
    unfold read_u64. by rewrite decide_False by lia.
Qed.

Lemma and_then_short_right_undefined_witness :
  boolean_buffer_and_then true (bb_finish (true :: replicate 63 false)) (bb_finish [true]) = Undefined.
Proof.
  apply and_then_short_right_undefined.
  - reflexivity.
  - vm_compute. lia.
  - vm_compute. discriminate.
  - vm_compute. discriminate.
  - vm_compute. lia.
Defined.
