(* ===== verification/BooleanSelection.v ===== *)
(** * Boolean selections

    Model of [src/src/parquet/src/reader/utils/boolean_selection.rs]: a selection
    of rows as a boolean buffer. *)

From stdpp Require Import base list.
From Stdlib Require Import ZArith Lia.
From S2P Require Import Prelude Bytes Arrow RowSelection BooleanBuffers AndThen.
Local Open Scope Z_scope.

(** ** Boolean selections

    The bitwise operators of [BooleanBuffer] assert that the lengths agree. *)
Section boolean_selection.
Context `{BooleanBuffers} `{RowSelections}.

Record BooleanSelection : Type := Selection { selectors : BooleanBuffer }.

Definition of_bits (bits : list bool) : BooleanSelection := Selection (bb_finish bits).

(** The values of the filters; their null buffers are dropped. *)
Definition from_filters (filters : list BooleanBuffer) : BooleanSelection :=
  of_bits (mjoin (bb_bits <$> filters)).

Definition new_unselected (n : nat) : BooleanSelection := of_bits (replicate n false).

Definition new_selected (n : nat) : BooleanSelection := of_bits (replicate n true).

Definition as_inverted (s : BooleanSelection) : BooleanSelection :=
  of_bits (negb <$> bb_bits (selectors s)).

Definition bs_len (s : BooleanSelection) : nat := bb_len (selectors s).

Definition bs_is_empty (s : BooleanSelection) : bool := (bs_len s =? 0)%nat.

Definition bs_row_count (s : BooleanSelection) : nat := count_set (bb_bits (selectors s)).

(** A range is its start and its end. *)
Fixpoint append_ranges (ranges : list (Z * Z)) (last_end : Z) (buffer : list bool) : Z * list bool :=
  match ranges with
  | [] => (last_end, buffer)
  | (start, stop) :: ranges =>
      let len := usize (stop - start) in
      if len =? 0 then append_ranges ranges last_end buffer
      else
        let buffer :=
          if start >? last_end then buffer ++ replicate (Z.to_nat (usize (start - last_end))) false
          else buffer in
        append_ranges ranges stop (buffer ++ replicate (Z.to_nat len) true)
  end.

Definition from_consecutive_ranges (ranges : list (Z * Z)) (total_rows : Z) : BooleanSelection :=
  let '(last_end, buffer) := append_ranges ranges 0 [] in
  of_bits (if negb (last_end =? total_rows)
           then buffer ++ replicate (Z.to_nat (usize (total_rows - last_end))) false
           else buffer).

Definition bitwise (f : bool -> bool -> bool) (a b : BooleanBuffer) : outcome BooleanSelection :=
  if (bb_len a =? bb_len b)%nat then Ret (of_bits (zip_with f (bb_bits a) (bb_bits b))) else Panic.

Definition union (a b : BooleanSelection) : outcome BooleanSelection :=
  bitwise orb (selectors a) (selectors b).

Definition intersection (a b : BooleanSelection) : outcome BooleanSelection :=
  bitwise andb (selectors a) (selectors b).

Definition and_then (a b : BooleanSelection) : outcome BooleanSelection :=
  if (bs_len a =? bs_len b)%nat then intersection a b
  else
    builder ← unset_refused (set_indices_from 0 (bb_bits (selectors a))) (bb_bits (selectors b))
                (builder_from_buffer (selectors a));
    Ret (of_bits builder).

Definition positive_iter (s : BooleanSelection) : list nat := set_indices_from 0 (bb_bits (selectors s)).

Definition selects_any (s : BooleanSelection) : bool := (0 <? bs_row_count s)%nat.

Definition bs_slice (s : BooleanSelection) (offset len : nat) : outcome (list bool) :=
  slice (bb_bits (selectors s)) offset len.

(** [From<RowSelection>], and [From<Vec<RowSelector>>] through it. *)
Definition of_row_selection (s : RowSelection) : BooleanSelection :=
  of_bits (row_selector_to_boolean_buffer (rs_selectors s)).

Definition of_row_selectors (l : list RowSelector) : BooleanSelection := of_row_selection (rs_from l).
End boolean_selection.

(** ** Lemmas *)

(** Ranges in order, up to [total]. *)
Fixpoint ordered (last : Z) (ranges : list (Z * Z)) (total : Z) : Prop :=
  match ranges with
  | [] => last <= total
  | (start, stop) :: ranges => last <= start <= stop /\ ordered stop ranges total
  end.

Definition in_ranges (ranges : list (Z * Z)) (i : Z) : bool :=
  existsb (λ r, (r.1 <=? i) && (i <? r.2)) ranges.

Lemma ordered_total last ranges total : ordered last ranges total -> last <= total.
Proof.
  revert last. induction ranges as [|[a b] ranges IH]; intros last; cbn; [done|].
  intros [Ha Ho]. specialize (IH _ Ho). lia.
Qed.

Lemma ordered_below last ranges total i : ordered last ranges total -> i < last -> in_ranges ranges i = false.
Proof.
  revert last. induction ranges as [|[a b] ranges IH]; intros last; [done|]. cbn [ordered].
  intros [Ha Ho] Hi. unfold in_ranges. cbn [existsb fst snd]. fold (in_ranges ranges i).
  rewrite (IH b) by (done || lia). destruct (a <=? i) eqn:E; [lia|done].
Qed.

Lemma ordered_weaken last last' ranges total :
  ordered last ranges total -> last' <= last -> ordered last' ranges total.
Proof. destruct ranges as [|[a b] ranges]; cbn; [lia|]. intros [Ha Ho] Hl. split; [lia|done]. Qed.

(** The rows of [ranges] from [from] to [to]. *)
Definition rows_from (ranges : list (Z * Z)) (from to : Z) : list bool :=
  (λ k, in_ranges ranges (from + Z.of_nat k)) <$> seq 0 (Z.to_nat (to - from)).

Lemma rows_from_split ranges a b c :
  a <= b <= c -> rows_from ranges a c = rows_from ranges a b ++ rows_from ranges b c.
Proof.
  intros Hb. unfold rows_from. replace (Z.to_nat (c - a)) with (Z.to_nat (b - a) + Z.to_nat (c - b))%nat by lia.
  rewrite seq_app, fmap_app. f_equal.
  replace (0 + Z.to_nat (b - a))%nat with (Z.to_nat (b - a) + 0)%nat by lia.
  rewrite <- fmap_add_seq, <- list_fmap_compose.
  apply list_fmap_ext. intros k x _. cbn. f_equal. lia.
Qed.

Lemma rows_from_const ranges a b x :
  (∀ i, a <= i < b -> in_ranges ranges i = x) -> rows_from ranges a b = replicate (Z.to_nat (b - a)) x.
Proof.
  intros Hx. unfold rows_from. apply list_eq. intros k. rewrite list_lookup_fmap.
  destruct (decide (k < Z.to_nat (b - a))%nat) as [Hk|Hk].
  - rewrite lookup_seq_lt, lookup_replicate_2 by lia. cbn. f_equal. apply Hx. lia.
  - rewrite lookup_seq_ge by lia. cbn. symmetry. apply lookup_replicate_None. lia.
Qed.

Lemma rows_from_tail a b ranges from to :
  b <= from -> rows_from ((a, b) :: ranges) from to = rows_from ranges from to.
Proof.
  intros Hb. unfold rows_from. apply list_fmap_ext. intros k x _. unfold in_ranges.
  cbn [existsb fst snd].
  assert ((from + Z.of_nat x <? b) = false) as -> by (apply Z.ltb_ge; lia). by rewrite andb_false_r.
Qed.

Lemma append_ranges_ok ranges last total buffer :
  0 <= last -> ordered last ranges total -> total < 2 ^ 64 ->
  ∃ last', append_ranges ranges last buffer = (last', buffer ++ rows_from ranges last last')
           /\ last <= last' <= total /\ ∀ i, last' <= i -> in_ranges ranges i = false.
Proof.
  revert last buffer. induction ranges as [|[a b] ranges IH]; intros last buffer H0 Ho Ht.
  { exists last. unfold rows_from. rewrite Z.sub_diag. cbn. rewrite app_nil_r. cbn in Ho. done. }
  cbn [append_ranges]. destruct Ho as [Ha Ho]. pose proof (ordered_total _ _ _ Ho) as Hbt. machine.
  assert (∀ i, b <= i -> in_ranges ((a, b) :: ranges) i = in_ranges ranges i) as Htl.
  { intros i Hi. unfold in_ranges. cbn [existsb fst snd]. destruct (i <? b) eqn:E; [exfalso; lia|]. by rewrite andb_false_r. }
  destruct (b - a =? 0) eqn:E0.
  - destruct (IH last buffer H0 (ordered_weaken b last _ _ Ho ltac:(lia)) Ht) as (last' & -> & Hl & Hn).
    assert (∀ i, in_ranges ((a, b) :: ranges) i = in_ranges ranges i) as Hi.
    { intros i. unfold in_ranges. cbn [existsb fst snd].
      destruct (a <=? i) eqn:E1, (i <? b) eqn:E2; try done. lia. }
    exists last'. split; [|split; [done|intros i; rewrite Hi; apply Hn]].
    do 2 f_equal. unfold rows_from. apply list_fmap_ext. intros. by rewrite Hi.
  - assert (rows_from ((a, b) :: ranges) last a = replicate (Z.to_nat (a - last)) false) as E1.
    { apply rows_from_const. intros i Hi. unfold in_ranges. cbn [existsb fst snd].
      fold (in_ranges ranges i). rewrite (ordered_below b ranges total) by (done || lia).
      destruct (a <=? i) eqn:E1; [lia|done]. }
    assert (rows_from ((a, b) :: ranges) a b = replicate (Z.to_nat (b - a)) true) as E2.
    { apply rows_from_const. intros i Hi. unfold in_ranges. cbn [existsb fst snd].
      destruct (a <=? i) eqn:G1; [|lia]. destruct (i <? b) eqn:G2; [done|lia]. }
    assert ((if a >? last then buffer ++ replicate (Z.to_nat (a - last)) false else buffer)
            = buffer ++ rows_from ((a, b) :: ranges) last a) as ->.
    { rewrite E1. destruct (a >? last) eqn:G; [done|]. assert (a = last) as -> by lia.
      rewrite Z.sub_diag. by rewrite app_nil_r. }
    destruct (IH b ((buffer ++ rows_from ((a, b) :: ranges) last a) ++ replicate (Z.to_nat (b - a)) true)
                ltac:(lia) Ho Ht) as (last' & -> & Hl & Hn).
    exists last'. split; [|split; [lia|intros i Hi; rewrite Htl by lia; by apply Hn]].
    rewrite (rows_from_split _ last a last') by lia. rewrite (rows_from_split _ a b last') by lia.
    rewrite E2, (rows_from_tail a b _ b) by lia. by rewrite <- !app_assoc.
Qed.

Lemma of_bits_bits `{BooleanBufferLaws} bits :
  bb_bits (selectors (of_bits bits)) = bits /\ bb_offset (selectors (of_bits bits)) = 0%nat
  /\ bs_len (of_bits bits) = length bits.
Proof. unfold of_bits, bs_len. cbn [selectors]. apply bb_finish_spec. Qed.

Lemma zip_andb_all l r : length l = length r -> count_set l = length l -> zip_with andb l r = r.
Proof.
  revert r. induction l as [|b l IH]; intros [|y r] Hl Hc; try done. rewrite count_set_cons in Hc.
  cbn [length] in *. pose proof (count_set_le l). destruct b; [|lia].
  cbn [zip_with andb]. f_equal. apply IH; lia.
Qed.

Lemma and_then_ok `{BooleanBufferLaws} a b :
  bb_offset (selectors a) = 0%nat -> bs_row_count a = bs_len b ->
  ∃ c, and_then a b = Ret c
       /\ bb_bits (selectors c) = deposit (bb_bits (selectors a)) (bb_bits (selectors b)).
Proof.
  intros Ho Hc. unfold and_then. unfold bs_row_count, bs_len in *.
  destruct (bb_len (selectors a) =? bb_len (selectors b))%nat eqn:E.
  - unfold intersection, bitwise. rewrite E. eexists. split; [done|]. apply Nat.eqb_eq in E.
    destruct (of_bits_bits (zip_with andb (bb_bits (selectors a)) (bb_bits (selectors b)))) as (-> & _).
    rewrite zip_andb_all, deposit_everywhere by (rewrite ?bb_bits_length; congruence). done.
  - apply Nat.eqb_neq in E. destruct (fallback_ok _ _ Ho Hc E) as (d & Hd & Eb & _).
    unfold boolean_buffer_and_then_fallback in Hd. apply Nat.eqb_neq in E. rewrite E in Hd.
    destruct (unset_refused _ _ _) as [l| | |]; try done. run_step. injection Hd as <-.
    eexists. split; [done|]. exact Eb.
Qed.

(** A selection made from ordered ranges selects exactly the rows in one of
    them; a selection made from runs has the rows of the runs; inverting it
    selects the others; and refining it by a selection of its rows keeps those. *)
Theorem ranges_and_runs_select `{BooleanBufferLaws} `{RowSelectionLaws} ranges total_rows (s : RowSelection) :
  ordered 0 ranges total_rows -> total_rows < 2 ^ 64 ->
  let sel := from_consecutive_ranges ranges total_rows in
  (∀ i, 0 <= i < total_rows -> bb_bits (selectors sel) !! Z.to_nat i = Some (in_ranges ranges i))
  /\ Z.of_nat (bs_len sel) = total_rows
  /\ bb_bits (selectors (of_row_selection s)) = rows (rs_selectors s)
  /\ bb_bits (selectors (as_inverted (of_row_selection s))) = negb <$> rows (rs_selectors s)
  /\ (bs_row_count (of_row_selection s) + bs_row_count (as_inverted (of_row_selection s))
      = bs_len (of_row_selection s))%nat
  /\ (∀ b, bs_row_count sel = bs_len b ->
       ∃ c, and_then sel b = Ret c
            /\ bb_bits (selectors c) = deposit (bb_bits (selectors sel)) (bb_bits (selectors b))).
Proof.
  intros Ho Ht. assert (bb_bits (selectors (of_row_selection s)) = rows (rs_selectors s)) as Er.
  { unfold of_row_selection, of_bits. cbn [selectors]. rewrite boolean_buffer_rows. apply bb_finish_spec. }
  assert (bb_bits (selectors (as_inverted (of_row_selection s))) = negb <$> rows (rs_selectors s)) as Ei.
  { unfold as_inverted, of_bits. cbn [selectors]. rewrite <- Er. apply bb_finish_spec. }
  assert (bb_bits (selectors (from_consecutive_ranges ranges total_rows)) = rows_from ranges 0 total_rows) as Ef.
  { unfold from_consecutive_ranges.
    destruct (append_ranges_ok ranges 0 total_rows [] ltac:(lia) Ho Ht) as (last' & -> & Hl & Hn).
    cbn [app]. unfold of_bits. cbn [selectors]. destruct (bb_finish_spec (if negb (last' =? total_rows)
      then rows_from ranges 0 last' ++ replicate (Z.to_nat (usize (total_rows - last'))) false
      else rows_from ranges 0 last')) as (-> & _).
    rewrite (rows_from_split _ 0 last' total_rows) by lia.
    rewrite (rows_from_const _ last' total_rows false) by (intros i Hi; apply Hn; lia).
    destruct (last' =? total_rows) eqn:E; cbn [negb]; [|by machine].
    assert (last' = total_rows) as -> by lia. rewrite Z.sub_diag. by rewrite app_nil_r. }
  split; [|split; [|split; [done|split; [done|split]]]].
  - intros i Hi. rewrite Ef. unfold rows_from. rewrite list_lookup_fmap, lookup_seq_lt by lia.
    cbn. do 2 f_equal. lia.
  - unfold bs_len. rewrite <- bb_bits_length, Ef. unfold rows_from. rewrite length_fmap, length_seq.
    pose proof (ordered_total _ _ _ Ho). lia.
  - unfold bs_row_count, bs_len. rewrite <- bb_bits_length, Ei, Er. clear.
    induction (rows (rs_selectors s)) as [|b l IH]; [done|]. cbn [fmap list_fmap length].
    rewrite !count_set_cons. destruct b; cbn [negb]; lia.
  - intros b Hb. apply and_then_ok; [|done]. unfold from_consecutive_ranges.
    destruct (append_ranges _ _ _). apply of_bits_bits.
Qed.

Lemma ranges_and_runs_select_witness :
  bb_bits (selectors (from_consecutive_ranges [(1, 3); (3, 3); (5, 6)] 8))
  !! 5%nat = Some true.
Proof.
  destruct (ranges_and_runs_select [(1, 3); (3, 3); (5, 6)] 8 (rs_from [])) as (E & _).
  - cbn. lia.
  - lia.
  - change 5%nat with (Z.to_nat 5). rewrite (E 5) by lia. vm_compute. reflexivity.
Defined.
