(* ===== verification/ColumnCache.v ===== *)
(** * Cached columns and row groups

    Model of [src/src/parquet/src/cache/column.rs], of [CachedRowGroup] in
    [src/src/parquet/src/cache/mod.rs] and of
    [src/src/parquet/src/reader/runtime/liquid_predicate.rs]: the batches of a
    column as entries of the cache, reading them, evaluating a predicate on them,
    inserting them.  A field is what these functions look up of it (its metadata
    are parsed already); DataFusion's expressions and arrow's record batches are
    third-party: the class [RecordBatches]. *)

From stdpp Require Import base list gmap strings.
From Stdlib Require Import ZArith String Lia.
From S2P Require Import Prelude CachePolicy CivilDate DataTypes Expressions Budget VariantSchema.
From S2P Require Import Formats Observer CacheEntry Transcode Squeeze Hydration Core Builders ParquetIds.

(** What the downcasts of a physical expression find. *)
Inductive PhysExpr (E : Type) : Type :=
| EBinary (is_or : bool) (lhs rhs : PhysExpr E)
| ELike (expr pattern : PhysExpr E)
| ECast (expr : PhysExpr E)
| EColumn (name : string) (self : E)
| ELiteral
| EOther.
Arguments EBinary {E}.
Arguments ELike {E}.
Arguments ECast {E}.
Arguments EColumn {E}.
Arguments ELiteral {E}.
Arguments EOther {E}.

Class RecordBatches {AL : ArrowLib} : Type := {
  expr_tree : PhysicalExpr → PhysExpr PhysicalExpr;
  (** [LiquidPredicate::evaluate] on a batch of these columns: the schema mapper
      and the evaluation of the expression; [None] is an error. *)
  expr_evaluate : PhysicalExpr → list ArrayRef → option BooleanArray;
  or_kleene : BooleanArray → BooleanArray → option BooleanArray;
  RecordBatch : Type;
  (** [RecordBatch::try_new], and a batch of no columns with a row count. *)
  batch_new : list ArrayRef → option RecordBatch;
  batch_of_rows : nat → RecordBatch
}.

(** [LiquidPredicate]: the expression over its own batch, the same over the
    columns of the file, and the columns it reads. *)
Record LiquidPredicate {AL : ArrowLib} : Type := Predicate {
  physical_expr : PhysicalExpr;
  physical_expr_physical_column_index : PhysicalExpr;
  predicate_column_ids : list Z
}.

(** ** Predicates over several columns *)

Fixpoint extract_column_literal {E} (expr : PhysExpr E) : option (string * E) :=
  match expr with
  | EBinary _ lhs ELiteral => extract_column_literal lhs
  | ELike expr ELiteral => extract_column_literal expr
  | ECast expr => extract_column_literal expr
  | EColumn name self => Some (name, self)
  | _ => None
  end.

(** The answer and the pairs collected so far. *)
Fixpoint collect_or_expressions {E} (expr : PhysExpr E) (result : list (string * E))
    : bool * list (string * E) :=
  match expr with
  | EBinary true lhs rhs =>
      let '(ok, result) := collect_or_expressions lhs result in
      if ok then collect_or_expressions rhs result else (false, result)
  | _ =>
      match extract_column_literal expr with
      | Some column_literal => (true, result ++ [column_literal])
      | None => (false, result)
      end
  end.

Definition extract_multi_column_or {E} (expr : PhysExpr E) : option (list (string * E)) :=
  let '(ok, result) := collect_or_expressions expr [] in
  if ok && (2 <=? List.length result)%nat then Some result else None.

(** ** Fields *)

Record ParquetField : Type := PField {
  pf_name : string;
  pf_data_type : DataType;
  pf_date_mapping : option string;
  pf_fingerprint : bool;
  pf_variant : bool;
  pf_variant_mappings : option (list (string * option DataType))
}.

Fixpoint is_string_type (data_type : DataType) : bool :=
  match data_type with
  | TUtf8 | TUtf8View | TLargeUtf8 => true
  | TDictionary _ value_type => is_string_type value_type
  | _ => false
  end.

Definition typed_specs (mappings : list (string * option DataType)) : list (string * DataType) :=
  omap (λ m, (λ t, (m.1, t)) <$> m.2) mappings.

Definition is_date_or_timestamp (t : DataType) : bool :=
  match t with TDate32 | TTimestamp _ _ => true | _ => false end.

Definition infer_expression (field : ParquetField) : option Hint :=
  match
    mapping ← pf_date_mapping field;
    if is_date_or_timestamp (pf_data_type field) then try_from_date_part_str mapping else None
  with
  | Some expr => Some expr
  | None =>
      if pf_fingerprint field && is_string_type (pf_data_type field)
      then Some substring_search
      else if pf_variant field then
        match pf_variant_mappings field with
        | Some mappings =>
            match typed_specs mappings with
            | [] => None
            | specs => Some (VariantGet ((λ r, VRequest r.1 r.2) <$> specs))
            end
        | None => None
        end
      else None
  end.

Section column.
Context {AL : ArrowLib} {LF : LiquidFormats} {VL : VariantLib} {RB : RecordBatches}.
Context {P : Type} {CP : CachePolicy P}.
Context (squeeze_policy : SqueezePolicy) (hydration_policy : HydrationPolicy).

Local Abbreviation LiquidCache := (Core.LiquidCache P).

(** ** Shredded variants *)

(** [contains_segments] of [src/src/storage/src/utils/variant_utils.rs]. *)
Fixpoint contains_segments (current : StructArray) (segments : list string) : bool :=
  match segments with
  | [] => false
  | segment :: rest =>
      match column_by_name current segment ≫= as_struct with
      | None => false
      | Some struct_field =>
          match rest with
          | [] => match column_by_name struct_field "typed_value" with Some _ => true | None => false end
          | _ =>
              match column_by_name struct_field "typed_value" ≫= as_struct with
              | Some next => contains_segments next rest
              | None => false
              end
          end
      end
  end.

Definition typed_struct_contains_path (root : StructArray) (path : string) : bool :=
  contains_segments root (split_variant_path path).

Definition variant_contains_typed_field (array : VariantArray) (path : string) : bool :=
  match typed_value_field array ≫= as_struct with
  | Some typed_root => typed_struct_contains_path typed_root path
  | None => false
  end.

Definition shred_variant_array (array : ArrayRef) (field : ParquetField)
    (specs : list (string * DataType)) : option ArrayRef :=
  match specs with
  | [] => None
  | _ =>
      variant_array ← variant_try_new array;
      match List.filter (λ spec, negb (variant_contains_typed_field variant_array spec.1)) specs with
      | [] => None
      | missing_specs =>
          match pf_data_type field with
          | TStruct target_fields =>
              typed_schema ← List.find (λ child, String.eqb (f_name child) "typed_value") target_fields;
              let schema := foldl (λ schema spec, insert_path spec.1 spec.2 schema)
                              (vs_new (Some typed_schema)) missing_specs in
              shredding_schema ← shredding_type schema;
              unshredded ← unshred_variant variant_array;
              shredded ← shred_variant unshredded shredding_schema;
              Some (struct_ref (variant_inner shredded))
          | _ => None
          end
      end
  end.

Definition maybe_shred_variant_array (array : ArrayRef) (field : ParquetField) : option ArrayRef :=
  mappings ← pf_variant_mappings field;
  match typed_specs mappings with
  | [] => None
  | specs => shred_variant_array array field specs
  end.

(** ** Columns *)

Record CachedColumn : Type := Column {
  cc_field : ParquetField;
  cc_path : ColumnAccessPath;
  cc_expression : option Hint
}.

Definition column_entry_id (c : CachedColumn) (b : BatchID) : EntryID :=
  usize_of_id (entry_id (cc_path c) b).

(** The hint goes to the entry of the first batch. *)
Definition column_new (field : ParquetField) (path : ColumnAccessPath)
    (is_predicate_column : bool) (s : LiquidCache) : CachedColumn * LiquidCache :=
  let expression := infer_expression field in
  let hint_entry_id := usize_of_id (entry_id path (from_raw 0)) in
  let s :=
    match expression with
    | Some expr => add_squeeze_hint hint_entry_id expr s
    | None => if is_predicate_column then add_squeeze_hint hint_entry_id PredicateColumn s else s
    end in
  (Column field path expression, s).

Definition column_is_cached (c : CachedColumn) (b : BatchID) (s : LiquidCache) : bool :=
  is_cached (column_entry_id c b) s.

(** [null_count() == 0] or [prep_null_mask_filter]: a null is a row refused. *)
Definition prep_null_mask_filter (a : BooleanArray) : list bool := default false <$> a.

Definition eval_predicate_with_filter (fuel : nat) (c : CachedColumn) (b : BatchID)
    (filter : list bool) (predicate : LiquidPredicate) (s : LiquidCache)
    : outcome (option (result (list bool)) * LiquidCache) :=
  '(r, s) ← eval_read squeeze_policy hydration_policy fuel
    (eval_with_selection filter
       (eval_new (column_entry_id c b) (physical_expr_physical_column_index predicate))) s;
  match r with
  | None => Ret (None, s)
  | Some (inl boolean_array) => Ret (Some (Ok (prep_null_mask_filter boolean_array)), s)
  | Some (inr array) =>
      let array := default array (maybe_shred_variant_array array (cc_field c)) in
      _ ← expect (batch_new [array]);
      match expr_evaluate (physical_expr predicate) [array] with
      | None => Ret (Some Err, s)
      | Some boolean_array => Ret (Some (Ok (prep_null_mask_filter boolean_array)), s)
      end
  end.

Definition get_arrow_array_with_filter (fuel : nat) (c : CachedColumn) (b : BatchID)
    (filter : list bool) (s : LiquidCache) : outcome (option ArrayRef * LiquidCache) :=
  '(r, s) ← get_read squeeze_policy hydration_policy fuel
    (get_with_expression_hint (cc_expression c)
       (get_with_selection filter (get_new (column_entry_id c b)))) s;
  Ret (option_map (λ array, default array (maybe_shred_variant_array array (cc_field c))) r, s).

(** [Err] is [AlreadyCached]. *)
Definition column_insert (fuel : nat) (c : CachedColumn) (b : BatchID) (array : ArrayRef)
    (s : LiquidCache) : outcome (result unit * LiquidCache) :=
  if column_is_cached c b s then Ret (Err, s)
  else
    let array := default array (maybe_shred_variant_array array (cc_field c)) in
    s ← insert_run squeeze_policy fuel (insert_new (column_entry_id c b) array) s;
    Ret (Ok tt, s).

(** ** Row groups *)

Record CachedRowGroup : Type := RowGroup {
  by_id : gmap Z CachedColumn;
  by_name : gmap string CachedColumn
}.

Fixpoint row_group_new (row_group_idx file_idx : Z)
    (columns : list (Z * ParquetField * bool)) (g : CachedRowGroup) (s : LiquidCache)
    : CachedRowGroup * LiquidCache :=
  match columns with
  | [] => (g, s)
  | (column_id, field, is_predicate_column) :: columns =>
      let '(column, s) :=
        column_new field (access_path_new file_idx row_group_idx column_id)
          is_predicate_column s in
      row_group_new row_group_idx file_idx columns
        (RowGroup (<[column_id := column]> (by_id g)) (<[pf_name field := column]> (by_name g))) s
  end.

Definition create_row_group (file_id : Z) (fields : list ParquetField)
    (row_group_id : Z) (predicate_column_ids : list Z) (s : LiquidCache) : CachedRowGroup * LiquidCache :=
  row_group_new row_group_id file_id
    (imap (λ idx field, (Z.of_nat idx, field, bool_decide (Z.of_nat idx ∈ predicate_column_ids))) fields)
    (RowGroup ∅ ∅) s.

Definition get_column (column_id : Z) (g : CachedRowGroup) : option CachedColumn := by_id g !! column_id.

Definition get_column_by_name (name : string) (g : CachedRowGroup) : option CachedColumn :=
  by_name g !! name.

(** The loop over the columns of a disjunction: [None] when the function returns
    [None] itself, otherwise the combined buffer it leaves. *)
Fixpoint eval_disjunction (fuel : nat) (g : CachedRowGroup) (b : BatchID) (selection : list bool)
    (column_exprs : list (string * PhysicalExpr)) (combined : option BooleanArray) (s : LiquidCache)
    : outcome (option (option BooleanArray) * LiquidCache) :=
  match column_exprs with
  | [] => Ret (Some combined, s)
  | (col_name, expr) :: column_exprs =>
      match get_column_by_name col_name g with
      | None => Ret (None, s)
      | Some column =>
          '(liquid_array, s) ←
            try_read_liquid squeeze_policy hydration_policy fuel (column_entry_id column b) s;
          match liquid_array with
          | None => Ret (Some None, s)
          | Some array =>
              buffer ← l_try_eval array expr selection;
              match buffer with
              | None => Ret (Some None, s)
              | Some buffer =>
                  match combined with
                  | None => eval_disjunction fuel g b selection column_exprs (Some buffer) s
                  | Some existing =>
                      match or_kleene existing buffer with
                      | None => Ret (None, s)
                      | Some buffer => eval_disjunction fuel g b selection column_exprs (Some buffer) s
                      end
                  end
              end
          end
      end
  end.

(** The columns of a predicate as Arrow arrays, or [None]. *)
Fixpoint read_columns (fuel : nat) (g : CachedRowGroup) (b : BatchID) (selection : list bool)
    (column_ids : list Z) (s : LiquidCache) : outcome (option (list ArrayRef) * LiquidCache) :=
  match column_ids with
  | [] => Ret (Some [], s)
  | column_id :: column_ids =>
      match get_column column_id g with
      | None => Ret (None, s)
      | Some column =>
          '(array, s) ← get_arrow_array_with_filter fuel column b selection s;
          match array with
          | None => Ret (None, s)
          | Some array =>
              '(arrays, s) ← read_columns fuel g b selection column_ids s;
              Ret (option_map (cons array) arrays, s)
          end
      end
  end.

Definition evaluate_on_arrays (fuel : nat) (g : CachedRowGroup) (b : BatchID) (selection : list bool)
    (predicate : LiquidPredicate) (s : LiquidCache)
    : outcome (option (result BooleanArray) * LiquidCache) :=
  '(arrays, s) ← read_columns fuel g b selection (predicate_column_ids predicate) s;
  match arrays with
  | None => Ret (None, s)
  | Some arrays =>
      _ ← expect (batch_new arrays);
      boolean_array ← expect (expr_evaluate (physical_expr predicate) arrays);
      Ret (Some (Ok boolean_array), s)
  end.

Definition some_rows (bits : list bool) : BooleanArray := Some <$> bits.

Definition evaluate_selection_with_predicate (fuel : nat) (g : CachedRowGroup) (b : BatchID)
    (selection : list bool) (predicate : LiquidPredicate) (s : LiquidCache)
    : outcome (option (result BooleanArray) * LiquidCache) :=
  match predicate_column_ids predicate with
  | [column_id] =>
      match get_column column_id g with
      | None => Ret (None, s)
      | Some cache =>
          '(r, s) ← eval_predicate_with_filter fuel cache b selection predicate s;
          match r with
          | None => Ret (None, s)
          | Some Err => Ret (Some Err, s)
          | Some (Ok bits) => Ret (Some (Ok (some_rows bits)), s)
          end
      end
  | column_ids =>
      let column_exprs :=
        if (2 <=? List.length column_ids)%nat
        then extract_multi_column_or (expr_tree (physical_expr_physical_column_index predicate))
        else None in
      match column_exprs with
      | None => evaluate_on_arrays fuel g b selection predicate s
      | Some column_exprs =>
          '(combined, s) ← eval_disjunction fuel g b selection column_exprs None s;
          match combined with
          | None => Ret (None, s)
          | Some (Some buffer) => Ret (Some (Ok buffer), s)
          | Some None => evaluate_on_arrays fuel g b selection predicate s
          end
      end
  end.
End column.
Arguments CachedColumn : clear implicits.
Arguments CachedRowGroup : clear implicits.
