(* ===== verification/Reader.v ===== *)
(** * The row group reader

    Model of [src/src/parquet/src/reader/runtime/liquid_cache_reader.rs]: the
    stream of record batches of a cached row group.  A future runs to its end in
    one step ([Processing] is not a state of its own); the stream is the list of
    its items. *)

From stdpp Require Import base list gmap strings.
From Stdlib Require Import ZArith String Lia.
From S2P Require Import Prelude CachePolicy CivilDate DataTypes Expressions Budget BooleanBuffers AndThen.
From S2P Require Import Formats Observer CacheEntry Transcode Squeeze Hydration Core Builders.
From S2P Require Import CoreInv CoreOps CoreReads ParquetIds RowSelection ColumnCache.

(** The values of a boolean array as a boolean buffer ([into_parts]). *)
Class MaskBuffers {BB : BooleanBuffers} : Type := {
  mask_buffer : list bool → BooleanBuffers.BooleanBuffer
}.

Section reader.
Context {AL : ArrowLib} {LF : LiquidFormats} {VL : VariantLib} {RB : RecordBatches}.
Context {BB : BooleanBuffers} {MB : MaskBuffers}.
Context {P : Type} {CP : CachePolicy P}.
Context (squeeze_policy : SqueezePolicy) (hydration_policy : HydrationPolicy) (bmi2 : bool).

Local Abbreviation LiquidCache := (Core.LiquidCache P).

Record LiquidCacheReaderInner : Type := ReaderInner {
  cached_row_group : CachedRowGroup;
  current_batch_id : BatchID;
  selection : list RowSelector;
  batch_size : Z;
  projection_columns : list Z
}.

Inductive ProcessResult : Type :=
| Emit (r : result RecordBatch)
| Skip.

Definition set_selection (l : list RowSelector) (r : LiquidCacheReaderInner) : LiquidCacheReaderInner :=
  ReaderInner (cached_row_group r) (current_batch_id r) l (batch_size r) (projection_columns r).

Definition next_batch_id (r : LiquidCacheReaderInner) : LiquidCacheReaderInner :=
  ReaderInner (cached_row_group r) (ParquetIds.inc (current_batch_id r)) (selection r) (batch_size r)
    (projection_columns r).

Definition reader_new (batch_size : Z) (selection : list RowSelector) (g : CachedRowGroup)
    (projection_columns : list Z) : LiquidCacheReaderInner :=
  ReaderInner g (from_raw 0) selection batch_size projection_columns.

(** The loop over the predicates; a predicate that is not answered panics. *)
Fixpoint apply_predicates (fuel : nat) (r : LiquidCacheReaderInner) (predicates : list LiquidPredicate)
    (input_selection : BooleanBuffers.BooleanBuffer) (s : LiquidCache)
    : outcome (result BooleanBuffers.BooleanBuffer * LiquidCache) :=
  match predicates with
  | [] => Ret (Ok input_selection, s)
  | predicate :: predicates =>
      if (count_set (bb_bits input_selection) =? 0)%nat then Ret (Ok input_selection, s)
      else
        '(answer, s) ←
          evaluate_selection_with_predicate squeeze_policy hydration_policy fuel (cached_row_group r)
            (current_batch_id r) (bb_bits input_selection) predicate s;
        answer ← expect answer;
        match answer with
        | Err => Ret (Err, s)
        | Ok boolean_array =>
            input_selection ←
              boolean_buffer_and_then bmi2 input_selection
                (mask_buffer (prep_null_mask_filter boolean_array));
            apply_predicates fuel r predicates input_selection s
        end
  end.

Definition build_predicate_filter (fuel : nat) (r : LiquidCacheReaderInner)
    (row_filter : option (list LiquidPredicate)) (batch : list RowSelector) (s : LiquidCache)
    : outcome (result BooleanBuffers.BooleanBuffer * LiquidCache) :=
  let input_selection := bb_finish (row_selector_to_boolean_buffer batch) in
  match row_filter with
  | None => Ret (Ok input_selection, s)
  | Some predicates => apply_predicates fuel r predicates input_selection s
  end.

(** The loop over the projected columns; [Err] when one is missing. *)
Fixpoint read_projection (fuel : nat) (r : LiquidCacheReaderInner) (columns : list Z)
    (selected : list bool) (s : LiquidCache) : outcome (result (list ArrayRef) * LiquidCache) :=
  match columns with
  | [] => Ret (Ok [], s)
  | column_idx :: columns =>
      match get_column column_idx (cached_row_group r) with
      | None => Ret (Err, s)
      | Some column =>
          '(array, s) ←
            get_arrow_array_with_filter squeeze_policy hydration_policy fuel column
              (current_batch_id r) selected s;
          match array with
          | None => Ret (Err, s)
          | Some array =>
              '(arrays, s) ← read_projection fuel r columns selected s;
              Ret (match arrays with Ok arrays => Ok (array :: arrays) | Err => Err end, s)
          end
      end
  end.

Definition read_from_cache (fuel : nat) (r : LiquidCacheReaderInner) (selected : list bool)
    (s : LiquidCache) : outcome (result (option RecordBatch) * LiquidCache) :=
  let selected_rows := count_set selected in
  if (selected_rows =? 0)%nat then Ret (Ok None, s)
  else
    match projection_columns r with
    | [] => Ret (Ok (Some (batch_of_rows selected_rows)), s)
    | columns =>
        '(arrays, s) ← read_projection fuel r columns selected s;
        match arrays with
        | Err => Ret (Err, s)
        | Ok arrays => batch ← expect (batch_new arrays); Ret (Ok (Some batch), s)
        end
    end.

(** A batch that fails leaves the batch number as it was. *)
Definition next_batch (fuel : nat) (r : LiquidCacheReaderInner)
    (row_filter : option (list LiquidPredicate)) (batch : list RowSelector) (s : LiquidCache)
    : outcome (LiquidCacheReaderInner * ProcessResult * LiquidCache) :=
  '(filter, s) ← build_predicate_filter fuel r row_filter batch s;
  match filter with
  | Err => Ret (r, Emit Err, s)
  | Ok filter =>
      '(batch, s) ← read_from_cache fuel r (bb_bits filter) s;
      match batch with
      | Ok (Some batch) => Ret (next_batch_id r, Emit (Ok batch), s)
      | Ok None => Ret (next_batch_id r, Skip, s)
      | Err => Ret (r, Emit Err, s)
      end
  end.

(** [poll_next] until the stream is finished: the items it gives. *)
Fixpoint run_stream (rounds fuel : nat) (r : LiquidCacheReaderInner)
    (row_filter : option (list LiquidPredicate)) (s : LiquidCache)
    : outcome (list (result RecordBatch) * LiquidCache) :=
  match rounds with
  | 0 => NoFuel
  | Datatypes.S rounds =>
      match take_next_batch (selection r) (batch_size r) with
      | (None, _) => Ret ([], s)
      | (Some batch, rest) =>
          '(r, item, s) ← next_batch fuel (set_selection rest r) row_filter batch s;
          '(items, s) ← run_stream rounds fuel r row_filter s;
          Ret (match item with Emit item => item :: items | Skip => items end, s)
      end
  end.
End reader.
Arguments LiquidCacheReaderInner : clear implicits.
