(* ===== verification/ReaderSpec.v ===== *)
(** * What the reader promises

    Reading a cached row group gives, batch after batch, the rows of the
    projected columns that the selection and every predicate keep.  The third
    parties are asked for what their documentation says ([RecordBatchLaws]): a
    predicate is evaluated row by row, a record batch keeps its arrays. *)

From stdpp Require Import base list gmap strings.
From Stdlib Require Import ZArith String Lia.
From S2P Require Import Prelude CachePolicy LiquidPolicy CivilDate DataTypes Expressions Budget BooleanBuffers AndThen.
From S2P Require Import Formats SampleFormats Observer CacheEntry Transcode Squeeze Hydration Core.
From S2P Require Import Builders CoreInv CoreOps CoreReads ParquetIds RowSelection ColumnCache Reader.

(** [prows e vs] is the answer of the expression on each row of the columns. *)
Class RecordBatchLaws {AL : ArrowLib} {LF : LiquidFormats} {FL : FormatLaws} {RB : RecordBatches} : Type := {
  brows : RecordBatch → nat;
  barrays : RecordBatch → list ArrayRef;
  prows : PhysicalExpr → list Val → BooleanArray;
  batch_new_ok arrays n :
    arrays ≠ [] → Forall (λ a, arr_len a = n) arrays →
    ∃ b, batch_new arrays = Some b ∧ barrays b = arrays ∧ brows b = n;
  batch_of_rows_ok n : brows (batch_of_rows n) = n ∧ barrays (batch_of_rows n) = [];
  expr_evaluate_ok e arrays : arrays ≠ [] → expr_evaluate e arrays = Some (prows e (den <$> arrays));
  prows_length e vs n : vs ≠ [] → Forall (λ v, vlen v = n) vs → List.length (prows e vs) = n;
  prows_filter e vs m n :
    vs ≠ [] → Forall (λ v, vlen v = n) vs → List.length m <= n →
    prows e ((λ v, vfilter v m) <$> vs) = keep (prows e vs) m;
  vfilter_len v m : List.length m <= vlen v → vlen (vfilter v m) = count_set m
}.

(** The masks are buffers of their own, from bit 0 on, long enough for the BMI2
    version where it is used. *)
Class MaskLaws (bmi2 : bool) {BB : BooleanBuffers} {MB : MaskBuffers} : Prop := {
  mask_bits l : bb_bits (mask_buffer l) = l;
  mask_offset l : bb_offset (mask_buffer l) = 0%nat;
  mask_long l : bmi2 = true → (16 <= List.length (bb_values (mask_buffer l)))%nat
}.

Lemma keep_length {A} (l : list A) m :
  List.length m <= List.length l → List.length (keep l m) = count_set m.
Proof.
  revert m. induction l as [|x l IH]; intros [|b m] Hl; cbn [List.length] in Hl; try done; [lia|].
  rewrite count_set_cons. cbn [keep]. destruct b; cbn [List.length]; rewrite IH by lia; done.
Qed.

(** A mask computed on the selected rows only, put back on all rows. *)
Lemma deposit_keep (l : list bool) (r : list (option bool)) :
  List.length l <= List.length r →
  deposit l (prep_null_mask_filter (keep r l)) = zip_with andb l (prep_null_mask_filter r).
Proof.
  revert r. induction l as [|b l IH]; intros [|o r] Hl; cbn [List.length] in Hl; try done; [lia|].
  unfold prep_null_mask_filter in *. destruct b; cbn; rewrite IH by lia; done.
Qed.

Lemma none_selected l (r : list bool) :
  List.length l <= List.length r → count_set l = 0%nat → zip_with andb l r = l.
Proof.
  revert r. induction l as [|b l IH]; intros [|y r] Hl Hc; cbn [List.length] in Hl; try done; [lia|].
  rewrite count_set_cons in Hc. destruct b; [lia|]. cbn. rewrite IH by lia. done.
Qed.

Lemma count_set_and l (r : list bool) : count_set (zip_with andb l r) <= count_set l.
Proof.
  revert r. induction l as [|b l IH]; intros [|y r]; cbn [zip_with]; [done|done|cbn; lia|].
  rewrite !count_set_cons. specialize (IH r). destruct b, y; cbn [andb]; lia.
Qed.

Section reader.
Context {AL : ArrowLib} {LF : LiquidFormats} {VL : VariantLib} {FL : FormatLaws}.
Context {RB : RecordBatches} {RL : RecordBatchLaws}.
Context {BB : BooleanBuffers} {BL : BooleanBufferLaws} {MB : MaskBuffers}.
Context {P : Type} {CP : CachePolicy P} {PL : PolicyLaws P} {MO : MemoryOnlyPolicy P}.
Context (squeeze_policy : SqueezePolicy) (hydration_policy : HydrationPolicy) (bmi2 : bool).
Context {SL : SqueezeLaws squeeze_policy} {HL : HydrationLaws hydration_policy} {ML : MaskLaws bmi2}.

(** What the cache holds for a row group: [value col k] is the [k]-th batch of
    the column [col]; [n] its number of rows. *)
Context (g : CachedRowGroup) (value : Z → nat → Val).

Definition exact (c : CachedColumn) : Prop :=
  match cc_expression c with Some (ExtractDate32 _) => False | _ => True end.

Record column_ok (m : gmap Z Val) (k n : nat) (col : Z) (c : CachedColumn) : Prop := {
  co_column : get_column col g = Some c;
  co_plain : hint_plain (cc_expression c);
  co_unmapped : pf_variant_mappings (cc_field c) = None;
  co_value : m !! column_entry_id c (Batch (Z.of_nat k)) = Some (value col k);
  co_rows : vlen (value col k) = n
}.

(** A predicate is one expression, over one column or over several that are
    read as they are; it is not a disjunction of conditions on single columns. *)
Record predicate_ok (m : gmap Z Val) (k n : nat) (p : LiquidPredicate) : Prop := {
  po_columns : predicate_column_ids p ≠ [];
  po_values : Forall (λ col, ∃ c, column_ok m k n col c
    ∧ (2 <= List.length (predicate_column_ids p) → exact c)%nat) (predicate_column_ids p);
  po_same v : List.length (predicate_column_ids p) = 1%nat →
    peval (physical_expr_physical_column_index p) v = prows (physical_expr p) [v];
  po_plain : (2 <= List.length (predicate_column_ids p))%nat →
    extract_multi_column_or (expr_tree (physical_expr_physical_column_index p)) = None
}.

(** The answer of a predicate on the rows of the [k]-th batch. *)
Definition answer (k : nat) (p : LiquidPredicate) : list bool :=
  prep_null_mask_filter
    (prows (physical_expr p) ((λ col, value col k) <$> predicate_column_ids p)).

Definition keep_rows (k : nat) (predicates : list LiquidPredicate) (sel : list bool) : list bool :=
  foldl (λ sel p, zip_with andb sel (answer k p)) sel predicates.

(** ** Columns *)

Lemma no_shredding c (a : ArrayRef) :
  pf_variant_mappings (cc_field c) = None → maybe_shred_variant_array a (cc_field c) = None.
Proof. intros E. unfold maybe_shred_variant_array. by rewrite E. Qed.

Lemma get_filtered_ok fuel k n col c sel (s : LiquidCache P) m :
  cache_inv None s m → column_ok m k n col c → List.length sel <= n → enough fuel s →
  ∃ a s', get_arrow_array_with_filter squeeze_policy hydration_policy fuel c (Batch (Z.of_nat k)) sel s
          = Ret (Some a, s')
          ∧ advanced s s' m ∧ read_obs (cc_expression c) (value col k) (Some sel) a
          ∧ arr_len a = count_set sel.
Proof.
  intros I [_ Hp Hn Hv Hl] Hs Hf. unfold get_arrow_array_with_filter, get_read.
  set (id := column_entry_id c (Batch (Z.of_nat k))).
  set (s1 := set_observer _ s).
  assert (cache_inv None s1 m) as I1 by (eapply cache_inv_same; [|exact I]; done).
  cbn [get_with_expression_hint get_with_selection get_new gt_entry_id gt_selection gt_expression_hint].
  assert (∀ v, m !! id = Some v → selection_fits v (Some sel)) as Hfit.
  { intros v Ev. cbn. unfold id in Ev. rewrite Hv in Ev. injection Ev as <-. lia. }
  destruct (read_arrow_ok squeeze_policy hydration_policy fuel id (Some sel) (cc_expression c) s1 m I1
              Hp Hfit Hf) as (r & s2 & Hr & I2 & Ho).
  rewrite Hr. run_step. unfold id in Ho. rewrite Hv in Ho. destruct Ho as (a & -> & Ho).
  cbn [option_map]. rewrite no_shredding by done. cbn [default].
  exists a, s2. split_and!; [done|done|done|].
  rewrite <- den_len. destruct Ho as [->|(f & _ & ->)]; apply vfilter_len; rewrite ?extracted_len; lia.
Qed.

Lemma read_obs_exact c v sel (a : ArrayRef) :
  exact c → read_obs (cc_expression c) v sel a → den a = vsel v sel.
Proof. unfold exact. intros He [?|(f & E & _)]; [done|]. by rewrite E in He. Qed.

Lemma read_columns_ok fuel k n cols sel (s : LiquidCache P) m :
  cache_inv None s m → Forall (λ col, ∃ c, column_ok m k n col c ∧ exact c) cols →
  List.length sel <= n → (weight s + 7 * Z.of_nat (List.length cols) + 3 < Z.of_nat fuel)%Z →
  ∃ arrays s', read_columns squeeze_policy hydration_policy fuel g (Batch (Z.of_nat k)) sel cols s
               = Ret (Some arrays, s')
    ∧ cache_inv None s' m ∧ (weight s' <= weight s + 7 * Z.of_nat (List.length cols))%Z
    ∧ den <$> arrays = (λ col, vfilter (value col k) sel) <$> cols
    ∧ Forall (λ a, arr_len a = count_set sel) arrays.
Proof.
  revert s. induction cols as [|col cols IH]; intros s I F Hs Hf.
  { exists [], s. split_and!; [done|done|cbn; lia|done|constructor]. }
  apply Forall_cons in F as [(c & C & He) F]. cbn [List.length read_columns] in *.
  rewrite (co_column _ _ _ _ _ C).
  destruct (get_filtered_ok fuel k n col c sel s m I C Hs) as (a & s1 & -> & [I1 Hw1] & Ho & Hl);
    [unfold enough; lia|]. run_step.
  destruct (IH s1 I1 F Hs ltac:(lia)) as (arrays & s2 & -> & I2 & Hw2 & Hd & Fl). run_step.
  cbn [option_map]. exists (a :: arrays), s2. split_and!; [done|done|lia| |by constructor].
  cbn [fmap list_fmap]. rewrite (read_obs_exact c _ _ a He Ho). cbn. f_equal. exact Hd.
Qed.

(** A batch put into a column becomes what its entry holds. *)
Lemma column_insert_ok fuel c b a (s : LiquidCache P) m :
  cache_inv None s m → pf_variant_mappings (cc_field c) = None → column_is_cached c b s = false →
  is_usize (column_entry_id c b) → dictionary_supported (arr_data_type a) = true →
  arr_depth a < fuel → enough fuel s →
  ∃ s', column_insert squeeze_policy fuel c b a s = Ret (Ok tt, s')
    ∧ advanced s s' (<[column_entry_id c b := den a]> m).
Proof.
  intros I Hn Hc Hid Hd Hdep Hf. unfold column_insert. rewrite Hc, no_shredding by done.
  unfold insert_run. cbn [default in_skip_gc in_batch insert_new in_squeeze_hint in_entry_id].
  destruct (maybe_gc_ok fuel a Hdep) as (r & -> & Hr). run_step.
  set (a' := default a r). assert (den a' = den a) as Ea by (unfold a'; destruct r; [by apply Hr|done]).
  destruct (insert_inner_ok squeeze_policy fuel (column_entry_id c b) (MemoryArrow a') (den a) None s m I Hid)
    as (s' & -> & Hs & _).
  - by rewrite den_type.
  - split; [done|]. left. split; [done|cbn; lia].
  - unfold enough, rank_z in *. cbn. lia.
  - run_step. by exists s'.
Qed.

(** ** Predicates *)

Lemma filtered_lengths m k n (p : LiquidPredicate) :
  predicate_ok m k n p → Forall (λ v, vlen v = n) ((λ col, value col k) <$> predicate_column_ids p).
Proof.
  intros [_ F _ _]. apply Forall_fmap. eapply Forall_impl; [exact F|].
  intros col (c & C & _). apply (co_rows _ _ _ _ _ C).
Qed.

Lemma answer_length m k n p : predicate_ok m k n p → List.length (answer k p) = n.
Proof.
  intros O. unfold answer, prep_null_mask_filter. rewrite length_fmap. apply prows_length.
  - pose proof (po_columns _ _ _ _ O). by destruct (predicate_column_ids p).
  - by eapply filtered_lengths.
Qed.

(** A predicate on the selected rows answers as it does on all of them. *)
Lemma answer_filtered m k n p sel :
  predicate_ok m k n p → List.length sel <= n →
  prows (physical_expr p) ((λ col, vfilter (value col k) sel) <$> predicate_column_ids p)
  = keep (prows (physical_expr p) ((λ col, value col k) <$> predicate_column_ids p)) sel.
Proof.
  intros O Hs. rewrite <- (prows_filter _ _ _ n); [| |by eapply filtered_lengths|done].
  - by rewrite <- list_fmap_compose.
  - pose proof (po_columns _ _ _ _ O). by destruct (predicate_column_ids p).
Qed.

Lemma eval_column_ok fuel k n col c p sel (s : LiquidCache P) m :
  cache_inv None s m → column_ok m k n col c → List.length sel <= n → enough fuel s →
  (∀ v, peval (physical_expr_physical_column_index p) v = prows (physical_expr p) [v]) →
  ∃ s', eval_predicate_with_filter squeeze_policy hydration_policy fuel c (Batch (Z.of_nat k)) sel p s
        = Ret (Some (Ok (prep_null_mask_filter (prows (physical_expr p) [vfilter (value col k) sel]))), s')
        ∧ advanced s s' m.
Proof.
  intros I [_ Hp Hn Hv Hl] Hs Hf He. unfold eval_predicate_with_filter, eval_read.
  set (id := column_entry_id c (Batch (Z.of_nat k))).
  cbn [eval_with_selection eval_new ev_entry_id ev_predicate ev_selection].
  assert (∀ v, m !! id = Some v → selection_fits v (Some sel)) as Hfit.
  { intros v Ev. cbn. unfold id in Ev. rewrite Hv in Ev. injection Ev as <-. lia. }
  destruct (eval_predicate_ok squeeze_policy hydration_policy fuel id (Some sel)
              (physical_expr_physical_column_index p) s m I Hfit Hf) as (r & s' & Hr & I' & Ho).
  rewrite Hr. run_step. unfold id in Ho. rewrite Hv in Ho. destruct Ho as (a & -> & Ho).
  exists s'. split; [|done]. destruct a as [buf|rows]; cbn in Ho.
  - by rewrite Ho, He.
  - rewrite no_shredding by done. cbn [default].
    destruct (batch_new_ok [rows] (arr_len rows)) as (b & -> & _); [done|by constructor|].
    cbn [expect]. run_step. rewrite expr_evaluate_ok by done. cbn [fmap list_fmap]. by rewrite Ho.
Qed.

Lemma evaluate_ok fuel k n p sel (s : LiquidCache P) m :
  cache_inv None s m → predicate_ok m k n p → List.length sel <= n →
  (weight s + 7 * Z.of_nat (List.length (predicate_column_ids p)) + 3 < Z.of_nat fuel)%Z →
  ∃ ba s', evaluate_selection_with_predicate squeeze_policy hydration_policy fuel g
             (Batch (Z.of_nat k)) sel p s = Ret (Some (Ok ba), s')
    ∧ cache_inv None s' m
    ∧ (weight s' <= weight s + 7 * Z.of_nat (List.length (predicate_column_ids p)))%Z
    ∧ prep_null_mask_filter ba
      = prep_null_mask_filter (keep (prows (physical_expr p) ((λ col, value col k) <$> predicate_column_ids p)) sel).
Proof.
  intros I O Hs Hf. pose proof (answer_filtered m k n p sel O Hs) as Ea.
  destruct O as [Hne F Hsame Hplain]. unfold evaluate_selection_with_predicate.
  destruct (predicate_column_ids p) as [|col [|col2 cols]] eqn:Ec; [done| |].
  - apply Forall_singleton in F as (c & C & _). rewrite (co_column _ _ _ _ _ C).
    destruct (eval_column_ok fuel k n col c p sel s m I C Hs) as (s' & -> & I' & Hw);
      [unfold enough; cbn in Hf; lia|intros v; by apply Hsame|]. run_step.
    eexists _, s'. split_and!; [done|done|cbn; lia|]. rewrite <- Ea.
    unfold some_rows, prep_null_mask_filter. rewrite <- list_fmap_compose. by apply list_fmap_id.
  - cbn [Nat.leb List.length] in *. rewrite Hplain by lia. unfold evaluate_on_arrays. rewrite Ec.
    destruct (read_columns_ok fuel k n (col :: col2 :: cols) sel s m I) as
      (arrays & s' & -> & I' & Hw & Hd & Fl); [|done|done|].
    { eapply Forall_impl; [exact F|]. intros x (c & C & He). exists c. split; [done|]. apply He. lia. }
    run_step. assert (arrays ≠ []) as Hna by (by destruct arrays).
    destruct (batch_new_ok arrays _ Hna Fl) as (b & -> & _). cbn [expect]. run_step.
    rewrite expr_evaluate_ok by done. cbn [expect]. run_step.
    eexists _, s'. split_and!; [done|done|done|]. by rewrite Hd, Ea.
Qed.

Definition predicates_cost (predicates : list LiquidPredicate) : nat :=
  sum_list ((λ p, List.length (predicate_column_ids p)) <$> predicates).

Lemma apply_predicates_ok fuel k n r predicates input (s : LiquidCache P) m :
  cache_inv None s m → cached_row_group r = g → current_batch_id r = Batch (Z.of_nat k) →
  Forall (predicate_ok m k n) predicates → bb_offset input = 0%nat → List.length (bb_bits input) <= n →
  (Z.of_nat (List.length (bb_bits input)) < 2 ^ 64)%Z →
  (weight s + 7 * Z.of_nat (predicates_cost predicates) + 3 < Z.of_nat fuel)%Z →
  ∃ out s', apply_predicates squeeze_policy hydration_policy bmi2 fuel r predicates input s = Ret (Ok out, s')
    ∧ cache_inv None s' m ∧ (weight s' <= weight s + 7 * Z.of_nat (predicates_cost predicates))%Z
    ∧ bb_bits out = keep_rows k predicates (bb_bits input).
Proof.
  intros I Hg Hb F Ho Hl Hn Hf. revert input s I Ho Hl Hn Hf.
  induction F as [|p predicates O F IH]; intros input s I Ho Hl Hn Hf.
  { exists input, s. split_and!; [done|done|lia|done]. }
  cbn [apply_predicates keep_rows foldl].
  change (predicates_cost (p :: predicates))
    with (List.length (predicate_column_ids p) + predicates_cost predicates)%nat in *.
  fold (keep_rows k predicates (zip_with andb (bb_bits input) (answer k p))).
  pose proof (answer_length m k n p O) as Hla.
  destruct (count_set (bb_bits input) =? 0)%nat eqn:E0.
  - apply Nat.eqb_eq in E0. exists input, s. split_and!; [done|done|lia|].
    rewrite none_selected by (rewrite ?Hla; done). unfold keep_rows.
    revert E0 Hl F. generalize (bb_bits input). clear. intros l E0 Hl F.
    induction F as [|q predicates Oq F IH]; [done|]. cbn [foldl].
    rewrite none_selected; [done| |done]. by rewrite (answer_length m k n q Oq).
  - rewrite Hg, Hb.
    destruct (evaluate_ok fuel k n p (bb_bits input) s m I O Hl ltac:(lia)) as (ba & s1 & -> & I1 & Hw1 & Em).
    run_step. cbn [expect]. run_step. rewrite Em.
    set (mask := prep_null_mask_filter _).
    assert (List.length (prows (physical_expr p) ((λ col, value col k) <$> predicate_column_ids p)) = n) as Hlr.
    { unfold answer, prep_null_mask_filter in Hla. by rewrite length_fmap in Hla. }
    assert (bb_len (mask_buffer mask) = count_set (bb_bits input)) as Hlm.
    { rewrite <- bb_bits_length, (mask_bits (bmi2 := bmi2)). unfold mask, prep_null_mask_filter.
      rewrite length_fmap. apply keep_length. lia. }
    pose proof (count_set_le (bb_bits input)) as Hcl.
    destruct (buffer_and_then_ok bmi2 input (mask_buffer mask)) as (out & -> & Eb & Ho' & Hl'); [done| | | | |].
    + apply (mask_offset (bmi2 := bmi2)).
    + done.
    + lia.
    + apply mask_long.
    + run_step. rewrite (mask_bits (bmi2 := bmi2)) in Eb. unfold mask in Eb.
      rewrite deposit_keep in Eb by lia. fold (answer k p) in Eb.
      assert (List.length (bb_bits out) <= List.length (bb_bits input)) as Hle
        by (rewrite Eb, length_zip_with; lia).
      destruct (IH out s1 I1 Ho' ltac:(lia) ltac:(lia) ltac:(lia)) as (out2 & s2 & -> & I2 & Hw2 & E2).
      exists out2, s2. split_and!; [done|done|lia|]. by rewrite E2, Eb.
Qed.

(** ** Batches *)

(** The projected arrays, as the rows of the selection say. *)
Definition array_ok (k : nat) (sel : list bool) (col : Z) (a : ArrayRef) : Prop :=
  ∃ c, get_column col g = Some c ∧ read_obs (cc_expression c) (value col k) (Some sel) a.

Lemma read_projection_ok fuel k n r cols sel (s : LiquidCache P) m :
  cache_inv None s m → cached_row_group r = g → current_batch_id r = Batch (Z.of_nat k) →
  Forall (λ col, ∃ c, column_ok m k n col c) cols →
  List.length sel <= n → (weight s + 7 * Z.of_nat (List.length cols) + 3 < Z.of_nat fuel)%Z →
  ∃ arrays s', read_projection squeeze_policy hydration_policy fuel r cols sel s = Ret (Ok arrays, s')
    ∧ cache_inv None s' m ∧ (weight s' <= weight s + 7 * Z.of_nat (List.length cols))%Z
    ∧ Forall2 (array_ok k sel) cols arrays ∧ Forall (λ a, arr_len a = count_set sel) arrays.
Proof.
  intros I Hg Hb F Hs Hf. revert s I Hf. induction F as [|col cols (c & C) F IH]; intros s I Hf.
  { exists [], s. split_and!; [done|done|cbn; lia|constructor|constructor]. }
  cbn [List.length read_projection] in *. rewrite Hg, Hb, (co_column _ _ _ _ _ C).
  destruct (get_filtered_ok fuel k n col c sel s m I C Hs) as (a & s1 & -> & [I1 Hw1] & Ho & Hl);
    [unfold enough; lia|]. run_step.
  destruct (IH s1 I1 ltac:(lia)) as (arrays & s2 & -> & I2 & Hw2 & Hd & Fl). run_step.
  exists (a :: arrays), s2. split_and!; [done|done|lia| |by constructor].
  constructor; [|done]. exists c. split; [apply (co_column _ _ _ _ _ C)|done].
Qed.

(** A batch holds the rows that [sel] keeps, column after column. *)
Definition batch_ok (columns : list Z) (k : nat) (sel : list bool) (b : RecordBatch) : Prop :=
  brows b = count_set sel ∧ Forall2 (array_ok k sel) columns (barrays b).

Definition batch_cost (predicates : list LiquidPredicate) (columns : list Z) : Z :=
  7 * Z.of_nat (predicates_cost predicates + List.length columns).

Lemma read_from_cache_ok fuel k n r sel (s : LiquidCache P) m :
  cache_inv None s m → cached_row_group r = g → current_batch_id r = Batch (Z.of_nat k) →
  Forall (λ col, ∃ c, column_ok m k n col c) (projection_columns r) → List.length sel <= n →
  (weight s + 7 * Z.of_nat (List.length (projection_columns r)) + 3 < Z.of_nat fuel)%Z →
  ∃ b s', read_from_cache squeeze_policy hydration_policy fuel r sel s = Ret (Ok b, s')
    ∧ cache_inv None s' m
    ∧ (weight s' <= weight s + 7 * Z.of_nat (List.length (projection_columns r)))%Z
    ∧ match b with
      | None => count_set sel = 0%nat
      | Some b => count_set sel ≠ 0%nat ∧ batch_ok (projection_columns r) k sel b
      end.
Proof.
  intros I Hg Hb F Hs Hf. unfold read_from_cache. destruct (count_set sel =? 0)%nat eqn:E0.
  { apply Nat.eqb_eq in E0. exists None, s. split_and!; [done|done|lia|done]. }
  apply Nat.eqb_neq in E0.
  destruct (read_projection_ok fuel k n r _ sel s m I Hg Hb F Hs Hf)
    as (arrays & s' & Hr & I' & Hw & F2 & Fl).
  destruct (projection_columns r) as [|col cols].
  - destruct (batch_of_rows_ok (count_set sel)) as [Hn Ha].
    exists (Some (batch_of_rows (count_set sel))), s. split_and!; [done|done|cbn; lia|done|].
    split; [done|]. rewrite Ha. constructor.
  - rewrite Hr. run_step. assert (arrays ≠ []) as Hne by (by destruct arrays; [inversion F2|]).
    destruct (batch_new_ok arrays _ Hne Fl) as (b & -> & Ha & Hn). cbn [expect]. run_step.
    exists (Some b), s'. split_and!; [done|done|done|done|]. split; [done|]. by rewrite Ha.
Qed.

Definition filter_of (row_filter : option (list LiquidPredicate)) : list LiquidPredicate :=
  match row_filter with Some predicates => predicates | None => [] end.

(** What a batch of the stream is expected to be. *)
Definition item_of (columns : list Z) (k : nat) (sel : list bool) (item : ProcessResult) : Prop :=
  match item with
  | Skip => count_set sel = 0%nat
  | Emit (Ok b) => count_set sel ≠ 0%nat ∧ batch_ok columns k sel b
  | Emit Err => False
  end.

(** What the cache must hold for the batch [k] when its rows are asked for with a
    selection of [n] rows: a whole batch, of [n] rows at least. *)
Definition ready (m : gmap Z Val) (columns : list Z) (predicates : list LiquidPredicate) (k n : nat) : Prop :=
  ∃ N, n <= N ∧ Forall (predicate_ok m k N) predicates
       ∧ Forall (λ col, ∃ c, column_ok m k N col c) columns.

Lemma keep_rows_count k predicates l : count_set (keep_rows k predicates l) <= count_set l.
Proof.
  unfold keep_rows. revert l. induction predicates as [|p ps IH]; intros l; [done|]. cbn [foldl].
  etransitivity; [apply IH|apply count_set_and].
Qed.

Lemma keep_rows_length m k N predicates l :
  Forall (predicate_ok m k N) predicates → List.length l <= N →
  List.length (keep_rows k predicates l) = List.length l.
Proof.
  intros F. unfold keep_rows. revert l. induction F as [|p ps O F IH]; intros l Hl; [done|]. cbn [foldl].
  assert (List.length (zip_with andb l (answer k p)) = List.length l) as E.
  { rewrite length_zip_with, (answer_length m k N p O). lia. }
  rewrite IH by lia. done.
Qed.

Lemma build_filter_ok fuel k r row_filter batch (s : LiquidCache P) m :
  let l := row_selector_to_boolean_buffer batch in
  cache_inv None s m → cached_row_group r = g → current_batch_id r = Batch (Z.of_nat k) →
  (count_set l ≠ 0 → ready m [] (filter_of row_filter) k (List.length l)) →
  (Z.of_nat (List.length l) < 2 ^ 64)%Z →
  (weight s + 7 * Z.of_nat (predicates_cost (filter_of row_filter)) + 3 < Z.of_nat fuel)%Z →
  ∃ out s', build_predicate_filter squeeze_policy hydration_policy bmi2 fuel r row_filter batch s
            = Ret (Ok out, s') ∧ cache_inv None s' m
    ∧ (weight s' <= weight s + 7 * Z.of_nat (predicates_cost (filter_of row_filter)))%Z
    ∧ (bb_bits out = keep_rows k (filter_of row_filter) l
       ∨ count_set l = 0 ∧ bb_bits out = l).
Proof.
  intros l I Hg Hb R Hn Hf. destruct (bb_finish_spec l) as (Eb & Eo & _).
  unfold build_predicate_filter. fold l.
  destruct row_filter as [predicates|]; cbn [filter_of] in *.
  2: { exists (bb_finish l), s. split_and!; [done|done|cbn; lia|by left]. }
  destruct (decide (count_set l = 0)) as [E0|E0].
  - exists (bb_finish l), s. split_and!; [|done|lia|by right].
    destruct predicates; [done|]. cbn [apply_predicates]. by rewrite Eb, E0.
  - destruct (R E0) as (N & HN & F & _).
    destruct (apply_predicates_ok fuel k N r predicates (bb_finish l) s m) as (out & s1 & H1);
      rewrite ?Eb in *; try done.
    destruct H1 as (? & ? & ? & ?). exists out, s1. split_and!; auto.
Qed.

Lemma next_batch_ok fuel k r row_filter batch (s : LiquidCache P) m :
  let l := row_selector_to_boolean_buffer batch in
  cache_inv None s m → cached_row_group r = g → current_batch_id r = Batch (Z.of_nat k) →
  (count_set l ≠ 0 → ready m (projection_columns r) (filter_of row_filter) k (List.length l)) →
  (Z.of_nat (List.length l) < 2 ^ 64)%Z →
  (weight s + batch_cost (filter_of row_filter) (projection_columns r) + 3 < Z.of_nat fuel)%Z →
  ∃ item s', next_batch squeeze_policy hydration_policy bmi2 fuel r row_filter batch s
             = Ret (next_batch_id r, item, s')
    ∧ cache_inv None s' m
    ∧ (weight s' <= weight s + batch_cost (filter_of row_filter) (projection_columns r))%Z
    ∧ item_of (projection_columns r) k (keep_rows k (filter_of row_filter) l) item.
Proof.
  intros l I Hg Hb R Hn Hf. unfold batch_cost in *.
  destruct (build_filter_ok fuel k r row_filter batch s m I Hg Hb) as (out & s1 & Hout & I1 & Hw1 & Eout);
    [|done|lia|]; try fold l in Eout.
  { fold l. intros E0. destruct (R E0) as (N & HN & Fp & _). by exists N. }
  unfold next_batch. rewrite Hout. run_step.
  pose proof (keep_rows_count k (filter_of row_filter) l) as Hk.
  destruct (decide (count_set l = 0)) as [E0|E0].
  - assert (count_set (bb_bits out) = 0) as Ec by (destruct Eout as [->|[_ ->]]; lia).
    unfold read_from_cache. rewrite Ec. cbn [Nat.eqb]. run_step.
    eexists _, s1. split_and!; [done|done|lia|]. cbn. lia.
  - destruct Eout as [Eout|[? _]]; [|done]. destruct (R E0) as (N & HN & Fp & Fc).
    destruct (read_from_cache_ok fuel k N r (bb_bits out) s1 m I1 Hg Hb Fc)
      as (b & s2 & -> & I2 & Hw2 & Hres); [|lia|].
    { rewrite Eout, (keep_rows_length m k N); [done|done|lia]. }
    run_step. rewrite <- Eout.
    destruct b as [b|]; (eexists _, s2; split_and!; [done|done|lia|exact Hres]).
Qed.

(** ** The stream *)

(** The [j]-th piece of [bs] rows, and the number of pieces. *)
Definition piece {A} (bs : nat) (l : list A) (j : nat) : list A := take bs (drop (j * bs) l).
Definition pieces {A} (bs : nat) (l : list A) : nat := (List.length l + (bs - 1)) / bs.

Lemma pieces_nil {A} bs : 0 < bs → pieces bs ([] : list A) = 0.
Proof. intros Hb. unfold pieces. cbn [List.length]. apply Nat.div_small. lia. Qed.

Lemma pieces_drop {A} bs (l : list A) : 0 < bs → l ≠ [] → pieces bs l = Datatypes.S (pieces bs (drop bs l)).
Proof.
  intros Hb Hl. unfold pieces. rewrite length_drop.
  assert (List.length l ≠ 0) by (by destruct l).
  destruct (decide (bs <= List.length l)) as [Hle|Hle].
  - replace (List.length l + (bs - 1)) with (List.length l - bs + (bs - 1) + 1 * bs) by lia.
    rewrite Nat.div_add by lia. lia.
  - replace (List.length l + (bs - 1)) with (List.length l - 1 + 1 * bs) by lia.
    rewrite Nat.div_add, !Nat.div_small by lia. lia.
Qed.

Lemma piece_drop {A} bs (l : list A) j : piece bs l (Datatypes.S j) = piece bs (drop bs l) j.
Proof. unfold piece. rewrite drop_drop. done. Qed.

(** What the batches keep, from the [k]-th on: the batches that keep no row are
    left out. *)
Definition kept (k bs : nat) (predicates : list LiquidPredicate) (l : list bool)
    : list (nat * list bool) :=
  filter (λ x, count_set x.2 ≠ 0)
    ((λ j, (k + j, keep_rows (k + j) predicates (piece bs l j))) <$> seq 0 (pieces bs l)).

Lemma kept_nil k bs predicates : 0 < bs → kept k bs predicates [] = [].
Proof. intros Hb. unfold kept. by rewrite pieces_nil. Qed.

Lemma kept_cons k bs predicates l :
  0 < bs → l ≠ [] →
  let sel := keep_rows k predicates (take bs l) in
  kept k bs predicates l
  = (if decide (count_set sel ≠ 0) then [(k, sel)] else []) ++ kept (Datatypes.S k) bs predicates (drop bs l).
Proof.
  intros Hb Hl sel. unfold kept. rewrite (pieces_drop bs l Hb Hl). cbn [seq fmap list_fmap].
  rewrite <- fmap_S_seq, <- list_fmap_compose, filter_cons. rewrite Nat.add_0_r.
  change (piece bs l 0) with (take bs l). fold sel. cbn [fst snd].
  replace ((λ j, (Datatypes.S k + j, keep_rows (Datatypes.S k + j) predicates (piece bs (drop bs l) j)))
             <$> seq 0 (pieces bs (drop bs l)))
    with (((λ j, (k + j, keep_rows (k + j) predicates (piece bs l j))) ∘ Datatypes.S)
             <$> seq 0 (pieces bs (drop bs l))).
  - by destruct (decide (count_set sel ≠ 0)).
  - apply list_fmap_ext. intros i j _. cbn. rewrite piece_drop.
    by replace (k + Datatypes.S j) with (Datatypes.S (k + j)) by lia.
Qed.

(** A record batch is expected to be the rows kept of its batch. *)
Definition emitted (columns : list Z) (x : nat * list bool) (item : result RecordBatch) : Prop :=
  ∃ b, item = Ok b ∧ batch_ok columns x.1 x.2 b.

Lemma run_stream_ok rounds fuel k r row_filter (s : LiquidCache P) m :
  let l := rows (selection r) in
  let bs := Z.to_nat (batch_size r) in
  let columns := projection_columns r in
  let predicates := filter_of row_filter in
  cache_inv None s m → cached_row_group r = g → current_batch_id r = Batch (Z.of_nat k) →
  counted (selection r) → (0 < batch_size r)%Z → (batch_size r + total (selection r) < 2 ^ 64)%Z →
  List.length l < rounds → (Z.of_nat (k + pieces bs l) < 2 ^ 16)%Z →
  (∀ j, j < pieces bs l → count_set (piece bs l j) ≠ 0 →
    ready m columns predicates (k + j) (List.length (piece bs l j))) →
  (weight s + Z.of_nat (pieces bs l) * batch_cost predicates columns + 3 < Z.of_nat fuel)%Z →
  ∃ items s', run_stream squeeze_policy hydration_policy bmi2 rounds fuel r row_filter s = Ret (items, s')
    ∧ cache_inv None s' m ∧ Forall2 (emitted columns) (kept k bs predicates l) items
    ∧ (weight s' <= weight s + Z.of_nat (pieces bs l) * batch_cost predicates columns)%Z.
Proof.
  revert k r s. induction rounds as [|rounds IH]; intros k r s l bs columns predicates I Hg Hb C Hbs Ht Hr Hk R Hf;
    [lia|]. cbn [run_stream].
  assert (0 < bs) as Hbs' by (unfold bs; lia).
  pose proof (take_next_batch_ok (batch_size r) (selection r) C Hbs Ht) as H.
  destruct (take_next_batch (selection r) (batch_size r)) as [[rt|] rest]; destruct H as (Cr & Htr & H).
  2: { exists [], s. unfold l. rewrite H, kept_nil, pieces_nil by done. split_and!; [done|done|constructor|lia]. }
  destruct H as (E1 & Hne & E2). fold l bs in E1, E2.
  assert (l ≠ []) as Hl by (intros ->; rewrite E1, take_nil in Hne; done).
  pose proof (pieces_drop bs l Hbs' Hl) as Ep. rewrite Ep in Hk, R, Hf.
  assert (0 <= batch_cost predicates columns)%Z as Hc by (unfold batch_cost; lia).
  pose proof (R 0 ltac:(lia)) as R0. rewrite Nat.add_0_r in R0.
  change (piece bs l 0) with (take bs l) in R0. rewrite <- E1 in R0.
  destruct (next_batch_ok fuel k (set_selection rest r) row_filter rt s m)
    as (item & s1 & -> & I1 & Hw1 & Hitem); rewrite ?boolean_buffer_rows; try done.
  { pose proof (rows_length _ (proj1 C)). rewrite E1, length_take. fold l in H. lia. }
  { cbn [projection_columns set_selection]. fold columns predicates. lia. }
  run_step. cbn [projection_columns set_selection] in Hitem, Hw1. fold columns predicates in Hitem, Hw1.
  rewrite boolean_buffer_rows, E1 in Hitem.
  destruct (IH (Datatypes.S k) (next_batch_id (set_selection rest r)) s1) as (items & s2 & -> & I2 & F2 & Hw2);
    cbn [next_batch_id set_selection cached_row_group current_batch_id selection batch_size projection_columns];
    rewrite ?E2; fold bs predicates columns; try done; try lia.
  - rewrite Hb. unfold ParquetIds.inc. cbn [v]. f_equal. rewrite wrapu_id by lia. lia.
  - rewrite length_drop. destruct l; cbn [List.length] in *; [done|]. lia.
  - intros j Hj. specialize (R (Datatypes.S j) ltac:(lia)).
    rewrite piece_drop in R. by replace (k + Datatypes.S j) with (Datatypes.S k + j) in R by lia.
  - run_step. eexists _, s2. split; [done|]. split; [done|].
    cbn [next_batch_id set_selection selection batch_size projection_columns] in F2.
    rewrite E2 in F2. fold bs predicates columns in F2.
    assert (weight s2 <= weight s + Z.of_nat (pieces bs l) * batch_cost predicates columns)%Z as Hw.
    { cbn [next_batch_id set_selection selection batch_size projection_columns] in Hw2.
      rewrite E2 in Hw2. fold bs predicates columns in Hw2. rewrite Ep. lia. }
    split; [|done]. rewrite kept_cons by done. destruct item as [[b|]|]; cbn [item_of] in Hitem; [| done|].
    + rewrite decide_True by tauto. cbn [app]. constructor; [|done]. exists b. by split; [|apply Hitem].
    + rewrite decide_False by lia. done.
Qed.

(** C5: reading a cached row group through the stream returns, batch after batch,
    the rows of the projected columns that the selection and every predicate keep,
    and nothing for the batches that keep none; no batch fails, for any selection
    cut in any way, with or without BMI2. A batch of which no row is selected need
    not be cached, and the selection may end inside a batch. A projected column with
    a date hint may hold, batch by batch, the hinted component of each date in its
    place. Conditions: the cache policy gives out memory entries only (as
    [LiquidPolicy] does and LRU does not), the squeeze and hydration policies
    satisfy their laws and the formats [FormatLaws]; the batches that are read are
    cached, without variant mappings or variant hints; every predicate is one
    expression that evaluates row by row and never fails, and one over several
    columns is not a disjunction of conditions on single columns (those take the
    multi-column path) and reads no column with a date hint; there are fewer than
    2^16 batches. *)
Theorem reader_returns_selected_rows fuel bs l columns row_filter (s : LiquidCache P) m :
  let n := Z.to_nat bs in
  let predicates := filter_of row_filter in
  cache_inv None s m → counted l → (0 < bs)%Z → (bs + total l < 2 ^ 64)%Z →
  (Z.of_nat (pieces n (rows l)) < 2 ^ 16)%Z →
  (∀ j, j < pieces n (rows l) → count_set (piece n (rows l) j) ≠ 0 →
    ready m columns predicates j (List.length (piece n (rows l) j))) →
  (weight s + Z.of_nat (pieces n (rows l)) * batch_cost predicates columns + 3 < Z.of_nat fuel)%Z →
  ∃ items s',
    run_stream squeeze_policy hydration_policy bmi2 (Datatypes.S (List.length (rows l))) fuel
      (reader_new bs l g columns) row_filter s = Ret (items, s')
    ∧ cache_inv None s' m ∧ Forall2 (emitted columns) (kept 0 n predicates (rows l)) items.
Proof.
  intros n predicates I C Hb Ht Hk R Hf.
  destruct (run_stream_ok (Datatypes.S (List.length (rows l))) fuel 0 (reader_new bs l g columns) row_filter s m
              I eq_refl eq_refl C Hb Ht (Nat.lt_succ_diag_r _) Hk R Hf) as (items & s' & H & I' & F & _).
  by exists items, s'.
Qed.
End reader.

(** ** A concrete reader *)

#[export] Instance sample_batches : RecordBatches (AL := sample_arrow) := {
  expr_tree _ := EOther;
  expr_evaluate e arrays := match arrays with a :: _ => Some (seval e a) | [] => None end;
  or_kleene _ _ := None;
  RecordBatch := nat * list sarr;
  batch_new arrays :=
    match arrays with
    | a :: _ =>
        if forallb (λ b, List.length (sa_vals b) =? List.length (sa_vals a)) arrays
        then Some (List.length (sa_vals a), arrays) else None
    | [] => None
    end;
  batch_of_rows n := (n, [])
}.

#[export, program] Instance sample_batch_laws :
  RecordBatchLaws (AL := sample_arrow) (LF := sample_liquid) (FL := sample_laws) := {
  brows := fst;
  barrays := snd;
  prows e vs := match vs with v :: _ => seval e v | [] => [] end
}.
Next Obligation.
  intros [|a arrays] n Hne F; [done|]. apply Forall_cons in F as [Ha F]. cbn in *.
  rewrite Ha, Nat.eqb_refl. cbn [andb].
  assert (forallb (λ b, List.length (sa_vals b) =? n) arrays = true) as ->.
  { apply forallb_forall. intros x Hx%list_elem_of_In. rewrite Forall_forall in F. apply Nat.eqb_eq, F, Hx. }
  by eexists.
Qed.
Next Obligation. done. Qed.
Next Obligation. intros e [|a arrays] H; [done|]. done. Qed.
Next Obligation.
  intros e [|v vs] n H F; [done|]. apply Forall_cons in F as [Hv _]. cbn in *.
  unfold seval. by rewrite length_fmap.
Qed.
Next Obligation.
  intros e [|v vs] m H F; [done|]. cbn. unfold seval, sfilter. cbn. by rewrite keep_fmap.
Qed.
Next Obligation. intros v m H. cbn in *. by apply keep_length. Qed.

#[export] Instance sample_masks : MaskBuffers (BB := byte_buffers) := { mask_buffer := bb_finish }.

#[export] Instance sample_mask_laws : MaskLaws false.
Proof. split; [apply bb_finish_spec..|done]. Qed.

(** Two columns of two batches, of three and two rows. *)
Definition sample_value (col : Z) (k : nat) : sarr :=
  match col, k with
  | 0%Z, 0 => SArr SInt64 [Some 5; None; Some 30]%Z
  | 0%Z, _ => SArr SInt64 [Some 12; Some 40]%Z
  | _, 0 => SArr SDate32 [Some 1; Some 2; None]%Z
  | _, _ => SArr SDate32 [None; Some 9]%Z
  end.

Definition sample_column (col : Z) : CachedColumn :=
  let t := if decide (col = 0%Z) then TInt64 else TDate32 in
  Column (PField "" t None false false None) (AccessPath 0 0 col)
    (if decide (col = 0%Z) then None else Some (ExtractDate32 Year)).

Definition sample_group : CachedRowGroup :=
  RowGroup {[ 0%Z := sample_column 0; 1%Z := sample_column 1 ]} ∅.

Definition sample_cells : list (Z * nat) := [(0%Z, 0); (0%Z, 1); (1%Z, 0); (1%Z, 1)].

(** The cache filled by [CachedColumn::insert]. *)
Fixpoint sample_fill (cells : list (Z * nat)) (s : LiquidCache (LF := sample_liquid) LiquidQueueInternalState)
    : outcome (LiquidCache (LF := sample_liquid) LiquidQueueInternalState) :=
  match cells with
  | [] => Ret s
  | (col, k) :: cells =>
      '(_, s) ← column_insert TranscodeSqueezeEvict 100 (sample_column col) (Batch (Z.of_nat k)) (sample_value col k) s;
      sample_fill cells s
  end.

Definition sample_predicate : LiquidPredicate := Predicate _ 10%Z 10%Z [0%Z].

Definition cell_id (c : Z * nat) : Z := column_entry_id (sample_column c.1) (Batch (Z.of_nat c.2)).

Lemma sample_fill_ok cells s (m : gmap Z sarr) :
  cache_inv (FL := sample_laws) None s m → NoDup (cell_id <$> cells) →
  Forall (λ c, m !! cell_id c = None ∧ (0 <= cell_id c < 2 ^ 64)%Z
               ∧ dictionary_supported (to_dt (sa_type (sample_value c.1 c.2))) = true) cells →
  (weight s + 7 * Z.of_nat (List.length cells) + 3 < 100)%Z →
  ∃ s', sample_fill cells s = Ret s'
    ∧ cache_inv (FL := sample_laws) None s'
        (foldl (λ m c, <[cell_id c := sample_value c.1 c.2]> m) m cells)
    ∧ (weight s' <= weight s + 7 * Z.of_nat (List.length cells))%Z.
Proof.
  revert s m. induction cells as [|[col k] cells IH]; intros s m I N F Hw.
  { exists s. split_and!; [done|done|cbn; lia]. }
  apply Forall_cons in F as [(Hm & Hid & Hd) F]. apply NoDup_cons in N as [Nin N].
  cbn [sample_fill List.length foldl] in *.
  destruct (column_insert_ok (FL := sample_laws) TranscodeSqueezeEvict 100 (sample_column col)
              (Batch (Z.of_nat k)) (sample_value col k) s m) as (s1 & -> & I1 & Hw1); try done.
  - apply bool_decide_eq_false. rewrite (ci_dom _ _ _ I), <- not_eq_None_Some. intros H. by apply H.
  - cbn. lia.
  - unfold enough. lia.
  - run_step. destruct (IH s1 _ I1 N) as (s2 & -> & I2 & Hw2); [|lia|].
    + rewrite Forall_forall in F |- *. intros c Hc. destruct (F c Hc) as (H1 & H2). split; [|done].
      rewrite lookup_insert_ne; [done|]. intros E. apply Nin. apply list_elem_of_fmap. by exists c.
    + exists s2. split_and!; [done|done|lia].
Qed.

Definition sample_map : gmap Z sarr :=
  foldl (λ m c, <[cell_id c := sample_value c.1 c.2]> m) ∅ sample_cells.

Lemma sample_column_ok col k :
  (col, k) ∈ sample_cells →
  column_ok (FL := sample_laws) sample_group sample_value sample_map k
    (List.length (sa_vals (sample_value col k))) col (sample_column col).
Proof.
  intros H. assert ((col = 0 ∨ col = 1)%Z ∧ (k = 0 ∨ k = 1)) as [[-> | ->] [-> | ->]]
    by (unfold sample_cells in H; set_solver).
  all: split; vm_compute; reflexivity.
Qed.

Lemma sample_ready j :
  j < pieces 3 (rows [Selector 1 true; Selector 4 false]) →
  ready (FL := sample_laws) sample_group sample_value sample_map [0%Z; 1%Z] [sample_predicate] j
    (List.length (piece 3 (rows [Selector 1 true; Selector 4 false]) j)).
Proof.
  intros Hj. vm_compute in Hj.
  assert (∀ col, col ∈ [0; 1]%Z → column_ok (FL := sample_laws) sample_group sample_value sample_map j
            (List.length (piece 3 (rows [Selector 1 true; Selector 4 false]) j)) col (sample_column col)) as H.
  { intros col Hc. assert (col = 0 ∨ col = 1)%Z as [-> | ->] by set_solver.
    all: assert (j = 0 ∨ j = 1) as [-> | ->] by lia.
    - exact (sample_column_ok 0 0 ltac:(unfold sample_cells; set_solver)).
    - exact (sample_column_ok 0 1 ltac:(unfold sample_cells; set_solver)).
    - exact (sample_column_ok 1 0 ltac:(unfold sample_cells; set_solver)).
    - exact (sample_column_ok 1 1 ltac:(unfold sample_cells; set_solver)). }
  eexists. split; [done|]. split; repeat constructor.
  - discriminate.
  - exists (sample_column 0). split; [apply H; set_solver|cbn; lia].
  - exists (sample_column 0). apply H. set_solver.
  - exists (sample_column 1). apply H. set_solver.
Qed.

Lemma reader_returns_selected_rows_witness :
  ∃ s items s', sample_fill sample_cells (cache_new 40) = Ret s
    ∧ run_stream (BB := byte_buffers) TranscodeSqueezeEvict AlwaysHydrate false 6 200
        (reader_new 3 [Selector 1 true; Selector 4 false] sample_group [0%Z; 1%Z])
        (Some [sample_predicate]) s = Ret (items, s')
    ∧ List.length items = 2.
Proof.
  destruct (sample_fill_ok sample_cells (cache_new (P := LiquidQueueInternalState) 40) ∅)
    as (s & Es & I & Hw).
  { by apply (cache_new_inv (FL := sample_laws)). }
  { vm_compute. repeat constructor; set_solver. }
  { repeat constructor; vm_compute; done. }
  { rewrite (weight_new (P := LiquidQueueInternalState)). vm_compute. reflexivity. }
  destruct (reader_returns_selected_rows (FL := sample_laws) (BB := byte_buffers) TranscodeSqueezeEvict
              AlwaysHydrate false sample_group sample_value 200 3 [Selector 1 true; Selector 4 false]
              [0%Z; 1%Z] (Some [sample_predicate]) s _ I) as (items & s' & Hr & _ & F).
  - split; [repeat constructor; cbn; lia|reflexivity].
  - lia.
  - vm_compute. reflexivity.
  - vm_compute. reflexivity.
  - intros j Hj _. exact (sample_ready j Hj).
  - rewrite (weight_new (P := LiquidQueueInternalState)) in Hw. eapply Z.le_lt_trans; [apply Z.add_le_mono_r, Z.add_le_mono_r, Hw|]. vm_compute. reflexivity.
  - exists s, items, s'. split; [exact Es|]. split; [exact Hr|].
    rewrite <- (Forall2_length _ _ _ F). vm_compute. reflexivity.
Defined.
