(* ===== verification/RowFilter.v ===== *)
(** * Projections of parquet columns

    Model of [get_root_column_ids] of
    [src/src/parquet/src/reader/runtime/utils.rs] and of the predicates of
    [src/src/parquet/src/reader/plantime/row_filter.rs]: which columns of the file
    a projection mask selects.  A mask selects leaves of the parquet schema; the
    cache numbers the root columns.  parquet's masks are third-party: the class
    [ProjectionMasks]. *)

From stdpp Require Import base list gmap strings sorting.
From Stdlib Require Import ZArith String Sorted Lia.
From S2P Require Import Prelude CachePolicy CivilDate DataTypes Expressions Budget BooleanBuffers AndThen.
From S2P Require Import Formats SampleFormats Observer CacheEntry Transcode Squeeze Hydration Core.
From S2P Require Import Builders CoreInv CoreOps CoreReads ParquetIds RowSelection ColumnCache Reader ReaderSpec.

(** What the functions look up of a [SchemaDescriptor]: the number of root fields
    and, for each leaf, the index of its root. *)
Record SchemaDescriptor : Type := Descriptor {
  root_fields : nat;
  column_roots : list nat
}.

Class ProjectionMasks : Type := {
  ProjectionMask : Type;
  (** The layout [get_predicate_column_id] casts a mask to; [None] selects every
      leaf. *)
  mask_layout : ProjectionMask → option (list bool);
  leaf_included : ProjectionMask → nat → bool;
  mask_union : ProjectionMask → ProjectionMask → ProjectionMask;
  mask_roots : SchemaDescriptor → list Z → ProjectionMask
}.

Class ProjectionMaskLaws `{ProjectionMasks} : Prop := {
  layout_included p m i : mask_layout p = Some m → i < List.length m → leaf_included p i = nth i m false;
  union_included p q i : leaf_included (mask_union p q) i = leaf_included p i || leaf_included q i;
  roots_included d l i r :
    column_roots d !! i = Some r → leaf_included (mask_roots d l) i = bool_decide (Z.of_nat r ∈ l);
  roots_layout d l : ∃ m, mask_layout (mask_roots d l) = Some m ∧ List.length m = List.length (column_roots d)
}.

(** ** Columns of a mask *)

(** [enumerate] and [filter_map]: the positions that are set. *)
Fixpoint positions_from (i : nat) (mask : list bool) : list Z :=
  match mask with
  | [] => []
  | included :: mask =>
      if included then Z.of_nat i :: positions_from (S i) mask else positions_from (S i) mask
  end.

Definition positions : list bool → list Z := positions_from 0.

Section masks.
Context `{ProjectionMasks}.

(** The loop over the leaves; an index out of range panics. *)
Fixpoint mark_roots (projection : ProjectionMask) (leaf_idx : nat) (roots : list nat)
    (root_mask : list bool) : outcome (list bool) :=
  match roots with
  | [] => Ret root_mask
  | root_idx :: roots =>
      if leaf_included projection leaf_idx then
        if (root_idx <? List.length root_mask)%nat
        then mark_roots projection (S leaf_idx) roots (<[root_idx := true]> root_mask)
        else Panic
      else mark_roots projection (S leaf_idx) roots root_mask
  end.

Definition get_root_column_ids (schema : SchemaDescriptor) (projection : ProjectionMask)
    : outcome (list Z) :=
  root_mask ← mark_roots projection 0 (column_roots schema) (replicate (root_fields schema) false);
  Ret (positions root_mask).

Definition get_predicate_column_id (projection : ProjectionMask) : list Z :=
  default [] (positions <$> mask_layout projection).
End masks.

(** ** Predicates of a row filter *)

(** [LiquidPredicate] with its mask; [ColumnCache.LiquidPredicate] is what the
    cache is asked with. *)
Record FilterPredicate {AL : ArrowLib} {PM : ProjectionMasks} : Type := RowPredicate {
  fp_physical_expr : PhysicalExpr;
  fp_physical_column_index : PhysicalExpr;
  fp_projection_mask : ProjectionMask
}.

Definition liquid_predicate {AL : ArrowLib} {PM : ProjectionMasks} (p : FilterPredicate) : LiquidPredicate :=
  Predicate _ (fp_physical_expr p) (fp_physical_column_index p)
    (get_predicate_column_id (fp_projection_mask p)).

(** What [TreeNode::visit] meets: columns, which have no children, and others. *)
Inductive VisitNode : Type :=
| ColumnNode (name : string)
| ExprNode (children : list VisitNode).

(** The operators [get_priority] tells apart. *)
Inductive FilterOperator : Type :=
| FEq | FNotEq | FLikeMatch | FILikeMatch | FNotLikeMatch | FNotILikeMatch
| FLt | FLtEq | FGt | FGtEq | FOther.

(** DataFusion and arrow: expressions as the downcasts see them, schemas.
    [map_schema projected table file] is the projection into the file schema that
    [SchemaAdapterFactory::create] and [map_schema] answer. *)
Class FilterLib {AL : ArrowLib} : Type := {
  split_conjunction : PhysicalExpr → list PhysicalExpr;
  visit_tree : PhysicalExpr → VisitNode;
  binary_op : PhysicalExpr → option FilterOperator;
  is_like_expr : PhysicalExpr → bool;
  is_nested : DataType → bool;
  index_of : list ParquetField → string → option nat;
  project_schema : list ParquetField → list Z → option (list ParquetField);
  map_schema : list ParquetField → list ParquetField → list ParquetField → option (list Z);
  reassign_expr_columns : PhysicalExpr → list ParquetField → option PhysicalExpr
}.

(** [slice::sort_unstable_by], which leaves the order of equal elements open. *)
Class UnstableSort : Type := {
  sort_unstable_by : ∀ {A : Type}, (A → A → comparison) → list A → list A
}.

(** A [BTreeSet] as the list of its elements in order. *)
Fixpoint btree_insert (x : Z) (l : list Z) : list Z :=
  match l with
  | [] => [x]
  | y :: l' => if (x <? y)%Z then x :: l else if (x =? y)%Z then l else y :: btree_insert x l'
  end.

Section filter.
Context {AL : ArrowLib} {PM : ProjectionMasks} {EL : FilterLib} {US : UnstableSort}.

(** *** Which conjuncts can be pushed down *)

Record PushdownChecker : Type := Checker {
  non_primitive_columns : bool;
  projected_columns : bool;
  required_columns : list Z
}.

Definition checker_new : PushdownChecker := Checker false false [].

(** With [true] the visit jumps over the children. *)
Definition check_single_column (table_schema : list ParquetField) (column_name : string)
    (c : PushdownChecker) : outcome (bool * PushdownChecker) :=
  match index_of table_schema column_name with
  | Some idx =>
      let required := btree_insert (Z.of_nat idx) (required_columns c) in
      field ← expect (table_schema !! idx);
      if is_nested (pf_data_type field) then Ret (true, Checker true (projected_columns c) required)
      else Ret (false, Checker (non_primitive_columns c) (projected_columns c) required)
  | None => Ret (true, Checker (non_primitive_columns c) true (required_columns c))
  end.

Definition prevents_pushdown (c : PushdownChecker) : bool :=
  non_primitive_columns c || projected_columns c.

(** [TreeNode::visit] with [f_down]. *)
Fixpoint visit (table_schema : list ParquetField) (node : VisitNode) (c : PushdownChecker)
    : outcome PushdownChecker :=
  match node with
  | ColumnNode name => '(_, c) ← check_single_column table_schema name c; Ret c
  | ExprNode children =>
      (fix visit_all (nodes : list VisitNode) (c : PushdownChecker) : outcome PushdownChecker :=
         match nodes with
         | [] => Ret c
         | node :: nodes => c ← visit table_schema node c; visit_all nodes c
         end) children c
  end.

Definition pushdown_columns (expr : PhysicalExpr) (table_schema : list ParquetField)
    : outcome (option (list Z)) :=
  checker ← visit table_schema (visit_tree expr) checker_new;
  Ret (if prevents_pushdown checker then None else Some (required_columns checker)).

(** *** Candidates *)

(** The compressed size of each column chunk, row group by row group. *)
Fixpoint add_sizes (idx : Z) (row_groups : list (list Z)) (total_size : Z) : outcome Z :=
  match row_groups with
  | [] => Ret total_size
  | columns :: row_groups =>
      compressed_size ← expect (columns !! Z.to_nat idx);
      add_sizes idx row_groups (usize (total_size + usize compressed_size))
  end.

Fixpoint size_of_columns_from (columns : list Z) (row_groups : list (list Z)) (total_size : Z) : outcome Z :=
  match columns with
  | [] => Ret total_size
  | idx :: columns =>
      total_size ← add_sizes idx row_groups total_size;
      size_of_columns_from columns row_groups total_size
  end.

Definition size_of_columns (columns : list Z) (row_groups : list (list Z)) : outcome Z :=
  size_of_columns_from columns row_groups 0.

Definition columns_sorted : bool := false.

(** The schema mapper is part of the evaluation of the predicate. *)
Record FilterCandidate : Type := Candidate {
  fc_expr : PhysicalExpr;
  fc_required_bytes : Z;
  fc_can_use_index : bool;
  fc_projection : list Z;
  fc_filter_schema : list ParquetField
}.

Record FilterCandidateBuilder : Type := CandidateBuilder {
  fb_expr : PhysicalExpr;
  fb_file_schema : list ParquetField;
  fb_table_schema : list ParquetField
}.

Definition candidate_build (b : FilterCandidateBuilder) (sizes : list (list Z))
    : outcome (result (option FilterCandidate)) :=
  required ← pushdown_columns (fb_expr b) (fb_table_schema b);
  match required with
  | None | Some [] => Ret (Ok None)
  | Some required =>
      match project_schema (fb_table_schema b) required with
      | None => Ret Err
      | Some projected_table_schema =>
          match map_schema projected_table_schema (fb_table_schema b) (fb_file_schema b) with
          | None => Ret Err
          | Some projection =>
              required_bytes ← size_of_columns projection sizes;
              Ret (Ok (Some (Candidate (fb_expr b) required_bytes columns_sorted projection
                               projected_table_schema)))
          end
      end
  end.

(** [FilterCandidate::projection] and [LiquidPredicate::try_new]. *)
Definition predicate_try_new (schema : SchemaDescriptor) (candidate : FilterCandidate)
    : result FilterPredicate :=
  match reassign_expr_columns (fc_expr candidate) (fc_filter_schema candidate) with
  | None => Err
  | Some physical_expr =>
      Ok (RowPredicate _ _ physical_expr (fc_expr candidate) (mask_roots schema (fc_projection candidate)))
  end.

(** *** The filter *)

Definition get_priority (expr : PhysicalExpr) : Z :=
  match binary_op expr with
  | Some (FEq | FNotEq) => 0
  | Some (FLikeMatch | FILikeMatch) => 1
  | Some (FNotLikeMatch | FNotILikeMatch) => 2
  | Some (FLt | FLtEq | FGt | FGtEq) => 3
  | Some FOther => 4
  | None => if is_like_expr expr then 1 else 5
  end.

Definition compare_cost (c1 c2 : FilterCandidate) : comparison :=
  match Bool.compare (fc_can_use_index c1) (fc_can_use_index c2) with
  | Eq => (fc_required_bytes c1 ?= fc_required_bytes c2)%Z
  | ord => ord
  end.

Definition compare_priority (c1 c2 : FilterCandidate) : comparison :=
  (get_priority (fc_expr c1) ?= get_priority (fc_expr c2))%Z.

(** The candidates of the conjuncts, until the first error. *)
Fixpoint build_candidates (predicates : list PhysicalExpr) (file_schema table_schema : list ParquetField)
    (sizes : list (list Z)) : outcome (result (list FilterCandidate)) :=
  match predicates with
  | [] => Ret (Ok [])
  | expr :: predicates =>
      candidate ← candidate_build (CandidateBuilder expr file_schema table_schema) sizes;
      match candidate with
      | Err => Ret Err
      | Ok candidate =>
          rest ← build_candidates predicates file_schema table_schema sizes;
          Ret match rest with
              | Err => Err
              | Ok rest => Ok (match candidate with Some c => c :: rest | None => rest end)
              end
      end
  end.

Fixpoint compile_candidates (schema : SchemaDescriptor) (candidates : list FilterCandidate)
    : result (list FilterPredicate) :=
  match candidates with
  | [] => Ok []
  | candidate :: candidates =>
      match predicate_try_new schema candidate with
      | Err => Err
      | Ok predicate =>
          match compile_candidates schema candidates with
          | Err => Err
          | Ok predicates => Ok (predicate :: predicates)
          end
      end
  end.

Definition order_candidates (reorder_predicates : bool) (candidates : list FilterCandidate)
    : list FilterCandidate :=
  sort_unstable_by compare_priority
    (if reorder_predicates then sort_unstable_by compare_cost candidates else candidates).

Definition build_row_filter (expr : PhysicalExpr) (physical_file_schema predicate_file_schema : list ParquetField)
    (schema : SchemaDescriptor) (sizes : list (list Z)) (reorder_predicates : bool)
    : outcome (result (option (list FilterPredicate))) :=
  candidates ← build_candidates (split_conjunction expr) physical_file_schema predicate_file_schema sizes;
  Ret match candidates with
      | Err => Err
      | Ok [] => Ok None
      | Ok candidates =>
          match compile_candidates schema (order_candidates reorder_predicates candidates) with
          | Err => Err
          | Ok filters => Ok (Some filters)
          end
      end.
End filter.

(** ** Lemmas *)

Lemma elem_positions_from i mask c :
  c ∈ positions_from i mask ↔ ∃ j, mask !! j = Some true ∧ c = Z.of_nat (i + j).
Proof.
  revert i. induction mask as [|b mask IH]; intros i; cbn [positions_from].
  { split; [intros ?%elem_of_nil; done|]. intros (j & Hj & _). done. }
  assert ((∃ j, mask !! j = Some true ∧ c = Z.of_nat (S i + j))
          ↔ (∃ j, (b :: mask) !! S j = Some true ∧ c = Z.of_nat (i + S j))) as E.
  { split; intros (j & Hj & ->); exists j; (split; [done|lia]). }
  destruct b; rewrite ?elem_of_cons, IH, E.
  - split.
    + intros [->|(j & Hj & ->)]; [exists 0|exists (S j)]; (split; [done|lia]).
    + intros ([|j] & Hj & ->); [left; lia|right; by exists j].
  - split.
    + intros (j & Hj & ->). by exists (S j).
    + intros ([|j] & Hj & ->); [done|by exists j].
Qed.

Lemma elem_positions mask c : c ∈ positions mask ↔ ∃ j, mask !! j = Some true ∧ c = Z.of_nat j.
Proof. apply elem_positions_from. Qed.

Lemma positions_from_sorted i mask : Sorted Z.lt (positions_from i mask).
Proof.
  revert i. induction mask as [|b mask IH]; intros i; [constructor|]. cbn [positions_from].
  destruct b; [|apply IH]. constructor; [apply IH|].
  destruct (positions_from (S i) mask) as [|c l] eqn:E; [constructor|]. constructor.
  assert (c ∈ positions_from (S i) mask) as (j & _ & ->)%elem_positions_from by (rewrite E; by left). lia.
Qed.

Lemma sorted_lt_NoDup l : Sorted Z.lt l → NoDup l.
Proof.
  intros S%(Sorted_StronglySorted Z.lt_trans). induction S as [|c l S IH F]; constructor; [|done].
  intros Hc. rewrite Forall_forall in F. specialize (F c Hc). lia.
Qed.

Definition descriptor_ok (d : SchemaDescriptor) : Prop := Forall (λ r, r < root_fields d) (column_roots d).

(** No column is nested: each root is a leaf. *)
Definition flat (d : SchemaDescriptor) : Prop := column_roots d = seq 0 (root_fields d).

Lemma flat_ok d : flat d → descriptor_ok d.
Proof. unfold flat, descriptor_ok. intros ->. apply Forall_forall. intros r ?%elem_of_seq. lia. Qed.

Section laws.
Context `{ProjectionMaskLaws}.

Lemma mark_roots_ok p leaf roots mask :
  Forall (λ r, r < List.length mask) roots →
  ∃ mask', mark_roots p leaf roots mask = Ret mask' ∧ List.length mask' = List.length mask
    ∧ ∀ r, mask' !! r = Some true ↔
           mask !! r = Some true ∨ ∃ i, roots !! i = Some r ∧ leaf_included p (leaf + i) = true.
Proof.
  revert leaf mask. induction roots as [|root roots IH]; intros leaf mask F.
  { exists mask. split_and!; [done..|]. intros r. split; [by left|]. intros [?|(i & ? & _)]; done. }
  apply Forall_cons in F as [Hr F]. cbn [mark_roots].
  destruct (leaf_included p leaf) eqn:El.
  - rewrite (proj2 (Nat.ltb_lt _ _) Hr).
    destruct (IH (S leaf) (<[root := true]> mask)) as (mask' & -> & Hl & He).
    { by rewrite length_insert. }
    exists mask'. rewrite length_insert in Hl. split_and!; [done|done|]. intros r. rewrite He. split.
    + intros [E|(i & Hi & Hp)].
      * apply list_lookup_insert_Some in E as [(-> & _ & _)|[_ E]]; [|by left].
        right. exists 0. split; [done|]. by rewrite Nat.add_0_r.
      * right. exists (S i). split; [done|]. by rewrite Nat.add_succ_r.
    + intros [E|([|i] & Hi & Hp)].
      * left. destruct (decide (root = r)) as [->|]; [by apply list_lookup_insert_eq|].
        by rewrite list_lookup_insert_ne.
      * injection Hi as ->. left. by apply list_lookup_insert_eq.
      * right. exists i. split; [done|]. by rewrite Nat.add_succ_r in Hp.
  - destruct (IH (S leaf) mask F) as (mask' & -> & Hl & He). exists mask'. split_and!; [done|done|].
    intros r. rewrite He. split.
    + intros [E|(i & Hi & Hp)]; [by left|]. right. exists (S i). split; [done|]. by rewrite Nat.add_succ_r.
    + intros [E|([|i] & Hi & Hp)]; [by left| |].
      * rewrite Nat.add_0_r in Hp. congruence.
      * right. exists i. split; [done|]. by rewrite Nat.add_succ_r in Hp.
Qed.

(** The root columns of the included leaves, in order and once each. *)
Lemma get_root_column_ids_ok d p :
  descriptor_ok d →
  ∃ ids, get_root_column_ids d p = Ret ids ∧ Sorted Z.lt ids
    ∧ ∀ c, c ∈ ids ↔ ∃ i r, column_roots d !! i = Some r ∧ leaf_included p i = true ∧ c = Z.of_nat r.
Proof.
  intros D. unfold get_root_column_ids.
  destruct (mark_roots_ok p 0 (column_roots d) (replicate (root_fields d) false)) as (mask & -> & _ & He).
  { by rewrite length_replicate. }
  run_step. eexists. split; [done|]. split; [apply positions_from_sorted|].
  intros c. rewrite elem_positions. split.
  - intros (r & Hr & ->). apply He in Hr as [[Hr _]%lookup_replicate|(i & Hi & Hp)]; [done|]. by exists i, r.
  - intros (i & r & Hi & Hp & ->). exists r. split; [|done]. apply He. right. by exists i.
Qed.

Lemma elem_predicate_column_id d l c :
  c ∈ get_predicate_column_id (mask_roots d l)
  ↔ ∃ i r, column_roots d !! i = Some r ∧ Z.of_nat r ∈ l ∧ c = Z.of_nat i.
Proof.
  destruct (roots_layout d l) as (m & Em & Hl). unfold get_predicate_column_id. rewrite Em.
  change (default [] (positions <$> Some m)) with (positions m). rewrite elem_positions.
  assert (∀ i r, column_roots d !! i = Some r → m !! i = Some true ↔ Z.of_nat r ∈ l) as Hi.
  { intros i r Hr. pose proof (lookup_lt_Some _ _ _ Hr) as Hlt. rewrite <- Hl in Hlt.
    pose proof (layout_included _ m i Em Hlt) as E. rewrite (roots_included d l i r Hr) in E.
    destruct (lookup_lt_is_Some_2 m i Hlt) as [b Hb]. rewrite Hb.
    rewrite (nth_lookup m i false), Hb in E. cbn in E. subst b.
    rewrite (inj_iff Some). by rewrite bool_decide_eq_true. }
  split.
  - intros (i & Ei & ->). pose proof (lookup_lt_Some _ _ _ Ei) as Hlt. rewrite Hl in Hlt.
    destruct (lookup_lt_is_Some_2 _ _ Hlt) as [r Hr]. exists i, r. split_and!; [done| |done]. by apply (Hi i r).
  - intros (i & r & Hr & Hin & ->). exists i. split; [|done]. by apply (Hi i r).
Qed.
End laws.

#[local] Instance lt_antisymm : AntiSymm (=) Z.lt.
Proof. intros x y. lia. Qed.

(** In a file without nested columns, the columns a predicate of the row
    filter asks the cache for are the columns its expression reads, in the order
    of the file and once each, and they are the columns the stream makes sure are
    cached for it. *)
Lemma predicate_columns_flat `{ProjectionMaskLaws} d l :
  flat d → Forall (λ c, 0 <= c < Z.of_nat (root_fields d))%Z l →
  let ids := get_predicate_column_id (mask_roots d l) in
  get_root_column_ids d (mask_roots d l) = Ret ids ∧ Sorted Z.lt ids ∧ ∀ c, c ∈ ids ↔ c ∈ l.
Proof.
  intros Hf F ids.
  assert (∀ i r, column_roots d !! i = Some r ↔ r = i ∧ i < root_fields d) as Er.
  { intros i r. rewrite Hf. rewrite lookup_seq. lia. }
  assert (∀ c, c ∈ ids ↔ c ∈ l) as Hi.
  { intros c. unfold ids. rewrite elem_predicate_column_id. split.
    - intros (i & r & Hr & Hin & ->). apply Er in Hr as [-> _]. done.
    - intros Hc. rewrite Forall_forall in F. specialize (F c Hc).
      exists (Z.to_nat c), (Z.to_nat c). rewrite Er, Z2Nat.id by lia. split_and!; [done|lia|done|done]. }
  destruct (get_root_column_ids_ok d (mask_roots d l) (flat_ok d Hf)) as (ids' & -> & S & He).
  assert (Sorted Z.lt ids) as S'.
  { unfold ids, get_predicate_column_id. destruct (roots_layout d l) as (m & -> & _). apply positions_from_sorted. }
  split; [|by split]. f_equal. apply (Sorted_unique Z.lt); [done|done|].
  apply NoDup_Permutation.
  - by apply sorted_lt_NoDup.
  - by apply sorted_lt_NoDup.
  - intros c. rewrite He, Hi. split.
    + intros (i & r & Hr & Hp & ->). rewrite (roots_included d l i r Hr) in Hp.
      by apply bool_decide_eq_true in Hp.
    + intros Hc. rewrite Forall_forall in F. specialize (F c Hc). exists (Z.to_nat c), (Z.to_nat c).
      assert (column_roots d !! Z.to_nat c = Some (Z.to_nat c)) as Hr by (rewrite Er; lia).
      rewrite (roots_included d l _ _ Hr), Z2Nat.id by lia. split_and!; [done| |done].
      by apply bool_decide_eq_true.
Qed.

Lemma sorted_same l l' : Sorted Z.lt l → Sorted Z.lt l' → (∀ c : Z, c ∈ l ↔ c ∈ l') → l = l'.
Proof.
  intros S S' E. apply (Sorted_unique Z.lt); [done|done|]. by apply NoDup_Permutation; [apply sorted_lt_NoDup..|].
Qed.

Lemma predicate_columns `{ProjectionMaskLaws} d l :
  flat d → Forall (λ c, 0 <= c < Z.of_nat (root_fields d))%Z l → Sorted Z.lt l →
  get_predicate_column_id (mask_roots d l) = l ∧ get_root_column_ids d (mask_roots d l) = Ret l.
Proof.
  intros Hf R S. destruct (predicate_columns_flat d l Hf R) as (-> & S' & E).
  by rewrite (sorted_same _ _ S' S E).
Qed.

(** ** The conjuncts that are pushed down *)

Lemma elem_btree_insert x y l : x ∈ btree_insert y l ↔ x = y ∨ x ∈ l.
Proof.
  induction l as [|z l IH]; cbn [btree_insert]; [by rewrite elem_of_cons|].
  destruct (Z.ltb_spec y z); [by rewrite elem_of_cons|]. destruct (Z.eqb_spec y z) as [->|].
  - rewrite elem_of_cons. naive_solver.
  - rewrite !elem_of_cons, IH. naive_solver.
Qed.

Lemma btree_insert_sorted x l : Sorted Z.lt l → Sorted Z.lt (btree_insert x l).
Proof.
  intros S%(Sorted_StronglySorted Z.lt_trans). apply StronglySorted_Sorted.
  induction S as [|z l S IH F]; cbn [btree_insert]; [repeat constructor|].
  rewrite Forall_forall in F. destruct (Z.ltb_spec x z).
  - constructor; [constructor; [done|by apply Forall_forall]|]. constructor; [done|].
    apply Forall_forall. intros y Hy. specialize (F y Hy). lia.
  - destruct (Z.eqb_spec x z) as [->|]; [constructor; [done|by apply Forall_forall]|].
    constructor; [done|]. apply Forall_forall. intros y [->|Hy]%elem_btree_insert; [lia|by apply F].
Qed.

Fixpoint columns_of (node : VisitNode) : list string :=
  match node with
  | ColumnNode name => [name]
  | ExprNode children => List.concat (List.map columns_of children)
  end.

Fixpoint visit_node_all (P : VisitNode → Prop) (Hc : ∀ name, P (ColumnNode name))
    (He : ∀ children, Forall P children → P (ExprNode children)) (node : VisitNode) : P node :=
  match node with
  | ColumnNode name => Hc name
  | ExprNode children =>
      He children
        ((fix all (nodes : list VisitNode) : Forall P nodes :=
            match nodes with
            | [] => List.Forall_nil P
            | node :: nodes => @List.Forall_cons _ P node nodes (visit_node_all P Hc He node) (all nodes)
            end) children)
  end.

Section pushable.
Context {AL : ArrowLib} {EL : FilterLib}.

Definition column_id (fields : list ParquetField) (name : string) : option Z :=
  Z.of_nat <$> index_of fields name.

(** A column of the file that is not nested. *)
Definition name_pushable (fields : list ParquetField) (name : string) : bool :=
  match index_of fields name ≫= (fields !!.) with
  | Some field => negb (is_nested (pf_data_type field))
  | None => false
  end.

(** A conjunct that reads some columns, all of them of this kind. *)
Definition pushable (fields : list ParquetField) (e : PhysicalExpr) : bool :=
  let names := columns_of (visit_tree e) in
  match names with [] => false | _ => forallb (name_pushable fields) names end.

(** [ids] are the columns that [e] reads, in the order of the file. *)
Record reads (fields : list ParquetField) (e : PhysicalExpr) (ids : list Z) : Prop := {
  rd_sorted : Sorted Z.lt ids;
  rd_some : ids ≠ [];
  rd_range : Forall (λ c, 0 <= c < Z.of_nat (List.length fields))%Z ids;
  rd_known : Forall (λ name, index_of fields name ≠ None) (columns_of (visit_tree e));
  rd_columns c : c ∈ ids ↔ ∃ name, name ∈ columns_of (visit_tree e) ∧ column_id fields name = Some c
}.
End pushable.

Definition select_fields (fields : list ParquetField) (ids : list Z) : list ParquetField :=
  omap (λ c, fields !! Z.to_nat c) ids.

(** What the documentation of DataFusion and arrow says: [etrue e cols i] is that
    [e] is true on the row [i] of the columns of the file.  An expression is its
    conjuncts; re-assigned to the schema of the columns that it reads, it is
    evaluated on a batch of these. *)
Class FilterLaws {AL : ArrowLib} {LF : LiquidFormats} {FL : FormatLaws} {RB : RecordBatches}
    {RL : RecordBatchLaws} {EL : FilterLib} (fields : list ParquetField) : Type := {
  etrue : PhysicalExpr → (Z → Val) → nat → bool;
  split_conjunction_ok e cols i : etrue e cols i = forallb (λ c, etrue c cols i) (split_conjunction e);
  split_conjunction_atomic e c : c ∈ split_conjunction e → split_conjunction c = [c];
  index_of_ok name i :
    index_of fields name = Some i → ∃ field, fields !! i = Some field ∧ pf_name field = name;
  project_schema_ok ids :
    Forall (λ c, 0 <= c < Z.of_nat (List.length fields))%Z ids →
    project_schema fields ids = Some (select_fields fields ids);
  map_schema_ok ids :
    NoDup (pf_name <$> fields) → Sorted Z.lt ids →
    Forall (λ c, 0 <= c < Z.of_nat (List.length fields))%Z ids →
    map_schema (select_fields fields ids) fields fields = Some ids;
  reassign_ok e ids :
    NoDup (pf_name <$> fields) → split_conjunction e = [e] → reads fields e ids →
    ∃ e', reassign_expr_columns e (select_fields fields ids) = Some e'
      ∧ (∀ cols n, Forall (λ c, vlen (cols c) = n) ids →
           prep_null_mask_filter (prows e' (cols <$> ids)) = etrue e cols <$> seq 0 n)
      ∧ (∀ c v, ids = [c] → peval e v = prows e' [v])
}.

Definition total_order {A} (cmp : A → A → comparison) : Prop :=
  (∀ a b, cmp b a = CompOpp (cmp a b)) ∧ ∀ a b c, cmp a b ≠ Gt → cmp b c ≠ Gt → cmp a c ≠ Gt.

Class UnstableSortLaws {US : UnstableSort} : Prop := {
  sort_permutation {A} cmp (l : list A) : sort_unstable_by cmp l ≡ₚ l;
  sort_sorted {A} cmp (l : list A) : total_order cmp → Sorted (λ a b, cmp a b ≠ Gt) (sort_unstable_by cmp l)
}.

Section building.
Context {AL : ArrowLib} {LF : LiquidFormats} {FL : FormatLaws} {RB : RecordBatches} {RL : RecordBatchLaws}.
Context {PM : ProjectionMasks} {PML : ProjectionMaskLaws} {US : UnstableSort} {USL : UnstableSortLaws}.
Context {EL : FilterLib} (fields : list ParquetField) {FiL : FilterLaws fields}.

Lemma check_single_column_ok name c :
  ∃ jump c', check_single_column fields name c = Ret (jump, c')
    ∧ (Sorted Z.lt (required_columns c) → Sorted Z.lt (required_columns c'))
    ∧ prevents_pushdown c' = prevents_pushdown c || negb (name_pushable fields name)
    ∧ ∀ x, x ∈ required_columns c' ↔ x ∈ required_columns c ∨ column_id fields name = Some x.
Proof.
  unfold check_single_column, name_pushable, column_id. destruct (index_of fields name) as [idx|] eqn:Ei.
  - destruct (index_of_ok name idx Ei) as (field & Ef & _). cbn [mbind option_bind]. rewrite Ef. cbn [expect].
    run_step. destruct (is_nested (pf_data_type field)); (eexists _, _; split; [reflexivity|]);
      unfold prevents_pushdown; cbn [required_columns non_primitive_columns projected_columns negb].
    + split_and!; [apply btree_insert_sorted|by rewrite orb_true_r|].
      intros x. rewrite elem_btree_insert. cbn. naive_solver.
    + split_and!; [apply btree_insert_sorted|by rewrite orb_false_r|].
      intros x. rewrite elem_btree_insert. cbn. naive_solver.
  - eexists _, _. split; [reflexivity|]. unfold prevents_pushdown. cbn. split_and!; [done|by rewrite !orb_true_r|].
    naive_solver.
Qed.

Lemma visit_ok node c :
  ∃ c', visit fields node c = Ret c'
    ∧ (Sorted Z.lt (required_columns c) → Sorted Z.lt (required_columns c'))
    ∧ prevents_pushdown c' = prevents_pushdown c || negb (forallb (name_pushable fields) (columns_of node))
    ∧ ∀ x, x ∈ required_columns c'
        ↔ x ∈ required_columns c ∨ ∃ name, name ∈ columns_of node ∧ column_id fields name = Some x.
Proof.
  revert node c. apply (visit_node_all (λ node, ∀ c, _)).
  - intros name c. destruct (check_single_column_ok name c) as (jump & c' & E & Hs & Hp & He).
    exists c'. cbn [visit columns_of forallb]. rewrite E. run_step. split_and!; [done|done|by rewrite andb_true_r|].
    intros x. rewrite He. apply or_iff_compat_l. split; [intros Hx; exists name; split; [by left|done]|].
    by intros (? & ->%list_elem_of_singleton & ?).
  - intros nodes F. cbn [visit columns_of].
    induction F as [|node nodes IH _ IHs]; intros c; cbn [List.map List.concat].
    { exists c. cbn. rewrite orb_false_r. split_and!; [done|done|done|]. intros x. split; [by left|].
      intros [?|(? & []%not_elem_of_nil & _)]; done. }
    destruct (IH c) as (c1 & E1 & S1 & P1 & X1). destruct (IHs c1) as (c2 & E2 & S2 & P2 & X2).
    exists c2. rewrite E1. run_step. split_and!; [exact E2|auto| |].
    + rewrite P2, P1, forallb_app, negb_andb, orb_assoc. done.
    + intros x. rewrite X2, X1. setoid_rewrite elem_of_app. naive_solver.
Qed.

(** The columns of an expression are all there and flat, or it is not pushed. *)
Lemma pushdown_columns_ok e :
  ∃ ids, pushdown_columns e fields
         = Ret (if forallb (name_pushable fields) (columns_of (visit_tree e)) then Some ids else None)
    ∧ Sorted Z.lt ids
    ∧ ∀ x, x ∈ ids ↔ ∃ name, name ∈ columns_of (visit_tree e) ∧ column_id fields name = Some x.
Proof.
  destruct (visit_ok (visit_tree e) checker_new) as (c & E & Hs & Hp & He). exists (required_columns c).
  unfold pushdown_columns. rewrite E. run_step. rewrite Hp. cbn [prevents_pushdown checker_new orb]. split_and!.
  - by destruct (forallb _ _).
  - apply Hs. constructor.
  - intros x. rewrite He. cbn. split; [|by right]. intros [[]%not_elem_of_nil|?]; done.
Qed.

Lemma column_id_range name c : column_id fields name = Some c → (0 <= c < Z.of_nat (List.length fields))%Z.
Proof.
  unfold column_id. intros (i & Ei & ->)%fmap_Some_1. destruct (index_of_ok name i Ei) as (field & Hf & _).
  apply lookup_lt_Some in Hf. lia.
Qed.

Lemma add_sizes_ok idx sizes total :
  (0 <= idx < Z.of_nat (List.length fields))%Z → Forall (λ l, List.length fields <= List.length l) sizes →
  ∃ t, add_sizes idx sizes total = Ret t.
Proof.
  intros Hi F. revert total. induction F as [|l sizes Hl _ IH]; intros total; cbn [add_sizes]; [by eexists|].
  destruct (lookup_lt_is_Some_2 l (Z.to_nat idx)) as [size ->]; [lia|]. cbn [expect]. run_step. apply IH.
Qed.

Lemma size_of_columns_ok ids sizes :
  Forall (λ c, 0 <= c < Z.of_nat (List.length fields))%Z ids →
  Forall (λ l, List.length fields <= List.length l) sizes → ∃ t, size_of_columns ids sizes = Ret t.
Proof.
  intros F Fs. unfold size_of_columns. generalize 0%Z. induction F as [|c ids Hc _ IH]; intros total;
    cbn [size_of_columns_from]; [by eexists|].
  destruct (add_sizes_ok c sizes total Hc Fs) as [t ->]. run_step. apply IH.
Qed.

(** A candidate is a conjunct with the columns that it reads. *)
Definition candidate_ok (c : FilterCandidate) : Prop :=
  reads fields (fc_expr c) (fc_projection c) ∧ fc_filter_schema c = select_fields fields (fc_projection c).

Lemma candidate_build_ok e sizes :
  NoDup (pf_name <$> fields) → Forall (λ l, List.length fields <= List.length l) sizes →
  ∃ candidate, candidate_build (CandidateBuilder e fields fields) sizes = Ret (Ok candidate)
    ∧ if pushable fields e then ∃ c, candidate = Some c ∧ fc_expr c = e ∧ candidate_ok c else candidate = None.
Proof.
  intros N Fs. destruct (pushdown_columns_ok e) as (ids & E & S & X). unfold candidate_build. cbn [fb_expr fb_table_schema fb_file_schema].
  rewrite E. run_step. unfold pushable.
  destruct (columns_of (visit_tree e)) as [|name names] eqn:En.
  { destruct ids as [|c ids]; [by exists None|].
    assert (c ∈ c :: ids) as (? & []%not_elem_of_nil & _)%X by (by left). }
  destruct (forallb (name_pushable fields) _) eqn:Ef; [|by exists None].
  assert (Forall (λ name, index_of fields name ≠ None) (name :: names)) as K.
  { apply Forall_forall. intros n' Hn. rewrite forallb_forall in Ef.
    specialize (Ef n' (proj1 (list_elem_of_In _ _) Hn)). unfold name_pushable in Ef. by destruct (index_of fields n'). }
  assert (ids ≠ []) as Hids.
  { apply Forall_cons in K as [K _]. destruct (index_of fields name) as [i|] eqn:Ei; [|done]. intros ->.
    eapply not_elem_of_nil, X. exists name. split; [by left|]. unfold column_id. by rewrite Ei. }
  assert (Forall (λ c, 0 <= c < Z.of_nat (List.length fields))%Z ids) as R.
  { apply Forall_forall. intros c (n' & _ & Hc)%X. by eapply column_id_range. }
  destruct (size_of_columns_ok ids sizes R Fs) as [t Ht]. destruct ids as [|c ids]; [done|].
  rewrite project_schema_ok, map_schema_ok by done. rewrite Ht. run_step. eexists. split; [reflexivity|].
  eexists. split_and!; [reflexivity|reflexivity|]. split; [|done]. cbn [fc_expr fc_projection].
  split; rewrite ?En; done.
Qed.

Lemma build_candidates_ok es sizes :
  NoDup (pf_name <$> fields) → Forall (λ l, List.length fields <= List.length l) sizes →
  ∃ cs, build_candidates es fields fields sizes = Ret (Ok cs)
    ∧ fc_expr <$> cs = List.filter (pushable fields) es ∧ Forall candidate_ok cs.
Proof.
  intros N Fs. induction es as [|e es (cs & E & He & F)]; [by exists []|]. cbn [build_candidates List.filter].
  destruct (candidate_build_ok e sizes N Fs) as (candidate & -> & Hc). run_step. rewrite E. run_step.
  destruct (pushable fields e).
  - destruct Hc as (c & -> & <- & Hc). exists (c :: cs). split_and!; [done| |by constructor].
    change (fc_expr <$> c :: cs) with (fc_expr c :: (fc_expr <$> cs)). by rewrite He.
  - subst candidate. by exists cs.
Qed.

Lemma sorted_weaken {A} (R R' : relation A) l : (∀ x y, R x y → R' x y) → Sorted R l → Sorted R' l.
Proof. intros H. induction 1 as [|x l S IH Hd]; constructor; [done|]. destruct Hd; constructor; auto. Qed.

Lemma sorted_of_fmap {A B} (f : A → B) (R : relation B) l : Sorted R (f <$> l) ↔ Sorted (λ x y, R (f x) (f y)) l.
Proof.
  split.
  - induction l as [|x l IH]; cbn; [constructor|]. intros [S Hd]%Sorted_inv. constructor; [by apply IH|].
    destruct l as [|y l]; constructor. by apply HdRel_inv in Hd.
  - intros S. by eapply Sorted_fmap; [|exact S].
Qed.

Lemma key_order {A} (key : A → Z) : total_order (λ a b, (key a ?= key b)%Z).
Proof.
  split; [intros a b; apply Z.compare_antisym|]. intros a b c. rewrite !Z.compare_le_iff. lia.
Qed.

Lemma order_candidates_ok reorder cs :
  order_candidates reorder cs ≡ₚ cs
  ∧ Sorted (λ c1 c2, get_priority (fc_expr c1) <= get_priority (fc_expr c2))%Z (order_candidates reorder cs).
Proof.
  unfold order_candidates. split.
  - rewrite sort_permutation. destruct reorder; [apply sort_permutation|done].
  - eapply sorted_weaken; [|apply sort_sorted, (key_order (λ c, get_priority (fc_expr c)))].
    intros c1 c2. unfold compare_priority. by rewrite Z.compare_le_iff.
Qed.

(** A predicate of the filter: its conjunct, the columns it reads, what it
    answers on them. *)
Definition predicate_read (d : SchemaDescriptor) (p : FilterPredicate) : Prop :=
  let e := fp_physical_column_index p in
  ∃ ids, reads fields e ids ∧ fp_projection_mask p = mask_roots d ids
    ∧ (∀ cols n, Forall (λ c, vlen (cols c) = n) ids →
         prep_null_mask_filter (prows (fp_physical_expr p) (cols <$> ids)) = etrue e cols <$> seq 0 n)
    ∧ (∀ c v, ids = [c] → peval e v = prows (fp_physical_expr p) [v]).

Lemma compile_candidates_ok d cs :
  NoDup (pf_name <$> fields) → Forall candidate_ok cs →
  Forall (λ c, split_conjunction (fc_expr c) = [fc_expr c]) cs →
  ∃ ps, compile_candidates d cs = Ok ps ∧ fp_physical_column_index <$> ps = fc_expr <$> cs
    ∧ Forall (predicate_read d) ps.
Proof.
  intros N F A. induction F as [|c cs [Hc Hs] _ IH]; [by exists []|].
  apply Forall_cons in A as [Ac A]. destruct (IH A) as (ps & E & He & Fp). cbn [compile_candidates].
  unfold predicate_try_new. destruct (reassign_ok _ _ N Ac Hc) as (e' & Er & Hrows & Heval).
  rewrite Hs, Er, E. eexists. split; [reflexivity|]. split.
  - change (?f <$> ?x :: ?l) with (f x :: (f <$> l)). by rewrite He.
  - constructor; [|done]. exists (fc_projection c). by split_and!.
Qed.

Lemma build_row_filter_ok e d sizes reorder :
  NoDup (pf_name <$> fields) → Forall (λ l, List.length fields <= List.length l) sizes →
  let conjuncts := List.filter (pushable fields) (split_conjunction e) in
  ∃ filter, build_row_filter e fields fields d sizes reorder = Ret (Ok filter)
    ∧ (filter = None ↔ conjuncts = [])
    ∧ fp_physical_column_index <$> default [] filter ≡ₚ conjuncts
    ∧ Sorted (λ p q, get_priority (fp_physical_column_index p) <= get_priority (fp_physical_column_index q))%Z
        (default [] filter)
    ∧ Forall (predicate_read d) (default [] filter).
Proof.
  intros N Fs conjuncts. destruct (build_candidates_ok (split_conjunction e) sizes N Fs) as (cs & E & He & F).
  unfold build_row_filter. rewrite E. run_step. fold conjuncts in He.
  destruct cs as [|c cs']; [exists None; rewrite <- He; split_and!; done || constructor|].
  set (cs := c :: cs') in *.
  destruct (order_candidates_ok reorder cs) as [Hp Ho].
  destruct (compile_candidates_ok d (order_candidates reorder cs) N) as (ps & -> & Hps & Fp).
  { by rewrite Hp. }
  { rewrite Hp. apply Forall_forall. intros x Hx.
    assert (fc_expr x ∈ conjuncts) as Hin by (rewrite <- He; by apply list_elem_of_fmap_2).
    unfold conjuncts in Hin. apply list_elem_of_In, filter_In in Hin as [Hin _].
    by eapply split_conjunction_atomic, list_elem_of_In. }
  exists (Some ps). change (default [] (Some ps)) with ps. split_and!; [done| | | |done].
  - rewrite <- He. done.
  - by rewrite Hps, Hp, He.
  - apply (sorted_of_fmap fp_physical_column_index (λ x y, get_priority x <= get_priority y)%Z).
    rewrite Hps. by apply (sorted_of_fmap fc_expr (λ x y, get_priority x <= get_priority y)%Z).
Qed.

(** ** What the filter keeps *)

Context (d : SchemaDescriptor) (Hd : flat d) (Hr : root_fields d = List.length fields).

Lemma predicate_read_columns p ids :
  reads fields (fp_physical_column_index p) ids → fp_projection_mask p = mask_roots d ids →
  predicate_column_ids (liquid_predicate p) = ids
  ∧ get_root_column_ids d (fp_projection_mask p) = Ret ids.
Proof.
  intros [S _ R _ _] Em. unfold liquid_predicate. cbn [predicate_column_ids]. rewrite Em. apply predicate_columns; [done|by rewrite Hr|done].
Qed.

Lemma answer_etrue (value : Z → nat → Val) k n p :
  predicate_read d p →
  (∀ c, (0 <= c < Z.of_nat (List.length fields))%Z → vlen (value c k) = n) →
  answer value k (liquid_predicate p) = etrue (fp_physical_column_index p) (λ c, value c k) <$> seq 0 n.
Proof.
  intros (ids & Hids & Em & Hrows & _) Hl. unfold answer.
  destruct (predicate_read_columns p ids Hids Em) as [-> _]. cbn [physical_expr liquid_predicate].
  apply (Hrows (λ c, value c k)). eapply Forall_impl; [apply Hids|]. intros c Hc. by apply Hl.
Qed.

Lemma zip_with_true (sel l : list bool) :
  List.length sel <= List.length l → Forall (λ b, b = true) l → zip_with andb sel l = sel.
Proof.
  revert l. induction sel as [|b sel IH]; intros [|x l] Hl F; cbn in *; [done|done|lia|].
  apply Forall_cons in F as [-> F]. rewrite IH by (done || lia). by rewrite andb_true_r.
Qed.

Lemma zip_with_and_assoc (a b c : list bool) :
  zip_with andb (zip_with andb a b) c = zip_with andb a (zip_with andb b c).
Proof.
  revert b c. induction a as [|x a IH]; intros [|y b] [|z c]; cbn; try done. by rewrite IH, andb_assoc.
Qed.

Lemma keep_rows_etrue (value : Z → nat → Val) k n ps sel :
  Forall (predicate_read d) ps →
  (∀ c, (0 <= c < Z.of_nat (List.length fields))%Z → vlen (value c k) = n) → List.length sel <= n →
  keep_rows value k (liquid_predicate <$> ps) sel
  = zip_with andb sel
      ((λ i, forallb (λ e, etrue e (λ c, value c k) i) (fp_physical_column_index <$> ps)) <$> seq 0 n).
Proof.
  intros F Hl. revert sel. induction F as [|p ps Hp _ IH]; intros sel Hs.
  - rewrite zip_with_true; [done|by rewrite length_fmap, length_seq|]. apply Forall_fmap, Forall_forall. done.
  - change (liquid_predicate <$> p :: ps) with (liquid_predicate p :: (liquid_predicate <$> ps)).
    unfold keep_rows in *. cbn [foldl]. rewrite IH, (answer_etrue value k n p Hp Hl), zip_with_and_assoc.
    + f_equal. rewrite zip_with_fmap_l, zip_with_fmap_r, zip_with_diag. by apply list_fmap_ext.
    + rewrite length_zip_with. lia.
Qed.

End building.

(** ** An instance *)

Fixpoint or_leaves (a b : list bool) : list bool :=
  match a, b with
  | [], l | l, [] => l
  | x :: a, y :: b => (x || y) :: or_leaves a b
  end.

#[export] Instance leaf_masks : ProjectionMasks := {
  ProjectionMask := option (list bool);
  mask_layout p := p;
  leaf_included p i := match p with None => true | Some m => nth i m false end;
  mask_union p q := match p, q with Some a, Some b => Some (or_leaves a b) | _, _ => None end;
  mask_roots d l := Some ((λ r, bool_decide (Z.of_nat r ∈ l)) <$> column_roots d)
}.

Lemma nth_or_leaves a b i : nth i (or_leaves a b) false = nth i a false || nth i b false.
Proof.
  revert b i. induction a as [|x a IH]; intros [|y b] [|i]; cbn; rewrite ?orb_false_r; done.
Qed.

#[export] Instance leaf_mask_laws : ProjectionMaskLaws.
Proof.
  split.
  - intros p m i Hp _. cbn in *. by rewrite Hp.
  - intros [a|] [b|] i; cbn; rewrite ?orb_true_r, ?nth_or_leaves; done.
  - intros d l i r Hr. cbn. by rewrite nth_lookup, list_lookup_fmap, Hr.
  - intros d l. eexists. split; [done|]. apply length_fmap.
Qed.

Lemma forallb_perm {A} (f : A → bool) l l' : l ≡ₚ l' → forallb f l = forallb f l'.
Proof. induction 1; cbn; [done|congruence|by rewrite !andb_assoc, (andb_comm (f y))|congruence]. Qed.

(** Merge sort is one of the sorts that [sort_unstable_by] may be. *)
#[export] Instance merge_sorts : UnstableSort := {
  sort_unstable_by A cmp := merge_sort (λ a b : A, cmp a b ≠ Gt)
}.

#[export] Instance merge_sorts_laws : UnstableSortLaws.
Proof.
  split.
  - intros A cmp l. apply merge_sort_Permutation.
  - intros A cmp l [Ha Ht]. cbn. apply Sorted_merge_sort. intros a b.
    rewrite (Ha a b). destruct (cmp a b); [left|left|right]; done.
Qed.
