(* ===== verification/Stream.v ===== *)
(** * The stream of a parquet file

    Model of [src/src/parquet/src/reader/runtime/liquid_stream.rs]: row group
    after row group, the stream plans which rows are read, fills the cache with
    the batches that are missing in it, and reads them back through
    [LiquidCacheReader].  A future runs to its end in one step, so a poll is
    never pending; the decoder of parquet files and the operations of
    [RowSelection] are third-party: the classes [ParquetDecoder] and
    [RowSelectionReads].  The [debug_assert]s are not executed (release profile)
    and the traces are left out. *)

From stdpp Require Import base list gmap strings.
From Stdlib Require Import ZArith String Lia.
From S2P Require Import Prelude CachePolicy CivilDate DataTypes Expressions Budget BooleanBuffers AndThen.
From S2P Require Import Formats Observer CacheEntry Transcode Squeeze Hydration Core Builders.
From S2P Require Import ParquetIds RowSelection ColumnCache Reader RowFilter.

#[export] Instance batch_id_eq_dec : EqDecision BatchID.
Proof. solve_decision. Defined.

(** [row_count] is the number of selected rows; [split_off n] gives the selection
    of the next [n] rows and leaves the others. *)
Class RowSelectionReads {RS : RowSelections} : Type := {
  rs_row_count : RowSelection → Z;
  rs_selects_any : RowSelection → bool;
  rs_split_off : Z → RowSelection → RowSelection * RowSelection
}.

(** What the stream looks up of the metadata of a file. *)
Record ParquetMetaData : Type := MetaData {
  md_row_groups : list Z;
  md_num_rows : Z;
  md_schema : SchemaDescriptor
}.

(** [parquet_stream projection row_group selection batch_size]: the items of the
    stream that [ParquetRecordBatchStreamBuilder] builds for one row group of the
    file; [Err] when it cannot be built. *)
Class ParquetDecoder {AL : ArrowLib} {RB : RecordBatches} {RS : RowSelections} {PM : ProjectionMasks} : Type := {
  parquet_stream : ProjectionMask → Z → RowSelection → Z → result (list (result RecordBatch));
  rb_num_rows : RecordBatch → Z;
  rb_columns : RecordBatch → list ArrayRef
}.

(** ** Batches of a row group *)

(** [batches.push] unless the last one is the same. *)
Definition push_batch (batch_id : BatchID) (batches : list BatchID) : list BatchID :=
  match last batches with
  | Some last => if decide (last = batch_id) then batches else batches ++ [batch_id]
  | None => batches ++ [batch_id]
  end.

(** The loop over the selectors; dividing by a batch size of zero panics. *)
Fixpoint collect_selectors (batch_size row_count current_row : Z) (selectors : list RowSelector)
    (batches : list BatchID) : outcome (list BatchID) :=
  match selectors with
  | [] => Ret batches
  | selector :: selectors =>
      let next_row := usize (current_row + RowSelection.row_count selector) in
      if skip selector then collect_selectors batch_size row_count next_row selectors batches
      else
        let start := current_row in
        let end_ := Z.min next_row row_count in
        if start >=? end_ then
          collect_selectors batch_size row_count
            (Z.min (current_row + RowSelection.row_count selector) (2 ^ 64 - 1)) selectors batches
        else if batch_size =? 0 then Panic
        else
          let start_batch := start / batch_size in
          let end_batch := usize (end_ - 1) / batch_size in
          let batches :=
            foldl (λ batches batch_idx, push_batch (from_raw (wrapu 16 batch_idx)) batches) batches
              (seqZ start_batch (end_batch - start_batch + 1)) in
          collect_selectors batch_size row_count next_row selectors batches
  end%Z.

Definition collect_selection_batches {RS : RowSelections} (selection : RowSelection)
    (batch_size row_count : Z) : outcome (list BatchID) :=
  collect_selectors batch_size row_count 0 (rs_selectors selection) [].

(** The loop of [build_selection_for_batches]. *)
Fixpoint batch_selectors (batch_size row_count current_row : Z) (batches : list BatchID) : list RowSelector :=
  match batches with
  | [] => []
  | batch_id :: batches =>
      let batch_idx := v batch_id in
      let start := usize (batch_idx * batch_size) in
      if start >=? row_count then batch_selectors batch_size row_count current_row batches
      else
        let end_ := Z.min (usize ((batch_idx + 1) * batch_size)) row_count in
        (if start >? current_row then [Selector (usize (start - current_row)) true] else [])
          ++ Selector (usize (end_ - start)) false
             :: batch_selectors batch_size row_count end_ batches
  end%Z.

Definition build_selection_for_batches {RS : RowSelections} (batches : list BatchID)
    (batch_size row_count : Z) : RowSelection :=
  match batches with
  | [] => rs_from []
  | batches => rs_from (batch_selectors batch_size row_count 0 batches)
  end.

Definition build_projection_schema (file_schema : list ParquetField) (projection_column_ids : list Z)
    : list ParquetField :=
  omap (λ column_id, file_schema !! Z.to_nat column_id) projection_column_ids.

Section stream.
Context {AL : ArrowLib} {LF : LiquidFormats} {VL : VariantLib} {RB : RecordBatches}.
Context {BB : BooleanBuffers} {MB : MaskBuffers}.
Context {RS : RowSelections} {RR : RowSelectionReads} {PM : ProjectionMasks} {PD : ParquetDecoder}.
Context {P : Type} {CP : CachePolicy P}.
Context (squeeze_policy : SqueezePolicy) (hydration_policy : HydrationPolicy) (bmi2 : bool).
(** The batch size of the cache ([LiquidCache::config]), and the file. *)
Context (cache_batch_size : Z) (metadata : ParquetMetaData).

Local Abbreviation LiquidCache := (Core.LiquidCache P).

Record CachedFile : Type := File {
  cf_file_id : Z;
  cf_file_schema : list ParquetField
}.

Record ReaderFactory : Type := Factory {
  rf_filter : option (list FilterPredicate);
  rf_limit : option Z;
  rf_offset : option Z;
  rf_cached_file : CachedFile
}.

Record PlanningContext : Type := Plan {
  pc_row_group_idx : Z;
  pc_selection : RowSelection;
  pc_batch_size : Z;
  pc_cached_row_group : CachedRowGroup;
  pc_cache_projection : ProjectionMask;
  pc_projection_column_ids : list Z;
  pc_cache_column_ids : list Z;
  pc_missing_batches : list BatchID
}.

Definition set_filter (filter : option (list FilterPredicate)) (r : ReaderFactory) : ReaderFactory :=
  Factory filter (rf_limit r) (rf_offset r) (rf_cached_file r).

(** [num_rows() as usize] of a row group; an index out of range panics. *)
Definition row_group_rows (row_group_idx : Z) : outcome Z :=
  num_rows ← expect (md_row_groups metadata !! Z.to_nat row_group_idx); Ret (usize num_rows).

(** The loop over the predicates of the filter. *)
Definition predicate_projection (filter : option (list FilterPredicate)) : option ProjectionMask :=
  foldl (λ projection predicate,
      match projection with
      | Some p => Some (mask_union p (fp_projection_mask predicate))
      | None => Some (fp_projection_mask predicate)
      end) None (default [] filter).

(** A batch of which some column is not cached, or not there. *)
Definition batch_missing (columns : list (option CachedColumn)) (batch_id : BatchID) (s : LiquidCache) : bool :=
  existsb (λ column,
      match column with
      | Some column => negb (column_is_cached column batch_id s)
      | None => true
      end) columns.

Definition compute_missing_batches (g : CachedRowGroup) (column_ids : list Z)
    (selection_batches : list BatchID) (s : LiquidCache) : list BatchID :=
  match column_ids, selection_batches with
  | [], _ | _, [] => []
  | _, _ =>
      let columns := (λ column_idx, get_column column_idx g) <$> column_ids in
      foldl (λ missing batch_id,
          if batch_missing columns batch_id s then push_batch batch_id missing else missing)
        [] selection_batches
  end.

(** [offset], then [limit]. *)
Definition apply_offset_limit (r : ReaderFactory) (selection : RowSelection) : RowSelection :=
  let selection :=
    match rf_offset r with Some offset => offset_row_selection selection offset | None => selection end in
  match rf_limit r with Some limit => limit_row_selection selection limit | None => selection end.

Definition plan_row_group (r : ReaderFactory) (row_group_idx : Z) (selection : option RowSelection)
    (projection : ProjectionMask) (batch_size : Z) (s : LiquidCache)
    : outcome (option PlanningContext * ReaderFactory * LiquidCache) :=
  row_count ← row_group_rows row_group_idx;
  let predicate_projection := predicate_projection (rf_filter r) in
  let selection := default (rs_from [Selector row_count false]) selection in
  let rows_before := rs_row_count selection in
  if (rows_before =? 0)%Z then Ret (None, r, s)
  else
    let selection := apply_offset_limit r selection in
    let rows_after := rs_row_count selection in
    let offset := (λ offset, Z.max 0 (offset - usize (rows_before - rows_after)))%Z <$> rf_offset r in
    let r := Factory (rf_filter r) (rf_limit r) offset (rf_cached_file r) in
    if (rows_after =? 0)%Z then Ret (None, r, s)
    else
      let limit := (λ limit, usize (limit - rows_after)) <$> rf_limit r in
      let r := Factory (rf_filter r) limit offset (rf_cached_file r) in
      let cache_projection :=
        match predicate_projection with
        | Some predicate_projection => mask_union projection predicate_projection
        | None => projection
        end in
      selection_batches ← collect_selection_batches selection cache_batch_size row_count;
      cache_column_ids ← get_root_column_ids (md_schema metadata) cache_projection;
      predicate_column_ids ←
        match predicate_projection with
        | Some predicate_projection => get_root_column_ids (md_schema metadata) predicate_projection
        | None => Ret []
        end;
      let '(cached_row_group, s) :=
        create_row_group (cf_file_id (rf_cached_file r)) (cf_file_schema (rf_cached_file r))
          row_group_idx predicate_column_ids s in
      projection_column_ids ← get_root_column_ids (md_schema metadata) projection;
      let missing_batches :=
        compute_missing_batches cached_row_group cache_column_ids selection_batches s in
      Ret (Some (Plan row_group_idx selection batch_size cached_row_group cache_projection
                   projection_column_ids cache_column_ids missing_batches), r, s).

(** ** Filling the cache *)

(** The loop over the columns of a record batch; [AlreadyCached], the only error
    of [insert], is passed over. *)
Fixpoint insert_columns (fuel : nat) (column_ids : list Z) (col_idx : nat) (arrays : list ArrayRef)
    (batch_id : BatchID) (g : CachedRowGroup) (s : LiquidCache) : outcome LiquidCache :=
  match column_ids with
  | [] => Ret s
  | column_id :: column_ids =>
      column ← expect (get_column column_id g);
      array ← expect (arrays !! col_idx);
      '(_, s) ← column_insert squeeze_policy fuel column batch_id array s;
      insert_columns fuel column_ids (S col_idx) arrays batch_id g s
  end.

Definition insert_batch_into_cache (fuel : nat) (record_batch : RecordBatch) (column_ids : list Z)
    (batch_id : BatchID) (batch_size row_count : Z) (g : CachedRowGroup) (s : LiquidCache)
    : outcome LiquidCache :=
  match column_ids with
  | [] => Ret s
  | _ =>
      if (rb_num_rows record_batch =? 0)%Z then Ret s
      else if (usize (v batch_id * batch_size) >=? row_count)%Z then Ret s
      else insert_columns fuel column_ids 0 (rb_columns record_batch) batch_id g s
  end.

(** The loop over the record batches of the parquet stream, with the number of
    batches processed so far. *)
Fixpoint fill_batches (fuel : nat) (column_ids : list Z) (missing_batches : list BatchID)
    (row_count : Z) (g : CachedRowGroup) (items : list (result RecordBatch)) (processed_batches : nat)
    (s : LiquidCache) : outcome (result nat * LiquidCache) :=
  match items with
  | [] => Ret (Ok processed_batches, s)
  | Err :: _ => Ret (Err, s)
  | Ok record_batch :: items =>
      if (rb_num_rows record_batch =? 0)%Z
      then fill_batches fuel column_ids missing_batches row_count g items processed_batches s
      else
        match missing_batches !! processed_batches with
        | None => Ret (Err, s)
        | Some batch_id =>
            s ← insert_batch_into_cache fuel record_batch column_ids batch_id cache_batch_size row_count g s;
            fill_batches fuel column_ids missing_batches row_count g items (S processed_batches) s
        end
  end.

Definition fill_cache_from_parquet (fuel : nat) (context : PlanningContext) (s : LiquidCache)
    : outcome (result unit * LiquidCache) :=
  row_count ← row_group_rows (pc_row_group_idx context);
  match pc_cache_column_ids context, pc_missing_batches context with
  | [], _ | _, [] => Ret (Ok tt, s)
  | _, missing_batches =>
      let backfill_selection := build_selection_for_batches missing_batches cache_batch_size row_count in
      if negb (rs_selects_any backfill_selection) then Ret (Ok tt, s)
      else
        match parquet_stream (pc_cache_projection context) (pc_row_group_idx context)
                backfill_selection cache_batch_size with
        | Err => Ret (Err, s)
        | Ok items =>
            column_ids ← get_root_column_ids (md_schema metadata) (pc_cache_projection context);
            '(processed, s) ←
              fill_batches fuel column_ids missing_batches row_count (pc_cached_row_group context) items 0 s;
            match processed with
            | Err => Ret (Err, s)
            | Ok processed_batches =>
                if (processed_batches =? List.length missing_batches)%nat then Ret (Ok tt, s)
                else Ret (Err, s)
            end
        end
  end.

(** ** The reader of a cached row group *)

(** [LiquidCacheReader]; [None] is [ReaderState::Finished]. *)
Record LiquidCacheReader : Type := CacheReader {
  lr_state : option LiquidCacheReaderInner;
  lr_row_filter : option (list FilterPredicate)
}.

Definition cache_reader_new (batch_size : Z) (selection : RowSelection)
    (row_filter : option (list FilterPredicate)) (g : CachedRowGroup) (projection_columns : list Z)
    : LiquidCacheReader :=
  CacheReader (Some (reader_new batch_size (rs_selectors selection) g projection_columns)) row_filter.

Definition into_filter (r : LiquidCacheReader) : option (list FilterPredicate) := lr_row_filter r.

(** [poll_next] of the reader: batches of which no row is kept are passed over. *)
Fixpoint reader_poll (rounds fuel : nat) (r : LiquidCacheReader) (s : LiquidCache)
    : outcome (option (result RecordBatch) * LiquidCacheReader * LiquidCache) :=
  match rounds with
  | 0 => NoFuel
  | S rounds =>
      match lr_state r with
      | None => Ret (None, r, s)
      | Some inner =>
          match take_next_batch (selection inner) (batch_size inner) with
          | (None, _) => Ret (None, CacheReader None (lr_row_filter r), s)
          | (Some selection, rest) =>
              '(inner, result, s) ←
                next_batch squeeze_policy hydration_policy bmi2 fuel (set_selection rest inner)
                  (fmap (M := list) liquid_predicate <$> lr_row_filter r) selection s;
              let r := CacheReader (Some inner) (lr_row_filter r) in
              match result with
              | Emit item => Ret (Some item, r, s)
              | Skip => reader_poll rounds fuel r s
              end
          end
      end
  end.

(** ** The stream *)

(** [FillCache] holds what its future was made of. *)
Inductive StreamState : Type :=
| Init
| FillCache (reader_factory : ReaderFactory) (context : PlanningContext)
| ReadFromCache (batch_reader : LiquidCacheReader).

Record LiquidStream : Type := Stream {
  ls_schema : list ParquetField;
  ls_row_groups : list Z;
  ls_projection : ProjectionMask;
  ls_batch_size : Z;
  ls_selection : option RowSelection;
  ls_reader : option ReaderFactory;
  ls_state : StreamState
}.

Definition set_state (state : StreamState) (st : LiquidStream) : LiquidStream :=
  Stream (ls_schema st) (ls_row_groups st) (ls_projection st) (ls_batch_size st) (ls_selection st)
    (ls_reader st) state.

Definition set_reader (reader : option ReaderFactory) (st : LiquidStream) : LiquidStream :=
  Stream (ls_schema st) (ls_row_groups st) (ls_projection st) (ls_batch_size st) (ls_selection st)
    reader (ls_state st).

Definition set_rest (row_groups : list Z) (selection : option RowSelection) (st : LiquidStream) : LiquidStream :=
  Stream (ls_schema st) row_groups (ls_projection st) (ls_batch_size st) selection (ls_reader st)
    (ls_state st).

(** The row filter moves from the factory to the reader of the row group. *)
Definition read_from_cache_state (r : ReaderFactory) (context : PlanningContext) (st : LiquidStream)
    : LiquidStream :=
  set_state
    (ReadFromCache (cache_reader_new (pc_batch_size context) (pc_selection context) (rf_filter r)
       (pc_cached_row_group context) (pc_projection_column_ids context)))
    (set_reader (Some (set_filter None r)) st).

(** What one turn of the loop of [poll_next] ends with. *)
Inductive Turn : Type :=
| Ready (item : option RecordBatch)
| Again.

(** [StreamState::Init]: the next row group is planned. *)
Definition start_row_group (st : LiquidStream) (s : LiquidCache) : outcome (Turn * LiquidStream * LiquidCache) :=
  match ls_row_groups st with
  | [] => Ret (Ready None, st, s)
  | row_group_idx :: row_groups =>
      row_count ← row_group_rows row_group_idx;
      let split := rs_split_off row_count <$> ls_selection st in
      let st := set_rest row_groups (snd <$> split) st in
      reader ← expect (ls_reader st);
      '(maybe_context, reader, s) ←
        plan_row_group reader row_group_idx (fst <$> split) (ls_projection st) (ls_batch_size st) s;
      let st := set_reader (Some reader) st in
      match maybe_context with
      | None => Ret (Again, st, s)
      | Some context =>
          match pc_missing_batches context, pc_cache_column_ids context with
          | _ :: _, _ :: _ => Ret (Again, set_state (FillCache reader context) (set_reader None st), s)
          | _, _ => Ret (Again, read_from_cache_state reader context st, s)
          end
      end
  end.

(** A turn of the loop: the state is taken, [Init] left in its place; an error of
    the decoder or of the reader panics. *)
Definition poll_turn (rounds fuel : nat) (st : LiquidStream) (s : LiquidCache)
    : outcome (Turn * LiquidStream * LiquidCache) :=
  let state := ls_state st in
  let st := set_state Init st in
  match state with
  | Init => start_row_group st s
  | FillCache reader_factory context =>
      '(result, s) ← fill_cache_from_parquet fuel context s;
      match result with
      | Err => Panic
      | Ok _ => Ret (Again, read_from_cache_state reader_factory context st, s)
      end
  | ReadFromCache batch_reader =>
      '(item, batch_reader, s) ← reader_poll rounds fuel batch_reader s;
      match item with
      | Some (Ok batch) => Ret (Ready (Some batch), set_state (ReadFromCache batch_reader) st, s)
      | Some Err => Panic
      | None =>
          reader ← expect (ls_reader st);
          Ret (Again, set_reader (Some (set_filter (into_filter batch_reader) reader)) st, s)
      end
  end.

(** The loop of [poll_next]. *)
Fixpoint poll_next (turns rounds fuel : nat) (st : LiquidStream) (s : LiquidCache)
    : outcome (option RecordBatch * LiquidStream * LiquidCache) :=
  match turns with
  | 0 => NoFuel
  | S turns =>
      '(turn, st, s) ← poll_turn rounds fuel st s;
      match turn with
      | Ready item => Ret (item, st, s)
      | Again => poll_next turns rounds fuel st s
      end
  end.

(** A consumer that polls until the stream ends ([collect]). *)
Fixpoint collect_stream (polls turns rounds fuel : nat) (st : LiquidStream) (s : LiquidCache)
    : outcome (list RecordBatch * LiquidCache) :=
  match polls with
  | 0 => NoFuel
  | S polls =>
      '(item, st, s) ← poll_next turns rounds fuel st s;
      match item with
      | None => Ret ([], s)
      | Some batch =>
          '(batches, s) ← collect_stream polls turns rounds fuel st s;
          Ret (batch :: batches, s)
      end
  end.

(** ** Building a stream *)

Record LiquidStreamBuilder : Type := Builder {
  sb_batch_size : Z;
  sb_row_groups : option (list Z);
  sb_projection : ProjectionMask;
  sb_filter : option (list FilterPredicate);
  sb_selection : option RowSelection;
  sb_limit : option Z;
  sb_offset : option Z
}.

(** [Err]: a row group is out of bounds. *)
Definition stream_build (b : LiquidStreamBuilder) (liquid_cache : CachedFile)
    : outcome (result LiquidStream) :=
  let num_row_groups := Z.of_nat (List.length (md_row_groups metadata)) in
  match
    match sb_row_groups b with
    | Some row_groups =>
        match List.find (λ x, (x >=? num_row_groups)%Z) row_groups with
        | Some _ => None
        | None => Some row_groups
        end
    | None => Some (seqZ 0 num_row_groups)
    end
  with
  | None => Ret Err
  | Some row_groups =>
      let batch_size := Z.min (sb_batch_size b) (usize (md_num_rows metadata)) in
      projection_column_ids ← get_root_column_ids (md_schema metadata) (sb_projection b);
      let schema := build_projection_schema (cf_file_schema liquid_cache) projection_column_ids in
      let reader := Factory (sb_filter b) (sb_limit b) (sb_offset b) liquid_cache in
      Ret (Ok (Stream schema row_groups (sb_projection b) batch_size (sb_selection b) (Some reader) Init))
  end.
End stream.
