(* ===== verification/StreamRows.v ===== *)
(** * The rows of the stream's batches

    The arithmetic of [Stream.v], on rows: the batches a selection touches, the
    selection that reads a list of batches back, and the pieces the decoder cuts
    it into. *)

From stdpp Require Import base list gmap strings sorting.
From Stdlib Require Import ZArith String Sorted Lia.
From S2P Require Import Prelude CachePolicy LiquidPolicy CivilDate DataTypes Expressions Budget BooleanBuffers AndThen.
From S2P Require Import Formats SampleFormats Observer CacheEntry Transcode Squeeze Hydration Core.
From S2P Require Import Builders CoreInv CoreOps CoreReads ParquetIds RowSelection ColumnCache Reader.
From S2P Require Import ReaderSpec RowFilter Stream.

(** The conversions and the reads of a selection agree with its rows. *)
Class RowSelectionReadLaws {RS : RowSelections} {RR : RowSelectionReads} : Prop := {
  read_row_count s : rs_row_count s = Z.of_nat (count_set (rows (rs_selectors s)));
  read_selects_any s : rs_selects_any s = bool_decide (count_set (rows (rs_selectors s)) ≠ 0);
  read_split_off n s :
    (0 <= n)%Z →
    rows (rs_selectors (rs_split_off n s).1) = take (Z.to_nat n) (rows (rs_selectors s))
    ∧ rows (rs_selectors (rs_split_off n s).2) = drop (Z.to_nat n) (rows (rs_selectors s))
}.

Definition batch (k : nat) : BatchID := Batch (Z.of_nat k).

#[export] Instance batch_inj : Inj (=) (=) batch.
Proof. intros j k [= E]. lia. Qed.

Lemma selected_count l : selected l = count_set l.
Proof.
  induction l as [|b l IH]; [done|]. change (b :: l) with ([b] ++ l).
  rewrite selected_app, IH. cbn [app]. rewrite count_set_cons. by destruct b.
Qed.

(** ** Batches in order *)

(** [k] is the batch of a selected row. *)
Definition touches (n : nat) (l : list bool) (k : nat) : Prop := ∃ i, l !! i = Some true ∧ i / n = k.

(** The batches of a list of rows, in order and once each. *)
Record batches_of (n : nat) (l : list bool) (ks : list nat) : Prop := {
  bo_sorted : StronglySorted lt ks;
  bo_elem k : k ∈ ks ↔ touches n l k
}.

Lemma sorted_snoc ks k : StronglySorted lt ks → Forall (λ j, j < k) ks → StronglySorted lt (ks ++ [k]).
Proof.
  intros S F. induction S as [|j ks S IH Fj]; cbn; [repeat constructor|].
  apply Forall_cons in F as [Hj F]. constructor; [by apply IH|]. apply Forall_app. split; [done|]. by constructor.
Qed.

Lemma sorted_last ks k : StronglySorted lt (ks ++ [k]) → Forall (λ j, j < k) ks.
Proof.
  induction ks as [|j ks IH]; cbn; [constructor|]. intros [S F]%StronglySorted_inv. constructor; [|by apply IH].
  apply Forall_app in F as [_ F]. exact (Forall_inv F).
Qed.

Lemma push_batch_ok ks k :
  StronglySorted lt ks → Forall (λ j, j <= k) ks →
  ∃ ks', push_batch (batch k) (batch <$> ks) = batch <$> ks' ∧ StronglySorted lt ks'
    ∧ (∀ j, j ∈ ks' ↔ j ∈ ks ∨ j = k) ∧ Forall (λ j, j <= k) ks'.
Proof.
  intros S F. unfold push_batch. destruct ks as [|j ks _] using rev_ind.
  { exists [k]. split_and!; [done|repeat constructor| |repeat constructor; lia].
    intros j. rewrite list_elem_of_singleton. set_solver. }
  rewrite fmap_app. cbn [fmap list_fmap]. rewrite last_snoc.
  apply Forall_app in F as [F Fj]. apply Forall_inv in Fj.
  destruct (decide (batch j = batch k)) as [->%(inj batch)|Hne].
  - exists (ks ++ [k]). rewrite fmap_app. split_and!; [done|done|set_solver|].
    apply Forall_app. split; [done|]. repeat constructor; lia.
  - assert (j < k) by (assert (j ≠ k) by congruence; lia).
    assert (Forall (λ j', j' < k) (ks ++ [j])) as F'.
    { apply Forall_app. split; [|by repeat constructor]. eapply Forall_impl; [by apply sorted_last|]. cbn. lia. }
    exists ((ks ++ [j]) ++ [k]). rewrite !fmap_app. split_and!; [done|by apply sorted_snoc|set_solver|].
    apply Forall_app. split; [|repeat constructor; lia]. eapply Forall_impl; [exact F'|]. cbn. lia.
Qed.

(** Pushing the batches [a], ..., [a + c - 1]. *)
Lemma push_range_ok a c ks :
  StronglySorted lt ks → Forall (λ j, j <= a) ks → (Z.of_nat (a + c) <= 2 ^ 16)%Z →
  ∃ ks', foldl (λ batches batch_idx, push_batch (from_raw (wrapu 16 batch_idx)) batches) (batch <$> ks)
           (seqZ (Z.of_nat a) (Z.of_nat c)) = batch <$> ks'
    ∧ StronglySorted lt ks' ∧ ∀ j, j ∈ ks' ↔ j ∈ ks ∨ a <= j < a + c.
Proof.
  revert a ks. induction c as [|c IH]; intros a ks S F Hc.
  { exists ks. split_and!; [done|done|]. intros j. split; [tauto|]. intros [?|?]; [done|lia]. }
  rewrite seqZ_cons by lia. cbn [foldl].
  rewrite wrapu_id by lia. change (from_raw (Z.of_nat a)) with (batch a).
  destruct (push_batch_ok ks a S F) as (ks1 & -> & S1 & E1 & F1).
  replace (Z.succ (Z.of_nat a)) with (Z.of_nat (a + 1)) by lia.
  replace (Z.pred (Z.of_nat (Datatypes.S c))) with (Z.of_nat c) by lia.
  destruct (IH (a + 1) ks1 S1) as (ks2 & -> & S2 & E2); [|lia|].
  { eapply Forall_impl; [exact F1|]. cbn. lia. }
  exists ks2. split_and!; [done|done|]. intros j. rewrite E2, E1. split.
  - intros [[?|?]|?]; [by left|right; lia|right; lia].
  - intros [?|?]; [tauto|]. destruct (decide (j = a)); [tauto|]. right. lia.
Qed.

(** ** The batches a selection touches *)

Lemma touches_app n l l' k :
  touches n (l ++ l') k ↔ touches n l k ∨ ∃ i, l' !! i = Some true ∧ (List.length l + i) / n = k.
Proof.
  unfold touches. split.
  - intros (i & Hi & <-). apply lookup_app_Some in Hi as [Hi|[Hl Hi]]; [left; eauto|].
    right. exists (i - List.length l). split; [done|]. f_equal. lia.
  - intros [(i & Hi & <-)|(i & Hi & <-)].
    + exists i. split; [by apply lookup_app_l_Some|done].
    + exists (List.length l + i). split; [|done]. rewrite lookup_app_r by lia. by replace (_ - _) with i by lia.
Qed.

Lemma touches_range n a c k :
  0 < n → 0 < c → (∃ i, replicate c true !! i = Some true ∧ (a + i) / n = k) ↔ a / n <= k <= (a + c - 1) / n.
Proof.
  intros Hn Hc. split.
  - intros (i & [_ Hi]%lookup_replicate & <-). split; apply Nat.Div0.div_le_mono; lia.
  - intros [H1 H2].
    assert (a / n * n <= a) by (rewrite Nat.mul_comm; apply Nat.Div0.mul_div_le).
    pose proof (Nat.div_mod_eq a n). pose proof (Nat.mod_upper_bound a n ltac:(lia)).
    pose proof (Nat.div_mod_eq (a + c - 1) n). pose proof (Nat.mod_upper_bound (a + c - 1) n ltac:(lia)).
    exists (max a (k * n) - a). split.
    + apply lookup_replicate. split; [done|]. nia.
    + replace (a + (max a (k * n) - a)) with (max a (k * n)) by lia.
      destruct (Nat.max_spec a (k * n)) as [[? ->]|[? ->]]; [by apply Nat.div_mul; lia|].
      apply Nat.le_antisymm; [done|]. apply Nat.div_le_lower_bound; lia.
Qed.

Lemma collect_selectors_ok bs row_count n rc selectors pre ks :
  n = Z.to_nat bs → rc = Z.to_nat row_count → (0 < bs)%Z → (0 <= row_count < 2 ^ 64)%Z →
  counted selectors → (Z.of_nat (List.length pre) + total selectors < 2 ^ 64)%Z →
  (Z.of_nat (rc / n + 1) <= 2 ^ 16)%Z →
  batches_of n (take rc pre) ks →
  ∃ ks', collect_selectors bs row_count (Z.of_nat (List.length pre)) selectors (batch <$> ks) = Ret (batch <$> ks')
    ∧ batches_of n (take rc (pre ++ rows selectors)) ks'.
Proof.
  intros En Erc Hbs Hrc C Ht H16. revert pre ks C Ht.
  induction selectors as [|[c sk] selectors IH]; intros pre ks C Ht B.
  { exists ks. split; [done|]. unfold rows. cbn. by rewrite app_nil_r. }
  apply counted_cons in C as (Hc & C & _). pose proof (total_nonneg _ (proj1 C)).
  cbn [collect_selectors RowSelection.row_count skip total] in *.
  rewrite rows_cons. unfold rows_of. cbn [RowSelection.row_count skip].
  set (run := replicate (Z.to_nat c) (negb sk)).
  assert (List.length run = Z.to_nat c) as Hrun by apply length_replicate.
  assert (Z.of_nat (List.length (pre ++ run)) = Z.of_nat (List.length pre) + c)%Z as Hlen
    by (rewrite length_app, Hrun; lia).
  machine. rewrite <- Hlen.
  rewrite (app_assoc pre run (rows selectors)).
  assert (∀ k, touches n (take rc (pre ++ run)) k ↔ touches n (take rc pre) k
            ∨ ∃ i, take (rc - List.length pre) run !! i = Some true ∧ (List.length (take rc pre) + i) / n = k) as Tch.
  { intros k. by rewrite take_app, touches_app. }
  destruct sk.
  - apply IH; [done|lia|]. split; [apply B|]. intros k. rewrite (bo_elem _ _ _ B), Tch.
    split; [tauto|]. intros [?|(i & Hi & _)]; [done|]. exfalso. unfold run in Hi.
    rewrite take_replicate in Hi. by apply lookup_replicate in Hi as [? _].
  - destruct (Z.of_nat (List.length pre) >=? Z.min (Z.of_nat (List.length (pre ++ run))) row_count)%Z eqn:G.
    + replace (Z.min _ (2 ^ 64 - 1))%Z with (Z.of_nat (List.length (pre ++ run))) by lia.
      apply IH; [done|lia|]. split; [apply B|]. intros k. rewrite (bo_elem _ _ _ B), Tch.
      split; [tauto|]. intros [?|(i & Hi & _)]; [done|]. exfalso. unfold run in Hi.
      rewrite take_replicate in Hi. apply lookup_replicate in Hi as [_ Hi]. lia.
    + rewrite (proj2 (Z.eqb_neq bs 0)) by lia.
      set (a := List.length pre). set (e := Z.to_nat (Z.min (Z.of_nat (List.length (pre ++ run))) row_count)).
      assert (a < e) by lia.
      assert (Z.of_nat a / bs = Z.of_nat (a / n))%Z as -> by (rewrite Nat2Z.inj_div; f_equal; lia).
      machine.
      assert ((Z.min (Z.of_nat (List.length (pre ++ run))) row_count - 1) / bs = Z.of_nat ((e - 1) / n))%Z as ->
        by (rewrite Nat2Z.inj_div; f_equal; lia).
      assert (a / n <= (e - 1) / n) by (apply Nat.Div0.div_le_mono; lia).
      assert ((e - 1) / n <= rc / n) by (apply Nat.Div0.div_le_mono; lia).
      replace (Z.of_nat ((e - 1) / n) - Z.of_nat (a / n) + 1)%Z
        with (Z.of_nat ((e - 1) / n - a / n + 1)) by lia.
      assert (take rc pre = pre) as Etk by (apply take_ge; lia).
      destruct (push_range_ok (a / n) ((e - 1) / n - a / n + 1) ks) as (ks' & -> & S' & E'); [apply B| |lia|].
      { apply Forall_forall. intros k Hk. apply (bo_elem _ _ _ B) in Hk as (i & Hi & <-).
        apply lookup_lt_Some in Hi. rewrite Etk in Hi. apply Nat.Div0.div_le_mono. lia. }
      apply IH; [done|lia|]. split; [done|]. intros k. rewrite E', (bo_elem _ _ _ B), Tch, Etk. fold a.
      unfold run. rewrite take_replicate. cbn [negb].
      replace ((rc - a) `min` Z.to_nat c) with (e - a) by lia.
      apply or_iff_compat_l. rewrite touches_range by lia. replace (a + (e - a) - 1) with (e - 1) by lia. lia.
Qed.

(** The stream looks at every batch with a selected row, in order. *)
Lemma collect_selection_batches_ok {RS : RowSelections} {RL : RowSelectionLaws} (s : RowSelection) bs row_count :
  (0 < bs)%Z → (0 <= row_count < 2 ^ 64)%Z → (row_count / bs + 1 <= 2 ^ 16)%Z →
  ∃ ks, collect_selection_batches s bs row_count = Ret (batch <$> ks)
    ∧ batches_of (Z.to_nat bs) (take (Z.to_nat row_count) (rows (rs_selectors s))) ks.
Proof.
  intros Hbs Hrc H16. unfold collect_selection_batches.
  destruct (collect_selectors_ok bs row_count _ _ (rs_selectors s) [] [] eq_refl eq_refl Hbs Hrc)
    as (ks & E & B).
  - apply rs_counted.
  - cbn. pose proof (proj2 (rs_counted s)). lia.
  - rewrite Nat2Z.inj_add, Nat2Z.inj_div, !Z2Nat.id by lia. done.
  - split; [constructor|]. intros k. rewrite take_nil. split; [intros ?%elem_of_nil; done|]. intros (i & ? & _). done.
  - exists ks. done.
Qed.

(** ** The selection of a list of batches *)

(** The rows of the batches [ks], of the batch [k]. *)
Definition rows_in (n : nat) (ks : list nat) (start len : nat) : list bool :=
  (λ j, bool_decide (j / n ∈ ks)) <$> seq start len.
Definition batch_rows (n k rc : nat) : list bool := (λ j, bool_decide (j / n = k)) <$> seq 0 rc.

Lemma seq_const {A} (f : nat → A) a c x :
  (∀ j, a <= j < a + c → f j = x) → f <$> seq a c = replicate c x.
Proof.
  revert a. induction c as [|c IH]; intros a H; [done|]. cbn. rewrite H by lia. f_equal. apply IH.
  intros j Hj. apply H. lia.
Qed.

Lemma rows_in_out n ks a c : (∀ j, a <= j < a + c → j / n ∉ ks) → rows_in n ks a c = replicate c false.
Proof. intros H. apply seq_const. intros j Hj. apply bool_decide_eq_false. by apply H. Qed.

Lemma rows_in_all n ks a c : (∀ j, a <= j < a + c → j / n ∈ ks) → rows_in n ks a c = replicate c true.
Proof. intros H. apply seq_const. intros j Hj. apply bool_decide_eq_true. by apply H. Qed.

Lemma rows_in_split n ks a b c : a <= b <= c → rows_in n ks a (c - a) = rows_in n ks a (b - a) ++ rows_in n ks b (c - b).
Proof.
  intros H. unfold rows_in. rewrite <- fmap_app. f_equal. replace (c - a) with ((b - a) + (c - b)) by lia.
  rewrite seq_app. by replace (a + (b - a)) with b by lia.
Qed.

Lemma div_window n k j : 0 < n → k * n <= j < (k + 1) * n → j / n = k.
Proof. intros Hn H. symmetry. apply Nat.div_unique with (j - k * n); lia. Qed.

Lemma total_app a b : total (a ++ b) = (total a + total b)%Z.
Proof. induction a as [|x a IH]; cbn; [done|]. rewrite IH. lia. Qed.

Lemma batch_selectors_ok bs row_count n rc cur ks :
  n = Z.to_nat bs → (0 < bs)%Z → row_count = Z.of_nat rc → StronglySorted lt ks →
  Forall (λ k, k * n < rc ∧ cur <= k * n) ks → cur <= rc → (Z.of_nat rc + bs < 2 ^ 64)%Z →
  let sel := batch_selectors bs row_count (Z.of_nat cur) (batch <$> ks) in
  Forall (λ s, 0 <= RowSelection.row_count s)%Z sel ∧ (total sel <= Z.of_nat (rc - cur))%Z
  ∧ resize (rc - cur) false (rows sel) = rows_in n ks cur (rc - cur).
Proof.
  intros En Hbs Erc S. revert cur. induction S as [|k ks S IH Fk]; intros cur F Hcur H64.
  { split_and!; [constructor|cbn; lia|]. rewrite rows_in_out; [|intros j _ ?%elem_of_nil; done].
    unfold rows. cbn. by rewrite resize_nil. }
  apply Forall_cons in F as [[Hk1 Hk2] F].
  cbn [fmap list_fmap batch_selectors v batch].
  assert (Z.of_nat k * bs = Z.of_nat (k * n))%Z as -> by lia.
  assert ((Z.of_nat k + 1) * bs = Z.of_nat (k * n + n))%Z as -> by lia.
  assert (0 < n) as Hn by lia.
  assert (∀ j, j < k * n → j / n < k) as Hlow by (intros j Hj; apply Nat.Div0.div_lt_upper_bound; lia).
  assert (∀ j, k * n <= j < k * n + n → j / n = k) as Hwin by (intros j Hj; apply div_window; lia).
  assert (∀ j, k * n + n <= j → k < j / n) as Hhigh.
  { intros j Hj. assert (k + 1 <= j / n); [apply Nat.div_le_lower_bound; lia|lia]. }
  assert (Forall (λ k', k' * n < rc ∧ k * n + n <= k' * n) ks) as F'.
  { rewrite Forall_forall in F, Fk |- *. intros k' Hk'. destruct (F k' Hk') as [? _]. split; [done|].
    apply Fk in Hk'. nia. }
  clear F. generalize dependent (k * n). intros q Hk1 Hk2 Hlow Hwin Hhigh F.
  assert (∃ e, e = (q + n) `min` rc) as [e He] by eauto.
  rewrite (usize_id (Z.of_nat q)), (usize_id (Z.of_nat (q + n))) by lia.
  assert ((Z.of_nat q >=? row_count)%Z = false) as -> by lia.
  assert (Z.min (Z.of_nat (q + n)) row_count = Z.of_nat e)%Z as -> by lia.
  rewrite (usize_id (Z.of_nat e - Z.of_nat q)) by lia. assert (cur <= e <= rc) by lia.
  destruct (IH e) as (F' & Ht & Er); [|lia|done|].
  { eapply Forall_impl; [exact F|]. cbn. lia. }
  set (rest := batch_selectors bs row_count (Z.of_nat e) (batch <$> ks)) in *.
  assert (∀ l, rows ((if (Z.of_nat q >? Z.of_nat cur)%Z
                      then [Selector (usize (Z.of_nat q - Z.of_nat cur)) true] else []) ++ l)
               = replicate (q - cur) false ++ rows l) as Hskip.
  { intros l. destruct (_ >? _)%Z eqn:G.
    - cbn [app]. rewrite rows_cons. unfold rows_of. cbn [RowSelection.row_count skip negb].
      rewrite usize_id by lia. do 2 f_equal. lia.
    - replace (q - cur) with 0 by lia. done. }
  split_and!.
  - apply Forall_app. split; [destruct (_ >? _)%Z eqn:G; repeat constructor; cbn; machine; lia|].
    constructor; [|done]. cbn. lia.
  - rewrite total_app. cbn [total RowSelection.row_count].
    destruct (_ >? _)%Z eqn:G; cbn [total RowSelection.row_count]; rewrite ?usize_id by lia; lia.
  - rewrite Hskip, rows_cons. unfold rows_of. cbn [RowSelection.row_count skip negb].
    rewrite resize_app_ge, length_replicate by (rewrite length_replicate; lia).
    rewrite resize_app_ge, length_replicate by (rewrite length_replicate; lia).
    rewrite (rows_in_split n _ cur q), (rows_in_split n _ q e) by lia.
    rewrite (rows_in_out n (k :: ks) cur).
    2: { intros j Hj [E|Hin]%elem_of_cons; [specialize (Hlow j); lia|]. rewrite Forall_forall in Fk.
         specialize (Fk _ Hin). specialize (Hlow j). lia. }
    rewrite (rows_in_all n (k :: ks) q) by (intros j Hj; rewrite Hwin by lia; by left).
    f_equal. f_equal; [f_equal; lia|].
    replace (rc - cur - (q - cur) - Z.to_nat (Z.of_nat e - Z.of_nat q)) with (rc - e) by lia.
    rewrite Er. unfold rows_in. apply list_fmap_ext. intros i j Hij%lookup_seq. apply bool_decide_ext.
    rewrite elem_of_cons. split; [by right|]. intros [E|?]; [|done]. exfalso.
    specialize (Hhigh j). lia.
Qed.

Lemma build_selection_ok {RS : RowSelections} {RL : RowSelectionLaws} bs n rc ks :
  n = Z.to_nat bs → (0 < bs)%Z → StronglySorted lt ks → Forall (λ k, k * n < rc) ks →
  (Z.of_nat rc + bs < 2 ^ 64)%Z →
  resize rc false (rows (rs_selectors (build_selection_for_batches (batch <$> ks) bs (Z.of_nat rc))))
  = rows_in n ks 0 rc.
Proof.
  intros En Hbs S F H64.
  destruct (batch_selectors_ok bs (Z.of_nat rc) n rc 0 ks) as (Fc & Ht & Er); try done; [|lia|].
  { eapply Forall_impl; [exact F|]. cbn. lia. }
  rewrite Nat.sub_0_r in Er. cbn [Z.of_nat] in *.
  unfold build_selection_for_batches. destruct ks as [|k ks]; cbn [fmap list_fmap] in *.
  - rewrite rs_from_rows; [done|]. split; [constructor|done].
  - rewrite rs_from_rows; [done|]. split; [exact Fc|]. eapply Z.le_lt_trans; [exact Ht|]. lia.
Qed.

(** ** What the decoder gives back *)

(** The rows of the [i]-th record batch of [n] rows: those whose rank among the
    selected rows is [i * n], ..., [i * n + n - 1]. *)
Definition chunk (n i : nat) (l : list bool) : list bool :=
  imap (λ j (b : bool), b && bool_decide (count_set (take j l) / n = i)) l.

(** How many batches come before the [q]-th one. *)
Definition below (ks : list nat) (q : nat) : nat := List.length (filter (λ k, k < q) ks).

Lemma below_S ks q : NoDup ks → below ks (S q) = below ks q + (if decide (q ∈ ks) then 1 else 0).
Proof.
  unfold below. induction 1 as [|k ks Hk N IH]; [done|]. rewrite !filter_cons.
  destruct (decide (k = q)) as [->|Hne].
  - rewrite decide_True, decide_False, decide_True by (lia || by left). cbn. rewrite IH, decide_False by done. lia.
  - assert ((q ∈ k :: ks) ↔ q ∈ ks) as E by (rewrite elem_of_cons; split; [intros [?|?]; [congruence|done]|by right]).
    rewrite (decide_ext _ _ 1 0 E).
    destruct (decide (k < q)); [rewrite decide_True by lia|rewrite decide_False by lia]; cbn; rewrite IH; lia.
Qed.

Lemma below_le ks q : below ks q <= List.length ks.
Proof. apply length_filter. Qed.

Lemma below_index ks i k : StronglySorted lt ks → ks !! i = Some k → below ks k = i.
Proof.
  intros S. revert i. induction S as [|k' ks S IH F]; intros [|i] Hi; [done|done| |].
  - injection Hi as ->. unfold below. rewrite filter_cons_False by lia.
    rewrite Forall_forall in F. assert (filter (λ j, j < k) ks = []) as ->; [|done].
    destruct (filter (λ j, j < k) ks) as [|j l] eqn:E; [done|]. exfalso.
    assert (j ∈ filter (λ j, j < k) ks) as [? Hj]%list_elem_of_filter by (rewrite E; by left).
    specialize (F j Hj). lia.
  - cbn in Hi. specialize (IH i Hi). unfold below in *.
    rewrite filter_cons_True; [cbn; by rewrite IH|]. rewrite Forall_forall in F.
    apply F. by apply list_elem_of_lookup_2 in Hi.
Qed.

Lemma sorted_NoDup ks : StronglySorted lt ks → NoDup ks.
Proof.
  induction 1 as [|k ks S IH F]; constructor; [|done]. intros Hin. rewrite Forall_forall in F.
  specialize (F _ Hin). lia.
Qed.

Lemma count_take_le (l : list bool) j : count_set (take j l) <= count_set l.
Proof. rewrite <- (take_drop j l) at 2. rewrite count_set_app. lia. Qed.

Lemma rows_in_lookup n ks a c j : j < c → rows_in n ks a c !! j = Some (bool_decide ((a + j) / n ∈ ks)).
Proof. intros Hj. unfold rows_in. by rewrite list_lookup_fmap, lookup_seq_lt. Qed.

Lemma rows_in_length n ks a c : List.length (rows_in n ks a c) = c.
Proof. unfold rows_in. by rewrite length_fmap, length_seq. Qed.

(** The rank of a row: whole batches before its own, then the rows of its own. *)
Lemma rank_of_row n ks rc j :
  0 < n → NoDup ks → j <= rc →
  count_set (take j (rows_in n ks 0 rc))
  = n * below ks (j / n) + (if decide (j / n ∈ ks) then j mod n else 0).
Proof.
  intros Hn N. induction j as [|j IH]; intros Hj.
  { rewrite Nat.Div0.div_0_l, Nat.Div0.mod_0_l. cbn [take].
    assert (below ks 0 = 0) as ->.
    { unfold below. induction ks as [|k ks IHk]; [done|]. apply NoDup_cons in N as [_ N].
      rewrite filter_cons_False by lia. by apply IHk. }
    case_decide; rewrite Nat.mul_0_r; done. }
  rewrite (take_S_r _ _ _ (rows_in_lookup n ks 0 rc j ltac:(lia))), count_set_app, IH by lia.
  cbn [Nat.add]. rewrite count_set_cons. change (count_set []) with 0. rewrite Nat.add_0_r.
  pose proof (Nat.div_mod_eq j n) as Ej. pose proof (Nat.mod_upper_bound j n ltac:(lia)) as Hm.
  destruct (decide (S (j mod n) < n)) as [Hlt|Hge].
  - assert (S j / n = j / n) as -> by (symmetry; apply Nat.div_unique with (S (j mod n)); lia).
    assert (S j mod n = S (j mod n)) as -> by (symmetry; apply Nat.mod_unique with (j / n); lia).
    case_decide as D; [rewrite bool_decide_eq_true_2 by done|rewrite bool_decide_eq_false_2 by done]; lia.
  - assert (S j / n = S (j / n)) as -> by (symmetry; apply Nat.div_unique with 0; lia).
    assert (S j mod n = 0) as -> by (symmetry; apply Nat.mod_unique with (S (j / n)); lia).
    rewrite below_S by done. rewrite Nat.mul_add_distr_l.
    destruct (decide (j / n ∈ ks)) as [D|D];
      [rewrite bool_decide_eq_true_2 by done|rewrite bool_decide_eq_false_2 by done];
      case_decide; lia.
Qed.

Lemma count_below n ks rc :
  0 < n → NoDup ks → count_set (rows_in n ks 0 rc) <= n * List.length ks.
Proof.
  intros Hn N. rewrite <- (take_ge (rows_in n ks 0 rc) rc) by (by rewrite rows_in_length).
  rewrite rank_of_row by done. pose proof (below_le ks (S (rc / n))) as H. rewrite below_S in H by done.
  pose proof (Nat.mod_upper_bound rc n ltac:(lia)). case_decide; nia.
Qed.

(** The [i]-th record batch of the rows of [ks] is the [i]-th of them. *)
Lemma chunk_rows_in n ks rc i :
  0 < n → StronglySorted lt ks → Forall (λ k, k * n < rc) ks →
  (i * n < count_set (rows_in n ks 0 rc) ↔ i < List.length ks)
  ∧ ∀ k, ks !! i = Some k → chunk n i (rows_in n ks 0 rc) = batch_rows n k rc.
Proof.
  intros Hn S F. pose proof (sorted_NoDup ks S) as N. split.
  - split.
    + intros H. pose proof (count_below n ks rc Hn N). nia.
    + intros [k Hk]%lookup_lt_is_Some. pose proof (list_elem_of_lookup_2 _ _ _ Hk) as Hin.
      rewrite Forall_forall in F. specialize (F k Hin).
      pose proof (count_take_le (rows_in n ks 0 rc) (Datatypes.S (k * n))) as H.
      rewrite (take_S_r _ _ _ (rows_in_lookup n ks 0 rc (k * n) F)), count_set_app in H.
      rewrite rank_of_row in H by (done || lia). cbn [Nat.add] in H.
      rewrite Nat.div_mul, bool_decide_eq_true_2, (below_index ks i k S Hk) in H by (done || lia).
      rewrite count_set_cons in H. lia.
  - intros k Hk. apply list_eq. intros j. unfold chunk, batch_rows. rewrite list_lookup_imap, list_lookup_fmap.
    destruct (decide (j < rc)) as [Hj|Hj].
    2: { rewrite (lookup_ge_None_2 (rows_in n ks 0 rc)) by (rewrite rows_in_length; lia).
         by rewrite (lookup_ge_None_2 (seq 0 rc)) by (rewrite length_seq; lia). }
    rewrite rows_in_lookup, lookup_seq_lt by done. cbn [fmap option_fmap option_map Nat.add]. f_equal.
    rewrite rank_of_row by (done || lia).
    destruct (decide (j / n ∈ ks)) as [D|D].
    + rewrite bool_decide_eq_true_2 by done. cbn [andb]. apply bool_decide_ext.
      rewrite (Nat.mul_comm n), Nat.div_add_l by lia.
      rewrite (Nat.div_small (j mod n)), Nat.add_0_r by (apply Nat.mod_upper_bound; lia).
      apply list_elem_of_lookup in D as [i' D]. rewrite (below_index ks i' _ S D). split.
      * intros ->. congruence.
      * intros E. eapply NoDup_lookup; [exact N|exact D|]. by rewrite E.
    + rewrite bool_decide_eq_false_2 by done. cbn [andb]. symmetry. apply bool_decide_eq_false.
      intros E. apply D. rewrite E. by apply list_elem_of_lookup_2 in Hk.
Qed.

Lemma count_batch_rows n k rc : 0 < n → count_set (batch_rows n k rc) = min n (rc - k * n).
Proof.
  intros Hn. assert (batch_rows n k rc = rows_in n [k] 0 rc) as ->.
  { apply list_fmap_ext. intros i j _. apply bool_decide_ext. by rewrite list_elem_of_singleton. }
  assert (∀ c b, count_set (replicate c b) = if b then c else 0) as Hr.
  { intros c b. rewrite <- selected_count. apply selected_replicate. }
  set (a := min (k * n) rc). set (e := min (k * n + n) rc). rewrite <- (Nat.sub_0_r rc).
  rewrite (rows_in_split n _ 0 a rc), (rows_in_split n _ a e rc) by lia.
  rewrite (rows_in_out n [k] 0), (rows_in_all n [k] a), (rows_in_out n [k] e).
  - rewrite !count_set_app, !Hr. lia.
  - intros j Hj Hin%list_elem_of_singleton. assert (k + 1 <= j / n); [apply Nat.div_le_lower_bound; nia|lia].
  - intros j Hj. apply list_elem_of_singleton. apply div_window; lia.
  - intros j Hj Hin%list_elem_of_singleton. assert (j / n < k); [apply Nat.Div0.div_lt_upper_bound; nia|lia].
Qed.

(** ** Offsets and limits *)

(** The rows planned for a row group. *)
Definition off_rows (offset : option Z) (l : list bool) : list bool :=
  match offset with
  | Some n => if decide (n ≠ 0%Z ∧ selected l <= Z.to_nat n) then [] else deselect (Z.to_nat n) l
  | None => l
  end.
Definition lim_rows (limit : option Z) (l : list bool) : list bool :=
  match limit with Some n => keep_selected (Z.to_nat n) l | None => l end.
Definition planned_rows (offset limit : option Z) (l : list bool) : list bool :=
  lim_rows limit (off_rows offset l).

(** OFFSET and LIMIT on the rows of the whole file. *)
Fixpoint window (offset : nat) (limit : option nat) (l : list bool) : list bool :=
  match l with
  | [] => []
  | false :: l => false :: window offset limit l
  | true :: l =>
      match offset, limit with
      | S offset, _ => false :: window offset limit l
      | O, Some O => false :: window O limit l
      | O, Some (S limit) => true :: window O (Some limit) l
      | O, None => true :: window O None l
      end
  end.

Definition offset_left (offset : option Z) (l : list bool) : option Z :=
  (λ n, Z.max 0 (n - Z.of_nat (count_set l)))%Z <$> offset.
Definition limit_left (offset limit : option Z) (l : list bool) : option Z :=
  (λ n, n - Z.of_nat (count_set (planned_rows offset limit l)))%Z <$> limit.

Lemma window_length offset limit l : List.length (window offset limit l) = List.length l.
Proof.
  revert offset limit. induction l as [|[] l IH]; intros offset limit; cbn; [done| |by rewrite IH].
  destruct offset as [|offset]; [destruct limit as [[|limit]|]|]; cbn; by rewrite IH.
Qed.

Lemma window_app offset limit a b :
  window offset limit (a ++ b)
  = window offset limit a
      ++ window (offset - count_set a) ((λ n, n - count_set (window offset limit a)) <$> limit) b.
Proof.
  revert offset limit. induction a as [|[] a IH]; intros offset limit; cbn [app window].
  - change (count_set []) with 0. rewrite Nat.sub_0_r. destruct limit; cbn; by rewrite ?Nat.sub_0_r.
  - rewrite count_set_cons. destruct offset as [|offset]; [destruct limit as [[|limit]|]|].
    + cbn [app]. rewrite IH, count_set_cons. done.
    + cbn [app]. rewrite IH, count_set_cons. done.
    + cbn [app]. by rewrite IH.
    + cbn [app]. rewrite IH, count_set_cons. done.
  - cbn [app]. rewrite IH, !count_set_cons. done.
Qed.

Lemma window_none l : window 0 None l = l.
Proof. induction l as [|[] l IH]; cbn; by rewrite ?IH. Qed.

Lemma window_empty offset limit l : count_set l <= offset → window offset limit l = replicate (List.length l) false.
Proof.
  revert offset. induction l as [|[] l IH]; intros offset Hl; [done| |].
  - rewrite count_set_cons in Hl. destruct offset as [|offset]; [lia|]. cbn. by rewrite IH by lia.
  - rewrite count_set_cons in Hl. cbn. by rewrite IH by lia.
Qed.

Lemma window_zero l : window 0 (Some 0) l = replicate (List.length l) false.
Proof. induction l as [|[] l IH]; cbn; by rewrite ?IH. Qed.

(** What is planned for a row group is what the window keeps of it. *)
Lemma planned_window offset limit l :
  resize (List.length l) false (planned_rows offset limit l)
  = window (Z.to_nat (default 0%Z offset)) (Z.to_nat <$> limit) l.
Proof.
  assert (∀ n l, resize (List.length l) false (lim_rows limit (deselect n l)) = window n (Z.to_nat <$> limit) l) as H.
  { clear. intros n l. unfold lim_rows. destruct limit as [lim|]; cbn [fmap option_fmap option_map].
    - generalize (Z.to_nat lim). clear lim. intros lim. revert n lim.
      induction l as [|[] l IH]; intros n lim; cbn [window List.length]; [by destruct n, lim| |].
      + destruct n as [|n]; cbn [deselect].
        * destruct lim as [|lim]; cbn [keep_selected].
          -- rewrite window_zero, resize_nil. done.
          -- cbn. f_equal. specialize (IH 0 lim). by rewrite deselect_0 in IH.
        * destruct lim as [|lim]; cbn [keep_selected].
          -- rewrite resize_nil. cbn. f_equal. specialize (IH n 0).
             assert (keep_selected 0 (deselect n l) = []) as E by (by destruct (deselect n l)).
             rewrite E, resize_nil in IH. done.
          -- cbn. f_equal. apply IH.
      + destruct n as [|n]; cbn [deselect].
        * destruct lim as [|lim]; cbn [keep_selected].
          -- rewrite window_zero, resize_nil. done.
          -- cbn. f_equal. specialize (IH 0 (S lim)). by rewrite deselect_0 in IH.
        * destruct lim as [|lim]; cbn [keep_selected].
          -- rewrite resize_nil. cbn. f_equal. specialize (IH (S n) 0).
             assert (keep_selected 0 (deselect (S n) l) = []) as E by (by destruct (deselect (S n) l)).
             rewrite E, resize_nil in IH. done.
          -- cbn. f_equal. apply IH.
    - revert n. induction l as [|[] l IH]; intros [|n]; cbn; try done; try by rewrite IH.
      + f_equal. specialize (IH 0). by rewrite deselect_0 in IH.
      + f_equal. specialize (IH 0). by rewrite deselect_0 in IH. }
  unfold planned_rows, off_rows. destruct offset as [n|]; cbn [default].
  - destruct (decide _) as [[Hn Hs]|_]; [|apply H]. rewrite selected_count in Hs.
    rewrite window_empty by done. unfold lim_rows.
    destruct limit as [lim|]; [|by rewrite resize_nil].
    assert (keep_selected (Z.to_nat lim) [] = []) as -> by (by destruct (Z.to_nat lim)). by rewrite resize_nil.
  - specialize (H 0 l). by rewrite deselect_0 in H.
Qed.

Lemma count_resize l c : List.length l <= c → count_set (resize c false l) = count_set l.
Proof.
  intros Hl. rewrite resize_ge by done. rewrite count_set_app.
  rewrite <- (selected_count (replicate _ _)), selected_replicate. lia.
Qed.

Lemma planned_length offset limit l : List.length (planned_rows offset limit l) <= List.length l.
Proof.
  assert (∀ n l, List.length (keep_selected n l) <= List.length l) as Hk.
  { clear. intros n l. revert n. induction l as [|[] l IH]; intros [|n]; cbn; try lia.
    - specialize (IH n). lia.
    - specialize (IH (S n)). lia. }
  assert (∀ n l, List.length (deselect n l) = List.length l) as Hd.
  { clear. intros n l. revert n. induction l as [|[] l IH]; intros [|n]; cbn; try done; by rewrite IH. }
  unfold planned_rows. transitivity (List.length (off_rows offset l)).
  - unfold lim_rows. destruct limit; [apply Hk|done].
  - unfold off_rows. destruct offset; [|done]. destruct (decide _); [cbn; lia|]. by rewrite Hd.
Qed.

(** The windows of the row groups, one after the other, are the window of the
    file. *)
Fixpoint planned_groups (offset limit : option Z) (ls : list (list bool)) : list (list bool) :=
  match ls with
  | [] => []
  | l :: ls =>
      resize (List.length l) false (planned_rows offset limit l)
        :: planned_groups (offset_left offset l) (limit_left offset limit l) ls
  end.

Lemma planned_groups_window offset limit ls :
  mjoin (planned_groups offset limit ls)
  = window (Z.to_nat (default 0%Z offset)) (Z.to_nat <$> limit) (mjoin ls).
Proof.
  revert offset limit. induction ls as [|l ls IH]; intros offset limit; [done|].
  cbn [planned_groups]. change (mjoin (?x :: ?y)) with (x ++ mjoin y).
  change (mjoin (l :: ls)) with (l ++ mjoin ls). rewrite IH, window_app, planned_window. f_equal.
  f_equal.
  - unfold offset_left. destruct offset as [o|]; [|done].
    change (Z.to_nat (Z.max 0 (o - Z.of_nat (count_set l))) = Z.to_nat o - count_set l). lia.
  - unfold limit_left. destruct limit as [lim|]; [|done]. cbn [fmap option_fmap option_map]. f_equal.
    rewrite <- (count_resize (planned_rows _ _ l) (List.length l)) by apply planned_length.
    rewrite planned_window. cbn [fmap option_fmap option_map]. lia.
Qed.

Lemma window_count offset limit l : count_set (window offset limit l) <= count_set l - offset.
Proof.
  revert offset limit. induction l as [|[] l IH]; intros offset limit; cbn [window]; [done| |].
  - destruct offset as [|offset]; [destruct limit as [[|limit]|]|]; rewrite !count_set_cons;
      [specialize (IH 0 (Some 0))|specialize (IH 0 (Some limit))|specialize (IH 0 None)
      |specialize (IH offset limit)]; lia.
  - rewrite !count_set_cons. specialize (IH offset limit). lia.
Qed.

Lemma window_limit offset limit l : count_set (window offset (Some limit) l) <= limit.
Proof.
  revert offset limit. induction l as [|[] l IH]; intros offset limit; cbn [window];
    [change (count_set []) with 0; lia| |].
  - destruct offset as [|offset]; [destruct limit as [|limit]|]; rewrite count_set_cons;
      [specialize (IH 0 0)|specialize (IH 0 limit)|specialize (IH offset limit)]; lia.
  - rewrite count_set_cons. specialize (IH offset limit). lia.
Qed.

(** How many rows are planned. *)
Lemma planned_count offset limit l :
  count_set (planned_rows offset limit l) <= count_set l - Z.to_nat (default 0%Z offset)
  ∧ ∀ n, limit = Some n → count_set (planned_rows offset limit l) <= Z.to_nat n.
Proof.
  rewrite <- (count_resize _ (List.length l)) by apply planned_length. rewrite planned_window. split.
  - apply window_count.
  - intros n ->. apply window_limit.
Qed.

Lemma touches_bound n l k : 0 < n → touches n l k → k * n < List.length l.
Proof.
  intros Hn (i & Hi & <-). apply lookup_lt_Some in Hi. pose proof (Nat.Div0.mul_div_le i n). lia.
Qed.

Lemma batches_in_bound n rc ks :
  0 < n → NoDup ks → Forall (λ k, k * n < rc) ks → List.length ks <= (rc + (n - 1)) / n.
Proof.
  intros Hn N F. rewrite <- (length_seq ((rc + (n - 1)) / n) 0).
  apply submseteq_length, NoDup_submseteq; [done|]. intros k Hk. rewrite Forall_forall in F. specialize (F k Hk).
  apply elem_of_seq. split; [lia|]. cbn.
  assert (k + 1 <= (rc + (n - 1)) / n); [|lia]. apply Nat.div_le_lower_bound; lia.
Qed.

(** A selected row of a piece is a row of a touched batch. *)
Lemma piece_touches n l j : 0 < n → count_set (piece n l j) ≠ 0 → touches n l j.
Proof.
  intros Hn H. assert (∃ i, piece n l j !! i = Some true) as (i & Hi).
  { clear Hn. revert H. generalize (piece n l j). intros p. induction p as [|b p IH]; [done|].
    rewrite count_set_cons. destruct b; [by exists 0|]. cbn. intros H. destruct (IH H) as (i & Hi). by exists (S i). }
  unfold piece in Hi. apply lookup_take_Some in Hi as [Hi Hlt]. rewrite lookup_drop in Hi.
  exists (j * n + i). split; [done|]. apply div_window; lia.
Qed.
