(* ===== verification/StreamSpec.v ===== *)
(** * What the stream of a file promises

    The contents of a parquet file are a parameter: the rows of each column of
    each row group.  The decoder gives them back ([file_ok]); the cache holds,
    for the cells it has, the batches of the file ([cells_ok]).  Filling the cache
    adds the cells a row group needs, and reading the stream to its end gives the
    rows that the selection, the offset, the limit and the predicates keep. *)

From stdpp Require Import base list gmap strings sorting.
From Stdlib Require Import ZArith String Sorted Lia.
From S2P Require Import Prelude CachePolicy LiquidPolicy CivilDate DataTypes Expressions Budget BooleanBuffers AndThen.
From S2P Require Import Formats SampleFormats Observer CacheEntry Transcode Squeeze Hydration Core.
From S2P Require Import Builders CoreInv CoreOps CoreReads ParquetIds RowSelection ColumnCache Reader.
From S2P Require Import ReaderSpec RowFilter Stream StreamRows.

(** ** Row groups of the cache *)

(** The entry of the [k]-th batch of a column. *)
Definition cell (file rg col : Z) (k : nat) : Z :=
  usize_of_id (entry_id (access_path_new file rg col) (batch k)).

Lemma cell_wf file rg col k :
  (Z.of_nat k < 2 ^ 16)%Z → id_wf (entry_id (access_path_new file rg col) (batch k)).
Proof. intros Hk. repeat split; cbn -[wrapu]; try apply wrapu_u16; lia. Qed.

Lemma cell_usize file rg col k : (Z.of_nat k < 2 ^ 16)%Z → is_usize (cell file rg col k).
Proof. intros Hk. apply parquet_id_range. by apply cell_wf. Qed.

Lemma cell_inj file rg col k rg' col' k' :
  is_u16 rg → is_u16 col → (Z.of_nat k < 2 ^ 16)%Z → is_u16 rg' → is_u16 col' → (Z.of_nat k' < 2 ^ 16)%Z →
  cell file rg col k = cell file rg' col' k' → rg = rg' ∧ col = col' ∧ k = k'.
Proof.
  unfold is_u16. intros Hr Hc Hk Hr' Hc' Hk' E. apply (f_equal id_of_usize) in E. unfold cell in E.
  rewrite !id_usize_id in E by (by apply cell_wf).
  unfold entry_id, id_new, access_path_new in E. cbn -[wrapu] in E. injection E as E1 E2 E3.
  rewrite !wrapu_id in E1, E2 by (rewrite ?wrapu_id by lia; lia).
  rewrite ?wrapu_id in E1, E2 by lia. split_and!; [done|done|lia].
Qed.

Section stream.
Context {AL : ArrowLib} {LF : LiquidFormats} {VL : VariantLib} {FL : FormatLaws}.
Context {RB : RecordBatches} {RL : RecordBatchLaws}.
Context {BB : BooleanBuffers} {BL : BooleanBufferLaws} {MB : MaskBuffers}.
Context {RS : RowSelections} {RSL : RowSelectionLaws} {RR : RowSelectionReads} {RRL : RowSelectionReadLaws}.
Context {PM : ProjectionMasks} {PML : ProjectionMaskLaws} {PD : ParquetDecoder}.
Context {P : Type} {CP : CachePolicy P} {PL : PolicyLaws P} {MO : MemoryOnlyPolicy P}.
Context (squeeze_policy : SqueezePolicy) (hydration_policy : HydrationPolicy) (bmi2 : bool).
Context {SL : SqueezeLaws squeeze_policy} {HL : HydrationLaws hydration_policy} {ML : MaskLaws bmi2}.

Local Abbreviation LiquidCache := (Core.LiquidCache P).

Definition group_column (file rg col : Z) (field : ParquetField) : CachedColumn :=
  Column field (access_path_new file rg col) (infer_expression field).

(** A field without variant paths. *)
Definition field_plain (field : ParquetField) : Prop :=
  hint_plain (infer_expression field) ∧ pf_variant_mappings field = None.

Lemma column_new_ok field path is_predicate (s : LiquidCache) m :
  cache_inv None s m → field_plain field →
  ∃ s', column_new field path is_predicate s = (Column field path (infer_expression field), s')
    ∧ cache_inv None s' m ∧ index s' = index s ∧ weight s' = weight s.
Proof.
  intros I [Hp _]. unfold column_new. eexists. split; [done|].
  unfold hint_plain in Hp. destruct (infer_expression field) as [expr|].
  - split_and!; [by apply hint_inv|done|done].
  - destruct is_predicate; (split_and!; [|done|done]); [by apply hint_inv|done].
Qed.

Lemma row_group_new_ok rg file columns g (s : LiquidCache) m :
  cache_inv None s m → NoDup (columns.*1.*1) → Forall (λ c, field_plain c.1.2) columns →
  ∃ g' s', row_group_new rg file columns g s = (g', s')
    ∧ cache_inv None s' m ∧ index s' = index s ∧ weight s' = weight s
    ∧ (∀ c, c ∈ columns → get_column c.1.1 g' = Some (group_column file rg c.1.1 c.1.2))
    ∧ (∀ col, col ∉ columns.*1.*1 → get_column col g' = get_column col g).
Proof.
  intros I N F. revert g s I. induction columns as [|[[col field] is_p] columns IH]; intros g s I.
  { exists g, s. split_and!; try done. intros c ?%elem_of_nil. done. }
  apply Forall_cons in F as [Hf F]. apply NoDup_cons in N as [Nin N]. cbn [row_group_new fst snd fmap list_fmap] in *.
  destruct (column_new_ok field (access_path_new file rg col) is_p s m I Hf) as (s1 & -> & I1 & Hi1 & Hw1).
  destruct (IH N F (RowGroup (<[col := Column field (access_path_new file rg col) (infer_expression field)]> (by_id g))
              (<[pf_name field := Column field (access_path_new file rg col) (infer_expression field)]> (by_name g)))
              s1 I1) as (g' & s' & -> & I' & Hi & Hw & Hin & Hout).
  exists g', s'. split_and!; [done|done|congruence|congruence| |].
  - intros c [->|Hc]%elem_of_cons; [|by apply Hin]. cbn [fst snd]. rewrite Hout by done.
    unfold get_column. cbn [by_id]. by rewrite lookup_insert_eq.
  - intros col' [Hne Hc]%not_elem_of_cons. rewrite Hout by done. unfold get_column. cbn [by_id].
    by rewrite lookup_insert_ne by congruence.
Qed.

Lemma create_row_group_ok file fields rg ids (s : LiquidCache) m :
  cache_inv None s m → Forall field_plain fields →
  ∃ g s', create_row_group file fields rg ids s = (g, s')
    ∧ cache_inv None s' m ∧ index s' = index s ∧ weight s' = weight s
    ∧ ∀ col field, (0 <= col)%Z → fields !! Z.to_nat col = Some field →
        get_column col g = Some (group_column file rg col field).
Proof.
  intros I F. unfold create_row_group.
  set (columns := imap _ fields).
  assert (∀ c, c ∈ columns ↔ ∃ i field, fields !! i = Some field
            ∧ c = (Z.of_nat i, field, bool_decide (Z.of_nat i ∈ ids))) as Hc.
  { intros c. unfold columns. rewrite list_elem_of_lookup. split.
    - intros (i & Hi). rewrite list_lookup_imap in Hi. destruct (fields !! i) as [f|] eqn:E; [|done].
      injection Hi as <-. eauto.
    - intros (i & f & E & ->). exists i. by rewrite list_lookup_imap, E. }
  assert (columns.*1.*1 = Z.of_nat <$> seq 0 (List.length fields)) as Eids.
  { unfold columns. rewrite !fmap_imap. apply list_eq. intros i. rewrite list_lookup_imap, list_lookup_fmap.
    destruct (fields !! i) as [f|] eqn:E.
    - rewrite lookup_seq_lt by (by eapply lookup_lt_Some). done.
    - rewrite (lookup_ge_None_2 (seq _ _)); [done|]. rewrite length_seq. by apply lookup_ge_None_1. }
  destruct (row_group_new_ok rg file columns (RowGroup ∅ ∅) s m I) as (g & s' & E & I' & Hi & Hw & Hin & _).
  - rewrite Eids. apply NoDup_fmap_2; [apply _|apply NoDup_seq].
  - apply Forall_forall. intros c (i & f & Ei & ->)%Hc. cbn. rewrite Forall_forall in F.
    by apply F, (list_elem_of_lookup_2 _ _ _ Ei).
  - exists g, s'. split_and!; [done|done|done|done|]. intros col field Hcol Ef.
    specialize (Hin (col, field, bool_decide (col ∈ ids))). apply Hin. apply Hc.
    exists (Z.to_nat col), field. by rewrite Z2Nat.id by done.
Qed.

Lemma group_cell file rg col field k :
  column_entry_id (group_column file rg col field) (batch k) = cell file rg col k.
Proof. done. Qed.

(** ** The file *)

Context (bs : Z) (metadata : ParquetMetaData) (file_id : Z) (fields : list ParquetField).
(** The rows of a column of a row group, and how deep its arrays are nested. *)
Context (contents : Z → Z → Val) (depth : nat).

Local Abbreviation n := (Z.to_nat bs).
Local Abbreviation schema := (md_schema metadata).

Definition group_rows (rg rc : Z) : Prop := (0 <= rg)%Z ∧ md_row_groups metadata !! Z.to_nat rg = Some rc.

(** An array of the decoder: the rows [m] of the column. *)
Definition decoded_array (rg : Z) (m : list bool) (col : Z) (a : ArrayRef) : Prop :=
  den a = vfilter (contents rg col) m ∧ dictionary_supported (arr_data_type a) = true ∧ arr_depth a < depth.

(** The file is readable: the decoder cuts the selected rows of a row group into
    record batches of [bs] rows. *)
Record file_ok : Prop := {
  fo_bs : (0 < bs)%Z;
  fo_groups : (Z.of_nat (List.length (md_row_groups metadata)) <= 2 ^ 16)%Z;
  fo_fields : (Z.of_nat (List.length fields) <= 2 ^ 16)%Z;
  fo_rows rg rc : group_rows rg rc → (0 <= rc)%Z ∧ (rc / bs + 1 < 2 ^ 16)%Z ∧ (rc + bs < 2 ^ 63)%Z;
  fo_total rg rc : group_rows rg rc → (rc <= md_num_rows metadata < 2 ^ 64)%Z;
  fo_schema : descriptor_ok schema ∧ root_fields schema = List.length fields;
  fo_plain : Forall field_plain fields;
  fo_contents rg rc col : group_rows rg rc → vlen (contents rg col) = Z.to_nat rc;
  fo_decode mask rg rc sel ids :
    group_rows rg rc → get_root_column_ids schema mask = Ret ids →
    let l := resize (Z.to_nat rc) false (rows (rs_selectors sel)) in
    ∃ items, parquet_stream mask rg sel bs = Ok (Ok <$> items)
      ∧ (∀ i, i < List.length items ↔ i * n < count_set l)
      ∧ ∀ i b, items !! i = Some b →
          (0 < rb_num_rows b)%Z ∧ Forall2 (decoded_array rg (chunk n i l)) ids (rb_columns b)
}.

Context (FO : file_ok).

(** The [k]-th batch of a column. *)
Definition group_size (rg : Z) : nat := Z.to_nat (default 0%Z (md_row_groups metadata !! Z.to_nat rg)).
Definition file_value (rg col : Z) (k : nat) : Val :=
  vfilter (contents rg col) (batch_rows n k (group_size rg)).

Definition in_file (rg col : Z) (k : nat) : Prop :=
  (0 <= rg < Z.of_nat (List.length (md_row_groups metadata)))%Z
  ∧ (0 <= col < Z.of_nat (List.length fields))%Z ∧ (Z.of_nat k < 2 ^ 16)%Z.

(** What the cache has of the file is what the file holds. *)
Definition cells_ok (m : gmap Z Val) : Prop :=
  ∀ rg col k v, in_file rg col k → m !! cell file_id rg col k = Some v → v = file_value rg col k.

Definition has_cell (m : gmap Z Val) (rg col : Z) (k : nat) : Prop := is_Some (m !! cell file_id rg col k).

(** From the state [s] to [s'], more cells are cached, at a cost. *)
Record grown (s : LiquidCache) (m : gmap Z Val) (s' : LiquidCache) (m' : gmap Z Val) (cost : Z) : Prop := {
  gr_inv : cache_inv None s' m';
  gr_cells : cells_ok m';
  gr_more : m ⊆ m';
  gr_weight : (weight s' <= weight s + cost)%Z
}.

Lemma grown_refl s m c : (0 <= c)%Z → cache_inv None s m → cells_ok m → grown s m s m c.
Proof. intros Hc I A. split; [done|done|done|lia]. Qed.

Lemma grown_trans s m s1 m1 s2 m2 a b :
  grown s m s1 m1 a → grown s1 m1 s2 m2 b → grown s m s2 m2 (a + b).
Proof. intros [I1 A1 S1 W1] [I2 A2 S2 W2]. split; [done|done|by transitivity m1|lia]. Qed.

Lemma has_cell_grown s m s' m' c rg col k : grown s m s' m' c → has_cell m rg col k → has_cell m' rg col k.
Proof. intros [_ _ S _] [v Hv]. exists v. by eapply lookup_weaken. Qed.

Lemma in_file_u16 rg col k : in_file rg col k → is_u16 rg ∧ is_u16 col.
Proof. intros (? & ? & _). pose proof (fo_groups FO). pose proof (fo_fields FO). unfold is_u16. lia. Qed.

Lemma cells_ok_insert m rg col k :
  in_file rg col k → cells_ok m → cells_ok (<[cell file_id rg col k := file_value rg col k]> m).
Proof.
  intros H A rg' col' k' v H' Hv. apply lookup_insert_Some in Hv as [[E <-]|[_ Hv]]; [|by apply A].
  destruct (in_file_u16 _ _ _ H) as [? ?], (in_file_u16 _ _ _ H') as [? ?].
  destruct H as (_ & _ & ?), H' as (_ & _ & ?). by apply cell_inj in E as (-> & -> & ->).
Qed.

Lemma group_rows_in rg rc : group_rows rg rc → group_size rg = Z.to_nat rc ∧ (0 <= rg < Z.of_nat (List.length (md_row_groups metadata)))%Z.
Proof.
  intros [H0 H]. unfold group_size. rewrite H. split; [done|].
  apply lookup_lt_Some in H. lia.
Qed.

(** The row group as the cache sees it. *)
Definition group_ok (rg : Z) (g : CachedRowGroup) : Prop :=
  ∀ col field, (0 <= col)%Z → fields !! Z.to_nat col = Some field →
    get_column col g = Some (group_column file_id rg col field).

Definition column_in (col : Z) : Prop := (0 <= col < Z.of_nat (List.length fields))%Z.

Lemma group_column_in rg g col :
  group_ok rg g → column_in col →
  ∃ field, fields !! Z.to_nat col = Some field ∧ field_plain field
    ∧ get_column col g = Some (group_column file_id rg col field).
Proof.
  intros G [H0 H1]. destruct (lookup_lt_is_Some_2 fields (Z.to_nat col)) as [field E]; [lia|].
  exists field. split_and!; [done| |by apply G].
  pose proof (fo_plain FO) as F. rewrite Forall_forall in F. apply F. by eapply list_elem_of_lookup_2.
Qed.

(** ** Filling the cache *)

Lemma is_cached_cell rg col field k (s : LiquidCache) m :
  cache_inv None s m →
  column_is_cached (group_column file_id rg col field) (batch k) s = true ↔ has_cell m rg col k.
Proof.
  intros I. unfold column_is_cached, is_cached, index_is_cached. rewrite group_cell, bool_decide_eq_true.
  apply (ci_dom _ _ _ I).
Qed.

Lemma insert_columns_ok fuel rg g k cols pre arrays (s : LiquidCache) m :
  cache_inv None s m → cells_ok m → group_ok rg g → depth <= fuel →
  Forall (λ col, in_file rg col k) cols →
  Forall2 (decoded_array rg (batch_rows n k (group_size rg))) cols arrays →
  (weight s + 7 * Z.of_nat (List.length cols) + 3 < Z.of_nat fuel)%Z →
  ∃ s' m', insert_columns squeeze_policy fuel cols (List.length pre) (pre ++ arrays) (batch k) g s = Ret s'
    ∧ grown s m s' m' (7 * Z.of_nat (List.length cols)) ∧ Forall (λ col, has_cell m' rg col k) cols.
Proof.
  intros I A G Hd F Fa Hf. revert pre s m I A Hf.
  induction Fa as [|col a cols arrays (Ea & Hsup & Hdep) Fa IH]; intros pre s m I A Hf.
  { exists s, m. split_and!; [done|by apply grown_refl|constructor]. }
  apply Forall_cons in F as [Hin F]. cbn [insert_columns List.length] in *.
  destruct (group_column_in rg g col G) as (field & Ef & [_ Hv] & Ec); [apply Hin|].
  rewrite Ec. cbn [expect]. run_step.
  rewrite lookup_app_r, Nat.sub_diag by done. cbn [lookup list_lookup expect]. run_step.
  assert (∃ r s1 m1, column_insert squeeze_policy fuel (group_column file_id rg col field) (batch k) a s = Ret (r, s1)
            ∧ grown s m s1 m1 7 ∧ has_cell m1 rg col k) as (r & s1 & m1 & -> & G1 & H1).
  { destruct (column_is_cached (group_column file_id rg col field) (batch k) s) eqn:Hc.
    - exists Err, s, m. unfold column_insert. rewrite Hc. split_and!; [done|by apply grown_refl; [lia|..]|].
      by eapply is_cached_cell.
    - destruct (column_insert_ok squeeze_policy fuel (group_column file_id rg col field) (batch k) a s m)
        as (s1 & -> & I1 & Hw); try done.
      + rewrite group_cell. apply cell_usize, Hin.
      + lia.
      + unfold enough. lia.
      + rewrite group_cell, Ea in I1. exists (Ok tt), s1, (<[cell file_id rg col k := file_value rg col k]> m).
        split_and!; [done| |by eexists; apply lookup_insert_eq]. split; [done|by apply cells_ok_insert| |lia].
        apply insert_subseteq. destruct (m !! cell file_id rg col k) eqn:Em; [|done]. exfalso.
        assert (has_cell m rg col k) as H by (by eexists).
        rewrite <- (is_cached_cell rg col field k s m) in H by done. congruence. }
  run_step. pose proof (gr_weight _ _ _ _ _ G1).
  destruct (IH F (pre ++ [a]) s1 m1 (gr_inv _ _ _ _ _ G1) (gr_cells _ _ _ _ _ G1)) as (s2 & m2 & E2 & G2 & H2); [lia|].
  rewrite length_app, <- app_assoc in E2. cbn [List.length app] in E2. rewrite Nat.add_1_r in E2.
  exists s2, m2. split_and!; [done| |].
  - replace (7 * Z.of_nat (S (List.length cols)))%Z with (7 + 7 * Z.of_nat (List.length cols))%Z by lia.
    by eapply grown_trans.
  - constructor; [by eapply has_cell_grown|done].
Qed.

Lemma insert_batch_ok fuel rg rc g k cols b (s : LiquidCache) m :
  cache_inv None s m → cells_ok m → group_ok rg g → depth <= fuel → group_rows rg rc →
  Forall (λ col, in_file rg col k) cols → k * n < Z.to_nat rc → (0 < rb_num_rows b)%Z →
  Forall2 (decoded_array rg (batch_rows n k (group_size rg))) cols (rb_columns b) →
  (weight s + 7 * Z.of_nat (List.length cols) + 3 < Z.of_nat fuel)%Z →
  ∃ s' m', insert_batch_into_cache squeeze_policy fuel b cols (batch k) bs rc g s = Ret s'
    ∧ grown s m s' m' (7 * Z.of_nat (List.length cols)) ∧ Forall (λ col, has_cell m' rg col k) cols.
Proof.
  intros I A G Hd Hg F Hk Hb Fa Hf. unfold insert_batch_into_cache. cbn [v batch].
  destruct (fo_rows FO rg rc Hg) as (Hrc & _ & H63). pose proof (fo_bs FO).
  destruct cols as [|col cols]; [exists s, m; split_and!; [done|by apply grown_refl|constructor]|].
  assert ((rb_num_rows b =? 0)%Z = false) as -> by lia.
  assert (Z.of_nat k * bs = Z.of_nat (k * n))%Z as -> by lia.
  rewrite usize_id by lia. assert ((Z.of_nat (k * n) >=? rc)%Z = false) as ->.
  { clear - Hk. revert Hk. generalize (k * n). intros q Hq. lia. }
  by apply (insert_columns_ok fuel rg g k (col :: cols) [] (rb_columns b) s m).
Qed.

(** The [i]-th item of the decoder's stream is the [i]-th missing batch. *)
Lemma fill_batches_ok fuel rg rc g ks cols items i (s : LiquidCache) m :
  cache_inv None s m → cells_ok m → group_ok rg g → depth <= fuel → group_rows rg rc →
  Forall column_in cols → i + List.length items = List.length ks → Forall (λ k, k * n < Z.to_nat rc) ks →
  (∀ j b k, items !! j = Some b → ks !! (i + j) = Some k →
     (0 < rb_num_rows b)%Z
     ∧ Forall2 (decoded_array rg (batch_rows n k (group_size rg))) cols (rb_columns b)) →
  (weight s + Z.of_nat (List.length items) * (7 * Z.of_nat (List.length cols)) + 3 < Z.of_nat fuel)%Z →
  ∃ s' m', fill_batches squeeze_policy bs fuel cols (batch <$> ks) rc g (Ok <$> items) i s
           = Ret (Ok (List.length ks), s')
    ∧ grown s m s' m' (Z.of_nat (List.length items) * (7 * Z.of_nat (List.length cols)))
    ∧ ∀ j k col, i <= j → ks !! j = Some k → col ∈ cols → has_cell m' rg col k.
Proof.
  intros I A G Hd Hg Fc Hl Fk Hi Hf. revert i s m I A Hl Hi Hf.
  destruct (fo_rows FO rg rc Hg) as (Hrc & H16 & H63). pose proof (fo_bs FO) as Hbs.
  destruct (group_rows_in rg rc Hg) as [Hsz Hrg].
  induction items as [|b items IH]; intros i s m I A Hl Hi Hf.
  { exists s, m. cbn [fmap list_fmap fill_batches List.length] in *. rewrite Nat.add_0_r in Hl. subst i.
    split_and!; [done|by apply grown_refl|]. intros j k col Hj Ek _. apply lookup_lt_Some in Ek. lia. }
  cbn [fmap list_fmap fill_batches List.length] in *.
  destruct (lookup_lt_is_Some_2 ks i) as [k Ek]; [lia|].
  destruct (Hi 0 b k eq_refl) as [Hb Fa]; [by rewrite Nat.add_0_r|].
  assert (k * n < Z.to_nat rc) as Hk by (rewrite Forall_forall in Fk; by apply Fk, (list_elem_of_lookup_2 _ _ _ Ek)).
  assert ((rb_num_rows b =? 0)%Z = false) as -> by lia.
  rewrite list_lookup_fmap, Ek. cbn [fmap option_fmap option_map].
  assert (Z.of_nat k < 2 ^ 16)%Z as Hk16.
  { assert (Z.of_nat (k * n) < rc)%Z as Hkn by lia. rewrite Nat2Z.inj_mul, Z2Nat.id in Hkn by lia.
    assert (Z.of_nat k <= rc / bs)%Z; [apply Z.div_le_lower_bound|]; lia. }
  destruct (insert_batch_ok fuel rg rc g k cols b s m I A G Hd Hg) as (s1 & m1 & -> & G1 & H1); try done; [|lia|].
  { eapply Forall_impl; [exact Fc|]. intros col Hc. exact (conj Hrg (conj Hc Hk16)). }
  run_step. pose proof (gr_weight _ _ _ _ _ G1).
  destruct (IH (S i) s1 m1 (gr_inv _ _ _ _ _ G1) (gr_cells _ _ _ _ _ G1)) as (s2 & m2 & -> & G2 & H2); [lia| |lia|].
  { intros j b' k' Ej Ek'. apply (Hi (S j) b' k' Ej). by rewrite Nat.add_succ_r. }
  exists s2, m2. split_and!; [done| |].
  - replace (Z.of_nat (S (List.length items)) * (7 * Z.of_nat (List.length cols)))%Z
      with (7 * Z.of_nat (List.length cols) + Z.of_nat (List.length items) * (7 * Z.of_nat (List.length cols)))%Z by lia.
    by eapply grown_trans.
  - intros j k' col Hj Ek' Hc. destruct (decide (j = i)) as [->|]; [|apply (H2 j); [lia|done..]].
    assert (k' = k) as -> by congruence. eapply has_cell_grown; [exact G2|].
    rewrite Forall_forall in H1. by apply H1.
Qed.

Lemma columns_in mask ids : get_root_column_ids schema mask = Ret ids → Forall column_in ids.
Proof.
  intros E. destruct (fo_schema FO) as [D Hl].
  destruct (get_root_column_ids_ok schema mask D) as (ids' & E' & _ & He). rewrite E in E'. injection E' as <-.
  apply Forall_forall. intros c (i & r & Hr & _ & ->)%He. unfold descriptor_ok in D. rewrite Forall_forall in D.
  specialize (D r (list_elem_of_lookup_2 _ _ _ Hr)). unfold column_in. lia.
Qed.

(** What the rows of a row group need of the cache, and what filling it costs. *)
Definition fill_cost (ks : list nat) (cols : list Z) : Z :=
  Z.of_nat (List.length ks) * (7 * Z.of_nat (List.length cols)).

Lemma row_group_rows_ok rg rc : group_rows rg rc → row_group_rows metadata rg = Ret rc.
Proof.
  intros Hg. destruct (fo_rows FO rg rc Hg) as (? & _ & H). pose proof (fo_bs FO). unfold row_group_rows.
  rewrite (proj2 Hg). cbn [expect]. run_step. rewrite usize_id by lia. done.
Qed.

Lemma fill_cache_ok fuel rg rc context ks (s : LiquidCache) m :
  cache_inv None s m → cells_ok m → group_ok rg (pc_cached_row_group context) → depth <= fuel →
  group_rows rg rc → pc_row_group_idx context = rg → pc_missing_batches context = batch <$> ks →
  get_root_column_ids schema (pc_cache_projection context) = Ret (pc_cache_column_ids context) →
  StronglySorted lt ks → Forall (λ k, k * n < Z.to_nat rc) ks →
  (weight s + fill_cost ks (pc_cache_column_ids context) + 3 < Z.of_nat fuel)%Z →
  ∃ s' m', fill_cache_from_parquet squeeze_policy bs metadata fuel context s = Ret (Ok tt, s')
    ∧ grown s m s' m' (fill_cost ks (pc_cache_column_ids context))
    ∧ ∀ k col, k ∈ ks → col ∈ pc_cache_column_ids context → has_cell m' rg col k.
Proof.
  intros I A G Hd Hg Erg Em Eids S Fk Hf. unfold fill_cache_from_parquet.
  rewrite Erg, (row_group_rows_ok rg rc Hg), Em. run_step. pose proof (fo_bs FO) as Hbs.
  destruct (fo_rows FO rg rc Hg) as (Hrc & H16 & H63). destruct (group_rows_in rg rc Hg) as [Hsz Hrg].
  assert (∀ c, (0 <= fill_cost ks c)%Z) as Hc0 by (intros; unfold fill_cost; lia).
  set (ids := pc_cache_column_ids context) in *.
  destruct (decide (ids = [])) as [E0|E0].
  { exists s, m. rewrite E0. split_and!; [done|by apply grown_refl|]. intros k col _ ?%elem_of_nil. done. }
  destruct (decide (ks = [])) as [Ek|Ek].
  { exists s, m. subst ks. split_and!; [by destruct ids|by apply grown_refl|]. intros k col ?%elem_of_nil. done. }
  pose proof (build_selection_ok bs n (Z.to_nat rc) ks eq_refl Hbs S Fk ltac:(lia)) as Esel.
  rewrite Z2Nat.id in Esel by done.
  set (sel := build_selection_for_batches (batch <$> ks) bs rc) in *.
  destruct (fo_decode FO (pc_cache_projection context) rg rc sel ids Hg Eids) as (items & Eitems & Hlen & Hit).
  rewrite Esel in Hlen, Hit.
  assert (∀ i, i < List.length items ↔ i < List.length ks) as Hlen'.
  { intros i. rewrite Hlen. apply (chunk_rows_in n ks (Z.to_nat rc) i); [lia|done|done]. }
  assert (List.length items = List.length ks) as Hl.
  { apply Nat.le_antisymm; apply Nat.nlt_ge; intros Hlt; apply Hlen' in Hlt; lia. }
  assert (rs_selects_any sel = true) as Hany.
  { rewrite read_selects_any. apply bool_decide_eq_true. intros E.
    assert (0 < List.length items) as Hpos by (rewrite Hl; destruct ks; [done|cbn; lia]).
    apply Hlen in Hpos. rewrite <- Esel in Hpos.
    destruct (le_lt_dec (List.length (rows (rs_selectors sel))) (Z.to_nat rc)).
    - rewrite count_resize, E in Hpos by done. lia.
    - rewrite resize_le in Hpos by lia. pose proof (count_take_le (rows (rs_selectors sel)) (Z.to_nat rc)). lia. }
  destruct (fill_batches_ok fuel rg rc (pc_cached_row_group context) ks ids items 0 s m I A G Hd Hg)
    as (s' & m' & Efill & Gr & Hcells); [by eapply columns_in|done|done| |by rewrite Hl|].
  { intros j b k Ej Ek'. destruct (Hit j b Ej) as [Hb Fa]. split; [done|].
    rewrite (proj2 (chunk_rows_in n ks (Z.to_nat rc) j ltac:(lia) S Fk) k Ek') in Fa. by rewrite Hsz. }
  exists s', m'. rewrite Hl in Gr. split_and!.
  - destruct ids as [|id ids']; [done|]. subst sel. destruct ks as [|k ks']; [done|].
    cbn [fmap list_fmap] in *. rewrite Hany. cbn [negb]. rewrite Eitems, Eids. run_step.
    change (list_fmap _ _ batch ks') with (batch <$> ks'). rewrite Efill. run_step. cbn [List.length].
    by rewrite length_fmap, Nat.eqb_refl.
  - done.
  - intros k col [j Ej]%list_elem_of_lookup Hc. apply (Hcells j k col); [lia|done..].
Qed.

(** ** Planning *)

Lemma compute_missing_ok rg g cols ks (s : LiquidCache) m :
  cache_inv None s m → group_ok rg g → Forall column_in cols → StronglySorted lt ks →
  ∃ missing, compute_missing_batches g cols (batch <$> ks) s = batch <$> missing
    ∧ StronglySorted lt missing ∧ (∀ k, k ∈ missing → k ∈ ks)
    ∧ ∀ k col, k ∈ ks → k ∉ missing → col ∈ cols → has_cell m rg col k.
Proof.
  intros I G Fc S. set (columns := (λ column_idx, get_column column_idx g) <$> cols).
  assert (∀ k, batch_missing columns (batch k) s = false → ∀ col, col ∈ cols → has_cell m rg col k) as Hm.
  { intros k E col Hc. rewrite Forall_forall in Fc. destruct (group_column_in rg g col G (Fc col Hc)) as (f & _ & _ & Ec).
    apply (is_cached_cell rg col f k s m I). unfold batch_missing in E.
    destruct (column_is_cached _ _ s) eqn:Eh; [done|]. exfalso. apply not_true_iff_false in E. apply E.
    apply existsb_exists. exists (get_column col g). split; [|by rewrite Ec, Eh].
    apply list_elem_of_In, list_elem_of_fmap. by exists col. }
  assert (∀ ks acc, StronglySorted lt ks → StronglySorted lt acc → (∀ i j, i ∈ acc → j ∈ ks → i < j) →
    ∃ missing, foldl (λ missing batch_id, if batch_missing columns batch_id s then push_batch batch_id missing else missing)
                 (batch <$> acc) (batch <$> ks) = batch <$> missing
      ∧ StronglySorted lt missing ∧ (∀ k, k ∈ missing → k ∈ acc ∨ k ∈ ks) ∧ (∀ k, k ∈ acc → k ∈ missing)
      ∧ ∀ k, k ∈ ks → k ∉ missing → batch_missing columns (batch k) s = false) as Hfold.
  { clear. intros ks. induction ks as [|k ks IH]; intros acc S Sa Hlt.
    { exists acc. split_and!; [done|done|tauto|tauto|]. intros k ?%elem_of_nil. done. }
    apply StronglySorted_inv in S as [S Fk]. rewrite Forall_forall in Fk. cbn [fmap list_fmap foldl].
    destruct (batch_missing columns (batch k) s) eqn:Eb.
    - destruct (push_batch_ok acc k Sa) as (acc' & -> & Sa' & Ea & _).
      { apply Forall_forall. intros i Hi. apply Nat.lt_le_incl, Hlt; [done|by left]. }
      destruct (IH acc' S Sa') as (missing & -> & Sm & H1 & H2 & H3).
      { intros i j [Hi| ->]%Ea Hj; [|by apply Fk]. apply Hlt; [done|by right]. }
      exists missing. split_and!; [done|done| | |].
      + intros k' [[?| ->]%Ea|?]%H1; [by left|right; by left|right; by right].
      + intros k' Hk'. apply H2, Ea. by left.
      + intros k' [->|Hk']%elem_of_cons Hn; [|by apply H3]. exfalso. apply Hn, H2, Ea. by right.
    - destruct (IH acc S Sa) as (missing & -> & Sm & H1 & H2 & H3).
      { intros i j Hi Hj. apply Hlt; [done|by right]. }
      exists missing. split_and!; [done|done| |done|].
      + intros k' [?|?]%H1; [by left|right; by right].
      + intros k' [->|Hk']%elem_of_cons Hn; [done|by apply H3]. }
  unfold compute_missing_batches. fold columns.
  destruct (decide (cols = [])) as [->|Hc0].
  { exists []. split_and!; [done|constructor|intros k ?%elem_of_nil; done|]. intros k col _ _ ?%elem_of_nil. done. }
  destruct (decide (ks = [])) as [->|Hk0].
  { exists []. split_and!; [by destruct cols|constructor|intros k ?%elem_of_nil; done|].
    intros k col ?%elem_of_nil. done. }
  destruct (Hfold ks [] S) as (missing & E & Sm & H1 & _ & H3); [constructor|intros i j ?%elem_of_nil; done|].
  exists missing. split_and!.
  - destruct cols as [|col cols]; [done|]. destruct ks as [|k ks]; [done|]. exact E.
  - done.
  - intros k [?%elem_of_nil|?]%H1; done.
  - intros k col Hk Hn Hc. apply (Hm k); [by apply H3|done].
Qed.

(** A predicate of the row filter: one expression over columns that are read as
    they are, among those the stream makes sure are cached. *)
Record filter_ok (p : FilterPredicate) : Prop := {
  fp_columns : get_predicate_column_id (fp_projection_mask p) ≠ [];
  fp_known : ∃ ids, get_root_column_ids schema (fp_projection_mask p) = Ret ids
    ∧ ∀ c, c ∈ get_predicate_column_id (fp_projection_mask p) → c ∈ ids;
  fp_same v : List.length (get_predicate_column_id (fp_projection_mask p)) = 1 →
    peval (fp_physical_column_index p) v = prows (fp_physical_expr p) [v];
  fp_plain : 2 <= List.length (get_predicate_column_id (fp_projection_mask p)) →
    extract_multi_column_or (expr_tree (fp_physical_column_index p)) = None
    ∧ ∀ col field, col ∈ get_predicate_column_id (fp_projection_mask p) →
        fields !! Z.to_nat col = Some field →
        match infer_expression field with Some (ExtractDate32 _) => False | _ => True end
}.

(** [a] selects no leaf that [b] does not. *)
Definition mask_le (a b : ProjectionMask) : Prop := ∀ i, leaf_included a i = true → leaf_included b i = true.

Lemma root_ids_mono a b ids ids' :
  mask_le a b → get_root_column_ids schema a = Ret ids → get_root_column_ids schema b = Ret ids' →
  ∀ c, c ∈ ids → c ∈ ids'.
Proof.
  intros Hle Ea Eb c Hc. destruct (fo_schema FO) as [D _].
  destruct (get_root_column_ids_ok schema a D) as (x & Ex & _ & Hx).
  destruct (get_root_column_ids_ok schema b D) as (y & Ey & _ & Hy).
  rewrite Ea in Ex. rewrite Eb in Ey. injection Ex as <-. injection Ey as <-.
  apply Hx in Hc as (i & r & Hr & Hi & ->). apply Hy. exists i, r. split_and!; [done|by apply Hle|done].
Qed.

Lemma predicate_projection_ok (ps : list FilterPredicate) :
  (ps = [] ∧ predicate_projection (Some ps) = None)
  ∨ ∃ mask, predicate_projection (Some ps) = Some mask ∧ Forall (λ p, mask_le (fp_projection_mask p) mask) ps.
Proof.
  unfold predicate_projection. cbn [default]. change (default [] (Some ps)) with ps.
  set (step := λ projection predicate, _).
  assert (∀ ps mask, ∃ mask', foldl step (Some mask) ps = Some mask' ∧ mask_le mask mask'
            ∧ Forall (λ p, mask_le (fp_projection_mask p) mask') ps) as H.
  { clear ps. intros ps. induction ps as [|p ps IH]; intros mask.
    - exists mask. split_and!; [done|by intros i|constructor].
    - cbn [foldl]. change (step (Some mask) p) with (Some (mask_union mask (fp_projection_mask p))).
      destruct (IH (mask_union mask (fp_projection_mask p))) as (mask' & -> & Hle & F).
      exists mask'. split_and!; [done| |constructor; [|done]]; intros i Hi; apply Hle;
        rewrite union_included, Hi; by rewrite ?orb_true_r. }
  destruct ps as [|p ps]; [by left|]. right. cbn [foldl]. destruct (H ps (fp_projection_mask p)) as (mask & E & Hle & F).
  exists mask. split; [exact E|]. by constructor.
Qed.

Lemma row_group_selection rc (sel : option RowSelection) :
  (0 <= rc < 2 ^ 63)%Z → (∀ s, sel = Some s → List.length (rows (rs_selectors s)) <= Z.to_nat rc) →
  rows (rs_selectors (default (rs_from [Selector rc false]) sel))
  = match sel with Some s => rows (rs_selectors s) | None => replicate (Z.to_nat rc) true end.
Proof.
  intros Hrc Hs. destruct sel as [s|]; [done|]. cbn [default]. change (default ?x None) with x.
  rewrite rs_from_rows; [|split; [repeat constructor; cbn; lia|cbn; lia]].
  unfold rows, rows_of. cbn. by rewrite app_nil_r.
Qed.

Definition limits_ok (offset limit : option Z) : Prop :=
  (∀ o, offset = Some o → (0 <= o < 2 ^ 63)%Z) ∧ (∀ n, limit = Some n → (0 <= n < 2 ^ 64)%Z).

Lemma apply_offset_limit_ok r (s : RowSelection) :
  limits_ok (rf_offset r) (rf_limit r) → (Z.of_nat (List.length (rows (rs_selectors s))) < 2 ^ 63)%Z →
  rows (rs_selectors (apply_offset_limit r s)) = planned_rows (rf_offset r) (rf_limit r) (rows (rs_selectors s)).
Proof.
  intros [Ho Hl] Ht. unfold apply_offset_limit, planned_rows, lim_rows, off_rows.
  rewrite rows_length in Ht by apply rs_counted.
  destruct (rf_offset r) as [o|], (rf_limit r) as [lim|]; rewrite ?limit_rows by (by apply Hl);
    rewrite ?offset_rows by (done || by apply Ho); done.
Qed.

Lemma limits_left_ok offset limit l : limits_ok offset limit → limits_ok (offset_left offset l) (limit_left offset limit l).
Proof.
  intros [Ho Hl]. destruct (planned_count offset limit l) as [_ Hc]. split.
  - intros o E. unfold offset_left in E. destruct offset as [o'|]; [|done]. injection E as <-.
    specialize (Ho o' eq_refl). lia.
  - intros n' E. unfold limit_left in E. destruct limit as [n0|]; [|done]. injection E as <-.
    specialize (Hl n0 eq_refl). specialize (Hc n0 eq_refl).
    unfold planned_rows, lim_rows in Hc. lia.
Qed.

(** What a plan says of a row group of [rc] rows of which [l] are to be read. *)
Record planned (rg rc : Z) (projection_ids : list Z) (filter : option (list FilterPredicate)) (sb : Z)
    (l : list bool) (m : gmap Z Val) (ctx : PlanningContext) (ks missing : list nat) : Prop := {
  pl_group : pc_row_group_idx ctx = rg;
  pl_rows : rows (rs_selectors (pc_selection ctx)) = l;
  pl_batch_size : pc_batch_size ctx = sb;
  pl_cached : group_ok rg (pc_cached_row_group ctx);
  pl_projection : pc_projection_column_ids ctx = projection_ids;
  pl_cache : get_root_column_ids schema (pc_cache_projection ctx) = Ret (pc_cache_column_ids ctx);
  pl_projected : ∀ c, c ∈ projection_ids → c ∈ pc_cache_column_ids ctx;
  pl_filtered : Forall (λ p, ∀ c, c ∈ get_predicate_column_id (fp_projection_mask p) → c ∈ pc_cache_column_ids ctx)
    (default [] filter);
  pl_batches : batches_of n l ks;
  pl_missing : pc_missing_batches ctx = batch <$> missing;
  pl_sorted : StronglySorted lt missing;
  pl_touched k : k ∈ missing → k ∈ ks;
  pl_cells k col : k ∈ ks → k ∉ missing → col ∈ pc_cache_column_ids ctx → has_cell m rg col k
}.

(** The factory after a row group. *)
Definition factory_left (r : ReaderFactory) (l : list bool) : ReaderFactory :=
  Factory (rf_filter r) (limit_left (rf_offset r) (rf_limit r) l) (offset_left (rf_offset r) l) (rf_cached_file r).

Lemma offset_after offset limit l :
  (∀ o, offset = Some o → (0 <= o < 2 ^ 63)%Z) → (Z.of_nat (List.length l) < 2 ^ 63)%Z →
  (λ o, Z.max 0 (o - usize (Z.of_nat (count_set l) - Z.of_nat (count_set (planned_rows offset limit l)))))%Z <$> offset
  = offset_left offset l.
Proof.
  intros Ho Hl. destruct offset as [o|]; [|done]. cbn [fmap option_fmap option_map offset_left]. f_equal.
  destruct (planned_count (Some o) limit l) as [Hc _]. change (default 0%Z (Some o)) with o in Hc.
  pose proof (count_set_le l). specialize (Ho o eq_refl). rewrite usize_id by lia. lia.
Qed.

Lemma limit_after offset limit l :
  (∀ n, limit = Some n → (0 <= n < 2 ^ 64)%Z) →
  (λ n, usize (n - Z.of_nat (count_set (planned_rows offset limit l)))) <$> limit = limit_left offset limit l.
Proof.
  intros Hl. destruct limit as [n0|]; [|done]. cbn [fmap option_fmap option_map limit_left]. f_equal.
  destruct (planned_count offset (Some n0) l) as [_ Hc]. specialize (Hc n0 eq_refl).
  specialize (Hl n0 eq_refl). by rewrite usize_id by lia.
Qed.

Lemma nothing_planned offset limit l : count_set l = 0 → count_set (planned_rows offset limit l) = 0.
Proof. intros E. destruct (planned_count offset limit l) as [H _]. lia. Qed.

Lemma unchanged_left offset limit l :
  limits_ok offset limit → count_set l = 0 → offset_left offset l = offset ∧ limit_left offset limit l = limit.
Proof.
  intros [Ho Hl] E. pose proof (nothing_planned offset limit l E) as E'. unfold offset_left, limit_left.
  rewrite E, E'. split; [destruct offset as [o|]|destruct limit as [n0|]]; try done; cbn; f_equal.
  - specialize (Ho o eq_refl). lia.
  - lia.
Qed.

Lemma group_batch_bound rg rc :
  group_rows rg rc → (0 < n) ∧ (Z.of_nat ((Z.to_nat rc + (n - 1)) / n) < 2 ^ 16)%Z.
Proof.
  intros Hg. destruct (fo_rows FO rg rc Hg) as (Hrc & H16 & _). pose proof (fo_bs FO). split; [lia|].
  assert ((Z.to_nat rc + (n - 1)) / n <= Z.to_nat rc / n + 1) as H1.
  { rewrite <- (Nat.div_add (Z.to_nat rc) 1 n) by lia. apply Nat.Div0.div_le_mono. lia. }
  assert (Z.of_nat (Z.to_nat rc / n) = rc / bs)%Z as E by (rewrite Nat2Z.inj_div; f_equal; lia). lia.
Qed.

Lemma plan_row_group_ok r rg rc sel projection projection_ids sb (s : LiquidCache) m :
  let l := match sel with Some s => rows (rs_selectors s) | None => replicate (Z.to_nat rc) true end in
  let l' := planned_rows (rf_offset r) (rf_limit r) l in
  cache_inv None s m → group_rows rg rc → rf_cached_file r = File file_id fields →
  limits_ok (rf_offset r) (rf_limit r) → List.length l <= Z.to_nat rc →
  get_root_column_ids schema projection = Ret projection_ids →
  Forall filter_ok (default [] (rf_filter r)) →
  ∃ ctx s', plan_row_group bs metadata r rg sel projection sb s
            = Ret (if decide (count_set l' = 0) then None else Some ctx, factory_left r l, s')
    ∧ cache_inv None s' m ∧ weight s' = weight s
    ∧ (count_set l' ≠ 0 → ∃ ks missing, planned rg rc projection_ids (rf_filter r) sb l' m ctx ks missing).
Proof.
  intros l l' I Hg Hfile Hlim Hl Epr Ff. destruct (fo_rows FO rg rc Hg) as (Hrc & H16 & H63). pose proof (fo_bs FO) as Hbs.
  set (ctx0 := Plan rg (rs_from []) sb (RowGroup ∅ ∅) projection [] [] []).
  unfold plan_row_group. rewrite (row_group_rows_ok rg rc Hg). run_step.
  set (sel0 := default (rs_from [Selector rc false]) sel).
  assert (rows (rs_selectors sel0) = l) as Esel.
  { apply row_group_selection; [lia|]. intros s0 ->. exact Hl. }
  rewrite !read_row_count, Esel.
  rewrite (apply_offset_limit_ok r sel0) by (done || (rewrite Esel; lia)). rewrite Esel. fold l'.
  destruct (Z.of_nat (count_set l) =? 0)%Z eqn:E0.
  { assert (count_set l = 0) as E by lia. pose proof (nothing_planned (rf_offset r) (rf_limit r) l E) as E'.
    fold l' in E'. exists ctx0, s. rewrite decide_True by done. unfold factory_left.
    destruct (unchanged_left _ _ l Hlim E) as [-> ->].
    split_and!; [by destruct r|done|done|by intros ?]. }
  unfold l'. rewrite (offset_after _ _ _ (proj1 Hlim)) by lia. fold l'.
  destruct (Z.of_nat (count_set l') =? 0)%Z eqn:E1.
  { assert (count_set l' = 0) as E by lia. exists ctx0, s. rewrite decide_True by done.
    split_and!; [|done|done|by intros ?]. unfold factory_left. do 4 f_equal.
    unfold limit_left. fold l'. rewrite E. destruct (rf_limit r); [|done]. cbn. f_equal. lia. }
  unfold l'. rewrite (limit_after _ _ _ (proj2 Hlim)). fold l'.
  set (sel' := apply_offset_limit r sel0).
  assert (rows (rs_selectors sel') = l') as Esel'.
  { unfold sel'. rewrite (apply_offset_limit_ok r sel0) by (done || (rewrite Esel; lia)). by rewrite Esel. }
  assert (List.length l' <= Z.to_nat rc) as Hl' by (transitivity (List.length l); [apply planned_length|done]).
  destruct (collect_selection_batches_ok sel' bs rc Hbs) as (ks & -> & B); [lia|lia|].
  rewrite Esel', take_ge in B by done. run_step.
  set (cache_projection := match predicate_projection (rf_filter r) with Some p => mask_union projection p | None => projection end).
  destruct (fo_schema FO) as [D _].
  destruct (get_root_column_ids_ok schema cache_projection D) as (cache_ids & Ecache & _ & _).
  rewrite Ecache. run_step.
  assert (∃ pids, match predicate_projection (rf_filter r) with
                  | Some p => get_root_column_ids schema p | None => Ret [] end = Ret pids) as [pids ->].
  { destruct (predicate_projection (rf_filter r)) as [p|]; [|by eexists].
    destruct (get_root_column_ids_ok schema p D) as (pids & -> & _). by eexists. }
  run_step. rewrite Hfile. cbn [rf_cached_file cf_file_id cf_file_schema].
  destruct (create_row_group_ok file_id fields rg pids s m I (fo_plain FO)) as (g & s' & -> & I' & Hix & Hw & G).
  rewrite Epr. run_step.
  destruct (compute_missing_ok rg g cache_ids ks s' m I' G (columns_in _ _ Ecache) (bo_sorted _ _ _ B))
    as (missing & -> & Sm & Hin & Hcells).
  eexists _, s'. rewrite decide_False by lia. split_and!; [unfold factory_left; by rewrite Hfile|done|done|].
  intros _. exists ks, missing. split; cbn; try done.
  - intros c Hc. eapply (root_ids_mono projection cache_projection); [|done|done|done].
    intros i Hi. unfold cache_projection. destruct (predicate_projection _); [|done].
    by rewrite union_included, Hi.
  - destruct (rf_filter r) as [ps|]; [|constructor]. cbn [default]. change (default [] (Some ps)) with ps.
    destruct (predicate_projection_ok ps) as [[-> _]|(mask & Emask & F)]; [constructor|].
    rewrite Forall_forall in F, Ff |- *. intros p Hp c Hc. destruct (Ff p Hp) as [_ (ids & Eids & Hids) _ _].
    eapply (root_ids_mono (fp_projection_mask p) cache_projection); [|exact Eids|exact Ecache|by apply Hids].
    intros i Hi. unfold cache_projection. rewrite Emask, union_included, (F p Hp i Hi). apply orb_true_r.
Qed.

(** ** Reading a row group *)

(** The reader cuts the rows as the cache does: in batches of the cache's size, or
    every row group is one batch for both. *)
Definition batch_size_ok (sb : Z) : Prop :=
  sb = bs ∨ (0 <= sb <= bs)%Z ∧ ∀ rg rc, group_rows rg rc → (rc <= sb)%Z.

Lemma kept_zero value k w predicates l : 0 < w → count_set l = 0 → kept value k w predicates l = [].
Proof.
  intros Hw E. unfold kept.
  assert (∀ j, count_set (piece w l j) = 0) as Hp.
  { intros j. unfold piece. pose proof (count_take_le (drop (j * w) l) w).
    rewrite <- (take_drop (j * w) l), count_set_app in E. lia. }
  induction (seq 0 (pieces w l)) as [|j js IH]; [done|]. cbn [fmap list_fmap].
  rewrite filter_cons_False; [done|]. cbn [fst snd].
  pose proof (keep_rows_count value (k + j) predicates (piece w l j)). rewrite Hp in H. lia.
Qed.

Lemma pieces_bound w l rc : List.length l <= rc → pieces (A := bool) w l <= (rc + (w - 1)) / w.
Proof. intros H. unfold pieces. apply Nat.Div0.div_le_mono. lia. Qed.

Lemma one_piece w (l : list bool) : 0 < w → l ≠ [] → List.length l <= w → pieces w l = 1 ∧ piece w l 0 = l.
Proof.
  intros Hw Hl Hlen. split.
  - rewrite pieces_drop by done. rewrite drop_ge by done. by rewrite pieces_nil.
  - unfold piece. cbn. by rewrite drop_0, take_ge.
Qed.

(** Both batch sizes cut the rows of a row group alike. *)
Lemma same_pieces sb rg rc (l : list bool) :
  batch_size_ok sb → group_rows rg rc → List.length l <= Z.to_nat rc → l ≠ [] →
  (0 < sb)%Z ∧ pieces (Z.to_nat sb) l = pieces n l
  ∧ ∀ j, j < pieces n l → piece (Z.to_nat sb) l j = piece n l j.
Proof.
  intros Hsb Hg Hl Hne. pose proof (fo_bs FO) as Hbs. destruct Hsb as [->|[Hsb Hle]]; [done|].
  specialize (Hle rg rc Hg). assert (0 < List.length l) by (destruct l; [done|cbn; lia]).
  destruct (one_piece (Z.to_nat sb) l) as [E1 E2]; [lia|done|lia|].
  destruct (one_piece n l) as [E3 E4]; [lia|done|lia|].
  split_and!; [lia|congruence|]. intros j Hj. assert (j = 0) as -> by lia. congruence.
Qed.

Lemma same_kept sb rg rc value predicates (l : list bool) :
  batch_size_ok sb → group_rows rg rc → List.length l <= Z.to_nat rc → l ≠ [] →
  kept value 0 (Z.to_nat sb) predicates l = kept value 0 n predicates l.
Proof.
  intros Hsb Hg Hl Hne. destruct (same_pieces sb rg rc l Hsb Hg Hl Hne) as (_ & Ep & Hp). unfold kept.
  rewrite Ep. f_equal. apply list_fmap_ext. intros i j [-> Hj]%lookup_seq. cbn [Nat.add]. by rewrite Hp.
Qed.

Lemma file_value_rows rg rc col k :
  group_rows rg rc → vlen (file_value rg col k) = min n (Z.to_nat rc - k * n).
Proof.
  intros Hg. destruct (group_rows_in rg rc Hg) as [Hsz _]. pose proof (fo_bs FO). unfold file_value.
  rewrite vfilter_len.
  - rewrite Hsz. apply count_batch_rows. lia.
  - unfold batch_rows. rewrite length_fmap, length_seq, Hsz. by rewrite (fo_contents FO rg rc col Hg).
Qed.

Lemma column_ready rg rc g m col k :
  group_rows rg rc → group_ok rg g → column_in col → cells_ok m → has_cell m rg col k → (Z.of_nat k < 2 ^ 16)%Z →
  ∃ field, fields !! Z.to_nat col = Some field
    ∧ column_ok g (file_value rg) m k (min n (Z.to_nat rc - k * n)) col (group_column file_id rg col field).
Proof.
  intros Hg G Hc A [v Hv] Hk. destruct (group_column_in rg g col G Hc) as (field & Ef & [Hp Hn] & Ec).
  exists field. split; [done|]. split; [done|done|done| |by eapply file_value_rows].
  change (m !! cell file_id rg col k = Some (file_value rg col k)). rewrite Hv. f_equal.
  apply A; [|done]. destruct (group_rows_in rg rc Hg) as [_ Hrg]. exact (conj Hrg (conj Hc Hk)).
Qed.

Lemma filter_ready rg rc g m p k cols :
  group_rows rg rc → group_ok rg g → cells_ok m → (Z.of_nat k < 2 ^ 16)%Z → filter_ok p →
  (∀ c, c ∈ get_predicate_column_id (fp_projection_mask p) → c ∈ cols) →
  Forall column_in cols → (∀ c, c ∈ cols → has_cell m rg c k) →
  predicate_ok g (file_value rg) m k (min n (Z.to_nat rc - k * n)) (liquid_predicate p).
Proof.
  intros Hg G A Hk [Hne _ Hsame Hpl] Hin Fc Hcells. rewrite Forall_forall in Fc.
  split; [done| |exact Hsame|intros H2; apply (Hpl H2)].
  apply Forall_forall. intros c Hc. cbn [predicate_column_ids liquid_predicate] in *.
  destruct (column_ready rg rc g m c k) as (field & Ef & Cok); [done|done|by apply Fc, Hin|done|by apply Hcells, Hin|done|].
  eexists. split; [done|]. intros H2. unfold exact. cbn. by apply (proj2 (Hpl H2) c field).
Qed.

(** ** Reading a row group back *)

(** A record batch of the stream: the rows [sel] of the [k]-th batch of the row
    group [rg], column after column. *)
Definition read_ok (columns : list Z) (x : Z * (nat * list bool)) (b : RecordBatch) : Prop :=
  let '(rg, (k, sel)) := x in
  brows b = count_set sel
  ∧ Forall2 (λ col a, ∃ field, fields !! Z.to_nat col = Some field
       ∧ read_obs (infer_expression field) (file_value rg col k) (Some sel) a) columns (barrays b).

Lemma emitted_read_ok rg g columns x item :
  group_ok rg g → Forall column_in columns → emitted g (file_value rg) columns x item →
  ∃ b, item = Ok b ∧ read_ok columns (rg, x) b.
Proof.
  intros G Fc (b & -> & Hrows & Fa). exists b. split; [done|]. destruct x as [k sel]. split; [done|].
  rewrite Forall_forall in Fc. clear Hrows. cbn [fst snd] in *. induction Fa as [|col a cols arrays (c & Ec & Ho) Fa IH]; constructor.
  - destruct (group_column_in rg g col G) as (field & Ef & _ & Ec'); [apply Fc; by left|].
    exists field. split; [done|]. rewrite Ec in Ec'. by injection Ec' as ->.
  - apply IH. intros c' Hc'. apply Fc. by right.
Qed.

Definition group_cost (predicates : list LiquidPredicate) (columns : list Z) (rg : Z) : Z :=
  Z.of_nat ((group_size rg + (n - 1)) / n)
  * (7 * Z.of_nat (List.length fields) + batch_cost predicates columns).

Lemma emitted_all_ok rg g columns xs items :
  group_ok rg g → Forall column_in columns → Forall2 (emitted g (file_value rg) columns) xs items →
  ∃ batches, items = Ok <$> batches ∧ Forall2 (read_ok columns) (pair rg <$> xs) batches.
Proof.
  intros G Fc. induction 1 as [|x item xs items Hx _ (batches & -> & F)]; [by exists []|].
  destruct (emitted_read_ok rg g columns x item G Fc Hx) as (b & -> & Hb). exists (b :: batches).
  split; [done|]. by constructor.
Qed.

Lemma group_ready rg rc g cols projection_ids filter m (l : list bool) ks j :
  group_rows rg rc → group_ok rg g → cells_ok m → batches_of n l ks → List.length l <= Z.to_nat rc →
  Forall column_in cols → (∀ c, c ∈ projection_ids → c ∈ cols) → Forall filter_ok (default [] filter) →
  Forall (λ p, ∀ c, c ∈ get_predicate_column_id (fp_projection_mask p) → c ∈ cols) (default [] filter) →
  (∀ k col, k ∈ ks → col ∈ cols → has_cell m rg col k) →
  j < pieces n l → count_set (piece n l j) ≠ 0 →
  ready g (file_value rg) m projection_ids (filter_of (fmap (M := list) liquid_predicate <$> filter)) j
    (List.length (piece n l j)).
Proof.
  intros Hg G A B Hl Fc Hproj Ff Hpred Hcells Hj Hc. destruct (group_batch_bound rg rc Hg) as [Hn H16].
  pose proof (pieces_bound n l _ Hl) as Hpb.
  assert (j ∈ ks) as Hin by (by apply (bo_elem _ _ _ B), piece_touches).
  assert (∀ c, c ∈ cols → has_cell m rg c j) as Hcells' by (intros c; by apply Hcells).
  exists (min n (Z.to_nat rc - j * n)). rewrite Forall_forall in Fc. split_and!.
  - unfold piece. rewrite length_take, length_drop. lia.
  - destruct filter as [ps|]; [|constructor]. change (default [] (Some ps)) with ps in *.
    cbn [fmap option_fmap option_map filter_of]. apply Forall_fmap. rewrite Forall_forall in Ff, Hpred |- *.
    intros p Hp. eapply (filter_ready rg rc g m p j cols); try done; [lia|by apply Ff|by apply Hpred|].
    by apply Forall_forall.
  - apply Forall_forall. intros c Hin'. apply Hproj in Hin'.
    destruct (column_ready rg rc g m c j) as (field & _ & Cok); [done|done|by apply Fc|done|by apply Hcells'|lia|].
    by eexists.
Qed.

Lemma read_group_ok fuel rg rc projection_ids filter sb l m1 ctx ks missing (s : LiquidCache) m :
  let predicates := filter_of (fmap (M := list) liquid_predicate <$> filter) in
  planned rg rc projection_ids filter sb l m1 ctx ks missing →
  group_rows rg rc → batch_size_ok sb → List.length l <= Z.to_nat rc → count_set l ≠ 0 →
  Forall filter_ok (default [] filter) → cache_inv None s m → cells_ok m →
  (∀ k col, k ∈ ks → col ∈ pc_cache_column_ids ctx → has_cell m rg col k) →
  (weight s + Z.of_nat (pieces n l) * batch_cost predicates projection_ids + 3 < Z.of_nat fuel)%Z →
  ∃ items s',
    run_stream squeeze_policy hydration_policy bmi2 (S (List.length l)) fuel
      (reader_new sb (rs_selectors (pc_selection ctx)) (pc_cached_row_group ctx) projection_ids)
      (fmap (M := list) liquid_predicate <$> filter) s = Ret (Ok <$> items, s')
    ∧ cache_inv None s' m ∧ (weight s' <= weight s + Z.of_nat (pieces n l) * batch_cost predicates projection_ids)%Z
    ∧ Forall2 (read_ok projection_ids) (pair rg <$> kept (file_value rg) 0 n predicates l) items.
Proof.
  intros predicates [_ Erows Esb G _ Ecache Hproj Hpred B _ _ _ _] Hg Hsb Hl Hne Ff I A Hcells Hf.
  pose proof (fo_bs FO) as Hbs. destruct (fo_rows FO rg rc Hg) as (Hrc & _ & H63).
  assert (l ≠ []) as Hl0 by (by intros ->).
  destruct (same_pieces sb rg rc l Hsb Hg Hl Hl0) as (Hsb0 & Ep & Hp).
  destruct (group_batch_bound rg rc Hg) as [Hn H16]. pose proof (pieces_bound n l _ Hl) as Hpb.
  pose proof (columns_in _ _ Ecache) as Fc.
  set (g := pc_cached_row_group ctx) in *. set (sel := rs_selectors (pc_selection ctx)) in *.
  assert (total sel = Z.of_nat (List.length l)) as Ht by (rewrite <- Erows, rows_length; [done|apply rs_counted]).
  destruct (run_stream_ok squeeze_policy hydration_policy bmi2 g (file_value rg) (S (List.length l)) fuel 0
              (reader_new sb sel g projection_ids) (fmap (M := list) liquid_predicate <$> filter) s m)
    as (items & s' & Hrun & I' & F & Hw); cbn [reader_new selection batch_size projection_columns
      cached_row_group current_batch_id]; rewrite ?Erows; try done.
  - apply rs_counted.
  - rewrite Ht. destruct Hsb as [->|[? _]]; lia.
  - lia.
  - cbn [Nat.add]. rewrite Ep. lia.
  - intros j Hj Hc. rewrite Ep in Hj. rewrite Hp in Hc |- * by done.
    by eapply (group_ready rg rc g (pc_cache_column_ids ctx)).
  - by rewrite Ep.
  - cbn [reader_new selection batch_size projection_columns] in F, Hw. rewrite Erows in F, Hw.
    rewrite (same_kept sb rg rc) in F by done. rewrite Ep in Hw.
    destruct (emitted_all_ok rg g projection_ids (kept (file_value rg) 0 n predicates l) items G)
      as (batches & -> & Fr); [|done|by exists batches, s'].
    rewrite Forall_forall in Fc |- *. intros c Hc. by apply Fc, Hproj.
Qed.

(** ** The state machine *)

Context (fuel : nat).

Local Abbreviation turn := (poll_turn squeeze_policy hydration_policy bmi2 bs metadata).
Local Abbreviation poll := (poll_next squeeze_policy hydration_policy bmi2 bs metadata).

(** A poll answers, whatever the bounds on the turns of the loops are, from some
    number on. *)
Definition polls (st : LiquidStream) (s : LiquidCache) (item : option RecordBatch)
    (st' : LiquidStream) (s' : LiquidCache) : Prop :=
  ∃ n0, ∀ turns rounds, n0 <= turns → n0 <= rounds → poll turns rounds fuel st s = Ret (item, st', s').

Fixpoint collects (batches : list RecordBatch) (st : LiquidStream) (s s' : LiquidCache) : Prop :=
  match batches with
  | [] => ∃ st', polls st s None st' s'
  | b :: batches => ∃ st1 s1, polls st s (Some b) st1 s1 ∧ collects batches st1 s1 s'
  end.

Lemma collects_collect batches st s s' :
  collects batches st s s' →
  ∃ n0, ∀ polls turns rounds, n0 <= polls → n0 <= turns → n0 <= rounds →
    collect_stream squeeze_policy hydration_policy bmi2 bs metadata polls turns rounds fuel st s = Ret (batches, s').
Proof.
  revert st s. induction batches as [|b batches IH]; intros st s.
  - intros (st' & n0 & H). exists (S n0). intros p t r Hp Ht Hr. destruct p as [|p]; [lia|]. cbn [collect_stream].
    by rewrite H by lia.
  - intros (st1 & s1 & (n0 & H) & (n1 & H1)%IH). exists (S (max n0 n1)). intros p t r Hp Ht Hr.
    destruct p as [|p]; [lia|]. cbn [collect_stream]. rewrite H by lia. run_step. by rewrite H1 by lia.
Qed.

(** A turn that goes on. *)
Definition again (st : LiquidStream) (s : LiquidCache) (st' : LiquidStream) (s' : LiquidCache) : Prop :=
  ∃ n0, ∀ rounds, n0 <= rounds → turn rounds fuel st s = Ret (Again, st', s').

Lemma again_polls st s st1 s1 item st' s' : again st s st1 s1 → polls st1 s1 item st' s' → polls st s item st' s'.
Proof.
  intros [n0 H] [n1 H1]. exists (S (max n0 n1)). intros t r Ht Hr. destruct t as [|t]; [lia|].
  cbn [poll_next]. rewrite H by lia. run_step. apply H1; lia.
Qed.

Lemma again_collects st s st1 s1 batches s' : again st s st1 s1 → collects batches st1 s1 s' → collects batches st s s'.
Proof.
  destruct batches as [|b batches]; cbn [collects].
  - intros H (st' & H'). exists st'. by eapply again_polls.
  - intros H (st2 & s2 & H' & Hc). exists st2, s2. split; [by eapply again_polls|done].
Qed.

Lemma ready_polls st s item st' s' :
  (∃ n0, ∀ rounds, n0 <= rounds → turn rounds fuel st s = Ret (Ready item, st', s')) → polls st s item st' s'.
Proof.
  intros [n0 H]. exists (S n0). intros t r Ht Hr. destruct t as [|t]; [lia|]. cbn [poll_next].
  by rewrite H by lia.
Qed.

(** The reader of a row group, polled until it ends, gives the items of
    [run_stream]. *)
Lemma reader_items rounds inner filter items (s s' : LiquidCache) :
  run_stream squeeze_policy hydration_policy bmi2 rounds fuel inner (fmap (M := list) liquid_predicate <$> filter) s
  = Ret (items, s') →
  match items with
  | [] => ∃ n0, ∀ r, n0 <= r →
      reader_poll squeeze_policy hydration_policy bmi2 r fuel (CacheReader (Some inner) filter) s
      = Ret (None, CacheReader None filter, s')
  | item :: items => ∃ inner1 s1 rounds1,
      (∃ n0, ∀ r, n0 <= r →
        reader_poll squeeze_policy hydration_policy bmi2 r fuel (CacheReader (Some inner) filter) s
        = Ret (Some item, CacheReader (Some inner1) filter, s1))
      ∧ run_stream squeeze_policy hydration_policy bmi2 rounds1 fuel inner1
          (fmap (M := list) liquid_predicate <$> filter) s1 = Ret (items, s')
  end.
Proof.
  revert inner items s. induction rounds as [|rounds IH]; intros inner items s E; [done|]. cbn [run_stream] in E.
  destruct (take_next_batch (selection inner) (batch_size inner)) as [[sel|] rest] eqn:Et.
  2: { injection E as <- <-. exists 1. intros [|r] Hr; [lia|]. cbn [reader_poll lr_state lr_row_filter]. by rewrite Et. }
  destruct (next_batch _ _ _ _ _ _ _ _) as [[[inner1 item] s1]| | |] eqn:En; try done. run_step.
  cbn [mbind outcome_mbind outcome_bind] in E.
  destruct (run_stream _ _ _ rounds _ inner1 _ s1) as [[items1 s2]| | |] eqn:Er; try done.
  cbn [mbind outcome_mbind outcome_bind] in E. destruct item as [item|].
  - injection E as <- <-. exists inner1, s1, rounds. split; [|done]. exists 1. intros [|r] Hr; [lia|].
    cbn [reader_poll lr_state lr_row_filter]. rewrite Et, En. done.
  - injection E as -> ->. specialize (IH inner1 items s1 Er). destruct items as [|i items].
    + destruct IH as [n0 H]. exists (S n0). intros [|r] Hr; [lia|].
      cbn [reader_poll lr_state lr_row_filter]. rewrite Et, En. run_step. apply H. lia.
    + destruct IH as (inner2 & s3 & rounds1 & [n0 H] & Hrun). exists inner2, s3, rounds1. split; [|done].
      exists (S n0). intros [|r] Hr; [lia|].
      cbn [reader_poll lr_state lr_row_filter]. rewrite Et, En. run_step. apply H. lia.
Qed.

Lemma read_collects rounds inner filter items st r (s s' s'' : LiquidCache) rest :
  run_stream squeeze_policy hydration_policy bmi2 rounds fuel inner (fmap (M := list) liquid_predicate <$> filter) s
  = Ret (Ok <$> items, s') →
  ls_state st = ReadFromCache (CacheReader (Some inner) filter) → ls_reader st = Some r →
  collects rest (set_reader (Some (set_filter filter r)) (set_state Init st)) s' s'' →
  collects (items ++ rest) st s s''.
Proof.
  revert rounds inner st s. induction items as [|b items IH]; intros rounds inner st s Hrun Hst Hr Hc.
  - apply reader_items in Hrun as [n0 H]. cbn [app].
    eapply again_collects; [|exact Hc]. exists n0. intros rr Hrr. unfold poll_turn. rewrite Hst.
    rewrite H by done. run_step. cbn [ls_reader set_state]. rewrite Hr. done.
  - apply reader_items in Hrun as (inner1 & s1 & rounds1 & [n0 H] & Hrun).
    cbn [app collects]. exists (set_state (ReadFromCache (CacheReader (Some inner1) filter)) (set_state Init st)), s1.
    split.
    + apply ready_polls. exists n0. intros rr Hrr. unfold poll_turn. rewrite Hst. by rewrite H by done.
    + eapply (IH rounds1 inner1); [exact Hrun|done|exact Hr|exact Hc].
Qed.

(** ** The whole file *)

(** The rows to be read, row group after row group. *)
Definition group_selection (rg : Z) (sel : option (list bool)) : list bool :=
  match sel with Some l => take (group_size rg) l | None => replicate (group_size rg) true end.

Fixpoint expected (predicates : list LiquidPredicate) (row_groups : list Z) (sel : option (list bool))
    (offset limit : option Z) : list (Z * (nat * list bool)) :=
  match row_groups with
  | [] => []
  | rg :: row_groups =>
      let l := group_selection rg sel in
      (pair rg <$> kept (file_value rg) 0 n predicates (planned_rows offset limit l))
      ++ expected predicates row_groups (drop (group_size rg) <$> sel) (offset_left offset l)
           (limit_left offset limit l)
  end.

Definition stream_cost (predicates : list LiquidPredicate) (columns : list Z) (row_groups : list Z) : Z :=
  foldr (λ rg c, group_cost predicates columns rg + c)%Z 0%Z row_groups.

Definition sel_rows (sel : option RowSelection) : option (list bool) := (λ s, rows (rs_selectors s)) <$> sel.

Lemma cache_ids_bound mask ids : get_root_column_ids schema mask = Ret ids → List.length ids <= List.length fields.
Proof.
  intros E. destruct (fo_schema FO) as [D _]. destruct (get_root_column_ids_ok schema mask D) as (x & Ex & S & _).
  rewrite E in Ex. injection Ex as <-. pose proof (columns_in _ _ E) as F.
  assert (List.length (seqZ 0 (Z.of_nat (List.length fields))) = List.length fields) as <-
    by (rewrite length_seqZ; lia).
  apply submseteq_length, NoDup_submseteq; [by apply sorted_lt_NoDup|]. intros c Hc.
  rewrite Forall_forall in F. specialize (F c Hc). unfold column_in in F. apply elem_of_seqZ. lia.
Qed.

(** Where a plan leaves the stream. *)
Definition after_plan (plan : option PlanningContext) (r : ReaderFactory) (st : LiquidStream) : LiquidStream :=
  match plan with
  | None => st
  | Some ctx =>
      match pc_missing_batches ctx, pc_cache_column_ids ctx with
      | _ :: _, _ :: _ => set_state (FillCache r ctx) (set_reader None st)
      | _, _ => read_from_cache_state r ctx st
      end
  end.

(** From the plan of a row group to the reader of its rows: the cache is filled
    unless nothing is missing. *)
Lemma fill_or_read rg rc projection_ids filter sb l ctx ks missing st r (s : LiquidCache) m :
  planned rg rc projection_ids filter sb l m ctx ks missing →
  group_rows rg rc → List.length l <= Z.to_nat rc → cache_inv None s m → cells_ok m → depth <= fuel →
  (weight s + fill_cost missing (pc_cache_column_ids ctx) + 3 < Z.of_nat fuel)%Z →
  ∃ s' m', grown s m s' m' (fill_cost missing (pc_cache_column_ids ctx))
    ∧ (∀ k col, k ∈ ks → col ∈ pc_cache_column_ids ctx → has_cell m' rg col k)
    ∧ ∀ batches s'',
        collects batches (read_from_cache_state r ctx st) s' s'' →
        collects batches (after_plan (Some ctx) r st) s s''.
Proof.
  intros Pl Hg Hl I A Hd Hf. unfold after_plan.
  assert (0 <= fill_cost missing (pc_cache_column_ids ctx))%Z as Hc0 by (unfold fill_cost; lia).
  assert (∀ k col, k ∈ ks → col ∈ pc_cache_column_ids ctx → missing = [] ∨ pc_cache_column_ids ctx = [] →
            has_cell m rg col k) as Hskip.
  { intros k col Hk Hc [E|E].
    - apply (pl_cells _ _ _ _ _ _ _ _ _ _ Pl); [done|rewrite E; apply not_elem_of_nil|done].
    - rewrite E in Hc. by apply elem_of_nil in Hc. }
  destruct (pc_missing_batches ctx) as [|b bs'] eqn:Em.
  { exists s, m. assert (missing = []) as E0.
    { pose proof (pl_missing _ _ _ _ _ _ _ _ _ _ Pl) as E. rewrite Em in E. by destruct missing. }
    split_and!; [by apply grown_refl|intros; by apply Hskip; auto|done]. }
  destruct (pc_cache_column_ids ctx) as [|c cs] eqn:Ec.
  { exists s, m. split_and!; [by apply grown_refl|intros; apply Hskip; auto|done]. }
  rewrite <- Ec in *.
  destruct (group_batch_bound rg rc Hg) as [Hn _].
  destruct (fill_cache_ok fuel rg rc ctx missing s m I A) as (s' & m' & Hfill & Gr & Hcells).
  - apply (pl_cached _ _ _ _ _ _ _ _ _ _ Pl).
  - done.
  - done.
  - apply (pl_group _ _ _ _ _ _ _ _ _ _ Pl).
  - apply (pl_missing _ _ _ _ _ _ _ _ _ _ Pl).
  - apply (pl_cache _ _ _ _ _ _ _ _ _ _ Pl).
  - apply (pl_sorted _ _ _ _ _ _ _ _ _ _ Pl).
  - apply Forall_forall. intros k Hk. apply (pl_touched _ _ _ _ _ _ _ _ _ _ Pl) in Hk.
    apply (bo_elem _ _ _ (pl_batches _ _ _ _ _ _ _ _ _ _ Pl)), touches_bound in Hk; [lia|done].
  - done.
  - exists s', m'. split_and!; [done| |].
    + intros k col Hk Hc. destruct (decide (k ∈ missing)) as [Hin|Hin]; [by apply Hcells|].
      eapply has_cell_grown; [exact Gr|]. by apply (pl_cells _ _ _ _ _ _ _ _ _ _ Pl).
    + intros batches s'' Hc. eapply again_collects; [|exact Hc]. exists 0. intros rr _.
      unfold poll_turn. cbn [ls_state set_state]. by rewrite Hfill.
Qed.

Lemma fill_cost_bound missing cols pieces :
  List.length missing <= pieces → List.length cols <= List.length fields →
  (fill_cost missing cols <= Z.of_nat pieces * (7 * Z.of_nat (List.length fields)))%Z.
Proof. intros H1 H2. unfold fill_cost. nia. Qed.

(** A stream about to plan its next row group. *)
Definition at_init (st : LiquidStream) (r : ReaderFactory) : Prop :=
  ls_state st = Init ∧ ls_reader st = Some r.

Lemma start_turn rg rc row_groups st r plan r' (s s1 : LiquidCache) :
  group_rows rg rc → at_init st r → ls_row_groups st = rg :: row_groups →
  plan_row_group bs metadata r rg (fst <$> (rs_split_off rc <$> ls_selection st)) (ls_projection st)
    (ls_batch_size st) s = Ret (plan, r', s1) →
  again st s
    (after_plan plan r'
       (set_reader (Some r') (set_rest row_groups (snd <$> (rs_split_off rc <$> ls_selection st)) st))) s1.
Proof.
  intros Hg [Hst Hr] Hrg Hplan. exists 0. intros rounds _. unfold poll_turn. rewrite Hst. unfold start_row_group.
  cbn [ls_row_groups set_state]. rewrite Hrg, (row_group_rows_ok rg rc Hg). run_step.
  cbn [ls_selection set_state set_rest ls_reader ls_projection ls_batch_size].
  rewrite Hr. cbn [expect]. run_step. rewrite Hplan. run_step.
  assert (set_reader (Some r') (set_rest row_groups (snd <$> (rs_split_off rc <$> ls_selection st)) (set_state Init st))
          = set_reader (Some r') (set_rest row_groups (snd <$> (rs_split_off rc <$> ls_selection st)) st)) as ->
    by (unfold set_reader, set_rest, set_state; cbn; by rewrite Hst).
  destruct plan as [ctx|]; [|done]. cbn [after_plan].
  by destruct (pc_missing_batches ctx), (pc_cache_column_ids ctx).
Qed.

(** Filling the cache for a row group and reading it cost no more than planned. *)
Lemma group_budget rg rc projection_ids filter sb l m ctx ks missing predicates :
  planned rg rc projection_ids filter sb l m ctx ks missing → group_rows rg rc → List.length l <= Z.to_nat rc →
  (0 <= fill_cost missing (pc_cache_column_ids ctx)
   ∧ 0 <= Z.of_nat (pieces n l) * batch_cost predicates projection_ids
   ∧ fill_cost missing (pc_cache_column_ids ctx) + Z.of_nat (pieces n l) * batch_cost predicates projection_ids
     <= group_cost predicates projection_ids rg)%Z.
Proof.
  intros Pl Hg Hl. destruct (group_rows_in rg rc Hg) as [Hsz _]. destruct (group_batch_bound rg rc Hg) as [Hn _].
  assert (List.length missing <= (group_size rg + (n - 1)) / n) as Hlm.
  { apply batches_in_bound; [done|by apply sorted_NoDup, (pl_sorted _ _ _ _ _ _ _ _ _ _ Pl)|].
    apply Forall_forall. intros k Hk%(pl_touched _ _ _ _ _ _ _ _ _ _ Pl).
    apply (bo_elem _ _ _ (pl_batches _ _ _ _ _ _ _ _ _ _ Pl)), touches_bound in Hk; [lia|done]. }
  pose proof (fill_cost_bound missing _ _ Hlm (cache_ids_bound _ _ (pl_cache _ _ _ _ _ _ _ _ _ _ Pl))) as Hfc.
  pose proof (pieces_bound n l _ Hl) as Hpb. rewrite <- Hsz in Hpb.
  assert (0 <= batch_cost predicates projection_ids)%Z as Hc0 by (unfold batch_cost; lia).
  assert (Z.of_nat (pieces n l) * batch_cost predicates projection_ids
          <= Z.of_nat ((group_size rg + (n - 1)) / n) * batch_cost predicates projection_ids)%Z as Hpc
    by (apply Z.mul_le_mono_nonneg_r; lia).
  split_and!; [unfold fill_cost; lia|lia|unfold group_cost; lia].
Qed.

(** One row group: its rows are read, and the stream is left at the next one. *)
Lemma group_collects rg rc row_groups projection_ids st r (s : LiquidCache) m :
  let filter := rf_filter r in
  let predicates := filter_of (fmap (M := list) liquid_predicate <$> filter) in
  let sel := sel_rows (ls_selection st) in
  let l := group_selection rg sel in
  let l' := planned_rows (rf_offset r) (rf_limit r) l in
  cache_inv None s m → cells_ok m → depth <= fuel → group_rows rg rc →
  at_init st r → ls_row_groups st = rg :: row_groups → rf_cached_file r = File file_id fields →
  limits_ok (rf_offset r) (rf_limit r) → batch_size_ok (ls_batch_size st) →
  get_root_column_ids schema (ls_projection st) = Ret projection_ids → Forall filter_ok (default [] filter) →
  (weight s + group_cost predicates projection_ids rg + 3 < Z.of_nat fuel)%Z →
  ∃ batches s' m', grown s m s' m' (group_cost predicates projection_ids rg)
    ∧ Forall2 (read_ok projection_ids) (pair rg <$> kept (file_value rg) 0 n predicates l') batches
    ∧ ∀ rest s'',
        collects rest
          (set_reader (Some (factory_left r l))
             (set_rest row_groups (snd <$> (rs_split_off rc <$> ls_selection st)) st)) s' s'' →
        collects (batches ++ rest) st s s''.
Proof.
  intros filter predicates sel l l' I A Hd Hg [Hst Hr] Hrg Hfile Hlim Hsb Epr Ff Hf.
  destruct (fo_rows FO rg rc Hg) as (Hrc & _ & H63). destruct (group_rows_in rg rc Hg) as [Hsz _].
  destruct (group_batch_bound rg rc Hg) as [Hn H16]. pose proof (fo_bs FO) as Hbs.
  set (split := rs_split_off rc <$> ls_selection st).
  assert (match fst <$> split with Some s => rows (rs_selectors s) | None => replicate (Z.to_nat rc) true end = l) as El.
  { unfold split, l, group_selection, sel, sel_rows. destruct (ls_selection st) as [s0|]; cbn.
    - rewrite Hsz. by apply read_split_off.
    - by rewrite Hsz. }
  assert (List.length l <= Z.to_nat rc) as Hl.
  { unfold l, group_selection. rewrite Hsz. destruct sel; rewrite ?length_take, ?length_replicate; lia. }
  destruct (plan_row_group_ok r rg rc (fst <$> split) (ls_projection st) projection_ids (ls_batch_size st) s m I Hg
              Hfile Hlim) as (ctx & s1 & Hplan & I1 & Hw1 & Hctx); [by rewrite El|done|done|].
  rewrite El in Hplan, Hctx. fold l' in Hplan, Hctx.
  assert (List.length l' <= Z.to_nat rc) as Hl' by (transitivity (List.length l); [apply planned_length|done]).
  set (r' := factory_left r l) in *.
  set (st0 := set_reader (Some r') (set_rest row_groups (snd <$> split) st)).
  pose proof (start_turn rg rc row_groups st r _ r' s s1 Hg (conj Hst Hr) Hrg Hplan) as Hturn.
  fold split in Hturn. fold st0 in Hturn.
  assert (0 <= batch_cost predicates projection_ids)%Z as Hc0 by (unfold batch_cost; lia).
  assert (0 <= group_cost predicates projection_ids rg)%Z as Hc1 by (unfold group_cost; lia).
  destruct (decide (count_set l' = 0)) as [E0|E0].
  { exists [], s1, m. rewrite kept_zero by done. split_and!; [split; (done || lia)|constructor|].
    intros rest s'' Hc. cbn [app]. eapply again_collects; [exact Hturn|exact Hc]. }
  destruct (Hctx E0) as (ks & missing & Pl).
  destruct (group_budget rg rc _ _ _ l' m ctx ks missing predicates Pl Hg Hl') as (Hc2 & Hc3 & Hcost).
  destruct (fill_or_read rg rc projection_ids (rf_filter r) (ls_batch_size st) l' ctx ks missing st0 r' s1 m Pl Hg Hl' I1 A Hd)
    as (s2 & m2 & Gr & Hcells & Hfill); [lia|].
  destruct (read_group_ok fuel rg rc projection_ids (rf_filter r) (ls_batch_size st) l' m ctx ks missing s2 m2 Pl Hg Hsb Hl' E0 Ff
              (gr_inv _ _ _ _ _ Gr) (gr_cells _ _ _ _ _ Gr) Hcells) as (batches & s3 & Hrun & I3 & Hw3 & F).
  { pose proof (gr_weight _ _ _ _ _ Gr). fold filter predicates. lia. }
  exists batches, s3, m2. split_and!; [|exact F|].
  { split; [done|apply (gr_cells _ _ _ _ _ Gr)|apply (gr_more _ _ _ _ _ Gr)|].
    pose proof (gr_weight _ _ _ _ _ Gr). fold filter predicates in Hw3. lia. }
  intros rest s'' Hc. eapply again_collects; [exact Hturn|].
  apply Hfill.
  eapply read_collects; [exact Hrun| |done|].
  - unfold read_from_cache_state, cache_reader_new. cbn [ls_state set_state].
    by rewrite (pl_batch_size _ _ _ _ _ _ _ _ _ _ Pl), (pl_projection _ _ _ _ _ _ _ _ _ _ Pl).
  - assert (set_reader (Some (set_filter (rf_filter r) (set_filter None r')))
              (set_state Init (read_from_cache_state r' ctx st0)) = st0) as ->; [|exact Hc].
    unfold st0, r', factory_left. unfold set_reader, set_state, set_rest, read_from_cache_state. cbn. by rewrite Hst.
Qed.

Lemma sel_rows_left rg rc (sel : option RowSelection) :
  group_rows rg rc →
  sel_rows (snd <$> (rs_split_off rc <$> sel)) = drop (group_size rg) <$> sel_rows sel.
Proof.
  intros Hg. destruct (fo_rows FO rg rc Hg) as (Hrc & _). destruct (group_rows_in rg rc Hg) as [-> _].
  destruct sel as [s0|]; [|done]. cbn. f_equal. by apply read_split_off.
Qed.

Lemma stream_cost_nonneg predicates columns row_groups : (0 <= stream_cost predicates columns row_groups)%Z.
Proof.
  unfold stream_cost. induction row_groups as [|rg row_groups IH]; cbn [foldr]; [lia|].
  assert (0 <= group_cost predicates columns rg)%Z; [|lia]. unfold group_cost, batch_cost.
  apply Z.mul_nonneg_nonneg; [apply Nat2Z.is_nonneg|lia].
Qed.

Lemma stream_collects row_groups projection_ids st r (s : LiquidCache) m :
  let filter := rf_filter r in
  let predicates := filter_of (fmap (M := list) liquid_predicate <$> filter) in
  cache_inv None s m → cells_ok m → depth <= fuel → Forall (λ rg, ∃ rc, group_rows rg rc) row_groups →
  at_init st r → ls_row_groups st = row_groups → rf_cached_file r = File file_id fields →
  limits_ok (rf_offset r) (rf_limit r) → batch_size_ok (ls_batch_size st) →
  get_root_column_ids schema (ls_projection st) = Ret projection_ids → Forall filter_ok (default [] filter) →
  (weight s + stream_cost predicates projection_ids row_groups + 3 < Z.of_nat fuel)%Z →
  ∃ batches s' m', grown s m s' m' (stream_cost predicates projection_ids row_groups)
    ∧ Forall2 (read_ok projection_ids)
        (expected predicates row_groups (sel_rows (ls_selection st)) (rf_offset r) (rf_limit r)) batches
    ∧ collects batches st s s'.
Proof.
  intros filter predicates I A Hd F. revert st r filter predicates s m I A.
  induction F as [|rg row_groups [rc Hg] F IH]; intros st r filter predicates s m I A [Hst Hr] Hrg Hfile Hlim Hsb Epr Ff Hf.
  { exists [], s, m. split_and!; [by apply grown_refl|constructor|]. exists (set_state Init st).
    apply ready_polls. exists 0. intros rounds _. unfold poll_turn. rewrite Hst. unfold start_row_group.
    cbn [ls_row_groups set_state]. by rewrite Hrg. }
  pose proof (stream_cost_nonneg predicates projection_ids row_groups) as Hsc.
  cbn [stream_cost foldr] in Hf |- *. fold (stream_cost predicates projection_ids row_groups) in Hf |- *.
  destruct (group_collects rg rc row_groups projection_ids st r s m I A Hd Hg (conj Hst Hr) Hrg Hfile Hlim Hsb Epr Ff)
    as (batches & s1 & m1 & G1 & F1 & Hcol).
  { fold filter predicates. lia. }
  set (l := group_selection rg (sel_rows (ls_selection st))) in *.
  set (st1 := set_reader (Some (factory_left r l)) (set_rest row_groups (snd <$> (rs_split_off rc <$> ls_selection st)) st)) in *.
  pose proof (gr_weight _ _ _ _ _ G1) as Hw1. fold filter predicates in Hw1.
  destruct (IH st1 (factory_left r l) s1 m1 (gr_inv _ _ _ _ _ G1) (gr_cells _ _ _ _ _ G1))
    as (batches2 & s2 & m2 & G2 & F2 & Hcol2); try done.
  - by apply limits_left_ok.
  - cbn [rf_filter factory_left]. fold filter predicates. lia.
  - exists (batches ++ batches2), s2, m2. split_and!.
    + by eapply grown_trans.
    + cbn [expected]. apply Forall2_app; [exact F1|]. cbn [factory_left rf_filter rf_offset rf_limit] in F2.
      rewrite <- (sel_rows_left rg rc) by done. exact F2.
    + apply Hcol, Hcol2.
Qed.

(** The row groups a builder asks for. *)
Definition builder_groups (b : LiquidStreamBuilder) : list Z :=
  default (seqZ 0 (Z.of_nat (List.length (md_row_groups metadata)))) (sb_row_groups b).

Lemma stream_build_ok b projection_ids :
  get_root_column_ids schema (sb_projection b) = Ret projection_ids →
  Forall (λ rg, ∃ rc, group_rows rg rc) (builder_groups b) →
  ∃ st, stream_build metadata b (File file_id fields) = Ret (Ok st)
    ∧ at_init st (Factory (sb_filter b) (sb_limit b) (sb_offset b) (File file_id fields))
    ∧ ls_row_groups st = builder_groups b ∧ ls_projection st = sb_projection b
    ∧ ls_selection st = sb_selection b
    ∧ ls_batch_size st = Z.min (sb_batch_size b) (usize (md_num_rows metadata)).
Proof.
  intros Epr F. unfold stream_build, builder_groups in *.
  assert (match sb_row_groups b with
          | Some row_groups =>
              match List.find (λ x, (x >=? Z.of_nat (List.length (md_row_groups metadata)))%Z) row_groups with
              | Some _ => None | None => Some row_groups end
          | None => Some (seqZ 0 (Z.of_nat (List.length (md_row_groups metadata))))
          end = Some (default (seqZ 0 (Z.of_nat (List.length (md_row_groups metadata)))) (sb_row_groups b))) as ->.
  { destruct (sb_row_groups b) as [row_groups|]; [|done]. cbn in F |- *.
    destruct (List.find _ row_groups) as [x|] eqn:E; [|done]. apply find_some in E as [Hin Hx].
    rewrite Forall_forall in F. destruct (F x) as [rc Hg]; [by apply list_elem_of_In|].
    destruct (group_rows_in x rc Hg) as [_ ?]. lia. }
  rewrite Epr. run_step. eexists. by split_and!.
Qed.

(** What a request for the file must be: existing row groups, predicates as
    above, and the batch size of the cache. *)
Record request_ok (b : LiquidStreamBuilder) (projection_ids : list Z) : Prop := {
  rq_projection : get_root_column_ids schema (sb_projection b) = Ret projection_ids;
  rq_filter : Forall filter_ok (default [] (sb_filter b));
  rq_groups : Forall (λ rg, ∃ rc, group_rows rg rc) (builder_groups b);
  rq_limits : limits_ok (sb_offset b) (sb_limit b);
  rq_batch_size : sb_batch_size b = bs
}.

Lemma request_batch_size b projection_ids rg rc :
  request_ok b projection_ids → group_rows rg rc →
  batch_size_ok (Z.min (sb_batch_size b) (usize (md_num_rows metadata))).
Proof.
  intros Rq Hg. rewrite (rq_batch_size _ _ Rq). pose proof (fo_bs FO).
  destruct (fo_total FO rg rc Hg) as [H1 H2]. destruct (fo_rows FO rg rc Hg) as [H0 _].
  rewrite usize_id by lia. destruct (decide (bs <= md_num_rows metadata)%Z).
  - left. lia.
  - right. split; [lia|]. intros rg' rc' Hg'. pose proof (fo_total FO rg' rc' Hg'). lia.
Qed.

Lemma stream_of_request b projection_ids (s : LiquidCache) m :
  let predicates := filter_of (fmap (M := list) liquid_predicate <$> sb_filter b) in
  cache_inv None s m → cells_ok m → depth <= fuel → request_ok b projection_ids →
  (weight s + stream_cost predicates projection_ids (builder_groups b) + 3 < Z.of_nat fuel)%Z →
  ∃ st batches s' m', stream_build metadata b (File file_id fields) = Ret (Ok st)
    ∧ collects batches st s s' ∧ cache_inv None s' m' ∧ cells_ok m' ∧ m ⊆ m'
    ∧ Forall2 (read_ok projection_ids)
        (expected predicates (builder_groups b) (sel_rows (sb_selection b)) (sb_offset b) (sb_limit b)) batches.
Proof.
  intros predicates I A Hd Rq Hf.
  destruct (stream_build_ok b projection_ids (rq_projection _ _ Rq) (rq_groups _ _ Rq))
    as (st & Hb & Hinit & Hgr & Hpr & Hsel & Hbs).
  destruct (decide (builder_groups b = [])) as [E0|E0].
  { exists st, [], s, m. rewrite E0. split_and!; try done. exists (set_state Init st).
    apply ready_polls. exists 0. intros rounds _. destruct Hinit as [Hst Hr]. unfold poll_turn.
    rewrite Hst. unfold start_row_group. cbn [ls_row_groups set_state]. by rewrite Hgr, E0. }
  pose proof (rq_groups _ _ Rq) as F.
  assert (∃ rg rc, group_rows rg rc) as (rg & rc & Hg).
  { destruct (builder_groups b) as [|rg gs]; [done|]. apply Forall_cons in F as [[rc Hg] _]. eauto. }
  destruct (stream_collects (builder_groups b) projection_ids st
              (Factory (sb_filter b) (sb_limit b) (sb_offset b) (File file_id fields)) s m I A Hd F Hinit Hgr)
    as (batches & s' & m' & G & F2 & Hc); try done.
  - apply (rq_limits _ _ Rq).
  - rewrite Hbs. by eapply request_batch_size.
  - rewrite Hpr. apply (rq_projection _ _ Rq).
  - apply (rq_filter _ _ Rq).
  - rewrite Hsel in F2. exists st, batches, s', m'.
    split_and!; [done|done|apply (gr_inv _ _ _ _ _ G)|apply (gr_cells _ _ _ _ _ G)|apply (gr_more _ _ _ _ _ G)|done].
Qed.
End stream.
