(* ===== verification/StreamSound.v ===== *)
(** * The stream of a file, end to end

    A file of two row groups with a decoder that satisfies the classes of
    [Stream.v] (selections are runs), and the theorems about [LiquidStream]: what
    a stream returns, how offsets and limits go from one row group to the next,
    and where it goes wrong. *)

From stdpp Require Import base list gmap strings sorting.
From Stdlib Require Import ZArith String Sorted Lia.
From S2P Require Import Prelude CachePolicy LiquidPolicy CivilDate DataTypes Expressions Budget BooleanBuffers AndThen.
From S2P Require Import Formats SampleFormats Observer CacheEntry Transcode Squeeze Hydration Core.
From S2P Require Import Builders CoreInv CoreOps CoreReads ParquetIds RowSelection ColumnCache Reader.
From S2P Require Import ReaderSpec RowFilter Stream StreamRows StreamSpec.

(** ** Selections as runs *)

Definition runs_of (l : list bool) : list RowSelector := (λ b, Selector 1 (negb b)) <$> l.

Lemma runs_of_ok l : (Z.of_nat (List.length l) < 2 ^ 64)%Z → counted (runs_of l) ∧ rows (runs_of l) = l.
Proof.
  intros Hl.
  assert (Forall (λ s, 0 <= row_count s)%Z (runs_of l)) as F.
  { apply Forall_fmap, Forall_forall. intros b _. cbn. lia. }
  assert (rows (runs_of l) = l) as Er.
  { clear Hl F. induction l as [|b l IH]; [done|]. change (runs_of (b :: l)) with (Selector 1 (negb b) :: runs_of l).
    rewrite rows_cons, IH. unfold rows_of. cbn. by rewrite negb_involutive. }
  split; [|done]. split; [done|]. rewrite <- rows_length, Er; [lia|done].
Qed.

#[export] Instance run_reads : RowSelectionReads := {
  rs_row_count s := Z.of_nat (count_set (rows (rs_selectors s)));
  rs_selects_any s := bool_decide (count_set (rows (rs_selectors s)) ≠ 0);
  rs_split_off n s :=
    (rs_from (runs_of (take (Z.to_nat n) (rows (rs_selectors s)))),
     rs_from (runs_of (drop (Z.to_nat n) (rows (rs_selectors s)))))
}.

#[export] Instance run_read_laws : RowSelectionReadLaws.
Proof.
  split; [done|done|]. intros n s _. pose proof (rs_counted s) as [F Ht].
  pose proof (rows_length _ F) as Hl. cbn [rs_split_off run_reads fst snd].
  split; rewrite rs_from_rows; apply runs_of_ok; rewrite ?length_take, ?length_drop; lia.
Qed.

(** ** A decoder *)

Lemma ceil_div_lt w c i : 0 < w → i < (c + (w - 1)) / w ↔ i * w < c.
Proof.
  intros Hw. pose proof (Nat.Div0.mul_div_le (c + (w - 1)) w) as H. split.
  - intros Hi. assert (w * S i <= w * ((c + (w - 1)) / w)) by (apply Nat.mul_le_mono_l; lia). lia.
  - intros Hi. assert (S i <= (c + (w - 1)) / w); [|lia]. apply Nat.div_le_lower_bound; lia.
Qed.

Section decoder.
Context (bs : Z) (metadata : ParquetMetaData) (contents : Z → Z → sarr).

Local Abbreviation n := (Z.to_nat bs).

Definition decode_batch (rg : Z) (ids : list Z) (l : list bool) (i : nat) : nat * list sarr :=
  (count_set (chunk n i l), (λ col, sfilter (contents rg col) (chunk n i l)) <$> ids).

Definition decode_group (mask : option (list bool)) (rg : Z) (sel : RowSelection) (batch_size : Z)
    : result (list (result (nat * list sarr))) :=
  match get_root_column_ids (md_schema metadata) mask with
  | Ret ids =>
      let rc := default 0%Z (md_row_groups metadata !! Z.to_nat rg) in
      let l := resize (Z.to_nat rc) false (rows (rs_selectors sel)) in
      Ok (Ok <$> (decode_batch rg ids l <$> seq 0 ((count_set l + (n - 1)) / n)))
  | _ => Err
  end.

Definition sample_decoder : ParquetDecoder (RB := sample_batches) := {|
  parquet_stream := decode_group;
  rb_num_rows := (λ b : nat * list sarr, Z.of_nat b.1);
  rb_columns := (λ b : nat * list sarr, b.2)
|}.

(** There is a selected row of every rank. *)
Lemma row_of_rank (l : list bool) t :
  t < count_set l → ∃ j, l !! j = Some true ∧ count_set (take j l) = t.
Proof.
  revert t. induction l as [|b l IH]; intros t Ht; [cbn in Ht; lia|]. rewrite count_set_cons in Ht.
  destruct b; [destruct t as [|t]|].
  - by exists 0.
  - destruct (IH t) as (j & Hj & Hc); [lia|]. exists (S j). split; [done|]. cbn [take]. rewrite count_set_cons. lia.
  - destruct (IH t) as (j & Hj & Hc); [lia|]. exists (S j). split; [done|]. cbn [take]. rewrite count_set_cons. lia.
Qed.

Lemma chunk_count i (l : list bool) : 0 < n → i * n < count_set l → 0 < count_set (chunk n i l).
Proof.
  intros Hn Hi. destruct (row_of_rank l (i * n) Hi) as (j & Hj & Hc).
  assert (chunk n i l !! j = Some true) as H.
  { unfold chunk. rewrite list_lookup_imap, Hj. cbn. f_equal. rewrite Hc. apply bool_decide_eq_true.
    apply Nat.div_mul. lia. }
  pose proof (count_take_le (chunk n i l) (S j)) as Hle.
  rewrite (take_S_r _ _ _ H), count_set_app in Hle. rewrite count_set_cons in Hle. lia.
Qed.

Lemma sample_decode_ok mask rg rc sel ids :
  (0 < bs)%Z → md_row_groups metadata !! Z.to_nat rg = Some rc →
  get_root_column_ids (md_schema metadata) mask = Ret ids →
  (∀ col, dictionary_supported (to_dt (sa_type (contents rg col))) = true) →
  let l := resize (Z.to_nat rc) false (rows (rs_selectors sel)) in
  ∃ items, parquet_stream (ParquetDecoder := sample_decoder) mask rg sel bs = Ok (Ok <$> items)
    ∧ (∀ i, i < List.length items ↔ i * n < count_set l)
    ∧ ∀ i b, items !! i = Some b →
        (0 < rb_num_rows (ParquetDecoder := sample_decoder) b)%Z
        ∧ Forall2 (decoded_array (FL := sample_laws) contents 1 rg (chunk n i l)) ids
            (rb_columns (ParquetDecoder := sample_decoder) b).
Proof.
  intros Hbs Hrg Eids Hsup l. cbn [parquet_stream sample_decoder]. unfold decode_group. rewrite Eids, Hrg.
  cbn [default]. change (default 0%Z (Some rc)) with rc. fold l. eexists. split; [done|].
  assert (0 < n) as Hn by lia.
  assert (∀ i, i < (count_set l + (n - 1)) / n ↔ i * n < count_set l) as Hi by (intros i; by apply ceil_div_lt).
  split.
  - intros i. by rewrite length_fmap, length_seq.
  - intros i b (j & -> & [-> Hj]%lookup_seq)%list_lookup_fmap_Some_1. cbn [Nat.add] in *. split.
    + apply Hi in Hj. pose proof (chunk_count i l Hn Hj).
      change (0 < Z.of_nat (count_set (chunk n i l)))%Z. lia.
    + cbn [rb_columns sample_decoder decode_batch snd]. apply Forall2_fmap_r, Forall_Forall2_diag, Forall_forall.
      intros col _. split_and!; [done|apply Hsup|cbn; lia].
Qed.
End decoder.

(** ** A file *)

Definition stream_metadata : ParquetMetaData := MetaData [5; 3]%Z 8 (Descriptor 2 [0; 1]).

Definition stream_contents (rg col : Z) : sarr :=
  match rg, col with
  | 0%Z, 0%Z => SArr SInt64 [Some 5; None; Some 30; Some 12; Some 7]%Z
  | 0%Z, _ => SArr SDate32 [Some 1; Some 2; None; Some 4; Some 5]%Z
  | _, 0%Z => SArr SInt64 [Some 40; Some 2; Some 11]%Z
  | _, _ => SArr SDate32 [None; Some 9; Some 10]%Z
  end.

Definition stream_fields : list ParquetField :=
  [PField "n" TInt64 None false false None; PField "d" TDate32 None false false None].

#[export] Instance stream_decoder : ParquetDecoder (RB := sample_batches) :=
  sample_decoder 4 stream_metadata stream_contents.

(** [n > 10]. *)
Definition stream_predicate : FilterPredicate :=
  RowPredicate _ _ 10%Z 10%Z (mask_roots (md_schema stream_metadata) [0%Z]).

Lemma stream_file_ok : file_ok (FL := sample_laws) 4 stream_metadata stream_fields stream_contents 1.
Proof.
  assert (∀ rg rc, group_rows stream_metadata rg rc → rg = 0%Z ∧ rc = 5%Z ∨ rg = 1%Z ∧ rc = 3%Z) as Hgr.
  { intros rg rc [H0 H]. cbn in H. destruct (Z.to_nat rg) as [|[|k]] eqn:E; cbn in H; simplify_eq; [left|right]; lia. }
  split.
  - lia.
  - cbn. lia.
  - cbn. lia.
  - intros rg rc [[-> ->]|[-> ->]]%Hgr; (split_and!; [lia|reflexivity|reflexivity]).
  - intros rg rc [[-> ->]|[-> ->]]%Hgr; cbn; lia.
  - split; [|done]. repeat constructor.
  - repeat constructor.
  - intros rg rc col [[-> ->]|[-> ->]]%Hgr; cbn; by destruct col.
  - intros mask rg rc sel ids Hg Eids. apply sample_decode_ok; [lia|apply Hg|done|].
    intros col. apply Hgr in Hg as [[-> _]|[-> _]]; by destruct col.
Qed.

Lemma stream_filter_ok : filter_ok stream_metadata stream_fields stream_predicate.
Proof.
  split.
  - discriminate.
  - exists [0%Z]. split; [reflexivity|]. intros c H. exact H.
  - intros v _. done.
  - intros H. vm_compute in H. lia.
Qed.

(** ** Concrete runs *)

(** All the batches of a stream over an empty cache of 40 bytes. *)
Definition run_request {PD : ParquetDecoder (RB := sample_batches)} (metadata : ParquetMetaData)
    (fields : list ParquetField) (b : LiquidStreamBuilder) : option (list (nat * list sarr)) :=
  match stream_build metadata b (File 0 fields) with
  | Ret (Ok st) =>
      match
        collect_stream (LF := sample_liquid) (BB := byte_buffers) (P := LiquidQueueInternalState)
          TranscodeSqueezeEvict AlwaysHydrate false 4 metadata 10 10 200 200 st (cache_new 40)
      with
      | Ret (batches, _) => Some batches
      | _ => None
      end
  | _ => None
  end.

Definition demo_builder (limit : option Z) (filter : option (list FilterPredicate)) : LiquidStreamBuilder :=
  Builder 4 None (mask_roots (md_schema stream_metadata) [0; 1]%Z) filter None limit None.

(** A struct of two leaves, and two columns of numbers. *)
Definition nested_metadata : ParquetMetaData := MetaData [3]%Z 3 (Descriptor 3 [0; 0; 1; 2]).
Definition nested_fields : list ParquetField :=
  [PField "s" TBinary None false false None; PField "a" TInt64 None false false None;
   PField "b" TInt64 None false false None].
Definition nested_contents (rg col : Z) : sarr :=
  match col with
  | 1%Z => SArr SInt64 [Some 1; Some 20; Some 3]%Z
  | 2%Z => SArr SInt64 [Some 50; Some 2; Some 60]%Z
  | _ => SArr SOther [None; None; None]
  end.

(** [a > 10]. *)
Definition nested_predicate : FilterPredicate :=
  RowPredicate _ _ 10%Z 10%Z (mask_roots (md_schema nested_metadata) [1%Z]).

Definition nested_builder : LiquidStreamBuilder :=
  Builder 4 None (mask_roots (md_schema nested_metadata) [1; 2]%Z) (Some [nested_predicate]) None None None.

(** Expressions over the sample: [n > x]; from 100 on, a condition on a column that
    is not in the file; from 1000 on, the conjunction of two of these. *)
Definition sample_conjuncts (e : Z) : list Z :=
  if (e <? 1000)%Z then [e] else [((e / 1000) mod 1000)%Z; (e mod 1000)%Z].

Definition sample_node (e : Z) : VisitNode :=
  ExprNode [ColumnNode (if (e <? 100)%Z then "n" else "p"); ExprNode []].

#[export] Instance sample_filters : FilterLib := {
  split_conjunction := sample_conjuncts : PhysicalExpr → list PhysicalExpr;
  visit_tree := sample_node : PhysicalExpr → VisitNode;
  binary_op e := if bool_decide (e = (5%Z : PhysicalExpr)) then Some FEq else Some FGt;
  is_like_expr _ := false;
  is_nested t := match t with TStruct _ => true | _ => false end;
  index_of fields name := fst <$> list_find (λ f, pf_name f = name) fields;
  project_schema fields ids := Some (select_fields fields ids);
  map_schema projected _ file := Some (positions ((λ f, bool_decide (pf_name f ∈ pf_name <$> projected)) <$> file));
  reassign_expr_columns e _ := Some e
}.

Definition sample_true (e : Z) (cols : Z → sarr) (i : nat) : bool :=
  if (e <? 100)%Z then default false (nth i (seval e (cols 0%Z)) None) else false.

Lemma sample_conjunct_atomic e c : c ∈ sample_conjuncts e → sample_conjuncts c = [c].
Proof.
  unfold sample_conjuncts at 1. destruct (Z.ltb_spec e 1000) as [He|He].
  - intros ->%list_elem_of_singleton. unfold sample_conjuncts. by rewrite (proj2 (Z.ltb_lt _ _) He).
  - intros Hc. unfold sample_conjuncts. assert (c < 1000)%Z as Hlt.
    { apply elem_of_cons in Hc as [->| ->%list_elem_of_singleton]; apply Z.mod_pos_bound; lia. }
    by rewrite (proj2 (Z.ltb_lt _ _) Hlt).
Qed.

Lemma fmap_nth {A B} (f : A → B) l (d : A) : f <$> l = (λ i, f (nth i l d)) <$> seq 0 (List.length l).
Proof.
  apply list_eq. intros i. rewrite !list_lookup_fmap. destruct (decide (i < List.length l)) as [Hi|Hi].
  - rewrite lookup_seq_lt by done. cbn. rewrite nth_lookup. by destruct (lookup_lt_is_Some_2 l i Hi) as [x ->].
  - rewrite lookup_ge_None_2, lookup_seq_ge by lia. done.
Qed.

Lemma elem_select_names fields ids c :
  NoDup (pf_name <$> fields) → (0 <= c)%Z → Forall (λ c, 0 <= c < Z.of_nat (List.length fields))%Z ids →
  ∀ f, fields !! Z.to_nat c = Some f → pf_name f ∈ pf_name <$> select_fields fields ids ↔ c ∈ ids.
Proof.
  intros N Hc R f Hf. rewrite Forall_forall in R. unfold select_fields. split.
  - intros (f' & E & (c' & Hin & Hf')%list_elem_of_omap)%list_elem_of_fmap.
    assert (Z.to_nat c = Z.to_nat c') as Hcc.
    { apply (NoDup_lookup _ _ _ (pf_name f) N); rewrite list_lookup_fmap; [by rewrite Hf|by rewrite Hf', E]. }
    specialize (R c' Hin). assert (c = c') as -> by lia. done.
  - intros Hin. apply list_elem_of_fmap_2, list_elem_of_omap. by exists c.
Qed.

#[export] Instance sample_filter_laws : FilterLaws (FL := sample_laws) stream_fields.
Proof.
  refine {| etrue e cols i := forallb (λ c, sample_true c cols i) (sample_conjuncts e) |}.
  - intros e cols i. cbn [split_conjunction sample_filters]. apply eq_true_iff_eq.
    rewrite !forallb_forall. split; intros H c Hc.
    + rewrite (sample_conjunct_atomic e c) by by apply list_elem_of_In. cbn. by rewrite H.
    + specialize (H c Hc). rewrite (sample_conjunct_atomic e c) in H by by apply list_elem_of_In.
      cbn in H. by rewrite andb_true_r in H.
  - intros e c. apply sample_conjunct_atomic.
  - intros name i. cbn [index_of sample_filters]. intros ([i' f] & (Hf & Hn & _)%list_find_Some & ->)%fmap_Some.
    by exists f.
  - done.
  - intros ids N Hsort R. cbn [map_schema sample_filters]. f_equal. apply sorted_same; [apply positions_from_sorted|done|].
    intros c. rewrite elem_positions. pose proof R as R'. rewrite Forall_forall in R'. split.
    + intros (j & Hj & ->). rewrite list_lookup_fmap in Hj.
      destruct (stream_fields !! j) as [f|] eqn:Ef; [|done]. injection Hj as Hb%bool_decide_eq_true.
      apply (elem_select_names stream_fields ids (Z.of_nat j) N ltac:(lia) R f) in Hb; [done|by rewrite Nat2Z.id].
    + intros Hin. specialize (R' c Hin). exists (Z.to_nat c). split; [|lia]. rewrite list_lookup_fmap.
      destruct (lookup_lt_is_Some_2 stream_fields (Z.to_nat c)) as [f Ef]; [lia|]. rewrite Ef. cbn. f_equal.
      apply bool_decide_eq_true. by apply (elem_select_names stream_fields ids c N ltac:(lia) R f Ef).
  - intros e ids N Ea [Hsort Hne R K X]. exists e. split; [done|]. cbn [split_conjunction sample_filters] in Ea.
    cbn [visit_tree sample_filters sample_node columns_of List.map List.concat app] in K, X.
    apply Forall_cons in K as [K _].
    destruct (e <? 100)%Z eqn:He; [|done].
    assert (ids = [0%Z]) as ->.
    { apply sorted_same; [exact Hsort|by repeat constructor|]. intros c. rewrite X, list_elem_of_singleton. split.
      - intros (name & ->%list_elem_of_singleton & Hc). vm_compute in Hc. by injection Hc.
      - intros ->. exists "n". split; [by left|reflexivity]. }
    split; [|by intros c v [= <-]]. intros cols m Hm. apply Forall_inv in Hm.
    cbn [prows sample_batch_laws fmap list_fmap]. rewrite Ea. cbn in Hm.
    rewrite <- Hm. unfold prep_null_mask_filter.
    assert (List.length (sa_vals (cols 0%Z)) = List.length (seval e (cols 0%Z))) as -> by (unfold seval; by rewrite length_fmap).
    rewrite (fmap_nth _ (seval e (cols 0%Z)) None). apply list_fmap_ext. intros i x _. cbn [forallb].
    unfold sample_true. by rewrite He, andb_true_r.
Defined.

Lemma count_zero_rows (l : list bool) : count_set l = 0 → l = replicate (List.length l) false.
Proof.
  induction l as [|b l IH]; [done|]. rewrite count_set_cons. intros H. destruct b; [lia|]. cbn. f_equal. apply IH. lia.
Qed.

(** ** Properties *)

Section properties.
Context {AL : ArrowLib} {LF : LiquidFormats} {VL : VariantLib} {FL : FormatLaws}.
Context {RB : RecordBatches} {RL : RecordBatchLaws}.
Context {BB : BooleanBuffers} {BL : BooleanBufferLaws} {MB : MaskBuffers}.
Context {RS : RowSelections} {RSL : RowSelectionLaws} {RR : RowSelectionReads} {RRL : RowSelectionReadLaws}.
Context {PM : ProjectionMasks} {PML : ProjectionMaskLaws} {PD : ParquetDecoder}.
Context {P : Type} {CP : CachePolicy P} {PL : PolicyLaws P} {MO : MemoryOnlyPolicy P}.
Context (squeeze_policy : SqueezePolicy) (hydration_policy : HydrationPolicy) (bmi2 : bool).
Context {SL : SqueezeLaws squeeze_policy} {HL : HydrationLaws hydration_policy} {ML : MaskLaws bmi2}.
Context (bs : Z) (metadata : ParquetMetaData) (file_id : Z) (fields : list ParquetField).
Context (contents : Z → Z → Val) (depth : nat).
Context (FO : file_ok bs metadata fields contents depth).

(** C6: a stream over a readable file, read to its end, returns for every row group
    and every batch the rows of the projected columns that the selection, the
    offset, the limit and then every predicate keep, whatever part of the file was
    cached before, and ends without an error; the cache keeps its entries and holds
    nothing of the file that the file does not hold. A projected column with a date
    hint may hold the hinted component of each date in its place. Conditions: the
    stream's batch size is that of the cache (the code does not check it: see the
    findings); the cache policy gives out memory entries only (as [LiquidPolicy]
    does and LRU does not), the squeeze and hydration policies satisfy their laws
    and the formats [FormatLaws]; the decoder returns the selected rows of a row
    group in batches of that size ([file_ok], with at most 2^16 row groups and
    columns, fewer than 2^16 batches in each row group and no variant columns);
    every predicate is one expression that evaluates row by row and never fails, and
    one over several columns is not a disjunction of conditions on single columns
    (those take the multi-column path) and reads no column with a date hint, and
    reads columns of the file that its own mask selects ([filter_ok]). *)
Theorem stream_returns_selected_rows fuel b projection_ids (s : LiquidCache P) m :
  let predicates := filter_of (fmap (M := list) liquid_predicate <$> sb_filter b) in
  cache_inv None s m → cells_ok bs metadata file_id fields contents m → depth <= fuel →
  request_ok bs metadata fields b projection_ids →
  (weight s + stream_cost bs metadata fields predicates projection_ids (builder_groups metadata b) + 3
   < Z.of_nat fuel)%Z →
  ∃ st batches s' m', stream_build metadata b (File file_id fields) = Ret (Ok st)
    ∧ (∃ n0, ∀ polls turns rounds, n0 <= polls → n0 <= turns → n0 <= rounds →
        collect_stream squeeze_policy hydration_policy bmi2 bs metadata polls turns rounds fuel st s
        = Ret (batches, s'))
    ∧ cache_inv None s' m' ∧ cells_ok bs metadata file_id fields contents m' ∧ m ⊆ m'
    ∧ Forall2 (read_ok bs metadata fields contents projection_ids)
        (expected bs metadata contents predicates (builder_groups metadata b) (sel_rows (sb_selection b))
           (sb_offset b) (sb_limit b)) batches.
Proof.
  intros predicates I A Hd Rq Hf.
  destruct (stream_of_request squeeze_policy hydration_policy bmi2 bs metadata file_id fields contents depth FO fuel b
              projection_ids s m I A Hd Rq Hf) as (st & batches & s' & m' & Hb & Hc & I' & A' & Hm & F).
  exists st, batches, s', m'. split_and!; try done. by apply collects_collect.
Qed.

(** C7: planning a row group reads of its rows what OFFSET and LIMIT keep of the
    rows of the whole file, and leaves the factory with the offset and the limit
    that do the same for the row groups that follow. *)
Theorem plan_continues_window r rg rc sel projection projection_ids sb (s : LiquidCache P) m rest :
  let l := match sel with Some s => rows (rs_selectors s) | None => replicate (Z.to_nat rc) true end in
  let keep r l := window (Z.to_nat (default 0%Z (rf_offset r))) (Z.to_nat <$> rf_limit r) l in
  cache_inv None s m → group_rows metadata rg rc → rf_cached_file r = File file_id fields →
  limits_ok (rf_offset r) (rf_limit r) → List.length l <= Z.to_nat rc →
  get_root_column_ids (md_schema metadata) projection = Ret projection_ids →
  Forall (filter_ok metadata fields) (default [] (rf_filter r)) →
  ∃ plan r' s', plan_row_group bs metadata r rg sel projection sb s = Ret (plan, r', s')
    ∧ limits_ok (rf_offset r') (rf_limit r')
    ∧ keep r (l ++ rest)
      = resize (List.length l) false
          match plan with Some ctx => rows (rs_selectors (pc_selection ctx)) | None => [] end
        ++ keep r' rest.
Proof.
  intros l keep I Hg Hfile Hlim Hl Epr Ff.
  destruct (plan_row_group_ok bs metadata file_id fields contents depth FO r rg rc sel projection projection_ids
              sb s m I Hg Hfile Hlim Hl Epr Ff) as (ctx & s' & Hplan & _ & _ & Hctx). fold l in Hplan, Hctx.
  eexists _, _, s'. split; [exact Hplan|]. split; [by apply limits_left_ok|]. unfold keep.
  pose proof (planned_groups_window (rf_offset r) (rf_limit r) [l; rest]) as Hw. cbn [planned_groups] in Hw.
  change (mjoin [?x; ?y]) with (x ++ y ++ []) in Hw. rewrite !app_nil_r in Hw. rewrite <- Hw.
  rewrite (planned_window _ _ rest). cbn [factory_left rf_offset rf_limit]. f_equal.
  destruct (decide _) as [E0|E0].
  - rewrite resize_nil, (count_zero_rows (resize _ _ _)), length_resize; [done|].
    by rewrite count_resize by apply planned_length.
  - destruct (Hctx E0) as (ks & missing & Pl). by rewrite (pl_rows _ _ _ _ _ _ _ _ _ _ _ _ _ _ Pl).
Qed.

(** *** Limits and filters *)















(** *** The row filter *)

(** A conjunct over several columns is not a disjunction of conditions on single
    columns, and its columns are not kept as a component only. *)
Definition plain_conjunct {EL : FilterLib} (e : PhysicalExpr) : Prop :=
  ∀ ids, reads fields e ids → 2 <= List.length ids →
  extract_multi_column_or (expr_tree e) = None
  ∧ ∀ col field, col ∈ ids → fields !! Z.to_nat col = Some field →
      match infer_expression field with Some (ExtractDate32 _) => False | _ => True end.

Context {EL : FilterLib} {FiL : FilterLaws fields} {US : UnstableSort} {USL : UnstableSortLaws}.

Lemma predicate_read_ok p :
  flat (md_schema metadata) → root_fields (md_schema metadata) = List.length fields →
  predicate_read fields (md_schema metadata) p → plain_conjunct (fp_physical_column_index p) →
  filter_ok metadata fields p.
Proof.
  intros Hd Hr (ids & Hids & Em & _ & Heval) Hp.
  destruct (predicate_read_columns fields _ Hd Hr p ids Hids Em) as [Ec Eg].
  cbn [liquid_predicate predicate_column_ids] in Ec. split; rewrite ?Ec.
  - apply Hids.
  - by exists ids.
  - intros v Hl. destruct ids as [|c [|? ?]]; try done. by apply (Heval c).
  - by apply Hp.
Qed.

(** C8: over a file whose columns are all flat (one leaf each), of distinct names
    and with a size for each in every row group, the row filter that is built from
    an expression has one predicate for each conjunct that can be pushed down (it
    reads columns, all of them of the file and none nested), in the order of their
    priority; it keeps, of the selected rows of a batch, those on which all these
    conjuncts are true, and so every row on which the expression is true. Its
    predicates are as the stream needs them when every conjunct is plain: over
    several columns, it is not a disjunction of conditions on single columns and
    reads no column with a date hint. With nested columns the predicates ask for the
    wrong columns (see [nested_predicate_reads_leaf]). *)
Theorem row_filter_exact e sizes reorder :
  flat (md_schema metadata) → root_fields (md_schema metadata) = List.length fields →
  NoDup (pf_name <$> fields) → Forall (λ l, List.length fields <= List.length l) sizes →
  let conjuncts := List.filter (pushable fields) (split_conjunction e) in
  ∃ filter, build_row_filter e fields fields (md_schema metadata) sizes reorder = Ret (Ok filter)
    ∧ (filter = None ↔ conjuncts = [])
    ∧ fp_physical_column_index <$> default [] filter ≡ₚ conjuncts
    ∧ Sorted (λ p q, get_priority (fp_physical_column_index p) <= get_priority (fp_physical_column_index q))%Z
        (default [] filter)
    ∧ (Forall plain_conjunct conjuncts → Forall (filter_ok metadata fields) (default [] filter))
    ∧ ∀ (value : Z → nat → Val) k n sel,
        (∀ c, (0 <= c < Z.of_nat (List.length fields))%Z → vlen (value c k) = n) → List.length sel <= n →
        let cols c := value c k in
        let kept := keep_rows value k (filter_of (fmap (M := list) liquid_predicate <$> filter)) sel in
        kept = zip_with andb sel ((λ i, forallb (λ c, etrue c cols i) conjuncts) <$> seq 0 n)
        ∧ ∀ i, sel !! i = Some true → etrue e cols i = true → kept !! i = Some true.
Proof.
  intros Hd Hr N Fs conjuncts.
  destruct (build_row_filter_ok fields e (md_schema metadata) sizes reorder N Fs)
    as (filter & E & Hn & Hp & Hs & F). fold conjuncts in Hn, Hp.
  exists filter. split_and!; [done|done|done|done| |].
  - intros Fc. apply Forall_forall. intros p Hin. rewrite Forall_forall in F. apply predicate_read_ok; [done|done|by apply F|].
    rewrite <- Hp in Fc. rewrite Forall_forall in Fc. apply Fc. by apply list_elem_of_fmap_2.
  - intros value k n sel Hv Hl cols kept.
    assert (kept = zip_with andb sel ((λ i, forallb (λ c, etrue c cols i) conjuncts) <$> seq 0 n)) as Ek.
    { unfold kept. pose proof (keep_rows_etrue fields _ Hd Hr value k n (default [] filter) sel F Hv Hl) as Hk.
      assert (filter_of (fmap (M := list) liquid_predicate <$> filter) = liquid_predicate <$> default [] filter) as ->
        by (by destruct filter).
      rewrite Hk. f_equal. apply list_fmap_ext. intros i x _. by apply forallb_perm. }
    split; [exact Ek|]. intros i Hi He. rewrite Ek, lookup_zip_with, Hi. cbn [mbind option_bind].
    rewrite list_lookup_fmap, lookup_seq_lt by (apply lookup_lt_Some in Hi; lia). cbn. f_equal.
    apply forallb_forall. intros c [Hc _]%filter_In.
    rewrite split_conjunction_ok, forallb_forall in He. by apply He.
Qed.
End properties.

(** With the predicate [n > 10] four rows of the file qualify, but a limit of one or
    two leaves none and a limit of three a single one. *)
Example limit_demo :
  let run limit := run_request stream_metadata stream_fields (demo_builder limit (Some [stream_predicate])) in
  run None = Some [(2, [SArr SInt64 [Some 30; Some 12]%Z; SArr SDate32 [None; Some 4]%Z]);
                   (2, [SArr SInt64 [Some 40; Some 11]%Z; SArr SDate32 [None; Some 10]%Z])]
  ∧ run (Some 1%Z) = Some [] ∧ run (Some 2%Z) = Some []
  ∧ run (Some 3%Z) = Some [(1, [SArr SInt64 [Some 30]%Z; SArr SDate32 [None]])].
Proof. split_and!; vm_compute; reflexivity. Qed.

(** *** Nested columns *)

Section nested.
Context {AL : ArrowLib} {LF : LiquidFormats} {VL : VariantLib} {FL : FormatLaws}.
Context {RB : RecordBatches} {RL : RecordBatchLaws} {EL : FilterLib} {PM : ProjectionMasks} {PML : ProjectionMaskLaws}.
Context {BB : BooleanBuffers} {BL : BooleanBufferLaws} {MB : MaskBuffers}.
Context {P : Type} {CP : CachePolicy P} {PL : PolicyLaws P} {MO : MemoryOnlyPolicy P}.
Context (squeeze_policy : SqueezePolicy) (hydration_policy : HydrationPolicy) (bmi2 : bool).
Context {SL : SqueezeLaws squeeze_policy} {HL : HydrationLaws hydration_policy} {ML : MaskLaws bmi2}.



End nested.

(** After a struct of two leaves a predicate on the column 1 of the file asks for
    the column 2: the rows that are returned are those of which the other column
    qualifies; if the other column is not projected, there is no answer. *)
Example nested_predicate_wrong_rows :
  nested_contents 0 1 = SArr SInt64 [Some 1; Some 20; Some 3]%Z
  ∧ run_request (PD := sample_decoder 4 nested_metadata nested_contents) nested_metadata nested_fields nested_builder
    = Some [(2, [SArr SInt64 [Some 1; Some 3]%Z; SArr SInt64 [Some 50; Some 60]%Z])]
  ∧ run_request (PD := sample_decoder 4 nested_metadata nested_contents) nested_metadata nested_fields
      (Builder 4 None (mask_roots (md_schema nested_metadata) [1]%Z) (Some [nested_predicate]) None None None) = None.
Proof. split_and!; [reflexivity|vm_compute; reflexivity|vm_compute; reflexivity]. Qed.

(** ** Witnesses *)

Lemma stream_returns_selected_rows_witness :
  ∃ st batches s', stream_build stream_metadata (demo_builder (Some 6%Z) (Some [stream_predicate]))
                     (File 0 stream_fields) = Ret (Ok st)
    ∧ (∃ n0, ∀ polls turns rounds, n0 <= polls → n0 <= turns → n0 <= rounds →
        collect_stream (LF := sample_liquid) (BB := byte_buffers) (P := LiquidQueueInternalState)
          TranscodeSqueezeEvict AlwaysHydrate false 4 stream_metadata polls turns rounds 200 st (cache_new 40)
        = Ret (batches, s'))
    ∧ List.length batches = 2.
Proof.
  destruct (stream_returns_selected_rows (FL := sample_laws) (BB := byte_buffers) (P := LiquidQueueInternalState)
              TranscodeSqueezeEvict AlwaysHydrate false 4 stream_metadata 0 stream_fields stream_contents 1 stream_file_ok
              200 (demo_builder (Some 6%Z) (Some [stream_predicate])) [0; 1]%Z (cache_new 40) ∅)
    as (st & batches & s' & m' & Hb & Hc & _ & _ & _ & F).
  - by apply (cache_new_inv (FL := sample_laws)).
  - intros rg col k v _ Hv. by rewrite lookup_empty in Hv.
  - lia.
  - split.
    + reflexivity.
    + constructor; [apply stream_filter_ok|constructor].
    + constructor; [|constructor; [|constructor]]; [exists 5%Z|exists 3%Z]; split; (lia || reflexivity).
    + split; [done|]. intros n [= <-]. lia.
    + reflexivity.
  - rewrite (weight_new (P := LiquidQueueInternalState)). vm_compute. reflexivity.
  - exists st, batches, s'. split; [exact Hb|]. split; [exact Hc|].
    rewrite <- (Forall2_length _ _ _ F). vm_compute. reflexivity.
Defined.

Lemma plan_continues_window_witness :
  ∃ plan r' s', plan_row_group (LF := sample_liquid) (P := LiquidQueueInternalState) 4 stream_metadata
                  (Factory None (Some 3%Z) (Some 4%Z) (File 0 stream_fields)) 0 None
                  (mask_roots (md_schema stream_metadata) [0]%Z) 4 (cache_new 40) = Ret (plan, r', s')
    ∧ window 4 (Some 3) (replicate 5 true ++ [true; true; true])
      = resize 5 false match plan with Some ctx => rows (rs_selectors (pc_selection ctx)) | None => [] end
        ++ window (Z.to_nat (default 0%Z (rf_offset r'))) (Z.to_nat <$> rf_limit r') [true; true; true].
Proof.
  destruct (plan_continues_window (FL := sample_laws) (P := LiquidQueueInternalState) 4 stream_metadata 0 stream_fields
              stream_contents 1 stream_file_ok (Factory None (Some 3%Z) (Some 4%Z) (File 0 stream_fields)) 0 5 None
              (mask_roots (md_schema stream_metadata) [0]%Z) [0%Z] 4 (cache_new 40) ∅ [true; true; true])
    as (plan & r' & s' & Hp & _ & Hw).
  - by apply (cache_new_inv (FL := sample_laws)).
  - split; [lia|reflexivity].
  - reflexivity.
  - split; intros n [= <-]; lia.
  - apply Nat.eq_le_incl. reflexivity.
  - reflexivity.
  - constructor.
  - exists plan, r', s'. split; [exact Hp|exact Hw].
Defined.

(** [n > 10 AND n > 5], the second of the higher priority in the sample. *)
Lemma row_filter_exact_witness :
  ∃ filter, build_row_filter (AL := sample_arrow) 10005%Z stream_fields stream_fields (md_schema stream_metadata)
              [[7; 9]; [8; 2]]%Z true = Ret (Ok filter)
    ∧ keep_rows (FL := sample_laws) (λ c _, stream_contents 0 c) 0
        (filter_of (fmap (M := list) liquid_predicate <$> filter)) [true; true; true; false; true]
      = [false; false; true; false; false].
Proof.
  destruct (row_filter_exact (FL := sample_laws) stream_metadata stream_fields 10005%Z [[7; 9]; [8; 2]]%Z true)
    as (filter & E & _ & _ & _ & _ & Hk).
  - reflexivity.
  - reflexivity.
  - by apply (bool_decide_unpack _).
  - repeat constructor; cbn; lia.
  - exists filter. split; [exact E|].
    destruct (Hk (λ c _, stream_contents 0 c) 0 5 [true; true; true; false; true]) as [-> _].
    + intros c Hc. by destruct c.
    + cbn. lia.
    + vm_compute. reflexivity.
Defined.


