(* ===== verification/Lineage.v ===== *)
(** * Lineage of columns

    Model of [src/src/parquet/src/optimizers/lineage_opt.rs]: the logical optimizer
    that follows every column of a table scan through the plan, records the
    operations each expression applies to it, and annotates the scan with the
    columns that are only used through [EXTRACT], [variant_get] or a substring
    search.  DataFusion's expressions and plans are data with the constructors the
    optimizer names (any other node carries a code and its children); what it asks
    DataFusion and arrow to parse is a class.  A [HashMap] is a finite map; where
    the code iterates over one the model takes the order of [map_to_list]. *)

From stdpp Require Import base list strings gmap sorting.
From Stdlib Require Import ZArith Ascii String.
From S2P Require Import Prelude CivilDate DataTypes Expressions.

(** ** Columns *)

(** [TableReference] with its parts. *)
Definition TableReference : Type := list string.

Record Column : Type := Col {
  c_relation : option TableReference;
  c_name : string
}.

Record ColumnKey : Type := Key {
  k_relation : option TableReference;
  k_name : string
}.

#[export] Instance ColumnKey_eq_dec : EqDecision ColumnKey.
Proof. solve_decision. Defined.

#[export] Instance ColumnKey_countable : Countable ColumnKey.
Proof. refine (inj_countable' (λ k, (k_relation k, k_name k)) (λ p, Key p.1 p.2) _). by intros []. Defined.

Definition from_column (column : Column) : ColumnKey := Key (c_relation column) (c_name column).
Definition to_column (k : ColumnKey) : Column := Col (k_relation k) (k_name k).

(** The qualified fields of a [DFSchema]. *)
Definition DFSchema : Type := list (Column * DataType).
Definition columns (schema : DFSchema) : list Column := schema.*1.

(** ** Expressions *)

Inductive ScalarValue : Type :=
| SUtf8 (v : option string)
| SLargeUtf8 (v : option string)
| SUtf8View (v : option string)
| SOther (code : Z).

Inductive Expr : Type :=
| EColumn (column : Column)
| EAlias (expr : Expr)
| EScalarFunction (name : string) (args : list Expr)
| ELike (negated : bool) (expr pattern : Expr) (escape_char : option ascii) (case_insensitive : bool)
| ECast (expr : Expr) (data_type : DataType)
| ETryCast (expr : Expr) (data_type : DataType)
| ELiteral (value : ScalarValue)
| EScalarSubquery (id : nat)
| EExists (id : nat)
| EPlaceholder (id : string)
| EWildcard
| EOther (code : string) (children : list Expr).

(** ** Operations on a column *)

Inductive SupportedIntervalUnit : Type := UYear | UMonth | UDay | UDayOfWeek.

#[export] Instance SupportedIntervalUnit_eq_dec : EqDecision SupportedIntervalUnit.
Proof. solve_decision. Defined.

(** The order in which [serialize_date_part] sorts. *)
Definition unit_rank (u : SupportedIntervalUnit) : nat :=
  match u with UYear => 0 | UMonth => 1 | UDay => 2 | UDayOfWeek => 3 end.

#[export] Instance SupportedIntervalUnit_countable : Countable SupportedIntervalUnit.
Proof.
  refine (inj_countable' unit_rank (λ n, match n with 0 => UYear | 1 => UMonth | 2 => UDay | _ => UDayOfWeek end) _).
  by intros [].
Defined.

Definition metadata_value (u : SupportedIntervalUnit) : string :=
  match u with UYear => "YEAR" | UMonth => "MONTH" | UDay => "DAY" | UDayOfWeek => "DOW" end.

Inductive Operation : Type :=
| OExtract (unit : SupportedIntervalUnit)
| OVariantGet (path : string) (data_type : option DataType)
| OSubstringSearch
| OOther.

Record ColumnUsage : Type := Usage {
  cu_base : ColumnKey;
  cu_data_type : DataType;
  cu_operations : list Operation
}.

Definition new_base (column : Column) (data_type : DataType) : ColumnUsage :=
  Usage (from_column column) data_type [].

(** [usage.operations.push(op)]. *)
Definition push_operation (op : Operation) (u : ColumnUsage) : ColumnUsage :=
  Usage (cu_base u) (cu_data_type u) (cu_operations u ++ [op]).

Notation LineageMap := (gmap ColumnKey (list ColumnUsage)).

Record UsageStats : Type := Stats {
  us_data_type : DataType;
  us_usages : list (list Operation)
}.

Definition stats_new (data_type : DataType) : UsageStats := Stats data_type [].
Definition stats_apply (usage : ColumnUsage) (s : UsageStats) : UsageStats :=
  Stats (us_data_type s) (us_usages s ++ [cu_operations usage]).

(** The state of a [LineageAnalyzer]. *)
Notation LineageAnalyzer := (gmap ColumnKey UsageStats).

(** ** Literals *)

(** [IntervalUnit] of arrow, as far as it is told apart. *)
Inductive IntervalUnit : Type := IUYear | IUMonth | IUDay | IUOther (code : nat).

(** What DataFusion and arrow answer: the field of a column (an error when it is
    missing or ambiguous), the parsers of interval units and types, and the names
    under which results are sorted. *)
Class DataFusionLib : Type := {
  field_from_column : DFSchema -> Column -> option DataType;
  interval_unit_from_str : string -> option IntervalUnit;
  data_type_from_str : string -> option DataType;
  data_type_to_string : DataType -> string;
  flat_name : Column -> string
}.

(** [to_ascii_lowercase], [eq_ignore_ascii_case]. *)
Definition ascii_lower (c : ascii) : ascii :=
  let n := nat_of_ascii c in
  if (Nat.leb 65 n && Nat.leb n 90)%bool then ascii_of_nat (n + 32) else c.

Fixpoint to_ascii_lowercase (s : string) : string :=
  match s with
  | EmptyString => EmptyString
  | String c s => String (ascii_lower c) (to_ascii_lowercase s)
  end.

Definition eq_ignore_ascii_case (a b : string) : bool :=
  String.eqb (to_ascii_lowercase a) (to_ascii_lowercase b).

Definition literal_utf8 (expr : Expr) : option string :=
  match expr with
  | ELiteral (SUtf8 (Some v)) | ELiteral (SLargeUtf8 (Some v)) | ELiteral (SUtf8View (Some v)) => Some v
  | _ => None
  end.

Definition is_wildcard_byte (b : ascii) : bool := (Ascii.eqb b "%" || Ascii.eqb b "_")%bool.

Definition is_substring_pattern (pattern : list ascii) : bool :=
  if (List.length pattern <? 2)%nat then false
  else
    match head pattern, last pattern with
    | Some first, Some final =>
        if (negb (Ascii.eqb first "%") || negb (Ascii.eqb final "%"))%bool then false
        else
          let inner := take (List.length pattern - 2) (drop 1 pattern) in
          match inner with [] => false | _ => negb (existsb is_wildcard_byte inner) end
    | _, _ => false
    end.

Fixpoint is_string_type (data_type : DataType) : bool :=
  match data_type with
  | TUtf8 | TUtf8View | TLargeUtf8 => true
  | TDictionary _ value_type => is_string_type value_type
  | _ => false
  end.

Definition is_date_part_type (data_type : DataType) : bool :=
  match data_type with TDate32 | TTimestamp _ _ => true | _ => false end.

(** ** The lineage of an expression *)

Section lineage.
Context `{DataFusionLib}.

Definition literal_data_type (expr : Expr) : option DataType :=
  spec ← literal_utf8 expr; data_type_from_str spec.

Definition part_to_unit (expr : Expr) : option SupportedIntervalUnit :=
  text ← literal_utf8 expr;
  let lowered := to_ascii_lowercase text in
  if (String.eqb lowered "dow" || String.eqb lowered "dayofweek" || String.eqb lowered "day_of_week")%bool then Some UDayOfWeek
  else
    unit ← interval_unit_from_str text;
    match unit with
    | IUYear => Some UYear
    | IUMonth => Some UMonth
    | IUDay => Some UDay
    | IUOther _ => None
    end.

(** The guards of the two calls that [lineage_for_expr] recognises. *)
Definition date_part_call (func_name : string) (part : Expr) : option SupportedIntervalUnit :=
  if eq_ignore_ascii_case func_name "date_part" then part_to_unit part else None.

Definition variant_get_call (func_name : string) (path : Expr) (type_hint : option DataType) : option Operation :=
  if eq_ignore_ascii_case func_name "variant_get" then path ← literal_utf8 path; Some (OVariantGet path type_hint) else None.

Definition substring_like (pattern : Expr) (escape_char : option ascii) (case_insensitive : bool) : bool :=
  negb case_insensitive
  && match escape_char with None => true | Some _ => false end
  && match literal_utf8 pattern with Some pattern => is_substring_pattern (list_ascii_of_string pattern) | None => false end.

Definition wildcard_usages (input_lineage : LineageMap) : list ColumnUsage := List.concat (map_to_list input_lineage).*2.

(** The loop that pushes an operation on every usage of an argument. *)
Definition push_all (op : Operation) (usages : option (list ColumnUsage)) : option (list ColumnUsage) :=
  match usages with Some usages => Some (push_operation op <$> usages) | None => None end.

(** [propagate_other] over the children of an expression. *)
Definition propagate_other_with (lineage : Expr -> option (list ColumnUsage)) : list Expr -> option (list ColumnUsage) :=
  fix go children :=
    match children with
    | [] => Some []
    | child :: children => usages ← lineage child; rest ← go children; Some ((push_operation OOther <$> usages) ++ rest)
    end.

Fixpoint lineage_for_expr (input_lineage : LineageMap) (schema : DFSchema) (expr : Expr) {struct expr}
    : option (list ColumnUsage) :=
  let lineage e := lineage_for_expr input_lineage schema e in
  match expr with
  | EColumn column =>
      match input_lineage !! from_column column with
      | Some usages => Some usages
      | None => data_type ← field_from_column schema column; Some [new_base column data_type]
      end
  | EAlias expr => lineage expr
  | EScalarFunction name args =>
      match args with
      | [a0; a1] =>
          match date_part_call name a0 with
          | Some component => push_all (OExtract component) (lineage a1)
          | None =>
              match variant_get_call name a1 None with
              | Some get => push_all get (lineage a0)
              | None => propagate_other_with lineage args
              end
          end
      | [a0; a1; a2] =>
          match variant_get_call name a1 (literal_data_type a2) with
          | Some get => push_all get (lineage a0)
          | None => propagate_other_with lineage args
          end
      | _ => propagate_other_with lineage args
      end
  | ELike _ expr pattern escape_char case_insensitive =>
      if substring_like pattern escape_char case_insensitive then push_all OSubstringSearch (lineage expr)
      else propagate_other_with lineage [expr; pattern]
  | ECast expr _ | ETryCast expr _ => push_all OOther (lineage expr)
  | ELiteral _ | EScalarSubquery _ | EExists _ | EPlaceholder _ => Some []
  | EWildcard => Some (wildcard_usages input_lineage)
  | EOther _ children => propagate_other_with lineage children
  end.
End lineage.

(** ** Plans *)

(** A path of a variant and the type asked for. *)
Record VariantField : Type := VField {
  vf_path : string;
  vf_data_type : option DataType
}.

(** An [Arc<dyn SchemaAdapterFactory>] with its address; the optimizer's own
    factory wraps the one it replaces. *)
Inductive ColumnAnnotation : Type :=
| ADatePart (units : gset SupportedIntervalUnit)
| AVariantPaths (fields : list VariantField)
| ASubstringSearch.

Inductive SchemaAdapterFactory : Type :=
| OtherFactory (address : Z)
| LineageExtractFactory (address : Z) (base : option SchemaAdapterFactory) (annotations : gmap string ColumnAnnotation).

(** A [TableSource]: a [ListingTable], which carries a factory, or anything else. *)
Inductive TableSource : Type :=
| ListingTable (table : string) (schema_adapter_factory : option SchemaAdapterFactory)
| OtherSource (table : string).

Record TableScan : Type := Scan {
  ts_source : TableSource;
  ts_projected_schema : DFSchema;
  ts_filters : list Expr
}.

Inductive JoinType : Type :=
| JInner | JLeft | JRight | JFull | JLeftSemi | JRightSemi | JLeftAnti | JRightAnti | JLeftMark | JRightMark.

Inductive Partitioning : Type :=
| RoundRobinBatch (n : nat)
| HashPartitioning (exprs : list Expr) (n : nat)
| DistributeBy (exprs : list Expr).

(** An expression with its sort options. *)
Definition SortExpr : Type := Expr * (bool * bool).

Inductive LogicalPlan : Type :=
| LTableScan (scan : TableScan)
| LProjection (expr : list Expr) (input : LogicalPlan) (schema : DFSchema)
| LFilter (predicate : Expr) (input : LogicalPlan)
| LAggregate (input : LogicalPlan) (group_expr aggr_expr : list Expr) (schema : DFSchema)
| LSort (expr : list SortExpr) (input : LogicalPlan)
| LJoin (left right : LogicalPlan) (on : list (Expr * Expr)) (filter : option Expr) (join_type : JoinType) (schema : DFSchema)
| LSubqueryAlias (input : LogicalPlan) (schema : DFSchema)
| LWindow (input : LogicalPlan) (window_expr : list Expr) (schema : DFSchema)
| LLimit (skip fetch : option Expr) (input : LogicalPlan)
| LRepartition (input : LogicalPlan) (partitioning_scheme : Partitioning)
| LUnion (inputs : list LogicalPlan) (schema : DFSchema)
| LDistinctAll (input : LogicalPlan)
| LDistinctOn (on_expr select_expr : list Expr) (sort_expr : option (list SortExpr)) (input : LogicalPlan) (schema : DFSchema)
| LOther (inputs : list LogicalPlan) (schema : DFSchema).

(** [LogicalPlan::schema]: some nodes have that of their input. *)
Fixpoint plan_schema (plan : LogicalPlan) : DFSchema :=
  match plan with
  | LTableScan scan => ts_projected_schema scan
  | LProjection _ _ schema | LAggregate _ _ _ schema | LJoin _ _ _ _ _ schema | LSubqueryAlias _ schema
  | LWindow _ _ schema | LUnion _ schema | LDistinctOn _ _ _ _ schema | LOther _ schema => schema
  | LFilter _ input | LSort _ input | LLimit _ _ input | LRepartition input _ | LDistinctAll input => plan_schema input
  end.

(** ** The analysis of a plan *)

(** A method of [LineageAnalyzer]: [None] is an error. *)
Definition analysis (A : Type) : Type := LineageAnalyzer -> option (A * LineageAnalyzer).

#[export] Instance analysis_ret : MRet analysis := λ A a s, Some (a, s).
#[export] Instance analysis_bind : MBind analysis := λ A B f m s, '(a, s) ← m s; f a s.

Definition lift_result {A} (r : option A) : analysis A := λ s, a ← r; Some (a, s).

Definition record_usage (s : LineageAnalyzer) (usage : ColumnUsage) : LineageAnalyzer :=
  let entry := default (stats_new (cu_data_type usage)) (s !! cu_base usage) in
  <[cu_base usage := stats_apply usage entry]> s.

Definition record (usages : list ColumnUsage) : analysis unit := λ s, Some (tt, foldl record_usage s usages).

Definition merge_lineage_maps (base other : LineageMap) : LineageMap := union_with (λ a b, Some (a ++ b)) base other.

Definition usages_of (m : LineageMap) (column : Column) : list ColumnUsage := default [] (m !! from_column column).

Section analyzer.
Context `{DataFusionLib}.

(** [lineage_for_expr(..)?] and [self.record(&usages)]. *)
Definition record_expr (input_map : LineageMap) (schema : DFSchema) (expr : Expr) : analysis (list ColumnUsage) :=
  usages ← lift_result (lineage_for_expr input_map schema expr); _ ← record usages; mret usages.

Fixpoint record_exprs (input_map : LineageMap) (schema : DFSchema) (exprs : list Expr) : analysis unit :=
  match exprs with
  | [] => mret tt
  | expr :: exprs => _ ← record_expr input_map schema expr; record_exprs input_map schema exprs
  end.

Definition scan_map (schema : DFSchema) : LineageMap :=
  foldl (λ m f, <[from_column f.1 := [new_base f.1 f.2]]> m) ∅ schema.

Definition analyze_table_scan (scan : TableScan) : analysis LineageMap :=
  let schema := ts_projected_schema scan in
  let map := scan_map schema in
  _ ← record_exprs map schema (ts_filters scan);
  mret map.

(** One output column for each expression. *)
Fixpoint project_exprs (input_map : LineageMap) (input_schema : DFSchema) (pairs : list (Expr * Column)) (output : LineageMap)
    : analysis LineageMap :=
  match pairs with
  | [] => mret output
  | (expr, column) :: pairs =>
      usages ← record_expr input_map input_schema expr;
      project_exprs input_map input_schema pairs (<[from_column column := usages]> output)
  end.

Definition analyze_projection (input_map : LineageMap) (input_schema : DFSchema) (expr : list Expr) (schema : DFSchema)
    : analysis LineageMap :=
  project_exprs input_map input_schema (zip expr (columns schema)) ∅.

Definition analyze_filter (input_map : LineageMap) (schema : DFSchema) (predicate : Expr) : analysis LineageMap :=
  _ ← record_expr input_map schema predicate; mret input_map.

Definition analyze_sort (input_map : LineageMap) (schema : DFSchema) (expr : list SortExpr) : analysis LineageMap :=
  _ ← record_exprs input_map schema expr.*1; mret input_map.

Fixpoint aggregate_columns (input_map : LineageMap) (schema : DFSchema) (output_columns : list Column) (exprs : list Expr)
    (output : LineageMap) : analysis LineageMap :=
  match output_columns with
  | [] => mret output
  | column :: output_columns =>
      match exprs with
      | expr :: exprs =>
          usages ← record_expr input_map schema expr;
          aggregate_columns input_map schema output_columns exprs (<[from_column column := usages]> output)
      | [] => aggregate_columns input_map schema output_columns [] (<[from_column column := []]> output)
      end
  end.

Definition analyze_aggregate (input_map : LineageMap) (input_schema : DFSchema) (group_expr aggr_expr : list Expr)
    (schema : DFSchema) : analysis LineageMap :=
  aggregate_columns input_map input_schema (columns schema) (group_expr ++ aggr_expr) ∅.

Fixpoint record_join_keys (left_map right_map : LineageMap) (left_schema right_schema : DFSchema) (on : list (Expr * Expr))
    : analysis unit :=
  match on with
  | [] => mret tt
  | (left_expr, right_expr) :: on =>
      _ ← record_expr left_map left_schema left_expr;
      _ ← record_expr right_map right_schema right_expr;
      record_join_keys left_map right_map left_schema right_schema on
  end.

(** The columns of one side take the next output columns. *)
Fixpoint join_columns (side_map : LineageMap) (side_columns output_columns : list Column) (output : LineageMap)
    : LineageMap * list Column :=
  match side_columns with
  | [] => (output, output_columns)
  | column :: side_columns =>
      match output_columns with
      | output_column :: output_columns =>
          join_columns side_map side_columns output_columns
            (<[from_column output_column := usages_of side_map column]> output)
      | [] => join_columns side_map side_columns [] output
      end
  end.

Definition analyze_join (left_map right_map : LineageMap) (left_schema right_schema : DFSchema) (on : list (Expr * Expr))
    (filter : option Expr) (schema : DFSchema) : analysis LineageMap :=
  _ ← record_join_keys left_map right_map left_schema right_schema on;
  _ ← match filter with
      | Some filter => record_exprs (merge_lineage_maps left_map right_map) schema [filter]
      | None => mret tt
      end;
  let '(output, output_columns) := join_columns left_map (columns left_schema) (columns schema) ∅ in
  mret (join_columns right_map (columns right_schema) output_columns output).1.

(** Output columns that stand for the input columns in their place. *)
Definition rename_columns (input_map : LineageMap) (pairs : list (Column * Column)) : LineageMap :=
  foldl (λ output p, <[from_column p.2 := usages_of input_map p.1]> output) ∅ pairs.

Definition analyze_subquery_alias (input_map : LineageMap) (input_schema schema : DFSchema) : LineageMap :=
  rename_columns input_map (zip (columns input_schema) (columns schema)).

Definition analyze_window (input_map : LineageMap) (input_schema : DFSchema) (window_expr : list Expr) (schema : DFSchema)
    : analysis LineageMap :=
  let input_cols := columns input_schema in
  let output_cols := columns schema in
  project_exprs input_map input_schema (zip window_expr (drop (List.length input_cols) output_cols))
    (rename_columns input_map (zip input_cols output_cols)).

Definition option_exprs (o : option Expr) : list Expr := match o with Some e => [e] | None => [] end.

Definition analyze_limit (map : LineageMap) (schema : DFSchema) (skip fetch : option Expr) : analysis LineageMap :=
  _ ← record_exprs map schema (option_exprs skip); _ ← record_exprs map schema (option_exprs fetch); mret map.

Definition analyze_repartition (map : LineageMap) (schema : DFSchema) (scheme : Partitioning) : analysis LineageMap :=
  _ ← match scheme with
      | HashPartitioning exprs _ | DistributeBy exprs => record_exprs map schema exprs
      | RoundRobinBatch _ => mret tt
      end;
  mret map.

(** The usages of every input column of that name, whatever its relation and position. *)
Definition usages_named (name : string) (m : LineageMap) : list ColumnUsage :=
  List.concat ((λ p, if String.eqb (k_name p.1) name then p.2 else []) <$> map_to_list m).

Definition analyze_union (input_maps : list LineageMap) (schema : DFSchema) : LineageMap :=
  foldl (λ output column, <[from_column column := List.concat (usages_named (c_name column) <$> input_maps)]> output)
    ∅ (columns schema).

(** Without recording: the expressions were recorded before. *)
Fixpoint select_usages (input_map : LineageMap) (schema : DFSchema) (pairs : list (Expr * Column)) (output : LineageMap)
    : analysis LineageMap :=
  match pairs with
  | [] => mret output
  | (expr, column) :: pairs =>
      usages ← lift_result (lineage_for_expr input_map schema expr);
      select_usages input_map schema pairs (<[from_column column := usages]> output)
  end.

Definition analyze_distinct_on (input_map : LineageMap) (input_schema : DFSchema) (on_expr select_expr : list Expr)
    (sort_expr : option (list SortExpr)) (schema : DFSchema) : analysis LineageMap :=
  _ ← record_exprs input_map input_schema on_expr;
  _ ← record_exprs input_map input_schema select_expr;
  _ ← match sort_expr with
      | Some sort_exprs => record_exprs input_map input_schema sort_exprs.*1
      | None => mret tt
      end;
  select_usages input_map input_schema (zip select_expr (columns schema)) ∅.

(** The loop over the inputs of a node. *)
Definition analyze_inputs_with (analyze : LogicalPlan -> analysis LineageMap) : list LogicalPlan -> analysis (list LineageMap) :=
  fix go inputs :=
    match inputs with
    | [] => mret []
    | input :: inputs => m ← analyze input; ms ← go inputs; mret (m :: ms)
    end.

Fixpoint analyze_plan (plan : LogicalPlan) : analysis LineageMap :=
  let analyze_inputs := analyze_inputs_with analyze_plan in
  match plan with
  | LTableScan scan => analyze_table_scan scan
  | LProjection expr input schema => m ← analyze_plan input; analyze_projection m (plan_schema input) expr schema
  | LFilter predicate input => m ← analyze_plan input; analyze_filter m (plan_schema input) predicate
  | LAggregate input group_expr aggr_expr schema =>
      m ← analyze_plan input; analyze_aggregate m (plan_schema input) group_expr aggr_expr schema
  | LSort expr input => m ← analyze_plan input; analyze_sort m (plan_schema input) expr
  | LJoin left_plan right_plan on filter _ schema =>
      left_map ← analyze_plan left_plan;
      right_map ← analyze_plan right_plan;
      analyze_join left_map right_map (plan_schema left_plan) (plan_schema right_plan) on filter schema
  | LSubqueryAlias input schema => m ← analyze_plan input; mret (analyze_subquery_alias m (plan_schema input) schema)
  | LWindow input window_expr schema => m ← analyze_plan input; analyze_window m (plan_schema input) window_expr schema
  | LLimit skip fetch input => m ← analyze_plan input; analyze_limit m (plan_schema input) skip fetch
  | LRepartition input scheme => m ← analyze_plan input; analyze_repartition m (plan_schema input) scheme
  | LUnion inputs schema => ms ← analyze_inputs inputs; mret (analyze_union ms schema)
  | LDistinctAll input => analyze_plan input
  | LDistinctOn on_expr select_expr sort_expr input schema =>
      m ← analyze_plan input; analyze_distinct_on m (plan_schema input) on_expr select_expr sort_expr schema
  | LOther inputs _ => ms ← analyze_inputs inputs; mret (foldl merge_lineage_maps ∅ ms)
  end.
End analyzer.

(** ** What the recorded usages mean *)

Record DateExtraction : Type := DExtraction {
  de_column : Column;
  de_components : gset SupportedIntervalUnit
}.

Record VariantExtraction : Type := VExtraction {
  ve_column : Column;
  ve_fields : list VariantField
}.

(** The units of the extracts a usage starts with. *)
Fixpoint leading_units (usage : list Operation) : gset SupportedIntervalUnit :=
  match usage with
  | OExtract unit :: usage => {[unit]} ∪ leading_units usage
  | _ => ∅
  end.

(** The units of all usages; [None] when one does not start with an extract. *)
Fixpoint date_units (usages : list (list Operation)) (all_units : gset SupportedIntervalUnit)
    : option (gset SupportedIntervalUnit) :=
  match usages with
  | [] => Some all_units
  | usage :: usages =>
      let path_units := leading_units usage in
      if decide (path_units = ∅) then None else date_units usages (all_units ∪ path_units)
  end.

Definition date_extraction_of (p : ColumnKey * UsageStats) : option DateExtraction :=
  if is_date_part_type (us_data_type p.2) then
    match date_units (us_usages p.2) ∅ with
    | Some all_units => if decide (all_units = ∅) then None else Some (DExtraction (to_column p.1) all_units)
    | None => None
    end
  else None.

Definition find_date32_extractions (usage : LineageAnalyzer) : list DateExtraction :=
  omap date_extraction_of (map_to_list usage).

(** The paths asked for with their types, and whether there was one; [None] on
    another use or when two types are asked of a path. *)
Fixpoint variant_fields (usages : list (list Operation)) (field_map : gmap string (option DataType)) (saw_variant_get : bool)
    : option (gmap string (option DataType) * bool) :=
  match usages with
  | [] => Some (field_map, saw_variant_get)
  | usage :: usages =>
      match usage with
      | OVariantGet path data_type :: _ =>
          match field_map !! path with
          | None => variant_fields usages (<[path := data_type]> field_map) true
          | Some current => if decide (current = data_type) then variant_fields usages field_map true else None
          end
      | [] => variant_fields usages field_map saw_variant_get
      | _ :: _ => None
      end
  end.

Section findings.
Context `{DataFusionLib}.

(** [Ord] of fields and of extractions. *)
Definition type_name (data_type : option DataType) : string :=
  match data_type with Some t => data_type_to_string t | None => "" end.

Definition variant_field_compare (a b : VariantField) : comparison :=
  match String.compare (vf_path a) (vf_path b) with
  | Eq => String.compare (type_name (vf_data_type a)) (type_name (vf_data_type b))
  | c => c
  end.

Fixpoint fields_compare (a b : list VariantField) : comparison :=
  match a, b with
  | [], [] => Eq
  | [], _ :: _ => Lt
  | _ :: _, [] => Gt
  | x :: a, y :: b => match variant_field_compare x y with Eq => fields_compare a b | c => c end
  end.

Definition variant_extraction_compare (a b : VariantExtraction) : comparison :=
  match String.compare (flat_name (ve_column a)) (flat_name (ve_column b)) with
  | Eq => fields_compare (ve_fields a) (ve_fields b)
  | c => c
  end.

(** [sort] by a comparison. *)
Definition not_greater {A} (cmp : A -> A -> comparison) (a b : A) : Prop := cmp a b <> Gt.

#[export] Instance not_greater_dec {A} (cmp : A -> A -> comparison) a b : Decision (not_greater cmp a b).
Proof. unfold not_greater, Decision. destruct (cmp a b); [left|left|right]; congruence. Defined.

Definition sort_with {A} (cmp : A -> A -> comparison) (l : list A) : list A := merge_sort (not_greater cmp) l.

Definition variant_extraction_of (p : ColumnKey * UsageStats) : option VariantExtraction :=
  match us_usages p.2 with
  | [] => None
  | usages =>
      match variant_fields usages ∅ false with
      | Some (field_map, saw_variant_get) =>
          if (saw_variant_get && negb (bool_decide (field_map = ∅)))%bool then
            Some (VExtraction (to_column p.1)
                    (sort_with variant_field_compare ((λ f, VField f.1 f.2) <$> map_to_list field_map)))
          else None
      | None => None
      end
  end.

Definition find_variant_gets (usage : LineageAnalyzer) : list VariantExtraction :=
  omap variant_extraction_of (map_to_list usage).

Definition is_substring_operation (op : Operation) : bool := match op with OSubstringSearch => true | _ => false end.

(** Whether a usage searched; [None] on another use of the string. *)
Fixpoint substring_usages (usages : list (list Operation)) (saw_substring : bool) : option bool :=
  match usages with
  | [] => Some saw_substring
  | usage :: usages =>
      if existsb is_substring_operation usage then substring_usages usages true
      else match usage with [] => substring_usages usages saw_substring | _ => None end
  end.

Definition substring_search_of (p : ColumnKey * UsageStats) : option Column :=
  if negb (is_string_type (us_data_type p.2)) then None
  else
    match us_usages p.2 with
    | [] => None
    | usages =>
        match substring_usages usages false with
        | Some true => Some (to_column p.1)
        | _ => None
        end
    end.

Definition find_substring_searches (usage : LineageAnalyzer) : list Column :=
  omap substring_search_of (map_to_list usage).

(** ** Annotations *)

Definition build_annotation_map (date_findings : list DateExtraction) (variant_findings : list VariantExtraction)
    (substring_findings : list Column) : gmap ColumnKey ColumnAnnotation :=
  let annotations := foldl (λ m e, <[from_column (de_column e) := ADatePart (de_components e)]> m) ∅ date_findings in
  let annotations :=
    foldl (λ m e, <[from_column (ve_column e) := AVariantPaths (ve_fields e)]> m) annotations variant_findings in
  foldl (λ m c, <[from_column c := ASubstringSearch]> m) annotations substring_findings.

(** The annotation of a field of the scan, by its qualified name or else by its bare name. *)
Definition annotation_of (annotations : gmap ColumnKey ColumnAnnotation) (column : Column) : option ColumnAnnotation :=
  option_or (annotations !! from_column column) (annotations !! Key None (c_name column)).

Definition annotations_for_table_scan (scan : TableScan) (annotations : gmap ColumnKey ColumnAnnotation)
    : gmap string ColumnAnnotation :=
  foldl (λ m column, match annotation_of annotations column with
                     | Some unit => <[c_name column := unit]> m
                     | None => m
                     end) ∅ (columns (ts_projected_schema scan)).

(** The registry of [factory_registry], by the address of a factory, and the
    addresses at which the next factories are allocated. *)
Record Factories : Type := Facts {
  fr_registry : gmap Z (gmap string ColumnAnnotation);
  fr_fresh : nat -> Z;
  fr_allocated : nat
}.

Definition factory_address (f : SchemaAdapterFactory) : Z :=
  match f with OtherFactory a | LineageExtractFactory a _ _ => a end.

Definition register_factory_metadata (factory : SchemaAdapterFactory) (metadata : gmap string ColumnAnnotation) (s : Factories)
    : Factories :=
  Facts (<[factory_address factory := metadata]> (fr_registry s)) (fr_fresh s) (fr_allocated s).

Definition metadata_from_factory (factory : SchemaAdapterFactory) (column : string) (s : Factories) : option ColumnAnnotation :=
  match fr_registry s !! factory_address factory with Some m => m !! column | None => None end.

Definition annotate_listing_table_source (source : TableSource) (annotations : gmap string ColumnAnnotation) (s : Factories)
    : option TableSource * Factories :=
  if decide (annotations = ∅) then (None, s)
  else
    match source with
    | OtherSource _ => (None, s)
    | ListingTable table base_factory =>
        let new_factory := LineageExtractFactory (fr_fresh s (fr_allocated s)) base_factory annotations in
        let s := Facts (fr_registry s) (fr_fresh s) (S (fr_allocated s)) in
        (Some (ListingTable table (Some new_factory)), register_factory_metadata new_factory annotations s)
    end.

(** The closure of [annotate_plan_with_extractions], with whether it changed the scan. *)
Definition annotate_scan (annotations : gmap ColumnKey ColumnAnnotation) (scan : TableScan) (s : Factories)
    : bool * TableScan * Factories :=
  let table_annotations := annotations_for_table_scan scan annotations in
  match annotate_listing_table_source (ts_source scan) table_annotations s with
  | (Some source, s) => (true, Scan source (ts_projected_schema scan) (ts_filters scan), s)
  | (None, s) => (false, scan, s)
  end.

(** [transform_up] with a closure that only rewrites table scans. *)
Section transform.
Context (f : TableScan -> Factories -> bool * TableScan * Factories).

Fixpoint transform_scans (plan : LogicalPlan) (s : Factories) : bool * LogicalPlan * Factories :=
  let on_input (input : LogicalPlan) (rebuild : LogicalPlan -> LogicalPlan) :=
    let '(changed, input, s) := transform_scans input s in (changed, rebuild input, s) in
  let fix on_inputs (inputs : list LogicalPlan) (s : Factories) : bool * list LogicalPlan * Factories :=
    match inputs with
    | [] => (false, [], s)
    | input :: inputs =>
        let '(c1, input, s) := transform_scans input s in
        let '(c2, inputs, s) := on_inputs inputs s in
        ((c1 || c2)%bool, input :: inputs, s)
    end in
  match plan with
  | LTableScan scan => let '(changed, scan, s) := f scan s in (changed, LTableScan scan, s)
  | LProjection expr input schema => on_input input (λ i, LProjection expr i schema)
  | LFilter predicate input => on_input input (LFilter predicate)
  | LAggregate input g a schema => on_input input (λ i, LAggregate i g a schema)
  | LSort expr input => on_input input (LSort expr)
  | LJoin left_plan right_plan on filter join_type schema =>
      let '(c1, left_plan, s) := transform_scans left_plan s in
      let '(c2, right_plan, s) := transform_scans right_plan s in
      ((c1 || c2)%bool, LJoin left_plan right_plan on filter join_type schema, s)
  | LSubqueryAlias input schema => on_input input (λ i, LSubqueryAlias i schema)
  | LWindow input w schema => on_input input (λ i, LWindow i w schema)
  | LLimit skip fetch input => on_input input (LLimit skip fetch)
  | LRepartition input scheme => on_input input (λ i, LRepartition i scheme)
  | LUnion inputs schema => let '(c, inputs, s) := on_inputs inputs s in (c, LUnion inputs schema, s)
  | LDistinctAll input => on_input input LDistinctAll
  | LDistinctOn o e so input schema => on_input input (λ i, LDistinctOn o e so i schema)
  | LOther inputs schema => let '(c, inputs, s) := on_inputs inputs s in (c, LOther inputs schema, s)
  end.
End transform.

Definition annotate_plan_with_extractions (plan : LogicalPlan) (annotations : gmap ColumnKey ColumnAnnotation) (s : Factories)
    : bool * LogicalPlan * Factories :=
  if decide (annotations = ∅) then (false, plan, s) else transform_scans (annotate_scan annotations) plan s.

(** [LineageOptimizer::rewrite]. *)
Definition plan_annotations (table_usage : LineageAnalyzer) : gmap ColumnKey ColumnAnnotation :=
  let by_name {A} (column : A -> Column) (a b : A) := String.compare (flat_name (column a)) (flat_name (column b)) in
  let date_findings := sort_with (by_name de_column) (find_date32_extractions table_usage) in
  let variant_findings := sort_with variant_extraction_compare (find_variant_gets table_usage) in
  let substring_findings := sort_with (by_name id) (find_substring_searches table_usage) in
  build_annotation_map date_findings variant_findings substring_findings.

Definition rewrite (plan : LogicalPlan) (s : Factories) : option (bool * LogicalPlan * Factories) :=
  '(_, table_usage) ← analyze_plan plan ∅;
  Some (annotate_plan_with_extractions plan (plan_annotations table_usage) s).

(** The text of a set of units in the metadata of a field. *)
Definition serialize_date_part (units : gset SupportedIntervalUnit) : string :=
  join_comma (metadata_value <$> sort_with (λ a b, Nat.compare (unit_rank a) (unit_rank b)) (elements units)).
End findings.
