(* ===== verification/LineageSpec.v ===== *)
(** * What the annotations of the lineage optimizer promise

    The semantics of the expressions and plans of [Lineage] over rows, and the
    soundness of the analysis: a query does not tell apart two databases that
    agree on the annotated components of a date column.  The functions of
    DataFusion are parameters. *)

From stdpp Require Import base list strings gmap sorting.
From Stdlib Require Import ZArith Ascii String Lia.
From S2P Require Import Prelude CivilDate DataTypes Expressions Lineage.

(** ** Induction on expressions and plans *)

Section expr_induction.
Context (P : Expr -> Prop).
Context (Hcol : ∀ c, P (EColumn c)) (Halias : ∀ e, P e -> P (EAlias e))
  (Hfun : ∀ n args, Forall P args -> P (EScalarFunction n args))
  (Hlike : ∀ n e p esc ci, P e -> P p -> P (ELike n e p esc ci))
  (Hcast : ∀ e t, P e -> P (ECast e t)) (Htry : ∀ e t, P e -> P (ETryCast e t)) (Hlit : ∀ v, P (ELiteral v))
  (Hsub : ∀ n, P (EScalarSubquery n)) (Hex : ∀ n, P (EExists n)) (Hph : ∀ s, P (EPlaceholder s)) (Hwild : P EWildcard)
  (Hother : ∀ c children, Forall P children -> P (EOther c children)).

Fixpoint expr_ind' (e : Expr) : P e :=
  let fix all (l : list Expr) : Forall P l :=
    match l with [] => Forall_nil_2 P | e :: l => Forall_cons_2 P e l (expr_ind' e) (all l) end in
  match e with
  | EColumn c => Hcol c
  | EAlias e => Halias e (expr_ind' e)
  | EScalarFunction n args => Hfun n args (all args)
  | ELike n e p esc ci => Hlike n e p esc ci (expr_ind' e) (expr_ind' p)
  | ECast e t => Hcast e t (expr_ind' e)
  | ETryCast e t => Htry e t (expr_ind' e)
  | ELiteral v => Hlit v
  | EScalarSubquery n => Hsub n
  | EExists n => Hex n
  | EPlaceholder s => Hph s
  | EWildcard => Hwild
  | EOther c children => Hother c children (all children)
  end.
End expr_induction.

Section plan_induction.
Context (P : LogicalPlan -> Prop).
Context (Hscan : ∀ s, P (LTableScan s)) (Hproj : ∀ e i s, P i -> P (LProjection e i s)) (Hfilter : ∀ e i, P i -> P (LFilter e i))
  (Hagg : ∀ i g a s, P i -> P (LAggregate i g a s)) (Hsort : ∀ e i, P i -> P (LSort e i))
  (Hjoin : ∀ l r on f t s, P l -> P r -> P (LJoin l r on f t s)) (Halias : ∀ i s, P i -> P (LSubqueryAlias i s))
  (Hwin : ∀ i w s, P i -> P (LWindow i w s)) (Hlimit : ∀ a b i, P i -> P (LLimit a b i))
  (Hrep : ∀ i s, P i -> P (LRepartition i s)) (Hunion : ∀ ps s, Forall P ps -> P (LUnion ps s))
  (Hall : ∀ i, P i -> P (LDistinctAll i)) (Hon : ∀ o e so i s, P i -> P (LDistinctOn o e so i s))
  (Hother : ∀ ps s, Forall P ps -> P (LOther ps s)).

Fixpoint plan_ind' (p : LogicalPlan) : P p :=
  let fix all (l : list LogicalPlan) : Forall P l :=
    match l with [] => Forall_nil_2 P | e :: l => Forall_cons_2 P e l (plan_ind' e) (all l) end in
  match p with
  | LTableScan s => Hscan s
  | LProjection e i s => Hproj e i s (plan_ind' i)
  | LFilter e i => Hfilter e i (plan_ind' i)
  | LAggregate i g a s => Hagg i g a s (plan_ind' i)
  | LSort e i => Hsort e i (plan_ind' i)
  | LJoin l r on f t s => Hjoin l r on f t s (plan_ind' l) (plan_ind' r)
  | LSubqueryAlias i s => Halias i s (plan_ind' i)
  | LWindow i w s => Hwin i w s (plan_ind' i)
  | LLimit a b i => Hlimit a b i (plan_ind' i)
  | LRepartition i s => Hrep i s (plan_ind' i)
  | LUnion ps s => Hunion ps s (all ps)
  | LDistinctAll i => Hall i (plan_ind' i)
  | LDistinctOn o e so i s => Hon o e so i s (plan_ind' i)
  | LOther ps s => Hother ps s (all ps)
  end.
End plan_induction.

(** ** Semantics *)

(** The functions of DataFusion on the values of cells.  [component] is what
    [date_part] returns for the units the optimizer supports. *)
Class QuerySemantics `{DataFusionLib} (V : Type) : Type := {
  v_null : V;
  is_true : V -> bool;
  as_usize : V -> nat;
  literal_value : ScalarValue -> V;
  placeholder_value : string -> V;
  call : string -> list V -> V;
  component : SupportedIntervalUnit -> V -> V;
  like : bool -> option ascii -> bool -> V -> V -> V;
  cast : DataType -> V -> V;
  try_cast : DataType -> V -> V;
  operator : string -> list V -> V;
  aggregate : string -> list (list V) -> V;
  window : string -> list (list V) -> list V;
  order : list (bool * bool) -> list (list V) -> list nat;
  group : list (list V) -> list (list nat);
  distinct : list (list V) -> list (list V) -> list nat;
  match_rows : JoinType -> list (list V) -> list (list V) -> list (list bool) -> list (option nat * option nat);
  constant_rows : DFSchema -> list (list V)
}.

(** [date_part] on a supported unit is its component, whatever the case of its name;
    constant rows have the columns of their schema. *)
Class QueryLaws `{DataFusionLib} (V : Type) `{!QuerySemantics V} : Prop := {
  call_date_part name part c v :
    date_part_call name (ELiteral part) = Some c -> call name [literal_value part; v] = component c v;
  constant_rows_length schema : Forall (λ r, List.length r = List.length schema) (constant_rows schema)
}.

Section semantics.
Context `{DataFusionLib} {V : Type} `{!QuerySemantics V}.

Fixpoint column_index (column : Column) (schema : list Column) : option nat :=
  match schema with
  | [] => None
  | c :: schema => if decide (from_column c = from_column column) then Some 0 else S <$> column_index column schema
  end.

(** The cell of a column; an expression of a valid plan names its columns as the schema does. *)
Definition cell (schema : list Column) (row : list V) (column : Column) : V :=
  match column_index column schema with Some i => default v_null (row !! i) | None => v_null end.

Fixpoint eval (schema : list Column) (row : list V) (e : Expr) : V :=
  match e with
  | EColumn column => cell schema row column
  | EAlias e => eval schema row e
  | EScalarFunction name args => call name (eval schema row <$> args)
  | ELike negated e pattern escape ci => like negated escape ci (eval schema row e) (eval schema row pattern)
  | ECast e t => cast t (eval schema row e)
  | ETryCast e t => try_cast t (eval schema row e)
  | ELiteral v => literal_value v
  | EPlaceholder id => placeholder_value id
  | EScalarSubquery _ | EExists _ | EWildcard => v_null
  | EOther code children => operator code (eval schema row <$> children)
  end.

Definition eval_list (schema : list Column) (es : list Expr) (row : list V) : list V := eval schema row <$> es.

(** An aggregate over the rows of a group, a window function over all rows. *)
Fixpoint eval_aggregate (schema : list Column) (rows : list (list V)) (e : Expr) : V :=
  match e with
  | EAlias e => eval_aggregate schema rows e
  | EOther code children => aggregate code ((λ c, (λ row, eval schema row c) <$> rows) <$> children)
  | _ => v_null
  end.

Fixpoint eval_window (schema : list Column) (rows : list (list V)) (e : Expr) : list V :=
  match e with
  | EAlias e => eval_window schema rows e
  | EOther code children => window code ((λ c, (λ row, eval schema row c) <$> rows) <$> children)
  | _ => []
  end.

Definition pick {A} (rows : list A) (positions : list nat) : list A := omap (λ i, rows !! i) positions.

(** The row of one side of a join, or nulls. *)
Definition side_row (width : nat) (rows : list (list V)) (i : option nat) : list V :=
  match i with Some i => default (repeat v_null width) (rows !! i) | None => repeat v_null width end.

(** A right semi or anti join returns the rows of its right side. *)
Definition keeps_right (t : JoinType) : bool := match t with JRightSemi | JRightAnti => true | _ => false end.

(** What the scans return, before their filters. *)
Context (database : TableScan -> list (list V)).

Fixpoint run (plan : LogicalPlan) : list (list V) :=
  match plan with
  | LTableScan scan =>
      let cols := columns (ts_projected_schema scan) in
      List.filter (λ row, forallb is_true (eval_list cols (ts_filters scan) row)) (database scan)
  | LProjection exprs input _ => eval_list (columns (plan_schema input)) exprs <$> run input
  | LFilter predicate input => List.filter (λ row, is_true (eval (columns (plan_schema input)) row predicate)) (run input)
  | LAggregate input group_expr aggr_expr _ =>
      let cols := columns (plan_schema input) in
      let rows := run input in
      (λ positions,
         let members := pick rows positions in
         eval_list cols group_expr (default [] (head members)) ++ (eval_aggregate cols members <$> aggr_expr))
      <$> group (eval_list cols group_expr <$> rows)
  | LSort exprs input =>
      let rows := run input in pick rows (order exprs.*2 (eval_list (columns (plan_schema input)) exprs.*1 <$> rows))
  | LJoin left_plan right_plan on filter join_type schema =>
      let lcols := columns (plan_schema left_plan) in
      let rcols := columns (plan_schema right_plan) in
      let lrows := run left_plan in
      let rrows := run right_plan in
      let joined i j := side_row (List.length lcols) lrows i ++ side_row (List.length rcols) rrows j in
      let output i j := if keeps_right join_type then side_row (List.length rcols) rrows j else joined i j in
      let accepts i j :=
        match filter with Some f => is_true (eval (lcols ++ rcols) (joined (Some i) (Some j)) f) | None => true end in
      let accepted := (λ i, accepts i <$> seq 0 (List.length rrows)) <$> seq 0 (List.length lrows) in
      (λ p, take (List.length schema) (output p.1 p.2))
      <$> match_rows join_type (eval_list lcols on.*1 <$> lrows) (eval_list rcols on.*2 <$> rrows) accepted
  | LSubqueryAlias input _ => run input
  | LWindow input window_expr _ =>
      let rows := run input in
      let added := eval_window (columns (plan_schema input)) rows <$> window_expr in
      imap (λ i row, row ++ ((λ w, default v_null (w !! i)) <$> added)) rows
  | LLimit skip fetch input =>
      let cols := columns (plan_schema input) in
      let bound e := as_usize (eval cols [] e) in
      let rows := drop (default 0 (bound <$> skip)) (run input) in
      match fetch with Some e => take (bound e) rows | None => rows end
  | LRepartition input _ => run input
  | LUnion inputs _ => List.concat (run <$> inputs)
  | LDistinctAll input => let rows := run input in pick rows (distinct rows [])
  | LDistinctOn on_expr select_expr sort_expr input _ =>
      let cols := columns (plan_schema input) in
      let rows := run input in
      let sort_keys := eval_list cols (default [] sort_expr).*1 <$> rows in
      eval_list cols select_expr <$> pick rows (distinct (eval_list cols on_expr <$> rows) sort_keys)
  | LOther _ schema => constant_rows schema
  end.
End semantics.

(** ** Valid plans *)

Section valid.
Context `{DataFusionLib}.

Definition is_literal (e : Expr) : bool := match e with ELiteral _ => true | _ => false end.

(** The type that [variant_get] is given is a literal. *)
Definition literal_hint (name : string) (args : list Expr) : bool :=
  match args with
  | [_; _; type_hint] => negb (eq_ignore_ascii_case name "variant_get") || is_literal type_hint
  | _ => true
  end.

(** An expression whose columns are those of the schema, once subqueries have
    become joins and wildcards have been expanded. *)
Fixpoint valid_expr (schema : list Column) (e : Expr) : bool :=
  match e with
  | EColumn column => bool_decide (from_column column ∈ from_column <$> schema)
  | EAlias e | ECast e _ | ETryCast e _ => valid_expr schema e
  | EScalarFunction name args => literal_hint name args && forallb (valid_expr schema) args
  | ELike _ e pattern _ _ => valid_expr schema e && valid_expr schema pattern
  | ELiteral _ | EPlaceholder _ => true
  | EScalarSubquery _ | EExists _ | EWildcard => false
  | EOther _ children => forallb (valid_expr schema) children
  end.

Definition valid_exprs (schema : list Column) (es : list Expr) : bool := forallb (valid_expr schema) es.

(** An aggregate or window function, possibly renamed. *)
Fixpoint is_operator (e : Expr) : bool :=
  match e with EAlias e => is_operator e | EOther _ _ => true | _ => false end.

Definition distinct_columns (schema : DFSchema) : bool := bool_decide (NoDup (from_column <$> columns schema)).

Definition keeps_left_first (t : JoinType) : bool :=
  match t with JInner | JLeft | JRight | JFull | JLeftSemi | JLeftAnti => true | _ => false end.

(** The names of an input of a union are those of its output, in their order. *)
Definition same_names (a b : list Column) : bool := bool_decide (c_name <$> a = c_name <$> b).

(** Every column of the result comes out of a recorded expression. *)
Fixpoint computed_output (plan : LogicalPlan) : bool :=
  match plan with
  | LProjection _ _ _ | LAggregate _ _ _ _ | LDistinctOn _ _ _ _ _ | LOther _ _ => true
  | LFilter _ input | LSort _ input | LLimit _ _ input | LRepartition input _ | LSubqueryAlias input _ | LDistinctAll input
  | LWindow input _ _ => computed_output input
  | LJoin left_plan right_plan _ _ _ _ => computed_output left_plan && computed_output right_plan
  | LUnion inputs _ => forallb computed_output inputs
  | LTableScan _ => false
  end.

(** Schemas name each column once, and expressions name the columns of their
    input.  Where the analysis does not follow the columns (below a right semi or anti
    join, a union whose inputs name them differently, a DISTINCT over whole rows), the
    inputs compute theirs. *)
Fixpoint valid_plan (plan : LogicalPlan) : bool :=
  distinct_columns (plan_schema plan)
  && match plan with
     | LTableScan scan => valid_exprs (columns (ts_projected_schema scan)) (ts_filters scan)
     | LProjection exprs input schema =>
         valid_plan input && valid_exprs (columns (plan_schema input)) exprs && (List.length exprs =? List.length schema)%nat
     | LFilter predicate input => valid_plan input && valid_expr (columns (plan_schema input)) predicate
     | LAggregate input group_expr aggr_expr schema =>
         valid_plan input && valid_exprs (columns (plan_schema input)) (group_expr ++ aggr_expr)
         && forallb is_operator aggr_expr && (List.length (group_expr ++ aggr_expr) =? List.length schema)%nat
     | LSort exprs input => valid_plan input && valid_exprs (columns (plan_schema input)) exprs.*1
     | LJoin left_plan right_plan on filter join_type schema =>
         let lcols := columns (plan_schema left_plan) in
         let rcols := columns (plan_schema right_plan) in
         valid_plan left_plan && valid_plan right_plan && valid_exprs lcols on.*1 && valid_exprs rcols on.*2
         && valid_exprs (lcols ++ rcols) (option_exprs filter)
         && if keeps_right join_type
            then computed_output left_plan && computed_output right_plan && (List.length schema =? List.length rcols)%nat
            else keeps_left_first join_type && (List.length schema <=? List.length lcols + List.length rcols)%nat
     | LSubqueryAlias input schema => valid_plan input && (List.length schema =? List.length (plan_schema input))%nat
     | LWindow input window_expr schema =>
         valid_plan input && valid_exprs (columns (plan_schema input)) window_expr && forallb is_operator window_expr
         && (List.length schema =? List.length (plan_schema input) + List.length window_expr)%nat
     | LLimit skip fetch input =>
         valid_plan input && valid_exprs (columns (plan_schema input)) (option_exprs skip ++ option_exprs fetch)
     | LRepartition input scheme =>
         valid_plan input
         && match scheme with
            | HashPartitioning exprs _ | DistributeBy exprs => valid_exprs (columns (plan_schema input)) exprs
            | RoundRobinBatch _ => true
            end
     | LUnion inputs schema =>
         forallb valid_plan inputs
         && (forallb (λ i, same_names (columns (plan_schema i)) (columns schema)) inputs
             || forallb computed_output inputs && forallb (λ i, List.length (plan_schema i) =? List.length schema)%nat inputs)
     | LDistinctOn on_expr select_expr sort_expr input schema =>
         let cols := columns (plan_schema input) in
         valid_plan input && valid_exprs cols on_expr && valid_exprs cols select_expr
         && valid_exprs cols (default [] sort_expr).*1 && (List.length select_expr =? List.length schema)%nat
     | LDistinctAll input => valid_plan input && computed_output input
     | LOther inputs _ => match inputs with [] => true | _ => false end
     end.
End valid.
