(* ===== verification/LineageSound.v ===== *)
(** * Soundness of the lineage analysis

    What an analysis that only recorded uses through the annotated components says
    of two runs: expression by expression, then node by node, and the theorems. *)

From stdpp Require Import base list strings gmap sorting.
From Stdlib Require Import ZArith Ascii String Lia.
From S2P Require Import Prelude CivilDate DataTypes Expressions Lineage LineageSpec.

(** ** What is recorded *)

(** A property of an analysis that only holds once nothing forbidden has been
    recorded: [d] is the column, [U] its annotated components. *)
Section recorded.
Context `{DataFusionLib} (d : ColumnKey) (U : gset SupportedIntervalUnit).

Definition clean_operations (ops : list Operation) : Prop :=
  match ops with OExtract u :: _ => u ∈ U | _ => False end.

Definition clean (u : ColumnUsage) : Prop := cu_base u = d -> clean_operations (cu_operations u).

(** Also uses of the column as it is. *)
Definition clean_or_raw (u : ColumnUsage) : Prop :=
  cu_base u = d -> cu_operations u = [] \/ clean_operations (cu_operations u).

Definition clean_stats (s : LineageAnalyzer) : Prop := ∀ st, s !! d = Some st -> Forall clean_operations (us_usages st).

Definition backward {A} (m : analysis A) : Prop := ∀ s a s', m s = Some (a, s') -> clean_stats s' -> clean_stats s.
Definition yields {A} (m : analysis A) (Q : A -> Prop) : Prop := ∀ s a s', m s = Some (a, s') -> clean_stats s' -> Q a.

Lemma record_usage_clean s u : clean_stats (record_usage s u) -> clean_stats s /\ clean u.
Proof.
  unfold clean_stats, record_usage. destruct (decide (cu_base u = d)) as [E|E].
  - intros Hs. rewrite E in Hs. specialize (Hs _ (lookup_insert_eq _ _ _)). cbn in Hs. apply Forall_app in Hs as [Ha Hb].
    split; [|intros _; by inversion Hb]. intros st Hst. by rewrite Hst in Ha.
  - intros Hs. split; [|by intros ?]. intros st Hst. apply Hs. cbv zeta. by rewrite lookup_insert_ne.
Qed.

Lemma record_clean us s : clean_stats (foldl record_usage s us) -> clean_stats s /\ Forall clean us.
Proof.
  revert s. induction us as [|u us IH]; intros s Hs; [done|]. cbn in Hs. apply IH in Hs as [Hs Hus].
  apply record_usage_clean in Hs as [Hs Hu]. by split; [|constructor].
Qed.

Lemma backward_ret {A} (a : A) : backward (mret a).
Proof. by intros s a' s' [= -> ->]. Qed.

Lemma backward_bind {A B} (m : analysis A) (f : A -> analysis B) : backward m -> (∀ a, backward (f a)) -> backward (m ≫= f).
Proof.
  intros Hm Hf s b s'' E Hs. unfold mbind, analysis_bind in E. destruct (m s) as [[a s']|] eqn:Em; [|done].
  eapply Hm; [exact Em|]. by eapply Hf.
Qed.

Lemma backward_lift {A} (r : option A) : backward (lift_result r).
Proof. intros s a s' E. unfold lift_result in E. destruct r; [|done]. by injection E as <- <-. Qed.

Lemma backward_record us : backward (record us).
Proof. intros s a s' [= <- <-] Hs. by apply record_clean in Hs as [? _]. Qed.

Lemma yields_ret {A} (a : A) (Q : A -> Prop) : Q a -> yields (mret a) Q.
Proof. by intros Q' s a' s' [= <- <-]. Qed.

Lemma yields_bind {A B} (m : analysis A) (f : A -> analysis B) (P : A -> Prop) (Q : B -> Prop) :
  (∀ a, backward (f a)) -> yields m P -> (∀ a, P a -> yields (f a) Q) -> yields (m ≫= f) Q.
Proof.
  intros Hb Hm Hf s b s'' E Hs. unfold mbind, analysis_bind in E. destruct (m s) as [[a s']|] eqn:Em; [|done].
  eapply Hf; [|exact E|exact Hs]. eapply Hm; [exact Em|]. by eapply Hb.
Qed.

Lemma yields_lift {A} (r : option A) (Q : A -> Prop) : (∀ a, r = Some a -> Q a) -> yields (lift_result r) Q.
Proof. intros Hr s a s' E _. unfold lift_result in E. destruct r as [a'|]; [|done]. injection E as <- <-. by apply Hr. Qed.

Lemma yields_weaken {A} (m : analysis A) (P Q : A -> Prop) : yields m P -> (∀ a, P a -> Q a) -> yields m Q.
Proof. intros Hm HPQ s a s' E Hs. eapply HPQ, Hm; eauto. Qed.

Lemma yields_record us : yields (record us) (λ _, Forall clean us).
Proof. intros s a s' [= <- <-] Hs. by apply record_clean in Hs as [_ ?]. Qed.

Ltac backward := repeat first
  [ apply backward_ret | apply backward_lift | apply backward_record | assumption
  | apply backward_bind; [|intros ?] ].

Section methods.
Context (m : LineageMap) (schema : DFSchema).

(** The lineage of an expression that may be recorded. *)
Definition recorded (e : Expr) (us : list ColumnUsage) : Prop := lineage_for_expr m schema e = Some us /\ Forall clean us.

Lemma backward_record_expr e : backward (record_expr m schema e).
Proof. unfold record_expr. backward. Qed.

Lemma yields_record_expr e : yields (record_expr m schema e) (recorded e).
Proof.
  unfold record_expr. eapply yields_bind; [intros; backward|apply (yields_lift _ (λ us, lineage_for_expr m schema e = Some us)); done|].
  intros us Hus. eapply yields_bind; [intros; backward|apply yields_record|]. intros [] Hc. apply yields_ret. by split.
Qed.

Lemma backward_record_exprs es : backward (record_exprs m schema es).
Proof.
  induction es as [|e es IH]; cbn [record_exprs]; [backward|]. apply backward_bind; [apply backward_record_expr|intros ?; exact IH].
Qed.

Lemma yields_record_exprs es : yields (record_exprs m schema es) (λ _, Forall (λ e, ∃ us, recorded e us) es).
Proof.
  induction es as [|e es IH]; cbn [record_exprs]; [by apply yields_ret|].
  eapply yields_bind; [intros; apply backward_record_exprs|apply yields_record_expr|]. intros us Hus.
  eapply yields_weaken; [exact IH|]. intros [] Hes. constructor; [by exists us|done].
Qed.

Lemma backward_project pairs out : backward (project_exprs m schema pairs out).
Proof.
  revert out. induction pairs as [|[e c] pairs IH]; intros out; cbn [project_exprs]; [backward|].
  apply backward_bind; [apply backward_record_expr|intros us; apply IH].
Qed.

Lemma yields_project pairs out :
  yields (project_exprs m schema pairs out)
    (λ out', Forall (λ p, ∃ us, recorded p.1 us) pairs /\ ∀ k, k ∉ from_column <$> pairs.*2 -> out' !! k = out !! k).
Proof.
  revert out. induction pairs as [|[e c] pairs IH]; intros out; cbn [project_exprs]; [apply yields_ret; by split; [constructor|]|].
  eapply yields_bind; [intros; apply backward_project|apply yields_record_expr|]. intros us Hus.
  eapply yields_weaken; [apply IH|]. intros out' [Hp Hk]. split; [constructor; [by exists us|done]|].
  cbn. intros k Hnot. rewrite Hk by set_solver. apply lookup_insert_ne. set_solver.
Qed.

Lemma backward_select pairs out : backward (select_usages m schema pairs out).
Proof.
  revert out. induction pairs as [|[e c] pairs IH]; intros out; cbn [select_usages]; [backward|].
  apply backward_bind; [apply backward_lift|intros us; apply IH].
Qed.

Lemma backward_aggregate cols es out : backward (aggregate_columns m schema cols es out).
Proof.
  revert es out. induction cols as [|c cols IH]; intros es out; cbn [aggregate_columns]; [backward|].
  destruct es as [|e es]; [apply IH|]. apply backward_bind; [apply backward_record_expr|intros us; apply IH].
Qed.

Lemma yields_aggregate cols es out :
  yields (aggregate_columns m schema cols es out)
    (λ _, (List.length es <= List.length cols)%nat -> Forall (λ e, ∃ us, recorded e us) es).
Proof.
  revert es out. induction cols as [|c cols IH]; intros es out; cbn [aggregate_columns].
  { apply yields_ret. destruct es; cbn; [done|lia]. }
  destruct es as [|e es]; [eapply yields_weaken; [apply (IH [])|]; by constructor|].
  eapply yields_bind; [intros; apply backward_aggregate|apply yields_record_expr|]. intros us Hus.
  eapply yields_weaken; [apply IH|]. cbn. intros out' Hes Hlen. constructor; [by exists us|apply Hes; lia].
Qed.
End methods.


Lemma backward_inputs (analyze : LogicalPlan -> analysis LineageMap) inputs :
  Forall (λ p, backward (analyze p)) inputs -> backward (analyze_inputs_with analyze inputs).
Proof.
  induction 1 as [|p ps Hp Hps IH]; cbn [analyze_inputs_with]; [backward|].
  apply backward_bind; [done|]. intros m. apply backward_bind; [exact IH|intros ms; backward].
Qed.

Lemma backward_join_keys lm rm ls rs on : backward (record_join_keys lm rm ls rs on).
Proof.
  induction on as [|[l r] on IH]; cbn [record_join_keys]; [backward|].
  apply backward_bind; [apply backward_record_expr|intros ?]. apply backward_bind; [apply backward_record_expr|intros ?; exact IH].
Qed.

Lemma yields_join_keys lm rm ls rs on :
  yields (record_join_keys lm rm ls rs on)
    (λ _, Forall (λ p, (∃ us, recorded lm ls p.1 us) /\ (∃ us, recorded rm rs p.2 us)) on).
Proof.
  induction on as [|[l r] on IH]; cbn [record_join_keys]; [by apply yields_ret|].
  eapply yields_bind; [|apply yields_record_expr|].
  { intros ?. apply backward_bind; [apply backward_record_expr|intros ?; apply backward_join_keys]. }
  intros us Hus. eapply yields_bind; [intros ?; apply backward_join_keys|apply yields_record_expr|]. intros vs Hvs.
  eapply yields_weaken; [exact IH|]. intros [] Hon. constructor; [split; by eexists|done].
Qed.

Ltac backward_all :=
  repeat first [ apply backward_ret | apply backward_lift | apply backward_record_expr | apply backward_record_exprs
               | apply backward_project | apply backward_aggregate | apply backward_select | apply backward_join_keys
               | assumption | apply backward_inputs; assumption | apply backward_bind; [|intros ?]
               | match goal with
                 | |- backward (match ?x with _ => _ end) => destruct x
                 | |- backward (let '(_, _) := ?x in _) => destruct x
                 end
               | progress unfold analyze_table_scan, analyze_projection, analyze_filter, analyze_aggregate, analyze_sort,
                   analyze_join, analyze_window, analyze_limit, analyze_repartition, analyze_distinct_on ].

Lemma backward_plan p : backward (analyze_plan p).
Proof. induction p using plan_ind'; cbn [analyze_plan]; backward_all. Qed.

(** ** Related values *)

Section related.
Context {V : Type} `{!QuerySemantics V} `{!QueryLaws V}.

(** Two values that the components in [U] do not tell apart. *)
Definition agree (v w : V) : Prop := ∀ u, u ∈ U -> component u v = component u w.

(** What a list of usages says of a value in two runs. *)
Definition related (us : list ColumnUsage) (v w : V) : Prop :=
  (Forall clean us -> v = w) /\ (Forall clean_or_raw us -> agree v w).

Definition related_at (o : option (list ColumnUsage)) (v w : V) : Prop :=
  match o with Some us => related us v w | None => v = w end.

Lemma clean_raw u : clean u -> clean_or_raw u.
Proof. intros Hc E. right. by apply Hc. Qed.

Lemma related_refl us v : related us v v.
Proof. by split. Qed.

Lemma related_at_refl o v : related_at o v v.
Proof. destruct o; [apply related_refl|done]. Qed.

Lemma related_subset us us' v w : us ⊆ us' -> related us v w -> related us' v w.
Proof. intros Hs [Hc Hr]. split; intros F; [apply Hc|apply Hr]; rewrite Forall_forall in F |- *; auto. Qed.

Lemma related_default o v w : related_at o v w -> related (default [] o) v w.
Proof. destruct o as [us|]; [done|]. intros ->. apply related_refl. Qed.

Lemma clean_operations_app ops rest : ops <> [] -> clean_operations (ops ++ rest) -> clean_operations ops.
Proof. by destruct ops as [|op ops]. Qed.

(** An operation that needs the whole value. *)
Lemma clean_push op us : (∀ u, op <> OExtract u) -> Forall clean (push_operation op <$> us) -> Forall clean us.
Proof.
  intros Hop. rewrite Forall_fmap. intros F. eapply Forall_impl; [exact F|]. intros u Hu E. specialize (Hu E). cbn in Hu.
  destruct (cu_operations u) as [|o ops]; [|exact (clean_operations_app (o :: ops) _ ltac:(done) Hu)].
  cbn in Hu. destruct op; try done. by destruct (Hop unit).
Qed.

Lemma pushed_raw_clean op us : Forall clean_or_raw (push_operation op <$> us) -> Forall clean (push_operation op <$> us).
Proof.
  rewrite !Forall_fmap. intros F. eapply Forall_impl; [exact F|]. intros u Hu E. destruct (Hu E) as [H0|Hc]; [|done].
  cbn in H0. by apply app_eq_nil in H0 as [_ ?].
Qed.

Lemma related_pushed op us v w :
  (Forall clean (push_operation op <$> us) -> v = w) -> related (push_operation op <$> us) v w.
Proof. intros Hv. split; [done|]. intros F%pushed_raw_clean. rewrite (Hv F). by intros u. Qed.

Lemma related_push op us v w v' w' :
  (∀ u, op <> OExtract u) -> related us v w -> (v = w -> v' = w') -> related (push_operation op <$> us) v' w'.
Proof. intros Hop [Hc _] Hf. apply related_pushed. intros F. by apply Hf, Hc, (clean_push op). Qed.

Lemma related_extract c us v w :
  related us v w -> related (push_operation (OExtract c) <$> us) (component c v) (component c w).
Proof.
  intros [Hc Hr]. apply related_pushed. rewrite Forall_fmap. intros F.
  destruct (decide (c ∈ U)) as [Hin|Hout].
  - apply Hr; [|done]. eapply Forall_impl; [exact F|]. intros u Hu E. specialize (Hu E). cbn in Hu.
    destruct (cu_operations u) as [|o ops]; [by left|]. right. exact (clean_operations_app (o :: ops) _ ltac:(done) Hu).
  - f_equal. apply Hc. eapply Forall_impl; [exact F|]. intros u Hu E. specialize (Hu E). cbn in Hu.
    destruct (cu_operations u) as [|o ops]; [done|]. exact (clean_operations_app (o :: ops) _ ltac:(done) Hu).
Qed.

(** ** Expressions *)

Definition related_cells (S : list Column) (L : LineageMap) (r1 r2 : list V) : Prop :=
  ∀ column, related_at (L !! from_column column) (cell S r1 column) (cell S r2 column).

Section expressions.
Context (S : list Column) (L : LineageMap) (schema : DFSchema) (r1 r2 : list V) (Hcells : related_cells S L r1 r2).

Definition sound (e : Expr) : Prop :=
  ∀ us, valid_expr S e = true -> lineage_for_expr L schema e = Some us -> related us (eval S r1 e) (eval S r2 e).

Lemma propagate_sound es us :
  Forall sound es -> forallb (valid_expr S) es = true ->
  propagate_other_with (lineage_for_expr L schema) es = Some us ->
  Forall clean us -> eval S r1 <$> es = eval S r2 <$> es.
Proof.
  intros Hes. revert us. induction Hes as [|e es He Hes IH]; intros us Hv E F; [done|].
  cbn in Hv. apply andb_true_iff in Hv as [Hve Hves]. cbn [propagate_other_with] in E.
  destruct (lineage_for_expr L schema e) as [u|] eqn:Eu; [|done]. cbn [mbind option_bind] in E.
  destruct (propagate_other_with (lineage_for_expr L schema) es) as [rest|] eqn:Er; [|done]. injection E as <-.
  apply Forall_app in F as [Fu Fr]. rewrite !fmap_cons. f_equal; [|by eapply IH].
  apply (He u Hve Eu). by apply (clean_push OOther).
Qed.

Lemma other_sound es us v w :
  Forall sound es -> forallb (valid_expr S) es = true ->
  propagate_other_with (lineage_for_expr L schema) es = Some us ->
  (eval S r1 <$> es = eval S r2 <$> es -> v = w) -> related us v w.
Proof.
  intros Hes Hv E Hvw. assert (Forall clean us -> v = w) as Hc by (intros F; by eapply Hvw, propagate_sound).
  split; [done|]. intros F. rewrite Hc; [by intros u|]. clear Hc Hvw Hv Hes. revert us E F.
  induction es as [|e es IH]; intros us E F; cbn [propagate_other_with] in E; [by injection E as <-|].
  destruct (lineage_for_expr L schema e) as [u|]; [|done]. cbn [mbind option_bind] in E.
  destruct (propagate_other_with (lineage_for_expr L schema) es) as [rest|]; [|done]. injection E as <-.
  apply Forall_app in F as [Fu Fr]. apply Forall_app. split; [by apply pushed_raw_clean|by apply IH].
Qed.

Lemma literal_of e v : literal_utf8 e = Some v -> ∃ l, e = ELiteral l.
Proof. destruct e as [| | | | | |l| | | | |]; try done. by exists l. Qed.

Lemma date_part_literal name e c : date_part_call name e = Some c -> ∃ l, e = ELiteral l.
Proof.
  unfold date_part_call, part_to_unit. destruct (eq_ignore_ascii_case _ _); [|done].
  destruct (literal_utf8 e) as [v|] eqn:E; [|done]. intros _. by eapply literal_of.
Qed.

Lemma variant_get_literal name e hint get :
  variant_get_call name e hint = Some get ->
  (∃ l, e = ELiteral l) /\ eq_ignore_ascii_case name "variant_get" = true /\ ∀ u, get <> OExtract u.
Proof.
  unfold variant_get_call. destruct (eq_ignore_ascii_case _ _); [|done].
  destruct (literal_utf8 e) as [v|] eqn:E; [|done]. intros [= <-]. split; [by eapply literal_of|done].
Qed.

Lemma push_sound op e us v w :
  (∀ u, op <> OExtract u) -> sound e -> valid_expr S e = true ->
  push_all op (lineage_for_expr L schema e) = Some us -> (eval S r1 e = eval S r2 e -> v = w) -> related us v w.
Proof.
  intros Hop He Hv E Hvw. unfold push_all in E. destruct (lineage_for_expr L schema e) as [u|] eqn:Eu; [|done].
  injection E as <-. eapply related_push; [done| |exact Hvw]. by apply He.
Qed.

Lemma two_arguments_sound name a0 a1 : Forall sound [a0; a1] -> sound (EScalarFunction name [a0; a1]).
Proof.
  intros Hall us Hv E. cbn [valid_expr] in Hv. apply andb_true_iff in Hv as [_ Hv].
  assert (Hv' := Hv). cbn in Hv'. apply andb_true_iff in Hv' as [Hv0 Hv1]. rewrite andb_true_r in Hv1.
  cbn [lineage_for_expr] in E. destruct (date_part_call name a0) as [c|] eqn:Ed.
  - destruct (date_part_literal _ _ _ Ed) as [l ->]. cbn. rewrite !(call_date_part _ _ c _ Ed).
    unfold push_all in E. destruct (lineage_for_expr L schema a1) as [u|] eqn:Eu; [|done]. injection E as <-.
    apply related_extract. rewrite !Forall_cons in Hall. by apply Hall.
  - destruct (variant_get_call name a1 None) as [get|] eqn:Eg.
    + destruct (variant_get_literal _ _ _ _ Eg) as ([l ->] & _ & Hget).
      eapply push_sound; [exact Hget|by inversion Hall|done|exact E|]. cbn. by intros ->.
    + eapply other_sound; [exact Hall|exact Hv|exact E|]. cbn [eval]. by intros ->.
Qed.

Lemma three_arguments_sound name a0 a1 a2 : Forall sound [a0; a1; a2] -> sound (EScalarFunction name [a0; a1; a2]).
Proof.
  intros Hall us Hv E. cbn [valid_expr literal_hint] in Hv. apply andb_true_iff in Hv as [Hhint Hv].
  cbn [lineage_for_expr] in E. destruct (variant_get_call name a1 _) as [get|] eqn:Eg.
  - destruct (variant_get_literal _ _ _ _ Eg) as ([l ->] & Hname & Hget). rewrite Hname in Hhint. cbn in Hhint.
    destruct a2 as [| | | | | |l2| | | | |]; try done. cbn in Hv. apply andb_true_iff in Hv as [Hv0 _].
    eapply push_sound; [exact Hget|by inversion Hall|done|exact E|]. cbn. by intros ->.
  - eapply other_sound; [exact Hall|exact Hv|exact E|]. cbn [eval]. by intros ->.
Qed.

(** The usages that the analysis gives an expression say how its value depends
    on the column. *)
Lemma expression_sound e : sound e.
Proof.
  induction e using expr_ind'; intros us Hv E.
  - cbn in E |- *. specialize (Hcells c). unfold related_at in Hcells. destruct (L !! from_column c) as [u|].
    + by injection E as <-.
    + rewrite Hcells. apply related_refl.
  - cbn in Hv, E |- *. by apply IHe.
  - destruct args as [|a0 [|a1 [|a2 [|a3 args]]]];
      [|  |by apply two_arguments_sound|by apply three_arguments_sound|];
      (cbn [valid_expr literal_hint] in Hv; eapply other_sound; [eassumption|exact Hv|exact E|cbn [eval]; by intros ->]).
  - cbn [valid_expr] in Hv. cbn [lineage_for_expr] in E. destruct (substring_like _ _ _) eqn:El.
    + unfold substring_like in El. rewrite !andb_true_iff in El. destruct El as [_ El].
      destruct (literal_utf8 e2) as [v|] eqn:Ev; [|done]. destruct (literal_of _ _ Ev) as [l ->].
      apply andb_true_iff in Hv as [Hv _]. eapply (push_sound OSubstringSearch); [done|exact IHe1|done|exact E|]. cbn. by intros ->.
    + eapply (other_sound [e1; e2]); [by apply Forall_cons; split; [|apply Forall_singleton]|cbn; by rewrite andb_true_r|exact E|]. cbn. intros E2. injection E2 as -> ->. done.
  - cbn [valid_expr] in Hv. eapply (push_sound OOther); [done|exact IHe|done|exact E|]. cbn. by intros ->.
  - cbn [valid_expr] in Hv. eapply (push_sound OOther); [done|exact IHe|done|exact E|]. cbn. by intros ->.
  - apply related_refl.
  - done.
  - done.
  - apply related_refl.
  - done.
  - cbn [valid_expr] in Hv. eapply other_sound; [eassumption|exact Hv|exact E|cbn [eval]; by intros ->].
Qed.

Lemma recorded_equal e us : valid_expr S e = true -> recorded L schema e us -> eval S r1 e = eval S r2 e.
Proof. intros Hv [E F]. by apply (expression_sound e us Hv E). Qed.

Lemma recorded_list_equal es :
  valid_exprs S es = true -> Forall (λ e, ∃ us, recorded L schema e us) es -> eval_list S es r1 = eval_list S es r2.
Proof.
  unfold eval_list, valid_exprs. intros Hv F. induction F as [|e es [us He] F IH]; [done|]. cbn in Hv |- *.
  apply andb_true_iff in Hv as [Hve Hv]. f_equal; [by eapply recorded_equal|by apply IH].
Qed.
End expressions.

(** ** Rows *)

Definition row_related (S : list Column) (L : LineageMap) (r1 r2 : list V) : Prop :=
  List.length r1 = List.length S /\ List.length r2 = List.length S
  /\ ∀ i c, S !! i = Some c -> related_at (L !! from_column c) (default v_null (r1 !! i)) (default v_null (r2 !! i)).

Definition rows_related (S : list Column) (L : LineageMap) : list (list V) -> list (list V) -> Prop :=
  Forall2 (row_related S L).

Lemma column_index_at c S i : column_index c S = Some i -> ∃ c', S !! i = Some c' /\ from_column c' = from_column c.
Proof.
  revert i. induction S as [|c' S IH]; intros i E; [done|]. cbn in E. destruct (decide _) as [Ec|_].
  - injection E as <-. by exists c'.
  - destruct (column_index c S) as [j|]; [|done]. injection E as <-. by apply IH.
Qed.

Lemma row_cells S L r1 r2 : row_related S L r1 r2 -> related_cells S L r1 r2.
Proof.
  intros (_ & _ & Hr) c. unfold cell. destruct (column_index c S) as [i|] eqn:E; [|apply related_at_refl].
  destruct (column_index_at _ _ _ E) as (c' & Hc' & Ek). specialize (Hr i c' Hc'). by rewrite Ek in Hr.
Qed.

Lemma row_refl S L r : List.length r = List.length S -> row_related S L r r.
Proof. intros Hl. split; [done|]. split; [done|]. intros i c _. apply related_at_refl. Qed.

Lemma rows_refl S L rows : Forall (λ r, List.length r = List.length S) rows -> rows_related S L rows rows.
Proof. induction 1 as [|r rows Hr F IH]; constructor; [by apply row_refl|exact IH]. Qed.

Lemma pick_related {A} (R : A -> A -> Prop) l1 l2 ps : Forall2 R l1 l2 -> Forall2 R (pick l1 ps) (pick l2 ps).
Proof.
  intros F. unfold pick. induction ps as [|p ps IH]; cbn; [constructor|].
  destruct (l1 !! p) as [x|] eqn:E1.
  - destruct (Forall2_lookup_l _ _ _ _ _ F E1) as (y & -> & Hxy). by constructor.
  - assert (l2 !! p = None) as ->; [|done]. apply lookup_ge_None. apply lookup_ge_None in E1. by rewrite <- (Forall2_length _ _ _ F).
Qed.

Lemma filter_related {A} (R : A -> A -> Prop) (f : A -> bool) l1 l2 :
  Forall2 R l1 l2 -> (∀ a b, R a b -> f a = f b) -> Forall2 R (List.filter f l1) (List.filter f l2).
Proof.
  intros F Hf. induction F as [|a b l1 l2 Hab F IH]; cbn; [constructor|]. rewrite (Hf _ _ Hab). by destruct (f b); [constructor|].
Qed.

Lemma fmap_related {A B} (R : A -> A -> Prop) (f : A -> B) l1 l2 :
  Forall2 R l1 l2 -> (∀ a b, R a b -> f a = f b) -> f <$> l1 = f <$> l2.
Proof. intros F Hf. induction F as [|a b l1 l2 Hab F IH]; [done|]. rewrite !fmap_cons. by rewrite (Hf _ _ Hab), IH. Qed.

(** ** Aggregates and window functions *)

Section over_rows.
Context (S : list Column) (L : LineageMap) (schema : DFSchema) (rows1 rows2 : list (list V)).
Context (Hrows : Forall2 (related_cells S L) rows1 rows2).

Lemma arguments_equal code children us :
  valid_expr S (EOther code children) = true -> recorded L schema (EOther code children) us ->
  (λ c, (λ row, eval S row c) <$> rows1) <$> children = (λ c, (λ row, eval S row c) <$> rows2) <$> children.
Proof.
  intros Hv [E F]. cbn [valid_expr] in Hv. cbn [lineage_for_expr] in E. apply list_fmap_ext. intros i c Hc.
  eapply fmap_related; [exact Hrows|]. intros r1 r2 Hr.
  assert (eval S r1 <$> children = eval S r2 <$> children) as Hl.
  { eapply propagate_sound; [|exact Hv|exact E|exact F]. apply Forall_forall. intros e _. by apply expression_sound. }
  assert (Hi := f_equal (λ l, l !! i) Hl). cbn in Hi. rewrite !list_lookup_fmap, Hc in Hi. by injection Hi.
Qed.

Lemma aggregate_equal e us :
  is_operator e = true -> valid_expr S e = true -> recorded L schema e us ->
  eval_aggregate S rows1 e = eval_aggregate S rows2 e.
Proof.
  induction e using expr_ind'; intros Ho Hv Hr; try done.
  - by apply IHe.
  - cbn [eval_aggregate]. f_equal. by eapply arguments_equal.
Qed.

Lemma window_equal e us :
  is_operator e = true -> valid_expr S e = true -> recorded L schema e us ->
  eval_window S rows1 e = eval_window S rows2 e.
Proof.
  induction e using expr_ind'; intros Ho Hv Hr; try done.
  - by apply IHe.
  - cbn [eval_window]. f_equal. by eapply arguments_equal.
Qed.

Lemma operators_equal {B} (f : list (list V) -> Expr -> B) es :
  (∀ e us, is_operator e = true -> valid_expr S e = true -> recorded L schema e us -> f rows1 e = f rows2 e) ->
  forallb is_operator es = true -> valid_exprs S es = true -> Forall (λ e, ∃ us, recorded L schema e us) es ->
  f rows1 <$> es = f rows2 <$> es.
Proof.
  intros Hf Ho Hv F. unfold valid_exprs in Hv. induction F as [|e es [us He] F IH]; [done|].
  cbn in Ho, Hv. apply andb_true_iff in Ho as [Hoe Ho]. apply andb_true_iff in Hv as [Hve Hv].
  rewrite !fmap_cons. f_equal; [by eapply Hf|by apply IH].
Qed.
End over_rows.

(** ** Maps of output columns *)

Lemma scan_map_at schema c : c ∈ columns schema -> ∃ t, scan_map schema !! from_column c = Some [Usage (from_column c) t []].
Proof.
  unfold scan_map, columns. induction schema as [|f schema IH] using rev_ind; intros Hc; [set_solver|].
  rewrite foldl_app. cbn. destruct (decide (from_column f.1 = from_column c)) as [E|E].
  - exists f.2. rewrite E, lookup_insert_eq. unfold new_base. by rewrite E.
  - rewrite lookup_insert_ne by done. apply IH. rewrite fmap_app in Hc. set_solver.
Qed.

Lemma renamed_at m pairs i p :
  NoDup (from_column <$> pairs.*2) -> pairs !! i = Some p -> rename_columns m pairs !! from_column p.2 = Some (usages_of m p.1).
Proof.
  intros Hnd Hi. unfold rename_columns.
  apply (foldl_insert_at (λ p, from_column p.2) (λ p, usages_of m p.1) pairs ∅ i p); [|done].
  by rewrite <- list_fmap_compose in Hnd.
Qed.

Lemma renamed_related m v w c : related_at (m !! from_column c) v w -> related (usages_of m c) v w.
Proof. apply related_default. Qed.

Lemma distinct_NoDup schema : distinct_columns schema = true -> NoDup (from_column <$> columns schema).
Proof. apply bool_decide_eq_true_1. Qed.

(** ** Plans *)

Section plans.
Context (db1 db2 : TableScan -> list (list V)).

(** The rows of two databases: the column [d] agrees on its components, the
    others are the same. *)
Definition base_row (S : list Column) (r1 r2 : list V) : Prop :=
  List.length r1 = List.length S /\ List.length r2 = List.length S
  /\ ∀ i c, S !! i = Some c ->
     let v := default v_null (r1 !! i) in
     let w := default v_null (r2 !! i) in
     if decide (from_column c = d) then agree v w else v = w.

Definition databases_agree : Prop :=
  ∀ scan, Forall2 (base_row (columns (ts_projected_schema scan))) (db1 scan) (db2 scan).

Context (Hdb : databases_agree).

Definition plan_sound (p : LogicalPlan) : Prop :=
  valid_plan p = true -> yields (analyze_plan p) (λ L, rows_related (columns (plan_schema p)) L (run db1 p) (run db2 p)).

Lemma length_columns schema : List.length (columns schema) = List.length schema.
Proof. apply length_fmap. Qed.

Lemma base_row_related schema r1 r2 : base_row (columns schema) r1 r2 -> row_related (columns schema) (scan_map schema) r1 r2.
Proof.
  intros (H1 & H2 & Hr). split; [done|]. split; [done|]. intros i c Hc. specialize (Hr i c Hc). cbv zeta in Hr.
  destruct (scan_map_at schema c) as [t ->]; [by eapply list_elem_of_lookup_2|]. cbn. destruct (decide _) as [E|E].
  - split; [|done]. intros F. destruct (Forall_cons_1 _ _ _ F) as [Fu _]. by destruct (Fu E).
  - rewrite Hr. apply related_refl.
Qed.

(** The rows that recorded expressions compute are the same. *)
Lemma computed_rows {B} S L schema rows1 rows2 es (f : list V -> B) :
  rows_related S L rows1 rows2 -> valid_exprs S es = true -> Forall (λ e, ∃ us, recorded L schema e us) es ->
  (∀ r1 r2, eval_list S es r1 = eval_list S es r2 -> f r1 = f r2) -> f <$> rows1 = f <$> rows2.
Proof.
  intros Hrows Hv F Hf. eapply fmap_related; [exact Hrows|]. intros r1 r2 Hr. apply Hf.
  eapply recorded_list_equal; [by apply row_cells|done|done].
Qed.

Lemma scan_sound scan : plan_sound (LTableScan scan).
Proof.
  intros Hv. cbn [valid_plan plan_schema] in Hv. apply andb_true_iff in Hv as [_ Hv]. cbn [analyze_plan]. unfold analyze_table_scan.
  eapply yields_bind; [intros; apply backward_ret|apply yields_record_exprs|]. intros [] F. apply yields_ret. cbn [run plan_schema].
  assert (rows_related (columns (ts_projected_schema scan)) (scan_map (ts_projected_schema scan)) (db1 scan) (db2 scan)) as Hb.
  { eapply Forall2_impl; [apply Hdb|]. intros r1 r2. apply base_row_related. }
  apply filter_related; [exact Hb|]. intros r1 r2 Hr. f_equal. eapply recorded_list_equal; [by apply row_cells|done|done].
Qed.

Lemma zip_recorded L schema es (cols : list Column) :
  List.length es = List.length cols ->
  Forall (λ p : Expr * Column, ∃ us, recorded L schema p.1 us) (zip es cols) -> Forall (λ e, ∃ us, recorded L schema e us) es.
Proof. intros Hl F. rewrite <- (fst_zip es cols) by lia. by rewrite Forall_fmap. Qed.

Lemma computed_length S es r : List.length (eval_list S es r) = List.length es.
Proof. apply length_fmap. Qed.

(** Nodes whose rows are computed return the same rows. *)
Definition plan_equal (p : LogicalPlan) : Prop :=
  valid_plan p = true -> yields (analyze_plan p) (λ _, run db1 p = run db2 p).

Lemma equal_sound p :
  plan_equal p -> (valid_plan p = true -> Forall (λ r, List.length r = List.length (plan_schema p)) (run db2 p)) -> plan_sound p.
Proof.
  intros He Hl Hv. eapply yields_weaken; [exact (He Hv)|]. intros L ->. apply rows_refl. rewrite length_columns. by apply Hl.
Qed.

Lemma projection_equal es input schema : plan_sound input -> plan_equal (LProjection es input schema).
Proof.
  intros IH Hv. cbn [valid_plan] in Hv. rewrite !andb_true_iff, Nat.eqb_eq in Hv. destruct Hv as (_ & (Hi & Hes) & Hlen).
  cbn [analyze_plan]. eapply yields_bind; [intros m; apply backward_project|apply IH; exact Hi|]. intros m Hrows.
  eapply yields_weaken; [apply yields_project|]. intros out [F _]. cbn [run plan_schema].
  apply zip_recorded in F; [|by rewrite length_columns].
  eapply computed_rows; [exact Hrows|exact Hes|exact F|done].
Qed.

Lemma projection_sound es input schema : plan_sound input -> plan_sound (LProjection es input schema).
Proof.
  intros IH. apply equal_sound; [by apply projection_equal|]. intros Hv. cbn [valid_plan] in Hv.
  rewrite !andb_true_iff, Nat.eqb_eq in Hv. destruct Hv as (_ & _ & Hlen). apply Forall_fmap, Forall_true. intros r. cbn.
  by rewrite computed_length.
Qed.

Lemma filter_sound e input : plan_sound input -> plan_sound (LFilter e input).
Proof.
  intros IH Hv. cbn [valid_plan] in Hv. rewrite !andb_true_iff in Hv. destruct Hv as (_ & Hi & He). cbn [analyze_plan].
  eapply yields_bind; [|apply IH; exact Hi|].
  { intros m. apply backward_bind; [apply backward_record_expr|intros ?; apply backward_ret]. }
  intros m Hrows. eapply yields_bind; [intros; apply backward_ret|apply yields_record_expr|]. intros us Hus. apply yields_ret.
  cbn [run plan_schema]. apply filter_related; [exact Hrows|]. intros r1 r2 Hr. f_equal.
  eapply recorded_equal; [by apply row_cells|done|exact Hus].
Qed.

Lemma sort_sound es input : plan_sound input -> plan_sound (LSort es input).
Proof.
  intros IH Hv. cbn [valid_plan] in Hv. rewrite !andb_true_iff in Hv. destruct Hv as (_ & Hi & He). cbn [analyze_plan].
  eapply yields_bind; [|apply IH; exact Hi|].
  { intros m. apply backward_bind; [apply backward_record_exprs|intros ?; apply backward_ret]. }
  intros m Hrows. eapply yields_bind; [intros; apply backward_ret|apply yields_record_exprs|]. intros [] F. apply yields_ret.
  cbn [run plan_schema]. cbv zeta. rewrite (computed_rows _ _ _ _ _ _ (eval_list _ es.*1) Hrows He F ltac:(done)).
  by apply pick_related.
Qed.

Lemma aggregation_equal input g a schema : plan_sound input -> plan_equal (LAggregate input g a schema).
Proof.
  intros IH Hv. cbn [valid_plan] in Hv. rewrite !andb_true_iff, Nat.eqb_eq in Hv. destruct Hv as (_ & ((Hi & Hes) & Ho) & Hlen).
  unfold valid_exprs in Hes. rewrite forallb_app, andb_true_iff in Hes. destruct Hes as [Hg Ha].
  cbn [analyze_plan]. eapply yields_bind; [intros m; apply backward_aggregate|apply IH; exact Hi|]. intros m Hrows.
  eapply yields_weaken; [apply yields_aggregate|]. intros out F. specialize (F ltac:(rewrite length_columns; lia)).
  apply Forall_app in F as [Fg Fa]. cbn [run plan_schema]. cbv zeta.
  rewrite (computed_rows _ _ _ _ _ _ (eval_list _ g) Hrows Hg Fg ltac:(done)).
  set (S := columns (plan_schema input)) in *. set (positions := group _).
  assert (∀ ps, eval_list S g (default [] (head (pick (run db1 input) ps))) ++ (eval_aggregate S (pick (run db1 input) ps) <$> a)
              = eval_list S g (default [] (head (pick (run db2 input) ps))) ++ (eval_aggregate S (pick (run db2 input) ps) <$> a)) as Heq.
  { intros ps. assert (Hp := pick_related _ _ _ ps Hrows). f_equal.
    - destruct Hp as [|r1 r2 l1 l2 Hr Hp]; [done|]. cbn. eapply recorded_list_equal; [by apply row_cells|done|done].
    - eapply (operators_equal S m _ _ _ (eval_aggregate S)); [|exact Ho|exact Ha|exact Fa].
      intros e us. apply aggregate_equal. eapply Forall2_impl; [exact Hp|]. intros r1 r2. apply row_cells. }
  apply list_fmap_ext. intros _ ps _. apply Heq.
Qed.

Lemma aggregate_sound input g a schema : plan_sound input -> plan_sound (LAggregate input g a schema).
Proof.
  intros IH. apply equal_sound; [by apply aggregation_equal|]. intros Hv. cbn [valid_plan] in Hv.
  rewrite !andb_true_iff, Nat.eqb_eq in Hv. destruct Hv as (_ & _ & Hlen). apply Forall_fmap, Forall_true. intros ps. cbn.
  by rewrite length_app, computed_length, length_fmap, <- length_app.
Qed.

(** ** Renamed columns *)

Definition insert_renamed (m : LineageMap) (output : LineageMap) (p : Column * Column) : LineageMap :=
  <[from_column p.2 := usages_of m p.1]> output.

Lemma zip_keys_sublist {A} (side : list A) (out : list Column) :
  ((λ p : A * Column, from_column p.2) <$> zip side out) `sublist_of` (from_column <$> out).
Proof.
  revert out. induction side as [|a side IH]; intros [|c out]; cbn; try apply sublist_nil_l. apply sublist_skip, IH.
Qed.

Lemma zip_insert_at m side out o i sc c :
  NoDup (from_column <$> out) -> side !! i = Some sc -> out !! i = Some c ->
  foldl (insert_renamed m) o (zip side out) !! from_column c = Some (usages_of m sc).
Proof.
  intros Hnd Hs Hc. unfold insert_renamed.
  apply (foldl_insert_at (λ p : Column * Column, from_column p.2) (λ p, usages_of m p.1) _ o i (sc, c)).
  - by eapply sublist_NoDup, zip_keys_sublist.
  - rewrite lookup_zip_with, Hs. cbn. by rewrite Hc.
Qed.

Lemma zip_insert_other m side out o k :
  k ∉ from_column <$> out -> foldl (insert_renamed m) o (zip side out) !! k = o !! k.
Proof.
  intros Hk. unfold insert_renamed. apply (foldl_insert_other (λ p : Column * Column, from_column p.2) (λ p, usages_of m p.1)).
  intros Hin. by eapply Hk, sublist_subseteq, Hin; apply zip_keys_sublist.
Qed.

Lemma join_columns_zip m side out o :
  join_columns m side out o = (foldl (insert_renamed m) o (zip side out), drop (List.length side) out).
Proof.
  revert out o. induction side as [|c side IH]; intros [|oc out] o; [done..| |]; cbn [join_columns]; rewrite IH; [|done].
  by destruct side.
Qed.

(** A key of the first columns is not one of the others. *)
Lemma not_in_drop (out : list Column) i c n :
  NoDup (from_column <$> out) -> out !! i = Some c -> (i < n)%nat -> from_column c ∉ from_column <$> drop n out.
Proof.
  intros Hnd Hc Hi (c' & Ek & Hc')%list_elem_of_fmap. apply list_elem_of_lookup_1 in Hc' as [j Hj]. rewrite lookup_drop in Hj.
  assert (i = n + j)%nat; [|lia].
  eapply (NoDup_lookup _ _ _ (from_column c) Hnd); rewrite list_lookup_fmap; [by rewrite Hc|rewrite Hj; cbn; by rewrite Ek].
Qed.

(** The cells of a row under other names. *)
Lemma renamed_row S S' L L' r1 r2 :
  row_related S L r1 r2 -> List.length S' = List.length S ->
  (∀ i sc c, S !! i = Some sc -> S' !! i = Some c -> ∀ v w, related_at (L !! from_column sc) v w -> related_at (L' !! from_column c) v w) ->
  row_related S' L' r1 r2.
Proof.
  intros (H1 & H2 & Hr) Hl Hmap. rewrite <- Hl in H1, H2. split; [done|]. split; [done|]. intros i c Hc.
  destruct (lookup_lt_is_Some_2 S i) as [sc Hsc]; [rewrite <- Hl; by eapply lookup_lt_Some|].
  eapply Hmap; [exact Hsc|exact Hc|by apply Hr].
Qed.

Lemma alias_sound input schema : plan_sound input -> plan_sound (LSubqueryAlias input schema).
Proof.
  intros IH Hv. cbn [valid_plan] in Hv. rewrite !andb_true_iff, Nat.eqb_eq in Hv. destruct Hv as (Hnd & Hi & Hlen).
  apply distinct_NoDup in Hnd. cbn [plan_schema] in Hnd. cbn [analyze_plan].
  eapply yields_bind; [intros m; apply backward_ret|apply IH; exact Hi|]. intros m Hrows. apply yields_ret. cbn [run plan_schema].
  eapply Forall2_impl; [exact Hrows|]. intros r1 r2 Hr. eapply renamed_row; [exact Hr|by rewrite !length_columns|].
  intros i sc c Hsc Hc v w Hvw. unfold analyze_subquery_alias, rename_columns. fold (insert_renamed m).
  rewrite (zip_insert_at m _ _ _ i sc c Hnd Hsc Hc). by apply related_default.
Qed.

(** ** Joins *)

Lemma side_related S L rows1 rows2 i :
  rows_related S L rows1 rows2 -> row_related S L (side_row (List.length S) rows1 i) (side_row (List.length S) rows2 i).
Proof.
  intros F. assert (∀ n, n = List.length S -> row_related S L (repeat v_null n) (repeat v_null n)) as Hnull.
  { intros n ->. apply row_refl, repeat_length. }
  destruct i as [i|]; cbn; [|by apply Hnull]. destruct (rows1 !! i) as [r1|] eqn:E1.
  - by destruct (Forall2_lookup_l _ _ _ _ _ F E1) as (r2 & -> & Hr).
  - assert (rows2 !! i = None) as ->; [|by apply Hnull].
    apply lookup_ge_None. apply lookup_ge_None in E1. by rewrite <- (Forall2_length _ _ _ F).
Qed.

Lemma merged_related_l L1 L2 k v w : related_at (L1 !! k) v w -> related_at (merge_lineage_maps L1 L2 !! k) v w.
Proof.
  unfold merge_lineage_maps. rewrite lookup_union_with. destruct (L1 !! k) as [a|], (L2 !! k) as [b|]; cbn; try done.
  - apply related_subset. set_solver.
  - intros ->. apply related_refl.
Qed.

Lemma merged_related_r L1 L2 k v w : related_at (L2 !! k) v w -> related_at (merge_lineage_maps L1 L2 !! k) v w.
Proof.
  unfold merge_lineage_maps. rewrite lookup_union_with. destruct (L1 !! k) as [a|], (L2 !! k) as [b|]; cbn; try done.
  - apply related_subset. set_solver.
  - intros ->. apply related_refl.
Qed.

(** The cells of two rows side by side. *)
Lemma beside_cell (P : Column -> V -> V -> Prop) S1 S2 l1 l2 r1 r2 i c :
  List.length l1 = List.length S1 -> List.length l2 = List.length S1 ->
  (∀ i c, S1 !! i = Some c -> P c (default v_null (l1 !! i)) (default v_null (l2 !! i))) ->
  (∀ i c, S2 !! i = Some c -> P c (default v_null (r1 !! i)) (default v_null (r2 !! i))) ->
  (S1 ++ S2) !! i = Some c -> P c (default v_null ((l1 ++ r1) !! i)) (default v_null ((l2 ++ r2) !! i)).
Proof.
  intros H1 H2 Hl Hr Hc. destruct (decide (i < List.length S1)%nat) as [Hi|Hi].
  - rewrite lookup_app_l in Hc by done. rewrite !lookup_app_l by lia. by apply Hl.
  - rewrite lookup_app_r in Hc by lia. rewrite !lookup_app_r by lia. rewrite H1, H2. by apply Hr.
Qed.

Lemma beside_related S1 S2 L1 L2 l1 l2 r1 r2 :
  row_related S1 L1 l1 l2 -> row_related S2 L2 r1 r2 ->
  row_related (S1 ++ S2) (merge_lineage_maps L1 L2) (l1 ++ r1) (l2 ++ r2).
Proof.
  intros (Hl1 & Hl2 & Hl) (Hr1 & Hr2 & Hr). split; [by rewrite !length_app, Hl1, Hr1|]. split; [by rewrite !length_app, Hl2, Hr2|].
  intros i c. apply (beside_cell (λ c v w, related_at (merge_lineage_maps L1 L2 !! from_column c) v w)); [done|done| |].
  - intros j c' Hc'. by apply merged_related_l, Hl.
  - intros j c' Hc'. by apply merged_related_r, Hr.
Qed.

(** The row of a join under its output columns. *)
Lemma joined_row S1 S2 S' L1 L2 l1 l2 r1 r2 :
  row_related S1 L1 l1 l2 -> row_related S2 L2 r1 r2 -> NoDup (from_column <$> S') ->
  (List.length S' <= List.length S1 + List.length S2)%nat ->
  row_related S' (foldl (insert_renamed L2) (foldl (insert_renamed L1) ∅ (zip S1 S')) (zip S2 (drop (List.length S1) S')))
    (take (List.length S') (l1 ++ r1)) (take (List.length S') (l2 ++ r2)).
Proof.
  intros (Hl1 & Hl2 & Hl) (Hr1 & Hr2 & Hr) Hnd Hlen.
  split; [rewrite length_take, length_app; lia|]. split; [rewrite length_take, length_app; lia|]. intros i c Hc.
  assert (i < List.length S')%nat as Hi by by eapply lookup_lt_Some. rewrite !lookup_take_lt by done.
  destruct (decide (i < List.length S1)%nat) as [Hi1|Hi1].
  - rewrite zip_insert_other by (by eapply not_in_drop). destruct (lookup_lt_is_Some_2 S1 i Hi1) as [sc Hsc].
    rewrite (zip_insert_at _ _ _ _ i sc c Hnd Hsc Hc). rewrite !lookup_app_l by lia. by apply related_default, Hl.
  - rewrite !lookup_app_r by lia. rewrite Hl1, Hl2.
    destruct (lookup_lt_is_Some_2 S2 (i - List.length S1)%nat) as [sc Hsc]; [lia|].
    rewrite (zip_insert_at _ _ _ _ (i - List.length S1)%nat sc c); [by apply related_default, Hr| |done|].
    + rewrite fmap_drop. by eapply sublist_NoDup, sublist_drop.
    + rewrite lookup_drop. by replace (List.length S1 + (i - List.length S1))%nat with i by lia.
Qed.

Lemma forall2_over {A B} (R : B -> B -> Prop) (f g : A -> B) l : (∀ a, R (f a) (g a)) -> Forall2 R (f <$> l) (g <$> l).
Proof. intros Hfg. induction l as [|a l IH]; constructor; [apply Hfg|exact IH]. Qed.

Section join.
Context (L1 L2 : LineageMap) (S1 S2 : list Column) (left_schema right_schema schema : DFSchema).
Context (lrows1 lrows2 rrows1 rrows2 : list (list V)) (on : list (Expr * Expr)) (filter : option Expr).
Context (Hl : rows_related S1 L1 lrows1 lrows2) (Hr : rows_related S2 L2 rrows1 rrows2).
Context (Hfilter : valid_exprs (S1 ++ S2) (option_exprs filter) = true).
Context (Ffilter : Forall (λ e, ∃ us, recorded (merge_lineage_maps L1 L2) schema e us) (option_exprs filter)).

Definition joined (lrows rrows : list (list V)) (i j : option nat) : list V :=
  side_row (List.length S1) lrows i ++ side_row (List.length S2) rrows j.

Definition accepts (lrows rrows : list (list V)) (i j : nat) : bool :=
  match filter with Some f => is_true (eval (S1 ++ S2) (joined lrows rrows (Some i) (Some j)) f) | None => true end.

Lemma joined_related i j :
  row_related (S1 ++ S2) (merge_lineage_maps L1 L2) (joined lrows1 rrows1 i j) (joined lrows2 rrows2 i j).
Proof. apply beside_related; by apply side_related. Qed.

Lemma accepts_equal i j : accepts lrows1 rrows1 i j = accepts lrows2 rrows2 i j.
Proof.
  unfold accepts. destruct filter as [f|]; [|done]. cbn [option_exprs] in *. destruct (Forall_cons_1 _ _ _ Ffilter) as [[us Hus] _].
  f_equal. eapply recorded_equal; [apply row_cells, joined_related| |exact Hus].
  unfold valid_exprs in Hfilter. cbn in Hfilter. by apply andb_true_iff in Hfilter as [? _].
Qed.

Lemma accepted_equal :
  (λ i, accepts lrows1 rrows1 i <$> seq 0 (List.length rrows1)) <$> seq 0 (List.length lrows1)
  = (λ i, accepts lrows2 rrows2 i <$> seq 0 (List.length rrows2)) <$> seq 0 (List.length lrows2).
Proof.
  rewrite (Forall2_length _ _ _ Hl), (Forall2_length _ _ _ Hr). apply list_fmap_ext. intros _ i _.
  apply list_fmap_ext. intros _ j _. apply accepts_equal.
Qed.
End join.

(** ** Inputs whose rows are computed *)

Lemma yields_first {A B} (m : analysis A) (f : A -> analysis B) (P : Prop) :
  (∀ a, backward (f a)) -> yields m (λ _, P) -> yields (m ≫= f) (λ _, P).
Proof. intros Hb Hm. eapply yields_bind; [exact Hb|exact Hm|]. by intros a HP s b s' _ _. Qed.

Lemma yields_both {A} (m : analysis A) (P Q : A -> Prop) : yields m P -> yields m Q -> yields m (λ a, P a /\ Q a).
Proof. intros HP HQ s a s' E Hs. split; eauto. Qed.

(** What the induction on plans proves. *)
Definition plan_fine (p : LogicalPlan) : Prop := plan_sound p /\ (computed_output p = true -> plan_equal p).

Lemma join_equal l r on filter t schema : plan_equal l -> plan_equal r -> plan_equal (LJoin l r on filter t schema).
Proof.
  intros IHl IHr Hv. cbn [valid_plan] in Hv. rewrite !andb_true_iff in Hv. cbn [analyze_plan run].
  eapply yields_bind; [intros; backward_all; apply backward_plan|apply IHl; apply Hv|]. intros m1 E1.
  apply yields_first; [intros; backward_all|]. eapply yields_weaken; [apply IHr; apply Hv|]. intros m2 E2. by rewrite E1, E2.
Qed.

(** The rows of a join that returns its right side. *)
Lemma right_rows lrows rrows on1 on2 accepted t (S1 S2 : list Column) :
  keeps_right t = true -> Forall (λ r, List.length r = List.length S2) rrows ->
  Forall (λ r, List.length r = List.length S2)
    ((λ p, take (List.length S2)
        (if keeps_right t then side_row (List.length S2) rrows p.2
         else side_row (List.length S1) lrows p.1 ++ side_row (List.length S2) rrows p.2))
     <$> match_rows t on1 on2 accepted).
Proof.
  intros -> F. apply Forall_fmap, Forall_true. intros [i j]. cbn. rewrite length_take.
  assert (List.length (side_row (List.length S2) rrows j) = List.length S2) as ->; [|lia].
  destruct j as [j|]; cbn; [|apply repeat_length]. destruct (rrows !! j) as [row|] eqn:E; [|apply repeat_length].
  eapply Forall_lookup_1 in F; [|exact E]. exact F.
Qed.

(** A join whose rows have the columns of the left side first. *)
Lemma left_join_sound l r on filter t schema :
  keeps_right t = false -> plan_sound l -> plan_sound r -> plan_sound (LJoin l r on filter t schema).
Proof.
  intros Ht IHl IHr Hv. cbn [valid_plan] in Hv. rewrite Ht, !andb_true_iff, Nat.leb_le in Hv.
  destruct Hv as (Hnd & ((((Hvl & Hvr) & Hon1) & Hon2) & Hf) & _ & Hlen). apply distinct_NoDup in Hnd. cbn [plan_schema] in Hnd.
  cbn [analyze_plan]. eapply yields_bind; [intros; backward_all; apply backward_plan|apply IHl; exact Hvl|]. intros L1 Hl.
  eapply yields_bind; [intros; backward_all|apply IHr; exact Hvr|]. intros L2 Hr. unfold analyze_join.
  eapply yields_bind; [intros; backward_all|apply yields_join_keys|]. intros [] Fon.
  assert (Forall (λ e, ∃ us, recorded L1 (plan_schema l) e us) on.*1) as F1
    by (rewrite Forall_fmap; eapply Forall_impl; [exact Fon|intros p [? _]; done]).
  assert (Forall (λ e, ∃ us, recorded L2 (plan_schema r) e us) on.*2) as F2
    by (rewrite Forall_fmap; eapply Forall_impl; [exact Fon|intros p [_ ?]; done]).
  eapply (yields_bind _ _ (λ _, Forall (λ e, ∃ us, recorded (merge_lineage_maps L1 L2) schema e us) (option_exprs filter)));
    [intros; backward_all| |].
  { destruct filter as [f|]; [apply yields_record_exprs|by apply yields_ret; constructor]. }
  intros [] Ff. rewrite join_columns_zip. apply yields_ret. rewrite join_columns_zip. cbn [fst plan_schema run].
  cbv zeta. rewrite Ht. rewrite (computed_rows _ _ _ _ _ _ (eval_list _ on.*1) Hl Hon1 F1 ltac:(done)).
  rewrite (computed_rows _ _ _ _ _ _ (eval_list _ on.*2) Hr Hon2 F2 ltac:(done)).
  assert (Hacc := accepted_equal _ _ _ _ schema _ _ _ _ filter Hl Hr Hf Ff). unfold accepts, joined in Hacc. rewrite Hacc.
  apply forall2_over. intros p. rewrite <- (length_columns schema).
  apply joined_row; [by apply side_related|by apply side_related|exact Hnd|by rewrite length_columns].
Qed.

(** A right semi or anti join of inputs that compute their rows. *)
Lemma join_fine l r on filter t schema : plan_fine l -> plan_fine r -> plan_fine (LJoin l r on filter t schema).
Proof.
  intros [IHl El] [IHr Er]. split.
  2: { intros [? ?]%andb_true_iff. apply join_equal; auto. }
  destruct (keeps_right t) eqn:Ht; [|by apply left_join_sound]. intros Hv. assert (Hvalid := Hv). cbn [valid_plan] in Hv.
  rewrite Ht, !andb_true_iff, Nat.eqb_eq in Hv. destruct Hv as (_ & ((((Hvl & Hvr) & _) & _) & _) & (Hcl & Hcr) & Hlen).
  assert (He := join_equal l r on filter t schema (El Hcl) (Er Hcr) Hvalid).
  assert (yields (analyze_plan (LJoin l r on filter t schema))
            (λ _, Forall (λ row, List.length row = List.length (columns (plan_schema r))) (run db2 r))) as Hrows.
  { cbn [analyze_plan]. eapply yields_bind; [intros; backward_all; apply backward_plan|apply IHl; exact Hvl|]. intros m1 _.
    apply yields_first; [intros; backward_all|]. eapply yields_weaken; [apply IHr; exact Hvr|]. intros m2 Hrel.
    clear -Hrel. induction Hrel as [|r1 r2 rs1 rs2 (_ & H2 & _) _ IH]; by constructor. }
  eapply yields_weaken; [apply (yields_both _ _ _ He Hrows)|]. intros L [-> F]. apply rows_refl.
  cbn [plan_schema run]. cbv zeta. rewrite length_columns, Hlen. by apply right_rows.
Qed.

Lemma inputs_equal inputs :
  Forall plan_fine inputs -> forallb computed_output inputs = true -> forallb valid_plan inputs = true ->
  yields (analyze_inputs_with analyze_plan inputs) (λ _, run db1 <$> inputs = run db2 <$> inputs).
Proof.
  induction 1 as [|p ps Hp Hps IH]; intros Hc Hv; cbn [analyze_inputs_with]; [by apply yields_ret|].
  cbn in Hc, Hv. apply andb_true_iff in Hc as [Hcp Hc]. apply andb_true_iff in Hv as [Hvp Hv].
  eapply yields_bind; [|apply (proj2 Hp Hcp Hvp)|].
  { intros m. apply backward_bind; [apply backward_inputs, Forall_true; intros; apply backward_plan|intros; apply backward_ret]. }
  intros m Hm. eapply yields_bind; [intros; apply backward_ret|by apply IH|]. intros ms Hms. apply yields_ret.
  rewrite !fmap_cons. by rewrite Hm, Hms.
Qed.

(** ** The other nodes *)

Lemma imap_related {A B} (R : A -> A -> Prop) (R' : B -> B -> Prop) (f : nat -> A -> B) l1 l2 :
  Forall2 R l1 l2 -> (∀ i a b, R a b -> R' (f i a) (f i b)) -> Forall2 R' (imap f l1) (imap f l2).
Proof.
  intros F. revert f. induction F as [|a b l1 l2 Hab F IH]; intros f Hf; [constructor|]. rewrite !imap_cons.
  constructor; [by apply Hf|]. apply IH. intros i x y. apply Hf.
Qed.

(** The columns of the input under their output names, then computed columns. *)
Lemma extended_row S S' L L' r1 r2 vals :
  row_related S L r1 r2 -> List.length S' = (List.length S + List.length vals)%nat ->
  (∀ i sc c, S !! i = Some sc -> S' !! i = Some c -> L' !! from_column c = Some (usages_of L sc)) ->
  row_related S' L' (r1 ++ vals) (r2 ++ vals).
Proof.
  intros (H1 & H2 & Hr) Hl Hmap. split; [rewrite length_app; lia|]. split; [rewrite length_app; lia|]. intros i c Hc.
  destruct (decide (i < List.length S)%nat) as [Hi|Hi].
  - destruct (lookup_lt_is_Some_2 S i Hi) as [sc Hsc]. rewrite !lookup_app_l by lia. rewrite (Hmap i sc c Hsc Hc).
    by apply related_default, Hr.
  - rewrite !lookup_app_r by lia. rewrite H1, H2. apply related_at_refl.
Qed.

Lemma window_sound input ws schema : plan_sound input -> plan_sound (LWindow input ws schema).
Proof.
  intros IH Hv. cbn [valid_plan] in Hv. rewrite !andb_true_iff, Nat.eqb_eq in Hv. destruct Hv as (Hnd & ((Hi & Hws) & Ho) & Hlen).
  apply distinct_NoDup in Hnd. cbn [plan_schema] in Hnd. cbn [analyze_plan].
  eapply yields_bind; [intros m; apply backward_project|apply IH; exact Hi|]. intros m Hrows. unfold analyze_window. cbv zeta.
  eapply yields_weaken; [apply yields_project|]. intros out [F Hout]. cbn [run plan_schema]. cbv zeta.
  set (S := columns (plan_schema input)) in *.
  assert (List.length ws = List.length (drop (List.length S) (columns schema))) as Hd.
  { rewrite length_drop. unfold S. rewrite !length_columns. lia. }
  apply zip_recorded in F; [|exact Hd]. rewrite snd_zip in Hout by lia.
  rewrite (operators_equal S m (plan_schema input) (run db1 input) (run db2 input) (eval_window S) ws); [| |exact Ho|exact Hws|exact F].
  - eapply imap_related; [exact Hrows|]. intros i r1 r2 Hr. eapply extended_row; [exact Hr| |].
    + rewrite !length_fmap, length_columns. unfold S. by rewrite length_columns.
    + intros j sc c Hsc Hc. rewrite Hout.
      * unfold rename_columns. fold (insert_renamed m). by apply (zip_insert_at m _ _ _ j).
      * eapply not_in_drop; [exact Hnd|exact Hc|]. by eapply lookup_lt_Some.
  - intros e us. apply window_equal. eapply Forall2_impl; [exact Hrows|]. intros r1 r2. apply row_cells.
Qed.

Lemma limit_sound skip fetch input : plan_sound input -> plan_sound (LLimit skip fetch input).
Proof.
  intros IH Hv. cbn [valid_plan] in Hv. rewrite !andb_true_iff in Hv. destruct Hv as (_ & Hi & _). cbn [analyze_plan].
  eapply yields_bind; [intros; backward_all|apply IH; exact Hi|]. intros m Hrows. unfold analyze_limit.
  eapply (yields_bind _ _ (λ _, True)); [intros; backward_all|by intros ?|]. intros _ _.
  eapply (yields_bind _ _ (λ _, True)); [intros; backward_all|by intros ?|]. intros _ _. apply yields_ret.
  cbn [run plan_schema]. cbv zeta. destruct fetch as [e|]; [apply Forall2_take|]; by apply Forall2_drop.
Qed.

Lemma repartition_sound input scheme : plan_sound input -> plan_sound (LRepartition input scheme).
Proof.
  intros IH Hv. cbn [valid_plan] in Hv. rewrite !andb_true_iff in Hv. destruct Hv as (_ & Hi & _). cbn [analyze_plan].
  eapply yields_bind; [intros; backward_all|apply IH; exact Hi|]. intros m Hrows. unfold analyze_repartition.
  eapply (yields_bind _ _ (λ _, True)); [intros; backward_all|by intros ?|]. intros _ _. by apply yields_ret.
Qed.

Lemma inputs_sound inputs :
  Forall plan_sound inputs -> forallb valid_plan inputs = true ->
  yields (analyze_inputs_with analyze_plan inputs)
    (Forall2 (λ p m, rows_related (columns (plan_schema p)) m (run db1 p) (run db2 p)) inputs).
Proof.
  induction 1 as [|p ps Hp Hps IH]; intros Hv; cbn [analyze_inputs_with]; [apply yields_ret; constructor|].
  cbn in Hv. apply andb_true_iff in Hv as [Hvp Hv].
  eapply yields_bind; [|apply Hp; exact Hvp|].
  { intros m. apply backward_bind; [apply backward_inputs, Forall_true; intros; apply backward_plan|intros; apply backward_ret]. }
  intros m Hm. eapply yields_bind; [intros; apply backward_ret|by apply IH|]. intros ms Hms. apply yields_ret. by constructor.
Qed.

Lemma usages_named_subset name (m : LineageMap) k us : m !! k = Some us -> k_name k = name -> us ⊆ usages_named name m.
Proof.
  intros Hk Hn u Hu. unfold usages_named. apply list_elem_of_In, in_concat. exists us. split; [|by apply list_elem_of_In].
  apply list_elem_of_In, list_elem_of_fmap. exists (k, us). cbn. rewrite Hn, String.eqb_refl. split; [done|].
  by apply elem_of_map_to_list.
Qed.

Lemma union_row (ms : list LineageMap) m schema S r1 r2 :
  m ∈ ms -> NoDup (from_column <$> columns schema) -> c_name <$> S = c_name <$> columns schema ->
  row_related S m r1 r2 -> row_related (columns schema) (analyze_union ms schema) r1 r2.
Proof.
  intros Hm Hnd Hnames Hr. eapply renamed_row; [exact Hr|by rewrite <- (length_fmap c_name), <- Hnames, length_fmap|].
  intros i sc c Hsc Hc v w Hvw. unfold analyze_union.
  rewrite (foldl_insert_at from_column (λ c, List.concat (usages_named (c_name c) <$> ms)) _ _ i c Hnd Hc). cbn.
  destruct (m !! from_column sc) as [us|] eqn:Eus; cbn in Hvw; [|by rewrite Hvw; apply related_refl].
  eapply related_subset; [|exact Hvw]. intros u Hu. apply list_elem_of_In, in_concat. exists (usages_named (c_name c) m). split.
  - apply list_elem_of_In, list_elem_of_fmap. by exists m.
  - apply list_elem_of_In. eapply usages_named_subset; [exact Eus| |exact Hu]. cbn.
    assert (Hi := f_equal (λ l, l !! i) Hnames). cbn in Hi. rewrite !list_lookup_fmap, Hsc, Hc in Hi. by injection Hi.
Qed.

Lemma concat_related inputs ms all schema :
  Forall2 (λ p m, rows_related (columns (plan_schema p)) m (run db1 p) (run db2 p)) inputs ms -> ms ⊆ all ->
  NoDup (from_column <$> columns schema) ->
  forallb (λ i, same_names (columns (plan_schema i)) (columns schema)) inputs = true ->
  rows_related (columns schema) (analyze_union all schema) (List.concat (run db1 <$> inputs)) (List.concat (run db2 <$> inputs)).
Proof.
  intros F Hin Hnd Hnames. induction F as [|p m ps ms Hp F IH]; cbn; [constructor|]. cbn in Hnames.
  apply andb_true_iff in Hnames as [Hn Hnames]. apply bool_decide_eq_true_1 in Hn.
  apply Forall2_app; [|apply IH; [|done]; intros x Hx; apply Hin; by right].
  eapply Forall2_impl; [exact Hp|]. intros r1 r2. apply union_row; [apply Hin; by left|done|done].
Qed.

Lemma union_equal inputs schema :
  Forall plan_fine inputs -> forallb computed_output inputs = true -> plan_equal (LUnion inputs schema).
Proof.
  intros IH Hc Hv. cbn [valid_plan] in Hv. rewrite !andb_true_iff in Hv. cbn [analyze_plan run].
  apply yields_first; [intros; backward_all|]. eapply yields_weaken; [apply inputs_equal; [done..|apply Hv]|]. by intros ? ->.
Qed.

Lemma concat_lengths inputs ms n :
  Forall2 (λ p m, rows_related (columns (plan_schema p)) m (run db1 p) (run db2 p)) inputs ms ->
  forallb (λ i, List.length (plan_schema i) =? n)%nat inputs = true ->
  Forall (λ row, List.length row = n) (List.concat (run db2 <$> inputs)).
Proof.
  intros F Hn. induction F as [|p m ps ms Hp F IH]; cbn; [constructor|]. cbn in Hn. apply andb_true_iff in Hn as [Hpn Hn].
  apply Nat.eqb_eq in Hpn. apply Forall_app. split; [|by apply IH]. subst n. rewrite <- length_columns.
  clear -Hp. induction Hp as [|r1 r2 rs1 rs2 (_ & H2 & _) _ IH]; by constructor.
Qed.

Lemma union_sound inputs schema : Forall plan_fine inputs -> plan_sound (LUnion inputs schema).
Proof.
  intros IH Hv. assert (Hvalid := Hv). cbn [valid_plan] in Hv. rewrite !andb_true_iff, orb_true_iff, andb_true_iff in Hv.
  destruct Hv as (Hnd & Hvi & Hnames).
  assert (yields (analyze_inputs_with analyze_plan inputs)
            (Forall2 (λ p m, rows_related (columns (plan_schema p)) m (run db1 p) (run db2 p)) inputs)) as Hin.
  { apply inputs_sound; [|done]. eapply Forall_impl; [exact IH|]. by intros p [? _]. }
  destruct Hnames as [Hnames|[Hc Hlen]].
  2: { assert (He := union_equal inputs schema IH Hc Hvalid). eapply yields_weaken.
       - apply (yields_both _ _ (λ _, Forall (λ row, List.length row = List.length schema) (run db2 (LUnion inputs schema))) He).
         cbn [analyze_plan run]. apply yields_first; [intros; backward_all|]. eapply yields_weaken; [exact Hin|].
         intros ms Hms. by eapply concat_lengths.
       - intros L [-> F]. apply rows_refl. by rewrite length_columns. }
  apply distinct_NoDup in Hnd. cbn [plan_schema] in Hnd. cbn [analyze_plan].
  eapply yields_bind; [intros; apply backward_ret|exact Hin|]. intros ms Hms. apply yields_ret. cbn [run plan_schema].
  by eapply concat_related.
Qed.

Lemma distinct_on_equal o e so input schema : plan_sound input -> plan_equal (LDistinctOn o e so input schema).
Proof.
  intros IH Hv. cbn [valid_plan] in Hv. rewrite !andb_true_iff, Nat.eqb_eq in Hv.
  destruct Hv as (_ & (((Hi & Ho) & He) & Hso) & Hlen). cbn [analyze_plan].
  eapply yields_bind; [intros; backward_all|apply IH; exact Hi|]. intros m Hrows. unfold analyze_distinct_on.
  eapply yields_bind; [intros; backward_all|apply yields_record_exprs|]. intros [] Fo.
  eapply yields_bind; [intros; backward_all|apply yields_record_exprs|]. intros [] Fe.
  eapply (yields_bind _ _ (λ _, Forall (λ e, ∃ us, recorded m (plan_schema input) e us) (default [] so).*1)); [intros; backward_all| |].
  { destruct so as [so|]; [apply yields_record_exprs|by apply yields_ret; constructor]. }
  intros [] Fso s out s' _ _. cbn [run plan_schema]. cbv zeta.
  rewrite (computed_rows _ _ _ _ _ _ (eval_list _ o) Hrows Ho Fo ltac:(done)).
  rewrite (computed_rows _ _ _ _ _ _ (eval_list _ (default [] so).*1) Hrows Hso Fso ltac:(done)).
  eapply computed_rows; [apply pick_related; exact Hrows|exact He|exact Fe|done].
Qed.

Lemma distinct_on_sound o e so input schema : plan_sound input -> plan_sound (LDistinctOn o e so input schema).
Proof.
  intros IH. apply equal_sound; [by apply distinct_on_equal|]. intros Hv. cbn [valid_plan] in Hv.
  rewrite !andb_true_iff, Nat.eqb_eq in Hv. destruct Hv as (_ & _ & Hlen). apply Forall_fmap, Forall_true. intros r. cbn.
  by rewrite computed_length.
Qed.

(** DISTINCT over rows that are computed. *)
Lemma distinct_all_fine input : plan_fine input -> plan_fine (LDistinctAll input).
Proof.
  intros [IH Ein]. assert (plan_equal (LDistinctAll input)) as He.
  { intros Hv. cbn [valid_plan] in Hv. rewrite !andb_true_iff in Hv. destruct Hv as (_ & Hv & Hc). cbn [analyze_plan run].
    eapply yields_weaken; [by apply Ein|]. by intros ? ->. }
  split; [|done]. intros Hv. assert (Hvalid := Hv). cbn [valid_plan] in Hv. rewrite !andb_true_iff in Hv.
  destruct Hv as (_ & Hv & Hc). cbn [analyze_plan run plan_schema]. eapply yields_weaken; [apply (yields_both _ _ _ (IH Hv) (Ein Hc Hv))|].
  intros L [Hrel E]. cbv zeta. rewrite E in Hrel |- *. by apply pick_related.
Qed.

(** A node over one input whose rows are the same when the input's are. *)
Lemma fine input p :
  plan_sound p -> (computed_output p = true -> computed_output input = true) -> (plan_equal input -> plan_equal p) ->
  plan_fine input -> plan_fine p.
Proof. intros Hp Hc He [_ Hin]. split; [done|]. intros Hp'. by apply He, Hin, Hc. Qed.

Lemma fine_computed p : plan_sound p -> plan_equal p -> plan_fine p.
Proof. by split. Qed.

(** The analysis of [p] ends with that of its input, whose rows decide its own. *)
Ltac same_rows :=
  intros HE Hv; cbn [valid_plan] in Hv; rewrite !andb_true_iff in Hv; cbn [analyze_plan run];
  first [ apply yields_first; [intros; backward_all|]; eapply yields_weaken; [apply HE; apply Hv|]; by intros ? ->
        | apply yields_first; [intros; backward_all|]; apply HE; apply Hv ].

Lemma analysis_fine p : plan_fine p.
Proof.
  induction p as [scan|es i s IH|e i IH|i g a s IH|es i IH|l r on f t s IHl IHr|i s IH|i w s IH|sk fe i IH|i sc IH|ps s IH|i IH
                 |o e so i s IH|ps s IH] using plan_ind'.
  - split; [apply scan_sound|done].
  - apply fine_computed; [apply projection_sound|apply projection_equal]; apply IH.
  - apply (fine i); [apply filter_sound, IH|done|same_rows|done].
  - apply fine_computed; [apply aggregate_sound|apply aggregation_equal]; apply IH.
  - apply (fine i); [apply sort_sound, IH|done|same_rows|done].
  - by apply join_fine.
  - apply (fine i); [apply alias_sound, IH|done|same_rows|done].
  - apply (fine i); [apply window_sound, IH|done|same_rows|done].
  - apply (fine i); [apply limit_sound, IH|done|same_rows|done].
  - apply (fine i); [apply repartition_sound, IH|done|same_rows|done].
  - split; [by apply union_sound|]. intros Hc. by apply union_equal.
  - by apply distinct_all_fine.
  - apply fine_computed; [apply distinct_on_sound|apply distinct_on_equal]; apply IH.
  - apply fine_computed; intros Hv; cbn [valid_plan] in Hv; (destruct ps; [|by rewrite andb_false_r in Hv]);
      cbn [analyze_plan analyze_inputs_with]; intros st m st' _ _; cbn [run plan_schema]; [|done].
    apply rows_refl. rewrite length_columns. apply constant_rows_length.
Qed.
End plans.
End related.
End recorded.

(** ** Findings *)

Lemma leading_clean ops U : leading_units ops <> ∅ -> leading_units ops ⊆ U -> clean_operations U ops.
Proof. destruct ops as [|[u| | |] ops]; cbn; try done. set_solver. Qed.

Lemma date_units_clean usages acc all : date_units usages acc = Some all -> acc ⊆ all /\ Forall (clean_operations all) usages.
Proof.
  revert acc. induction usages as [|ops usages IH]; intros acc E; cbn in E; [by injection E as ->|].
  destruct (decide _) as [|Hne]; [done|]. apply IH in E as [Hacc F]. split; [set_solver|]. constructor; [|done].
  apply leading_clean; [done|set_solver].
Qed.

Lemma to_from_column k : from_column (to_column k) = k.
Proof. by destruct k. Qed.

Lemma found_clean stats e :
  e ∈ find_date32_extractions stats ->
  ∃ st, stats !! from_column (de_column e) = Some st /\ Forall (clean_operations (de_components e)) (us_usages st).
Proof.
  unfold find_date32_extractions. intros ((k & st) & Hk & He)%list_elem_of_omap. apply elem_of_map_to_list in Hk.
  unfold date_extraction_of in He. cbn in He. destruct (is_date_part_type _); [|done].
  destruct (date_units _ _) as [all|] eqn:Ed; [|done]. destruct (decide _); [done|]. injection He as <-. exists st.
  cbn [de_column de_components]. rewrite to_from_column. split; [done|]. by apply date_units_clean in Ed as [_ F].
Qed.

(** Where an annotation comes from. *)
Lemma sort_with_in {A} (cmp : A -> A -> comparison) l x : x ∈ sort_with cmp l -> x ∈ l.
Proof. unfold sort_with. by rewrite merge_sort_Permutation. Qed.

Lemma annotation_found `{DataFusionLib} stats k a :
  plan_annotations stats !! k = Some a ->
  (∃ e, e ∈ find_date32_extractions stats /\ from_column (de_column e) = k /\ a = ADatePart (de_components e))
  \/ (∃ e, e ∈ find_variant_gets stats /\ from_column (ve_column e) = k /\ a = AVariantPaths (ve_fields e))
  \/ (∃ c, c ∈ find_substring_searches stats /\ from_column c = k /\ a = ASubstringSearch).
Proof.
  unfold plan_annotations, build_annotation_map. cbv zeta.
  intros [(c & Hc & Hk & <-)|E]%(foldl_insert_inv from_column (λ _, ASubstringSearch)).
  { right. right. exists c. split; [by eapply sort_with_in|done]. }
  apply (foldl_insert_inv (λ e, from_column (ve_column e)) (λ e, AVariantPaths (ve_fields e))) in E as [(e & He & Hk & <-)|E].
  { right. left. exists e. split; [by eapply sort_with_in|done]. }
  apply (foldl_insert_inv (λ e, from_column (de_column e)) (λ e, ADatePart (de_components e))) in E as [(e & He & Hk & <-)|E]; [|done].
  left. exists e. split; [by eapply sort_with_in|done].
Qed.

Lemma annotation_clean `{DataFusionLib} stats k U : plan_annotations stats !! k = Some (ADatePart U) -> clean_stats k U stats.
Proof.
  intros [(e & He & <- & E)|[(e & _ & _ & E)|(c & _ & _ & E)]]%annotation_found; try done. injection E as ->.
  destruct (found_clean stats e He) as (st & Hst & F). intros st' Hst'. by simplify_eq.
Qed.

(** ** Theorem *)

(** C32: a query that computes every column it returns, and whose plan is one that
    the analysis follows, does not tell apart two databases which agree, row by row,
    on the annotated components of a date column and are otherwise the same: once
    the column is annotated with these components they are all that the cache has to
    keep of it. The plan is made of scans, projections, filters, aggregates, sorts,
    windows, limits, repartitions, aliases, DISTINCT ON, inner, outer, left semi and
    left anti joins and unions whose inputs name their columns as the output does;
    DISTINCT over whole rows, right semi and right anti joins and other unions are
    covered when their inputs compute their rows (otherwise the analysis loses uses;
    [lineage_gaps] has a right semi join). [valid_plan] excludes mark joins, unknown nodes
    with inputs, subqueries and wildcards left in expressions, a [variant_get] whose
    type is not a literal, and plans with two columns of one name; it has
    expressions name columns of their input, and the expressions of aggregates and
    windows be aggregate and window functions, possibly renamed. [computed_output]
    excludes plans that return a scanned column without a projection, an aggregate
    or a DISTINCT ON above it. *)
Theorem lineage_sound `{DataFusionLib} {V : Type} `{!QuerySemantics V} `{!QueryLaws V} plan lineage stats d U
    (db1 db2 : TableScan -> list (list V))
    (Hanalysis : analyze_plan plan ∅ = Some (lineage, stats)) (Hannotated : plan_annotations stats !! d = Some (ADatePart U))
    (Hvalid : valid_plan plan = true) (Hcomputed : computed_output plan = true) (Hagree : databases_agree d U db1 db2) :
  run db1 plan = run db2 plan.
Proof.
  eapply (proj2 (analysis_fine d U db1 db2 Hagree plan) Hcomputed Hvalid); [exact Hanalysis|]. by apply annotation_clean.
Qed.
