(* ===== verification/LineageAnnotations.v ===== *)
(** * From findings to annotated scans

    What a variant or substring finding says of the recorded usages, the text of a
    date annotation, and that rewriting a plan attaches to every scan of a listing
    table the annotations of its columns and changes nothing else of the plan.  Then queries
    over a small table, on a sample of the classes of [Lineage] and [LineageSpec]:
    one on which the soundness theorem applies, and the plans whose uses of a
    column the analysis does not see. *)

From stdpp Require Import base list strings gmap sorting.
From Stdlib Require Import ZArith Ascii String Lia.
From S2P Require Import Prelude CivilDate DataTypes Expressions Lineage LineageSpec LineageSound.

(** ** Variants *)

(** A usage that a set of requested paths serves: the column passed through, or one of the paths with its type. *)
Definition variant_served (fields : list VariantField) (ops : list Operation) : Prop :=
  match ops with
  | [] => True
  | OVariantGet path data_type :: _ => VField path data_type ∈ fields
  | _ => False
  end.

Lemma variant_fields_grow usages m saw m' saw' :
  variant_fields usages m saw = Some (m', saw') -> ∀ p t, m !! p = Some t -> m' !! p = Some t.
Proof.
  revert m saw. induction usages as [|ops usages IH]; intros m saw E p t Hp; cbn in E; [by injection E as <- _|].
  destruct ops as [|[|path ty| |] ops]; try done; [by eapply IH|].
  destruct (m !! path) as [current|] eqn:Em.
  - destruct (decide _); [|done]. by eapply IH.
  - eapply IH; [exact E|]. rewrite lookup_insert_ne by congruence. done.
Qed.

Lemma variant_fields_served usages m saw m' saw' :
  variant_fields usages m saw = Some (m', saw') ->
  Forall (λ ops, match ops with [] => True | OVariantGet p t :: _ => m' !! p = Some t | _ => False end) usages.
Proof.
  revert m saw. induction usages as [|ops usages IH]; intros m saw E; cbn in E; [constructor|].
  destruct ops as [|[|path ty| |] ops]; try done; [constructor; [done|by eapply IH]|].
  destruct (m !! path) as [current|] eqn:Em.
  - destruct (decide _) as [->|]; [|done]. constructor; [by eapply variant_fields_grow|by eapply IH].
  - constructor; [|by eapply IH]. eapply variant_fields_grow; [exact E|]. apply lookup_insert_eq.
Qed.

(** ** Scans *)

Fixpoint scans (plan : LogicalPlan) : list TableScan :=
  match plan with
  | LTableScan scan => [scan]
  | LProjection _ input _ | LFilter _ input | LAggregate input _ _ _ | LSort _ input | LSubqueryAlias input _
  | LWindow input _ _ | LLimit _ _ input | LRepartition input _ | LDistinctAll input | LDistinctOn _ _ _ input _ => scans input
  | LJoin left_plan right_plan _ _ _ _ => scans left_plan ++ scans right_plan
  | LUnion inputs _ | LOther inputs _ => List.concat (scans <$> inputs)
  end.



Section rewriting.
Context `{DataFusionLib} (annotations : gmap ColumnKey ColumnAnnotation).




















End rewriting.

(** ** Theorems *)

(** What an annotation promises of a usage. *)
Definition served (a : ColumnAnnotation) (ops : list Operation) : Prop :=
  match a with
  | ADatePart units => clean_operations units ops
  | AVariantPaths fields => variant_served fields ops
  | ASubstringSearch => ops = [] \/ OSubstringSearch ∈ ops
  end.

Lemma variant_found_served `{DataFusionLib} stats e :
  e ∈ find_variant_gets stats ->
  ∃ st, stats !! from_column (ve_column e) = Some st /\ Forall (variant_served (ve_fields e)) (us_usages st).
Proof.
  unfold find_variant_gets. intros ((k & st) & Hk & He)%list_elem_of_omap. apply elem_of_map_to_list in Hk.
  unfold variant_extraction_of in He. cbn [fst snd] in He. destruct (us_usages st) as [|ops usages] eqn:Eu; [done|].
  destruct (variant_fields (ops :: usages) ∅ false) as [[m saw]|] eqn:Ev; [|done]. destruct (_ && _)%bool; [|done]. injection He as <-.
  exists st. cbn [ve_column ve_fields]. rewrite to_from_column. split; [done|]. rewrite Eu.
  apply variant_fields_served in Ev. eapply Forall_impl; [exact Ev|]. intros [|[|p t| |] ops'] Hops; try done.
  cbn in Hops |- *. unfold sort_with. rewrite merge_sort_Permutation. apply list_elem_of_fmap. exists (p, t). split; [done|].
  by apply elem_of_map_to_list.
Qed.

Lemma substring_usages_served usages saw : substring_usages usages saw = Some true ->
  Forall (served ASubstringSearch) usages.
Proof.
  revert saw. induction usages as [|ops usages IH]; intros saw E; [constructor|]. cbn in E.
  destruct (existsb is_substring_operation ops) eqn:Ee.
  - constructor; [|by eapply IH]. right. apply existsb_exists in Ee as (op & Hop & Es). destruct op; try done. by apply list_elem_of_In.
  - destruct ops; [|done]. constructor; [by left|by eapply IH].
Qed.

Lemma substring_found_served stats c :
  c ∈ find_substring_searches stats ->
  ∃ st, stats !! from_column c = Some st /\ Forall (served ASubstringSearch) (us_usages st).
Proof.
  unfold find_substring_searches. intros ((k & st) & Hk & He)%list_elem_of_omap. apply elem_of_map_to_list in Hk.
  unfold substring_search_of in He. cbn [fst snd] in He. destruct (negb _); [done|].
  destruct (us_usages st) as [|ops usages] eqn:Eu; [done|].
  destruct (substring_usages (ops :: usages) false) as [[]|] eqn:Es; try done.
  injection He as <-. exists st. rewrite to_from_column. split; [done|]. rewrite Eu. by eapply substring_usages_served.
Qed.

Lemma annotation_serves `{DataFusionLib} stats k a :
  plan_annotations stats !! k = Some a -> ∃ st, stats !! k = Some st /\ Forall (served a) (us_usages st).
Proof.
  intros [(e & He & <- & ->)|[(e & He & <- & ->)|(c & Hc & <- & ->)]]%annotation_found.
  - by apply found_clean.
  - by apply variant_found_served.
  - by apply substring_found_served.
Qed.

(** Every use of an annotated column that the analysis recorded is one the
    annotation serves: a date column is only used through an extract of an annotated
    unit, a variant column passed through or read at an annotated path with the type
    annotated for it, a string column passed through or searched. *)
Theorem annotations_served `{DataFusionLib} stats k a (Hannotated : plan_annotations stats !! k = Some a) :
  ∃ st, stats !! k = Some st /\ Forall (served a) (us_usages st).
Proof. by apply annotation_serves. Qed.




(** ** The text of a date annotation *)

Definition unit_field (u : SupportedIntervalUnit) : Date32Field :=
  match u with UYear => Year | UMonth => Month | UDay => Day | UDayOfWeek => DayOfWeek end.

Definition all_units : list SupportedIntervalUnit := [UYear; UMonth; UDay; UDayOfWeek].

Lemma units_few (l : list SupportedIntervalUnit) : NoDup l -> (List.length l <= 4)%nat.
Proof.
  intros Hl. change 4%nat with (List.length all_units). apply NoDup_incl_length; [by apply NoDup_ListNoDup|].
  intros [] _; cbn; tauto.
Qed.

(** The text of a set with one unit is parsed by the cache as that component, and
    that of a set with several units is not parsed: a column used through its year
    and its month is cached without a hint. *)
Theorem date_metadata_parsed {T : Type} (units : gset SupportedIntervalUnit) :
  try_from_date_part_str (DataType := T) (serialize_date_part units)
  = match elements units with [u] => Some (ExtractDate32 (unit_field u)) | _ => None end.
Proof.
  unfold serialize_date_part. assert (Hl := units_few _ (NoDup_elements units)). revert Hl.
  generalize (elements units). intros l Hl.
  destruct l as [|u1 [|u2 [|u3 [|u4 [|u5 l]]]]]; cbn [List.length] in Hl; [| | | | |lia];
    repeat match goal with u : SupportedIntervalUnit |- _ => destruct u end; vm_compute; reflexivity.
Qed.

(** ** A sample of DataFusion *)

Inductive value : Type := VNull | VInt (z : Z) | VBool (b : bool) | VStr (s : string).

#[export] Instance value_eq_dec : EqDecision value.
Proof. solve_decision. Defined.

#[export] Instance sample_library : DataFusionLib := {|
  field_from_column schema column := snd <$> List.find (λ f, bool_decide (from_column f.1 = from_column column)) schema;
  interval_unit_from_str text :=
    let upper := to_ascii_uppercase text in
    if String.eqb upper "YEAR" then Some IUYear else if String.eqb upper "MONTH" then Some IUMonth
    else if String.eqb upper "DAY" then Some IUDay else None;
  data_type_from_str _ := None;
  data_type_to_string _ := "";
  flat_name column := c_name column
|}.

Definition date_component (u : SupportedIntervalUnit) (v : value) : value :=
  match v with VInt days => VInt (component_from_days (unit_field u) days) | _ => VNull end.

Definition text_of (v : ScalarValue) : value :=
  match v with
  | SUtf8 (Some s) | SLargeUtf8 (Some s) | SUtf8View (Some s) => VStr s
  | SOther z => VInt z
  | _ => VNull
  end.

Definition sample_call (name : string) (args : list value) : value :=
  match args with
  | [VStr part; v] =>
      match date_part_call name (ELiteral (SUtf8 (Some part))) with Some c => date_component c v | None => VNull end
  | _ => VNull
  end.

Definition sample_operator (code : string) (args : list value) : value :=
  match args with
  | [VInt a; VInt b] =>
      if String.eqb code ">=" then VBool (b <=? a)%Z else if String.eqb code "+" then VInt (a + b) else VNull
  | _ => VNull
  end.

#[export] Instance sample_semantics : QuerySemantics value := {|
  v_null := VNull;
  is_true v := match v with VBool b => b | _ => false end;
  as_usize v := match v with VInt z => Z.to_nat z | _ => 0 end;
  literal_value := text_of;
  placeholder_value _ := VNull;
  call := sample_call;
  component := date_component;
  like _ _ _ _ _ := VNull;
  cast _ v := v;
  try_cast _ v := v;
  operator := sample_operator;
  aggregate _ arguments := VInt (Z.of_nat (List.length (default [] (head arguments))));
  window _ arguments := (λ _, VInt 0) <$> default [] (head arguments);
  order _ keys := seq 0 (List.length keys);
  group keys := [seq 0 (List.length keys)];
  distinct keys _ := seq 0 (List.length keys);
  match_rows _ left_keys right_keys _ :=
    List.concat ((λ i, omap (λ j, if decide (left_keys !! i = right_keys !! j) then Some (Some i, Some j) else None)
                        (seq 0 (List.length right_keys))) <$> seq 0 (List.length left_keys));
  constant_rows _ := []
|}.

#[export] Instance sample_laws : QueryLaws value.
Proof.
  split; [|done]. intros name part c v Hc.
  assert (∃ s, text_of part = VStr s /\ date_part_call name (ELiteral (SUtf8 (Some s))) = Some c) as (s & Ht & Hs).
  { unfold date_part_call in Hc |- *. destruct (eq_ignore_ascii_case name "date_part"); [|done].
    destruct part as [[s|]|[s|]|[s|]|z]; try done; by exists s. }
  cbn [literal_value call sample_semantics]. unfold sample_call. by rewrite Ht, Hs.
Qed.

(** ** Tables and queries *)

Definition qualified (table name : string) : Column := Col (Some [table]) name.
Definition table_schema (table : string) : DFSchema := [(qualified table "d", TDate32); (qualified table "x", TInt64)].
Definition scan_of (table : string) : TableScan := Scan (ListingTable table None) (table_schema table) [].

Definition part_of (unit : string) (e : Expr) : Expr := EScalarFunction "date_part" [ELiteral (SUtf8 (Some unit)); e].
Definition since_2020 (table : string) : Expr :=
  EOther ">=" [part_of "Year" (EColumn (qualified table "d")); ELiteral (SOther 2020)].

(** Years of the rows of [t] since 2020. *)
Definition years_query : LogicalPlan :=
  LProjection [EAlias (part_of "year" (EColumn (qualified "t" "d"))); EColumn (qualified "t" "x")]
    (LFilter (since_2020 "t") (LTableScan (scan_of "t"))) [(Col None "y", TInt64); (qualified "t" "x", TInt64)].

(** A database in which every table has two rows, with these dates in [t.d]. *)
Definition date_key : ColumnKey := from_column (qualified "t" "d").

Definition dated (d1 d2 : Z) (scan : TableScan) : list (list value) :=
  (λ d, (λ c, if decide (from_column c = date_key) then VInt d else VInt 7) <$> columns (ts_projected_schema scan)) <$> [d1; d2].

(** The units that a query's annotation of a column has. *)
Definition annotated_units (plan : LogicalPlan) (k : ColumnKey) : option (list SupportedIntervalUnit) :=
  '(_, stats) ← analyze_plan plan ∅;
  match plan_annotations stats !! k with Some (ADatePart units) => Some (elements units) | _ => None end.

(** 2020-02-08 and 2019-04-14, or the first day of their years. *)
Example years_annotated : annotated_units years_query date_key = Some [UYear].
Proof. vm_compute. reflexivity. Qed.

Example years_result : run (dated 18300 18000) years_query = [[VInt 2020; VInt 7]].
Proof. vm_compute. reflexivity. Qed.

Lemma dated_agree d1 d2 e1 e2 :
  date_component UYear (VInt d1) = date_component UYear (VInt e1) ->
  date_component UYear (VInt d2) = date_component UYear (VInt e2) ->
  databases_agree date_key {[UYear]} (dated d1 d2) (dated e1 e2).
Proof.
  intros H1 H2 scan.
  assert (∀ d e, date_component UYear (VInt d) = date_component UYear (VInt e) ->
            base_row date_key {[UYear]} (columns (ts_projected_schema scan))
              ((λ c, if decide (from_column c = date_key) then VInt d else VInt 7) <$> columns (ts_projected_schema scan))
              ((λ c, if decide (from_column c = date_key) then VInt e else VInt 7) <$> columns (ts_projected_schema scan))) as Hrow.
  { intros d e He. split; [apply length_fmap|]. split; [apply length_fmap|]. intros i c Hc. cbv zeta.
    rewrite !list_lookup_fmap, Hc. cbn [option_map fmap option_fmap default from_option].
    destruct (decide (from_column c = date_key)) as [E|E]; [|done]. cbn. intros u ->%elem_of_singleton. exact He. }
  unfold dated. constructor; [by apply Hrow|]. constructor; [by apply Hrow|constructor].
Qed.

(** The distinct rows of the query. *)
Definition distinct_years_query : LogicalPlan := LDistinctAll years_query.

Definition analysis_of (plan : LogicalPlan) : gmap ColumnKey (list ColumnUsage) * gmap ColumnKey UsageStats :=
  default (∅, ∅) (analyze_plan plan ∅).

Lemma analysis_of_some plan :
  bool_decide (is_Some (analyze_plan plan ∅)) = true -> analyze_plan plan ∅ = Some ((analysis_of plan).1, (analysis_of plan).2).
Proof. unfold analysis_of. destruct (analyze_plan plan ∅) as [[]|]; [done|]. intros [? [=]]%bool_decide_eq_true_1. Qed.

Lemma lineage_sound_witness :
  computed_output distinct_years_query = true
  /\ run (dated 18300 18000) distinct_years_query = run (dated 18262 17897) distinct_years_query.
Proof.
  split; [reflexivity|].
  apply (lineage_sound distinct_years_query (analysis_of distinct_years_query).1 (analysis_of distinct_years_query).2
           date_key {[UYear]}).
  - apply analysis_of_some. vm_compute. reflexivity.
  - vm_compute. reflexivity.
  - vm_compute. reflexivity.
  - reflexivity.
  - apply dated_agree; vm_compute; reflexivity.
Defined.

Lemma annotations_served_witness :
  ∃ st, (analysis_of years_query).2 !! date_key = Some st /\ Forall (served (ADatePart {[UYear]})) (us_usages st).
Proof. apply annotations_served. vm_compute. reflexivity. Defined.

(** No factory registered yet, addresses counted up. *)
Definition no_factories : Factories := Facts ∅ Z.of_nat 0.

Definition years_rewritten : bool * LogicalPlan * Factories := default (false, years_query, no_factories) (rewrite years_query no_factories).


Example scan_answers_year :
  (match scans years_rewritten.1.2 with
   | [Scan (ListingTable _ (Some factory)) _ _] =>
       match metadata_from_factory factory "d" years_rewritten.2 with Some (ADatePart units) => elements units | _ => [] end
   | _ => []
   end) = [UYear].
Proof. vm_compute. reflexivity. Qed.

(** ** What is not seen *)

(** The result of a filter at the root of the plan is not recorded. *)
Definition whole_rows_query : LogicalPlan := LFilter (since_2020 "t") (LTableScan (scan_of "t")).

(** The columns of a right semi join are those of its right side. *)
Definition right_semi_query : LogicalPlan :=
  LProjection [EColumn (qualified "t" "d")]
    (LJoin (LTableScan (scan_of "s")) (LFilter (since_2020 "t") (LTableScan (scan_of "t")))
       [(EColumn (qualified "s" "x"), EColumn (qualified "t" "x"))] None JRightSemi (table_schema "t"))
    [(qualified "t" "d", TDate32)].

(** The operations recorded for a column. *)
Definition recorded_operations (plan : LogicalPlan) (k : ColumnKey) : option (list (list Operation)) :=
  '(_, stats) ← analyze_plan plan ∅; us_usages <$> stats !! k.

(** Two uses of a date column escape the analysis.  The rows that a filter
    returns are not recorded, so [SELECT * .. WHERE EXTRACT(YEAR FROM d) >= 2020] has its
    column annotated with the year although it returns the dates, and two databases
    with the same years give different results.  And the output columns of a right
    semi join are given the lineage of the left side: projecting the date is
    recorded as a use of the other table's column. *)
Theorem lineage_gaps :
  annotated_units whole_rows_query date_key = Some [UYear]
  /\ databases_agree date_key {[UYear]} (dated 18300 18000) (dated 18262 17897)
  /\ run (dated 18300 18000) whole_rows_query <> run (dated 18262 17897) whole_rows_query
  /\ annotated_units right_semi_query date_key = Some [UYear]
  /\ recorded_operations right_semi_query date_key = Some [[OExtract UYear; OOther]]
  /\ recorded_operations right_semi_query (from_column (qualified "s" "d")) = Some [[]].
Proof.
  split; [vm_compute; reflexivity|]. split; [by apply dated_agree; vm_compute|]. split; [vm_compute; discriminate|].
  split; [vm_compute; reflexivity|]. split; vm_compute; reflexivity.
Qed.
