(* ===== verification/FieldMetadata.v ===== *)
(** * From annotations to the hints of the cache

    Model of [src/src/parquet/src/optimizers/mod.rs] and of the schemas of
    [src/src/parquet/src/reader/plantime/opener.rs]: the annotation that the
    lineage optimizer leaves for a column is written into the metadata of the
    field of its table, moved to the field of the file, and read back when the
    cache makes its column; a variant column gets its typed paths.  The rewriting of
    DataFusion's physical plans is left out; serde_json is third-party: the class
    [FieldLib].  The metadata of the schemas themselves, which nothing reads, and of
    the children of a struct are not kept. *)

From stdpp Require Import base list strings gmap.
From Stdlib Require Import ZArith Ascii String Lia.
From S2P Require Import Prelude CivilDate DataTypes Expressions VariantSchema ColumnCache.
From S2P Require Import Lineage LineageSpec LineageSound LineageAnnotations.

(** A field with its metadata. *)
Record ArrowField : Type := AField {
  af_name : string;
  af_data_type : DataType;
  af_nullable : bool;
  af_metadata : gmap string string
}.

Definition with_metadata (metadata : gmap string string) (field : ArrowField) : ArrowField :=
  AField (af_name field) (af_data_type field) (af_nullable field) metadata.
Definition with_data_type (data_type : DataType) (field : ArrowField) : ArrowField :=
  AField (af_name field) data_type (af_nullable field) (af_metadata field).

Definition DATE_MAPPING_METADATA_KEY : string := "liquid.cache.date_mapping".
Definition VARIANT_MAPPING_METADATA_KEY : string := "liquid.cache.variant_path".
Definition VARIANT_MAPPING_TYPE_METADATA_KEY : string := "liquid.cache.variant_type".
Definition STRING_FINGERPRINT_METADATA_KEY : string := "liquid.cache.string_fingerprint".

(** The text of a list of entries, and [try_extension_type::<VariantType>]. *)
Class FieldLib : Type := {
  to_json : list (string * option string) → option string;
  from_json : string → option (list (string * option string));
  is_variant_field : ArrowField → bool
}.

Class FieldLaws {FB : FieldLib} : Prop := {
  json_roundtrip l : ∃ text, to_json l = Some text ∧ from_json text = Some l
}.

(** ** Variant mappings *)

(** The typed value of a variant, with the paths that are asked for. *)
Definition build_variant_typed_value_field (existing : option Field) (specs : list VariantField) : Field :=
  let schema :=
    foldl (λ schema spec,
        match vf_data_type spec with
        | Some data_type => insert_path (vf_path spec) data_type schema
        | None => schema
        end) (vs_new existing) specs in
  mkField "typed_value" (TStruct (typed_fields schema)) true.

Definition rewrite_child (specs : list VariantField) (child : Field) : Field :=
  let 'mkField name data_type nullable := child in
  if String.eqb name "typed_value" then build_variant_typed_value_field (Some child) specs
  else if String.eqb name "value" then mkField name data_type true else child.

Definition enrich_variant_field_type (field : ArrowField) (fields : list VariantField) : ArrowField :=
  match List.filter (λ f, bool_decide (is_Some (vf_data_type f))) fields with
  | [] => field
  | typed_specs =>
      let new_type :=
        match af_data_type field with
        | TStruct children =>
            let replaced := existsb (λ child, String.eqb (f_name child) "typed_value") children in
            TStruct ((rewrite_child typed_specs <$> children)
                     ++ if replaced then [] else [build_variant_typed_value_field None typed_specs])
        | other => other
        end in
      with_data_type new_type field
  end.

Section fields.
Context `{DataFusionLib} {FB : FieldLib}.

Definition serialize_variant_mappings (fields : list VariantField) : option string :=
  match fields with
  | [] => None
  | _ => to_json ((λ f, (vf_path f, data_type_to_string <$> vf_data_type f)) <$> fields)
  end.

Fixpoint parse_entries (entries : list (string * option string)) : option (list VariantField) :=
  match entries with
  | [] => Some []
  | (path, spec) :: entries =>
      data_type ← match spec with
                  | Some spec => Some <$> data_type_from_str spec
                  | None => Some None
                  end;
      fields ← parse_entries entries;
      Some (VField path data_type :: fields)
  end.

Definition deserialize_variant_mappings (raw : string) : option (list VariantField) :=
  entries ← from_json raw; parse_entries entries.

(** A text that is not a list of entries is one path, with its type apart. *)
Definition variant_mappings_from_field (field : ArrowField) : option (list VariantField) :=
  raw ← af_metadata field !! VARIANT_MAPPING_METADATA_KEY;
  match deserialize_variant_mappings raw with
  | Some parsed => Some parsed
  | None =>
      let data_type := af_metadata field !! VARIANT_MAPPING_TYPE_METADATA_KEY ≫= data_type_from_str in
      Some [VField raw data_type]
  end.

(** ** Schemas *)

Definition process_field_annotation (field : ArrowField) (annotation : ColumnAnnotation)
    (eager_shredding : bool) : ArrowField :=
  let field_metadata := af_metadata field in
  match annotation with
  | ADatePart unit =>
      with_metadata (<[DATE_MAPPING_METADATA_KEY := serialize_date_part unit]> field_metadata) field
  | AVariantPaths paths =>
      if eager_shredding then
        let field_metadata :=
          match serialize_variant_mappings paths with
          | Some serialized => <[VARIANT_MAPPING_METADATA_KEY := serialized]> field_metadata
          | None => field_metadata
          end in
        with_metadata field_metadata (enrich_variant_field_type field paths)
      else field
  | ASubstringSearch =>
      with_metadata (<[STRING_FINGERPRINT_METADATA_KEY := "substring"]> field_metadata) field
  end.

Definition enrich_source_schema (file_schema : list ArrowField) (schema_factory : SchemaAdapterFactory)
    (eager_shredding : bool) (s : Factories) : list ArrowField :=
  (λ field,
     match metadata_from_factory schema_factory (af_name field) s with
     | Some annotation => process_field_annotation field annotation eager_shredding
     | None => field
     end) <$> file_schema.

(** The metadata of the table's fields go to the fields of the file. *)
Definition transfer_lineage_metadata_to_file_schema (tagged_schema dst_schema : list ArrowField)
    : list ArrowField :=
  let tagged_fields : gmap string ArrowField := foldl (λ m field, <[af_name field := field]> m) ∅ tagged_schema in
  (λ field,
     match tagged_fields !! af_name field with
     | Some tagged_field => with_metadata (af_metadata tagged_field) field
     | None => field
     end) <$> dst_schema.

Definition enrich_schema_for_cache (schema : list ArrowField) : list ArrowField :=
  (λ field,
     match variant_mappings_from_field field with
     | Some mappings => enrich_variant_field_type field mappings
     | None => field
     end) <$> schema.

(** [cache_full_schema] of [open]. *)
Definition cache_full_schema (logical_file_schema physical_file_schema : list ArrowField) : list ArrowField :=
  enrich_schema_for_cache (transfer_lineage_metadata_to_file_schema logical_file_schema physical_file_schema).

(** What a column of the cache looks up of its field. *)
Definition parquet_field (field : ArrowField) : ParquetField :=
  PField (af_name field) (af_data_type field)
    (af_metadata field !! DATE_MAPPING_METADATA_KEY)
    (bool_decide (is_Some (af_metadata field !! STRING_FINGERPRINT_METADATA_KEY)))
    (is_variant_field field)
    (fmap (M := list) (λ f, (vf_path f, vf_data_type f)) <$> variant_mappings_from_field field).
End fields.

(** ** Lemmas *)

(** No annotation has been written yet. *)
Definition unmarked (field : ArrowField) : Prop :=
  Forall (λ k, af_metadata field !! k = None)
    [DATE_MAPPING_METADATA_KEY; VARIANT_MAPPING_METADATA_KEY; STRING_FINGERPRINT_METADATA_KEY].

Definition typed_requests (fields : list VariantField) : list (string * DataType) :=
  omap (λ f, (λ t, (vf_path f, t)) <$> vf_data_type f) fields.

Lemma tagged_lookup (table : list ArrowField) i f (m : gmap string ArrowField) :
  NoDup (af_name <$> table) → table !! i = Some f →
  foldl (λ m field, <[af_name field := field]> m) m table !! af_name f = Some f.
Proof.
  revert i m. induction table as [|f' table IH]; intros i m N Hi; [done|].
  change (af_name <$> f' :: table) with (af_name f' :: (af_name <$> table)) in N.
  apply NoDup_cons in N as [Hn N]. cbn [foldl]. destruct i as [|i]; [|by apply (IH i)].
  injection Hi as ->. clear IH N.
  assert (∀ m : gmap string ArrowField, m !! af_name f = Some f →
            foldl (λ m field, <[af_name field := field]> m) m table !! af_name f = Some f) as H.
  { induction table as [|g table IH]; intros m' Hm; [done|]. cbn [foldl].
    change (af_name <$> g :: table) with (af_name g :: (af_name <$> table)) in Hn.
    apply not_elem_of_cons in Hn as [Hg Hn]. apply IH; [done|]. by rewrite lookup_insert_ne. }
  apply H, lookup_insert_eq.
Qed.

Lemma enrich_variant_name field fields : af_name (enrich_variant_field_type field fields) = af_name field.
Proof. unfold enrich_variant_field_type. by destruct (List.filter _ _). Qed.

Lemma enrich_variant_metadata field fields :
  af_metadata (enrich_variant_field_type field fields) = af_metadata field.
Proof. unfold enrich_variant_field_type. by destruct (List.filter _ _). Qed.

Section hints.
Context `{DataFusionLib} {FB : FieldLib} {FW : FieldLaws}.

Lemma process_annotation_name field a eager : af_name (process_field_annotation field a eager) = af_name field.
Proof. destruct a; cbn; [done| |done]. destruct eager; [|done]. cbn. by rewrite enrich_variant_name. Qed.

(** The types are written so that they can be read. *)
Definition types_readable (fields : list VariantField) : Prop :=
  Forall (λ f, ∀ t, vf_data_type f = Some t → data_type_from_str (data_type_to_string t) = Some t) fields.

Lemma parse_written fields :
  types_readable fields →
  parse_entries ((λ f, (vf_path f, data_type_to_string <$> vf_data_type f)) <$> fields) = Some fields.
Proof.
  intros T. induction T as [|[path [t|]] fields Ht _ IH]; [done| |].
  - cbn. rewrite (Ht t eq_refl). cbn. change (?f <$> fields) with (f <$> fields) in IH. cbn in IH. by rewrite IH.
  - cbn. cbn in IH. by rewrite IH.
Qed.

Lemma mappings_written fields :
  types_readable fields → fields ≠ [] →
  ∃ text, serialize_variant_mappings fields = Some text ∧ deserialize_variant_mappings text = Some fields.
Proof.
  intros T Hne. destruct (json_roundtrip ((λ f, (vf_path f, data_type_to_string <$> vf_data_type f)) <$> fields)) as (text & Et & Ef).
  exists text. split.
  - unfold serialize_variant_mappings. by destruct fields.
  - unfold deserialize_variant_mappings. rewrite Ef. by apply parse_written.
Qed.

(** The metadata of the field that the cache sees. *)
Definition marked_metadata (field : ArrowField) (a : option ColumnAnnotation) : gmap string string :=
  match a with
  | None => af_metadata field
  | Some a => af_metadata (process_field_annotation field a true)
  end.

(** Without eager shredding the paths of a variant are dropped. *)
Definition kept_annotation (eager_shredding : bool) (a : option ColumnAnnotation) : option ColumnAnnotation :=
  match a with Some (AVariantPaths _) => if eager_shredding then a else None | _ => a end.

Definition processed (field : ArrowField) (a : option ColumnAnnotation) (eager : bool) : ArrowField :=
  match a with Some a => process_field_annotation field a eager | None => field end.

Lemma processed_kept field a eager : processed field a eager = processed field (kept_annotation eager a) true.
Proof. by destruct a as [[]|], eager. Qed.

Lemma cached_field (table file : list ArrowField) factory eager s i j f g :
  NoDup (af_name <$> table) → table !! i = Some f → file !! j = Some g → af_name g = af_name f →
  ∃ h, cache_full_schema (enrich_source_schema table factory eager s) file !! j = Some h
    ∧ af_name h = af_name f
    ∧ af_metadata h = marked_metadata f (kept_annotation eager (metadata_from_factory factory (af_name f) s))
    ∧ (variant_mappings_from_field h = None → af_data_type h = af_data_type g)
    ∧ (variant_mappings_from_field h = variant_mappings_from_field
         (with_metadata (marked_metadata f (kept_annotation eager (metadata_from_factory factory (af_name f) s))) g)).
Proof.
  intros N Hi Hj Hn.
  set (f' := processed f (metadata_from_factory factory (af_name f) s) eager).
  assert (∀ x, af_name (processed x (metadata_from_factory factory (af_name x) s) eager) = af_name x) as Hname
    by (intros x; unfold processed; destruct (metadata_from_factory factory (af_name x) s); [apply process_annotation_name|done]).
  assert (af_name f' = af_name f) as Hf' by apply Hname.
  assert (af_metadata f' = marked_metadata f (kept_annotation eager (metadata_from_factory factory (af_name f) s))) as Hm
    by (unfold f'; rewrite processed_kept; unfold processed, marked_metadata; by destruct (kept_annotation _ _)).
  set (h0 := with_metadata (af_metadata f') g).
  exists (match variant_mappings_from_field h0 with Some mappings => enrich_variant_field_type h0 mappings | None => h0 end).
  assert (∀ x, variant_mappings_from_field (enrich_variant_field_type h0 x) = variant_mappings_from_field h0) as He.
  { intros x. unfold variant_mappings_from_field. by rewrite enrich_variant_metadata. }
  split_and!.
  - unfold cache_full_schema, enrich_schema_for_cache, transfer_lineage_metadata_to_file_schema.
    rewrite !list_lookup_fmap, Hj. cbn [fmap option_fmap option_map]. rewrite Hn, <- Hf'.
    rewrite (tagged_lookup _ i f'); [done| |].
    + unfold enrich_source_schema. rewrite <- list_fmap_compose.
      match goal with |- NoDup (?F <$> table) => assert (F <$> table = af_name <$> table) as ->; [|done] end.
      apply list_fmap_ext. intros k x _. apply Hname.
    + unfold enrich_source_schema. by rewrite list_lookup_fmap, Hi.
  - destruct (variant_mappings_from_field h0); rewrite ?enrich_variant_name; cbn; congruence.
  - destruct (variant_mappings_from_field h0); rewrite ?enrich_variant_metadata; cbn; congruence.
  - destruct (variant_mappings_from_field h0) eqn:E; [by rewrite He|done].
  - rewrite <- Hm. fold h0. destruct (variant_mappings_from_field h0) eqn:E; [by rewrite He|done].
Qed.

(** What the cache infers for a column whose field was annotated. *)
Definition annotated_hint (g h : ArrowField) (a : option ColumnAnnotation) : option (CacheExpression DataType) :=
  match a with
  | None => None
  | Some (ADatePart units) =>
      if is_date_or_timestamp (af_data_type g)
      then match elements units with [u] => Some (ExtractDate32 (unit_field u)) | _ => None end
      else None
  | Some ASubstringSearch => if ColumnCache.is_string_type (af_data_type g) then Some substring_search else None
  | Some (AVariantPaths fields) =>
      if is_variant_field h then
        match typed_requests fields with
        | [] => None
        | requests => Some (VariantGet ((λ r, VRequest r.1 r.2) <$> requests))
        end
      else None
  end.

Definition readable_annotation (a : option ColumnAnnotation) : Prop :=
  match a with Some (AVariantPaths fields) => types_readable fields | _ => True end.

Lemma unmarked_variant field : unmarked field → variant_mappings_from_field field = None.
Proof. intros U. apply Forall_cons in U as [_ U]. apply Forall_inv in U. unfold variant_mappings_from_field. by rewrite U. Qed.

Lemma typed_specs_requests fields :
  typed_specs ((λ f, (vf_path f, vf_data_type f)) <$> fields) = typed_requests fields.
Proof.
  unfold typed_specs, typed_requests. induction fields as [|[path [t|]] fields IH]; [done| |]; cbn; [f_equal|]; apply IH.
Qed.

Lemma metadata_mappings m field :
  m !! VARIANT_MAPPING_METADATA_KEY = None → variant_mappings_from_field (with_metadata m field) = None.
Proof. intros Hm. unfold variant_mappings_from_field. cbn [with_metadata af_metadata]. by rewrite Hm. Qed.

Lemma infer_annotated f g h a :
  unmarked f → readable_annotation a → af_metadata h = marked_metadata f a →
  (variant_mappings_from_field h = None → af_data_type h = af_data_type g) →
  variant_mappings_from_field h = variant_mappings_from_field (with_metadata (marked_metadata f a) g) →
  infer_expression (parquet_field h) = annotated_hint g h a.
Proof.
  intros U R Em Et Ev. pose proof U as U'. apply Forall_cons in U' as [Ud U']. apply Forall_cons in U' as [Uv U'].
  apply Forall_inv in U'. rename U' into Us.
  unfold infer_expression, parquet_field. cbn [pf_date_mapping pf_fingerprint pf_variant pf_variant_mappings pf_data_type].
  rewrite Em. destruct a as [[units|fields|]|]; cbn [marked_metadata process_field_annotation with_metadata af_metadata annotated_hint] in *.
  - rewrite metadata_mappings in Ev by (by rewrite lookup_insert_ne). rewrite Ev, (Et Ev).
    rewrite lookup_insert_eq, lookup_insert_ne, Us by done. cbn [mbind option_bind]. rewrite date_metadata_parsed.
    destruct (is_date_or_timestamp _); [destruct (elements units) as [|? [|? ?]]|]; by destruct (is_variant_field h).
  - assert (variant_mappings_from_field h = match fields with [] => None | _ => Some fields end) as Ew.
    { rewrite Ev. destruct fields as [|field fields]; [by apply metadata_mappings|].
      destruct (mappings_written (field :: fields) R) as (text & -> & Ed); [done|].
      unfold variant_mappings_from_field. cbn [with_metadata af_metadata]. rewrite lookup_insert_eq. cbn [mbind option_bind].
      by rewrite Ed. }
    assert (∀ k, k ≠ VARIANT_MAPPING_METADATA_KEY →
              match serialize_variant_mappings fields with
              | Some serialized => <[VARIANT_MAPPING_METADATA_KEY := serialized]> (af_metadata f)
              | None => af_metadata f
              end !! k = af_metadata f !! k) as Hk.
    { intros k Hk. destruct (serialize_variant_mappings fields); [by rewrite lookup_insert_ne|done]. }
    rewrite !Hk, Ud, Us, Ew by done. cbn. destruct (is_variant_field h); [|done].
    destruct fields as [|field fields]; [done|]. cbn [fmap option_fmap option_map]. by rewrite typed_specs_requests.
  - rewrite metadata_mappings in Ev by (by rewrite lookup_insert_ne). rewrite Ev, (Et Ev).
    rewrite lookup_insert_eq, lookup_insert_ne, Ud by done. cbn.
    destruct (ColumnCache.is_string_type _); [done|]. by destruct (is_variant_field h).
  - rewrite metadata_mappings in Ev by done. rewrite Ev, Ud, Us. cbn. by destruct (is_variant_field h).
Qed.

(** What a hint promises of a use: the cache may keep one component, the typed
    paths that are named, or a fingerprint beside the strings. *)
Definition hint_serves (hint : option (CacheExpression DataType)) (ops : list Operation) : Prop :=
  match hint with
  | Some (ExtractDate32 field) => ∃ u rest, ops = OExtract u :: rest ∧ unit_field u = field
  | Some (VariantGet requests) =>
      ops = [] ∨ ∃ path data_type rest, ops = OVariantGet path data_type :: rest
                   ∧ ∀ t, data_type = Some t → VRequest path t ∈ requests
  | Some SubstringSearch => ops = [] ∨ OSubstringSearch ∈ ops
  | Some PredicateColumn => False
  | None => True
  end.

Lemma served_hint g h a ops : served a ops → hint_serves (annotated_hint g h (Some a)) ops.
Proof.
  destruct a as [units|fields|]; cbn [served annotated_hint]; intros Hs.
  - destruct (is_date_or_timestamp _); [|done]. destruct (elements units) as [|u [|? ?]] eqn:Eu; try done.
    destruct ops as [|[u'| | |] ops]; try done. cbn in Hs. exists u', ops. split; [done|].
    apply elem_of_elements in Hs. rewrite Eu in Hs. by apply list_elem_of_singleton in Hs as ->.
  - destruct (is_variant_field h); [|done]. destruct (typed_requests fields) as [|request requests] eqn:Er; [done|].
    rewrite <- Er. destruct ops as [|[|path ty| |] ops]; try done; [by left|]. right. exists path, ty, ops. split; [done|].
    intros t ->. apply list_elem_of_fmap. exists (path, t). split; [done|]. apply list_elem_of_omap.
    exists (VField path (Some t)). by split.
  - by destruct (ColumnCache.is_string_type _).
Qed.

(** C35: the annotation of a column reaches the cache.  For a table whose columns
    have distinct names and carry no mark of an earlier annotation, and a file that
    has a column of the same name, the hint of the cached column, through the
    metadata of the table's field and of the file's field, is: the one component of a
    date column (none when several are used), the typed paths of a variant column,
    the fingerprints of a string column, and none for a column without annotation.
    With eager shredding turned off the paths of a variant are dropped and the column has
    no hint.  The types asked of a variant's paths must be ones whose text can be
    read again ([readable_annotation]).  Every use that the optimizer has recorded of
    the column is one that the hint serves. *)
Theorem column_hint_serves (table file : list ArrowField) factory eager_shredding s i j f g :
  NoDup (af_name <$> table) → table !! i = Some f → file !! j = Some g → af_name g = af_name f → unmarked f →
  let a := kept_annotation eager_shredding (metadata_from_factory factory (af_name f) s) in
  readable_annotation a →
  ∃ h, cache_full_schema (enrich_source_schema table factory eager_shredding s) file !! j = Some h ∧ af_name h = af_name g
    ∧ infer_expression (parquet_field h) = annotated_hint g h a
    ∧ ∀ stats k annotation, metadata_from_factory factory (af_name f) s = Some annotation →
        plan_annotations stats !! k = Some annotation →
        ∃ st, stats !! k = Some st ∧ Forall (hint_serves (infer_expression (parquet_field h))) (us_usages st).
Proof.
  intros N Hi Hj Hn U a R. destruct (cached_field table file factory eager_shredding s i j f g N Hi Hj Hn) as (h & Hh & En & Em & Et & Ev).
  assert (infer_expression (parquet_field h) = annotated_hint g h a) as Ei by by apply (infer_annotated f).
  exists h. split_and!; [done|congruence|done|]. intros stats k annotation Ea Hp. rewrite Ei. subst a. rewrite Ea.
  destruct (annotation_serves stats k annotation Hp) as (st & Hst & F). exists st. split; [done|].
  eapply Forall_impl; [exact F|]. intros ops Hops.
  destruct annotation as [units|fields|], eager_shredding; cbn [kept_annotation]; first [by apply served_hint|exact I].
Qed.
End hints.

(** ** A sample *)

Fixpoint bits (p : positive) : string :=
  match p with xH => "" | xO p => String "0" (bits p) | xI p => String "1" (bits p) end.

Fixpoint unbits (s : string) : positive :=
  match s with
  | EmptyString => xH
  | String c s => if Ascii.eqb c "1" then xI (unbits s) else xO (unbits s)
  end.

Lemma unbits_bits p : unbits (bits p) = p.
Proof. induction p as [p IH|p IH|]; cbn; by rewrite ?IH. Qed.

(** Entries as the bits of their code. *)
#[export] Instance sample_fields : FieldLib := {
  to_json l := Some (bits (encode l));
  from_json text := decode (unbits text);
  is_variant_field field := match af_data_type field with TStruct _ => true | _ => false end
}.

#[export] Instance sample_field_laws : FieldLaws.
Proof. split. intros l. exists (bits (encode l)). split; [done|]. cbn. by rewrite unbits_bits, decode_encode. Qed.

(** A date column that is only used through its year. *)
Lemma column_hint_serves_witness :
  ∃ h, cache_full_schema
         (enrich_source_schema [AField "d" TDate32 true ∅] (OtherFactory 7) true
            (Facts {[7%Z := {["d" := ADatePart {[UYear]}]}]} (λ n, Z.of_nat n) 0))
         [AField "x" TInt64 true ∅; AField "d" TDate32 true ∅] !! 1 = Some h
    ∧ infer_expression (parquet_field h) = Some (ExtractDate32 Year)
    ∧ Forall (hint_serves (infer_expression (parquet_field h))) [[OExtract UYear]; [OExtract UYear; OOther]].
Proof.
  destruct (column_hint_serves [AField "d" TDate32 true ∅] [AField "x" TInt64 true ∅; AField "d" TDate32 true ∅]
              (OtherFactory 7) true (Facts {[7%Z := {["d" := ADatePart {[UYear]}]}]} (λ n, Z.of_nat n) 0) 0 1
              (AField "d" TDate32 true ∅) (AField "d" TDate32 true ∅)) as (h & Hh & _ & Ei & Hs).
  - by apply (bool_decide_unpack _).
  - reflexivity.
  - reflexivity.
  - reflexivity.
  - repeat constructor.
  - exact I.
  - exists h. split; [exact Hh|]. split; [rewrite Ei; vm_compute; reflexivity|].
    destruct (Hs {[Key None "d" := Stats TDate32 [[OExtract UYear]; [OExtract UYear; OOther]]]} (Key None "d")
                (ADatePart {[UYear]})) as (st & Hst & F).
    + reflexivity.
    + vm_compute. reflexivity.
    + rewrite lookup_singleton_eq in Hst. injection Hst as <-. exact F.
Defined.

(** A variant that is returned whole and also read at a path is annotated with the path
    alone. *)
Lemma variant_passed_through_annotated :
  plan_annotations {[Key None "v" := Stats (TStruct []) [[]; [OVariantGet "a" (Some TInt64)]]]} !! Key None "v"
  = Some (AVariantPaths [VField "a" (Some TInt64)]).
Proof. vm_compute. reflexivity. Qed.
