(* ===== verification/RowGroupPruning.v ===== *)
(** * Pruning row groups

    Model of [src/src/parquet/src/reader/plantime/row_group_filter.rs], which
    [open] of [opener.rs] calls before it builds a stream: the row groups of a file
    that a scan may leave out, by the range of the file that it is given, by their
    statistics and by their bloom filters.  Pruning predicates, access plans,
    statistics converters and bloom filters are third-party: the class
    [PruningLib].  Column names stand for [Column]s, timers are left out. *)

From stdpp Require Import base list gmap strings.
From Stdlib Require Import ZArith String Lia.
From S2P Require Import Prelude Bytes.

(** Physical types, as far as they are told apart. *)
Inductive ParquetType : Type := PInt32 | PInt64 | PFixedLenByteArray | POtherType (code : nat).

(** DataFusion's scalars; floats are bit patterns, strings their bytes. *)
Inductive ScalarValue : Type :=
| SvUtf8 (v : option (list Z))
| SvUtf8View (v : option (list Z))
| SvLargeUtf8 (v : option (list Z))
| SvBinary (v : option (list Z))
| SvBinaryView (v : option (list Z))
| SvLargeBinary (v : option (list Z))
| SvFixedSizeBinary (size : Z) (v : option (list Z))
| SvBoolean (v : option bool)
| SvFloat64 (v : option Z)
| SvFloat32 (v : option Z)
| SvInt64 (v : option Z)
| SvInt32 (v : option Z)
| SvUInt64 (v : option Z)
| SvUInt32 (v : option Z)
| SvDecimal128 (v : option Z) (precision scale : Z)
| SvDictionary (key : nat) (inner : ScalarValue)
| SvOther (code : nat).

(** What is handed to [Sbbf::check] ([AsBytes]). *)
Inductive Hashed : Type :=
| HBytes (b : list Z)
| HBool (b : bool)
| HFloat64 (bits : Z)
| HFloat32 (bits : Z)
| HInt64 (z : Z)
| HInt32 (z : Z)
| HUInt64 (z : Z)
| HUInt32 (z : Z)
| HDecimal (b : list Z) (precision scale : Z).

Record ColumnChunkMetaData : Type := Chunk {
  dictionary_page_offset : option Z;
  data_page_offset : Z
}.

(** The trait [PruningStatistics], for some row groups. *)
Record PruningStatistics (StatArray : Type) : Type := Statistics {
  ps_min_values : string → option StatArray;
  ps_max_values : string → option StatArray;
  ps_num_containers : nat;
  ps_null_counts : string → option StatArray;
  ps_row_counts : string → option StatArray;
  ps_contained : string → list ScalarValue → option (list (option bool))
}.
Arguments Statistics {StatArray}.
Arguments ps_min_values {StatArray}.
Arguments ps_max_values {StatArray}.
Arguments ps_num_containers {StatArray}.
Arguments ps_null_counts {StatArray}.
Arguments ps_row_counts {StatArray}.
Arguments ps_contained {StatArray}.

Class PruningLib : Type := {
  AccessPlan : Type;
  plan_len : AccessPlan → nat;
  plan_is_empty : AccessPlan → bool;
  should_scan : AccessPlan → nat → bool;
  skip_group : AccessPlan → nat → AccessPlan;
  row_group_indexes : AccessPlan → list nat;
  FileRange : Type;
  range_contains : FileRange → Z → bool;
  RowGroupMetaData : Type;
  (** [column(0)] of a row group. *)
  first_column : RowGroupMetaData → option ColumnChunkMetaData;
  StatArray : Type;
  (** [StatisticsConverter], for a column of the file. *)
  row_group_mins : string → list RowGroupMetaData → option StatArray;
  row_group_maxes : string → list RowGroupMetaData → option StatArray;
  row_group_null_counts : string → list RowGroupMetaData → option StatArray;
  row_group_row_counts : string → list RowGroupMetaData → option StatArray;
  PruningPredicate : Type;
  literal_columns : PruningPredicate → list string;
  prune : PruningPredicate → PruningStatistics StatArray → option (list bool);
  Sbbf : Type;
  as_bytes : Hashed → list Z;
  sbbf_check : Sbbf → list Z → bool;
  (** The index of a column in the parquet schema, its physical type, and its
      bloom filter in a row group. *)
  parquet_column : string → option nat;
  physical_type : nat → ParquetType;
  row_group_bloom_filter : nat → nat → result (option Sbbf)
}.

Section pruning.
Context {LB : PruningLib}.

(** The counters of [ParquetFileMetrics] that pruning adds to. *)
Record FileMetrics : Type := Metrics {
  fm_statistics_pruned : Z;
  fm_statistics_matched : Z;
  fm_bloom_pruned : Z;
  fm_bloom_matched : Z;
  fm_evaluation_errors : Z
}.

Definition add_statistics_pruned (m : FileMetrics) : FileMetrics :=
  Metrics (fm_statistics_pruned m + 1) (fm_statistics_matched m) (fm_bloom_pruned m) (fm_bloom_matched m) (fm_evaluation_errors m).
Definition add_statistics_matched (m : FileMetrics) : FileMetrics :=
  Metrics (fm_statistics_pruned m) (fm_statistics_matched m + 1) (fm_bloom_pruned m) (fm_bloom_matched m) (fm_evaluation_errors m).
Definition add_bloom_pruned (m : FileMetrics) : FileMetrics :=
  Metrics (fm_statistics_pruned m) (fm_statistics_matched m) (fm_bloom_pruned m + 1) (fm_bloom_matched m) (fm_evaluation_errors m).
Definition add_bloom_matched (m : FileMetrics) : FileMetrics :=
  Metrics (fm_statistics_pruned m) (fm_statistics_matched m) (fm_bloom_pruned m) (fm_bloom_matched m + 1) (fm_evaluation_errors m).
Definition add_evaluation_error (m : FileMetrics) : FileMetrics :=
  Metrics (fm_statistics_pruned m) (fm_statistics_matched m) (fm_bloom_pruned m) (fm_bloom_matched m) (fm_evaluation_errors m + 1).

(** ** By range *)

(** The loop over the row groups from the one numbered [idx] on. *)
Fixpoint prune_range_from (idx : nat) (groups : list RowGroupMetaData) (range : FileRange) (plan : AccessPlan)
    : outcome AccessPlan :=
  match groups with
  | [] => Ret plan
  | metadata :: groups =>
      if should_scan plan idx then
        col ← expect (first_column metadata);
        let offset := default (data_page_offset col) (dictionary_page_offset col) in
        prune_range_from (S idx) groups range
          (if range_contains range offset then plan else skip_group plan idx)
      else prune_range_from (S idx) groups range plan
  end.

Definition prune_by_range (groups : list RowGroupMetaData) (range : FileRange) (plan : AccessPlan)
    : outcome AccessPlan :=
  if (List.length groups =? plan_len plan)%nat then prune_range_from 0 groups range plan else Panic.

(** ** By statistics *)

(** [RowGroupPruningStatistics]. *)
Definition row_group_statistics (metadatas : list RowGroupMetaData) : PruningStatistics StatArray :=
  Statistics (λ column, row_group_mins column metadatas) (λ column, row_group_maxes column metadatas)
    (List.length metadatas)
    (λ column, row_group_null_counts column metadatas) (λ column, row_group_row_counts column metadatas)
    (λ _ _, None).

Fixpoint metadata_of (groups : list RowGroupMetaData) (indexes : list nat) : outcome (list RowGroupMetaData) :=
  match indexes with
  | [] => Ret []
  | i :: indexes =>
      metadata ← expect (groups !! i);
      metadatas ← metadata_of groups indexes;
      Ret (metadata :: metadatas)
  end.

Definition apply_values (pairs : list (nat * bool)) (plan : AccessPlan) (metrics : FileMetrics) : AccessPlan * FileMetrics :=
  foldl (λ s pair,
      let '(plan, metrics) := s in
      let '(idx, value) := pair in
      if value : bool then (plan, add_statistics_matched metrics)
      else (skip_group plan idx, add_statistics_pruned metrics)) (plan, metrics) pairs.

Definition prune_by_statistics (groups : list RowGroupMetaData) (predicate : PruningPredicate)
    (plan : AccessPlan) (metrics : FileMetrics) : outcome (AccessPlan * FileMetrics) :=
  if (List.length groups =? plan_len plan)%nat then
    let indexes := row_group_indexes plan in
    metadatas ← metadata_of groups indexes;
    match prune predicate (row_group_statistics metadatas) with
    | Some values => Ret (apply_values (zip indexes values) plan metrics)
    | None => Ret (plan, add_evaluation_error metrics)
    end
  else Panic.

(** ** By bloom filters *)

(** The inner values that [check_scalar] goes into. *)
Definition dictionary_value (value : ScalarValue) : bool :=
  match value with
  | SvInt32 _ | SvInt64 _ | SvUInt32 _ | SvUInt64 _ | SvFloat32 _ | SvFloat64 _
  | SvUtf8 _ | SvLargeUtf8 _ | SvBinary _ | SvLargeBinary _ => true
  | _ => false
  end.

(** Whether a value may be in the filter; [true] for what is not supported. *)
Fixpoint check_scalar (sbbf : Sbbf) (value : ScalarValue) (parquet_type : ParquetType) : bool :=
  let check (h : Hashed) : bool := sbbf_check sbbf (as_bytes h) in
  match value with
  | SvUtf8 (Some v) | SvUtf8View (Some v) | SvLargeUtf8 (Some v) => check (HBytes v)
  | SvBinary (Some v) | SvBinaryView (Some v) | SvLargeBinary (Some v) => check (HBytes v)
  | SvFixedSizeBinary _ (Some v) => check (HBytes v)
  | SvBoolean (Some v) => check (HBool v)
  | SvFloat64 (Some v) => check (HFloat64 v)
  | SvFloat32 (Some v) => check (HFloat32 v)
  | SvInt64 (Some v) => check (HInt64 v)
  | SvInt32 (Some v) => check (HInt32 v)
  | SvUInt64 (Some v) => check (HUInt64 v)
  | SvUInt32 (Some v) => check (HUInt32 v)
  | SvDecimal128 (Some v) p s =>
      match parquet_type with
      | PInt32 => if (p >? 9)%Z then true else check (HDecimal (le_bytes 4 (wraps 32 v)) p s)
      | PInt64 => if (p >? 18)%Z then true else check (HDecimal (le_bytes 8 (wraps 64 v)) p s)
      | PFixedLenByteArray => check (HDecimal (rev (le_bytes 16 v)) p s)
      | POtherType _ => true
      end
  | SvDictionary _ inner => if dictionary_value inner then check_scalar sbbf inner parquet_type else true
  | _ => true
  end.

Definition BloomFilterStatistics : Type := gmap string (Sbbf * ParquetType).

Definition bloom_contained (column_sbbf : BloomFilterStatistics) (column : string) (values : list ScalarValue)
    : option (list (option bool)) :=
  '(sbbf, parquet_type) ← column_sbbf !! column;
  let known_not_present := forallb (λ value, negb (check_scalar sbbf value parquet_type)) values in
  Some [if known_not_present then Some false else None].

Definition bloom_statistics (column_sbbf : BloomFilterStatistics) : PruningStatistics StatArray :=
  Statistics (λ _, None) (λ _, None) 1 (λ _, None) (λ _, None) (bloom_contained column_sbbf).

(** The loop over the columns that the predicate compares with literals. *)
Fixpoint collect_filters (idx : nat) (columns : list string) (column_sbbf : BloomFilterStatistics)
    (metrics : FileMetrics) : BloomFilterStatistics * FileMetrics :=
  match columns with
  | [] => (column_sbbf, metrics)
  | column_name :: columns =>
      match parquet_column column_name with
      | None => collect_filters idx columns column_sbbf metrics
      | Some column_idx =>
          match row_group_bloom_filter idx column_idx with
          | Ok (Some bf) =>
              collect_filters idx columns (<[column_name := (bf, physical_type column_idx)]> column_sbbf) metrics
          | Ok None => collect_filters idx columns column_sbbf metrics
          | Err => collect_filters idx columns column_sbbf (add_evaluation_error metrics)
          end
      end
  end.

Definition prune_group_by_bloom (idx : nat) (predicate : PruningPredicate) (plan : AccessPlan) (metrics : FileMetrics)
    : outcome (AccessPlan * FileMetrics) :=
  let '(column_sbbf, metrics) := collect_filters idx (literal_columns predicate) ∅ metrics in
  '(prune_group, metrics) ←
    match prune predicate (bloom_statistics column_sbbf) with
    | Some values => value ← expect (head values); Ret (negb value, metrics)
    | None => Ret (false, add_evaluation_error metrics)
    end;
  Ret (if prune_group : bool then (skip_group plan idx, add_bloom_pruned metrics)
       else (plan, if decide (column_sbbf = ∅) then metrics else add_bloom_matched metrics)).

Fixpoint prune_bloom_from (indexes : list nat) (predicate : PruningPredicate) (plan : AccessPlan) (metrics : FileMetrics)
    : outcome (AccessPlan * FileMetrics) :=
  match indexes with
  | [] => Ret (plan, metrics)
  | idx :: indexes =>
      if should_scan plan idx then
        '(plan, metrics) ← prune_group_by_bloom idx predicate plan metrics;
        prune_bloom_from indexes predicate plan metrics
      else prune_bloom_from indexes predicate plan metrics
  end.

Definition prune_by_bloom_filters (num_row_groups : nat) (predicate : PruningPredicate) (plan : AccessPlan)
    (metrics : FileMetrics) : outcome (AccessPlan * FileMetrics) :=
  if (num_row_groups =? plan_len plan)%nat
  then prune_bloom_from (seq 0 (plan_len plan)) predicate plan metrics else Panic.

(** ** The passes of [open] *)

Definition prune_row_groups (groups : list RowGroupMetaData) (range : option FileRange)
    (predicate : option PruningPredicate) (plan : AccessPlan) (metrics : FileMetrics)
    : outcome (AccessPlan * FileMetrics) :=
  plan ← match range with Some range => prune_by_range groups range plan | None => Ret plan end;
  match predicate with
  | None => Ret (plan, metrics)
  | Some predicate =>
      '(plan, metrics) ← prune_by_statistics groups predicate plan metrics;
      if plan_is_empty plan then Ret (plan, metrics)
      else prune_by_bloom_filters (List.length groups) predicate plan metrics
  end.
End pruning.

(** ** What the third parties promise *)

(** The bytes of a value that a parquet writer puts in the bloom filter of a column:
    a decimal in a fixed-length column has the length of the column. *)
Fixpoint written {LB : PruningLib} (parquet_type : ParquetType) (type_length : nat) (value : ScalarValue)
    : option (list Z) :=
  match value with
  | SvUtf8 (Some v) | SvUtf8View (Some v) | SvLargeUtf8 (Some v) => Some (as_bytes (HBytes v))
  | SvBinary (Some v) | SvBinaryView (Some v) | SvLargeBinary (Some v) => Some (as_bytes (HBytes v))
  | SvFixedSizeBinary _ (Some v) => Some (as_bytes (HBytes v))
  | SvBoolean (Some v) => Some (as_bytes (HBool v))
  | SvFloat64 (Some v) => Some (as_bytes (HFloat64 v))
  | SvFloat32 (Some v) => Some (as_bytes (HFloat32 v))
  | SvInt64 (Some v) => Some (as_bytes (HInt64 v))
  | SvInt32 (Some v) => Some (as_bytes (HInt32 v))
  | SvUInt64 (Some v) => Some (as_bytes (HUInt64 v))
  | SvUInt32 (Some v) => Some (as_bytes (HUInt32 v))
  | SvDecimal128 (Some v) _ _ =>
      match parquet_type with
      | PInt32 => Some (le_bytes 4 v)
      | PInt64 => Some (le_bytes 8 v)
      | PFixedLenByteArray => Some (rev (le_bytes type_length v))
      | POtherType _ => None
      end
  | SvDictionary _ inner => written parquet_type type_length inner
  | _ => None
  end.

Inductive StatKind : Type := KMin | KMax | KNulls | KRows.

(** The file: [describes] a row group by its metadata, [has_value] of a column,
    [matches] of a predicate, that some row of the row group satisfies it. *)
Class PruningLaws {LB : PruningLib} : Type := {
  describes : RowGroupMetaData → nat → Prop;
  has_value : nat → string → ScalarValue → Prop;
  matches : PruningPredicate → nat → Prop;
  stat_truth : StatKind → string → list nat → StatArray → Prop;
  type_length : nat → nat;
  in_range_of : FileRange → Z → Prop;
  skip_len p i : plan_len (skip_group p i) = plan_len p;
  skip_scan p i j : should_scan (skip_group p i) j = should_scan p j && negb (i =? j)%nat;
  indexes_ok p : row_group_indexes p = List.filter (should_scan p) (seq 0 (plan_len p));
  range_ok r o : range_contains r o = true ↔ in_range_of r o;
  mins_ok c ms gs a : Forall2 describes ms gs → row_group_mins c ms = Some a → stat_truth KMin c gs a;
  maxes_ok c ms gs a : Forall2 describes ms gs → row_group_maxes c ms = Some a → stat_truth KMax c gs a;
  nulls_ok c ms gs a : Forall2 describes ms gs → row_group_null_counts c ms = Some a → stat_truth KNulls c gs a;
  rows_ok c ms gs a : Forall2 describes ms gs → row_group_row_counts c ms = Some a → stat_truth KRows c gs a;
  decimal_bytes b p s : as_bytes (HDecimal b p s) = b;
  bloom_ok g name i f v b :
    parquet_column name = Some i → row_group_bloom_filter g i = Ok (Some f) → has_value g name v →
    written (physical_type i) (type_length i) v = Some b → sbbf_check f b = true;
  (** Statistics that are true of some row groups: a predicate pruned with them is
      false on every row of the row groups it answers [false] for. *)
  prune_ok p (st : PruningStatistics StatArray) gs values :
    (ps_num_containers st = List.length gs
     ∧ ∀ c, (∀ a, ps_min_values st c = Some a → stat_truth KMin c gs a)
         ∧ (∀ a, ps_max_values st c = Some a → stat_truth KMax c gs a)
         ∧ (∀ a, ps_null_counts st c = Some a → stat_truth KNulls c gs a)
         ∧ (∀ a, ps_row_counts st c = Some a → stat_truth KRows c gs a)
         ∧ ∀ vs bs, ps_contained st c vs = Some bs → List.length bs = List.length gs
             ∧ ∀ i g, gs !! i = Some g →
                 (bs !! i = Some (Some false) → ∀ v, v ∈ vs → ¬ has_value g c v)
                 ∧ (bs !! i = Some (Some true) → ∀ v, has_value g c v → v ∈ vs)) →
    prune p st = Some values →
    List.length values = List.length gs
    ∧ ∀ i g, gs !! i = Some g → values !! i = Some false → ¬ matches p g
}.

Section safety.
Context {LB : PruningLib} {LW : PruningLaws}.

(** Decimals in fixed-length columns take sixteen bytes. *)
Definition wide_decimals : Prop := ∀ i, physical_type i = PFixedLenByteArray → type_length i = 16%nat.

(** [plan'] leaves out row groups of [plan], each for one of the reasons. *)
Definition narrowed (reason : nat → Prop) (plan plan' : AccessPlan) : Prop :=
  plan_len plan' = plan_len plan
  ∧ ∀ i, (should_scan plan' i = true → should_scan plan i = true)
       ∧ (should_scan plan i = true → should_scan plan' i = false → reason i).

Lemma narrowed_refl reason plan : narrowed reason plan plan.
Proof. split; [done|]. intros i. split; [done|]. congruence. Qed.

Lemma narrowed_trans reason p1 p2 p3 : narrowed reason p1 p2 → narrowed reason p2 p3 → narrowed reason p1 p3.
Proof.
  intros [L1 H1] [L2 H2]. split; [congruence|]. intros i. destruct (H1 i) as [A1 B1], (H2 i) as [A2 B2]. split; [auto|].
  intros Hs Hn. destruct (should_scan p2 i); auto.
Qed.

Lemma narrowed_weaken (r r' : nat → Prop) p p' : (∀ i, r i → r' i) → narrowed r p p' → narrowed r' p p'.
Proof. intros H [L A]. split; [done|]. intros i. destruct (A i) as [? ?]. split; auto. Qed.

Lemma skip_narrowed (reason : nat → Prop) plan i : reason i → narrowed reason plan (skip_group plan i).
Proof.
  intros Hr. split; [apply skip_len|]. intros j. rewrite skip_scan. split; [by intros [? _]%andb_true_iff|].
  intros ->. cbn. case Nat.eqb_spec; [by intros <- _|done].
Qed.

(** *** By range *)

(** The first page of the row group lies outside of the range. *)
Definition out_of_range (groups : list RowGroupMetaData) (range : FileRange) (i : nat) : Prop :=
  ∃ metadata col, groups !! i = Some metadata ∧ first_column metadata = Some col
    ∧ ¬ in_range_of range (default (data_page_offset col) (dictionary_page_offset col)).

Lemma prune_range_from_ok all groups range idx plan :
  Forall (λ m, first_column m ≠ None) groups → groups = drop idx all →
  ∃ plan', prune_range_from idx groups range plan = Ret plan' ∧ narrowed (out_of_range all range) plan plan'.
Proof.
  intros F. revert idx plan. induction F as [|metadata groups Hc _ IH]; intros idx plan E; cbn [prune_range_from].
  { exists plan. split; [done|]. apply narrowed_refl. }
  assert (all !! idx = Some metadata) as Hidx.
  { rewrite <- (Nat.add_0_r idx), <- lookup_drop, <- E. done. }
  assert (groups = drop (S idx) all) as E'.
  { change groups with (drop 1 (metadata :: groups)). rewrite E, drop_drop. f_equal. lia. }
  destruct (should_scan plan idx); [|by apply IH].
  destruct (first_column metadata) as [col|] eqn:Ec; [|done]. cbn [expect]. run_step.
  destruct (range_contains range _) eqn:Er; [by apply IH|].
  destruct (IH (S idx) (skip_group plan idx) E') as (plan' & -> & Hn). exists plan'. split; [done|].
  eapply narrowed_trans; [apply skip_narrowed|exact Hn]. exists metadata, col. split_and!; [done|done|].
  intros Hin%range_ok. congruence.
Qed.

(** *** By statistics *)

Lemma metadata_of_ok groups indexes :
  Forall2 describes groups (seq 0 (List.length groups)) → Forall (λ i, i < List.length groups)%nat indexes →
  ∃ ms, metadata_of groups indexes = Ret ms ∧ Forall2 describes ms indexes.
Proof.
  intros D F. induction F as [|i indexes Hi _ (ms & E & H)]; [by exists []|]. cbn [metadata_of].
  destruct (lookup_lt_is_Some_2 groups i Hi) as [m Hm]. rewrite Hm, E. cbn [expect]. run_step.
  exists (m :: ms). split; [done|]. constructor; [|done].
  destruct (Forall2_lookup_l _ _ _ _ _ D Hm) as (j & Hj & Hd). apply lookup_seq in Hj as [-> _]. done.
Qed.

Lemma apply_values_ok reason indexes values plan metrics :
  List.length values = List.length indexes →
  (∀ i g, indexes !! i = Some g → values !! i = Some false → reason g) →
  narrowed reason plan (apply_values (zip indexes values) plan metrics).1.
Proof.
  revert values plan metrics. induction indexes as [|idx indexes IH]; intros [|value values] plan metrics Hl H; try done.
  { apply narrowed_refl. }
  cbn [zip zip_with]. unfold apply_values. cbn [foldl]. fold (apply_values (zip indexes values)).
  assert (∀ i g, indexes !! i = Some g → values !! i = Some false → reason g) as H' by (intros i; apply (H (S i))).
  destruct value; [by apply IH; [injection Hl|]|].
  eapply narrowed_trans; [apply skip_narrowed, (H 0); done|]. by apply IH; [injection Hl|].
Qed.

Lemma prune_by_statistics_ok groups predicate plan metrics :
  Forall2 describes groups (seq 0 (List.length groups)) → plan_len plan = List.length groups →
  ∃ plan' metrics', prune_by_statistics groups predicate plan metrics = Ret (plan', metrics')
    ∧ narrowed (λ i, ¬ matches predicate i) plan plan'.
Proof.
  intros D L. unfold prune_by_statistics. rewrite L, Nat.eqb_refl.
  destruct (metadata_of_ok groups (row_group_indexes plan) D) as (ms & -> & H).
  { rewrite indexes_ok, L. apply Forall_forall. intros i [Hi _]%list_elem_of_In%filter_In. apply list_elem_of_In, elem_of_seq in Hi. lia. }
  run_step. destruct (prune predicate _) as [values|] eqn:E; [|eexists _, _; split; [done|apply narrowed_refl]].
  destruct (apply_values (zip (row_group_indexes plan) values) plan metrics) as [plan' metrics'] eqn:Ea.
  exists plan', metrics'. split; [done|]. change plan' with ((plan', metrics').1). rewrite <- Ea.
  apply (prune_ok _ _ (row_group_indexes plan)) in E as [Hl Hv]; [by apply apply_values_ok|].
  split; [by eapply Forall2_length|]. intros c. cbn. split_and!; [..|done]; intros a Ha.
  - by eapply mins_ok.
  - by eapply maxes_ok.
  - by eapply nulls_ok.
  - by eapply rows_ok.
Qed.

(** *** By bloom filters *)

Lemma le_bytes_wraps n z : le_bytes n (wraps (8 * Z.of_nat n) z) = le_bytes n z.
Proof.
  assert (∀ n a b, (a mod 2 ^ (8 * Z.of_nat n) = b mod 2 ^ (8 * Z.of_nat n))%Z → le_bytes n a = le_bytes n b) as H.
  { clear. induction n as [|n IH]; intros a b E; [done|]. cbn [le_bytes].
    assert ((2 ^ (8 * Z.of_nat (S n)) = 256 * 2 ^ (8 * Z.of_nat n))%Z) as Ep.
    { replace (8 * Z.of_nat (S n))%Z with (8 + 8 * Z.of_nat n)%Z by lia. rewrite Z.pow_add_r by lia. done. }
    rewrite Ep in E. assert (0 < 2 ^ (8 * Z.of_nat n))%Z by (apply Z.pow_pos_nonneg; lia).
    f_equal.
    - rewrite !Z.rem_mul_r in E by lia. pose proof (Z.mod_pos_bound a 256). pose proof (Z.mod_pos_bound b 256). nia.
    - apply IH. rewrite !Z.rem_mul_r in E by lia.
      pose proof (Z.mod_pos_bound a 256). pose proof (Z.mod_pos_bound b 256). nia. }
  destruct n as [|n]; [done|]. apply H. apply wraps_mod. lia.
Qed.

(** A value that the row group holds is never answered with [false]. *)
Lemma check_scalar_ok g name i f v :
  wide_decimals → parquet_column name = Some i → row_group_bloom_filter g i = Ok (Some f) → has_value g name v →
  check_scalar f v (physical_type i) = true.
Proof.
  intros W Ec Ef Hv.
  assert (∀ b, written (physical_type i) (type_length i) v = Some b → sbbf_check f b = true) as H
    by (intros b; by apply (bloom_ok g name i)).
  clear Hv. induction v as [| | | | | | | | | | | | | |o p s|k v IH|]; cbn [check_scalar written] in *;
    try (destruct v as [v|]; [by apply H|done]).
  - destruct o as [z|]; [|done]. destruct (physical_type i) eqn:Et; [| | |done]; rewrite decimal_bytes.
    + destruct (p >? 9)%Z; [done|]. apply H. by rewrite (le_bytes_wraps 4).
    + destruct (p >? 18)%Z; [done|]. apply H. by rewrite (le_bytes_wraps 8).
    + apply H. by rewrite (W i Et).
  - destruct (dictionary_value v); [|done]. by apply IH.
  - done.
Qed.

Definition filters_of (idx : nat) (column_sbbf : BloomFilterStatistics) : Prop :=
  ∀ name f ty, column_sbbf !! name = Some (f, ty) →
    ∃ i, parquet_column name = Some i ∧ row_group_bloom_filter idx i = Ok (Some f) ∧ ty = physical_type i.

Lemma collect_filters_ok idx columns column_sbbf metrics :
  filters_of idx column_sbbf → filters_of idx (collect_filters idx columns column_sbbf metrics).1.
Proof.
  revert column_sbbf metrics. induction columns as [|name columns IH]; intros sbbf metrics H; [done|]. cbn [collect_filters].
  destruct (parquet_column name) as [i|] eqn:Ec; [|by apply IH].
  destruct (row_group_bloom_filter idx i) as [[f|]|] eqn:Ef; [|by apply IH..].
  apply IH. unfold filters_of, BloomFilterStatistics in *. intros name' f' ty Hl. destruct (decide (name = name')) as [<-|Hne].
  - rewrite lookup_insert_eq in Hl. injection Hl as <- <-. by exists i.
  - rewrite lookup_insert_ne in Hl by done. by apply H.
Qed.

Lemma prune_group_by_bloom_ok idx predicate plan metrics :
  wide_decimals →
  ∃ plan' metrics', prune_group_by_bloom idx predicate plan metrics = Ret (plan', metrics')
    ∧ narrowed (λ i, ¬ matches predicate i) plan plan'.
Proof.
  intros W. unfold prune_group_by_bloom.
  pose proof (collect_filters_ok idx (literal_columns predicate) ∅ metrics) as Hf.
  destruct (collect_filters idx (literal_columns predicate) ∅ metrics) as [sbbf m]. cbn [fst] in Hf.
  destruct (prune predicate (bloom_statistics sbbf)) as [values|] eqn:E.
  - apply (prune_ok _ _ [idx]) in E as [Hl Hv].
    + destruct values as [|value [|? ?]]; try done. cbn [head expect]. run_step.
      destruct value; cbn [negb]; (eexists _, _; split; [reflexivity|]); [apply narrowed_refl|].
      apply skip_narrowed. by apply (Hv 0 idx).
    + split; [done|]. intros c. cbn. split_and!; [done..|]. intros vs bs Eb. unfold bloom_contained in Eb.
      destruct (sbbf !! c) as [[f ty]|] eqn:Es; [|done]. injection Eb as <-. split; [done|].
      intros [|i] g Hi; [|done]. injection Hi as <-.
      destruct (Hf ltac:(intros ? ? ? [=]) c f ty Es) as (i & Ec & Ef & ->).
      split; [|by destruct (forallb _ _)].
      destruct (forallb _ _) eqn:Ea; [|done]. intros _ v Hin Hv. rewrite forallb_forall in Ea.
      specialize (Ea v (proj1 (list_elem_of_In _ _) Hin)). by rewrite (check_scalar_ok idx c i f v W Ec Ef Hv) in Ea.
  - run_step. eexists _, _. split; [reflexivity|]. apply narrowed_refl.
Qed.

Lemma prune_bloom_from_ok indexes predicate plan metrics :
  wide_decimals →
  ∃ plan' metrics', prune_bloom_from indexes predicate plan metrics = Ret (plan', metrics')
    ∧ narrowed (λ i, ¬ matches predicate i) plan plan'.
Proof.
  intros W. revert plan metrics. induction indexes as [|idx indexes IH]; intros plan metrics; cbn [prune_bloom_from].
  { eexists _, _. split; [done|]. apply narrowed_refl. }
  destruct (should_scan plan idx); [|by apply IH].
  destruct (prune_group_by_bloom_ok idx predicate plan metrics W) as (p1 & m1 & -> & H1). run_step.
  destruct (IH p1 m1) as (p2 & m2 & -> & H2). exists p2, m2. split; [done|]. by eapply narrowed_trans.
Qed.

(** C34: pruning never panics and never leaves out a row group that a scan needs: of
    the row groups that the plan scans, the ones that it no longer scans have their
    first page outside of the range, or no row that satisfies the predicate, by
    statistics or by a bloom filter.  Decimals in fixed-length columns must take
    sixteen bytes. *)
Theorem row_group_pruning_safe groups range predicate plan metrics :
  Forall2 describes groups (seq 0 (List.length groups)) → plan_len plan = List.length groups →
  Forall (λ m, first_column m ≠ None) groups → wide_decimals →
  ∃ plan' metrics', prune_row_groups groups range predicate plan metrics = Ret (plan', metrics')
    ∧ plan_len plan' = plan_len plan
    ∧ ∀ i, (should_scan plan' i = true → should_scan plan i = true)
         ∧ (should_scan plan i = true → should_scan plan' i = false →
              (∃ r, range = Some r ∧ out_of_range groups r i)
              ∨ ∃ p, predicate = Some p ∧ ¬ matches p i).
Proof.
  intros D L Fc W.
  set (reason := λ i, (∃ r, range = Some r ∧ out_of_range groups r i) ∨ ∃ p, predicate = Some p ∧ ¬ matches p i).
  assert (∃ plan' metrics', prune_row_groups groups range predicate plan metrics = Ret (plan', metrics')
            ∧ narrowed reason plan plan') as (plan' & metrics' & E & Hn); [|by exists plan', metrics'].
  unfold prune_row_groups.
  assert (∃ p1, match range with Some range => prune_by_range groups range plan | None => Ret plan end = Ret p1
            ∧ narrowed reason plan p1) as (p1 & -> & H1).
  { destruct range as [r|]; [|exists plan; split; [done|apply narrowed_refl]].
    unfold prune_by_range. rewrite L, Nat.eqb_refl.
    destruct (prune_range_from_ok groups groups r 0 plan Fc eq_refl) as (p1 & -> & H1). exists p1. split; [done|].
    eapply narrowed_weaken; [|exact H1]. intros i Hi. left. by exists r. }
  run_step. destruct predicate as [p|]; [|by exists p1, metrics].
  assert (plan_len p1 = List.length groups) as L1 by (destruct H1; congruence).
  assert (∀ i, ¬ matches p i → reason i) as Hr by (intros i Hi; right; by exists p).
  destruct (prune_by_statistics_ok groups p p1 metrics D L1) as (p2 & m2 & -> & H2). run_step.
  apply (narrowed_weaken _ _ _ _ Hr) in H2. pose proof (narrowed_trans _ _ _ _ H1 H2) as H12.
  destruct (plan_is_empty p2); [by exists p2, m2|]. unfold prune_by_bloom_filters.
  assert (plan_len p2 = List.length groups) as -> by (destruct H2; congruence). rewrite Nat.eqb_refl.
  destruct (prune_bloom_from_ok (seq 0 (List.length groups)) p p2 m2 W) as (p3 & m3 & -> & H3).
  exists p3, m3. split; [done|]. eapply narrowed_trans; [exact H12|]. exact (narrowed_weaken _ _ _ _ Hr H3).
Qed.
End safety.

(** ** A sample *)

(** One decimal column "d" over the row groups; a filter holds what was written. *)
Section sample.
Context (length_of_d : nat) (column : nat → list Z).

Definition decimal (v : Z) : ScalarValue := SvDecimal128 (Some v) 20 2.

Definition sample_bloom (g : nat) : list (list Z) := (λ v, rev (le_bytes length_of_d v)) <$> column g.

(** Plans are the flags of the row groups; a predicate is [d = v]. *)
Definition sample_pruning : PruningLib := {|
  AccessPlan := list bool;
  plan_len := @List.length bool;
  plan_is_empty p := bool_decide (p = []);
  should_scan p i := nth i p false;
  skip_group p i := <[i := false]> p;
  row_group_indexes p := List.filter (λ i, nth i p false) (seq 0 (List.length p));
  FileRange := Z * Z;
  range_contains r o := (r.1 <=? o)%Z && (o <? r.2)%Z;
  RowGroupMetaData := nat;
  first_column m := Some (Chunk None (100 * Z.of_nat m));
  StatArray := unit;
  row_group_mins _ _ := None;
  row_group_maxes _ _ := None;
  row_group_null_counts _ _ := None;
  row_group_row_counts _ _ := None;
  PruningPredicate := Z;
  literal_columns _ := ["d"];
  prune v st :=
    match ps_contained st "d" [decimal v] with
    | Some answers => Some ((λ a, match a with Some false => false | _ => true end) <$> answers)
    | None => Some (replicate (ps_num_containers st) true)
    end;
  Sbbf := list (list Z);
  as_bytes h := match h with HBytes b | HDecimal b _ _ => b | _ => [] end;
  sbbf_check f b := bool_decide (b ∈ f);
  parquet_column name := if String.eqb name "d" then Some 0 else None;
  physical_type _ := PFixedLenByteArray;
  row_group_bloom_filter g _ := Ok (Some (sample_bloom g))
|}.

Definition sample_pruning_laws : PruningLaws (LB := sample_pruning).
Proof.
  refine {|
    describes := (λ m g, m = g) : RowGroupMetaData (PruningLib := sample_pruning) → nat → Prop;
    has_value g name v := name = "d" ∧ ∃ z, z ∈ column g ∧ v = decimal z;
    matches := (λ v g, v ∈ column g) : PruningPredicate (PruningLib := sample_pruning) → nat → Prop;
    stat_truth _ _ _ _ := True;
    type_length _ := length_of_d;
    in_range_of r o := (r.1 <= o < r.2)%Z
  |}.
  - intros p i. apply length_insert.
  - intros p i j. cbn. rewrite !nth_lookup. case Nat.eqb_spec; intros Hij.
    + subst j. rewrite andb_false_r. destruct (decide (i < List.length p)%nat).
      * by rewrite list_lookup_insert_eq.
      * by rewrite lookup_ge_None_2 by (rewrite length_insert; lia).
    + by rewrite list_lookup_insert_ne, andb_true_r.
  - done.
  - intros [lo hi] o. cbn. rewrite andb_true_iff, Z.leb_le, Z.ltb_lt. done.
  - done.
  - done.
  - done.
  - done.
  - done.
  - intros g name i f v b _ [= <-] (_ & z & Hz & ->). cbn. intros [= <-]. apply bool_decide_eq_true.
    by apply (list_elem_of_fmap_2 (λ v, rev (le_bytes length_of_d v))).
  - intros v st gs values [Hn Ht]. cbn in st, Hn, Ht |- *. destruct (Ht "d") as (_ & _ & _ & _ & Hc).
    destruct (ps_contained st "d" [decimal v]) as [answers|] eqn:E; intros [= <-].
    + destruct (Hc _ _ E) as [Hl Ha]. split; [by rewrite length_fmap|]. intros i g Hi. rewrite list_lookup_fmap.
      destruct (answers !! i) as [[[]|]|] eqn:Ea; cbn; try done. intros _ Hin.
      destruct (Ha i g Hi) as [Hf _]. apply (Hf Ea (decimal v)); [by left|]. split; [done|]. by exists v.
    + split; [by rewrite length_replicate|]. intros i g _ [? _]%lookup_replicate. done.
Defined.
End sample.

(** Three row groups; the first page of the last one is out of the range, the second
    one has no 7. *)
Definition sample_column (g : nat) : list Z :=
  match g with 0 => [5; -7; 7]%Z | 1 => [12; -6]%Z | _ => [7]%Z end.

Definition sample_run (length_of_d : nat) : outcome (list bool * FileMetrics) :=
  prune_row_groups (LB := sample_pruning length_of_d sample_column) [0; 1; 2] (Some (0, 200)%Z) (Some 7%Z)
    [true; true; true] (Metrics 0 0 0 0 0).

Lemma row_group_pruning_safe_witness :
  sample_run 16 = Ret ([true; false; false], Metrics 0 2 1 1 0)
  ∧ ∃ plan' metrics', sample_run 16 = Ret (plan', metrics') ∧ (¬ 7%Z ∈ sample_column 1).
Proof.
  split; [vm_compute; reflexivity|].
  destruct (row_group_pruning_safe (LW := sample_pruning_laws 16 sample_column) [0; 1; 2] (Some (0, 200)%Z) (Some 7%Z)
              [true; true; true] (Metrics 0 0 0 0 0)) as (plan' & metrics' & E & _ & H).
  - repeat constructor.
  - reflexivity.
  - repeat constructor; discriminate.
  - intros i _. reflexivity.
  - assert (Ret ([true; false; false], Metrics 0 2 1 1 0) = Ret (plan', metrics')) as E'
      by (rewrite <- E; vm_compute; reflexivity).
    injection E' as <- <-. eexists _, _. split; [exact E|].
    destruct (H 1) as [_ Hr]. destruct (Hr eq_refl eq_refl) as [(r & [= <-] & m & col & Hm & Hcol & Ho)|(p & [= <-] & Hp)].
    + injection Hm as <-. injection Hcol as <-. exfalso. apply Ho. cbn. lia.
    + exact Hp.
Defined.

(** Where a decimal of a fixed-length column takes fewer than sixteen bytes, the
    bytes that are looked up are never those that were written: the row group that
    holds the value is left out. *)
Theorem narrow_decimal_pruned :
  (∀ (LB : PruningLib) (LW : PruningLaws) v p s f,
     check_scalar f (SvDecimal128 (Some v) p s) PFixedLenByteArray = sbbf_check f (rev (le_bytes 16 v)))
  ∧ 7%Z ∈ sample_column 0
  ∧ sample_run 9 = Ret ([false; false; false], Metrics 0 2 2 0 0).
Proof.
  split_and!; [|by do 2 right; left|vm_compute; reflexivity].
  intros LB LW v p s f. cbn [check_scalar]. by rewrite decimal_bytes.
Qed.
